(* ===== verification/_CoqProject ===== *)
-Q . S2P
Prelude.v
Blocks.v
Cells.v
Ctype.v
Strings.v
Strtol.v
Bitops.v
Div64.v
Number.v
Kfifo.v
Bitmap.v
Threads.v
Rwsem.v
Semaphore.v
Crc.v
Sort.v
PrioHeap.v
Rbtree.v
RadixTree.v
RadixGang.v
Lmb.v
LinkedList.v
Plist.v
Buddy.v
PageAlloc.v
Isolation.v
Bootmem.v
FreeBootmem.v
Cipher.v
Tea.v
Modes.v
