(* ===== verification/Prelude.v ===== *)
(** * Verification of the kernel library and the page allocator
      (src/kernel/lib, src/kernel/crypto, src/kernel/kernel, src/kernel/mm)

    The repository is a Linux 2.6.29 kernel for a 32-bit little-endian ARM
    processor.  This development models the part of it that the rest is built from:
    strings and numbers, bits and bitmaps, arithmetic, sorting, trees, maps, queues,
    lists, checksums, block ciphers and their modes, the semaphores, the memory regions
    of early boot, the boot-time allocator and the page allocator.  Their contracts are
    stated in the comments of the sources.

    ** How C is modelled

    - An unsigned integer of w bits is a [Z] in [0, 2^w); [wrap w] is written out
      wherever the source computes modulo 2^w, [swrap w] where a value is converted
      to a signed type.  Signed arithmetic is arithmetic on [Z]; where it could
      overflow, the theorems bound the operands.
    - The memory is a finite map [mem] from addresses to cells (bytes in
      Strings, Number, Cipher and the like; longs in Bitops and Bitmap; pointers in
      PrioHeap; the words of the nodes in Rbtree).  A pointer is an address.  [load] and [store] of an address that is
      not mapped are the fault [BadAddress], BUG_ON is the fault [Bug].
    - A routine is a program of the monad [M], state passing with faults ([ST St] for
      a state of its own, as in RadixTree).  A loop is
      [loop fuel body], where the body continues with the next values of its
      variables or breaks with a result; running out of fuel is a fault, so that a
      theorem "the routine returns" includes termination.  Fuel comes from the
      count that bounds the loop, from a constant where the word size bounds it (64
      doublings, 22 octal digits, the levels of a tree), or is an argument where only a terminator in
      memory bounds it; then the theorem says how much is enough.
    - Routines that C duplicates for two widths share a definition with the width
      as argument.  Function pointers are arguments; their contracts are classes
      ([Compare] and [Swap] in Sort, [Cipher] and [CipherLaws] in Cipher).
    - [wp c Q m] (total correctness) and the rules of Section WP are the proof
      method; [wp_loop] takes an invariant and a measure.

    ** The files

    - Prelude: integers, bits, the monad, the loop rules, arrays ([arr], [write],
      [mapped]) and strings ([cstr]) in memory, 32-bit words in byte memory.
    - Ctype: lib/ctype.c, the character classes.
    - Strings: lib/string.c, every routine.  Theorems: memmove on overlapping
      areas, the bounds of strlcpy and strlcat, the order of strcmp, the fields of
      strsep, the first occurrence of strstr.
    - Strtol: the strto family of lib/vsprintf.c: what strings the strict
      conversions accept and with what value.
    - Bitops: include/asm-generic/bitops, lib/hweight.c, lib/find_next_bit.c,
      lib/find_last_bit.c: population counts and bit searches.
    - Div64: lib/div64.c, include/linux/math64.h, asm-generic/div64.h: 64-bit
      division by shifting and subtracting, its signed form, and the precision of
      div64_u64.
    - Number: number(), put_dec and string() of lib/vsprintf.c: the decimal
      conversion by multiplication, the formatting of a field, and the round trip
      with Strtol.
    - Kfifo: kernel/kfifo.c and include/linux/kfifo.h, the byte ring buffer: a
      refinement of a bounded queue, and the use without a lock by one reader and one
      writer as a transition system whose steps are single byte copies.
    - Bitmap: lib/bitmap.c: region allocation, shifts, remapping, tests.
    - Rwsem: lib/rwsem-spinlock.c as a transition system.  Each routine runs under
      the semaphore's spinlock and is one step; a thread that sleeps in a down
      routine is a state of the thread.  The invariant gives mutual exclusion;
      [rwsem_refines_lock] ties every run, event by event, to an abstract lock with a
      queue; it is first come, first served, and no wake-up is lost.
    - Semaphore: kernel/semaphore.c as a transition system; a call that sleeps is a
      sequence of critical sections.  The permits are conserved, calls fail only for a
      signal or a timeout, and no release is lost.  Threads: what the two systems share.
    - Crc: the CRC routines and tables of lib/, and gen_crc32table.c: each equals
      the bitwise polynomial division.
    - Blocks: arrays of equal blocks in byte memory.  Cells: linked structures as
      lists of cells that do not overlap, up to permutation.
    - Sort: lib/sort.c.  [Section Heap] is the heap argument on lists, [Section
      Sort] the refinement to memory with scaled counters.
    - PrioHeap: lib/prio_heap.c, on the heaps of Sort.
    - Rbtree: lib/rbtree.c and include/linux/rbtree.h, red-black trees as linked nodes
      with the colour in the parent word.  The memory is tied to a tree with a place
      in it (a zipper); each pointer operation is a lemma on zippers, and the loops of
      insertion and removal restore the invariant of colours and black heights, keep
      the order and touch no other cell.  Their fuel is a constant: a deeper tree does
      not fit in 2^32 addresses.
    - RadixTree: lib/radix-tree.c, maps from indices to items with two tags.  The state
      is a record (root, store of nodes, the nodes set aside, in the allocator and
      waiting for a grace period); trees and places in them as for Rbtree.  The
      refinement to a finite map holds for callers that choose their requests by the
      results they get.  RadixGang: the gang lookups, which return the first items
      from an index on.
    - Lmb: lib/lmb.c, the tables of physical memory and reserved ranges that the kernel
      boots with.  A table is an array with a count; it is tied to a list of regions
      with gaps between them, which is determined by the addresses it covers, so that
      the operations refine union and difference of sets of addresses; the allocator
      returns the highest free block.  The fuel of its loops exceeds the length of the
      array.
    - LinkedList: include/linux/list.h.  A link is the next pointer of one node with the
      prev pointer of the other; a list is a cycle of links, a hash chain a path.  A
      memory is a multiset of lists, chains, loose nodes and words, and each operation is
      a rule that rewrites the sequences of nodes of the few it is about.  Plist:
      lib/plist.c on these lists, refined to a stable sorted sequence.
    - Buddy: the buddy system of a zone of mm/page_alloc.c: free lists by order and migrate
      type, merging, splitting, falling back to other types, the bitmap of block types.
      The invariant ties the lists to the marks in the pages; the zone is refined to a set
      of free pages, its lists are the maximal aligned runs of that set, and the counters
      are exact.
    - PageAlloc: the front end of that allocator: the checks at free and at allocation,
      compound pages, the list of the processor's own pages, watermarks, isolation of
      blocks.  Refined to a set of idle pages with holders that never share a page.
    - Isolation: mm/page_isolation.c.  Ranges of blocks are isolated as a whole or not at
      all, an isolated block is never allocated from by the buddy system, and the test
      whether all pages have come back is right.
    - Bootmem: mm/bootmem.c, the allocator that serves until the page allocator runs, for
      one node.  Bits of reserved pages and the end of the last allocation give the bytes
      that are available; regions in use never overlap.  The fuel of its search is twice
      the number of pages.  FreeBootmem: the release of what is left to the page
      allocator, on the state of both.
    - Cipher: crypto_xor and crypto_inc of crypto/algapi.c, and the interface of a
      block cipher with the laws the modes rely on.
    - Tea: crypto/tea.c, the instances TEA, XTEA and XETA of that interface.
    - Modes: the loops of crypto/ecb.c, crypto/cbc.c and crypto/pcbc.c, proved for
      every cipher with the laws.

    ** What is not modelled

    Registration of algorithms and modules, the walks over scatterlists, the format
    interpreter of vsnprintf, vsscanf, and the text conversions of bitmaps.  Of the page
    allocator: the choice among zones and nodes, reclaim, hotplug and the set-up of the
    zones, which need the rest of memory management.  lib/idr.c and the other ciphers of
    crypto/ repeat what the radix trees and TEA show.  Beyond that: the scheduler, file
    systems, network and drivers, whose behaviour depends on devices, interrupts and the
    rest of the kernel's state.  Memory allocation is an argument where a routine of the
    library calls it. *)

From Stdlib Require Import ZArith Lia Bool Btauto ZifyBool.
From stdpp Require Export base tactics gmap list.

#[export] Set Default Proof Using "Type".
Global Open Scope Z_scope.
#[global] Arguments Z.of_nat : simpl never.
#[global] Arguments Z.pow : simpl never.
#[global] Arguments Z.eqb : simpl nomatch.
#[global] Arguments Z.ltb : simpl nomatch.
#[global] Arguments Z.leb : simpl nomatch.

(** ** Automation of the development

    [kword] closes range goals on machine words, [kmem] goals on memory
    lookups, and the rewrite database [bits] pushes [Z.testbit] inside the bit
    operations. *)

Create HintDb kword.
Create HintDb kmem.
Create Rewrite HintDb bits.

(** Case analysis on the first boolean test or [decide] of the goal. *)
Ltac case_test :=
  match goal with
  | |- context [bool_decide ?P] => destruct (bool_decide_reflect P)
  | |- context [Z.ltb ?a ?b] => destruct (Z.ltb_spec a b)
  | |- context [Z.leb ?a ?b] => destruct (Z.leb_spec a b)
  | |- context [Z.eqb ?a ?b] => destruct (Z.eqb_spec a b)
  end.

(** Replace the comparisons of the goal that the context decides. *)
Ltac decide_tests :=
  repeat match goal with
  | |- context [Z.leb ?a ?b] =>
      first [replace (Z.leb a b) with true by lia | replace (Z.leb a b) with false by lia]
  | |- context [Z.ltb ?a ?b] =>
      first [replace (Z.ltb a b) with true by lia | replace (Z.ltb a b) with false by lia]
  | |- context [Z.eqb ?a ?b] =>
      first [replace (Z.eqb a b) with true by lia | replace (Z.eqb a b) with false by lia]
  end.

(** ** Machine integers

    A w-bit unsigned integer is a [Z] in [0, 2^w).  Unsigned arithmetic wraps;
    the wrap is written out with [wrap].  Signed C arithmetic is plain [Z]
    arithmetic (its overflow is undefined in C), and a conversion to a signed
    type of w bits is [swrap]. *)

Definition wrap (w z : Z) : Z := z mod 2 ^ w.
Definition swrap (w z : Z) : Z :=
  let u := wrap w z in if u <? 2 ^ (w - 1) then u else u - 2 ^ w.

Abbreviation u8 := (wrap 8).
Abbreviation u16 := (wrap 16).
Abbreviation u32 := (wrap 32).
Abbreviation s8 := (swrap 8).
Abbreviation s32 := (swrap 32).

(** [fits w z]: [z] is a value of the unsigned type of [w] bits. *)
Definition fits (w z : Z) : Prop := 0 <= z < 2 ^ w.

#[global] Instance fits_dec w z : Decision (fits w z).
Proof. unfold fits. apply _. Defined.

Lemma wrap_fits w z : 0 <= w -> fits w (wrap w z).
Proof. intros. unfold fits, wrap. apply Z.mod_pos_bound. lia. Qed.

Lemma wrap_id w z : fits w z -> wrap w z = z.
Proof. intros. unfold wrap. by apply Z.mod_small. Qed.

Lemma wrap_wrap w z : 0 <= w -> wrap w (wrap w z) = wrap w z.
Proof. intros. by apply wrap_id, wrap_fits. Qed.

Lemma wrap_add_l w a b : wrap w (wrap w a + b) = wrap w (a + b).
Proof. unfold wrap. apply Zplus_mod_idemp_l. Qed.

Lemma wrap_add_r w a b : wrap w (a + wrap w b) = wrap w (a + b).
Proof. unfold wrap. apply Zplus_mod_idemp_r. Qed.

Lemma wrap_sub_l w a b : wrap w (wrap w a - b) = wrap w (a - b).
Proof. unfold wrap. apply Zminus_mod_idemp_l. Qed.

Lemma wrap_sub_r w a b : wrap w (a - wrap w b) = wrap w (a - b).
Proof. unfold wrap. apply Zminus_mod_idemp_r. Qed.

Lemma fits_weaken v w z : v <= w -> fits v z -> fits w z.
Proof.
  unfold fits. intros Hvw [? Hz]. split; [done|].
  eapply Z.lt_le_trans; [exact Hz|]. apply Z.pow_le_mono_r; lia.
Qed.

(** A number in the range of a signed type is its own conversion. *)
Lemma swrap_id w z : 0 < w -> - 2 ^ (w - 1) <= z < 2 ^ (w - 1) -> swrap w z = z.
Proof.
  intros Hw Hz. assert (2 ^ w = 2 * 2 ^ (w - 1)) as E by (rewrite <- Z.pow_succ_r by lia; f_equal; lia).
  unfold swrap, wrap. destruct (Z.ltb_spec z 0).
  - replace (z mod 2 ^ w) with (z + 2 ^ w).
    + cbv zeta. destruct (Z.ltb_spec (z + 2 ^ w) (2 ^ (w - 1))); lia.
    + symmetry. rewrite <- (Z_mod_plus_full z 1), Z.mul_1_l. apply Z.mod_small. lia.
  - rewrite Z.mod_small by lia. cbv zeta. destruct (Z.ltb_spec z (2 ^ (w - 1))); lia.
Qed.

Lemma swrap_wrap w z : 0 <= w -> swrap w (wrap w z) = swrap w z.
Proof. intros Hw. unfold swrap. by rewrite wrap_wrap. Qed.

Lemma wrap_swrap w z : wrap w (swrap w z) = wrap w z.
Proof.
  unfold swrap. cbv zeta. destruct (Z.ltb_spec (wrap w z) (2 ^ (w - 1))); unfold wrap.
  - apply Zmod_mod.
  - rewrite <- (Z_mod_plus_full _ 1), Z.mul_1_l, Z.sub_add. apply Zmod_mod.
Qed.

Lemma swrap_opp w z : swrap w (- swrap w z) = swrap w (- z).
Proof.
  unfold swrap at 1 3. assert (wrap w (- swrap w z) = wrap w (- z)) as ->; [|done].
  rewrite <- !Z.sub_0_l, <- (wrap_sub_r _ _ (swrap w z)), wrap_swrap. apply wrap_sub_r.
Qed.

Lemma wrap_mul_l w a b : wrap w (wrap w a * b) = wrap w (a * b).
Proof. unfold wrap. apply Zmult_mod_idemp_l. Qed.

(** A property of the bytes is checked on all 256 of them. *)
Lemma byte_forall (P : Z -> bool) :
  forallb P (seqZ 0 256) = true -> forall b, fits 8 b -> P b = true.
Proof.
  intros H b Hb. rewrite forallb_forall in H. apply H, list_elem_of_In, elem_of_seqZ.
  unfold fits in Hb. lia.
Qed.

(** ** Bits *)

Lemma testbit_wrap w z i :
  0 <= w -> 0 <= i -> Z.testbit (wrap w z) i = (i <? w) && Z.testbit z i.
Proof.
  intros Hw Hi. unfold wrap. case_test; simpl.
  - by rewrite Z.mod_pow2_bits_low by lia.
  - apply Z.mod_pow2_bits_high. lia.
Qed.

Lemma fits_testbit_high w z i : 0 <= w -> fits w z -> w <= i -> Z.testbit z i = false.
Proof.
  intros Hw Hz Hi. rewrite <- (wrap_id w z) by done.
  rewrite testbit_wrap by lia. by case_test; [lia|].
Qed.

(** A non-negative number with no bit at or above [w] fits in [w] bits. *)
Lemma fits_of_bits w z :
  0 <= w -> 0 <= z -> (forall i, w <= i -> Z.testbit z i = false) -> fits w z.
Proof.
  intros Hw Hz Hbits. rewrite <- (Z.mod_small z (2 ^ w)); [by apply wrap_fits|].
  enough (z mod 2 ^ w = z) as <- by (apply Z.mod_pos_bound; lia).
  apply Z.bits_inj'. intros i Hi. fold (wrap w z). rewrite testbit_wrap by lia.
  case_test; [done|]. by rewrite Hbits by lia.
Qed.

Lemma fits_land_l w a b : 0 <= w -> fits w a -> 0 <= b -> fits w (Z.land a b).
Proof.
  intros Hw Ha Hb. apply fits_of_bits; [done|apply Z.land_nonneg; lia|].
  intros i Hi. rewrite Z.land_spec, (fits_testbit_high w a i) by done. done.
Qed.

Lemma fits_land w a b : 0 <= w -> fits w a -> fits w b -> fits w (Z.land a b).
Proof. intros. apply fits_land_l; [done..|]. unfold fits in *. lia. Qed.

Lemma fits_lor w a b : 0 <= w -> fits w a -> fits w b -> fits w (Z.lor a b).
Proof.
  intros Hw Ha Hb. apply fits_of_bits; [done|unfold fits in *; apply Z.lor_nonneg; lia|].
  intros i Hi.
  by rewrite Z.lor_spec, (fits_testbit_high w a i), (fits_testbit_high w b i) by done.
Qed.

Lemma fits_lxor w a b : 0 <= w -> fits w a -> fits w b -> fits w (Z.lxor a b).
Proof.
  intros Hw Ha Hb. apply fits_of_bits; [done|unfold fits in *; apply Z.lxor_nonneg; lia|].
  intros i Hi.
  by rewrite Z.lxor_spec, (fits_testbit_high w a i), (fits_testbit_high w b i) by done.
Qed.

Lemma fits_shiftr w a n : 0 <= n -> fits w a -> fits w (Z.shiftr a n).
Proof.
  intros Hn [Ha1 Ha2]. rewrite Z.shiftr_div_pow2 by done. split.
  - apply Z.div_pos; [done|lia].
  - eapply Z.le_lt_trans; [|exact Ha2]. apply Z.div_le_upper_bound; [lia|]. nia.
Qed.

Lemma fits_0 w : 0 <= w -> fits w 0.
Proof. unfold fits. lia. Qed.

#[export] Hint Resolve wrap_fits fits_land fits_lor fits_lxor fits_shiftr fits_0 : kword.
#[export] Hint Extern 1 (_ <= _) => lia : kword.
#[export] Hint Extern 1 (_ < _) => lia : kword.

Lemma Ztestbit_ones n i : 0 <= n -> Z.testbit (Z.ones n) i = (0 <=? i) && (i <? n).
Proof. apply Z.testbit_ones. Qed.

#[export] Hint Rewrite Z.land_spec Z.lor_spec Z.lxor_spec : bits.
#[export] Hint Rewrite Z.ldiff_spec Z.bits_0 : bits.
#[export] Hint Rewrite Z.shiftr_spec Z.shiftl_spec Z.lnot_spec testbit_wrap using lia : bits.
#[export] Hint Rewrite Ztestbit_ones using lia : bits.

(** [bitwise]: prove an equation of integers bit by bit. *)
Ltac bitwise i Hi :=
  apply Z.bits_inj'; intros i Hi; autorewrite with bits.

(** Where the elements of a list are after one has been deleted. *)
Lemma lookup_delete_other {A} (l : list A) i j x : delete i l !! j = Some x -> exists k, k <> i /\ l !! k = Some x /\ j = (if bool_decide (k < i)%nat then k else pred k).
Proof.
  destruct (decide (j < i)%nat) as [Hj|Hj].
  - rewrite list_lookup_delete_lt by done. intros. exists j. rewrite bool_decide_true by done. split; [lia|done].
  - rewrite list_lookup_delete_ge by lia. intros. exists (S j). rewrite bool_decide_false by lia. split; [lia|done].
Qed.

(** Rounding to a multiple of a power of two. *)
Lemma ldiff_pow2 a k : 0 <= k -> Z.ldiff a (2 ^ k - 1) = 2 ^ k * (a / 2 ^ k).
Proof.
  intros Hk. rewrite Z.sub_1_r, <- Z.ones_equiv, Z.ldiff_ones_r by done. rewrite Z.shiftl_mul_pow2, Z.shiftr_div_pow2 by done. lia.
Qed.

(** ** Results

    A routine of the kernel either returns or stops: on an address that is not
    mapped, on a failed [BUG_ON] assertion, or, in the model only, because the
    fuel given to a loop ran out. *)

Inductive fault := BadAddress | Bug | OutOfFuel.

Inductive result (A : Type) := Ok (a : A) | Fault (f : fault).
Arguments Ok {A} a.
Arguments Fault {A} f.

(** ** Memory

    The store a routine works on: a finite map from cell addresses to cell
    values.  A cell is one element of the arrays the routine addresses (a byte
    for lib/string.c, an unsigned long for lib/bitmap.c); pointers are cell
    addresses, and NULL is address 0. *)

Abbreviation mem := (gmap Z Z).
Definition NULL : Z := 0.

(** Programs on a state: the memory, or a record of a component's own. *)
Definition ST (St A : Type) : Type := St -> result (A * St).
Abbreviation M := (ST mem).

#[export] Instance M_ret {St} : MRet (ST St) := fun A a m => Ok (a, m).
#[export] Instance M_bind {St} : MBind (ST St) := fun A B k c m =>
  match c m with
  | Ok (a, m') => k a m'
  | Fault f => Fault f
  end.

(** Error codes, include/asm-generic/errno-base.h. *)
Definition ENOMEM : Z := 12.
Definition EBUSY : Z := 16.
Definition EEXIST : Z := 17.
Definition EINVAL : Z := 22.

Definition stop {St A} (f : fault) : ST St A := fun _ => Fault f.

Definition load (p : Z) : M Z := fun m =>
  match m !! p with
  | Some v => Ok (v, m)
  | None => Fault BadAddress
  end.

Definition store (p v : Z) : M unit := fun m =>
  match m !! p with
  | Some _ => Ok (tt, <[p := v]> m)
  | None => Fault BadAddress
  end.

(** [BUG_ON(b)] of include/asm-generic/bug.h. *)
Definition BUG_ON {St} (b : bool) : ST St unit := if b then stop Bug else mret tt.

(** The C loop: the body maps the loop's variables either to their next values
    ([inl]) or to the value the loop is left with ([inr]). *)
Fixpoint loop {St S R : Type} (fuel : nat) (body : S -> ST St (S + R)) (s : S) : ST St R :=
  match fuel with
  | O => stop OutOfFuel
  | Datatypes.S fuel' =>
      r ← body s;
      match r with
      | inl s' => loop fuel' body s'
      | inr x => mret x
      end
  end.

Abbreviation continue s := (mret (inl s)).
Abbreviation break x := (mret (inr x)).

(** ** Total-correctness triples

    [wp c Q m]: run on [m], [c] returns (it neither faults nor runs out of
    fuel) and its result and final memory satisfy [Q]. *)

Definition wp {St A} (c : ST St A) (Q : A -> St -> Prop) (m : St) : Prop :=
  match c m with
  | Ok (a, m') => Q a m'
  | Fault _ => False
  end.

Section WP.
Context {St A : Type}.
Implicit Types (c : ST St A) (Q : A -> St -> Prop) (m : St).

Lemma wp_ret (a : A) Q m : Q a m -> wp (mret a) Q m.
Proof. done. Qed.

Lemma wp_bind {B} (c : ST St B) (k : B -> ST St A) Q m :
  wp c (fun b => wp (k b) Q) m -> wp (c ≫= k) Q m.
Proof. unfold wp, mbind, M_bind. by destruct (c m) as [[b m']|]. Qed.

Lemma wp_assoc {B C} (c : ST St B) (k : B -> ST St C) (h : C -> ST St A) Q m :
  wp ((c ≫= k) ≫= h) Q m -> wp (c ≫= fun b => k b ≫= h) Q m.
Proof. unfold wp, mbind, M_bind. by destruct (c m) as [[b m']|]. Qed.

Lemma wp_mono c Q Q' m : wp c Q m -> (forall a m', Q a m' -> Q' a m') -> wp c Q' m.
Proof. unfold wp. destruct (c m) as [[a m']|]; auto. Qed.

Lemma wp_eq c a m' m : wp c (fun b n => b = a /\ n = m') m <-> c m = Ok (a, m').
Proof.
  unfold wp. destruct (c m) as [[b n]|]; split; intros H; try done.
  - by destruct H as [-> ->].
  - by simplify_eq.
Qed.

Lemma wp_det c a m m' Q : c m = Ok (a, m') -> Q a m' -> wp c Q m.
Proof. unfold wp. by intros ->. Qed.

(** What a triple says of running the program. *)
Lemma wp_run c Q m : wp c Q m -> exists a m', c m = Ok (a, m') /\ Q a m'.
Proof. unfold wp. destruct (c m) as [[a m']|]; [|done]. by exists a, m'. Qed.

Lemma wp_if (b : bool) c1 c2 Q m :
  (b = true -> wp c1 Q m) -> (b = false -> wp c2 Q m) -> wp (if b then c1 else c2) Q m.
Proof. destruct b; auto. Qed.
End WP.

Lemma wp_load p v Q m : m !! p = Some v -> Q v m -> wp (load p) Q m.
Proof. unfold wp, load. by intros ->. Qed.

Lemma wp_store p v Q m :
  is_Some (m !! p) -> Q tt (<[p := v]> m) -> wp (store p v) Q m.
Proof. unfold wp, store. by intros [? ->]. Qed.

Lemma wp_BUG_ON {St} b Q (m : St) : b = false -> Q tt m -> wp (BUG_ON b) Q m.
Proof. by intros ->. Qed.

(** The loop rule: an invariant and a measure that the body decreases.  Fuel
    above the measure is enough for the loop to end. *)
Lemma wp_loop {St S R : Type} (I : S -> St -> Prop) (μ : S -> nat)
    (body : S -> ST St (S + R)) (Q : R -> St -> Prop) fuel s m :
  I s m -> (μ s < fuel)%nat ->
  (forall s m, I s m ->
     wp (body s) (fun r m' =>
       match r with
       | inl s' => I s' m' /\ (μ s' < μ s)%nat
       | inr x => Q x m'
       end) m) ->
  wp (loop fuel body s) Q m.
Proof.
  intros HI Hfuel Hbody. revert s m HI Hfuel.
  induction fuel as [|fuel IH]; intros s m HI Hfuel; [lia|].
  simpl. apply wp_bind. eapply wp_mono; [by apply Hbody|].
  intros [s'|x] m' HQ; simpl in HQ; [|by apply wp_ret].
  destruct HQ. apply IH; [done|lia].
Qed.

(** The loop rule with a measure that the invariant carries. *)
Lemma wp_loop_depth {St S R} (I : nat -> S -> St -> Prop) (body : S -> ST St (S + R)) (Q : R -> St -> Prop) :
  (forall n s m, I n s m ->
     wp (body s) (fun r m' =>
       match r with
       | inl s' => exists n', (n' < n)%nat /\ I n' s' m'
       | inr x => Q x m'
       end) m) ->
  forall fuel n s m, I n s m -> (n < fuel)%nat -> wp (loop fuel body s) Q m.
Proof.
  intros Hbody. induction fuel as [|fuel IH]; intros n s m HI Hn; [lia|].
  simpl. apply wp_bind. eapply wp_mono; [by eapply Hbody|]. intros [s'|x] m' H; simpl in H; [|by apply wp_ret].
  destruct H as (n' & Hlt & HI'). eapply IH; [done|lia].
Qed.

(** A loop of up to 2^k turns, for loops that only the width of a counter bounds. *)
Fixpoint loop_exp {St S R} (k : nat) (body : S -> ST St (S + R)) (s : S) : ST St (S + R) :=
  match k with
  | O => body s
  | S k =>
      r ← loop_exp k body s;
      match r with
      | inl s' => loop_exp k body s'
      | inr x => mret (inr x)
      end
  end.

Definition long_loop {St S R} (body : S -> ST St (S + R)) (s : S) : ST St R :=
  r ← loop_exp 33 body s;
  match r with
  | inl _ => stop OutOfFuel
  | inr x => mret x
  end.

Lemma wp_long_loop {St S R : Type} (I : S -> St -> Prop) (μ : S -> Z) (body : S -> ST St (S + R)) (Q : R -> St -> Prop) s m :
  I s m -> μ s < 2 ^ 33 ->
  (forall s m, I s m -> 0 <= μ s /\
     wp (body s) (fun r m' => match r with inl s' => I s' m' /\ μ s' < μ s | inr x => Q x m' end) m) ->
  wp (long_loop body s) Q m.
Proof.
  intros HI Hμ Hbody. apply wp_bind.
  assert (forall k s m, I s m ->
    wp (loop_exp k body s) (fun r m' => match r with inl s' => I s' m' /\ μ s' + 2 ^ Z.of_nat k <= μ s | inr x => Q x m' end) m) as Hk.
  { clear s m HI Hμ. induction k as [|k IH]; intros s m HI.
    - eapply wp_mono; [by apply Hbody|]. intros [s'|x] m' H; [|done]. destruct H. split; [done|simpl; lia].
    - apply wp_bind. eapply wp_mono; [by apply IH|]. intros [s'|x] m' H; [|done]. destruct H as [HI' Hle].
      eapply wp_mono; [by apply IH|]. intros [s''|x] m'' H'; [|done]. destruct H'. split; [done|].
      rewrite Nat2Z.inj_succ, Z.pow_succ_r by lia. lia. }
  eapply wp_mono; [by apply (Hk 33%nat)|]. intros [s'|x] m' H; [|done]. destruct H as [HI' Hle]. destruct (Hbody s' m' HI') as [? _].
  change (Z.of_nat 33) with 33 in Hle. lia.
Qed.

(** The counted loop [for (k = lo; k < hi; k++) body], whose body may return from
    the routine with a value ([Some]) or fall through ([None]). *)
Definition for_loop {St R} (lo hi : Z) (body : Z -> ST St (option R)) : ST St (option R) :=
  loop (S (Z.to_nat (hi - lo))) (fun k =>
    if k <? hi then
      r ← body k;
      match r with
      | Some x => break (Some x)
      | None => continue (k + 1)
      end
    else break None) lo.

(** The counted loop [for (k = hi; k >= lo; k--) body] without an early return. *)
Definition for_down {St} (hi lo : Z) (body : Z -> ST St unit) : ST St unit :=
  loop (S (Z.to_nat (hi - lo + 1))) (fun k =>
    if lo <=? k then body k ;; continue (k - 1) else break tt) hi.

(** The counted loop [for (k = lo; k < hi; k++) body] without an early return. *)
Definition for_up {St} (lo hi : Z) (body : Z -> ST St unit) : ST St unit :=
  loop (S (Z.to_nat (hi - lo))) (fun k =>
    if k <? hi then body k ;; continue (k + 1) else break tt) lo.

(** Go on with [k] unless the loop [c] has returned. *)
Definition or_else {St R} (c : ST St (option R)) (k : ST St R) : ST St R :=
  r ← c;
  match r with
  | Some x => mret x
  | None => k
  end.

Lemma wp_for {St R} (I : Z -> St -> Prop) lo hi (body : Z -> ST St (option R))
    (Q : option R -> St -> Prop) m :
  lo <= hi -> I lo m ->
  (forall k m, lo <= k < hi -> I k m ->
     wp (body k) (fun r m' => match r with Some x => Q (Some x) m' | None => I (k + 1) m' end) m) ->
  (forall m, I hi m -> Q None m) ->
  wp (for_loop lo hi body) Q m.
Proof.
  intros Hle HI Hbody Hend.
  apply (wp_loop (fun k m => lo <= k <= hi /\ I k m) (fun k => Z.to_nat (hi - k))); [by split; [lia|]|lia|].
  intros k m' [Hk HI']. destruct (Z.ltb_spec k hi).
  - apply wp_bind. eapply wp_mono; [apply Hbody; [lia|done]|]. intros [x|] m'' HQ; [done|].
    split; [split; [lia|done]|lia].
  - apply wp_ret. apply Hend. by replace hi with k by lia.
Qed.

Lemma wp_for_down {St} (I : Z -> St -> Prop) hi lo (body : Z -> ST St unit) (Q : unit -> St -> Prop) m :
  lo - 1 <= hi -> I hi m ->
  (forall k m, lo <= k <= hi -> I k m -> wp (body k) (fun _ m' => I (k - 1) m') m) ->
  (forall m, I (lo - 1) m -> Q tt m) ->
  wp (for_down hi lo body) Q m.
Proof.
  intros Hle HI Hbody Hend.
  apply (wp_loop (fun k m => lo - 1 <= k <= hi /\ I k m) (fun k => Z.to_nat (k - lo + 1)));
    [by split; [lia|]|lia|].
  intros k m' [Hk HI']. destruct (Z.leb_spec lo k).
  - apply wp_bind. eapply wp_mono; [apply Hbody; [lia|done]|]. intros [] m'' HQ.
    apply wp_ret. split; [split; [lia|done]|lia].
  - apply wp_ret. apply Hend. by replace (lo - 1) with k by lia.
Qed.

Lemma wp_for_up {St} (I : Z -> St -> Prop) lo hi (body : Z -> ST St unit) (Q : unit -> St -> Prop) m :
  lo <= hi -> I lo m ->
  (forall k m, lo <= k < hi -> I k m -> wp (body k) (fun _ m' => I (k + 1) m') m) ->
  (forall m, I hi m -> Q tt m) ->
  wp (for_up lo hi body) Q m.
Proof.
  intros Hle HI Hbody Hend.
  apply (wp_loop (fun k m => lo <= k <= hi /\ I k m) (fun k => Z.to_nat (hi - k)));
    [by split; [lia|]|lia|].
  intros k m' [Hk HI']. destruct (Z.ltb_spec k hi).
  - apply wp_bind. eapply wp_mono; [apply Hbody; [lia|done]|]. intros [] m'' HQ.
    apply wp_ret. split; [split; [lia|done]|lia].
  - apply wp_ret. apply Hend. by replace hi with k by lia.
Qed.

Lemma wp_or_else {St R} (c : ST St (option R)) (k : ST St R) (Q : R -> St -> Prop) m :
  wp c (fun r m' => match r with Some x => Q x m' | None => wp k Q m' end) m ->
  wp (or_else c k) Q m.
Proof. intros. apply wp_bind. eapply wp_mono; [done|]. intros [x|] m' HQ; done. Qed.

(** [wp_step]: one step of a program; loads and stores leave the goals that the
    address is mapped, solved from the context where they can be. *)
Ltac wp_step :=
  lazymatch goal with
  | |- wp (mbind _ _) _ _ => apply wp_bind
  | |- wp (mret _) _ _ => apply wp_ret
  | |- wp (load _) _ _ => eapply wp_load; [by eauto with kmem|]
  | |- wp (store _ _) _ _ => apply wp_store; [by eauto with kmem|]
  end.

(** ** Arrays in memory *)

(** [arr m p l]: the cells from [p] on hold the elements of [l]. *)
Definition arr (m : mem) (p : Z) (l : list Z) : Prop :=
  forall (i : nat) x, l !! i = Some x -> m !! (p + Z.of_nat i) = Some x.

(** [mapped m p n]: the [n] cells from [p] on are mapped. *)
Definition mapped (m : mem) (p n : Z) : Prop :=
  forall a, p <= a < p + n -> is_Some (m !! a).

(** [write m p l]: the memory [m] with [l] written from [p] on; the abstract
    effect of every routine that fills an array. *)
Fixpoint write (m : mem) (p : Z) (l : list Z) : mem :=
  match l with
  | [] => m
  | x :: l' => write (<[p := x]> m) (p + 1) l'
  end.

Lemma lookup_write m p l a :
  write m p l !! a =
    if (p <=? a) && (a <? p + Z.of_nat (length l)) then l !! Z.to_nat (a - p) else m !! a.
Proof.
  revert m p. induction l as [|x l IH]; intros m p; simpl.
  - by repeat (case_test; simpl; try lia).
  - rewrite IH. destruct (Z.eq_dec p a) as [->|Hne].
    + rewrite (proj2 (Z.leb_gt _ _)) by lia. simpl. rewrite lookup_insert_eq.
      rewrite Z.leb_refl, Z.sub_diag. by rewrite (proj2 (Z.ltb_lt _ _)) by lia.
    + rewrite lookup_insert_ne by done.
      repeat (case_test; simpl; try lia); try done.
      replace (Z.to_nat (a - p)) with (S (Z.to_nat (a - (p + 1)))) by lia. done.
Qed.

Lemma lookup_write_out m p l a :
  a < p \/ p + Z.of_nat (length l) <= a -> write m p l !! a = m !! a.
Proof. intros. rewrite lookup_write. repeat (case_test; simpl; try lia); done. Qed.

Lemma lookup_write_in m p l a :
  p <= a < p + Z.of_nat (length l) -> write m p l !! a = l !! Z.to_nat (a - p).
Proof. intros. rewrite lookup_write. repeat (case_test; simpl; try lia); done. Qed.

Lemma write_arr m p l : arr (write m p l) p l.
Proof.
  intros i x Hi. pose proof (lookup_lt_Some _ _ _ Hi).
  rewrite lookup_write_in by lia. by replace (Z.to_nat _) with i by lia.
Qed.

Lemma write_app m p l1 l2 :
  write m p (l1 ++ l2) = write (write m p l1) (p + Z.of_nat (length l1)) l2.
Proof.
  revert m p. induction l1 as [|x l1 IH]; intros m p; simpl.
  - by rewrite Z.add_0_r.
  - rewrite IH. f_equal. lia.
Qed.

Lemma write_snoc m p l x :
  write m p (l ++ [x]) = <[p + Z.of_nat (length l) := x]> (write m p l).
Proof. by rewrite write_app. Qed.

Lemma write_mapped m p l a : is_Some (m !! a) -> is_Some (write m p l !! a).
Proof.
  intros. rewrite lookup_write. repeat (case_test; simpl; try done).
  apply lookup_lt_is_Some. lia.
Qed.

Lemma arr_lookup m p l i x :
  arr m p l -> 0 <= i -> l !! Z.to_nat i = Some x -> m !! (p + i) = Some x.
Proof. intros Harr Hi Hx. rewrite <- (Z2Nat.id i) by done. by apply Harr. Qed.

Lemma arr_mapped m p l : arr m p l -> mapped m p (Z.of_nat (length l)).
Proof.
  intros Harr a Ha. destruct (lookup_lt_is_Some_2 l (Z.to_nat (a - p))) as [x Hx]; [lia|].
  exists x. replace a with (p + (a - p)) by lia. apply arr_lookup with l; [done|lia|done].
Qed.

Lemma arr_app m p l1 l2 :
  arr m p (l1 ++ l2) <-> arr m p l1 /\ arr m (p + Z.of_nat (length l1)) l2.
Proof.
  split.
  - intros Harr. split; intros i x Hi.
    + apply Harr. by apply lookup_app_l_Some.
    + replace (_ + _) with (p + Z.of_nat (length l1 + i)) by lia. apply Harr.
      rewrite lookup_app_r by lia. by replace (_ - _)%nat with i by lia.
  - intros [H1 H2] i x Hi. apply lookup_app_Some in Hi as [Hi|[Hge Hi]]; [by apply H1|].
    apply H2 in Hi. by replace (_ + _) with (p + Z.of_nat i) in Hi by lia.
Qed.

Lemma arr_cons m p x l : arr m p (x :: l) <-> m !! p = Some x /\ arr m (p + 1) l.
Proof.
  change (x :: l) with ([x] ++ l). rewrite arr_app. simpl. split.
  - intros [H1 H2]. split; [|done]. rewrite <- (Z.add_0_r p). by apply (H1 0%nat).
  - intros [H1 H2]. split; [|done]. intros [|[|]] y Hy; [|done..]. simplify_eq/=.
    by rewrite Z.add_0_r.
Qed.

(** Writing outside an array leaves it as it is. *)
Lemma arr_write_disjoint m p l q k :
  q + Z.of_nat (length k) <= p \/ p + Z.of_nat (length l) <= q ->
  arr m p l -> arr (write m q k) p l.
Proof.
  intros Hd Harr i x Hi. pose proof (lookup_lt_Some _ _ _ Hi).
  rewrite lookup_write_out by lia. by apply Harr.
Qed.

#[export] Hint Resolve write_mapped arr_mapped write_arr : kmem.

Lemma arr_insert_ne m p l a v :
  a < p \/ p + Z.of_nat (length l) <= a -> arr m p l -> arr (<[a := v]> m) p l.
Proof. intros. apply (arr_write_disjoint m p l a [v]); simpl; [lia|done]. Qed.

Lemma mapped_insert m p n a v : mapped m p n -> mapped (<[a := v]> m) p n.
Proof. intros Hm b Hb. apply (write_mapped m a [v]). by apply Hm. Qed.

Lemma mapped_sub m p n q k :
  mapped m p n -> p <= q -> q + k <= p + n -> mapped m q k.
Proof. intros Hm ?? a Ha. apply Hm. lia. Qed.

Lemma write_insert_comm m p l a v :
  a < p \/ p + Z.of_nat (length l) <= a ->
  write (<[a := v]> m) p l = <[a := v]> (write m p l).
Proof.
  intros Ha. apply map_eq. intros b. rewrite lookup_write.
  destruct (decide (a = b)) as [->|Hne].
  - rewrite !lookup_insert_eq. repeat (case_test; simpl; try lia); done.
  - by rewrite !lookup_insert_ne, lookup_write by done.
Qed.

(** Writes to areas that do not overlap commute. *)
Lemma write_comm m p l q k :
  p + Z.of_nat (length l) <= q \/ q + Z.of_nat (length k) <= p ->
  write (write m p l) q k = write (write m q k) p l.
Proof.
  intros Hd. apply map_eq. intros a. rewrite !lookup_write.
  repeat (case_test; simpl; try lia); done.
Qed.

(** The second of two writes to one area counts. *)
Lemma write_write m p l k : length l = length k -> write (write m p l) p k = write m p k.
Proof.
  intros Hl. apply map_eq. intros a. rewrite !lookup_write.
  repeat (case_test; simpl; try lia); done.
Qed.

(** Writing back what an array holds changes nothing. *)
Lemma write_id m p l : arr m p l -> write m p l = m.
Proof.
  intros Harr. apply map_eq. intros a. rewrite lookup_write.
  repeat (case_test; simpl; try done).
  destruct (lookup_lt_is_Some_2 l (Z.to_nat (a - p))) as [x Hx]; [lia|].
  rewrite Hx. symmetry. replace a with (p + (a - p)) by lia.
  apply arr_lookup with l; [done|lia|done].
Qed.

(** ** Running programs by equations *)

Section Run.
Context {A B : Type}.
Implicit Types (m : mem).

Lemma bind_load p v (k : Z -> M B) m : m !! p = Some v -> (load p ≫= k) m = k v m.
Proof. unfold mbind, M_bind, load. by intros ->. Qed.

Lemma bind_store p v (k : unit -> M B) m :
  is_Some (m !! p) -> (store p v ≫= k) m = k tt (<[p := v]> m).
Proof. unfold mbind, M_bind, store. by intros [? ->]. Qed.

Lemma bind_ret (a : A) (k : A -> M B) m : (mret a ≫= k) m = k a m.
Proof. done. Qed.

Lemma bind_Ok (c : M A) (k : A -> M B) a m m' :
  c m = Ok (a, m') -> (c ≫= k) m = k a m'.
Proof. unfold mbind, M_bind. by intros ->. Qed.

Lemma bind_Fault (c : M A) (k : A -> M B) f m : c m = Fault f -> (c ≫= k) m = Fault f.
Proof. unfold mbind, M_bind. by intros ->. Qed.
End Run.

Lemma loop_S {S R} fuel (body : S -> M (S + R)) s m :
  loop (Datatypes.S fuel) body s m =
    (body s ≫= fun r => match r with inl s' => loop fuel body s' | inr x => mret x end) m.
Proof. done. Qed.

Lemma bind_loop_S {S R B} fuel (body : S -> M (S + R)) s (k : R -> M B) m :
  (loop (Datatypes.S fuel) body s ≫= k) m =
    ((body s ≫= fun r => match r with inl s' => loop fuel body s' | inr x => mret x end) ≫= k) m.
Proof. done. Qed.

Lemma bind_bind {A B C} (c : M A) (k : A -> M B) (h : B -> M C) m :
  ((c ≫= k) ≫= h) m = (c ≫= fun a => k a ≫= h) m.
Proof. unfold mbind, M_bind. by destruct (c m) as [[]|]. Qed.

Lemma bind_if {A B} (b : bool) (c1 c2 : M A) (k : A -> M B) m :
  ((if b then c1 else c2) ≫= k) m = if b then (c1 ≫= k) m else (c2 ≫= k) m.
Proof. by destruct b. Qed.

Create Rewrite HintDb run.
#[export] Hint Rewrite @loop_S @bind_bind @bind_if @bind_ret : run.

(** [run]: execute loads and stores whose cells the context maps. *)
Ltac run :=
  autorewrite with run;
  repeat first
    [ progress simpl
    | erewrite bind_load by (by eauto with kmem)
    | rewrite bind_store by (by eauto with kmem)
    | progress autorewrite with run ].

(** ** Words in a memory of bytes *)

(** 32-bit accesses of a little-endian processor to the four bytes at [p]. *)
Definition load_le32 (p : Z) : M Z :=
  b0 ← load p;
  b1 ← load (p + 1);
  b2 ← load (p + 2);
  b3 ← load (p + 3);
  mret (b0 + 256 * (b1 + 256 * (b2 + 256 * b3))).

(** Byte [k] of a word. *)
Definition byte (k w : Z) : Z := u8 (Z.shiftr w (8 * k)).

Definition store_le32 (p w : Z) : M unit :=
  store p (byte 0 w) ;;
  store (p + 1) (byte 1 w) ;;
  store (p + 2) (byte 2 w) ;;
  store (p + 3) (byte 3 w).

(** The value of four bytes, least significant first, and the bytes of a value. *)
Definition of_le32 (l : list Z) : Z :=
  match l with
  | [b0; b1; b2; b3] => b0 + 256 * (b1 + 256 * (b2 + 256 * b3))
  | _ => 0
  end.

Definition to_le32 (w : Z) : list Z := [byte 0 w; byte 1 w; byte 2 w; byte 3 w].

Lemma fits_byte k w : fits 8 (byte k w).
Proof. apply wrap_fits. lia. Qed.

Lemma byte_div k w : 0 <= k -> byte k w = w / 2 ^ (8 * k) mod 256.
Proof. intros. unfold byte, wrap. by rewrite Z.shiftr_div_pow2 by lia. Qed.

Lemma byte_lxor k a b : 0 <= k -> byte k (Z.lxor a b) = Z.lxor (byte k a) (byte k b).
Proof.
  intros Hk. unfold byte. bitwise i Hi. by destruct (i <? 8).
Qed.

Lemma to_of_le32 l : length l = 4%nat -> Forall (fits 8) l -> to_le32 (of_le32 l) = l.
Proof.
  intros Hl Hf. destruct l as [|b0 [|b1 [|b2 [|b3 [|]]]]]; try done.
  apply Forall_cons in Hf as [H0 Hf]. apply Forall_cons in Hf as [H1 Hf].
  apply Forall_cons in Hf as [H2 Hf]. apply Forall_cons in Hf as [H3 _].
  unfold fits in *. change (2 ^ 8) with 256 in *. unfold to_le32, of_le32.
  rewrite !byte_div by lia. change (2 ^ (8 * 0)) with 1. change (2 ^ (8 * 1)) with 256.
  change (2 ^ (8 * 2)) with 65536. change (2 ^ (8 * 3)) with 16777216.
  repeat f_equal; Z.div_mod_to_equations; lia.
Qed.

Lemma of_to_le32 w : fits 32 w -> of_le32 (to_le32 w) = w.
Proof.
  intros Hw. unfold fits in Hw. unfold to_le32, of_le32. rewrite !byte_div by lia.
  change (2 ^ (8 * 0)) with 1. change (2 ^ (8 * 1)) with 256.
  change (2 ^ (8 * 2)) with 65536. change (2 ^ (8 * 3)) with 16777216.
  Z.div_mod_to_equations. lia.
Qed.

Lemma fits_of_le32 l : length l = 4%nat -> Forall (fits 8) l -> fits 32 (of_le32 l).
Proof.
  intros Hl Hf. destruct l as [|b0 [|b1 [|b2 [|b3 [|]]]]]; try done.
  apply Forall_cons in Hf as [H0 Hf]. apply Forall_cons in Hf as [H1 Hf].
  apply Forall_cons in Hf as [H2 Hf]. apply Forall_cons in Hf as [H3 _].
  unfold fits, of_le32 in *. lia.
Qed.

Lemma bytes_to_le32 w : Forall (fits 8) (to_le32 w).
Proof. repeat constructor; apply fits_byte. Qed.

Lemma load_le32_ok m p l :
  arr m p l -> length l = 4%nat -> load_le32 p m = Ok (of_le32 l, m).
Proof.
  intros Ha Hl. destruct l as [|b0 [|b1 [|b2 [|b3 [|]]]]]; try done.
  pose proof (arr_lookup m p _ 0 b0 Ha ltac:(lia) eq_refl) as H0. rewrite Z.add_0_r in H0.
  pose proof (arr_lookup m p _ 1 b1 Ha ltac:(lia) eq_refl) as H1.
  pose proof (arr_lookup m p _ 2 b2 Ha ltac:(lia) eq_refl) as H2.
  pose proof (arr_lookup m p _ 3 b3 Ha ltac:(lia) eq_refl) as H3.
  unfold load_le32.
  by rewrite (bind_load _ b0), (bind_load _ b1), (bind_load _ b2), (bind_load _ b3).
Qed.

Lemma store_le32_ok m p w :
  mapped m p 4 -> store_le32 p w m = Ok (tt, write m p (to_le32 w)).
Proof.
  intros Hm. unfold store_le32, to_le32. simpl.
  rewrite bind_store by (apply Hm; lia).
  rewrite bind_store by (apply (mapped_insert _ p 4 _ _ Hm); lia).
  rewrite bind_store by (apply (mapped_insert _ p 4 _ _ (mapped_insert _ p 4 _ _ Hm)); lia).
  unfold store. replace (p + 1 + 1) with (p + 2) by lia. replace (p + 2 + 1) with (p + 3) by lia.
  rewrite !lookup_insert_ne by lia. by destruct (Hm (p + 3)) as [? ->]; [lia|].
Qed.

(** ** C strings *)

(** [cstr m p s]: the NUL-terminated string at [p] is [s]. *)
Definition cstr (m : mem) (p : Z) (s : list Z) : Prop :=
  arr m p (s ++ [0]) /\ Forall (fun c => 0 < c < 256) s.

Lemma cstr_nil m p : cstr m p [] <-> m !! p = Some 0.
Proof.
  unfold cstr. simpl. rewrite arr_cons. split; [tauto|]. intros ?.
  split; [split; [done|]|done]. by intros i x Hi.
Qed.

Lemma cstr_cons m p c s : cstr m p (c :: s) <-> m !! p = Some c /\ 0 < c < 256 /\ cstr m (p + 1) s.
Proof. unfold cstr. simpl. rewrite arr_cons, Forall_cons. tauto. Qed.

Lemma cstr_app m p s1 s2 :
  cstr m p (s1 ++ s2) <->
  arr m p s1 /\ Forall (fun c => 0 < c < 256) s1 /\ cstr m (p + Z.of_nat (length s1)) s2.
Proof. unfold cstr. rewrite <- app_assoc, arr_app, Forall_app. tauto. Qed.

Lemma cstr_end m p s : cstr m p s -> m !! (p + Z.of_nat (length s)) = Some 0.
Proof. intros [H _]. apply arr_app in H as [_ H]. by apply arr_cons in H as [H _]. Qed.

Lemma cstr_arr m p s : cstr m p s -> arr m p s.
Proof. intros [H _]. by apply arr_app in H as [H _]. Qed.

Lemma cstr_insert_ne m p s a v :
  a < p \/ p + Z.of_nat (length s) < a -> cstr m p s -> cstr (<[a := v]> m) p s.
Proof.
  intros Ha [Harr ?]. split; [|done]. apply arr_insert_ne; [|done].
  rewrite length_app. simpl. lia.
Qed.

Lemma cstr_write m p s : Forall (fun c => 0 < c < 256) s -> cstr (write m p (s ++ [0])) p s.
Proof. intros. split; [apply write_arr|done]. Qed.

(** ** Checking memories

    Boolean versions of the memory predicates, to establish them on a concrete
    memory by computation. *)

Fixpoint arr_b (m : mem) (p : Z) (l : list Z) : bool :=
  match l with
  | [] => true
  | x :: l' => bool_decide (m !! p = Some x) && arr_b m (p + 1) l'
  end.

Fixpoint mapped_b (m : mem) (p : Z) (n : nat) : bool :=
  match n with
  | O => true
  | S n' => bool_decide (is_Some (m !! p)) && mapped_b m (p + 1) n'
  end.

Definition cstr_b (m : mem) (p : Z) (s : list Z) : bool :=
  arr_b m p (s ++ [0]) && forallb (fun c => (0 <? c) && (c <? 256)) s.

Lemma arr_b_sound m p l : arr_b m p l = true -> arr m p l.
Proof.
  revert p. induction l as [|x l IH]; intros p; simpl; [by intros _ ? ?|].
  rewrite andb_true_iff, bool_decide_eq_true. intros [??]. apply arr_cons. auto.
Qed.

Lemma mapped_b_sound m p n : mapped_b m p n = true -> mapped m p (Z.of_nat n).
Proof.
  revert p. induction n as [|n IH]; intros p; simpl; [intros _ a; lia|].
  rewrite andb_true_iff, bool_decide_eq_true. intros [? H%IH] a Ha.
  destruct (decide (a = p)) as [->|]; [done|]. apply H. lia.
Qed.

Lemma cstr_b_sound m p s : cstr_b m p s = true -> cstr m p s.
Proof.
  unfold cstr_b. rewrite andb_true_iff, forallb_forall. intros [H1 H2].
  split; [by apply arr_b_sound|]. apply Forall_forall. intros c Hc.
  apply list_elem_of_In, H2 in Hc. lia.
Qed.

(** Discharge a memory hypothesis of a concrete memory. *)
Ltac mem_check :=
  first [ apply arr_b_sound; vm_compute; reflexivity
        | apply cstr_b_sound; vm_compute; reflexivity
        | apply mapped_b_sound; vm_compute; reflexivity ].

(** A memory with the given arrays, each at its address, and nothing else. *)
Definition memory (areas : list (Z * list Z)) : mem :=
  foldr (fun a m => write m a.1 a.2) ∅ areas.
