(* ===== verification/Blocks.v ===== *)
(** * Arrays of blocks

    A buffer of equal blocks (the data of a block cipher, the elements of an array
    that is sorted) as the concatenation of its blocks in byte memory. *)

From S2P Require Import Prelude.

(** [x] is a block of [n] bytes. *)
Definition block (n : Z) (x : list Z) : Prop := Z.of_nat (length x) = n /\ Forall (fits 8) x.


(** Areas of [n] bytes that do not overlap. *)
Definition apart (p q n : Z) : Prop := p + n <= q \/ q + n <= p.

Lemma mapped_write m p n q l : mapped m p n -> mapped (write m q l) p n.
Proof. intros Hm a Ha. apply write_mapped. by apply Hm. Qed.

Lemma concat_length {n} xs : Forall (block n) xs -> Z.of_nat (length (concat xs)) = n * Z.of_nat (length xs).
Proof.
  induction 1 as [|x xs [Hx _] Hxs IH]; simpl; [lia|]. rewrite length_app. lia.
Qed.

Lemma arr_block {n} m p xs k x :
  Forall (block n) xs -> arr m p (concat xs) -> xs !! k = Some x -> arr m (p + n * Z.of_nat k) x.
Proof.
  intros Hxs Ha Hx. rewrite <- (take_drop_middle xs k x Hx), concat_app in Ha. simpl in Ha.
  apply arr_app in Ha as [_ Ha]. apply arr_app in Ha as [Ha _].
  rewrite concat_length in Ha by (by apply Forall_take). rewrite length_take in Ha.
  apply lookup_lt_Some in Hx. by replace (k `min` length xs)%nat with k in Ha by lia.
Qed.

(** Writing one more block. *)
Lemma write_block {n} m p cs k c :
  Forall (block n) cs -> cs !! k = Some c ->
  write (write m p (concat (take k cs))) (p + n * Z.of_nat k) c = write m p (concat (take (S k) cs)).
Proof.
  intros Hcs Hc. rewrite (take_S_r _ _ _ Hc), concat_app, write_app. simpl. rewrite app_nil_r.
  rewrite concat_length by (by apply Forall_take). rewrite length_take.
  apply lookup_lt_Some in Hc. by replace (k `min` length cs)%nat with k by lia.
Qed.

Lemma take_blocks_length {n} cs k :
  Forall (block n) cs -> (k <= length cs)%nat -> Z.of_nat (length (concat (take k cs))) = n * Z.of_nat k.
Proof.
  intros Hcs Hk. rewrite concat_length by (by apply Forall_take). rewrite length_take.
  by replace (k `min` length cs)%nat with k by lia.
Qed.

Lemma arr_block_mapped {n} m p x : arr m p x -> block n x -> mapped m p n.
Proof. intros Ha [<- _]. by apply arr_mapped. Qed.

(** Overwriting one block. *)
Lemma write_nth {n} m p xs k x y :
  Forall (block n) xs -> xs !! k = Some x -> block n y ->
  write (write m p (concat xs)) (p + n * Z.of_nat k) y = write m p (concat (<[k := y]> xs)).
Proof.
  intros Hxs Hx [Hy _]. pose proof (lookup_lt_Some _ _ _ Hx) as Hk.
  rewrite <- (take_drop_middle xs k x Hx) at 1. rewrite (insert_take_drop _ _ _ Hk), !concat_app. simpl.
  pose proof (take_blocks_length xs k Hxs ltac:(lia)) as Hl.
  apply (Forall_lookup_1 _ _ _ _ Hxs) in Hx as [Hx _].
  rewrite !write_app, Hl. rewrite (write_comm _ (p + n * Z.of_nat k + _)) by lia.
  rewrite write_write by lia. by replace (length y) with (length x) by lia.
Qed.
