(* ===== verification/Cells.v ===== *)
(** * Cells of a linked structure

    Structures made of nodes and pointers are described by the list of their cells,
    pairs of an address and its content (a word, or a whole node): [cells m l] says that the memory holds them
    and that no two overlap.  The order of the list does not matter, so a routine is
    followed by taking the cell it reads or writes to the front. *)

From S2P Require Import Prelude.

Definition cells {V} (m : gmap Z V) (l : list (Z * V)) : Prop :=
  NoDup l.*1 /\ forall a v, (a, v) ∈ l -> m !! a = Some v.

#[export] Instance cells_perm {V} (m : gmap Z V) : Proper ((≡ₚ) ==> iff) (cells m).
Proof.
  assert (forall l k, l ≡ₚ k -> cells m l -> cells m k) as H.
  { intros l k E [Hn Hl]. split; [by rewrite <- E|]. intros a v Hv. apply Hl. by rewrite E. }
  intros l k E. split; apply H; [done|by symmetry].
Qed.

(** ** Lists up to permutation *)

Section Permutations.
Context {A : Type}.
Implicit Types l r s : list A.

Lemma perm_here l r : l ++ r ≡ₚ l ++ r. Proof. done. Qed.
Lemma perm_last l : l ≡ₚ l ++ []. Proof. by rewrite app_nil_r. Qed.
Lemma perm_skip l r r' s : r ≡ₚ l ++ r' -> s ++ r ≡ₚ l ++ s ++ r'.
Proof. intros ->. rewrite !app_assoc. f_equiv. apply Permutation_app_comm. Qed.
Lemma perm_cancel l r r' s : s ≡ₚ l ++ r' -> r ≡ₚ r' -> l ++ r ≡ₚ s.
Proof. by intros -> ->. Qed.
Lemma perm_expose l r r' s : s ≡ₚ l ++ r' -> r' ≡ₚ r -> s ≡ₚ l ++ r.
Proof. by intros -> ->. Qed.
Lemma cons_single (x : A) l : x :: l = [x] ++ l. Proof. done. Qed.
End Permutations.

(** Write a list as the append of its parts. *)
Ltac as_apps :=
  repeat match goal with
  | |- context [?x :: ?l] => lazymatch l with [] => fail | _ => rewrite (cons_single x l) end
  end; rewrite <- ?app_assoc, ?app_nil_l, ?app_nil_r.

(** Take a part, or the cell at an address, to the front. *)
Ltac pull :=
  lazymatch goal with
  | |- ?l ≡ₚ ?l ++ _ => apply perm_last
  | |- ?l ++ _ ≡ₚ ?l ++ _ => apply perm_here
  | |- _ ++ _ ≡ₚ _ => apply perm_skip; pull
  end.

Ltac pull_cell a :=
  lazymatch goal with
  | |- [(a, _)] ≡ₚ _ => apply perm_last
  | |- [(a, _)] ++ _ ≡ₚ _ => apply perm_here
  | |- _ ++ _ ≡ₚ _ => apply perm_skip; pull_cell a
  end.

Ltac perm :=
  as_apps;
  repeat lazymatch goal with
  | |- ?l ≡ₚ ?l => reflexivity
  | |- ?l ++ _ ≡ₚ _ => eapply (perm_cancel l); [pull|]; rewrite ?app_nil_r
  end.

(** Take the parts that the right side names to the front; what is left becomes its
    last part, which is not yet known. *)
Ltac expose :=
  lazymatch goal with
  | |- _ ≡ₚ ?l ++ ?r => tryif is_evar r then pull else (eapply (perm_expose l); [pull|expose])
  end.

(** ** Reading and writing *)

Lemma cells_from {V} (m : gmap Z V) l k : cells m l -> l ≡ₚ k -> cells m k.
Proof. by intros H <-. Qed.

(** The same cells in another order. *)
Ltac cells_by H := refine (cells_from _ _ _ H _); perm.
Ltac cells_with H := refine (cells_from _ _ _ H _); expose.

Lemma cells_lookup {V} (m : gmap Z V) a v r : cells m ([(a, v)] ++ r) -> m !! a = Some v.
Proof. intros [_ H]. apply H. set_solver. Qed.

Lemma cells_insert {V} (m : gmap Z V) a v w r : cells m ([(a, v)] ++ r) -> cells (<[a := w]> m) ([(a, w)] ++ r).
Proof.
  intros [Hn H]. split; [done|]. cbn in Hn. apply NoDup_cons in Hn as [Ha _].
  intros b u [[= -> ->]|Hb]%elem_of_cons; [apply lookup_insert_eq|].
  rewrite lookup_insert_ne; [apply H; set_solver|]. intros ->. apply Ha. by apply (list_elem_of_fmap_2 fst _ (b, u)).
Qed.

Lemma cells_update {V} (m : gmap Z V) a v l r :
  cells m l -> l ≡ₚ [(a, v)] ++ r ->
  m !! a = Some v /\ forall w, cells (<[a := w]> m) ([(a, w)] ++ r).
Proof.
  intros H E. rewrite E in H. split; [by eapply cells_lookup|]. intros w. by eapply cells_insert.
Qed.

Lemma cells_ne {V} (m : gmap Z V) a v b w r : cells m ([(a, v)] ++ [(b, w)] ++ r) -> a <> b.
Proof. intros [Hn _] ->. cbn in Hn. apply NoDup_cons in Hn as [Ha _]. apply Ha. left. Qed.

(** A memory that has just these cells. *)
Lemma cells_list_to_map {V} (l : list (Z * V)) : bool_decide (NoDup l.*1) = true -> cells (list_to_map l : gmap Z V) l.
Proof.
  intros Hn%bool_decide_eq_true. split; [done|]. intros a v Hv. by apply elem_of_list_to_map.
Qed.

Lemma cells_app_l {V} (m : gmap Z V) l r : cells m (l ++ r) -> cells m l.
Proof.
  intros [Hn H]. split; [rewrite fmap_app in Hn; by apply NoDup_app in Hn as [? _]|].
  intros a v Hv. apply H. set_solver.
Qed.

Lemma wp_cell_load m a v l r (Q : Z -> mem -> Prop) :
  cells m l -> l ≡ₚ [(a, v)] ++ r -> Q v m -> wp (load a) Q m.
Proof. intros H E HQ. rewrite E in H. apply wp_load with v; [by eapply cells_lookup|done]. Qed.

Lemma wp_cell_store m a v w l r (Q : unit -> mem -> Prop) :
  cells m l -> l ≡ₚ [(a, v)] ++ r ->
  (cells (<[a := w]> m) ([(a, w)] ++ r) -> Q tt (<[a := w]> m)) -> wp (store a w) Q m.
Proof.
  intros H E HQ. rewrite E in H. apply wp_store; [|by apply HQ; eapply cells_insert].
  eexists. by eapply cells_lookup.
Qed.
(** Follow a load or a store of a cell that the hypothesis [H] lists. *)
Ltac cell_load H :=
  lazymatch goal with
  | |- wp (load ?a) _ _ => eapply (wp_cell_load _ a _ _ _ _ H); [pull_cell a|]
  end.

Ltac cell_store H :=
  lazymatch goal with
  | |- wp (store ?a ?w) _ _ =>
      eapply (wp_cell_store _ a _ w _ _ _ H); [pull_cell a|]; clear H; intros H
  end.
