(* ===== verification/Ctype.v ===== *)
(** * Character classes: lib/ctype.c and include/linux/ctype.h

    The class table, the classification macros the library uses, and the two
    case conversions.  A character is a byte, an integer in [0, 256). *)

From S2P Require Import Prelude.

Definition _U : Z := 0x01.
Definition _L : Z := 0x02.
Definition _D : Z := 0x04.
Definition _C : Z := 0x08.
Definition _P : Z := 0x10.
Definition _S : Z := 0x20.
Definition _X : Z := 0x40.
Definition _SP : Z := 0x80.

Definition _ctype : list Z :=
  [_C; _C; _C; _C; _C; _C; _C; _C;
   _C; Z.lor _C _S; Z.lor _C _S; Z.lor _C _S; Z.lor _C _S; Z.lor _C _S; _C; _C;
   _C; _C; _C; _C; _C; _C; _C; _C;
   _C; _C; _C; _C; _C; _C; _C; _C;
   Z.lor _S _SP; _P; _P; _P; _P; _P; _P; _P;
   _P; _P; _P; _P; _P; _P; _P; _P;
   _D; _D; _D; _D; _D; _D; _D; _D;
   _D; _D; _P; _P; _P; _P; _P; _P;
   _P; Z.lor _U _X; Z.lor _U _X; Z.lor _U _X; Z.lor _U _X; Z.lor _U _X; Z.lor _U _X; _U;
   _U; _U; _U; _U; _U; _U; _U; _U;
   _U; _U; _U; _U; _U; _U; _U; _U;
   _U; _U; _U; _P; _P; _P; _P; _P;
   _P; Z.lor _L _X; Z.lor _L _X; Z.lor _L _X; Z.lor _L _X; Z.lor _L _X; Z.lor _L _X; _L;
   _L; _L; _L; _L; _L; _L; _L; _L;
   _L; _L; _L; _L; _L; _L; _L; _L;
   _L; _L; _L; _P; _P; _P; _P; _C;
   0; 0; 0; 0; 0; 0; 0; 0;
   0; 0; 0; 0; 0; 0; 0; 0;
   0; 0; 0; 0; 0; 0; 0; 0;
   0; 0; 0; 0; 0; 0; 0; 0;
   Z.lor _S _SP; _P; _P; _P; _P; _P; _P; _P;
   _P; _P; _P; _P; _P; _P; _P; _P;
   _P; _P; _P; _P; _P; _P; _P; _P;
   _P; _P; _P; _P; _P; _P; _P; _P;
   _U; _U; _U; _U; _U; _U; _U; _U;
   _U; _U; _U; _U; _U; _U; _U; _U;
   _U; _U; _U; _U; _U; _U; _U; _P;
   _U; _U; _U; _U; _U; _U; _U; _L;
   _L; _L; _L; _L; _L; _L; _L; _L;
   _L; _L; _L; _L; _L; _L; _L; _L;
   _L; _L; _L; _L; _L; _L; _L; _P;
   _L; _L; _L; _L; _L; _L; _L; _L].

(** [__ismask(x)]: the index is converted to unsigned char, so it is always in
    the table. *)
Definition __ismask (x : Z) : Z := nth (Z.to_nat (u8 x)) _ctype 0.

Definition isalnum (c : Z) : bool := negb (Z.land (__ismask c) (Z.lor (Z.lor _U _L) _D) =? 0).
Definition isalpha (c : Z) : bool := negb (Z.land (__ismask c) (Z.lor _U _L) =? 0).
Definition isdigit (c : Z) : bool := negb (Z.land (__ismask c) _D =? 0).
Definition islower (c : Z) : bool := negb (Z.land (__ismask c) _L =? 0).
Definition isspace (c : Z) : bool := negb (Z.land (__ismask c) _S =? 0).
Definition isupper (c : Z) : bool := negb (Z.land (__ismask c) _U =? 0).
Definition isxdigit (c : Z) : bool := negb (Z.land (__ismask c) (Z.lor _D _X) =? 0).

(** [c -= 'A'-'a'] and [c -= 'a'-'A'] on an unsigned char. *)
Definition __tolower (c : Z) : Z := if isupper c then u8 (c - (65 - 97)) else c.
Definition __toupper (c : Z) : Z := if islower c then u8 (c - (97 - 65)) else c.
#[global] Arguments __tolower : simpl never.
#[global] Arguments __toupper : simpl never.
#[global] Arguments isspace : simpl never.
#[global] Arguments isdigit : simpl never.
Abbreviation tolower := __tolower.
Abbreviation toupper := __toupper.

(** Decimal digits are exactly '0'..'9'. *)
Lemma isdigit_spec c : 0 <= c < 256 -> isdigit c = (48 <=? c) && (c <=? 57).
Proof.
  intros Hc. apply eqb_prop. revert c Hc.
  apply (byte_forall (fun c => eqb (isdigit c) ((48 <=? c) && (c <=? 57)))). by vm_compute.
Qed.

(** Hexadecimal digits are exactly '0'..'9', 'A'..'F' and 'a'..'f'. *)
Lemma isxdigit_spec c :
  0 <= c < 256 ->
  isxdigit c =
    (48 <=? c) && (c <=? 57) || (65 <=? c) && (c <=? 70) || (97 <=? c) && (c <=? 102).
Proof.
  intros Hc. apply eqb_prop. revert c Hc.
  apply (byte_forall (fun c => eqb (isxdigit c)
    ((48 <=? c) && (c <=? 57) || (65 <=? c) && (c <=? 70) || (97 <=? c) && (c <=? 102)))).
  by vm_compute.
Qed.

Lemma isspace_0 : isspace 0 = false.
Proof. done. Qed.

(** Lower-casing is idempotent, stays in the byte range and maps only NUL to NUL. *)
Lemma tolower_byte c : 0 <= c < 256 -> 0 <= tolower c < 256.
Proof.
  intros Hc. assert ((0 <=? tolower c) && (tolower c <? 256) = true) as H; [|lia].
  revert c Hc. apply (byte_forall (fun c => (0 <=? tolower c) && (tolower c <? 256))). by vm_compute.
Qed.

Lemma tolower_0 c : 0 <= c < 256 -> tolower c = 0 -> c = 0.
Proof.
  intros Hc Ht. assert (implb (tolower c =? 0) (c =? 0) = true) as H.
  { revert c Hc Ht. intros c Hc _. revert c Hc.
    apply (byte_forall (fun c => implb (tolower c =? 0) (c =? 0))). by vm_compute. }
  rewrite Ht in H. simpl in H. by apply Z.eqb_eq in H.
Qed.
