(* ===== verification/Strings.v ===== *)
(** * String and memory routines: lib/string.c

    Each routine works on the byte memory of [Prelude]: a pointer is the address
    of a byte, a load or a store of an address that is not mapped is a fault.
    [char] is unsigned, as on ARM, and [size_t] has 32 bits.  Loops that a count
    bounds take their fuel from the count; loops that only a terminator bounds
    take a [fuel] argument, and every theorem says how much is enough. *)

From S2P Require Import Prelude Ctype.

(** ** The routines *)

Definition strnicmp (s1 s2 len : Z) : M Z :=
  if len =? 0 then mret 0 else
  r ← loop (S (Z.to_nat len)) (fun '(s1, s2, len) =>
    c1 ← load s1;
    c2 ← load s2;
    let next c1 c2 :=
      let len := u32 (len - 1) in
      if len =? 0 then break (c1, c2) else continue (s1 + 1, s2 + 1, len) in
    if c1 =? 0 then break (c1, c2) else
    if c2 =? 0 then break (c1, c2) else
    if c1 =? c2 then next c1 c2 else
    let c1 := tolower c1 in
    let c2 := tolower c2 in
    if negb (c1 =? c2) then break (c1, c2) else next c1 c2) (s1, s2, len);
  mret (r.1 - r.2).

Definition strcasecmp (fuel : nat) (s1 s2 : Z) : M Z :=
  loop fuel (fun '(s1, s2) =>
    x ← load s1;
    y ← load s2;
    let c1 := tolower x in
    let c2 := tolower y in
    if (c1 =? c2) && negb (c1 =? 0) then continue (s1 + 1, s2 + 1)
    else break (c1 - c2)) (s1, s2).

Definition strncasecmp (fuel : nat) (s1 s2 n : Z) : M Z :=
  loop fuel (fun '(s1, s2, n) =>
    x ← load s1;
    y ← load s2;
    let c1 := tolower x in
    let c2 := tolower y in
    let n := u32 (n - 1) in
    if (0 <? n) && (c1 =? c2) && negb (c1 =? 0) then continue (s1 + 1, s2 + 1, n)
    else break (c1 - c2)) (s1, s2, n).

(** The copy loop shared by strcpy and strcat: store each byte of [src], the
    terminator included. *)
Definition copy_string (fuel : nat) (dest src : Z) : M unit :=
  loop fuel (fun '(dest, src) =>
    c ← load src;
    store dest c ;;
    if negb (c =? 0) then continue (dest + 1, src + 1) else break tt) (dest, src).

Definition strcpy (fuel : nat) (dest src : Z) : M Z :=
  let tmp := dest in
  copy_string fuel dest src ;;
  mret tmp.

Definition strncpy (dest src count : Z) : M Z :=
  loop (S (Z.to_nat count)) (fun '(tmp, src, count) =>
    if count =? 0 then break tt else
    c ← load src;
    store tmp c ;;
    let src := if negb (c =? 0) then src + 1 else src in
    continue (tmp + 1, src, u32 (count - 1))) (dest, src, count) ;;
  mret dest.

Definition strlen (fuel : nat) (s : Z) : M Z :=
  sc ← loop fuel (fun sc =>
    c ← load sc;
    if c =? 0 then break sc else continue (sc + 1)) s;
  mret (sc - s).

(** [while (count--) *tmp++ = *s++;], the loop of memcpy and of the forward
    branch of memmove. *)
Definition copy_forward (dest src count : Z) : M unit :=
  loop (S (Z.to_nat count)) (fun '(tmp, s, count) =>
    if count =? 0 then break tt else
    let count := u32 (count - 1) in
    c ← load s;
    store tmp c ;;
    continue (tmp + 1, s + 1, count)) (dest, src, count).

Definition memcpy (dest src count : Z) : M Z :=
  copy_forward dest src count ;;
  mret dest.

Definition strlcpy (fuel : nat) (dest src size : Z) : M Z :=
  ret ← strlen fuel src;
  (if negb (size =? 0) then
     let len := if size <=? ret then size - 1 else ret in
     memcpy dest src len ;;
     store (dest + len) 0
   else mret tt) ;;
  mret ret.

(** Walk [dest] to its terminator, the first loop of strcat and strncat. *)
Definition skip_string (fuel : nat) (dest : Z) : M Z :=
  loop fuel (fun dest =>
    c ← load dest;
    if negb (c =? 0) then continue (dest + 1) else break dest) dest.

Definition strcat (fuel : nat) (dest src : Z) : M Z :=
  let tmp := dest in
  dest ← skip_string fuel dest;
  copy_string fuel dest src ;;
  mret tmp.

Definition strncat (fuel : nat) (dest src count : Z) : M Z :=
  let tmp := dest in
  (if negb (count =? 0) then
     dest ← skip_string fuel dest;
     loop (S (Z.to_nat count)) (fun '(dest, src, count) =>
       c ← load src;
       store dest c ;;
       if negb (c =? 0) then
         let count := u32 (count - 1) in
         if count =? 0 then store (dest + 1) 0 ;; break tt
         else continue (dest + 1, src + 1, count)
       else break tt) (dest, src, count)
   else mret tt) ;;
  mret tmp.

Definition strlcat (fuel : nat) (dest src count : Z) : M Z :=
  dsize ← strlen fuel dest;
  len ← strlen fuel src;
  let res := u32 (dsize + len) in
  BUG_ON (count <=? dsize) ;;
  let dest := dest + dsize in
  let count := count - dsize in
  let len := if count <=? len then count - 1 else len in
  memcpy dest src len ;;
  store (dest + len) 0 ;;
  mret res.

Definition strcmp (fuel : nat) (cs ct : Z) : M Z :=
  loop fuel (fun '(cs, ct) =>
    c ← load cs;
    t ← load ct;
    let __res := s8 (c - t) in
    if negb (__res =? 0) || (c =? 0) then break __res
    else continue (cs + 1, ct + 1)) (cs, ct).

Definition strncmp (cs ct count : Z) : M Z :=
  loop (S (Z.to_nat count)) (fun '(cs, ct, count, __res) =>
    if count =? 0 then break __res else
    c ← load cs;
    t ← load ct;
    let __res := s8 (c - t) in
    if negb (__res =? 0) || (c =? 0) then break __res
    else continue (cs + 1, ct + 1, u32 (count - 1), __res)) (cs, ct, count, 0).

Definition strchr (fuel : nat) (s c : Z) : M Z :=
  loop fuel (fun s =>
    x ← load s;
    if negb (x =? u8 c) then
      if x =? 0 then break NULL else continue (s + 1)
    else break s) s.

Definition strrchr (fuel : nat) (s c : Z) : M Z :=
  n ← strlen fuel s;
  loop fuel (fun p =>
    x ← load p;
    if x =? u8 c then break p else
    let p := p - 1 in
    if s <=? p then continue p else break NULL) (s + n).

Definition strnchr (s count c : Z) : M Z :=
  loop (S (Z.to_nat count)) (fun '(s, count) =>
    if count =? 0 then break NULL else
    let count := u32 (count - 1) in
    x ← load s;
    if x =? 0 then break NULL else
    if x =? u8 c then break s else continue (s + 1, count)) (s, count).

Definition strstrip (fuel : nat) (s : Z) : M Z :=
  size ← strlen fuel s;
  if size =? 0 then mret s else
  e ← loop fuel (fun e =>
    if negb (s <=? e) then break e else
    c ← load e;
    if isspace c then continue (e - 1) else break e) (s + size - 1);
  store (e + 1) 0 ;;
  loop fuel (fun s =>
    c ← load s;
    if negb (c =? 0) && isspace c then continue (s + 1) else break s) s.

Definition strnlen (s count : Z) : M Z :=
  sc ← loop (S (Z.to_nat count)) (fun '(sc, count) =>
    if count =? 0 then break sc else
    let count := u32 (count - 1) in
    c ← load sc;
    if c =? 0 then break sc else continue (sc + 1, count)) (s, count);
  mret (sc - s).

(** The inner loop of strspn: the address in [accept] of the first byte equal to
    [x], or of its terminator. *)
Definition scan_accept (fuel : nat) (x accept : Z) : M Z :=
  loop fuel (fun a =>
    y ← load a;
    if y =? 0 then break a else
    if x =? y then break a else continue (a + 1)) accept.

Definition strspn (fuel : nat) (s accept : Z) : M Z :=
  loop fuel (fun '(p, count) =>
    x ← load p;
    if x =? 0 then break count else
    a ← scan_accept fuel x accept;
    y ← load a;
    if y =? 0 then break count else continue (p + 1, u32 (count + 1))) (s, 0).

(** The inner loop of strcspn and strpbrk: does the string at [reject] hold
    the byte [x]? *)
Definition scan_reject (fuel : nat) (x reject : Z) : M bool :=
  loop fuel (fun r =>
    y ← load r;
    if y =? 0 then break false else
    if x =? y then break true else continue (r + 1)) reject.

Definition strcspn (fuel : nat) (s reject : Z) : M Z :=
  loop fuel (fun '(p, count) =>
    x ← load p;
    if x =? 0 then break count else
    hit ← scan_reject fuel x reject;
    if (hit : bool) then break count else continue (p + 1, u32 (count + 1))) (s, 0).

Definition strpbrk (fuel : nat) (cs ct : Z) : M Z :=
  loop fuel (fun sc1 =>
    x ← load sc1;
    if x =? 0 then break NULL else
    hit ← scan_reject fuel x ct;
    if (hit : bool) then break sc1 else continue (sc1 + 1)) cs.

(** [strsep(&s, ct)]: takes the value of the caller's pointer and returns the
    token with the pointer's new value. *)
Definition strsep (fuel : nat) (s ct : Z) : M (Z * Z) :=
  let sbegin := s in
  if sbegin =? NULL then mret (NULL, s) else
  e ← strpbrk fuel sbegin ct;
  e ← (if negb (e =? NULL) then store e 0 ;; mret (e + 1) else mret e);
  mret (sbegin, e).

Definition sysfs_streq (fuel : nat) (s1 s2 : Z) : M bool :=
  r ← loop fuel (fun '(s1, s2) =>
    x ← load s1;
    if x =? 0 then break (s1, s2) else
    y ← load s2;
    if x =? y then continue (s1 + 1, s2 + 1) else break (s1, s2)) (s1, s2);
  let '(s1, s2) := (r : Z * Z) in
  x ← load s1;
  y ← load s2;
  if x =? y then mret true else
  nl2 ← (if (x =? 0) && (y =? 10) then z ← load (s2 + 1); mret (z =? 0) else mret false);
  if (nl2 : bool) then mret true else
  nl1 ← (if x =? 10 then z ← load (s1 + 1); mret ((z =? 0) && (y =? 0)) else mret false);
  if (nl1 : bool) then mret true else
  mret false.

Definition memset (s c count : Z) : M Z :=
  loop (S (Z.to_nat count)) (fun '(xs, count) =>
    if count =? 0 then break tt else
    let count := u32 (count - 1) in
    store xs (u8 c) ;;
    continue (xs + 1, count)) (s, count) ;;
  mret s.

Definition memmove (dest src count : Z) : M Z :=
  (if dest <=? src then copy_forward dest src count
   else
     loop (S (Z.to_nat count)) (fun '(tmp, s, count) =>
       if count =? 0 then break tt else
       let count := u32 (count - 1) in
       let s := s - 1 in
       let tmp := tmp - 1 in
       c ← load s;
       store tmp c ;;
       continue (tmp, s, count)) (dest + count, src + count, count)) ;;
  mret dest.

Definition memcmp (cs ct count : Z) : M Z :=
  loop (S (Z.to_nat count)) (fun '(su1, su2, count, res) =>
    if 0 <? count then
      x ← load su1;
      y ← load su2;
      let res := x - y in
      if negb (res =? 0) then break res
      else continue (su1 + 1, su2 + 1, u32 (count - 1), res)
    else break res) (cs, ct, count, 0).

Definition memscan (addr c size : Z) : M Z :=
  loop (S (Z.to_nat size)) (fun '(p, size) =>
    if size =? 0 then break p else
    x ← load p;
    if x =? c then break p else continue (p + 1, u32 (size - 1))) (addr, size).

Definition strstr (fuel : nat) (s1 s2 : Z) : M Z :=
  l2 ← strlen fuel s2;
  if l2 =? 0 then mret s1 else
  l1 ← strlen fuel s1;
  loop fuel (fun '(s1, l1) =>
    if l2 <=? l1 then
      let l1 := l1 - 1 in
      d ← memcmp s1 s2 l2;
      if d =? 0 then break s1 else continue (s1 + 1, l1)
    else break NULL) (s1, l1).

Definition memchr (s c n : Z) : M Z :=
  loop (S (Z.to_nat n)) (fun '(p, n) =>
    if n =? 0 then break NULL else
    let n := u32 (n - 1) in
    x ← load p;
    let p := p + 1 in
    if u8 c =? x then break (p - 1) else continue (p, n)) (s, n).

(** ** Loops over strings *)

(** A decrement of a positive size_t does not wrap. *)
Lemma u32_pred n : 0 < n < 2 ^ 32 -> u32 (n - 1) = n - 1.
Proof. intros. apply wrap_id. unfold fits. lia. Qed.

Lemma u32_succ_count (n : nat) :
  Z.of_nat (S n) < 2 ^ 32 -> u32 (Z.of_nat (S n) - 1) = Z.of_nat n.
Proof. intros. rewrite u32_pred by lia. lia. Qed.


(** [fuel_S fuel]: a loop that still has fuel runs its body once. *)
Ltac fuel_S fuel := destruct fuel as [|fuel]; [simpl in *; lia|].

Ltac cstr_inv :=
  repeat match goal with
  | H : cstr _ _ [] |- _ => apply cstr_nil in H
  | H : cstr _ _ (_ :: _) |- _ => apply cstr_cons in H as (? & ? & ?)
  | H : arr _ _ (_ :: _) |- _ => apply arr_cons in H as [? ?]
  end.

(** Decide a test on a byte the context knows. *)
Ltac test_byte :=
  repeat match goal with
  | |- context [?c =? 0] => rewrite (proj2 (Z.eqb_neq c 0)) by lia
  end; simpl.

Lemma strlen_loop fuel m p s :
  cstr m p s -> (length s < fuel)%nat ->
  loop fuel (fun sc => c ← load sc; if c =? 0 then break sc else continue (sc + 1)) p m =
    Ok (p + Z.of_nat (length s), m).
Proof.
  revert fuel p. induction s as [|c s IH]; intros fuel p Hs Hf; fuel_S fuel; cstr_inv.
  - run. unfold mret, M_ret. by rewrite Z.add_0_r.
  - run. test_byte. run. rewrite IH; [|done|simpl in *; lia]. do 2 f_equal. simpl. lia.
Qed.

Lemma strlen_ok fuel m p s :
  cstr m p s -> (length s < fuel)%nat -> strlen fuel p m = Ok (Z.of_nat (length s), m).
Proof.
  intros. unfold strlen. erewrite bind_Ok by by apply strlen_loop.
  unfold mret, M_ret. do 2 f_equal. lia.
Qed.

Lemma skip_string_ok fuel m p s :
  cstr m p s -> (length s < fuel)%nat ->
  skip_string fuel p m = Ok (p + Z.of_nat (length s), m).
Proof.
  unfold skip_string.
  revert fuel p. induction s as [|c s IH]; intros fuel p Hs Hf; fuel_S fuel; cstr_inv.
  - run. unfold mret, M_ret. by rewrite Z.add_0_r.
  - run. test_byte. run. rewrite IH; [|done|simpl in *; lia]. do 2 f_equal. simpl. lia.
Qed.

(** The copy loop writes the whole string; the source may overlap the
    destination only from above. *)
Lemma copy_string_ok fuel m dest src s :
  cstr m src s -> mapped m dest (Z.of_nat (length s) + 1) ->
  dest <= src \/ src + Z.of_nat (length s) < dest -> (length s < fuel)%nat ->
  copy_string fuel dest src m = Ok (tt, write m dest (s ++ [0])).
Proof.
  unfold copy_string.
  revert fuel m dest src.
  induction s as [|c s IH]; intros fuel m dest src Hs Hm Hd Hf; fuel_S fuel; cstr_inv;
    assert (is_Some (m !! dest)) by (apply Hm; simpl in *; lia).
  - run. done.
  - run. test_byte. run. simpl in *. rewrite IH; [done|..|lia].
    + apply cstr_insert_ne; [lia|done].
    + apply mapped_insert. eapply mapped_sub; [done|lia..].
    + lia.
Qed.

Lemma copy_forward_ok m dest src l :
  arr m src l -> mapped m dest (Z.of_nat (length l)) ->
  dest <= src \/ src + Z.of_nat (length l) <= dest -> Z.of_nat (length l) < 2 ^ 32 ->
  copy_forward dest src (Z.of_nat (length l)) m = Ok (tt, write m dest l).
Proof.
  unfold copy_forward.
  enough (forall fuel, (length l < fuel)%nat -> arr m src l ->
    mapped m dest (Z.of_nat (length l)) ->
    dest <= src \/ src + Z.of_nat (length l) <= dest -> Z.of_nat (length l) < 2 ^ 32 ->
    loop fuel (fun '(tmp, s, count) =>
      if count =? 0 then break tt else
      let count := u32 (count - 1) in
      c ← load s;
      store tmp c ;;
      continue (tmp + 1, s + 1, count)) (dest, src, Z.of_nat (length l)) m =
    Ok (tt, write m dest l)) as H by (intros; apply H; [lia|done..]).
  revert m dest src. induction l as [|c l IH]; intros m dest src fuel Hf Hl Hm Hd Hn;
    fuel_S fuel; cstr_inv; [done|].
  assert (is_Some (m !! dest)) by (apply Hm; simpl in *; lia).
  run. rewrite u32_succ_count by done. run. simpl in *. apply IH; [lia|..|lia|lia].
  - apply arr_insert_ne; [lia|done].
  - apply mapped_insert. eapply mapped_sub; [done|lia..].
Qed.

(** Generalise the fuel of the loop in the goal, keeping that it exceeds [n]. *)
Ltac gen_fuel n fuel Hf :=
  match goal with
  | |- context [loop ?f _ _] =>
      assert (n < f)%nat as Hf by lia; revert Hf; generalize f; intros fuel Hf
  end.

Lemma memcpy_ok m dest src l :
  arr m src l -> mapped m dest (Z.of_nat (length l)) ->
  dest <= src \/ src + Z.of_nat (length l) <= dest -> Z.of_nat (length l) < 2 ^ 32 ->
  memcpy dest src (Z.of_nat (length l)) m = Ok (dest, write m dest l).
Proof. intros. unfold memcpy. by erewrite bind_Ok by by apply copy_forward_ok. Qed.

Lemma memset_ok m s c n :
  mapped m s (Z.of_nat n) -> Z.of_nat n < 2 ^ 32 ->
  memset s c (Z.of_nat n) m = Ok (s, write m s (replicate n (u8 c))).
Proof.
  intros Hm Hn. unfold memset. erewrite bind_Ok; [done|].
  gen_fuel n fuel Hf. revert fuel m s Hf Hm Hn.
  induction n as [|n IH]; intros fuel m s Hf Hm Hn; fuel_S fuel; [done|].
  assert (is_Some (m !! s)) by (apply Hm; lia).
  run. rewrite u32_succ_count by done. apply IH; [lia| |lia].
  apply mapped_insert. eapply mapped_sub; [done|lia..].
Qed.

(** The backward branch of memmove. *)
Lemma memmove_backward_ok m dest src l :
  arr m src l -> mapped m dest (Z.of_nat (length l)) ->
  src < dest -> Z.of_nat (length l) < 2 ^ 32 ->
  memmove dest src (Z.of_nat (length l)) m = Ok (dest, write m dest l).
Proof.
  intros Hl Hm Hlt Hn. unfold memmove. rewrite (proj2 (Z.leb_gt _ _)) by done.
  erewrite bind_Ok; [done|].
  gen_fuel (length l) fuel Hf. revert fuel m Hf Hl Hm Hn.
  induction l as [|c l IH] using rev_ind; intros fuel m Hf Hl Hm Hn; fuel_S fuel; [done|].
  rewrite length_app in *. simpl length in *. rewrite Nat.add_1_r in *.
  apply arr_app in Hl as [Hl Hc]. cstr_inv.
  assert (src + Z.of_nat (S (length l)) - 1 = src + Z.of_nat (length l)) as E1 by lia.
  assert (dest + Z.of_nat (S (length l)) - 1 = dest + Z.of_nat (length l)) as E2 by lia.
  run. rewrite E1, E2. erewrite bind_load by done.
  assert (is_Some (m !! (dest + Z.of_nat (length l)))) by (apply Hm; lia).
  run. rewrite u32_succ_count by done. rewrite IH; [|lia|..|lia].
  - rewrite write_app, write_insert_comm by (simpl; lia). done.
  - apply arr_insert_ne; [lia|done].
  - apply mapped_insert. eapply mapped_sub; [done|lia..].
Qed.

Lemma memmove_ok m dest src l :
  arr m src l -> mapped m dest (Z.of_nat (length l)) -> Z.of_nat (length l) < 2 ^ 32 ->
  memmove dest src (Z.of_nat (length l)) m = Ok (dest, write m dest l).
Proof.
  intros Hl Hm Hn. destruct (Z.le_gt_cases dest src) as [Hle|Hgt].
  - unfold memmove. rewrite (proj2 (Z.leb_le _ _)) by done.
    erewrite bind_Ok by (apply copy_forward_ok; auto). done.
  - by apply memmove_backward_ok; [..|lia|].
Qed.

Lemma strcpy_ok fuel m dest src s :
  cstr m src s -> mapped m dest (Z.of_nat (length s) + 1) ->
  dest <= src \/ src + Z.of_nat (length s) < dest -> (length s < fuel)%nat ->
  strcpy fuel dest src m = Ok (dest, write m dest (s ++ [0])).
Proof. intros. unfold strcpy. by erewrite bind_Ok by by apply copy_string_ok. Qed.

Lemma strlcpy_ok fuel m dest src s size :
  cstr m src s -> 0 <= size < 2 ^ 32 -> mapped m dest size ->
  dest + size <= src \/ src + Z.of_nat (length s) < dest -> (length s < fuel)%nat ->
  Z.of_nat (length s) < 2 ^ 32 ->
  strlcpy fuel dest src size m =
    Ok (Z.of_nat (length s),
        if size =? 0 then m else write m dest (take (Z.to_nat (size - 1)) s ++ [0])).
Proof.
  intros Hs Hsz Hm Hd Hf Hl. unfold strlcpy.
  erewrite bind_Ok by by apply strlen_ok. destruct (Z.eqb_spec size 0) as [->|Hne]; [done|].
  simpl. pose proof (cstr_arr _ _ _ Hs) as Harr.
  assert ((if size <=? Z.of_nat (length s) then size - 1 else Z.of_nat (length s)) =
    Z.of_nat (length (take (Z.to_nat (size - 1)) s))) as ->.
  { rewrite length_take. case_test; lia. }
  assert (length (take (Z.to_nat (size - 1)) s) <= Z.to_nat (size - 1))%nat
    by (rewrite length_take; lia).
  rewrite <- (take_drop (Z.to_nat (size - 1)) s) in Harr at 1.
  apply arr_app in Harr as [Harr _].
  autorewrite with run. erewrite bind_Ok; [|apply memcpy_ok; [done|..]].
  - run. rewrite bind_store; [by rewrite write_snoc|].
    apply write_mapped. apply Hm. lia.
  - eapply mapped_sub; [done|lia..].
  - rewrite length_take in *. lia.
  - lia.
Qed.

(** strncpy once the source is used up: the terminator is copied again and
    again. *)
Lemma strncpy_pad fuel m dest src n :
  m !! src = Some 0 -> mapped m dest (Z.of_nat n) -> Z.of_nat n < 2 ^ 32 -> (n < fuel)%nat ->
  src < dest \/ dest + Z.of_nat n <= src ->
  loop fuel (fun '(tmp, src, count) =>
    if count =? 0 then break tt else
    c ← load src;
    store tmp c ;;
    let src := if negb (c =? 0) then src + 1 else src in
    continue (tmp + 1, src, u32 (count - 1))) (dest, src, Z.of_nat n) m =
  Ok (tt, write m dest (replicate n 0)).
Proof.
  revert fuel m dest. induction n as [|n IH]; intros fuel m dest Hs Hm Hn Hf Hd; fuel_S fuel;
    [done|].
  assert (is_Some (m !! dest)) by (apply Hm; lia).
  run. rewrite u32_succ_count by done. apply IH; [|..|lia|lia|lia].
  - by rewrite lookup_insert_ne by lia.
  - apply mapped_insert. eapply mapped_sub; [done|lia..].
Qed.

Lemma strncpy_ok m dest src s n :
  cstr m src s -> mapped m dest (Z.of_nat n) -> Z.of_nat n < 2 ^ 32 ->
  dest + Z.of_nat n <= src \/ src + Z.of_nat (length s) < dest ->
  strncpy dest src (Z.of_nat n) m =
    Ok (dest, write m dest (take n s ++ replicate (n - length s) 0)).
Proof.
  intros Hs Hm Hn Hd. unfold strncpy. erewrite bind_Ok; [done|].
  gen_fuel n fuel Hf. revert fuel m dest src n Hf Hs Hm Hn Hd.
  induction s as [|c s IH]; intros fuel m dest src n Hf Hs Hm Hn Hd; cstr_inv.
  - rewrite take_nil, Nat.sub_0_r. apply strncpy_pad; simpl in *; [done..|lia].
  - fuel_S fuel. destruct n as [|n]; [done|]. simpl in Hd.
    assert (is_Some (m !! dest)) by (apply Hm; lia).
    run. test_byte. rewrite u32_succ_count by done. apply IH; [lia|..|lia|lia].
    + apply cstr_insert_ne; [lia|done].
    + apply mapped_insert. eapply mapped_sub; [done|lia..].
Qed.

Lemma strcat_ok fuel m dest src d s :
  cstr m dest d -> cstr m src s ->
  mapped m dest (Z.of_nat (length d + length s) + 1) ->
  dest + Z.of_nat (length d + length s) < src \/ src + Z.of_nat (length s) < dest ->
  (length d < fuel)%nat -> (length s < fuel)%nat ->
  strcat fuel dest src m = Ok (dest, write m (dest + Z.of_nat (length d)) (s ++ [0])).
Proof.
  intros Hd Hs Hm Hdis Hf1 Hf2. unfold strcat.
  erewrite bind_Ok by by apply skip_string_ok.
  erewrite bind_Ok; [done|]. apply copy_string_ok; [done|..|lia|done].
  eapply mapped_sub; [done|lia..].
Qed.

Lemma strncat_loop fuel m dest src s n :
  cstr m src s -> (0 < n)%nat -> Z.of_nat n < 2 ^ 32 -> (n < fuel)%nat ->
  mapped m dest (Z.of_nat (n `min` length s) + 1) ->
  dest + Z.of_nat (n `min` length s) < src \/ src + Z.of_nat (length s) < dest ->
  loop fuel (fun '(dest, src, count) =>
     c ← load src;
     store dest c ;;
     if negb (c =? 0) then
       let count := u32 (count - 1) in
       if count =? 0 then store (dest + 1) 0 ;; break tt
       else continue (dest + 1, src + 1, count)
     else break tt) (dest, src, Z.of_nat n) m =
  Ok (tt, write m dest (take n s ++ [0])).
Proof.
  revert fuel m dest src n.
  induction s as [|c s IH]; intros fuel m dest src n Hs Hn0 Hn Hf Hm Hd; cstr_inv; fuel_S fuel;
    assert (is_Some (m !! dest)) by (apply Hm; lia).
  - run. rewrite take_nil. done.
  - destruct n as [|n]; [lia|]. run. test_byte. rewrite u32_succ_count by done.
    simpl length in *. destruct n as [|n].
    + run. assert (is_Some (m !! (dest + 1))) by (apply Hm; lia).
      rewrite bind_store by (by apply (write_mapped m dest [c])). done.
    + run. apply IH; [|lia..| |lia].
      * apply cstr_insert_ne; [lia|done].
      * apply mapped_insert. eapply mapped_sub; [done|lia..].
Qed.

Lemma strncat_ok fuel m dest src d s n :
  cstr m dest d -> cstr m src s -> Z.of_nat n < 2 ^ 32 ->
  mapped m dest (Z.of_nat (length d + n `min` length s) + 1) ->
  dest + Z.of_nat (length d + n `min` length s) < src \/ src + Z.of_nat (length s) < dest ->
  (length d < fuel)%nat ->
  strncat fuel dest src (Z.of_nat n) m =
    Ok (dest, write m (dest + Z.of_nat (length d)) (take n s ++ [0])).
Proof.
  intros Hd Hs Hn Hm Hdis Hf. unfold strncat. destruct n as [|n].
  - rewrite write_id; [done|]. apply arr_cons. split; [by apply cstr_end|]. by intros ? ?.
  - change (negb (Z.of_nat (S n) =? 0)) with true. cbv iota. rewrite bind_bind.
    erewrite bind_Ok by by apply skip_string_ok. erewrite bind_Ok; [done|]. apply strncat_loop; [done|lia..| |lia].
    eapply mapped_sub; [done|lia..].
Qed.

Lemma strlcat_ok fuel m dest src d s count :
  cstr m dest d -> cstr m src s -> Z.of_nat (length d) < count < 2 ^ 32 ->
  mapped m dest count -> dest + count <= src \/ src + Z.of_nat (length s) < dest ->
  (length d < fuel)%nat -> (length s < fuel)%nat -> Z.of_nat (length d + length s) < 2 ^ 32 ->
  strlcat fuel dest src count m =
    Ok (Z.of_nat (length d + length s),
        write m (dest + Z.of_nat (length d))
          (take (Z.to_nat (count - Z.of_nat (length d) - 1)) s ++ [0])).
Proof.
  intros Hd Hs Hc Hm Hdis Hf1 Hf2 Hl. unfold strlcat.
  erewrite bind_Ok by by apply strlen_ok. erewrite bind_Ok by by apply strlen_ok.
  rewrite (proj2 (Z.leb_gt count _)) by lia. simpl. autorewrite with run.
  set (n := Z.to_nat (count - Z.of_nat (length d) - 1)).
  assert ((if count - Z.of_nat (length d) <=? Z.of_nat (length s)
     then count - Z.of_nat (length d) - 1 else Z.of_nat (length s)) =
    Z.of_nat (length (take n s))) as ->.
  { rewrite length_take. subst n. case_test; lia. }
  assert (length (take n s) <= n)%nat by (rewrite length_take; lia).
  pose proof (cstr_arr _ _ _ Hs) as Harr. rewrite <- (take_drop n s) in Harr at 1.
  apply arr_app in Harr as [Harr _].
  erewrite bind_Ok; [|apply memcpy_ok; [done|..]].
  - rewrite bind_store; [|apply write_mapped, Hm; lia].
    rewrite write_snoc. unfold mret, M_ret. do 3 f_equal.
    rewrite wrap_id by (unfold fits; lia). lia.
  - eapply mapped_sub; [done|lia..].
  - rewrite length_take in *. lia.
  - lia.
Qed.

(** A buffer that is already full is the caller's bug, and strlcat stops. *)
Lemma strlcat_bug fuel m dest src d s count :
  cstr m dest d -> cstr m src s -> (length d < fuel)%nat -> (length s < fuel)%nat ->
  count <= Z.of_nat (length d) ->
  strlcat fuel dest src count m = Fault Bug.
Proof.
  intros. unfold strlcat.
  erewrite bind_Ok by by apply strlen_ok. erewrite bind_Ok by by apply strlen_ok.
  by rewrite (proj2 (Z.leb_le count _)) by lia.
Qed.

(** ** Comparison *)

(** The first position where two strings differ, their terminators included. *)
Fixpoint first_diff (s t : list Z) : option (Z * Z) :=
  match s, t with
  | [], [] => None
  | [], y :: _ => Some (0, y)
  | x :: _, [] => Some (x, 0)
  | x :: s', y :: t' => if x =? y then first_diff s' t' else Some (x, y)
  end.

(** The result of a comparison by [d]: 0, or [d] at the first difference. *)
Definition diff_by (d : Z -> Z -> Z) (s t : list Z) : Z :=
  match first_diff s t with
  | None => 0
  | Some (x, y) => d x y
  end.

(** Dictionary order on strings of bytes. *)
Fixpoint lex_lt (s t : list Z) : Prop :=
  match s, t with
  | _, [] => False
  | [], _ :: _ => True
  | x :: s', y :: t' => x < y \/ x = y /\ lex_lt s' t'
  end.

Abbreviation is_string s := (Forall (fun c => 0 < c < 256) s).

Lemma first_diff_Some s t x y :
  is_string s -> is_string t -> first_diff s t = Some (x, y) ->
  x <> y /\ 0 <= x < 256 /\ 0 <= y < 256.
Proof.
  revert t. induction s as [|a s IH]; intros [|b t] Hs Ht H; simpl in H; simplify_eq;
    rewrite ?Forall_cons in *; destruct_and?; try lia.
  destruct (Z.eqb_spec a b); [by eapply IH|]. simplify_eq. lia.
Qed.

Lemma first_diff_None s t : is_string s -> is_string t -> first_diff s t = None <-> s = t.
Proof.
  revert t. induction s as [|a s IH]; intros [|b t] Hs Ht; simpl; try done.
  rewrite !Forall_cons in *. destruct_and!. destruct (Z.eqb_spec a b) as [->|].
  - rewrite IH by done. clear IH. naive_solver.
  - clear IH. naive_solver.
Qed.

Lemma first_diff_lex s t x y :
  is_string s -> is_string t -> first_diff s t = Some (x, y) -> x < y <-> lex_lt s t.
Proof.
  revert t. induction s as [|a s IH]; intros [|b t] Hs Ht H; simpl in *; simplify_eq;
    rewrite ?Forall_cons in *; destruct_and?; try lia.
  destruct (Z.eqb_spec a b) as [->|]; simplify_eq; [|lia].
  rewrite IH by done. split; [by auto|]. intros [?|[_ ?]]; [lia|done].
Qed.

Lemma s8_diff c t :
  0 <= c < 256 -> 0 <= t < 256 ->
  s8 (c - t) = (if c - t <? -128 then c - t + 256 else if 127 <? c - t then c - t - 256 else c - t).
Proof.
  intros. unfold swrap, wrap. change (2 ^ 8) with 256. change (2 ^ (8 - 1)) with 128. cbv zeta.
  repeat case_test; Z.div_mod_to_equations; lia.
Qed.

Lemma s8_diff_0 c t : 0 <= c < 256 -> 0 <= t < 256 -> s8 (c - t) = 0 <-> c = t.
Proof. intros. rewrite s8_diff by done. repeat case_test; lia. Qed.

Lemma s8_pos c : 0 < c < 256 -> negb (s8 c =? 0) = true.
Proof.
  intros. pose proof (s8_diff_0 c 0) as H0. rewrite Z.sub_0_r in H0.
  destruct (Z.eqb_spec (s8 c) 0); [lia|done].
Qed.

(** The step of strcmp and strncmp: go on exactly when the two bytes are equal
    and not the terminator. *)
Lemma cmp_stop c t :
  0 <= c < 256 -> 0 <= t < 256 ->
  negb (s8 (c - t) =? 0) || (c =? 0) = negb (c =? t) || (c =? 0).
Proof.
  intros. f_equal. f_equal. apply eq_true_iff_eq. rewrite !Z.eqb_eq. by apply s8_diff_0.
Qed.

Lemma strcmp_ok fuel m p q s t :
  cstr m p s -> cstr m q t -> (length s < fuel)%nat ->
  strcmp fuel p q m = Ok (diff_by (fun x y => s8 (x - y)) s t, m).
Proof.
  unfold strcmp, diff_by. revert fuel p q t.
  induction s as [|c s IH]; intros fuel p q [|y t] Hs Ht Hf; fuel_S fuel; cstr_inv; run.
  - done.
  - by rewrite orb_true_r.
  - rewrite Z.sub_0_r, s8_pos by lia. done.
  - rewrite cmp_stop by lia. destruct (Z.eqb_spec c y) as [->|Hne]; simpl; [|done].
    test_byte. rewrite ?bind_ret. apply IH; [done..|simpl in *; lia].
Qed.

Lemma strncmp_ok m p q s t n :
  cstr m p s -> cstr m q t -> Z.of_nat n < 2 ^ 32 ->
  strncmp p q (Z.of_nat n) m = Ok (diff_by (fun x y => s8 (x - y)) (take n s) (take n t), m).
Proof.
  intros Hs Ht Hn. unfold strncmp, diff_by. gen_fuel n fuel Hf.
  revert fuel p q n t Hf Hs Ht Hn.
  induction s as [|c s IH]; intros fuel p q [|n] [|y t] Hf Hs Ht Hn; fuel_S fuel; try done;
    cstr_inv; run.
  - done.
  - by rewrite orb_true_r.
  - rewrite Z.sub_0_r, s8_pos by lia. done.
  - rewrite cmp_stop by lia. destruct (Z.eqb_spec c y) as [->|Hne]; simpl; [|done].
    test_byte. rewrite ?bind_ret, u32_succ_count by done.
    rewrite (proj2 (s8_diff_0 y y ltac:(lia) ltac:(lia)) eq_refl).
    apply IH; [lia|done..|lia].
Qed.

Lemma tolower_char c : 0 < c < 256 -> 0 < tolower c < 256.
Proof.
  intros. pose proof (tolower_byte c). destruct (decide (tolower c = 0)) as [E|]; [|lia].
  apply tolower_0 in E; lia.
Qed.

Lemma tolower_string s : is_string s -> is_string (map tolower s).
Proof. intros H. apply Forall_map. eapply Forall_impl; [exact H|]. apply tolower_char. Qed.

Lemma strcasecmp_ok fuel m p q s t :
  cstr m p s -> cstr m q t -> (length s < fuel)%nat ->
  strcasecmp fuel p q m = Ok (diff_by Z.sub (map tolower s) (map tolower t), m).
Proof.
  unfold strcasecmp, diff_by. revert fuel p q t.
  induction s as [|c s IH]; intros fuel p q [|y t] Hs Ht Hf; fuel_S fuel; cstr_inv; run;
    try pose proof (tolower_char c ltac:(done)); try pose proof (tolower_char y ltac:(done)).
  - done.
  - rewrite andb_false_r. by rewrite ?bind_ret.
  - change (tolower 0) with 0. by test_byte.
  - destruct (Z.eqb_spec (tolower c) (tolower y)) as [->|Hne]; simpl; [|done].
    test_byte. rewrite ?bind_ret. apply IH; [done..|simpl in *; lia].
Qed.

(** strncasecmp compares [n] bytes, and 2^32 of them when [n] is 0: the count is
    decremented before it is tested. *)
Lemma strncasecmp_ok fuel m p q s t n :
  cstr m p s -> cstr m q t -> (length s < fuel)%nat -> (0 < n)%nat -> Z.of_nat n <= 2 ^ 32 ->
  strncasecmp fuel p q (u32 (Z.of_nat n)) m =
    Ok (diff_by Z.sub (take n (map tolower s)) (take n (map tolower t)), m).
Proof.
  unfold strncasecmp, diff_by. revert fuel p q t n.
  induction s as [|c s IH]; intros fuel p q [|y t] [|n] Hs Ht Hf Hn0 Hn; try lia;
    fuel_S fuel; cstr_inv; run;
    try pose proof (tolower_char c ltac:(done)); try pose proof (tolower_char y ltac:(done)).
  - rewrite andb_false_r. by rewrite ?bind_ret.
  - rewrite andb_false_r. by rewrite ?bind_ret.
  - change (tolower 0) with 0. test_byte. by rewrite andb_false_r.
  - rewrite wrap_sub_l. replace (Z.of_nat (S n) - 1) with (Z.of_nat n) by lia.
    destruct (Z.eqb_spec (tolower c) (tolower y)) as [->|Hne]; simpl;
      [|by rewrite andb_false_r].
    test_byte. rewrite (wrap_id 32 (Z.of_nat n)) by (unfold fits; lia).
    destruct n as [|n]; [by rewrite ?bind_ret, Z.sub_diag|].
    simpl. rewrite ?bind_ret. rewrite <- (wrap_id 32 (Z.of_nat (S n))) by (unfold fits; lia).
    apply IH; [done..|simpl in *; lia|lia|lia].
Qed.

(** ** Search *)

(** The index of the first element that satisfies [P]. *)
Fixpoint index_of (P : Z -> bool) (l : list Z) : option nat :=
  match l with
  | [] => None
  | x :: l' => if P x then Some 0%nat else S <$> index_of P l'
  end.

Lemma index_of_Some P l i :
  index_of P l = Some i <->
  (exists x, l !! i = Some x /\ P x = true) /\
  (forall j x, (j < i)%nat -> l !! j = Some x -> P x = false).
Proof.
  revert i. induction l as [|y l IH]; intros i; simpl.
  - split; [done|]. intros [(x & Hx & _) _]. done.
  - destruct (P y) eqn:Hy.
    + split.
      * intros [= <-]. split; [by exists y|]. lia.
      * intros [_ Hmin]. destruct i as [|i]; [done|].
        rewrite (Hmin 0%nat y) in Hy; [done|lia|done].
    + rewrite fmap_Some. split.
      * intros (k & Hk & ->). apply IH in Hk as [Hx Hmin]. split; [done|].
        intros [|j] x Hj; simpl; [intros; by simplify_eq|]. apply Hmin. lia.
      * intros [(x & Hx & HP) Hmin]. destruct i as [|i]; simpl in Hx; [congruence|].
        exists i. split; [|done]. apply IH. split; [by exists x|].
        intros j z Hj Hz. apply (Hmin (S j) z); [lia|done].
Qed.

Lemma index_of_None P l : index_of P l = None <-> forall x, x ∈ l -> P x = false.
Proof.
  induction l as [|y l IH]; simpl.
  - split; [|done]. intros _ x Hx. set_solver.
  - destruct (P y) eqn:Hy.
    + split; [done|]. intros H. rewrite H in Hy; [done|set_solver].
    + rewrite fmap_None, IH. split; [|set_solver]. intros H x Hx.
      apply elem_of_cons in Hx as [->|Hx]; auto.
Qed.

(** The address of the element [index_of] finds, NULL when there is none. *)
Definition found_at (p : Z) (o : option nat) : Z :=
  match o with
  | Some i => p + Z.of_nat i
  | None => NULL
  end.

Lemma found_at_S p o : found_at p (S <$> o) = found_at (p + 1) o.
Proof. destruct o; simpl; [lia|done]. Qed.

Lemma strchr_ok fuel m p s c :
  cstr m p s -> (length s < fuel)%nat ->
  strchr fuel p c m = Ok (found_at p (index_of (fun x => x =? u8 c) (s ++ [0])), m).
Proof.
  unfold strchr. revert fuel p.
  induction s as [|x s IH]; intros fuel p Hs Hf; fuel_S fuel; cstr_inv; run.
  - destruct (Z.eqb_spec 0 (u8 c)); simpl; [|done]. unfold mret, M_ret. do 2 f_equal. lia.
  - destruct (Z.eqb_spec x (u8 c)); simpl.
    + unfold mret, M_ret. do 2 f_equal. lia.
    + test_byte. rewrite ?bind_ret, found_at_S. apply IH; [done|simpl in *; lia].
Qed.

Lemma strnlen_ok m p s n :
  cstr m p s -> Z.of_nat n < 2 ^ 32 ->
  strnlen p (Z.of_nat n) m = Ok (Z.of_nat (n `min` length s), m).
Proof.
  intros Hs Hn. unfold strnlen.
  enough (forall fuel, (n < fuel)%nat -> loop fuel (fun '(sc, count) =>
    if count =? 0 then break sc else
    let count := u32 (count - 1) in
    c ← load sc;
    if c =? 0 then break sc else continue (sc + 1, count)) (p, Z.of_nat n) m =
    Ok (p + Z.of_nat (n `min` length s), m)) as H.
  { erewrite bind_Ok by (apply H; lia). unfold mret, M_ret. do 2 f_equal. lia. }
  revert p n Hs Hn. induction s as [|x s IH]; intros p n Hs Hn fuel Hf; fuel_S fuel; cstr_inv;
    (destruct n as [|n]; [run; unfold mret, M_ret; do 2 f_equal; simpl; lia|]); run.
  - unfold mret, M_ret. do 2 f_equal. simpl. lia.
  - test_byte. rewrite ?bind_ret, u32_succ_count by done. rewrite IH by (done || lia).
    do 2 f_equal. lia.
Qed.

Lemma strnchr_ok m p s n c :
  cstr m p s -> Z.of_nat n < 2 ^ 32 ->
  strnchr p (Z.of_nat n) c m = Ok (found_at p (index_of (fun x => x =? u8 c) (take n s)), m).
Proof.
  intros Hs Hn. unfold strnchr. gen_fuel n fuel Hf. revert fuel p n Hf Hs Hn.
  induction s as [|x s IH]; intros fuel p n Hf Hs Hn; fuel_S fuel; cstr_inv;
    (destruct n as [|n]; [done|]); run.
  - done.
  - test_byte. destruct (Z.eqb_spec x (u8 c)); simpl.
    + unfold mret, M_ret. do 2 f_equal. lia.
    + rewrite ?bind_ret, found_at_S, u32_succ_count by done. apply IH; [lia|done|lia].
Qed.

Lemma memchr_ok m p l c :
  arr m p l -> Z.of_nat (length l) < 2 ^ 32 ->
  memchr p c (Z.of_nat (length l)) m = Ok (found_at p (index_of (fun x => u8 c =? x) l), m).
Proof.
  intros Hl Hn. unfold memchr. gen_fuel (length l) fuel Hf. revert fuel p Hf Hl Hn.
  induction l as [|x l IH]; intros fuel p Hf Hl Hn; fuel_S fuel; cstr_inv; [done|].
  run. destruct (Z.eqb_spec (u8 c) x); simpl.
  - unfold mret, M_ret. do 2 f_equal. lia.
  - rewrite ?bind_ret, found_at_S, u32_succ_count by done. simpl in *. apply IH; [lia|done|lia].
Qed.

(** memscan compares with [c] unconverted, and ends one past the area. *)
Lemma memscan_ok m p l c :
  arr m p l -> Z.of_nat (length l) < 2 ^ 32 ->
  memscan p c (Z.of_nat (length l)) m =
    Ok (p + Z.of_nat (default (length l) (index_of (fun x => x =? c) l)), m).
Proof.
  intros Hl Hn. unfold memscan. gen_fuel (length l) fuel Hf. revert fuel p Hf Hl Hn.
  induction l as [|x l IH]; intros fuel p Hf Hl Hn; fuel_S fuel; cstr_inv.
  - run. unfold mret, M_ret. do 2 f_equal. lia.
  - run. destruct (Z.eqb_spec x c); simpl.
    + unfold mret, M_ret. do 2 f_equal. lia.
    + rewrite ?bind_ret, u32_succ_count by done. rewrite IH by (done || simpl in *; lia).
      do 2 f_equal. destruct (index_of _ l); simpl; lia.
Qed.

(** memcmp: 0 on equal areas, else the difference of the first two bytes that
    differ, as unsigned. *)
Fixpoint mem_diff (l k : list Z) : Z :=
  match l, k with
  | x :: l', y :: k' => if x =? y then mem_diff l' k' else x - y
  | _, _ => 0
  end.

Lemma mem_diff_0 l k : length l = length k -> mem_diff l k = 0 <-> l = k.
Proof.
  revert k. induction l as [|x l IH]; intros [|y k] Hlen; simpl in *; try done.
  destruct (Z.eqb_spec x y) as [->|Hne].
  - rewrite IH by lia. split; [by intros ->|by intros [=]].
  - split; [lia|]. by intros [=].
Qed.

Lemma memcmp_ok m p q l k :
  arr m p l -> arr m q k -> length l = length k -> Z.of_nat (length l) < 2 ^ 32 ->
  memcmp p q (Z.of_nat (length l)) m = Ok (mem_diff l k, m).
Proof.
  intros Hl Hk Hlen Hn. unfold memcmp. gen_fuel (length l) fuel Hf. revert fuel p q k Hf Hl Hk Hlen Hn.
  induction l as [|x l IH]; intros fuel p q [|y k] Hf Hl Hk Hlen Hn; fuel_S fuel; cstr_inv;
    try done.
  run. destruct (Z.eqb_spec x y) as [->|Hne].
  - rewrite Z.sub_diag. simpl. rewrite ?bind_ret, u32_succ_count by done. simpl in *.
    apply IH; [lia|done|done|lia|lia].
  - rewrite (proj2 (Z.eqb_neq (x - y) 0)) by lia. done.
Qed.

(** The index of the last element that satisfies [P]. *)
Fixpoint last_index_of (P : Z -> bool) (l : list Z) : option nat :=
  match l with
  | [] => None
  | x :: l' =>
      match last_index_of P l' with
      | Some i => Some (S i)
      | None => if P x then Some 0%nat else None
      end
  end.

Lemma last_index_of_snoc P l x :
  last_index_of P (l ++ [x]) = if P x then Some (length l) else last_index_of P l.
Proof.
  induction l as [|y l IH]; simpl; [done|]. rewrite IH. by destruct (P x).
Qed.

Lemma last_index_of_Some P l i :
  last_index_of P l = Some i <->
  (exists x, l !! i = Some x /\ P x = true) /\
  (forall j x, (i < j)%nat -> l !! j = Some x -> P x = false).
Proof.
  induction l as [|y l IH] using rev_ind.
  - split; [done|]. by intros [(x & Hx & _) _].
  - rewrite last_index_of_snoc. destruct (P y) eqn:Hy.
    + split.
      * intros [= <-]. split; [exists y; split; [by rewrite list_lookup_middle|done]|].
        intros j x Hj Hx. apply lookup_lt_Some in Hx. rewrite length_app in Hx. simpl in Hx. lia.
      * intros [(x & Hx & HP) Hmax]. f_equal.
        destruct (decide (i = length l)) as [|Hne]; [done|].
        pose proof (lookup_lt_Some _ _ _ Hx) as Hlt. rewrite length_app in Hlt. simpl in Hlt.
        rewrite (Hmax (length l) y) in Hy; [done|lia|by rewrite list_lookup_middle].
    + rewrite IH. split.
      * intros [(x & Hx & HP) Hmax]. split.
        { exists x. split; [|done]. by apply lookup_app_l_Some. }
        intros j z Hj Hz. apply lookup_app_Some in Hz as [Hz|[Hlt Hz]]; [by eapply Hmax|].
        by apply list_lookup_singleton_Some in Hz as [_ ->].
      * intros [(x & Hx & HP) Hmax]. split.
        { exists x. split; [|done]. apply lookup_app_Some in Hx as [Hx|[_ Hx]]; [done|].
          apply list_lookup_singleton_Some in Hx as [_ ->]. congruence. }
        intros j z Hj Hz. apply (Hmax j z Hj). by apply lookup_app_l_Some.
Qed.

Lemma strrchr_ok fuel m p s c :
  cstr m p s -> (length s < fuel)%nat ->
  strrchr fuel p c m = Ok (found_at p (last_index_of (fun x => x =? u8 c) (s ++ [0])), m).
Proof.
  intros Hs Hf. unfold strrchr. erewrite bind_Ok by by apply strlen_ok.
  assert (arr m p (s ++ [0])) as Harr by apply Hs.
  replace (p + Z.of_nat (length s)) with (p + Z.of_nat (length (s ++ [0])) - 1)
    by (rewrite length_app; simpl; lia).
  assert (s ++ [0] <> []) as Hne by (by destruct s).
  assert (length (s ++ [0%Z]) <= fuel)%nat as Hf' by (rewrite length_app; simpl; lia).
  revert fuel Harr Hne Hf' Hs Hf. generalize (s ++ [0]) as l. intros l fuel Hl Hne Hf _ _.
  revert fuel Hl Hne Hf. induction l as [|x l IH] using rev_ind; intros fuel Hl Hne Hf; [done|].
  rewrite length_app, last_index_of_snoc in *. simpl length in *. fuel_S fuel.
  apply arr_app in Hl as [Hl Hx]. cstr_inv.
  replace (p + Z.of_nat (length l + 1) - 1) with (p + Z.of_nat (length l)) by lia.
  run. destruct (Z.eqb_spec x (u8 c)); simpl; [done|].
  destruct l as [|y l].
  - simpl. by rewrite (proj2 (Z.leb_gt _ _)) by lia.
  - rewrite (proj2 (Z.leb_le _ _)) by (simpl; lia). rewrite ?bind_ret.
    apply IH; [done|done|simpl in *; lia].
Qed.

(** Is the byte [x] one of the bytes of [t]? *)
Definition is_in (t : list Z) (x : Z) : bool := existsb (Z.eqb x) t.

Lemma is_in_elem t x : is_in t x = true <-> x ∈ t.
Proof.
  unfold is_in. rewrite existsb_exists, list_elem_of_In. split.
  - by intros (y & Hy & ->%Z.eqb_eq).
  - intros Hx. exists x. by rewrite Z.eqb_refl.
Qed.

Lemma scan_reject_ok fuel m q t x :
  cstr m q t -> (length t < fuel)%nat -> scan_reject fuel x q m = Ok (is_in t x, m).
Proof.
  unfold scan_reject, is_in. revert fuel q.
  induction t as [|y t IH]; intros fuel q Ht Hf; fuel_S fuel; cstr_inv; run; [done|].
  test_byte. destruct (Z.eqb_spec x y); simpl; [done|].
  rewrite ?bind_ret. apply IH; [done|simpl in *; lia].
Qed.

Lemma scan_accept_ok fuel m q t x :
  cstr m q t -> (length t < fuel)%nat ->
  exists a y, scan_accept fuel x q m = Ok (a, m) /\ m !! a = Some y /\ (y =? 0) = negb (is_in t x).
Proof.
  unfold scan_accept, is_in. revert fuel q.
  induction t as [|y t IH]; intros fuel q Ht Hf; fuel_S fuel; cstr_inv; run.
  - by exists q, 0.
  - test_byte. destruct (Z.eqb_spec x y) as [->|]; simpl.
    + exists q, y. repeat split; [done|]. by test_byte.
    + rewrite ?bind_ret. apply IH; [done|simpl in *; lia].
Qed.

(** The length of the longest prefix whose bytes satisfy [P]. *)
Definition span_length (P : Z -> bool) (l : list Z) : nat :=
  default (length l) (index_of (fun x => negb (P x)) l).

Lemma span_length_cons P x l :
  span_length P (x :: l) = if P x then S (span_length P l) else 0%nat.
Proof. unfold span_length. simpl. destruct (P x); simpl; [|done]. by destruct (index_of _ l). Qed.

Lemma strspn_ok fuel m p q s t :
  cstr m p s -> cstr m q t -> (length s < fuel)%nat -> (length t < fuel)%nat ->
  Z.of_nat (length s) < 2 ^ 32 ->
  strspn fuel p q m = Ok (Z.of_nat (span_length (is_in t) s), m).
Proof.
  intros Hs Ht Hf1 Hf2 Hl. unfold strspn.
  enough (forall f n, (length s < f)%nat -> Z.of_nat (n + length s) < 2 ^ 32 ->
    loop f (fun '(p, count) =>
      x ← load p;
      if x =? 0 then break count else
      a ← scan_accept fuel x q;
      y ← load a;
      if y =? 0 then break count else continue (p + 1, u32 (count + 1))) (p, Z.of_nat n) m =
    Ok (Z.of_nat (n + span_length (is_in t) s), m)) as H by (by apply (H fuel 0%nat)).
  clear Hf1 Hl. revert p Hs. induction s as [|x s IH]; intros p Hs f n Hf Hn; fuel_S f; cstr_inv.
  - run. unfold mret, M_ret. by rewrite Nat.add_0_r.
  - run. test_byte. destruct (scan_accept_ok fuel m q t x) as (a & y & Ha & Hy & Hz); [done..|].
    autorewrite with run. erewrite bind_Ok by done. autorewrite with run.
    erewrite bind_load by done. rewrite Hz, span_length_cons.
    simpl in *. destruct (is_in t x); simpl.
    + rewrite ?bind_ret. rewrite wrap_id by (unfold fits; lia).
      replace (Z.of_nat n + 1) with (Z.of_nat (S n)) by lia.
      rewrite IH; [|done|lia|lia]. do 2 f_equal. lia.
    + by rewrite ?bind_ret, Nat.add_0_r.
Qed.

Lemma strcspn_ok fuel m p q s t :
  cstr m p s -> cstr m q t -> (length s < fuel)%nat -> (length t < fuel)%nat ->
  Z.of_nat (length s) < 2 ^ 32 ->
  strcspn fuel p q m = Ok (Z.of_nat (span_length (fun x => negb (is_in t x)) s), m).
Proof.
  intros Hs Ht Hf1 Hf2 Hl. unfold strcspn.
  enough (forall f n, (length s < f)%nat -> Z.of_nat (n + length s) < 2 ^ 32 ->
    loop f (fun '(p, count) =>
      x ← load p;
      if x =? 0 then break count else
      hit ← scan_reject fuel x q;
      if (hit : bool) then break count else continue (p + 1, u32 (count + 1))) (p, Z.of_nat n) m =
    Ok (Z.of_nat (n + span_length (fun x => negb (is_in t x)) s), m)) as H
    by (by apply (H fuel 0%nat)).
  clear Hf1 Hl. revert p Hs. induction s as [|x s IH]; intros p Hs f n Hf Hn; fuel_S f; cstr_inv.
  - run. unfold mret, M_ret. by rewrite Nat.add_0_r.
  - run. test_byte. autorewrite with run. erewrite bind_Ok by by apply scan_reject_ok.
    rewrite span_length_cons. simpl in *. destruct (is_in t x); simpl.
    + by rewrite ?bind_ret, Nat.add_0_r.
    + rewrite ?bind_ret. rewrite wrap_id by (unfold fits; lia).
      replace (Z.of_nat n + 1) with (Z.of_nat (S n)) by lia.
      rewrite IH; [|done|lia|lia]. do 2 f_equal. lia.
Qed.

Lemma strpbrk_ok fuel m p q s t :
  cstr m p s -> cstr m q t -> (length s < fuel)%nat -> (length t < fuel)%nat ->
  strpbrk fuel p q m = Ok (found_at p (index_of (is_in t) s), m).
Proof.
  intros Hs Ht Hf1 Hf2. unfold strpbrk.
  enough (forall f, (length s < f)%nat ->
    loop f (fun sc1 =>
      x ← load sc1;
      if x =? 0 then break NULL else
      hit ← scan_reject fuel x q;
      if (hit : bool) then break sc1 else continue (sc1 + 1)) p m =
    Ok (found_at p (index_of (is_in t) s), m)) as H by (by apply H).
  clear Hf1. revert p Hs. induction s as [|x s IH]; intros p Hs f Hf; fuel_S f; cstr_inv; run.
  - done.
  - test_byte. autorewrite with run. erewrite bind_Ok by by apply scan_reject_ok.
    destruct (is_in t x); simpl.
    + rewrite ?bind_ret. by rewrite Z.add_0_r.
    + rewrite ?bind_ret, found_at_S. apply IH; [done|simpl in *; lia].
Qed.

Lemma strnicmp_ok m p q s t n :
  cstr m p s -> cstr m q t -> Z.of_nat n < 2 ^ 32 ->
  exists r, strnicmp p q (Z.of_nat n) m = Ok (r, m) /\
    (r = 0 <-> take n (map tolower s) = take n (map tolower t)).
Proof.
  intros Hs Ht Hn. unfold strnicmp. destruct n as [|n]; [by exists 0|].
  change (Z.of_nat (S n) =? 0) with false. cbv iota.
  gen_fuel (S n) fuel Hf. revert fuel p q n t Hf Hs Ht Hn.
  induction s as [|c s IH]; intros fuel p q n [|y t] Hf Hs Ht Hn; fuel_S fuel; cstr_inv;
    autorewrite with run; run; test_byte; autorewrite with run;
    try pose proof (tolower_char c ltac:(done)); try pose proof (tolower_char y ltac:(done)).
  - by exists 0.
  - exists (0 - y). split; [done|]. split; [lia|done].
  - exists (c - 0). split; [done|]. split; [lia|done].
  - rewrite u32_succ_count by done.
    assert (forall a, exists r,
      (if Z.of_nat n =? 0 then mret (a, a) ≫= (fun r : Z * Z => mret (r.1 - r.2))
       else loop fuel (fun '(s1, s2, len) =>
         c1 ← load s1;
         c2 ← load s2;
         let next c1 c2 :=
           let len := u32 (len - 1) in
           if len =? 0 then break (c1, c2) else continue (s1 + 1, s2 + 1, len) in
         if c1 =? 0 then break (c1, c2) else
         if c2 =? 0 then break (c1, c2) else
         if c1 =? c2 then next c1 c2 else
         let c1 := tolower c1 in
         let c2 := tolower c2 in
         if negb (c1 =? c2) then break (c1, c2) else next c1 c2)
           (p + 1, q + 1, Z.of_nat n) ≫= (fun r : Z * Z => mret (r.1 - r.2))) m = Ok (r, m) /\
      (r = 0 <-> take n (map tolower s) = take n (map tolower t))) as Hnext.
    { intros a. destruct n as [|n]; [exists (a - a); split; [done|simpl; split; [done|lia]]|].
      change (Z.of_nat (S n) =? 0) with false. cbv iota. apply IH; [lia|done|done|lia]. }
    destruct (Z.eqb_spec c y) as [->|Hcy].
    + destruct (Hnext y) as (r & Hr & Hiff). exists r. split.
      * rewrite <- Hr. by destruct (Z.of_nat n =? 0).
      * rewrite Hiff. split; [by intros ->|by intros [=]].
    + destruct (Z.eqb_spec (tolower c) (tolower y)) as [Hl|Hl]; simpl.
      * destruct (Hnext (tolower y)) as (r & Hr & Hiff). exists r. rewrite Hl. split.
        { rewrite <- Hr. by destruct (Z.of_nat n =? 0). }
        rewrite Hiff. split; [by intros ->|by intros [=]].
      * exists (tolower c - tolower y). split; [done|]. split; [lia|]. by intros [=].
Qed.

(** The index of the first occurrence of [t] in [s]. *)
Fixpoint index_sub (t s : list Z) : option nat :=
  if decide (take (length t) s = t) then Some 0%nat else
  match s with
  | [] => None
  | _ :: s' => S <$> index_sub t s'
  end.

Lemma index_sub_Some t s i :
  index_sub t s = Some i <->
  (i <= length s)%nat /\ take (length t) (drop i s) = t /\
  (forall j, (j < i)%nat -> take (length t) (drop j s) <> t).
Proof.
  revert i. induction s as [|x s IH]; intros i; simpl index_sub; case_decide as Hd.
  - split.
    + intros [= <-]. split; [simpl; lia|split; [done|lia]].
    + intros (Hi & _ & _). simpl in Hi. f_equal. lia.
  - split; [done|]. intros (Hi & Ht & _). simpl in Hi. by replace i with 0%nat in Ht by lia.
  - split.
    + intros [= <-]. split; [lia|split; [done|lia]].
    + intros (_ & _ & Hmin). destruct i as [|i]; [done|]. by destruct (Hmin 0%nat); [lia|].
  - rewrite fmap_Some. split.
    + intros (k & (Hk & Ht & Hmin)%IH & ->). simpl. split; [lia|split; [done|]].
      intros [|j] Hj; [done|]. simpl. apply Hmin. lia.
    + intros (Hi & Ht & Hmin). destruct i as [|i]; [done|]. exists i. split; [|done].
      simpl in *. apply IH. split; [lia|split; [done|]]. intros j Hj.
      apply (Hmin (S j)). lia.
Qed.

Lemma index_sub_short t s : (length s < length t)%nat -> index_sub t s = None.
Proof.
  induction s as [|x s IH]; intros Hl; simpl; case_decide as Hd; try done.
  - rewrite take_nil in Hd. subst t. simpl in Hl. lia.
  - apply (f_equal length) in Hd. rewrite length_take in Hd. simpl in *. lia.
  - rewrite IH; [done|]. simpl in *. lia.
Qed.

Lemma strstr_ok fuel m p q s t :
  cstr m p s -> cstr m q t -> (length s < fuel)%nat -> (length t < fuel)%nat ->
  Z.of_nat (length t) < 2 ^ 32 ->
  strstr fuel p q m = Ok (found_at p (index_sub t s), m).
Proof.
  intros Hs Ht Hf1 Hf2 Hl. unfold strstr. erewrite bind_Ok by by apply strlen_ok.
  destruct (Z.eqb_spec (Z.of_nat (length t)) 0) as [H0|H0].
  { destruct t; [|simpl in H0; lia]. destruct s; simpl; by rewrite Z.add_0_r. }
  erewrite bind_Ok by by apply strlen_ok. pose proof (cstr_arr _ _ _ Ht) as Harrt.
  clear Hf2. revert fuel p Hs Hf1. induction s as [|x s IH]; intros fuel p Hs Hf1; fuel_S fuel.
  { rewrite index_sub_short by (simpl; lia). run. by rewrite (proj2 (Z.leb_gt _ _)) by lia. }
  destruct (Z.leb_spec (Z.of_nat (length t)) (Z.of_nat (S (length s)))) as [Hle|Hgt].
  2: { rewrite index_sub_short by (simpl; lia). run. by rewrite (proj2 (Z.leb_gt _ _)) by lia. }
  run. rewrite (proj2 (Z.leb_le _ _)) by done.
  pose proof (cstr_arr _ _ _ Hs) as Harrs.
  rewrite <- (take_drop (length t) (x :: s)) in Harrs. apply arr_app in Harrs as [Harrs _].
  assert (length (take (length t) (x :: s)) = length t) as Hlen
    by (rewrite length_take; simpl; lia).
  autorewrite with run. rewrite <- Hlen at 1.
  erewrite bind_Ok by (apply memcmp_ok; [done|done|done|lia]).
  pose proof (mem_diff_0 _ _ Hlen) as Hdiff.
  destruct (Z.eqb_spec (mem_diff (take (length t) (x :: s)) t) 0) as [E|E];
    case_decide as Hd; try (by tauto).
  - rewrite ?bind_ret. simpl. by rewrite Z.add_0_r.
  - rewrite ?bind_ret, found_at_S. cstr_inv.
    replace (Z.of_nat (S (length s)) - 1) with (Z.of_nat (length s)) by lia.
    apply IH; [done|simpl in *; lia].
Qed.

(** ** Splitting and trimming *)

Lemma strsep_ok fuel m p q s t :
  0 < p -> cstr m p s -> cstr m q t -> (length s < fuel)%nat -> (length t < fuel)%nat ->
  strsep fuel p q m =
    Ok (match index_of (is_in t) s with
        | None => (p, NULL, m)
        | Some i => (p, p + Z.of_nat i + 1, <[p + Z.of_nat i := 0]> m)
        end).
Proof.
  intros Hp Hs Ht Hf1 Hf2. unfold strsep. rewrite (proj2 (Z.eqb_neq p NULL)) by (unfold NULL; lia).
  erewrite bind_Ok by by apply strpbrk_ok.
  destruct (index_of (is_in t) s) as [i|] eqn:Hi; simpl; [|done].
  rewrite (proj2 (Z.eqb_neq _ NULL)) by (unfold NULL; lia). simpl. rewrite bind_bind.
  apply index_of_Some in Hi as [(x & Hx & _) _].
  rewrite bind_store; [done|]. exists x. by apply (cstr_arr _ _ _ Hs).
Qed.

(** The caller's loop [while ((tok = strsep(&s, ct)) != NULL)], collecting the
    tokens. *)
Fixpoint strsep_all (n fuel : nat) (s ct : Z) : M (list Z) :=
  match n with
  | O => stop OutOfFuel
  | S n' =>
      r ← strsep fuel s ct;
      if r.1 =? NULL then mret [] else
      toks ← strsep_all n' fuel r.2 ct;
      mret (r.1 :: toks)
  end.

(** The fields of [s] between the bytes that satisfy [P], empty ones included. *)
Fixpoint split_on (P : Z -> bool) (s : list Z) : list (list Z) :=
  match s with
  | [] => [[]]
  | x :: s' =>
      if P x then [] :: split_on P s'
      else match split_on P s' with
           | w :: ws => (x :: w) :: ws
           | [] => [[x]]
           end
  end.

Lemma split_on_None P s : index_of P s = None -> split_on P s = [s].
Proof.
  induction s as [|x s IH]; simpl; [done|]. destruct (P x); [done|].
  rewrite fmap_None. intros H. by rewrite IH.
Qed.

Lemma split_on_Some P s i :
  index_of P s = Some i -> split_on P s = take i s :: split_on P (drop (S i) s).
Proof.
  revert i. induction s as [|x s IH]; intros i; simpl; [done|]. destruct (P x).
  - by intros [= <-].
  - rewrite fmap_Some. intros (k & Hk & ->). by rewrite (IH k Hk).
Qed.

Lemma cstr_split m p s i x :
  cstr m p s -> s !! i = Some x ->
  cstr (<[p + Z.of_nat i := 0]> m) p (take i s) /\
  cstr (<[p + Z.of_nat i := 0]> m) (p + Z.of_nat i + 1) (drop (S i) s).
Proof.
  intros Hs Hx. pose proof (lookup_lt_Some _ _ _ Hx). rewrite <- (take_drop_middle s i x) in Hs by done.
  apply cstr_app in Hs as (H1 & H2 & H3). rewrite length_take, Nat.min_l in H3 by lia. cstr_inv.
  split.
  - split; [|done]. apply arr_app. rewrite length_take, Nat.min_l by lia. split.
    + apply arr_insert_ne; [rewrite length_take; lia|done].
    + apply arr_cons. split; [by rewrite lookup_insert_eq|]. by intros ? ?.
  - apply cstr_insert_ne; [lia|done].
Qed.

Lemma strsep_all_ok n fuel m p q s t :
  0 < p -> cstr m p s -> cstr m q t ->
  q + Z.of_nat (length t) < p \/ p + Z.of_nat (length s) < q ->
  (length s < fuel)%nat -> (length t < fuel)%nat -> (length s + 1 < n)%nat ->
  exists toks m',
    strsep_all n fuel p q m = Ok (toks, m') /\
    Forall2 (cstr m') toks (split_on (is_in t) s) /\
    (forall a, a < p \/ p + Z.of_nat (length s) <= a -> m' !! a = m !! a).
Proof.
  revert m p s. induction n as [|n IH]; intros m p s Hp Hs Ht Hd Hf1 Hf2 Hn; [lia|].
  simpl. pose proof (strsep_ok fuel m p q s t Hp Hs Ht Hf1 Hf2) as Hsep.
  destruct (index_of (is_in t) s) as [i|] eqn:Hi; erewrite bind_Ok by done; simpl;
    rewrite (proj2 (Z.eqb_neq p NULL)) by (unfold NULL; lia).
  - rewrite (split_on_Some _ _ _ Hi). apply index_of_Some in Hi as [(x & Hx & _) _].
    pose proof (lookup_lt_Some _ _ _ Hx).
    destruct (cstr_split m p s i x) as [H1 H2]; [done..|].
    destruct (IH (<[p + Z.of_nat i := 0]> m) (p + Z.of_nat i + 1) (drop (S i) s))
      as (toks & m' & Hrun & Htoks & Hframe).
    1-7: rewrite ?length_drop; try done; try lia.
    { apply cstr_insert_ne; [lia|done]. }
    exists (p :: toks), m'. erewrite bind_Ok by done. split; [done|split].
    + constructor; [|done]. destruct H1 as [H1 H3]. split; [|done].
      intros k y Hk. rewrite Hframe; [by apply H1|].
      apply lookup_lt_Some in Hk. rewrite length_app, length_take in Hk. simpl in Hk. lia.
    + intros a Ha. rewrite Hframe by (rewrite length_drop; lia).
      rewrite lookup_insert_ne; [done|lia].
  - exists [p], m. split.
    + destruct n as [|n]; [lia|]. simpl. by rewrite bind_bind.
    + rewrite split_on_None by done. split; [|done]. constructor; [done|constructor].
Qed.

(** White space off the front, off the back, off both. *)
Definition ltrim (s : list Z) : list Z := drop (span_length isspace s) s.
Definition rtrim (s : list Z) : list Z := rev (ltrim (rev s)).

Lemma ltrim_cons x s : ltrim (x :: s) = if isspace x then ltrim s else x :: s.
Proof. unfold ltrim. rewrite span_length_cons. by destruct (isspace x). Qed.

Lemma rtrim_snoc s x : rtrim (s ++ [x]) = if isspace x then rtrim s else s ++ [x].
Proof.
  unfold rtrim. rewrite rev_app_distr. simpl. rewrite ltrim_cons.
  destruct (isspace x); [done|]. simpl. by rewrite rev_involutive.
Qed.

Lemma rtrim_prefix s : exists k, s = rtrim s ++ k /\ (length (rtrim s) <= length s)%nat.
Proof.
  induction s as [|x s IH] using rev_ind; [by exists []|].
  rewrite rtrim_snoc, length_app. destruct (isspace x).
  - destruct IH as (k & Hk & Hl). exists (k ++ [x]). split; [|lia].
    rewrite app_assoc, <- Hk. done.
  - exists []. rewrite app_nil_r, length_app. done.
Qed.

Lemma strstrip_back fuel m p s :
  arr m p s -> (length s < fuel)%nat ->
  loop fuel (fun e =>
    if negb (p <=? e) then break e else
    c ← load e;
    if isspace c then continue (e - 1) else break e) (p + Z.of_nat (length s) - 1) m =
  Ok (p + Z.of_nat (length (rtrim s)) - 1, m).
Proof.
  revert fuel. induction s as [|x s IH] using rev_ind; intros fuel Hs Hf; fuel_S fuel; run.
  - rewrite (proj2 (Z.leb_gt _ _)) by lia. simpl. done.
  - rewrite rtrim_snoc, length_app in *. simpl length in *. apply arr_app in Hs as [Hs Hx]. cstr_inv.
    replace (p + Z.of_nat (length s + 1) - 1) with (p + Z.of_nat (length s)) by lia.
    rewrite (proj2 (Z.leb_le _ _)) by lia. simpl. run. destruct (isspace x); run.
    + apply IH; [done|lia].
    + rewrite length_app. simpl. unfold mret, M_ret. do 2 f_equal. lia.
Qed.

Lemma strstrip_front fuel m p s :
  cstr m p s -> (length s < fuel)%nat ->
  exists p', loop fuel (fun s =>
      c ← load s;
      if negb (c =? 0) && isspace c then continue (s + 1) else break s) p m = Ok (p', m) /\
    cstr m p' (ltrim s).
Proof.
  revert fuel p. induction s as [|x s IH]; intros fuel p Hs Hf; fuel_S fuel.
  - cstr_inv. run. exists p. split; [done|]. by apply cstr_nil.
  - rewrite ltrim_cons. cstr_inv. run. test_byte. destruct (isspace x); run.
    + apply IH; [done|simpl in *; lia].
    + exists p. split; [done|]. by apply cstr_cons.
Qed.

Lemma strstrip_ok fuel m p s :
  cstr m p s -> (length s < fuel)%nat ->
  exists p' m', strstrip fuel p m = Ok (p', m') /\ cstr m' p' (ltrim (rtrim s)) /\
    (forall a, a < p \/ p + Z.of_nat (length s) < a -> m' !! a = m !! a).
Proof.
  intros Hs Hf. unfold strstrip. erewrite bind_Ok by by apply strlen_ok.
  destruct s as [|x s]; [by exists p, m|].
  change (Z.of_nat (length (x :: s)) =? 0) with false. cbv iota.
  erewrite bind_Ok by (apply strstrip_back; [by apply cstr_arr|done]).
  destruct (rtrim_prefix (x :: s)) as (k & Hk & Hl).
  replace (p + Z.of_nat (length (rtrim (x :: s))) - 1 + 1)
    with (p + Z.of_nat (length (rtrim (x :: s)))) by lia.
  assert (is_Some (m !! (p + Z.of_nat (length (rtrim (x :: s)))))) as Hsome.
  { destruct Hs as [Harr _]. apply arr_mapped in Harr. apply Harr.
    rewrite length_app. simpl length in *. lia. }
  rewrite bind_store by done.
  assert (cstr (<[p + Z.of_nat (length (rtrim (x :: s))) := 0]> m) p (rtrim (x :: s))) as Hs'.
  { rewrite Hk in Hs. apply cstr_app in Hs as (H1 & H2 & _). split; [|done].
    apply arr_app. split; [apply arr_insert_ne; [lia|done]|].
    apply arr_cons. split; [by rewrite lookup_insert_eq|]. by intros ? ?. }
  destruct (strstrip_front fuel _ p _ Hs') as (p' & Hrun & Hp'); [lia|].
  eexists p', _. split; [exact Hrun|]. split; [done|].
  intros a Ha. rewrite lookup_insert_ne; [done|lia].
Qed.

Lemma cstr_head m p s : cstr m p s -> is_Some (m !! p).
Proof. destruct s; intros; cstr_inv; by eexists. Qed.

Lemma sysfs_streq_ok fuel m p q s t :
  cstr m p s -> cstr m q t -> (length s < fuel)%nat ->
  exists b, sysfs_streq fuel p q m = Ok (b, m) /\
    (b = true <-> s = t \/ t = s ++ [10] \/ s = t ++ [10]).
Proof.
  unfold sysfs_streq. revert fuel p q t.
  induction s as [|x s IH]; intros fuel p q t Hs Ht Hf; fuel_S fuel; cstr_inv.
  - run. destruct t as [|y t]; cstr_inv; run; [exists true; split; [done|tauto]|].
    rewrite (proj2 (Z.eqb_neq 0 y)) by lia. destruct (Z.eqb_spec y 10) as [->|Hy]; simpl.
    + destruct t as [|z t]; cstr_inv; autorewrite with run; erewrite bind_load by done;
        autorewrite with run; simpl; test_byte.
      * exists true. split; [done|]. tauto.
      * exists false. split; [done|]. split; [done|]. by intros [|[|]].
    + exists false. split; [done|]. split; [done|]. intros [|[[=]|]]; done.
  - run. test_byte. destruct t as [|y t]; cstr_inv; run.
    + test_byte. run. test_byte. destruct (Z.eqb_spec x 10) as [->|Hx]; simpl.
      * destruct s as [|z s]; cstr_inv; autorewrite with run; erewrite bind_load by done;
          autorewrite with run; simpl; test_byte.
        -- exists true. split; [done|]. tauto.
        -- exists false. split; [done|]. split; [done|]. by intros [|[|]].
      * exists false. split; [done|]. split; [done|]. intros [|[|[=]]]; done.
    + destruct (Z.eqb_spec x y) as [->|Hxy]; run.
      * edestruct (IH fuel (p + 1) (q + 1) t) as (b & Hb & Hiff); [done|done|simpl in *; lia|].
        exists b. split; [exact Hb|]. rewrite Hiff. simpl.
        split; [by intros [->|[->| ->]]; auto|]. intros [[=]|[[=]|[=]]]; auto.
      * test_byte. exists false. split.
        -- destruct (Z.eqb_spec x 10); [|done]. destruct (cstr_head _ _ _ H1) as [z Hz].
           erewrite bind_load by done. by rewrite ?bind_ret, andb_false_r.
        -- split; [done|]. intros [[=]|[[=]|[=]]]; done.
Qed.

Lemma lex_lt_irrefl s : ~ lex_lt s s.
Proof. induction s as [|x s IH]; simpl; [tauto|]. intros [?|[_ ?]]; [lia|done]. Qed.

Lemma first_diff_7bit s t x y :
  Forall (fun c => c < 128) s -> Forall (fun c => c < 128) t ->
  first_diff s t = Some (x, y) -> x < 128 /\ y < 128.
Proof.
  revert t. induction s as [|a s IH]; intros [|b t] Hs Ht H; simpl in H; simplify_eq;
    rewrite ?Forall_cons in *; destruct_and?; try lia.
  destruct (Z.eqb_spec a b); [by eapply IH|]. by simplify_eq.
Qed.

Lemma index_sub_None t s :
  index_sub t s = None ->
  forall i, (i <= length s)%nat -> take (length t) (drop i s) <> t.
Proof.
  induction s as [|x s IH]; simpl index_sub; case_decide as Hd; try done.
  - intros _ i Hi. simpl in Hi. by replace i with 0%nat by lia.
  - rewrite fmap_None. intros Hs [|i] Hi; [done|]. simpl in *. apply IH; [done|lia].
Qed.

(** ** What the routines promise *)

(** Memmove copies an area whatever way it overlaps its destination: it
    returns the destination, which then holds what the source held before the
    call, and no byte outside the destination changes. *)
Theorem memmove_overlap m dest src l :
  arr m src l -> mapped m dest (Z.of_nat (length l)) -> Z.of_nat (length l) < 2 ^ 32 ->
  exists m', memmove dest src (Z.of_nat (length l)) m = Ok (dest, m') /\
    arr m' dest l /\
    (forall a, a < dest \/ dest + Z.of_nat (length l) <= a -> m' !! a = m !! a).
Proof.
  intros. exists (write m dest l). split; [by apply memmove_ok|].
  split; [apply write_arr|]. intros. by apply lookup_write_out.
Qed.

Lemma memmove_overlap_witness :
  exists m', memmove 12 10 4 (memory [(10, [1; 2; 3; 4; 5; 6])]) = Ok (12, m') /\
    arr m' 12 [1; 2; 3; 4] /\
    (forall a, a < 12 \/ 12 + 4 <= a ->
       m' !! a = memory [(10, [1; 2; 3; 4; 5; 6])] !! a).
Proof.
  apply (memmove_overlap (memory [(10, [1; 2; 3; 4; 5; 6])]) 12 10 [1; 2; 3; 4]);
    [mem_check..|reflexivity].
Defined.

(** Strlcpy never writes past the given size and, unless the size is zero,
    leaves a terminated string, the source cut to size - 1 bytes; it returns the
    length of the source, so a result of at least the size tells the cut. *)
Theorem strlcpy_bounded fuel m dest src s size :
  cstr m src s -> 0 <= size < 2 ^ 32 -> mapped m dest size ->
  dest + size <= src \/ src + Z.of_nat (length s) < dest -> (length s < fuel)%nat ->
  Z.of_nat (length s) < 2 ^ 32 ->
  exists m', strlcpy fuel dest src size m = Ok (Z.of_nat (length s), m') /\
    (0 < size -> cstr m' dest (take (Z.to_nat (size - 1)) s)) /\
    (forall a, a < dest \/ dest + size <= a -> m' !! a = m !! a).
Proof.
  intros Hs Hsz Hm Hd Hf Hl. eexists. split; [by apply strlcpy_ok|].
  destruct (Z.eqb_spec size 0) as [->|Hne]; [split; [lia|done]|]. split.
  - intros _. apply cstr_write, Forall_take, Hs.
  - intros a Ha. apply lookup_write_out. rewrite length_app, length_take. simpl. lia.
Qed.

Lemma strlcpy_bounded_witness :
  exists m', strlcpy 9 20 10 3 (memory [(10, [104; 101; 108; 108; 111; 0]); (20, [7; 7; 7; 7])]) =
      Ok (5, m') /\
    (0 < 3 -> cstr m' 20 [104; 101]) /\
    (forall a, a < 20 \/ 20 + 3 <= a ->
       m' !! a = memory [(10, [104; 101; 108; 108; 111; 0]); (20, [7; 7; 7; 7])] !! a).
Proof.
  apply (strlcpy_bounded 9 (memory [(10, [104; 101; 108; 108; 111; 0]); (20, [7; 7; 7; 7])])
    20 10 [104; 101; 108; 108; 111] 3); [mem_check|lia| |simpl; lia..].
  change 3 with (Z.of_nat 3). mem_check.
Defined.

(** Strlcat appends within the size of the destination buffer and terminates
    the result, returning the length it tried to build; a destination that
    already fills the buffer stops the kernel with BUG. *)
Theorem strlcat_bounded fuel m dest src d s count :
  cstr m dest d -> cstr m src s -> 0 <= count < 2 ^ 32 -> mapped m dest count ->
  dest + count <= src \/ src + Z.of_nat (length s) < dest ->
  (length d < fuel)%nat -> (length s < fuel)%nat -> Z.of_nat (length d + length s) < 2 ^ 32 ->
  (count <= Z.of_nat (length d) -> strlcat fuel dest src count m = Fault Bug) /\
  (Z.of_nat (length d) < count ->
   exists m', strlcat fuel dest src count m = Ok (Z.of_nat (length d + length s), m') /\
     cstr m' dest (d ++ take (Z.to_nat count - length d - 1) s) /\
     (forall a, a < dest \/ dest + count <= a -> m' !! a = m !! a)).
Proof.
  intros Hd Hs Hc Hm Hdis Hf1 Hf2 Hl. split; [intros; by eapply strlcat_bug|].
  intros Hlt. eexists. split; [apply strlcat_ok; done || lia|]. split.
  - replace (Z.to_nat (count - Z.of_nat (length d) - 1)) with (Z.to_nat count - length d - 1)%nat
      by lia.
    apply cstr_app. pose proof Hd as [Harr ?]. apply arr_app in Harr as [Harr _].
    split; [apply arr_write_disjoint; [lia|done]|]. split; [done|].
    apply cstr_write, Forall_take, Hs.
  - intros a Ha. apply lookup_write_out. rewrite length_app, length_take. simpl. lia.
Qed.

Lemma strlcat_bounded_witness :
  let m := memory [(10, [104; 105; 0]); (20, [97; 98; 0; 7; 7])] in
  (4 <= 2 -> strlcat 9 20 10 4 m = Fault Bug) /\
  (2 < 4 ->
   exists m', strlcat 9 20 10 4 m = Ok (4, m') /\ cstr m' 20 [97; 98; 104] /\
     (forall a, a < 20 \/ 20 + 4 <= a -> m' !! a = m !! a)).
Proof.
  intros m. apply (strlcat_bounded 9 m 20 10 [97; 98] [104; 105] 4);
    [mem_check|mem_check|lia| |simpl; lia..].
  change 4 with (Z.of_nat 4). mem_check.
Defined.

(** Strcmp returns 0 exactly on equal strings, and on strings of 7-bit
    characters its sign is that of the dictionary order. *)
Theorem strcmp_order fuel m p q s t :
  cstr m p s -> cstr m q t -> (length s < fuel)%nat ->
  exists r, strcmp fuel p q m = Ok (r, m) /\ (r = 0 <-> s = t) /\
    (Forall (fun c => c < 128) s -> Forall (fun c => c < 128) t -> r < 0 <-> lex_lt s t).
Proof.
  intros Hs Ht Hf. eexists. split; [by apply strcmp_ok|]. destruct Hs as [_ Hs], Ht as [_ Ht].
  unfold diff_by. pose proof (first_diff_None s t Hs Ht) as Hnone.
  destruct (first_diff s t) as [[x y]|] eqn:Hd.
  - destruct (first_diff_Some s t x y) as (Hne & Hx & Hy); [done..|].
    rewrite s8_diff_0 by done. split; [rewrite <- Hnone; split; congruence|].
    intros H1 H2. rewrite <- (first_diff_lex s t x y) by done.
    assert (x < 128 /\ y < 128) as [? ?] by by apply (first_diff_7bit s t).
    rewrite s8_diff by done. repeat case_test; lia.
  - split; [tauto|]. intros _ _. split; [lia|]. rewrite (proj1 Hnone eq_refl).
    intros []%lex_lt_irrefl.
Qed.

Lemma strcmp_order_witness :
  let m := memory [(10, [97; 98; 0]); (20, [97; 99; 0])] in
  exists r, strcmp 5 10 20 m = Ok (r, m) /\ (r = 0 <-> [97; 98] = [97; 99]) /\
    (Forall (fun c => c < 128) [97; 98] -> Forall (fun c => c < 128) [97; 99] ->
     r < 0 <-> lex_lt [97; 98] [97; 99]).
Proof.
  intros m. apply (strcmp_order 5 m 10 20 [97; 98] [97; 99]); [mem_check|mem_check|simpl; lia].
Defined.

(** The result of strcmp is a signed char, so on bytes that differ by 128 or
    more its sign is wrong: a string that begins with byte 200 compares below
    one that begins with byte 10. *)
Theorem strcmp_sign_wraps :
  exists m p q s t, cstr m p s /\ cstr m q t /\ lex_lt t s /\
    exists r, strcmp 5 p q m = Ok (r, m) /\ r < 0.
Proof.
  exists (memory [(10, [200; 0]); (20, [10; 0])]), 10, 20, [200], [10].
  split; [mem_check|]. split; [mem_check|]. split; [simpl; lia|].
  exists (-66). by vm_compute.
Qed.

(** Strncasecmp compares at most n characters without regard to case, but a
    count of 0 is taken as 2^32: the count is decremented before it is tested. *)
Theorem strncasecmp_count fuel m p q s t n :
  cstr m p s -> cstr m q t -> (length s < fuel)%nat -> 0 <= n < 2 ^ 32 ->
  let k := Z.to_nat (if n =? 0 then 2 ^ 32 else n) in
  exists r, strncasecmp fuel p q n m = Ok (r, m) /\
    (r = 0 <-> take k (map tolower s) = take k (map tolower t)).
Proof.
  intros Hs Ht Hf Hn k. exists (diff_by Z.sub (take k (map tolower s)) (take k (map tolower t))).
  assert (Z.of_nat k = if n =? 0 then 2 ^ 32 else n) as Hz.
  { unfold k. apply Z2Nat.id. case_test; lia. }
  clearbody k. assert (u32 (Z.of_nat k) = n) as Hk.
  { rewrite Hz. destruct (Z.eqb_spec n 0) as [->|]; [done|]. by apply wrap_id. }
  rewrite <- Hk. split.
  - apply strncasecmp_ok; [done..| |]; destruct (Z.eqb_spec n 0); lia.
  - destruct Hs as [_ Hs%tolower_string%(Forall_take _ k)].
    destruct Ht as [_ Ht%tolower_string%(Forall_take _ k)].
    rewrite <- (first_diff_None _ _ Hs Ht). unfold diff_by.
    destruct (first_diff _ _) as [[x y]|] eqn:Hd; [|done].
    apply first_diff_Some in Hd as (? & ? & ?); [|done..]. split; [lia|done].
Qed.

Lemma strncasecmp_count_witness :
  let m := memory [(10, [72; 105; 0]); (20, [104; 106; 0])] in
  let k := Z.to_nat (if 1 =? 0 then 2 ^ 32 else 1) in
  exists r, strncasecmp 5 10 20 1 m = Ok (r, m) /\
    (r = 0 <-> take k (map tolower [72; 105]) = take k (map tolower [104; 106])).
Proof.
  intros m. apply (strncasecmp_count 5 m 10 20 [72; 105] [104; 106] 1);
    [mem_check|mem_check|simpl; lia|lia].
Defined.

(** Calling strsep until it returns NULL yields the fields of the string
    between the delimiters, in order and empty ones included, each terminated in
    place; nothing outside the string changes. *)
Theorem strsep_fields n fuel m p q s t :
  0 < p -> cstr m p s -> cstr m q t ->
  q + Z.of_nat (length t) < p \/ p + Z.of_nat (length s) < q ->
  (length s < fuel)%nat -> (length t < fuel)%nat -> (length s + 1 < n)%nat ->
  exists toks m', strsep_all n fuel p q m = Ok (toks, m') /\
    Forall2 (cstr m') toks (split_on (is_in t) s) /\
    (forall a, a < p \/ p + Z.of_nat (length s) <= a -> m' !! a = m !! a).
Proof. apply strsep_all_ok. Qed.

Lemma strsep_fields_witness :
  let m := memory [(10, [97; 44; 44; 98; 0]); (20, [44; 0])] in
  exists toks m', strsep_all 9 9 10 20 m = Ok (toks, m') /\
    Forall2 (cstr m') toks (split_on (is_in [44]) [97; 44; 44; 98]) /\
    (forall a, a < 10 \/ 10 + 4 <= a -> m' !! a = m !! a).
Proof.
  intros m. apply (strsep_fields 9 9 m 10 20 [97; 44; 44; 98] [44]);
    [lia|mem_check|mem_check|simpl; lia..].
Defined.

(** Strstr returns the address of the first occurrence of the second string
    in the first one, and NULL when there is none. *)
Theorem strstr_first fuel m p q s t :
  cstr m p s -> cstr m q t -> (length s < fuel)%nat -> (length t < fuel)%nat ->
  Z.of_nat (length t) < 2 ^ 32 ->
  exists o, strstr fuel p q m = Ok (found_at p o, m) /\
    match o with
    | Some i => (i <= length s)%nat /\ take (length t) (drop i s) = t /\
                forall j, (j < i)%nat -> take (length t) (drop j s) <> t
    | None => forall i, (i <= length s)%nat -> take (length t) (drop i s) <> t
    end.
Proof.
  intros Hs Ht Hf1 Hf2 Hl. exists (index_sub t s). split; [by apply strstr_ok|].
  destruct (index_sub t s) as [i|] eqn:Hi; [by apply index_sub_Some|].
  by apply index_sub_None.
Qed.

Lemma strstr_first_witness :
  let m := memory [(10, [97; 98; 97; 99; 0]); (20, [97; 99; 0])] in
  exists o, strstr 9 10 20 m = Ok (found_at 10 o, m) /\
    match o with
    | Some i => (i <= 4)%nat /\ take 2 (drop i [97; 98; 97; 99]) = [97; 99] /\
                forall j, (j < i)%nat -> take 2 (drop j [97; 98; 97; 99]) <> [97; 99]
    | None => forall i, (i <= 4)%nat -> take 2 (drop i [97; 98; 97; 99]) <> [97; 99]
    end.
Proof.
  intros m. apply (strstr_first 9 m 10 20 [97; 98; 97; 99] [97; 99]);
    [mem_check|mem_check|simpl; lia..].
Defined.

(** Strstrip returns the string with the white space off both ends, writing
    inside the string only. *)
Theorem strstrip_trims fuel m p s :
  cstr m p s -> (length s < fuel)%nat ->
  exists p' m', strstrip fuel p m = Ok (p', m') /\ cstr m' p' (ltrim (rtrim s)) /\
    (forall a, a < p \/ p + Z.of_nat (length s) < a -> m' !! a = m !! a).
Proof. apply strstrip_ok. Qed.

Lemma strstrip_trims_witness :
  let m := memory [(10, [32; 97; 32; 9; 0])] in
  exists p' m', strstrip 9 10 m = Ok (p', m') /\ cstr m' p' (ltrim (rtrim [32; 97; 32; 9])) /\
    (forall a, a < 10 \/ 10 + 4 < a -> m' !! a = m !! a).
Proof.
  intros m. apply (strstrip_trims 9 m 10 [32; 97; 32; 9]); [mem_check|simpl; lia].
Defined.
