(* ===== verification/Strtol.v ===== *)
(** * Numbers from strings: the first half of lib/vsprintf.c

    simple_strtoul and its relatives, and the strict conversions that reject
    trailing characters.  The unsigned long and the unsigned long long routines
    have the same text and share a definition with the width as argument; a
    routine that returns through a pointer returns a pair, with the address of the
    first character not used for [endp] and the converted number for [res]. *)

From S2P Require Import Prelude Ctype Strings.

#[local] Arguments loop : simpl never.

Definition TOLOWER (x : Z) : Z := Z.lor x 0x20.

Definition simple_guess_base (cp : Z) : M Z :=
  c0 ← load cp;
  if c0 =? 48 then
    c1 ← load (cp + 1);
    if TOLOWER c1 =? 120 then
      c2 ← load (cp + 2);
      mret (if isxdigit c2 then 16 else 8)
    else mret 8
  else mret 10.

(** The value of a hexadecimal digit, an unsigned int. *)
Definition digit_value (c : Z) : Z := u32 (if isdigit c then c - 48 else TOLOWER c - 97 + 10).

Definition simple_strto (w : Z) (fuel : nat) (cp base : Z) : M (Z * Z) :=
  base ← (if base =? 0 then simple_guess_base cp else mret base);
  cp ← (if base =? 16 then
          c0 ← load cp;
          if c0 =? 48 then
            c1 ← load (cp + 1);
            mret (if TOLOWER c1 =? 120 then cp + 2 else cp)
          else mret cp
        else mret cp);
  loop fuel (fun '(cp, result) =>
    c ← load cp;
    if isxdigit c then
      let value := digit_value c in
      if base <=? value then break (result, cp) else
      continue (cp + 1, wrap w (wrap w (result * base) + value))
    else break (result, cp)) (cp, 0).

Definition simple_strtoul : nat -> Z -> Z -> M (Z * Z) := simple_strto 32.
Definition simple_strtoull : nat -> Z -> Z -> M (Z * Z) := simple_strto 64.

(** The negation is unsigned; the result is converted to a signed number. *)
Definition simple_strto_signed (w : Z) (fuel : nat) (cp base : Z) : M (Z * Z) :=
  c ← load cp;
  if c =? 45 then
    '(r, endp) ← simple_strto w fuel (cp + 1) base;
    mret (swrap w (wrap w (- r)), endp)
  else
    '(r, endp) ← simple_strto w fuel cp base;
    mret (swrap w r, endp).

Definition simple_strtol : nat -> Z -> Z -> M (Z * Z) := simple_strto_signed 32.
Definition simple_strtoll : nat -> Z -> Z -> M (Z * Z) := simple_strto_signed 64.

(** Returns the error code and the value of [res]. *)
Definition strict_strto (w : Z) (fuel : nat) (cp base : Z) : M (Z * Z) :=
  len ← strlen fuel cp;
  if len =? 0 then mret (- EINVAL, 0) else
  '(val, tail) ← simple_strto w fuel cp base;
  if tail =? cp then mret (- EINVAL, 0) else
  c ← load tail;
  if (c =? 0) || (len =? u32 (u32 (tail - cp) + 1)) && (c =? 10) then mret (0, val)
  else mret (- EINVAL, 0).

Definition strict_strtoul : nat -> Z -> Z -> M (Z * Z) := strict_strto 32.
Definition strict_strtoull : nat -> Z -> Z -> M (Z * Z) := strict_strto 64.

Definition strict_strto_signed (w : Z) (fuel : nat) (cp base : Z) : M (Z * Z) :=
  c ← load cp;
  if c =? 45 then
    '(ret, res) ← strict_strto w fuel (cp + 1) base;
    mret (ret, if ret =? 0 then swrap w (- swrap w res) else swrap w res)
  else
    '(ret, res) ← strict_strto w fuel cp base;
    mret (ret, swrap w res).

Definition strict_strtol : nat -> Z -> Z -> M (Z * Z) := strict_strto_signed 32.
Definition strict_strtoll : nat -> Z -> Z -> M (Z * Z) := strict_strto_signed 64.

(** ** What a string denotes *)

(** The value of a digit of the base, or nothing. *)
Definition digit_in (base c : Z) : option Z :=
  if isxdigit c && (digit_value c <? base) then Some (digit_value c) else None.

Fixpoint leading_digits (base : Z) (s : list Z) : list Z :=
  match s with
  | [] => []
  | c :: s' => match digit_in base c with
               | Some d => d :: leading_digits base s'
               | None => []
               end
  end.

(** The number that digits, most significant first, denote. *)
Definition number_of (base : Z) (ds : list Z) : Z := foldl (fun a d => a * base + d) 0 ds.

(** The terminator reads as 0. *)
Definition guessed_base (s : list Z) : Z :=
  if hd 0 s =? 48 then
    if TOLOWER (hd 0 (tl s)) =? 120 then if isxdigit (hd 0 (tl (tl s))) then 16 else 8 else 8
  else 10.

Definition base_of (base : Z) (s : list Z) : Z := if base =? 0 then guessed_base s else base.

(** The length of the prefix "0x". *)
Definition prefix_len (base : Z) (s : list Z) : nat :=
  if (base =? 16) && (hd 0 s =? 48) && (TOLOWER (hd 0 (tl s)) =? 120) then 2 else 0.

Definition digits_of (base : Z) (s : list Z) : list Z := leading_digits base (drop (prefix_len base s) s).

(** Characters that a conversion uses. *)
Definition used (base : Z) (s : list Z) : nat := prefix_len base s + length (digits_of base s).

(** ** The conversions *)

Lemma cstr_hd m p s : cstr m p s -> m !! p = Some (hd 0 s).
Proof.
  destruct s as [|c s]; simpl; [by intros ?%cstr_nil|]. by intros [? _]%cstr_cons.
Qed.

Lemma cstr_drop m p s n : cstr m p s -> (n <= length s)%nat -> cstr m (p + Z.of_nat n) (drop n s).
Proof.
  intros Hs Hn. rewrite <- (take_drop n s) in Hs. apply cstr_app in Hs as (_ & _ & Hs).
  by rewrite length_take_le in Hs by lia.
Qed.

Lemma cstr_tl m p s : cstr m p s -> hd 0 s <> 0 -> cstr m (p + 1) (tl s).
Proof. destruct s as [|c s]; [done|]. by intros (_ & _ & ?)%cstr_cons. Qed.

Lemma bytes_hd m p s : cstr m p s -> 0 <= hd 0 s < 256.
Proof. destruct s as [|c s]; simpl; [lia|]. intros (_ & ? & _)%cstr_cons. lia. Qed.

Lemma guess_base_ok m p s : cstr m p s -> simple_guess_base p m = Ok (guessed_base s, m).
Proof.
  intros Hs. unfold simple_guess_base, guessed_base. rewrite (bind_load _ (hd 0 s)) by (by apply cstr_hd).
  destruct (Z.eqb_spec (hd 0 s) 48) as [E|E]; [|done].
  assert (cstr m (p + 1) (tl s)) as H1 by (apply cstr_tl; [done|lia]).
  rewrite (bind_load _ (hd 0 (tl s))) by (by apply cstr_hd).
  destruct (Z.eqb_spec (TOLOWER (hd 0 (tl s))) 120) as [E1|E1]; [|done].
  assert (cstr m (p + 2) (tl (tl s))) as H2.
  { replace (p + 2) with (p + 1 + 1) by lia. apply cstr_tl; [done|]. intros E2. by rewrite E2 in E1. }
  rewrite (bind_load _ (hd 0 (tl (tl s)))) by (by apply cstr_hd). by destruct (isxdigit _).
Qed.

Lemma prefix_len_le base s : (prefix_len base s <= length s)%nat.
Proof.
  unfold prefix_len. destruct s as [|a [|b s]]; simpl hd; simpl tl; try change (TOLOWER 0 =? 120) with false;
    rewrite ?andb_false_r; simpl length; [lia..|]. destruct (_ && _); lia.
Qed.

Lemma leading_digits_le base s : (length (leading_digits base s) <= length s)%nat.
Proof. induction s as [|c s IH]; simpl; [done|]. destruct (digit_in base c); simpl; lia. Qed.

Lemma used_le base s : (used base s <= length s)%nat.
Proof.
  unfold used, digits_of. pose proof (leading_digits_le base (drop (prefix_len base s) s)) as H.
  rewrite length_drop in H. pose proof (prefix_len_le base s). lia.
Qed.

(** A number accumulated in [w] bits is the number, wrapped. *)
Lemma accumulate_wrap w base d r :
  wrap w (wrap w (wrap w r * base) + d) = wrap w (r * base + d).
Proof. rewrite wrap_add_l, <- wrap_add_l, wrap_mul_l, wrap_add_l. done. Qed.

Lemma number_of_cons base d ds acc :
  foldl (fun a d => a * base + d) acc (d :: ds) = foldl (fun a d => a * base + d) (acc * base + d) ds.
Proof. done. Qed.

Lemma digits_loop w base m s :
  forall fuel p r, cstr m p s -> (length s < fuel)%nat ->
  loop fuel (fun '(cp, result) =>
    c ← load cp;
    if isxdigit c then
      let value := digit_value c in
      if base <=? value then break (result, cp) else
      continue (cp + 1, wrap w (wrap w (result * base) + value))
    else break (result, cp)) (p, wrap w r) m =
  Ok ((wrap w (foldl (fun a d => a * base + d) r (leading_digits base s)),
       p + Z.of_nat (length (leading_digits base s))), m).
Proof.
  induction s as [|c s IH]; intros fuel p r Hs Hf; (destruct fuel as [|fuel]; [simpl in Hf; lia|]); rewrite loop_S.
  - apply cstr_nil in Hs. rewrite bind_bind, (bind_load _ 0) by done. simpl. rewrite bind_ret, Z.add_0_r. done.
  - apply cstr_cons in Hs as (Hc & Hb & Hs). rewrite bind_bind, (bind_load _ c) by done.
    simpl leading_digits. unfold digit_in. destruct (isxdigit c); simpl andb; cbv zeta.
    + destruct (Z.leb_spec base (digit_value c)) as [H|H]; rewrite bind_ret.
      * replace (digit_value c <? base) with false by lia. simpl. by rewrite Z.add_0_r.
      * replace (digit_value c <? base) with true by lia. rewrite accumulate_wrap, number_of_cons.
        rewrite (IH fuel) by (done || simpl in Hf; lia). simpl length. do 3 f_equal. lia.
    + rewrite bind_ret. simpl. by rewrite Z.add_0_r.
Qed.

Lemma simple_strto_ok w fuel m p s base :
  0 <= w -> cstr m p s -> (length s < fuel)%nat ->
  let b := base_of base s in
  simple_strto w fuel p base m = Ok ((wrap w (number_of b (digits_of b s)), p + Z.of_nat (used b s)), m).
Proof.
  intros Hw Hs Hf b. unfold simple_strto. erewrite bind_Ok.
  2: { instantiate (1 := m). instantiate (1 := b). unfold b, base_of.
       destruct (base =? 0); [by apply guess_base_ok|done]. }
  erewrite bind_Ok.
  2: { instantiate (1 := m). instantiate (1 := p + Z.of_nat (prefix_len b s)). unfold prefix_len.
       destruct (b =? 16); [|by rewrite Z.add_0_r].
       rewrite (bind_load _ (hd 0 s)) by (by apply cstr_hd).
       destruct (Z.eqb_spec (hd 0 s) 48) as [E|E]; [|by rewrite Z.add_0_r].
       rewrite (bind_load _ (hd 0 (tl s))) by (apply cstr_hd, cstr_tl; [done|lia]).
       destruct (TOLOWER (hd 0 (tl s)) =? 120); [done|by rewrite Z.add_0_r]. }
  assert (0 = wrap w 0) as E0 by (unfold wrap; by rewrite Zmod_0_l). rewrite E0 at 1.
  pose proof (prefix_len_le b s). erewrite digits_loop.
  2: { by apply cstr_drop. }
  2: { rewrite length_drop. lia. }
  unfold number_of, digits_of, used, digits_of. do 3 f_equal. lia.
Qed.

(** The strings the strict conversions accept: some character is used, and nothing
    but one newline follows. *)
Definition accepted (base : Z) (s : list Z) : bool :=
  negb (used base s =? 0)%nat && bool_decide (drop (used base s) s = [] \/ drop (used base s) s = [10]).

Lemma strict_strto_ok w fuel m p s base :
  0 <= w -> cstr m p s -> (length s < fuel)%nat -> Z.of_nat (length s) < 2 ^ 32 - 1 ->
  let b := base_of base s in
  strict_strto w fuel p base m =
    Ok (if accepted b s then (0, wrap w (number_of b (digits_of b s))) else (- EINVAL, 0), m).
Proof.
  intros Hw Hs Hf Hlen b. unfold strict_strto, accepted.
  rewrite (bind_Ok _ _ _ _ _ (strlen_ok fuel m p s Hs Hf)).
  pose proof (used_le b s) as Hu. set (u := used b s) in *.
  destruct (Z.eqb_spec (Z.of_nat (length s)) 0) as [E|E].
  { replace (u =? 0)%nat with true by (symmetry; apply Nat.eqb_eq; lia). done. }
  rewrite (bind_Ok _ _ _ _ _ (simple_strto_ok w fuel m p s base Hw Hs Hf)). cbv beta iota zeta. fold b u.
  destruct (Z.eqb_spec (p + Z.of_nat u) p) as [E0|E0].
  { replace (u =? 0)%nat with true by (symmetry; apply Nat.eqb_eq; lia). done. }
  replace (u =? 0)%nat with false by (symmetry; apply Nat.eqb_neq; lia). simpl negb. simpl andb.
  pose proof (cstr_drop m p s u Hs Hu) as Hd. rewrite (bind_load _ (hd 0 (drop u s))) by (by apply cstr_hd).
  replace (p + Z.of_nat u - p) with (Z.of_nat u) by lia. rewrite !wrap_id by (unfold fits; try rewrite wrap_id; unfold fits; lia).
  assert (length (drop u s) = length s - u)%nat as Hl by apply length_drop.
  destruct (drop u s) as [|c [|c2 rest]]; simpl in Hl; cbn [hd List.hd].
  - by rewrite bool_decide_true by (by left).
  - destruct Hd as [_ Hd]. apply Forall_cons in Hd as [Hc _]. replace (c =? 0) with false by lia.
    replace (Z.of_nat (length s) =? Z.of_nat u + 1) with true by lia. cbn [orb andb].
    destruct (Z.eqb_spec c 10) as [->|Hne]; [by rewrite bool_decide_true by (by right)|].
    rewrite bool_decide_false by (intros [|]; simplify_eq). done.
  - destruct Hd as [_ Hd]. apply Forall_cons in Hd as [Hc _]. replace (c =? 0) with false by lia.
    replace (Z.of_nat (length s) =? Z.of_nat u + 1) with false by lia.
    by rewrite bool_decide_false by (intros [|]; simplify_eq).
Qed.

(** Strict_strtoul and strict_strtoull accept exactly the strings that consist
    of a number of the base, with an optional prefix in base 16, and at most one
    newline after it; they return its value modulo the width of the result, and
    -EINVAL with a value of 0 for any other string. *)
Theorem strict_conversion fuel m p s base :
  cstr m p s -> (length s < fuel)%nat -> Z.of_nat (length s) < 2 ^ 32 - 1 ->
  let b := base_of base s in
  let answer w := Ok (if accepted b s then (0, wrap w (number_of b (digits_of b s))) else (- EINVAL, 0), m) in
  strict_strtoul fuel p base m = answer 32 /\ strict_strtoull fuel p base m = answer 64.
Proof. intros Hs Hf Hl b answer. split; apply strict_strto_ok; done || lia. Qed.

Lemma strict_conversion_witness :
  strict_strtoul 10 100 0 (memory [(100, [49; 50; 51; 10; 0])]) = Ok ((0, 123), memory [(100, [49; 50; 51; 10; 0])]).
Proof.
  destruct (strict_conversion 10 (memory [(100, [49; 50; 51; 10; 0])]) 100 [49; 50; 51; 10] 0) as [H _];
    [mem_check|simpl; lia|simpl; lia|]. etransitivity; [exact H|reflexivity].
Defined.

(** The prefix alone is accepted, as the number 0, and numbers that are out of range
    are accepted modulo the width. *)
Example strict_prefix_alone :
  strict_strtoul 10 100 16 (memory [(100, [48; 120; 0])]) = Ok ((0, 0), memory [(100, [48; 120; 0])]) /\
  strict_strtoul 20 100 10 (memory [(100, [52; 50; 57; 52; 57; 54; 55; 50; 57; 55; 0])])
  = Ok ((0, 1), memory [(100, [52; 50; 57; 52; 57; 54; 55; 50; 57; 55; 0])]).
Proof. split; vm_compute; reflexivity. Qed.

(** Negative numbers. *)
Lemma strict_signed_ok fuel m p s base :
  cstr m p s -> (length s < fuel)%nat -> Z.of_nat (length s) < 2 ^ 32 - 1 ->
  forall w, 0 < w ->
  let neg := hd 0 s =? 45 in
  let s' := if neg then tl s else s in
  let b := base_of base s' in
  strict_strto_signed w fuel p base m =
    Ok (if accepted b s' then (0, swrap w (if neg then - number_of b (digits_of b s') else number_of b (digits_of b s')))
        else (- EINVAL, 0), m).
Proof.
  intros Hs Hf Hl w Hw neg s' b. unfold strict_strto_signed. rewrite (bind_load _ (hd 0 s)) by (by apply cstr_hd).
  assert (swrap w 0 = 0) as E0 by (apply swrap_id; lia).
  unfold b, s', neg. destruct (Z.eqb_spec (hd 0 s) 45) as [E|E].
  - erewrite bind_Ok.
    2: { apply (strict_strto_ok w fuel m (p + 1) (tl s)); [lia|apply cstr_tl; [done|lia]|..];
         destruct s; simpl in *; lia. }
    destruct (accepted _ _); cbv beta iota; [|by rewrite E0].
    rewrite swrap_wrap by lia. simpl. by rewrite swrap_opp by lia.
  - erewrite bind_Ok by (apply (strict_strto_ok w fuel m p s); [lia|done..]).
    destruct (accepted _ _); cbv beta iota; [by rewrite swrap_wrap by lia|by rewrite E0].
Qed.
