(* ===== verification/Bitops.v ===== *)
(** * Bit operations on words and bit searches

    The word routines of include/asm-generic/bitops and lib/hweight.c, and the
    searches of lib/find_next_bit.c and lib/find_last_bit.c over an array of
    unsigned longs.  A long has 32 bits, as on ARM.  The array lives in the
    memory of [Prelude], one cell per long. *)

From S2P Require Import Prelude.

Definition BITS_PER_LONG : Z := 32.
(** [~0UL] *)
Definition ALL_ONES : Z := 2 ^ 32 - 1.
(** [~x] on an unsigned long. *)
Definition not32 (x : Z) : Z := Z.lxor x ALL_ONES.

Definition BIT_MASK (nr : Z) : Z := u32 (Z.shiftl 1 (nr mod BITS_PER_LONG)).
Definition BIT_WORD (nr : Z) : Z := nr / BITS_PER_LONG.
Definition BITS_TO_LONGS (nr : Z) : Z := (nr + BITS_PER_LONG - 1) / BITS_PER_LONG.

(** ** Word routines *)

Definition hweight32 (w : Z) : Z :=
  let res := u32 (w - Z.land (Z.shiftr w 1) 0x55555555) in
  let res := u32 (Z.land res 0x33333333 + Z.land (Z.shiftr res 2) 0x33333333) in
  let res := Z.land (u32 (res + Z.shiftr res 4)) 0x0F0F0F0F in
  let res := u32 (res + Z.shiftr res 8) in
  Z.land (u32 (res + Z.shiftr res 16)) 0x000000FF.

Definition hweight16 (w : Z) : Z :=
  let res := u32 (w - Z.land (Z.shiftr w 1) 0x5555) in
  let res := u32 (Z.land res 0x3333 + Z.land (Z.shiftr res 2) 0x3333) in
  let res := Z.land (u32 (res + Z.shiftr res 4)) 0x0F0F in
  Z.land (u32 (res + Z.shiftr res 8)) 0x00FF.

Definition hweight8 (w : Z) : Z :=
  let res := u32 (w - Z.land (Z.shiftr w 1) 0x55) in
  let res := u32 (Z.land res 0x33 + Z.land (Z.shiftr res 2) 0x33) in
  Z.land (u32 (res + Z.shiftr res 4)) 0x0F.

(** The branch for [BITS_PER_LONG == 32]; [w] has 64 bits. *)
Definition hweight64 (w : Z) : Z :=
  u32 (hweight32 (u32 (Z.shiftr w 32)) + hweight32 (u32 w)).

(** [sizeof(w) == 4] *)
Definition hweight_long (w : Z) : Z := hweight32 w.

Definition __ffs (word : Z) : Z :=
  let num := 0 in
  let '(num, word) := if Z.land word 0xffff =? 0 then (num + 16, Z.shiftr word 16) else (num, word) in
  let '(num, word) := if Z.land word 0xff =? 0 then (num + 8, Z.shiftr word 8) else (num, word) in
  let '(num, word) := if Z.land word 0xf =? 0 then (num + 4, Z.shiftr word 4) else (num, word) in
  let '(num, word) := if Z.land word 0x3 =? 0 then (num + 2, Z.shiftr word 2) else (num, word) in
  if Z.land word 0x1 =? 0 then num + 1 else num.

Definition ffz (x : Z) : Z := __ffs (not32 x).

(** [x] is the bit pattern of the argument, an unsigned 32-bit value. *)
Definition fls (x : Z) : Z :=
  let r := 32 in
  if x =? 0 then 0 else
  let '(x, r) := if Z.land x 0xffff0000 =? 0 then (u32 (Z.shiftl x 16), r - 16) else (x, r) in
  let '(x, r) := if Z.land x 0xff000000 =? 0 then (u32 (Z.shiftl x 8), r - 8) else (x, r) in
  let '(x, r) := if Z.land x 0xf0000000 =? 0 then (u32 (Z.shiftl x 4), r - 4) else (x, r) in
  let '(x, r) := if Z.land x 0xc0000000 =? 0 then (u32 (Z.shiftl x 2), r - 2) else (x, r) in
  if Z.land x 0x80000000 =? 0 then r - 1 else r.

Definition __fls (word : Z) : Z :=
  let num := BITS_PER_LONG - 1 in
  let top k := u32 (Z.shiftl ALL_ONES (BITS_PER_LONG - k)) in
  let '(num, word) := if Z.land word (top 16) =? 0 then (num - 16, u32 (Z.shiftl word 16)) else (num, word) in
  let '(num, word) := if Z.land word (top 8) =? 0 then (num - 8, u32 (Z.shiftl word 8)) else (num, word) in
  let '(num, word) := if Z.land word (top 4) =? 0 then (num - 4, u32 (Z.shiftl word 4)) else (num, word) in
  let '(num, word) := if Z.land word (top 2) =? 0 then (num - 2, u32 (Z.shiftl word 2)) else (num, word) in
  if Z.land word (top 1) =? 0 then num - 1 else num.

(** ** Single bits in memory *)

Definition __set_bit (nr addr : Z) : M unit :=
  let mask := BIT_MASK nr in
  let p := addr + BIT_WORD nr in
  w ← load p;
  store p (Z.lor w mask).

Definition __clear_bit (nr addr : Z) : M unit :=
  let mask := BIT_MASK nr in
  let p := addr + BIT_WORD nr in
  w ← load p;
  store p (Z.land w (not32 mask)).

Definition __change_bit (nr addr : Z) : M unit :=
  let mask := BIT_MASK nr in
  let p := addr + BIT_WORD nr in
  w ← load p;
  store p (Z.lxor w mask).

Definition __test_and_set_bit (nr addr : Z) : M bool :=
  let mask := BIT_MASK nr in
  let p := addr + BIT_WORD nr in
  old ← load p;
  store p (Z.lor old mask) ;;
  mret (negb (Z.land old mask =? 0)).

Definition __test_and_clear_bit (nr addr : Z) : M bool :=
  let mask := BIT_MASK nr in
  let p := addr + BIT_WORD nr in
  old ← load p;
  store p (Z.land old (not32 mask)) ;;
  mret (negb (Z.land old mask =? 0)).

Definition test_bit (nr addr : Z) : M Z :=
  w ← load (addr + BIT_WORD nr);
  mret (Z.land 1 (Z.shiftr w (Z.land nr (BITS_PER_LONG - 1)))).

(** ** Searches *)

(** [x & ~(BITS_PER_LONG-1)] *)
Definition whole_words (x : Z) : Z := Z.land x (not32 (BITS_PER_LONG - 1)).

(** The tail of find_next_bit and find_first_bit from the label found_first:
    [tmp] is the last, partial word, of which [size] bits count. *)
Definition found_first_set (result size tmp : Z) : M Z :=
  let tmp := Z.land tmp (Z.shiftr ALL_ONES (BITS_PER_LONG - size)) in
  if tmp =? 0 then mret (u32 (result + size)) else mret (u32 (result + __ffs tmp)).

(** The loop over whole words, shared by find_next_bit and find_first_bit, with
    what follows it. *)
Definition scan_set (p result size : Z) : M Z :=
  r ← loop (S (Z.to_nat size)) (fun '(p, result, size) =>
    if negb (whole_words size =? 0) then
      tmp ← load p;
      if negb (tmp =? 0) then break (inl (u32 (result + __ffs tmp)))
      else continue (p + 1, u32 (result + BITS_PER_LONG), u32 (size - BITS_PER_LONG))
    else break (inr (p, result, size))) (p, result, size);
  match r with
  | inl x => mret x
  | inr (p, result, size) =>
      if size =? 0 then mret result else
      tmp ← load p;
      found_first_set result size tmp
  end.

Definition find_next_bit (addr size offset : Z) : M Z :=
  let p := addr + BIT_WORD offset in
  let result := whole_words offset in
  if size <=? offset then mret size else
  let size := u32 (size - result) in
  let offset := offset mod BITS_PER_LONG in
  if negb (offset =? 0) then
    tmp ← load p;
    let tmp := Z.land tmp (u32 (Z.shiftl ALL_ONES offset)) in
    if size <? BITS_PER_LONG then found_first_set result size tmp else
    if negb (tmp =? 0) then mret (u32 (result + __ffs tmp)) else
    scan_set (p + 1) (u32 (result + BITS_PER_LONG)) (u32 (size - BITS_PER_LONG))
  else scan_set p result size.

Definition find_first_bit (addr size : Z) : M Z := scan_set addr 0 size.

Definition found_first_zero (result size tmp : Z) : M Z :=
  let tmp := Z.lor tmp (u32 (Z.shiftl ALL_ONES size)) in
  if tmp =? ALL_ONES then mret (u32 (result + size)) else mret (u32 (result + ffz tmp)).

Definition scan_zero (p result size : Z) : M Z :=
  r ← loop (S (Z.to_nat size)) (fun '(p, result, size) =>
    if negb (whole_words size =? 0) then
      tmp ← load p;
      if negb (not32 tmp =? 0) then break (inl (u32 (result + ffz tmp)))
      else continue (p + 1, u32 (result + BITS_PER_LONG), u32 (size - BITS_PER_LONG))
    else break (inr (p, result, size))) (p, result, size);
  match r with
  | inl x => mret x
  | inr (p, result, size) =>
      if size =? 0 then mret result else
      tmp ← load p;
      found_first_zero result size tmp
  end.

Definition find_next_zero_bit (addr size offset : Z) : M Z :=
  let p := addr + BIT_WORD offset in
  let result := whole_words offset in
  if size <=? offset then mret size else
  let size := u32 (size - result) in
  let offset := offset mod BITS_PER_LONG in
  if negb (offset =? 0) then
    tmp ← load p;
    let tmp := Z.lor tmp (Z.shiftr ALL_ONES (BITS_PER_LONG - offset)) in
    if size <? BITS_PER_LONG then found_first_zero result size tmp else
    if negb (not32 tmp =? 0) then mret (u32 (result + ffz tmp)) else
    scan_zero (p + 1) (u32 (result + BITS_PER_LONG)) (u32 (size - BITS_PER_LONG))
  else scan_zero p result size.

Definition find_first_zero_bit (addr size : Z) : M Z := scan_zero addr 0 size.

Definition find_last_bit (addr size : Z) : M Z :=
  let words := size / BITS_PER_LONG in
  let part := Z.land size (BITS_PER_LONG - 1) in
  first ← (if negb (part =? 0) then
             w ← load (addr + words);
             mret (Z.land w (Z.shiftr ALL_ONES (BITS_PER_LONG - part)))
           else mret 0);
  if negb (first =? 0) then mret (u32 (words * BITS_PER_LONG + __fls first)) else
  loop (S (Z.to_nat words)) (fun words =>
    if words =? 0 then break size else
    let words := words - 1 in
    tmp ← load (addr + words);
    if negb (tmp =? 0) then break (u32 (words * BITS_PER_LONG + __fls tmp))
    else continue words) words.

(** ** Words *)

Lemma fits_ALL_ONES : fits 32 ALL_ONES.
Proof. by vm_compute. Qed.

Lemma testbit_ALL_ONES i : 0 <= i -> Z.testbit ALL_ONES i = (i <? 32).
Proof.
  intros. change ALL_ONES with (Z.ones 32). rewrite Ztestbit_ones by lia.
  case_test; [case_test; simpl; lia|lia].
Qed.

Lemma fits_not32 x : fits 32 x -> fits 32 (not32 x).
Proof. intros. apply fits_lxor; [lia|done|apply fits_ALL_ONES]. Qed.

Lemma testbit_not32 x i : 0 <= i -> Z.testbit (not32 x) i = xorb (Z.testbit x i) (i <? 32).
Proof. intros. unfold not32. by rewrite Z.lxor_spec, testbit_ALL_ONES. Qed.

Lemma not32_0 x : not32 x = 0 <-> x = ALL_ONES.
Proof. apply Z.lxor_eq_0_iff. Qed.

Lemma not32_invol x : not32 (not32 x) = x.
Proof. unfold not32. by rewrite Z.lxor_assoc, Z.lxor_nilpotent, Z.lxor_0_r. Qed.

#[export] Hint Resolve fits_ALL_ONES fits_not32 : kword.
#[export] Hint Rewrite testbit_ALL_ONES testbit_not32 using lia : bits.

(** A word is zero when none of its bits is set. *)
Lemma word_zero w : fits 32 w -> (forall i, 0 <= i < 32 -> Z.testbit w i = false) -> w = 0.
Proof.
  intros Hw Hb. bitwise i Hi. destruct (Z.lt_ge_cases i 32); [by apply Hb|].
  by apply (fits_testbit_high 32).
Qed.

Lemma word_nonzero w : fits 32 w -> w <> 0 -> exists i, 0 <= i < 32 /\ Z.testbit w i = true.
Proof.
  intros Hw Hne. exists (Z.log2 w). unfold fits in Hw. split.
  - split; [apply Z.log2_nonneg|]. apply Z.log2_lt_pow2; lia.
  - apply Z.bit_log2. lia.
Qed.

(** [first_set w r]: bit [r] is the lowest set bit of [w]. *)
Definition first_set (w r : Z) : Prop :=
  0 <= r /\ Z.testbit w r = true /\ forall i, 0 <= i < r -> Z.testbit w i = false.

Lemma land_ones_0 w k i :
  0 <= k -> Z.land w (Z.ones k) = 0 -> 0 <= i < k -> Z.testbit w i = false.
Proof.
  intros Hk H Hi. pose proof (Z.land_spec w (Z.ones k) i) as E.
  rewrite H, Z.bits_0, Ztestbit_ones in E by done.
  replace ((0 <=? i) && (i <? k)) with true in E by lia. by rewrite andb_true_r in E.
Qed.

(** One halving step of __ffs: the lowest set bit of [word] is below [2 * k];
    afterwards it is below [k], at the same distance from [num]. *)
Lemma ffs_step k num word r :
  0 < k -> first_set word r -> r < 2 * k ->
  let '(num', word') :=
    if Z.land word (Z.ones k) =? 0 then (num + k, Z.shiftr word k) else (num, word) in
  exists r', first_set word' r' /\ r' < k /\ num' + r' = num + r.
Proof.
  intros Hk (Hr & Hbit & Hlow) Hlt. destruct (Z.eqb_spec (Z.land word (Z.ones k)) 0) as [H|H].
  - exists (r - k). assert (k <= r).
    { destruct (Z.lt_ge_cases r k); [|done].
      rewrite (land_ones_0 word k r) in Hbit by (done || lia). done. }
    split; [|lia]. split; [lia|]. rewrite Z.shiftr_spec by lia. split.
    + by replace (r - k + k) with r by lia.
    + intros i Hi. rewrite Z.shiftr_spec by lia. apply Hlow. lia.
  - exists r. split; [done|]. split; [|lia]. destruct (Z.lt_ge_cases r k); [done|].
    destruct H. bitwise i Hi.
    destruct (Z.ltb_spec i k); [rewrite Hlow by lia; done|]. by rewrite !andb_false_r.
Qed.

Lemma first_set_exists w : fits 32 w -> w <> 0 -> exists r, first_set w r /\ r < 32.
Proof.
  intros Hw Hne. destruct (word_nonzero w Hw Hne) as (i & Hi & Hb).
  assert (forall n : nat, (forall j, 0 <= j < Z.of_nat n -> Z.testbit w j = false) \/
    exists r, first_set w r /\ r < Z.of_nat n) as H.
  { induction n as [|n [IH|(r & Hr & Hlt)]]; [left; lia| |right; exists r; split; [done|lia]].
    destruct (Z.testbit w (Z.of_nat n)) eqn:E.
    - right. exists (Z.of_nat n). split; [|lia]. split; [lia|done].
    - left. intros j Hj. destruct (decide (j = Z.of_nat n)) as [->|]; [done|]. apply IH. lia. }
  destruct (H 32%nat) as [Hno|(r & Hr & Hlt)]; [|by exists r]. by rewrite Hno in Hb.
Qed.

Lemma first_set_unique w r r' : first_set w r -> first_set w r' -> r = r'.
Proof.
  intros (Hr & Hb & Hl) (Hr' & Hb' & Hl').
  destruct (Z.lt_trichotomy r r') as [H|[H|H]]; [|done|].
  - by rewrite Hl' in Hb by lia.
  - by rewrite Hl in Hb' by lia.
Qed.

Lemma ffs_spec w : fits 32 w -> w <> 0 -> first_set w (__ffs w) /\ __ffs w < 32.
Proof.
  intros Hw Hne. destruct (first_set_exists w Hw Hne) as (r & Hr & Hlt).
  enough (__ffs w = r) as -> by done. unfold __ffs.
  change 0xffff with (Z.ones 16). change 0xff with (Z.ones 8). change 0xf with (Z.ones 4).
  change 0x3 with (Z.ones 2).
  pose proof (ffs_step 16 0 w r ltac:(lia) Hr ltac:(lia)) as H1.
  destruct (if Z.land w (Z.ones 16) =? 0 then _ else _) as [n1 w1].
  destruct H1 as (r1 & Hr1 & Hlt1 & E1).
  pose proof (ffs_step 8 n1 w1 r1 ltac:(lia) Hr1 ltac:(lia)) as H2.
  destruct (if Z.land w1 (Z.ones 8) =? 0 then _ else _) as [n2 w2].
  destruct H2 as (r2 & Hr2 & Hlt2 & E2).
  pose proof (ffs_step 4 n2 w2 r2 ltac:(lia) Hr2 ltac:(lia)) as H3.
  destruct (if Z.land w2 (Z.ones 4) =? 0 then _ else _) as [n3 w3].
  destruct H3 as (r3 & Hr3 & Hlt3 & E3).
  pose proof (ffs_step 2 n3 w3 r3 ltac:(lia) Hr3 ltac:(lia)) as H4.
  destruct (if Z.land w3 (Z.ones 2) =? 0 then _ else _) as [n4 w4].
  destruct H4 as (r4 & Hr4 & Hlt4 & E4).
  pose proof (ffs_step 1 n4 w4 r4 ltac:(lia) Hr4 ltac:(lia)) as H5.
  change (Z.ones 1) with 1 in H5. destruct (Z.land w4 1 =? 0); destruct H5 as (r5 & [Hr5 _] & Hlt5 & E5); lia.
Qed.

(** One step of fls and __fls: [x] is the value, shifted left by as many bits
    as [r] has lost, and afterwards it is at least [2^(32-k)]. *)
Lemma fls_step k x :
  0 < k < 32 -> fits 32 x -> Z.land x (Z.shiftl (Z.ones k) (32 - k)) = 0 <-> x < 2 ^ (32 - k).
Proof.
  intros Hk Hx.
  assert (Z.land x (Z.shiftl (Z.ones k) (32 - k)) = Z.shiftl (Z.shiftr x (32 - k)) (32 - k)) as ->.
  { bitwise i Hi. destruct (Z.lt_ge_cases i (32 - k)).
    - rewrite (Z.testbit_neg_r _ (i - (32 - k))) by lia. replace (0 <=? _) with false by lia. apply andb_false_r.
    - rewrite Z.shiftr_spec by lia. replace (i - (32 - k) + (32 - k)) with i by lia.
      destruct (Z.lt_ge_cases i 32).
      + replace ((0 <=? _) && _) with true by lia. apply andb_true_r.
      + by rewrite (fits_testbit_high 32 x i) by (done || lia). }
  rewrite Z.shiftl_eq_0_iff by lia. rewrite Z.shiftr_div_pow2 by lia. unfold fits in Hx.
  assert (0 < 2 ^ (32 - k)) by lia.
  split; [|intros; by apply Z.div_small; lia].
  intros Hd. apply Z.div_small_iff in Hd; lia.
Qed.

Lemma fls_shift k x : 0 < k < 32 -> 0 < x < 2 ^ (32 - k) ->
  u32 (Z.shiftl x k) = x * 2 ^ k /\ x * 2 ^ k < 2 ^ 32 /\ Z.log2 (x * 2 ^ k) = Z.log2 x + k.
Proof.
  intros Hk Hx. assert (x * 2 ^ k < 2 ^ 32).
  { replace 32 with ((32 - k) + k) by lia. rewrite Z.pow_add_r by lia.
    apply Z.mul_lt_mono_pos_r; lia. }
  split; [|split; [done|]].
  - rewrite Z.shiftl_mul_pow2 by lia. apply wrap_id. unfold fits. lia.
  - rewrite Z.log2_mul_pow2 by lia. lia.
Qed.

(** [fls_inv k l x r]: [x] has its top bit among the highest [k] of the word,
    and [log2 x - r] is the constant [l]. *)
Definition fls_inv (k l x r : Z) : Prop :=
  fits 32 x /\ 2 ^ (32 - k) <= x /\ Z.log2 x + r = l.

Lemma fls_inv_step k l x r :
  0 < k < 32 -> 2 * k <= 32 -> fls_inv (2 * k) l x r ->
  (Z.land x (Z.shiftl (Z.ones k) (32 - k)) = 0 -> fls_inv k l (u32 (Z.shiftl x k)) (r - k)) /\
  (Z.land x (Z.shiftl (Z.ones k) (32 - k)) <> 0 -> fls_inv k l x r).
Proof.
  intros Hk Hk2 (Hf & Hlow & Hlog). assert (0 < x) by (assert (0 < 2 ^ (32 - 2 * k)) by lia; lia).
  rewrite fls_step by done. split; intros Hx.
  - destruct (fls_shift k x) as (E & Hlt & E'); [done|lia|]. unfold fls_inv, fits.
    rewrite E, E'. split; [lia|]. split; [|lia].
    replace (2 ^ (32 - k)) with (2 ^ (32 - 2 * k) * 2 ^ k)
      by (rewrite <- Z.pow_add_r by lia; f_equal; lia).
    apply Z.mul_le_mono_nonneg_r; lia.
  - split; [done|]. split; [lia|done].
Qed.

(** At the end the top bit is the highest bit of the word. *)
Lemma fls_inv_top l x r : fls_inv 1 l x r -> r = l - 31.
Proof.
  intros (Hf & Hlow & <-). unfold fits in Hf. change (2 ^ (32 - 1)) with (2 ^ 31) in Hlow.
  rewrite (Z.log2_unique x 31); lia.
Qed.

(** Take the branch of one step, carrying the invariant [H] along. *)
Ltac fls_halve k H :=
  let Hs := fresh in let Hz := fresh in
  pose proof (fls_inv_step k _ _ _ ltac:(lia) ltac:(lia) H) as Hs; clear H;
  match goal with
  | |- context [if ?t =? 0 then _ else _] =>
      destruct (Z.eqb_spec t 0) as [Hz|Hz];
      [apply (proj1 Hs) in Hz as H|apply (proj2 Hs) in Hz as H]; clear Hs Hz;
      cbv beta iota
  end.

Lemma fls_spec x : fits 32 x -> fls x = if x =? 0 then 0 else Z.log2 x + 1.
Proof.
  intros Hx. unfold fls. destruct (Z.eqb_spec x 0) as [|Hne]; [done|].
  assert (fls_inv (2 * 16) (Z.log2 x + 32) x 32) as H.
  { split; [done|]. split; [change (2 ^ (32 - 2 * 16)) with 1; unfold fits in Hx; lia|lia]. }
  fls_halve 16 H; fls_halve 8 H; fls_halve 4 H; fls_halve 2 H; fls_halve 1 H;
    apply fls_inv_top in H; lia.
Qed.

Lemma __fls_spec x : fits 32 x -> x <> 0 -> __fls x = Z.log2 x.
Proof.
  intros Hx Hne. unfold __fls.
  assert (fls_inv (2 * 16) (Z.log2 x + (BITS_PER_LONG - 1)) x (BITS_PER_LONG - 1)) as H.
  { split; [done|]. split; [change (2 ^ (32 - 2 * 16)) with 1; unfold fits in Hx; lia|done]. }
  cbv zeta. fls_halve 16 H; fls_halve 8 H; fls_halve 4 H; fls_halve 2 H; fls_halve 1 H;
    apply fls_inv_top in H; unfold BITS_PER_LONG in *; lia.
Qed.

(** ** Hamming weight *)

(** The number of set bits among the lowest [n]. *)
Fixpoint popcount (n : nat) (w : Z) : Z :=
  match n with
  | O => 0
  | S n' => Z.b2z (Z.testbit w (Z.of_nat n')) + popcount n' w
  end.

Lemma testbit_byte_cons b x i :
  fits 8 b -> 0 <= i -> Z.testbit (b + 256 * x) i = if i <? 8 then Z.testbit b i else Z.testbit x (i - 8).
Proof.
  intros Hb Hi. unfold fits in Hb. change 256 with (2 ^ 8). case_test.
  - rewrite <- (Z.mod_pow2_bits_low (b + 2 ^ 8 * x) 8 i) by lia.
    rewrite (Z.mul_comm (2 ^ 8)), Z.mod_add, Z.mod_small by lia. done.
  - replace i with ((i - 8) + 8) at 1 by lia. rewrite <- Z.div_pow2_bits by lia.
    rewrite (Z.mul_comm (2 ^ 8)), Z.div_add, Z.div_small by lia. done.
Qed.

(** Masking a shifted word byte by byte: the mask drops what a shift brings in
    from the byte above. *)
Lemma land_shift_cons k b m P M :
  0 <= k <= 8 -> fits 8 b -> fits (8 - k) m ->
  Z.land (Z.shiftr (b + 256 * P) k) (m + 256 * M) =
    Z.land (Z.shiftr b k) m + 256 * Z.land (Z.shiftr P k) M.
Proof.
  intros Hk Hb Hm. assert (fits 8 m) by (apply fits_weaken with (8 - k); [lia|done]).
  assert (fits 8 (Z.land (Z.shiftr b k) m)).
  { apply fits_land; [lia| |done]. apply fits_shiftr; [lia|done]. }
  apply Z.bits_inj'. intros i Hi. rewrite Z.land_spec, Z.shiftr_spec by done.
  rewrite !testbit_byte_cons by (done || lia). rewrite !Z.land_spec.
  destruct (Z.ltb_spec i 8).
  - rewrite Z.shiftr_spec by done. destruct (Z.ltb_spec (i + k) 8); [done|].
    by rewrite (fits_testbit_high (8 - k) m i), !andb_false_r by (done || lia).
  - replace (i + k <? 8) with false by lia. rewrite Z.shiftr_spec by lia.
    by replace (i + k - 8) with (i - 8 + k) by lia.
Qed.

Lemma popcount_low n b P : fits 8 b -> (n <= 8)%nat -> popcount n (b + 256 * P) = popcount n b.
Proof.
  intros Hb. induction n as [|n IH]; intros Hn; [done|]. cbn [popcount].
  rewrite testbit_byte_cons, IH by (done || lia).
  by replace (Z.of_nat n <? 8) with true by lia.
Qed.

Lemma popcount_cons n b P :
  fits 8 b -> popcount (8 + n) (b + 256 * P) = popcount 8 b + popcount n P.
Proof.
  intros Hb. induction n as [|n IH].
  - rewrite Nat.add_0_r, popcount_low by (done || lia). cbn [popcount]. lia.
  - replace (8 + S n)%nat with (S (8 + n)) by lia.
    change (popcount (S (8 + n)) (b + 256 * P)) with
      (Z.b2z (Z.testbit (b + 256 * P) (Z.of_nat (8 + n))) + popcount (8 + n) (b + 256 * P)).
    rewrite IH, testbit_byte_cons by (done || lia). cbn [popcount].
    replace (Z.of_nat (8 + n) <? 8) with false by lia.
    replace (Z.of_nat (8 + n) - 8) with (Z.of_nat n) by lia. lia.
Qed.

(** What the first two steps make of one byte, and what the third makes of it. *)
Definition weigh2 (b : Z) : Z :=
  let r := b - Z.land (Z.shiftr b 1) 0x55 in Z.land r 0x33 + Z.land (Z.shiftr r 2) 0x33.

Lemma weigh1_range b : fits 8 b -> fits 8 (b - Z.land (Z.shiftr b 1) 0x55).
Proof.
  intros Hb. enough ((0 <=? b - Z.land (Z.shiftr b 1) 0x55) &&
    (b - Z.land (Z.shiftr b 1) 0x55 <? 256) = true) by (unfold fits; lia).
  revert b Hb. apply (byte_forall (fun b => (0 <=? b - Z.land (Z.shiftr b 1) 0x55) &&
    (b - Z.land (Z.shiftr b 1) 0x55 <? 256))). by vm_compute.
Qed.

(** Each nibble of [weigh2 b] is at most 4, and they add up to the weight. *)
Lemma weigh2_spec b :
  fits 8 b ->
  exists h l, weigh2 b = 16 * h + l /\ 0 <= h <= 4 /\ 0 <= l <= 4 /\ h + l = popcount 8 b.
Proof.
  intros Hb. exists (weigh2 b / 16), (weigh2 b mod 16).
  enough ((weigh2 b =? 16 * (weigh2 b / 16) + weigh2 b mod 16) &&
    (0 <=? weigh2 b / 16) && (weigh2 b / 16 <=? 4) && (0 <=? weigh2 b mod 16) &&
    (weigh2 b mod 16 <=? 4) && (weigh2 b / 16 + weigh2 b mod 16 =? popcount 8 b) = true) by lia.
  revert b Hb. apply (byte_forall (fun b => (weigh2 b =? 16 * (weigh2 b / 16) + weigh2 b mod 16) &&
    (0 <=? weigh2 b / 16) && (weigh2 b / 16 <=? 4) && (0 <=? weigh2 b mod 16) &&
    (weigh2 b mod 16 <=? 4) && (weigh2 b / 16 + weigh2 b mod 16 =? popcount 8 b))). by vm_compute.
Qed.

Abbreviation pack4 a b c d := (a + 256 * (b + 256 * (c + 256 * d))).

Lemma land_pack4 k m a b c d :
  0 <= k <= 8 -> fits (8 - k) m -> fits 8 a -> fits 8 b -> fits 8 c ->
  Z.land (Z.shiftr (pack4 a b c d) k) (pack4 m m m m) =
    pack4 (Z.land (Z.shiftr a k) m) (Z.land (Z.shiftr b k) m) (Z.land (Z.shiftr c k) m)
      (Z.land (Z.shiftr d k) m).
Proof. intros. by rewrite !land_shift_cons. Qed.

(** The four steps of hweight32 on a word given by its bytes. *)
Lemma hweight_step1 a b c d :
  fits 8 a -> fits 8 b -> fits 8 c -> fits 8 d ->
  let s b := b - Z.land (Z.shiftr b 1) 0x55 in
  u32 (pack4 a b c d - Z.land (Z.shiftr (pack4 a b c d) 1) 0x55555555) =
    pack4 (s a) (s b) (s c) (s d).
Proof.
  intros Ha Hb Hc Hd s. change 0x55555555 with (pack4 0x55 0x55 0x55 0x55).
  rewrite land_pack4 by (done || lia).
  pose proof (weigh1_range a Ha). pose proof (weigh1_range b Hb).
  pose proof (weigh1_range c Hc). pose proof (weigh1_range d Hd).
  fold (s a) (s b) (s c) (s d) in *.
  replace (_ - _) with (pack4 (s a) (s b) (s c) (s d)) by (subst s; cbv beta; lia).
  apply wrap_id. unfold fits in *. lia.
Qed.

Lemma hweight_step2 a b c d :
  fits 8 a -> fits 8 b -> fits 8 c -> fits 8 d ->
  let s r := Z.land r 0x33 + Z.land (Z.shiftr r 2) 0x33 in
  fits 8 (s a) -> fits 8 (s b) -> fits 8 (s c) -> fits 8 (s d) ->
  u32 (Z.land (pack4 a b c d) 0x33333333 + Z.land (Z.shiftr (pack4 a b c d) 2) 0x33333333) =
    pack4 (s a) (s b) (s c) (s d).
Proof.
  intros Ha Hb Hc Hd s Sa Sb Sc Sd. change 0x33333333 with (pack4 0x33 0x33 0x33 0x33).
  rewrite <- (Z.shiftr_0_r (pack4 a b c d)) at 1.
  rewrite !land_pack4 by (done || lia). rewrite !Z.shiftr_0_r.
  replace (_ + _) with (pack4 (s a) (s b) (s c) (s d)) by (subst s; cbv beta; lia).
  apply wrap_id. unfold fits in *. lia.
Qed.

Lemma hweight_step3 ah al bh bl ch cl dh dl :
  0 <= ah <= 4 -> 0 <= al <= 4 -> 0 <= bh <= 4 -> 0 <= bl <= 4 ->
  0 <= ch <= 4 -> 0 <= cl <= 4 -> 0 <= dh <= 4 -> 0 <= dl <= 4 ->
  let r := pack4 (16 * ah + al) (16 * bh + bl) (16 * ch + cl) (16 * dh + dl) in
  Z.land (u32 (r + Z.shiftr r 4)) 0x0F0F0F0F = pack4 (ah + al) (bh + bl) (ch + cl) (dh + dl).
Proof.
  intros ???????? r. change 0x0F0F0F0F with (pack4 0x0F 0x0F 0x0F 0x0F).
  assert (Z.shiftr r 4 = pack4 (ah + 16 * bl) (bh + 16 * cl) (ch + 16 * dl) dh) as ->.
  { rewrite Z.shiftr_div_pow2 by lia. change (2 ^ 4) with 16. subst r. Z.div_mod_to_equations. lia. }
  rewrite (wrap_id 32) by (unfold fits, r; lia).
  replace (r + _) with (pack4 (16 * ah + al + (ah + 16 * bl)) (16 * bh + bl + (bh + 16 * cl))
    (16 * ch + cl + (ch + 16 * dl)) (16 * dh + dl + dh)) by (subst r; lia).
  rewrite <- (Z.shiftr_0_r (pack4 _ _ _ _)) at 1.
  rewrite land_pack4 by (done || lia || (unfold fits; lia)). rewrite !Z.shiftr_0_r.
  change 0x0F with (Z.ones 4). rewrite !Z.land_ones by lia. change (2 ^ 4) with 16.
  f_equal; [|f_equal; f_equal; [|f_equal; f_equal]]; Z.div_mod_to_equations; lia.
Qed.

Lemma hweight_step4 a b c d :
  0 <= a <= 8 -> 0 <= b <= 8 -> 0 <= c <= 8 -> 0 <= d <= 8 ->
  let r := u32 (pack4 a b c d + Z.shiftr (pack4 a b c d) 8) in
  Z.land (u32 (r + Z.shiftr r 16)) 0x000000FF = a + (b + (c + d)).
Proof.
  intros ???? r. assert (r = pack4 (a + b) (b + c) (c + d) d) as ->.
  { unfold r. rewrite Z.shiftr_div_pow2 by lia. change (2 ^ 8) with 256.
    replace (pack4 a b c d / 256) with (b + 256 * (c + 256 * d)) by (Z.div_mod_to_equations; lia).
    rewrite wrap_id by (unfold fits; lia). lia. }
  rewrite Z.shiftr_div_pow2 by lia. change (2 ^ 16) with 65536.
  replace (pack4 (a + b) (b + c) (c + d) d / 65536) with (c + d + 256 * d)
    by (Z.div_mod_to_equations; lia).
  rewrite wrap_id by (unfold fits; lia). change 0xFF with (Z.ones 8).
  rewrite Z.land_ones by lia. change (2 ^ 8) with 256. Z.div_mod_to_equations. lia.
Qed.

Lemma hweight32_bytes a b c d :
  fits 8 a -> fits 8 b -> fits 8 c -> fits 8 d ->
  hweight32 (pack4 a b c d) = popcount 8 a + (popcount 8 b + (popcount 8 c + popcount 8 d)).
Proof.
  intros Ha Hb Hc Hd. unfold hweight32. rewrite hweight_step1 by done. cbv zeta beta.
  destruct (weigh2_spec a Ha) as (ah & al & Ea & Rah & Ral & <-).
  destruct (weigh2_spec b Hb) as (bh & bl & Eb & Rbh & Rbl & <-).
  destruct (weigh2_spec c Hc) as (ch & cl & Ec & Rch & Rcl & <-).
  destruct (weigh2_spec d Hd) as (dh & dl & Ed & Rdh & Rdl & <-).
  unfold weigh2 in *. cbv zeta in *.
  rewrite hweight_step2; cbv zeta beta; rewrite ?Ea, ?Eb, ?Ec, ?Ed;
    try (by apply weigh1_range); try (unfold fits; lia).
  rewrite hweight_step3 by done. cbv zeta. apply hweight_step4; lia.
Qed.

(** Every word is made of four bytes. *)
Lemma word_bytes w :
  fits 32 w -> exists a b c d, w = pack4 a b c d /\ fits 8 a /\ fits 8 b /\ fits 8 c /\ fits 8 d.
Proof.
  intros Hw. exists (w mod 256), (w / 256 mod 256), (w / 65536 mod 256), (w / 16777216).
  unfold fits in *. Z.div_mod_to_equations. lia.
Qed.

Lemma hweight32_ok w : fits 32 w -> hweight32 w = popcount 32 w.
Proof.
  intros Hw. destruct (word_bytes w Hw) as (a & b & c & d & -> & Ha & Hb & Hc & Hd).
  rewrite hweight32_bytes by done. change 32%nat with (8 + (8 + (8 + 8)))%nat.
  by rewrite !popcount_cons by done.
Qed.

Lemma popcount_split n k w :
  popcount (n + k) w = popcount n (Z.shiftr w (Z.of_nat k)) + popcount k w.
Proof.
  induction n as [|n IH]; [done|]. simpl. rewrite IH, Z.shiftr_spec by lia.
  by rewrite Nat2Z.inj_add, Z.add_assoc.
Qed.

Lemma popcount_ext n v w :
  (forall i, 0 <= i < Z.of_nat n -> Z.testbit v i = Z.testbit w i) -> popcount n v = popcount n w.
Proof.
  induction n as [|n IH]; intros H; [done|]. simpl. rewrite H by lia. f_equal. apply IH.
  intros i Hi. apply H. lia.
Qed.

Lemma popcount_wrap n w : popcount n (wrap (Z.of_nat n) w) = popcount n w.
Proof.
  apply popcount_ext. intros i Hi. rewrite testbit_wrap by lia.
  by replace (i <? Z.of_nat n) with true by lia.
Qed.

Lemma popcount_bound n w : 0 <= popcount n w <= Z.of_nat n.
Proof. induction n as [|n IH]; simpl; [lia|]. destruct (Z.testbit w _); simpl; lia. Qed.

Lemma hweight8_ok w : fits 8 w -> hweight8 w = popcount 8 w.
Proof.
  intros Hw. apply Z.eqb_eq. revert w Hw.
  apply (byte_forall (fun w => hweight8 w =? popcount 8 w)). by vm_compute.
Qed.

(** On a value below 2^16 a mask can be cut to 16 bits. *)
Lemma land_low x m M : fits 16 x -> fits 16 m -> Z.land x m = Z.land x (m + 2 ^ 16 * M).
Proof.
  intros Hx Hm. bitwise i Hi. destruct (Z.lt_ge_cases i 16).
  - rewrite <- (Z.mod_pow2_bits_low (m + 2 ^ 16 * M) 16 i) by lia.
    rewrite (Z.mul_comm (2 ^ 16)), Z.mod_add, Z.mod_small by (done || lia). done.
  - by rewrite (fits_testbit_high 16 x i) by (done || lia).
Qed.

Lemma hweight16_bytes a b :
  fits 8 a -> fits 8 b -> hweight16 (pack4 a b 0 0) = popcount 8 a + popcount 8 b.
Proof.
  intros Ha Hb. unfold hweight16. assert (fits 8 0) as H0 by done.
  assert (fits 16 (pack4 a b 0 0)) by (unfold fits in *; lia).
  rewrite (land_low (Z.shiftr (pack4 a b 0 0) 1) 0x5555 0x5555) by (done || (apply fits_shiftr; done)).
  rewrite hweight_step1 by done. cbv zeta beta. change (0 - Z.land (0 ≫ 1) 0x55) with 0.
  destruct (weigh2_spec a Ha) as (ah & al & Ea & Rah & Ral & <-).
  destruct (weigh2_spec b Hb) as (bh & bl & Eb & Rbh & Rbl & <-).
  unfold weigh2 in *. cbv zeta in *.
  pose proof (weigh1_range a Ha) as Ra. pose proof (weigh1_range b Hb) as Rb.
  set (r1 := pack4 (a - _) (b - _) 0 0). assert (fits 16 r1) by (unfold fits, r1 in *; lia).
  rewrite (land_low r1 0x3333 0x3333), (land_low (Z.shiftr r1 2) 0x3333 0x3333)
    by (done || (apply fits_shiftr; done)).
  unfold r1. rewrite hweight_step2; cbv zeta beta; rewrite ?Ea, ?Eb; try done;
    try (unfold fits; lia).
  change (Z.land 0 0x33 + Z.land (0 ≫ 2) 0x33) with (16 * 0 + 0).
  rewrite (land_low (u32 _) 0x0F0F 0x0F0F); [|rewrite Z.shiftr_div_pow2, wrap_id by
    (lia || (unfold fits; rewrite ?Z.shiftr_div_pow2 by lia; change (2 ^ 4) with 16; Z.div_mod_to_equations; lia));
    unfold fits; change (2 ^ 4) with 16; Z.div_mod_to_equations; lia|done].
  rewrite hweight_step3 by lia. cbv zeta.
  rewrite Z.shiftr_div_pow2 by lia. change (2 ^ 8) with 256.
  replace (pack4 (ah + al) (bh + bl) (0 + 0) (0 + 0) / 256) with (bh + bl)
    by (Z.div_mod_to_equations; lia).
  rewrite wrap_id by (unfold fits; lia). change 0xFF with (Z.ones 8).
  rewrite Z.land_ones by lia. change (2 ^ 8) with 256. Z.div_mod_to_equations. lia.
Qed.

Lemma hweight16_ok w : fits 16 w -> hweight16 w = popcount 16 w.
Proof.
  intros Hw.
  assert (exists a b, w = pack4 a b 0 0 /\ fits 8 a /\ fits 8 b) as (a & b & -> & Ha & Hb).
  { exists (w mod 256), (w / 256). unfold fits in *. Z.div_mod_to_equations. lia. }
  rewrite hweight16_bytes by done. change 16%nat with (8 + 8)%nat.
  rewrite popcount_cons by done. f_equal. symmetry. by apply popcount_low.
Qed.

Lemma hweight64_ok w : fits 64 w -> hweight64 w = popcount 64 w.
Proof.
  intros Hw. unfold hweight64. rewrite !hweight32_ok by (apply wrap_fits; lia).
  rewrite !(popcount_wrap 32). change 64%nat with (32 + 32)%nat. rewrite popcount_split. change (Z.of_nat 32) with 32.
  apply wrap_id. pose proof (popcount_bound 32 (Z.shiftr w 32)). pose proof (popcount_bound 32 w).
  unfold fits. lia.
Qed.

(** ** Bits of an array of longs *)

(** Bit [i] of the array at [p]. *)
Definition bit (m : mem) (p i : Z) : bool :=
  match m !! (p + i / 32) with
  | Some w => Z.testbit w (i mod 32)
  | None => false
  end.

(** [longs m p n]: the [n] cells from [p] on hold unsigned longs. *)
Definition longs (m : mem) (p n : Z) : Prop :=
  forall k, 0 <= k < n -> exists w, m !! (p + k) = Some w /\ fits 32 w.

Lemma bit_word m p k w j :
  m !! (p + k) = Some w -> 0 <= j < 32 -> bit m p (32 * k + j) = Z.testbit w j.
Proof.
  intros Hw Hj. unfold bit.
  replace ((32 * k + j) / 32) with k by (Z.div_mod_to_equations; lia).
  replace ((32 * k + j) mod 32) with j by (Z.div_mod_to_equations; lia). by rewrite Hw.
Qed.

Lemma longs_word m p n i :
  longs m p n -> 0 <= i -> i / 32 < n ->
  exists w, m !! (p + i / 32) = Some w /\ fits 32 w /\ bit m p i = Z.testbit w (i mod 32).
Proof.
  intros Hl Hi Hn. destruct (Hl (i / 32)) as (w & Hw & Hf); [split; [apply Z.div_pos; lia|done]|].
  exists w. split; [done|]. split; [done|]. unfold bit. by rewrite Hw.
Qed.

Lemma BITS_TO_LONGS_spec n i : 0 <= i < n -> 0 <= i / 32 < BITS_TO_LONGS n.
Proof. unfold BITS_TO_LONGS, BITS_PER_LONG. intros. Z.div_mod_to_equations. lia. Qed.

(** Replacing one cell changes the 32 bits of that cell only. *)
Lemma bit_insert m p a v i :
  bit (<[p + a := v]> m) p i = if i / 32 =? a then Z.testbit v (i mod 32) else bit m p i.
Proof.
  unfold bit. destruct (Z.eqb_spec (i / 32) a) as [E|E].
  - by rewrite E, lookup_insert_eq.
  - by rewrite lookup_insert_ne by lia.
Qed.

Lemma longs_insert m p n a v : longs m p n -> fits 32 v -> longs (<[a := v]> m) p n.
Proof.
  intros Hl Hv k Hk. destruct (decide (a = p + k)) as [->|].
  - exists v. by rewrite lookup_insert_eq.
  - rewrite lookup_insert_ne by done. by apply Hl.
Qed.

Lemma fits_BIT_MASK nr : fits 32 (BIT_MASK nr).
Proof. apply wrap_fits. lia. Qed.

Lemma testbit_BIT_MASK nr j : 0 <= j < 32 -> Z.testbit (BIT_MASK nr) j = (j =? nr mod 32).
Proof.
  intros Hj. unfold BIT_MASK, BITS_PER_LONG. rewrite testbit_wrap by lia.
  pose proof (Z.mod_pos_bound nr 32). replace (j <? 32) with true by lia. simpl.
  rewrite Z.shiftl_1_l. destruct (Z.eqb_spec j (nr mod 32)) as [E|E]; [subst; apply Z.pow2_bits_true; lia|].
  apply Z.pow2_bits_false. lia.
Qed.

(** A store into one long of an array: the bits it leaves as they were, the
    cells outside it, and that arrays of longs stay so. *)
Lemma bit_update m addr nr w v (f : bool -> bool) :
  0 <= nr -> m !! (addr + BIT_WORD nr) = Some w -> fits 32 v ->
  (forall j, 0 <= j < 32 ->
     Z.testbit v j = if j =? nr mod 32 then f (Z.testbit w j) else Z.testbit w j) ->
  let m' := <[addr + BIT_WORD nr := v]> m in
  (forall i, 0 <= i -> bit m' addr i = if i =? nr then f (bit m addr i) else bit m addr i) /\
  (forall a, a <> addr + BIT_WORD nr -> m' !! a = m !! a) /\
  (forall p n, longs m p n -> longs m' p n).
Proof.
  intros Hnr Hw Hv Hbits m'. subst m'. unfold BIT_WORD, BITS_PER_LONG in *. split; [|split].
  - intros i Hi. rewrite bit_insert. pose proof (Z.mod_pos_bound i 32).
    destruct (Z.eqb_spec (i / 32) (nr / 32)) as [E|E].
    + rewrite Hbits by lia. unfold bit. rewrite E, Hw.
      destruct (Z.eqb_spec (i mod 32) (nr mod 32)), (Z.eqb_spec i nr); try done;
        Z.div_mod_to_equations; lia.
    + destruct (Z.eqb_spec i nr) as [->|]; [done|done].
  - intros a Ha. by rewrite lookup_insert_ne.
  - intros p n Hl. by apply longs_insert.
Qed.

Lemma wp_set_bit m addr n nr :
  longs m addr n -> 0 <= nr -> nr / 32 < n ->
  wp (__set_bit nr addr) (fun _ m' =>
    (forall i, 0 <= i -> bit m' addr i = (i =? nr) || bit m addr i) /\
    (forall a, a <> addr + nr / 32 -> m' !! a = m !! a) /\
    (forall p n, longs m p n -> longs m' p n)) m.
Proof.
  intros Hl Hnr Hn. destruct (longs_word m addr n nr Hl Hnr Hn) as (w & Hw & Hf & _).
  unfold __set_bit. apply wp_bind. apply (wp_load _ w); [done|]. apply wp_store; [by exists w|].
  destruct (bit_update m addr nr w (Z.lor w (BIT_MASK nr)) (fun _ => true)) as (H1 & H2 & H3);
    [done|done|apply fits_lor; [lia|done|apply fits_BIT_MASK]| |].
  - intros j Hj. rewrite Z.lor_spec, testbit_BIT_MASK by done.
    destruct (j =? nr mod 32); [apply orb_true_r|apply orb_false_r].
  - split; [|done]. intros i Hi. rewrite H1 by done. by destruct (i =? nr).
Qed.

Lemma wp_clear_bit m addr n nr :
  longs m addr n -> 0 <= nr -> nr / 32 < n ->
  wp (__clear_bit nr addr) (fun _ m' =>
    (forall i, 0 <= i -> bit m' addr i = negb (i =? nr) && bit m addr i) /\
    (forall a, a <> addr + nr / 32 -> m' !! a = m !! a) /\
    (forall p n, longs m p n -> longs m' p n)) m.
Proof.
  intros Hl Hnr Hn. destruct (longs_word m addr n nr Hl Hnr Hn) as (w & Hw & Hf & _).
  unfold __clear_bit. apply wp_bind. apply (wp_load _ w); [done|]. apply wp_store; [by exists w|].
  destruct (bit_update m addr nr w (Z.land w (not32 (BIT_MASK nr))) (fun _ => false))
    as (H1 & H2 & H3); [done|done| | |].
  - apply fits_land; [lia|done|]. apply fits_not32, fits_BIT_MASK.
  - intros j Hj. rewrite Z.land_spec, testbit_not32, testbit_BIT_MASK by lia.
    replace (j <? 32) with true by lia.
    destruct (j =? nr mod 32); [apply andb_false_r|apply andb_true_r].
  - split; [|done]. intros i Hi. rewrite H1 by done. by destruct (i =? nr).
Qed.

Lemma test_bit_ok m addr n nr :
  longs m addr n -> 0 <= nr -> nr / 32 < n ->
  test_bit nr addr m = Ok (Z.b2z (bit m addr nr), m).
Proof.
  intros Hl Hnr Hn. destruct (longs_word m addr n nr Hl Hnr Hn) as (w & Hw & Hf & Hb).
  unfold test_bit. erewrite bind_load by done. unfold mret, M_ret. do 2 f_equal. rewrite Hb.
  change (BITS_PER_LONG - 1) with (Z.ones 5). rewrite Z.land_ones by lia. change (2 ^ 5) with 32.
  pose proof (Z.mod_pos_bound nr 32).
  rewrite Z.land_comm. change 1 with (Z.ones 1). rewrite Z.land_ones by lia. change (2 ^ 1) with 2.
  rewrite <- Z.bit0_mod. by rewrite Z.shiftr_spec by lia.
Qed.

(** ** The searches find the next bit *)

(** [next_at f lo hi r]: [r] is the first position of [lo, hi) where [f] holds,
    or [hi] when there is none. *)
Definition next_at (f : Z -> bool) (lo hi r : Z) : Prop :=
  lo <= r <= hi /\ (forall i, lo <= i < r -> f i = false) /\ (r < hi -> f r = true).

Lemma next_at_unique f lo hi r r' : next_at f lo hi r -> next_at f lo hi r' -> r = r'.
Proof.
  intros (Hr & Hno & Hy) (Hr' & Hno' & Hy').
  destruct (Z.lt_trichotomy r r') as [H|[H|H]]; [|done|].
  - rewrite Hno' in Hy by lia. discriminate Hy. lia.
  - rewrite Hno in Hy' by lia. discriminate Hy'. lia.
Qed.

Lemma next_at_skip f lo mid hi r :
  lo <= mid -> (forall i, lo <= i < mid -> f i = false) -> next_at f mid hi r -> next_at f lo hi r.
Proof.
  intros Hle Hno (Hr & Hno' & Hy). split; [lia|]. split; [|done]. intros i Hi.
  destruct (Z.lt_ge_cases i mid); [apply Hno; lia|apply Hno'; lia].
Qed.

(** A word whose bits are those of [f] from position [base] on, between [lo] and
    [hi], and clear elsewhere. *)
Definition window (f : Z -> bool) (base lo hi w : Z) : Prop :=
  fits 32 w /\
  forall j, 0 <= j < 32 -> Z.testbit w j = (lo <=? j) && (j <? hi) && f (base + j).

Lemma window_zero f base lo hi w :
  window f base lo hi w -> 0 <= lo -> hi <= 32 -> w = 0 ->
  forall i, base + lo <= i < base + hi -> f i = false.
Proof.
  intros [_ Hw] Hlo Hhi -> i Hi. specialize (Hw (i - base) ltac:(lia)).
  rewrite Z.bits_0 in Hw. replace (base + (i - base)) with i in Hw by lia.
  replace ((lo <=? i - base) && (i - base <? hi)) with true in Hw by lia. done.
Qed.

Lemma window_ffs f base lo hi w N :
  window f base lo hi w -> 0 <= lo -> base + hi <= N -> w <> 0 ->
  next_at f (base + lo) N (base + __ffs w) /\ base + __ffs w < N.
Proof.
  intros [Hf Hw] Hlo HN Hne. destruct (ffs_spec w Hf Hne) as [(Hr & Hb & Hno) Hlt].
  rewrite Hw in Hb by lia. apply andb_true_iff in Hb as [Hrange Hb].
  split; [|lia]. split; [lia|]. split; [|done]. intros i Hi.
  specialize (Hno (i - base) ltac:(lia)). rewrite Hw in Hno by lia.
  replace (base + (i - base)) with i in Hno by lia.
  replace ((lo <=? i - base) && (i - base <? hi)) with true in Hno by lia. done.
Qed.

Lemma whole_words_spec x : fits 32 x -> whole_words x = 32 * (x / 32).
Proof.
  intros Hx. unfold whole_words. change (BITS_PER_LONG - 1) with (Z.ones 5).
  transitivity (Z.shiftl (Z.shiftr x 5) 5).
  - bitwise i Hi.
    destruct (Z.lt_ge_cases i 5).
    + rewrite (Z.testbit_neg_r _ (i - 5)) by lia.
      replace ((0 <=? i) && (i <? 5)) with true by lia. replace (i <? 32) with true by lia.
      apply andb_false_r.
    + rewrite Z.shiftr_spec by lia. replace (i - 5 + 5) with i by lia.
      replace ((0 <=? i) && (i <? 5)) with false by lia. simpl. destruct (Z.ltb_spec i 32).
      * apply andb_true_r.
      * by rewrite (fits_testbit_high 32 x i) by (done || lia).
  - rewrite Z.shiftl_mul_pow2, Z.shiftr_div_pow2 by lia. change (2 ^ 5) with 32. lia.
Qed.

(** The set and the zero searches differ in how they look at a word: as it is,
    or complemented.  [g] is that look, [found] the treatment of the last word. *)
Section Scan.
Context (g : Z -> Z) (found : Z -> Z -> Z -> M Z).

Definition scan_gen (p result size : Z) : M Z :=
  r ← loop (S (Z.to_nat size)) (fun '(p, result, size) =>
    if negb (whole_words size =? 0) then
      tmp ← load p;
      if negb (g tmp =? 0) then break (inl (u32 (result + __ffs (g tmp))))
      else continue (p + 1, u32 (result + BITS_PER_LONG), u32 (size - BITS_PER_LONG))
    else break (inr (p, result, size))) (p, result, size);
  match r with
  | inl x => mret x
  | inr (p, result, size) =>
      if size =? 0 then mret result else
      tmp ← load p;
      found result size tmp
  end.

(** [found] on a word that shows the positions from [lo] on. *)
Hypothesis found_ok : forall f result size lo tmp m,
  window f result lo 32 (g tmp) -> fits 32 tmp -> 0 <= lo -> 0 < size < 32 -> 0 <= result ->
  lo <= size -> result + size < 2 ^ 32 ->
  wp (found result size tmp)
    (fun r m' => m' = m /\ next_at f (result + lo) (result + size) r) m.

(** The words at [addr] show [f], up to position [N]. *)
Definition shows (m : mem) (addr N : Z) (f : Z -> bool) : Prop :=
  forall k, 0 <= k -> 32 * k < N ->
    exists w, m !! (addr + k) = Some w /\ fits 32 w /\ window f (32 * k) 0 32 (g w).

Lemma scan_gen_ok m addr N f k :
  shows m addr N f -> 0 <= k -> 32 * k <= N -> N < 2 ^ 32 ->
  wp (scan_gen (addr + k) (32 * k) (N - 32 * k))
    (fun r m' => m' = m /\ next_at f (32 * k) N r) m.
Proof using found_ok.
  intros Hs Hk Hle HN. unfold scan_gen. apply wp_bind.
  apply (wp_loop (fun '(p, result, size) m' => m' = m /\ exists j, k <= j /\ p = addr + j /\
      result = 32 * j /\ size = N - 32 * j /\ 0 <= size /\
      forall i, 32 * k <= i < 32 * j -> f i = false)
    (fun '(_, _, size) => Z.to_nat size)).
  { split; [done|]. exists k. repeat split; try lia. }
  { lia. }
  intros [[p result] size] m' (-> & j & Hj & -> & -> & -> & Hsz & Hno).
  rewrite whole_words_spec by (unfold fits; lia).
  destruct (Z.eqb_spec (32 * ((N - 32 * j) / 32)) 0) as [E|E]; simpl.
  - apply wp_ret. destruct (Z.eqb_spec (N - 32 * j) 0) as [E0|E0].
    + apply wp_ret. split; [done|]. split; [lia|]. split; [done|lia].
    + destruct (Hs j) as (w & Hw & Hf & Hwin); [lia|lia|].
      apply wp_bind. apply (wp_load _ w); [done|].
      eapply wp_mono; [apply (found_ok f (32 * j) (N - 32 * j) 0 w m);
        try done; Z.div_mod_to_equations; lia|].
      intros r m' [-> Hr]. split; [done|]. rewrite Z.add_0_r in Hr.
      replace (32 * j + (N - 32 * j)) with N in Hr by lia.
      apply next_at_skip with (32 * j); [lia|done|done].
  - destruct (Hs j) as (w & Hw & Hf & Hwin); [lia|Z.div_mod_to_equations; lia|].
    assert (32 * j + 32 <= N) by (Z.div_mod_to_equations; lia).
    apply wp_bind. apply (wp_load _ w); [done|].
    destruct (Z.eqb_spec (g w) 0) as [E0|E0]; simpl; apply wp_ret.
    + split; [|unfold BITS_PER_LONG; rewrite wrap_id by (unfold fits; lia); lia].
      split; [done|]. exists (j + 1). unfold BITS_PER_LONG.
      rewrite !wrap_id by (unfold fits; lia). repeat split; try lia.
      intros i Hi. destruct (Z.lt_ge_cases i (32 * j)); [apply Hno; lia|].
      apply (window_zero f (32 * j) 0 32 (g w)); [done|lia|lia|done|lia].
    + destruct (window_ffs f (32 * j) 0 32 (g w) N) as [Hn Hlt]; [done|lia|lia|done|].
      rewrite Z.add_0_r in Hn. apply wp_ret. split; [done|].
      rewrite wrap_id by (unfold fits; destruct Hn; lia).
      apply next_at_skip with (32 * j); [lia|done|done].
Qed.

(** The search from an offset: [mask off w] hides the positions below [off]. *)
Definition next_gen (mask : Z -> Z -> Z) (addr size offset : Z) : M Z :=
  let p := addr + BIT_WORD offset in
  let result := whole_words offset in
  if size <=? offset then mret size else
  let size := u32 (size - result) in
  let offset := offset mod BITS_PER_LONG in
  if negb (offset =? 0) then
    tmp ← load p;
    let tmp := mask offset tmp in
    if size <? BITS_PER_LONG then found result size tmp else
    if negb (g tmp =? 0) then mret (u32 (result + __ffs (g tmp))) else
    scan_gen (p + 1) (u32 (result + BITS_PER_LONG)) (u32 (size - BITS_PER_LONG))
  else scan_gen p result size.

Lemma next_gen_ok mask m addr N f offset :
  (forall base off w, 0 < off < 32 -> fits 32 w -> window f base 0 32 (g w) ->
     fits 32 (mask off w) /\ window f base off 32 (g (mask off w))) ->
  shows m addr N f -> 0 <= offset < N -> N < 2 ^ 32 ->
  wp (next_gen mask addr N offset) (fun r m' => m' = m /\ next_at f offset N r) m.
Proof using found_ok.
  intros Hmask Hs Hoff HN. unfold next_gen, BIT_WORD, BITS_PER_LONG.
  rewrite (proj2 (Z.leb_gt _ _)) by lia. rewrite whole_words_spec by (unfold fits; lia).
  rewrite (wrap_id 32 (N - _)) by (unfold fits; Z.div_mod_to_equations; lia).
  set (k := offset / 32). set (off := offset mod 32).
  assert (offset = 32 * k + off /\ 0 <= off < 32 /\ 0 <= k) as (Eo & Hr & Hk)
    by (subst k off; Z.div_mod_to_equations; lia). clearbody k off.
  destruct (Z.eqb_spec off 0) as [E|E]; simpl.
  { replace offset with (32 * k) by lia. apply scan_gen_ok; [done|lia..]. }
  destruct (Hs k) as (w & Hw & Hf & Hwin); [lia|lia|].
  destruct (Hmask (32 * k) off w) as [Hf' Hwin']; [lia|done|done|].
  apply wp_bind. apply (wp_load _ w); [done|].
  destruct (Z.ltb_spec (N - 32 * k) 32) as [Hlt|Hge].
  - eapply wp_mono; [apply (found_ok f (32 * k) (N - 32 * k) off); done || lia|].
    intros r m' [-> Hr']. split; [done|]. by replace (32 * k + (N - 32 * k)) with N in Hr' by lia;
      rewrite Eo.
  - destruct (Z.eqb_spec (g (mask off w)) 0) as [E0|E0]; simpl.
    + rewrite !wrap_id by (unfold fits; lia).
      replace (addr + k + 1) with (addr + (k + 1)) by lia.
      replace (32 * k + 32) with (32 * (k + 1)) by lia.
      replace (N - 32 * k - 32) with (N - 32 * (k + 1)) by lia.
      eapply wp_mono; [apply scan_gen_ok; [done|lia..]|]. intros r m' [-> Hn]. split; [done|].
      apply next_at_skip with (32 * (k + 1)); [lia| |done].
      intros i Hi. apply (window_zero f (32 * k) off 32 (g (mask off w))); [done|lia|lia|done|lia].
    + apply wp_ret. destruct (window_ffs f (32 * k) off 32 (g (mask off w)) N) as [Hn Hlt];
        [done|lia|lia|done|]. split; [done|].
      rewrite wrap_id by (unfold fits; destruct Hn; lia). by rewrite Eo.
Qed.
End Scan.

Lemma shiftr_ALL_ONES k : 0 <= k <= 32 -> Z.shiftr ALL_ONES (32 - k) = Z.ones k.
Proof.
  intros Hk. bitwise i Hi. destruct (Z.ltb_spec (i + (32 - k)) 32), (Z.ltb_spec i k); simpl; lia.
Qed.

Lemma testbit_shiftl_ALL_ONES k j :
  0 <= k -> 0 <= j < 32 -> Z.testbit (u32 (Z.shiftl ALL_ONES k)) j = (k <=? j).
Proof.
  intros Hk Hj. rewrite testbit_wrap, Z.shiftl_spec by lia. replace (j <? 32) with true by lia.
  simpl. destruct (Z.leb_spec k j).
  - rewrite testbit_ALL_ONES by lia. lia.
  - by rewrite Z.testbit_neg_r by lia.
Qed.

(** Looking at the last word through a window of its first [size] positions. *)
Lemma window_cut f base lo size w :
  0 < size < 32 -> window f base lo 32 w -> window f base lo size (Z.land w (Z.ones size)).
Proof.
  intros Hsz [Hf Hw]. split; [apply fits_land_l; [lia|done|rewrite Z.ones_equiv; lia]|].
  intros j Hj. rewrite Z.land_spec, Hw, Ztestbit_ones by lia.
  replace (0 <=? j) with true by lia. replace (j <? 32) with true by lia.
  destruct (lo <=? j), (j <? size), (f (base + j)); done.
Qed.

Lemma window_last f base lo size w (m : mem) :
  window f base lo size w -> 0 <= lo <= size -> size < 32 -> 0 <= base -> base + size < 2 ^ 32 ->
  wp (if w =? 0 then mret (u32 (base + size)) else mret (u32 (base + __ffs w)))
    (fun r m' => m' = m /\ next_at f (base + lo) (base + size) r) m.
Proof.
  intros Hwin Hlo Hsz Hb HN. destruct (Z.eqb_spec w 0) as [E|E]; apply wp_ret; (split; [done|]).
  - rewrite wrap_id by (unfold fits; lia). split; [lia|]. split; [|lia].
    apply (window_zero f base lo size w); [done|lia|lia|done].
  - destruct (window_ffs f base lo size w (base + size)) as [Hn Hlt]; [done|lia|lia|done|].
    by rewrite wrap_id by (unfold fits; destruct Hn; lia).
Qed.

Lemma found_first_set_ok f result size lo tmp m :
  window f result lo 32 tmp -> fits 32 tmp -> 0 <= lo -> 0 < size < 32 -> 0 <= result ->
  lo <= size -> result + size < 2 ^ 32 ->
  wp (found_first_set result size tmp)
    (fun r m' => m' = m /\ next_at f (result + lo) (result + size) r) m.
Proof.
  intros. unfold found_first_set, BITS_PER_LONG. rewrite shiftr_ALL_ONES by lia.
  apply window_last; [by apply window_cut|lia..].
Qed.

(** Setting the bits from [size] on and looking for a zero is looking for a set
    bit among the first [size] of the complement. *)
Lemma not32_lor_high size tmp :
  0 <= size < 32 -> fits 32 tmp ->
  not32 (Z.lor tmp (u32 (Z.shiftl ALL_ONES size))) = Z.land (not32 tmp) (Z.ones size).
Proof.
  intros Hsz Hf. apply Z.bits_inj'. intros i Hi.
  rewrite testbit_not32, Z.lor_spec, Z.land_spec, testbit_not32, Ztestbit_ones by lia.
  destruct (Z.lt_ge_cases i 32).
  - rewrite testbit_shiftl_ALL_ONES by lia.
    replace (i <? 32) with true by lia. replace (0 <=? i) with true by lia. simpl.
    destruct (Z.leb_spec size i), (Z.ltb_spec i size), (Z.testbit tmp i); done || lia.
  - rewrite (fits_testbit_high 32 tmp i), testbit_wrap by (done || lia).
    replace (i <? 32) with false by lia. replace (i <? size) with false by lia.
    by rewrite andb_false_r.
Qed.

Lemma found_first_zero_ok f result size lo tmp m :
  window f result lo 32 (not32 tmp) -> fits 32 tmp -> 0 <= lo -> 0 < size < 32 -> 0 <= result ->
  lo <= size -> result + size < 2 ^ 32 ->
  wp (found_first_zero result size tmp)
    (fun r m' => m' = m /\ next_at f (result + lo) (result + size) r) m.
Proof.
  intros. unfold found_first_zero, ffz. rewrite not32_lor_high by (done || lia).
  replace (Z.lor tmp _ =? ALL_ONES) with (Z.land (not32 tmp) (Z.ones size) =? 0).
  - apply window_last; [by apply window_cut|lia..].
  - rewrite <- not32_lor_high by (done || lia). apply eq_true_iff_eq.
    rewrite !Z.eqb_eq. apply not32_0.
Qed.

Lemma mask_set_ok f base off w :
  0 < off < 32 -> fits 32 w -> window f base 0 32 w ->
  fits 32 (Z.land w (u32 (Z.shiftl ALL_ONES off))) /\
  window f base off 32 (Z.land w (u32 (Z.shiftl ALL_ONES off))).
Proof.
  intros Hoff Hf [_ Hw].
  assert (fits 32 (Z.land w (u32 (Z.shiftl ALL_ONES off))))
    by (apply fits_land; [lia|done|apply wrap_fits; lia]).
  split; [done|]. split; [done|]. intros j Hj.
  rewrite Z.land_spec, Hw, testbit_shiftl_ALL_ONES by lia.
  replace (0 <=? j) with true by lia. replace (j <? 32) with true by lia. simpl.
  rewrite andb_true_r. apply andb_comm.
Qed.

Lemma mask_zero_ok f base off w :
  0 < off < 32 -> fits 32 w -> window f base 0 32 (not32 w) ->
  fits 32 (Z.lor w (Z.shiftr ALL_ONES (BITS_PER_LONG - off))) /\
  window f base off 32 (not32 (Z.lor w (Z.shiftr ALL_ONES (BITS_PER_LONG - off)))).
Proof.
  intros Hoff Hf [_ Hw]. unfold BITS_PER_LONG. rewrite shiftr_ALL_ONES by lia.
  assert (fits 32 (Z.lor w (Z.ones off))).
  { apply fits_lor; [lia|done|]. apply fits_weaken with off; [lia|].
    unfold fits. rewrite Z.ones_equiv. lia. }
  split; [done|]. split; [by apply fits_not32|]. intros j Hj. specialize (Hw j Hj).
  rewrite testbit_not32, Z.lor_spec, Ztestbit_ones by lia. rewrite testbit_not32 in Hw by lia.
  replace (0 <=? j) with true in * by lia. replace (j <? 32) with true in * by lia. simpl in *.
  destruct (Z.ltb_spec j off), (Z.leb_spec off j); lia.
Qed.

Lemma shows_set m addr N :
  longs m addr (BITS_TO_LONGS N) -> shows (fun w => w) m addr N (bit m addr).
Proof.
  intros Hl k Hk HN. destruct (Hl k) as (w & Hw & Hf).
  { unfold BITS_TO_LONGS, BITS_PER_LONG. Z.div_mod_to_equations. lia. }
  exists w. split; [done|]. split; [done|]. split; [done|]. intros j Hj.
  rewrite (bit_word m addr k w) by done. replace (0 <=? j) with true by lia.
  by replace (j <? 32) with true by lia.
Qed.

Lemma shows_zero m addr N :
  longs m addr (BITS_TO_LONGS N) -> shows not32 m addr N (fun i => negb (bit m addr i)).
Proof.
  intros Hl k Hk HN. destruct (Hl k) as (w & Hw & Hf).
  { unfold BITS_TO_LONGS, BITS_PER_LONG. Z.div_mod_to_equations. lia. }
  exists w. split; [done|]. split; [done|]. split; [by apply fits_not32|]. intros j Hj.
  rewrite (bit_word m addr k w), testbit_not32 by (done || lia).
  replace (0 <=? j) with true by lia. replace (j <? 32) with true by lia. simpl.
  apply xorb_true_r.
Qed.

Lemma wp_find_next_bit m addr size offset :
  longs m addr (BITS_TO_LONGS size) -> 0 <= offset < size -> size < 2 ^ 32 ->
  wp (find_next_bit addr size offset)
    (fun r m' => m' = m /\ next_at (bit m addr) offset size r) m.
Proof.
  intros. change (find_next_bit addr size offset) with
    (next_gen (fun w => w) found_first_set
       (fun off w => Z.land w (u32 (Z.shiftl ALL_ONES off))) addr size offset).
  apply next_gen_ok; [apply found_first_set_ok|intros; by apply mask_set_ok|by apply shows_set|done..].
Qed.

Lemma wp_find_next_zero_bit m addr size offset :
  longs m addr (BITS_TO_LONGS size) -> 0 <= offset < size -> size < 2 ^ 32 ->
  wp (find_next_zero_bit addr size offset)
    (fun r m' => m' = m /\ next_at (fun i => negb (bit m addr i)) offset size r) m.
Proof.
  intros. change (find_next_zero_bit addr size offset) with
    (next_gen not32 found_first_zero
       (fun off w => Z.lor w (Z.shiftr ALL_ONES (BITS_PER_LONG - off))) addr size offset).
  apply next_gen_ok;
    [apply found_first_zero_ok|intros; by apply mask_zero_ok|by apply shows_zero|done..].
Qed.

Lemma wp_find_first_bit m addr size :
  longs m addr (BITS_TO_LONGS size) -> 0 <= size < 2 ^ 32 ->
  wp (find_first_bit addr size) (fun r m' => m' = m /\ next_at (bit m addr) 0 size r) m.
Proof.
  intros Hl Hsz. pose proof (scan_gen_ok (fun w => w) found_first_set found_first_set_ok
    m addr size (bit m addr) 0 (shows_set m addr size Hl)) as H.
  rewrite Z.mul_0_r, Z.add_0_r, Z.sub_0_r in H. apply H; lia.
Qed.

Lemma wp_find_first_zero_bit m addr size :
  longs m addr (BITS_TO_LONGS size) -> 0 <= size < 2 ^ 32 ->
  wp (find_first_zero_bit addr size)
    (fun r m' => m' = m /\ next_at (fun i => negb (bit m addr i)) 0 size r) m.
Proof.
  intros Hl Hsz. pose proof (scan_gen_ok not32 found_first_zero found_first_zero_ok
    m addr size _ 0 (shows_zero m addr size Hl)) as H.
  rewrite Z.mul_0_r, Z.add_0_r, Z.sub_0_r in H. apply H; lia.
Qed.

(** ** The last set bit *)

(** [last_at f n r]: [r] is the last position below [n] where [f] holds, or [n]
    when there is none. *)
Definition last_at (f : Z -> bool) (n r : Z) : Prop :=
  (r = n /\ forall i, 0 <= i < n -> f i = false) \/
  (0 <= r < n /\ f r = true /\ forall i, r < i < n -> f i = false).

(** A non-zero word of an array, above which there is no set bit. *)
Lemma last_at_word f base hi w n :
  window f base 0 hi w -> 0 <= base -> hi <= 32 -> base + hi <= n -> n < 2 ^ 32 -> w <> 0 ->
  (forall i, base + hi <= i < n -> f i = false) ->
  last_at f n (u32 (base + __fls w)).
Proof.
  intros [Hf Hw] Hb Hhi Hn Hn32 Hne Hno. rewrite __fls_spec by done. unfold fits in Hf.
  pose proof (Z.log2_nonneg w). pose proof (Z.log2_spec w ltac:(lia)) as [_ Hup].
  assert (Z.log2 w < 32) by (apply Z.log2_lt_pow2; lia).
  pose proof (Hw (Z.log2 w) ltac:(lia)) as Hbit. rewrite Z.bit_log2 in Hbit by lia.
  symmetry in Hbit. apply andb_true_iff in Hbit as [Hr Hbit].
  right. rewrite wrap_id by (unfold fits; lia). split; [lia|]. split; [done|]. intros i Hi.
  destruct (Z.lt_ge_cases i (base + hi)) as [Hlt|]; [|by apply Hno; lia].
  pose proof (Hw (i - base) ltac:(lia)) as Hbi. rewrite Z.bits_above_log2 in Hbi by lia.
  replace (base + (i - base)) with i in Hbi by lia.
  by replace ((0 <=? i - base) && (i - base <? hi)) with true in Hbi by lia.
Qed.

Lemma wp_find_last_bit m addr size :
  longs m addr (BITS_TO_LONGS size) -> 0 <= size < 2 ^ 32 ->
  wp (find_last_bit addr size) (fun r m' => m' = m /\ last_at (bit m addr) size r) m.
Proof.
  intros Hl Hsz. pose proof (shows_set m addr size Hl) as Hs. unfold find_last_bit.
  change (BITS_PER_LONG - 1) with (Z.ones 5). rewrite Z.land_ones by lia.
  unfold BITS_PER_LONG. change (2 ^ 5) with 32.
  set (words := size / 32). set (part := size mod 32).
  assert (size = 32 * words + part /\ 0 <= part < 32 /\ 0 <= words) as (Es & Hp & Hwd)
    by (subst words part; Z.div_mod_to_equations; lia). clearbody words part.
  apply wp_bind.
  apply wp_mono with (fun first m' => m' = m /\
    window (bit m addr) (32 * words) 0 part first).
  - destruct (Z.eqb_spec part 0) as [E|E]; simpl.
    + apply wp_ret. split; [done|]. split; [done|]. intros j Hj. rewrite Z.bits_0. lia.
    + destruct (Hs words) as (w & Hw & Hf & Hwin); [lia|lia|].
      apply wp_bind. apply (wp_load _ w); [done|]. apply wp_ret. split; [done|].
      rewrite shiftr_ALL_ONES by lia. by apply window_cut; [lia|].
  - intros first m' [-> Hwin]. destruct (Z.eqb_spec first 0) as [E|E]; cbn [negb].
    + apply (wp_loop (fun k m' => m' = m /\ 0 <= k <= words /\
          forall i, 32 * k <= i < size -> bit m addr i = false) Z.to_nat); [|lia|].
      { split; [done|]. split; [lia|]. intros i Hi.
        apply (window_zero _ (32 * words) 0 part first); [done|lia|lia|done|lia]. }
      intros k m' (-> & Hk & Hno). destruct (Z.eqb_spec k 0) as [->|Hk0].
      { apply wp_ret. split; [done|]. left. split; [done|]. intros i Hi. apply Hno. lia. }
      destruct (Hs (k - 1)) as (w & Hw & Hf & Hwin'); [lia|lia|].
      apply wp_bind. apply (wp_load _ w); [done|].
      destruct (Z.eqb_spec w 0) as [Ew|Ew]; simpl; apply wp_ret.
      * split; [|lia]. split; [done|]. split; [lia|]. intros i Hi.
        destruct (Z.lt_ge_cases i (32 * k)); [|apply Hno; lia].
        apply (window_zero _ (32 * (k - 1)) 0 32 w); [done|lia|lia|done|lia].
      * split; [done|]. rewrite (Z.mul_comm (k - 1)).
        apply last_at_word with 32; [done|lia|lia|lia|lia|done|]. intros i Hi. apply Hno. lia.
    + apply wp_ret. split; [done|]. rewrite (Z.mul_comm words).
      apply last_at_word with part; [done|lia|lia|lia|lia|done|intros; lia].
Qed.

(** The boolean check that an array of longs is mapped. *)
Definition longs_b (m : mem) (p : Z) (n : nat) : bool :=
  forallb (fun k => match m !! (p + Z.of_nat k) with
                    | Some w => (0 <=? w) && (w <? 2 ^ 32)
                    | None => false
                    end) (seq 0 n).

Lemma longs_b_sound m p n : longs_b m p n = true -> longs m p (Z.of_nat n).
Proof.
  unfold longs_b. rewrite forallb_forall. intros H k Hk.
  specialize (H (Z.to_nat k)). rewrite Z2Nat.id in H by lia.
  destruct (m !! (p + k)) as [w|].
  - exists w. split; [done|]. unfold fits. assert (In (Z.to_nat k) (seq 0 n)) by (apply in_seq; lia).
    specialize (H ltac:(done)). lia.
  - discriminate H. apply in_seq. lia.
Qed.

Ltac longs_check := apply longs_b_sound; vm_compute; reflexivity.

(** Find_next_bit (lib/find_next_bit.c) returns the first set bit at or after
    [offset] and below [size], and [size] when there is none; it terminates,
    reads no word outside the bitmap and writes nothing. *)
Theorem find_next_bit_first m addr size offset :
  longs m addr (BITS_TO_LONGS size) -> 0 <= offset -> 0 <= size < 2 ^ 32 ->
  exists r, find_next_bit addr size offset m = Ok (r, m) /\
    if size <=? offset then r = size else next_at (bit m addr) offset size r.
Proof.
  intros Hl Hoff Hsz. destruct (Z.leb_spec size offset) as [Hle|Hlt].
  - exists size. split; [|done]. unfold find_next_bit. by rewrite (proj2 (Z.leb_le _ _) Hle).
  - pose proof (wp_find_next_bit m addr size offset Hl ltac:(lia) ltac:(lia)) as H. unfold wp in H.
    destruct (find_next_bit addr size offset m) as [[r m']|]; [|done].
    destruct H as [-> H]. by exists r.
Qed.

Lemma find_next_bit_first_witness :
  let m := memory [(100, [0; 0x100])] in
  exists r, find_next_bit 100 50 3 m = Ok (r, m) /\ next_at (bit m 100) 3 50 r.
Proof.
  intros m. apply (find_next_bit_first m 100 50 3); [|lia|lia]. change (BITS_TO_LONGS 50) with (Z.of_nat 2). longs_check.
Defined.

(** Find_last_bit (lib/find_last_bit.c) returns the last set bit below
    [size], and [size] when the bitmap is empty. *)
Theorem find_last_bit_last m addr size :
  longs m addr (BITS_TO_LONGS size) -> 0 <= size < 2 ^ 32 ->
  exists r, find_last_bit addr size m = Ok (r, m) /\ last_at (bit m addr) size r.
Proof.
  intros Hl Hsz. pose proof (wp_find_last_bit m addr size Hl Hsz) as H. unfold wp in H.
  destruct (find_last_bit addr size m) as [[r m']|]; [|done].
  destruct H as [-> H]. by exists r.
Qed.

Lemma find_last_bit_last_witness :
  let m := memory [(100, [0; 0x100])] in
  exists r, find_last_bit 100 50 m = Ok (r, m) /\ last_at (bit m 100) 50 r.
Proof.
  intros m. apply (find_last_bit_last m 100 50); [|lia]. change (BITS_TO_LONGS 50) with (Z.of_nat 2). longs_check.
Defined.

(** The branch-free Hamming weights of lib/hweight.c count the set bits of
    their argument, for every word of each width. *)
Theorem hweight_popcount w :
  fits 64 w ->
  hweight64 w = popcount 64 w /\
  (fits 32 w -> hweight32 w = popcount 32 w) /\
  (fits 16 w -> hweight16 w = popcount 16 w) /\
  (fits 8 w -> hweight8 w = popcount 8 w).
Proof. auto using hweight64_ok, hweight32_ok, hweight16_ok, hweight8_ok. Qed.

Lemma hweight_popcount_witness :
  hweight64 0xf000_0000_0000_0081 = popcount 64 0xf000_0000_0000_0081 /\
  hweight64 0xf000_0000_0000_0081 = 6.
Proof. split; [apply hweight_popcount; vm_compute; split; congruence|reflexivity]. Defined.
