(* ===== verification/Div64.v ===== *)
(** * 64-bit division on a 32-bit processor: lib/div64.c

    The shift-and-subtract division __div64_32, do_div of asm-generic/div64.h on
    top of it, and the divisions of include/linux/math64.h and lib/div64.c.  A
    routine that returns through pointers returns a pair.  A zero divisor is
    undefined in C, and every theorem excludes it. *)

From S2P Require Import Prelude Bitops.

#[local] Arguments loop : simpl never.

Abbreviation u64 := (wrap 64).
Abbreviation s64 := (swrap 64).

(** Returns the new value of [n] and the remainder.  The first loop doubles [b] at
    most 64 times, and the second halves [d] as often. *)
Definition __div64_32 (n base : Z) : M (Z * Z) :=
  let rem := n in
  let b := base in
  let d := 1 in
  let high := u32 (Z.shiftr rem 32) in
  let '(res, rem) :=
    if base <=? high then
      let high := high / base in
      (u64 (Z.shiftl high 32), u64 (rem - u64 (Z.shiftl (u32 (high * base)) 32)))
    else (0, rem) in
  '(b, d) ← loop 66 (fun '(b, d) =>
    if (0 <? s64 b) && (b <? rem) then continue (u64 (b + b), u64 (d + d)) else break (b, d)) (b, d);
  loop 66 (fun '(rem, res, b, d) =>
    let '(rem, res) := if b <=? rem then (u64 (rem - b), u64 (res + d)) else (rem, res) in
    let b := Z.shiftr b 1 in
    let d := Z.shiftr d 1 in
    if negb (d =? 0) then continue (rem, res, b, d) else break (res, u32 rem)) (rem, res, b, d).

(** do_div(n, base): the new [n] and the remainder. *)
Definition do_div (n base : Z) : M (Z * Z) :=
  if Z.shiftr n 32 =? 0 then mret (u32 n / base, u32 n mod base)
  else __div64_32 n base.

Definition div_u64_rem (dividend divisor : Z) : M (Z * Z) := do_div dividend divisor.

Definition div_u64 (dividend divisor : Z) : M Z :=
  '(q, _) ← div_u64_rem dividend divisor;
  mret q.

(** The quotient is kept in a u64 and converted to s64 on return. *)
Definition div_s64_rem (dividend divisor : Z) : M (Z * Z) :=
  '(quotient, remainder) ←
    (if dividend <? 0 then
       '(quotient, remainder) ← div_u64_rem (u64 (- dividend)) (u32 (Z.abs divisor));
       let remainder := s32 (- s32 remainder) in
       mret (if 0 <? divisor then u64 (- quotient) else quotient, remainder)
     else
       '(quotient, remainder) ← div_u64_rem (u64 dividend) (u32 (Z.abs divisor));
       mret (if divisor <? 0 then u64 (- quotient) else quotient, s32 remainder));
  mret (s64 quotient, remainder).

Definition div_s64 (dividend divisor : Z) : M Z :=
  '(q, _) ← div_s64_rem dividend divisor;
  mret q.

Definition div64_u64 (dividend divisor : Z) : M Z :=
  let high := u32 (Z.shiftr divisor 32) in
  if negb (high =? 0) then
    let shift := fls high in
    div_u64 (Z.shiftr dividend shift) (u32 (Z.shiftr divisor shift))
  else div_u64 dividend (u32 divisor).

(** The quotient is a u32, the remainder a u64. *)
Definition __iter_div_u64_rem (dividend divisor : Z) : M (Z * Z) :=
  loop (S (Z.to_nat dividend)) (fun '(dividend, ret) =>
    if divisor <=? dividend then continue (dividend - divisor, u32 (ret + 1))
    else break (ret, dividend)) (dividend, 0).

Definition iter_div_u64_rem (dividend divisor : Z) : M (Z * Z) := __iter_div_u64_rem dividend divisor.

(** ** The long division *)

Lemma s64_pos b : fits 64 b -> (0 <? s64 b) = (0 <? b) && (b <? 2 ^ 63).
Proof.
  intros Hb. unfold swrap. rewrite wrap_id by done. cbv zeta. change (64 - 1) with 63.
  unfold fits in Hb. destruct (Z.ltb_spec b (2 ^ 63)); lia.
Qed.

(** Doubling: [b] stays the product of [base] and the power of two [d]. *)
Lemma wp_double base rem (m : mem) Q :
  0 < base < 2 ^ 32 -> fits 64 rem ->
  (forall k, 0 <= k <= 64 -> base * 2 ^ k < 2 ^ 64 -> rem < 2 * (base * 2 ^ k) -> Q (base * 2 ^ k, 2 ^ k) m) ->
  wp (loop 66 (fun '(b, d) =>
    if (0 <? s64 b) && (b <? rem) then continue (u64 (b + b), u64 (d + d)) else break (b, d)) (base, 1)) Q m.
Proof.
  intros Hbase Hrem HQ.
  apply (wp_loop (fun '(b, d) m' => m' = m /\ exists k, 0 <= k <= 64 /\ b = base * 2 ^ k /\ d = 2 ^ k /\ b < 2 ^ 64)
    (fun '(b, d) => Z.to_nat (65 - Z.log2 d))).
  - split; [done|]. exists 0. rewrite Z.mul_1_r. lia.
  - simpl. lia.
  - intros [b d] m' (-> & k & Hk & -> & -> & Hb). assert (0 < 2 ^ k) by lia.
    rewrite s64_pos by (unfold fits; nia). destruct (Z.ltb_spec 0 (base * 2 ^ k)); [|nia]. simpl.
    assert (k < 64) as Hk64.
    { destruct (Z.eq_dec k 64) as [->|]; [nia|lia]. }
    assert (2 ^ (k + 1) = 2 * 2 ^ k) as E by (rewrite Z.pow_add_r by lia; lia).
    assert (2 ^ k < 2 ^ 64) by (apply Z.pow_lt_mono_r; lia).
    destruct (Z.ltb_spec (base * 2 ^ k) (2 ^ 63)); simpl.
    + destruct (Z.ltb_spec (base * 2 ^ k) rem).
      * apply wp_ret. assert (2 ^ k < 2 ^ 63) by nia.
        rewrite (wrap_id 64 (base * 2 ^ k + base * 2 ^ k)) by (unfold fits; lia).
        rewrite (wrap_id 64 (2 ^ k + 2 ^ k)) by (unfold fits; lia).
        split; [split; [done|]; exists (k + 1); rewrite E; lia|].
        replace (2 ^ k + 2 ^ k) with (2 ^ (k + 1)) by lia. rewrite !Z.log2_pow2 by lia. lia.
      * apply wp_ret. apply HQ; lia.
    + apply wp_ret. apply HQ; [lia|lia|]. unfold fits in Hrem. lia.
Qed.

(** Subtracting. *)
Lemma wp_subtract base rem res k (m : mem) Q :
  0 < base < 2 ^ 32 -> 0 <= k <= 64 -> base * 2 ^ k < 2 ^ 64 -> 0 <= rem < 2 * (base * 2 ^ k) ->
  0 <= res -> rem < 2 ^ 64 -> res * base + rem < 2 ^ 64 ->
  Q ((res * base + rem) / base, (res * base + rem) mod base) m ->
  wp (loop 66 (fun '(rem, res, b, d) =>
    let '(rem, res) := if b <=? rem then (u64 (rem - b), u64 (res + d)) else (rem, res) in
    let b := Z.shiftr b 1 in
    let d := Z.shiftr d 1 in
    if negb (d =? 0) then continue (rem, res, b, d) else break (res, u32 rem))
    (rem, res, base * 2 ^ k, 2 ^ k)) Q m.
Proof.
  intros Hbase Hk Hb Hrem Hres Hrem' Htotal HQ. set (n := res * base + rem) in *.
  apply (wp_loop (fun '(rem, res, b, d) m' => m' = m /\ exists k, 0 <= k <= 64 /\ b = base * 2 ^ k /\ d = 2 ^ k /\
      b < 2 ^ 64 /\ 0 <= rem < 2 * b /\ 0 <= res /\ res * base + rem = n) (fun '(_, _, _, d) => Z.to_nat (Z.log2 d))).
  - split; [done|]. exists k. unfold n. lia.
  - rewrite Z.log2_pow2 by lia. lia.
  - intros [[[rem' res'] b] d] m' (-> & j & Hj & -> & -> & Hbj & Hr & Hs & Hn).
    assert (0 < 2 ^ j) by lia.
    assert (exists rem2 res2, (if base * 2 ^ j <=? rem' then (u64 (rem' - base * 2 ^ j), u64 (res' + 2 ^ j))
      else (rem', res')) = (rem2, res2) /\ 0 <= rem2 < base * 2 ^ j /\ 0 <= res2 /\ res2 * base + rem2 = n)
      as (rem2 & res2 & -> & Hr2 & Hs2 & Hn2).
    { destruct (Z.leb_spec (base * 2 ^ j) rem').
      - eexists _, _. split; [done|]. rewrite !wrap_id by (unfold fits; nia). nia.
      - eexists _, _. split; [done|]. lia. }
    cbv zeta. destruct (Z.eq_dec j 0) as [->|Hj0].
    + change (Z.shiftr (2 ^ 0) 1) with 0. simpl. apply wp_ret. rewrite Z.mul_1_r in Hr2.
      rewrite (wrap_id 32) by (unfold fits; lia).
      replace res2 with (n / base) by (symmetry; apply (Z.div_unique_pos n base res2 rem2); lia).
      replace rem2 with (n mod base) by (symmetry; apply (Z.mod_unique_pos n base res2 rem2); lia). done.
    + assert (2 ^ j = 2 * 2 ^ (j - 1)) as E by (rewrite <- Z.pow_succ_r by lia; f_equal; lia).
      assert (Z.shiftr (2 ^ j) 1 = 2 ^ (j - 1)) as -> by (rewrite Z.shiftr_div_pow2, E by lia;
        change (2 ^ 1) with 2; rewrite Z.mul_comm, Z.div_mul by lia; done).
      assert (Z.shiftr (base * 2 ^ j) 1 = base * 2 ^ (j - 1)) as ->.
      { rewrite Z.shiftr_div_pow2, E by lia. change (2 ^ 1) with 2.
        replace (base * (2 * 2 ^ (j - 1))) with (base * 2 ^ (j - 1) * 2) by ring. by rewrite Z.div_mul by lia. }
      assert (0 < 2 ^ (j - 1)) by lia. destruct (Z.eqb_spec (2 ^ (j - 1)) 0); [lia|]. simpl. apply wp_ret. split.
      * split; [done|]. exists (j - 1). nia.
      * rewrite !Z.log2_pow2 by lia. lia.
Qed.

Lemma div64_32_ok n base m :
  fits 64 n -> 0 < base < 2 ^ 32 -> __div64_32 n base m = Ok ((n / base, n mod base), m).
Proof.
  intros Hn Hbase. apply wp_eq. unfold __div64_32. cbv zeta. unfold fits in Hn.
  assert (u32 (Z.shiftr n 32) = n / 2 ^ 32) as ->.
  { rewrite Z.shiftr_div_pow2 by lia. apply wrap_id. unfold fits. split; [apply Z.div_pos; lia|].
    apply Z.div_lt_upper_bound; lia. }
  set (high := n / 2 ^ 32).
  assert (0 <= high < 2 ^ 32) as Hh by (unfold high; split; [apply Z.div_pos; lia|apply Z.div_lt_upper_bound; lia]).
  assert (high * 2 ^ 32 <= n) as Hn' by (unfold high; pose proof (Z.mul_div_le n (2 ^ 32)); lia).
  assert (exists res rem, (if base <=? high then (u64 (Z.shiftl (high / base) 32),
      u64 (n - u64 (Z.shiftl (u32 (high / base * base)) 32))) else (0, n)) = (res, rem) /\
      0 <= res /\ 0 <= rem < 2 ^ 64 /\ res * base + rem = n) as (res & rem & -> & Hres & Hrem & Htot).
  { destruct (Z.leb_spec base high) as [Hle|Hlt]; [|eexists _, _; split; [done|]; lia].
    pose proof (Z.mul_div_le high base ltac:(lia)) as Hd. pose proof (Z.div_pos high base ltac:(lia) ltac:(lia)) as Hq.
    set (q := high / base) in *. rewrite !Z.shiftl_mul_pow2 by lia.
    assert (q <= high) by nia. rewrite (wrap_id 32 (q * base)) by (unfold fits; lia).
    rewrite (wrap_id 64 (q * 2 ^ 32)) by (unfold fits; lia).
    rewrite (wrap_id 64 (q * base * 2 ^ 32)) by (unfold fits; nia). rewrite wrap_id by (unfold fits; nia).
    eexists _, _. split; [done|]. nia. }
  apply wp_bind. apply wp_double; [done|by split; lia|]. intros k Hk Hb Hr.
  apply wp_subtract; [done|done|done|lia|done|lia|lia|]. rewrite Htot. done.
Qed.

Lemma do_div_ok n base m :
  fits 64 n -> 0 < base < 2 ^ 32 -> do_div n base m = Ok ((n / base, n mod base), m).
Proof.
  intros Hn Hbase. unfold do_div. destruct (Z.eqb_spec (Z.shiftr n 32) 0) as [E|E]; [|by apply div64_32_ok].
  rewrite wrap_id; [done|]. rewrite Z.shiftr_div_pow2 in E by lia. unfold fits in *.
  apply Z.div_small_iff in E; lia.
Qed.

Lemma div_u64_ok n base m : fits 64 n -> 0 < base < 2 ^ 32 -> div_u64 n base m = Ok (n / base, m).
Proof. intros. unfold div_u64, div_u64_rem. by erewrite bind_Ok by by apply do_div_ok. Qed.

(** C37: do_div and __div64_32 divide.  For every 64-bit dividend and every nonzero
    32-bit divisor, the shift-and-subtract loops end and give the quotient and the
    remainder. *)
Theorem do_div_divides n base m :
  fits 64 n -> fits 32 base -> base <> 0 ->
  __div64_32 n base m = Ok ((n / base, n mod base), m) /\
  do_div n base m = Ok ((n / base, n mod base), m).
Proof. intros Hn Hb Hne. unfold fits in Hb. split; [apply div64_32_ok|apply do_div_ok]; done || lia. Qed.

Lemma do_div_divides_witness :
  __div64_32 (2 ^ 64 - 1) 1000000007 ∅ = Ok (((2 ^ 64 - 1) / 1000000007, (2 ^ 64 - 1) mod 1000000007), ∅).
Proof. apply (do_div_divides (2 ^ 64 - 1) 1000000007 ∅); unfold fits; lia. Defined.

(** Div_s64_rem is the division of C on signed numbers, truncated towards zero,
    with a remainder of the sign of the dividend; also for the smallest dividend
    and divisor, whose absolute values are not signed numbers; the one quotient
    that is out of range, -2^63 / -1, wraps. *)
Theorem div_s64_truncates dividend divisor m :
  - 2 ^ 63 <= dividend < 2 ^ 63 -> - 2 ^ 31 <= divisor < 2 ^ 31 -> divisor <> 0 ->
  div_s64_rem dividend divisor m = Ok ((s64 (Z.quot dividend divisor), Z.rem dividend divisor), m).
Proof.
  intros Hn Hd Hne. unfold div_s64_rem, div_u64_rem.
  rewrite (wrap_id 32 (Z.abs divisor)) by (unfold fits; lia).
  assert (forall a, 0 <= a <= 2 ^ 63 -> s32 (a mod Z.abs divisor) = a mod Z.abs divisor) as Hr.
  { intros a Ha. apply swrap_id; [lia|]. pose proof (Z.mod_pos_bound a (Z.abs divisor)). lia. }
  assert (forall a b c d : Z, a = c -> b = d -> (mret (a, b) : M (Z * Z)) m = Ok ((c, d), m)) as Hpair
    by (by intros a b c d -> ->).
  destruct (Z.ltb_spec dividend 0) as [Hneg|Hpos].
  - assert (exists a, dividend = - a) as [a ->] by (exists (- dividend); lia). rewrite Z.opp_involutive.
    rewrite (wrap_id 64) by (unfold fits; lia). rewrite bind_bind.
    erewrite bind_Ok by (apply do_div_ok; unfold fits; lia). cbv beta iota zeta. rewrite bind_ret, Hr by lia.
    rewrite (swrap_id 32) by (pose proof (Z.mod_pos_bound a (Z.abs divisor)); lia).
    apply Hpair.
    + destruct (Z.ltb_spec 0 divisor).
      * rewrite swrap_wrap by lia. f_equal. rewrite Z.abs_eq by lia.
        rewrite Z.quot_opp_l by lia. f_equal. symmetry. apply Z.quot_div_nonneg; lia.
      * f_equal. rewrite Z.abs_neq by lia. rewrite <- Z.quot_div_nonneg by lia.
        by rewrite <- (Z.opp_involutive divisor) at 2; rewrite Z.quot_opp_opp by lia.
    + rewrite Z.rem_opp_l by lia.
      rewrite <- Z.rem_mod_nonneg by lia. f_equal. destruct (Z.abs_spec divisor) as [[_ ->]|[_ ->]]; [done|].
      by rewrite Z.rem_opp_r by lia.
  - rewrite (wrap_id 64) by (unfold fits; lia). rewrite bind_bind.
    erewrite bind_Ok by (apply do_div_ok; unfold fits; lia). cbv beta iota zeta. rewrite bind_ret, Hr by lia.
    apply Hpair.
    + destruct (Z.ltb_spec divisor 0).
      * rewrite swrap_wrap by lia. f_equal. rewrite Z.abs_neq by lia. rewrite <- Z.quot_div_nonneg by lia.
        rewrite Z.quot_opp_r by lia. lia.
      * f_equal. rewrite Z.abs_eq by lia. by rewrite Z.quot_div_nonneg by lia.
    + rewrite <- Z.rem_mod_nonneg by lia. destruct (Z.abs_spec divisor) as [[_ ->]|[_ ->]]; [done|].
      by rewrite Z.rem_opp_r by lia.
Qed.

Lemma div_s64_truncates_witness : div_s64_rem (- 2 ^ 63) (- 7) ∅ = Ok ((1317624576693539401, -1), ∅).
Proof.
  etransitivity; [apply (div_s64_truncates (- 2 ^ 63) (- 7) ∅); lia|reflexivity].
Defined.

(** Div64_u64 is exact for divisors below 2^32; for larger ones, where it drops
    low bits of both operands, the result is the quotient or one more. *)
Theorem div64_u64_precision dividend divisor m :
  fits 64 dividend -> fits 64 divisor -> divisor <> 0 ->
  exists q, div64_u64 dividend divisor m = Ok (q, m) /\
    (divisor < 2 ^ 32 -> q = dividend / divisor) /\
    dividend / divisor <= q <= dividend / divisor + 1.
Proof.
  intros Hn Hd Hne. unfold fits in Hn, Hd. unfold div64_u64. cbv zeta.
  set (high := divisor / 2 ^ 32). assert (0 <= high < 2 ^ 32) as Hh.
  { unfold high. split; [apply Z.div_pos; lia|apply Z.div_lt_upper_bound; lia]. }
  assert (u32 (Z.shiftr divisor 32) = high) as -> by (rewrite Z.shiftr_div_pow2 by lia; by apply wrap_id).
  pose proof (Z.mul_div_le divisor (2 ^ 32) ltac:(lia)) as Hlo. fold high in Hlo.
  pose proof (Z.mul_succ_div_gt divisor (2 ^ 32) ltac:(lia)) as Hhi. fold high in Hhi.
  destruct (Z.eqb_spec high 0) as [E|E]; cbn [negb].
  - rewrite wrap_id by (unfold fits; lia). rewrite div_u64_ok by (unfold fits; lia).
    eexists. split; [done|]. lia.
  - rewrite fls_spec by done. replace (high =? 0) with false by lia. set (s := Z.log2 high + 1).
    pose proof (Z.log2_spec high ltac:(lia)) as [Hl1 Hl2]. fold (Z.succ (Z.log2 high)) in *.
    assert (Z.log2 high < 32) by (apply Z.log2_lt_pow2; lia). pose proof (Z.log2_nonneg high).
    replace (Z.succ (Z.log2 high)) with s in Hl2 by lia. replace (Z.log2 high) with (s - 1) in Hl1 by lia.
    assert (2 ^ s = 2 * 2 ^ (s - 1)) as E1 by (rewrite <- Z.pow_succ_r by lia; f_equal; lia).
    assert (2 ^ s * 2 ^ (33 - s) = 2 ^ 33) as E2 by (rewrite <- Z.pow_add_r by lia; f_equal; lia).
    rewrite !Z.shiftr_div_pow2 by lia. set (P := 2 ^ s) in *. set (R := 2 ^ (33 - s)) in *.
    assert (2 <= P) by (unfold P; change 2 with (2 ^ 1) at 1; apply Z.pow_le_mono_r; lia).
    assert (2 <= R) by (unfold R; change 2 with (2 ^ 1) at 1; apply Z.pow_le_mono_r; lia).
    pose proof (Z.div_mod divisor P ltac:(lia)) as Hdm. pose proof (Z.mod_pos_bound divisor P ltac:(lia)) as He.
    set (d := divisor / P) in *. set (e := divisor mod P) in *.
    assert (2 ^ 31 <= d < 2 ^ 32) as Hd2 by nia.
    rewrite (wrap_id 32 d) by (unfold fits; lia).
    rewrite div_u64_ok by (unfold fits; first [lia | split; [apply Z.div_pos; lia|apply Z.div_lt_upper_bound; nia]]).
    eexists. split; [done|]. split; [lia|]. rewrite Z.div_div by lia.
    set (q := dividend / divisor).
    pose proof (Z.mul_div_le dividend divisor ltac:(lia)) as Hq1. pose proof (Z.mul_succ_div_gt dividend divisor ltac:(lia)) as Hq2.
    fold q in Hq1, Hq2. assert (0 <= q) by (apply Z.div_pos; lia). split.
    + apply Z.div_le_lower_bound; nia.
    + apply Z.lt_succ_r, Z.div_lt_upper_bound; [nia|].
      assert (q < R) by nia. assert ((q + 2) * e <= divisor) as Hqe; [|nia].
      assert ((q + 2) * e <= (R + 1) * (P - 1)) as Hm by (apply Z.mul_le_mono_nonneg; lia).
      destruct (Z.eq_dec s 1) as [Es|Es].
      * assert (P = 2) as EP by (unfold P; by rewrite Es). nia.
      * assert (4 <= P) as HP by (unfold P; change 4 with (2 ^ 2); apply Z.pow_le_mono_r; lia). nia.
Qed.

Lemma div64_u64_precision_witness :
  exists q, div64_u64 (2 ^ 64 - 1) (2 ^ 32 + 1) ∅ = Ok (q, ∅) /\ 2 ^ 32 - 1 <= q <= 2 ^ 32.
Proof.
  destruct (div64_u64_precision (2 ^ 64 - 1) (2 ^ 32 + 1) ∅) as (q & H1 & _ & H2); [unfold fits; lia..|].
  exists q. split; [exact H1|]. exact H2.
Defined.

(** The larger of the two does occur. *)
Example div64_u64_inexact :
  div64_u64 (2 ^ 64 - 1) (2 ^ 32 + 3) ∅ = Ok ((2 ^ 64 - 1) / (2 ^ 32 + 3) + 1, ∅).
Proof. vm_compute. reflexivity. Qed.

(** Repeated subtraction. *)
Lemma iter_div_ok dividend divisor m :
  0 <= dividend -> 0 < divisor ->
  iter_div_u64_rem dividend divisor m = Ok ((u32 (dividend / divisor), dividend mod divisor), m).
Proof.
  intros Hn Hd. apply wp_eq. unfold iter_div_u64_rem, __iter_div_u64_rem.
  apply (wp_loop (fun '(n, ret) m' => m' = m /\ exists k, 0 <= k /\ 0 <= n /\ n = dividend - k * divisor /\ ret = u32 k)
    (fun '(n, _) => Z.to_nat n)).
  - split; [done|]. exists 0. split; [lia|]. split; [lia|]. split; [lia|done].
  - lia.
  - intros [n ret] m' (-> & k & Hk & Hn' & -> & ->). destruct (Z.leb_spec divisor (dividend - k * divisor)) as [H|H].
    + apply wp_ret. split; [|lia]. split; [done|]. exists (k + 1). rewrite wrap_add_l. lia.
    + apply wp_ret. split; [|done]. f_equal.
      * f_equal. apply (Z.div_unique_pos _ _ k (dividend - k * divisor)); lia.
      * apply (Z.mod_unique_pos _ _ k (dividend - k * divisor)); lia.
Qed.
