(* ===== verification/Number.v ===== *)
(** * Numbers to strings: number() of lib/vsprintf.c

    The decimal conversion without divisions by ten, the formatting of a number
    with its flags, width and precision, and the formatting of a string.  Output
    goes to [buf] and is dropped from [end] on, while the returned pointer counts
    what the whole output would take; [tmp] is the address of the local array
    char tmp[66]. *)

From S2P Require Import Prelude Ctype Strings Strtol Bitops Div64.

#[local] Arguments loop : simpl never.

(** ** Decimal digits *)

Definition put_dec_trunc (buf q : Z) : M Z :=
  let d1 := Z.land (Z.shiftr q 4) 0xf in
  let d2 := Z.land (Z.shiftr q 8) 0xf in
  let d3 := Z.shiftr q 12 in
  let d0 := u32 (6 * (d3 + d2 + d1) + Z.land q 0xf) in
  let q := Z.shiftr (u32 (d0 * 0xcd)) 11 in
  let d0 := u32 (d0 - 10 * q) in
  store buf (u8 (d0 + 48)) ;;
  let buf := buf + 1 in
  let d1 := u32 (q + 9 * d3 + 5 * d2 + d1) in
  if negb (d1 =? 0) then
    let q := Z.shiftr (u32 (d1 * 0xcd)) 11 in
    let d1 := u32 (d1 - 10 * q) in
    store buf (u8 (d1 + 48)) ;;
    let buf := buf + 1 in
    let d2 := u32 (q + 2 * d2) in
    if negb (d2 =? 0) || negb (d3 =? 0) then
      let q := Z.shiftr (u32 (d2 * 0xd)) 7 in
      let d2 := u32 (d2 - 10 * q) in
      store buf (u8 (d2 + 48)) ;;
      let buf := buf + 1 in
      let d3 := u32 (q + 4 * d3) in
      if negb (d3 =? 0) then
        let q := Z.shiftr (u32 (d3 * 0xcd)) 11 in
        let d3 := u32 (d3 - 10 * q) in
        store buf (u8 (d3 + 48)) ;;
        let buf := buf + 1 in
        if negb (q =? 0) then
          store buf (u8 (q + 48)) ;;
          mret (buf + 1)
        else mret buf
      else mret buf
    else mret buf
  else mret buf.

Definition put_dec_full (buf q : Z) : M Z :=
  let d1 := Z.land (Z.shiftr q 4) 0xf in
  let d2 := Z.land (Z.shiftr q 8) 0xf in
  let d3 := Z.shiftr q 12 in
  let d0 := u32 (6 * (d3 + d2 + d1) + Z.land q 0xf) in
  let q := Z.shiftr (u32 (d0 * 0xcd)) 11 in
  let d0 := u32 (d0 - 10 * q) in
  store buf (u8 (d0 + 48)) ;;
  let buf := buf + 1 in
  let d1 := u32 (q + 9 * d3 + 5 * d2 + d1) in
  let q := Z.shiftr (u32 (d1 * 0xcd)) 11 in
  let d1 := u32 (d1 - 10 * q) in
  store buf (u8 (d1 + 48)) ;;
  let buf := buf + 1 in
  let d2 := u32 (q + 2 * d2) in
  let q := Z.shiftr (u32 (d2 * 0xd)) 7 in
  let d2 := u32 (d2 - 10 * q) in
  store buf (u8 (d2 + 48)) ;;
  let buf := buf + 1 in
  let d3 := u32 (q + 4 * d3) in
  let q := Z.shiftr (u32 (d3 * 0xcd)) 11 in
  let d3 := u32 (d3 - 10 * q) in
  store buf (u8 (d3 + 48)) ;;
  let buf := buf + 1 in
  store buf (u8 (q + 48)) ;;
  mret (buf + 1).

(** A 64-bit number has at most twenty digits: three rounds of five and a rest. *)
Definition put_dec (buf num : Z) : M Z :=
  loop 5 (fun '(buf, num) =>
    if num <? 100000 then r ← put_dec_trunc buf num; break r else
    '(num, rem) ← do_div num 100000;
    buf ← put_dec_full buf rem;
    continue (buf, num)) (buf, num).

(** ** Formatting *)

Definition ZEROPAD : Z := 1.
Definition SIGN : Z := 2.
Definition PLUS : Z := 4.
Definition SPACE : Z := 8.
Definition LEFT : Z := 16.
Definition SMALL : Z := 32.
Definition SPECIAL : Z := 64.

(** type & flag, as a condition. *)
Definition has (type flag : Z) : bool := negb (Z.land type flag =? 0).

(** "0123456789ABCDEF" *)
Definition digits : list Z := [48; 49; 50; 51; 52; 53; 54; 55; 56; 57; 65; 66; 67; 68; 69; 70].

(** if (buf < end) *buf = c; ++buf; *)
Definition emit (end_ c buf : Z) : M Z :=
  (if buf <? end_ then store buf c else mret tt) ;;
  mret (buf + 1).

(** while (--size >= 0) with the character [c] put out. *)
Definition pad (end_ c buf size : Z) : M (Z * Z) :=
  loop (S (Z.to_nat size)) (fun '(buf, size) =>
    let size := size - 1 in
    if 0 <=? size then buf ← emit end_ c buf; continue (buf, size)
    else break (buf, size)) (buf, size).

Definition number (tmp buf end_ num base size precision type : Z) : M Z :=
  let need_pfx := has type SPECIAL && negb (base =? 10) in
  let locase := Z.land type SMALL in
  let type := if has type LEFT then Z.ldiff type ZEROPAD else type in
  let '(sign, num, size) :=
    if has type SIGN then
      if s64 num <? 0 then (45, u64 (- s64 num), size - 1)
      else if has type PLUS then (43, num, size - 1)
      else if has type SPACE then (32, num, size - 1)
      else (0, num, size)
    else (0, num, size) in
  let size := if need_pfx then (if base =? 16 then size - 1 - 1 else size - 1) else size in
  i ← (if num =? 0 then store tmp 48 ;; mret 1
       else if negb (base =? 10) then
         let mask := base - 1 in
         let shift := if base =? 16 then 4 else 3 in
         loop 66 (fun '(i, num) =>
           store (tmp + i) (Z.lor (nth (Z.to_nat (Z.land (u8 num) mask)) digits 0) locase) ;;
           let i := i + 1 in
           let num := Z.shiftr num shift in
           if negb (num =? 0) then continue (i, num) else break i) (0, num)
       else p ← put_dec tmp num; mret (p - tmp));
  let precision := if precision <? i then i else precision in
  let size := size - precision in
  '(buf, size) ← (if negb (has type (ZEROPAD + LEFT)) then pad end_ 32 buf size else mret (buf, size));
  buf ← (if negb (sign =? 0) then emit end_ sign buf else mret buf);
  buf ← (if need_pfx then
           buf ← emit end_ 48 buf;
           if base =? 16 then emit end_ (Z.lor 88 locase) buf else mret buf
         else mret buf);
  '(buf, size) ← (if negb (has type LEFT) then pad end_ (if has type ZEROPAD then 48 else 32) buf size
                  else mret (buf, size));
  buf ← loop (S (Z.to_nat precision)) (fun '(buf, precision) =>
    let precision := precision - 1 in
    if i <=? precision then buf ← emit end_ 48 buf; continue (buf, precision) else break buf) (buf, precision);
  buf ← loop (S (Z.to_nat i)) (fun '(buf, i) =>
    let i := i - 1 in
    if 0 <=? i then c ← load (tmp + i); buf ← emit end_ c buf; continue (buf, i) else break buf) (buf, i);
  '(buf, _) ← pad end_ 32 buf size;
  mret buf.

(** [null] is the address of the literal "<NULL>". *)
Definition PAGE_SIZE : Z := 4096.

Definition string (null buf end_ s field_width precision flags : Z) : M Z :=
  let s := if s <? PAGE_SIZE then null else s in
  len ← strnlen s (u32 precision);
  '(buf, field_width) ← (if negb (has flags LEFT) then
    loop (S (Z.to_nat field_width)) (fun '(buf, field_width) =>
      if len <? field_width then buf ← emit end_ 32 buf; continue (buf, field_width - 1)
      else break (buf, field_width - 1)) (buf, field_width)
    else mret (buf, field_width));
  '(buf, _) ← loop (S (Z.to_nat len)) (fun '(buf, s, i) =>
    if i <? len then c ← load s; buf ← emit end_ c buf; continue (buf, s + 1, i + 1) else break (buf, s)) (buf, s, 0);
  loop (S (Z.to_nat field_width)) (fun '(buf, field_width) =>
    if len <? field_width then buf ← emit end_ 32 buf; continue (buf, field_width - 1)
    else break buf) (buf, field_width).

(** ** Digits of a number *)

(** The number that digits, least significant first, denote. *)
Fixpoint value_le (base : Z) (ds : list Z) : Z :=
  match ds with
  | [] => 0
  | d :: ds' => d + base * value_le base ds'
  end.

(** [ds] are the digits of [n], least significant first and without leading zeros;
    the number 0 has one digit. *)
Record repr (base : Z) (ds : list Z) (n : Z) : Prop := {
  repr_digits : Forall (fun d => 0 <= d < base) ds;
  repr_value : value_le base ds = n;
  repr_top : ds = [0] \/ exists ds' d, ds = ds' ++ [d] /\ 0 < d;
}.

Lemma value_le_app base ds es : value_le base (ds ++ es) = value_le base ds + base ^ Z.of_nat (length ds) * value_le base es.
Proof.
  induction ds as [|d ds IH]; cbn [app value_le length].
  - change (Z.of_nat 0) with 0. rewrite Z.pow_0_r. lia.
  - rewrite IH, Nat2Z.inj_succ, Z.pow_succ_r by lia. ring.
Qed.

(** The divisions by ten of the decimal conversion. *)
Lemma tenth_205 x : 0 <= x <= 400 -> Z.shiftr (u32 (x * 0xcd)) 11 = x / 10.
Proof.
  intros Hx. rewrite wrap_id by (unfold fits; lia). rewrite Z.shiftr_div_pow2 by lia.
  change (2 ^ 11) with 2048. Z.div_mod_to_equations. lia.
Qed.

Lemma tenth_13 x : 0 <= x <= 68 -> Z.shiftr (u32 (x * 0xd)) 7 = x / 10.
Proof.
  intros Hx. rewrite wrap_id by (unfold fits; lia). rewrite Z.shiftr_div_pow2 by lia.
  change (2 ^ 7) with 128. Z.div_mod_to_equations. lia.
Qed.

Lemma rest_10 x : 0 <= x <= 400 -> u32 (x - 10 * (x / 10)) = x mod 10.
Proof. intros Hx. rewrite wrap_id; [|unfold fits]; Z.div_mod_to_equations; lia. Qed.

Lemma nibble x k : 0 <= k -> Z.land (Z.shiftr x k) 0xf = x / 2 ^ k mod 16.
Proof. intros Hk. rewrite Z.shiftr_div_pow2 by done. change 0xf with (Z.ones 4). by rewrite Z.land_ones. Qed.

Lemma digit_char d : 0 <= d < 10 -> u8 (d + 48) = d + 48.
Proof. intros. apply wrap_id. unfold fits. lia. Qed.

(** The five digits that the conversion computes, and the tests of put_dec_trunc. *)
Section Five.
Context (q : Z) (Hq : 0 <= q < 100000).
Let d1 := q / 16 mod 16.
Let d2 := q / 256 mod 16.
Let d3 := q / 4096.
Let e0 := 6 * (d3 + d2 + d1) + q mod 16.
Let e1 := e0 / 10 + 9 * d3 + 5 * d2 + d1.
Let e2 := e1 / 10 + 2 * d2.
Let e3 := e2 / 10 + 4 * d3.

Lemma five_ranges :
  (0 <= d1 <= 15 /\ 0 <= d2 <= 15 /\ 0 <= d3 <= 24) /\ 0 <= e0 <= 400 /\ 0 <= e1 <= 400 /\ 0 <= e2 <= 68 /\ 0 <= e3 <= 102.
Proof using Hq. unfold e3, e2, e1, e0, d3, d2, d1. Z.div_mod_to_equations. lia. Qed.

Lemma five_value :
  e0 mod 10 + 10 * (e1 mod 10 + 10 * (e2 mod 10 + 10 * (e3 mod 10 + 10 * (e3 / 10)))) = q.
Proof using Hq. unfold e3, e2, e1, e0, d3, d2, d1. Z.div_mod_to_equations. lia. Qed.

Lemma five_digits :
  0 <= e0 mod 10 < 10 /\ 0 <= e1 mod 10 < 10 /\ 0 <= e2 mod 10 < 10 /\ 0 <= e3 mod 10 < 10 /\ 0 <= e3 / 10 < 10.
Proof using Hq.
  pose proof five_ranges. pose proof five_value. Z.div_mod_to_equations. lia.
Qed.

Lemma five_tests :
  (e1 = 0 <-> q < 10) /\ (e2 = 0 /\ d3 = 0 <-> q < 100) /\ (e3 = 0 <-> q < 1000) /\ (e3 / 10 = 0 <-> q < 10000).
Proof using Hq.
  unfold e3, e2, e1, e0, d3, d2, d1. repeat split; Z.div_mod_to_equations; lia.
Qed.
End Five.

(** The simplifications common to the two conversions, with [e0] .. [e3] the
    intermediate values. *)
Ltac five_steps q Hq :=
  let H := fresh in
  pose proof (five_ranges q Hq) as H; pose proof (five_value q Hq); pose proof (five_digits q Hq);
  pose proof (five_tests q Hq); cbv zeta;
  rewrite !nibble, (Z.shiftr_div_pow2 q 12) by lia;
  change 0xf with (Z.ones 4); rewrite (Z.land_ones q 4) by lia;
  change (2 ^ 4) with 16 in *; change (2 ^ 8) with 256 in *; change (2 ^ 12) with 4096 in *;
  set (d1 := q / 16 mod 16) in *; set (d2 := q / 256 mod 16) in *; set (d3 := q / 4096) in *;
  rewrite (wrap_id 32 (6 * (d3 + d2 + d1) + q mod 16)) by (unfold fits; lia);
  set (e0 := 6 * (d3 + d2 + d1) + q mod 16) in *; rewrite (tenth_205 e0), (rest_10 e0) by lia;
  rewrite (wrap_id 32 (e0 / 10 + 9 * d3 + 5 * d2 + d1)) by (unfold fits; lia);
  set (e1 := e0 / 10 + 9 * d3 + 5 * d2 + d1) in *; rewrite (tenth_205 e1), (rest_10 e1) by lia;
  rewrite (wrap_id 32 (e1 / 10 + 2 * d2)) by (unfold fits; lia);
  set (e2 := e1 / 10 + 2 * d2) in *; rewrite (tenth_13 e2), (rest_10 e2) by lia;
  rewrite (wrap_id 32 (e2 / 10 + 4 * d3)) by (unfold fits; lia);
  set (e3 := e2 / 10 + 4 * d3) in *; rewrite (tenth_205 e3), (rest_10 e3) by lia;
  rewrite !digit_char by lia.

Lemma insert_some (m : mem) a b v : is_Some (m !! b) -> is_Some (<[a := v]> m !! b).
Proof. intros. apply lookup_insert_is_Some'. auto. Qed.

Ltac store_all Hm := repeat (rewrite bind_store by (repeat apply insert_some; apply Hm; lia)).

Abbreviation chars ds := (map (fun d => d + 48) ds).

Lemma put_dec_full_ok m buf q :
  0 <= q < 100000 -> mapped m buf 5 ->
  exists ds, length ds = 5%nat /\ Forall (fun d => 0 <= d < 10) ds /\ value_le 10 ds = q /\
    put_dec_full buf q m = Ok (buf + 5, write m buf (chars ds)).
Proof.
  intros Hq Hm. unfold put_dec_full. five_steps q Hq.
  exists [e0 mod 10; e1 mod 10; e2 mod 10; e3 mod 10; e3 / 10].
  split; [done|]. split; [repeat constructor; lia|]. split; [cbn [value_le]; lia|].
  store_all Hm. unfold mret, M_ret. do 2 f_equal. lia.
Qed.

Lemma repr_snoc base ds d n :
  Forall (fun d => 0 <= d < base) (ds ++ [d]) -> 0 < d -> value_le base (ds ++ [d]) = n -> repr base (ds ++ [d]) n.
Proof. intros H1 H2 H3. split; [done|done|]. right. by exists ds, d. Qed.

Lemma put_dec_trunc_ok m buf q :
  0 <= q < 100000 -> mapped m buf 5 ->
  exists ds, repr 10 ds q /\ (length ds <= 5)%nat /\
    put_dec_trunc buf q m = Ok (buf + Z.of_nat (length ds), write m buf (chars ds)).
Proof.
  intros Hq Hm. unfold put_dec_trunc. five_steps q Hq.
  rewrite bind_store by (apply Hm; lia). destruct (Z.eqb_spec e1 0) as [E1|E1]; cbn [negb].
  { exists [e0 mod 10]. split; [|split; [simpl; lia|done]]. split; [repeat constructor; lia|cbn [value_le]; lia|].
    destruct (Z.eq_dec (e0 mod 10) 0) as [E|E]; [left; by rewrite E|]. right. exists [], (e0 mod 10). split; [done|lia]. }
  store_all Hm. destruct (Z.eqb_spec e2 0) as [E2|E2]; [destruct (Z.eqb_spec d3 0) as [E3|E3]|]; cbn [negb orb].
  { exists [e0 mod 10; e1 mod 10]. split; [|split; [simpl; lia|unfold mret, M_ret; do 2 f_equal; simpl length; lia]].
    apply (repr_snoc 10 [e0 mod 10]); [repeat constructor; lia|lia|cbn [app value_le]; lia]. }
  all: store_all Hm; destruct (Z.eqb_spec e3 0) as [E4|E4]; cbn [negb].
  1, 3: exists [e0 mod 10; e1 mod 10; e2 mod 10];
    (split; [|split; [simpl; lia|unfold mret, M_ret; do 2 f_equal; simpl length; lia]]);
    apply (repr_snoc 10 [e0 mod 10; e1 mod 10]); [repeat constructor; lia|lia|cbn [app value_le]; lia].
  all: store_all Hm; destruct (Z.eqb_spec (e3 / 10) 0) as [E5|E5]; cbn [negb].
  1, 3: exists [e0 mod 10; e1 mod 10; e2 mod 10; e3 mod 10];
    (split; [|split; [simpl; lia|unfold mret, M_ret; do 2 f_equal; simpl length; lia]]);
    apply (repr_snoc 10 [e0 mod 10; e1 mod 10; e2 mod 10]); [repeat constructor; lia|lia|cbn [app value_le]; lia].
  all: store_all Hm; exists [e0 mod 10; e1 mod 10; e2 mod 10; e3 mod 10; e3 / 10];
    (split; [|split; [simpl; lia|unfold mret, M_ret; do 2 f_equal; simpl length; lia]]);
    apply (repr_snoc 10 [e0 mod 10; e1 mod 10; e2 mod 10; e3 mod 10]); [repeat constructor; lia|lia|cbn [app value_le]; lia].
Qed.

Lemma put_dec_ok m buf num :
  fits 64 num -> mapped m buf 20 ->
  exists ds, repr 10 ds num /\ (length ds <= 20)%nat /\
    put_dec buf num m = Ok (buf + Z.of_nat (length ds), write m buf (chars ds)).
Proof.
  intros Hn Hm. unfold fits in Hn.
  enough (wp (put_dec buf num) (fun r m' => exists ds, repr 10 ds num /\ (length ds <= 20)%nat /\
    r = buf + Z.of_nat (length ds) /\ m' = write m buf (chars ds)) m) as Hwp.
  { apply wp_run in Hwp as (r & m' & -> & ds & H1 & H2 & -> & ->). by exists ds. }
  unfold put_dec.
  apply (wp_loop (fun '(b, n) m' => exists k es, (k <= 3)%nat /\ length es = (5 * k)%nat /\ b = buf + Z.of_nat (length es) /\
      Forall (fun d => 0 <= d < 10) es /\ m' = write m buf (chars es) /\ 0 <= n /\ ((0 < k)%nat -> 0 < n) /\
      value_le 10 es + 100000 ^ Z.of_nat k * n = num)
    (fun '(b, _) => Z.to_nat ((20 - (b - buf)) / 5))).
  - exists 0%nat, []. simpl. split; [lia|]. split; [done|]. split; [lia|]. split; [constructor|].
    split; [done|]. split; [lia|]. split; [lia|]. change (Z.of_nat 0) with 0. lia.
  - replace (20 - (buf - buf)) with 20 by lia. change (20 / 5) with 4. lia.
  - intros [b n] m' (k & es & Hk & Hl & -> & Hes & -> & Hn0 & Hpos & Hval).
    assert (forall ds, value_le 10 (es ++ ds) = value_le 10 es + 100000 ^ Z.of_nat k * value_le 10 ds) as Happ.
    { intros ds. rewrite value_le_app, Hl. do 2 f_equal. change 100000 with (10 ^ 5).
      rewrite <- Z.pow_mul_r by lia. f_equal. lia. }
    assert (Forall (fun d => 0 <= d) es) as Hes0 by (eapply Forall_impl; [exact Hes|simpl; lia]).
    assert (0 <= value_le 10 es) as Hv0 by (clear -Hes0; induction Hes0; simpl; lia).
    assert (forall l, write (write m buf (chars es)) (buf + Z.of_nat (length es)) (chars l) = write m buf (chars (es ++ l))) as Hw.
    { intros l. rewrite fmap_app, write_app. by rewrite length_fmap. }
    assert (mapped (write m buf (chars es)) (buf + Z.of_nat (length es)) 5) as Hm'.
    { intros a Ha. apply write_mapped, Hm. lia. }
    assert (k = 0 \/ k = 1 \/ k = 2 \/ k = 3)%nat as Hcase by lia.
    destruct (Z.ltb_spec n 100000) as [Hs|Hb].
    + apply wp_bind. destruct (put_dec_trunc_ok _ _ n ltac:(lia) Hm') as (ds & Hr & Hd & Hrun).
      eapply wp_det; [exact Hrun|]. apply wp_ret. exists (es ++ ds). destruct Hr as [Hd1 Hd2 Hd3].
      split; [split; [by apply Forall_app|rewrite Happ; lia|]|].
      * destruct Hd3 as [->|(ds' & d & -> & Hd3)]; [|right; exists (es ++ ds'), d; by rewrite app_assoc].
        simpl in Hd2. destruct k as [|k]; [|specialize (Hpos ltac:(lia)); lia].
        destruct es; [by left|simpl in Hl; lia].
      * rewrite length_app. split; [lia|]. split; [lia|]. apply Hw.
    + apply wp_bind. eapply wp_det.
      { apply do_div_ok; [|lia]. unfold fits. assert (1 <= 100000 ^ Z.of_nat k) by lia. nia. }
      apply wp_bind. destruct (put_dec_full_ok _ _ (n mod 100000) ltac:(apply Z.mod_pos_bound; lia) Hm')
        as (ds & Hd & Hdig & Hdv & Hrun).
      eapply wp_det; [exact Hrun|]. apply wp_ret. split.
      * exists (S k), (es ++ ds). rewrite length_app, Hd, Hw.
        assert (k <= 2)%nat as Hk2.
        { assert (k <> 3)%nat; [|lia]. intros ->. change (100000 ^ Z.of_nat 3) with 1000000000000000 in Hval. lia. }
        split; [lia|]. split; [lia|]. split; [lia|]. split; [by apply Forall_app|]. split; [done|].
        split; [apply Z.div_pos; lia|]. split; [intros _; apply Z.div_str_pos; lia|].
        rewrite Happ, Hdv, Nat2Z.inj_succ, Z.pow_succ_r by lia.
        pose proof (Z.div_mod n 100000 ltac:(lia)). nia.
      * destruct Hcase as [->|[->|[->| ->]]]; rewrite Hl; Z.div_mod_to_equations; lia.
Qed.

(** The character of a digit. *)
Definition digit_of (locase d : Z) : Z := Z.lor (nth (Z.to_nat d) digits 0) locase.

Lemma small_cases type : Z.land type SMALL = 0 \/ Z.land type SMALL = 32.
Proof.
  unfold SMALL. change 32 with (2 ^ 5).
  destruct (Z.testbit type 5) eqn:E; [right|left]; bitwise i Hi; rewrite Z.pow2_bits_eqb by lia;
    destruct (Z.eqb_spec 5 i) as [<-|]; rewrite ?E, ?andb_false_r; done.
Qed.

Lemma digit_of_decimal type d : 0 <= d < 10 -> digit_of (Z.land type SMALL) d = d + 48.
Proof.
  intros Hd.
  assert (d = 0 \/ d = 1 \/ d = 2 \/ d = 3 \/ d = 4 \/ d = 5 \/ d = 6 \/ d = 7 \/ d = 8 \/ d = 9) as H by lia.
  destruct (small_cases type) as [-> | ->]; by repeat destruct H as [->|H]; subst.
Qed.

Lemma wp_radix m tmp num locase k Q :
  fits 64 num -> num <> 0 -> 3 <= k <= 4 -> mapped m tmp 22 ->
  (forall ds, repr (2 ^ k) ds num -> (length ds <= 22)%nat ->
     Q (Z.of_nat (length ds)) (write m tmp (map (digit_of locase) ds))) ->
  wp (loop 66 (fun '(i, num) =>
    store (tmp + i) (Z.lor (nth (Z.to_nat (Z.land (u8 num) (2 ^ k - 1))) digits 0) locase) ;;
    let i := i + 1 in
    let num := Z.shiftr num k in
    if negb (num =? 0) then continue (i, num) else break i) (0, num)) Q m.
Proof.
  intros Hn Hnz Hk Hm HQ. unfold fits in Hn. assert (8 <= 2 ^ k) as Hb by (change 8 with (2 ^ 3); apply Z.pow_le_mono_r; lia).
  apply (wp_loop (fun '(i, n) m' => exists es, i = Z.of_nat (length es) /\ Forall (fun d => 0 <= d < 2 ^ k) es /\
      m' = write m tmp (map (digit_of locase) es) /\ 0 < n /\ value_le (2 ^ k) es + (2 ^ k) ^ i * n = num)
    (fun '(_, n) => Z.to_nat (Z.log2 n))).
  - exists []. simpl. split; [done|]. split; [constructor|]. split; [done|]. split; [lia|]. rewrite Z.pow_0_r. lia.
  - assert (Z.log2 num < 64) by (apply Z.log2_lt_pow2; lia). lia.
  - intros [i n] m' (es & -> & Hes & -> & Hpos & Hval).
    assert (0 <= value_le (2 ^ k) es) as Hv by (clear -Hes Hb; induction Hes; simpl; nia).
    assert ((2 ^ k) ^ Z.of_nat (length es) <= num) as Hle by nia.
    assert (length es <= 21)%nat as Hlen.
    { assert (~ (22 <= length es)%nat); [|lia]. intros H22.
      assert (8 ^ 22 <= (2 ^ k) ^ Z.of_nat (length es)).
      { transitivity ((2 ^ k) ^ 22); [apply Z.pow_le_mono_l; lia|apply Z.pow_le_mono_r; lia]. }
      change (8 ^ 22) with (4 * 2 ^ 64) in *. lia. }
    assert (Z.land (u8 n) (2 ^ k - 1) = n mod 2 ^ k) as ->.
    { replace (2 ^ k - 1) with (Z.ones k) by (rewrite Z.ones_equiv; lia). rewrite Z.land_ones by lia.
      unfold wrap. assert (2 ^ 8 = 2 ^ (8 - k) * 2 ^ k) as -> by (rewrite <- Z.pow_add_r by lia; f_equal; lia).
      rewrite (Z.mul_comm (2 ^ (8 - k))), Z.rem_mul_r by lia.
      rewrite (Z.mul_comm (2 ^ k) (_ mod _)), Z_mod_plus_full. apply Zmod_mod. }
    apply wp_bind. eapply wp_det.
    { unfold store. destruct (write_mapped m tmp (map (digit_of locase) es) (tmp + Z.of_nat (length es))) as [v ->];
        [apply Hm; lia|done]. }
    cbv zeta. rewrite Z.shiftr_div_pow2 by lia. set (d := n mod 2 ^ k). set (n' := n / 2 ^ k).
    pose proof (Z.div_mod n (2 ^ k) ltac:(lia)) as Hdm. fold d n' in Hdm.
    pose proof (Z.mod_pos_bound n (2 ^ k) ltac:(lia)) as Hd. fold d in Hd.
    assert (0 <= n') by (apply Z.div_pos; lia).
    assert (forall x, <[tmp + Z.of_nat (length es) := x]> (write m tmp (map (digit_of locase) es))
      = write m tmp (map (digit_of locase) es ++ [x])) as Hw.
    { intros x. rewrite write_snoc. by rewrite length_fmap. }
    rewrite Hw. change [Z.lor _ _] with (map (digit_of locase) [d]). rewrite <- fmap_app.
    assert (value_le (2 ^ k) (es ++ [d]) = value_le (2 ^ k) es + (2 ^ k) ^ Z.of_nat (length es) * d) as Hv2
      by (rewrite value_le_app; simpl; ring).
    assert (Forall (fun d => 0 <= d < 2 ^ k) (es ++ [d])) as Hes2
      by (apply Forall_app; split; [done|by apply Forall_singleton]).
    destruct (Z.eqb_spec n' 0) as [E|E]; cbn [negb]; apply wp_ret.
    + replace (Z.of_nat (length es) + 1) with (Z.of_nat (length (es ++ [d]))) by (rewrite length_app; simpl; lia).
      apply HQ; [|rewrite length_app; simpl; lia].
      apply repr_snoc; [done|nia|]. rewrite Hv2. nia.
    + split.
      * exists (es ++ [d]). rewrite length_app. simpl. split; [lia|].
        split; [done|]. split; [done|]. split; [lia|].
        rewrite Hv2, Z.pow_add_r, Z.pow_1_r by lia. nia.
      * unfold n'. rewrite <- Z.shiftr_div_pow2, Z.log2_shiftr by lia.
        assert (Z.log2 n >= k); [|lia]. apply Z.le_ge, Z.log2_le_pow2; [lia|]. nia.
Qed.

(** ** Output *)

(** The memory after [out] has been put out at [buf]. *)
Definition put (m : mem) (buf end_ : Z) (out : list Z) : mem := write m buf (take (Z.to_nat (end_ - buf)) out).

Section Output.
Context (m : mem) (buf end_ : Z) (Hbuf : mapped m buf (end_ - buf)).
Abbreviation at_ out := (buf + Z.of_nat (length out)).
Abbreviation done_ out := (put m buf end_ out).
Implicit Types out : list Z.

Lemma emit_ok c out : emit end_ c (at_ out) (done_ out) = Ok (at_ (out ++ [c]), done_ (out ++ [c])).
Proof using Hbuf.
  assert (at_ out + 1 = at_ (out ++ [c])) as E by (rewrite length_app; simpl; lia).
  unfold emit. destruct (Z.ltb_spec (at_ out) end_) as [H|H].
  - rewrite bind_store.
    + rewrite E. unfold put. rewrite (take_ge out), (take_ge (out ++ [c])) by (rewrite ?length_app; simpl; lia).
      by rewrite write_snoc.
    + apply write_mapped, Hbuf. lia.
  - rewrite bind_ret, E. unfold put. by rewrite take_app_le by lia.
Qed.

Lemma pad_ok c out size :
  pad end_ c (at_ out) size (done_ out) =
    Ok ((at_ (out ++ replicate (Z.to_nat size) c), Z.min size 0 - 1), done_ (out ++ replicate (Z.to_nat size) c)).
Proof using Hbuf.
  unfold pad. remember (Z.to_nat size) as n eqn:En. revert size out En.
  induction n as [|n IH]; intros size out En; rewrite loop_S; cbv zeta.
  - replace (0 <=? size - 1) with false by lia. rewrite bind_ret. simpl. rewrite app_nil_r.
    by replace (Z.min size 0) with size by lia.
  - replace (0 <=? size - 1) with true by lia. rewrite bind_bind, (bind_Ok _ _ _ _ _ (emit_ok c out)), bind_ret.
    etransitivity; [apply (IH (size - 1)); lia|]. rewrite <- app_assoc. simpl.
    by replace (Z.min (size - 1) 0) with (Z.min size 0) by lia.
Qed.

Lemma zeros_ok i precision out :
  0 <= i <= precision ->
  loop (S (Z.to_nat precision)) (fun '(buf, precision) =>
    let precision := precision - 1 in
    if i <=? precision then buf ← emit end_ 48 buf; continue (buf, precision) else break buf)
    (at_ out, precision) (done_ out) =
  Ok (at_ (out ++ replicate (Z.to_nat (precision - i)) 48), done_ (out ++ replicate (Z.to_nat (precision - i)) 48)).
Proof using Hbuf.
  intros Hi. remember (Z.to_nat (precision - i)) as n eqn:En.
  assert (n <= Z.to_nat precision)%nat as Hf by lia. revert Hf. generalize (Z.to_nat precision) as fuel.
  revert precision out Hi En. induction n as [|n IH]; intros precision out Hi En fuel Hf; rewrite loop_S; cbv zeta.
  - replace (i <=? precision - 1) with false by lia. rewrite bind_ret. simpl. by rewrite app_nil_r.
  - replace (i <=? precision - 1) with true by lia. rewrite bind_bind, (bind_Ok _ _ _ _ _ (emit_ok 48 out)), bind_ret.
    destruct fuel as [|fuel]; [lia|]. etransitivity; [apply (IH (precision - 1)); lia|]. by rewrite <- app_assoc.
Qed.

(** The digits, from the end of [tmp] backwards. *)
Lemma tmp_ok tmp cs out :
  arr m tmp cs -> (tmp + Z.of_nat (length cs) <= buf \/ end_ <= tmp) ->
  loop (S (length cs)) (fun '(buf, i) =>
    let i := i - 1 in
    if 0 <=? i then c ← load (tmp + i); buf ← emit end_ c buf; continue (buf, i) else break buf)
    (at_ out, Z.of_nat (length cs)) (done_ out) =
  Ok (at_ (out ++ reverse cs), done_ (out ++ reverse cs)).
Proof using Hbuf.
  intros Ha Hd. revert out. induction cs as [|c cs IH] using rev_ind; intros out.
  - rewrite loop_S. cbv zeta. simpl. rewrite bind_ret. by rewrite app_nil_r.
  - rewrite length_app in *. simpl length in *. apply arr_app in Ha as [Ha Hc]. apply arr_cons in Hc as [Hc _].
    rewrite loop_S. cbv zeta. replace (Z.of_nat (length cs + 1) - 1) with (Z.of_nat (length cs)) by lia.
    replace (0 <=? Z.of_nat (length cs)) with true by lia. rewrite bind_bind, (bind_load _ c).
    + rewrite bind_bind, (bind_Ok _ _ _ _ _ (emit_ok c out)), bind_ret. rewrite Nat.add_1_r.
      etransitivity; [apply IH; [done|lia]|]. by rewrite reverse_app, <- app_assoc.
    + unfold put. rewrite lookup_write_out; [done|]. rewrite length_take. lia.
Qed.
End Output.

(** ** What number() puts out *)

(** The magnitude and the sign character. *)
Definition magnitude (type num : Z) : Z := if has type SIGN && (s64 num <? 0) then u64 (- s64 num) else num.

Definition sign_of (type num : Z) : list Z :=
  if has type SIGN then
    if s64 num <? 0 then [45] else if has type PLUS then [43] else if has type SPACE then [32] else []
  else [].

Definition prefix_of (base type : Z) : list Z :=
  if has type SPECIAL && negb (base =? 10) then
    if base =? 16 then [48; Z.lor 88 (Z.land type SMALL)] else [48]
  else [].

(** A field: sign, prefix, zeros up to the precision and the digits, padded to the
    width with spaces on the left, spaces on the right (LEFT), or zeros between the
    prefix and the digits (ZEROPAD without LEFT). *)
Definition formatted (base size precision type num : Z) (ds : list Z) : list Z :=
  let front := sign_of type num ++ prefix_of base type in
  let body := replicate (Z.to_nat (precision - Z.of_nat (length ds))) 48 ++
              reverse (map (digit_of (Z.land type SMALL)) ds) in
  let n := Z.to_nat (size - Z.of_nat (length (front ++ body))) in
  if has type LEFT then front ++ body ++ replicate n 32
  else if has type ZEROPAD then front ++ replicate n 48 ++ body
  else replicate n 32 ++ front ++ body.

Lemma has_bit type k : 0 <= k -> has type (2 ^ k) = Z.testbit type k.
Proof.
  intros Hk. unfold has. destruct (Z.testbit type k) eqn:E.
  - assert (Z.land type (2 ^ k) <> 0) as H.
    { intros H. assert (Z.testbit (Z.land type (2 ^ k)) k = false) as H' by (by rewrite H, Z.bits_0).
      rewrite Z.land_spec, E, Z.pow2_bits_true in H' by done. done. }
    by apply Z.eqb_neq in H as ->.
  - assert (Z.land type (2 ^ k) = 0) as ->; [|done]. bitwise i Hi. rewrite Z.pow2_bits_eqb by done.
    destruct (Z.eqb_spec k i) as [<-|]; [by rewrite E|apply andb_false_r].
Qed.

Lemma has_ldiff type k : 0 < k -> has (Z.ldiff type ZEROPAD) (2 ^ k) = has type (2 ^ k).
Proof.
  intros Hk. rewrite !has_bit by lia. rewrite Z.ldiff_spec. change ZEROPAD with (2 ^ 0).
  rewrite Z.pow2_bits_false by lia. apply andb_true_r.
Qed.

Lemma has_either type : has type (ZEROPAD + LEFT) = has type ZEROPAD || has type LEFT.
Proof.
  change (has type (ZEROPAD + LEFT)) with (negb (Z.land type (Z.lor (2 ^ 0) (2 ^ 4)) =? 0)).
  change ZEROPAD with (2 ^ 0). change LEFT with (2 ^ 4). rewrite Z.land_lor_distr_r. unfold has.
  assert (Z.lor (Z.land type (2 ^ 0)) (Z.land type (2 ^ 4)) = 0 <->
    Z.land type (2 ^ 0) = 0 /\ Z.land type (2 ^ 4) = 0) as H by apply Z.lor_eq_0_iff.
  destruct (Z.eqb_spec (Z.lor (Z.land type (2 ^ 0)) (Z.land type (2 ^ 4))) 0),
    (Z.eqb_spec (Z.land type (2 ^ 0)) 0), (Z.eqb_spec (Z.land type (2 ^ 4)) 0); simpl; tauto.
Qed.

(** The digits in [tmp]. *)
Lemma wp_digits m tmp num base type Q :
  fits 64 num -> base = 8 \/ base = 10 \/ base = 16 -> mapped m tmp 66 ->
  let locase := Z.land type SMALL in
  (forall ds, repr base ds num -> (length ds <= 22)%nat ->
     Q (Z.of_nat (length ds)) (write m tmp (map (digit_of locase) ds))) ->
  wp (if num =? 0 then store tmp 48 ;; mret 1
      else if negb (base =? 10) then
        let mask := base - 1 in
        let shift := if base =? 16 then 4 else 3 in
        loop 66 (fun '(i, num) =>
          store (tmp + i) (Z.lor (nth (Z.to_nat (Z.land (u8 num) mask)) digits 0) locase) ;;
          let i := i + 1 in
          let num := Z.shiftr num shift in
          if negb (num =? 0) then continue (i, num) else break i) (0, num)
      else p ← put_dec tmp num; mret (p - tmp)) Q m.
Proof.
  intros Hn Hbase Hm locase HQ. destruct (Z.eqb_spec num 0) as [->|Hnz].
  - apply wp_bind. apply wp_store; [apply Hm; lia|]. apply wp_ret.
    assert (repr base [0] 0) as Hr by (split; [repeat constructor; lia|simpl; lia|by left]).
    specialize (HQ [0] Hr ltac:(simpl; lia)). simpl in HQ. unfold locase in HQ.
    by rewrite digit_of_decimal in HQ by lia.
  - assert (mapped m tmp 22) as Hm22 by (intros a Ha; apply Hm; lia).
    destruct Hbase as [->|[->| ->]].
    + apply (wp_radix m tmp num locase 3); [done|done|lia|done|exact HQ].
    + cbn [negb Z.eqb Pos.eqb]. destruct (put_dec_ok m tmp num Hn) as (ds & Hr & Hl & Hrun).
      { intros a Ha. apply Hm. lia. }
      apply wp_bind. eapply wp_det; [exact Hrun|]. apply wp_ret.
      replace (tmp + Z.of_nat (length ds) - tmp) with (Z.of_nat (length ds)) by lia.
      replace (chars ds) with (map (digit_of locase) ds); [apply HQ; [done|lia]|].
      apply list_fmap_ext. intros i d Hd. apply digit_of_decimal.
      destruct Hr as [Hr _ _]. by apply (Forall_lookup_1 _ _ _ _ Hr Hd).
    + apply (wp_radix m tmp num locase 4); [done|done|lia|done|exact HQ].
Qed.

(** The flags after LEFT has cleared ZEROPAD. *)
Lemma cleared_flags type :
  let type' := if has type LEFT then Z.ldiff type ZEROPAD else type in
  has type' SIGN = has type SIGN /\ has type' PLUS = has type PLUS /\ has type' SPACE = has type SPACE /\
  has type' LEFT = has type LEFT /\ has type' ZEROPAD = has type ZEROPAD && negb (has type LEFT).
Proof.
  cbv zeta. destruct (has type LEFT) eqn:E.
  - change SIGN with (2 ^ 1). change PLUS with (2 ^ 2). change SPACE with (2 ^ 3). change LEFT with (2 ^ 4) in *.
    rewrite !has_ldiff by lia. rewrite E, andb_false_r. repeat split. change ZEROPAD with (2 ^ 0) at 2.
    rewrite has_bit, Z.ldiff_spec by lia. change (Z.testbit ZEROPAD 0) with true. apply andb_false_r.
  - rewrite E, andb_true_r. done.
Qed.

Lemma magnitude_fits type num : fits 64 num -> fits 64 (magnitude type num).
Proof. intros. unfold magnitude. destruct (_ && _); [apply wrap_fits; lia|done]. Qed.

Section Front.
Context (m : mem) (buf end_ : Z) (Hbuf : mapped m buf (end_ - buf)).
Abbreviation at_ out := (buf + Z.of_nat (length out)).
Abbreviation done_ out := (put m buf end_ out).

Lemma sign_ok type num out :
  let sign := hd 0 (sign_of type num) in
  (if negb (sign =? 0) then emit end_ sign (at_ out) else mret (at_ out)) (done_ out) =
    Ok (at_ (out ++ sign_of type num), done_ (out ++ sign_of type num)).
Proof using Hbuf.
  unfold sign_of. destruct (has type SIGN); [|by rewrite app_nil_r].
  destruct (s64 num <? 0); [by apply emit_ok|]. destruct (has type PLUS); [by apply emit_ok|].
  destruct (has type SPACE); [by apply emit_ok|by rewrite app_nil_r].
Qed.

Lemma prefix_ok base type out :
  (if has type SPECIAL && negb (base =? 10) then
     buf ← emit end_ 48 (at_ out);
     if base =? 16 then emit end_ (Z.lor 88 (Z.land type SMALL)) buf else mret buf
   else mret (at_ out)) (done_ out) =
    Ok (at_ (out ++ prefix_of base type), done_ (out ++ prefix_of base type)).
Proof using Hbuf.
  unfold prefix_of. destruct (has type SPECIAL && _); [|by rewrite app_nil_r].
  rewrite (bind_Ok _ _ _ _ _ (emit_ok m buf end_ Hbuf 48 out)). destruct (base =? 16); [|done].
  rewrite (emit_ok m buf end_ Hbuf). by rewrite <- app_assoc.
Qed.

(** Everything after the digits are known. *)
Lemma tail_ok tmp base size precision type num ds :
  let type' := if has type LEFT then Z.ldiff type ZEROPAD else type in
  let i := Z.of_nat (length ds) in
  let cs := map (digit_of (Z.land type SMALL)) ds in
  let front := sign_of type num ++ prefix_of base type in
  let sign := hd 0 (sign_of type num) in
  let prec := if precision <? i then i else precision in
  let out := formatted base size precision type num ds in
  arr m tmp cs -> (tmp + Z.of_nat (length cs) <= buf \/ end_ <= tmp) ->
  ('(buf, size) ← (if negb (has type' (ZEROPAD + LEFT))
                   then pad end_ 32 buf (size - Z.of_nat (length front) - prec)
                   else mret (buf, size - Z.of_nat (length front) - prec));
   buf ← (if negb (sign =? 0) then emit end_ sign buf else mret buf);
   buf ← (if has type SPECIAL && negb (base =? 10) then
            buf ← emit end_ 48 buf;
            if base =? 16 then emit end_ (Z.lor 88 (Z.land type SMALL)) buf else mret buf
          else mret buf);
   '(buf, size) ← (if negb (has type' LEFT) then pad end_ (if has type' ZEROPAD then 48 else 32) buf size
                   else mret (buf, size));
   buf ← loop (S (Z.to_nat prec)) (fun '(buf, precision) =>
     let precision := precision - 1 in
     if i <=? precision then buf ← emit end_ 48 buf; continue (buf, precision) else break buf) (buf, prec);
   buf ← loop (S (Z.to_nat i)) (fun '(buf, i) =>
     let i := i - 1 in
     if 0 <=? i then c ← load (tmp + i); buf ← emit end_ c buf; continue (buf, i) else break buf) (buf, i);
   '(buf, _) ← pad end_ 32 buf size;
   mret buf) m = Ok (at_ out, done_ out).
Proof using Hbuf.
  intros type' i cs front sign prec out Ha Hd.
  destruct (cleared_flags type) as (_ & _ & _ & F4 & F5). fold type' in F4, F5.
  assert (length cs = length ds) as Hcs by apply length_fmap.
  assert (0 <= i <= prec /\ Z.to_nat (prec - i) = Z.to_nat (precision - i)) as [Hprec Hz]
    by (unfold prec; destruct (Z.ltb_spec precision i); lia).
  set (body := replicate (Z.to_nat (precision - i)) 48 ++ reverse cs).
  assert (Z.of_nat (length body) = prec) as Hbody.
  { unfold body. rewrite length_app, length_replicate, length_reverse. lia. }
  set (size1 := size - Z.of_nat (length front) - prec).
  assert (forall out1 size1, (
     buf ← (if negb (sign =? 0) then emit end_ sign (at_ out1) else mret (at_ out1));
     buf ← (if has type SPECIAL && negb (base =? 10) then
              buf ← emit end_ 48 buf;
              if base =? 16 then emit end_ (Z.lor 88 (Z.land type SMALL)) buf else mret buf
            else mret buf);
     '(buf, size) ← (if negb (has type' LEFT) then pad end_ (if has type' ZEROPAD then 48 else 32) buf size1
                     else mret (buf, size1));
     buf ← loop (S (Z.to_nat prec)) (fun '(buf, precision) =>
       let precision := precision - 1 in
       if i <=? precision then buf ← emit end_ 48 buf; continue (buf, precision) else break buf) (buf, prec);
     buf ← loop (S (Z.to_nat i)) (fun '(buf, i) =>
       let i := i - 1 in
       if 0 <=? i then c ← load (tmp + i); buf ← emit end_ c buf; continue (buf, i) else break buf) (buf, i);
     '(buf, _) ← pad end_ 32 buf size;
     mret buf) (done_ out1) =
     let out2 := out1 ++ front ++ (if has type LEFT then []
       else replicate (Z.to_nat size1) (if has type ZEROPAD then 48 else 32)) ++ body ++
       (if has type LEFT then replicate (Z.to_nat size1) 32 else []) in
     Ok (at_ out2, done_ out2)) as Hrest.
  { intros out1 s1. erewrite bind_Ok by apply sign_ok. erewrite bind_Ok by apply prefix_ok. rewrite <- app_assoc. fold front.
    assert (forall out3 s2, (
      buf ← loop (S (Z.to_nat prec)) (fun '(buf, precision) =>
         let precision := precision - 1 in
         if i <=? precision then buf ← emit end_ 48 buf; continue (buf, precision) else break buf) (at_ out3, prec);
      buf ← loop (S (Z.to_nat i)) (fun '(buf, i) =>
         let i := i - 1 in
         if 0 <=? i then c ← load (tmp + i); buf ← emit end_ c buf; continue (buf, i) else break buf) (buf, i);
      '(buf, _) ← pad end_ 32 buf s2; mret buf) (done_ out3) =
      Ok (at_ (out3 ++ body ++ replicate (Z.to_nat s2) 32), done_ (out3 ++ body ++ replicate (Z.to_nat s2) 32))) as Hend.
    { intros out3 s2. erewrite bind_Ok by (apply zeros_ok; done). rewrite Hz.
      unfold i at 1 3. rewrite Nat2Z.id, <- Hcs. erewrite bind_Ok by (apply tmp_ok; done).
      rewrite <- app_assoc. fold body. erewrite bind_Ok by (by apply pad_ok). by rewrite <- app_assoc. }
    rewrite F4, F5. destruct (has type LEFT); cbn [negb].
    - rewrite bind_ret. cbv beta iota. rewrite Hend. rewrite <- app_assoc. done.
    - rewrite andb_true_r. erewrite bind_Ok by (by apply pad_ok). cbv beta iota. rewrite Hend.
      replace (Z.to_nat (Z.min s1 0 - 1)) with 0%nat by lia. simpl replicate.
      by rewrite <- !app_assoc. }
  assert (put m buf end_ [] = m) as Hnil by (unfold put; by rewrite take_nil).
  assert (has type' (ZEROPAD + LEFT) = has type ZEROPAD || has type LEFT) as Ezl
    by (rewrite has_either, F4, F5; destruct (has type ZEROPAD), (has type LEFT); done).
  rewrite Ezl. unfold out, formatted. fold front cs i body.
  assert (size - Z.of_nat (length (front ++ body)) = size1) as Es by (rewrite length_app; unfold size1; lia). rewrite Es.
  specialize (Hrest []) as Hrest0. simpl app in Hrest0. rewrite Hnil, Z.add_0_r in Hrest0.
  destruct (has type LEFT); cbn [negb andb orb].
  - rewrite orb_true_r. cbn [negb]. rewrite bind_ret. cbv beta iota. by rewrite Hrest0.
  - rewrite orb_false_r. destruct (has type ZEROPAD); cbn [negb].
    + rewrite bind_ret. cbv beta iota. rewrite Hrest0, app_nil_r. done.
    + pose proof (pad_ok m buf end_ Hbuf 32 [] size1) as Hpad. rewrite Hnil in Hpad. simpl length in Hpad.
      rewrite Z.add_0_r in Hpad. rewrite (bind_Ok _ _ _ _ _ Hpad). cbv beta iota. simpl app. rewrite Hrest.
      replace (Z.to_nat (Z.min size1 0 - 1)) with 0%nat by lia. simpl replicate. rewrite app_nil_r. done.
Qed.
End Front.

Lemma number_ok m tmp buf end_ num base size precision type :
  base = 8 \/ base = 10 \/ base = 16 -> fits 64 num -> mapped m tmp 66 -> mapped m buf (end_ - buf) ->
  tmp + 66 <= buf \/ end_ <= tmp ->
  exists ds, let out := formatted base size precision type num ds in
    repr base ds (magnitude type num) /\ (length ds <= 22)%nat /\
    number tmp buf end_ num base size precision type m =
      Ok (buf + Z.of_nat (length out), put (write m tmp (map (digit_of (Z.land type SMALL)) ds)) buf end_ out).
Proof.
  intros Hbase Hnum Htmp Hbuf Hd.
  enough (wp (number tmp buf end_ num base size precision type) (fun r m' => exists ds,
    let out := formatted base size precision type num ds in
    repr base ds (magnitude type num) /\ (length ds <= 22)%nat /\ r = buf + Z.of_nat (length out) /\
    m' = put (write m tmp (map (digit_of (Z.land type SMALL)) ds)) buf end_ out) m) as Hwp.
  { apply wp_run in Hwp as (r & m' & -> & ds & H1 & H2 & -> & ->). by exists ds. }
  unfold number. set (locase := Z.land type SMALL).
  destruct (cleared_flags type) as (F1 & F2 & F3 & F4 & F5). cbv zeta in F1, F2, F3, F4, F5.
  cbv zeta. set (type' := if has type LEFT then Z.ldiff type ZEROPAD else type) in *.
  assert ((if has type' SIGN then
      if s64 num <? 0 then (45, u64 (- s64 num), size - 1)
      else if has type' PLUS then (43, num, size - 1)
      else if has type' SPACE then (32, num, size - 1)
      else (0, num, size)
    else (0, num, size)) =
    (hd 0 (sign_of type num), magnitude type num, size - Z.of_nat (length (sign_of type num)))) as ->.
  { rewrite F1, F2, F3. unfold sign_of, magnitude. destruct (has type SIGN); simpl; [|by rewrite Z.sub_0_r].
    destruct (s64 num <? 0); [done|]. destruct (has type PLUS); [done|].
    destruct (has type SPACE); [done|]. simpl. by rewrite Z.sub_0_r. }
  assert ((if has type SPECIAL && negb (base =? 10) then
      if base =? 16 then size - Z.of_nat (length (sign_of type num)) - 1 - 1
      else size - Z.of_nat (length (sign_of type num)) - 1
    else size - Z.of_nat (length (sign_of type num))) =
    size - Z.of_nat (length (sign_of type num ++ prefix_of base type))) as ->.
  { clear. rewrite length_app. unfold prefix_of. destruct (has type SPECIAL && _); simpl; [|lia].
    destruct (base =? 16); simpl; lia. }
  apply wp_bind. apply wp_digits; [by apply magnitude_fits|done|done|]. intros ds Hr Hl.
  set (m1 := write m tmp _). eapply wp_det.
  { apply (tail_ok m1 buf end_); [intros a Ha; by apply write_mapped, Hbuf|apply write_arr|]. rewrite length_fmap. clear -Hd Hl. lia. }
  exists ds. done.
Qed.



(** ** Reading back what was written *)

(** A digit character reads as the digit, in either case. *)
Lemma digit_of_read type d :
  0 <= d < 16 ->
  let c := digit_of (Z.land type SMALL) d in
  isxdigit c = true /\ digit_value c = d /\ 0 < c < 256 /\ (TOLOWER c =? 120) = false /\ (c = 48 <-> d = 0).
Proof.
  intros Hd. destruct (small_cases type) as [-> | ->].
  all: assert (d = 0 \/ d = 1 \/ d = 2 \/ d = 3 \/ d = 4 \/ d = 5 \/ d = 6 \/ d = 7 \/ d = 8 \/ d = 9 \/
    d = 10 \/ d = 11 \/ d = 12 \/ d = 13 \/ d = 14 \/ d = 15) as H by lia.
  all: repeat destruct H as [->|H]; subst; vm_compute; intuition congruence.
Qed.

Section Read.
Context (type : Z).
Abbreviation text l := (map (digit_of (Z.land type SMALL)) l).

Lemma leading_text base l :
  base <= 16 -> Forall (fun d => 0 <= d < base) l -> leading_digits base (text l) = l.
Proof using Type.
  intros Hb. induction 1 as [|d l Hd Hl IH]; simpl; [done|].
  destruct (digit_of_read type d ltac:(lia)) as (H1 & H2 & _). unfold digit_in. rewrite H1, H2.
  replace (d <? base) with true by lia. simpl. by rewrite IH.
Qed.

Lemma text_second base l : base <= 16 -> Forall (fun d => 0 <= d < base) l -> (TOLOWER (hd 0 (text l)) =? 120) = false.
Proof using Type.
  intros Hb Hl. destruct Hl as [|d l Hd Hl]; [done|]. simpl. by apply digit_of_read; lia.
Qed.

Lemma number_of_reverse base ds : number_of base (reverse ds) = value_le base ds.
Proof using Type.
  unfold number_of. induction ds as [|d ds IH]; [done|]. rewrite reverse_cons, foldl_app, IH. simpl. lia.
Qed.

Lemma accepted_all base s : s <> [] -> used base s = length s -> accepted base s = true.
Proof using Type.
  intros Hs Hu. unfold accepted. rewrite Hu. destruct s as [|c s]; [done|]. simpl negb. simpl andb.
  rewrite drop_ge by done. apply bool_decide_true. by left.
Qed.

Lemma parse_plain b l :
  b <= 16 -> Forall (fun d => 0 <= d < b) l -> l <> [] ->
  accepted b (text l) = true /\ number_of b (digits_of b (text l)) = number_of b l.
Proof using Type.
  intros Hb Hl Hne. assert (prefix_len b (text l) = 0%nat) as Hp.
  { unfold prefix_len. destruct l as [|d l]; [done|]. apply Forall_cons in Hl as [_ Hl]. simpl tl.
    rewrite (text_second b l), !andb_false_r by done. done. }
  assert (digits_of b (text l) = l) as Hd by (unfold digits_of; rewrite Hp; by apply leading_text).
  rewrite Hd. split; [|done]. apply accepted_all; [by destruct l|].
  unfold used. rewrite Hp, Hd, length_fmap. done.
Qed.

Lemma parse_text base pbase ds num :
  base = 8 \/ base = 10 \/ base = 16 -> repr base ds num ->
  pbase = base \/ pbase = 0 /\ (base = 10 \/ has type SPECIAL = true) ->
  let out := prefix_of base type ++ text (reverse ds) in
  let b := base_of pbase out in
  accepted b out = true /\ number_of b (digits_of b out) = num.
Proof using Type.
  intros Hbase [Hdig Hval Htop] Hp out b.
  assert (Forall (fun d => 0 <= d < base) (reverse ds)) as Hl by (by apply Forall_reverse).
  rewrite <- Hval, <- number_of_reverse. set (l := reverse ds) in *.
  assert (l <> []) as Hne.
  { intros E. apply (f_equal reverse) in E. unfold l in E. rewrite reverse_involutive in E. simpl in E. subst ds.
    destruct Htop as [|(ds' & d & E & _)]; [done|]. by destruct ds'. }
  assert (forall b', b' = base -> base_of pbase out = b' -> out = text l ->
    accepted b out = true /\ number_of b (digits_of b out) = number_of base l) as Hplain.
  { intros b' -> Eb Eo. unfold b. rewrite Eb, Eo. apply parse_plain; [lia|done|done]. }
  assert (forall sp, has type SPECIAL = sp -> base <> 10 -> prefix_of base type =
    if sp then if base =? 16 then [48; Z.lor 88 (Z.land type SMALL)] else [48] else []) as Hpre.
  { intros sp <- Hb. unfold prefix_of. apply Z.eqb_neq in Hb as ->. by rewrite andb_true_r. }
  assert (base <> 10 -> has type SPECIAL = false -> pbase = base) as Hnosp.
  { intros H1 H2. destruct Hp as [|[_ [|]]]; [done|done|congruence]. }
  destruct Hbase as [Hb|[Hb|Hb]].
  - destruct (has type SPECIAL) eqn:Hsp.
    + assert (out = text (0 :: l)) as Eo.
      { unfold out. rewrite (Hpre true) by (done || lia). rewrite Hb. simpl. by rewrite digit_of_decimal by lia. }
      assert (b = 8) as Eb.
      { unfold b, base_of. destruct Hp as [->|[-> _]]; [by rewrite Hb|]. rewrite Eo. unfold guessed_base. simpl hd. simpl tl.
        rewrite digit_of_decimal by lia. simpl. by rewrite (text_second base l) by (done || lia). }
      rewrite Eb, Eo, Hb. apply (parse_plain 8 (0 :: l)); [lia|constructor; [lia|by rewrite <- Hb]|done].
    + apply (Hplain base); [done|rewrite (Hnosp ltac:(lia) eq_refl); unfold base_of; by rewrite Hb|].
      unfold out. by rewrite (Hpre false) by (done || lia).
  - assert (out = text l) as Eo by (unfold out, prefix_of; rewrite Hb; by rewrite andb_false_r).
    destruct Hp as [Hp|[Hp _]].
    + apply (Hplain base); [done|unfold base_of; by rewrite Hp, Hb|done].
    + destruct Htop as [Hd0|(ds' & d & Hds & Hd)].
      * unfold b. rewrite Eo. unfold base_of. rewrite Hp. unfold l. rewrite Hd0, Hb. simpl.
        rewrite digit_of_decimal by lia. done.
      * apply (Hplain base); [done| |done]. unfold base_of. rewrite Hp, Eo. simpl. unfold guessed_base.
        unfold l. rewrite Hds, reverse_snoc. simpl hd.
        assert (0 <= d < 10) as Hd10.
        { rewrite Hds in Hdig. apply Forall_app in Hdig as [_ Hdig]. apply Forall_cons in Hdig as [Hdig _]. lia. }
        rewrite digit_of_decimal by lia. replace (d + 48 =? 48) with false by lia. done.
  - destruct (has type SPECIAL) eqn:Hsp.
    + assert (out = 48 :: Z.lor 88 (Z.land type SMALL) :: text l) as Eo.
      { unfold out. rewrite (Hpre true) by (done || lia). by rewrite Hb. }
      assert ((TOLOWER (Z.lor 88 (Z.land type SMALL)) =? 120) = true) as Ex by (by destruct (small_cases type) as [-> | ->]).
      assert (b = 16) as Eb.
      { unfold b, base_of. destruct Hp as [->|[-> _]]; [by rewrite Hb|]. rewrite Eo. unfold guessed_base. simpl hd. simpl tl.
        simpl (48 =? 48). cbv iota. rewrite Ex. destruct l as [|d l']; [done|]. simpl hd.
        apply Forall_cons in Hl as [Hd _]. destruct (digit_of_read type d ltac:(lia)) as (-> & _). done. }
      assert (prefix_len 16 out = 2%nat) as Hpl by (unfold prefix_len; rewrite Eo; simpl hd; simpl tl; by rewrite Ex).
      assert (digits_of 16 out = l) as Hdo.
      { unfold digits_of. rewrite Hpl, Eo. simpl drop. rewrite <- Hb. apply leading_text; [lia|done]. }
      rewrite Eb, Hdo, Hb. split; [|done]. apply accepted_all; [by rewrite Eo|].
      unfold used. rewrite Hpl, Hdo, Eo. simpl. by rewrite length_fmap.
    + apply (Hplain base); [done|rewrite (Hnosp ltac:(lia) eq_refl); unfold base_of; by rewrite Hb|].
      unfold out. by rewrite (Hpre false) by (done || lia).
Qed.
End Read.

(** C30: what number() writes, the strict conversions read back.  An unsigned 64-bit
    number put out in base 8, 10 or 16 with any flags, no width and no precision,
    and terminated, is converted by strict_strtoull to the same number: in the same
    base, or in base 0, which guesses the base, when the base is 10 or the prefix
    was asked for. *)
Theorem number_strtoull_roundtrip m tmp buf end_ num base type pbase :
  base = 8 \/ base = 10 \/ base = 16 -> fits 64 num -> mapped m tmp 66 -> mapped m buf (end_ - buf) ->
  tmp + 66 <= buf \/ end_ <= tmp -> 25 <= end_ - buf -> has type SIGN = false ->
  pbase = base \/ pbase = 0 /\ (base = 10 \/ has type SPECIAL = true) ->
  exists e m1 m2, number tmp buf end_ num base 0 0 type m = Ok (e, m1) /\ store e 0 m1 = Ok (tt, m2) /\
    strict_strtoull 30 buf pbase m2 = Ok ((0, num), m2).
Proof.
  intros Hbase Hnum Htmp Hbuf Hd Hroom Hsign Hp.
  destruct (number_ok m tmp buf end_ num base 0 0 type) as (ds & Hr & Hl & Hrun); try done.
  set (m0 := write m tmp _) in Hrun. set (out := formatted base 0 0 type num ds) in *.
  assert (magnitude type num = num) as Emag by (unfold magnitude; by rewrite Hsign). rewrite Emag in Hr.
  assert (out = prefix_of base type ++ map (digit_of (Z.land type SMALL)) (reverse ds)) as Eo.
  { unfold out, formatted, sign_of. rewrite Hsign.
    assert (forall x, Z.to_nat (0 - Z.of_nat x) = 0%nat) as E0 by (clear; intros x; lia). rewrite !E0. simpl. unfold fmap.
    rewrite app_nil_r. change (reverse (map ?f ds)) with (reverse (f <$> ds)). rewrite <- fmap_reverse.
    by destruct (has type LEFT), (has type ZEROPAD). }
  assert (length out <= 24)%nat as Hlen.
  { rewrite Eo, length_app, length_fmap, length_reverse. unfold prefix_of.
    destruct (_ && _); [destruct (base =? 16)|]; simpl; lia. }
  assert (Forall (fun c => 0 < c < 256) out) as Hchars.
  { rewrite Eo. apply Forall_app. split.
    - unfold prefix_of. destruct (_ && _); [destruct (base =? 16)|]; repeat constructor;
        destruct (small_cases type) as [-> | ->]; by vm_compute.
    - apply Forall_fmap, Forall_reverse. destruct Hr as [Hr _ _]. eapply Forall_impl; [exact Hr|].
      intros d Hd'. simpl in Hd' |- *. apply digit_of_read. lia. }
  assert (put m0 buf end_ out = write m0 buf out) as Eput by (unfold put; by rewrite take_ge by lia).
  rewrite Eput in Hrun. set (m2 := write m0 buf (out ++ [0])).
  exists (buf + Z.of_nat (length out)), (write m0 buf out), m2. split; [done|]. split.
  { unfold store. destruct (write_mapped m0 buf out (buf + Z.of_nat (length out))) as [v ->].
    - apply write_mapped, Hbuf. lia.
    - unfold m2. by rewrite write_snoc. }
  assert (cstr m2 buf out) as Hcs by (by apply cstr_write).
  destruct (parse_text type base pbase ds num Hbase Hr Hp) as [Hacc Hnumber]. rewrite <- Eo in Hacc, Hnumber.
  unfold strict_strtoull. rewrite (strict_strto_ok 64 30 m2 buf out pbase ltac:(lia) Hcs ltac:(lia) ltac:(lia)).
  rewrite Hacc, Hnumber. by rewrite wrap_id.
Qed.

Lemma number_strtoull_roundtrip_witness :
  let m := memory [(100, repeat 0 66); (200, repeat 0 25)] in
  exists e m1 m2, number 100 200 225 (2 ^ 64 - 1) 16 0 0 (SPECIAL + SMALL) m = Ok (e, m1) /\
    store e 0 m1 = Ok (tt, m2) /\ strict_strtoull 30 200 0 m2 = Ok ((0, 2 ^ 64 - 1), m2).
Proof.
  apply (number_strtoull_roundtrip (memory [(100, repeat 0 66); (200, repeat 0 25)]) 100 200 225 (2 ^ 64 - 1) 16
    (SPECIAL + SMALL) 0).
  - lia.
  - unfold fits. lia.
  - change 66 with (Z.of_nat 66). mem_check.
  - change (225 - 200) with (Z.of_nat 25). mem_check.
  - lia.
  - lia.
  - reflexivity.
  - right. split; [reflexivity|]. right. reflexivity.
Defined.
