(* ===== verification/Kfifo.v ===== *)
(** * The byte FIFO: kernel/kfifo.c and include/linux/kfifo.h

    A ring buffer whose size is a power of two and whose indices are 32-bit
    counters that only grow and wrap.  [Section Ring] gives the arithmetic of the
    cells; then come the routines as a queue, and the use without a lock by one
    reader and one writer, which the comments of the file permit, as a transition
    system in which the two interleave at every byte they copy. *)

From S2P Require Import Prelude Blocks Strings Bitops.

#[local] Arguments loop : simpl never.

Record kfifo := Kfifo { buffer : Z; fsize : Z; fin : Z; fout : Z }.

(** include/linux/log2.h *)
Definition is_power_of_2 (n : Z) : bool := negb (n =? 0) && (Z.land n (u32 (n - 1)) =? 0).
Definition fls_long (l : Z) : Z := fls l.
Definition __roundup_pow_of_two (n : Z) : Z := u32 (Z.shiftl 1 (fls_long (u32 (n - 1)))).

(** [kmalloc] tells what the allocator returns for the struct; the result is an
    error code or the new FIFO. *)
Definition kfifo_init (kmalloc : bool) (buffer size : Z) : M (Z + kfifo) :=
  BUG_ON (negb (is_power_of_2 size)) ;;
  if kmalloc then mret (inr (Kfifo buffer size 0 0)) else mret (inl (- ENOMEM)).

(** [kmalloc] maps a number of bytes to an address, NULL on failure. *)
Definition kfifo_alloc (kmalloc : Z -> Z) (kmalloc_struct : bool) (size : Z) : M (Z + kfifo) :=
  size ← (if negb (Z.land size (u32 (size - 1)) =? 0) then
            BUG_ON (0x80000000 <? size) ;;
            mret (__roundup_pow_of_two size)
          else mret size);
  let buffer := kmalloc size in
  if buffer =? NULL then mret (inl (- ENOMEM)) else kfifo_init kmalloc_struct buffer size.

(** The number of bytes a put copies, and those up to the end of the buffer. *)
Definition put_len (fifo : kfifo) (len : Z) : Z := Z.min len (u32 (u32 (fsize fifo - fin fifo) + fout fifo)).
Definition first_part (fifo : kfifo) (index len : Z) : Z :=
  Z.min len (fsize fifo - Z.land index (fsize fifo - 1)).

Definition __kfifo_put (fifo : kfifo) (buf len : Z) : M (kfifo * Z) :=
  let len := put_len fifo len in
  let l := first_part fifo (fin fifo) len in
  memcpy (buffer fifo + Z.land (fin fifo) (fsize fifo - 1)) buf l ;;
  memcpy (buffer fifo) (buf + l) (len - l) ;;
  mret (Kfifo (buffer fifo) (fsize fifo) (u32 (fin fifo + len)) (fout fifo), len).

Definition get_len (fifo : kfifo) (len : Z) : Z := Z.min len (u32 (fin fifo - fout fifo)).

Definition __kfifo_get (fifo : kfifo) (buf len : Z) : M (kfifo * Z) :=
  let len := get_len fifo len in
  let l := first_part fifo (fout fifo) len in
  memcpy buf (buffer fifo + Z.land (fout fifo) (fsize fifo - 1)) l ;;
  memcpy (buf + l) (buffer fifo) (len - l) ;;
  mret (Kfifo (buffer fifo) (fsize fifo) (fin fifo) (u32 (fout fifo + len)), len).

Definition __kfifo_reset (fifo : kfifo) : kfifo := Kfifo (buffer fifo) (fsize fifo) 0 0.
Definition __kfifo_len (fifo : kfifo) : Z := u32 (fin fifo - fout fifo).

(** The versions that hold fifo->lock around the call. *)
Definition kfifo_reset (fifo : kfifo) : kfifo := __kfifo_reset fifo.
Definition kfifo_put (fifo : kfifo) (buf len : Z) : M (kfifo * Z) := __kfifo_put fifo buf len.
Definition kfifo_get (fifo : kfifo) (buf len : Z) : M (kfifo * Z) :=
  '(fifo, ret) ← __kfifo_get fifo buf len;
  mret (if fin fifo =? fout fifo then Kfifo (buffer fifo) (fsize fifo) 0 0 else fifo, ret).
Definition kfifo_len (fifo : kfifo) : Z := __kfifo_len fifo.

(** ** The ring *)

Section Ring.
Context (B b : Z) (Hb : 0 <= b <= 31).
Abbreviation size := (2 ^ b).

(** The address of the byte with running number [t]. *)
Definition cell (t : Z) : Z := B + t mod size.

Lemma size_pos : 0 < size <= 2 ^ 31.
Proof using Hb. split; [lia|]. apply Z.pow_le_mono_r; lia. Qed.

Lemma cell_range t : B <= cell t < B + size.
Proof using Hb. pose proof size_pos. unfold cell. pose proof (Z.mod_pos_bound t size). lia. Qed.

(** A wrapped index selects the same cell. *)
Lemma mask_index t : Z.land (u32 t) (size - 1) = t mod size.
Proof using Hb.
  replace (size - 1) with (Z.ones b) by (rewrite Z.ones_equiv; lia). rewrite Z.land_ones by lia. unfold wrap.
  assert (2 ^ 32 = size * 2 ^ (32 - b)) as -> by (rewrite <- Z.pow_add_r by lia; f_equal; lia).
  rewrite Z.rem_mul_r by lia. rewrite (Z.mul_comm size (_ mod _)), Z_mod_plus_full. apply Zmod_mod.
Qed.

(** Within one turn of the ring. *)
Lemma cell_add t i :
  0 <= i < size -> cell (t + i) = if t mod size + i <? size then B + t mod size + i else B + t mod size + i - size.
Proof using Hb.
  intros Hi. pose proof size_pos. unfold cell. pose proof (Z.mod_pos_bound t size ltac:(lia)) as Ht.
  pose proof (Z.div_mod t size ltac:(lia)) as Hdm. destruct (Z.ltb_spec (t mod size + i) size).
  - rewrite <- Z.add_assoc. f_equal. symmetry. apply (Z.mod_unique_pos _ _ (t / size)); lia.
  - rewrite <- Z.add_sub_assoc, <- Z.add_assoc. f_equal.
    replace (t mod size + (i - size)) with (t mod size + i - size) by lia.
    symmetry. apply (Z.mod_unique_pos _ _ (t / size + 1)); lia.
Qed.

Lemma cell_inj t u : cell t = cell u -> - size < t - u < size -> t = u.
Proof using Hb.
  intros H Hd. pose proof size_pos. unfold cell in H.
  pose proof (Z.div_mod t size ltac:(lia)). pose proof (Z.div_mod u size ltac:(lia)).
  assert (t - u = size * (t / size - u / size)) by lia.
  assert (t / size - u / size = 0) by nia. lia.
Qed.

(** [ring_put m t d]: the bytes [d] stored in the cells from running number [t]. *)
Fixpoint ring_put (m : mem) (t : Z) (d : list Z) : mem :=
  match d with
  | [] => m
  | x :: d' => ring_put (<[cell t := x]> m) (t + 1) d'
  end.

Lemma ring_put_app m t d1 d2 :
  ring_put m t (d1 ++ d2) = ring_put (ring_put m t d1) (t + Z.of_nat (length d1)) d2.
Proof using.
  revert m t. induction d1 as [|x d1 IH]; intros m t; simpl; [by rewrite Z.add_0_r|]. rewrite IH. f_equal. lia.
Qed.

Lemma ring_put_snoc m t d x :
  ring_put m t (d ++ [x]) = <[cell (t + Z.of_nat (length d)) := x]> (ring_put m t d).
Proof using. by rewrite ring_put_app. Qed.

Lemma ring_put_out m t d a :
  (forall i, 0 <= i < Z.of_nat (length d) -> a <> cell (t + i)) -> ring_put m t d !! a = m !! a.
Proof using.
  revert m t. induction d as [|x d IH]; intros m t Ha; simpl; [done|]. simpl in Ha.
  rewrite IH, lookup_insert_ne; [done| |].
  - intros E. apply (Ha 0); [lia|]. by rewrite Z.add_0_r.
  - intros i Hi. rewrite <- Z.add_assoc. apply Ha. lia.
Qed.

Lemma ring_put_in m t d i x :
  Z.of_nat (length d) <= size -> d !! i = Some x -> ring_put m t d !! cell (t + Z.of_nat i) = Some x.
Proof using Hb.
  intros Hd Hx. pose proof (lookup_lt_Some _ _ _ Hx).
  rewrite <- (take_drop_middle d i x Hx), ring_put_app. simpl. rewrite length_take, Nat.min_l by lia.
  rewrite ring_put_out, lookup_insert_eq; [done|]. intros j Hj. rewrite length_drop in Hj.
  intros E. apply cell_inj in E; lia.
Qed.

Lemma ring_put_mapped m t d a : is_Some (m !! a) -> is_Some (ring_put m t d !! a).
Proof using.
  revert m t. induction d as [|x d IH]; intros m t Ha; simpl; [done|]. apply IH.
  by apply lookup_insert_is_Some'; right.
Qed.

(** A run of cells that does not pass the end of the buffer is one array. *)
Lemma ring_put_flat m t d :
  t mod size + Z.of_nat (length d) <= size -> ring_put m t d = write m (cell t) d.
Proof using Hb.
  pose proof size_pos. revert m t. induction d as [|x d IH]; intros m t Hd; [done|]. simpl in *.
  destruct d as [|y d]; [done|]. simpl in Hd. pose proof (Z.mod_pos_bound t size ltac:(lia)).
  pose proof (cell_add t 1 ltac:(lia)) as E. rewrite (proj2 (Z.ltb_lt _ _)) in E by lia.
  rewrite IH; [f_equal; unfold cell in *; lia|]. unfold cell in E. simpl. lia.
Qed.

(** The two copies of a put. *)
Lemma ring_put_split m t d :
  Z.of_nat (length d) <= size ->
  let l := Z.to_nat (Z.min (Z.of_nat (length d)) (size - t mod size)) in
  write (write m (cell t) (take l d)) B (drop l d) = ring_put m t d.
Proof using Hb.
  intros Hd l. pose proof size_pos. pose proof (Z.mod_pos_bound t size ltac:(lia)).
  assert (length (take l d) = l) as Hl by (rewrite length_take; lia).
  rewrite <- (take_drop l d) at 3. rewrite ring_put_app, Hl, <- ring_put_flat by lia.
  destruct (decide (drop l d = [])) as [->|Hne]; [done|].
  assert (0 < length (drop l d))%nat by (destruct (drop l d); simpl; [done|lia]). rewrite length_drop in *.
  pose proof (Z.div_mod t size ltac:(lia)).
  assert (cell (t + Z.of_nat l) = B) as E.
  { unfold cell. replace (t + Z.of_nat l) with ((t / size + 1) * size) by lia. rewrite Z_mod_mult. lia. }
  rewrite (ring_put_flat _ (t + _)); [by rewrite E|]. unfold cell in E. rewrite length_drop. lia.
Qed.

(** The cells from [t] on hold [d]. *)
Definition ring (m : mem) (t : Z) (d : list Z) : Prop :=
  forall (i : nat) x, d !! i = Some x -> m !! cell (t + Z.of_nat i) = Some x.

Lemma ring_app m t d1 d2 : ring m t (d1 ++ d2) <-> ring m t d1 /\ ring m (t + Z.of_nat (length d1)) d2.
Proof using.
  split.
  - intros H. split; intros i x Hi.
    + apply H. by apply lookup_app_l_Some.
    + replace (t + _ + _) with (t + Z.of_nat (length d1 + i)) by lia. apply H.
      rewrite lookup_app_r by lia. by replace (length d1 + i - length d1)%nat with i by lia.
  - intros [H1 H2] i x [Hi|[Hi Hx]]%lookup_app_Some; [by apply H1|].
    apply H2 in Hx. by replace (t + _ + _) with (t + Z.of_nat i) in Hx by lia.
Qed.

(** A run that does not pass the end of the buffer, and one that starts there. *)
Lemma ring_flat m t d : t mod size + Z.of_nat (length d) <= size -> ring m t d -> arr m (cell t) d.
Proof using Hb.
  intros Hd H i x Hi. pose proof (lookup_lt_Some _ _ _ Hi). pose proof size_pos.
  pose proof (Z.mod_pos_bound t size ltac:(lia)).
  rewrite <- (H i x Hi). f_equal. rewrite cell_add by lia. rewrite (proj2 (Z.ltb_lt _ _)) by lia. done.
Qed.

Lemma ring_split m t d :
  Z.of_nat (length d) <= size -> ring m t d ->
  let l := Z.to_nat (Z.min (Z.of_nat (length d)) (size - t mod size)) in
  arr m (cell t) (take l d) /\ arr m B (drop l d).
Proof using Hb.
  intros Hd H l. pose proof size_pos. pose proof (Z.mod_pos_bound t size ltac:(lia)).
  assert (length (take l d) = l) as Hl by (rewrite length_take; lia).
  rewrite <- (take_drop l d) in H. apply ring_app in H as [Hr1 Hr2]. rewrite Hl in Hr2.
  split; [apply ring_flat; [lia|done]|].
  destruct (decide (drop l d = [])) as [->|Hne]; [by intros ??|].
  assert (0 < length (drop l d))%nat by (destruct (drop l d); simpl; [done|lia]). rewrite length_drop in *.
  pose proof (Z.div_mod t size ltac:(lia)).
  assert (cell (t + Z.of_nat l) = B) as E.
  { unfold cell. replace (t + Z.of_nat l) with ((t / size + 1) * size) by lia. rewrite Z_mod_mult. lia. }
  rewrite <- E. apply ring_flat; [|done]. unfold cell in E. rewrite length_drop. lia.
Qed.

(** Stores outside the buffer, and stores to other cells, leave a run alone. *)
Lemma ring_write_out m t d q l :
  q + Z.of_nat (length l) <= B \/ B + size <= q -> ring m t d -> ring (write m q l) t d.
Proof using Hb.
  intros Hq H i x Hi. pose proof (cell_range (t + Z.of_nat i)).
  rewrite lookup_write_out by lia. by apply H.
Qed.

Lemma ring_put_ring m t d u e :
  ring m t d -> Z.of_nat (length e) <= size ->
  t + Z.of_nat (length d) <= u -> u + Z.of_nat (length e) <= t + size -> ring (ring_put m u e) t d.
Proof using Hb.
  intros H He Hu Ht i x Hi. pose proof (lookup_lt_Some _ _ _ Hi).
  rewrite ring_put_out; [by apply H|]. intros j Hj E. apply cell_inj in E; lia.
Qed.

Lemma ring_put_self m t d : Z.of_nat (length d) <= size -> ring (ring_put m t d) t d.
Proof using Hb. intros Hd i x Hi. by apply ring_put_in. Qed.
End Ring.

(** ** Powers of two *)

Lemma land_pred_pow2 b : 0 <= b -> Z.land (2 ^ b) (2 ^ b - 1) = 0.
Proof.
  intros Hb. replace (2 ^ b - 1) with (Z.ones b) by (rewrite Z.ones_equiv; lia).
  by rewrite Z.land_ones, Z_mod_same_full by lia.
Qed.

Lemma is_power_of_2_pow b : 0 <= b <= 31 -> is_power_of_2 (2 ^ b) = true.
Proof.
  intros Hb. pose proof (size_pos b Hb). unfold is_power_of_2. rewrite (proj2 (Z.eqb_neq _ _)) by lia.
  rewrite wrap_id by (split; lia). by rewrite land_pred_pow2 by lia.
Qed.


(** ** The routines on a queue *)

Section Queue.
Context (B b : Z) (Hb : 0 <= b <= 31).
Abbreviation size := (2 ^ b).
Abbreviation len l := (Z.of_nat (@length Z l)).

(** [h] is all that was put since the last reset, [o] how many bytes of it were
    taken: the indices are the two counts modulo 2^32 and the buffer holds the rest. *)
Definition fifo_at (m : mem) (fifo : kfifo) (h : list Z) (o : nat) : Prop :=
  fifo = Kfifo B size (u32 (len h)) (u32 (Z.of_nat o)) /\
  (o <= length h)%nat /\ len h <= Z.of_nat o + size /\ mapped m B size /\ ring B b m (Z.of_nat o) (drop o h).

Lemma put_room h o n :
  (o <= length h)%nat -> len h <= Z.of_nat o + size -> 0 <= n ->
  put_len (Kfifo B size (u32 (len h)) (u32 (Z.of_nat o))) n = Z.min n (size - (len h - Z.of_nat o)).
Proof using Hb.
  intros Ho Hh Hn. pose proof (size_pos b Hb). unfold put_len. simpl. f_equal.
  rewrite wrap_add_l, wrap_add_r, Z.add_comm, Z.add_sub_assoc, wrap_sub_r. rewrite wrap_id; [lia|]. split; lia.
Qed.

Lemma get_room h o n :
  (o <= length h)%nat -> len h <= Z.of_nat o + size -> 0 <= n ->
  get_len (Kfifo B size (u32 (len h)) (u32 (Z.of_nat o))) n = Z.min n (len h - Z.of_nat o).
Proof using Hb.
  intros Ho Hh Hn. pose proof (size_pos b Hb). unfold get_len. simpl. f_equal.
  rewrite wrap_sub_l, wrap_sub_r. rewrite wrap_id; [lia|]. split; lia.
Qed.

Lemma first_part_ring fin fout t n :
  first_part (Kfifo B size fin fout) (u32 t) n = Z.min n (size - t mod size).
Proof using Hb. unfold first_part. simpl. by rewrite mask_index. Qed.

(** A caller's area of [n] bytes that is not in the buffer. *)
Definition outside (buf n : Z) : Prop := buf + n <= B \/ B + size <= buf.

(** The two copies of put and of get. *)
Lemma copy_in_ok {A} m t buf d (k : M A) :
  mapped m B size -> arr m buf d -> outside buf (len d) -> len d <= size ->
  (memcpy (B + t mod size) buf (Z.min (len d) (size - t mod size)) ;;
   memcpy B (buf + Z.min (len d) (size - t mod size)) (len d - Z.min (len d) (size - t mod size)) ;; k) m
  = k (ring_put B b m t d).
Proof using Hb.
  intros Hm Hd Hout Hlen. pose proof (size_pos b Hb). pose proof (Z.mod_pos_bound t size ltac:(lia)).
  rewrite <- (ring_put_split B b Hb m t d Hlen). cbv zeta. set (l := Z.to_nat _). unfold cell.
  assert (length (take l d) = l) as Hl by (rewrite length_take; lia).
  assert (length (drop l d) = length d - l)%nat as Hl' by apply length_drop.
  rewrite <- (take_drop l d) in Hd. apply arr_app in Hd as [Ha1 Ha2]. rewrite Hl in Ha2.
  replace (Z.min (len d) (size - t mod size)) with (len (take l d)) by lia. unfold outside in Hout.
  erewrite bind_Ok by (apply memcpy_ok; [done|eapply mapped_sub; [done|lia..]|lia|lia]). rewrite Hl.
  replace (len d - Z.of_nat l) with (len (drop l d)) by lia.
  assert (arr (write m (B + t mod size) (take l d)) (buf + Z.of_nat l) (drop l d))
    by (apply arr_write_disjoint; [lia|done]).
  by erewrite bind_Ok by (apply memcpy_ok; [done|apply mapped_write; eapply mapped_sub; [done|lia..]|lia|lia]).
Qed.

Lemma copy_out_ok {A} m t buf d (k : M A) :
  ring B b m t d -> mapped m buf (len d) -> outside buf (len d) -> len d <= size ->
  (memcpy buf (B + t mod size) (Z.min (len d) (size - t mod size)) ;;
   memcpy (buf + Z.min (len d) (size - t mod size)) B (len d - Z.min (len d) (size - t mod size)) ;; k) m
  = k (write m buf d).
Proof using Hb.
  intros Hr Hm Hout Hlen. pose proof (size_pos b Hb). pose proof (Z.mod_pos_bound t size ltac:(lia)).
  destruct (ring_split B b Hb m t d Hlen Hr) as [Ha1 Ha2]. set (l := Z.to_nat _) in *. unfold cell in *.
  assert (length (take l d) = l) as Hl by (rewrite length_take; lia).
  assert (length (drop l d) = length d - l)%nat as Hl' by apply length_drop.
  replace (Z.min (len d) (size - t mod size)) with (len (take l d)) by lia. unfold outside in Hout.
  erewrite bind_Ok by (apply memcpy_ok; [done|eapply mapped_sub; [done|lia..]|lia|lia]).
  replace (len d - len (take l d)) with (len (drop l d)) by lia.
  assert (arr (write m buf (take l d)) B (drop l d)) by (apply arr_write_disjoint; [lia|done]).
  erewrite bind_Ok by (apply memcpy_ok; [done|apply mapped_write; eapply mapped_sub; [done|lia..]|lia|lia]).
  by rewrite <- write_app, take_drop.
Qed.

Lemma __kfifo_put_ok m fifo h o buf d :
  fifo_at m fifo h o -> arr m buf d -> outside buf (len d) -> len d < 2 ^ 32 ->
  let n := Z.min (len d) (size - (len h - Z.of_nat o)) in
  let e := take (Z.to_nat n) d in
  let m' := ring_put B b m (len h) e in
  exists fifo', __kfifo_put fifo buf (len d) m = Ok ((fifo', n), m') /\ fifo_at m' fifo' (h ++ e) o.
Proof using Hb.
  intros (-> & Ho & Hh & Hm & Hr) Hd Hout Hlen n e m'. pose proof (size_pos b Hb).
  assert (len e = n) as Hn by (unfold e; rewrite length_take; lia). eexists. split.
  - unfold __kfifo_put. rewrite put_room by (done || lia). fold n. cbv zeta.
    cbn [buffer fsize fin fout]. rewrite first_part_ring, mask_index by done. rewrite <- Hn.
    assert (arr m buf e).
    { unfold e. rewrite <- (take_drop (Z.to_nat n) d) in Hd. by apply arr_app in Hd as [Hd _]. }
    rewrite copy_in_ok; [done|done|done| |lia]. unfold outside in *. lia.
  - split; [f_equal; rewrite wrap_add_l, length_app; f_equal; lia|]. rewrite length_app.
    split; [lia|]. split; [lia|]. split; [intros a Ha; apply ring_put_mapped; by apply Hm|].
    rewrite drop_app_le by lia. apply ring_app. rewrite length_drop.
    replace (Z.of_nat o + _) with (len h) by lia. split.
    + apply ring_put_ring; [done|done|lia|rewrite length_drop; lia|lia].
    + apply ring_put_self; [done|lia].
Qed.

Lemma __kfifo_get_ok m fifo h o buf n :
  fifo_at m fifo h o -> 0 <= n < 2 ^ 32 -> mapped m buf n -> outside buf n ->
  let k := Z.min n (len h - Z.of_nat o) in
  let e := take (Z.to_nat k) (drop o h) in
  let m' := write m buf e in
  exists fifo', __kfifo_get fifo buf n m = Ok ((fifo', k), m') /\ fifo_at m' fifo' h (o + Z.to_nat k)%nat.
Proof using Hb.
  intros (-> & Ho & Hh & Hm & Hr) Hn Hbuf Hout k e m'. pose proof (size_pos b Hb).
  assert (len e = k) as Hk by (unfold e; rewrite length_take, length_drop; lia). unfold outside in *.
  rewrite <- (take_drop (Z.to_nat k) (drop o h)) in Hr. apply ring_app in Hr as [Hr1 Hr2]. fold e in Hr1, Hr2.
  eexists. split.
  - unfold __kfifo_get. rewrite get_room by (done || lia). fold k. cbv zeta.
    cbn [buffer fsize fin fout]. rewrite first_part_ring, mask_index by done. rewrite <- Hk.
    rewrite copy_out_ok; [done|done| | |lia].
    + eapply mapped_sub; [done|lia..].
    + unfold outside. lia.
  - split; [f_equal; rewrite wrap_add_l; f_equal; lia|].
    split; [lia|]. split; [lia|]. split; [by apply mapped_write|].
    rewrite Hk in Hr2. rewrite drop_drop in Hr2. replace (Z.of_nat (o + _)) with (Z.of_nat o + k) by lia.
    apply ring_write_out; [done|lia|done].
Qed.

(** The FIFO holds the queue [q]. *)
Definition holds (m : mem) (fifo : kfifo) (q : list Z) : Prop :=
  exists h o, fifo_at m fifo h o /\ q = drop o h.

Lemma kfifo_put_holds m fifo q buf d :
  holds m fifo q -> arr m buf d -> outside buf (len d) -> len d < 2 ^ 32 ->
  let n := Z.min (len d) (size - len q) in
  exists fifo' m', kfifo_put fifo buf (len d) m = Ok ((fifo', n), m') /\
    holds m' fifo' (q ++ take (Z.to_nat n) d) /\ (forall a, a < B \/ B + size <= a -> m' !! a = m !! a).
Proof using Hb.
  intros (h & o & Hf & ->) Hd Hout Hlen n. pose proof Hf as (_ & Ho & _).
  destruct (__kfifo_put_ok m fifo h o buf d) as (fifo' & E & Hf'); [done..|].
  replace (Z.min (len d) (size - (len h - Z.of_nat o))) with n in * by (unfold n; rewrite length_drop; lia).
  do 2 eexists. split; [exact E|]. split; [eexists _, o; split; [exact Hf'|by rewrite drop_app_le by lia]|].
  intros a Ha. apply ring_put_out. intros i Hi. pose proof (cell_range B b Hb (len h + i)). lia.
Qed.

Lemma kfifo_get_holds m fifo q buf n :
  holds m fifo q -> 0 <= n < 2 ^ 32 -> mapped m buf n -> outside buf n ->
  let e := take (Z.to_nat n) q in
  exists fifo', kfifo_get fifo buf n m = Ok ((fifo', len e), write m buf e) /\
    holds (write m buf e) fifo' (drop (Z.to_nat n) q).
Proof using Hb.
  intros (h & o & Hf & ->) Hn Hm Hout e. pose proof (size_pos b Hb). pose proof Hf as (_ & Ho & Hh & _).
  destruct (__kfifo_get_ok m fifo h o buf n) as (fifo' & E & Hf'); [done..|].
  set (k := Z.min n (len h - Z.of_nat o)) in *.
  assert (len e = k) as Hk by (unfold e; rewrite length_take, length_drop; lia).
  assert (take (Z.to_nat k) (drop o h) = e) as He.
  { unfold e. destruct (decide (k = n)) as [->|Hne]; [done|].
    rewrite !take_ge; [done|rewrite length_drop; lia..]. }
  rewrite He in *. unfold kfifo_get. erewrite bind_Ok by exact E. rewrite Hk.
  assert (drop (Z.to_nat n) (drop o h) = drop (o + Z.to_nat k) h) as ->.
  { rewrite drop_drop. destruct (decide (k = n)) as [->|Hne]; [done|]. rewrite !drop_ge by lia. done. }
  pose proof Hf' as (-> & Ho' & Hh' & Hm' & Hr). cbn [fin fout buffer fsize]. eexists. split; [reflexivity|].
  destruct (Z.eqb_spec (u32 (len h)) (u32 (Z.of_nat (o + Z.to_nat k)))) as [Eq|Hne].
  - assert (len h = Z.of_nat (o + Z.to_nat k)) as Hall.
    { assert (u32 (len h - Z.of_nat (o + Z.to_nat k)) = 0) as Ez
        by (rewrite <- wrap_sub_l, Eq, wrap_sub_l, Z.sub_diag; done).
      rewrite wrap_id in Ez by (split; lia). lia. }
    exists [], 0%nat. split; [|rewrite drop_ge by lia; done].
    split; [done|]. split; [done|]. split; [simpl; lia|]. split; [done|]. by intros ??.
  - by exists h, (o + Z.to_nat k)%nat.
Qed.

Lemma kfifo_len_holds m fifo q : holds m fifo q -> kfifo_len fifo = len q.
Proof using Hb.
  intros (h & o & (-> & Ho & Hh & _) & ->). unfold kfifo_len, __kfifo_len. cbn [fin fout].
  pose proof (size_pos b Hb). rewrite wrap_sub_l, wrap_sub_r, wrap_id, length_drop by (split; lia). lia.
Qed.

Lemma kfifo_reset_holds m fifo q : holds m fifo q -> holds m (kfifo_reset fifo) [].
Proof using Hb.
  pose proof (size_pos b Hb). intros (h & o & (-> & _ & _ & Hm & _) & _). exists [], 0%nat. split; [|done].
  split; [done|]. split; [done|]. split; [simpl; lia|]. split; [done|]. by intros ??.
Qed.
End Queue.

(** ** A queue with a bound *)

Inductive request := Put (d : list Z) | Get (n : Z) | Len | Reset.
Inductive answer := Count (n : Z) | Bytes (l : list Z).

(** What a queue of capacity [cap] answers: a put takes what fits, a get returns
    the oldest bytes. *)
Definition queue_step (cap : Z) (q : list Z) (r : request) : list Z * answer :=
  match r with
  | Put d => let n := Z.min (Z.of_nat (length d)) (cap - Z.of_nat (length q)) in
             (q ++ take (Z.to_nat n) d, Count n)
  | Get n => (drop (Z.to_nat n) q, Bytes (take (Z.to_nat n) q))
  | Len => (q, Count (Z.of_nat (length q)))
  | Reset => ([], Count 0)
  end.

Fixpoint queue_run (cap : Z) (q : list Z) (rs : list request) : list answer :=
  match rs with
  | [] => []
  | r :: rs => let '(q, a) := queue_step cap q r in a :: queue_run cap q rs
  end.

(** A client of the FIFO with a buffer at [U]: it fills the buffer before a put and
    reads back, after a get, as many bytes as the call reports. *)
Definition fill (U : Z) (d : list Z) : M unit := fun m => Ok (tt, write m U d).

Fixpoint fetch (n : nat) (U : Z) : M (list Z) :=
  match n with
  | O => mret []
  | S n => x ← load U; l ← fetch n (U + 1); mret (x :: l)
  end.

Definition serve (U : Z) (fifo : kfifo) (r : request) : M (kfifo * answer) :=
  match r with
  | Put d => fill U d ;; '(fifo, n) ← kfifo_put fifo U (Z.of_nat (length d)); mret (fifo, Count n)
  | Get n => '(fifo, n) ← kfifo_get fifo U n; l ← fetch (Z.to_nat n) U; mret (fifo, Bytes l)
  | Len => mret (fifo, Count (kfifo_len fifo))
  | Reset => mret (kfifo_reset fifo, Count 0)
  end.

Fixpoint serve_run (U : Z) (fifo : kfifo) (rs : list request) : M (list answer) :=
  match rs with
  | [] => mret []
  | r :: rs => '(fifo, a) ← serve U fifo r; l ← serve_run U fifo rs; mret (a :: l)
  end.

(** The request fits a client's buffer of [N] bytes. *)
Definition request_fits (N : Z) (r : request) : Prop :=
  match r with
  | Put d => Z.of_nat (length d) <= N
  | Get n => 0 <= n <= N
  | Len | Reset => True
  end.

Lemma fetch_ok m U l : arr m U l -> fetch (length l) U m = Ok (l, m).
Proof.
  revert U. induction l as [|x l IH]; intros U Hl; [done|]. apply arr_cons in Hl as [Hx Hl]. simpl.
  rewrite (bind_load _ _ _ _ Hx). by rewrite (bind_Ok _ _ _ _ _ (IH _ Hl)).
Qed.

Section Client.
Context (B b U N : Z) (Hb : 0 <= b <= 31) (HN : 0 <= N < 2 ^ 32) (Hout : outside B b U N).

Lemma holds_fill m fifo q d :
  holds B b m fifo q -> Z.of_nat (length d) <= N -> holds B b (write m U d) fifo q.
Proof using Hb Hout.
  intros (h & o & (-> & Ho & Hh & Hm & Hr) & ->) Hd. exists h, o. split; [|done].
  split; [done|]. split; [done|]. split; [done|]. split; [by apply mapped_write|].
  apply ring_write_out; [done| |done]. unfold outside in Hout. lia.
Qed.

Lemma serve_ok m fifo q r :
  holds B b m fifo q -> mapped m U N -> request_fits N r ->
  exists fifo' m', serve U fifo r m = Ok ((fifo', (queue_step (2 ^ b) q r).2), m') /\
    holds B b m' fifo' (queue_step (2 ^ b) q r).1 /\ mapped m' U N.
Proof using Hb HN Hout.
  intros Hq Hm Hr. destruct r as [d|n| |]; simpl in *.
  - destruct (kfifo_put_holds B b Hb (write m U d) fifo q U d) as (fifo' & m' & E & Hq' & Hsame).
    + by apply holds_fill.
    + apply write_arr.
    + unfold outside in *. lia.
    + lia.
    + rewrite (bind_Ok (fill U d) _ tt m (write m U d)) by done. rewrite (bind_Ok _ _ _ _ _ E).
      do 2 eexists. split; [reflexivity|]. split; [done|].
      intros a Ha. rewrite Hsame by (unfold outside in *; lia). apply write_mapped. by apply Hm.
  - destruct (kfifo_get_holds B b Hb m fifo q U n) as (fifo' & E & Hq'); [done|lia| | |].
    + eapply mapped_sub; [done|lia..].
    + unfold outside in *. lia.
    + rewrite (bind_Ok _ _ _ _ _ E). cbv beta iota. rewrite Nat2Z.id.
      rewrite (bind_Ok _ _ _ _ _ (fetch_ok _ _ _ (write_arr m U _))).
      do 2 eexists. split; [reflexivity|]. split; [done|]. by apply mapped_write.
  - do 2 eexists. rewrite (kfifo_len_holds _ _ Hb _ _ _ Hq). by split.
  - do 2 eexists. split; [reflexivity|]. split; [|done]. by eapply kfifo_reset_holds.
Qed.

Lemma serve_run_ok m fifo q rs :
  holds B b m fifo q -> mapped m U N -> Forall (request_fits N) rs ->
  exists m', serve_run U fifo rs m = Ok (queue_run (2 ^ b) q rs, m').
Proof using Hb HN Hout.
  intros Hq Hm Hrs. revert m fifo q Hq Hm.
  induction Hrs as [|r rs Hr _ IH]; intros m fifo q Hq Hm; [by eexists|]. cbn [serve_run queue_run].
  destruct (serve_ok m fifo q r) as (fifo' & m1 & E & Hq' & Hm1); [done..|].
  destruct (queue_step (2 ^ b) q r) as [q' a]. destruct (IH m1 fifo' q') as (m2 & E2); [done..|].
  exists m2. rewrite (bind_Ok _ _ _ _ _ E). cbv beta iota. by rewrite (bind_Ok _ _ _ _ _ E2).
Qed.
End Client.

(** C6: a FIFO set up by kfifo_init over a buffer of 2^b bytes answers any sequence
    of kfifo_put, kfifo_get, kfifo_len and kfifo_reset calls as a bounded queue
    does: a put appends as many bytes as there is room for and reports that number,
    a get removes and delivers the oldest bytes, however often the 32-bit indices
    wrap. *)
Theorem kfifo_refines_queue m B b U N rs :
  0 <= b <= 31 -> 0 <= N < 2 ^ 32 -> outside B b U N -> mapped m B (2 ^ b) -> mapped m U N ->
  Forall (request_fits N) rs ->
  exists fifo m', kfifo_init true B (2 ^ b) m = Ok (inr fifo, m) /\
    serve_run U fifo rs m = Ok (queue_run (2 ^ b) [] rs, m').
Proof.
  intros Hb HN Hout Hm HU Hrs. pose proof (size_pos b Hb).
  exists (Kfifo B (2 ^ b) 0 0).
  destruct (serve_run_ok B b U N Hb HN Hout m (Kfifo B (2 ^ b) 0 0) [] rs) as (m' & E); [|done..|].
  - exists [], 0%nat. split; [|done]. split; [done|]. split; [done|]. split; [simpl; lia|].
    split; [done|]. by intros ??.
  - exists m'. split; [|done]. unfold kfifo_init.
    by rewrite is_power_of_2_pow by done.
Qed.

Lemma kfifo_refines_queue_witness :
  exists fifo m', kfifo_init true 16 (2 ^ 2) (memory [(16, [0; 0; 0; 0]); (64, [0; 0; 0; 0])]) =
      Ok (inr fifo, memory [(16, [0; 0; 0; 0]); (64, [0; 0; 0; 0])]) /\
    serve_run 64 fifo [Put [1; 2; 3]; Get 2; Put [4; 5; 6; 7]; Len; Get 4; Len]
      (memory [(16, [0; 0; 0; 0]); (64, [0; 0; 0; 0])]) =
      Ok ([Count 3; Bytes [1; 2]; Count 3; Count 4; Bytes [3; 4; 5; 6]; Count 0], m').
Proof.
  apply (kfifo_refines_queue _ 16 2 64 4 [Put [1; 2; 3]; Get 2; Put [4; 5; 6; 7]; Len; Get 4; Len]).
  - lia.
  - lia.
  - right. vm_compute. discriminate.
  - apply (mapped_b_sound _ _ 4). reflexivity.
  - apply (mapped_b_sound _ _ 4). reflexivity.
  - repeat constructor; simpl; lia.
Defined.

(** ** Allocation *)

(** A number between two powers of two shares its top bit with its predecessor. *)
Lemma land_pred_other n : 0 < n -> 2 ^ Z.log2 n <> n -> Z.land n (n - 1) <> 0.
Proof.
  intros Hn Hne E. destruct (Z.log2_spec n Hn) as [Hlo Hhi].
  assert (Z.log2 (n - 1) = Z.log2 n) as El by (apply Z.log2_unique; [apply Z.log2_nonneg|lia]).
  assert (Z.testbit (Z.land n (n - 1)) (Z.log2 n) = true) as Ht.
  { rewrite Z.land_spec, Z.bit_log2 by done. rewrite <- El. apply Z.bit_log2.
    pose proof (Z.pow_pos_nonneg 2 (Z.log2 n)). pose proof (Z.log2_nonneg n). lia. }
  by rewrite E, Z.testbit_0_l in Ht.
Qed.

Lemma roundup_ok n : 1 < n <= 2 ^ 31 -> __roundup_pow_of_two n = 2 ^ Z.log2_up n.
Proof.
  intros Hn. unfold __roundup_pow_of_two, fls_long. rewrite (wrap_id 32 (n - 1)) by (split; lia).
  rewrite fls_spec by (split; lia). rewrite (proj2 (Z.eqb_neq _ _)) by lia.
  rewrite Z.log2_up_eqn by lia. rewrite <- Z.sub_1_r, Z.add_1_r, Z.shiftl_1_l. apply wrap_id.
  assert (Z.log2 (n - 1) < 31) by (apply Z.log2_lt_pow2; lia). pose proof (Z.log2_nonneg (n - 1)).
  split; [lia|]. apply Z.pow_lt_mono_r; lia.
Qed.

Lemma round_size_ok size (m : mem) :
  0 < size < 2 ^ 32 ->
  (if negb (Z.land size (u32 (size - 1)) =? 0) then
     BUG_ON (0x80000000 <? size) ;; mret (__roundup_pow_of_two size)
   else mret size) m = if size <=? 2 ^ 31 then Ok (2 ^ Z.log2_up size, m) else Fault Bug.
Proof.
  intros Hs. rewrite wrap_id by (split; lia). destruct (Z.eq_dec (2 ^ Z.log2 size) size) as [E|E].
  - pose proof (Z.log2_nonneg size). assert (Z.log2 size < 32) by (apply Z.log2_lt_pow2; lia).
    pose proof (size_pos (Z.log2 size) ltac:(lia)). rewrite <- E, land_pred_pow2, Z.log2_up_pow2 by lia.
    cbn [negb Z.eqb]. by rewrite (proj2 (Z.leb_le _ _)) by lia.
  - pose proof (land_pred_other size ltac:(lia) E) as Hne. rewrite (proj2 (Z.eqb_neq _ _) Hne). cbn [negb].
    destruct (Z.leb_spec size (2 ^ 31)); unfold BUG_ON.
    + rewrite (proj2 (Z.ltb_ge _ _)) by lia. rewrite bind_ret, roundup_ok; [done|].
      assert (size <> 1) by (by intros ->). lia.
    + by rewrite (proj2 (Z.ltb_lt _ _)) by lia.
Qed.

(** Kfifo_alloc of 1 to 2^31 bytes makes an empty FIFO whose size is the least
    power of two that is not smaller, or returns -ENOMEM when either allocation
    fails; a size of 0 and a size above 2^31 stop at one of the two BUG_ONs (0 only
    if the allocator does not refuse it first). *)
Theorem kfifo_alloc_rounds kmalloc kmalloc_struct size m :
  fits 32 size ->
  kfifo_alloc kmalloc kmalloc_struct size m =
    if (1 <=? size) && (size <=? 2 ^ 31) then
      let s := 2 ^ Z.log2_up size in
      if kmalloc s =? NULL then Ok (inl (- ENOMEM), m)
      else if kmalloc_struct then Ok (inr (Kfifo (kmalloc s) s 0 0), m)
      else Ok (inl (- ENOMEM), m)
    else if (size =? 0) && (kmalloc 0 =? NULL) then Ok (inl (- ENOMEM), m)
    else Fault Bug.
Proof.
  intros Hs. unfold fits in Hs. unfold kfifo_alloc. destruct (Z.eqb_spec size 0) as [->|Hne].
  { rewrite Z.land_0_l. cbn [negb Z.eqb]. rewrite bind_ret. cbv zeta. by destruct (kmalloc 0 =? NULL). }
  rewrite (proj2 (Z.leb_le 1 size)) by lia. cbn [andb].
  pose proof (round_size_ok size m ltac:(lia)) as E. destruct (Z.leb_spec size (2 ^ 31)) as [Hle|Hgt].
  - rewrite (bind_Ok _ _ _ _ _ E). cbv zeta. destruct (kmalloc _ =? NULL); [done|]. unfold kfifo_init.
    assert (0 <= Z.log2_up size <= 31).
    { split; [apply Z.log2_up_nonneg|]. apply (Z.log2_up_le_pow2 size 31); lia. }
    rewrite is_power_of_2_pow by done. by destruct kmalloc_struct.
  - by rewrite (bind_Fault _ _ _ _ E).
Qed.

Lemma kfifo_alloc_rounds_witness :
  fits 32 3000 /\
  kfifo_alloc (fun n => 4096) true 3000 (memory []) = Ok (inr (Kfifo 4096 4096 0 0), memory []).
Proof. split; [done|]. rewrite (kfifo_alloc_rounds (fun n => 4096) true 3000); [reflexivity|done]. Defined.

(** ** One reader and one writer without a lock

    The writer samples [out] once, copies byte by byte and then moves [in]; the
    reader samples [in] once, copies byte by byte and then moves [out].  The three
    barriers of the routines are what makes program order the order of these steps;
    between any two of them the other side may take any number of its own. *)

(** The byte stores of a put of [d], and the addresses a get of [n] bytes loads. *)
Definition put_stores (fifo : kfifo) (d : list Z) : list (Z * Z) :=
  let len := put_len fifo (Z.of_nat (length d)) in
  let l := first_part fifo (fin fifo) len in
  zip (seqZ (buffer fifo + Z.land (fin fifo) (fsize fifo - 1)) l ++ seqZ (buffer fifo) (len - l))
      (take (Z.to_nat len) d).

Definition get_loads (fifo : kfifo) (n : Z) : list Z :=
  let len := get_len fifo n in
  let l := first_part fifo (fout fifo) len in
  seqZ (buffer fifo + Z.land (fout fifo) (fsize fifo - 1)) l ++ seqZ (buffer fifo) (len - l).

Inductive wstate := WIdle | WCopy (todo : list (Z * Z)) (accepted : list Z).
Inductive rstate := RIdle | RCopy (todo : list Z) (got : list Z) (n : Z).

(** [sent] and [taken] are the bytes that finished puts accepted and that finished
    gets delivered. *)
Record spsc := Spsc {
  bytes : mem; shared : kfifo; writer : wstate; reader : rstate; sent : list Z; taken : list Z }.

Inductive spsc_step : spsc -> spsc -> Prop :=
  | put_start m f r s t d :
      Z.of_nat (length d) < 2 ^ 32 ->
      spsc_step (Spsc m f WIdle r s t)
        (Spsc m f (WCopy (put_stores f d) (take (Z.to_nat (put_len f (Z.of_nat (length d)))) d)) r s t)
  | put_byte m f a x todo d r s t :
      is_Some (m !! a) ->
      spsc_step (Spsc m f (WCopy ((a, x) :: todo) d) r s t) (Spsc (<[a := x]> m) f (WCopy todo d) r s t)
  | put_end m f d r s t :
      spsc_step (Spsc m f (WCopy [] d) r s t)
        (Spsc m (Kfifo (buffer f) (fsize f) (u32 (fin f + Z.of_nat (length d))) (fout f)) WIdle r (s ++ d) t)
  | get_start m f w s t n :
      0 <= n < 2 ^ 32 ->
      spsc_step (Spsc m f w RIdle s t) (Spsc m f w (RCopy (get_loads f n) [] (get_len f n)) s t)
  | get_byte m f w a x todo got n s t :
      m !! a = Some x ->
      spsc_step (Spsc m f w (RCopy (a :: todo) got n) s t) (Spsc m f w (RCopy todo (got ++ [x]) n) s t)
  | get_end m f w got n s t :
      spsc_step (Spsc m f w (RCopy [] got n) s t)
        (Spsc m (Kfifo (buffer f) (fsize f) (fin f) (u32 (fout f + n))) w RIdle s (t ++ got)).

Section Interleaving.
Context (B b : Z) (Hb : 0 <= b <= 31).
Abbreviation size := (2 ^ b).
Abbreviation len l := (Z.of_nat (@length Z l)).

Fixpoint loads_from (t : Z) (n : nat) : list Z :=
  match n with
  | O => []
  | S n => cell B b t :: loads_from (t + 1) n
  end.

Fixpoint stores_from (t : Z) (d : list Z) : list (Z * Z) :=
  match d with
  | [] => []
  | x :: d => (cell B b t, x) :: stores_from (t + 1) d
  end.

Lemma loads_from_app t n k : loads_from t (n + k) = loads_from t n ++ loads_from (t + Z.of_nat n) k.
Proof using.
  revert t. induction n as [|n IH]; intros t; simpl; [by rewrite Z.add_0_r|]. rewrite IH. do 3 f_equal. lia.
Qed.

Lemma loads_from_flat t n : t mod size + Z.of_nat n <= size -> loads_from t n = seqZ (cell B b t) (Z.of_nat n).
Proof using Hb.
  pose proof (size_pos b Hb). revert t. induction n as [|n IH]; intros t Hn; [done|].
  rewrite seqZ_cons by lia. rewrite Nat2Z.inj_succ, Z.pred_succ. simpl. f_equal.
  destruct n as [|n]; [done|]. pose proof (Z.mod_pos_bound t size ltac:(lia)).
  pose proof (cell_add B b Hb t 1 ltac:(lia)) as E. rewrite (proj2 (Z.ltb_lt _ _)) in E by lia.
  rewrite IH; [f_equal; unfold cell in *; lia|]. unfold cell in E. lia.
Qed.

Lemma ring_addresses t n :
  Z.of_nat n <= size ->
  let l := Z.min (Z.of_nat n) (size - t mod size) in
  seqZ (B + t mod size) l ++ seqZ B (Z.of_nat n - l) = loads_from t n.
Proof using Hb.
  intros Hn l. pose proof (size_pos b Hb). pose proof (Z.mod_pos_bound t size ltac:(lia)).
  replace n with (Z.to_nat l + Z.to_nat (Z.of_nat n - l))%nat at 2 by lia.
  rewrite loads_from_app. rewrite loads_from_flat by lia. rewrite Z2Nat.id by lia. unfold cell. f_equal.
  destruct (decide (Z.of_nat n - l = 0)) as [->|Hne]; [done|]. pose proof (Z.div_mod t size ltac:(lia)).
  assert (cell B b (t + l) = B) as E.
  { unfold cell. replace (t + l) with ((t / size + 1) * size) by lia. rewrite Z_mod_mult. lia. }
  rewrite loads_from_flat; [rewrite E; f_equal; lia|]. unfold cell in E. lia.
Qed.

Lemma zip_stores t d : zip (loads_from t (length d)) d = stores_from t d.
Proof using. revert t. induction d as [|x d IH]; intros t; simpl; [done|]. by rewrite IH. Qed.

Lemma stores_from_put m t d : foldl (fun m '(a, x) => <[a := x]> m) m (stores_from t d) = ring_put B b m t d.
Proof using. revert m t. induction d as [|x d IH]; intros m t; simpl; [done|]. apply IH. Qed.

Lemma put_stores_at h o d :
  (o <= length h)%nat -> len h <= Z.of_nat o + size ->
  let f := Kfifo B size (u32 (len h)) (u32 (Z.of_nat o)) in
  put_stores f d = stores_from (len h) (take (Z.to_nat (put_len f (len d))) d).
Proof using Hb.
  intros Ho Hh. unfold put_stores. cbv zeta. rewrite (put_room B b Hb) by (done || lia).
  set (n := Z.min _ _). cbn [buffer fsize fin fout].
  rewrite (first_part_ring B b Hb), mask_index by done.
  assert (len (take (Z.to_nat n) d) = n) as Hn by (rewrite length_take; lia).
  rewrite <- Hn at 1 2 3. rewrite ring_addresses by lia. apply zip_stores.
Qed.

Lemma get_loads_at h o n :
  (o <= length h)%nat -> len h <= Z.of_nat o + size -> 0 <= n ->
  let f := Kfifo B size (u32 (len h)) (u32 (Z.of_nat o)) in
  get_loads f n = loads_from (Z.of_nat o) (Z.to_nat (get_len f n)).
Proof using Hb.
  intros Ho Hh Hn. unfold get_loads. cbv zeta. rewrite (get_room B b Hb) by (done || lia).
  set (k := Z.min _ _). cbn [buffer fsize fin fout].
  rewrite (first_part_ring B b Hb), mask_index by done.
  replace k with (Z.of_nat (Z.to_nat k)) at 1 2 3 by lia. apply ring_addresses. lia.
Qed.

(** What the writer has stored lies beyond [in] and within the free space it saw;
    what the reader has loaded is the head of the queue. *)
Definition writer_ok (m : mem) (w : wstate) (h : list Z) (room : Z) : Prop :=
  match w with
  | WIdle => 0 <= room
  | WCopy todo d => exists stored more, d = stored ++ more /\ todo = stores_from (len h + len stored) more /\
                      ring B b m (len h) stored /\ len d <= room
  end.

Definition reader_ok (r : rstate) (o : Z) (q : list Z) : Prop :=
  match r with
  | RIdle => True
  | RCopy todo got n => exists more rest, q = got ++ more ++ rest /\
                          todo = loads_from (o + len got) (length more) /\ n = len got + len more
  end.

Definition spsc_inv (c : spsc) : Prop :=
  exists q, sent c = taken c ++ q /\ shared c = Kfifo B size (u32 (len (sent c))) (u32 (len (taken c))) /\
    mapped (bytes c) B size /\ ring B b (bytes c) (len (taken c)) q /\
    writer_ok (bytes c) (writer c) (sent c) (size - len q) /\ reader_ok (reader c) (len (taken c)) q.

Lemma writer_room m w h room : writer_ok m w h room -> 0 <= room.
Proof using. destruct w; simpl; [done|]. intros (?&?&_&_&_&?). lia. Qed.

Lemma writer_more_room m w h room room' : writer_ok m w h room -> room <= room' -> writer_ok m w h room'.
Proof using.
  destruct w; simpl; [lia|]. intros (st & mo & E & Et & Hr & Hl) Hle. exists st, mo. repeat split; (done || lia).
Qed.

Lemma ring_snoc m t d x :
  len d < size -> ring B b m t d -> ring B b (<[cell B b (t + len d) := x]> m) t (d ++ [x]).
Proof using Hb.
  intros Hd Hr. apply ring_app. split.
  - intros i y Hy. pose proof (lookup_lt_Some _ _ _ Hy). rewrite lookup_insert_ne; [by apply Hr|].
    intros E. apply cell_inj in E; lia.
  - intros [|i] y Hy; [|done]. injection Hy as ->. rewrite Z.add_0_r. apply lookup_insert_eq.
Qed.

Lemma ring_insert_beyond m t d k x :
  t + len d <= k < t + size -> ring B b m t d -> ring B b (<[cell B b k := x]> m) t d.
Proof using Hb.
  intros Hk Hr i y Hy. pose proof (lookup_lt_Some _ _ _ Hy). rewrite lookup_insert_ne; [by apply Hr|].
  intros E. apply cell_inj in E; lia.
Qed.

Lemma put_start_inv m f r s t d :
  len d < 2 ^ 32 -> spsc_inv (Spsc m f WIdle r s t) ->
  spsc_inv (Spsc m f (WCopy (put_stores f d) (take (Z.to_nat (put_len f (len d))) d)) r s t).
Proof using Hb.
  intros Hd (q & Es & Ef & Hm & Hq & Hw & Hr). cbn [bytes shared writer reader sent taken] in *.
  subst s. simpl in Hw. assert (len (t ++ q) = len t + len q) as El by (rewrite length_app; lia).
  exists q. cbn [bytes shared writer reader sent taken]. split; [done|]. split; [done|]. split; [done|].
  split; [done|]. split; [|done].
  exists [], (take (Z.to_nat (put_len f (len d))) d). rewrite Ef. split; [done|].
  rewrite put_stores_at by lia. rewrite Z.add_0_r. split; [done|]. split; [by intros ??|].
  rewrite put_room by (done || lia). rewrite length_take. lia.
Qed.

Lemma put_byte_inv m f a x todo d r s t :
  spsc_inv (Spsc m f (WCopy ((a, x) :: todo) d) r s t) -> spsc_inv (Spsc (<[a := x]> m) f (WCopy todo d) r s t).
Proof using Hb.
  intros (q & Es & Ef & Hm & Hq & (st & mo & Ed & Et & Hst & Hl) & Hr).
  cbn [bytes shared writer reader sent taken] in *. destruct mo as [|y mo]; [done|]. simpl in Et.
  injection Et as -> -> ->. subst d. rewrite length_app in Hl. simpl in Hl.
  assert (len s = len t + len q) as El by (rewrite Es, length_app; lia).
  exists q. cbn [bytes shared writer reader sent taken]. split; [done|]. split; [done|].
  split; [by apply mapped_insert|]. split; [apply ring_insert_beyond; [lia|done]|]. split; [|done].
  exists (st ++ [y]), mo. split; [by rewrite <- app_assoc|]. rewrite !length_app. simpl.
  split; [f_equal; lia|]. split; [apply ring_snoc; [lia|done]|]. lia.
Qed.

Lemma put_end_inv m f d r s t :
  spsc_inv (Spsc m f (WCopy [] d) r s t) ->
  spsc_inv (Spsc m (Kfifo (buffer f) (fsize f) (u32 (fin f + len d)) (fout f)) WIdle r (s ++ d) t).
Proof using Hb.
  intros (q & Es & Ef & Hm & Hq & (st & mo & Ed & Et & Hst & Hl) & Hr).
  cbn [bytes shared writer reader sent taken] in *. destruct mo as [|y mo]; [|done]. rewrite app_nil_r in Ed. subst d s f.
  exists (q ++ st). cbn [bytes shared writer reader sent taken buffer fsize fin fout]. split; [by rewrite app_assoc|].
  split; [f_equal; rewrite wrap_add_l; f_equal; rewrite !length_app; lia|]. split; [done|].
  split; [apply ring_app; split; [done|]; rewrite length_app in Hst; by rewrite Nat2Z.inj_add in Hst|].
  split; [simpl; rewrite length_app; lia|].
  destruct r as [|todo got n]; [done|]. destruct Hr as (mo & re & -> & Er & En).
  exists mo, (re ++ st). split; [by rewrite <- !app_assoc|]. done.
Qed.

Lemma get_start_inv m f w s t n :
  0 <= n < 2 ^ 32 -> spsc_inv (Spsc m f w RIdle s t) ->
  spsc_inv (Spsc m f w (RCopy (get_loads f n) [] (get_len f n)) s t).
Proof using Hb.
  intros Hn (q & Es & Ef & Hm & Hq & Hw & _). cbn [bytes shared writer reader sent taken] in *.
  pose proof (writer_room _ _ _ _ Hw). subst s.
  assert (len (t ++ q) = len t + len q) as El by (rewrite length_app; lia).
  exists q. cbn [bytes shared writer reader sent taken]. split; [done|]. split; [done|]. split; [done|].
  split; [done|]. split; [done|]. rewrite Ef, get_loads_at, get_room by (done || lia).
  set (k := Z.min _ _). exists (take (Z.to_nat k) q), (drop (Z.to_nat k) q). simpl. rewrite Z.add_0_r.
  rewrite take_drop, length_take. split; [done|]. split; [f_equal; lia|lia].
Qed.

Lemma get_byte_inv m f w a x todo got n s t :
  m !! a = Some x -> spsc_inv (Spsc m f w (RCopy (a :: todo) got n) s t) ->
  spsc_inv (Spsc m f w (RCopy todo (got ++ [x]) n) s t).
Proof using Hb.
  intros Hx (q & Es & Ef & Hm & Hq & Hw & (mo & re & Eq & Et & En)).
  cbn [bytes shared writer reader sent taken] in *. destruct mo as [|y mo]; [done|]. injection Et as -> ->. simpl in En.
  assert (y = x) as ->.
  { assert (q !! length got = Some y) as Hy by (subst q; by rewrite lookup_app_r, Nat.sub_diag).
    apply Hq in Hy. by simplify_eq. }
  exists q. cbn [bytes shared writer reader sent taken]. split; [done|]. split; [done|]. split; [done|].
  split; [done|]. split; [done|]. exists mo, re. rewrite length_app. simpl.
  split; [by rewrite Eq, <- app_assoc|]. split; [f_equal; lia|lia].
Qed.

Lemma get_end_inv m f w got n s t :
  spsc_inv (Spsc m f w (RCopy [] got n) s t) ->
  spsc_inv (Spsc m (Kfifo (buffer f) (fsize f) (fin f) (u32 (fout f + n))) w RIdle s (t ++ got)).
Proof using Hb.
  intros (q & Es & Ef & Hm & Hq & Hw & (mo & re & Eq & Et & En)).
  cbn [bytes shared writer reader sent taken] in *. destruct mo as [|y mo]; [|done]. simpl in *. subst f n q.
  apply ring_app in Hq as [_ Hq]. rewrite length_app in Hw.
  exists re. cbn [bytes shared writer reader sent taken buffer fsize fin fout]. split; [by rewrite Es, app_assoc|].
  rewrite length_app. split; [f_equal; rewrite wrap_add_l; f_equal; lia|]. split; [done|].
  split; [by rewrite Nat2Z.inj_add|]. split; [|done]. eapply writer_more_room; [done|lia].
Qed.

Lemma spsc_step_inv c c' : spsc_inv c -> spsc_step c c' -> spsc_inv c'.
Proof using Hb.
  intros Hc Hs. destruct Hs; [by apply put_start_inv|by eapply put_byte_inv|by apply put_end_inv
    |by apply get_start_inv|by eapply get_byte_inv|by apply get_end_inv].
Qed.

Lemma spsc_reachable_inv c c' : spsc_inv c -> rtc spsc_step c c' -> spsc_inv c'.
Proof using Hb. intros Hc Hr. induction Hr as [|c1 c2 c3 Hs _ IH]; [done|]. apply IH. by eapply spsc_step_inv. Qed.

Lemma spsc_init_inv m : mapped m B size -> spsc_inv (Spsc m (Kfifo B size 0 0) WIdle RIdle [] []).
Proof using Hb.
  intros Hm. exists []. pose proof (size_pos b Hb). split; [done|]. split; [done|]. split; [done|].
  split; [by intros ??|]. split; [simpl; lia|done].
Qed.
End Interleaving.

Definition busy_writer (w : wstate) : Prop := match w with WIdle => False | WCopy _ _ => True end.
Definition busy_reader (r : rstate) : Prop := match r with RIdle => False | RCopy _ _ _ => True end.
Definition in_hand (r : rstate) : list Z := match r with RIdle => [] | RCopy _ got _ => got end.

(** C5: with one reader and one writer that use __kfifo_get and __kfifo_put without
    a lock, and every interleaving of their byte copies and index updates, the bytes
    delivered, and those a get under way has copied so far, are a prefix of the bytes
    accepted, in order; never more than the size of the buffer are in flight; and
    neither side is ever stuck: the loads and stores of a call under way succeed. *)
Theorem kfifo_lock_free m B b c :
  0 <= b <= 31 -> mapped m B (2 ^ b) ->
  rtc spsc_step (Spsc m (Kfifo B (2 ^ b) 0 0) WIdle RIdle [] []) c ->
  (taken c ++ in_hand (reader c)) `prefix_of` sent c /\
  Z.of_nat (length (sent c)) <= Z.of_nat (length (taken c)) + 2 ^ b /\
  (busy_writer (writer c) -> exists c', spsc_step c c' /\ reader c' = reader c /\ writer c' <> writer c) /\
  (busy_reader (reader c) -> exists c', spsc_step c c' /\ writer c' = writer c /\ reader c' <> reader c).
Proof.
  intros Hb Hm Hr. pose proof (spsc_reachable_inv B b Hb _ _ (spsc_init_inv B b Hb m Hm) Hr) as (q & Es & Ef & Hm' & Hq & Hw & Hrd).
  pose proof (writer_room _ _ _ _ _ _ Hw). destruct c as [n f w r s t].
  cbn [bytes shared writer reader sent taken] in *. subst s. split; [|split; [rewrite length_app; lia|split]].
  - destruct r as [|todo got k]; simpl; [rewrite app_nil_r; by eexists|].
    destruct Hrd as (mo & re & -> & _). exists (mo ++ re). by rewrite !app_assoc.
  - destruct w as [|todo d]; [done|]. intros _. destruct todo as [|[a x] todo].
    + eexists. split; [apply put_end|]. done.
    + destruct Hw as (st & mo & -> & Et & _). destruct mo as [|y mo]; [done|]. injection Et as -> -> ->.
      eexists. split; [apply put_byte; apply Hm'; apply cell_range; done|]. split; [done|].
      cbn [writer]. intros E. injection E as E. apply (f_equal length) in E. simpl in E. lia.
  - destruct r as [|todo got k]; [done|]. intros _. destruct todo as [|a todo].
    + eexists. split; [apply get_end|]. done.
    + destruct Hrd as (mo & re & -> & Et & _). destruct mo as [|y mo]; [done|]. injection Et as -> ->.
      eexists. split; [apply get_byte; apply (Hq (length got) y); by rewrite lookup_app_r, Nat.sub_diag|].
      split; [done|]. cbn [reader]. intros E. injection E as E. apply (f_equal length) in E. simpl in E. lia.
Qed.

Lemma kfifo_lock_free_witness :
  let m := memory [(16, [0; 0])] in
  let c := Spsc (<[16 := 7]> m) (Kfifo 16 (2 ^ 1) 1 0) WIdle (RCopy [] [7] 1) [7] [] in
  (taken c ++ in_hand (reader c)) `prefix_of` sent c /\
  exists c', spsc_step c c' /\ writer c' = writer c /\ reader c' <> reader c.
Proof.
  intros m c.
  assert (rtc spsc_step (Spsc m (Kfifo 16 (2 ^ 1) 0 0) WIdle RIdle [] []) c) as Hr.
  { eapply rtc_l; [apply (put_start _ _ _ _ _ [7]); done|].
    eapply rtc_l; [apply put_byte; by eexists|]. eapply rtc_l; [apply put_end|].
    eapply rtc_l; [apply (get_start _ _ _ _ _ 5); lia|]. eapply rtc_l; [by apply get_byte|]. apply rtc_refl. }
  destruct (kfifo_lock_free m 16 1 c ltac:(lia) (mapped_b_sound m 16 2 eq_refl) Hr) as (Hp & _ & _ & Hg).
  exact (conj Hp (Hg I)).
Defined.

(** ** The steps are those of the calls *)

Lemma put_bytes_run B b m f t more d r s k :
  mapped m B (2 ^ b) -> 0 <= b <= 31 ->
  rtc spsc_step (Spsc m f (WCopy (stores_from B b t more) d) r s k)
    (Spsc (ring_put B b m t more) f (WCopy [] d) r s k).
Proof.
  intros Hm Hb. revert m t Hm. induction more as [|x more IH]; intros m t Hm; [done|]. simpl.
  eapply rtc_l; [apply put_byte; apply Hm; by apply cell_range|]. apply IH. by apply mapped_insert.
Qed.

Lemma get_bytes_run B b m f w t e got n s k :
  ring B b m t e ->
  rtc spsc_step (Spsc m f w (RCopy (loads_from B b t (length e)) got n) s k)
    (Spsc m f w (RCopy [] (got ++ e) n) s k).
Proof.
  revert t got. induction e as [|x e IH]; intros t got Hr; simpl; [by rewrite app_nil_r|].
  apply (ring_app _ _ _ _ [x]) in Hr as [Hx Hr]. eapply rtc_l.
  - apply get_byte. rewrite <- (Z.add_0_r t). by apply (Hx 0%nat).
  - rewrite (cons_middle x got e), app_assoc. by apply IH.
Qed.

(** The steps of the lock-free transition system are those of the code: run
    without interference, the writer's steps for a put of [d] end in exactly the
    memory, FIFO and count that __kfifo_put returns, and the reader's steps for a
    get of [n] bytes collect exactly the bytes that __kfifo_get copies out. *)
Theorem kfifo_steps_are_calls m B b fifo h o buf d n w r s t :
  0 <= b <= 31 -> fifo_at B b m fifo h o ->
  arr m buf d -> outside B b buf (Z.of_nat (length d)) -> Z.of_nat (length d) < 2 ^ 32 ->
  0 <= n <= Z.of_nat (length d) ->
  (exists fifo' k m', __kfifo_put fifo buf (Z.of_nat (length d)) m = Ok ((fifo', k), m') /\
     rtc spsc_step (Spsc m fifo WIdle r s t) (Spsc m' fifo' WIdle r (s ++ take (Z.to_nat k) d) t)) /\
  (exists fifo' k e, __kfifo_get fifo buf n m = Ok ((fifo', k), write m buf e) /\ k = Z.of_nat (length e) /\
     rtc spsc_step (Spsc m fifo w RIdle s t) (Spsc m fifo' w RIdle s (t ++ e))).
Proof.
  intros Hb Hf Hd Hout Hl Hn. pose proof Hf as (-> & Ho & Hh & Hm & Hr). split.
  - destruct (__kfifo_put_ok B b Hb _ _ _ _ _ _ Hf Hd Hout Hl) as (fifo' & E & Hf').
    set (k := Z.min _ _) in *. exists fifo', k. eexists. split; [exact E|].
    eapply rtc_l; [by apply (put_start _ _ _ _ _ d)|]. rewrite put_stores_at, put_room by (done || lia).
    fold k. etrans; [by apply put_bytes_run|].
    assert (Z.of_nat (length (take (Z.to_nat k) d)) = k) as Hk by (rewrite length_take; lia).
    destruct Hf' as (-> & _). eapply rtc_l; [apply put_end|]. cbn [buffer fsize fin fout].
    rewrite wrap_add_l, length_app, Nat2Z.inj_add. apply rtc_refl.
  - destruct (__kfifo_get_ok B b Hb m _ h o buf n Hf) as (fifo' & E & Hf'); [lia| | |].
    + eapply mapped_sub; [by apply arr_mapped|lia..].
    + unfold outside in *. lia.
    + set (k := Z.min _ _) in *. set (e := take _ _) in *. exists fifo', k, e. split; [exact E|].
      assert (Z.of_nat (length e) = k) as Hk by (unfold e; rewrite length_take, length_drop; lia).
      split; [done|]. eapply rtc_l; [apply (get_start _ _ _ _ _ n); lia|].
      rewrite get_loads_at, get_room by (done || lia). fold k. rewrite <- Hk, Nat2Z.id.
      rewrite <- (take_drop (Z.to_nat k) (drop o h)) in Hr. apply ring_app in Hr as [Hr _]. fold e in Hr.
      etrans; [by apply get_bytes_run|]. simpl.
      destruct Hf' as (-> & _). eapply rtc_l; [apply get_end|]. cbn [buffer fsize fin fout].
      rewrite wrap_add_l, Hk, Nat2Z.inj_add, Z2Nat.id by lia. apply rtc_refl.
Qed.

Lemma kfifo_steps_are_calls_witness :
  let m := memory [(16, [0; 0]); (32, [5; 6; 7])] in
  exists fifo' k m', __kfifo_put (Kfifo 16 (2 ^ 1) 0 0) 32 3 m = Ok ((fifo', k), m') /\
    rtc spsc_step (Spsc m (Kfifo 16 (2 ^ 1) 0 0) WIdle RIdle [] [])
      (Spsc m' fifo' WIdle RIdle (take (Z.to_nat k) [5; 6; 7]) []).
Proof.
  intros m. destruct (kfifo_steps_are_calls m 16 1 (Kfifo 16 (2 ^ 1) 0 0) [] 0 32 [5; 6; 7] 0 WIdle RIdle [] [])
    as [H _].
  - lia.
  - split; [done|]. split; [done|]. split; [simpl; lia|]. split; [by apply (mapped_b_sound m 16 2)|by intros ??].
  - by apply arr_b_sound.
  - right. vm_compute. discriminate.
  - done.
  - simpl. lia.
  - exact H.
Defined.
