(* ===== verification/Bitmap.v ===== *)
(** * Bitmaps

    lib/bitmap.c and the inline routines of include/linux/bitmap.h it uses: sets
    of bit positions stored in arrays of unsigned longs.  Sizes and positions
    are C ints; the theorems take them non-negative and within the range where
    the int arithmetic of the code does not overflow.  The memory is that of
    [Prelude], one cell per long, so bitmaps may overlap. *)

From S2P Require Import Prelude Bitops.

#[local] Arguments loop : simpl never.

Definition ERANGE : Z := 34.
Definition EOVERFLOW : Z := 75.

Definition BITMAP_LAST_WORD_MASK (nbits : Z) : Z :=
  if negb (nbits mod BITS_PER_LONG =? 0) then u32 (u32 (Z.shiftl 1 (nbits mod BITS_PER_LONG)) - 1)
  else ALL_ONES.

(** memset of [n] longs with a byte pattern that makes each long [v]. *)
Definition memset_longs (dst v n : Z) : M unit := for_up 0 n (fun k => store (dst + k) v).

Definition bitmap_zero (dst nbits : Z) : M unit := memset_longs dst 0 (BITS_TO_LONGS nbits).

Definition bitmap_fill (dst nbits : Z) : M unit :=
  let nlongs := BITS_TO_LONGS nbits in
  memset_longs dst ALL_ONES (nlongs - 1) ;;
  store (dst + (nlongs - 1)) (BITMAP_LAST_WORD_MASK nbits).

Definition bitmap_copy (dst src nbits : Z) : M unit :=
  for_up 0 (BITS_TO_LONGS nbits) (fun k => w ← load (src + k); store (dst + k) w).

(** ** Tests *)

Definition __bitmap_empty (bitmap bits : Z) : M Z :=
  let lim := bits / BITS_PER_LONG in
  or_else (for_loop 0 lim (fun k =>
    w ← load (bitmap + k);
    mret (if negb (w =? 0) then Some 0 else None)))
  (if negb (bits mod BITS_PER_LONG =? 0) then
     w ← load (bitmap + lim);
     mret (if negb (Z.land w (BITMAP_LAST_WORD_MASK bits) =? 0) then 0 else 1)
   else mret 1).

Definition __bitmap_full (bitmap bits : Z) : M Z :=
  let lim := bits / BITS_PER_LONG in
  or_else (for_loop 0 lim (fun k =>
    w ← load (bitmap + k);
    mret (if negb (not32 w =? 0) then Some 0 else None)))
  (if negb (bits mod BITS_PER_LONG =? 0) then
     w ← load (bitmap + lim);
     mret (if negb (Z.land (not32 w) (BITMAP_LAST_WORD_MASK bits) =? 0) then 0 else 1)
   else mret 1).

Definition __bitmap_equal (bitmap1 bitmap2 bits : Z) : M Z :=
  let lim := bits / BITS_PER_LONG in
  or_else (for_loop 0 lim (fun k =>
    w1 ← load (bitmap1 + k);
    w2 ← load (bitmap2 + k);
    mret (if negb (w1 =? w2) then Some 0 else None)))
  (if negb (bits mod BITS_PER_LONG =? 0) then
     w1 ← load (bitmap1 + lim);
     w2 ← load (bitmap2 + lim);
     mret (if negb (Z.land (Z.lxor w1 w2) (BITMAP_LAST_WORD_MASK bits) =? 0) then 0 else 1)
   else mret 1).

Definition __bitmap_intersects (bitmap1 bitmap2 bits : Z) : M Z :=
  let lim := bits / BITS_PER_LONG in
  or_else (for_loop 0 lim (fun k =>
    w1 ← load (bitmap1 + k);
    w2 ← load (bitmap2 + k);
    mret (if negb (Z.land w1 w2 =? 0) then Some 1 else None)))
  (if negb (bits mod BITS_PER_LONG =? 0) then
     w1 ← load (bitmap1 + lim);
     w2 ← load (bitmap2 + lim);
     mret (if negb (Z.land (Z.land w1 w2) (BITMAP_LAST_WORD_MASK bits) =? 0) then 1 else 0)
   else mret 0).

Definition __bitmap_subset (bitmap1 bitmap2 bits : Z) : M Z :=
  let lim := bits / BITS_PER_LONG in
  or_else (for_loop 0 lim (fun k =>
    w1 ← load (bitmap1 + k);
    w2 ← load (bitmap2 + k);
    mret (if negb (Z.land w1 (not32 w2) =? 0) then Some 0 else None)))
  (if negb (bits mod BITS_PER_LONG =? 0) then
     w1 ← load (bitmap1 + lim);
     w2 ← load (bitmap2 + lim);
     mret (if negb (Z.land (Z.land w1 (not32 w2)) (BITMAP_LAST_WORD_MASK bits) =? 0) then 0 else 1)
   else mret 1).

(** ** Word by word operations *)

Definition __bitmap_complement (dst src bits : Z) : M unit :=
  let lim := bits / BITS_PER_LONG in
  for_up 0 lim (fun k => w ← load (src + k); store (dst + k) (not32 w)) ;;
  if negb (bits mod BITS_PER_LONG =? 0) then
    w ← load (src + lim);
    store (dst + lim) (Z.land (not32 w) (BITMAP_LAST_WORD_MASK bits))
  else mret tt.

Definition __bitmap_and (dst bitmap1 bitmap2 bits : Z) : M unit :=
  for_up 0 (BITS_TO_LONGS bits) (fun k =>
    w1 ← load (bitmap1 + k);
    w2 ← load (bitmap2 + k);
    store (dst + k) (Z.land w1 w2)).

Definition __bitmap_or (dst bitmap1 bitmap2 bits : Z) : M unit :=
  for_up 0 (BITS_TO_LONGS bits) (fun k =>
    w1 ← load (bitmap1 + k);
    w2 ← load (bitmap2 + k);
    store (dst + k) (Z.lor w1 w2)).

Definition __bitmap_xor (dst bitmap1 bitmap2 bits : Z) : M unit :=
  for_up 0 (BITS_TO_LONGS bits) (fun k =>
    w1 ← load (bitmap1 + k);
    w2 ← load (bitmap2 + k);
    store (dst + k) (Z.lxor w1 w2)).

Definition __bitmap_andnot (dst bitmap1 bitmap2 bits : Z) : M unit :=
  for_up 0 (BITS_TO_LONGS bits) (fun k =>
    w1 ← load (bitmap1 + k);
    w2 ← load (bitmap2 + k);
    store (dst + k) (Z.land w1 (not32 w2))).

Definition __bitmap_weight (bitmap bits : Z) : M Z :=
  let lim := bits / BITS_PER_LONG in
  w ← loop (S (Z.to_nat lim)) (fun '(k, w) =>
    if k <? lim then
      x ← load (bitmap + k);
      continue (k + 1, w + hweight_long x)
    else break w) (0, 0);
  if negb (bits mod BITS_PER_LONG =? 0) then
    x ← load (bitmap + lim);
    mret (w + hweight_long (Z.land x (BITMAP_LAST_WORD_MASK bits)))
  else mret w.

(** cpu_to_le32 is the identity on a little-endian processor. *)
Definition bitmap_copy_le (dst src nbits : Z) : M unit :=
  for_up 0 (nbits / BITS_PER_LONG) (fun i => w ← load (src + i); store (dst + i) w).

(** ** Shifts *)

Definition __bitmap_shift_right (dst src shift bits : Z) : M unit :=
  let lim := BITS_TO_LONGS bits in
  let left := bits mod BITS_PER_LONG in
  let off := shift / BITS_PER_LONG in
  let rem := shift mod BITS_PER_LONG in
  let mask := u32 (u32 (Z.shiftl 1 left) - 1) in
  for_up 0 (lim - off) (fun k =>
    upper ← (if (rem =? 0) || (lim <=? off + k + 1) then mret 0 else
             upper ← load (src + (off + k + 1));
             if (off + k + 1 =? lim - 1) && negb (left =? 0) then mret (Z.land upper mask)
             else mret upper);
    lower ← load (src + (off + k));
    let lower := if negb (left =? 0) && (off + k =? lim - 1) then Z.land lower mask else lower in
    store (dst + k) (Z.lor (u32 (Z.shiftl upper (BITS_PER_LONG - rem))) (Z.shiftr lower rem)) ;;
    if negb (left =? 0) && (k =? lim - 1) then
      w ← load (dst + k);
      store (dst + k) (Z.land w mask)
    else mret tt) ;;
  if negb (off =? 0) then memset_longs (dst + (lim - off)) 0 off else mret tt.

Definition __bitmap_shift_left (dst src shift bits : Z) : M unit :=
  let lim := BITS_TO_LONGS bits in
  let left := bits mod BITS_PER_LONG in
  let off := shift / BITS_PER_LONG in
  let rem := shift mod BITS_PER_LONG in
  let mask := u32 (u32 (Z.shiftl 1 left) - 1) in
  for_down (lim - off - 1) 0 (fun k =>
    lower ← (if negb (rem =? 0) && (0 <? k) then load (src + (k - 1)) else mret 0);
    upper ← load (src + k);
    let upper := if negb (left =? 0) && (k =? lim - 1) then Z.land upper mask else upper in
    store (dst + (k + off)) (Z.lor (Z.shiftr lower (BITS_PER_LONG - rem)) (u32 (Z.shiftl upper rem))) ;;
    if negb (left =? 0) && (k + off =? lim - 1) then
      w ← load (dst + (k + off));
      store (dst + (k + off)) (Z.land w mask)
    else mret tt) ;;
  if negb (off =? 0) then memset_longs dst 0 off else mret tt.

(** ** Ordinals of set bits *)

Definition bitmap_pos_to_ord (buf pos bits : Z) : M Z :=
  if (pos <? 0) || (bits <=? pos) then mret (-1) else
  t ← test_bit pos buf;
  if t =? 0 then mret (-1) else
  i ← find_first_bit buf bits;
  '(i, ord) ← loop (S (Z.to_nat pos)) (fun '(i, ord) =>
    if i <? pos then
      i ← find_next_bit buf bits (i + 1);
      continue (i, ord + 1)
    else break (i, ord)) (i, 0);
  BUG_ON (negb (i =? pos)) ;;
  mret ord.

Definition bitmap_ord_to_pos (buf ord bits : Z) : M Z :=
  let pos := 0 in
  if (0 <=? ord) && (ord <? bits) then
    i ← find_first_bit buf bits;
    '(i, ord) ← loop (S (Z.to_nat ord)) (fun '(i, ord) =>
      if (i <? bits) && (0 <? ord) then
        i ← find_next_bit buf bits (i + 1);
        continue (i, ord - 1)
      else break (i, ord)) (i, ord);
    if (i <? bits) && (ord =? 0) then mret i else mret pos
  else mret pos.

(** [for (i = find_first_bit(...); i < bits; i = find_next_bit(..., i + 1)) body] *)
Definition for_each_bit (buf bits : Z) (body : Z -> M unit) : M unit :=
  i ← find_first_bit buf bits;
  loop (S (Z.to_nat bits)) (fun i =>
    if i <? bits then
      body i ;;
      i ← find_next_bit buf bits (i + 1);
      continue i
    else break tt) i.

Definition bitmap_remap (dst src old new bits : Z) : M unit :=
  if dst =? src then mret tt else
  bitmap_zero dst bits ;;
  w ← __bitmap_weight new bits;
  for_each_bit src bits (fun oldbit =>
    n ← bitmap_pos_to_ord old oldbit bits;
    if (n <? 0) || (w =? 0) then __set_bit oldbit dst
    else pos ← bitmap_ord_to_pos new (n mod w) bits; __set_bit pos dst).

Definition bitmap_bitremap (oldbit old new bits : Z) : M Z :=
  w ← __bitmap_weight new bits;
  n ← bitmap_pos_to_ord old oldbit bits;
  if (n <? 0) || (w =? 0) then mret oldbit
  else bitmap_ord_to_pos new (n mod w) bits.

Definition bitmap_onto (dst orig relmap bits : Z) : M unit :=
  if dst =? orig then mret tt else
  bitmap_zero dst bits ;;
  n ← find_first_bit relmap bits;
  loop (S (Z.to_nat bits)) (fun '(n, m) =>
    if n <? bits then
      t ← test_bit m orig;
      (if negb (t =? 0) then __set_bit n dst else mret tt) ;;
      n ← find_next_bit relmap bits (n + 1);
      continue (n, m + 1)
    else break tt) (n, 0).

Definition bitmap_fold (dst orig sz bits : Z) : M unit :=
  if dst =? orig then mret tt else
  bitmap_zero dst bits ;;
  for_each_bit orig bits (fun oldbit => __set_bit (oldbit mod sz) dst).

(** ** Regions *)

Inductive reg_op := REG_OP_ISFREE | REG_OP_ALLOC | REG_OP_RELEASE.

Definition __reg_op (bitmap pos order : Z) (op : reg_op) : M Z :=
  let nbits_reg := Z.shiftl 1 order in
  let index := pos / BITS_PER_LONG in
  let offset := pos - index * BITS_PER_LONG in
  let nlongs_reg := BITS_TO_LONGS nbits_reg in
  let nbitsinlong := Z.min nbits_reg BITS_PER_LONG in
  let mask := u32 (Z.shiftl 1 (nbitsinlong - 1)) in
  let mask := u32 (mask + (mask - 1)) in
  let mask := u32 (Z.shiftl mask offset) in
  match op with
  | REG_OP_ISFREE =>
      or_else (for_loop 0 nlongs_reg (fun i =>
        w ← load (bitmap + (index + i));
        mret (if negb (Z.land w mask =? 0) then Some 0 else None)))
      (mret 1)
  | REG_OP_ALLOC =>
      for_up 0 nlongs_reg (fun i =>
        w ← load (bitmap + (index + i));
        store (bitmap + (index + i)) (Z.lor w mask)) ;;
      mret 0
  | REG_OP_RELEASE =>
      for_up 0 nlongs_reg (fun i =>
        w ← load (bitmap + (index + i));
        store (bitmap + (index + i)) (Z.land w (not32 mask))) ;;
      mret 0
  end.

Definition bitmap_find_free_region (bitmap bits order : Z) : M Z :=
  loop (S (Z.to_nat bits)) (fun pos =>
    let stop := pos + Z.shiftl 1 order in
    if stop <=? bits then
      free ← __reg_op bitmap pos order REG_OP_ISFREE;
      if free =? 0 then continue stop else
      __reg_op bitmap pos order REG_OP_ALLOC ;;
      break pos
    else break (- ENOMEM)) 0.

Definition bitmap_release_region (bitmap pos order : Z) : M unit :=
  __reg_op bitmap pos order REG_OP_RELEASE ;; mret tt.

Definition bitmap_allocate_region (bitmap pos order : Z) : M Z :=
  free ← __reg_op bitmap pos order REG_OP_ISFREE;
  if free =? 0 then mret (- EBUSY) else
  __reg_op bitmap pos order REG_OP_ALLOC ;;
  mret 0.

(** ** What a routine that fills a bitmap promises *)

(** [m'] is [m] except that the [n] longs at [dst] now hold the bits [f]. *)
Definition holds (m m' : mem) (dst n : Z) (f : Z -> bool) : Prop :=
  (forall i, 0 <= i < 32 * n -> bit m' dst i = f i) /\
  longs m' dst n /\
  (forall a, a < dst \/ dst + n <= a -> m' !! a = m !! a).

(** Reading [src] word by word while [dst] is written in the same order: no word
    of [src] is written before it is read. *)
Definition forward_ok (dst src n : Z) : Prop := dst <= src \/ src + n <= dst.

Lemma wp_fill_words n dst (body : Z -> M unit) (g : Z -> Z) m :
  0 <= n ->
  (forall k m', 0 <= k < n -> (forall a, a < dst \/ dst + k <= a -> m' !! a = m !! a) ->
     body k m' = Ok (tt, <[dst + k := g k]> m')) ->
  wp (for_up 0 n body) (fun _ m' =>
    (forall k, 0 <= k < n -> m' !! (dst + k) = Some (g k)) /\
    (forall a, a < dst \/ dst + n <= a -> m' !! a = m !! a)) m.
Proof.
  intros Hn Hbody.
  apply (wp_for_up (fun k m' => (forall j, 0 <= j < k -> m' !! (dst + j) = Some (g j)) /\
    (forall a, a < dst \/ dst + k <= a -> m' !! a = m !! a))); [done|split; [lia|done]| |done].
  intros k m' Hk [Hin Hout]. eapply wp_det; [apply Hbody; [done|done]|]. split.
  - intros j Hj. destruct (decide (j = k)) as [->|]; [by rewrite lookup_insert_eq|].
    rewrite lookup_insert_ne by lia. apply Hin. lia.
  - intros a Ha. rewrite lookup_insert_ne by lia. apply Hout. lia.
Qed.

(** From words to bits. *)
Lemma holds_words m m' dst n (g : Z -> Z) f :
  (forall k, 0 <= k < n -> m' !! (dst + k) = Some (g k)) ->
  (forall k, 0 <= k < n -> fits 32 (g k) /\ forall j, 0 <= j < 32 -> Z.testbit (g k) j = f (32 * k + j)) ->
  (forall a, a < dst \/ dst + n <= a -> m' !! a = m !! a) ->
  holds m m' dst n f.
Proof.
  intros Hw Hg Hout. split; [|split; [|done]].
  - intros i Hi. pose proof (Z.mod_pos_bound i 32 ltac:(lia)).
    assert (0 <= i / 32 < n) as Hk by (Z.div_mod_to_equations; lia).
    rewrite (Z.div_mod i 32) at 1 by lia. rewrite (bit_word m' dst (i / 32) (g (i / 32))) by auto.
    rewrite (proj2 (Hg _ Hk)) by lia. by rewrite <- Z.div_mod by lia.
  - intros k Hk. exists (g k). split; [by apply Hw|]. by apply Hg.
Qed.

Lemma holds_ext m m' dst n f f' :
  (forall i, 0 <= i < 32 * n -> f i = f' i) -> holds m m' dst n f -> holds m m' dst n f'.
Proof. intros Hf (H1 & H2 & H3). split; [|done]. intros i Hi. rewrite H1 by done. by apply Hf. Qed.

(** The word at index [k] of an array of longs, as a number. *)
Definition word (m : mem) (p k : Z) : Z := default 0 (m !! (p + k)).

Lemma word_ok m p n k :
  longs m p n -> 0 <= k < n -> m !! (p + k) = Some (word m p k) /\ fits 32 (word m p k).
Proof. intros Hl Hk. destruct (Hl k Hk) as (w & Hw & Hf). unfold word. by rewrite Hw. Qed.

Lemma testbit_word m p n k j :
  longs m p n -> 0 <= k < n -> 0 <= j < 32 -> Z.testbit (word m p k) j = bit m p (32 * k + j).
Proof. intros Hl Hk Hj. symmetry. apply bit_word; [|done]. by eapply word_ok. Qed.

Lemma longs_mapped m p n k : longs m p n -> 0 <= k < n -> is_Some (m !! (p + k)).
Proof. intros Hl Hk. destruct (Hl k Hk) as (w & -> & _). done. Qed.

Lemma BITS_TO_LONGS_bounds bits :
  0 <= bits -> 0 <= BITS_TO_LONGS bits /\ bits <= 32 * BITS_TO_LONGS bits < bits + 32.
Proof. unfold BITS_TO_LONGS, BITS_PER_LONG. intros. Z.div_mod_to_equations. lia. Qed.

(** A bitmap operation that combines two bitmaps word by word. *)
Lemma wp_bitop2 (op : Z -> Z -> Z) (bop : bool -> bool -> bool) dst b1 b2 n m :
  (forall a b, fits 32 a -> fits 32 b -> fits 32 (op a b)) ->
  (forall a b j, 0 <= j < 32 -> Z.testbit (op a b) j = bop (Z.testbit a j) (Z.testbit b j)) ->
  0 <= n -> longs m dst n -> longs m b1 n -> longs m b2 n ->
  forward_ok dst b1 n -> forward_ok dst b2 n ->
  wp (for_up 0 n (fun k =>
        w1 ← load (b1 + k); w2 ← load (b2 + k); store (dst + k) (op w1 w2)))
    (fun _ m' => holds m m' dst n (fun i => bop (bit m b1 i) (bit m b2 i))) m.
Proof.
  intros Hfits Hbits Hn Hd H1 H2 Ho1 Ho2.
  eapply wp_mono; [apply (wp_fill_words n dst _ (fun k => op (word m b1 k) (word m b2 k))); [done|]|].
  - intros k m' Hk Hsame. unfold forward_ok in *.
    rewrite (bind_load _ (word m b1 k)) by (rewrite Hsame by lia; by eapply word_ok).
    rewrite (bind_load _ (word m b2 k)) by (rewrite Hsame by lia; by eapply word_ok).
    unfold store. rewrite Hsame by lia. by destruct (longs_mapped m dst n k Hd Hk) as [? ->].
  - intros _ m' [Hw Hout]. apply (holds_words _ _ _ _ _ _ Hw); [|done]. intros k Hk. split.
    + apply Hfits; by eapply word_ok.
    + intros j Hj. by rewrite Hbits, !(testbit_word m _ n) by done.
Qed.

(** The hypotheses that the operations on two bitmaps share. *)
Section Pointwise.
Context (m : mem) (dst b1 b2 bits : Z).
Abbreviation n := (BITS_TO_LONGS bits).
Hypotheses (Hbits : 0 <= bits) (Hd : longs m dst n) (H1 : longs m b1 n) (H2 : longs m b2 n)
  (Ho1 : forward_ok dst b1 n) (Ho2 : forward_ok dst b2 n).

Lemma wp_bitmap_and :
  wp (__bitmap_and dst b1 b2 bits)
    (fun _ m' => holds m m' dst n (fun i => bit m b1 i && bit m b2 i)) m.
Proof using Hbits Hd H1 H2 Ho1 Ho2.
  apply (wp_bitop2 Z.land andb); try done; [auto with kword|intros; apply Z.land_spec|].
  by apply BITS_TO_LONGS_bounds.
Qed.

Lemma wp_bitmap_or :
  wp (__bitmap_or dst b1 b2 bits)
    (fun _ m' => holds m m' dst n (fun i => bit m b1 i || bit m b2 i)) m.
Proof using Hbits Hd H1 H2 Ho1 Ho2.
  apply (wp_bitop2 Z.lor orb); try done; [auto with kword|intros; apply Z.lor_spec|].
  by apply BITS_TO_LONGS_bounds.
Qed.

Lemma wp_bitmap_xor :
  wp (__bitmap_xor dst b1 b2 bits)
    (fun _ m' => holds m m' dst n (fun i => xorb (bit m b1 i) (bit m b2 i))) m.
Proof using Hbits Hd H1 H2 Ho1 Ho2.
  apply (wp_bitop2 Z.lxor xorb); try done; [auto with kword|intros; apply Z.lxor_spec|].
  by apply BITS_TO_LONGS_bounds.
Qed.

Lemma wp_bitmap_andnot :
  wp (__bitmap_andnot dst b1 b2 bits)
    (fun _ m' => holds m m' dst n (fun i => bit m b1 i && negb (bit m b2 i))) m.
Proof using Hbits Hd H1 H2 Ho1 Ho2.
  apply (wp_bitop2 (fun a b => Z.land a (not32 b)) (fun a b => a && negb b)); try done.
  - auto with kword.
  - intros a b j Hj. rewrite Z.land_spec, testbit_not32 by lia.
    replace (j <? 32) with true by lia. by rewrite xorb_true_r.
  - by apply BITS_TO_LONGS_bounds.
Qed.
End Pointwise.

(** ** Filling and copying *)

Lemma wp_memset_longs dst v n m (f : bool) :
  0 <= n -> mapped m dst n -> fits 32 v -> (forall j, 0 <= j < 32 -> Z.testbit v j = f) ->
  wp (memset_longs dst v n) (fun _ m' => holds m m' dst n (fun _ => f)) m.
Proof.
  intros Hn Hm Hv Hb. eapply wp_mono; [apply (wp_fill_words n dst _ (fun _ => v)); [done|]|].
  - intros k m' Hk Hsame. unfold store. rewrite Hsame by lia.
    by destruct (Hm (dst + k)) as [? ->]; [lia|].
  - intros _ m' [Hw Hout]. apply (holds_words _ _ _ _ _ _ Hw); [|done]. auto.
Qed.

Lemma wp_bitmap_zero dst bits m :
  0 <= bits -> mapped m dst (BITS_TO_LONGS bits) ->
  wp (bitmap_zero dst bits) (fun _ m' => holds m m' dst (BITS_TO_LONGS bits) (fun _ => false)) m.
Proof.
  intros Hb Hm. apply wp_memset_longs; [by apply BITS_TO_LONGS_bounds|done|done|].
  intros. apply Z.bits_0.
Qed.

Lemma longs_is_mapped m p n : longs m p n -> mapped m p n.
Proof.
  intros Hl a Ha. replace a with (p + (a - p)) by lia. apply (longs_mapped m p n); [done|lia].
Qed.

Lemma mask_word bits :
  BITMAP_LAST_WORD_MASK bits = Z.ones (if bits mod 32 =? 0 then 32 else bits mod 32).
Proof.
  unfold BITMAP_LAST_WORD_MASK, BITS_PER_LONG. pose proof (Z.mod_pos_bound bits 32 ltac:(lia)).
  destruct (bits mod 32 =? 0) eqn:E; [done|]. simpl. rewrite Z.ones_equiv, Z.shiftl_1_l.
  assert (2 ^ (bits mod 32) < 2 ^ 32) by (apply Z.pow_lt_mono_r; lia).
  assert (0 < 2 ^ (bits mod 32)) by lia. rewrite !wrap_id; unfold fits; rewrite ?wrap_id; unfold fits; lia.
Qed.

Lemma window_mask f bits w :
  0 <= bits -> 0 < bits mod 32 -> window f (32 * (bits / 32)) 0 32 w ->
  window f (32 * (bits / 32)) 0 (bits mod 32) (Z.land w (BITMAP_LAST_WORD_MASK bits)).
Proof.
  intros Hb Hp Hw. rewrite mask_word. replace (bits mod 32 =? 0) with false by lia.
  apply window_cut; [|done]. pose proof (Z.mod_pos_bound bits 32 ltac:(lia)). lia.
Qed.

Lemma fits_mask bits : fits 32 (BITMAP_LAST_WORD_MASK bits).
Proof.
  unfold BITMAP_LAST_WORD_MASK. destruct (negb _); [apply wrap_fits; lia|apply fits_ALL_ONES].
Qed.

(** What the last, partial word of a bitmap of [bits] bits needs. *)
Lemma last_word bits :
  0 <= bits -> 0 < bits mod 32 ->
  BITS_TO_LONGS bits = bits / 32 + 1 /\ bits = 32 * (bits / 32) + bits mod 32 /\ bits mod 32 < 32.
Proof. unfold BITS_TO_LONGS, BITS_PER_LONG. intros. Z.div_mod_to_equations. lia. Qed.

Lemma no_last_word bits :
  0 <= bits -> bits mod 32 = 0 -> BITS_TO_LONGS bits = bits / 32 /\ bits = 32 * (bits / 32).
Proof. unfold BITS_TO_LONGS, BITS_PER_LONG. intros. Z.div_mod_to_equations. lia. Qed.

Lemma whole_words_le bits : 0 <= bits -> 0 <= bits / 32 <= BITS_TO_LONGS bits.
Proof. unfold BITS_TO_LONGS, BITS_PER_LONG. intros. Z.div_mod_to_equations. lia. Qed.

Lemma longs_le m p n n' : longs m p n -> n' <= n -> longs m p n'.
Proof. intros Hl Hn k Hk. apply Hl. lia. Qed.

(** A filled bitmap to which one more word is added. *)
Lemma holds_snoc m m' dst n f v :
  0 <= n -> holds m m' dst n f -> fits 32 v ->
  (forall j, 0 <= j < 32 -> Z.testbit v j = f (32 * n + j)) ->
  holds m (<[dst + n := v]> m') dst (n + 1) f.
Proof.
  intros Hn (Hb & Hl & Ho) Hv Hj. split; [|split].
  - intros i Hi. rewrite bit_insert. pose proof (Z.mod_pos_bound i 32 ltac:(lia)).
    destruct (Z.eqb_spec (i / 32) n) as [E|E].
    + rewrite Hj by lia. f_equal. Z.div_mod_to_equations. lia.
    + apply Hb. Z.div_mod_to_equations. lia.
  - intros k Hk. destruct (decide (k = n)) as [->|].
    + exists v. by rewrite lookup_insert_eq.
    + rewrite lookup_insert_ne by lia. apply Hl. lia.
  - intros a Ha. rewrite lookup_insert_ne by lia. apply Ho. lia.
Qed.

Lemma wp_bitmap_complement m dst src bits :
  0 <= bits -> longs m dst (BITS_TO_LONGS bits) -> longs m src (BITS_TO_LONGS bits) ->
  forward_ok dst src (BITS_TO_LONGS bits) ->
  wp (__bitmap_complement dst src bits)
    (fun _ m' => holds m m' dst (BITS_TO_LONGS bits) (fun i => (i <? bits) && negb (bit m src i))) m.
Proof.
  intros Hb Hd Hs Ho. unfold __bitmap_complement, BITS_PER_LONG. unfold forward_ok in Ho.
  pose proof (whole_words_le bits Hb) as Hle. apply wp_bind.
  eapply wp_mono;
    [apply (wp_fill_words (bits / 32) dst _ (fun k => not32 (word m src k))); [lia|]|].
  - intros k m' Hk Hsame.
    rewrite (bind_load _ (word m src k)) by (rewrite Hsame by lia; eapply word_ok; [done|lia]).
    unfold store. rewrite Hsame by lia.
    by destruct (longs_mapped m dst _ k Hd ltac:(lia)) as [? ->].
  - intros _ m' [Hw Hout].
    assert (holds m m' dst (bits / 32) (fun i => (i <? bits) && negb (bit m src i))) as Hh.
    { apply (holds_words _ _ _ _ _ _ Hw); [|done]. intros k Hk.
      destruct (word_ok m src _ k Hs) as [_ Hf]; [lia|]. split; [by apply fits_not32|].
      intros j Hj. rewrite testbit_not32, (testbit_word m src _ k j Hs) by lia.
      replace (j <? 32) with true by lia. rewrite xorb_true_r.
      by replace (32 * k + j <? bits) with true by (Z.div_mod_to_equations; lia). }
    pose proof (Z.mod_pos_bound bits 32 ltac:(lia)).
    destruct (Z.eqb_spec (bits mod 32) 0) as [E|E]; simpl.
    + apply wp_ret. by rewrite (proj1 (no_last_word bits Hb E)).
    + destruct (last_word bits) as (En & Eb & ?); [lia|lia|]. rewrite En in *.
      destruct (word_ok m src _ (bits / 32) Hs) as [Hl Hf]; [lia|].
      apply wp_bind. apply (wp_load _ (word m src (bits / 32))); [rewrite Hout by lia; done|].
      apply wp_store; [rewrite Hout by lia; apply (longs_mapped m dst _ _ Hd); lia|].
      apply holds_snoc; [lia|done| |].
      * apply fits_land; [lia|by apply fits_not32|apply fits_mask].
      * intros j Hj. rewrite Z.land_spec, testbit_not32, (testbit_word m src _ _ j Hs) by lia.
        rewrite mask_word. replace (bits mod 32 =? 0) with false by lia.
        rewrite Ztestbit_ones by lia. replace (0 <=? j) with true by lia.
        replace (j <? 32) with true by lia. rewrite xorb_true_r, andb_comm. f_equal. lia.
Qed.

Lemma wp_bitmap_fill m dst bits :
  0 < bits -> longs m dst (BITS_TO_LONGS bits) ->
  wp (bitmap_fill dst bits)
    (fun _ m' => holds m m' dst (BITS_TO_LONGS bits) (fun i => i <? bits)) m.
Proof.
  intros Hb Hd. unfold bitmap_fill. pose proof (BITS_TO_LONGS_bounds bits ltac:(lia)) as [? Hn].
  set (n := BITS_TO_LONGS bits) in *. apply wp_bind.
  eapply wp_mono; [apply (wp_memset_longs dst ALL_ONES (n - 1) m true)|].
  - lia.
  - apply longs_is_mapped. eapply longs_le; [done|lia].
  - done.
  - intros j Hj. rewrite testbit_ALL_ONES by lia. lia.
  - intros [] m' Hh. apply wp_store.
    + rewrite (proj2 (proj2 Hh)) by lia. apply (longs_mapped m dst n); [done|lia].
    + replace n with (n - 1 + 1) at 2 by lia. apply holds_snoc; [lia| | |].
      * eapply holds_ext; [|done]. intros i Hi. simpl. lia.
      * apply fits_mask.
      * intros j Hj. rewrite mask_word. pose proof (Z.mod_pos_bound bits 32 ltac:(lia)).
        rewrite Ztestbit_ones by (case_test; lia).
        destruct (Z.eqb_spec (bits mod 32) 0); Z.div_mod_to_equations; lia.
Qed.

Lemma wp_copy_words m dst src n :
  0 <= n -> longs m dst n -> longs m src n -> forward_ok dst src n ->
  wp (for_up 0 n (fun k => w ← load (src + k); store (dst + k) w))
    (fun _ m' => holds m m' dst n (bit m src)) m.
Proof.
  intros Hn Hd Hs Ho. unfold forward_ok in Ho.
  eapply wp_mono; [apply (wp_fill_words n dst _ (word m src)); [lia|]|].
  - intros k m' Hk Hsame.
    rewrite (bind_load _ (word m src k)) by (rewrite Hsame by lia; by eapply word_ok).
    unfold store. rewrite Hsame by lia. by destruct (longs_mapped m dst _ k Hd Hk) as [? ->].
  - intros _ m' [Hw Hout]. apply (holds_words _ _ _ _ _ _ Hw); [|done]. intros k Hk.
    destruct (word_ok m src _ k Hs) as [_ Hf]; [lia|]. split; [done|].
    intros j Hj. by rewrite (testbit_word m src n).
Qed.

(** ** The tests *)

(** Whether some position below [n] satisfies [f]. *)
Definition any_bit (f : Z -> bool) (n : Z) : bool := existsb f (seqZ 0 n).

Lemma any_bit_true f n : any_bit f n = true <-> exists i, 0 <= i < n /\ f i = true.
Proof.
  unfold any_bit. rewrite existsb_exists. split.
  - intros (i & Hi & Hf). apply list_elem_of_In, elem_of_seqZ in Hi. exists i. split; [lia|done].
  - intros (i & Hi & Hf). exists i. split; [|done]. apply list_elem_of_In, elem_of_seqZ. lia.
Qed.

Lemma any_bit_false f n : any_bit f n = false <-> forall i, 0 <= i < n -> f i = false.
Proof.
  rewrite <- not_true_iff_false, any_bit_true. split.
  - intros H i Hi. destruct (f i) eqn:E; [|done]. destruct H. by exists i.
  - intros H (i & Hi & Hf). by rewrite H in Hf.
Qed.

Lemma window_any f base hi w n :
  window f base 0 hi w -> 0 <= base -> hi <= 32 -> base + hi <= n -> w <> 0 -> any_bit f n = true.
Proof.
  intros Hw Hb Hhi Hn Hne. destruct (window_ffs f base 0 hi w (base + hi)) as [(Hr & _ & Hf) Hlt];
    [done|lia|lia|done|]. apply any_bit_true. exists (base + __ffs w). split; [lia|auto].
Qed.

(** The shape of all tests: leave with [hit] at the first whole word that shows
    a set bit of [f], then look at the bits of the last word that count. *)
Lemma test_words_ok m bits f (hit miss : Z) (whole : Z -> M (option Z)) (last : M Z) :
  0 <= bits ->
  (forall k, 0 <= k < bits / 32 -> exists w,
     whole k m = Ok (if negb (w =? 0) then Some hit else None, m) /\ window f (32 * k) 0 32 w) ->
  (0 < bits mod 32 -> exists w,
     last m = Ok (if negb (Z.land w (BITMAP_LAST_WORD_MASK bits) =? 0) then hit else miss, m) /\
     window f (32 * (bits / 32)) 0 32 w) ->
  or_else (for_loop 0 (bits / 32) whole)
    (if negb (bits mod 32 =? 0) then last else mret miss) m
  = Ok (if any_bit f bits then hit else miss, m).
Proof.
  intros Hb Hwhole Hlast. apply wp_eq, wp_or_else.
  apply (wp_for (fun k m' => m' = m /\ forall i, 0 <= i < 32 * k -> f i = false)).
  - apply Z.div_pos; lia.
  - split; [done|lia].
  - intros k m' Hk [-> Hno]. destruct (Hwhole k Hk) as (w & E & Hw).
    eapply wp_det; [exact E|]. destruct (Z.eqb_spec w 0) as [E0|E0]; simpl.
    + split; [done|]. intros i Hi. destruct (Z.lt_ge_cases i (32 * k)); [apply Hno; lia|].
      apply (window_zero f (32 * k) 0 32 w); [done|lia|lia|done|lia].
    + by rewrite (window_any f (32 * k) 32 w) by (done || lia || (Z.div_mod_to_equations; lia)).
  - intros m' [-> Hno]. pose proof (Z.mod_pos_bound bits 32 ltac:(lia)).
    destruct (Z.eqb_spec (bits mod 32) 0) as [E|E]; simpl.
    + apply wp_ret. destruct (no_last_word bits Hb E) as [_ Eb].
      rewrite (proj2 (any_bit_false f bits)); [done|]. intros i Hi. apply Hno. lia.
    + destruct Hlast as (w & El & Hw); [lia|]. eapply wp_det; [exact El|]. split; [|done].
      destruct (last_word bits) as (En & Eb & ?); [lia|lia|].
      apply window_mask in Hw; [|lia|lia].
      destruct (Z.eqb_spec (Z.land w (BITMAP_LAST_WORD_MASK bits)) 0) as [E0|E0]; simpl.
      * rewrite (proj2 (any_bit_false f bits)); [done|]. intros i Hi.
        destruct (Z.lt_ge_cases i (32 * (bits / 32))); [apply Hno; lia|].
        apply (window_zero f _ 0 (bits mod 32) _ Hw); [lia|lia|done|lia].
      * by rewrite (window_any f _ _ _ bits Hw) by (done || lia).
Qed.

(** A word that combines the words at index [k] of two bitmaps shows the
    combination of their bits. *)
Lemma window_word1 m p n k (op : Z -> Z) (bop : bool -> bool) :
  longs m p n -> 0 <= k < n -> fits 32 (op (word m p k)) ->
  (forall j, 0 <= j < 32 -> Z.testbit (op (word m p k)) j = bop (Z.testbit (word m p k) j)) ->
  window (fun i => bop (bit m p i)) (32 * k) 0 32 (op (word m p k)).
Proof.
  intros Hl Hk Hf Hop. split; [done|]. intros j Hj. rewrite Hop, (testbit_word m p n) by done.
  replace (0 <=? j) with true by lia. by replace (j <? 32) with true by lia.
Qed.

Lemma window_word2 m p q n k (op : Z -> Z -> Z) (bop : bool -> bool -> bool) :
  longs m p n -> longs m q n -> 0 <= k < n ->
  (forall a b, fits 32 a -> fits 32 b -> fits 32 (op a b)) ->
  (forall a b j, 0 <= j < 32 -> Z.testbit (op a b) j = bop (Z.testbit a j) (Z.testbit b j)) ->
  window (fun i => bop (bit m p i) (bit m q i)) (32 * k) 0 32 (op (word m p k) (word m q k)).
Proof.
  intros Hl Hl' Hk Hf Hop. split; [apply Hf; by eapply word_ok|]. intros j Hj.
  rewrite Hop, !(testbit_word m _ n) by done.
  replace (0 <=? j) with true by lia. by replace (j <? 32) with true by lia.
Qed.

Lemma bool_testbit_not a j : 0 <= j < 32 -> Z.testbit (not32 a) j = negb (Z.testbit a j).
Proof. intros. rewrite testbit_not32 by lia. replace (j <? 32) with true by lia. apply xorb_true_r. Qed.

Section Tests.
Context (m : mem) (p q bits : Z).
Hypotheses (Hbits : 0 <= bits) (Hp : longs m p (BITS_TO_LONGS bits)).

(** Index [k] of a whole word, or of the last one, is an index of the array. *)
Lemma whole_index k : 0 <= k < bits / 32 -> 0 <= k < BITS_TO_LONGS bits.
Proof using Hbits. pose proof (whole_words_le bits Hbits). lia. Qed.

Lemma last_index : 0 < bits mod 32 -> 0 <= bits / 32 < BITS_TO_LONGS bits.
Proof using Hbits. intros. destruct (last_word bits); [done..|]. pose proof (whole_words_le bits Hbits). lia. Qed.

Ltac one_word op bop :=
  match goal with
  | H : 0 <= ?k < _ |- _ =>
      exists (op (word m p k)); split;
      [by rewrite (bind_load _ (word m p k)) by (by eapply word_ok)
      |apply (window_word1 m p _ k op bop Hp H)]
  end.

Lemma bitmap_empty_ok :
  __bitmap_empty p bits m = Ok (if any_bit (bit m p) bits then 0 else 1, m).
Proof using Hbits Hp.
  apply (test_words_ok m bits (bit m p)); [done| |].
  - intros k Hk%whole_index. one_word (fun w : Z => w) (fun b : bool => b); [by eapply word_ok|done].
  - intros Hk%last_index. one_word (fun w : Z => w) (fun b : bool => b); [by eapply word_ok|done].
Qed.

Lemma bitmap_full_ok :
  __bitmap_full p bits m = Ok (if any_bit (fun i => negb (bit m p i)) bits then 0 else 1, m).
Proof using Hbits Hp.
  apply (test_words_ok m bits (fun i => negb (bit m p i))); [done| |].
  - intros k Hk%whole_index. one_word not32 negb;
      [by eapply fits_not32, word_ok|intros; by apply bool_testbit_not].
  - intros Hk%last_index. one_word not32 negb;
      [by eapply fits_not32, word_ok|intros; by apply bool_testbit_not].
Qed.

Hypothesis Hq : longs m q (BITS_TO_LONGS bits).

Lemma two_words_ok op bop (hit miss : Z) (test : Z -> Z -> bool) :
  (forall a b, fits 32 a -> fits 32 b -> fits 32 (op a b)) ->
  (forall a b j, 0 <= j < 32 -> Z.testbit (op a b) j = bop (Z.testbit a j) (Z.testbit b j)) ->
  (forall a b, test a b = negb (op a b =? 0)) ->
  or_else (for_loop 0 (bits / BITS_PER_LONG) (fun k =>
    w1 ← load (p + k); w2 ← load (q + k);
    mret (if test w1 w2 then Some hit else None)))
  (if negb (bits mod BITS_PER_LONG =? 0) then
     w1 ← load (p + bits / BITS_PER_LONG); w2 ← load (q + bits / BITS_PER_LONG);
     mret (if negb (Z.land (op w1 w2) (BITMAP_LAST_WORD_MASK bits) =? 0) then hit else miss)
   else mret miss) m
  = Ok (if any_bit (fun i => bop (bit m p i) (bit m q i)) bits then hit else miss, m).
Proof using Hbits Hp Hq.
  intros Hf Hop Ht. apply (test_words_ok m bits (fun i => bop (bit m p i) (bit m q i))); [done| |].
  - intros k Hk%whole_index. exists (op (word m p k) (word m q k)). split; [|by eapply window_word2].
    rewrite !(bind_load _ (word m _ k)) by (by eapply word_ok). by rewrite Ht.
  - intros Hk%last_index. exists (op (word m p (bits / 32)) (word m q (bits / 32))).
    split; [|by eapply window_word2].
    unfold BITS_PER_LONG. by rewrite !(bind_load _ (word m _ (bits / 32))) by (by eapply word_ok).
Qed.

Lemma bitmap_equal_ok :
  __bitmap_equal p q bits m
  = Ok (if any_bit (fun i => xorb (bit m p i) (bit m q i)) bits then 0 else 1, m).
Proof using Hbits Hp Hq.
  apply (two_words_ok Z.lxor xorb 0 1 (fun w1 w2 => negb (w1 =? w2)));
    [auto with kword|intros; apply Z.lxor_spec|].
  intros a b. f_equal. apply eq_true_iff_eq. by rewrite !Z.eqb_eq, Z.lxor_eq_0_iff.
Qed.

Lemma bitmap_intersects_ok :
  __bitmap_intersects p q bits m
  = Ok (if any_bit (fun i => bit m p i && bit m q i) bits then 1 else 0, m).
Proof using Hbits Hp Hq.
  apply (two_words_ok Z.land andb 1 0); [auto with kword|intros; apply Z.land_spec|done].
Qed.

Lemma bitmap_subset_ok :
  __bitmap_subset p q bits m
  = Ok (if any_bit (fun i => bit m p i && negb (bit m q i)) bits then 0 else 1, m).
Proof using Hbits Hp Hq.
  apply (two_words_ok (fun a b => Z.land a (not32 b)) (fun a b => a && negb b) 0 1);
    [auto with kword| |done].
  intros a b j Hj. by rewrite Z.land_spec, bool_testbit_not.
Qed.
End Tests.

(** ** Weight *)

(** The number of positions below [n] where [f] holds. *)
Fixpoint count (f : Z -> bool) (n : nat) : Z :=
  match n with
  | O => 0
  | S n' => count f n' + Z.b2z (f (Z.of_nat n'))
  end.

Lemma count_ext f g n : (forall i, 0 <= i < Z.of_nat n -> f i = g i) -> count f n = count g n.
Proof.
  induction n as [|n IH]; intros H; [done|]. simpl. rewrite H, IH by lia || (intros; apply H; lia). done.
Qed.

Lemma count_add f n k :
  count f (n + k) = count f n + count (fun i => f (Z.of_nat n + i)) k.
Proof.
  induction k as [|k IH]; [rewrite Nat.add_0_r; simpl; lia|].
  rewrite Nat.add_succ_r. simpl. rewrite IH, Nat2Z.inj_add. lia.
Qed.

Lemma count_popcount w n : count (Z.testbit w) n = popcount n w.
Proof. induction n as [|n IH]; [done|]. simpl. rewrite IH. lia. Qed.

Lemma count_range f n : 0 <= count f n <= Z.of_nat n.
Proof. induction n as [|n IH]; simpl; [lia|]. destruct (f _); simpl; lia. Qed.

Lemma count_false f n : (forall i, 0 <= i < Z.of_nat n -> f i = false) -> count f n = 0.
Proof.
  intros Hf. induction n as [|n IH]; [done|]. simpl. rewrite IH by (intros; apply Hf; lia).
  by rewrite Hf by lia.
Qed.

(** The positions a window shows are counted by the weight of its word. *)
Lemma window_weight f base hi w :
  window f base 0 hi w -> 0 <= base -> 0 <= hi <= 32 ->
  count f (Z.to_nat base) + hweight_long w = count f (Z.to_nat (base + hi)).
Proof.
  intros [Hf Hw] Hb Hhi. rewrite Z2Nat.inj_add, count_add by lia. f_equal.
  unfold hweight_long. rewrite hweight32_ok by done. rewrite <- count_popcount.
  replace 32%nat with (Z.to_nat hi + Z.to_nat (32 - hi))%nat by lia. rewrite count_add.
  rewrite (count_false _ (Z.to_nat (32 - hi))), Z.add_0_r.
  - apply count_ext. intros i Hi. rewrite Hw by lia. replace ((0 <=? i) && (i <? hi)) with true by lia.
    by rewrite Z2Nat.id by lia.
  - intros i Hi. rewrite Hw by lia. by replace (Z.of_nat (Z.to_nat hi) + i <? hi) with false by lia;
      rewrite andb_false_r.
Qed.

Lemma wp_bitmap_weight m p bits :
  0 <= bits -> longs m p (BITS_TO_LONGS bits) ->
  wp (__bitmap_weight p bits) (fun r m' => r = count (bit m p) (Z.to_nat bits) /\ m' = m) m.
Proof.
  intros Hb Hp. unfold __bitmap_weight, BITS_PER_LONG. apply wp_bind.
  pose proof (whole_words_le bits Hb).
  apply (wp_loop (fun '(k, w) m' => m' = m /\ 0 <= k <= bits / 32 /\
      w = count (bit m p) (Z.to_nat (32 * k))) (fun '(k, _) => Z.to_nat (bits / 32 - k)));
    [split; [done|split; [lia|done]]|lia|].
  intros [k w] m' (-> & Hk & ->). destruct (Z.ltb_spec k (bits / 32)).
  - destruct (word_ok m p _ k Hp) as [Hw Hf]; [lia|].
    apply wp_bind. apply (wp_load _ (word m p k)); [done|]. apply wp_ret. split; [|lia].
    split; [done|]. split; [lia|]. replace (32 * (k + 1)) with (32 * k + 32) by lia.
    apply window_weight; [|lia|lia].
    apply (window_word1 m p _ k (fun w => w) (fun b => b) Hp); [lia|done|done].
  - apply wp_ret. assert (k = bits / 32) as -> by lia.
    pose proof (Z.mod_pos_bound bits 32 ltac:(lia)).
    destruct (Z.eqb_spec (bits mod 32) 0) as [E|E]; simpl.
    + apply wp_ret. split; [|done]. do 2 f_equal. Z.div_mod_to_equations. lia.
    + destruct (last_word bits) as (En & Eb & ?); [lia|lia|].
      destruct (word_ok m p _ (bits / 32) Hp) as [Hw Hf]; [lia|].
      apply wp_bind. apply (wp_load _ (word m p (bits / 32))); [done|]. apply wp_ret. split; [|done].
      rewrite (window_weight _ _ (bits mod 32)); [do 2 f_equal; lia| |lia|lia].
      apply window_mask; [lia|lia|].
      apply (window_word1 m p _ _ (fun w => w) (fun b => b) Hp); [lia|done|done].
Qed.

(** ** Shifts *)

Lemma holds_app m m1 m2 dst k n f g h :
  0 <= k <= n -> holds m m1 dst k f -> holds m1 m2 (dst + k) (n - k) g ->
  (forall i, 0 <= i < 32 * n -> h i = if i <? 32 * k then f i else g (i - 32 * k)) ->
  holds m m2 dst n h.
Proof.
  intros Hk (Hf & Hl & Ho) (Hg & Hl' & Ho') Hh. split; [|split].
  - intros i Hi. rewrite Hh by done. unfold bit. destruct (Z.ltb_spec i (32 * k)) as [Hlt|Hge].
    + rewrite Ho' by (Z.div_mod_to_equations; lia). apply Hf. lia.
    + rewrite <- Hg by lia. unfold bit.
      replace (dst + k + (i - 32 * k) / 32) with (dst + i / 32) by (Z.div_mod_to_equations; lia).
      by replace ((i - 32 * k) mod 32) with (i mod 32) by (Z.div_mod_to_equations; lia).
  - intros j Hj. destruct (Z.lt_ge_cases j k) as [Hlt|Hge].
    + rewrite Ho' by lia. apply Hl. lia.
    + destruct (Hl' (j - k)) as (w & Hw & Hf'); [lia|]. exists w. split; [|done].
      by replace (dst + j) with (dst + k + (j - k)) by lia.
  - intros a Ha. rewrite Ho' by lia. apply Ho. lia.
Qed.

Lemma wp_fill_words_down n dst (body : Z -> M unit) (g : Z -> Z) m :
  0 <= n ->
  (forall k m', 0 <= k < n -> (forall a, a <= dst + k \/ dst + n <= a -> m' !! a = m !! a) ->
     body k m' = Ok (tt, <[dst + k := g k]> m')) ->
  wp (for_down (n - 1) 0 body) (fun _ m' =>
    (forall k, 0 <= k < n -> m' !! (dst + k) = Some (g k)) /\
    (forall a, a < dst \/ dst + n <= a -> m' !! a = m !! a)) m.
Proof.
  intros Hn Hbody.
  apply (wp_for_down (fun k m' => (forall j, k < j < n -> m' !! (dst + j) = Some (g j)) /\
    (forall a, a <= dst + k \/ dst + n <= a -> m' !! a = m !! a))); [lia|split; [lia|done]| |].
  - intros k m' Hk [Hin Hout]. eapply wp_det; [apply Hbody; [lia|done]|]. split.
    + intros j Hj. destruct (decide (j = k)) as [->|]; [by rewrite lookup_insert_eq|].
      rewrite lookup_insert_ne by lia. apply Hin. lia.
    + intros a Ha. rewrite lookup_insert_ne by lia. apply Hout. lia.
  - intros m' [Hin Hout]. split; [intros; apply Hin; lia|]. intros a Ha. apply Hout. lia.
Qed.

(** The shifts mask the last word with [(1UL << left) - 1]. *)
Definition shift_mask (bits : Z) : Z := u32 (u32 (Z.shiftl 1 (bits mod 32)) - 1).

Lemma shift_mask_spec bits : 0 < bits mod 32 -> shift_mask bits = Z.ones (bits mod 32).
Proof.
  intros Hp. pose proof (mask_word bits) as E. unfold BITMAP_LAST_WORD_MASK, BITS_PER_LONG in E.
  replace (bits mod 32 =? 0) with false in E by lia. exact E.
Qed.

(** Word [k] of a bitmap of [bits] bits as the shifts see it. *)
Definition seen (m : mem) (p bits k : Z) : Z :=
  if negb (bits mod 32 =? 0) && (k =? BITS_TO_LONGS bits - 1)
  then Z.land (word m p k) (shift_mask bits) else word m p k.

Lemma seen_ok m p bits k :
  0 <= bits -> longs m p (BITS_TO_LONGS bits) -> 0 <= k < BITS_TO_LONGS bits ->
  fits 32 (seen m p bits k) /\
  forall j, 0 <= j < 32 ->
    Z.testbit (seen m p bits k) j = (32 * k + j <? bits) && bit m p (32 * k + j).
Proof.
  intros Hb Hp Hk. destruct (word_ok m p _ k Hp Hk) as [Hw Hf].
  pose proof (Z.mod_pos_bound bits 32 ltac:(lia)). unfold seen.
  destruct (Z.eqb_spec (bits mod 32) 0) as [E|E]; simpl.
  - destruct (no_last_word bits Hb E) as [En Eb]. split; [done|]. intros j Hj.
    rewrite (testbit_word m p _ k j Hp) by done. by replace (32 * k + j <? bits) with true by lia.
  - destruct (last_word bits) as (En & Eb & ?); [lia|lia|].
    destruct (Z.eqb_spec k (BITS_TO_LONGS bits - 1)) as [Ek|Ek].
    + rewrite shift_mask_spec by lia. split.
      { apply fits_land_l; [lia|done|]. rewrite Z.ones_equiv. lia. }
      intros j Hj. rewrite Z.land_spec, Ztestbit_ones, (testbit_word m p _ k j Hp) by (done || lia).
      rewrite andb_comm. f_equal. lia.
    + split; [done|]. intros j Hj. rewrite (testbit_word m p _ k j Hp) by done.
      by replace (32 * k + j <? bits) with true by lia.
Qed.

(** The value of word [k] of the right shift. *)
Definition shr_word (m : mem) (src shift bits k : Z) : Z :=
  let lim := BITS_TO_LONGS bits in
  let off := shift / 32 in
  let rem := shift mod 32 in
  let upper := if (rem =? 0) || (lim <=? off + k + 1) then 0 else seen m src bits (off + k + 1) in
  let v := Z.lor (u32 (Z.shiftl upper (32 - rem))) (Z.shiftr (seen m src bits (off + k)) rem) in
  if negb (bits mod 32 =? 0) && (k =? lim - 1) then Z.land v (shift_mask bits) else v.

Lemma shr_word_ok m src shift bits k :
  0 <= bits -> 0 <= shift -> longs m src (BITS_TO_LONGS bits) ->
  0 <= k -> shift / 32 + k < BITS_TO_LONGS bits ->
  fits 32 (shr_word m src shift bits k) /\
  forall j, 0 <= j < 32 -> Z.testbit (shr_word m src shift bits k) j =
    (32 * k + j + shift <? bits) && bit m src (32 * k + j + shift).
Proof.
  intros Hb Hs Hl Hk Hlim. unfold shr_word.
  set (off := shift / 32) in *. set (rem := shift mod 32).
  assert (shift = 32 * off + rem /\ 0 <= rem < 32 /\ 0 <= off) as (Es & Hrem & Hoff)
    by (subst off rem; Z.div_mod_to_equations; lia). clearbody off rem.
  destruct (seen_ok m src bits (off + k) Hb Hl) as [Hf1 Hb1]; [lia|].
  set (upper := if _ || _ then _ else _).
  assert (fits 32 upper /\ forall j, 0 <= j < 32 -> rem <> 0 -> Z.testbit upper j =
    (32 * (off + k + 1) + j <? bits) && bit m src (32 * (off + k + 1) + j)) as [Hf2 Hb2].
  { subst upper. destruct (Z.eqb_spec rem 0); simpl; [by split; [|lia]|].
    destruct (Z.leb_spec (BITS_TO_LONGS bits) (off + k + 1)) as [Hge|Hlt].
    - split; [done|]. intros j Hj _. rewrite Z.bits_0.
      pose proof (BITS_TO_LONGS_bounds bits Hb). by replace (_ <? bits) with false by lia.
    - destruct (seen_ok m src bits (off + k + 1) Hb Hl) as [Hf2 Hb2]; [lia|]. auto. }
  assert (rem = 0 -> upper = 0) as Hu0 by (intros ->; done). clearbody upper.
  set (v := Z.lor _ _).
  assert (fits 32 v) as Hv by (subst v; auto 6 with kword).
  assert (forall j, 0 <= j < 32 -> Z.testbit v j =
    (32 * k + j + shift <? bits) && bit m src (32 * k + j + shift)) as Hvb.
  { intros j Hj. subst v. rewrite Z.lor_spec, testbit_wrap, Z.shiftl_spec, Z.shiftr_spec by lia.
    replace (j <? 32) with true by lia. simpl. destruct (Z.lt_ge_cases (j + rem) 32) as [Hlt|Hge].
    - rewrite (Z.testbit_neg_r upper) by lia. simpl. rewrite Hb1 by lia.
      by replace (32 * (off + k) + (j + rem)) with (32 * k + j + shift) by lia.
    - rewrite (fits_testbit_high 32 (seen _ _ _ _) (j + rem)), orb_false_r by (done || lia).
      rewrite Hb2 by lia.
      by replace (32 * (off + k + 1) + (j - (32 - rem))) with (32 * k + j + shift) by lia. }
  destruct (negb _ && _) eqn:Elast; [|done]. apply andb_true_iff in Elast as [E1 E2].
  pose proof (Z.mod_pos_bound bits 32 ltac:(lia)). rewrite shift_mask_spec by lia. split.
  - apply fits_land_l; [lia|done|]. rewrite Z.ones_equiv. lia.
  - intros j Hj. rewrite Z.land_spec, Ztestbit_ones, Hvb by lia.
    destruct (last_word bits) as (En & Eb & ?); [lia|lia|].
    destruct (Z.ltb_spec (32 * k + j + shift) bits); simpl; [|done].
    replace ((0 <=? j) && (j <? bits mod 32)) with true by lia. apply andb_true_r.
Qed.

Lemma shr_body_ok m m' dst src shift bits k :
  0 <= bits -> 0 <= shift -> longs m src (BITS_TO_LONGS bits) -> longs m dst (BITS_TO_LONGS bits) ->
  forward_ok dst src (BITS_TO_LONGS bits) -> 0 <= k < BITS_TO_LONGS bits - shift / 32 ->
  (forall a, a < dst \/ dst + k <= a -> m' !! a = m !! a) ->
  (upper ← (if (shift mod 32 =? 0) || (BITS_TO_LONGS bits <=? shift / 32 + k + 1) then mret 0 else
             upper ← load (src + (shift / 32 + k + 1));
             if (shift / 32 + k + 1 =? BITS_TO_LONGS bits - 1) && negb (bits mod 32 =? 0)
             then mret (Z.land upper (shift_mask bits)) else mret upper);
   lower ← load (src + (shift / 32 + k));
   let lower := if negb (bits mod 32 =? 0) && (shift / 32 + k =? BITS_TO_LONGS bits - 1)
                then Z.land lower (shift_mask bits) else lower in
   store (dst + k) (Z.lor (u32 (Z.shiftl upper (32 - shift mod 32))) (Z.shiftr lower (shift mod 32))) ;;
   if negb (bits mod 32 =? 0) && (k =? BITS_TO_LONGS bits - 1) then
     w ← load (dst + k);
     store (dst + k) (Z.land w (shift_mask bits))
   else mret tt) m' = Ok (tt, <[dst + k := shr_word m src shift bits k]> m').
Proof.
  intros Hb Hs Hl Hd Ho Hk Hsame. unfold forward_ok in Ho.
  assert (0 <= shift / 32) by (apply Z.div_pos; lia).
  set (lim := BITS_TO_LONGS bits) in *. set (off := shift / 32) in *. set (rem := shift mod 32) in *.
  set (upper := if (rem =? 0) || (lim <=? off + k + 1) then 0 else seen m src bits (off + k + 1)).
  erewrite (bind_Ok _ _ upper m').
  2: { subst upper. destruct (Z.eqb_spec rem 0); simpl; [done|].
       destruct (Z.leb_spec lim (off + k + 1)); [done|].
       rewrite (bind_load _ (word m src (off + k + 1)))
         by (rewrite Hsame by lia; apply (word_ok m src lim); [done|lia]).
       unfold seen. fold lim. rewrite (andb_comm (negb _)). by destruct (_ && _). }
  rewrite (bind_load _ (word m src (off + k)))
    by (rewrite Hsame by lia; apply (word_ok m src lim); [done|lia]).
  cbv zeta. fold lim. change (if negb (bits mod 32 =? 0) && (off + k =? lim - 1)
    then Z.land (word m src (off + k)) (shift_mask bits) else word m src (off + k))
    with (seen m src bits (off + k)).
  set (v := Z.lor _ _).
  rewrite bind_store by (rewrite Hsame by lia; apply (longs_mapped m dst lim); [done|lia]).
  unfold shr_word. fold lim off rem upper v. cbv zeta.
  destruct (negb (bits mod 32 =? 0) && (k =? lim - 1)); [|done].
  rewrite (bind_load _ v) by apply lookup_insert_eq.
  unfold store. rewrite lookup_insert_eq. by rewrite insert_insert_eq.
Qed.

Lemma wp_bitmap_shift_right m dst src shift bits :
  0 <= bits -> 0 <= shift -> shift / 32 <= BITS_TO_LONGS bits ->
  longs m src (BITS_TO_LONGS bits) -> longs m dst (BITS_TO_LONGS bits) ->
  forward_ok dst src (BITS_TO_LONGS bits) ->
  wp (__bitmap_shift_right dst src shift bits) (fun _ m' =>
    holds m m' dst (BITS_TO_LONGS bits) (fun i => (i + shift <? bits) && bit m src (i + shift))) m.
Proof.
  intros Hb Hs Hoff Hl Hd Ho. unfold __bitmap_shift_right, BITS_PER_LONG. apply wp_bind.
  assert (0 <= shift / 32) by (apply Z.div_pos; lia).
  pose proof (BITS_TO_LONGS_bounds bits Hb).
  eapply wp_mono.
  { apply (wp_fill_words (BITS_TO_LONGS bits - shift / 32) dst _ (shr_word m src shift bits)); [lia|].
    intros k m' Hk Hsame. by apply shr_body_ok. }
  intros [] m' [Hw Hout].
  assert (holds m m' dst (BITS_TO_LONGS bits - shift / 32)
    (fun i => (i + shift <? bits) && bit m src (i + shift))) as Hh.
  { apply (holds_words _ _ _ _ _ _ Hw); [|done]. intros k Hk. apply shr_word_ok; done || lia. }
  destruct (Z.eqb_spec (shift / 32) 0) as [E|E]; cbn [negb].
  - apply wp_ret. rewrite E, Z.sub_0_r in Hh. done.
  - eapply wp_mono; [apply (wp_memset_longs _ 0 _ m' false); [lia| |done|intros; apply Z.bits_0]|].
    + intros a Ha. rewrite Hout by lia. apply (longs_is_mapped m dst (BITS_TO_LONGS bits)); [done|lia].
    + intros [] m'' Hh'. eapply (holds_app m m' m'' dst (BITS_TO_LONGS bits - shift / 32)); [lia|done| |].
      * by replace (BITS_TO_LONGS bits - (BITS_TO_LONGS bits - shift / 32)) with (shift / 32) by lia.
      * intros i Hi. simpl. destruct (Z.ltb_spec i (32 * (BITS_TO_LONGS bits - shift / 32))); [done|].
        by replace (i + shift <? bits) with false by (Z.div_mod_to_equations; lia).
Qed.

(** The upper words are written first, then the lower ones. *)
Lemma holds_below m m1 m2 dst k n f g h :
  0 <= k <= n -> holds m m1 (dst + k) (n - k) f -> holds m1 m2 dst k g ->
  (forall i, 0 <= i < 32 * n -> h i = if i <? 32 * k then g i else f (i - 32 * k)) ->
  holds m m2 dst n h.
Proof.
  intros Hk (Hf & Hl & Ho) (Hg & Hl' & Ho') Hh. split; [|split].
  - intros i Hi. rewrite Hh by done. destruct (Z.ltb_spec i (32 * k)) as [Hlt|Hge].
    + apply Hg. lia.
    + rewrite <- Hf by lia. unfold bit. rewrite Ho' by (Z.div_mod_to_equations; lia).
      replace (dst + k + (i - 32 * k) / 32) with (dst + i / 32) by (Z.div_mod_to_equations; lia).
      by replace ((i - 32 * k) mod 32) with (i mod 32) by (Z.div_mod_to_equations; lia).
  - intros j Hj. destruct (Z.lt_ge_cases j k) as [Hlt|Hge].
    + apply Hl'. lia.
    + destruct (Hl (j - k)) as (w & Hw & Hf'); [lia|]. exists w. split; [|done].
      rewrite Ho' by lia. by replace (dst + j) with (dst + k + (j - k)) by lia.
  - intros a Ha. rewrite Ho' by lia. apply Ho. lia.
Qed.

(** Reading [src] downwards while [dst] is written downwards. *)
Definition backward_ok (dst src n : Z) : Prop := src <= dst \/ dst + n <= src.

(** The value of word [k + shift / 32] of the left shift. *)
Definition shl_word (m : mem) (src shift bits k : Z) : Z :=
  let lim := BITS_TO_LONGS bits in
  let off := shift / 32 in
  let rem := shift mod 32 in
  let lower := if negb (rem =? 0) && (0 <? k) then word m src (k - 1) else 0 in
  let v := Z.lor (Z.shiftr lower (32 - rem)) (u32 (Z.shiftl (seen m src bits k) rem)) in
  if negb (bits mod 32 =? 0) && (k + off =? lim - 1) then Z.land v (shift_mask bits) else v.

Lemma shl_word_ok m src shift bits k :
  0 <= bits -> 0 <= shift -> longs m src (BITS_TO_LONGS bits) ->
  0 <= k -> shift / 32 + k < BITS_TO_LONGS bits ->
  fits 32 (shl_word m src shift bits k) /\
  forall j, 0 <= j < 32 ->
    let i := 32 * (k + shift / 32) + j in
    Z.testbit (shl_word m src shift bits k) j =
    (shift <=? i) && (i <? bits) && bit m src (i - shift).
Proof.
  intros Hb Hs Hl Hk Hlim. unfold shl_word.
  set (off := shift / 32) in *. set (rem := shift mod 32).
  assert (shift = 32 * off + rem /\ 0 <= rem < 32 /\ 0 <= off) as (Es & Hrem & Hoff)
    by (subst off rem; Z.div_mod_to_equations; lia). clearbody off rem.
  destruct (seen_ok m src bits k Hb Hl) as [Hf1 Hb1]; [lia|].
  set (lower := if negb (rem =? 0) && (0 <? k) then word m src (k - 1) else 0).
  assert (fits 32 lower /\ forall j, 0 <= j < 32 -> rem <> 0 -> Z.testbit lower j =
    (0 <? k) && bit m src (32 * (k - 1) + j)) as [Hf2 Hb2].
  { subst lower. destruct (Z.eqb_spec rem 0); simpl; [by split; [|lia]|].
    destruct (Z.ltb_spec 0 k) as [Hlt|Hge]; [|split; [done|intros j Hj _; by rewrite Z.bits_0]].
    split; [apply (word_ok m src _ _ Hl); lia|]. intros j Hj _.
    by rewrite (testbit_word m src _ _ j Hl) by lia. }
  assert (rem = 0 -> lower = 0) as Hl0 by (intros ->; done). clearbody lower.
  set (v := Z.lor _ _).
  assert (fits 32 v) as Hv by (subst v; auto 6 with kword).
  pose proof (BITS_TO_LONGS_bounds bits Hb) as [_ Hlong].
  assert (forall j, 0 <= j < 32 -> 32 * (k + off) + j < bits -> Z.testbit v j =
    (shift <=? 32 * (k + off) + j) && bit m src (32 * (k + off) + j - shift)) as Hvb.
  { intros j Hj Hlt. subst v. rewrite Z.lor_spec, testbit_wrap, Z.shiftl_spec, Z.shiftr_spec by lia.
    replace (j <? 32) with true by lia. simpl. destruct (Z.lt_ge_cases j rem) as [Hjr|Hjr].
    - rewrite (Z.testbit_neg_r (seen _ _ _ _)), orb_false_r by lia. rewrite Hb2 by lia.
      replace (32 * (k - 1) + (j + (32 - rem))) with (32 * (k + off) + j - shift) by lia.
      f_equal. lia.
    - rewrite Hb1 by lia. replace (32 * k + (j - rem)) with (32 * (k + off) + j - shift) by lia.
      replace (32 * (k + off) + j - shift <? bits) with true by lia.
      replace (shift <=? 32 * (k + off) + j) with true by lia. simpl.
      destruct (Z.eq_dec rem 0) as [E|E].
      + by rewrite Hl0, Z.bits_0 by done.
      + by rewrite (fits_testbit_high 32 lower) by (done || lia). }
  destruct (Z.eqb_spec (bits mod 32) 0) as [E|E]; simpl.
  { destruct (no_last_word bits Hb E) as [En Eb]. split; [done|]. intros j Hj.
    rewrite Hvb by lia. replace (_ <? bits) with true by lia. by rewrite andb_true_r. }
  pose proof (Z.mod_pos_bound bits 32 ltac:(lia)).
  destruct (last_word bits) as (En & Eb & ?); [lia|lia|].
  destruct (Z.eqb_spec (k + off) (BITS_TO_LONGS bits - 1)) as [Ek|Ek].
  - rewrite shift_mask_spec by lia. split.
    { apply fits_land_l; [lia|done|]. rewrite Z.ones_equiv. lia. }
    intros j Hj. rewrite Z.land_spec, Ztestbit_ones by lia.
    destruct (Z.ltb_spec (32 * (k + off) + j) bits) as [Hlt|Hge].
    + rewrite Hvb by lia. replace ((0 <=? j) && (j <? bits mod 32)) with true by lia.
      by rewrite !andb_true_r.
    + replace (j <? bits mod 32) with false by lia. by rewrite !andb_false_r.
  - split; [done|]. intros j Hj. rewrite Hvb by lia. replace (_ <? bits) with true by lia.
    by rewrite andb_true_r.
Qed.

Lemma shl_body_ok m m' dst src shift bits k :
  0 <= bits -> 0 <= shift -> longs m src (BITS_TO_LONGS bits) -> longs m dst (BITS_TO_LONGS bits) ->
  backward_ok dst src (BITS_TO_LONGS bits) -> 0 <= k < BITS_TO_LONGS bits - shift / 32 ->
  (forall a, a <= dst + shift / 32 + k \/ dst + BITS_TO_LONGS bits <= a -> m' !! a = m !! a) ->
  (lower ← (if negb (shift mod 32 =? 0) && (0 <? k) then load (src + (k - 1)) else mret 0);
   upper ← load (src + k);
   let upper := if negb (bits mod 32 =? 0) && (k =? BITS_TO_LONGS bits - 1)
                then Z.land upper (shift_mask bits) else upper in
   store (dst + (k + shift / 32))
     (Z.lor (Z.shiftr lower (32 - shift mod 32)) (u32 (Z.shiftl upper (shift mod 32)))) ;;
   if negb (bits mod 32 =? 0) && (k + shift / 32 =? BITS_TO_LONGS bits - 1) then
     w ← load (dst + (k + shift / 32));
     store (dst + (k + shift / 32)) (Z.land w (shift_mask bits))
   else mret tt) m' = Ok (tt, <[dst + shift / 32 + k := shl_word m src shift bits k]> m').
Proof.
  intros Hb Hs Hl Hd Ho Hk Hsame. unfold backward_ok in Ho.
  assert (0 <= shift / 32) by (apply Z.div_pos; lia).
  set (lim := BITS_TO_LONGS bits) in *. set (off := shift / 32) in *. set (rem := shift mod 32) in *.
  set (lower := if negb (rem =? 0) && (0 <? k) then word m src (k - 1) else 0).
  erewrite (bind_Ok _ _ lower m').
  2: { subst lower. destruct (negb (rem =? 0) && (0 <? k)) eqn:E; [|done].
       unfold load. rewrite Hsame by lia.
       by rewrite (proj1 (word_ok m src lim (k - 1) Hl ltac:(lia))). }
  rewrite (bind_load _ (word m src k))
    by (rewrite Hsame by lia; apply (word_ok m src lim); [done|lia]).
  cbv zeta. fold lim. change (if negb (bits mod 32 =? 0) && (k =? lim - 1)
    then Z.land (word m src k) (shift_mask bits) else word m src k) with (seen m src bits k).
  set (v := Z.lor _ _). replace (dst + (k + off)) with (dst + off + k) by lia.
  rewrite bind_store by (rewrite Hsame by lia; rewrite <- Z.add_assoc;
    apply (longs_mapped m dst lim); [done|lia]).
  unfold shl_word. fold lim off rem lower v. cbv zeta.
  destruct (negb (bits mod 32 =? 0) && (k + off =? lim - 1)); [|done].
  rewrite (bind_load _ v) by apply lookup_insert_eq.
  unfold store. rewrite lookup_insert_eq. by rewrite insert_insert_eq.
Qed.

Lemma wp_bitmap_shift_left m dst src shift bits :
  0 <= bits -> 0 <= shift -> shift / 32 <= BITS_TO_LONGS bits ->
  longs m src (BITS_TO_LONGS bits) -> longs m dst (BITS_TO_LONGS bits) ->
  backward_ok dst src (BITS_TO_LONGS bits) ->
  wp (__bitmap_shift_left dst src shift bits) (fun _ m' =>
    holds m m' dst (BITS_TO_LONGS bits)
      (fun i => (shift <=? i) && (i <? bits) && bit m src (i - shift))) m.
Proof.
  intros Hb Hs Hoff Hl Hd Ho. unfold __bitmap_shift_left, BITS_PER_LONG. apply wp_bind.
  assert (0 <= shift / 32) by (apply Z.div_pos; lia).
  set (lim := BITS_TO_LONGS bits) in *. set (off := shift / 32) in *.
  eapply wp_mono.
  { apply (wp_fill_words_down (lim - off) (dst + off) _ (shl_word m src shift bits)); [lia|].
    intros k m' Hk Hsame. apply shl_body_ok; try done. intros a Ha. apply Hsame. subst lim off. lia. }
  intros [] m' [Hw Hout].
  assert (holds m m' (dst + off) (lim - off) (fun i => let i := i + 32 * off in
    (shift <=? i) && (i <? bits) && bit m src (i - shift))) as Hh.
  { apply (holds_words _ _ _ _ _ _ Hw); [|done]. intros k Hk.
    destruct (shl_word_ok m src shift bits k) as [Hf Hbit]; [done..|lia|subst lim off; lia|].
    split; [done|]. intros j Hj. rewrite Hbit by done. cbv zeta.
    by replace (32 * k + j + 32 * off) with (32 * (k + shift / 32) + j) by (subst off; lia). }
  destruct (Z.eqb_spec off 0) as [E|E]; cbn [negb].
  - apply wp_ret. rewrite E, Z.sub_0_r, Z.add_0_r in Hh. eapply holds_ext; [|done].
    intros i Hi. simpl. by rewrite Z.add_0_r.
  - eapply wp_mono; [apply (wp_memset_longs _ 0 _ m' false); [lia| |done|intros; apply Z.bits_0]|].
    + intros a Ha. rewrite Hout by lia. apply (longs_is_mapped m dst lim); [done|lia].
    + intros [] m'' Hh'. apply (holds_below m m' m'' dst off lim _ _ _ ltac:(lia) Hh Hh').
      intros i Hi. cbv zeta. destruct (Z.ltb_spec i (32 * off)).
      * replace (shift <=? i) with false by (subst off; Z.div_mod_to_equations; lia). done.
      * by replace (i - 32 * off + 32 * off) with i by lia.
Qed.

(** ** Ordinals of set bits *)

Lemma count_S f i : 0 <= i -> count f (Z.to_nat (i + 1)) = count f (Z.to_nat i) + Z.b2z (f i).
Proof.
  intros. replace (Z.to_nat (i + 1)) with (S (Z.to_nat i)) by lia. simpl. by rewrite Z2Nat.id by lia.
Qed.

Lemma count_skip f lo hi :
  0 <= lo <= hi -> (forall i, lo <= i < hi -> f i = false) ->
  count f (Z.to_nat hi) = count f (Z.to_nat lo).
Proof.
  intros Hle Hno. replace (Z.to_nat hi) with (Z.to_nat lo + Z.to_nat (hi - lo))%nat by lia.
  rewrite count_add, (count_false (fun i => f (Z.of_nat (Z.to_nat lo) + i))); [lia|].
  intros i Hi. apply Hno. lia.
Qed.

Lemma count_mono f lo hi : 0 <= lo <= hi -> count f (Z.to_nat lo) <= count f (Z.to_nat hi).
Proof.
  intros. replace (Z.to_nat hi) with (Z.to_nat lo + Z.to_nat (hi - lo))%nat by lia.
  rewrite count_add. pose proof (count_range (fun i => f (Z.of_nat (Z.to_nat lo) + i)) (Z.to_nat (hi - lo))).
  lia.
Qed.

(** Set bits are told apart by their ordinals. *)
Lemma count_inj f i j :
  0 <= i -> 0 <= j -> f i = true -> f j = true ->
  count f (Z.to_nat i) = count f (Z.to_nat j) -> i = j.
Proof.
  intros Hi Hj Fi Fj E. destruct (Z.lt_trichotomy i j) as [H|[H|H]]; [|done|].
  - pose proof (count_mono f (i + 1) j ltac:(lia)). rewrite count_S, Fi in * by lia. simpl in *. lia.
  - pose proof (count_mono f (j + 1) i ltac:(lia)). rewrite count_S, Fj in * by lia. simpl in *. lia.
Qed.

(** The set bit of ordinal [ord], or 0. *)
Definition nth_set (f : Z -> bool) (bits ord : Z) : Z :=
  match List.find (fun i => f i && (count f (Z.to_nat i) =? ord)) (seqZ 0 bits) with
  | Some i => i
  | None => 0
  end.

Lemma nth_set_eq f bits i :
  0 <= i < bits -> f i = true -> nth_set f bits (count f (Z.to_nat i)) = i.
Proof.
  intros Hi Hf. unfold nth_set. destruct (List.find _ _) as [j|] eqn:E.
  - apply find_some in E as [Hj E]. apply list_elem_of_In, elem_of_seqZ in Hj.
    apply andb_true_iff in E as [Fj Ej]. apply (count_inj f); [lia|lia|done|done|lia].
  - pose proof (find_none _ _ E i) as H. cbv beta in H. rewrite Hf, Z.eqb_refl in H.
    discriminate H. apply list_elem_of_In, elem_of_seqZ. lia.
Qed.

Lemma nth_set_none f bits ord : count f (Z.to_nat bits) <= ord -> nth_set f bits ord = 0.
Proof.
  intros Ho. unfold nth_set. destruct (List.find _ _) as [j|] eqn:E; [|done].
  apply find_some in E as [Hj E]. apply list_elem_of_In, elem_of_seqZ in Hj.
  apply andb_true_iff in E as [Fj Ej]. pose proof (count_mono f (j + 1) bits ltac:(lia)).
  rewrite count_S, Fj in * by lia. simpl in *. lia.
Qed.

Lemma nth_set_range f bits ord : 0 < bits -> 0 <= nth_set f bits ord < bits.
Proof.
  intros Hb. unfold nth_set. destruct (List.find _ _) as [j|] eqn:E; [|lia].
  apply find_some in E as [Hj _]. apply list_elem_of_In, elem_of_seqZ in Hj. lia.
Qed.

(** find_next_bit one past a position of the bitmap. *)
Lemma wp_next_bit m addr size offset :
  longs m addr (BITS_TO_LONGS size) -> 0 <= offset <= size -> size < 2 ^ 32 ->
  wp (find_next_bit addr size offset)
    (fun r m' => m' = m /\ next_at (bit m addr) offset size r) m.
Proof.
  intros Hl Ho Hs. destruct (Z.lt_ge_cases offset size) as [Hlt|Hge];
    [apply wp_find_next_bit; [done|lia|done]|].
  unfold find_next_bit. rewrite (proj2 (Z.leb_le _ _) Hge). apply wp_ret.
  split; [done|]. split; [lia|]. split; [lia|lia].
Qed.

Section Ordinals.
Context (m : mem) (buf bits : Z).
Hypotheses (Hbits : 0 <= bits < 2 ^ 31) (Hl : longs m buf (BITS_TO_LONGS bits)).
Abbreviation f := (bit m buf).

Lemma wp_pos_to_ord pos :
  wp (bitmap_pos_to_ord buf pos bits) (fun r m' => m' = m /\
    r = if (0 <=? pos) && (pos <? bits) && f pos then count f (Z.to_nat pos) else -1) m.
Proof using Hbits Hl.
  unfold bitmap_pos_to_ord. destruct ((pos <? 0) || (bits <=? pos)) eqn:E.
  { apply wp_ret. split; [done|]. by replace ((0 <=? pos) && (pos <? bits)) with false by lia. }
  replace ((0 <=? pos) && (pos <? bits)) with true by lia. simpl.
  assert (0 <= pos < bits) as Hp by lia.
  apply wp_bind. eapply wp_det.
  { apply (test_bit_ok m buf (BITS_TO_LONGS bits)); [done|lia|apply BITS_TO_LONGS_spec; lia]. }
  destruct (f pos) eqn:Fp; simpl; [|by apply wp_ret].
  apply wp_bind. eapply wp_mono; [apply wp_find_first_bit; [done|lia]|].
  intros i0 m' (-> & Hr & Hno & Hy). apply wp_bind.
  assert (i0 <= pos) by (destruct (Z.le_gt_cases i0 pos); [done|]; by rewrite Hno in Fp by lia).
  apply (wp_loop (fun '(i, ord) m' => m' = m /\ 0 <= i <= pos /\ f i = true /\
    ord = count f (Z.to_nat i)) (fun '(i, _) => Z.to_nat (pos - i))); [|lia|].
  { split; [done|]. split; [lia|]. split; [apply Hy; lia|].
    rewrite (count_skip f 0 i0) by (done || lia). done. }
  intros [i ord] m' (-> & Hi & Fi & ->). destruct (Z.ltb_spec i pos) as [Hlt|Hge].
  - apply wp_bind. eapply wp_mono; [apply wp_next_bit; [done|lia|lia]|].
    intros r m' (-> & Hr' & Hno' & Hy'). apply wp_ret.
    assert (r <= pos) by (destruct (Z.le_gt_cases r pos); [done|]; by rewrite Hno' in Fp by lia).
    split; [|lia]. split; [done|]. split; [lia|]. split; [apply Hy'; lia|].
    rewrite (count_skip f (i + 1) r), count_S, Fi by (done || lia). done.
  - apply wp_ret. assert (i = pos) as -> by lia. apply wp_bind.
    apply wp_BUG_ON; [by rewrite Z.eqb_refl|]. by apply wp_ret.
Qed.

Lemma wp_ord_to_pos ord :
  wp (bitmap_ord_to_pos buf ord bits) (fun r m' => m' = m /\
    r = if (0 <=? ord) && (ord <? bits) then nth_set f bits ord else 0) m.
Proof using Hbits Hl.
  unfold bitmap_ord_to_pos. destruct ((0 <=? ord) && (ord <? bits)) eqn:E; [|by apply wp_ret].
  apply wp_bind. eapply wp_mono; [apply wp_find_first_bit; [done|lia]|].
  intros i0 m' (-> & Hr & Hno & Hy). apply wp_bind.
  apply (wp_loop (fun '(i, o) m' => m' = m /\ 0 <= i <= bits /\ (i < bits -> f i = true) /\
    0 <= o /\ count f (Z.to_nat i) + o = ord) (fun '(_, o) => Z.to_nat o)); [|lia|].
  { split; [done|]. split; [lia|]. split; [done|]. split; [lia|].
    rewrite (count_skip f 0 i0) by (done || lia). simpl. lia. }
  intros [i o] m' (-> & Hi & Fi & Ho & Ec). destruct ((i <? bits) && (0 <? o)) eqn:E'.
  - apply wp_bind. eapply wp_mono; [apply wp_next_bit; [done|lia|lia]|].
    intros r m' (-> & Hr' & Hno' & Hy'). apply wp_ret. split; [|lia].
    split; [done|]. split; [lia|]. split; [done|]. split; [lia|].
    rewrite (count_skip f (i + 1) r), count_S, Fi by (done || lia). simpl. lia.
  - apply wp_ret. destruct (Z.ltb_spec i bits) as [Hlt|Hge]; simpl in *.
    + replace (o =? 0) with true by lia. apply wp_ret. split; [done|].
      replace ord with (count f (Z.to_nat i)) by lia. rewrite nth_set_eq; [done|lia|auto].
    + apply wp_ret. split; [done|]. rewrite nth_set_none; [done|].
      replace bits with i by lia. lia.
Qed.
End Ordinals.

(** ** Loops over set bits *)

(** Two memories that agree on the longs of a bitmap. *)
Definition agree (m m' : mem) (p n : Z) : Prop := forall a, p <= a < p + n -> m' !! a = m !! a.

Lemma agree_longs m m' p n : agree m m' p n -> longs m p n -> longs m' p n.
Proof. intros Ha Hl k Hk. rewrite Ha by lia. by apply Hl. Qed.

Lemma agree_bit m m' p n i : agree m m' p n -> 0 <= i < 32 * n -> bit m' p i = bit m p i.
Proof. intros Ha Hi. unfold bit. by rewrite Ha by (Z.div_mod_to_equations; lia). Qed.

Lemma next_at_ext f g lo hi r :
  0 <= lo -> (forall i, lo <= i < hi -> f i = g i) -> next_at f lo hi r -> next_at g lo hi r.
Proof.
  intros Hlo Hfg (Hr & Hno & Hy). split; [done|]. split.
  - intros i Hi. rewrite <- Hfg by lia. by apply Hno.
  - intros Hlt. rewrite <- Hfg by lia. by apply Hy.
Qed.

Lemma agree_next m m' p size offset :
  agree m m' p (BITS_TO_LONGS size) -> longs m p (BITS_TO_LONGS size) ->
  0 <= offset <= size -> size < 2 ^ 31 ->
  wp (find_next_bit p size offset)
    (fun r m'' => m'' = m' /\ next_at (bit m p) offset size r) m'.
Proof.
  intros Ha Hl Ho Hs. pose proof (BITS_TO_LONGS_bounds size ltac:(lia)).
  eapply wp_mono; [apply wp_next_bit; [by eapply agree_longs|lia|lia]|].
  intros r m'' [-> Hn]. split; [done|]. eapply next_at_ext; [| |done]; [lia|].
  intros i Hi. apply (agree_bit m m' p (BITS_TO_LONGS size)); [done|lia].
Qed.

(** The loop rule: [I k] holds when the set bits below [k] have been visited. *)
Lemma wp_for_each_bit (I : Z -> mem -> Prop) m buf bits body (Q : unit -> mem -> Prop) :
  0 <= bits < 2 ^ 31 -> longs m buf (BITS_TO_LONGS bits) -> I 0 m ->
  (forall k m', I k m' -> agree m m' buf (BITS_TO_LONGS bits)) ->
  (forall i m', 0 <= i < bits -> bit m buf i = true -> I i m' -> wp (body i) (fun _ => I (i + 1)) m') ->
  (forall k m', 0 <= k < bits -> bit m buf k = false -> I k m' -> I (k + 1) m') ->
  (forall m', I bits m' -> Q tt m') ->
  wp (for_each_bit buf bits body) Q m.
Proof.
  intros Hb Hl HI Hagree Hbody Hskip Hend. unfold for_each_bit.
  assert (forall lo hi m', 0 <= lo <= hi -> hi <= bits ->
    (forall i, lo <= i < hi -> bit m buf i = false) -> I lo m' -> I hi m') as Hskips.
  { intros lo hi m' Hle Hhi Hno HI'. replace hi with (lo + Z.of_nat (Z.to_nat (hi - lo))) by lia.
    assert (Z.of_nat (Z.to_nat (hi - lo)) <= hi - lo) as Hn by lia. revert Hn.
    induction (Z.to_nat (hi - lo)) as [|n IH]; intros Hn; [by rewrite Z.add_0_r|].
    replace (lo + Z.of_nat (S n)) with (lo + Z.of_nat n + 1) by lia.
    apply Hskip; [lia|apply Hno; lia|apply IH; lia]. }
  apply wp_bind. eapply wp_mono; [apply wp_find_first_bit; [done|lia]|].
  intros i0 m0 (-> & Hr & Hno & Hy).
  apply (wp_loop (fun i m' => 0 <= i <= bits /\ (i < bits -> bit m buf i = true) /\ I i m')
    (fun i => Z.to_nat (bits - i))).
  - split; [lia|]. split; [done|]. apply Hskips with 0; [lia|lia|done|done].
  - lia.
  - intros i m' (Hi & Fi & HI'). destruct (Z.ltb_spec i bits) as [Hlt|Hge].
    + apply wp_bind. eapply wp_mono; [apply Hbody; [lia|auto|done]|]. intros [] m1 HI1.
      apply wp_bind. eapply wp_mono; [apply (agree_next m m1); [by eapply Hagree|done|lia|lia]|].
      intros r m2 (-> & Hr' & Hno' & Hy'). apply wp_ret. split; [|lia].
      split; [lia|]. split; [done|]. apply Hskips with (i + 1); [lia|lia|done|done].
    + apply wp_ret. apply Hend. by replace bits with i by lia.
Qed.

Lemma any_bit_S f k : 0 <= k -> any_bit f (k + 1) = any_bit f k || f k.
Proof.
  intros Hk. unfold any_bit. rewrite seqZ_app by lia. rewrite existsb_app. simpl.
  by rewrite orb_false_r.
Qed.

(** A store into a bitmap being filled. *)
Lemma wp_set_bit_holds m m' dst n f nr :
  holds m m' dst n f -> 0 <= nr < 32 * n ->
  wp (__set_bit nr dst) (fun _ m'' => holds m m'' dst n (fun i => (i =? nr) || f i)) m'.
Proof.
  intros (Hf & Hl & Ho) Hnr. assert (0 <= nr / 32 < n) by (Z.div_mod_to_equations; lia).
  eapply wp_mono; [apply (wp_set_bit m' dst n nr); [done|lia|lia]|].
  intros [] m'' (Hb & Hout & Hl'). split; [|split].
  - intros i Hi. rewrite Hb, Hf by lia. done.
  - by apply Hl'.
  - intros a Ha. rewrite Hout by lia. by apply Ho.
Qed.

(** The bits an image of a bitmap under a map of positions has. *)
Definition image (g : Z -> Z) (f : Z -> bool) (n i : Z) : bool :=
  any_bit (fun o => f o && (g o =? i)) n.

Lemma image_step g f k i :
  0 <= k -> image g f (k + 1) i = image g f k i || (f k && (g k =? i)).
Proof. apply any_bit_S. Qed.

Definition disjoint_longs (p q n : Z) : Prop := p + n <= q \/ q + n <= p.

Lemma holds_agree m m' dst n f q :
  holds m m' dst n f -> disjoint_longs dst q n -> agree m m' q n.
Proof. intros (_ & _ & Ho) Hd a Ha. apply Ho. unfold disjoint_longs in Hd. lia. Qed.

(** A loop over the set bits of [src] that sets the image of each in [dst]. *)
Lemma wp_set_images m m1 dst src bits (g : Z -> Z) body :
  0 <= bits < 2 ^ 31 -> longs m src (BITS_TO_LONGS bits) ->
  disjoint_longs dst src (BITS_TO_LONGS bits) ->
  holds m m1 dst (BITS_TO_LONGS bits) (fun _ => false) ->
  (forall i m' f, 0 <= i < bits -> holds m m' dst (BITS_TO_LONGS bits) f ->
     wp (body i) (fun _ m'' => holds m m'' dst (BITS_TO_LONGS bits) (fun j => (j =? g i) || f j)) m') ->
  wp (for_each_bit src bits body)
    (fun _ m' => holds m m' dst (BITS_TO_LONGS bits) (image g (bit m src) bits)) m1.
Proof.
  intros Hb Hl Hd H1 Hbody. pose proof (holds_agree _ _ _ _ _ _ H1 Hd) as Ha.
  pose proof (BITS_TO_LONGS_bounds bits ltac:(lia)).
  apply (wp_for_each_bit (fun k m' => holds m m' dst (BITS_TO_LONGS bits) (image g (bit m src) k)));
    [done|by eapply agree_longs|done| | | |done].
  - intros k m' Hh a Hr. rewrite (holds_agree _ _ _ _ _ _ Hh Hd) by done. symmetry. by apply Ha.
  - intros i m' Hi Fi Hh. rewrite (agree_bit _ _ _ _ _ Ha) in Fi by lia.
    eapply wp_mono; [by apply Hbody|]. intros [] m'' Hh'. eapply holds_ext; [|done].
    intros j Hj. cbv beta. rewrite image_step, Fi, (Z.eqb_sym j) by lia. simpl. apply orb_comm.
  - intros k m' Hk Fk Hh. rewrite (agree_bit _ _ _ _ _ Ha) in Fk by lia.
    eapply holds_ext; [|done]. intros j Hj. cbv beta. rewrite image_step, Fk by lia.
    by rewrite orb_false_r.
Qed.

Lemma wp_bitmap_fold m dst orig sz bits :
  0 <= bits < 2 ^ 31 -> 0 < sz -> longs m orig (BITS_TO_LONGS bits) ->
  longs m dst (BITS_TO_LONGS bits) -> disjoint_longs dst orig (BITS_TO_LONGS bits) -> dst <> orig ->
  wp (bitmap_fold dst orig sz bits) (fun _ m' =>
    holds m m' dst (BITS_TO_LONGS bits) (image (fun o => o mod sz) (bit m orig) bits)) m.
Proof.
  intros Hb Hsz Ho Hd Hdis Hne. unfold bitmap_fold.
  destruct (Z.eqb_spec dst orig) as [E|_]; [done|].
  apply wp_bind. eapply wp_mono; [apply wp_bitmap_zero; [lia|by apply longs_is_mapped]|].
  intros [] m1 H1. apply wp_set_images; try done. intros i m' f Hi Hh.
  apply wp_set_bit_holds; [done|]. pose proof (BITS_TO_LONGS_bounds bits ltac:(lia)).
  pose proof (Z.mod_pos_bound i sz Hsz). pose proof (Z.mod_le i sz ltac:(lia) Hsz). lia.
Qed.

(** The map of positions that [old] and [new] define: the n-th set bit of [old]
    goes to the (n mod w)-th set bit of [new], w the weight of [new]; the other
    positions stay. *)
Definition remap_pos (fold fnew : Z -> bool) (bits oldbit : Z) : Z :=
  let w := count fnew (Z.to_nat bits) in
  if (0 <=? oldbit) && (oldbit <? bits) && fold oldbit && negb (w =? 0) then
    nth_set fnew bits (count fold (Z.to_nat oldbit) mod w)
  else oldbit.

Lemma holds_refl m dst n f :
  longs m dst n -> (forall i, 0 <= i < 32 * n -> bit m dst i = f i) -> holds m m dst n f.
Proof. intros Hl Hf. by split. Qed.

Lemma count_agree m m' p bits :
  0 <= bits -> agree m m' p (BITS_TO_LONGS bits) ->
  forall i, 0 <= i <= bits -> count (bit m' p) (Z.to_nat i) = count (bit m p) (Z.to_nat i).
Proof.
  intros Hb Ha i Hi. pose proof (BITS_TO_LONGS_bounds bits Hb).
  apply count_ext. intros j Hj. apply (agree_bit _ _ _ _ _ Ha). lia.
Qed.

Lemma nth_set_ext f g bits ord :
  (forall i, 0 <= i < bits -> f i = g i) -> nth_set f bits ord = nth_set g bits ord.
Proof.
  intros H. unfold nth_set. assert (forall l, (forall i, i ∈ l -> 0 <= i < bits) ->
    List.find (fun i => f i && (count f (Z.to_nat i) =? ord)) l =
    List.find (fun i => g i && (count g (Z.to_nat i) =? ord)) l) as Hl.
  { intros l. induction l as [|i l IH]; intros Hl; [done|]. simpl.
    assert (0 <= i < bits) by (apply Hl; left). rewrite H by done.
    rewrite (count_ext f g) by (intros; apply H; lia).
    destruct (_ && _); [done|]. apply IH. intros; apply Hl. by right. }
  rewrite Hl; [done|]. intros i Hi. apply elem_of_seqZ in Hi. lia.
Qed.

(** The two ordinal routines run one after the other, on a memory that agrees
    with [m] on both bitmaps. *)
Lemma wp_remap_one m m' old new bits oldbit (k : Z -> M unit) Q :
  0 <= bits < 2 ^ 31 -> 0 <= oldbit < bits ->
  longs m old (BITS_TO_LONGS bits) -> longs m new (BITS_TO_LONGS bits) ->
  agree m m' old (BITS_TO_LONGS bits) -> agree m m' new (BITS_TO_LONGS bits) ->
  wp (k (remap_pos (bit m old) (bit m new) bits oldbit)) Q m' ->
  let w := count (bit m new) (Z.to_nat bits) in
  wp (n ← bitmap_pos_to_ord old oldbit bits;
      if (n <? 0) || (w =? 0) then k oldbit
      else pos ← bitmap_ord_to_pos new (n mod w) bits; k pos) Q m'.
Proof.
  intros Hb Ho Hold Hnew Aold Anew Hk w. pose proof (BITS_TO_LONGS_bounds bits ltac:(lia)).
  unfold remap_pos in Hk. fold w in Hk. apply wp_bind.
  eapply wp_mono; [apply (wp_pos_to_ord m'); [lia|by eapply agree_longs]|].
  intros n m1 [-> ->]. rewrite (agree_bit _ _ _ _ _ Aold) by lia.
  replace ((0 <=? oldbit) && (oldbit <? bits)) with true in * by lia. simpl in Hk. simpl.
  rewrite (count_agree _ _ _ bits ltac:(lia) Aold) by lia.
  pose proof (count_range (bit m old) (Z.to_nat oldbit)).
  destruct (bit m old oldbit); simpl in *; [|done].
  replace (count _ _ <? 0) with false by lia. simpl.
  destruct (Z.eqb_spec w 0) as [E|E]; simpl in *; [done|].
  pose proof (count_range (bit m new) (Z.to_nat bits)) as Hw. fold w in Hw.
  apply wp_bind. eapply wp_mono; [apply (wp_ord_to_pos m'); [lia|by eapply agree_longs]|].
  intros pos m1 [-> ->].
  pose proof (Z.mod_pos_bound (count (bit m old) (Z.to_nat oldbit)) w ltac:(lia)).
  replace ((0 <=? _) && (_ <? bits)) with true by lia.
  by rewrite (nth_set_ext _ (bit m new)) by (intros; apply (agree_bit _ _ _ _ _ Anew); lia).
Qed.

Lemma remap_pos_range f g bits o : 0 <= o < bits -> 0 <= remap_pos f g bits o < bits.
Proof.
  intros Ho. unfold remap_pos. destruct (_ && _); [|done]. apply nth_set_range. lia.
Qed.

Lemma wp_bitmap_remap m dst src old new bits :
  0 <= bits < 2 ^ 31 -> dst <> src ->
  longs m dst (BITS_TO_LONGS bits) -> longs m src (BITS_TO_LONGS bits) ->
  longs m old (BITS_TO_LONGS bits) -> longs m new (BITS_TO_LONGS bits) ->
  disjoint_longs dst src (BITS_TO_LONGS bits) ->
  disjoint_longs dst old (BITS_TO_LONGS bits) -> disjoint_longs dst new (BITS_TO_LONGS bits) ->
  wp (bitmap_remap dst src old new bits) (fun _ m' =>
    holds m m' dst (BITS_TO_LONGS bits)
      (image (remap_pos (bit m old) (bit m new) bits) (bit m src) bits)) m.
Proof.
  intros Hb Hne Hd Hs Hold Hnew Ds Dold Dnew. unfold bitmap_remap.
  destruct (Z.eqb_spec dst src) as [|_]; [done|]. pose proof (BITS_TO_LONGS_bounds bits ltac:(lia)).
  apply wp_bind. eapply wp_mono; [apply wp_bitmap_zero; [lia|by apply longs_is_mapped]|].
  intros [] m1 H1. pose proof (holds_agree _ _ _ _ _ _ H1 Dnew) as Anew.
  apply wp_bind. eapply wp_mono; [apply wp_bitmap_weight; [lia|by eapply agree_longs]|].
  intros w m2 [-> ->]. rewrite (count_agree _ _ _ bits ltac:(lia) Anew) by lia.
  apply wp_set_images; try done. intros i m' f Hi Hh.
  apply (wp_remap_one m m' old new bits i (fun nr => __set_bit nr dst)); try done.
  - by eapply holds_agree.
  - by eapply holds_agree.
  - apply wp_set_bit_holds; [done|]. pose proof (remap_pos_range (bit m old) (bit m new) bits i Hi). lia.
Qed.

Lemma wp_bitmap_bitremap m oldbit old new bits :
  0 <= bits < 2 ^ 31 ->
  longs m old (BITS_TO_LONGS bits) -> longs m new (BITS_TO_LONGS bits) ->
  wp (bitmap_bitremap oldbit old new bits) (fun r m' =>
    r = remap_pos (bit m old) (bit m new) bits oldbit /\ m' = m) m.
Proof.
  intros Hb Hold Hnew. unfold bitmap_bitremap, remap_pos. pose proof (BITS_TO_LONGS_bounds bits ltac:(lia)).
  apply wp_bind. eapply wp_mono; [by apply wp_bitmap_weight; [lia|]|].
  intros w m1 [-> ->]. set (w := count _ _).
  apply wp_bind. eapply wp_mono; [by apply wp_pos_to_ord|]. intros n m1 [-> ->].
  destruct ((0 <=? oldbit) && (oldbit <? bits)) eqn:Er; simpl; [|by apply wp_ret].
  pose proof (count_range (bit m old) (Z.to_nat oldbit)).
  destruct (bit m old oldbit); simpl in *; [|by apply wp_ret].
  replace (count _ _ <? 0) with false by lia. simpl.
  destruct (Z.eqb_spec w 0) as [E|E]; simpl in *; [by apply wp_ret|].
  pose proof (count_range (bit m new) (Z.to_nat bits)) as Hw. fold w in Hw.
  eapply wp_mono; [by apply wp_ord_to_pos|]. intros pos m1 [-> ->].
  pose proof (Z.mod_pos_bound (count (bit m old) (Z.to_nat oldbit)) w ltac:(lia)).
  by replace ((0 <=? _) && (_ <? bits)) with true by lia.
Qed.

Lemma wp_bitmap_onto m dst orig relmap bits :
  0 <= bits < 2 ^ 31 -> dst <> orig ->
  longs m dst (BITS_TO_LONGS bits) -> longs m orig (BITS_TO_LONGS bits) ->
  longs m relmap (BITS_TO_LONGS bits) ->
  disjoint_longs dst orig (BITS_TO_LONGS bits) -> disjoint_longs dst relmap (BITS_TO_LONGS bits) ->
  wp (bitmap_onto dst orig relmap bits) (fun _ m' =>
    holds m m' dst (BITS_TO_LONGS bits) (fun i =>
      (i <? bits) && bit m relmap i && bit m orig (count (bit m relmap) (Z.to_nat i)))) m.
Proof.
  intros Hb Hne Hd Ho Hr Do Dr. unfold bitmap_onto.
  destruct (Z.eqb_spec dst orig) as [|_]; [done|]. pose proof (BITS_TO_LONGS_bounds bits ltac:(lia)).
  set (f := bit m relmap). set (res := fun i => f i && bit m orig (count f (Z.to_nat i))).
  apply wp_bind. eapply wp_mono; [apply wp_bitmap_zero; [lia|by apply longs_is_mapped]|].
  intros [] m1 H1. apply wp_bind.
  pose proof (holds_agree _ _ _ _ _ _ H1 Dr) as Ar.
  eapply wp_mono; [apply wp_find_first_bit; [by eapply agree_longs|lia]|].
  intros n0 m2 (-> & Hn0). apply (next_at_ext _ f) in Hn0; [|lia|intros; apply (agree_bit _ _ _ _ _ Ar); lia].
  destruct Hn0 as (Hr0 & Hno0 & Hy0).
  apply (wp_loop (fun '(n, k) m' => 0 <= n <= bits /\ (n < bits -> f n = true) /\
      k = count f (Z.to_nat n) /\
      holds m m' dst (BITS_TO_LONGS bits) (fun i => (i <? n) && res i))
    (fun '(n, _) => Z.to_nat (bits - n))).
  - split; [lia|]. split; [done|]. split; [by rewrite (count_skip f 0 n0) by (done || lia)|].
    eapply holds_ext; [|done]. intros i Hi. destruct (Z.ltb_spec i n0); [|done].
    unfold res. by rewrite Hno0 by lia.
  - lia.
  - intros [n k] m' (Hn & Fn & -> & Hh). destruct (Z.ltb_spec n bits) as [Hlt|Hge].
    + pose proof (holds_agree _ _ _ _ _ _ Hh Do) as Ao.
      pose proof (count_range f (Z.to_nat n)).
      apply wp_bind. eapply wp_det.
      { apply (test_bit_ok m' orig (BITS_TO_LONGS bits)); [by eapply agree_longs|lia|].
        apply BITS_TO_LONGS_spec. lia. }
      rewrite (agree_bit _ _ _ _ _ Ao) by lia. apply wp_bind.
      apply wp_mono with (fun _ m' => holds m m' dst (BITS_TO_LONGS bits) (fun i => (i <? n + 1) && res i)).
      { assert (res n = bit m orig (count f (Z.to_nat n))) as Eres by (unfold res; by rewrite Fn).
        destruct (bit m orig (count f (Z.to_nat n))); simpl.
        - eapply wp_mono; [apply wp_set_bit_holds; [done|lia]|]. intros [] m2 Hh2.
          eapply holds_ext; [|done]. intros i Hi. cbv beta.
          destruct (Z.eqb_spec i n) as [->|]; [rewrite Eres; lia|]. simpl.
          f_equal. lia.
        - apply wp_ret. eapply holds_ext; [|done]. intros i Hi. cbv beta.
          destruct (Z.eqb_spec i n) as [->|]; [rewrite Eres; lia|]. f_equal. lia. }
      intros [] m2 Hh2. pose proof (holds_agree _ _ _ _ _ _ Hh2 Dr) as Ar2.
      apply wp_bind. eapply wp_mono; [by apply (agree_next m m2); [|done|lia|lia]|].
      intros r m3 (-> & Hr' & Hno' & Hy'). apply wp_ret. split; [|lia].
      split; [lia|]. split; [done|].
      split; [by rewrite (count_skip f (n + 1) r), count_S, Fn by (done || lia)|].
      eapply holds_ext; [|done]. intros i Hi. cbv beta.
      destruct (Z.ltb_spec i (n + 1)), (Z.ltb_spec i r); try (done || lia).
      unfold res, f. rewrite Hno' by lia. done.
    + apply wp_ret. eapply holds_ext; [|done]. intros i Hi. cbv beta.
      unfold res. rewrite <- andb_assoc. f_equal. lia.
Qed.

(** ** Regions *)

Definition region_mask (pos order : Z) : Z :=
  let nbits_reg := Z.shiftl 1 order in
  let offset := pos - pos / 32 * 32 in
  let nbitsinlong := Z.min nbits_reg 32 in
  let mask := u32 (Z.shiftl 1 (nbitsinlong - 1)) in
  let mask := u32 (mask + (mask - 1)) in
  u32 (Z.shiftl mask offset).

Definition region_longs (order : Z) : Z := BITS_TO_LONGS (Z.shiftl 1 order).

Definition in_region (pos order i : Z) : bool := (pos <=? i) && (i <? pos + 2 ^ order).

(** A region is aligned: it lies in one long, or it is made of whole longs. *)
Lemma region_cases pos order :
  0 <= pos -> 0 <= order -> (2 ^ order | pos) ->
  let offset := pos - pos / 32 * 32 in
  0 <= offset < 32 /\
  ((2 ^ order <= 32 /\ region_longs order = 1 /\ offset + 2 ^ order <= 32) \/
   (32 <= 2 ^ order /\ offset = 0 /\ 2 ^ order = 32 * region_longs order)).
Proof.
  intros Hpos Ho [q Hq] offset. unfold region_longs, BITS_TO_LONGS, BITS_PER_LONG.
  rewrite Z.shiftl_1_l. split; [subst offset; Z.div_mod_to_equations; lia|].
  destruct (Z.le_gt_cases order 5) as [Hle|Hgt].
  - left. assert (exists k, 32 = 2 ^ order * k) as [k Hk].
    { exists (2 ^ (5 - order)). rewrite <- Z.pow_add_r by lia. by replace (order + (5 - order)) with 5 by lia. }
    assert (0 < 2 ^ order) by lia.
    assert (0 < k) by nia. assert (2 ^ order <= 32) by nia.
    split; [done|]. split.
    + replace (2 ^ order + 32 - 1) with (1 * 32 + (2 ^ order - 1)) by lia.
      rewrite Z.div_add_l by lia. rewrite (Z.div_small (2 ^ order - 1)) by lia. lia.
    + assert (offset = 2 ^ order * (q - pos / 32 * k)) as Eo.
      { subst offset. generalize (pos / 32). intros d. rewrite Hk, Hq. ring. }
      assert (0 <= offset < 32) by (subst offset; Z.div_mod_to_equations; lia).
      assert (q - pos / 32 * k < k) by nia. nia.
  - right. assert (2 ^ order = 32 * 2 ^ (order - 5)) as E.
    { change 32 with (2 ^ 5). rewrite <- Z.pow_add_r by lia. f_equal. lia. }
    assert (0 < 2 ^ (order - 5)) by lia. split; [lia|]. split.
    + subst offset. rewrite Hq, E. replace (q * (32 * 2 ^ (order - 5))) with (q * 2 ^ (order - 5) * 32) by lia.
      rewrite Z.div_mul by lia. lia.
    + rewrite E. replace (32 * 2 ^ (order - 5) + 32 - 1) with (2 ^ (order - 5) * 32 + 31) by lia.
      rewrite Z.div_add_l by lia. change (31 / 32) with 0. lia.
Qed.

Lemma region_mask_bits pos order j :
  0 <= pos -> 0 <= order -> (2 ^ order | pos) -> 0 <= j < 32 ->
  let offset := pos - pos / 32 * 32 in
  Z.testbit (region_mask pos order) j = (offset <=? j) && (j <? offset + Z.min (2 ^ order) 32).
Proof.
  intros Hpos Ho Hd Hj offset. destruct (region_cases pos order Hpos Ho Hd) as [Hoff _].
  unfold region_mask. fold offset in Hoff |- *. rewrite !Z.shiftl_1_l. set (nb := Z.min (2 ^ order) 32).
  assert (0 < 2 ^ order) by lia. assert (1 <= nb <= 32) by (subst nb; lia).
  assert (2 ^ (nb - 1) < 2 ^ 32) by (apply Z.pow_lt_mono_r; lia).
  assert (2 ^ nb = 2 * 2 ^ (nb - 1)) as E by (rewrite <- Z.pow_succ_r by lia; f_equal; lia).
  assert (2 ^ nb <= 2 ^ 32) by (apply Z.pow_le_mono_r; lia).
  rewrite (wrap_id 32 (2 ^ (nb - 1))) by (unfold fits; lia).
  rewrite (wrap_id 32 (_ + _)) by (unfold fits; lia).
  replace (2 ^ (nb - 1) + (2 ^ (nb - 1) - 1)) with (Z.ones nb) by (rewrite Z.ones_equiv; lia).
  rewrite testbit_wrap, Z.shiftl_spec, Ztestbit_ones by lia. lia.
Qed.

Lemma fits_region_mask pos order : fits 32 (region_mask pos order).
Proof. apply wrap_fits. lia. Qed.

(** Bit [j] of the mask tells whether position [j] of a long of the region
    belongs to the region. *)
Lemma region_mask_in pos order i j :
  0 <= pos -> 0 <= order -> (2 ^ order | pos) -> 0 <= i < region_longs order -> 0 <= j < 32 ->
  Z.testbit (region_mask pos order) j = in_region pos order (32 * (pos / 32 + i) + j).
Proof.
  intros Hpos Ho Hd Hi Hj. rewrite region_mask_bits by done. unfold in_region.
  destruct (region_cases pos order Hpos Ho Hd) as [Hoff [(H1 & H2 & H3)|(H1 & H2 & H3)]].
  - assert (i = 0) as -> by lia. lia.
  - replace (Z.min _ 32) with 32 by lia. lia.
Qed.

Lemma region_outside pos order k :
  0 <= pos -> 0 <= order -> (2 ^ order | pos) ->
  in_region pos order k = true -> pos / 32 <= k / 32 < pos / 32 + region_longs order.
Proof.
  intros Hpos Ho Hd. unfold in_region.
  destruct (region_cases pos order Hpos Ho Hd) as [Hoff [(H1 & H2 & H3)|(H1 & H2 & H3)]];
    intros; Z.div_mod_to_equations; lia.
Qed.

(** Filling some longs inside a bitmap. *)
Lemma holds_inside m m' p n k0 k f g :
  longs m p n -> 0 <= k0 -> k0 + k <= n -> holds m m' (p + k0) k f ->
  (forall i, 0 <= i < 32 * n ->
     g i = if (k0 <=? i / 32) && (i / 32 <? k0 + k) then f (i - 32 * k0) else bit m p i) ->
  holds m m' p n g.
Proof.
  intros Hl Hk0 Hk (Hf & Hl' & Ho) Hg. split; [|split].
  - intros i Hi. rewrite Hg by done. destruct ((k0 <=? i / 32) && (i / 32 <? k0 + k)) eqn:E.
    + rewrite <- Hf by (Z.div_mod_to_equations; lia). unfold bit.
      replace (p + k0 + (i - 32 * k0) / 32) with (p + i / 32) by (Z.div_mod_to_equations; lia).
      by replace ((i - 32 * k0) mod 32) with (i mod 32) by (Z.div_mod_to_equations; lia).
    + unfold bit. by rewrite Ho by (Z.div_mod_to_equations; lia).
  - intros j Hj. destruct (decide (k0 <= j < k0 + k)).
    + replace (p + j) with (p + k0 + (j - k0)) by lia. apply Hl'. lia.
    + rewrite Ho by lia. by apply Hl.
  - intros a Ha. apply Ho. lia.
Qed.

Lemma bit_shift m p k0 i : 0 <= i -> bit m (p + k0) i = bit m p (32 * k0 + i).
Proof.
  intros. unfold bit.
  replace (p + k0 + i / 32) with (p + (32 * k0 + i) / 32) by (Z.div_mod_to_equations; lia).
  by replace ((32 * k0 + i) mod 32) with (i mod 32) by (Z.div_mod_to_equations; lia).
Qed.

Section Regions.
Context (m : mem) (bitmap n pos order : Z).
Hypotheses (Hl : longs m bitmap n) (Hpos : 0 <= pos) (Horder : 0 <= order)
  (Halign : (2 ^ order | pos)) (Hend : pos + 2 ^ order <= 32 * n).

Lemma region_fits : 0 <= pos / 32 /\ 0 <= region_longs order /\ pos / 32 + region_longs order <= n.
Proof using Hpos Horder Halign Hend.
  destruct (region_cases pos order Hpos Horder Halign) as [Hoff [(H1 & H2 & H3)|(H1 & H2 & H3)]];
    Z.div_mod_to_equations; lia.
Qed.

Lemma region_word i :
  0 <= i < region_longs order -> m !! (bitmap + (pos / 32 + i)) = Some (word m bitmap (pos / 32 + i)) /\
    fits 32 (word m bitmap (pos / 32 + i)).
Proof using Hl Hpos Horder Halign Hend. intros Hi. pose proof region_fits. apply (word_ok m bitmap n); [done|lia]. Qed.

(** Both updates: each long of the region is combined with the mask. *)
Lemma wp_region_update (op : Z -> Z -> Z) (bop : bool -> bool -> bool) :
  (forall a b, fits 32 a -> fits 32 b -> fits 32 (op a b)) ->
  (forall a b j, 0 <= j < 32 -> Z.testbit (op a b) j = bop (Z.testbit a j) (Z.testbit b j)) ->
  (forall b, bop b false = b) ->
  wp (for_up 0 (region_longs order) (fun i =>
        w ← load (bitmap + (pos / 32 + i));
        store (bitmap + (pos / 32 + i)) (op w (region_mask pos order))))
    (fun _ m' => holds m m' bitmap n (fun i => bop (bit m bitmap i) (in_region pos order i))) m.
Proof using Hl Hpos Horder Halign Hend.
  intros Hfit Hop Hid. pose proof region_fits as (F1 & F2 & F3).
  eapply wp_mono; [apply (wp_fill_words _ (bitmap + pos / 32) _
    (fun i => op (word m bitmap (pos / 32 + i)) (region_mask pos order))); [done|]|].
  - intros k m' Hk Hsame. rewrite (Z.add_assoc bitmap).
    destruct (region_word k Hk) as [Hw Hf]. rewrite Z.add_assoc in Hw.
    rewrite (bind_load _ (word m bitmap (pos / 32 + k))) by (by rewrite Hsame by lia).
    unfold store. rewrite Hsame by lia. by rewrite Hw.
  - intros [] m' [Hw Hout]. eapply (holds_inside m m' bitmap n (pos / 32)); [done|done|done| |].
    + apply (holds_words _ _ _ _ _ (fun i => bop (bit m bitmap (32 * (pos / 32) + i))
        (in_region pos order (32 * (pos / 32) + i))) Hw); [|done].
      intros k Hk. destruct (region_word k Hk) as [Hwk Hf].
      split; [apply Hfit; [done|apply fits_region_mask]|]. intros j Hj.
      rewrite Hop, (testbit_word m bitmap n), (region_mask_in pos order k) by (done || lia).
      by replace (32 * (pos / 32) + (32 * k + j)) with (32 * (pos / 32 + k) + j) by lia.
    + intros i Hi. cbv beta. destruct (_ && _) eqn:E.
      * by replace (32 * (pos / 32) + (i - 32 * (pos / 32))) with i by lia.
      * destruct (in_region pos order i) eqn:Er; [|apply Hid].
        apply region_outside in Er; [lia|done..].
Qed.

Lemma wp_reg_alloc :
  wp (__reg_op bitmap pos order REG_OP_ALLOC)
    (fun _ m' => holds m m' bitmap n (fun i => bit m bitmap i || in_region pos order i)) m.
Proof using Hl Hpos Horder Halign Hend.
  unfold __reg_op. apply wp_bind.
  eapply wp_mono; [apply (wp_region_update Z.lor orb); [auto with kword|intros; apply Z.lor_spec|]|].
  - intros b. apply orb_false_r.
  - intros [] m' Hh. by apply wp_ret.
Qed.

Lemma wp_reg_release :
  wp (__reg_op bitmap pos order REG_OP_RELEASE)
    (fun _ m' => holds m m' bitmap n (fun i => bit m bitmap i && negb (in_region pos order i))) m.
Proof using Hl Hpos Horder Halign Hend.
  unfold __reg_op. apply wp_bind.
  eapply wp_mono; [apply (wp_region_update (fun a b => Z.land a (not32 b)) (fun a b => a && negb b));
    [auto with kword| |]|].
  - intros a b j Hj. by rewrite Z.land_spec, bool_testbit_not.
  - intros b. apply andb_true_r.
  - intros [] m' Hh. by apply wp_ret.
Qed.

(** Whether some bit of the region is set. *)
Definition busy (f : Z -> bool) (pos order : Z) : bool := existsb f (seqZ pos (2 ^ order)).

Lemma busy_false f : busy f pos order = false <-> forall i, in_region pos order i = true -> f i = false.
Proof using Type.
  unfold busy, in_region. rewrite <- not_true_iff_false, existsb_exists. split.
  - intros H i Hi. destruct (f i) eqn:E; [|done]. destruct H. exists i. split; [|done].
    apply list_elem_of_In, elem_of_seqZ. lia.
  - intros H (i & Hi & Hf). apply list_elem_of_In, elem_of_seqZ in Hi. rewrite H in Hf by lia. done.
Qed.

Lemma reg_isfree_ok :
  __reg_op bitmap pos order REG_OP_ISFREE m
  = Ok (if busy (bit m bitmap) pos order then 0 else 1, m).
Proof using Hl Hpos Horder Halign Hend.
  unfold __reg_op. apply wp_eq, wp_or_else. pose proof region_fits as (F1 & F2 & F3).
  change (wp (for_loop 0 (region_longs order) (fun i =>
    w ← load (bitmap + (pos / 32 + i));
    mret (if negb (Z.land w (region_mask pos order) =? 0) then Some 0 else None)))
    (fun r m' => match r with
                 | Some x => x = (if busy (bit m bitmap) pos order then 0 else 1) /\ m' = m
                 | None => wp (mret 1) (fun b n0 =>
                     b = (if busy (bit m bitmap) pos order then 0 else 1) /\ n0 = m) m'
                 end) m).
  apply (wp_for (fun k m' => m' = m /\ forall i, in_region pos order i = true ->
    i < 32 * (pos / 32 + k) -> bit m bitmap i = false)); [lia| | |].
  - split; [done|]. unfold in_region. intros i Hi Hlt. Z.div_mod_to_equations. lia.
  - intros k m' Hk [-> Hno]. destruct (region_word k Hk) as [Hw Hf].
    apply wp_bind. apply (wp_load _ _ _ _ Hw). apply wp_ret. set (v := Z.land _ _).
    assert (forall j, 0 <= j < 32 -> Z.testbit v j = bit m bitmap (32 * (pos / 32 + k) + j) &&
      in_region pos order (32 * (pos / 32 + k) + j)) as Hv.
    { intros j Hj. unfold v.
      by rewrite Z.land_spec, (testbit_word m bitmap n), (region_mask_in pos order k) by (done || lia). }
    assert (fits 32 v) as Hfv by (apply fits_land; [lia|done|apply fits_region_mask]).
    destruct (Z.eqb_spec v 0) as [E|E]; simpl.
    + split; [done|]. intros i Hi Hlt. destruct (Z.lt_ge_cases i (32 * (pos / 32 + k))); [by apply Hno|].
      specialize (Hv (i - 32 * (pos / 32 + k)) ltac:(lia)). rewrite E, Z.bits_0 in Hv.
      replace (_ + (i - _)) with i in Hv by lia. by rewrite Hi, andb_true_r in Hv.
    + split; [|done]. destruct (busy _ _ _) eqn:Eb; [done|]. exfalso. apply E.
      apply word_zero; [done|]. intros j Hj. rewrite Hv by done.
      destruct (in_region pos order _) eqn:Er; [|apply andb_false_r].
      rewrite (proj1 (busy_false _) Eb) by done. done.
  - intros m' [-> Hno]. apply wp_ret. split; [|done]. rewrite (proj2 (busy_false _)); [done|].
    intros i Hi. apply Hno; [done|]. apply region_outside in Hi; [|done..]. Z.div_mod_to_equations. lia.
Qed.
End Regions.

(** ** The bitmap routines, as their users see them *)

(** Bitmap_find_free_region (lib/bitmap.c) returns the lowest aligned region
    of [2^order] clear bits and sets exactly its bits, or returns -ENOMEM, with
    the bitmap untouched, when every aligned region within [bits] has a set bit. *)
Theorem find_free_region_first m bitmap bits order :
  longs m bitmap (BITS_TO_LONGS bits) -> 0 <= bits -> 0 <= order <= 30 -> bits + 2 ^ order <= 2 ^ 31 ->
  exists r m', bitmap_find_free_region bitmap bits order m = Ok (r, m') /\
    let free p := (2 ^ order | p) /\ 0 <= p /\ p + 2 ^ order <= bits /\
                  busy (bit m bitmap) p order = false in
    (free r /\ (forall p, free p -> r <= p) /\
     holds m m' bitmap (BITS_TO_LONGS bits) (fun i => bit m bitmap i || in_region r order i)) \/
    (r = - ENOMEM /\ m' = m /\ forall p, ~ free p).
Proof.
  intros Hl Hb Ho Hov. pose proof (BITS_TO_LONGS_bounds bits Hb) as [_ Hn].
  assert (0 < 2 ^ order) as Hpow by lia.
  apply (wp_run (bitmap_find_free_region bitmap bits order) (fun r m' => _)).
  apply (wp_loop (fun pos m' => m' = m /\ 0 <= pos /\ (2 ^ order | pos) /\ forall p,
      (2 ^ order | p) -> 0 <= p < pos -> busy (bit m bitmap) p order = true)
      (fun pos => Z.to_nat (bits - pos))); [|lia|].
    { split; [done|]. split; [lia|]. split; [apply Z.divide_0_r|]. lia. }
    intros pos m' (-> & Hpos & Hdiv & Hbusy). rewrite Z.shiftl_1_l. cbv zeta.
    destruct (Z.leb_spec (pos + 2 ^ order) bits) as [Hle|Hgt].
    - apply wp_bind. eapply wp_det; [apply (reg_isfree_ok m bitmap (BITS_TO_LONGS bits)); done || lia|].
      destruct (busy (bit m bitmap) pos order) eqn:E; cbn [Z.eqb].
      + apply wp_ret. split; [|lia]. split; [done|]. split; [lia|].
        split; [by apply Z.divide_add_r|]. intros p [q Hq] Hp. destruct Hdiv as [q' Hq'].
        destruct (Z.lt_ge_cases p pos); [apply Hbusy; [by exists q|lia]|].
        assert (q = q') by nia. by replace p with pos by lia.
      + apply wp_bind. eapply wp_mono;
          [apply (wp_reg_alloc m bitmap (BITS_TO_LONGS bits)); done || lia|].
        intros r m' Hh. apply wp_ret. left. split; [done|]. split; [|done].
        intros p (Hd & Hp & Hend & Hf). destruct (Z.le_gt_cases pos p); [done|].
        rewrite Hbusy in Hf by (done || lia). done.
    - apply wp_ret. right. split; [done|]. split; [done|]. intros p (Hd & Hp & Hend & Hf).
      rewrite Hbusy in Hf by (done || lia). done.
Qed.

Lemma find_free_region_first_witness :
  let m := memory [(100, [0xff; 0])] in
  exists r m', bitmap_find_free_region 100 50 4 m = Ok (r, m') /\ 0 <= 50.
Proof.
  intros m. destruct (find_free_region_first m 100 50 4) as (r & m' & H & _); [|lia|lia|lia|].
  - change (BITS_TO_LONGS 50) with (Z.of_nat 2). longs_check.
  - exists r, m'. split; [exact H|lia].
Defined.

(** Bitmap_allocate_region sets the bits of a free region and returns 0, or
    returns -EBUSY without writing; bitmap_release_region after it gives back the
    bitmap it started from. *)
Theorem allocate_release_region m bitmap n pos order :
  longs m bitmap n -> 0 <= pos -> 0 <= order <= 30 -> (2 ^ order | pos) -> pos + 2 ^ order <= 32 * n ->
  if busy (bit m bitmap) pos order
  then bitmap_allocate_region bitmap pos order m = Ok (- EBUSY, m)
  else exists m1 m2,
    bitmap_allocate_region bitmap pos order m = Ok (0, m1) /\
    holds m m1 bitmap n (fun i => bit m bitmap i || in_region pos order i) /\
    bitmap_release_region bitmap pos order m1 = Ok (tt, m2) /\
    holds m m2 bitmap n (bit m bitmap).
Proof.
  intros Hl Hp Ho Hd He. unfold bitmap_allocate_region, bitmap_release_region.
  rewrite (bind_Ok _ _ _ _ _ (reg_isfree_ok m bitmap n pos order Hl Hp (proj1 Ho) Hd He)).
  destruct (busy (bit m bitmap) pos order) eqn:E; [done|]. cbn [Z.eqb].
  pose proof (wp_reg_alloc m bitmap n pos order Hl Hp (proj1 Ho) Hd He) as Ha. unfold wp in Ha.
  destruct (__reg_op bitmap pos order REG_OP_ALLOC m) as [[x m1]|] eqn:Ea; [|done].
  pose proof Ha as (Hb1 & Hl1 & Ho1).
  pose proof (wp_reg_release m1 bitmap n pos order Hl1 Hp (proj1 Ho) Hd He) as Hr. unfold wp in Hr.
  destruct (__reg_op bitmap pos order REG_OP_RELEASE m1) as [[y m2]|] eqn:Er; [|done].
  exists m1, m2. rewrite (bind_Ok _ _ _ _ _ Ea), (bind_Ok _ _ _ _ _ Er).
  split; [done|]. split; [done|]. split; [done|]. destruct Hr as (Hb2 & Hl2 & Ho2).
  split; [|split; [done|]].
  - intros i Hi. rewrite Hb2, Hb1 by done. destruct (in_region pos order i) eqn:Ei.
    + rewrite (proj1 (busy_false pos order _) E i Ei). done.
    + by rewrite orb_false_r, andb_true_r.
  - intros a Hout. rewrite Ho2 by done. by apply Ho1.
Qed.

Lemma allocate_release_region_witness :
  let m := memory [(100, [0xff; 0])] in
  exists m1 m2, bitmap_allocate_region 100 8 3 m = Ok (0, m1) /\
    holds m m1 100 2 (fun i => bit m 100 i || in_region 8 3 i) /\
    bitmap_release_region 100 8 3 m1 = Ok (tt, m2) /\ holds m m2 100 2 (bit m 100).
Proof.
  intros m. apply (allocate_release_region m 100 2 8 3); [|lia|lia|exists 1; reflexivity|vm_compute; congruence].
  change 2 with (Z.of_nat 2). longs_check.
Defined.

(** __bitmap_shift_right and __bitmap_shift_left move every bit by [shift]
    positions, feed in zeros, and clear the bits of the last word beyond [bits],
    also when the source and the destination are the same bitmap. *)
Theorem bitmap_shifts m p shift bits :
  0 <= bits -> 0 <= shift -> shift / 32 <= BITS_TO_LONGS bits -> longs m p (BITS_TO_LONGS bits) ->
  exists mr ml,
    __bitmap_shift_right p p shift bits m = Ok (tt, mr) /\
    holds m mr p (BITS_TO_LONGS bits) (fun i => (i + shift <? bits) && bit m p (i + shift)) /\
    __bitmap_shift_left p p shift bits m = Ok (tt, ml) /\
    holds m ml p (BITS_TO_LONGS bits) (fun i => (shift <=? i) && (i <? bits) && bit m p (i - shift)).
Proof.
  intros Hb Hs Ho Hl.
  pose proof (wp_bitmap_shift_right m p p shift bits Hb Hs Ho Hl Hl ltac:(left; lia)) as Hr.
  pose proof (wp_bitmap_shift_left m p p shift bits Hb Hs Ho Hl Hl ltac:(left; lia)) as Hsl.
  unfold wp in *. destruct (__bitmap_shift_right p p shift bits m) as [[[] mr]|]; [|done].
  destruct (__bitmap_shift_left p p shift bits m) as [[[] ml]|]; [|done]. by exists mr, ml.
Qed.

Lemma bitmap_shifts_witness :
  let m := memory [(100, [0xdeadbeef; 0x12345])] in
  exists mr ml,
    __bitmap_shift_right 100 100 37 50 m = Ok (tt, mr) /\
    holds m mr 100 2 (fun i => (i + 37 <? 50) && bit m 100 (i + 37)) /\
    __bitmap_shift_left 100 100 37 50 m = Ok (tt, ml) /\
    holds m ml 100 2 (fun i => (37 <=? i) && (i <? 50) && bit m 100 (i - 37)).
Proof.
  intros m. apply (bitmap_shifts m 100 37 50); [lia|lia|vm_compute; congruence|].
  change (BITS_TO_LONGS 50) with (Z.of_nat 2). longs_check.
Defined.

(** A right shift by 32 times more longs than the bitmap has starts its final
    memset below the destination: with a bitmap of one long and a shift of 64
    bits, __bitmap_shift_right overwrites the long before it. *)
Theorem shift_right_underflow :
  let m := memory [(99, [7]); (100, [5])] in
  exists m', __bitmap_shift_right 100 100 64 32 m = Ok (tt, m') /\ m' !! 99 = Some 0.
Proof. eexists. split; [vm_compute; reflexivity|reflexivity]. Qed.

(** The tests of lib/bitmap.c answer for the bits below [bits] alone, whatever
    the unused bits of the last word hold. *)
Theorem bitmap_tests m p q bits :
  0 <= bits -> longs m p (BITS_TO_LONGS bits) -> longs m q (BITS_TO_LONGS bits) ->
  let answer (b : bool) := Ok (if b then 1 else 0, m) in
  __bitmap_empty p bits m = answer (negb (any_bit (bit m p) bits)) /\
  __bitmap_full p bits m = answer (negb (any_bit (fun i => negb (bit m p i)) bits)) /\
  __bitmap_equal p q bits m = answer (negb (any_bit (fun i => xorb (bit m p i) (bit m q i)) bits)) /\
  __bitmap_intersects p q bits m = answer (any_bit (fun i => bit m p i && bit m q i) bits) /\
  __bitmap_subset p q bits m = answer (negb (any_bit (fun i => bit m p i && negb (bit m q i)) bits)).
Proof.
  intros Hb Hp Hq answer.
  rewrite bitmap_empty_ok, bitmap_full_ok, bitmap_equal_ok, bitmap_intersects_ok, bitmap_subset_ok by done.
  subst answer. repeat split; by destruct (any_bit _ _).
Qed.

Lemma bitmap_tests_witness :
  let m := memory [(100, [0xff; 0xf0000000]); (200, [0xff; 0])] in
  __bitmap_equal 100 200 50 m = Ok (1, m).
Proof.
  intros m. destruct (bitmap_tests m 100 200 50) as (_ & _ & -> & _);
    [lia|change (BITS_TO_LONGS 50) with (Z.of_nat 2); longs_check..|reflexivity].
Defined.

(** Bitmap_remap leaves in [dst] the image of [src] under the map that
    bitmap_bitremap computes for a single position: the n-th set bit of [old] goes
    to the (n mod w)-th set bit of [new], every other position stays. *)
Theorem bitmap_remap_image m dst src old new bits :
  0 <= bits < 2 ^ 31 -> dst <> src ->
  longs m dst (BITS_TO_LONGS bits) -> longs m src (BITS_TO_LONGS bits) ->
  longs m old (BITS_TO_LONGS bits) -> longs m new (BITS_TO_LONGS bits) ->
  disjoint_longs dst src (BITS_TO_LONGS bits) ->
  disjoint_longs dst old (BITS_TO_LONGS bits) -> disjoint_longs dst new (BITS_TO_LONGS bits) ->
  exists g m', (forall o, bitmap_bitremap o old new bits m = Ok (g o, m)) /\
    (forall o, g o = remap_pos (bit m old) (bit m new) bits o) /\
    bitmap_remap dst src old new bits m = Ok (tt, m') /\
    holds m m' dst (BITS_TO_LONGS bits) (image g (bit m src) bits).
Proof.
  intros. pose proof (wp_bitmap_remap m dst src old new bits) as Hr.
  specialize (Hr ltac:(done) ltac:(done) ltac:(done) ltac:(done) ltac:(done) ltac:(done)
    ltac:(done) ltac:(done) ltac:(done)). unfold wp in Hr.
  destruct (bitmap_remap dst src old new bits m) as [[[] m']|]; [|done].
  exists (remap_pos (bit m old) (bit m new) bits), m'. split; [|done].
  intros o. by apply wp_eq, wp_bitmap_bitremap.
Qed.

(** The example of the comment above bitmap_remap: old holds 4-7, new 12-15. *)
Lemma bitmap_remap_image_witness :
  let m := memory [(10, [0]); (20, [0xa2]); (30, [0xf0]); (40, [0xf000])] in
  (exists g m', (forall o, bitmap_bitremap o 30 40 32 m = Ok (g o, m)) /\
    (forall o, g o = remap_pos (bit m 30) (bit m 40) 32 o) /\
    bitmap_remap 10 20 30 40 32 m = Ok (tt, m') /\ holds m m' 10 1 (image g (bit m 20) 32)) /\
  (m' ← match bitmap_remap 10 20 30 40 32 m with Ok (_, m') => Some m' | Fault _ => None end; m' !! 10)
  = Some 0xa002.
Proof.
  intros m. split; [|vm_compute; reflexivity].
  apply (bitmap_remap_image m 10 20 30 40 32); try lia;
    try (change (BITS_TO_LONGS 32) with (Z.of_nat 1); longs_check);
    left; vm_compute; congruence.
Defined.

(** Bitmap_onto sets bit [i] of [dst] exactly when bit [i] of [relmap] is set
    and, [i] being the m-th set bit of [relmap], bit [m] of [orig] is set. *)
Theorem bitmap_onto_spec m dst orig relmap bits :
  0 <= bits < 2 ^ 31 -> dst <> orig ->
  longs m dst (BITS_TO_LONGS bits) -> longs m orig (BITS_TO_LONGS bits) ->
  longs m relmap (BITS_TO_LONGS bits) ->
  disjoint_longs dst orig (BITS_TO_LONGS bits) -> disjoint_longs dst relmap (BITS_TO_LONGS bits) ->
  exists m', bitmap_onto dst orig relmap bits m = Ok (tt, m') /\
    holds m m' dst (BITS_TO_LONGS bits) (fun i =>
      (i <? bits) && bit m relmap i && bit m orig (count (bit m relmap) (Z.to_nat i))).
Proof.
  intros. pose proof (wp_bitmap_onto m dst orig relmap bits ltac:(done) ltac:(done) ltac:(done)
    ltac:(done) ltac:(done) ltac:(done) ltac:(done)) as Hr. unfold wp in Hr.
  destruct (bitmap_onto dst orig relmap bits m) as [[[] m']|]; [|done]. by exists m'.
Qed.

(** Example 1 of the comment above bitmap_onto: relmap holds 30-39. *)
Lemma bitmap_onto_spec_witness :
  let m := memory [(10, [0; 0]); (20, [0xaaa; 0]); (30, [0xc0000000; 0xff])] in
  (exists m', bitmap_onto 10 20 30 64 m = Ok (tt, m') /\
    holds m m' 10 2 (fun i => (i <? 64) && bit m 30 i && bit m 20 (count (bit m 30) (Z.to_nat i)))) /\
  (m' ← match bitmap_onto 10 20 30 64 m with Ok (_, m') => Some m' | Fault _ => None end; m' !! 11)
  = Some 0xaa.
Proof.
  intros m. split; [|vm_compute; reflexivity].
  apply (bitmap_onto_spec m 10 20 30 64); try lia;
    try (change (BITS_TO_LONGS 64) with (Z.of_nat 2); longs_check);
    left; vm_compute; congruence.
Defined.

(** __bitmap_weight counts the set bits below [bits]; the word operations
    __bitmap_and, __bitmap_or, __bitmap_xor, __bitmap_andnot and
    __bitmap_complement act bit by bit, in place or not. *)
Theorem bitmap_pointwise m dst p q bits :
  0 <= bits -> longs m dst (BITS_TO_LONGS bits) ->
  longs m p (BITS_TO_LONGS bits) -> longs m q (BITS_TO_LONGS bits) ->
  forward_ok dst p (BITS_TO_LONGS bits) -> forward_ok dst q (BITS_TO_LONGS bits) ->
  let fills c f := exists m', c m = Ok (tt, m') /\ holds m m' dst (BITS_TO_LONGS bits) f in
  __bitmap_weight p bits m = Ok (count (bit m p) (Z.to_nat bits), m) /\
  fills (__bitmap_and dst p q bits) (fun i => bit m p i && bit m q i) /\
  fills (__bitmap_or dst p q bits) (fun i => bit m p i || bit m q i) /\
  fills (__bitmap_xor dst p q bits) (fun i => xorb (bit m p i) (bit m q i)) /\
  fills (__bitmap_andnot dst p q bits) (fun i => bit m p i && negb (bit m q i)) /\
  fills (__bitmap_complement dst p bits) (fun i => (i <? bits) && negb (bit m p i)).
Proof.
  intros Hb Hd Hp Hq Op Oq fills.
  assert (forall c f, wp c (fun _ m' => holds m m' dst (BITS_TO_LONGS bits) f) m -> fills c f) as Hf.
  { intros c f H. unfold wp in H. destruct (c m) as [[[] m']|] eqn:E; [|done]. by exists m'. }
  split; [by apply wp_eq, wp_bitmap_weight|].
  repeat split; apply Hf; auto using wp_bitmap_and, wp_bitmap_or, wp_bitmap_xor, wp_bitmap_andnot,
    wp_bitmap_complement.
Qed.

Lemma bitmap_pointwise_witness :
  let m := memory [(100, [0xff; 1]); (200, [0xf; 0])] in
  exists m', __bitmap_andnot 100 100 200 50 m = Ok (tt, m') /\
    holds m m' 100 2 (fun i => bit m 100 i && negb (bit m 200 i)).
Proof.
  intros m. apply (bitmap_pointwise m 100 100 200 50); try lia;
    try (change (BITS_TO_LONGS 50) with (Z.of_nat 2); longs_check); left; lia.
Defined.
