(* ===== verification/Threads.v ===== *)
(** * Threads

    What the transition systems of the locks share: threads with a state each, and the
    number of threads in a state. *)

From S2P Require Import Prelude.

(** A thread, the address of its task_struct. *)
Abbreviation tid := positive.

Section Threads.
Context {T : Type}.
Implicit Types (P : T -> bool) (thr : gmap tid T) (t : tid) (s : T).

(** The number of threads whose state satisfies [P]. *)
Definition threads_in P thr : Z := map_fold (fun _ s n => Z.b2z (P s) + n) 0 thr.


Lemma number_insert_new P thr t s :
  thr !! t = None -> threads_in P (<[t := s]> thr) = Z.b2z (P s) + threads_in P thr.
Proof.
  intros Ht. unfold threads_in. apply (map_fold_insert_L (fun _ s n => Z.b2z (P s) + n)); [|done].
  intros. lia.
Qed.

Lemma threads_in_update P thr t s s' :
  thr !! t = Some s -> threads_in P (<[t := s']> thr) = threads_in P thr - Z.b2z (P s) + Z.b2z (P s').
Proof.
  intros Ht. rewrite <- (insert_id thr t s) at 2 by done.
  rewrite <- insert_delete_eq, <- (insert_delete_eq thr t s).
  rewrite !number_insert_new by apply lookup_delete_eq. lia.
Qed.

Lemma threads_in_nonneg P thr : 0 <= threads_in P thr.
Proof.
  induction thr as [|t s thr Ht IH] using map_ind; [done|].
  rewrite number_insert_new by done. destruct (P s); simpl; lia.
Qed.

Lemma threads_in_pos P thr t s : thr !! t = Some s -> P s = true -> 1 <= threads_in P thr.
Proof.
  intros Ht Hp. rewrite <- (insert_id thr t s) by done. rewrite <- insert_delete_eq.
  rewrite number_insert_new by apply lookup_delete_eq. rewrite Hp.
  pose proof (threads_in_nonneg P (delete t thr)). simpl. lia.
Qed.

Lemma threads_in_zero P thr : threads_in P thr = 0 <-> forall t s, thr !! t = Some s -> P s = false.
Proof.
  split.
  - intros H0 t s Ht. destruct (P s) eqn:E; [|done]. pose proof (threads_in_pos P thr t s Ht E). lia.
  - induction thr as [|t s thr Ht IH] using map_ind; intros H; [done|].
    rewrite number_insert_new by done. rewrite (H t s) by apply lookup_insert_eq. rewrite IH; [done|].
    intros t' s' Ht'. apply (H t'). rewrite lookup_insert_ne; [done|]. intros ->. congruence.
Qed.

Lemma threads_in_some P thr : 0 < threads_in P thr -> exists t s, thr !! t = Some s /\ P s = true.
Proof.
  induction thr as [|t s thr Ht IH] using map_ind; [done|]. rewrite number_insert_new by done.
  destruct (P s) eqn:E.
  - intros _. exists t, s. by rewrite lookup_insert_eq.
  - intros (t' & s' & Ht' & Hs')%IH. exists t', s'. rewrite lookup_insert_ne; [done|]. intros ->. congruence.
Qed.

(** Two threads that satisfy [P] count for two. *)
Lemma threads_in_two P thr t t' s s' :
  t <> t' -> thr !! t = Some s -> thr !! t' = Some s' -> P s = true -> P s' = true -> 2 <= threads_in P thr.
Proof.
  intros Hne Ht Ht' Hs Hs'. rewrite <- (insert_id thr t s) by done. rewrite <- insert_delete_eq.
  rewrite number_insert_new by apply lookup_delete_eq. rewrite Hs.
  pose proof (threads_in_pos P (delete t thr) t' s' ltac:(by rewrite lookup_delete_ne) Hs'). simpl. lia.
Qed.
End Threads.
