(* ===== verification/Rwsem.v ===== *)
(** * Read/write semaphores

    lib/rwsem-spinlock.c.  Every routine does its work inside one critical
    section of [wait_lock], so each is one atomic function on the semaphore; what
    interleaves is the order of these sections and the moment a woken thread
    notices that its [waiter.task] has been cleared.  The system is a step
    relation on the semaphore together with the state of each thread. *)

From S2P Require Import Prelude Threads.

Definition RWSEM_WAITING_FOR_READ : Z := 0x00000001.
Definition RWSEM_WAITING_FOR_WRITE : Z := 0x00000002.

Record rwsem_waiter := Waiter { task : tid; flags : Z }.

(** [activity] counts the active readers, or is -1 for an active writer; it is an int in
    the source, for fewer than 2^31 threads. *)
Record rw_semaphore := Sem { activity : Z; wait_list : list rwsem_waiter }.

Definition __init_rwsem : rw_semaphore := Sem 0 [].

(** The loop of __rwsem_do_wake from dont_wake_writers on: the waiters it takes
    off the list, as the tasks it wakes in order, and the list that is left. *)
Fixpoint wake_readers (l : list rwsem_waiter) : list tid * list rwsem_waiter :=
  match l with
  | [] => ([], [])
  | waiter :: next =>
      if negb (Z.land (flags waiter) RWSEM_WAITING_FOR_READ =? 0) then
        let '(woken, rest) := wake_readers next in (task waiter :: woken, rest)
      else ([], l)
  end.

(** [None]: the list is empty and the code would take the list head for a
    waiter.  The result lists the tasks woken, whose [waiter.task] is cleared. *)
Definition __rwsem_do_wake (sem : rw_semaphore) (wakewrite : bool) : option (rw_semaphore * list tid) :=
  match wait_list sem with
  | [] => None
  | waiter :: rest =>
      let dont_wake_writers :=
        let '(woken, remaining) := wake_readers (wait_list sem) in
        Some (Sem (activity sem + Z.of_nat (length woken)) remaining, woken) in
      let waits_for_write := negb (Z.land (flags waiter) RWSEM_WAITING_FOR_WRITE =? 0) in
      if negb wakewrite then
        if waits_for_write then Some (sem, []) else dont_wake_writers
      else if waits_for_write then Some (Sem (-1) rest, [task waiter])
      else dont_wake_writers
  end.

(** The waiter at the front is taken for a writer without looking at its flags. *)
Definition __rwsem_wake_one_writer (sem : rw_semaphore) : option (rw_semaphore * list tid) :=
  match wait_list sem with
  | [] => None
  | waiter :: rest => Some (Sem (-1) rest, [task waiter])
  end.

Definition no_waiter {A} (l : list A) : bool := match l with [] => true | _ => false end.

(** The critical section of __down_read; [true] when the lock is granted at
    once, [false] when [tsk] has been queued and goes to sleep. *)
Definition __down_read (sem : rw_semaphore) (tsk : tid) : rw_semaphore * bool :=
  if (0 <=? activity sem) && no_waiter (wait_list sem) then
    (Sem (activity sem + 1) (wait_list sem), true)
  else (Sem (activity sem) (wait_list sem ++ [Waiter tsk RWSEM_WAITING_FOR_READ]), false).

Definition __down_read_trylock (sem : rw_semaphore) : rw_semaphore * bool :=
  if (0 <=? activity sem) && no_waiter (wait_list sem) then
    (Sem (activity sem + 1) (wait_list sem), true)
  else (sem, false).

Definition __down_write_nested (sem : rw_semaphore) (tsk : tid) : rw_semaphore * bool :=
  if (activity sem =? 0) && no_waiter (wait_list sem) then
    (Sem (-1) (wait_list sem), true)
  else (Sem (activity sem) (wait_list sem ++ [Waiter tsk RWSEM_WAITING_FOR_WRITE]), false).

Definition __down_write_trylock (sem : rw_semaphore) : rw_semaphore * bool :=
  if (activity sem =? 0) && no_waiter (wait_list sem) then
    (Sem (-1) (wait_list sem), true)
  else (sem, false).

Definition __up_read (sem : rw_semaphore) : option (rw_semaphore * list tid) :=
  let sem := Sem (activity sem - 1) (wait_list sem) in
  if (activity sem =? 0) && negb (no_waiter (wait_list sem)) then __rwsem_wake_one_writer sem
  else Some (sem, []).

Definition __up_write (sem : rw_semaphore) : option (rw_semaphore * list tid) :=
  let sem := Sem 0 (wait_list sem) in
  if negb (no_waiter (wait_list sem)) then __rwsem_do_wake sem true
  else Some (sem, []).

Definition __downgrade_write (sem : rw_semaphore) : option (rw_semaphore * list tid) :=
  let sem := Sem 1 (wait_list sem) in
  if negb (no_waiter (wait_list sem)) then __rwsem_do_wake sem false
  else Some (sem, []).

(** ** Threads *)

Inductive mode := Read | Write.

Definition same_mode (k k' : mode) : bool :=
  match k, k' with Read, Read | Write, Write => true | _, _ => false end.

Definition mode_flag (k : mode) : Z :=
  match k with Read => RWSEM_WAITING_FOR_READ | Write => RWSEM_WAITING_FOR_WRITE end.

(** [Sleeping]: in the loop of a down routine, its waiter queued.  [Granted]: its
    waiter.task has been cleared, the routine has not yet returned. *)
Inductive tstate := Idle | Sleeping (k : mode) | Granted (k : mode) | Holds (k : mode).

Record system := Sys { sem : rw_semaphore; thr : gmap tid tstate }.

Definition grant (s : tstate) : tstate := match s with Sleeping k => Granted k | _ => s end.

(** Clear [waiter.task] of the woken threads. *)
Definition grant_all (woken : list tid) (thr : gmap tid tstate) : gmap tid tstate :=
  foldr (fun t m => alter grant t m) thr woken.

(** What a step is: a call of a down routine or of a trylock with its outcome, the return
    of a thread that has been woken, a release, a downgrade. *)
Inductive event :=
  | Down (t : tid) (k : mode) (granted : bool)
  | TryDown (t : tid) (k : mode) (granted : bool)
  | Return (t : tid)
  | Up (t : tid)
  | Downgrade (t : tid).

Inductive step : event -> system -> system -> Prop :=
  | step_down_read S t sem' ok :
      thr S !! t = Some Idle -> __down_read (sem S) t = (sem', ok) ->
      step (Down t Read ok) S (Sys sem' (<[t := if ok : bool then Holds Read else Sleeping Read]> (thr S)))
  | step_down_read_trylock S t sem' ok :
      thr S !! t = Some Idle -> __down_read_trylock (sem S) = (sem', ok) ->
      step (TryDown t Read ok) S (Sys sem' (<[t := if ok : bool then Holds Read else Idle]> (thr S)))
  | step_down_write S t sem' ok :
      thr S !! t = Some Idle -> __down_write_nested (sem S) t = (sem', ok) ->
      step (Down t Write ok) S (Sys sem' (<[t := if ok : bool then Holds Write else Sleeping Write]> (thr S)))
  | step_down_write_trylock S t sem' ok :
      thr S !! t = Some Idle -> __down_write_trylock (sem S) = (sem', ok) ->
      step (TryDown t Write ok) S (Sys sem' (<[t := if ok : bool then Holds Write else Idle]> (thr S)))
  | step_awake S t k :
      thr S !! t = Some (Granted k) -> step (Return t) S (Sys (sem S) (<[t := Holds k]> (thr S)))
  | step_up_read S t sem' woken :
      thr S !! t = Some (Holds Read) -> __up_read (sem S) = Some (sem', woken) ->
      step (Up t) S (Sys sem' (grant_all woken (<[t := Idle]> (thr S))))
  | step_up_write S t sem' woken :
      thr S !! t = Some (Holds Write) -> __up_write (sem S) = Some (sem', woken) ->
      step (Up t) S (Sys sem' (grant_all woken (<[t := Idle]> (thr S))))
  | step_downgrade S t sem' woken :
      thr S !! t = Some (Holds Write) -> __downgrade_write (sem S) = Some (sem', woken) ->
      step (Downgrade t) S (Sys sem' (grant_all woken (<[t := Holds Read]> (thr S)))).

(** Any number of threads, none holding or waiting. *)
Definition initial (S : system) : Prop :=
  sem S = __init_rwsem /\ forall t s, thr S !! t = Some s -> s = Idle.

Inductive reachable : system -> Prop :=
  | reach_init S : initial S -> reachable S
  | reach_step e S S' : reachable S -> step e S S' -> reachable S'.

(** ** The invariant *)

(** The thread holds the lock in mode [k], or has been given it. *)
Definition active (k : mode) (s : tstate) : bool :=
  match s with
  | Granted k' | Holds k' => same_mode k k'
  | _ => false
  end.

Definition waits_for (w : rwsem_waiter) (thr : gmap tid tstate) : Prop :=
  exists k, flags w = mode_flag k /\ thr !! task w = Some (Sleeping k).

(** [activity] counts the threads that have the lock. *)
Definition lock_ok (activity : Z) (thr : gmap tid tstate) : Prop :=
  (activity = -1 /\ threads_in (active Write) thr = 1 /\ threads_in (active Read) thr = 0) \/
  (0 <= activity /\ threads_in (active Write) thr = 0 /\ threads_in (active Read) thr = activity).

(** The queue holds the sleeping threads, each once. *)
Definition queue_ok (q : list rwsem_waiter) (thr : gmap tid tstate) : Prop :=
  NoDup (map task q) /\
  Forall (fun w => waits_for w thr) q /\
  forall t k, thr !! t = Some (Sleeping k) -> Waiter t (mode_flag k) ∈ q.

Record inv (S : system) : Prop := {
  inv_lock : lock_ok (activity (sem S)) (thr S);
  inv_queue : queue_ok (wait_list (sem S)) (thr S);
  (** nobody waits for a free lock *)
  inv_free : activity (sem S) = 0 -> wait_list (sem S) = [];
  (** while readers are active, the front of the queue is a writer *)
  inv_front : 0 < activity (sem S) -> forall w, head (wait_list (sem S)) = Some w ->
    flags w = RWSEM_WAITING_FOR_WRITE;
}.

(** ** The queue *)

Definition sleeps (s : tstate) : bool := match s with Sleeping _ => true | _ => false end.

Lemma flag_inj k k' : mode_flag k = mode_flag k' -> k = k'.
Proof. by destruct k, k'. Qed.

(** A thread that does not sleep changes its state. *)
Lemma queue_set q thr t s s' :
  queue_ok q thr -> thr !! t = Some s -> sleeps s = false -> sleeps s' = false ->
  queue_ok q (<[t := s']> thr).
Proof.
  intros (Hn & Hq & Hs) Ht Es Es'. split; [done|]. split.
  - eapply Forall_impl; [done|]. intros w (k & Hk & Hw). exists k. split; [done|].
    rewrite lookup_insert_ne; [done|]. intros ->. rewrite Ht in Hw. by simplify_eq.
  - intros t' k. destruct (decide (t = t')) as [->|].
    + rewrite lookup_insert_eq. intros [= ->]. done.
    + rewrite lookup_insert_ne by done. apply Hs.
Qed.

(** A thread queues up. *)
Lemma queue_push q thr t s k :
  queue_ok q thr -> thr !! t = Some s -> sleeps s = false ->
  queue_ok (q ++ [Waiter t (mode_flag k)]) (<[t := Sleeping k]> thr).
Proof.
  intros (Hn & Hq & Hs) Ht Es.
  assert (forall w, w ∈ q -> task w <> t) as Hnew.
  { intros w Hw <-. rewrite Forall_forall in Hq. destruct (Hq w Hw) as (k' & _ & Hk').
    rewrite Ht in Hk'. by simplify_eq. }
  split; [|split].
  - rewrite map_app. apply NoDup_app. split; [done|]. split; [|by apply NoDup_singleton].
    intros x Hx ->%list_elem_of_singleton. apply list_elem_of_fmap in Hx as (w & Ew & Hw).
    by apply (Hnew w).
  - apply Forall_app. split.
    + rewrite Forall_forall in *. intros w Hw. destruct (Hq w Hw) as (k' & ? & ?). exists k'.
      split; [done|]. rewrite lookup_insert_ne; [done|]. intros E. by apply (Hnew w).
    + apply Forall_singleton. exists k. split; [done|]. apply lookup_insert_eq.
  - intros t' k'. rewrite elem_of_app, list_elem_of_singleton. destruct (decide (t = t')) as [->|].
    + rewrite lookup_insert_eq. intros [= ->]. by right.
    + rewrite lookup_insert_ne by done. left. by apply Hs.
Qed.

Lemma grant_all_lookup woken thr t :
  grant_all woken thr !! t = if decide (t ∈ woken) then grant <$> thr !! t else thr !! t.
Proof.
  induction woken as [|w woken IH]; simpl.
  - destruct (decide (t ∈ [])) as [H|]; [by apply elem_of_nil in H|done].
  - destruct (decide (w = t)) as [->|Hne].
    + rewrite lookup_alter_eq, IH. destruct (decide (t ∈ t :: woken)) as [_|H]; [|destruct H; left].
      destruct (decide (t ∈ woken)); [|done]. destruct (thr !! t) as [[]|]; done.
    + rewrite lookup_alter_ne by done. rewrite IH.
      destruct (decide (t ∈ woken)) as [H|H], (decide (t ∈ w :: woken)) as [H'|H']; try done.
      * destruct H'. by right.
      * apply elem_of_cons in H' as [->|]; done.
Qed.

(** The waiters at the front are woken. *)
Lemma queue_wake ws q thr :
  queue_ok (ws ++ q) thr -> queue_ok q (grant_all (map task ws) thr).
Proof.
  intros (Hn & Hq & Hs). rewrite map_app in Hn. apply NoDup_app in Hn as (Hn1 & Hd & Hn2).
  apply Forall_app in Hq as [_ Hq]. split; [done|]. split.
  - rewrite Forall_forall in *. intros w Hw. destruct (Hq w Hw) as (k & ? & ?). exists k.
    split; [done|]. rewrite grant_all_lookup. destruct (decide (task w ∈ map task ws)) as [Hin|]; [|done].
    destruct (Hd _ Hin). by apply list_elem_of_fmap_2.
  - intros t k. rewrite grant_all_lookup. destruct (decide (t ∈ map task ws)) as [Hin|Hout].
    + destruct (thr !! t) as [[]|]; discriminate.
    + intros Ht%Hs. apply elem_of_app in Ht as [Ht|]; [|done].
      destruct Hout. by apply (list_elem_of_fmap_2 task) in Ht.
Qed.

(** The waiters [ws] sleep in mode [k], each once. *)
Definition asleep (ws : list rwsem_waiter) (k : mode) (thr : gmap tid tstate) : Prop :=
  NoDup (map task ws) /\ Forall (fun w => waits_for w thr) ws /\
  Forall (fun w => flags w = mode_flag k) ws.

Lemma queue_front ws q thr k :
  queue_ok (ws ++ q) thr -> Forall (fun w => flags w = mode_flag k) ws -> asleep ws k thr.
Proof.
  intros (Hn & Hq & _) Hk. rewrite map_app in Hn. apply NoDup_app in Hn as (Hn & _ & _).
  apply Forall_app in Hq as [Hq _]. done.
Qed.

(** Waking the first of them, after the others. *)
Lemma asleep_cons w ws k thr :
  asleep (w :: ws) k thr ->
  asleep ws k thr /\ grant_all (map task ws) thr !! task w = Some (Sleeping k) /\
  grant_all (map task (w :: ws)) thr = <[task w := Granted k]> (grant_all (map task ws) thr).
Proof.
  intros (Hn & Hq & Hk). simpl in Hn.
  apply Forall_cons in Hk as [Hw Hk], Hq as [(kw & Ew & Hkw) Hq]. apply NoDup_cons in Hn as [Hnw Hn].
  rewrite Hw in Ew. apply flag_inj in Ew as <-.
  assert (grant_all (map task ws) thr !! task w = Some (Sleeping k)) as E.
  { rewrite grant_all_lookup. by destruct (decide (task w ∈ map task ws)). }
  split; [done|]. split; [done|]. apply map_eq. intros t. simpl. destruct (decide (task w = t)) as [<-|].
  - by rewrite lookup_alter_eq, lookup_insert_eq, E.
  - by rewrite lookup_alter_ne, lookup_insert_ne.
Qed.

(** Each waiter woken becomes active in the mode it waited for. *)
Lemma number_wake ws thr k k' :
  asleep ws k thr ->
  threads_in (active k') (grant_all (map task ws) thr) =
  threads_in (active k') thr + (if same_mode k' k then Z.of_nat (length ws) else 0).
Proof.
  induction ws as [|w ws IH]; intros Hs; [simpl; destruct (same_mode k' k); lia|].
  destruct (asleep_cons _ _ _ _ Hs) as (Hs' & E & ->).
  rewrite (threads_in_update _ _ _ _ _ E), IH by done. simpl. destruct (same_mode k' k); simpl; lia.
Qed.

(** ** Every step preserves the invariant *)

Lemma waits_mode q thr w : queue_ok q thr -> w ∈ q -> exists k, flags w = mode_flag k.
Proof.
  intros (_ & Hq & _) Hw. rewrite Forall_forall in Hq. destruct (Hq w Hw) as (k & Hk & _). by exists k.
Qed.

(** The loop takes the readers at the front, up to the first writer. *)
Lemma wake_readers_spec q thr woken rest :
  Forall (fun w => waits_for w thr) q -> wake_readers q = (woken, rest) ->
  exists ws, q = ws ++ rest /\ woken = map task ws /\
    Forall (fun w => flags w = mode_flag Read) ws /\
    forall w, head rest = Some w -> flags w = mode_flag Write.
Proof.
  revert woken. induction q as [|w q IH]; intros woken Hq E; simpl in E.
  { simplify_eq. exists []. done. }
  apply Forall_cons in Hq as [(k & Hk & _) Hq]. rewrite Hk in E. destruct k; simpl in E.
  - destruct (wake_readers q) as [woken' rest'] eqn:E'. simplify_eq.
    destruct (IH woken' Hq eq_refl) as (ws & -> & -> & Hws & Hh).
    exists (w :: ws). split; [done|]. split; [done|]. split; [by constructor|done].
  - simplify_eq. exists []. split; [done|]. split; [done|]. split; [done|]. by intros ? [= <-].
Qed.

(** What a wake-up returns is safe: the lock is free, or readers have it. *)
Lemma do_wake_inv q thr a (wakewrite : bool) sem' woken :
  queue_ok q thr -> threads_in (active Write) thr = 0 -> threads_in (active Read) thr = a ->
  (if wakewrite then a = 0 else 0 < a) ->
  __rwsem_do_wake (Sem a q) wakewrite = Some (sem', woken) -> inv (Sys sem' (grant_all woken thr)).
Proof.
  intros Hq HW HR Ha E. pose proof (threads_in_nonneg (active Read) thr). unfold __rwsem_do_wake in E. simpl in E. destruct q as [|w q]; [done|].
  destruct (waits_mode _ _ w Hq) as [k Hk]; [left|].
  destruct (wake_readers (w :: q)) as [woken' rest] eqn:Er.
  assert (Some (Sem (a + Z.of_nat (length woken')) rest, woken') = Some (sem', woken) ->
    flags w = mode_flag Read \/ 0 < a -> inv (Sys sem' (grant_all woken thr))) as Hreaders.
  { intros E' Hfront. simplify_eq.
    destruct (wake_readers_spec _ thr _ _ (proj1 (proj2 Hq)) Er) as (ws & Eq & -> & Hws & Hh).
    rewrite Eq in Hq. split; simpl.
    - right. rewrite !(number_wake ws thr Read) by (by eapply queue_front). rewrite HW. rewrite length_map. simpl. lia.
    - by apply queue_wake.
    - intros H0. rewrite length_map in H0. destruct ws as [|w' ws]; simpl in *; [|lia].
      subst rest. exfalso. destruct Hfront as [Hf|]; [|lia]. rewrite (Hh w) in Hf by done. done.
    - intros _ w' Hw'. by apply Hh. }
  rewrite Hk in E. destruct k, wakewrite; simpl in E.
  - apply Hreaders; [done|by left].
  - apply Hreaders; [done|by left].
  - simplify_eq. pose proof (number_wake [w] thr Write) as Hn. simpl in Hn.
    split; simpl; [|by apply (queue_wake [w])|lia|lia].
    left. rewrite !Hn by (apply (queue_front [w] q); [done|by constructor]). simpl. lia.
  - simplify_eq. split; simpl; [right; lia|done|lia|]. by intros _ w' [= <-].
Qed.

Lemma inv_acquire S t k a :
  inv S -> thr S !! t = Some Idle -> wait_list (sem S) = [] ->
  (k = Read /\ 0 <= activity (sem S) /\ a = activity (sem S) + 1 \/
   k = Write /\ activity (sem S) = 0 /\ a = -1) ->
  inv (Sys (Sem a (wait_list (sem S))) (<[t := Holds k]> (thr S))).
Proof.
  intros [Hl Hq Hfree Hfront] Ht Hw Hk. split; simpl.
  - unfold lock_ok in *. rewrite !(threads_in_update _ _ _ _ _ Ht). simpl.
    destruct Hk as [(-> & ? & ->)|(-> & ? & ->)]; simpl; lia.
  - by eapply queue_set.
  - done.
  - rewrite Hw. done.
Qed.

Lemma inv_enqueue S t k :
  inv S -> thr S !! t = Some Idle -> activity (sem S) <> 0 ->
  (k = Write \/ activity (sem S) < 0 \/ wait_list (sem S) <> []) ->
  inv (Sys (Sem (activity (sem S)) (wait_list (sem S) ++ [Waiter t (mode_flag k)]))
           (<[t := Sleeping k]> (thr S))).
Proof.
  intros [Hl Hq Hfree Hfront] Ht Ha Hk. split; simpl.
  - unfold lock_ok in *. rewrite !(threads_in_update _ _ _ _ _ Ht). simpl. lia.
  - by eapply queue_push.
  - done.
  - intros Hpos w. destruct (wait_list (sem S)) as [|w' q] eqn:E; simpl.
    + intros [= <-]. destruct Hk as [->|[?|?]]; [done|lia|done].
    + intros [= <-]. by apply Hfront.
Qed.

Lemma number_Idle_update S t k :
  thr S !! t = Some (Holds k) -> forall k', threads_in (active k') (<[t := Idle]> (thr S)) =
    threads_in (active k') (thr S) - (if same_mode k' k then 1 else 0).
Proof.
  intros Ht k'. rewrite (threads_in_update _ _ _ _ _ Ht). simpl. destruct (same_mode k' k); simpl; lia.
Qed.

(** A holder in mode [k] shows in [activity]. *)
Lemma holder_activity S t k :
  inv S -> thr S !! t = Some (Holds k) ->
  match k with
  | Read => 0 < activity (sem S) /\ threads_in (active Write) (thr S) = 0 /\
            threads_in (active Read) (thr S) = activity (sem S)
  | Write => activity (sem S) = -1 /\ threads_in (active Write) (thr S) = 1 /\
             threads_in (active Read) (thr S) = 0
  end.
Proof.
  intros [Hl _ _ _] Ht.
  pose proof (threads_in_pos (active k) (thr S) t _ Ht ltac:(by destruct k)).
  unfold lock_ok in Hl. destruct k; lia.
Qed.

Lemma inv_up_read S t sem' woken :
  inv S -> thr S !! t = Some (Holds Read) -> __up_read (sem S) = Some (sem', woken) ->
  inv (Sys sem' (grant_all woken (<[t := Idle]> (thr S)))).
Proof.
  intros HI Ht E. destruct (holder_activity S t Read HI Ht) as (Ha & HW & HR).
  destruct HI as [Hl Hq Hfree Hfront].
  pose proof (number_Idle_update S t Read Ht) as Hn.
  assert (queue_ok (wait_list (sem S)) (<[t := Idle]> (thr S))) as Hq' by (by eapply queue_set).
  unfold __up_read, __rwsem_wake_one_writer in E. simpl in E.
  destruct (wait_list (sem S)) as [|w q] eqn:Ew; simpl in E.
  - rewrite andb_false_r in E. simplify_eq. split; simpl; [|done|done|done].
    right. rewrite !Hn. simpl. lia.
  - destruct (Z.eqb_spec (activity (sem S) - 1) 0) as [E0|E0]; simpl in E; simplify_eq.
    + assert (flags w = mode_flag Write) as Hw by (by apply Hfront).
      pose proof (number_wake [w] (<[t := Idle]> (thr S)) Write) as Hwake. simpl in Hwake.
      split; simpl; [|by apply (queue_wake [w])|lia|lia].
      left. rewrite !Hwake, !Hn by (apply (queue_front [w] q); [done|by constructor]). simpl. lia.
    + split; simpl; [|done|lia|]; [right; rewrite !Hn; simpl; lia|].
      intros _ w' [= <-]. by apply Hfront.
Qed.

Lemma inv_up_write S t sem' woken :
  inv S -> thr S !! t = Some (Holds Write) -> __up_write (sem S) = Some (sem', woken) ->
  inv (Sys sem' (grant_all woken (<[t := Idle]> (thr S)))).
Proof.
  intros HI Ht E. destruct (holder_activity S t Write HI Ht) as (Ha & HW & HR).
  destruct HI as [Hl Hq Hfree Hfront].
  pose proof (number_Idle_update S t Write Ht) as Hn.
  assert (queue_ok (wait_list (sem S)) (<[t := Idle]> (thr S))) as Hq' by (by eapply queue_set).
  unfold __up_write in E. cbn [wait_list] in E.
  destruct (wait_list (sem S)) as [|w q] eqn:Ew; simpl in E.
  - simplify_eq. split; simpl; [|done|done|done]. right. rewrite !Hn. simpl. lia.
  - apply (do_wake_inv (w :: q) _ 0 true); [done|rewrite Hn; simpl; lia|rewrite Hn; simpl; lia|done|done].
Qed.

Lemma inv_downgrade S t sem' woken :
  inv S -> thr S !! t = Some (Holds Write) -> __downgrade_write (sem S) = Some (sem', woken) ->
  inv (Sys sem' (grant_all woken (<[t := Holds Read]> (thr S)))).
Proof.
  intros HI Ht E. destruct (holder_activity S t Write HI Ht) as (Ha & HW & HR).
  destruct HI as [Hl Hq Hfree Hfront].
  assert (queue_ok (wait_list (sem S)) (<[t := Holds Read]> (thr S))) as Hq' by (by eapply queue_set).
  unfold __downgrade_write in E. cbn [wait_list] in E.
  pose proof (fun P => threads_in_update P _ _ _ (Holds Read) Ht) as Hn.
  destruct (wait_list (sem S)) as [|w q] eqn:Ew; simpl in E.
  - simplify_eq. split; simpl; [|done|done|done]. right. rewrite !Hn. simpl. lia.
  - apply (do_wake_inv (w :: q) _ 1 false); [done|rewrite Hn; simpl; lia|rewrite Hn; simpl; lia|lia|done].
Qed.

Lemma inv_same S t s s' :
  inv S -> thr S !! t = Some s -> sleeps s = false -> sleeps s' = false ->
  (forall k, active k s = active k s') -> inv (Sys (sem S) (<[t := s']> (thr S))).
Proof.
  intros [Hl Hq Hfree Hfront] Ht Hs Hs' Ha. split; simpl; [|by eapply queue_set|done|done].
  unfold lock_ok in *. rewrite !(threads_in_update _ _ _ _ _ Ht), !Ha. lia.
Qed.

Lemma no_waiter_true {A} (l : list A) : no_waiter l = true <-> l = [].
Proof. by destruct l. Qed.

Lemma step_inv e S S' : inv S -> step e S S' -> inv S'.
Proof.
  intros HI Hstep. pose proof (inv_free S HI) as Hfree. pose proof (inv_lock S HI) as Hl.
  unfold lock_ok in Hl. destruct Hstep as [S t sem' ok Ht E|S t sem' ok Ht E|S t sem' ok Ht E
    |S t sem' ok Ht E|S t k Ht|S t sem' woken Ht E|S t sem' woken Ht E|S t sem' woken Ht E].
  - unfold __down_read in E. destruct (_ && _) eqn:Eb; simplify_eq.
    + apply andb_true_iff in Eb as [? Eq%no_waiter_true]. apply inv_acquire; [done..|left; split; [done|lia]].
    + apply (inv_enqueue S t Read); [done..| |].
      * intros H0. rewrite (Hfree H0), H0 in Eb. done.
      * right. destruct (wait_list (sem S)) as [|w q]; [left|by right].
        rewrite andb_true_r in Eb. lia.
  - unfold __down_read_trylock in E. destruct (_ && _) eqn:Eb; simplify_eq.
    + apply andb_true_iff in Eb as [? Eq%no_waiter_true]. apply inv_acquire; [done..|left; split; [done|lia]].
    + by eapply inv_same.
  - unfold __down_write_nested in E. destruct (_ && _) eqn:Eb; simplify_eq.
    + apply andb_true_iff in Eb as [? Eq%no_waiter_true]. apply inv_acquire; [done..|right; split; [done|lia]].
    + apply (inv_enqueue S t Write); [done..| |by left]. intros H0. rewrite (Hfree H0), H0 in Eb. done.
  - unfold __down_write_trylock in E. destruct (_ && _) eqn:Eb; simplify_eq.
    + apply andb_true_iff in Eb as [? Eq%no_waiter_true]. apply inv_acquire; [done..|right; split; [done|lia]].
    + by eapply inv_same.
  - by eapply inv_same.
  - by eapply inv_up_read.
  - by eapply inv_up_write.
  - by eapply inv_downgrade.
Qed.

Lemma reachable_inv S : reachable S -> inv S.
Proof.
  induction 1 as [S [Hs Ht]|e S S' _ IH Hstep]; [|by eapply step_inv].
  assert (forall k, threads_in (active k) (thr S) = 0) as H0.
  { intros k. apply threads_in_zero. intros t s H. by rewrite (Ht t s H). }
  destruct S as [sm th]; simpl in *; subst sm. split; simpl; [right; rewrite !H0; lia| |done|done].
  split; [constructor|]. split; [constructor|]. intros t k H. by apply Ht in H.
Qed.

(** ** The abstract lock

    What users of the semaphore rely on: a set of holders, each in a mode, where a reader
    may join readers and a writer only an empty set, and a queue.  Who comes while
    somebody is queued, or does not fit the holders, queues up; after a release the queue
    is admitted from its front for as long as the front fits. *)

Abbreviation holders := (gmap tid mode).

#[export] Instance mode_eq_dec : EqDecision mode.
Proof. solve_decision. Defined.

Definition compatible (k : mode) (H : holders) : Prop :=
  match k with
  | Read => map_Forall (fun _ k' => k' = Read) H
  | Write => H = ∅
  end.

#[export] Instance compatible_dec k H : Decision (compatible k H).
Proof. destruct k; apply _. Defined.

Record lock := Lock { holding : holders; queue : list (tid * mode) }.

Fixpoint enter_front (H : holders) (q : list (tid * mode)) : lock :=
  match q with
  | [] => Lock H []
  | (t, k) :: rest => if decide (compatible k H) then enter_front (<[t := k]> H) rest else Lock H q
  end.

Definition open_for (k : mode) (L : lock) : bool := bool_decide (compatible k (holding L)) && no_waiter (queue L).

(** The lock after an event; [None]: the event cannot happen. *)
Definition lock_step (e : event) (L : lock) : option lock :=
  match e with
  | Down t k granted =>
      if negb (eqb granted (open_for k L)) then None
      else if granted then Some (Lock (<[t := k]> (holding L)) (queue L))
      else Some (Lock (holding L) (queue L ++ [(t, k)]))
  | TryDown t k granted =>
      if negb (eqb granted (open_for k L)) then None
      else if granted then Some (Lock (<[t := k]> (holding L)) (queue L))
      else Some L
  | Return t => if holding L !! t then Some L else None
  | Up t => if holding L !! t then Some (enter_front (delete t (holding L)) (queue L)) else None
  | Downgrade t =>
      match holding L !! t with
      | Some Write => Some (enter_front (<[t := Read]> (holding L)) (queue L))
      | _ => None
      end
  end.

Fixpoint lock_run (es : list event) (L : lock) : option lock :=
  match es with
  | [] => Some L
  | e :: es => lock_step e L ≫= lock_run es
  end.

Definition held (s : tstate) : option mode :=
  match s with Granted k | Holds k => Some k | _ => None end.

(** The holders of a system: the threads that have the lock or were given it. *)
Definition abs (thr : gmap tid tstate) : holders := omap held thr.

Lemma abs_lookup thr t : abs thr !! t = thr !! t ≫= held.
Proof. apply lookup_omap. Qed.

Lemma abs_set thr t s s' : thr !! t = Some s -> held s = held s' -> abs (<[t := s']> thr) = abs thr.
Proof.
  intros Ht Hs. apply map_eq. intros t'. rewrite !abs_lookup. destruct (decide (t = t')) as [<-|].
  - rewrite lookup_insert_eq, Ht. simpl. done.
  - by rewrite lookup_insert_ne.
Qed.

Lemma abs_acquire thr t s k :
  held s = Some k -> abs (<[t := s]> thr) = <[t := k]> (abs thr).
Proof.
  intros Hs. apply map_eq. intros t'. rewrite abs_lookup. destruct (decide (t = t')) as [<-|].
  - by rewrite !lookup_insert_eq.
  - by rewrite !lookup_insert_ne, abs_lookup.
Qed.

Lemma abs_release thr t s : held s = None -> abs (<[t := s]> thr) = delete t (abs thr).
Proof.
  intros Hs. apply map_eq. intros t'. rewrite abs_lookup. destruct (decide (t = t')) as [<-|].
  - by rewrite lookup_insert_eq, lookup_delete_eq.
  - by rewrite lookup_insert_ne, lookup_delete_ne, abs_lookup.
Qed.

Lemma held_active s k : held s = Some k <-> active k s = true.
Proof. destruct s as [|?|[]|[]], k; simpl; split; congruence. Qed.

(** Who may join shows in the numbers of active threads. *)
Lemma compatible_read thr : compatible Read (abs thr) <-> threads_in (active Write) thr = 0.
Proof.
  rewrite threads_in_zero. split.
  - intros H t s Ht. destruct (active Write s) eqn:E; [|done]. apply held_active in E.
    specialize (H t Write). rewrite abs_lookup, Ht in H. by specialize (H E).
  - intros H t k. rewrite abs_lookup. destruct (thr !! t) as [s|] eqn:E; [|done].
    simpl. intros Hk. destruct k; [done|]. apply held_active in Hk. by rewrite (H t s) in Hk.
Qed.

Lemma compatible_write thr :
  compatible Write (abs thr) <-> threads_in (active Write) thr = 0 /\ threads_in (active Read) thr = 0.
Proof.
  rewrite !threads_in_zero. simpl. split.
  - intros H. assert (forall t s k, thr !! t = Some s -> active k s = false) as Hk; [|eauto].
    intros t s k Ht. destruct (active k s) eqn:E; [|done]. apply held_active in E.
    assert (abs thr !! t = Some k) as Hl by by rewrite abs_lookup, Ht. by rewrite H, lookup_empty in Hl.
  - intros [HW HR]. apply map_eq. intros t. rewrite abs_lookup, lookup_empty.
    destruct (thr !! t) as [s|] eqn:E; [|done]. simpl. destruct (held s) as [k|] eqn:Hk; [|done].
    apply held_active in Hk. destruct k; [rewrite (HR t s) in Hk by done|rewrite (HW t s) in Hk by done]; done.
Qed.

(** The lock that a system implements. *)
Definition flag_mode (f : Z) : mode := if f =? RWSEM_WAITING_FOR_READ then Read else Write.

Definition entry (w : rwsem_waiter) : tid * mode := (task w, flag_mode (flags w)).

Definition lock_of (S : system) : lock := Lock (abs (thr S)) (map entry (wait_list (sem S))).

Lemma entry_mode w k : flags w = mode_flag k -> entry w = (task w, k).
Proof. intros E. unfold entry. rewrite E. by destruct k. Qed.

Lemma open_ok S k : inv S -> open_for k (lock_of S) =
  (match k with Read => 0 <=? activity (sem S) | Write => activity (sem S) =? 0 end) && no_waiter (wait_list (sem S)).
Proof.
  intros [Hl _ _ _]. unfold open_for, lock_of, lock_ok in *. cbn [holding queue].
  replace (no_waiter (map entry (wait_list (sem S)))) with (no_waiter (wait_list (sem S))) by by destruct (wait_list (sem S)).
  f_equal. destruct k.
  - rewrite (bool_decide_ext _ _ (compatible_read (thr S))). case_bool_decide; lia.
  - rewrite (bool_decide_ext _ _ (compatible_write (thr S))). case_bool_decide; lia.
Qed.

(** The first of the waiters is woken, then the others. *)
Lemma grant_cons w ws k thr :
  asleep (w :: ws) k thr ->
  asleep ws k (<[task w := Granted k]> thr) /\
  grant_all (map task (w :: ws)) thr = grant_all (map task ws) (<[task w := Granted k]> thr).
Proof.
  intros Hs. destruct (asleep_cons _ _ _ _ Hs) as ((Hn & Hq & Hk) & _ & E).
  destruct Hs as (Hn0 & _). apply NoDup_cons in Hn0 as [Hout _]. split; [split; [done|split; [|done]]|].
  - rewrite Forall_forall in *. intros v Hv. destruct (Hq v Hv) as (k' & ? & ?). exists k'. split; [done|].
    rewrite lookup_insert_ne; [done|]. intros E'. apply Hout. rewrite E'. by apply list_elem_of_fmap_2.
  - rewrite E. apply map_eq. intros t. rewrite grant_all_lookup. destruct (decide (task w = t)) as [<-|].
    + rewrite !lookup_insert_eq. by destruct (decide (task w ∈ map task ws)).
    + rewrite !lookup_insert_ne, grant_all_lookup by done. done.
Qed.

(** Readers at the front are admitted one after the other. *)
Lemma enter_readers ws thr q :
  asleep ws Read thr -> threads_in (active Write) thr = 0 ->
  enter_front (abs thr) (map entry ws ++ q) = enter_front (abs (grant_all (map task ws) thr)) q.
Proof.
  revert thr. induction ws as [|w ws IH]; intros thr Hs HW; [done|].
  destruct (grant_cons _ _ _ _ Hs) as [Hs' ->]. destruct (asleep_cons _ _ _ _ Hs) as (_ & Ht & _).
  assert (flags w = mode_flag Read) as Hf by (destruct Hs as (_ & _ & Hf); by apply Forall_cons in Hf as [? _]).
  assert (thr !! task w = Some (Sleeping Read)) as Hw.
  { destruct Hs as (_ & Hq & _). apply Forall_cons in Hq as [(k & Hk & ?) _]. rewrite Hf in Hk. by apply flag_inj in Hk as <-. }
  cbn [map app]. rewrite (entry_mode w Read Hf). cbn [enter_front]. rewrite decide_True by (by apply compatible_read).
  rewrite <- (abs_acquire thr (task w) (Granted Read)) by done. apply IH; [done|].
  rewrite (threads_in_update _ _ _ _ _ Hw). simpl. lia.
Qed.

(** A writer at the front that does not fit stays. *)
Lemma enter_blocked thr q :
  (forall w, head q = Some w -> flags w = mode_flag Write) ->
  q = [] \/ 0 < threads_in (active Read) thr + threads_in (active Write) thr ->
  enter_front (abs thr) (map entry q) = Lock (abs thr) (map entry q).
Proof.
  intros Hh Hn. destruct q as [|w q]; [done|]. destruct Hn as [|Hn]; [done|]. cbn [map].
  rewrite (entry_mode w Write) by by apply Hh. cbn [enter_front]. rewrite decide_False; [done|]. rewrite compatible_write. lia.
Qed.

(** A single writer at the front is admitted, and nobody behind it. *)
Lemma enter_writer w q thr :
  asleep [w] Write thr -> threads_in (active Write) thr = 0 -> threads_in (active Read) thr = 0 ->
  enter_front (abs thr) (map entry (w :: q)) = Lock (abs (grant_all [task w] thr)) (map entry q).
Proof.
  intros Hs HW HR. destruct (grant_cons w [] _ _ Hs) as [_ E]. cbn [map] in E. rewrite E. clear E. destruct Hs as (_ & _ & Hf). apply Forall_cons in Hf as [Hf _].
  cbn [map grant_all foldr]. rewrite (entry_mode w Write Hf). cbn [enter_front]. rewrite decide_True by (by apply compatible_write).
  rewrite (abs_acquire thr (task w) (Granted Write) Write) by done. destruct q as [|v q]; [done|]. cbn [map enter_front].
  destruct (entry v) as [t k]. rewrite decide_False; [done|].
  assert ((<[task w := Write]> (abs thr)) !! task w = Some Write) as E by apply lookup_insert_eq.
  destruct k; simpl; intros H; [by specialize (H _ _ E)|by rewrite H in E].
Qed.

(** __rwsem_do_wake admits the front of the queue. *)
Lemma do_wake_enters q thr a (wakewrite : bool) sem' woken :
  queue_ok q thr -> threads_in (active Write) thr = 0 -> threads_in (active Read) thr = a ->
  (if wakewrite then a = 0 else 0 < a) ->
  __rwsem_do_wake (Sem a q) wakewrite = Some (sem', woken) ->
  enter_front (abs thr) (map entry q) = Lock (abs (grant_all woken thr)) (map entry (wait_list sem')).
Proof.
  intros Hq HW HR Ha E. unfold __rwsem_do_wake in E. cbn [wait_list activity] in E. destruct q as [|w q]; [done|].
  destruct (waits_mode _ _ w Hq) as [k Hk]; [left|]. rewrite Hk in E.
  destruct (wake_readers (w :: q)) as [woken' rest] eqn:Er.
  destruct (wake_readers_spec _ thr _ _ (proj1 (proj2 Hq)) Er) as (ws & Eq & -> & Hws & Hh).
  assert (k = Read -> enter_front (abs thr) (map entry (w :: q)) = Lock (abs (grant_all (map task ws) thr)) (map entry rest)) as Hreaders.
  { intros ->. assert (ws <> []) as Hne by (intros ->; simpl in Eq; subst rest; by rewrite (Hh w) in Hk).
    rewrite Eq in Hq. pose proof (queue_front _ _ _ _ Hq Hws) as Hs. rewrite Eq, map_app, enter_readers by done.
    apply enter_blocked; [done|]. right. rewrite !(number_wake ws thr Read) by done. destruct ws; [done|]. pose proof (threads_in_nonneg (active Read) thr). simpl. lia. }
  destruct k, wakewrite; simpl in E; simplify_eq; cbn [wait_list]; [by apply Hreaders|by apply Hreaders| |].
  - apply enter_writer; [|done|done]. apply (queue_front [w] q); [done|by constructor].
  - change (grant_all [] thr) with thr. apply enter_blocked; [by intros ? [= <-]|]. right. cbn in Ha. lia.
Qed.

Lemma holder_lookup S t k : thr S !! t = Some (Holds k) -> holding (lock_of S) !! t = Some k.
Proof. intros Ht. cbn [lock_of holding]. by rewrite abs_lookup, Ht. Qed.

(** ** Every step is a step of the lock *)

Lemma up_read_enters S t sem' woken :
  inv S -> thr S !! t = Some (Holds Read) -> __up_read (sem S) = Some (sem', woken) ->
  lock_step (Up t) (lock_of S) = Some (lock_of (Sys sem' (grant_all woken (<[t := Idle]> (thr S))))).
Proof.
  intros HI Ht E. destruct (holder_activity S t Read HI Ht) as (Ha & HW & HR). pose proof (inv_front S HI) as Hfront.
  pose proof (number_Idle_update S t Read Ht) as Hn. pose proof (inv_queue S HI) as Hq.
  assert (queue_ok (wait_list (sem S)) (<[t := Idle]> (thr S))) as Hq' by (by eapply queue_set).
  cbn [lock_step]. rewrite (holder_lookup S t Read Ht). cbn [lock_of holding queue]. f_equal.
  rewrite <- (abs_release (thr S) t Idle) by done. unfold lock_of. cbn [sem thr].
  unfold __up_read, __rwsem_wake_one_writer in E. cbn [activity wait_list] in E.
  destruct (wait_list (sem S)) as [|w q] eqn:Ew; cbn [no_waiter negb] in E.
  { rewrite andb_false_r in E. by simplify_eq. }
  rewrite andb_true_r in E. destruct (Z.eqb_spec (activity (sem S) - 1) 0) as [E0|E0]; simplify_eq; cbn [wait_list].
  - apply enter_writer; [|rewrite Hn; simpl; lia|rewrite Hn; simpl; lia].
    apply (queue_front [w] q); [done|]. constructor; [by apply Hfront|done].
  - apply enter_blocked; [intros ? [= <-]; by apply Hfront|]. right. rewrite !Hn. simpl. lia.
Qed.

Lemma up_write_enters S t sem' woken :
  inv S -> thr S !! t = Some (Holds Write) -> __up_write (sem S) = Some (sem', woken) ->
  lock_step (Up t) (lock_of S) = Some (lock_of (Sys sem' (grant_all woken (<[t := Idle]> (thr S))))).
Proof.
  intros HI Ht E. destruct (holder_activity S t Write HI Ht) as (Ha & HW & HR).
  pose proof (number_Idle_update S t Write Ht) as Hn. pose proof (inv_queue S HI) as Hq.
  cbn [lock_step]. rewrite (holder_lookup S t Write Ht). cbn [lock_of holding queue]. f_equal.
  rewrite <- (abs_release (thr S) t Idle) by done. unfold lock_of. cbn [sem thr].
  unfold __up_write in E. cbn [wait_list] in E. destruct (wait_list (sem S)) as [|w q] eqn:Ew; cbn [no_waiter negb] in E; [by simplify_eq|].
  apply (do_wake_enters (w :: q) _ 0 true); [by eapply queue_set|rewrite Hn; simpl; lia|rewrite Hn; simpl; lia|done|done].
Qed.

Lemma downgrade_enters S t sem' woken :
  inv S -> thr S !! t = Some (Holds Write) -> __downgrade_write (sem S) = Some (sem', woken) ->
  lock_step (Downgrade t) (lock_of S) = Some (lock_of (Sys sem' (grant_all woken (<[t := Holds Read]> (thr S))))).
Proof.
  intros HI Ht E. destruct (holder_activity S t Write HI Ht) as (Ha & HW & HR).
  pose proof (fun P => threads_in_update P _ _ _ (Holds Read) Ht) as Hn. pose proof (inv_queue S HI) as Hq.
  cbn [lock_step]. rewrite (holder_lookup S t Write Ht). cbn [lock_of holding queue]. f_equal.
  rewrite <- (abs_acquire (thr S) t (Holds Read) Read) by done. unfold lock_of. cbn [sem thr].
  unfold __downgrade_write in E. cbn [wait_list] in E. destruct (wait_list (sem S)) as [|w q] eqn:Ew; cbn [no_waiter negb] in E; [by simplify_eq|].
  apply (do_wake_enters (w :: q) _ 1 false); [by eapply queue_set|rewrite Hn; simpl; lia|rewrite Hn; simpl; lia|lia|done].
Qed.

(** The four down routines: granted at once, queued, or refused. *)
Lemma lock_of_acquire S t k a s : held s = Some k ->
  lock_of (Sys (Sem a (wait_list (sem S))) (<[t := s]> (thr S))) = Lock (<[t := k]> (holding (lock_of S))) (queue (lock_of S)).
Proof. intros Hs. unfold lock_of. cbn. by rewrite (abs_acquire _ _ _ k). Qed.

Lemma lock_of_enqueue S t k s a : thr S !! t = Some Idle -> held s = None ->
  lock_of (Sys (Sem a (wait_list (sem S) ++ [Waiter t (mode_flag k)])) (<[t := s]> (thr S))) = Lock (holding (lock_of S)) (queue (lock_of S) ++ [(t, k)]).
Proof. intros Ht Hs. unfold lock_of. cbn. rewrite (abs_set _ _ _ _ Ht) by done. rewrite map_app. cbn. by rewrite (entry_mode _ k). Qed.

Lemma lock_of_same S t s s' : thr S !! t = Some s -> held s = held s' -> lock_of (Sys (sem S) (<[t := s']> (thr S))) = lock_of S.
Proof. intros Ht Hs. unfold lock_of. cbn. by rewrite (abs_set _ _ _ _ Ht). Qed.

Lemma step_refines e S S' : inv S -> step e S S' -> lock_step e (lock_of S) = Some (lock_of S').
Proof.
  intros HI Hstep. destruct Hstep as [S t sem' ok Ht E|S t sem' ok Ht E|S t sem' ok Ht E
    |S t sem' ok Ht E|S t k Ht|S t sem' woken Ht E|S t sem' woken Ht E|S t sem' woken Ht E].
  1-4: cbn [lock_step]; rewrite open_ok by done; unfold __down_read, __down_read_trylock, __down_write_nested, __down_write_trylock in E;
    destruct (_ && _) eqn:Eb; simplify_eq; cbn [eqb negb]; f_equal; symmetry.
  - by apply lock_of_acquire.
  - by apply (lock_of_enqueue S t Read).
  - by apply lock_of_acquire.
  - by eapply lock_of_same.
  - by apply lock_of_acquire.
  - by apply (lock_of_enqueue S t Write).
  - by apply lock_of_acquire.
  - by eapply lock_of_same.
  - cbn [lock_step]. replace (holding (lock_of S) !! t) with (Some k) by (cbn; by rewrite abs_lookup, Ht). f_equal. symmetry. by eapply lock_of_same.
  - by apply up_read_enters.
  - by apply up_write_enters.
  - by apply downgrade_enters.
Qed.

(** ** Runs *)

Inductive run : system -> list event -> system -> Prop :=
  | run_nil S : run S [] S
  | run_cons S e S1 es S' : step e S S1 -> run S1 es S' -> run S (e :: es) S'.

Lemma run_inv S es S' : run S es S' -> inv S -> inv S' /\ lock_run es (lock_of S) = Some (lock_of S').
Proof.
  induction 1 as [S|S e S1 es S' Hs Hr IH]; intros HI; [done|]. destruct IH as [HI' E]; [by eapply step_inv|]. split; [done|].
  cbn [lock_run]. by rewrite (step_refines e S S1 HI Hs).
Qed.

Lemma initial_lock S : initial S -> lock_of S = Lock ∅ [].
Proof.
  intros [Hs Ht]. unfold lock_of. rewrite Hs. cbn. f_equal. apply map_eq. intros t. rewrite abs_lookup, lookup_empty.
  destruct (thr S !! t) as [s|] eqn:E; [|done]. by rewrite (Ht t s E).
Qed.

(** A holder can always leave: the wake-up routines find a waiter where they expect one. *)
Lemma up_enabled S t k : inv S -> thr S !! t = Some (Holds k) -> exists S', step (Up t) S S'.
Proof.
  intros HI Ht. destruct k.
  - assert (exists sem' woken, __up_read (sem S) = Some (sem', woken)) as (sem' & woken & E); [|eexists; by eapply step_up_read].
    unfold __up_read, __rwsem_wake_one_writer. cbn [activity wait_list]. destruct (wait_list (sem S)); cbn; [rewrite andb_false_r|]; [eauto|]. destruct (_ && _); eauto.
  - assert (exists sem' woken, __up_write (sem S) = Some (sem', woken)) as (sem' & woken & E); [|eexists; by eapply step_up_write].
    unfold __up_write, __rwsem_do_wake. cbn [activity wait_list]. destruct (wait_list (sem S)) as [|w q]; cbn [no_waiter negb]; [eauto|].
    destruct (negb (Z.land _ _ =? 0)); cbn [negb]; [eauto|]. destruct (wake_readers (w :: q)). eauto.
Qed.

Lemma downgrade_enabled S t : thr S !! t = Some (Holds Write) -> exists S', step (Downgrade t) S S'.
Proof.
  intros Ht. assert (exists sem' woken, __downgrade_write (sem S) = Some (sem', woken)) as (sem' & woken & E); [|eexists; by eapply step_downgrade].
  unfold __downgrade_write, __rwsem_do_wake. cbn [activity wait_list]. destruct (wait_list (sem S)) as [|w q]; cbn [no_waiter negb]; [eauto|].
  destruct (negb (Z.land _ _ =? 0)); cbn [negb]; [eauto|]. destruct (wake_readers (w :: q)). eauto.
Qed.

(** ** Queueing order *)

(** Admission takes a prefix of the queue, all of which have the lock then, and nobody
    else gets it. *)
Lemma enter_prefix q H : exists front,
  q = front ++ queue (enter_front H q) /\
  (forall t, is_Some (H !! t) \/ t ∈ map fst front <-> is_Some (holding (enter_front H q) !! t)).
Proof.
  revert H. induction q as [|[t k] q IH]; intros H; cbn [enter_front].
  { exists []. split; [done|]. intros t. split; [by intros [?|[]%elem_of_nil]|by left]. }
  destruct (decide (compatible k H)).
  - destruct (IH (<[t := k]> H)) as (front & Eq & Hf). exists ((t, k) :: front). split; [cbn; by f_equal|].
    intros t'. rewrite <- Hf. cbn [map fst]. rewrite elem_of_cons. destruct (decide (t = t')) as [<-|].
    + rewrite lookup_insert_eq. split; [eauto|auto].
    + rewrite lookup_insert_ne by done. split; [intros [?|[?|?]]; [auto|congruence|auto]|intros [?|?]; auto].
  - exists []. split; [done|]. intros t'. split; [by intros [?|[]%elem_of_nil]|by left].
Qed.

(** What a step does to queue and holders: a front of the queue goes and gets the lock. *)
Lemma lock_step_fifo e L L' : lock_step e L = Some L' -> exists front rest new,
  queue L = front ++ rest /\ queue L' = rest ++ new /\
  (forall t, t ∈ map fst front -> is_Some (holding L' !! t)) /\
  (forall t, holding L !! t = None -> is_Some (holding L' !! t) -> queue L = [] \/ t ∈ map fst front).
Proof.
  assert (forall H, (forall t, holding L !! t = None -> is_Some (H !! t) -> False) -> exists front rest new,
    queue L = front ++ rest /\ queue (enter_front H (queue L)) = rest ++ new /\
    (forall t, t ∈ map fst front -> is_Some (holding (enter_front H (queue L)) !! t)) /\
    (forall t, holding L !! t = None -> is_Some (holding (enter_front H (queue L)) !! t) -> queue L = [] \/ t ∈ map fst front)) as Henter.
  { intros H Hold. destruct (enter_prefix (queue L) H) as (front & Eq & Hf). exists front, (queue (enter_front H (queue L))), [].
    split; [done|]. split; [by rewrite app_nil_r|]. split; [intros t Ht; apply Hf; by right|].
    intros t Hn Hy. apply Hf in Hy as [Hy|?]; [by destruct (Hold t Hn Hy)|by right]. }
  assert (forall new, exists front rest new', queue L = front ++ rest /\ queue L ++ new = rest ++ new' /\
    (forall t, t ∈ map fst front -> is_Some (holding L !! t)) /\
    (forall t, holding L !! t = None -> is_Some (holding L !! t) -> queue L = [] \/ t ∈ map fst front)) as Hsame.
  { intros new. exists [], (queue L), new. split; [done|]. split; [done|]. split; [by intros t []%elem_of_nil|]. intros t Hn Hy. by rewrite Hn in Hy; destruct Hy. }
  assert (forall t k, open_for k L = true -> exists front rest new, queue L = front ++ rest /\ queue L = rest ++ new /\
    (forall t', t' ∈ map fst front -> is_Some (<[t := k]> (holding L) !! t')) /\
    (forall t', holding L !! t' = None -> is_Some (<[t := k]> (holding L) !! t') -> queue L = [] \/ t' ∈ map fst front)) as Hopen.
  { intros t k [_ Hq%no_waiter_true]%andb_true_iff. exists [], [], []. rewrite Hq. split; [done|]. split; [done|]. split; [by intros ? []%elem_of_nil|by left]. }
  destruct e as [t k g|t k g|t|t|t]; cbn [lock_step].
  - destruct g, (open_for k L) eqn:Eo; cbn [eqb negb]; try done; intros [= <-]; cbn [holding queue]; [by apply Hopen|apply Hsame].
  - destruct g, (open_for k L) eqn:Eo; cbn [eqb negb]; try done; intros [= <-]; cbn [holding queue]; [by apply Hopen|].
    destruct (Hsame []) as (a & b & c & ? & E & ?). rewrite app_nil_r in E. by exists a, b, c.
  - destruct (holding L !! t); [|done]. intros [= <-]. destruct (Hsame []) as (a & b & c & ? & E & ?). rewrite app_nil_r in E. by exists a, b, c.
  - destruct (holding L !! t); [|done]. intros [= <-]. apply Henter. intros t' Hn [k Hk]. apply lookup_delete_Some in Hk as [_ Hk]. congruence.
  - destruct (holding L !! t) as [[]|] eqn:Et; try done. intros [= <-]. apply Henter. intros t' Hn [k Hk].
    apply lookup_insert_Some in Hk as [[<- _]|[_ Hk]]; congruence.
Qed.

Lemma entry_tasks l : map fst (map entry l) = map task l.
Proof. rewrite map_map. done. Qed.

Lemma map_app_inv {A B} (f : A -> B) l a b : map f l = a ++ b -> exists la lb, l = la ++ lb /\ a = map f la /\ b = map f lb.
Proof. intros (la & lb & -> & <- & <-)%map_eq_app. by exists la, lb. Qed.

(** A queued thread does not have the lock. *)
Lemma queued_waits S w : inv S -> w ∈ wait_list (sem S) -> abs (thr S) !! task w = None.
Proof.
  intros HI Hw. destruct (inv_queue S HI) as (_ & Hq & _). rewrite Forall_forall in Hq. destruct (Hq w Hw) as (k & _ & Hk). by rewrite abs_lookup, Hk.
Qed.

(** The queue of the lock is that of the semaphore. *)
Lemma entries_inj l l' : (forall w, w ∈ l -> exists k, flags w = mode_flag k) -> (forall w, w ∈ l' -> exists k, flags w = mode_flag k) ->
  map entry l = map entry l' -> l = l'.
Proof.
  revert l'. induction l as [|[t f] l IH]; intros [|[t' f'] l'] Hl Hl' E; try done. cbn [map] in E.
  destruct (Hl (Waiter t f)) as [k Hk]; [left|]. destruct (Hl' (Waiter t' f')) as [k' Hk']; [left|].
  rewrite (entry_mode _ k Hk), (entry_mode _ k' Hk') in E. cbn [task flags] in *. injection E as -> <- E. f_equal; [congruence|].
  apply IH; [intros w Hw; apply Hl; by right|intros w Hw; apply Hl'; by right|done].
Qed.

(** ** The properties of the semaphore *)

(** C1: mutual exclusion.  In every reachable state a thread that has the lock for
    writing is the only one that has the lock, and [activity] is -1 when there is such a
    writer and the number of readers that have the lock otherwise. *)
Theorem rwsem_mutual_exclusion S :
  reachable S ->
  (forall t t' k, abs (thr S) !! t = Some Write -> abs (thr S) !! t' = Some k -> t' = t) /\
  (activity (sem S) = -1 <-> exists t, abs (thr S) !! t = Some Write) /\
  (activity (sem S) <> -1 -> activity (sem S) = threads_in (active Read) (thr S)).
Proof.
  intros HI%reachable_inv%inv_lock. unfold lock_ok in HI.
  assert (forall t k, abs (thr S) !! t = Some k ->
    exists s, thr S !! t = Some s /\ active k s = true) as Habs.
  { intros t k. rewrite abs_lookup. destruct (thr S !! t) as [s|]; [|done]. simpl.
    rewrite held_active. by exists s. }
  split; [|split; [|lia]].
  - intros t t' k (s & Hs & Ha)%Habs (s' & Hs' & Ha')%Habs. destruct (decide (t = t')); [done|].
    pose proof (threads_in_pos _ _ _ _ Hs Ha). pose proof (threads_in_pos _ _ _ _ Hs' Ha').
    destruct k; [lia|]. pose proof (threads_in_two (active Write) (thr S) t t' s s'). intuition lia.
  - split.
    + intros E. destruct (threads_in_some (active Write) (thr S)) as (t & s & Ht & Hs); [lia|].
      exists t. rewrite abs_lookup, Ht. simpl. by apply held_active.
    + intros (t & (s & Hs & Ha)%Habs). pose proof (threads_in_pos _ _ _ _ Hs Ha). lia.
Qed.

(** A writer holds the lock, a reader and then a writer have queued behind it. *)
Definition contended : system :=
  Sys (Sem (-1) [Waiter 2 RWSEM_WAITING_FOR_READ; Waiter 3 RWSEM_WAITING_FOR_WRITE])
      (<[3%positive := Sleeping Write]> (<[2%positive := Sleeping Read]> (<[1%positive := Holds Write]>
        {[1%positive := Idle; 2%positive := Idle; 3%positive := Idle]}))).

Lemma contended_reachable : reachable contended.
Proof.
  assert (reachable (Sys __init_rwsem
    {[1%positive := Idle; 2%positive := Idle; 3%positive := Idle]})) as H0.
  { apply reach_init. split; [done|]. simpl. intros t s.
    rewrite !lookup_insert_Some, lookup_singleton_Some. intuition congruence. }
  assert (forall S t sem' ok, reachable S -> thr S !! t = Some Idle ->
    __down_write_nested (sem S) t = (sem', ok) ->
    reachable (Sys sem' (<[t := if ok : bool then Holds Write else Sleeping Write]> (thr S)))) as Hw.
  { intros. eapply reach_step; [done|by apply step_down_write]. }
  pose proof (Hw _ 1%positive _ _ H0 eq_refl eq_refl) as H1.
  assert (forall S t sem' ok, reachable S -> thr S !! t = Some Idle -> __down_read (sem S) t = (sem', ok) ->
    reachable (Sys sem' (<[t := if ok : bool then Holds Read else Sleeping Read]> (thr S)))) as Hr.
  { intros. eapply reach_step; [done|by apply step_down_read]. }
  pose proof (Hr _ 2%positive _ _ H1 eq_refl eq_refl) as H2.
  exact (Hw _ 3%positive _ _ H2 eq_refl eq_refl).
Qed.

Lemma rwsem_mutual_exclusion_witness :
  reachable contended /\ forall t', abs (thr contended) !! t' = Some Read -> t' = 1%positive.
Proof.
  split; [exact contended_reachable|]. intros t' H.
  apply (proj1 (rwsem_mutual_exclusion contended contended_reachable) 1%positive t' Read); [reflexivity|exact H].
Defined.

(** C32: no lost wake-ups.  While a thread sleeps in a down routine, some thread
    has the lock or has been given it, so that a release is still to come. *)
Theorem rwsem_no_lost_wakeup S t k :
  reachable S -> thr S !! t = Some (Sleeping k) -> exists t' k', abs (thr S) !! t' = Some k'.
Proof.
  intros HI%reachable_inv Ht. destruct (inv_queue S HI) as (_ & _ & Hs). pose proof (Hs t k Ht) as Hin.
  pose proof (inv_free S HI) as Hfree. pose proof (inv_lock S HI) as Hl. unfold lock_ok in Hl.
  assert (activity (sem S) <> 0) as Ha.
  { intros H0. rewrite (Hfree H0) in Hin. by apply elem_of_nil in Hin. }
  assert (exists k', 0 < threads_in (active k') (thr S)) as [k' Hk'].
  { destruct Hl as [|]; [exists Write|exists Read]; lia. }
  destruct (threads_in_some _ _ Hk') as (t' & s & Hs' & Hact). exists t', k'.
  rewrite abs_lookup, Hs'. simpl. by apply held_active.
Qed.

Lemma rwsem_no_lost_wakeup_witness : exists t' k', abs (thr contended) !! t' = Some k'.
Proof. apply (rwsem_no_lost_wakeup contended 2 Read contended_reachable). reflexivity. Defined.

(** C2: refinement.  A run of the semaphore from its initialisation, whatever threads call
    in whatever order, is a run of the abstract lock with the same events: a call is
    granted at once exactly when the lock is open for it, and a release or a downgrade
    admits exactly the front of the queue that fits; holders and queue agree in the end.
    And a holder can always release or downgrade, the routines never fault. *)
Theorem rwsem_refines_lock S0 es S :
  initial S0 -> run S0 es S ->
  lock_run es (Lock ∅ []) = Some (lock_of S) /\
  (forall t k, thr S !! t = Some (Holds k) -> exists S', step (Up t) S S') /\
  (forall t, thr S !! t = Some (Holds Write) -> exists S', step (Downgrade t) S S').
Proof.
  intros H0 Hrun. pose proof (reachable_inv _ (reach_init _ H0)) as HI. destruct (run_inv _ _ _ Hrun HI) as [HI' E].
  split; [by rewrite <- (initial_lock S0 H0)|]. split; [|apply downgrade_enabled]. intros t k. by apply up_enabled.
Qed.

(** Three threads: a writer, then a reader and a writer queued behind it. *)
Definition three_idle : system := Sys __init_rwsem {[1%positive := Idle; 2%positive := Idle; 3%positive := Idle]}.

Lemma three_idle_initial : initial three_idle.
Proof. split; [done|]. intros t s. cbn [thr three_idle]. rewrite !lookup_insert_Some, lookup_singleton_Some. intuition congruence. Qed.

Lemma contended_run : run three_idle [Down 1 Write true; Down 2 Read false; Down 3 Write false] contended.
Proof.
  eapply run_cons; [apply (step_down_write three_idle 1); reflexivity|].
  eapply run_cons; [eapply (step_down_read _ 2); reflexivity|].
  eapply run_cons; [eapply (step_down_write _ 3); reflexivity|]. apply run_nil.
Qed.

Lemma rwsem_refines_lock_witness :
  lock_run [Down 1 Write true; Down 2 Read false; Down 3 Write false] (Lock ∅ []) = Some (lock_of contended) /\
  queue (lock_of contended) = [(2%positive, Read); (3%positive, Write)] /\ exists S', step (Downgrade 1) contended S'.
Proof.
  destruct (rwsem_refines_lock three_idle _ contended three_idle_initial contended_run) as (E & _ & Hd).
  split; [exact E|]. split; [reflexivity|]. apply (Hd 1%positive). reflexivity.
Defined.

(** C31: first come, first served.  A step splits the queue: the threads of its front all
    have the lock afterwards, those behind still wait, in their order and before those
    that come new.  While somebody is queued only threads of the front get the lock, so
    nobody, reader or trylock, overtakes a thread that was queued before. *)
Theorem rwsem_fifo e S S' :
  reachable S -> step e S S' ->
  exists front rest new,
    wait_list (sem S) = front ++ rest /\ wait_list (sem S') = rest ++ new /\
    Forall (fun w => is_Some (abs (thr S') !! task w)) front /\
    Forall (fun w => abs (thr S') !! task w = None) rest /\
    forall t, abs (thr S) !! t = None -> is_Some (abs (thr S') !! t) -> wait_list (sem S) = [] \/ t ∈ map task front.
Proof.
  intros HI%reachable_inv Hstep. pose proof (step_inv _ _ _ HI Hstep) as HI'.
  destruct (lock_step_fifo _ _ _ (step_refines _ _ _ HI Hstep)) as (front & rest & new & E1 & E2 & Hf & Ho). cbn [lock_of holding queue] in *.
  destruct (map_app_inv _ _ _ _ E1) as (f & r & Eq & -> & ->). destruct (map_app_inv _ _ _ _ E2) as (r' & n & Eq' & Er & ->).
  exists f, r, n. rewrite entry_tasks in *. assert (r' = r) as ->.
  { apply entries_inj; [| |done]; intros w Hw; eapply waits_mode.
    - apply (inv_queue S' HI').
    - rewrite Eq'. apply elem_of_app. by left.
    - apply (inv_queue S HI).
    - rewrite Eq. apply elem_of_app. by right. }
  split; [done|]. split; [done|]. split; [|split].
  - apply Forall_forall. intros w Hw. apply Hf. by apply list_elem_of_fmap_2.
  - apply Forall_forall. intros w Hw. apply queued_waits; [done|]. rewrite Eq'. apply elem_of_app. by left.
  - intros t Hn Hy. destruct (Ho t Hn Hy) as [Hq|?]; [left|by right]. by destruct (wait_list (sem S)).
Qed.

Lemma rwsem_fifo_witness :
  exists S', step (Downgrade 1) contended S' /\ exists front rest new,
    wait_list (sem contended) = front ++ rest /\ wait_list (sem S') = rest ++ new /\
    Forall (fun w => is_Some (abs (thr S') !! task w)) front /\
    Forall (fun w => abs (thr S') !! task w = None) rest /\
    forall t, abs (thr contended) !! t = None -> is_Some (abs (thr S') !! t) -> wait_list (sem contended) = [] \/ t ∈ map task front.
Proof.
  set (S' := Sys (Sem 2 [Waiter 3 RWSEM_WAITING_FOR_WRITE])
    (grant_all [2%positive] (<[1%positive := Holds Read]> (thr contended)))).
  assert (step (Downgrade 1) contended S') as H by (apply (step_downgrade contended 1); reflexivity). exists S'.
  split; [exact H|]. exact (rwsem_fifo _ _ _ contended_reachable H).
Defined.

(** A release hands the lock over.  A holder can always release; when the last
    reader leaves, __up_read gives the lock to the thread at the front of the
    queue, which is a writer although the code does not look at its flags, and
    __up_write wakes the thread at the front whatever it waits for. *)
Theorem rwsem_handoff S t k w :
  reachable S -> thr S !! t = Some (Holds k) -> head (wait_list (sem S)) = Some w ->
  match k with
  | Read => exists sem' woken, __up_read (sem S) = Some (sem', woken) /\
      (activity (sem S) = 1 ->
       flags w = RWSEM_WAITING_FOR_WRITE /\ woken = [task w] /\ activity sem' = -1)
  | Write => exists sem' woken, __up_write (sem S) = Some (sem', woken) /\ task w ∈ woken
  end.
Proof.
  intros HI%reachable_inv Ht Hw. pose proof (holder_activity S t k HI Ht) as Ha.
  pose proof (inv_front S HI) as Hfront. pose proof (inv_queue S HI) as Hq.
  destruct (wait_list (sem S)) as [|w' q] eqn:Eq; [done|]. simpl in Hw. injection Hw as ->.
  destruct k.
  - unfold __up_read, __rwsem_wake_one_writer. cbn [activity wait_list]. rewrite Eq. simpl.
    destruct (Z.eqb_spec (activity (sem S) - 1) 0); simpl; eexists _, _; (split; [done|]); intros E1.
    + split; [apply Hfront; [lia|done]|done].
    + lia.
  - unfold __up_write, __rwsem_do_wake. cbn [wait_list]. rewrite Eq. simpl.
    destruct (waits_mode _ _ w Hq) as [k Hk]; [left|]. rewrite Hk. destruct k; simpl.
    + destruct (wake_readers q) as [woken rest]. simpl. eexists _, _. split; [done|]. left.
    + eexists _, _. split; [done|]. left.
Qed.

Lemma rwsem_handoff_witness :
  exists sem' woken, __up_write (sem contended) = Some (sem', woken) /\ 2%positive ∈ woken.
Proof.
  apply (rwsem_handoff contended 1 Write (Waiter 2 RWSEM_WAITING_FOR_READ) contended_reachable);
    reflexivity.
Defined.
