(* ===== verification/Semaphore.v ===== *)
(** * Counting semaphores: kernel/semaphore.c

    Every routine works under the semaphore's spinlock; __down_common gives it up while it
    sleeps, so a down that waits is a sequence of critical sections: the one that queues
    the thread and goes to sleep for the first time, and one for every return from
    schedule_timeout.  Between them anything may happen: other threads, signals, the end
    of the time, and wake-ups without a cause.  The system is a step relation on the
    semaphore and the states of the threads. *)

From S2P Require Import Prelude Threads.

(** ** The code *)

Definition EINTR : Z := 4.
Definition ETIME : Z := 62.

Definition TASK_INTERRUPTIBLE : Z := 1.
Definition TASK_UNINTERRUPTIBLE : Z := 2.
Definition TASK_WAKEKILL : Z := 128.
Definition TASK_KILLABLE : Z := Z.lor TASK_WAKEKILL TASK_UNINTERRUPTIBLE.

Definition MAX_SCHEDULE_TIMEOUT : Z := 2 ^ 31 - 1.

(** [pending]: signal_pending(p); [fatal]: __fatal_signal_pending(p). *)
Definition signal_pending_state (state : Z) (pending fatal : bool) : bool :=
  if Z.land state (Z.lor TASK_INTERRUPTIBLE TASK_WAKEKILL) =? 0 then false
  else if negb pending then false
  else negb (Z.land state TASK_INTERRUPTIBLE =? 0) || fatal.

(** The waiters stand for themselves in the list by their tasks. *)
Record semaphore := Semaphore { count : Z; wait_list : list tid }.

Definition sema_init (val : Z) : semaphore := Semaphore (u32 val) [].

(** How a critical section of a down routine ends: it returns, or the thread sleeps with
    the time that is left. *)
Inductive outcome := Returns (result : Z) | Sleeps (timeout : Z).

(** list_del of the thread's waiter. *)
Definition leave (sem : semaphore) (t : tid) : semaphore :=
  Semaphore (count sem) (filter (fun w => w <> t) (wait_list sem)).

(** The loop of __down_common from its head to schedule_timeout. *)
Definition down_turn (sem : semaphore) (t : tid) (state timeout : Z) (pending fatal : bool) : semaphore * outcome :=
  if signal_pending_state state pending fatal then (leave sem t, Returns (- EINTR))
  else if timeout <=? 0 then (leave sem t, Returns (- ETIME))
  else (sem, Sleeps timeout).

(** __down_common up to the first sleep. *)
Definition __down_common (sem : semaphore) (t : tid) (state timeout : Z) (pending fatal : bool) : semaphore * outcome :=
  down_turn (Semaphore (count sem) (wait_list sem ++ [t])) t state timeout pending fatal.

(** The loop after schedule_timeout has returned [timeout]; [up] is waiter.up. *)
Definition down_resume (sem : semaphore) (t : tid) (up : bool) (state timeout : Z) (pending fatal : bool) : semaphore * outcome :=
  if up then (sem, Returns 0) else down_turn sem t state timeout pending fatal.

(** The routines that may sleep, with the state and the time that they sleep for. *)
Inductive down_call := down | down_interruptible | down_killable | down_timeout (jiffies : Z).

Definition call_state (c : down_call) : Z :=
  match c with
  | down | down_timeout _ => TASK_UNINTERRUPTIBLE
  | down_interruptible => TASK_INTERRUPTIBLE
  | down_killable => TASK_KILLABLE
  end.

Definition call_timeout (c : down_call) : Z :=
  match c with
  | down | down_interruptible | down_killable => MAX_SCHEDULE_TIMEOUT
  | down_timeout jiffies => jiffies
  end.

Definition do_down (c : down_call) (sem : semaphore) (t : tid) (pending fatal : bool) : semaphore * outcome :=
  if 0 <? count sem then (Semaphore (u32 (count sem - 1)) (wait_list sem), Returns 0)
  else __down_common sem t (call_state c) (call_timeout c) pending fatal.

(** The difference becomes an int before it is tested. *)
Definition down_trylock (sem : semaphore) : semaphore * Z :=
  let count' := s32 (u32 (count sem - 1)) in
  ((if 0 <=? count' then Semaphore (u32 count') (wait_list sem) else sem), if count' <? 0 then 1 else 0).

(** The thread that is woken, with its waiter.up set. *)
Definition up (sem : semaphore) : semaphore * option tid :=
  match wait_list sem with
  | [] => (Semaphore (u32 (count sem + 1)) [], None)
  | waiter :: rest => (Semaphore (count sem) rest, Some waiter)
  end.

(** ** Threads *)

(** [Asleep c timeout up]: in schedule_timeout of the call [c]. *)
Inductive tstate := Running | Asleep (c : down_call) (timeout : Z) (up : bool).

(** The calls that have returned 0 and the releases are counted. *)
Record system := Sys { sem : semaphore; thr : gmap tid tstate; acquired : Z; released : Z }.

(** What the comment of schedule_timeout promises of its result. *)
Definition schedule_timeout (timeout remaining : Z) : Prop :=
  0 <= remaining /\ (timeout = MAX_SCHEDULE_TIMEOUT -> remaining = MAX_SCHEDULE_TIMEOUT).

Inductive event := Slept | Returned (result : Z) | Up | Failed.

Definition after (c : down_call) (o : outcome) : tstate * event * Z :=
  match o with
  | Returns r => (Running, Returned r, if r =? 0 then 1 else 0)
  | Sleeps timeout => (Asleep c timeout false, Slept, 0)
  end.

Definition set_up (s : tstate) : tstate := match s with Asleep c timeout _ => Asleep c timeout true | s => s end.

(** A step of thread [t], which runs up from any context. *)
Inductive step (t : tid) : system -> event -> system -> Prop :=
  | step_down S c pending fatal sem' o s e n :
      thr S !! t = Some Running -> do_down c (sem S) t pending fatal = (sem', o) -> after c o = (s, e, n) ->
      step t S e (Sys sem' (<[t := s]> (thr S)) (acquired S + n) (released S))
  | step_resume S c timeout up remaining pending fatal sem' o s e n :
      thr S !! t = Some (Asleep c timeout up) -> schedule_timeout timeout remaining ->
      down_resume (sem S) t up (call_state c) remaining pending fatal = (sem', o) -> after c o = (s, e, n) ->
      step t S e (Sys sem' (<[t := s]> (thr S)) (acquired S + n) (released S))
  | step_trylock S sem' r :
      thr S !! t = Some Running -> down_trylock (sem S) = (sem', r) ->
      step t S (if r =? 0 then Returned 0 else Failed) (Sys sem' (thr S) (acquired S + if r =? 0 then 1 else 0) (released S))
  | step_up S sem' woken :
      up (sem S) = (sem', woken) ->
      step t S Up (Sys sem' (match woken with Some w => alter set_up w (thr S) | None => thr S end) (acquired S) (released S + 1)).

(** Any number of threads, none of them waiting. *)
Definition initial (val : Z) (S : system) : Prop :=
  sem S = sema_init val /\ acquired S = 0 /\ released S = 0 /\ forall t s, thr S !! t = Some s -> s = Running.

Inductive reachable (val : Z) : system -> Prop :=
  | reach_init S : initial val S -> reachable val S
  | reach_step S t e S' : reachable val S -> step t S e S' -> reachable val S'.

(** ** The invariant *)

(** The thread has been given the semaphore in its sleep. *)
Definition granted (s : tstate) : bool := match s with Asleep _ _ up => up | Running => false end.

Record inv (val : Z) (S : system) : Prop := {
  inv_count : 0 <= count (sem S);
  inv_sum : count (sem S) + threads_in granted (thr S) + acquired S = val + released S;
  inv_nodup : NoDup (wait_list (sem S));
  inv_queue : forall t, t ∈ wait_list (sem S) <-> exists c timeout, thr S !! t = Some (Asleep c timeout false);
  inv_free : 0 < count (sem S) -> wait_list (sem S) = [];
  inv_time : forall t c timeout up, thr S !! t = Some (Asleep c timeout up) -> 0 < timeout /\ (call_timeout c = MAX_SCHEDULE_TIMEOUT -> timeout = MAX_SCHEDULE_TIMEOUT);
  inv_ghost : 0 <= acquired S /\ 0 <= released S;
}.

Section Invariant.
Context (val : Z).
Implicit Types (S : system) (t : tid).

Lemma after_returns c r s e n : after c (Returns r) = (s, e, n) -> s = Running /\ e = Returned r /\ n = if r =? 0 then 1 else 0.
Proof. by intros [= <- <- <-]. Qed.

Lemma after_sleeps c timeout s e n : after c (Sleeps timeout) = (s, e, n) -> s = Asleep c timeout false /\ e = Slept /\ n = 0.
Proof. by intros [= <- <- <-]. Qed.

Lemma running_not_queued S t : inv val S -> thr S !! t = Some Running -> t ∉ wait_list (sem S).
Proof. intros Hi Ht Hin. apply (inv_queue val S Hi) in Hin as (c & timeout & E). congruence. Qed.

(** A thread that is not in the queue, or has left it, runs on. *)
Lemma inv_run S t s n q k :
  inv val S -> thr S !! t = Some s -> n - Z.b2z (granted s) + k = 0 -> 0 <= n -> 0 <= count (sem S) + k ->
  (forall w, w ∈ q <-> w ∈ wait_list (sem S) /\ w <> t) -> NoDup q -> (0 < count (sem S) + k -> q = []) ->
  inv val (Sys (Semaphore (count (sem S) + k) q) (<[t := Running]> (thr S)) (acquired S + n) (released S)).
Proof.
  intros Hi Ht Hn Hn0 Hc Hq Hnd Hfree. destruct Hi as [Hi1 Hi2 Hi3 Hi4 Hi5 Hi6 Hi7]. constructor; cbn [sem thr acquired released count wait_list]; [done| |done| |done| |lia].
  - rewrite (threads_in_update _ _ _ s) by done. simpl. lia.
  - intros w. rewrite Hq, Hi4. destruct (decide (t = w)) as [->|Hne].
    + rewrite lookup_insert_eq. split; [by intros [_ ?]|intros (c & timeout & [= ])].
    + rewrite lookup_insert_ne by done. split; [by intros [? _]|]. intros H. split; [done|congruence].
  - intros w c timeout up. destruct (decide (t = w)) as [->|Hne]; [by rewrite lookup_insert_eq|]. rewrite lookup_insert_ne by done. apply Hi6.
Qed.

(** A thread is asleep in the queue. *)
Lemma inv_sleep S t s c timeout q :
  inv val S -> thr S !! t = Some s -> granted s = false -> 0 < timeout -> (call_timeout c = MAX_SCHEDULE_TIMEOUT -> timeout = MAX_SCHEDULE_TIMEOUT) ->
  (forall w, w ∈ q <-> w ∈ wait_list (sem S) \/ w = t) -> NoDup q -> count (sem S) = 0 ->
  inv val (Sys (Semaphore (count (sem S)) q) (<[t := Asleep c timeout false]> (thr S)) (acquired S + 0) (released S)).
Proof.
  intros Hi Ht Hg Hto Hmax Hq Hnd Hc. destruct Hi as [Hi1 Hi2 Hi3 Hi4 Hi5 Hi6 Hi7]. constructor; cbn [sem thr acquired released count wait_list]; [done| |done| |lia| |lia].
  - rewrite (threads_in_update _ _ _ s) by done. rewrite Hg. simpl. lia.
  - intros w. rewrite Hq, Hi4. destruct (decide (t = w)) as [->|Hne].
    + rewrite lookup_insert_eq. split; [by exists c, timeout|by right].
    + rewrite lookup_insert_ne by done. split; [intros [?|?]; [done|congruence]|by left].
  - intros w c' timeout' up. destruct (decide (t = w)) as [->|Hne]; [rewrite lookup_insert_eq; by intros [= <- <- <-]|]. rewrite lookup_insert_ne by done. apply Hi6.
Qed.

Lemma elem_of_leave sm t w : w ∈ wait_list (leave sm t) <-> w ∈ wait_list sm /\ w <> t.
Proof. unfold leave. cbn [wait_list]. rewrite list_elem_of_filter. tauto. Qed.

Lemma NoDup_leave sm t : NoDup (wait_list sm) -> NoDup (wait_list (leave sm t)).
Proof. apply NoDup_filter. Qed.

(** A turn of the loop, with the thread at the end of its queue or somewhere in it. *)
Lemma inv_turn S t s sm c timeout pending fatal sem' o s' e n :
  inv val S -> thr S !! t = Some s -> granted s = false -> count (sem S) = 0 -> count sm = 0 ->
  (call_timeout c = MAX_SCHEDULE_TIMEOUT -> timeout = MAX_SCHEDULE_TIMEOUT) ->
  (forall w, w ∈ wait_list sm <-> w ∈ wait_list (sem S) \/ w = t) -> NoDup (wait_list sm) ->
  down_turn sm t (call_state c) timeout pending fatal = (sem', o) -> after c o = (s', e, n) ->
  inv val (Sys sem' (<[t := s']> (thr S)) (acquired S + n) (released S)).
Proof.
  intros Hi Ht Hg Hc Hc' Hmax Hq Hnd Hturn Ha.
  assert (forall r, r <> 0 -> sem' = leave sm t -> o = Returns r -> inv val (Sys sem' (<[t := s']> (thr S)) (acquired S + n) (released S))) as Hleave.
  { intros r Hr -> ->. apply after_returns in Ha as (-> & _ & ->). rewrite (proj2 (Z.eqb_neq r 0)) by done. unfold leave. rewrite Hc'.
    replace 0 with (count (sem S) + 0) at 1 by lia. eapply inv_run; [done|exact Ht|rewrite Hg; done|done|lia| |by apply NoDup_leave|lia].
    intros w. rewrite (elem_of_leave sm t w), Hq. tauto. }
  unfold down_turn in Hturn. destruct (signal_pending_state _ _ _); [simplify_eq; by apply (Hleave (- EINTR))|]. destruct (Z.leb_spec timeout 0); [simplify_eq; by apply (Hleave (- ETIME))|].
  simplify_eq. apply after_sleeps in Ha as (-> & _ & ->). destruct sem' as [k q]. cbn [count wait_list] in *. subst k. rewrite <- Hc at 1. eapply inv_sleep; done.
Qed.

Lemma asleep_queued S t c timeout : inv val S -> thr S !! t = Some (Asleep c timeout false) -> t ∈ wait_list (sem S) /\ count (sem S) = 0.
Proof.
  intros Hi Ht. assert (t ∈ wait_list (sem S)) as Hin by (apply (inv_queue val S Hi); by exists c, timeout). split; [done|].
  pose proof (inv_count val S Hi). destruct (Z.eq_dec (count (sem S)) 0); [done|]. rewrite (inv_free val S Hi) in Hin by lia. by apply not_elem_of_nil in Hin.
Qed.

(** The number of permits fits into an int. *)
Lemma count_bound S : inv val S -> count (sem S) <= val + released S.
Proof. intros [? ? _ _ _ _ ?]. pose proof (threads_in_nonneg granted (thr S)). lia. Qed.

Lemma trylock_ok sm : 0 <= count sm <= 2 ^ 31 ->
  down_trylock sm = if 0 <? count sm then (Semaphore (count sm - 1) (wait_list sm), 0) else (sm, 1).
Proof.
  intros Hc. unfold down_trylock. cbv zeta. rewrite swrap_wrap by lia. rewrite swrap_id by lia. destruct (Z.ltb_spec 0 (count sm)).
  - rewrite (proj2 (Z.leb_le 0 _)), (proj2 (Z.ltb_ge _ 0)) by lia. by rewrite wrap_id by (split; lia).
  - rewrite (proj2 (Z.leb_gt 0 _)), (proj2 (Z.ltb_lt _ 0)) by lia. done.
Qed.

Lemma inv_down S t c pending fatal sem' o s e n :
  inv val S -> count (sem S) <= 2 ^ 31 -> thr S !! t = Some Running -> do_down c (sem S) t pending fatal = (sem', o) -> after c o = (s, e, n) ->
  inv val (Sys sem' (<[t := s]> (thr S)) (acquired S + n) (released S)).
Proof.
  intros Hi Hc Ht Hd Ha. pose proof (running_not_queued _ _ Hi Ht) as Hq. pose proof (inv_count val S Hi) as Hc0. unfold do_down in Hd. destruct (Z.ltb_spec 0 (count (sem S))).
  - simplify_eq. apply after_returns in Ha as (-> & _ & ->). cbn [Z.eqb]. rewrite wrap_id by (split; lia). replace (count (sem S) - 1) with (count (sem S) + -1) by lia.
    rewrite (inv_free val S Hi) in * by done. eapply inv_run; [done|exact Ht|done|done|lia| |constructor|done]. intros w. rewrite (inv_free val S Hi) by done. split; [by intros ?%not_elem_of_nil|by intros [?%not_elem_of_nil _]].
  - eapply (inv_turn S t Running); [done|done|done|lia| | | | |exact Hd|exact Ha]; cbn [count wait_list]; [lia|done| |].
    + intros w. rewrite elem_of_app, list_elem_of_singleton. done.
    + apply NoDup_app. split; [apply (inv_nodup val S Hi)|]. split; [|apply NoDup_singleton]. by intros w Hw ->%list_elem_of_singleton.
Qed.

Lemma inv_resume S t c timeout up remaining pending fatal sem' o s e n :
  inv val S -> thr S !! t = Some (Asleep c timeout up) -> schedule_timeout timeout remaining ->
  down_resume (sem S) t up (call_state c) remaining pending fatal = (sem', o) -> after c o = (s, e, n) ->
  inv val (Sys sem' (<[t := s]> (thr S)) (acquired S + n) (released S)).
Proof.
  intros Hi Ht [Hr0 Hr1] Hd Ha. unfold down_resume in Hd. destruct up.
  - simplify_eq. apply after_returns in Ha as (-> & _ & ->). cbn [Z.eqb]. destruct (sem S) as [k q] eqn:E. replace k with (count (sem S) + 0) by (rewrite E; simpl; lia).
    assert (t ∉ q) as Hq. { intros Hin. assert (t ∈ wait_list (sem S)) as (? & ? & ?)%(inv_queue val S Hi) by (by rewrite E). congruence. }
    pose proof (inv_nodup val S Hi) as Hnd. pose proof (inv_count val S Hi). pose proof (inv_free val S Hi) as Hfree. rewrite E in Hnd, Hfree. cbn [wait_list count] in *.
    eapply inv_run; [done|exact Ht|done|done|lia| |done|rewrite E; cbn [count]; rewrite Z.add_0_r; exact Hfree]. intros w. rewrite E. cbn [wait_list]. split; [|tauto]. intros Hw. split; [done|congruence].
  - destruct (asleep_queued _ _ _ _ Hi Ht) as [Hin Hc]. eapply (inv_turn S t (Asleep c timeout false) (sem S)); [done|done|done|done|done| | | |exact Hd|exact Ha].
    + intros Hmax. apply Hr1. by destruct (inv_time val S Hi _ _ _ _ Ht) as [_ ?]; auto.
    + intros w. split; [by left|intros [?| ->]; done].
    + apply (inv_nodup val S Hi).
Qed.

Lemma inv_up S sem' woken :
  inv val S -> val + released S + 1 <= 2 ^ 31 -> up (sem S) = (sem', woken) ->
  inv val (Sys sem' (match woken with Some w => alter set_up w (thr S) | None => thr S end) (acquired S) (released S + 1)).
Proof.
  intros Hi Hb Hu. pose proof (count_bound S Hi) as Hc. unfold up in Hu. destruct Hi as [Hi1 Hi2 Hi3 Hi4 Hi5 Hi6 Hi7]. destruct (wait_list (sem S)) as [|w q] eqn:E; simplify_eq.
  - rewrite wrap_id by (split; lia). constructor; cbn [sem thr acquired released count wait_list]; [lia|lia|done|exact Hi4|done|done|lia].
  - destruct (proj1 (Hi4 w) ltac:(left)) as (c & timeout & Hw). apply NoDup_cons in Hi3 as [Hwq Hq].
    assert (alter set_up w (thr S) = <[w := Asleep c timeout true]> (thr S)) as ->.
    { apply map_eq. intros t. destruct (decide (w = t)) as [->|Hne]; [by rewrite lookup_alter_eq, lookup_insert_eq, Hw|by rewrite lookup_alter_ne, lookup_insert_ne]. }
    constructor; cbn [sem thr acquired released count wait_list]; [done| |done| |intros H; by specialize (Hi5 H)| |lia].
    + rewrite (threads_in_update _ _ _ (Asleep c timeout false)) by done. simpl. lia.
    + intros t. destruct (decide (w = t)) as [->|Hne].
      * rewrite lookup_insert_eq. split; [done|intros (? & ? & [= ])].
      * rewrite lookup_insert_ne by done. rewrite <- Hi4, elem_of_cons. split; [by right|intros [->|?]; done].
    + intros t c' timeout' up'. destruct (decide (w = t)) as [->|Hne]; [|rewrite lookup_insert_ne by done; apply Hi6]. rewrite lookup_insert_eq. intros [= <- <- <-]. by eapply Hi6.
Qed.

Lemma inv_step S t e S' : inv val S -> val + released S' <= 2 ^ 31 -> step t S e S' -> inv val S'.
Proof.
  intros Hi Hb Hs. pose proof (count_bound S Hi) as Hc. destruct Hs as [S c pending fatal sem' o s e n Ht Hd Ha|S c timeout up remaining pending fatal sem' o s e n Ht Hr Hd Ha|S sem' r Ht Hd|S sem' woken Hu];
    cbn [released] in Hb.
  - eapply inv_down; [done|lia|done|exact Hd|exact Ha].
  - eapply inv_resume; [done|exact Ht|exact Hr|exact Hd|exact Ha].
  - pose proof (inv_count val S Hi). rewrite trylock_ok in Hd by lia. destruct (Z.ltb_spec 0 (count (sem S))); simplify_eq; cbn [Z.eqb].
    + rewrite <- (insert_id (thr S) t Running) by done. replace (count (sem S) - 1) with (count (sem S) + -1) by lia. rewrite (inv_free val S Hi) by done.
      eapply inv_run; [done|exact Ht|done|done|lia| |constructor|done]. intros w. rewrite (inv_free val S Hi) by done. split; [by intros ?%not_elem_of_nil|by intros [?%not_elem_of_nil _]].
    + rewrite Z.add_0_r. by destruct Hi, S.
  - apply inv_up; [done|lia|done].
Qed.

Lemma released_mono S t e S' : step t S e S' -> released S <= released S'.
Proof. destruct 1; simpl; lia. Qed.

Lemma sem_reachable_inv S : 0 <= val -> reachable val S -> val + released S <= 2 ^ 31 -> inv val S.
Proof.
  intros Hv. induction 1 as [S (Es & Ea & Er & Hrun)|S t e S' _ IH Hs]; intros Hb.
  - assert (forall t, ~ exists c timeout, thr S !! t = Some (Asleep c timeout false)) as Hno by (intros t (c & timeout & Ht); by apply Hrun in Ht).
    rewrite Er in Hb. constructor; rewrite ?Es, ?Ea, ?Er; cbn [sema_init count wait_list]; rewrite ?wrap_id by (split; lia); [done| |constructor| |done| |done].
    + replace (threads_in granted (thr S)) with 0; [lia|]. symmetry. apply threads_in_zero. intros t s Ht. by rewrite (Hrun t s Ht).
    + intros t. split; [by intros ?%not_elem_of_nil|intros H; by destruct (Hno t)].
    + intros t c timeout up Ht. by apply Hrun in Ht.
  - pose proof (released_mono _ _ _ _ Hs). eapply inv_step; [apply IH; lia|done|exact Hs].
Qed.
End Invariant.

(** ** Results of the down routines *)

(** Why a down routine fails: a signal that its sleep may be interrupted by, or the end of
    the time of down_timeout. *)
Definition fails (c : down_call) (pending fatal : bool) (timeout r : Z) : Prop :=
  r = - EINTR /\ pending = true /\ (c = down_interruptible \/ c = down_killable /\ fatal = true) \/
  r = - ETIME /\ timeout <= 0 /\ exists jiffies, c = down_timeout jiffies.

Lemma turn_fails c sm t timeout pending fatal sm' r :
  (call_timeout c = MAX_SCHEDULE_TIMEOUT -> timeout = MAX_SCHEDULE_TIMEOUT) ->
  down_turn sm t (call_state c) timeout pending fatal = (sm', Returns r) -> fails c pending fatal timeout r /\ sm' = leave sm t.
Proof.
  intros Hmax. unfold down_turn. destruct (signal_pending_state (call_state c) pending fatal) eqn:Es.
  - intros [= <- <-]. split; [|done]. left. split; [done|]. destruct c, pending, fatal; try done; auto.
  - destruct (Z.leb_spec timeout 0) as [Ht|Ht]; [|done]. intros [= <- <-]. split; [|done]. right. split; [done|]. split; [done|]. destruct c as [| | |jiffies]; [| | |by exists jiffies].
    all: specialize (Hmax eq_refl); unfold MAX_SCHEDULE_TIMEOUT in Hmax; lia.
Qed.

(** C15: the permits of a semaphore are conserved.  In every reachable state the count, the
    threads that were given the semaphore in their sleep and the calls that returned 0 add
    up to the initial value and the releases, so never more than the initial value are out;
    the queue has exactly the threads that sleep without having been given it, each once;
    and while one of them sleeps the count is 0, that is all permits are out. *)
Theorem sem_permits val S :
  0 <= val -> reachable val S -> val + released S <= 2 ^ 31 ->
  0 <= count (sem S) /\ count (sem S) + threads_in granted (thr S) + acquired S = val + released S /\ acquired S - released S <= val /\
  NoDup (wait_list (sem S)) /\
  (forall t, t ∈ wait_list (sem S) <-> exists c timeout, thr S !! t = Some (Asleep c timeout false)) /\
  (forall t, t ∈ wait_list (sem S) -> count (sem S) = 0).
Proof.
  intros Hv Hr Hb. pose proof (sem_reachable_inv val S Hv Hr Hb) as Hi. pose proof (threads_in_nonneg granted (thr S)). destruct Hi as [Hi1 Hi2 Hi3 Hi4 Hi5 Hi6 Hi7].
  do 2 (split; [done|]). split; [lia|]. do 2 (split; [done|]). intros t Hin. destruct (Z.eq_dec (count (sem S)) 0); [done|]. rewrite Hi5 in Hin by lia. by apply not_elem_of_nil in Hin.
Qed.

(** Two threads and a semaphore of value 1: the first has it, the second sleeps and is
    given it. *)
Definition two_threads : system := Sys (sema_init 1) (<[1%positive := Running]> {[2%positive := Running]}) 0 0.

Lemma two_threads_run : exists S, reachable 1 S /\ released S = 1 /\ wait_list (sem S) = [] /\ thr S !! 2%positive = Some (Asleep down MAX_SCHEDULE_TIMEOUT true).
Proof.
  eexists. split.
  - eapply reach_step; [eapply reach_step; [eapply reach_step; [apply (reach_init 1 two_threads)|]|]|].
    + split; [done|]. split; [done|]. split; [done|]. intros t s. unfold two_threads. cbn [thr]. rewrite lookup_insert_Some, lookup_singleton_Some. naive_solver.
    + apply (step_down 1%positive two_threads down false false (Semaphore 0 []) (Returns 0) Running (Returned 0) 1); reflexivity.
    + eapply (step_down 2%positive _ down false false (Semaphore 0 [2%positive]) (Sleeps MAX_SCHEDULE_TIMEOUT) (Asleep down MAX_SCHEDULE_TIMEOUT false) Slept 0); reflexivity.
    + eapply (step_up 1%positive _ (Semaphore 0 []) (Some 2%positive)). reflexivity.
  - split; [reflexivity|]. split; reflexivity.
Qed.

Lemma sem_permits_witness : exists S, reachable 1 S /\ acquired S - released S <= 1.
Proof.
  destruct two_threads_run as (S & Hr & Er & _). exists S. split; [exact Hr|]. apply (sem_permits 1 S); [lia|exact Hr|rewrite Er; lia].
Defined.

(** C16: a down routine fails only for its reason.  In every reachable state a call returns
    0, or -EINTR when a signal is pending and the call is down_interruptible, or
    down_killable with a fatal signal, or -ETIME when the time of down_timeout is over;
    down itself never fails.  A call that fails has left the queue.  A thread that was given
    the semaphore in its sleep gets 0, whatever signals it has and whether or not its time
    is over, so that no release is lost. *)
Theorem sem_down_results val S t c pending fatal sem' r :
  0 <= val -> reachable val S -> val + released S <= 2 ^ 31 ->
  (thr S !! t = Some Running -> do_down c (sem S) t pending fatal = (sem', Returns r) ->
     0 < count (sem S) /\ r = 0 \/ fails c pending fatal (call_timeout c) r /\ c <> down /\ sem' = sem S) /\
  (forall timeout up remaining, thr S !! t = Some (Asleep c timeout up) -> schedule_timeout timeout remaining ->
     down_resume (sem S) t up (call_state c) remaining pending fatal = (sem', Returns r) ->
     up = true /\ r = 0 /\ sem' = sem S \/ up = false /\ fails c pending fatal remaining r /\ c <> down /\ sem' = leave (sem S) t).
Proof.
  intros Hv Hr Hb. pose proof (sem_reachable_inv val S Hv Hr Hb) as Hi. assert (forall p f to r, fails down p f to r -> False) as Hdown.
  { intros p f to r' [(_ & _ & [?|[? _]])|(_ & _ & j & ?)]; done. }
  split.
  - intros Ht Hd. unfold do_down in Hd. destruct (Z.ltb_spec 0 (count (sem S))); simplify_eq; [by left|right]. apply turn_fails in Hd as [Hf ->]; [|done]. split; [done|]. split; [intros ->; by eapply Hdown|].
    pose proof (running_not_queued val S t Hi Ht) as Hq. unfold leave. cbn [count wait_list]. destruct (sem S) as [k q]. cbn [count wait_list] in *. f_equal. rewrite filter_app, filter_cons_False by (intros H'; by apply H').
    rewrite app_nil_r. clear -Hq. induction q as [|x q IH]; [done|]. rewrite filter_cons_True by (intros ->; apply Hq; left). f_equal. apply IH. intros H. apply Hq. by right.
  - intros timeout up remaining Ht [_ Hmax] Hd. unfold down_resume in Hd. destruct up; simplify_eq; [by left|right]. split; [done|]. apply turn_fails in Hd as [Hf ->].
    + split; [done|]. split; [intros ->; by eapply Hdown|done].
    + intros E. apply Hmax. by destruct (inv_time val S Hi _ _ _ _ Ht) as [_ ?]; auto.
Qed.

Lemma sem_down_results_witness : exists S, reachable 1 S /\ forall r sem', down_resume (sem S) 2%positive true (call_state down) MAX_SCHEDULE_TIMEOUT true true = (sem', Returns r) -> r = 0.
Proof.
  destruct two_threads_run as (S & Hr & Er & Eq & Ht). exists S. split; [exact Hr|]. intros r sem' Hd.
  destruct (sem_down_results 1 S 2%positive down true true sem' r ltac:(lia) Hr ltac:(rewrite Er; lia)) as [_ H].
  destruct (H MAX_SCHEDULE_TIMEOUT true MAX_SCHEDULE_TIMEOUT Ht ltac:(split; [discriminate|reflexivity]) Hd) as [(_ & E & _)|(E & _)]; [exact E|discriminate].
Defined.

(** A release hands the semaphore to the thread that waits longest, and keeps the order of
    the others. *)
Lemma sem_up_first val S t w q :
  0 <= val -> reachable val S -> val + released S <= 2 ^ 31 -> wait_list (sem S) = w :: q ->
  exists S' c timeout, step t S Up S' /\ sem S' = Semaphore (count (sem S)) q /\ thr S' !! w = Some (Asleep c timeout true) /\
    forall x, x <> w -> thr S' !! x = thr S !! x.
Proof.
  intros Hv Hr Hb E. pose proof (sem_reachable_inv val S Hv Hr Hb) as Hi. destruct (proj1 (inv_queue val S Hi w)) as (c & timeout & Hw); [rewrite E; left|].
  eexists _, c, timeout. split; [apply (step_up t S (Semaphore (count (sem S)) q) (Some w)); unfold up; by rewrite E|]. split; [done|]. cbn [thr]. split; [by rewrite lookup_alter_eq, Hw|].
  intros x Hx. by apply lookup_alter_ne.
Qed.
