(* ===== verification/Crc.v ===== *)
(** * Cyclic redundancy checks and bit reversal

    lib/crc16.c, lib/crc-ccitt.c, lib/crc-itu-t.c, lib/crc7.c, lib/crc-t10dif.c
    and lib/crc32.c with their tables, the generator lib/gen_crc32table.c of the
    tables of crc32.c, and lib/bitrev.c.  The reference definitions divide by the
    polynomial one bit at a time; the theorems show that the table driven code
    computes the same, for every buffer.  The memory holds one byte per cell. *)

From S2P Require Import Prelude.

(** [table[i]] *)
Definition aref (table : list Z) (i : Z) : Z := nth (Z.to_nat i) table 0.

(** ** Tables *)

Definition crc16_table : list Z := [
  0x0000; 0xc0c1; 0xc181; 0x0140; 0xc301; 0x03c0; 0x0280; 0xc241;
  0xc601; 0x06c0; 0x0780; 0xc741; 0x0500; 0xc5c1; 0xc481; 0x0440;
  0xcc01; 0x0cc0; 0x0d80; 0xcd41; 0x0f00; 0xcfc1; 0xce81; 0x0e40;
  0x0a00; 0xcac1; 0xcb81; 0x0b40; 0xc901; 0x09c0; 0x0880; 0xc841;
  0xd801; 0x18c0; 0x1980; 0xd941; 0x1b00; 0xdbc1; 0xda81; 0x1a40;
  0x1e00; 0xdec1; 0xdf81; 0x1f40; 0xdd01; 0x1dc0; 0x1c80; 0xdc41;
  0x1400; 0xd4c1; 0xd581; 0x1540; 0xd701; 0x17c0; 0x1680; 0xd641;
  0xd201; 0x12c0; 0x1380; 0xd341; 0x1100; 0xd1c1; 0xd081; 0x1040;
  0xf001; 0x30c0; 0x3180; 0xf141; 0x3300; 0xf3c1; 0xf281; 0x3240;
  0x3600; 0xf6c1; 0xf781; 0x3740; 0xf501; 0x35c0; 0x3480; 0xf441;
  0x3c00; 0xfcc1; 0xfd81; 0x3d40; 0xff01; 0x3fc0; 0x3e80; 0xfe41;
  0xfa01; 0x3ac0; 0x3b80; 0xfb41; 0x3900; 0xf9c1; 0xf881; 0x3840;
  0x2800; 0xe8c1; 0xe981; 0x2940; 0xeb01; 0x2bc0; 0x2a80; 0xea41;
  0xee01; 0x2ec0; 0x2f80; 0xef41; 0x2d00; 0xedc1; 0xec81; 0x2c40;
  0xe401; 0x24c0; 0x2580; 0xe541; 0x2700; 0xe7c1; 0xe681; 0x2640;
  0x2200; 0xe2c1; 0xe381; 0x2340; 0xe101; 0x21c0; 0x2080; 0xe041;
  0xa001; 0x60c0; 0x6180; 0xa141; 0x6300; 0xa3c1; 0xa281; 0x6240;
  0x6600; 0xa6c1; 0xa781; 0x6740; 0xa501; 0x65c0; 0x6480; 0xa441;
  0x6c00; 0xacc1; 0xad81; 0x6d40; 0xaf01; 0x6fc0; 0x6e80; 0xae41;
  0xaa01; 0x6ac0; 0x6b80; 0xab41; 0x6900; 0xa9c1; 0xa881; 0x6840;
  0x7800; 0xb8c1; 0xb981; 0x7940; 0xbb01; 0x7bc0; 0x7a80; 0xba41;
  0xbe01; 0x7ec0; 0x7f80; 0xbf41; 0x7d00; 0xbdc1; 0xbc81; 0x7c40;
  0xb401; 0x74c0; 0x7580; 0xb541; 0x7700; 0xb7c1; 0xb681; 0x7640;
  0x7200; 0xb2c1; 0xb381; 0x7340; 0xb101; 0x71c0; 0x7080; 0xb041;
  0x5000; 0x90c1; 0x9181; 0x5140; 0x9301; 0x53c0; 0x5280; 0x9241;
  0x9601; 0x56c0; 0x5780; 0x9741; 0x5500; 0x95c1; 0x9481; 0x5440;
  0x9c01; 0x5cc0; 0x5d80; 0x9d41; 0x5f00; 0x9fc1; 0x9e81; 0x5e40;
  0x5a00; 0x9ac1; 0x9b81; 0x5b40; 0x9901; 0x59c0; 0x5880; 0x9841;
  0x8801; 0x48c0; 0x4980; 0x8941; 0x4b00; 0x8bc1; 0x8a81; 0x4a40;
  0x4e00; 0x8ec1; 0x8f81; 0x4f40; 0x8d01; 0x4dc0; 0x4c80; 0x8c41;
  0x4400; 0x84c1; 0x8581; 0x4540; 0x8701; 0x47c0; 0x4680; 0x8641;
  0x8201; 0x42c0; 0x4380; 0x8341; 0x4100; 0x81c1; 0x8081; 0x4040].

Definition crc_ccitt_table : list Z := [
  0x0000; 0x1189; 0x2312; 0x329b; 0x4624; 0x57ad; 0x6536; 0x74bf;
  0x8c48; 0x9dc1; 0xaf5a; 0xbed3; 0xca6c; 0xdbe5; 0xe97e; 0xf8f7;
  0x1081; 0x0108; 0x3393; 0x221a; 0x56a5; 0x472c; 0x75b7; 0x643e;
  0x9cc9; 0x8d40; 0xbfdb; 0xae52; 0xdaed; 0xcb64; 0xf9ff; 0xe876;
  0x2102; 0x308b; 0x0210; 0x1399; 0x6726; 0x76af; 0x4434; 0x55bd;
  0xad4a; 0xbcc3; 0x8e58; 0x9fd1; 0xeb6e; 0xfae7; 0xc87c; 0xd9f5;
  0x3183; 0x200a; 0x1291; 0x0318; 0x77a7; 0x662e; 0x54b5; 0x453c;
  0xbdcb; 0xac42; 0x9ed9; 0x8f50; 0xfbef; 0xea66; 0xd8fd; 0xc974;
  0x4204; 0x538d; 0x6116; 0x709f; 0x0420; 0x15a9; 0x2732; 0x36bb;
  0xce4c; 0xdfc5; 0xed5e; 0xfcd7; 0x8868; 0x99e1; 0xab7a; 0xbaf3;
  0x5285; 0x430c; 0x7197; 0x601e; 0x14a1; 0x0528; 0x37b3; 0x263a;
  0xdecd; 0xcf44; 0xfddf; 0xec56; 0x98e9; 0x8960; 0xbbfb; 0xaa72;
  0x6306; 0x728f; 0x4014; 0x519d; 0x2522; 0x34ab; 0x0630; 0x17b9;
  0xef4e; 0xfec7; 0xcc5c; 0xddd5; 0xa96a; 0xb8e3; 0x8a78; 0x9bf1;
  0x7387; 0x620e; 0x5095; 0x411c; 0x35a3; 0x242a; 0x16b1; 0x0738;
  0xffcf; 0xee46; 0xdcdd; 0xcd54; 0xb9eb; 0xa862; 0x9af9; 0x8b70;
  0x8408; 0x9581; 0xa71a; 0xb693; 0xc22c; 0xd3a5; 0xe13e; 0xf0b7;
  0x0840; 0x19c9; 0x2b52; 0x3adb; 0x4e64; 0x5fed; 0x6d76; 0x7cff;
  0x9489; 0x8500; 0xb79b; 0xa612; 0xd2ad; 0xc324; 0xf1bf; 0xe036;
  0x18c1; 0x0948; 0x3bd3; 0x2a5a; 0x5ee5; 0x4f6c; 0x7df7; 0x6c7e;
  0xa50a; 0xb483; 0x8618; 0x9791; 0xe32e; 0xf2a7; 0xc03c; 0xd1b5;
  0x2942; 0x38cb; 0x0a50; 0x1bd9; 0x6f66; 0x7eef; 0x4c74; 0x5dfd;
  0xb58b; 0xa402; 0x9699; 0x8710; 0xf3af; 0xe226; 0xd0bd; 0xc134;
  0x39c3; 0x284a; 0x1ad1; 0x0b58; 0x7fe7; 0x6e6e; 0x5cf5; 0x4d7c;
  0xc60c; 0xd785; 0xe51e; 0xf497; 0x8028; 0x91a1; 0xa33a; 0xb2b3;
  0x4a44; 0x5bcd; 0x6956; 0x78df; 0x0c60; 0x1de9; 0x2f72; 0x3efb;
  0xd68d; 0xc704; 0xf59f; 0xe416; 0x90a9; 0x8120; 0xb3bb; 0xa232;
  0x5ac5; 0x4b4c; 0x79d7; 0x685e; 0x1ce1; 0x0d68; 0x3ff3; 0x2e7a;
  0xe70e; 0xf687; 0xc41c; 0xd595; 0xa12a; 0xb0a3; 0x8238; 0x93b1;
  0x6b46; 0x7acf; 0x4854; 0x59dd; 0x2d62; 0x3ceb; 0x0e70; 0x1ff9;
  0xf78f; 0xe606; 0xd49d; 0xc514; 0xb1ab; 0xa022; 0x92b9; 0x8330;
  0x7bc7; 0x6a4e; 0x58d5; 0x495c; 0x3de3; 0x2c6a; 0x1ef1; 0x0f78].

Definition crc_itu_t_table : list Z := [
  0x0000; 0x1021; 0x2042; 0x3063; 0x4084; 0x50a5; 0x60c6; 0x70e7;
  0x8108; 0x9129; 0xa14a; 0xb16b; 0xc18c; 0xd1ad; 0xe1ce; 0xf1ef;
  0x1231; 0x0210; 0x3273; 0x2252; 0x52b5; 0x4294; 0x72f7; 0x62d6;
  0x9339; 0x8318; 0xb37b; 0xa35a; 0xd3bd; 0xc39c; 0xf3ff; 0xe3de;
  0x2462; 0x3443; 0x0420; 0x1401; 0x64e6; 0x74c7; 0x44a4; 0x5485;
  0xa56a; 0xb54b; 0x8528; 0x9509; 0xe5ee; 0xf5cf; 0xc5ac; 0xd58d;
  0x3653; 0x2672; 0x1611; 0x0630; 0x76d7; 0x66f6; 0x5695; 0x46b4;
  0xb75b; 0xa77a; 0x9719; 0x8738; 0xf7df; 0xe7fe; 0xd79d; 0xc7bc;
  0x48c4; 0x58e5; 0x6886; 0x78a7; 0x0840; 0x1861; 0x2802; 0x3823;
  0xc9cc; 0xd9ed; 0xe98e; 0xf9af; 0x8948; 0x9969; 0xa90a; 0xb92b;
  0x5af5; 0x4ad4; 0x7ab7; 0x6a96; 0x1a71; 0x0a50; 0x3a33; 0x2a12;
  0xdbfd; 0xcbdc; 0xfbbf; 0xeb9e; 0x9b79; 0x8b58; 0xbb3b; 0xab1a;
  0x6ca6; 0x7c87; 0x4ce4; 0x5cc5; 0x2c22; 0x3c03; 0x0c60; 0x1c41;
  0xedae; 0xfd8f; 0xcdec; 0xddcd; 0xad2a; 0xbd0b; 0x8d68; 0x9d49;
  0x7e97; 0x6eb6; 0x5ed5; 0x4ef4; 0x3e13; 0x2e32; 0x1e51; 0x0e70;
  0xff9f; 0xefbe; 0xdfdd; 0xcffc; 0xbf1b; 0xaf3a; 0x9f59; 0x8f78;
  0x9188; 0x81a9; 0xb1ca; 0xa1eb; 0xd10c; 0xc12d; 0xf14e; 0xe16f;
  0x1080; 0x00a1; 0x30c2; 0x20e3; 0x5004; 0x4025; 0x7046; 0x6067;
  0x83b9; 0x9398; 0xa3fb; 0xb3da; 0xc33d; 0xd31c; 0xe37f; 0xf35e;
  0x02b1; 0x1290; 0x22f3; 0x32d2; 0x4235; 0x5214; 0x6277; 0x7256;
  0xb5ea; 0xa5cb; 0x95a8; 0x8589; 0xf56e; 0xe54f; 0xd52c; 0xc50d;
  0x34e2; 0x24c3; 0x14a0; 0x0481; 0x7466; 0x6447; 0x5424; 0x4405;
  0xa7db; 0xb7fa; 0x8799; 0x97b8; 0xe75f; 0xf77e; 0xc71d; 0xd73c;
  0x26d3; 0x36f2; 0x0691; 0x16b0; 0x6657; 0x7676; 0x4615; 0x5634;
  0xd94c; 0xc96d; 0xf90e; 0xe92f; 0x99c8; 0x89e9; 0xb98a; 0xa9ab;
  0x5844; 0x4865; 0x7806; 0x6827; 0x18c0; 0x08e1; 0x3882; 0x28a3;
  0xcb7d; 0xdb5c; 0xeb3f; 0xfb1e; 0x8bf9; 0x9bd8; 0xabbb; 0xbb9a;
  0x4a75; 0x5a54; 0x6a37; 0x7a16; 0x0af1; 0x1ad0; 0x2ab3; 0x3a92;
  0xfd2e; 0xed0f; 0xdd6c; 0xcd4d; 0xbdaa; 0xad8b; 0x9de8; 0x8dc9;
  0x7c26; 0x6c07; 0x5c64; 0x4c45; 0x3ca2; 0x2c83; 0x1ce0; 0x0cc1;
  0xef1f; 0xff3e; 0xcf5d; 0xdf7c; 0xaf9b; 0xbfba; 0x8fd9; 0x9ff8;
  0x6e17; 0x7e36; 0x4e55; 0x5e74; 0x2e93; 0x3eb2; 0x0ed1; 0x1ef0].

Definition crc7_syndrome_table : list Z := [
  0x00; 0x09; 0x12; 0x1b; 0x24; 0x2d; 0x36; 0x3f;
  0x48; 0x41; 0x5a; 0x53; 0x6c; 0x65; 0x7e; 0x77;
  0x19; 0x10; 0x0b; 0x02; 0x3d; 0x34; 0x2f; 0x26;
  0x51; 0x58; 0x43; 0x4a; 0x75; 0x7c; 0x67; 0x6e;
  0x32; 0x3b; 0x20; 0x29; 0x16; 0x1f; 0x04; 0x0d;
  0x7a; 0x73; 0x68; 0x61; 0x5e; 0x57; 0x4c; 0x45;
  0x2b; 0x22; 0x39; 0x30; 0x0f; 0x06; 0x1d; 0x14;
  0x63; 0x6a; 0x71; 0x78; 0x47; 0x4e; 0x55; 0x5c;
  0x64; 0x6d; 0x76; 0x7f; 0x40; 0x49; 0x52; 0x5b;
  0x2c; 0x25; 0x3e; 0x37; 0x08; 0x01; 0x1a; 0x13;
  0x7d; 0x74; 0x6f; 0x66; 0x59; 0x50; 0x4b; 0x42;
  0x35; 0x3c; 0x27; 0x2e; 0x11; 0x18; 0x03; 0x0a;
  0x56; 0x5f; 0x44; 0x4d; 0x72; 0x7b; 0x60; 0x69;
  0x1e; 0x17; 0x0c; 0x05; 0x3a; 0x33; 0x28; 0x21;
  0x4f; 0x46; 0x5d; 0x54; 0x6b; 0x62; 0x79; 0x70;
  0x07; 0x0e; 0x15; 0x1c; 0x23; 0x2a; 0x31; 0x38;
  0x41; 0x48; 0x53; 0x5a; 0x65; 0x6c; 0x77; 0x7e;
  0x09; 0x00; 0x1b; 0x12; 0x2d; 0x24; 0x3f; 0x36;
  0x58; 0x51; 0x4a; 0x43; 0x7c; 0x75; 0x6e; 0x67;
  0x10; 0x19; 0x02; 0x0b; 0x34; 0x3d; 0x26; 0x2f;
  0x73; 0x7a; 0x61; 0x68; 0x57; 0x5e; 0x45; 0x4c;
  0x3b; 0x32; 0x29; 0x20; 0x1f; 0x16; 0x0d; 0x04;
  0x6a; 0x63; 0x78; 0x71; 0x4e; 0x47; 0x5c; 0x55;
  0x22; 0x2b; 0x30; 0x39; 0x06; 0x0f; 0x14; 0x1d;
  0x25; 0x2c; 0x37; 0x3e; 0x01; 0x08; 0x13; 0x1a;
  0x6d; 0x64; 0x7f; 0x76; 0x49; 0x40; 0x5b; 0x52;
  0x3c; 0x35; 0x2e; 0x27; 0x18; 0x11; 0x0a; 0x03;
  0x74; 0x7d; 0x66; 0x6f; 0x50; 0x59; 0x42; 0x4b;
  0x17; 0x1e; 0x05; 0x0c; 0x33; 0x3a; 0x21; 0x28;
  0x5f; 0x56; 0x4d; 0x44; 0x7b; 0x72; 0x69; 0x60;
  0x0e; 0x07; 0x1c; 0x15; 0x2a; 0x23; 0x38; 0x31;
  0x46; 0x4f; 0x54; 0x5d; 0x62; 0x6b; 0x70; 0x79].

Definition t10_dif_crc_table : list Z := [
  0x0000; 0x8bb7; 0x9cd9; 0x176e; 0xb205; 0x39b2; 0x2edc; 0xa56b;
  0xefbd; 0x640a; 0x7364; 0xf8d3; 0x5db8; 0xd60f; 0xc161; 0x4ad6;
  0x54cd; 0xdf7a; 0xc814; 0x43a3; 0xe6c8; 0x6d7f; 0x7a11; 0xf1a6;
  0xbb70; 0x30c7; 0x27a9; 0xac1e; 0x0975; 0x82c2; 0x95ac; 0x1e1b;
  0xa99a; 0x222d; 0x3543; 0xbef4; 0x1b9f; 0x9028; 0x8746; 0x0cf1;
  0x4627; 0xcd90; 0xdafe; 0x5149; 0xf422; 0x7f95; 0x68fb; 0xe34c;
  0xfd57; 0x76e0; 0x618e; 0xea39; 0x4f52; 0xc4e5; 0xd38b; 0x583c;
  0x12ea; 0x995d; 0x8e33; 0x0584; 0xa0ef; 0x2b58; 0x3c36; 0xb781;
  0xd883; 0x5334; 0x445a; 0xcfed; 0x6a86; 0xe131; 0xf65f; 0x7de8;
  0x373e; 0xbc89; 0xabe7; 0x2050; 0x853b; 0x0e8c; 0x19e2; 0x9255;
  0x8c4e; 0x07f9; 0x1097; 0x9b20; 0x3e4b; 0xb5fc; 0xa292; 0x2925;
  0x63f3; 0xe844; 0xff2a; 0x749d; 0xd1f6; 0x5a41; 0x4d2f; 0xc698;
  0x7119; 0xfaae; 0xedc0; 0x6677; 0xc31c; 0x48ab; 0x5fc5; 0xd472;
  0x9ea4; 0x1513; 0x027d; 0x89ca; 0x2ca1; 0xa716; 0xb078; 0x3bcf;
  0x25d4; 0xae63; 0xb90d; 0x32ba; 0x97d1; 0x1c66; 0x0b08; 0x80bf;
  0xca69; 0x41de; 0x56b0; 0xdd07; 0x786c; 0xf3db; 0xe4b5; 0x6f02;
  0x3ab1; 0xb106; 0xa668; 0x2ddf; 0x88b4; 0x0303; 0x146d; 0x9fda;
  0xd50c; 0x5ebb; 0x49d5; 0xc262; 0x6709; 0xecbe; 0xfbd0; 0x7067;
  0x6e7c; 0xe5cb; 0xf2a5; 0x7912; 0xdc79; 0x57ce; 0x40a0; 0xcb17;
  0x81c1; 0x0a76; 0x1d18; 0x96af; 0x33c4; 0xb873; 0xaf1d; 0x24aa;
  0x932b; 0x189c; 0x0ff2; 0x8445; 0x212e; 0xaa99; 0xbdf7; 0x3640;
  0x7c96; 0xf721; 0xe04f; 0x6bf8; 0xce93; 0x4524; 0x524a; 0xd9fd;
  0xc7e6; 0x4c51; 0x5b3f; 0xd088; 0x75e3; 0xfe54; 0xe93a; 0x628d;
  0x285b; 0xa3ec; 0xb482; 0x3f35; 0x9a5e; 0x11e9; 0x0687; 0x8d30;
  0xe232; 0x6985; 0x7eeb; 0xf55c; 0x5037; 0xdb80; 0xccee; 0x4759;
  0x0d8f; 0x8638; 0x9156; 0x1ae1; 0xbf8a; 0x343d; 0x2353; 0xa8e4;
  0xb6ff; 0x3d48; 0x2a26; 0xa191; 0x04fa; 0x8f4d; 0x9823; 0x1394;
  0x5942; 0xd2f5; 0xc59b; 0x4e2c; 0xeb47; 0x60f0; 0x779e; 0xfc29;
  0x4ba8; 0xc01f; 0xd771; 0x5cc6; 0xf9ad; 0x721a; 0x6574; 0xeec3;
  0xa415; 0x2fa2; 0x38cc; 0xb37b; 0x1610; 0x9da7; 0x8ac9; 0x017e;
  0x1f65; 0x94d2; 0x83bc; 0x080b; 0xad60; 0x26d7; 0x31b9; 0xba0e;
  0xf0d8; 0x7b6f; 0x6c01; 0xe7b6; 0x42dd; 0xc96a; 0xde04; 0x55b3].

Definition byte_rev_table : list Z := [
  0x00; 0x80; 0x40; 0xc0; 0x20; 0xa0; 0x60; 0xe0;
  0x10; 0x90; 0x50; 0xd0; 0x30; 0xb0; 0x70; 0xf0;
  0x08; 0x88; 0x48; 0xc8; 0x28; 0xa8; 0x68; 0xe8;
  0x18; 0x98; 0x58; 0xd8; 0x38; 0xb8; 0x78; 0xf8;
  0x04; 0x84; 0x44; 0xc4; 0x24; 0xa4; 0x64; 0xe4;
  0x14; 0x94; 0x54; 0xd4; 0x34; 0xb4; 0x74; 0xf4;
  0x0c; 0x8c; 0x4c; 0xcc; 0x2c; 0xac; 0x6c; 0xec;
  0x1c; 0x9c; 0x5c; 0xdc; 0x3c; 0xbc; 0x7c; 0xfc;
  0x02; 0x82; 0x42; 0xc2; 0x22; 0xa2; 0x62; 0xe2;
  0x12; 0x92; 0x52; 0xd2; 0x32; 0xb2; 0x72; 0xf2;
  0x0a; 0x8a; 0x4a; 0xca; 0x2a; 0xaa; 0x6a; 0xea;
  0x1a; 0x9a; 0x5a; 0xda; 0x3a; 0xba; 0x7a; 0xfa;
  0x06; 0x86; 0x46; 0xc6; 0x26; 0xa6; 0x66; 0xe6;
  0x16; 0x96; 0x56; 0xd6; 0x36; 0xb6; 0x76; 0xf6;
  0x0e; 0x8e; 0x4e; 0xce; 0x2e; 0xae; 0x6e; 0xee;
  0x1e; 0x9e; 0x5e; 0xde; 0x3e; 0xbe; 0x7e; 0xfe;
  0x01; 0x81; 0x41; 0xc1; 0x21; 0xa1; 0x61; 0xe1;
  0x11; 0x91; 0x51; 0xd1; 0x31; 0xb1; 0x71; 0xf1;
  0x09; 0x89; 0x49; 0xc9; 0x29; 0xa9; 0x69; 0xe9;
  0x19; 0x99; 0x59; 0xd9; 0x39; 0xb9; 0x79; 0xf9;
  0x05; 0x85; 0x45; 0xc5; 0x25; 0xa5; 0x65; 0xe5;
  0x15; 0x95; 0x55; 0xd5; 0x35; 0xb5; 0x75; 0xf5;
  0x0d; 0x8d; 0x4d; 0xcd; 0x2d; 0xad; 0x6d; 0xed;
  0x1d; 0x9d; 0x5d; 0xdd; 0x3d; 0xbd; 0x7d; 0xfd;
  0x03; 0x83; 0x43; 0xc3; 0x23; 0xa3; 0x63; 0xe3;
  0x13; 0x93; 0x53; 0xd3; 0x33; 0xb3; 0x73; 0xf3;
  0x0b; 0x8b; 0x4b; 0xcb; 0x2b; 0xab; 0x6b; 0xeb;
  0x1b; 0x9b; 0x5b; 0xdb; 0x3b; 0xbb; 0x7b; 0xfb;
  0x07; 0x87; 0x47; 0xc7; 0x27; 0xa7; 0x67; 0xe7;
  0x17; 0x97; 0x57; 0xd7; 0x37; 0xb7; 0x77; 0xf7;
  0x0f; 0x8f; 0x4f; 0xcf; 0x2f; 0xaf; 0x6f; 0xef;
  0x1f; 0x9f; 0x5f; 0xdf; 0x3f; 0xbf; 0x7f; 0xff].

(** ** The byte at a time routines *)

Definition crc16_byte (crc data : Z) : Z :=
  Z.lxor (Z.shiftr crc 8) (aref crc16_table (Z.land (Z.lxor crc data) 0xff)).

Definition crc_ccitt_byte (crc c : Z) : Z :=
  Z.lxor (Z.shiftr crc 8) (aref crc_ccitt_table (Z.land (Z.lxor crc c) 0xff)).

Definition crc_itu_t_byte (crc data : Z) : Z :=
  u16 (Z.lxor (Z.shiftl crc 8) (aref crc_itu_t_table (Z.land (Z.lxor (Z.shiftr crc 8) data) 0xff))).

Definition crc7_byte (crc data : Z) : Z :=
  aref crc7_syndrome_table (Z.lxor (Z.shiftl crc 1) data).

(** [while (len--) crc = byte(crc, *buffer++);] *)
Definition while_len (byte : Z -> Z -> Z) (crc buffer len : Z) : M Z :=
  loop (S (Z.to_nat len)) (fun '(crc, buffer, len) =>
    if len =? 0 then break crc else
    c ← load buffer;
    continue (byte crc c, buffer + 1, len - 1)) (crc, buffer, len).

Definition crc16 (crc buffer len : Z) : M Z := while_len crc16_byte crc buffer len.
Definition crc_ccitt (crc buffer len : Z) : M Z := while_len crc_ccitt_byte crc buffer len.
Definition crc_itu_t (crc buffer len : Z) : M Z := while_len crc_itu_t_byte crc buffer len.
Definition crc7 (crc buffer len : Z) : M Z := while_len crc7_byte crc buffer len.

Definition crc_t10dif (buffer len : Z) : M Z :=
  loop (S (Z.to_nat len)) (fun '(crc, i) =>
    if i <? len then
      c ← load (buffer + i);
      continue (u16 (Z.lxor (Z.shiftl crc 8)
        (aref t10_dif_crc_table (Z.land (Z.lxor (Z.shiftr crc 8) c) 0xff))), i + 1)
    else break crc) (0, 0).

(** ** Bit reversal *)

Definition bitrev8 (byte : Z) : Z := aref byte_rev_table byte.

Definition bitrev16 (x : Z) : Z :=
  Z.lor (Z.shiftl (bitrev8 (Z.land x 0xff)) 8) (bitrev8 (Z.shiftr x 8)).

Definition bitrev32 (x : Z) : Z :=
  Z.lor (Z.shiftl (bitrev16 (Z.land x 0xffff)) 16) (bitrev16 (Z.shiftr x 16)).

(** ** CRC-32 *)

Definition CRCPOLY_LE : Z := 0xedb88320.
Definition CRCPOLY_BE : Z := 0x04c11db7.

(** The inner loop of crc32init_le, [for (j = 0; j < 256; j += 2 * i)]. *)
Fixpoint init_le_row (fuel : nat) (i j crc : Z) (tab : list Z) : list Z :=
  match fuel with
  | O => tab
  | S fuel =>
      if j <? 256 then
        init_le_row fuel i (j + 2 * i) crc (<[Z.to_nat (i + j) := Z.lxor crc (aref tab j)]> tab)
      else tab
  end.

Fixpoint init_le_rows (fuel : nat) (i crc : Z) (tab : list Z) : list Z :=
  match fuel with
  | O => tab
  | S fuel =>
      if i =? 0 then tab else
      let crc := Z.lxor (Z.shiftr crc 1) (if Z.land crc 1 =? 0 then 0 else CRCPOLY_LE) in
      init_le_rows fuel (Z.shiftr i 1) crc (init_le_row 257 i 0 crc tab)
  end.

(** crc32init_le: the table starts as a static array, all zero. *)
Definition crc32table_le : list Z :=
  Eval vm_compute in init_le_rows 9 (Z.shiftl 1 7) 1 (<[0%nat := 0]> (replicate 256 0)).

(** The inner loop of crc32init_be, [for (j = 0; j < i; j++)]. *)
Fixpoint init_be_row (fuel : nat) (i j crc : Z) (tab : list Z) : list Z :=
  match fuel with
  | O => tab
  | S fuel =>
      if j <? i then
        init_be_row fuel i (j + 1) crc (<[Z.to_nat (i + j) := Z.lxor crc (aref tab j)]> tab)
      else tab
  end.

Fixpoint init_be_rows (fuel : nat) (i crc : Z) (tab : list Z) : list Z :=
  match fuel with
  | O => tab
  | S fuel =>
      if i <? 256 then
        let crc := Z.lxor (u32 (Z.shiftl crc 1)) (if Z.land crc 0x80000000 =? 0 then 0 else CRCPOLY_BE) in
        init_be_rows fuel (Z.shiftl i 1) crc (init_be_row 257 i 0 crc tab)
      else tab
  end.

Definition crc32init_be : list Z :=
  Eval vm_compute in init_be_rows 9 1 0x80000000 (<[0%nat := 0]> (replicate 256 0)).

(** [__cpu_to_be32] and [__be32_to_cpu] on a little-endian processor. *)
Definition swab32 (x : Z) : Z :=
  Z.lor (Z.shiftl (Z.land x 0xff) 24)
    (Z.lor (Z.shiftl (Z.land x 0xff00) 8)
      (Z.lor (Z.shiftr (Z.land x 0xff0000) 8) (Z.shiftr (Z.land x 0xff000000) 24))).

(** crc32table_be as crc32.c includes it, each entry through [tobe]. *)
Definition crc32table_be : list Z := Eval vm_compute in map swab32 crc32init_be.

(** The macro DO_CRC for a little-endian processor. *)
Definition DO_CRC (tab : list Z) (crc x : Z) : Z :=
  Z.lxor (aref tab (Z.land (Z.lxor crc x) 255)) (Z.shiftr crc 8).

(** The body that crc32_le and crc32_be share, CRC_LE_BITS and CRC_BE_BITS
    being 8: bytes up to a word boundary, whole words, the bytes left over. *)
Definition crc32_body (tab : list Z) (crc b len : Z) : M Z :=
  '(crc, b, len) ←
    (if negb (Z.land b 3 =? 0) && negb (len =? 0) then
       loop (S (Z.to_nat len)) (fun '(crc, b, len) =>
         x ← load b;
         let crc := DO_CRC tab crc x in
         let b := b + 1 in
         let len := len - 1 in
         if negb (len =? 0) && negb (Z.land b 3 =? 0) then continue (crc, b, len)
         else break (crc, b, len)) (crc, b, len)
     else mret (crc, b, len));
  '(crc, b, len) ←
    (if 4 <=? len then
       let save_len := Z.land len 3 in
       '(crc, b) ← loop (S (Z.to_nat (Z.shiftr len 2))) (fun '(crc, b, len) =>
         w ← load_le32 b;
         let crc := Z.lxor crc w in
         let crc := DO_CRC tab crc 0 in
         let crc := DO_CRC tab crc 0 in
         let crc := DO_CRC tab crc 0 in
         let crc := DO_CRC tab crc 0 in
         let len := len - 1 in
         if negb (len =? 0) then continue (crc, b + 4, len) else break (crc, b + 4))
         (crc, b, Z.shiftr len 2);
       mret (crc, b, save_len)
     else mret (crc, b, len));
  if negb (len =? 0) then
    loop (S (Z.to_nat len)) (fun '(crc, b, len) =>
      x ← load b;
      let crc := DO_CRC tab crc x in
      let len := len - 1 in
      if negb (len =? 0) then continue (crc, b + 1, len) else break crc) (crc, b, len)
  else mret crc.

Definition crc32_le (crc p len : Z) : M Z := crc32_body crc32table_le crc p len.

Definition crc32_be (crc p len : Z) : M Z :=
  r ← crc32_body crc32table_be (swab32 crc) p len;
  mret (swab32 r).

(** ether_crc of include/linux/crc32.h. *)
Definition ether_crc (length data : Z) : M Z :=
  r ← crc32_le (2 ^ 32 - 1) data length;
  mret (bitrev32 r).

(** ** Division by the polynomial, one bit at a time *)

(** [iter n f x]: [f] applied [n] times. *)
Fixpoint iter (n : nat) (f : Z -> Z) (x : Z) : Z :=
  match n with
  | O => x
  | S n' => iter n' f (f x)
  end.

(** Least significant bit first, with the reflected polynomial. *)
Definition lsb_step (poly c : Z) : Z :=
  Z.lxor (Z.shiftr c 1) (if Z.testbit c 0 then poly else 0).

Definition lsb_byte (poly crc x : Z) : Z := iter 8 (lsb_step poly) (Z.lxor crc x).

(** Most significant bit first, in a register of [w] bits. *)
Definition msb_step (w poly c : Z) : Z :=
  Z.lxor (wrap w (Z.shiftl c 1)) (if Z.testbit c (w - 1) then poly else 0).

Definition msb_byte (w poly crc x : Z) : Z :=
  iter 8 (msb_step w poly) (Z.lxor crc (Z.shiftl x (w - 8))).

(** The CRC of a sequence of bytes. *)
Definition crc_lsb (poly crc : Z) (l : list Z) : Z := foldl (lsb_byte poly) crc l.
Definition crc_msb (w poly crc : Z) (l : list Z) : Z := foldl (msb_byte w poly) crc l.

(** Both steps are linear over xor. *)
Definition linear (f : Z -> Z) : Prop := forall a b, f (Z.lxor a b) = Z.lxor (f a) (f b).

Lemma iter_linear n f : linear f -> linear (iter n f).
Proof.
  intros Hf. induction n as [|n IH]; intros a b; simpl; [done|]. by rewrite Hf, IH.
Qed.

Lemma lxor_swap a b c d : Z.lxor (Z.lxor a b) (Z.lxor c d) = Z.lxor (Z.lxor a c) (Z.lxor b d).
Proof.
  rewrite !Z.lxor_assoc. f_equal. rewrite <- !Z.lxor_assoc. f_equal. apply Z.lxor_comm.
Qed.

Lemma if_xor (b c : bool) p :
  (if xorb b c then p else 0) = Z.lxor (if b then p else 0) (if c then p else 0).
Proof.
  destruct b, c; simpl; by rewrite ?Z.lxor_nilpotent, ?Z.lxor_0_r, ?Z.lxor_0_l.
Qed.

Lemma lsb_step_linear poly : linear (lsb_step poly).
Proof. intros a b. unfold lsb_step. by rewrite Z.shiftr_lxor, Z.lxor_spec, if_xor, lxor_swap. Qed.

Lemma wrap_lxor w a b : 0 <= w -> wrap w (Z.lxor a b) = Z.lxor (wrap w a) (wrap w b).
Proof.
  intros Hw. bitwise i Hi. destruct (i <? w); simpl; [done|]. done.
Qed.

Lemma msb_step_linear w poly : 0 <= w -> linear (msb_step w poly).
Proof.
  intros Hw a b. unfold msb_step.
  by rewrite Z.shiftl_lxor, wrap_lxor, Z.lxor_spec, if_xor, lxor_swap.
Qed.

(** Shifting out zeros. *)
Lemma iter_lsb_shift n poly x : iter n (lsb_step poly) (Z.shiftl x (Z.of_nat n)) = x.
Proof.
  revert x. induction n as [|n IH]; intros x; simpl; [by rewrite Z.shiftl_0_r|].
  replace (lsb_step poly (Z.shiftl x (Z.of_nat (S n)))) with (Z.shiftl x (Z.of_nat n)); [done|].
  unfold lsb_step. rewrite Z.shiftl_spec_low by lia. rewrite Z.lxor_0_r, Z.shiftr_shiftl_l by lia.
  f_equal. lia.
Qed.

Lemma iter_msb_shift n w poly x :
  0 <= x -> Z.of_nat n <= w -> x < 2 ^ (w - Z.of_nat n) ->
  iter n (msb_step w poly) x = Z.shiftl x (Z.of_nat n).
Proof.
  revert x. induction n as [|n IH]; intros x Hx Hn Hlt; simpl; [by rewrite Z.shiftl_0_r|].
  assert (2 ^ (w - Z.of_nat n) = 2 * 2 ^ (w - Z.of_nat (S n))) as E.
  { rewrite <- Z.pow_succ_r by lia. f_equal. lia. }
  assert (msb_step w poly x = Z.shiftl x 1) as ->.
  { unfold msb_step. rewrite (fits_testbit_high (w - 1)), Z.lxor_0_r.
    - apply wrap_id. rewrite Z.shiftl_mul_pow2 by lia. change (2 ^ 1) with 2.
      assert (2 ^ (w - Z.of_nat n) <= 2 ^ w) by (apply Z.pow_le_mono_r; lia). unfold fits. lia.
    - lia.
    - assert (2 ^ (w - Z.of_nat (S n)) <= 2 ^ (w - 1)) by (apply Z.pow_le_mono_r; lia). unfold fits. lia.
    - lia. }
  rewrite IH; [|by apply Z.shiftl_nonneg|lia|rewrite Z.shiftl_mul_pow2 by lia; change (2 ^ 1) with 2; lia].
  rewrite Z.shiftl_shiftl by lia. f_equal. lia.
Qed.

(** A register split at bit [k]. *)
Lemma split_at k x : 0 <= k -> x = Z.lxor (Z.shiftl (Z.shiftr x k) k) (Z.land x (Z.ones k)).
Proof.
  intros Hk. bitwise i Hi. destruct (Z.lt_ge_cases i k).
  - rewrite (Z.testbit_neg_r _ (i - k)) by lia. simpl.
    replace ((0 <=? i) && (i <? k)) with true by lia. by rewrite andb_true_r.
  - rewrite Z.shiftr_spec by lia. replace (i - k + k) with i by lia.
    replace (i <? k) with false by lia. by rewrite !andb_false_r, xorb_false_r.
Qed.

(** The table step: eight steps on the low byte, the rest shifted down. *)
Lemma lsb_iter8 poly c :
  iter 8 (lsb_step poly) c = Z.lxor (Z.shiftr c 8) (iter 8 (lsb_step poly) (Z.land c 255)).
Proof.
  rewrite (split_at 8 c) at 1 by lia. rewrite (iter_linear 8 _ (lsb_step_linear poly)).
  change 8 with (Z.of_nat 8) at 1 2. by rewrite iter_lsb_shift.
Qed.

Lemma shiftr8_byte x : fits 8 x -> Z.shiftr x 8 = 0.
Proof. intros Hx. rewrite Z.shiftr_div_pow2 by lia. apply Z.div_small. exact Hx. Qed.

Lemma lsb_byte_table poly crc x :
  fits 8 x ->
  lsb_byte poly crc x =
    Z.lxor (Z.shiftr crc 8) (iter 8 (lsb_step poly) (Z.land (Z.lxor crc x) 255)).
Proof.
  intros Hx. unfold lsb_byte. rewrite lsb_iter8, Z.shiftr_lxor, (shiftr8_byte x) by done.
  by rewrite Z.lxor_0_r.
Qed.

Lemma msb_byte_table w poly crc x :
  8 <= w -> fits w crc -> fits 8 x ->
  msb_byte w poly crc x =
    Z.lxor (wrap w (Z.shiftl crc 8))
      (iter 8 (msb_step w poly) (Z.shiftl (Z.land (Z.lxor (Z.shiftr crc (w - 8)) x) 255) (w - 8))).
Proof.
  intros Hw Hc Hx. unfold msb_byte.
  assert (Z.lxor crc (Z.shiftl x (w - 8)) =
    Z.lxor (Z.land crc (Z.ones (w - 8)))
      (Z.shiftl (Z.land (Z.lxor (Z.shiftr crc (w - 8)) x) 255) (w - 8))) as ->.
  { change 255 with (Z.ones 8). bitwise i Hi. destruct (Z.lt_ge_cases i (w - 8)).
    - rewrite !(Z.testbit_neg_r _ (i - (w - 8))) by lia.
      replace ((0 <=? i) && (i <? w - 8)) with true by lia. by rewrite andb_true_r.
    - autorewrite with bits. replace (i - (w - 8) + (w - 8)) with i by lia. replace (i <? w - 8) with false by lia.
      rewrite andb_false_r, andb_false_r, xorb_false_l.
      destruct (Z.lt_ge_cases i w).
      + replace ((0 <=? i - (w - 8)) && (i - (w - 8) <? 8)) with true by lia. by rewrite andb_true_r.
      + rewrite (fits_testbit_high w crc i), (fits_testbit_high 8 x) by (done || lia). done. }
  rewrite (iter_linear 8 _ (msb_step_linear w poly ltac:(lia))). f_equal.
  rewrite iter_msb_shift; [change (Z.of_nat 8) with 8|apply Z.land_nonneg; left; unfold fits in Hc; lia|lia|].
  - bitwise i Hi. destruct (Z.lt_ge_cases i 8).
    + rewrite !(Z.testbit_neg_r _ (i - 8)) by lia. by rewrite andb_false_r.
    + autorewrite with bits. destruct (Z.ltb_spec i w); simpl.
      * replace ((0 <=? i - 8) && (i - 8 <? w - 8)) with true by lia. apply andb_true_r.
      * replace (i - 8 <? w - 8) with false by lia. by rewrite !andb_false_r.
  - rewrite Z.land_ones by lia. apply Z.mod_pos_bound. lia.
Qed.

(** ** The tables hold the CRC of each byte *)

Lemma table_ok (tab : list Z) (f : Z -> Z) :
  forallb (fun i => aref tab i =? f i) (seqZ 0 256) = true ->
  forall i, fits 8 i -> aref tab i = f i.
Proof. intros H i Hi. apply Z.eqb_eq. by apply (byte_forall (fun i => aref tab i =? f i)). Qed.

Lemma fits_low_byte x : fits 8 (Z.land x 255).
Proof.
  change 255 with (Z.ones 8). rewrite Z.land_ones by lia. apply wrap_fits. lia.
Qed.

Lemma crc16_table_ok i : fits 8 i -> aref crc16_table i = iter 8 (lsb_step 0xa001) i.
Proof. revert i. apply table_ok. by vm_compute. Qed.

Lemma crc_ccitt_table_ok i : fits 8 i -> aref crc_ccitt_table i = iter 8 (lsb_step 0x8408) i.
Proof. revert i. apply table_ok. by vm_compute. Qed.

Lemma crc_itu_t_table_ok i :
  fits 8 i -> aref crc_itu_t_table i = iter 8 (msb_step 16 0x1021) (Z.shiftl i 8).
Proof. revert i. apply table_ok. by vm_compute. Qed.

Lemma t10_dif_crc_table_ok i :
  fits 8 i -> aref t10_dif_crc_table i = iter 8 (msb_step 16 0x8bb7) (Z.shiftl i 8).
Proof. revert i. apply table_ok. by vm_compute. Qed.

Lemma crc32table_le_ok i : fits 8 i -> aref crc32table_le i = iter 8 (lsb_step CRCPOLY_LE) i.
Proof. revert i. apply table_ok. by vm_compute. Qed.

Lemma crc32table_be_ok i :
  fits 8 i -> aref crc32table_be i = swab32 (iter 8 (msb_step 32 CRCPOLY_BE) (Z.shiftl i 24)).
Proof. revert i. apply table_ok. by vm_compute. Qed.

(** The 7 bits of CRC-7 sit in the top of a byte while it is divided. *)
Lemma crc7_table_ok i :
  fits 8 i -> aref crc7_syndrome_table i = Z.shiftr (iter 8 (msb_step 8 0x12) i) 1.
Proof. revert i. apply table_ok. by vm_compute. Qed.

(** ** The byte steps *)

Lemma crc16_byte_ok crc x : fits 8 x -> crc16_byte crc x = lsb_byte 0xa001 crc x.
Proof.
  intros Hx. unfold crc16_byte. rewrite lsb_byte_table by done. f_equal.
  apply crc16_table_ok, fits_low_byte.
Qed.

Lemma crc_ccitt_byte_ok crc x : fits 8 x -> crc_ccitt_byte crc x = lsb_byte 0x8408 crc x.
Proof.
  intros Hx. unfold crc_ccitt_byte. rewrite lsb_byte_table by done. f_equal.
  apply crc_ccitt_table_ok, fits_low_byte.
Qed.

Lemma fits_msb_step w poly c : 0 < w -> fits w poly -> fits w (msb_step w poly c).
Proof.
  intros Hw Hp. unfold msb_step. apply fits_lxor; [lia|apply wrap_fits; lia|].
  destruct (Z.testbit c (w - 1)); [done|apply fits_0; lia].
Qed.

Lemma fits_msb_iter n w poly c : (0 < n)%nat -> 0 < w -> fits w poly -> fits w (iter n (msb_step w poly) c).
Proof.
  intros Hn Hw Hp. revert c. induction n as [|[|n] IH]; intros c; [lia|by apply fits_msb_step|].
  apply IH. lia.
Qed.

Lemma fits_msb_byte w poly c x : 0 < w -> fits w poly -> fits w (msb_byte w poly c x).
Proof. intros. apply fits_msb_iter; [lia|done|done]. Qed.

(** The 16-bit table step, for both tables. *)
Lemma msb16_byte_ok tab poly crc x :
  (forall i, fits 8 i -> aref tab i = iter 8 (msb_step 16 poly) (Z.shiftl i 8)) ->
  fits 16 poly -> fits 16 crc -> fits 8 x ->
  u16 (Z.lxor (Z.shiftl crc 8) (aref tab (Z.land (Z.lxor (Z.shiftr crc 8) x) 0xff)))
  = msb_byte 16 poly crc x.
Proof.
  intros Htab Hp Hc Hx. rewrite msb_byte_table by (done || lia). rewrite wrap_lxor by lia. f_equal.
  rewrite Htab by apply fits_low_byte. apply wrap_id, fits_msb_iter; [lia|lia|done].
Qed.

Lemma crc_itu_t_byte_ok crc x :
  fits 16 crc -> fits 8 x -> crc_itu_t_byte crc x = msb_byte 16 0x1021 crc x.
Proof. apply msb16_byte_ok; [apply crc_itu_t_table_ok|done]. Qed.

(** The index stays inside the table as long as the CRC has 7 bits. *)
Lemma crc7_index crc x : fits 7 crc -> fits 8 x -> fits 8 (Z.lxor (Z.shiftl crc 1) x).
Proof.
  intros Hc Hx. apply fits_lxor; [lia| |done]. rewrite Z.shiftl_mul_pow2 by lia.
  unfold fits in *. change (2 ^ 1) with 2. change (2 ^ 7) with 128 in Hc. lia.
Qed.

Lemma crc7_byte_ok crc x :
  fits 7 crc -> fits 8 x ->
  crc7_byte crc x = Z.shiftr (msb_byte 8 0x12 (Z.shiftl crc 1) x) 1 /\
  Z.shiftl (crc7_byte crc x) 1 = msb_byte 8 0x12 (Z.shiftl crc 1) x /\ fits 7 (crc7_byte crc x).
Proof.
  intros Hc Hx. pose proof (crc7_index crc x Hc Hx) as Hi. unfold crc7_byte, msb_byte.
  rewrite (Z.shiftl_0_r x : Z.shiftl x (8 - 8) = x), (crc7_table_ok _ Hi). revert Hi.
  set (i := Z.lxor _ _). clearbody i. intros Hi. split; [done|].
  enough ((Z.shiftl (Z.shiftr (iter 8 (msb_step 8 0x12) i) 1) 1 =? iter 8 (msb_step 8 0x12) i) &&
    (0 <=? Z.shiftr (iter 8 (msb_step 8 0x12) i) 1) &&
    (Z.shiftr (iter 8 (msb_step 8 0x12) i) 1 <? 128) = true) by (unfold fits; lia).
  revert i Hi. apply (byte_forall (fun i =>
    (Z.shiftl (Z.shiftr (iter 8 (msb_step 8 0x12) i) 1) 1 =? iter 8 (msb_step 8 0x12) i) &&
    (0 <=? Z.shiftr (iter 8 (msb_step 8 0x12) i) 1) &&
    (Z.shiftr (iter 8 (msb_step 8 0x12) i) 1 <? 128))). by vm_compute.
Qed.

(** ** The loops *)

Lemma while_len_ok byte m crc p l :
  arr m p l -> while_len byte crc p (Z.of_nat (length l)) m = Ok (foldl byte crc l, m).
Proof.
  unfold while_len. rewrite Nat2Z.id. generalize (le_n (length l)).
  generalize (length l) at 2 3 as fuel. intros fuel Hf Harr. revert fuel crc p Hf Harr.
  induction l as [|x l IH]; intros fuel crc p Hf Harr.
  - rewrite loop_S. done.
  - apply arr_cons in Harr as [Hx Harr]. simpl in Hf. destruct fuel as [|fuel]; [lia|].
    rewrite loop_S. replace (Z.of_nat (length (x :: l)) =? 0) with false by (simpl; lia).
    rewrite bind_bind, (bind_load _ x) by done. rewrite bind_ret.
    replace (Z.of_nat (length (x :: l)) - 1) with (Z.of_nat (length l)) by (simpl; lia).
    apply IH; [lia|done].
Qed.

(** Two byte steps that agree on the registers [I] compute the same CRC. *)
Lemma foldl_steps (I : Z -> Prop) (f g : Z -> Z -> Z) :
  (forall c x, I c -> fits 8 x -> f c x = g c x /\ I (g c x)) ->
  forall l c, I c -> Forall (fits 8) l -> foldl f c l = foldl g c l /\ I (foldl g c l).
Proof.
  intros Hfg l. induction l as [|x l IH]; intros c Hc Hl; simpl; [done|].
  apply Forall_cons in Hl as [Hx Hl]. destruct (Hfg c x Hc Hx) as [-> HI]. by apply IH.
Qed.

Lemma crc_t10dif_loop m p l :
  arr m p l -> Forall (fits 8) l ->
  crc_t10dif p (Z.of_nat (length l)) m = Ok (crc_msb 16 0x8bb7 0 l, m).
Proof.
  intros Harr Hl. apply wp_eq. unfold crc_t10dif.
  set (byte := msb_byte 16 0x8bb7).
  apply (wp_loop (fun '(crc, i) m' => m' = m /\ 0 <= i <= Z.of_nat (length l) /\
      crc = foldl byte 0 (take (Z.to_nat i) l) /\ fits 16 crc)
    (fun '(_, i) => Z.to_nat (Z.of_nat (length l) - i))); [split; [done|split; [lia|done]]|lia|].
  intros [crc i] m' (-> & Hi & Hcrc & Hf). destruct (Z.ltb_spec i (Z.of_nat (length l))).
  - destruct (lookup_lt_is_Some_2 l (Z.to_nat i)) as [x Hx]; [lia|].
    assert (fits 8 x) as Hx8 by (rewrite Forall_forall in Hl; by apply Hl, list_elem_of_lookup_2 with (Z.to_nat i)).
    apply wp_bind. apply (wp_load _ x); [apply (arr_lookup m p l); [done|lia|done]|].
    rewrite (msb16_byte_ok _ 0x8bb7) by (done || apply t10_dif_crc_table_ok).
    apply wp_ret. split; [|lia]. split; [done|]. split; [lia|]. split.
    + replace (Z.to_nat (i + 1)) with (S (Z.to_nat i)) by lia.
      rewrite (take_S_r _ _ _ Hx), foldl_app. simpl. by rewrite <- Hcrc.
    + by apply fits_msb_byte.
  - apply wp_ret. split; [|done]. rewrite Hcrc, take_ge by lia. done.
Qed.

(** ** CRC-32 *)

Lemma land_lxor_distr a b k : Z.land (Z.lxor a b) k = Z.lxor (Z.land a k) (Z.land b k).
Proof. bitwise i Hi. by destruct (Z.testbit a i), (Z.testbit b i), (Z.testbit k i). Qed.

(** A word xored in at once: its low byte is used up, the rest stays. *)
Lemma DO_CRC_word tab crc b w :
  fits 8 b -> DO_CRC tab (Z.lxor crc (b + 256 * w)) 0 = Z.lxor (DO_CRC tab crc b) w.
Proof.
  intros Hb. unfold DO_CRC. unfold fits in Hb. change (2 ^ 8) with 256 in Hb.
  rewrite Z.lxor_0_r, Z.lxor_assoc. f_equal.
  - f_equal. rewrite !land_lxor_distr. f_equal. change 255 with (Z.ones 8).
    rewrite !Z.land_ones by lia. change (2 ^ 8) with 256. Z.div_mod_to_equations. lia.
  - rewrite Z.shiftr_lxor. f_equal. rewrite Z.shiftr_div_pow2 by lia. change (2 ^ 8) with 256.
    Z.div_mod_to_equations. lia.
Qed.

Lemma DO_CRC_4 tab crc a b c d :
  fits 8 a -> fits 8 b -> fits 8 c -> fits 8 d ->
  DO_CRC tab (DO_CRC tab (DO_CRC tab
    (DO_CRC tab (Z.lxor crc (a + 256 * (b + 256 * (c + 256 * d)))) 0) 0) 0) 0
  = foldl (DO_CRC tab) crc [a; b; c; d].
Proof.
  intros Ha Hb Hc Hd. simpl.
  rewrite DO_CRC_word, DO_CRC_word, DO_CRC_word by done.
  replace d with (d + 256 * 0) by lia. rewrite DO_CRC_word, Z.lxor_0_r by done.
  by replace (d + 256 * 0) with d by lia.
Qed.

Section Body.
Context (tab : list Z) (m : mem) (p crc0 : Z) (l : list Z).
Hypotheses (Harr : arr m p l) (Hbytes : Forall (fits 8) l).

(** The buffer up to [b] has been processed, [len] bytes are left. *)
Definition processed (crc b len : Z) : Prop :=
  exists l1 l2, l = l1 ++ l2 /\ crc = foldl (DO_CRC tab) crc0 l1 /\
    b = p + Z.of_nat (length l1) /\ len = Z.of_nat (length l2).

Lemma processed_byte crc b len :
  processed crc b len -> len <> 0 ->
  exists x, m !! b = Some x /\ fits 8 x /\ processed (DO_CRC tab crc x) (b + 1) (len - 1).
Proof using Harr Hbytes.
  intros (l1 & l2 & El & Ec & -> & Elen) Hne. destruct l2 as [|x l2]; [simpl in Elen; lia|].
  exists x. rewrite El in Harr, Hbytes. apply arr_app in Harr as [_ Ha].
  apply arr_cons in Ha as [Hx _]. apply Forall_app in Hbytes as [_ Hb]. apply Forall_cons in Hb as [Hb _].
  split; [done|]. split; [done|]. exists (l1 ++ [x]), l2.
  rewrite <- app_assoc, foldl_app, length_app. simpl. rewrite <- Ec. simpl in Elen.
  split; [done|]. split; [done|]. split; lia.
Qed.

Lemma wp_align crc b len :
  processed crc b len -> len <> 0 ->
  wp (loop (S (Z.to_nat len)) (fun '(crc, b, len) =>
        x ← load b;
        let crc := DO_CRC tab crc x in
        let b := b + 1 in
        let len := len - 1 in
        if negb (len =? 0) && negb (Z.land b 3 =? 0) then continue (crc, b, len)
        else break (crc, b, len)) (crc, b, len))
    (fun '(crc, b, len) m' => m' = m /\ processed crc b len) m.
Proof using Harr Hbytes.
  intros Hp Hne.
  apply (wp_loop (fun '(crc, b, len) m' => m' = m /\ processed crc b len /\ len <> 0)
    (fun '(_, _, len) => Z.to_nat len)); [done|lia|].
  clear crc b len Hp Hne. intros [[crc b] len] m' (-> & Hp & Hne).
  destruct (processed_byte _ _ _ Hp Hne) as (x & Hx & Hx8 & Hp').
  apply wp_bind. apply (wp_load _ x); [done|]. cbv zeta.
  assert (0 < len) by (destruct Hp as (? & ? & ? & ? & ? & ->); lia).
  destruct (Z.eqb_spec (len - 1) 0); simpl; [by apply wp_ret|].
  destruct (Z.land (b + 1) 3 =? 0); simpl; apply wp_ret; [done|]. split; [|lia]. done.
Qed.

Lemma processed_word b len crc :
  processed crc b len -> 4 <= len ->
  exists a0 a1 a2 a3, fits 8 a0 /\ fits 8 a1 /\ fits 8 a2 /\ fits 8 a3 /\
    load_le32 b m = Ok (a0 + 256 * (a1 + 256 * (a2 + 256 * a3)), m) /\
    processed (foldl (DO_CRC tab) crc [a0; a1; a2; a3]) (b + 4) (len - 4).
Proof using Harr Hbytes.
  intros Hp Hlen.
  destruct (processed_byte _ _ _ Hp ltac:(lia)) as (a0 & H0 & F0 & P0).
  destruct (processed_byte _ _ _ P0 ltac:(lia)) as (a1 & H1 & F1 & P1).
  destruct (processed_byte _ _ _ P1 ltac:(lia)) as (a2 & H2 & F2 & P2).
  destruct (processed_byte _ _ _ P2 ltac:(lia)) as (a3 & H3 & F3 & P3).
  exists a0, a1, a2, a3. do 4 (split; [done|]). split.
  - replace (b + 1 + 1) with (b + 2) in * by lia. replace (b + 2 + 1) with (b + 3) in * by lia.
    unfold load_le32. by rewrite (bind_load _ a0), (bind_load _ a1), (bind_load _ a2), (bind_load _ a3).
  - simpl. replace (b + 1 + 1 + 1 + 1) with (b + 4) in P3 by lia.
    by replace (len - 1 - 1 - 1 - 1) with (len - 4) in P3 by lia.
Qed.

Lemma wp_words crc b len :
  processed crc b len -> 4 <= len ->
  wp (loop (S (Z.to_nat (Z.shiftr len 2))) (fun '(crc, b, len) =>
        w ← load_le32 b;
        let crc := Z.lxor crc w in
        let crc := DO_CRC tab crc 0 in
        let crc := DO_CRC tab crc 0 in
        let crc := DO_CRC tab crc 0 in
        let crc := DO_CRC tab crc 0 in
        let len := len - 1 in
        if negb (len =? 0) then continue (crc, b + 4, len) else break (crc, b + 4))
        (crc, b, Z.shiftr len 2))
    (fun '(crc, b) m' => m' = m /\ processed crc b (Z.land len 3)) m.
Proof using Harr Hbytes.
  intros Hp Hlen. change 3 with (Z.ones 2). rewrite Z.land_ones by lia.
  rewrite Z.shiftr_div_pow2 by lia. change (2 ^ 2) with 4. set (r := len mod 4).
  apply (wp_loop (fun '(crc, b, k) m' => m' = m /\ 0 < k /\ processed crc b (4 * k + r))
    (fun '(_, _, k) => Z.to_nat k)); [|lia|].
  { split; [done|]. split; [Z.div_mod_to_equations; lia|]. subst r. by rewrite <- Z.div_mod by lia. }
  assert (0 <= r < 4) by (apply Z.mod_pos_bound; lia). clearbody r.
  clear crc b Hp. intros [[crc b] k] m' (-> & Hk & Hp).
  destruct (processed_word _ _ _ Hp ltac:(lia)) as (a0 & a1 & a2 & a3 & F0 & F1 & F2 & F3 & Hload & Hp').
  apply wp_bind. eapply wp_det; [exact Hload|]. cbv zeta.
  rewrite DO_CRC_4 by done.
  replace (4 * k + r - 4) with (4 * (k - 1) + r) in Hp' by lia.
  destruct (Z.eqb_spec (k - 1) 0) as [E|E]; cbn [negb]; apply wp_ret.
  - split; [done|]. rewrite E in Hp'. done.
  - split; [|lia]. split; [done|]. split; [lia|done].
Qed.

Lemma wp_rest crc b len :
  processed crc b len -> len <> 0 ->
  wp (loop (S (Z.to_nat len)) (fun '(crc, b, len) =>
        x ← load b;
        let crc := DO_CRC tab crc x in
        let len := len - 1 in
        if negb (len =? 0) then continue (crc, b + 1, len) else break crc) (crc, b, len))
    (fun crc m' => crc = foldl (DO_CRC tab) crc0 l /\ m' = m) m.
Proof using Harr Hbytes.
  intros Hp Hne.
  apply (wp_loop (fun '(crc, b, len) m' => m' = m /\ processed crc b len /\ len <> 0)
    (fun '(_, _, len) => Z.to_nat len)); [done|lia|].
  clear crc b len Hp Hne. intros [[crc b] len] m' (-> & Hp & Hne).
  destruct (processed_byte _ _ _ Hp Hne) as (x & Hx & Hx8 & Hp').
  apply wp_bind. apply (wp_load _ x); [done|]. cbv zeta.
  assert (0 < len) by (destruct Hp as (? & ? & ? & ? & ? & ->); lia).
  destruct (Z.eqb_spec (len - 1) 0) as [E|E]; simpl; apply wp_ret.
  - split; [|done]. destruct Hp' as (l1 & [|y l2] & -> & -> & _ & El); simpl in El; [|lia].
    by rewrite app_nil_r.
  - split; [|lia]. done.
Qed.

Lemma crc32_body_ok :
  crc32_body tab crc0 p (Z.of_nat (length l)) m = Ok (foldl (DO_CRC tab) crc0 l, m).
Proof using Harr Hbytes.
  apply wp_eq. unfold crc32_body. apply wp_bind.
  assert (processed crc0 p (Z.of_nat (length l))) as Hp.
  { exists [], l. simpl. rewrite Z.add_0_r. done. }
  apply wp_mono with (fun '(crc, b, len) m' => m' = m /\ processed crc b len).
  { apply wp_if; intros E; [|by apply wp_ret]. apply wp_align; [done|lia]. }
  clear Hp. intros [[crc b] len] m' [-> Hp]. apply wp_bind.
  apply wp_mono with (fun '(crc, b, len) m' => m' = m /\ processed crc b len).
  { apply wp_if; intros E; [|by apply wp_ret]. apply wp_bind.
    eapply wp_mono; [apply wp_words; [done|lia]|]. intros [crc' b'] m' [-> Hp']. by apply wp_ret. }
  clear crc b len Hp. intros [[crc b] len] m' [-> Hp].
  apply wp_if; intros E; [apply wp_rest; [done|lia]|]. apply wp_ret. split; [|done].
  destruct Hp as (l1 & [|y l2] & -> & -> & _ & El); simpl in El; [|lia]. by rewrite app_nil_r.
Qed.
End Body.

(** Byte order. *)
Lemma testbit_field k j : 0 <= k -> Z.testbit (Z.shiftl (Z.ones 8) k) j = (k <=? j) && (j <? k + 8).
Proof.
  intros Hk. destruct (Z.lt_ge_cases j k); [|rewrite Z.shiftl_spec, Ztestbit_ones by lia; lia].
  replace (k <=? j) with false by lia. destruct (Z.lt_ge_cases j 0); [by apply Z.testbit_neg_r|].
  by rewrite Z.shiftl_spec_low.
Qed.

Lemma testbit_swab32 x i :
  0 <= i ->
  Z.testbit (swab32 x) i =
    if i <? 8 then Z.testbit x (i + 24) else if i <? 16 then Z.testbit x (i + 8)
    else if i <? 24 then Z.testbit x (i - 8) else if i <? 32 then Z.testbit x (i - 24) else false.
Proof.
  intros Hi. unfold swab32. change 0xff with (Z.ones 8). change 0xff00 with (Z.shiftl (Z.ones 8) 8).
  change 0xff0000 with (Z.shiftl (Z.ones 8) 16). change 0xff000000 with (Z.shiftl (Z.ones 8) 24).
  rewrite !Z.lor_spec, !Z.shiftr_spec, !Z.shiftl_spec, !Z.land_spec, Ztestbit_ones, !testbit_field by lia.
  destruct (Z.ltb_spec i 8); [|destruct (Z.ltb_spec i 16); [|destruct (Z.ltb_spec i 24); [|destruct (Z.ltb_spec i 32)]]];
    decide_tests; rewrite ?andb_true_r, ?andb_false_r, ?orb_false_r; done.
Qed.

Lemma swab32_lxor a b : swab32 (Z.lxor a b) = Z.lxor (swab32 a) (swab32 b).
Proof.
  apply Z.bits_inj'. intros i Hi. rewrite Z.lxor_spec, !testbit_swab32 by done.
  repeat case_test; rewrite ?Z.lxor_spec; done.
Qed.

Lemma swab32_invol x : fits 32 x -> swab32 (swab32 x) = x.
Proof.
  intros Hx. apply Z.bits_inj'. intros i Hi. rewrite testbit_swab32 by done.
  repeat case_test; [rewrite testbit_swab32 by lia..|by rewrite (fits_testbit_high 32 x i)];
    repeat (case_test; try lia); f_equal; lia.
Qed.

(** Shifting a byte out at the bottom of the swapped register is shifting it
    out at the top of the register. *)
Lemma swab32_shift x : fits 32 x -> Z.shiftr (swab32 x) 8 = swab32 (u32 (Z.shiftl x 8)).
Proof.
  intros Hx. apply Z.bits_inj'. intros i Hi. rewrite Z.shiftr_spec, !testbit_swab32 by lia.
  repeat (case_test; try lia); rewrite ?testbit_wrap, ?Z.shiftl_spec by lia;
    repeat (case_test; try lia); simpl; try (f_equal; lia).
  by rewrite Z.testbit_neg_r by lia.
Qed.

Lemma swab32_low x y : fits 32 x -> Z.land (Z.lxor (swab32 x) y) 255 = Z.land (Z.lxor (Z.shiftr x 24) y) 255.
Proof.
  intros Hx. change 255 with (Z.ones 8). bitwise i Hi. rewrite testbit_swab32 by done.
  destruct (Z.ltb_spec i 8); [done|]. by rewrite !andb_false_r.
Qed.

Lemma crc32_le_byte crc x : fits 8 x -> DO_CRC crc32table_le crc x = lsb_byte CRCPOLY_LE crc x.
Proof.
  intros Hx. unfold DO_CRC. rewrite lsb_byte_table, Z.lxor_comm by done. f_equal.
  apply crc32table_le_ok, fits_low_byte.
Qed.

Lemma crc32_be_byte crc x :
  fits 32 crc -> fits 8 x ->
  DO_CRC crc32table_be (swab32 crc) x = swab32 (msb_byte 32 CRCPOLY_BE crc x).
Proof.
  intros Hc Hx. unfold DO_CRC. rewrite msb_byte_table by (done || lia).
  rewrite swab32_lxor, Z.lxor_comm, swab32_shift by done. f_equal.
  rewrite swab32_low by done. apply crc32table_be_ok, fits_low_byte.
Qed.

Lemma crc32_be_fold l crc :
  fits 32 crc -> Forall (fits 8) l ->
  foldl (DO_CRC crc32table_be) (swab32 crc) l = swab32 (crc_msb 32 CRCPOLY_BE crc l) /\
  fits 32 (crc_msb 32 CRCPOLY_BE crc l).
Proof.
  revert crc. induction l as [|x l IH]; intros crc Hc Hl; simpl; [done|].
  apply Forall_cons in Hl as [Hx Hl]. rewrite crc32_be_byte by done.
  apply IH; [by apply fits_msb_byte|done].
Qed.

(** ** The properties *)

(** Every table driven CRC of lib/ equals the division of the message by its
    polynomial, one bit at a time, for every initial value and every buffer:
    CRC-16 (0x8005 reflected), CRC-CCITT (0x1021 reflected), CRC-ITU-T (0x1021)
    and T10-DIF (0x8bb7). *)
Theorem crc_tables_divide m p l :
  arr m p l -> Forall (fits 8) l ->
  (forall crc, crc16 crc p (Z.of_nat (length l)) m = Ok (crc_lsb 0xa001 crc l, m)) /\
  (forall crc, crc_ccitt crc p (Z.of_nat (length l)) m = Ok (crc_lsb 0x8408 crc l, m)) /\
  (forall crc, fits 16 crc ->
     crc_itu_t crc p (Z.of_nat (length l)) m = Ok (crc_msb 16 0x1021 crc l, m)) /\
  crc_t10dif p (Z.of_nat (length l)) m = Ok (crc_msb 16 0x8bb7 0 l, m).
Proof.
  intros Harr Hl. unfold crc16, crc_ccitt, crc_itu_t. split; [|split; [|split]].
  - intros crc. rewrite while_len_ok by done. do 2 f_equal.
    apply (foldl_steps (fun _ => True)); [|done|done]. auto using crc16_byte_ok.
  - intros crc. rewrite while_len_ok by done. do 2 f_equal.
    apply (foldl_steps (fun _ => True)); [|done|done]. auto using crc_ccitt_byte_ok.
  - intros crc Hc. rewrite while_len_ok by done. do 2 f_equal.
    apply (foldl_steps (fits 16)); [|done|done].
    intros c x Hc' Hx. split; [by apply crc_itu_t_byte_ok|by apply fits_msb_byte].
  - by apply crc_t10dif_loop.
Qed.

(** The check value of CRC-16/ARC: "123456789" gives 0xbb3d. *)
Lemma crc_tables_divide_witness :
  let m := memory [(100, [49; 50; 51; 52; 53; 54; 55; 56; 57])] in
  crc16 0 100 9 m = Ok (0xbb3d, m).
Proof.
  intros m. destruct (crc_tables_divide m 100 [49; 50; 51; 52; 53; 54; 55; 56; 57]) as [H _].
  - mem_check.
  - repeat constructor; vm_compute; congruence.
  - exact (H 0).
Defined.

(** CRC-7 never indexes outside its 256 entry table and keeps to 7 bits when
    it starts from a 7-bit value, and is the remainder modulo x^7 + x^3 + 1. *)
Theorem crc7_divides m p l crc :
  arr m p l -> Forall (fits 8) l -> fits 7 crc ->
  exists r, crc7 crc p (Z.of_nat (length l)) m = Ok (r, m) /\ fits 7 r /\
    Z.shiftl r 1 = crc_msb 8 0x12 (Z.shiftl crc 1) l /\
    forall l1 x l2, l = l1 ++ x :: l2 -> fits 8 (Z.lxor (Z.shiftl (foldl crc7_byte crc l1) 1) x).
Proof.
  intros Harr Hl Hc. exists (foldl crc7_byte crc l). split; [apply while_len_ok; done|].
  assert (forall l crc, Forall (fits 8) l -> fits 7 crc ->
    fits 7 (foldl crc7_byte crc l) /\
    Z.shiftl (foldl crc7_byte crc l) 1 = crc_msb 8 0x12 (Z.shiftl crc 1) l) as H.
  { clear. induction l as [|x l IH]; intros crc Hl Hc; simpl; [done|].
    apply Forall_cons in Hl as [Hx Hl]. destruct (crc7_byte_ok crc x Hc Hx) as (_ & E & Hf).
    rewrite <- E. by apply IH. }
  destruct (H l crc Hl Hc) as [Hf E]. split; [done|]. split; [done|]. intros l1 x l2 ->.
  apply Forall_app in Hl as [Hl1 Hx]. apply Forall_cons in Hx as [Hx _].
  apply crc7_index; [by apply H|done].
Qed.

Lemma crc7_divides_witness :
  let m := memory [(100, [0x40; 0; 0; 0; 0])] in
  exists r, crc7 0 100 5 m = Ok (r, m) /\ fits 7 r.
Proof.
  intros m. destruct (crc7_divides m 100 [0x40; 0; 0; 0; 0] 0) as (r & E & Hr & _).
  - mem_check.
  - repeat constructor; vm_compute; congruence.
  - vm_compute. split; congruence.
  - exists r. split; [exact E|exact Hr].
Defined.

(** C27: crc32_le and crc32_be, which process a buffer of any alignment bytewise up
    to a word boundary, then by 32-bit words, then the rest, with the tables that
    gen_crc32table.c generates, equal the bitwise CRC of the whole buffer. *)
Theorem crc32_divides m p l crc :
  arr m p l -> Forall (fits 8) l -> fits 32 crc ->
  crc32_le crc p (Z.of_nat (length l)) m = Ok (crc_lsb CRCPOLY_LE crc l, m) /\
  crc32_be crc p (Z.of_nat (length l)) m = Ok (crc_msb 32 CRCPOLY_BE crc l, m).
Proof.
  intros Harr Hl Hc. split.
  - unfold crc32_le. rewrite crc32_body_ok by done. do 2 f_equal.
    apply (foldl_steps (fun _ => True)); [|done|done]. auto using crc32_le_byte.
  - unfold crc32_be. erewrite bind_Ok by (by apply crc32_body_ok).
    destruct (crc32_be_fold l crc Hc Hl) as [-> Hf]. unfold mret, M_ret. by rewrite swab32_invol.
Qed.

(** The check value of CRC-32: "123456789" gives the complement of 0xcbf43926. *)
Lemma crc32_divides_witness :
  let m := memory [(101, [49; 50; 51; 52; 53; 54; 55; 56; 57])] in
  crc32_le 0xffffffff 101 9 m = Ok (0xffffffff - 0xcbf43926, m).
Proof.
  intros m.
  destruct (crc32_divides m 101 [49; 50; 51; 52; 53; 54; 55; 56; 57] 0xffffffff) as [H _].
  - mem_check.
  - repeat constructor; vm_compute; congruence.
  - vm_compute. split; congruence.
  - exact H.
Defined.

Lemma fits_lsb_iter n poly c : fits 32 poly -> fits 32 c -> fits 32 (iter n (lsb_step poly) c).
Proof.
  intros Hp. revert c. induction n as [|n IH]; intros c Hc; simpl; [done|]. apply IH.
  unfold lsb_step. apply fits_lxor; [lia|by apply fits_shiftr|]. by destruct (Z.testbit c 0).
Qed.

(** The little-endian bytes of a 32-bit value. *)
Definition le_bytes (x : Z) : list Z :=
  [Z.land x 255; Z.land (Z.shiftr x 8) 255; Z.land (Z.shiftr x 16) 255; Z.land (Z.shiftr x 24) 255].

(** Feeding the register its own low byte shifts it down. *)
Lemma lsb_byte_self poly c : lsb_byte poly c (Z.land c 255) = Z.shiftr c 8.
Proof.
  rewrite lsb_byte_table by apply fits_low_byte.
  replace (Z.land (Z.lxor c (Z.land c 255)) 255) with 0.
  - replace (iter 8 (lsb_step poly) 0) with 0 by done. apply Z.lxor_0_r.
  - change 255 with (Z.ones 8). bitwise i Hi. destruct (Z.testbit c i), ((0 <=? i) && (i <? 8)); done.
Qed.

(** A message followed by its own CRC (least significant byte first) has CRC
    zero, the check that the tutorial in lib/crc32.c describes. *)
Theorem crc32_residue m p l crc :
  arr m p (l ++ le_bytes (crc_lsb CRCPOLY_LE crc l)) -> Forall (fits 8) l -> fits 32 crc ->
  crc32_le crc p (Z.of_nat (length l + 4)) m = Ok (0, m).
Proof.
  intros Harr Hl Hc. set (r := crc_lsb CRCPOLY_LE crc l) in *.
  assert (0 <= r < 2 ^ 32) as Hr.
  { enough (fits 32 r) by done. unfold r, crc_lsb. apply (foldl_steps (fits 32) (lsb_byte CRCPOLY_LE)); [|done|done].
    intros c x Hc' Hx. split; [done|]. unfold lsb_byte. apply fits_lsb_iter; [done|].
    apply fits_lxor; [lia|done|]. by apply fits_weaken with 8. }
  replace (Z.of_nat (length l + 4)) with (Z.of_nat (length (l ++ le_bytes r)))
    by (rewrite length_app; done).
  unfold crc32_le. rewrite crc32_body_ok; [|done|].
  2: { apply Forall_app. split; [done|]. repeat constructor; apply fits_low_byte. }
  do 2 f_equal. rewrite (proj1 (foldl_steps (fun _ => True) _ (lsb_byte CRCPOLY_LE)
    ltac:(auto using crc32_le_byte) (l ++ le_bytes r) crc I
    ltac:(apply Forall_app; split; [done|repeat constructor; apply fits_low_byte]))).
  rewrite foldl_app. fold (crc_lsb CRCPOLY_LE crc l). fold r. simpl.
  rewrite lsb_byte_self, lsb_byte_self, !Z.shiftr_shiftr, lsb_byte_self by lia.
  rewrite !Z.shiftr_shiftr, lsb_byte_self, !Z.shiftr_shiftr by lia.
  rewrite Z.shiftr_div_pow2 by lia. by apply Z.div_small.
Qed.

Lemma crc32_residue_witness :
  let m := memory [(100, [1; 2; 3] ++ le_bytes (crc_lsb CRCPOLY_LE 0 [1; 2; 3]))] in
  crc32_le 0 100 7 m = Ok (0, m).
Proof.
  intros m. apply (crc32_residue m 100 [1; 2; 3] 0).
  - mem_check.
  - repeat constructor; vm_compute; congruence.
  - vm_compute. split; congruence.
Defined.

(** Bit [i] of [x] goes to bit [n - 1 - i]. *)
Definition reversed (n x y : Z) : Prop :=
  fits n y /\ forall i, 0 <= i < n -> Z.testbit y i = Z.testbit x (n - 1 - i).

Lemma bitrev8_ok x : fits 8 x -> reversed 8 x (bitrev8 x).
Proof.
  intros Hx. enough ((0 <=? bitrev8 x) && (bitrev8 x <? 256) &&
    forallb (fun i => eqb (Z.testbit (bitrev8 x) i) (Z.testbit x (7 - i))) (seqZ 0 8) = true) as H.
  { apply andb_true_iff in H as [Hf Hb]. rewrite forallb_forall in Hb. split; [unfold fits; lia|].
    intros i Hi. apply eqb_prop, Hb, list_elem_of_In, elem_of_seqZ. lia. }
  revert x Hx. apply (byte_forall (fun x => (0 <=? bitrev8 x) && (bitrev8 x <? 256) &&
    forallb (fun i => eqb (Z.testbit (bitrev8 x) i) (Z.testbit x (7 - i))) (seqZ 0 8))). by vm_compute.
Qed.

(** Two halves reversed and exchanged. *)
Lemma reversed_halves n x lo hi :
  0 <= n -> fits (2 * n) x ->
  reversed n (Z.land x (Z.ones n)) lo -> reversed n (Z.shiftr x n) hi ->
  reversed (2 * n) x (Z.lor (Z.shiftl lo n) hi).
Proof.
  intros Hn Hx [Fl Hl] [Fh Hh]. split.
  - apply fits_lor; [lia| |by apply fits_weaken with n; [lia|]].
    unfold fits in *. rewrite Z.shiftl_mul_pow2 by lia.
    replace (2 ^ (2 * n)) with (2 ^ n * 2 ^ n) by (rewrite <- Z.pow_add_r by lia; f_equal; lia). nia.
  - intros i Hi. rewrite Z.lor_spec, Z.shiftl_spec by lia. destruct (Z.lt_ge_cases i n).
    + rewrite Z.testbit_neg_r, orb_false_l, Hh, Z.shiftr_spec by lia. f_equal. lia.
    + rewrite (fits_testbit_high n hi i), orb_false_r, Hl, Z.land_spec, Ztestbit_ones by (done || lia).
      decide_tests. rewrite andb_true_r. f_equal. lia.
Qed.

Lemma fits_low n x : 0 <= n -> fits n (Z.land x (Z.ones n)).
Proof. intros. rewrite Z.land_ones by done. by apply wrap_fits. Qed.

Lemma fits_high n x : 0 <= n -> fits (2 * n) x -> fits n (Z.shiftr x n).
Proof.
  intros Hn Hx. unfold fits in *. rewrite Z.shiftr_div_pow2 by lia.
  replace (2 ^ (2 * n)) with (2 ^ n * 2 ^ n) in Hx by (rewrite <- Z.pow_add_r by lia; f_equal; lia).
  split; [apply Z.div_pos; lia|apply Z.div_lt_upper_bound; lia].
Qed.

Lemma bitrev16_ok x : fits 16 x -> reversed 16 x (bitrev16 x).
Proof.
  intros Hx. change (reversed (2 * 8) x
    (Z.lor (Z.shiftl (bitrev8 (Z.land x (Z.ones 8))) 8) (bitrev8 (Z.shiftr x 8)))).
  apply reversed_halves; [lia|done|apply bitrev8_ok|apply bitrev8_ok].
  - by apply fits_low.
  - by apply fits_high.
Qed.

(** Bitrev8, bitrev16 and bitrev32 (lib/bitrev.c) reverse the bits of a byte,
    of a 16-bit and of a 32-bit value. *)
Theorem bitrev_reverses x :
  fits 32 x ->
  reversed 32 x (bitrev32 x) /\
  (fits 16 x -> reversed 16 x (bitrev16 x)) /\ (fits 8 x -> reversed 8 x (bitrev8 x)).
Proof.
  intros Hx. split; [|auto using bitrev16_ok, bitrev8_ok].
  change (reversed (2 * 16) x
    (Z.lor (Z.shiftl (bitrev16 (Z.land x (Z.ones 16))) 16) (bitrev16 (Z.shiftr x 16)))).
  apply reversed_halves; [lia|done|apply bitrev16_ok|apply bitrev16_ok].
  - by apply fits_low.
  - by apply fits_high.
Qed.

Lemma bitrev_reverses_witness : reversed 32 0x12345678 (bitrev32 0x12345678) /\ bitrev32 0x12345678 = 0x1e6a2c48.
Proof. split; [apply bitrev_reverses; vm_compute; split; congruence|reflexivity]. Defined.

(** The polynomial of crc_itu_t_table is x^16 + x^12 + x^5 + 1: the table is
    not the one of x^16 + x^12 + x^15 + 1, which the comments name. *)
Theorem crc_itu_t_polynomial :
  aref crc_itu_t_table 1 = msb_byte 16 (2 ^ 12 + 2 ^ 5 + 1) 0 1 /\
  aref crc_itu_t_table 1 <> msb_byte 16 (2 ^ 12 + 2 ^ 15 + 1) 0 1.
Proof. split; [reflexivity|vm_compute; congruence]. Qed.
