(* ===== verification/Sort.v ===== *)
(** * Heap sort: lib/sort.c

    The in-place heap sort of an array of [num] elements of [size] bytes each,
    with the comparison and the exchange of elements as function arguments.  The
    counters are pre-scaled by the element size, as in the code; they are ints,
    and the comparisons with [size], a size_t, are unsigned.

    [Section Heap] is the argument on lists; [Section Sort] carries it over to
    the byte memory, against [Compare] and [Swap], the interfaces of the two
    function arguments.  The exchange routines of the file implement [Swap]. *)

From S2P Require Import Prelude Blocks.

#[local] Arguments loop : simpl never.

(** ** The routines *)

Definition u32_swap (a b size : Z) : M unit :=
  t ← load_le32 a;
  v ← load_le32 b;
  store_le32 a v ;;
  store_le32 b t.

Definition generic_swap (a b size : Z) : M unit :=
  loop (S (Z.to_nat size)) (fun '(a, b, size) =>
    t ← load a;
    v ← load b;
    store a v ;;
    store b t ;;
    let size := size - 1 in
    if 0 <? size then continue (a + 1, b + 1, size) else break tt) (a, b, size).

(** The loop [for (r = i; r * 2 + size < n; r = c)], which sort runs in both of its
    phases. *)
Definition sift_down (cmp_func : Z -> Z -> M Z) (swap_func : Z -> Z -> Z -> M unit)
    (base size n i : Z) : M unit :=
  loop (S (Z.to_nat n)) (fun r =>
    if u32 (r * 2 + size) <? u32 n then
      let c := s32 (r * 2 + size) in
      c ← (if u32 c <? u32 (n - size) then
             d ← cmp_func (base + c) (base + c + size);
             mret (if d <? 0 then s32 (c + size) else c)
           else mret c);
      d ← cmp_func (base + r) (base + c);
      if 0 <=? d then break tt else
      swap_func (base + r) (base + c) size ;;
      continue c
    else break tt) i.

Definition sort (base num size : Z) (cmp_func : Z -> Z -> M Z)
    (swap_func : option (Z -> Z -> Z -> M unit)) : M unit :=
  let i := s32 (u32 (u32 (num / 2 - 1) * size)) in
  let n := s32 (u32 (num * size)) in
  let swap_func := default (if size =? 4 then u32_swap else generic_swap) swap_func in
  loop (S (Z.to_nat (i + 1))) (fun i =>
    if 0 <=? i then
      sift_down cmp_func swap_func base size n i ;;
      continue (s32 (i - size))
    else break tt) i ;;
  loop (S (Z.to_nat (n + 1))) (fun i =>
    if 0 <? i then
      swap_func base (base + i) size ;;
      sift_down cmp_func swap_func base size i 0 ;;
      continue (s32 (i - size))
    else break tt) (s32 (n - size)).

(** ** Heaps in lists *)

Section Heap.
Context {A : Type} `{!Inhabited A} (le : A -> A -> Prop).
Context (le_refl : forall x, le x x) (le_trans : forall x y z, le x y -> le y z -> le x z).
Implicit Types l : list A.

(** Exchange of two elements. *)
Definition exchange (i j : nat) l : list A := <[i := l !!! j]> (<[j := l !!! i]> l).

Lemma exchange_length i j l : length (exchange i j l) = length l.
Proof using Type. unfold exchange. by rewrite !length_insert. Qed.

Lemma exchange_lookup i j l k :
  (i < length l)%nat -> (j < length l)%nat ->
  exchange i j l !!! k = if decide (k = i) then l !!! j else if decide (k = j) then l !!! i else l !!! k.
Proof using Type.
  intros Hi Hj. unfold exchange. destruct (decide (k = i)) as [->|Hki].
  - apply list_lookup_total_insert_eq. by rewrite length_insert.
  - rewrite list_lookup_total_insert_ne by done. destruct (decide (k = j)) as [->|Hkj].
    + by apply list_lookup_total_insert_eq.
    + by rewrite list_lookup_total_insert_ne.
Qed.

Lemma exchange_perm i j l :
  (i < length l)%nat -> (j < length l)%nat -> exchange i j l ≡ₚ l.
Proof using Type.
  intros Hi Hj. apply Permutation_insert_swap; by apply list_lookup_lookup_total_lt.
Qed.

Definition child (p c : nat) : Prop := (c = 2 * p + 1 \/ c = 2 * p + 2)%nat.

(** The first [n] elements are ordered as a heap below the parents from [lo] on. *)
Definition heap (lo n : nat) l : Prop :=
  forall p c, (lo <= p)%nat -> child p c -> (c < n)%nat -> le (l !!! c) (l !!! p).

(** ... except that the element at [r] may be smaller than its children. *)
Definition heap_except (lo n r : nat) l : Prop :=
  (forall p c, (lo <= p)%nat -> child p c -> (c < n)%nat -> p <> r -> le (l !!! c) (l !!! p)) /\
  (forall g c, (lo <= g)%nat -> child g r -> child r c -> (c < n)%nat -> le (l !!! c) (l !!! g)).

Lemma heap_open lo n l : heap (S lo) n l -> heap_except lo n lo l.
Proof using Type.
  intros H. split; unfold child in *.
  - intros p c Hp Hc Hn Hne. apply H; [lia|done|done].
  - intros g c Hg Hc. lia.
Qed.

Lemma heap_close lo n r l :
  heap_except lo n r l -> (forall c, child r c -> (c < n)%nat -> le (l !!! c) (l !!! r)) -> heap lo n l.
Proof using Type.
  intros [H _] Hr p c Hp Hc Hn. destruct (decide (p = r)) as [->|]; auto.
Qed.

Lemma heap_shorter lo n n' l : (n' <= n)%nat -> heap lo n l -> heap lo n' l.
Proof using Type. intros Hn H p c Hp Hc Hc'. apply H; [done|done|lia]. Qed.

(** One step down, to the larger child. *)
Lemma heap_down lo n r c l :
  (n <= length l)%nat -> (lo <= r)%nat -> heap_except lo n r l -> child r c -> (c < n)%nat ->
  (forall d, child r d -> (d < n)%nat -> le (l !!! d) (l !!! c)) -> le (l !!! r) (l !!! c) ->
  heap_except lo n c (exchange r c l).
Proof using le_refl.
  intros Hn Hlo [H1 H2] Hc Hcn Hmax Hle. assert (r < c)%nat by (unfold child in Hc; lia). split.
  - intros p d Hp Hd Hdn Hne. rewrite !exchange_lookup by lia.
    destruct (decide (p = r)) as [->|Hpr]; [rewrite (decide_False (P := d = r)) by (unfold child in *; lia)|].
    + destruct (decide (d = c)); auto.
    + destruct (decide (p = c)); [done|]. destruct (decide (d = r)) as [->|].
      * by apply H2.
      * destruct (decide (d = c)) as [->|]; [|by apply H1]. unfold child in *. lia.
  - intros g d Hg Hgc Hcd Hdn. assert (g = r) as -> by (unfold child in *; lia).
    rewrite !exchange_lookup by lia. rewrite (decide_True (P := r = r)) by done.
    rewrite !decide_False by (unfold child in *; lia). apply H1; [lia|done|done|lia].
Qed.

(** The root of a heap is its maximum. *)
Lemma heap_root n l k : heap 0 n l -> (k < n)%nat -> le (l !!! k) (l !!! 0%nat).
Proof using le_refl le_trans.
  intros H. induction k as [k IH] using lt_wf_ind. intros Hk. destruct (decide (k = 0%nat)) as [->|]; [done|].
  assert (child ((k - 1) / 2)%nat k) as Hc.
  { unfold child. pose proof (Nat.div_mod (k - 1) 2). pose proof (Nat.mod_upper_bound (k - 1) 2). lia. }
  assert ((k - 1) / 2 < k)%nat by (unfold child in Hc; lia).
  apply le_trans with (l !!! ((k - 1) / 2)%nat); [by apply H; [lia|..]|]. apply IH; lia.
Qed.

(** Moving the root behind the heap. *)
Lemma heap_extract n l :
  (n < length l)%nat -> heap 0 (S n) l -> heap_except 0 n 0 (exchange 0 n l).
Proof using Type.
  intros Hn H. split.
  - intros p c _ Hc Hcn Hp. rewrite !exchange_lookup by lia.
    rewrite !decide_False by (unfold child in *; lia). apply H; [lia|done|lia].
  - intros g c _ Hg. unfold child in Hg. lia.
Qed.

(** What the second phase has reached: from [n] on the list is sorted, and nothing
    before [n] is larger than anything from [n] on. *)
Definition sorted_from (n : nat) l : Prop :=
  forall i j, (i < j)%nat -> (n <= j < length l)%nat -> le (l !!! i) (l !!! j).

Lemma sorted_from_exchange n i j l :
  sorted_from n l -> (i < n)%nat -> (j < n)%nat -> (n <= length l)%nat -> sorted_from n (exchange i j l).
Proof using Type.
  intros H Hi Hj Hn a b Hab Hb. rewrite exchange_length in Hb. rewrite !exchange_lookup by lia.
  rewrite (decide_False (P := b = i)), (decide_False (P := b = j)) by lia.
  destruct (decide (a = i)); [apply H; lia|]. destruct (decide (a = j)); apply H; lia.
Qed.

Lemma sorted_from_extract n l :
  sorted_from (S n) l -> heap 0 (S n) l -> (n < length l)%nat -> sorted_from n (exchange 0 n l).
Proof using le_refl le_trans.
  intros H Hh Hn a b Hab Hb. rewrite exchange_length in Hb. rewrite !exchange_lookup by lia.
  rewrite (decide_False (P := b = 0%nat)) by lia. destruct (decide (b = n)) as [->|].
  - destruct (decide (a = 0%nat)); [apply heap_root with (S n); [done|lia]|].
    rewrite decide_False by lia. apply heap_root with (S n); [done|lia].
  - destruct (decide (a = 0%nat)); [apply H; lia|]. destruct (decide (a = n)); apply H; lia.
Qed.
End Heap.

(** ** The interfaces of the function arguments *)

(** A comparison reads the two elements it is given and orders them totally. *)
Class Compare (size : Z) (cmp_func : Z -> Z -> M Z) := {
  cmp : list Z -> list Z -> Z;
  cmp_ok m p q x y : arr m p x -> arr m q y -> block size x -> block size y ->
    cmp_func p q m = Ok (cmp x y, m);
  cmp_flip x y : cmp x y < 0 <-> 0 < cmp y x;
  cmp_trans x y z : cmp x y <= 0 -> cmp y z <= 0 -> cmp x z <= 0;
}.

(** An exchange routine exchanges the bytes of two elements. *)
Class Swap (size : Z) (swap_func : Z -> Z -> Z -> M unit) :=
  swap_ok m p q x y : arr m p x -> arr m q y -> block size x -> block size y -> apart p q size ->
    swap_func p q size m = Ok (tt, write (write m p y) q x).

#[export] Instance u32_swap_ok : Swap 4 u32_swap.
Proof.
  intros m p q x y Hp Hq Bx By Hd. pose proof Bx as [Lx Fx]. pose proof By as [Ly Fy].
  unfold u32_swap. unfold apart in Hd.
  rewrite (bind_Ok _ _ _ _ _ (load_le32_ok _ _ _ Hp ltac:(lia))).
  rewrite (bind_Ok _ _ _ _ _ (load_le32_ok _ _ _ Hq ltac:(lia))).
  rewrite (bind_Ok _ _ _ _ _ (store_le32_ok _ _ _ (arr_block_mapped _ _ _ Hp Bx))).
  rewrite store_le32_ok by (by apply mapped_write, (arr_block_mapped _ _ y)).
  by rewrite !to_of_le32 by (done || lia).
Qed.

#[export] Instance generic_swap_ok size : 0 < size -> Swap size generic_swap.
Proof.
  intros Hs m p q x y Hp Hq [Lx _] [Ly _] Hd. unfold generic_swap, apart in *.
  rewrite <- Lx in *. rewrite Nat2Z.id.
  generalize (le_n (length x)). generalize (length x) at 2 3 as fuel. intros fuel Hf.
  clear Lx. revert y m p q fuel Hs Hp Hq Ly Hd Hf.
  induction x as [|u x IH]; intros [|v y] m p q fuel Hs Hp Hq Ly Hd Hf; simpl in *; try lia.
  destruct fuel as [|fuel]; [lia|]. apply arr_cons in Hp as [Hu Hp], Hq as [Hv Hq].
  rewrite loop_S, bind_bind, (bind_load _ u), bind_bind, (bind_load _ v) by done.
  rewrite bind_bind, bind_store by (by exists u).
  rewrite bind_bind, bind_store by (rewrite lookup_insert_ne by lia; by exists v). cbv zeta.
  replace (Z.of_nat (S (length x)) - 1) with (Z.of_nat (length x)) by lia.
  destruct (Z.ltb_spec 0 (Z.of_nat (length x))) as [Hl|Hl]; rewrite bind_ret.
  - etransitivity; [apply (IH y); [lia| | |lia|lia|lia]|].
    + by do 2 (apply arr_insert_ne; [lia|]).
    + by do 2 (apply arr_insert_ne; [lia|]).
    + f_equal. f_equal. rewrite (write_insert_comm _ (p + 1)) by lia. f_equal.
  - destruct x; [|simpl in Hl; lia]. by destruct y; [|simpl in Ly; lia].
Qed.

(** ** The sort in memory *)

Lemma cmp_refl {size f} {HC : Compare size f} x : cmp x x <= 0.
Proof. pose proof (cmp_flip x x). lia. Qed.

Section Sort.
Context (base size : Z) (cmp_func : Z -> Z -> M Z) (swap_func : Z -> Z -> Z -> M unit).
Context {HC : Compare size cmp_func} {HS : Swap size swap_func}.
Context (m : mem) (xs : list (list Z)).
Hypotheses (Hsize : 0 < size <= 2 ^ 30) (Hxs : Forall (block size) xs) (Hbound : size * Z.of_nat (length xs) <= 2 ^ 30)
  (Hmem : arr m base (concat xs)).

Abbreviation N := (length xs).
Abbreviation le := (fun x y => cmp x y <= 0).
(** The memory with the elements in the order [l]. *)
Abbreviation with_order l := (write m base (concat l)).
Abbreviation at_ k := (base + size * Z.of_nat k).

Section Order.
Context (l : list (list Z)) (Hl : l ≡ₚ xs).

Lemma order_length : length l = N.
Proof using Hl. by rewrite Hl. Qed.

Lemma order_blocks : Forall (block size) l.
Proof using Hl Hxs. by rewrite Hl. Qed.

Lemma order_lookup k : (k < N)%nat -> l !! k = Some (l !!! k).
Proof using Hl. intros Hk. apply list_lookup_lookup_total_lt. by rewrite order_length. Qed.

Lemma order_block k : (k < N)%nat -> block size (l !!! k).
Proof using Hl Hxs. intros Hk. apply (Forall_lookup_1 _ l k); [apply order_blocks|by apply order_lookup]. Qed.

Lemma order_arr k : (k < N)%nat -> arr (with_order l) (at_ k) (l !!! k).
Proof using Hl Hxs.
  intros Hk. apply (arr_block _ _ l); [apply order_blocks|apply write_arr|by apply order_lookup].
Qed.

Lemma order_cmp i j : (i < N)%nat -> (j < N)%nat ->
  cmp_func (at_ i) (at_ j) (with_order l) = Ok (cmp (l !!! i) (l !!! j), with_order l).
Proof using Hl Hxs. intros. apply cmp_ok; auto using order_arr, order_block. Qed.

Lemma order_swap i j : (i < N)%nat -> (j < N)%nat -> i <> j ->
  swap_func (at_ i) (at_ j) size (with_order l) = Ok (tt, with_order (exchange i j l)).
Proof using All.
  intros Hi Hj Hij. rewrite (swap_ok _ _ _ (l !!! i) (l !!! j)); auto using order_arr, order_block.
  - f_equal. f_equal. unfold exchange. rewrite (list_insert_insert_ne _ i j) by done.
    rewrite (write_nth _ _ _ i (l !!! i)) by auto using order_blocks, order_lookup, order_block.
    apply (write_nth _ _ _ j (l !!! j)); auto using order_block.
    + apply Forall_insert; auto using order_blocks, order_block.
    + rewrite list_lookup_insert_ne by done. by apply order_lookup.
  - unfold apart. nia.
Qed.
End Order.

(** Scaled counters do not overflow. *)
Lemma scaled_small k : (k <= N)%nat -> 0 <= size * Z.of_nat k <= 2 ^ 30.
Proof using All. nia. Qed.

Lemma scaled_lt a b : size * Z.of_nat a < size * Z.of_nat b <-> (a < b)%nat.
Proof using All. nia. Qed.

Lemma u32_small z : 0 <= z < 2 ^ 32 -> u32 z = z.
Proof using All. apply wrap_id. Qed.

(** The larger child of [k]. *)
Lemma wp_larger_child l n k Q :
  l ≡ₚ xs -> (n <= N)%nat -> (2 * k + 1 < n)%nat ->
  (forall c, child k c -> (c < n)%nat -> (forall d, child k d -> (d < n)%nat -> le (l !!! d) (l !!! c)) ->
     Q (size * Z.of_nat c) (with_order l)) ->
  let c := size * Z.of_nat (2 * k + 1) in
  wp (if u32 c <? u32 (size * Z.of_nat n - size) then
        d ← cmp_func (base + c) (base + c + size);
        mret (if d <? 0 then s32 (c + size) else c)
      else mret c) Q (with_order l).
Proof using All.
  intros Hl Hn Hk HQ c. pose proof (scaled_small n Hn) as Hs. pose proof (scaled_lt (2 * k + 1) n) as Hc.
  replace (size * Z.of_nat n - size) with (size * Z.of_nat (n - 1)) by lia.
  rewrite !u32_small by (unfold c in *; nia).
  destruct (Z.ltb_spec c (size * Z.of_nat (n - 1))) as [H|H].
  - apply scaled_lt in H. replace (base + c) with (base + size * Z.of_nat (2 * k + 1)) by done.
    replace (base + size * Z.of_nat (2 * k + 1) + size) with (base + size * Z.of_nat (2 * k + 2)) by lia.
    apply wp_bind. eapply wp_det; [apply order_cmp; [done|lia|lia]|]. apply wp_ret.
    set (x := l !!! (2 * k + 1)%nat). set (y := l !!! (2 * k + 2)%nat). pose proof (cmp_flip x y).
    destruct (Z.ltb_spec (cmp x y) 0).
    + replace (s32 (c + size)) with (size * Z.of_nat (2 * k + 2)).
      * apply HQ; [unfold child; lia|lia|]. intros d [->| ->] Hd; fold x y; [lia|apply cmp_refl].
      * rewrite swrap_id; unfold c; nia.
    + apply HQ; [unfold child; lia|lia|]. intros d [->| ->] Hd; fold x y; [apply cmp_refl|].
      pose proof (cmp_flip y x). lia.
  - apply wp_ret. apply HQ; [unfold child; lia|lia|]. intros d [->| ->] Hd; [apply cmp_refl|].
    assert (~ (2 * k + 1 < n - 1)%nat) by (rewrite <- scaled_lt; lia). lia.
Qed.

Lemma wp_sift l0 lo n :
  l0 ≡ₚ xs -> (lo < n <= N)%nat -> heap_except le lo n lo l0 ->
  wp (sift_down cmp_func swap_func base size (size * Z.of_nat n) (size * Z.of_nat lo))
    (fun _ m' => exists l, m' = with_order l /\ l ≡ₚ xs /\ heap le lo n l /\
       (sorted_from le n l0 -> sorted_from le n l)) (with_order l0).
Proof using All.
  intros Hl0 Hlo Hheap. unfold sift_down.
  apply (wp_loop (fun r m' => exists k l, r = size * Z.of_nat k /\ m' = with_order l /\ l ≡ₚ xs /\
      (lo <= k < n)%nat /\ heap_except le lo n k l /\ (sorted_from le n l0 -> sorted_from le n l))
    (fun r => Z.to_nat (size * Z.of_nat n - r))).
  - exists lo, l0. split; [done|]. split; [done|]. split; [done|]. split; [lia|]. done.
  - lia.
  - intros r m' (k & l & -> & -> & Hl & Hk & Hh & Hs). pose proof (order_length l Hl) as HN.
    pose proof (scaled_small n ltac:(lia)) as Hsn. pose proof (scaled_lt k n) as Hkn.
    replace (size * Z.of_nat k * 2 + size) with (size * Z.of_nat (2 * k + 1)) by lia.
    rewrite !u32_small by nia. destruct (Z.ltb_spec (size * Z.of_nat (2 * k + 1)) (size * Z.of_nat n)) as [H|H].
    + apply scaled_lt in H. cbv zeta. rewrite swrap_id by nia. apply wp_bind.
      apply wp_larger_child; [done|lia|done|]. intros c Hc Hcn Hmax. apply wp_bind.
      eapply wp_det; [apply order_cmp; [done|lia|lia]|].
      destruct (Z.leb_spec 0 (cmp (l !!! k) (l !!! c))) as [Hle|Hlt].
      * apply wp_ret. exists l. split; [done|]. split; [done|]. split; [|done].
        apply (heap_close _ lo n k l); [done|]. intros d Hd Hdn.
        apply (cmp_trans _ (l !!! c)); [auto|]. pose proof (cmp_flip (l !!! k) (l !!! c)).
        pose proof (cmp_flip (l !!! c) (l !!! k)). lia.
      * apply wp_bind. assert (k < c)%nat by (unfold child in Hc; lia).
        eapply wp_det; [apply order_swap; [done|lia|lia|lia]|]. apply wp_ret. split.
        -- exists c, (exchange k c l). split; [done|]. split; [done|].
           split; [rewrite exchange_perm by lia; done|]. split; [lia|].
           split; [apply heap_down; auto using cmp_refl with lia|].
           intros Hs0. apply sorted_from_exchange; auto with lia.
        -- apply scaled_lt in Hcn. pose proof (proj2 (scaled_lt k c)). lia.
    + apply wp_ret. exists l. split; [done|]. split; [done|]. split; [|done].
      apply (heap_close _ lo n k l); [done|]. intros d Hd Hdn. unfold child in Hd.
      pose proof (proj2 (scaled_lt (2 * k + 1) n)). lia.
Qed.

(** Both phases, with the exchange routine [swap_func]. *)
Lemma wp_heapify :
  wp (loop (S (Z.to_nat (s32 (u32 (u32 (Z.of_nat N / 2 - 1) * size)) + 1))) (fun i =>
    if 0 <=? i then
      sift_down cmp_func swap_func base size (size * Z.of_nat N) i ;;
      continue (s32 (i - size))
    else break tt) (s32 (u32 (u32 (Z.of_nat N / 2 - 1) * size))))
    (fun _ m' => exists l, m' = with_order l /\ l ≡ₚ xs /\ heap le 0 N l) m.
Proof using All.
  set (h := (N / 2)%nat). assert (Z.of_nat N / 2 = Z.of_nat h) as Eh by (unfold h; by rewrite Nat2Z.inj_div).
  pose proof (Nat.div_mod N 2 ltac:(lia)) as Hdm. pose proof (Nat.mod_upper_bound N 2 ltac:(lia)) as Hmod. fold h in Hdm.
  pose proof (scaled_small N ltac:(lia)) as HsN.
  replace (s32 (u32 (u32 (Z.of_nat N / 2 - 1) * size))) with (size * (Z.of_nat h - 1)).
  2: { rewrite Eh, wrap_mul_l, swrap_wrap by lia. rewrite swrap_id by nia. ring. }
  apply (wp_loop (fun i m' => exists k l, i = size * (Z.of_nat k - 1) /\ (k <= h)%nat /\ m' = with_order l /\
      l ≡ₚ xs /\ heap le k N l) (fun i => Z.to_nat (i + 1))).
  - exists h, xs. split; [done|]. split; [lia|]. split; [by rewrite write_id|]. split; [done|].
    intros p c Hp Hc. unfold child in Hc. lia.
  - lia.
  - intros i m' (k & l & -> & Hk & -> & Hl & Hh). destruct (Z.leb_spec 0 (size * (Z.of_nat k - 1))) as [H|H].
    + destruct k as [|k]; [lia|]. replace (Z.of_nat (S k) - 1) with (Z.of_nat k) in * by lia.
      apply wp_bind. eapply wp_mono; [apply wp_sift; [done|lia|by apply heap_open]|].
      intros [] m' (l' & -> & Hl' & Hh' & _). apply wp_ret. pose proof (scaled_small k ltac:(lia)).
      rewrite swrap_id by nia. split; [|lia].
      exists k, l'. split; [lia|]. split; [lia|]. done.
    + apply wp_ret. exists l. assert (k = 0%nat) as -> by nia. done.
Qed.

Lemma wp_extract l0 :
  l0 ≡ₚ xs -> heap le 0 N l0 ->
  wp (loop (S (Z.to_nat (size * Z.of_nat N + 1))) (fun i =>
    if 0 <? i then
      swap_func base (base + i) size ;;
      sift_down cmp_func swap_func base size i 0 ;;
      continue (s32 (i - size))
    else break tt) (s32 (size * Z.of_nat N - size)))
    (fun _ m' => exists l, m' = with_order l /\ l ≡ₚ xs /\ sorted_from le 0 l) (with_order l0).
Proof using All.
  intros Hl0 Hh0. pose proof (scaled_small N ltac:(lia)) as HsN. rewrite swrap_id by nia.
  apply (wp_loop (fun i m' => exists k l, i = size * (Z.of_nat k - 1) /\ (k <= N)%nat /\ m' = with_order l /\
      l ≡ₚ xs /\ heap le 0 k l /\ sorted_from le k l) (fun i => Z.to_nat (i + size))).
  - exists N, l0. split; [lia|]. split; [done|]. split; [done|]. split; [done|]. split; [done|].
    intros i j Hij Hj. rewrite (order_length l0 Hl0) in Hj. lia.
  - lia.
  - intros i m' (k & l & -> & Hk & -> & Hl & Hh & Hs). pose proof (order_length l Hl) as HN.
    destruct (Z.ltb_spec 0 (size * (Z.of_nat k - 1))) as [H|H].
    + destruct k as [|k]; [lia|]. replace (Z.of_nat (S k) - 1) with (Z.of_nat k) in * by lia.
      assert (0 < k)%nat as Hk0 by nia. apply wp_bind.
      eapply wp_det; [rewrite <- (Z.add_0_r base) at 1; rewrite <- (Z.mul_0_r size);
        apply (order_swap l Hl 0 k); lia|].
      assert (exchange 0 k l ≡ₚ xs) as Hx by (by rewrite exchange_perm by lia).
      assert (heap_except le 0 k 0 (exchange 0 k l)) as He by (apply heap_extract; [lia|exact Hh]).
      pose proof (wp_sift _ 0 k Hx ltac:(lia) He) as Hsift. change (Z.of_nat 0) with 0 in Hsift.
      rewrite Z.mul_0_r in Hsift. apply wp_bind. eapply wp_mono; [exact Hsift|].
      intros [] m' (l' & -> & Hl' & Hh' & Hs'). apply wp_ret. pose proof (scaled_small k ltac:(lia)).
      rewrite swrap_id by nia. split; [|lia].
      exists k, l'. split; [lia|]. split; [lia|]. split; [done|]. split; [done|]. split; [done|].
      apply Hs', sorted_from_extract; [apply cmp_refl|intros ???; apply cmp_trans|done|done|lia].
    + apply wp_ret. exists l. split; [done|]. split; [done|]. assert (k <= 1)%nat by nia.
      intros i j Hij Hj. apply Hs; lia.
Qed.
End Sort.

(** C29: sort sorts.  For every element size, every comparison that is a total
    preorder and every exchange routine (the one passed, or the two of the file),
    it returns, the array holds a permutation of its elements in ascending order,
    and no byte outside the array changes. *)
Theorem sort_sorts base size cmp_func swap_func {HC : Compare size cmp_func} m xs :
  0 < size <= 2 ^ 30 -> Forall (block size) xs -> size * Z.of_nat (length xs) <= 2 ^ 30 ->
  arr m base (concat xs) -> (forall f, swap_func = Some f -> Swap size f) ->
  exists l, sort base (Z.of_nat (length xs)) size cmp_func swap_func m = Ok (tt, write m base (concat l)) /\
    l ≡ₚ xs /\ forall i j x y, (i < j)%nat -> l !! i = Some x -> l !! j = Some y -> cmp x y <= 0.
Proof.
  intros Hsize Hxs Hbound Hmem Hswap.
  set (f := default (if size =? 4 then u32_swap else generic_swap) swap_func).
  assert (Swap size f) as HS.
  { unfold f. destruct swap_func as [g|]; simpl; [by apply Hswap|].
    destruct (Z.eqb_spec size 4) as [->|]; [apply _|apply generic_swap_ok; lia]. }
  enough (wp (sort base (Z.of_nat (length xs)) size cmp_func swap_func) (fun _ m' => exists l,
    m' = write m base (concat l) /\ l ≡ₚ xs /\ sorted_from (fun x y => cmp x y <= 0) 0 l) m) as Hwp.
  { apply wp_run in Hwp as ([] & m' & Hrun & l & -> & Hl & Hs). exists l. split; [done|]. split; [done|].
    intros i j x y Hij Hx Hy. pose proof (Hs i j Hij) as Hle. apply lookup_lt_Some in Hy as Hj.
    rewrite !list_lookup_total_alt, Hx, Hy in Hle. apply Hle. lia. }
  unfold sort. fold f. cbv zeta. rewrite !swrap_wrap by lia.
  rewrite (swrap_id _ (Z.of_nat (length xs) * size)) by nia. rewrite (Z.mul_comm (Z.of_nat (length xs)) size).
  apply wp_bind. eapply wp_mono.
  { rewrite <- (swrap_wrap 32 (u32 _ * size)) by lia. by apply wp_heapify. }
  intros [] m' (l & -> & Hl & Hh). by apply wp_extract.
Qed.

(** Bytes compared as numbers. *)
Definition cmp_byte (p q : Z) : M Z :=
  x ← load p;
  y ← load q;
  mret (x - y).

#[export] Instance cmp_byte_ok : Compare 1 cmp_byte.
Proof.
  refine {| cmp := fun x y => hd 0 x - hd 0 y |}; [|lia..].
  intros m p q x y Hp Hq [Lx _] [Ly _].
  destruct x as [|a [|]]; [simpl in Lx; lia| |simpl in Lx; lia].
  destruct y as [|b [|]]; [simpl in Ly; lia| |simpl in Ly; lia].
  apply arr_cons in Hp as [Hp _], Hq as [Hq _]. unfold cmp_byte.
  by rewrite (bind_load _ a), (bind_load _ b).
Defined.

Lemma sort_sorts_witness :
  let m := memory [(100, [5; 3; 9; 1; 3])] in
  exists l, sort 100 5 1 cmp_byte None m = Ok (tt, write m 100 (concat l)) /\ l ≡ₚ [[5]; [3]; [9]; [1]; [3]].
Proof.
  destruct (sort_sorts 100 1 cmp_byte None (memory [(100, [5; 3; 9; 1; 3])]) [[5]; [3]; [9]; [1]; [3]])
    as (l & H1 & H2 & _); [lia|repeat constructor; lia|simpl; lia|mem_check|done|].
  exists l. exact (conj H1 H2).
Defined.

Example sort_words :
  sort 100 3 4 (fun p q => x ← load_le32 p; y ← load_le32 q; mret (x - y)) None
    (memory [(100, [5; 1; 0; 0; 3; 0; 0; 0; 4; 1; 0; 0])])
  = Ok (tt, memory [(100, [3; 0; 0; 0; 4; 1; 0; 0; 5; 1; 0; 0])]).
Proof. vm_compute. reflexivity. Qed.
