(* ===== verification/PrioHeap.v ===== *)
(** * The priority heap: lib/prio_heap.c

    A heap of at most [max] pointers that keeps the smallest elements it is given.
    The array lives in the memory of [Prelude], one cell per pointer; the
    comparison [gt] is a function argument of the heap, a relation on what the
    pointers point to, which does not change while they are in the heap. *)

From S2P Require Import Prelude Sort.

#[local] Arguments loop : simpl never.

Record ptr_heap := PtrHeap { ptrs : Z; max : Z; size : Z }.

(** [kmalloc size] is what the allocator returns, NULL when it fails. *)
Definition heap_init (kmalloc : Z -> Z) (bytes : Z) : Z * option ptr_heap :=
  let p := kmalloc bytes in
  if p =? NULL then (- ENOMEM, None) else (0, Some (PtrHeap p (bytes / 4) 0)).

Section Insert.
Context (gt : Z -> Z -> bool).

Definition heap_insert (heap : ptr_heap) (p : Z) : M (ptr_heap * Z) :=
  let ptrs := ptrs heap in
  if size heap <? max heap then
    pos ← loop (S (Z.to_nat (size heap))) (fun pos =>
      if 0 <? pos then
        parent ← load (ptrs + (pos - 1) / 2);
        if gt p parent then
          store (ptrs + pos) parent ;;
          continue ((pos - 1) / 2)
        else break pos
      else break pos) (size heap);
    store (ptrs + pos) p ;;
    mret (PtrHeap ptrs (max heap) (size heap + 1), NULL)
  else
    top ← load ptrs;
    if gt p top then mret (heap, p) else
    store ptrs p ;;
    loop (S (Z.to_nat (size heap))) (fun pos =>
      let left := 2 * pos + 1 in
      let right := 2 * pos + 2 in
      largest ← (if left <? size heap then
                   x ← load (ptrs + left);
                   mret (if gt x p then left else pos)
                 else mret pos);
      largest ← (if right <? size heap then
                   x ← load (ptrs + right);
                   y ← load (ptrs + largest);
                   mret (if gt x y then right else largest)
                 else mret largest);
      if largest =? pos then break tt else
      x ← load (ptrs + largest);
      store (ptrs + pos) x ;;
      store (ptrs + largest) p ;;
      continue largest) 0 ;;
    mret (heap, top).
End Insert.

(** ** Upwards in a heap *)

Section Up.
Context {A : Type} `{!Inhabited A} (le : A -> A -> Prop).
Context (le_refl : forall x, le x x) (le_trans : forall x y z, le x y -> le y z -> le x z).
Implicit Types l : list A.

(** The list is a heap, except that the element at [r] may be larger than its
    parent. *)
Definition heap_up (n r : nat) l : Prop :=
  (forall p c, child p c -> (c < n)%nat -> c <> r -> le (l !!! c) (l !!! p)) /\
  (forall g c, child g r -> child r c -> (c < n)%nat -> le (l !!! c) (l !!! g)).

Lemma parent_child r : (0 < r)%nat -> child ((r - 1) / 2) r.
Proof using Type.
  intros Hr. unfold child. pose proof (Nat.div_mod (r - 1) 2). pose proof (Nat.mod_upper_bound (r - 1) 2). lia.
Qed.

Lemma child_inj p q c : child p c -> child q c -> p = q.
Proof using Type. unfold child. lia. Qed.

Lemma heap_up_snoc l x : heap le 0 (length l) l -> heap_up (S (length l)) (length l) (l ++ [x]).
Proof using Type.
  intros H. split.
  - intros p c Hc Hn Hne. rewrite !lookup_total_app_l by (unfold child in *; lia). apply H; [lia|done|lia].
  - intros g c Hg Hc Hn. unfold child in *. lia.
Qed.

Lemma heap_up_step n r q l :
  (n <= length l)%nat -> (r < n)%nat -> child q r -> heap_up n r l -> le (l !!! q) (l !!! r) ->
  heap_up n q (exchange q r l).
Proof using le_refl le_trans.
  intros Hn Hr Hq [H1 H2] Hle. assert (q < r)%nat by (unfold child in Hq; lia). split.
  - intros p c Hc Hcn Hne. rewrite !exchange_lookup by lia. rewrite (decide_False (P := c = q)) by done.
    destruct (decide (c = r)) as [->|Hcr].
    + assert (p = q) as -> by (by apply (child_inj p q r)). by rewrite decide_True.
    + destruct (decide (p = q)) as [->|Hpq].
      * apply le_trans with (l !!! q); [|done]. by apply H1.
      * destruct (decide (p = r)) as [->|]; [by apply H2|]. by apply H1.
  - intros g c Hg Hc Hcn. rewrite !exchange_lookup by lia.
    rewrite (decide_False (P := c = q)) by (unfold child in *; lia).
    rewrite (decide_False (P := g = q)) by (unfold child in *; lia).
    rewrite (decide_False (P := g = r)) by (unfold child in *; lia).
    assert (le (l !!! q) (l !!! g)) by (apply H1; [done|lia|lia]).
    destruct (decide (c = r)); [done|]. apply le_trans with (l !!! q); [by apply H1|done].
Qed.

Lemma heap_up_end n r l :
  heap_up n r l -> (forall q, child q r -> le (l !!! r) (l !!! q)) -> heap le 0 n l.
Proof using Type.
  intros [H1 _] Hr p c _ Hc Hn. destruct (decide (c = r)) as [->|]; auto.
Qed.
End Up.

(** Overwriting one cell of an array. *)
Lemma insert_write m p l i v :
  (i < length l)%nat -> <[p + Z.of_nat i := v]> (write m p l) = write m p (<[i := v]> l).
Proof.
  intros Hi. destruct (lookup_lt_is_Some_2 l i Hi) as [x Hx].
  rewrite <- (take_drop_middle l i x Hx) at 1. rewrite (insert_take_drop _ _ _ Hi), !write_app. simpl.
  rewrite length_take_le by lia. rewrite <- !write_insert_comm by lia. f_equal. apply insert_insert_eq.
Qed.

(** ** Insertion *)

Section Laws.
Context (gt : Z -> Z -> bool).
Context (gt_asym : forall x y, gt x y = true -> gt y x = false).
Context (gt_trans : forall x y z, gt x y = false -> gt y z = false -> gt x z = false).
Abbreviation le := (fun x y => gt x y = false).

Lemma le_refl x : gt x x = false.
Proof using gt_asym. destruct (gt x x) eqn:E; [|done]. by rewrite <- E, gt_asym. Qed.

Lemma half_pred k : (0 < k)%nat -> (Z.of_nat k - 1) / 2 = Z.of_nat ((k - 1) / 2)%nat.
Proof using Type. intros. rewrite Nat2Z.inj_div. by replace (Z.of_nat (k - 1)) with (Z.of_nat k - 1) by lia. Qed.

Lemma load_cell m p (l : list Z) i : (i < length l)%nat -> load (p + Z.of_nat i) (write m p l) = Ok (l !!! i, write m p l).
Proof using Type.
  intros Hi. unfold load. rewrite lookup_write_in by lia.
  replace (Z.to_nat (p + Z.of_nat i - p)) with i by lia.
  by rewrite (list_lookup_lookup_total_lt l i Hi).
Qed.

Lemma store_cell m p (l : list Z) i v :
  (i < length l)%nat -> store (p + Z.of_nat i) v (write m p l) = Ok (tt, write m p (<[i := v]> l)).
Proof using Type.
  intros Hi. unfold store. rewrite <- insert_write by done. rewrite lookup_write_in by lia.
  replace (Z.to_nat (p + Z.of_nat i - p)) with i by lia. by rewrite (list_lookup_lookup_total_lt l i Hi).
Qed.

Lemma insert_room m h p l :
  arr m (ptrs h) l -> size h = Z.of_nat (length l) -> size h < max h -> mapped m (ptrs h) (max h) ->
  heap le 0 (length l) l ->
  exists l', l' ≡ₚ p :: l /\ heap le 0 (length l') l' /\
    heap_insert gt h p m = Ok ((PtrHeap (ptrs h) (max h) (size h + 1), NULL), write m (ptrs h) l').
Proof using gt_asym gt_trans.
  intros Ha Hsz Hroom Hm Hheap. destruct h as [a mx sz]. simpl in *. subst sz.
  destruct (Hm (a + Z.of_nat (length l))) as [g0 Hg0]; [lia|].
  assert (arr m a (l ++ [g0])) as Ha0 by (apply arr_app; split; [done|]; apply arr_cons; by split).
  enough (wp (heap_insert gt (PtrHeap a mx (Z.of_nat (length l))) p) (fun r m' => exists l',
    l' ≡ₚ p :: l /\ heap le 0 (length l') l' /\ m' = write m a l' /\
    r = (PtrHeap a mx (Z.of_nat (length l) + 1), NULL)) m) as Hwp.
  { apply wp_run in Hwp as (r & m' & -> & l' & H1 & H2 & -> & ->). by exists l'. }
  unfold heap_insert. simpl. replace (Z.of_nat (length l) <? mx) with true by lia. apply wp_bind.
  apply (wp_loop (fun pos m' => exists k l' g, pos = Z.of_nat k /\ (k < length l')%nat /\ l' !!! k = p /\
      l' ≡ₚ p :: l /\ heap_up le (length l') k l' /\ m' = write m a (<[k := g]> l')) Z.to_nat).
  - exists (length l), (l ++ [p]), g0. rewrite length_app. simpl.
    split; [done|]. split; [lia|]. split; [by rewrite lookup_total_app_r, Nat.sub_diag by lia|].
    split; [by rewrite Permutation_app_comm|].
    split; [rewrite Nat.add_1_r; by apply heap_up_snoc|].
    rewrite insert_app_r_alt, Nat.sub_diag by lia. simpl. by rewrite write_id.
  - lia.
  - intros pos m' (k & l' & g & -> & Hk & Hp & Hperm & Hup & ->).
    destruct (Z.ltb_spec 0 (Z.of_nat k)) as [H|H].
    + rewrite half_pred by lia. pose proof (parent_child k ltac:(lia)) as Hc.
      set (q := ((k - 1) / 2)%nat) in *. assert (q < k)%nat by (unfold child in Hc; lia).
      apply wp_bind. eapply wp_det; [apply load_cell; rewrite length_insert; lia|].
      rewrite list_lookup_total_insert_ne by lia. destruct (gt p (l' !!! q)) eqn:Egt.
      * apply wp_bind. eapply wp_det; [apply store_cell; rewrite length_insert; lia|]. apply wp_ret.
        rewrite list_insert_insert_eq. split; [|lia].
        exists q, (exchange q k l'), (l' !!! q). rewrite exchange_length.
        split; [done|]. split; [lia|]. split; [rewrite exchange_lookup, decide_True by lia; done|].
        split; [rewrite exchange_perm by lia; done|]. split.
        { apply heap_up_step; try done; [apply le_refl|]. rewrite Hp. by apply gt_asym. }
        unfold exchange. rewrite list_insert_insert_eq. f_equal. symmetry. apply list_insert_id.
        rewrite list_lookup_insert_ne by lia. apply list_lookup_lookup_total_lt. lia.
      * apply wp_ret. apply wp_bind. eapply wp_det; [apply store_cell; rewrite length_insert; lia|].
        apply wp_ret. rewrite list_insert_insert_eq, list_insert_id by (rewrite <- Hp; by apply list_lookup_lookup_total_lt).
        exists l'. split; [done|]. split; [|done].
        apply (heap_up_end _ _ k); [done|]. intros q' Hq'. by rewrite (child_inj _ _ _ Hq' Hc), Hp.
    + apply wp_ret. apply wp_bind. eapply wp_det; [apply store_cell; rewrite length_insert; lia|].
      apply wp_ret. rewrite list_insert_insert_eq, list_insert_id by (rewrite <- Hp; by apply list_lookup_lookup_total_lt).
      exists l'. split; [done|]. split; [|done].
      apply (heap_up_end _ _ k); [done|]. intros q Hq. unfold child in Hq. lia.
Qed.

(** The choice between an element and its children. *)
Lemma wp_largest m a l k p Q :
  (k < length l)%nat -> l !!! k = p ->
  (forall c, (c < length l)%nat -> c = k \/ child k c ->
     (forall d, child k d -> (d < length l)%nat -> le (l !!! d) (l !!! c)) -> le p (l !!! c) ->
     Q (Z.of_nat c) (write m a l)) ->
  let n := Z.of_nat (length l) in
  wp (largest ← (if 2 * Z.of_nat k + 1 <? n then
                   x ← load (a + (2 * Z.of_nat k + 1));
                   mret (if gt x p then 2 * Z.of_nat k + 1 else Z.of_nat k)
                 else mret (Z.of_nat k));
      if 2 * Z.of_nat k + 2 <? n then
        x ← load (a + (2 * Z.of_nat k + 2));
        y ← load (a + largest);
        mret (if gt x y then 2 * Z.of_nat k + 2 else largest)
      else mret largest) Q (write m a l).
Proof using gt_asym gt_trans.
  intros Hk Hp HQ n. apply wp_bind.
  apply wp_mono with (fun largest m' => m' = write m a l /\ exists c, largest = Z.of_nat c /\ (c < length l)%nat /\
    (c = k \/ c = 2 * k + 1)%nat /\ le p (l !!! c) /\
    ((2 * k + 1 < length l)%nat -> le (l !!! (2 * k + 1)%nat) (l !!! c))).
  - destruct (Z.ltb_spec (2 * Z.of_nat k + 1) n) as [H|H].
    + replace (2 * Z.of_nat k + 1) with (Z.of_nat (2 * k + 1)) by lia. apply wp_bind.
      eapply wp_det; [apply load_cell; lia|]. apply wp_ret. split; [done|].
      destruct (gt (l !!! (2 * k + 1)%nat) p) eqn:E.
      * exists (2 * k + 1)%nat. split; [done|]. split; [lia|]. split; [lia|]. split; [by apply gt_asym|].
        intros _. by apply le_refl.
      * exists k. split; [done|]. split; [done|]. split; [lia|]. rewrite Hp. split; [by apply le_refl|done].
    + apply wp_ret. split; [done|]. exists k. split; [done|]. split; [done|]. split; [lia|].
      rewrite Hp. split; [by apply le_refl|lia].
  - intros largest m' (-> & c & -> & Hc & Hck & Hpc & Hleft).
    destruct (Z.ltb_spec (2 * Z.of_nat k + 2) n) as [H|H].
    + replace (2 * Z.of_nat k + 2) with (Z.of_nat (2 * k + 2)) by lia. apply wp_bind.
      eapply wp_det; [apply load_cell; lia|]. apply wp_bind. eapply wp_det; [apply load_cell; lia|].
      apply wp_ret. destruct (gt (l !!! (2 * k + 2)%nat) (l !!! c)) eqn:E.
      * pose proof (gt_asym _ _ E) as E'. apply HQ; [lia|right; unfold child; lia| |by apply gt_trans with (l !!! c)].
        intros d [->| ->] Hd; [|by apply le_refl]. apply gt_trans with (l !!! c); auto.
      * apply HQ; [lia|unfold child; lia| |done]. intros d [->| ->] Hd; auto.
    + apply wp_ret. apply HQ; [lia|unfold child; lia| |done]. intros d [->| ->] Hd; [auto|lia].
Qed.

Lemma insert_full m h p l :
  arr m (ptrs h) l -> size h = Z.of_nat (length l) -> size h = max h -> l <> [] ->
  heap le 0 (length l) l ->
  exists l' r, r :: l' ≡ₚ p :: l /\ heap le 0 (length l') l' /\ (forall x, x ∈ l' -> le x r) /\
    heap_insert gt h p m = Ok ((h, r), write m (ptrs h) l').
Proof using gt_asym gt_trans.
  intros Ha Hsz Hfull Hne Hheap. destruct h as [a mx sz]. simpl in *. subst sz mx.
  set (n := length l) in *. assert (0 < n)%nat as Hn by (destruct l; [done|simpl in *; lia]).
  assert (forall v, load (a + 0) (write m a l) = Ok (l !!! 0%nat, write m a l) /\
    store (a + 0) v (write m a l) = Ok (tt, write m a (<[0%nat := v]> l))) as H0.
  { intros v. split; [apply (load_cell m a l 0 Hn)|apply (store_cell m a l 0 v Hn)]. }
  rewrite Z.add_0_r in H0. set (top := l !!! 0%nat) in *.
  enough (wp (heap_insert gt (PtrHeap a (Z.of_nat n) (Z.of_nat n)) p) (fun r m' => exists l' x,
    x :: l' ≡ₚ p :: l /\ heap le 0 (length l') l' /\ (forall y, y ∈ l' -> le y x) /\
    m' = write m a l' /\ r = (PtrHeap a (Z.of_nat n) (Z.of_nat n), x)) m) as Hwp.
  { apply wp_run in Hwp as (r & m' & -> & l' & x & H1 & H2 & H3 & -> & ->). by exists l', x. }
  match goal with |- wp ?c ?Q m => cut (wp c Q (write m a l)); [by rewrite (write_id m a l Ha)|] end.
  unfold heap_insert. simpl. rewrite Z.ltb_irrefl.
  assert (forall x, x ∈ l -> le x top) as Htop.
  { intros x [k Hx]%list_elem_of_lookup. pose proof (lookup_lt_Some _ _ _ Hx).
    apply list_lookup_total_correct in Hx as <-. by apply (heap_root le le_refl gt_trans n). }
  apply wp_bind. eapply wp_det; [apply (H0 0)|]. destruct (gt p top) eqn:Ep.
  { apply wp_ret. exists l, p. split; [done|]. split; [done|]. split; [|done]. intros x Hx.
    apply gt_trans with top; [auto|by apply gt_asym]. }
  apply wp_bind. eapply wp_det; [apply H0|]. apply wp_bind.
  apply (wp_loop (fun pos m' => exists k l', pos = Z.of_nat k /\ length l' = n /\ (k < n)%nat /\ l' !!! k = p /\
      top :: l' ≡ₚ p :: l /\ heap_except le 0 n k l' /\ m' = write m a l') (fun pos => Z.to_nat (Z.of_nat n - pos))).
  - exists 0%nat, (<[0%nat := p]> l). split; [done|]. split; [apply length_insert|]. split; [done|].
    split; [by apply list_lookup_total_insert_eq|]. split.
    { destruct l as [|x l0]; [done|]. simpl. constructor. }
    split; [|done]. split.
    + intros q c _ Hc Hcn Hq. rewrite !list_lookup_total_insert_ne by (unfold child in *; lia). by apply Hheap; [lia|..].
    + intros g c _ Hg. unfold child in Hg. lia.
  - lia.
  - intros pos m' (k & l' & -> & Hl & Hk & Hp & Hperm & Hex & ->). cbv zeta. rewrite <- Hl in *.
    apply wp_assoc. apply wp_bind. apply wp_largest; [done|done|]. intros c Hc Hck Hmax Hpc.
    destruct (Z.eqb_spec (Z.of_nat c) (Z.of_nat k)) as [E|E].
    + assert (c = k) as -> by lia. apply wp_ret. apply wp_ret. exists l', top. split; [done|].
      split; [by apply (heap_close _ 0 (length l') k)|]. split; [|done].
      intros x Hx. assert (x ∈ top :: l') as Hx' by (by right). rewrite Hperm in Hx'.
      apply elem_of_cons in Hx' as [->|]; auto.
    + destruct Hck as [|Hck]; [lia|]. assert (k < c)%nat by (unfold child in Hck; lia).
      apply wp_bind. eapply wp_det; [apply load_cell; lia|].
      apply wp_bind. eapply wp_det; [apply store_cell; lia|].
      apply wp_bind. eapply wp_det; [apply store_cell; rewrite length_insert; lia|]. apply wp_ret.
      assert (<[c := p]> (<[k := l' !!! c]> l') = exchange k c l') as ->.
      { unfold exchange. rewrite Hp. apply list_insert_insert_ne. lia. }
      split; [|lia]. exists c, (exchange k c l'). rewrite exchange_length.
      split; [done|]. split; [done|]. split; [done|].
      split; [rewrite exchange_lookup, decide_False, decide_True by lia; done|].
      split; [rewrite exchange_perm by lia; done|]. split; [|done].
      apply heap_down; try done; [intros; apply le_refl|lia|]. by rewrite Hp.
Qed.

(** The heap [h] in [m] holds the elements [l]. *)
Record heap_ok (m : mem) (h : ptr_heap) (l : list Z) : Prop := {
  ok_arr : arr m (ptrs h) l;
  ok_size : size h = Z.of_nat (length l);
  ok_max : 0 < max h /\ size h <= max h;
  ok_mapped : mapped m (ptrs h) (max h);
  ok_heap : heap le 0 (length l) l;
}.

Lemma heap_insert_ok m h l p :
  heap_ok m h l ->
  exists h' r l', heap_insert gt h p m = Ok ((h', r), write m (ptrs h) l') /\
    heap_ok (write m (ptrs h) l') h' l' /\ ptrs h' = ptrs h /\ max h' = max h /\
    (size h < max h -> r = NULL /\ l' ≡ₚ p :: l) /\
    (size h = max h -> r :: l' ≡ₚ p :: l /\ forall x, x ∈ l' -> le x r).
Proof using gt_asym gt_trans.
  intros [Ha Hsz Hmax Hm Hheap]. destruct (Z.lt_ge_cases (size h) (max h)) as [Hr|Hf].
  - destruct (insert_room m h p l) as (l' & Hl' & Hh & Hrun); try done.
    eexists _, NULL, l'. split; [exact Hrun|]. simpl. pose proof (Permutation_length Hl') as Hlen. simpl in Hlen.
    split; [|split; [done|split; [done|split; [done|lia]]]].
    split; simpl; [apply write_arr|lia|lia| |done]. intros a Haa. apply write_mapped. by apply Hm.
  - assert (l <> []) as Hne by (intros ->; simpl in Hsz; lia).
    destruct (insert_full m h p l) as (l' & r & Hl' & Hh & Hle & Hrun); try done; [lia|].
    eexists h, r, l'. split; [exact Hrun|]. pose proof (Permutation_length Hl') as Hlen. simpl in Hlen.
    split; [|split; [done|split; [done|split; [lia|done]]]].
    split; [apply write_arr|lia|lia| |done]. intros a Haa. apply write_mapped. by apply Hm.
Qed.

(** Inserting one element after the other; the result lists the elements that
    were dropped. *)
Fixpoint heap_insert_all (h : ptr_heap) (ps : list Z) : M (ptr_heap * list Z) :=
  match ps with
  | [] => mret (h, [])
  | p :: ps =>
      '(h, r) ← heap_insert gt h p;
      '(h, rs) ← heap_insert_all h ps;
      mret (h, if r =? NULL then rs else r :: rs)
  end.

Lemma insert_all_ok ps m h l ds :
  heap_ok m h l -> Forall (fun p => p <> NULL) (ps ++ l) ->
  (ds = [] \/ size h = max h) -> (forall x d, x ∈ l -> d ∈ ds -> le x d) ->
  exists h' rs l' m', heap_insert_all h ps m = Ok ((h', rs), m') /\
    heap_ok m' h' l' /\ max h' = max h /\ l' ++ rs ≡ₚ ps ++ l /\
    (size h' < max h' -> rs = []) /\
    (forall x d, x ∈ l' -> d ∈ rs ++ ds -> le x d).
Proof using gt_asym gt_trans.
  revert m h l ds. induction ps as [|p ps IH]; intros m h l ds Hok Hnn Hds Hle.
  { exists h, [], l, m. rewrite app_nil_r. done. }
  destruct (heap_insert_ok m h l p Hok) as (h1 & r & l1 & Hrun & Hok1 & _ & Hmax1 & Hroom & Hfull).
  pose proof (ok_size _ _ _ Hok) as Hsz. pose proof (ok_size _ _ _ Hok1) as Hsz1.
  pose proof (ok_max _ _ _ Hok) as [_ Hmax]. apply Forall_cons in Hnn as [Hp Hnn].
  destruct (Z.lt_ge_cases (size h) (max h)) as [Hr|Hf].
  - destruct (Hroom Hr) as [-> Hl1]. destruct Hds as [->|]; [|lia].
    destruct (IH _ h1 l1 [] Hok1) as (h' & rs & l' & m' & Hrun' & Hok' & Hmax' & Hperm & Hrs & Hle').
    { rewrite Hl1. apply Forall_app in Hnn as [??]. apply Forall_app. auto. }
    { by left. }
    { intros x d _ Hd. by apply elem_of_nil in Hd. }
    exists h', rs, l', m'. split.
    { simpl. rewrite (bind_Ok _ _ _ _ _ Hrun). by rewrite (bind_Ok _ _ _ _ _ Hrun'). }
    split; [done|]. split; [congruence|]. split; [|done]. rewrite Hperm, Hl1. simpl. by rewrite Permutation_middle.
  - assert (size h = max h) as Heq by lia. destruct (Hfull Heq) as [Hl1 Hbig].
    pose proof (Permutation_length Hl1) as Hlen. simpl in Hlen.
    assert (Forall (fun p => p <> NULL) (r :: l1)) as Hnn1.
    { rewrite Hl1. apply Forall_app in Hnn as [_ ?]. by constructor. }
    apply Forall_cons in Hnn1 as [Hrn Hnn1]. apply Forall_app in Hnn as [Hnps Hnl].
    destruct (IH _ h1 l1 (r :: ds) Hok1) as (h' & rs & l' & m' & Hrun' & Hok' & Hmax' & Hperm & Hrs & Hle').
    { by apply Forall_app. }
    { right. lia. }
    { intros x d Hx [->|Hd]%elem_of_cons; [auto|]. assert (r ∈ p :: l) as Hrin by (rewrite <- Hl1; by left).
      apply elem_of_cons in Hrin as [->|Hrin].
      - apply Permutation_cons_inv in Hl1. rewrite Hl1 in Hx. auto.
      - apply gt_trans with r; auto. }
    pose proof (ok_size _ _ _ Hok') as Hsz'. pose proof (ok_max _ _ _ Hok') as [_ Hm'].
    exists h', (r :: rs), l', m'. split.
    { simpl. rewrite (bind_Ok _ _ _ _ _ Hrun), (bind_Ok _ _ _ _ _ Hrun').
      replace (r =? NULL) with false by (symmetry; by apply Z.eqb_neq). done. }
    split; [done|]. split; [congruence|]. split.
    { rewrite <- Permutation_middle, Hperm. simpl. rewrite Permutation_middle, Hl1.
      by rewrite <- Permutation_middle. }
    split.
    + intros Hlt. exfalso. specialize (Hrs Hlt). subst rs. rewrite app_nil_r in Hperm.
      apply Permutation_length in Hperm. rewrite length_app in Hperm. lia.
    + intros x d Hx Hd. apply Hle'; [done|]. rewrite elem_of_app in Hd |- *. rewrite !elem_of_cons in *. tauto.
Qed.
End Laws.

(** The heap keeps the smallest elements.  Inserting any pointers one after
    the other into a heap of capacity [max], with any strict weak order, keeps the
    heap ordered and returns the pointers that were dropped: together with those
    kept they are what was inserted, none is dropped before the heap is full, and
    nothing kept is greater than anything dropped. *)
Theorem heap_keeps_smallest gt m a max ps :
  (forall x y, gt x y = true -> gt y x = false) ->
  (forall x y z, gt x y = false -> gt y z = false -> gt x z = false) ->
  0 < max -> mapped m a max -> Forall (fun p => p <> NULL) ps ->
  exists h kept dropped m', heap_insert_all gt (PtrHeap a max 0) ps m = Ok ((h, dropped), m') /\
    heap_ok gt m' h kept /\ kept ++ dropped ≡ₚ ps /\ (size h < max -> dropped = []) /\
    forall x d, x ∈ kept -> d ∈ dropped -> gt x d = false.
Proof.
  intros Hasym Htrans Hmax Hm Hps.
  destruct (insert_all_ok gt Hasym Htrans ps m (PtrHeap a max 0) [] [])
    as (h & rs & l & m' & Hrun & Hok & Hmax' & Hperm & Hrs & Hle).
  - split; simpl; [by intros ???|done|lia|done|]. intros p c _ _ Hc. lia.
  - by rewrite app_nil_r.
  - by left.
  - intros x d Hx. by apply elem_of_nil in Hx.
  - exists h, l, rs, m'. rewrite app_nil_r in Hperm. simpl in Hmax'. rewrite app_nil_r in Hle.
    rewrite Hmax' in Hrs. done.
Qed.

Lemma heap_keeps_smallest_witness :
  exists h kept dropped m', heap_insert_all Z.gtb (PtrHeap 100 3 0) [5; 3; 8; 1; 9; 2]
      (memory [(100, [0; 0; 0])]) = Ok ((h, dropped), m') /\ kept ++ dropped ≡ₚ [5; 3; 8; 1; 9; 2].
Proof.
  destruct (heap_keeps_smallest Z.gtb (memory [(100, [0; 0; 0])]) 100 3 [5; 3; 8; 1; 9; 2])
    as (h & kept & dropped & m' & H1 & _ & H2 & _).
  - intros x y. rewrite !Z.gtb_ltb. lia.
  - intros x y z. rewrite !Z.gtb_ltb. lia.
  - lia.
  - change 3 with (Z.of_nat 3). mem_check.
  - repeat constructor; done.
  - exists h, kept, dropped, m'. exact (conj H1 H2).
Defined.

Example heap_keeps_three :
  fst <$> (match heap_insert_all Z.gtb (PtrHeap 100 3 0) [5; 3; 8; 1; 9; 2] (memory [(100, [0; 0; 0])]) with
           | Ok r => Some r | Fault _ => None end)
  = Some (PtrHeap 100 3 3, [8; 9; 5]).
Proof. vm_compute. reflexivity. Qed.
