(* ===== verification/Rbtree.v ===== *)
(** * Red-black trees: lib/rbtree.c and include/linux/rbtree.h

    A node is three words at its address: rb_parent_color, rb_right and rb_left; the
    colour is bit 0 of the first.  The code of the file writes every case twice, with
    left and right exchanged; here a [side] selects the variant.  The memory is
    related to a tree with a place in it ([tree], [ctx]): the first part proves what
    the pointer operations do to such a zipper, the second that the loops restore
    the red-black invariant. *)

From S2P Require Import Prelude Cells.

#[local] Arguments loop : simpl never.

(** ** The code *)

Inductive side := Left | Right.
Definition opp (s : side) : side := match s with Left => Right | Right => Left end.

(** The offset of the child pointer in struct rb_node. *)
Definition off (s : side) : Z := match s with Left => 8 | Right => 4 end.

Definition RB_RED : Z := 0.
Definition RB_BLACK : Z := 1.

Definition rb_parent (r : Z) : M Z := pc ← load r; mret (Z.land pc 0xfffffffc).
Definition rb_color (r : Z) : M Z := pc ← load r; mret (Z.land pc 1).
Definition rb_is_red (r : Z) : M bool := c ← rb_color r; mret (c =? 0).
Definition rb_is_black (r : Z) : M bool := c ← rb_color r; mret (negb (c =? 0)).
Definition rb_set_red (r : Z) : M unit := pc ← load r; store r (Z.land pc 0xfffffffe).
Definition rb_set_black (r : Z) : M unit := pc ← load r; store r (Z.lor pc 1).
Definition rb_set_parent (rb p : Z) : M unit := pc ← load rb; store rb (Z.lor (Z.land pc 3) p).
Definition rb_set_color (rb color : Z) : M unit := pc ← load rb; store rb (Z.lor (Z.land pc 0xfffffffe) color).

(** [rb_link] is the address of the pointer that is to lead to the node. *)
Definition rb_link_node (node parent rb_link : Z) : M unit :=
  store node parent ;;
  store (node + off Right) NULL ;;
  store (node + off Left) NULL ;;
  store rb_link node.

(** Make the pointer that led to [node] lead to [new]; the code compares with the
    child on side [s] first. *)
Definition set_child (s : side) (root parent node new : Z) : M unit :=
  if negb (parent =? NULL) then
    c ← load (parent + off s);
    if node =? c then store (parent + off s) new else store (parent + off (opp s)) new
  else store root new.

(** __rb_rotate_left for [Left], __rb_rotate_right for [Right]. *)
Definition rotate (s : side) (node root : Z) : M unit :=
  right ← load (node + off (opp s));
  parent ← rb_parent node;
  child ← load (right + off s);
  store (node + off (opp s)) child ;;
  (if negb (child =? NULL) then c ← load (right + off s); rb_set_parent c node else mret tt) ;;
  store (right + off s) node ;;
  rb_set_parent right parent ;;
  set_child s root parent node right ;;
  rb_set_parent node right.

Definition __rb_rotate_left (node root : Z) : M unit := rotate Left node root.
Definition __rb_rotate_right (node root : Z) : M unit := rotate Right node root.

(** [p && rb_is_red(p)] and [!p || rb_is_black(p)]. *)
Definition is_red_node (p : Z) : M bool := if p =? NULL then mret false else rb_is_red p.
Definition is_black_node (p : Z) : M bool := if p =? NULL then mret true else rb_is_black p.

(** The body of the loop of rb_insert_color when the parent is the child of the
    grandparent on side [s]: the next node. *)
Definition insert_side (s : side) (node parent gparent root : Z) : M Z :=
  uncle ← load (gparent + off (opp s));
  red ← is_red_node uncle;
  if (red : bool) then
    rb_set_black uncle ;; rb_set_black parent ;; rb_set_red gparent ;; mret gparent
  else
    c ← load (parent + off (opp s));
    '(parent, node) ← (if c =? node then rotate s parent root ;; mret (node, parent)
                       else mret (parent, node));
    rb_set_black parent ;;
    rb_set_red gparent ;;
    rotate (opp s) gparent root ;;
    mret node.

(** Fuel for the loops: by [zrep_depth] a node of a red-black tree has less than 62
    ancestors, because a deeper tree has more than the 2^30 nodes that fit in memory. *)
Definition RB_DEPTH : nat := 64.

Definition rb_insert_color (node root : Z) : M unit :=
  loop RB_DEPTH (fun node =>
    parent ← rb_parent node;
    red ← is_red_node parent;
    if (red : bool) then
      gparent ← rb_parent parent;
      l ← load (gparent + off Left);
      node ← insert_side (if parent =? l then Left else Right) node parent gparent root;
      continue node
    else break tt) node ;;
  r ← load root;
  rb_set_black r.

(** The three parts of the loop of __rb_erase_color when the node is the child of
    the parent on side [s].  First a red sibling is rotated away: the new sibling. *)
Definition black_sibling (s : side) (other parent root : Z) : M Z :=
  red ← rb_is_red other;
  if (red : bool) then
    rb_set_black other ;; rb_set_red parent ;; rotate s parent root ;;
    load (parent + off (opp s))
  else mret other.

(** Then, unless both children of the sibling are black, its far child is made red. *)
Definition far_red (s : side) (other parent root : Z) : M Z :=
  far ← load (other + off (opp s));
  black ← is_black_node far;
  if (black : bool) then
    near ← load (other + off s);
    (if negb (near =? NULL) then rb_set_black near else mret tt) ;;
    rb_set_red other ;;
    rotate (opp s) other root ;;
    load (parent + off (opp s))
  else mret other.

(** And the sibling takes the place of the parent. *)
Definition erase_last (s : side) (other parent root : Z) : M Z :=
  color ← rb_color parent;
  rb_set_color other color ;;
  rb_set_black parent ;;
  far ← load (other + off (opp s));
  (if negb (far =? NULL) then rb_set_black far else mret tt) ;;
  rotate s parent root ;;
  load root.

(** The next node and parent, or the node the loop breaks with. *)
Definition erase_side (s : side) (parent root : Z) : M ((Z * Z) + Z) :=
  other ← load (parent + off (opp s));
  other ← black_sibling s other parent root;
  l ← load (other + off Left);
  lb ← is_black_node l;
  both ← (if (lb : bool) then r ← load (other + off Right); is_black_node r else mret false);
  if (both : bool) then
    rb_set_red other ;;
    parent' ← rb_parent parent;
    continue (parent, parent')
  else
    other ← far_red s other parent root;
    node ← erase_last s other parent root;
    break node.

Definition __rb_erase_color (node parent root : Z) : M unit :=
  node ← loop RB_DEPTH (fun '(node, parent) =>
    black ← is_black_node node;
    go ← (if (black : bool) then r ← load root; mret (negb (node =? r)) else mret false);
    if (go : bool) then
      l ← load (parent + off Left);
      erase_side (if l =? node then Left else Right) parent root
    else break node) (node, parent);
  if negb (node =? NULL) then rb_set_black node else mret tt.

(** [while (n->rb_left) n = n->rb_left;] and its mirror image. *)
Definition go_down (s : side) (n : Z) : M Z :=
  loop RB_DEPTH (fun n =>
    c ← load (n + off s);
    if c =? NULL then break n else continue c) n.

(** The case of rb_erase in which the node has two children: the successor takes
    its place; the child and parent for the colour repair and the colour lost. *)
Definition erase_two (old root : Z) : M (Z * Z * Z) :=
  node ← load (old + off Right);
  node ← go_down Left node;
  child ← load (node + off Right);
  parent ← rb_parent node;
  color ← rb_color node;
  (if negb (child =? NULL) then rb_set_parent child parent else mret tt) ;;
  parent ← (if parent =? old then store (parent + off Right) child ;; mret node
            else store (parent + off Left) child ;; mret parent);
  pc ← load old; store node pc ;;
  r ← load (old + off Right); store (node + off Right) r ;;
  l ← load (old + off Left); store (node + off Left) l ;;
  oparent ← rb_parent old;
  set_child Left root oparent old node ;;
  l ← load (old + off Left); rb_set_parent l node ;;
  r ← load (old + off Right);
  (if negb (r =? NULL) then rb_set_parent r node else mret tt) ;;
  mret (child, parent, color).

Definition rb_erase (node root : Z) : M unit :=
  left ← load (node + off Left);
  right ← load (node + off Right);
  '(child, parent, color) ←
    (if (left =? NULL) || (right =? NULL) then
       let child := if left =? NULL then right else left in
       parent ← rb_parent node;
       color ← rb_color node;
       (if negb (child =? NULL) then rb_set_parent child parent else mret tt) ;;
       set_child Left root parent node child ;;
       mret (child, parent, color)
     else erase_two node root);
  if color =? RB_BLACK then __rb_erase_color child parent root else mret tt.

(** rb_first for [Left], rb_last for [Right]. *)
Definition rb_end (s : side) (root : Z) : M Z :=
  n ← load root;
  if n =? NULL then mret NULL else go_down s n.
Definition rb_first (root : Z) : M Z := rb_end Left root.
Definition rb_last (root : Z) : M Z := rb_end Right root.

(** rb_next for [Right], rb_prev for [Left]. *)
Definition rb_step (s : side) (node : Z) : M Z :=
  parent ← rb_parent node;
  if parent =? node then mret NULL else
  c ← load (node + off s);
  if negb (c =? NULL) then go_down (opp s) c
  else
    loop RB_DEPTH (fun node =>
      parent ← rb_parent node;
      if parent =? NULL then break parent else
      c ← load (parent + off s);
      if node =? c then continue parent else break parent) node.
Definition rb_next (node : Z) : M Z := rb_step Right node.
Definition rb_prev (node : Z) : M Z := rb_step Left node.

Definition rb_replace_node (victim new root : Z) : M unit :=
  parent ← rb_parent victim;
  set_child Left root parent victim new ;;
  l ← load (victim + off Left);
  (if negb (l =? NULL) then rb_set_parent l new else mret tt) ;;
  r ← load (victim + off Right);
  (if negb (r =? NULL) then rb_set_parent r new else mret tt) ;;
  pc ← load victim; store new pc ;;
  r ← load (victim + off Right); store (new + off Right) r ;;
  l ← load (victim + off Left); store (new + off Left) l.

(** ** Trees and places in trees *)

Inductive color := Red | Black.
Definition cval (k : color) : Z := match k with Red => RB_RED | Black => RB_BLACK end.

Inductive tree := E | T (k : color) (l : tree) (a : Z) (r : tree).

Definition ptr (t : tree) : Z := match t with E => NULL | T _ _ a _ => a end.
Definition root_color (t : tree) : color := match t with E => Black | T k _ _ _ => k end.

(** [mk s k x a y]: the node [a] with [x] on side [s] and [y] on the other. *)
Definition mk (s : side) (k : color) (x : tree) (a : Z) (y : tree) : tree :=
  match s with Left => T k x a y | Right => T k y a x end.

(** A tree with a hole: [Fr s c k a y] is the place on side [s] of the node [a],
    whose other subtree is [y]. *)
Inductive ctx := Top | Fr (s : side) (c : ctx) (k : color) (a : Z) (y : tree).

Fixpoint plug (c : ctx) (t : tree) : tree :=
  match c with
  | Top => t
  | Fr s c k a y => plug c (mk s k t a y)
  end.

(** The nodes in order, and those before and after a place. *)
Fixpoint inorder (t : tree) : list Z :=
  match t with
  | E => []
  | T _ l a r => inorder l ++ a :: inorder r
  end.

Fixpoint before (c : ctx) : list Z :=
  match c with
  | Top => []
  | Fr Left c _ _ _ => before c
  | Fr Right c _ a y => before c ++ inorder y ++ [a]
  end.

Fixpoint after (c : ctx) : list Z :=
  match c with
  | Top => []
  | Fr Left c _ a y => a :: inorder y ++ after c
  | Fr Right c _ _ _ => after c
  end.

Lemma inorder_plug c t : inorder (plug c t) = before c ++ inorder t ++ after c.
Proof.
  revert t. induction c as [|s c IH k a y]; intros t; simpl; [by rewrite app_nil_r|].
  rewrite IH. destruct s; simpl; by rewrite <- ?app_assoc.
Qed.

Lemma mk_opp s k x a y : mk (opp s) k x a y = mk s k y a x.
Proof. by destruct s. Qed.

Lemma ptr_mk s k x a y : ptr (mk s k x a y) = a.
Proof. by destruct s. Qed.

Lemma root_color_mk s k x a y : root_color (mk s k x a y) = k.
Proof. by destruct s. Qed.

Lemma opp_opp s : opp (opp s) = s.
Proof. by destruct s. Qed.

(** ** The cells of a tree *)

Definition parent_of (c : ctx) : Z := match c with Top => NULL | Fr _ _ _ a _ => a end.

Fixpoint entries (p : Z) (t : tree) : list (Z * Z) :=
  match t with
  | E => []
  | T k l a r => [(a, p + cval k)] ++ [(a + off Right, ptr r)] ++ [(a + off Left, ptr l)] ++ entries a l ++ entries a r
  end.

(** An address a node can have: a multiple of 4 below 2^32 that is not NULL. *)
Definition node_addr (a : Z) : Prop := 0 < a < 2 ^ 32 /\ a mod 4 = 0.

Section Root.
Context (root : Z).

(** The address of the pointer to the hole. *)
Definition link (c : ctx) : Z := match c with Top => root | Fr s _ _ a _ => a + off s end.

Fixpoint centries (c : ctx) : list (Z * Z) :=
  match c with
  | Top => []
  | Fr s c k a y =>
      [(a, parent_of c + cval k)] ++ [(a + off (opp s), ptr y)] ++ entries a y ++ [(link c, a)] ++ centries c
  end.

Fixpoint all_nodes (P : Z -> Prop) (t : tree) : Prop :=
  match t with
  | E => True
  | T _ l a r => P a /\ all_nodes P l /\ all_nodes P r
  end.

Fixpoint call_nodes (P : Z -> Prop) (c : ctx) : Prop :=
  match c with
  | Top => True
  | Fr _ c _ a y => P a /\ all_nodes P y /\ call_nodes P c
  end.

(** The memory holds [plug c t], and besides it the cells [F]. *)
Definition zrep (m : mem) (c : ctx) (t : tree) (F : list (Z * Z)) : Prop :=
  cells m ([(link c, ptr t)] ++ entries (parent_of c) t ++ centries c ++ F) /\
  all_nodes node_addr t /\ call_nodes node_addr c.

Lemma entries_mk p s k x a y :
  entries p (mk s k x a y) ≡ₚ
    [(a, p + cval k)] ++ [(a + off s, ptr x)] ++ [(a + off (opp s), ptr y)] ++ entries a x ++ entries a y.
Proof. destruct s; simpl; perm. Qed.

Lemma all_nodes_mk P s k x a y : all_nodes P (mk s k x a y) <-> P a /\ all_nodes P x /\ all_nodes P y.
Proof. destruct s; simpl; tauto. Qed.

(** Moving the place one level. *)
Lemma zrep_frame m s c k a x y F : zrep m (Fr s c k a y) x F <-> zrep m c (mk s k x a y) F.
Proof.
  unfold zrep. rewrite entries_mk, all_nodes_mk. cbn [link parent_of centries call_nodes]. rewrite ptr_mk.
  assert ([(a + off s, ptr x)] ++ entries a x ++
     ([(a, parent_of c + cval k)] ++ [(a + off (opp s), ptr y)] ++ entries a y ++ [(link c, a)] ++ centries c) ++ F ≡ₚ
     [(link c, a)] ++ ([(a, parent_of c + cval k)] ++ [(a + off s, ptr x)] ++ [(a + off (opp s), ptr y)] ++
       entries a x ++ entries a y) ++ centries c ++ F) as -> by perm.
  tauto.
Qed.

Lemma zrep_plug m c t F : zrep m c t F <-> zrep m Top (plug c t) F.
Proof. revert t. induction c as [|s c IH k a y]; intros t; [done|]. simpl. by rewrite zrep_frame. Qed.

(** The place of the sibling. *)
Lemma zrep_sibling m s c k a x y F : zrep m (Fr s c k a y) x F <-> zrep m (Fr (opp s) c k a x) y F.
Proof. by rewrite !zrep_frame, mk_opp. Qed.
End Root.

(** ** The word that holds the parent and the colour *)

Definition parent_addr (p : Z) : Prop := 0 <= p < 2 ^ 32 /\ p mod 4 = 0.

Lemma node_parent_addr a : node_addr a -> parent_addr a.
Proof. intros [H1 H2]. split; [lia|done]. Qed.

Lemma node_not_null a : node_addr a -> a <> NULL.
Proof. intros [H _]. unfold NULL. lia. Qed.

Lemma parent_of_addr c : call_nodes node_addr c -> parent_addr (parent_of c).
Proof. destruct c; simpl; [by split|]. intros [H _]. by apply node_parent_addr. Qed.

Lemma mod_4_2 p : p mod 4 = 0 -> p mod 2 = 0.
Proof.
  intros H. pose proof (Z.div_mod p 4 ltac:(lia)). replace p with (2 * (p / 4) * 2) by lia. apply Z_mod_mult.
Qed.

Lemma pc_lor p k : parent_addr p -> p + cval k = Z.lor p (cval k).
Proof.
  intros [Hp Hm]. pose proof (Z.add_lor_land p (cval k)) as H.
  assert (Z.land p (cval k) = 0); [|lia]. destruct k; [apply Z.land_0_r|].
  change (cval Black) with (Z.ones 1). rewrite Z.land_ones by lia. by apply mod_4_2.
Qed.

Lemma land_low_parent p : parent_addr p -> Z.land p 3 = 0 /\ Z.land p 1 = 0.
Proof.
  intros [Hp Hm]. change 3 with (Z.ones 2). change 1 with (Z.ones 1). rewrite !Z.land_ones by lia.
  split; [done|by apply mod_4_2].
Qed.

Lemma land_high_parent p : parent_addr p -> Z.land p 0xfffffffc = p /\ Z.land p 0xfffffffe = p.
Proof.
  intros Hp. pose proof (land_low_parent p Hp) as [H3 H1]. destruct Hp as [Hp _].
  assert (Z.land p (Z.ones 32) = p) as Hall by (rewrite Z.land_ones by lia; apply Z.mod_small; lia).
  split.
  - rewrite <- Hall at 2. change (Z.ones 32) with (Z.lor 0xfffffffc 3).
    by rewrite Z.land_lor_distr_r, H3, Z.lor_0_r.
  - rewrite <- Hall at 2. change (Z.ones 32) with (Z.lor 0xfffffffe 1).
    by rewrite Z.land_lor_distr_r, H1, Z.lor_0_r.
Qed.

Section Word.
Context (p : Z) (k : color) (Hp : parent_addr p).

Lemma pc_parent : Z.land (p + cval k) 0xfffffffc = p.
Proof using Hp.
  rewrite pc_lor, Z.land_lor_distr_l, (proj1 (land_high_parent p Hp)) by done. by destruct k; rewrite Z.lor_0_r.
Qed.

Lemma pc_color : Z.land (p + cval k) 1 = cval k.
Proof using Hp. rewrite pc_lor, Z.land_lor_distr_l, (proj2 (land_low_parent p Hp)) by done. by destruct k. Qed.

Lemma pc_set_red : Z.land (p + cval k) 0xfffffffe = p + cval Red.
Proof using Hp.
  rewrite pc_lor, Z.land_lor_distr_l, (proj2 (land_high_parent p Hp)) by done.
  destruct k; rewrite Z.lor_0_r; unfold cval, RB_RED; lia.
Qed.

Lemma pc_set_black : Z.lor (p + cval k) 1 = p + cval Black.
Proof using Hp. rewrite !pc_lor, <- Z.lor_assoc by done. by destruct k. Qed.

Lemma pc_set_parent q : parent_addr q -> Z.lor (Z.land (p + cval k) 3) q = q + cval k.
Proof using Hp.
  intros Hq. rewrite !pc_lor, Z.land_lor_distr_l, (proj1 (land_low_parent p Hp)) by done.
  rewrite (Z.lor_comm q). by destruct k.
Qed.

Lemma pc_set_color k' : Z.lor (Z.land (p + cval k) 0xfffffffe) (cval k') = p + cval k'.
Proof using Hp. rewrite pc_set_red. change (cval Red) with 0. by rewrite Z.add_0_r, pc_lor. Qed.
End Word.

(** ** The operations on a node at a place *)

Section Ops.
Context (root : Z).
Abbreviation zrep := (zrep root).
Implicit Types (c : ctx) (F : list (Z * Z)).

Lemma zrep_node m s c k x a y F :
  zrep m c (mk s k x a y) F ->
  cells m ([(a, parent_of c + cval k)] ++ [(a + off s, ptr x)] ++ [(a + off (opp s), ptr y)] ++
    [(link root c, a)] ++ entries a x ++ entries a y ++ centries root c ++ F) /\
  node_addr a /\ parent_addr (parent_of c) /\ all_nodes node_addr x /\ all_nodes node_addr y /\ call_nodes node_addr c.
Proof using.
  intros (Hm & Ht & Hc). rewrite ptr_mk, entries_mk in Hm. apply all_nodes_mk in Ht as (Ha & Hx & Hy). split.
  - cells_by Hm.
  - auto using parent_of_addr.
Qed.

(** A node is an [mk] on either side. *)
Lemma T_mk k l a r : T k l a r = mk Left k l a r.
Proof using. done. Qed.

Lemma wp_rb_parent m s c k x a y F Q :
  zrep m c (mk s k x a y) F -> Q (parent_of c) m -> wp (rb_parent a) Q m.
Proof using.
  intros (Hm & _ & Hp & _)%zrep_node HQ. apply wp_bind. cell_load Hm. apply wp_ret. by rewrite pc_parent.
Qed.

Lemma wp_rb_color m s c k x a y F Q :
  zrep m c (mk s k x a y) F -> Q (cval k) m -> wp (rb_color a) Q m.
Proof using.
  intros (Hm & _ & Hp & _)%zrep_node HQ. apply wp_bind. cell_load Hm. apply wp_ret. by rewrite pc_color.
Qed.

Lemma wp_child m s c k x a y F Q :
  zrep m c (mk s k x a y) F -> Q (ptr x) m -> wp (load (a + off s)) Q m.
Proof using. intros (Hm & _)%zrep_node HQ. by cell_load Hm. Qed.

(** Changing the colour alone. *)
Lemma wp_recolor m s c k k' x a y F w Q :
  zrep m c (mk s k x a y) F -> w = parent_of c + cval k' ->
  (forall m', zrep m' c (mk s k' x a y) F -> Q tt m') -> wp (store a w) Q m.
Proof using.
  intros (Hm & Ha & Hp & Hx & Hy & Hc)%zrep_node -> HQ. cell_store Hm. apply HQ. split.
  - rewrite ptr_mk, entries_mk. cells_by Hm.
  - by rewrite all_nodes_mk.
Qed.

Lemma wp_set_black m s c k x a y F Q :
  zrep m c (mk s k x a y) F -> (forall m', zrep m' c (mk s Black x a y) F -> Q tt m') -> wp (rb_set_black a) Q m.
Proof using.
  intros H HQ. pose proof (zrep_node _ _ _ _ _ _ _ _ H) as (Hm & _ & Hp & _). apply wp_bind. cell_load Hm.
  eapply wp_recolor; [exact H|by apply pc_set_black|exact HQ].
Qed.

Lemma wp_set_red m s c k x a y F Q :
  zrep m c (mk s k x a y) F -> (forall m', zrep m' c (mk s Red x a y) F -> Q tt m') -> wp (rb_set_red a) Q m.
Proof using.
  intros H HQ. pose proof (zrep_node _ _ _ _ _ _ _ _ H) as (Hm & _ & Hp & _). apply wp_bind. cell_load Hm.
  eapply wp_recolor; [exact H|by apply pc_set_red|exact HQ].
Qed.

Lemma wp_set_color m s c k k' x a y F Q :
  zrep m c (mk s k x a y) F -> (forall m', zrep m' c (mk s k' x a y) F -> Q tt m') ->
  wp (rb_set_color a (cval k')) Q m.
Proof using.
  intros H HQ. pose proof (zrep_node _ _ _ _ _ _ _ _ H) as (Hm & _ & Hp & _). apply wp_bind. cell_load Hm.
  eapply wp_recolor; [exact H|by apply pc_set_color|exact HQ].
Qed.

(** [if (t) rb_set_parent(t, q)] for a detached subtree. *)
Lemma wp_reparent m t p q R Q :
  cells m (entries p t ++ R) -> all_nodes node_addr t -> parent_addr p -> parent_addr q ->
  (forall m', cells m' (entries q t ++ R) -> Q tt m') ->
  wp (if negb (ptr t =? NULL) then rb_set_parent (ptr t) q else mret tt) Q m.
Proof using.
  intros Hm Ht Hp Hq HQ. destruct t as [|k l a r]; simpl; [by apply HQ|]. destruct Ht as (Ha & _).
  apply node_not_null in Ha. rewrite (proj2 (Z.eqb_neq _ _)) by done.
  rewrite T_mk, entries_mk, <- ?app_assoc in Hm. apply wp_bind. cell_load Hm. rewrite pc_set_parent by done.
  cell_store Hm. apply HQ. rewrite T_mk, entries_mk. cells_by Hm.
Qed.

(** The same where the code reads the pointer again. *)
Lemma wp_reparent_at m t p q u R Q :
  cells m ([(u, ptr t)] ++ entries p t ++ R) -> all_nodes node_addr t -> parent_addr p -> parent_addr q ->
  (forall m', cells m' ([(u, ptr t)] ++ entries q t ++ R) -> Q tt m') ->
  wp (if negb (ptr t =? NULL) then c ← load u; rb_set_parent c q else mret tt) Q m.
Proof using.
  intros Hm Ht Hp Hq HQ. assert (cells m (entries p t ++ [(u, ptr t)] ++ R)) as Hm'.
  { cells_by Hm. }
  eapply wp_reparent in Hm' as Hw; [|done..|intros m' H'; apply HQ; cells_by H'].
  destruct (negb (ptr t =? NULL)); [|done]. apply wp_bind. by cell_load Hm.
Qed.

Lemma ptr_entry p t : t = E \/ exists v r, entries p t ≡ₚ [(ptr t, v)] ++ r.
Proof using. destruct t as [|k l a r]; [by left|]. right. do 2 eexists.
  rewrite T_mk, entries_mk, ptr_mk. apply perm_here.
Qed.

(** The root of a subtree is not a node that has its cells elsewhere. *)
Lemma ptr_ne m p t a v R : cells m (entries p t ++ [(a, v)] ++ R) -> a <> NULL -> ptr t <> a.
Proof using.
  intros Hm Ha. destruct (ptr_entry p t) as [->|(w & r & Er)]; [by apply not_eq_sym|].
  rewrite Er in Hm. apply (cells_ne m _ w _ v (r ++ R)). cells_by Hm.
Qed.

Lemma wp_set_child s m c a v new R Q :
  cells m ([(link root c, a)] ++ [(a, v)] ++ centries root c ++ R) -> call_nodes node_addr c -> a <> NULL ->
  (forall m', cells m' ([(link root c, new)] ++ [(a, v)] ++ centries root c ++ R) -> Q tt m') ->
  wp (set_child s root (parent_of c) a new) Q m.
Proof using.
  intros Hm Hc Ha HQ. unfold set_child. destruct c as [|s' c k b y]; simpl parent_of.
  { cbn [link] in *. simpl. cell_store Hm. by apply HQ. }
  destruct Hc as (Hb%node_not_null & _). rewrite (proj2 (Z.eqb_neq _ _)) by done.
  cbn [link centries negb] in *. rewrite <- ?app_assoc in Hm. apply wp_bind.
  assert (s' = s \/ s' = opp s) as [->| ->] by (destruct s, s'; auto).
  - cell_load Hm. rewrite Z.eqb_refl. cell_store Hm. apply HQ. cells_by Hm.
  - rewrite opp_opp in *. cell_load Hm. rewrite (proj2 (Z.eqb_neq _ _)).
    + cell_store Hm. apply HQ. cells_by Hm.
    + apply not_eq_sym. eapply (ptr_ne m b y a v); [|done]. cells_with Hm.
Qed.

Lemma wp_rotate s m c k x a k' y b z F Q :
  zrep m c (mk s k x a (mk s k' y b z)) F ->
  (forall m', zrep m' c (mk s k' (mk s k x a y) b z) F -> Q tt m') -> wp (rotate s a root) Q m.
Proof using.
  intros H HQ. pose proof (zrep_node _ _ _ _ _ _ _ _ H) as (Hm & Ha & Hp & Hx & Hyz & Hc).
  apply all_nodes_mk in Hyz as (Hb & Hy & Hz). rewrite ptr_mk, entries_mk, <- ?app_assoc in Hm.
  pose proof (node_parent_addr a Ha) as Hpa. pose proof (node_parent_addr b Hb) as Hpb. unfold rotate.
  apply wp_bind. cell_load Hm. apply wp_bind, wp_bind. cell_load Hm. apply wp_ret. rewrite pc_parent by done.
  apply wp_bind. cell_load Hm. apply wp_bind. cell_store Hm. apply wp_bind.
  eapply wp_reparent_at with (t := y) (u := b + off s) (p := b); [|done..|].
  { cells_with Hm. }
  clear dependent m. intros m Hm. apply wp_bind. cell_store Hm.
  apply wp_bind, wp_bind. cell_load Hm. rewrite pc_set_parent by done. cell_store Hm.
  apply wp_bind. eapply (wp_set_child s _ c a (parent_of c + cval k)); [|done|by apply node_not_null|].
  { cells_with Hm. }
  clear dependent m. intros m Hm. apply wp_bind. cell_load Hm. rewrite pc_set_parent by done. cell_store Hm.
  apply HQ. split; [|rewrite !all_nodes_mk; done]. rewrite ptr_mk, !entries_mk, ptr_mk.
  cells_by Hm.
Qed.
End Ops.

(** ** The red-black invariant *)

(** [rb t n]: no red node has a red child and every path to a leaf passes [n] black
    nodes. *)
Inductive rb : tree -> nat -> Prop :=
  | rb_E : rb E 0
  | rb_R l a r n : rb l n -> rb r n -> root_color l = Black -> root_color r = Black -> rb (T Red l a r) n
  | rb_B l a r n : rb l n -> rb r n -> rb (T Black l a r) (S n).

Definition rb_tree (t : tree) : Prop := root_color t = Black /\ exists n, rb t n.

Definition parent_black (c : ctx) : Prop :=
  match c with Top => False | Fr _ _ k _ _ => k = Black end.

(** [crb c n]: the context of a place for a black tree of black height [n]. *)
Inductive crb : ctx -> nat -> Prop :=
  | crb_Top n : crb Top n
  | crb_R s c a y n : crb c n -> parent_black c -> rb y n -> root_color y = Black -> crb (Fr s c Red a y) n
  | crb_B s c a y n : crb c (S n) -> rb y n -> crb (Fr s c Black a y) n.

Lemma rb_red s x a y n :
  rb (mk s Red x a y) n <-> (rb x n /\ root_color x = Black) /\ rb y n /\ root_color y = Black.
Proof.
  split; [|intros ((? & ?) & ? & ?); destruct s; by constructor].
  destruct s; simpl; intros H; inversion H; subst; by repeat split.
Qed.

Lemma rb_black s x a y n : rb (mk s Black x a y) (S n) <-> rb x n /\ rb y n.
Proof.
  split; [|intros [? ?]; destruct s; by constructor].
  destruct s; simpl; intros H; inversion H; subst; by repeat split.
Qed.

Lemma rb_black_S s x a y n : rb (mk s Black x a y) n -> exists n', n = S n'.
Proof. destruct s; simpl; intros H; inversion H; by eexists. Qed.

(** A tree is red-black when a part of it and the context of that part are. *)
Lemma rb_plug c t : rb_tree (plug c t) <-> exists n, crb c n /\ rb t n /\ (root_color t = Black \/ parent_black c).
Proof.
  revert t. induction c as [|s c IH k a y]; intros t; simpl.
  - split; [intros [Hk [n Hn]]; exists n; by repeat split; [constructor|..|left]|].
    intros (n & _ & Hn & [Hk|[]]). by split; [|exists n].
  - rewrite IH. split.
    + intros (n & Hc & Hn & Hk). rewrite root_color_mk in Hk. destruct k.
      * destruct Hk as [|Hk]; [done|]. apply rb_red in Hn as ((Ht & Hkt) & Hy & Hky).
        exists n. repeat split; [by constructor|done|by left].
      * destruct (rb_black_S _ _ _ _ _ Hn) as [n' ->]. apply rb_black in Hn as [Ht Hy].
        exists n'. repeat split; [by constructor|done|by right].
    + intros (n & Hc & Ht & Hk). inversion Hc; subst.
      * destruct Hk as [Hk|]; [|done]. exists n. rewrite root_color_mk. repeat split; [done| |by right].
        by apply rb_red.
      * exists (S n). rewrite root_color_mk. repeat split; [done| |by left]. by apply rb_black.
Qed.

(** ** Depth

    A path is at most twice as long as its black nodes, and a tree with [n] of them
    on each path has at least 2^n - 1 nodes. *)

Fixpoint depth (c : ctx) : nat := match c with Top => 0 | Fr _ c _ _ _ => S (depth c) end.

Lemma rb_size t n : rb t n -> (2 ^ n <= S (length (inorder t)))%nat.
Proof. induction 1; simpl; rewrite ?length_app; simpl; lia. Qed.

Lemma rb_depth c n t :
  crb c n -> rb t n -> root_color t = Black \/ parent_black c ->
  exists N, rb (plug c t) N /\ (n <= N)%nat /\ (depth c <= 2 * (N - n) + 1)%nat /\
    (parent_black c -> depth c <= 2 * (N - n))%nat.
Proof.
  revert n t. induction c as [|s c IH k a y]; intros n t Hc Ht Hk; simpl.
  - exists n. repeat split; [done|lia..].
  - inversion Hc; subst.
    + destruct (IH n (mk s Red t a y)) as (N & HN & Hle & Hd & Hb); [done| |by right|].
      { apply rb_red. destruct Hk; done. }
      exists N. repeat split; [done|done|specialize (Hb ltac:(done)); lia|done].
    + destruct (IH (S n) (mk s Black t a y)) as (N & HN & Hle & Hd & Hb); [done|by apply rb_black|left; apply root_color_mk|].
      exists N. repeat split; [done|lia|lia|intros _; lia].
Qed.

Lemma all_nodes_inorder P t : all_nodes P t <-> Forall P (inorder t).
Proof.
  induction t as [|k l IHl a r IHr]; simpl; [by rewrite Forall_nil|].
  rewrite Forall_app, Forall_cons, IHl, IHr. tauto.
Qed.

Lemma inorder_entries p t : inorder t ⊆+ (entries p t).*1.
Proof.
  revert p. induction t as [|k l IHl a r IHr]; intros p; simpl; [done|].
  rewrite fmap_app. rewrite <- Permutation_middle. apply submseteq_skip. do 2 apply submseteq_cons.
  by apply submseteq_app.
Qed.

(** There are less than 2^30 aligned addresses. *)
Lemma node_count l : NoDup l -> Forall node_addr l -> Z.of_nat (length l) < 2 ^ 30.
Proof.
  intros Hn Hl. assert (((fun a => a / 4) <$> l) ⊆+ seqZ 1 (2 ^ 30 - 1)) as Hs.
  - apply NoDup_submseteq.
    + apply NoDup_fmap_2_strong; [|done]. intros a b Ha Hb E. rewrite Forall_forall in Hl.
      apply Hl in Ha as [_ Ha]. apply Hl in Hb as [_ Hb].
      pose proof (Z.div_mod a 4 ltac:(lia)). pose proof (Z.div_mod b 4 ltac:(lia)). lia.
    + intros q (a & -> & Ha)%list_elem_of_fmap. rewrite Forall_forall in Hl. apply Hl in Ha as [Ha Hm].
      apply elem_of_seqZ. pose proof (Z.div_mod a 4 ltac:(lia)). lia.
  - apply submseteq_length in Hs. rewrite length_fmap, length_seqZ in Hs. lia.
Qed.

Lemma zrep_depth root m c t F :
  zrep root m c t F -> rb_tree (plug c t) -> (depth c < 62)%nat.
Proof.
  intros Hz Hrb. apply rb_plug in Hrb as (n & Hc & Ht & Hk).
  destruct (rb_depth c n t Hc Ht Hk) as (N & HN & _ & Hd & _).
  apply zrep_plug in Hz as ((Hnd & _) & Hv & _). cbn [parent_of centries link] in Hnd.
  apply rb_size in HN. apply all_nodes_inorder in Hv.
  assert (NoDup (inorder (plug c t))) as Hn.
  { rewrite !fmap_app in Hnd. apply NoDup_app in Hnd as (_ & _ & Hnd). apply NoDup_app in Hnd as (Hnd & _).
    destruct (submseteq_Permutation _ _ (inorder_entries NULL (plug c t))) as [k Ek].
    rewrite Ek in Hnd. by apply NoDup_app in Hnd as [? _]. }
  pose proof (node_count _ Hn Hv) as Hl.
  assert (N <= 30)%nat; [|lia]. destruct (Nat.le_gt_cases N 30) as [|Hgt]; [done|exfalso].
  assert (2 ^ 31 <= 2 ^ Z.of_nat N) by (apply Z.pow_le_mono_r; lia).
  assert (Z.of_nat (2 ^ N) = 2 ^ Z.of_nat N) by apply Nat2Z.inj_pow. lia.
Qed.

(** Equality of lists of nodes up to the association of appends. *)
Ltac same_order := simpl; repeat (progress (rewrite <- ?app_assoc; simpl)); reflexivity.

(** ** Insertion *)

Section Insert.
Context (root : Z).
Abbreviation zrep := (zrep root).

Definition is_red (t : tree) : bool := match root_color t with Red => true | Black => false end.

Lemma wp_is_red m s c k x a y F Q :
  zrep m c (mk s k x a y) F -> Q (match k with Red => true | Black => false end) m -> wp (rb_is_red a) Q m.
Proof using. intros H HQ. apply wp_bind. eapply wp_rb_color; [exact H|]. apply wp_ret. by destruct k. Qed.

Lemma wp_is_black m s c k x a y F Q :
  zrep m c (mk s k x a y) F -> Q (match k with Red => false | Black => true end) m -> wp (rb_is_black a) Q m.
Proof using. intros H HQ. apply wp_bind. eapply wp_rb_color; [exact H|]. apply wp_ret. by destruct k. Qed.

Lemma zrep_root_addr m c k l a r F : zrep m c (T k l a r) F -> node_addr a.
Proof using. by intros (_ & (Ha & _) & _). Qed.

Lemma wp_is_red_node m c t F Q : zrep m c t F -> Q (is_red t) m -> wp (is_red_node (ptr t)) Q m.
Proof using.
  intros H HQ. unfold is_red_node. destruct t as [|k l a r]; [done|]. simpl ptr.
  pose proof (node_not_null _ (zrep_root_addr _ _ _ _ _ _ _ H)). rewrite (proj2 (Z.eqb_neq _ _)) by done.
  rewrite T_mk in H. eapply wp_is_red; [exact H|done].
Qed.

Lemma wp_is_black_node m c t F Q : zrep m c t F -> Q (negb (is_red t)) m -> wp (is_black_node (ptr t)) Q m.
Proof using.
  intros H HQ. unfold is_black_node. destruct t as [|k l a r]; [done|]. simpl ptr.
  pose proof (node_not_null _ (zrep_root_addr _ _ _ _ _ _ _ H)). rewrite (proj2 (Z.eqb_neq _ _)) by done.
  rewrite T_mk in H. eapply wp_is_black; [exact H|]. by destruct k.
Qed.

Lemma ptr_null m c t F : zrep m c t F -> ptr t = NULL -> t = E.
Proof using.
  intros H E. destruct t as [|k l a r]; [done|]. by apply zrep_root_addr, node_not_null in H.
Qed.

(** The two children of a node differ unless both are missing. *)
Lemma children_ne m s c k x a y F :
  zrep m c (mk s k x a y) F -> ptr x <> NULL \/ ptr y <> NULL -> ptr x <> ptr y.
Proof using.
  intros (Hm & _)%zrep_node Hne Hx.
  destruct (ptr_entry a x) as [->|(v & r & Er)]; [simpl in *; destruct Hne; congruence|].
  rewrite Er in Hm. rewrite Hx in *.
  eapply (ptr_ne m a y (ptr y) v); [|destruct Hne; done|done]. rewrite <- ?app_assoc in Hm. cells_with Hm.
Qed.

(** The side of a node under its parent, as the code finds it. *)
Lemma wp_which_side m s c k g x y F Q :
  zrep m c (mk s k x g y) F -> ptr x <> NULL \/ ptr y <> NULL ->
  (forall v, (if v =? ptr x then Left else Right) = s -> Q v m) -> wp (load (g + off Left)) Q m.
Proof using.
  intros H Hne HQ. pose proof (children_ne _ _ _ _ _ _ _ _ H Hne). destruct s.
  - eapply wp_child; [exact H|]. apply HQ. by rewrite Z.eqb_refl.
  - change (mk Right k x g y) with (mk Left k y g x) in H. eapply wp_child; [exact H|]. apply HQ.
    by rewrite (proj2 (Z.eqb_neq _ _)).
Qed.

(** The red uncle: the colours change and the grandparent is the next node. *)
Lemma insert_red_uncle m s1 s c2 p g x y ul ua ur F Q :
  let u := T Red ul ua ur in
  zrep m c2 (mk s1 Black (mk s Red x p y) g u) F ->
  (forall m', zrep m' c2 (mk s1 Red (mk s Black x p y) g (T Black ul ua ur)) F -> Q g m') ->
  wp (insert_side s1 (ptr x) p g root) Q m.
Proof using.
  intros u H HQ. unfold insert_side. apply wp_bind.
  rewrite <- mk_opp in H. eapply wp_child; [exact H|]. rewrite <- zrep_frame in H.
  apply wp_bind. eapply wp_is_red_node; [exact H|]. simpl.
  apply wp_bind. unfold u in H. rewrite T_mk in H. eapply wp_set_black; [exact H|]. clear dependent m. intros m H.
  apply zrep_sibling in H.
  apply wp_bind. eapply wp_set_black; [exact H|]. clear dependent m. intros m H. rewrite zrep_frame in H.
  apply wp_bind. eapply wp_set_red; [exact H|]. clear dependent m. intros m H.
  apply wp_ret. by apply HQ.
Qed.

(** A black uncle, the node on the outer side: one rotation. *)
Lemma insert_outer m s c2 p g k l x r y u F Q :
  is_red u = false ->
  zrep m c2 (mk s Black (mk s Red (mk s k l x r) p y) g u) F ->
  (forall m', zrep m' c2 (mk s Black (mk s k l x r) p (mk s Red y g u)) F -> Q x m') ->
  wp (insert_side s x p g root) Q m.
Proof using.
  intros Hu H HQ. unfold insert_side. apply wp_bind. pose proof H as Hg.
  rewrite <- mk_opp in Hg. eapply wp_child; [exact Hg|]. rewrite <- zrep_frame in Hg.
  apply wp_bind. eapply wp_is_red_node; [exact Hg|]. rewrite Hu. clear Hg.
  rewrite <- zrep_frame in H. pose proof H as Hp. rewrite <- mk_opp in Hp.
  assert (ptr y <> x).
  { pose proof (children_ne _ _ _ _ _ _ _ _ H) as Hne. rewrite ptr_mk in Hne. apply not_eq_sym, Hne.
    left. rewrite <- zrep_frame in H. destruct H as (_ & Hx & _). apply all_nodes_mk in Hx as (Hx & _).
    by apply node_not_null. }
  apply wp_bind. eapply wp_child; [exact Hp|]. clear Hp. rewrite (proj2 (Z.eqb_neq _ _)) by done.
  apply wp_bind, wp_ret.
  apply wp_bind. eapply wp_set_black; [exact H|]. clear dependent m. intros m H. rewrite zrep_frame in H.
  apply wp_bind. eapply wp_set_red; [exact H|]. clear dependent m. intros m H.
  apply wp_bind. rewrite <- mk_opp, <- (mk_opp s Black) in H. eapply wp_rotate; [exact H|].
  clear dependent m. intros m H. rewrite !mk_opp in H. apply wp_ret. by apply HQ.
Qed.

(** A black uncle, the node on the inner side: two rotations. *)
Lemma insert_inner m s c2 p g k l x r y u F Q :
  is_red u = false ->
  zrep m c2 (mk s Black (mk s Red y p (mk s k l x r)) g u) F ->
  (forall m', zrep m' c2 (mk s Black (mk s Red y p l) x (mk s Red r g u)) F -> Q p m') ->
  wp (insert_side s x p g root) Q m.
Proof using.
  intros Hu H HQ. unfold insert_side. apply wp_bind. pose proof H as Hg.
  rewrite <- mk_opp in Hg. eapply wp_child; [exact Hg|]. rewrite <- zrep_frame in Hg.
  apply wp_bind. eapply wp_is_red_node; [exact Hg|]. rewrite Hu. clear Hg.
  rewrite <- zrep_frame in H. pose proof H as Hp. rewrite <- mk_opp in Hp.
  apply wp_bind. eapply wp_child; [exact Hp|]. clear Hp. rewrite ptr_mk, Z.eqb_refl.
  apply wp_bind, wp_bind. eapply wp_rotate; [exact H|]. clear dependent m. intros m H. apply wp_ret.
  apply wp_bind. eapply wp_set_black; [exact H|]. clear dependent m. intros m H. rewrite zrep_frame in H.
  apply wp_bind. eapply wp_set_red; [exact H|]. clear dependent m. intros m H.
  apply wp_bind. rewrite <- mk_opp, <- (mk_opp s Black) in H. eapply wp_rotate; [exact H|].
  clear dependent m. intros m H. rewrite !mk_opp in H. apply wp_ret. by apply HQ.
Qed.

(** The loop: the only flaw of the tree is a red node, perhaps under a red one. *)
Definition insert_inv (L : list Z) (F : list (Z * Z)) (n : nat) (node : Z) (m : mem) : Prop :=
  exists c l r h, depth c = n /\ zrep m c (T Red l node r) F /\ crb c h /\ rb (T Red l node r) h /\
    before c ++ inorder (T Red l node r) ++ after c = L.

Definition insert_post (L : list Z) (F : list (Z * Z)) (m : mem) : Prop :=
  exists k l a r h, zrep m Top (T k l a r) F /\ rb (T k l a r) h /\ inorder (T k l a r) = L.

Lemma rb_red_color s x a y n : rb (mk s Red x a y) n -> rb (mk s Black x a y) (S n).
Proof using. intros ((Hx & _) & Hy & _)%rb_red. by apply rb_black. Qed.

Lemma crb_red s c a y n :
  crb (Fr s c Red a y) n <-> crb c n /\ parent_black c /\ rb y n /\ root_color y = Black.
Proof using. split; [intros H; by inversion H|intros (? & ? & ? & ?); by constructor]. Qed.

Lemma crb_black s c a y n : crb (Fr s c Black a y) n <-> crb c (S n) /\ rb y n.
Proof using. split; [intros H; by inversion H|intros [? ?]; by constructor]. Qed.

(** The side the code finds when it compares the other way round. *)
Lemma eqb_side (a b : Z) : (if a =? b then Left else Right) = (if b =? a then Left else Right).
Proof using. by rewrite Z.eqb_sym. Qed.

Lemma plug_E c t : plug c t = E -> t = E.
Proof using.
  revert t. induction c as [|s c IH k a y]; intros t H; [done|]. simpl in H. apply IH in H. by destruct s.
Qed.

Lemma mk_side s k l a r : exists x y, T k l a r = mk s k x a y.
Proof using. destruct s; by do 2 eexists. Qed.

Lemma inorder_mk s k x a y :
  inorder (mk s k x a y) = match s with Left => inorder x ++ a :: inorder y | Right => inorder y ++ a :: inorder x end.
Proof using. by destruct s. Qed.

(** The parent of the node is red: one turn of the loop. *)
Lemma insert_side_ok m s1 s c2 p g l x r y u h L F :
  zrep m (Fr s (Fr s1 c2 Black g u) Red p y) (T Red l x r) F -> crb (Fr s (Fr s1 c2 Black g u) Red p y) h ->
  rb (T Red l x r) h -> before (Fr s (Fr s1 c2 Black g u) Red p y) ++ inorder (T Red l x r) ++
    after (Fr s (Fr s1 c2 Black g u) Red p y) = L ->
  wp (insert_side s1 x p g root) (fun node m' => exists n, (n < S (S (depth c2)))%nat /\ insert_inv L F n node m') m.
Proof using.
  intros H Hc Hx HL. apply crb_red in Hc as (Hc1 & _ & Hy & Hky). apply crb_black in Hc1 as [Hc2 Hu]. subst L.
  set (L := before _ ++ _ ++ _) in *. rewrite !zrep_frame in H. destruct (is_red u) eqn:Hru.
  { destruct u as [|[] ul ua ur]; try done. change x with (ptr (T Red l x r)).
    eapply insert_red_uncle; [exact H|]. clear dependent m. intros m H.
    exists (depth c2). split; [lia|].
    assert (rb (mk s1 Red (mk s Black (T Red l x r) p y) g (T Black ul ua ur)) (S h)) as Hrb.
    { apply rb_red. rewrite root_color_mk. repeat split; [by apply rb_black|].
      rewrite T_mk in Hu |- *. by apply rb_red_color. }
    destruct s1; eexists c2, _, _, (S h); (split; [done|]); (split; [exact H|]); (split; [done|]); (split; [exact Hrb|]);
      unfold L; destruct s; same_order. }
  assert (s = s1 \/ s = opp s1) as [->| ->] by (destruct s, s1; auto).
  - destruct (mk_side s1 Red l x r) as (x1 & x2 & Ex). rewrite Ex in H.
    eapply insert_outer; [done|exact H|]. clear dependent m. intros m H. rewrite <- Ex in H.
    exists (S (depth c2)). split; [lia|]. rewrite <- zrep_frame in H.
    eexists _, l, r, h. split; [|split; [exact H|]]; [done|]. split; [|split; [done|]].
    + constructor; [done|]. apply rb_red. by repeat split; [..|destruct u as [|[]]].
    + unfold L. destruct s1; same_order.
  - destruct (mk_side s1 Red l x r) as (x1 & x2 & Ex). rewrite mk_opp, Ex in H.
    eapply insert_inner; [done|exact H|]. clear dependent m. intros m H.
    exists (S (depth c2)). split; [lia|]. rewrite <- zrep_frame in H. rewrite Ex in Hx.
    apply rb_red in Hx as ((Hx1 & Hk1) & Hx2 & Hk2).
    assert (rb (mk s1 Red y p x1) h) as Hrb by (apply rb_red; by repeat split).
    assert (crb (Fr s1 c2 Black x (mk s1 Red x2 g u)) h) as Hcrb.
    { constructor; [done|]. apply rb_red. by repeat split; [..|destruct u as [|[]]]. }
    assert (inorder (T Red l x r) = inorder (mk s1 Red x1 x x2)) as Ei by (by rewrite Ex).
    unfold L. rewrite Ei. destruct s1; (eexists _, _, _, h; split; [|split; [exact H|split; [exact Hcrb|split; [exact Hrb|]]]]; [done|]);
      same_order.
Qed.

Lemma insert_turn L F n node m :
  insert_inv L F n node m ->
  wp (parent ← rb_parent node;
      red ← is_red_node parent;
      if (red : bool) then
        gparent ← rb_parent parent;
        l ← load (gparent + off Left);
        node ← insert_side (if parent =? l then Left else Right) node parent gparent root;
        continue node
      else break tt)
    (fun r m' => match r with
                 | inl node' => exists n', (n' < n)%nat /\ insert_inv L F n' node' m'
                 | inr _ => insert_post L F m'
                 end) m.
Proof using.
  intros (c & l & r & h & Hn & H & Hc & Hrb & HL). pose proof H as H0. rewrite T_mk in H0.
  apply wp_bind. eapply wp_rb_parent; [exact H0|]. clear H0.
  destruct c as [|s c k p y].
  { apply wp_bind. change (parent_of Top) with (ptr E). apply wp_ret. apply wp_ret.
    simpl in HL. rewrite app_nil_r in HL. by exists Red, l, node, r, h. }
  pose proof H as Hp. rewrite zrep_frame in Hp. simpl parent_of.
  replace p with (ptr (mk s k (T Red l node r) p y)) at 1 by apply ptr_mk.
  apply wp_bind. eapply wp_is_red_node; [exact Hp|]. unfold is_red. rewrite root_color_mk. destruct k; cycle 1.
  { apply wp_ret. assert (rb_tree (plug (Fr s c Black p y) (T Red l node r))) as (_ & N & HN).
    { apply rb_plug. exists h. by repeat split; [..|right]. }
    apply zrep_plug in H. rewrite <- inorder_plug in HL. destruct (plug _ _) as [|k' l' a' r'] eqn:Ep.
    - by apply plug_E in Ep.
    - by exists k', l', a', r', N. }
  pose proof Hc as (_ & Hpb & _)%crb_red. destruct c as [|s1 c2 k1 g u]; [done|]. simpl in Hpb. subst k1.
  apply wp_bind. eapply wp_rb_parent; [exact Hp|]. simpl parent_of.
  apply wp_bind. rewrite zrep_frame in Hp. eapply wp_which_side; [exact Hp| |].
  { left. rewrite ptr_mk. destruct H as (_ & _ & Ha & _). by apply node_not_null. }
  intros v Hv. rewrite ptr_mk, eqb_side in Hv. rewrite Hv. apply wp_bind.
  eapply wp_mono; [eapply insert_side_ok; [exact H|done..]|]. intros node' m' (n' & Hlt & HI). apply wp_ret.
  exists n'. split; [simpl in Hn; lia|done].
Qed.

Lemma wp_link_node m c x v w u F Q :
  zrep m c E ([(x, v)] ++ [(x + off Right, w)] ++ [(x + off Left, u)] ++ F) -> node_addr x ->
  (forall m', zrep m' c (T Red E x E) F -> Q tt m') -> wp (rb_link_node x (parent_of c) (link root c)) Q m.
Proof using.
  intros (Hm & _ & Hc) Hx HQ. unfold rb_link_node. cbn [ptr entries] in Hm. rewrite app_nil_l in Hm.
  apply wp_bind. cell_store Hm. apply wp_bind. cell_store Hm. apply wp_bind. cell_store Hm. cell_store Hm.
  apply HQ. split; [|done]. change (cval Red) with 0. cbn [ptr entries]. rewrite Z.add_0_r. cells_by Hm.
Qed.

Lemma insert_color_ok m c l x r h F :
  zrep m c (T Red l x r) F -> crb c h -> rb (T Red l x r) h -> (depth c < RB_DEPTH)%nat ->
  wp (rb_insert_color x root) (fun _ m' => exists t, zrep m' Top t F /\ rb_tree t /\
    inorder t = before c ++ inorder (T Red l x r) ++ after c) m.
Proof using.
  intros H Hc Hrb Hd. set (L := before c ++ _). unfold rb_insert_color. apply wp_bind.
  eapply wp_mono; [eapply (wp_loop_depth (insert_inv L F) _ (fun _ => insert_post L F));
    [intros; by apply insert_turn|by exists c, l, r, h|exact Hd]|].
  clear dependent m. intros _ m (k & l' & a & r' & h' & Hz & Hrb' & HL).
  apply wp_bind. pose proof Hz as (Hm & _). cbn [link ptr] in Hm. cell_load Hm. rewrite T_mk in Hz.
  eapply wp_set_black; [exact Hz|]. clear dependent m. intros m Hz.
  exists (T Black l' a r'). split; [done|]. split; [|done]. split; [done|].
  destruct k; [exists (S h')|by exists h']. rewrite T_mk in Hrb' |- *. by apply rb_red_color.
Qed.
End Insert.

(** The memory holds the tree [t] with its root pointer at [root], and the cells [F]
    besides. *)
Definition holds_tree (root : Z) (m : mem) (t : tree) (F : list (Z * Z)) : Prop := zrep root m Top t F.

(** C4: rb_link_node at a free place of a red-black tree followed by
    rb_insert_color ends, leaves the memory around the tree alone, and the tree it
    leaves is red-black (black root, no red node with a red child, equal black
    heights) and has the old nodes in their order with the new one at that place. *)
Theorem rb_insert_balances root m c x v w u F :
  holds_tree root m (plug c E) ([(x, v)] ++ [(x + off Right, w)] ++ [(x + off Left, u)] ++ F) ->
  rb_tree (plug c E) -> node_addr x ->
  exists m' t, (rb_link_node x (parent_of c) (link root c) ;; rb_insert_color x root) m = Ok (tt, m') /\
    holds_tree root m' t F /\ rb_tree t /\ inorder t = before c ++ [x] ++ after c.
Proof.
  intros H Hrb Hx. unfold holds_tree in H. apply zrep_plug in H.
  pose proof (zrep_depth _ _ _ _ _ H Hrb) as Hd. apply rb_plug in Hrb as (n & Hc & HE & _). inversion HE; subst n.
  assert (wp (rb_link_node x (parent_of c) (link root c) ;; rb_insert_color x root)
    (fun _ m' => exists t, zrep root m' Top t F /\ rb_tree t /\ inorder t = before c ++ [x] ++ after c) m) as Hw.
  { apply wp_bind. eapply wp_link_node; [exact H|done|]. clear dependent m. intros m H.
    eapply wp_mono; [eapply insert_color_ok; [exact H|exact Hc|by repeat constructor|unfold RB_DEPTH; lia]|].
    intros [] m' Ht. exact Ht. }
  apply wp_run in Hw as ([] & m' & E' & t & Ht). by exists m', t.
Qed.

(** ** Repair after a removal *)

Definition blacken (t : tree) : tree := match t with E => E | T _ l a r => T Black l a r end.

Lemma inorder_blacken t : inorder (blacken t) = inorder t.
Proof. by destruct t. Qed.

Lemma ptr_blacken t : ptr (blacken t) = ptr t.
Proof. by destruct t. Qed.

Lemma blacken_id t : root_color t = Black -> blacken t = t.
Proof. destruct t as [|[]]; simpl; congruence. Qed.

Lemma blacken_mk s k x a y : blacken (mk s k x a y) = mk s Black x a y.
Proof. by destruct s. Qed.

Section Erase.
Context (root : Z).
Abbreviation zrep := (zrep root).

(** [if (t) rb_set_black(t)] at a place. *)
Lemma wp_blacken m c t F Q :
  zrep m c t F -> (forall m', zrep m' c (blacken t) F -> Q tt m') ->
  wp (if negb (ptr t =? NULL) then rb_set_black (ptr t) else mret tt) Q m.
Proof using.
  intros H HQ. destruct t as [|k l a r]; simpl; [by apply HQ|].
  pose proof (node_not_null _ (zrep_root_addr _ _ _ _ _ _ _ _ H)). rewrite (proj2 (Z.eqb_neq _ _)) by done. simpl.
  rewrite T_mk in H. eapply wp_set_black; [exact H|]. exact HQ.
Qed.

(** Focus on one of the two children of the node at the place. *)
Lemma in_near m s c k x a y F : zrep m c (mk s k x a y) F -> zrep m (Fr s c k a y) x F.
Proof using. apply zrep_frame. Qed.

Lemma out_near m s c k x a y F : zrep m (Fr s c k a y) x F -> zrep m c (mk s k x a y) F.
Proof using. apply zrep_frame. Qed.

Lemma in_far m s c k x a y F : zrep m c (mk s k x a y) F -> zrep m (Fr (opp s) c k a x) y F.
Proof using. by rewrite zrep_frame, mk_opp. Qed.

Lemma out_far m s c k x a y F : zrep m (Fr (opp s) c k a x) y F -> zrep m c (mk s k x a y) F.
Proof using. by rewrite zrep_frame, mk_opp. Qed.

Lemma wp_near m s c k x a y F Q : zrep m c (mk s k x a y) F -> Q (ptr x) m -> wp (load (a + off s)) Q m.
Proof using. apply wp_child. Qed.

Lemma wp_far m s c k x a y F Q : zrep m c (mk s k x a y) F -> Q (ptr y) m -> wp (load (a + off (opp s))) Q m.
Proof using. rewrite <- mk_opp. apply wp_child. Qed.

Lemma black_sibling_red m s c t p y1 o y2 F Q :
  zrep m c (mk s Black t p (mk s Red y1 o y2)) F ->
  (forall m', zrep m' (Fr s c Black o y2) (mk s Red t p y1) F -> Q (ptr y1) m') ->
  wp (black_sibling s o p root) Q m.
Proof using.
  intros H HQ. unfold black_sibling. apply wp_bind. pose proof H as Ho. apply in_far in Ho.
  eapply wp_is_red; [exact Ho|]. clear H.
  apply wp_bind. eapply wp_set_black; [exact Ho|]. clear dependent m. intros m H. apply out_far in H.
  apply wp_bind. eapply wp_set_red; [exact H|]. clear dependent m. intros m H.
  apply wp_bind. eapply wp_rotate; [exact H|]. clear dependent m. intros m H.
  apply in_near in H. eapply wp_far; [exact H|]. by apply HQ.
Qed.

Lemma far_red_near m s c k t p w1 q w2 o z2 F Q :
  is_red z2 = false -> zrep m c (mk s k t p (mk s Black (mk s Red w1 q w2) o z2)) F ->
  (forall m', zrep m' c (mk s k t p (mk s Black w1 q (mk s Red w2 o z2))) F -> Q q m') ->
  wp (far_red s o p root) Q m.
Proof using.
  intros Hz H HQ. unfold far_red. apply in_far in H. apply wp_bind. eapply wp_far; [exact H|].
  pose proof H as Hf. apply in_far in Hf. apply wp_bind. eapply wp_is_black_node; [exact Hf|]. clear Hf. rewrite Hz.
  apply wp_bind. eapply wp_near; [exact H|]. apply in_near in H.
  apply wp_bind. eapply wp_blacken; [exact H|]. clear dependent m. intros m H. rewrite blacken_mk in H.
  apply out_near in H. apply wp_bind. eapply wp_set_red; [exact H|]. clear dependent m. intros m H.
  rewrite <- mk_opp, <- (mk_opp s Black) in H. apply wp_bind. eapply wp_rotate; [exact H|].
  clear dependent m. intros m H. rewrite !mk_opp in H. apply out_far in H.
  eapply wp_far; [exact H|]. rewrite ptr_mk. by apply HQ.
Qed.

Lemma erase_last_ok m s c k t p v1 o v2 F Q :
  zrep m c (mk s k t p (mk s Black v1 o v2)) F ->
  (forall m', zrep m' c (mk s k (mk s Black t p v1) o (blacken v2)) F ->
     Q (ptr (plug c (mk s k (mk s Black t p v1) o (blacken v2)))) m') ->
  wp (erase_last s o p root) Q m.
Proof using.
  intros H HQ. unfold erase_last. apply wp_bind. eapply wp_rb_color; [exact H|]. apply in_far in H.
  apply wp_bind. eapply wp_set_color; [exact H|]. clear dependent m. intros m H. apply out_far in H.
  apply wp_bind. eapply wp_set_black; [exact H|]. clear dependent m. intros m H. apply in_far in H.
  apply wp_bind. eapply wp_far; [exact H|]. apply in_far in H.
  apply wp_bind. eapply wp_blacken; [exact H|]. clear dependent m. intros m H. apply out_far, out_far in H.
  apply wp_bind. eapply wp_rotate; [exact H|]. clear dependent m. intros m H.
  pose proof H as Hr. apply zrep_plug in Hr as (Hm & _). cbn [link] in Hm. cell_load Hm. by apply HQ.
Qed.

Lemma black_node s t h :
  rb t (S h) -> root_color t = Black -> exists x a y, t = mk s Black x a y /\ rb x h /\ rb y h.
Proof using.
  intros H Hk. destruct t as [|k l a r]; [by inversion H|]. simpl in Hk. subst k.
  destruct (mk_side s Black l a r) as (x & y & Et). rewrite Et in *. exists x, a, y. split; [done|].
  by apply rb_black in H.
Qed.

Lemma red_node s t h :
  rb t h -> is_red t = true ->
  exists x a y, t = mk s Red x a y /\ (rb x h /\ root_color x = Black) /\ rb y h /\ root_color y = Black.
Proof using.
  intros H Hk. destruct t as [|[] l a r]; try done.
  destruct (mk_side s Red l a r) as (x & y & Et). rewrite Et in *. exists x, a, y. split; [done|].
  by apply rb_red in H.
Qed.

Lemma is_red_black t : is_red t = false <-> root_color t = Black.
Proof using. unfold is_red. by destruct (root_color t). Qed.

Lemma black_sibling_ok m s c k t p y h F :
  zrep m c (mk s k t p y) F -> crb (Fr s c k p y) (S h) ->
  wp (black_sibling s (ptr y) p root) (fun other m' => exists c1 k1 y1,
    other = ptr y1 /\ zrep m' c1 (mk s k1 t p y1) F /\ crb (Fr s c1 k1 p y1) (S h) /\
    (rb y1 (S h) /\ root_color y1 = Black) /\ (k1 = Red \/ c1 = c) /\
    before (Fr s c1 k1 p y1) = before (Fr s c k p y) /\ after (Fr s c1 k1 p y1) = after (Fr s c k p y)) m.
Proof using.
  intros H Hc. assert (rb y (S h)) as Hy by (destruct k; [apply crb_red in Hc|apply crb_black in Hc]; tauto).
  destruct (is_red y) eqn:Hr.
  - destruct k; [apply crb_red in Hc as (_ & _ & _ & Hb); apply is_red_black in Hb; congruence|].
    apply crb_black in Hc as [Hc _]. destruct (red_node s y (S h) Hy Hr) as (y1 & o & y2 & -> & (Hy1 & Hk1) & Hy2 & Hk2).
    rewrite ptr_mk. eapply black_sibling_red; [exact H|]. clear dependent m. intros m H.
    exists (Fr s c Black o y2), Red, y1. split; [done|]. split; [done|]. split; [|split; [done|split; [by left|]]].
    + apply crb_red. repeat split; [by apply crb_black|done|done].
    + destruct s; split; same_order.
  - apply is_red_black in Hr. destruct (black_node s y h Hy Hr) as (z1 & o & z2 & Ey & _ & _).
    unfold black_sibling. pose proof H as Ho. apply in_far in Ho. rewrite Ey in Ho |- * at 1. rewrite ptr_mk.
    apply wp_bind. eapply wp_is_red; [exact Ho|]. apply wp_ret.
    exists c, k, y. split; [by rewrite Ey, ptr_mk|]. do 3 (split; [done|]). by split; [right|].
Qed.

(** The test of both children of the sibling. *)
Lemma wp_both_black {A} m s c k x a y F (f : bool -> M A) Q :
  zrep m c (mk s k x a y) F -> wp (f (negb (is_red x) && negb (is_red y))) Q m ->
  wp (l ← load (a + off Left);
      lb ← is_black_node l;
      both ← (if (lb : bool) then r ← load (a + off Right); is_black_node r else mret false);
      f both) Q m.
Proof using.
  assert (forall x y, zrep m c (mk Left k x a y) F -> wp (f (negb (is_red x) && negb (is_red y))) Q m ->
    wp (l ← load (a + off Left);
        lb ← is_black_node l;
        both ← (if (lb : bool) then r ← load (a + off Right); is_black_node r else mret false);
        f both) Q m) as Hleft.
  { clear x y. intros x y H Hf. apply wp_bind. eapply wp_near; [exact H|]. pose proof H as Hx. apply in_near in Hx.
    apply wp_bind. eapply wp_is_black_node; [exact Hx|]. apply wp_bind. destruct (is_red x); [done|]. simpl.
    apply wp_bind. eapply (wp_far _ Left); [exact H|]. apply in_far in H. by eapply wp_is_black_node. }
  intros H Hf. destruct s; [by eapply Hleft|]. eapply Hleft; [exact H|]. by rewrite andb_comm.
Qed.

Lemma far_red_ok m s c k t p z1 o z2 h F :
  zrep m c (mk s k t p (mk s Black z1 o z2)) F -> rb z1 h -> rb z2 h ->
  negb (is_red z1) && negb (is_red z2) = false ->
  wp (far_red s o p root) (fun q m' => exists v1 v2, zrep m' c (mk s k t p (mk s Black v1 q v2)) F /\
    rb v1 h /\ rb (blacken v2) (S h) /\ inorder (mk s Black v1 q v2) = inorder (mk s Black z1 o z2)) m.
Proof using.
  intros H H1 H2 Hred. destruct (is_red z2) eqn:Hz.
  - unfold far_red. pose proof H as Ho. apply in_far in Ho. apply wp_bind. eapply wp_far; [exact Ho|].
    apply in_far in Ho. apply wp_bind. eapply wp_is_black_node; [exact Ho|]. rewrite Hz. simpl. apply wp_ret.
    exists z1, z2. split; [done|]. split; [done|]. split; [|done].
    destruct (red_node s z2 h H2 Hz) as (x & a & y & -> & (Hx & _) & Hy & _). rewrite blacken_mk. by apply rb_black.
  - assert (is_red z1 = true) as Hz1 by (by destruct (is_red z1)).
    destruct (red_node s z1 h H1 Hz1) as (w1 & q & w2 & -> & (Hw1 & _) & Hw2 & _).
    eapply far_red_near; [done|exact H|]. clear dependent m. intros m H.
    exists w1, (mk s Red w2 o z2). split; [done|]. split; [done|]. rewrite blacken_mk.
    split; [by apply rb_black|]. destruct s; same_order.
Qed.

(** The loop: the subtree at the place lacks one black node, or its root is red. *)
Definition erase_inv (L : list Z) (F : list (Z * Z)) (n : nat) (np : Z * Z) (m : mem) : Prop :=
  exists c t h, np = (ptr t, parent_of c) /\ zrep m c t F /\ crb c (S h) /\ before c ++ inorder t ++ after c = L /\
    ((root_color t = Black /\ rb t h /\ n = S (depth c)) \/
     (root_color t = Red /\ rb (blacken t) (S h) /\ n = 0%nat)).

Definition erase_post (L : list Z) (F : list (Z * Z)) (node : Z) (m : mem) : Prop :=
  exists c t, zrep m c t F /\ node = ptr t /\ rb_tree (plug c (blacken t)) /\ before c ++ inorder t ++ after c = L.

Definition erase_result (L : list Z) (F : list (Z * Z)) (n : nat) (r : (Z * Z) + Z) (m : mem) : Prop :=
  match r with
  | inl np => exists n', (n' < n)%nat /\ erase_inv L F n' np m
  | inr node => erase_post L F node m
  end.

Lemma inorder_rotate s k k' x a y b z :
  inorder (mk s k' (mk s k x a y) b z) = inorder (mk s k' x a (mk s k y b z)).
Proof using. destruct s; same_order. Qed.

(** The sibling has a red child: the last turn. *)
Lemma erase_rotate_ok m s c k t p z1 o z2 h L F n :
  zrep m c (mk s k t p (mk s Black z1 o z2)) F -> crb (Fr s c k p (mk s Black z1 o z2)) (S h) ->
  rb t h -> rb z1 h -> rb z2 h -> negb (is_red z1) && negb (is_red z2) = false ->
  before c ++ inorder (mk s k t p (mk s Black z1 o z2)) ++ after c = L ->
  wp (other ← far_red s o p root; node ← erase_last s other p root; break node) (erase_result L F n) m.
Proof using.
  intros H Hc Ht H1 H2 Hred HL. apply wp_bind. eapply wp_mono; [eapply far_red_ok; [exact H|done..]|].
  clear dependent m. intros q m (v1 & v2 & H & Hv1 & Hv2 & Hin). apply wp_bind.
  eapply erase_last_ok; [exact H|]. clear dependent m. intros m H. apply wp_ret.
  set (t' := mk s k _ q _) in *. assert (rb_tree (plug c t')) as Hrb.
  { assert (root_color (blacken v2) = Black) by (by destruct v2).
    assert (rb (mk s Black t p v1) (S h)) by (by apply rb_black).
    apply rb_plug. destruct k.
    - apply crb_red in Hc as (Hc & Hpb & _ & _). exists (S h). split; [done|]. split; [|by right].
      apply rb_red. by rewrite root_color_mk.
    - apply crb_black in Hc as [Hc _]. exists (S (S h)). split; [done|]. split; [by apply rb_black|].
      left. apply root_color_mk. }
  exists Top, (plug c t'). split; [by apply (zrep_plug root m c t' F)|]. split; [done|].
  split; [by rewrite blacken_id by apply Hrb|]. simpl. rewrite app_nil_r, inorder_plug, <- HL. do 2 f_equal.
  unfold t'. rewrite inorder_rotate, !(inorder_mk s k).
  assert (inorder (mk s Black v1 q (blacken v2)) = inorder (mk s Black v1 q v2)) as ->
    by (destruct s; simpl; by rewrite inorder_blacken).
  by rewrite Hin.
Qed.
End Erase.

Section EraseLoop.
Context (root : Z).
Abbreviation zrep := (zrep root).

Lemma erase_side_ok m s c k t p y h L F :
  zrep m c (mk s k t p y) F -> crb (Fr s c k p y) (S h) -> rb t h -> root_color t = Black ->
  before (Fr s c k p y) ++ inorder t ++ after (Fr s c k p y) = L ->
  wp (erase_side s p root) (erase_result root L F (S (S (depth c)))) m.
Proof using.
  intros H Hc Ht Hkt HL. unfold erase_side. apply wp_bind. eapply wp_far; [exact H|].
  apply wp_bind. eapply wp_mono; [eapply black_sibling_ok; [exact H|exact Hc]|].
  clear dependent m. intros other m (c1 & k1 & y1 & -> & H & Hc1 & (Hy & Hky) & Hk & Eb & Ea).
  rewrite <- Eb, <- Ea, <- inorder_plug in HL. simpl in HL. clear Eb Ea Hc.
  destruct (black_node s y1 h Hy Hky) as (z1 & o & z2 & -> & H1 & H2). rewrite ptr_mk.
  pose proof H as Ho. apply in_far in Ho. eapply (wp_both_black root m s); [exact Ho|].
  destruct (negb (is_red z1) && negb (is_red z2)) eqn:Hboth; cycle 1.
  { eapply erase_rotate_ok; [exact H|done..|]. by rewrite <- inorder_plug. }
  apply andb_prop in Hboth as [Hz1%negb_true_iff Hz2%negb_true_iff]. apply is_red_black in Hz1, Hz2.
  apply wp_bind. eapply wp_set_red; [exact Ho|]. clear dependent m. intros m H. apply out_far in H.
  apply wp_bind. eapply wp_rb_parent; [exact H|]. apply wp_ret.
  assert (rb (mk s Red z1 o z2) h) as Hred by (by apply rb_red).
  assert (before c1 ++ inorder (mk s k1 t p (mk s Red z1 o z2)) ++ after c1 = L) as HL'.
  { rewrite <- HL, inorder_plug. do 2 f_equal. by destruct s. }
  destruct k1.
  - exists 0%nat. split; [lia|]. apply crb_red in Hc1 as (Hc1 & _).
    exists c1, (mk s Red t p (mk s Red z1 o z2)), h. rewrite ptr_mk, root_color_mk, blacken_mk.
    do 4 (split; [done|]). right. split; [done|]. by split; [apply rb_black|].
  - destruct Hk as [|Hk]; [done|]. subst c1. exists (S (depth c)). split; [lia|]. apply crb_black in Hc1 as [Hc1 _].
    exists c, (mk s Black t p (mk s Red z1 o z2)), (S h). rewrite ptr_mk, root_color_mk.
    do 4 (split; [done|]). left. split; [done|]. by split; [apply rb_black|].
Qed.

(** The root pointer leads elsewhere unless the place is the top. *)
Lemma top_entry c t :
  c <> Top -> exists v r, centries root c ≡ₚ [(ptr (plug c t), v)] ++ r.
Proof using.
  revert t. induction c as [|s c IH k a y]; intros t H; [done|]. clear H. cbn [plug centries].
  destruct c as [|s' c' k' a' y'].
  - simpl plug. rewrite ptr_mk. do 2 eexists. apply perm_here.
  - destruct (IH (mk s k t a y)) as (v & r & Er); [done|]. exists v. eexists. rewrite Er. do 4 apply perm_skip. apply perm_here.
Qed.

Lemma wp_root m c t F Q :
  zrep m c t F -> (forall v, (v = ptr t <-> c = Top) -> Q v m) -> wp (load root) Q m.
Proof using.
  intros H HQ. pose proof H as Hr. apply zrep_plug in Hr as (Hm & Hv & _). cbn [link] in Hm. cell_load Hm.
  apply HQ. split; [|by intros ->]. intros Ep. assert (c = Top \/ c <> Top) as [|Hc] by (destruct c; auto); [done|exfalso].
  destruct (top_entry c t Hc) as (v & r & Er). destruct H as (Hz & _). rewrite Er, <- ?app_assoc in Hz.
  assert (ptr (plug c t) <> NULL) as Hne.
  { destruct (plug c t) as [|k l a b] eqn:Epl; [|destruct Hv as [Hv _]; by apply node_not_null in Hv].
    destruct c as [|s c k a y]; [done|]. simpl in Epl. apply plug_E in Epl. by destruct s. }
  eapply (ptr_ne m (parent_of c) t _ v); [|exact Hne|by symmetry]. cells_with Hz.
Qed.

Lemma rb_blacken c t h : crb c (S h) -> rb (blacken t) (S h) -> rb_tree (plug c (blacken t)).
Proof using. intros Hc Ht. apply rb_plug. exists (S h). split; [done|]. split; [done|]. left. by destruct t. Qed.

Lemma erase_turn L F n np m :
  erase_inv root L F n np m ->
  wp ((fun '(node, parent) =>
         black ← is_black_node node;
         go ← (if (black : bool) then r ← load root; mret (negb (node =? r)) else mret false);
         if (go : bool) then
           l ← load (parent + off Left);
           erase_side (if l =? node then Left else Right) parent root
         else break node) np)
    (erase_result root L F n) m.
Proof using.
  intros (c & t & h & -> & H & Hc & HL & Ht).
  apply wp_bind. eapply wp_is_black_node; [exact H|]. unfold is_red. destruct Ht as [(Hk & Ht & ->)|(Hk & Ht & ->)];
    rewrite Hk; simpl negb; cbv iota; cycle 1.
  { apply wp_bind, wp_ret, wp_ret. exists c, t. split; [done|]. split; [done|].
    split; [by apply (rb_blacken c t h)|done]. }
  apply wp_bind, wp_bind. eapply wp_root; [exact H|]. intros v Hv. apply wp_ret.
  destruct c as [|s c k p y].
  { rewrite (proj2 Hv), Z.eqb_refl by done. apply wp_ret. exists Top, t. split; [done|]. split; [done|].
    split; [|done]. simpl. rewrite blacken_id by done. split; [done|by exists h]. }
  rewrite (proj2 (Z.eqb_neq _ _)) by (intros E'; by apply eq_sym, Hv in E'). cbn [negb parent_of].
  pose proof H as Hp. apply out_near in Hp. apply wp_bind.
  assert (ptr y <> NULL) as Hy.
  { assert (rb y (S h)) as Hy by (destruct k; [apply crb_red in Hc|apply crb_black in Hc]; tauto).
    intros E'. apply in_far in Hp. apply (ptr_null _ _ _ _ _ Hp) in E'. subst y. inversion Hy. }
  eapply wp_which_side; [exact Hp|by right|]. intros l Hs. rewrite Hs.
  eapply wp_mono; [by eapply erase_side_ok|]. intros r m' HR. exact HR.
Qed.

Lemma erase_color_ok m c t h L F :
  zrep m c t F -> crb c (S h) -> before c ++ inorder t ++ after c = L -> (S (depth c) < RB_DEPTH)%nat ->
  rb t h ->
  wp (__rb_erase_color (ptr t) (parent_of c) root)
    (fun _ m' => exists t', zrep m' Top t' F /\ rb_tree t' /\ inorder t' = L) m.
Proof using.
  intros H Hc HL Hd Ht. unfold __rb_erase_color. apply wp_bind.
  assert (exists n, (n < RB_DEPTH)%nat /\ erase_inv root L F n (ptr t, parent_of c) m) as (n & Hn & HI).
  { destruct (root_color t) eqn:Hk.
    - exists 0%nat. split; [unfold RB_DEPTH; lia|]. exists c, t, h. do 4 (split; [done|]). right. split; [done|].
      split; [|done]. destruct t as [|[] l a r]; try done. by apply (rb_red_color Left).
    - exists (S (depth c)). split; [done|]. exists c, t, h. do 4 (split; [done|]). by left. }
  eapply wp_mono; [eapply (wp_loop_depth (erase_inv root L F) _ (erase_post root L F));
    [intros; eapply wp_mono; [by apply erase_turn|intros r; by destruct r]|exact HI|exact Hn]|].
  clear dependent m c t n. intros node m (c & t & H & -> & Hrb & HL).
  eapply wp_blacken; [exact H|]. clear dependent m. intros m H.
  exists (plug c (blacken t)). split; [by apply (zrep_plug root m c)|]. split; [done|].
  by rewrite inorder_plug, inorder_blacken.
Qed.
End EraseLoop.

(** ** The first and the last node of a subtree *)

(** The place reached by going down on side [s]: each step leaves a node and its
    other subtree behind. *)
Fixpoint down (s : side) (fs : list (color * Z * tree)) (c : ctx) : ctx :=
  match fs with
  | [] => c
  | (k, a, y) :: fs => down s fs (Fr s c k a y)
  end.

Fixpoint along (s : side) (fs : list (color * Z * tree)) (t : tree) : tree :=
  match fs with
  | [] => t
  | (k, a, y) :: fs => mk s k (along s fs t) a y
  end.

Lemma plug_down s fs c t : plug (down s fs c) t = plug c (along s fs t).
Proof. revert c. induction fs as [|[[k a] y] fs IH]; intros c; simpl; [done|]. by rewrite IH. Qed.

Lemma depth_down s fs c : depth (down s fs c) = (length fs + depth c)%nat.
Proof. revert c. induction fs as [|[[k a] y] fs IH]; intros c; simpl; [done|]. rewrite IH. simpl. lia. Qed.

Lemma before_down fs c : before (down Left fs c) = before c.
Proof. revert c. induction fs as [|[[k a] y] fs IH]; intros c; simpl; [done|]. by rewrite IH. Qed.

Lemma after_down fs c : after (down Right fs c) = after c.
Proof. revert c. induction fs as [|[[k a] y] fs IH]; intros c; simpl; [done|]. by rewrite IH. Qed.

Lemma after_down_same s fs c c' : after c = after c' -> after (down s fs c) = after (down s fs c').
Proof.
  revert c c'. induction fs as [|[[k a] y] fs IH]; intros c c' H; simpl; [done|]. apply IH.
  destruct s; simpl; by rewrite H.
Qed.

Lemma crb_down_same s fs c c' n :
  (forall n, crb c n -> crb c' n) -> (parent_black c -> parent_black c') ->
  crb (down s fs c) n -> crb (down s fs c') n /\ (parent_black (down s fs c) -> parent_black (down s fs c')).
Proof.
  revert c c'. induction fs as [|[[k a] y] fs IH]; intros c c' Hc Hp H; simpl; [by auto|].
  apply (IH (Fr s c k a y)); [|done|done]. clear H. intros n' H. inversion H; subst; constructor; auto.
Qed.

(** Every tree that is not empty has an end on either side. *)
Lemma end_of s t : t <> E -> exists fs k y z, t = along s fs (mk s k E y z).
Proof.
  assert (forall k x a y, (x <> E -> exists fs k y z, x = along s fs (mk s k E y z)) ->
    exists fs k' y' z, mk s k x a y = along s fs (mk s k' E y' z)) as H.
  { intros k x a y IH. destruct x as [|k' l b r]; [by exists [], k, a, y|].
    destruct IH as (fs & k'' & y'' & z & ->); [done|]. by exists ((k, a, y) :: fs), k'', y'', z. }
  induction t as [|k l IHl a r IHr]; [done|]. intros _.
  destruct s; [by apply (H k l a r)|by apply (H k r a l)].
Qed.

Section Walk.
Context (root : Z).
Abbreviation zrep := (zrep root).

Lemma zrep_down m s fs c t F : zrep m (down s fs c) t F <-> zrep m c (along s fs t) F.
Proof using.
  revert c. induction fs as [|[[k a] y] fs IH]; intros c; simpl; [done|]. by rewrite IH, zrep_frame.
Qed.

Lemma wp_go_down_loop fuel m s fs c k y z F Q :
  zrep m c (along s fs (mk s k E y z)) F -> (length fs < fuel)%nat -> Q y m ->
  wp (loop fuel (fun n => c ← load (n + off s); if c =? NULL then break n else continue c)
        (ptr (along s fs (mk s k E y z)))) Q m.
Proof using.
  revert c fuel. induction fs as [|[[k' a] y'] fs IH]; intros c fuel H Hf HQ; destruct fuel as [|fuel]; try (simpl in Hf; lia);
    simpl along in *; apply wp_bind, wp_bind; rewrite ptr_mk; (eapply wp_near; [exact H|]).
  - simpl. by apply wp_ret, wp_ret.
  - apply in_near in H. destruct (Z.eqb_spec (ptr (along s fs (mk s k E y z))) NULL) as [E'|_].
    + apply (ptr_null _ _ _ _ _ H) in E'. exfalso. destruct fs as [|[[k'' a''] y''] fs]; simpl in E'; by destruct s.
    + apply wp_ret. eapply IH; [exact H|simpl in Hf; lia|done].
Qed.

Lemma wp_go_down m s c t F Q :
  zrep m c t F -> rb_tree (plug c t) -> t <> E ->
  (forall fs k y z, t = along s fs (mk s k E y z) -> (length fs + depth c < 62)%nat -> Q y m) ->
  wp (go_down s (ptr t)) Q m.
Proof using.
  intros H Hrb Hne HQ. destruct (end_of s t Hne) as (fs & k & y & z & Et).
  assert (length fs + depth c < 62)%nat as Hd.
  { rewrite <- (depth_down s). rewrite Et in *. rewrite <- zrep_down in H. rewrite <- plug_down in Hrb.
    by eapply zrep_depth. }
  unfold go_down. rewrite Et in H |- *. eapply wp_go_down_loop; [exact H|unfold RB_DEPTH; lia|]. by eapply HQ.
Qed.
End Walk.

(** ** Removal *)

(** The cells of a node that is in no tree. *)
Definition spare (a v w u : Z) : list (Z * Z) := [(a, v)] ++ [(a + off Right, w)] ++ [(a + off Left, u)].

Section Unlink.
Context (root : Z).
Abbreviation zrep := (zrep root).

Lemma spare_side a v w s u F : exists w' u', [(a, v)] ++ [(a + off s, w)] ++ [(a + off (opp s), u)] ++ F ≡ₚ spare a v w' u' ++ F.
Proof using. destruct s; [exists u, w|exists w, u]; unfold spare, opp; perm. Qed.

Lemma wp_reparent_node m t p q R Q :
  cells m (entries p t ++ R) -> all_nodes node_addr t -> t <> E -> parent_addr p -> parent_addr q ->
  (forall m', cells m' (entries q t ++ R) -> Q tt m') -> wp (rb_set_parent (ptr t) q) Q m.
Proof using.
  intros Hm Ht Hne Hp Hq HQ. pose proof (wp_reparent m t p q R Q Hm Ht Hp Hq HQ) as Hw.
  destruct t as [|k l a r]; [done|]. destruct Ht as [Ha _]. apply node_not_null in Ha. simpl ptr in *.
  by rewrite (proj2 (Z.eqb_neq _ _)) in Hw by done.
Qed.

(** The child of a node with one child at most is hung under the node's parent. *)
Lemma wp_adopt m s c k x t F Q :
  zrep m c (mk s k E x t) F ->
  (forall m', cells m' ([(link root c, x)] ++ [(x, parent_of c + cval k)] ++ [(x + off s, NULL)] ++
      [(x + off (opp s), ptr t)] ++ entries (parent_of c) t ++ centries root c ++ F) -> Q tt m') ->
  wp (if negb (ptr t =? NULL) then rb_set_parent (ptr t) (parent_of c) else mret tt) Q m.
Proof using.
  intros (Hm & Hx & Hp & _ & Ht & Hc)%zrep_node HQ. cbn [ptr entries] in Hm. rewrite app_nil_l in Hm.
  eapply (wp_reparent m t x); [cells_with Hm|done|by apply node_parent_addr|done|].
  clear dependent m. intros m Hm. apply HQ. cells_by Hm.
Qed.

(** After the pointer to the node leads to its child. *)
Lemma zrep_unlinked m s c k x t F :
  cells m ([(link root c, ptr t)] ++ [(x, parent_of c + cval k)] ++ [(x + off s, NULL)] ++
    [(x + off (opp s), ptr t)] ++ entries (parent_of c) t ++ centries root c ++ F) ->
  all_nodes node_addr t -> call_nodes node_addr c ->
  exists v w u, zrep m c t (spare x v w u ++ F).
Proof using.
  intros Hm Ht Hc. destruct (spare_side x (parent_of c + cval k) NULL s (ptr t) F) as (w & u & Es).
  exists (parent_of c + cval k), w, u. split; [|done]. rewrite <- Es. cells_by Hm.
Qed.

(** [node] takes the place of [old]: the middle of the case of two children. *)
Lemma wp_take_place {A} m c k l x r y v w u F (K : M A) Q :
  zrep m c (T k l x r) (spare y v w u ++ F) -> node_addr y -> l <> E ->
  (forall m', (exists v w u, zrep m' c (T k l y r) (spare x v w u ++ F)) -> wp K Q m') ->
  wp (pc ← load x; store y pc ;;
      r ← load (x + off Right); store (y + off Right) r ;;
      l ← load (x + off Left); store (y + off Left) l ;;
      oparent ← rb_parent x;
      set_child Left root oparent x y ;;
      l ← load (x + off Left); rb_set_parent l y ;;
      r ← load (x + off Right);
      (if negb (r =? NULL) then rb_set_parent r y else mret tt) ;; K) Q m.
Proof using.
  intros H Hy Hl HQ. rewrite T_mk in H. apply zrep_node in H as (Hm & Hx & Hp & Hal & Har & Hc).
  unfold spare in Hm. rewrite <- ?app_assoc in Hm. cbn [opp] in Hm.
  pose proof (node_parent_addr x Hx). pose proof (node_parent_addr y Hy).
  apply wp_bind. cell_load Hm. apply wp_bind. cell_store Hm.
  apply wp_bind. cell_load Hm. apply wp_bind. cell_store Hm.
  apply wp_bind. cell_load Hm. apply wp_bind. cell_store Hm.
  apply wp_bind, wp_bind. cell_load Hm. apply wp_ret. rewrite pc_parent by done.
  apply wp_bind. eapply (wp_set_child root Left _ c x (parent_of c + cval k)); [cells_with Hm|done|by apply node_not_null|].
  clear dependent m. intros m Hm. apply wp_bind. cell_load Hm. apply wp_bind.
  eapply (wp_reparent_node m l x y); [cells_with Hm|done..|]. clear dependent m. intros m Hm.
  apply wp_bind. cell_load Hm. apply wp_bind.
  eapply (wp_reparent m r x y); [cells_with Hm|done..|]. clear dependent m. intros m Hm. apply HQ.
  exists (parent_of c + cval k), (ptr r), (ptr l). split; [|done]. unfold spare. rewrite T_mk, ptr_mk, entries_mk. cbn [opp].
  cells_by Hm.
Qed.
End Unlink.

Lemma along_inorder fs c t : inorder (along Left fs t) ++ after c = inorder t ++ after (down Left fs c).
Proof.
  revert c. induction fs as [|[[k a] y] fs IH]; intros c; simpl; [done|]. rewrite <- IH. same_order.
Qed.

Lemma down_snoc s fs f c : down s (fs ++ [f]) c = let '(k, a, y) := f in Fr s (down s fs c) k a y.
Proof. revert c. induction fs as [|[[k a] y] fs IH]; intros c; destruct f as [[k' a'] y']; simpl; [done|]. by rewrite IH. Qed.

Lemma centries_down root s fs c : exists r, centries root (down s fs c) ≡ₚ centries root c ++ r.
Proof.
  revert c. induction fs as [|[[k a] y] fs IH]; intros c; simpl; [exists []; by rewrite app_nil_r|].
  destruct (IH (Fr s c k a y)) as [r Er]. eexists. rewrite Er. cbn [centries].
  rewrite <- ?app_assoc. etrans; [do 4 apply perm_skip; apply perm_here|]. reflexivity.
Qed.

Section Remove.
Context (root : Z).
Abbreviation zrep := (zrep root).

Lemma erase_one_ok m s c k x t F :
  zrep m c (mk s k E x t) F ->
  wp (parent ← rb_parent x;
      color ← rb_color x;
      (if negb (ptr t =? NULL) then rb_set_parent (ptr t) parent else mret tt) ;;
      set_child Left root parent x (ptr t) ;;
      mret (ptr t, parent, color))
    (fun res m' => res = (ptr t, parent_of c, cval k) /\ exists v w u, zrep m' c t (spare x v w u ++ F)) m.
Proof using.
  intros H. pose proof (zrep_node _ _ _ _ _ _ _ _ _ H) as (_ & Hx & _ & _ & Ht & Hc).
  apply wp_bind. eapply wp_rb_parent; [exact H|]. apply wp_bind. eapply wp_rb_color; [exact H|].
  apply wp_bind. eapply wp_adopt; [exact H|]. clear dependent m. intros m Hm.
  apply wp_bind. eapply (wp_set_child root Left _ c x (parent_of c + cval k)); [cells_with Hm|done|by apply node_not_null|].
  clear dependent m. intros m Hm. apply wp_ret. split; [done|].
  eapply (zrep_unlinked root m s c k x t F); [|done..]. cells_by Hm.
Qed.

(** The pointer to the successor is where the code looks for it. *)
Lemma wp_hang {A} m fs c k x l y z v F (f : Z -> M A) Q :
  let c0 := down Left fs (Fr Right c k x l) in
  cells m ([(link root c0, v)] ++ centries root c0 ++ F) ->
  (forall m', cells m' ([(link root c0, z)] ++ centries root c0 ++ F) ->
     wp (f (parent_of (down Left fs (Fr Right c k y l)))) Q m') ->
  wp (parent ← (if parent_of c0 =? x then store (parent_of c0 + off Right) z ;; mret y
                else store (parent_of c0 + off Left) z ;; mret (parent_of c0)); f parent) Q m.
Proof using.
  intros c0 Hm HQ. apply wp_bind. subst c0. destruct fs as [|f0 fs0 _] using rev_ind.
  { simpl parent_of in *. cbn [down link] in *. rewrite Z.eqb_refl. apply wp_bind. cell_store Hm. apply wp_ret. by apply HQ. }
  rewrite !down_snoc in *. destruct f0 as [[k' a] y']. cbn [parent_of link] in *. rewrite (proj2 (Z.eqb_neq a x)).
  - apply wp_bind. cell_store Hm. apply wp_ret. by apply HQ.
  - destruct (centries_down root Left fs0 (Fr Right c k x l)) as [r Er]. cbn [centries] in Hm. rewrite Er in Hm.
    cbn [centries] in Hm. rewrite <- ?app_assoc in Hm. eapply (cells_ne m a (parent_of (down Left fs0 (Fr Right c k x l)) + cval k') x (parent_of c + cval k)).
    cells_with Hm.
Qed.

Lemma erase_two_ok m c k l x r F :
  zrep m c (T k l x r) F -> rb_tree (plug c (T k l x r)) -> l <> E -> r <> E ->
  wp (erase_two x root)
    (fun res m' => exists fs k1 y z v w u, r = along Left fs (T k1 E y z) /\
       (length fs + S (depth c) < 62)%nat /\ res = (ptr z, parent_of (down Left fs (Fr Right c k y l)), cval k1) /\
       zrep m' (down Left fs (Fr Right c k y l)) z (spare x v w u ++ F)) m.
Proof using.
  intros H Hrb Hl Hr. unfold erase_two. change (T k l x r) with (mk Right k r x l) in H.
  apply wp_bind. eapply wp_near; [exact H|]. apply in_near in H.
  apply wp_bind. eapply wp_go_down; [exact H|exact Hrb|done|]. intros fs k1 y z -> Hfs. clear Hrb.
  rewrite <- zrep_down in H. pose proof (zrep_node _ _ _ _ _ _ _ _ _ H) as (_ & Hy & _ & _ & Hz & Hc).
  apply wp_bind. eapply (wp_far root m Left); [exact H|]. apply wp_bind. eapply wp_rb_parent; [exact H|].
  apply wp_bind. eapply wp_rb_color; [exact H|]. apply wp_bind. eapply wp_adopt; [exact H|].
  clear dependent m. intros m Hm. eapply (wp_hang m fs c k x l y (ptr z) y); [cells_with Hm|].
  clear dependent m. intros m Hm.
  destruct (zrep_unlinked root m Left (down Left fs (Fr Right c k x l)) k1 y z F) as (v & w & u & H); [cells_by Hm|done..|]. clear Hm.
  rewrite zrep_down in H. apply out_near in H. change (mk Right ?k ?x ?a ?y) with (T k y a x) in H.
  eapply wp_take_place; [exact H|done|done|]. clear dependent m v w u. intros m (v & w & u & H). apply wp_ret.
  exists fs, k1, y, z, v, w, u. do 3 (split; [done|]). rewrite zrep_down. apply in_near. exact H.
Qed.

(** The repair when a node of colour [k] with the child [t] is gone. *)
Lemma erase_finish m s c k a t n F :
  zrep m c t F -> crb c n -> rb (mk s k E a t) n -> (depth c < 62)%nat ->
  wp (if cval k =? RB_BLACK then __rb_erase_color (ptr t) (parent_of c) root else mret tt)
    (fun _ m' => exists t', zrep m' Top t' F /\ rb_tree t' /\ inorder t' = before c ++ inorder t ++ after c) m.
Proof using.
  intros H Hc Ht Hd. destruct k; simpl Z.eqb; cbv iota.
  - apply rb_red in Ht as (_ & Ht & Hk). apply wp_ret. exists (plug c t).
    split; [by apply (zrep_plug root m c)|]. split; [|apply inorder_plug]. apply rb_plug. exists n. by repeat split; [..|left].
  - destruct (rb_black_S _ _ _ _ _ Ht) as [h ->]. apply rb_black in Ht as [_ Ht].
    eapply wp_mono; [eapply erase_color_ok; [exact H|done|done|unfold RB_DEPTH; lia|done]|].
    intros [] m' HR. exact HR.
Qed.

Lemma rb_erase_ok m c k l x r F :
  zrep m c (T k l x r) F -> rb_tree (plug c (T k l x r)) ->
  wp (rb_erase x root) (fun _ m' => exists t v w u, zrep m' Top t (spare x v w u ++ F) /\ rb_tree t /\
    inorder t = before c ++ inorder l ++ inorder r ++ after c) m.
Proof using.
  intros H Hrb. pose proof (zrep_depth _ _ _ _ _ H Hrb) as Hd.
  assert (forall s t, T k l x r = mk s k E x t -> inorder l ++ inorder r = inorder t ->
    wp ('(child, parent, color) ←
          (parent ← rb_parent x; color ← rb_color x;
           (if negb (ptr t =? NULL) then rb_set_parent (ptr t) parent else mret tt) ;;
           set_child Left root parent x (ptr t) ;; mret (ptr t, parent, color));
        if color =? RB_BLACK then __rb_erase_color child parent root else mret tt)
      (fun _ m' => exists t v w u, zrep m' Top t (spare x v w u ++ F) /\ rb_tree t /\
         inorder t = before c ++ inorder l ++ inorder r ++ after c) m) as Hone.
  { intros s t Et Hin. rewrite Et in *. apply rb_plug in Hrb as (n & Hc & Hn & _). apply wp_bind.
    eapply wp_mono; [by eapply erase_one_ok|]. clear dependent m. intros res m (-> & v & w & u & H).
    eapply wp_mono; [by eapply erase_finish|]. clear dependent m. intros [] m (t' & Ht' & Hrb & Hi).
    exists t', v, w, u. split; [done|]. split; [done|]. rewrite Hi, <- Hin. by rewrite <- app_assoc. }
  unfold rb_erase. apply wp_bind. eapply (wp_near root m Left); [exact H|].
  apply wp_bind. eapply (wp_far root m Left); [exact H|].
  destruct (Z.eqb_spec (ptr l) NULL) as [El|Hl]; [|destruct (Z.eqb_spec (ptr r) NULL) as [Er|Hr]]; cbn [orb].
  - apply (in_near _ _ Left) in H. apply (ptr_null _ _ _ _ _ H) in El. subst l. by apply (Hone Left r).
  - apply (in_far _ _ Left) in H. apply (ptr_null _ _ _ _ _ H) in Er. subst r. apply (Hone Right l); [done|apply app_nil_r].
  - apply wp_bind. eapply wp_mono; [eapply erase_two_ok; [exact H|exact Hrb|by intros ->|by intros ->]|].
    clear dependent m. intros res m (fs & k1 & y & z & v & w & u & -> & Hfs & -> & H).
    change (T k l x ?r) with (mk Right k r x l) in Hrb. change (plug c (mk Right k ?r x l)) with (plug (Fr Right c k x l) r) in Hrb.
    rewrite <- plug_down in Hrb. apply rb_plug in Hrb as (n & Hc & Hn & _).
    apply (crb_down_same Left fs _ (Fr Right c k y l)) in Hc as [Hc _]; [|intros n' Hc'; inversion Hc'; by constructor|done].
    change (T k1 E y z) with (mk Left k1 E y z) in Hn. eapply wp_mono; [eapply erase_finish; [exact H|exact Hc|exact Hn|]|].
    { rewrite depth_down. simpl. lia. }
    clear dependent m. intros [] m (t' & Ht' & Hrb & Hi).
    exists t', v, w, u. split; [done|]. split; [done|]. rewrite Hi, before_down.
    rewrite (along_inorder fs c), (after_down_same Left fs (Fr Right c k y l) c) by done. same_order.
Qed.
End Remove.

(** C3: rb_erase of a node of a red-black tree ends, leaves the memory around the
    tree and the removed node alone, and the tree it leaves is red-black and has the
    other nodes in their order. *)
Theorem rb_erase_balances root m c k l x r F :
  holds_tree root m (plug c (T k l x r)) F -> rb_tree (plug c (T k l x r)) ->
  exists m' t v w u, rb_erase x root m = Ok (tt, m') /\
    holds_tree root m' t (spare x v w u ++ F) /\ rb_tree t /\
    inorder t = before c ++ inorder l ++ inorder r ++ after c.
Proof.
  intros H Hrb. unfold holds_tree in H. apply zrep_plug in H.
  pose proof (rb_erase_ok root m c k l x r F H Hrb) as Hw.
  apply wp_run in Hw as ([] & m' & E' & t & v & w & u & Ht). by exists m', t, v, w, u.
Qed.

(** ** Walking in order *)

(** The nodes of a tree and those beyond a place, in the direction of [s]. *)
Definition ord (s : side) (t : tree) : list Z := match s with Right => inorder t | Left => reverse (inorder t) end.
Definition beyond (s : side) (c : ctx) : list Z := match s with Right => after c | Left => reverse (before c) end.

Lemma ord_mk s k x a y : ord s (mk (opp s) k x a y) = ord s x ++ a :: ord s y.
Proof. destruct s; simpl; [|done]. by rewrite reverse_app, reverse_cons, <- app_assoc. Qed.

Lemma beyond_far s c k a y : beyond s (Fr s c k a y) = beyond s c.
Proof. by destruct s. Qed.

Lemma beyond_near s c k a y : beyond s (Fr (opp s) c k a y) = a :: ord s y ++ beyond s c.
Proof. destruct s; simpl; [|done]. by rewrite !reverse_app, <- app_assoc. Qed.

Lemma ord_along s fs k y z : exists l, ord s (along (opp s) fs (mk (opp s) k E y z)) = y :: l.
Proof.
  induction fs as [|[[k' a] y'] fs [l IH]]; simpl along; rewrite ord_mk; [|rewrite IH; by eexists].
  eexists. destruct s; reflexivity.
Qed.

Section Next.
Context (root : Z).
Abbreviation zrep := (zrep root).

Lemma parent_ne m s c k x a y F : zrep m c (mk s k x a y) F -> parent_of c <> a.
Proof using.
  intros (Hm & Ha & _)%zrep_node. destruct c as [|s' c k' b y']; simpl; [by apply not_eq_sym, node_not_null|].
  cbn [centries parent_of] in Hm. rewrite <- ?app_assoc in Hm.
  eapply (cells_ne m b (parent_of c + cval k') a (b + cval k)). cells_with Hm.
Qed.

(** Going up until the node is not the child on side [s]. *)
Lemma wp_go_up fuel m s c t F Q :
  zrep m c t F -> t <> E -> (depth c < fuel)%nat -> Q (hd NULL (beyond s c)) m ->
  wp (loop fuel (fun node =>
        parent ← rb_parent node;
        if parent =? NULL then break parent else
        c ← load (parent + off s);
        if node =? c then continue parent else break parent) (ptr t)) Q m.
Proof using.
  revert fuel t. induction c as [|s' c IH k a y]; intros fuel t H Hne Hf HQ; (destruct fuel as [|fuel]; [lia|]);
    destruct t as [|k0 l x r]; try done; rewrite T_mk in H; apply wp_bind, wp_bind;
    (eapply wp_rb_parent; [exact H|]).
  - simpl in *. apply wp_ret, wp_ret. by destruct s.
  - apply out_near in H. pose proof (zrep_node _ _ _ _ _ _ _ _ _ H) as (_ & Ha & _ & Hx & _).
    apply node_not_null in Ha. cbn [parent_of]. rewrite (proj2 (Z.eqb_neq _ _)) by done.
    apply wp_bind. simpl ptr in *. destruct Hx as [Hx%node_not_null _]. simpl in Hf.
    assert (s' = s \/ s' = opp s) as [->| ->] by (destruct s, s'; auto).
    + eapply wp_near; [exact H|]. simpl. rewrite Z.eqb_refl. apply wp_ret.
      replace a with (ptr (mk s k (T k0 l x r) a y)) by apply ptr_mk.
      apply IH; [done|by destruct s|lia|]. by rewrite beyond_far in HQ.
    + pose proof (children_ne _ _ _ _ _ _ _ _ _ H (or_introl Hx)) as Hxy. simpl in Hxy.
      rewrite mk_opp in H. eapply wp_near; [exact H|]. rewrite (proj2 (Z.eqb_neq _ _)) by done.
      apply wp_ret, wp_ret. by rewrite beyond_near in HQ.
Qed.

Lemma wp_step m s c k t x y F Q :
  zrep m c (mk s k t x y) F -> rb_tree (plug c (mk s k t x y)) ->
  Q (hd NULL (ord s t ++ beyond s c)) m -> wp (rb_step s x) Q m.
Proof using.
  intros H Hrb HQ. pose proof (zrep_depth _ _ _ _ _ H Hrb) as Hd. unfold rb_step. apply wp_bind. eapply wp_rb_parent; [exact H|].
  rewrite (proj2 (Z.eqb_neq _ _)) by (by eapply parent_ne). apply wp_bind. eapply wp_near; [exact H|].
  destruct (Z.eqb_spec (ptr t) NULL) as [Et|Hne]; cbn [negb].
  - pose proof H as Ht. apply in_near, ptr_null in Ht; [|done]. subst t.
    replace x with (ptr (mk s k E x y)) by apply ptr_mk.
    eapply wp_go_up; [exact H|by destruct s|unfold RB_DEPTH; lia|]. by destruct s.
  - apply in_near in H. eapply wp_go_down; [exact H|exact Hrb|by intros ->|]. intros fs k' y' z -> _.
    destruct (ord_along s fs k' y' z) as [l El]. rewrite El in HQ. exact HQ.
Qed.

Lemma wp_end m s t F Q :
  zrep m Top t F -> rb_tree t -> Q (hd NULL (ord (opp s) t)) m -> wp (rb_end s root) Q m.
Proof using.
  intros H Hrb HQ. unfold rb_end. apply wp_bind. pose proof H as (Hm & _). cbn [link] in Hm. cell_load Hm.
  destruct (Z.eqb_spec (ptr t) NULL) as [Et|Hne].
  - apply (ptr_null _ _ _ _ _ H) in Et. subst t. by destruct s.
  - eapply wp_go_down; [exact H|exact Hrb|by intros ->|]. intros fs k y z -> _.
    destruct (ord_along (opp s) fs k y z) as [l El]. rewrite opp_opp in El. by rewrite El in HQ.
Qed.
End Next.

(** A node of the tree and the nodes before and after it. *)
Lemma inorder_place t i x :
  inorder t !! i = Some x ->
  exists c k l r, t = plug c (T k l x r) /\ i = length (before c ++ inorder l) /\
    drop (S i) (inorder t) = inorder r ++ after c /\ take i (inorder t) = before c ++ inorder l.
Proof.
  intros Hx. enough (exists c k l r, t = plug c (T k l x r) /\ i = length (before c ++ inorder l)) as (c & k & l & r & -> & ->).
  { exists c, k, l, r. rewrite inorder_plug. simpl. rewrite <- app_assoc. simpl.
    rewrite (app_assoc (before c)). split; [done|]. split; [done|]. split; [|by rewrite take_app_length].
    rewrite cons_single, app_assoc, drop_app_length'; [done|]. rewrite (length_app _ [x]). simpl. lia. }
  assert (forall c, exists c' k l r, plug c t = plug c' (T k l x r) /\ (length (before c) + i)%nat = length (before c' ++ inorder l)) as H.
  { revert i Hx. induction t as [|k l IHl a r IHr]; intros i Hx c; [done|]. simpl in Hx.
    apply lookup_app_Some in Hx as [Hx|[Hi Hx]].
    - destruct (IHl _ Hx (Fr Left c k a r)) as (c' & k' & l' & r' & E' & Ei). by exists c', k', l', r'.
    - destruct (i - length (inorder l))%nat as [|j] eqn:Ej; simpl in Hx.
      + injection Hx as ->. exists c, k, l, r. split; [done|]. rewrite length_app. lia.
      + destruct (IHr _ Hx (Fr Right c k a l)) as (c' & k' & l' & r' & E' & Ei). exists c', k', l', r'.
        split; [done|]. rewrite <- Ei. simpl. rewrite !length_app. simpl. lia. }
  destruct (H Top) as (c & k & l & r & E' & Ei). by exists c, k, l, r.
Qed.

(** On a red-black tree rb_first and rb_last return the ends of the order (NULL
    for an empty tree), and rb_next and rb_prev the neighbours of a node, NULL at
    the ends; none of them changes the memory or fails to return. *)
Theorem rb_walk_in_order root m t F :
  holds_tree root m t F -> rb_tree t ->
  rb_first root m = Ok (hd NULL (inorder t), m) /\
  rb_last root m = Ok (hd NULL (reverse (inorder t)), m) /\
  forall i x, inorder t !! i = Some x ->
    rb_next x m = Ok (default NULL (inorder t !! S i), m) /\
    rb_prev x m = Ok (hd NULL (reverse (take i (inorder t))), m).
Proof.
  intros H Hrb. unfold holds_tree in H. split; [|split].
  - apply wp_eq. eapply wp_end; [exact H|done|done].
  - apply wp_eq. eapply wp_end; [exact H|done|done].
  - intros i x Hx. destruct (inorder_place t i x Hx) as (c & k & l & r & -> & _ & Hd & Ht).
    apply zrep_plug in H. split.
    + apply wp_eq. change (T k l x r) with (mk Right k r x l) in H, Hrb. eapply wp_step; [exact H|exact Hrb|].
      split; [|done]. rewrite <- (Nat.add_0_r (S i)), <- lookup_drop, Hd. cbn [ord beyond].
      by destruct (inorder r ++ after c).
    + apply wp_eq. change (T k l x r) with (mk Left k l x r) in H, Hrb. eapply wp_step; [exact H|exact Hrb|].
      split; [|done]. rewrite Ht. cbn [ord beyond]. by rewrite reverse_app.
Qed.

(** ** Replacing a node *)

(** Rb_replace_node puts the new node at the place of the victim: the tree keeps
    its shape, colours and other nodes, and the memory around it is unchanged. *)
Theorem rb_replace_node_in_place root m c k l x r y v w u F :
  holds_tree root m (plug c (T k l x r)) (spare y v w u ++ F) -> node_addr y ->
  exists m' v' w' u', rb_replace_node x y root m = Ok (tt, m') /\
    holds_tree root m' (plug c (T k l y r)) (spare x v' w' u' ++ F).
Proof.
  intros H Hy. unfold holds_tree in *. apply zrep_plug in H. rewrite T_mk in H.
  apply zrep_node in H as (Hm & Hx & Hp & Hal & Har & Hc). unfold spare in Hm. rewrite <- ?app_assoc in Hm. cbn [opp] in Hm.
  pose proof (node_parent_addr x Hx). pose proof (node_parent_addr y Hy).
  assert (wp (rb_replace_node x y root) (fun _ m' => exists v' w' u', zrep root m' c (T k l y r) (spare x v' w' u' ++ F)) m) as Hw.
  { unfold rb_replace_node. apply wp_bind, wp_bind. cell_load Hm. apply wp_ret. rewrite pc_parent by done.
    apply wp_bind. eapply (wp_set_child root Left _ c x (parent_of c + cval k)); [cells_with Hm|done|by apply node_not_null|].
    clear dependent m. intros m Hm. apply wp_bind. cell_load Hm. apply wp_bind.
    eapply (wp_reparent m l x y); [cells_with Hm|done..|]. clear dependent m. intros m Hm.
    apply wp_bind. cell_load Hm. apply wp_bind.
    eapply (wp_reparent m r x y); [cells_with Hm|done..|]. clear dependent m. intros m Hm.
    apply wp_bind. cell_load Hm. apply wp_bind. cell_store Hm.
    apply wp_bind. cell_load Hm. apply wp_bind. cell_store Hm.
    apply wp_bind. cell_load Hm. cell_store Hm.
    exists (parent_of c + cval k), (ptr r), (ptr l). split; [|done]. unfold spare.
    rewrite T_mk, ptr_mk, entries_mk. cbn [opp]. cells_by Hm. }
  apply wp_run in Hw as ([] & m' & E' & v' & w' & u' & Hz). exists m', v', w', u'. split; [done|]. by apply zrep_plug in Hz.
Qed.

(** ** Examples *)

(** The memory of a tree and spare cells. *)
Definition tree_memory (root : Z) (t : tree) (F : list (Z * Z)) : mem :=
  list_to_map ([(root, ptr t)] ++ entries NULL t ++ [] ++ F).

(** A black node with a red child on the left, and a spare node. *)
Definition small_tree : tree := T Black (T Red E 16 E) 32 E.

Lemma small_tree_held F :
  bool_decide (NoDup ([(4, 32)] ++ entries NULL small_tree ++ [] ++ F).*1) = true ->
  holds_tree 4 (tree_memory 4 small_tree F) small_tree F.
Proof.
  intros H. split; [by apply cells_list_to_map|]. split; [|done].
  repeat split; simpl; try lia; reflexivity.
Qed.

Lemma small_tree_rb : rb_tree small_tree.
Proof. split; [done|]. exists 1%nat. by repeat constructor. Qed.

Lemma rb_insert_balances_witness :
  let m := tree_memory 4 small_tree (spare 64 0 0 0) in
  exists m' t, (rb_link_node 64 16 24 ;; rb_insert_color 64 4) m = Ok (tt, m') /\
    holds_tree 4 m' t [] /\ rb_tree t /\ inorder t = [64; 16; 32].
Proof.
  apply (rb_insert_balances 4 _ (Fr Left (Fr Left Top Black 32 E) Red 16 E) 64 0 0 0 []).
  - apply (small_tree_held (spare 64 0 0 0)). reflexivity.
  - apply small_tree_rb.
  - split; [lia|reflexivity].
Defined.

Lemma rb_erase_balances_witness :
  exists m' t v w u, rb_erase 32 4 (tree_memory 4 small_tree []) = Ok (tt, m') /\
    holds_tree 4 m' t (spare 32 v w u ++ []) /\ rb_tree t /\ inorder t = [16].
Proof.
  apply (rb_erase_balances 4 _ Top Black (T Red E 16 E) 32 E []).
  - apply (small_tree_held []). reflexivity.
  - apply small_tree_rb.
Defined.

Lemma rb_walk_in_order_witness :
  let m := tree_memory 4 small_tree [] in
  rb_first 4 m = Ok (16, m) /\ rb_next 16 m = Ok (32, m).
Proof.
  intros m. destruct (rb_walk_in_order 4 m small_tree []) as (Hf & _ & Hn).
  - apply (small_tree_held []). reflexivity.
  - apply small_tree_rb.
  - exact (conj Hf (proj1 (Hn 0%nat 16 eq_refl))).
Defined.

Lemma rb_replace_node_in_place_witness :
  exists m' v w u, rb_replace_node 16 64 4 (tree_memory 4 small_tree (spare 64 0 0 0 ++ [])) = Ok (tt, m') /\
    holds_tree 4 m' (T Black (T Red E 64 E) 32 E) (spare 16 v w u ++ []).
Proof.
  apply (rb_replace_node_in_place 4 _ (Fr Left Top Black 32 E) Red E 16 E 64 0 0 0 []).
  - apply (small_tree_held (spare 64 0 0 0 ++ [])). reflexivity.
  - split; [lia|reflexivity].
Defined.
