(* ===== verification/RadixTree.v ===== *)
(** * Radix trees: lib/radix-tree.c

    A map from unsigned long indices to items, in nodes of 64 slots; each node keeps
    for each of two tags a bit per slot that tells whether something below is tagged.
    The state is the root and a store of nodes.  As for the red-black trees, the store
    is related to a tree with a place in it; here the place is reached by the digits
    of an index, and the array of ancestors that the code keeps is the context. *)

From S2P Require Import Prelude Cells.

#[local] Arguments loop : simpl never.

(** ** The code *)

Definition RADIX_TREE_MAP_SHIFT : Z := 6.
Definition RADIX_TREE_MAP_SIZE : Z := Z.shiftl 1 RADIX_TREE_MAP_SHIFT.
Definition RADIX_TREE_MAP_MASK : Z := RADIX_TREE_MAP_SIZE - 1.
Definition RADIX_TREE_MAX_TAGS : Z := 2.
Definition RADIX_TREE_INDEX_BITS : Z := 32.
Definition RADIX_TREE_MAX_PATH : Z := (RADIX_TREE_INDEX_BITS + RADIX_TREE_MAP_SHIFT - 1) / RADIX_TREE_MAP_SHIFT.
Definition __GFP_BITS_SHIFT : Z := 21.
Definition __GFP_BITS_MASK : Z := Z.shiftl 1 __GFP_BITS_SHIFT - 1.
Definition __GFP_WAIT : Z := 0x10.

(** A node; [tags] has for each tag the bitmap of 64 bits. *)
Record radix_tree_node := RNode { height : Z; count : Z; slots : list Z; tags : list Z }.
Record radix_tree_root := RRoot { rheight : Z; gfp_mask : Z; rnode : Z }.

(** [preloads] holds the nodes that radix_tree_preload has set aside, the last first,
    [pool] those the slab allocator has left, [pending] those that are handed to
    call_rcu and wait for the readers. *)
Record radix_state := RState {
  root : radix_tree_root; node_at : gmap Z radix_tree_node; preloads : list Z; pool : list Z; pending : list Z }.

Abbreviation RM := (ST radix_state).

Definition get_root : RM radix_tree_root := fun s => Ok (root s, s).
Definition set_root (r : radix_tree_root) : RM unit :=
  fun s => Ok (tt, RState r (node_at s) (preloads s) (pool s) (pending s)).
Definition set_rnode (p : Z) : RM unit := r ← get_root; set_root (RRoot (rheight r) (gfp_mask r) p).
Definition set_rheight (h : Z) : RM unit := r ← get_root; set_root (RRoot h (gfp_mask r) (rnode r)).
Definition set_gfp_mask (g : Z) : RM unit := r ← get_root; set_root (RRoot (rheight r) g (rnode r)).

Definition get_node (p : Z) : RM radix_tree_node := fun s =>
  match node_at s !! p with
  | Some n => Ok (n, s)
  | None => Fault BadAddress
  end.
Definition upd_node (p : Z) (f : radix_tree_node -> radix_tree_node) : RM unit := fun s =>
  match node_at s !! p with
  | Some n => Ok (tt, RState (root s) (<[p := f n]> (node_at s)) (preloads s) (pool s) (pending s))
  | None => Fault BadAddress
  end.

Definition get_slot (p offset : Z) : RM Z :=
  n ← get_node p;
  match slots n !! Z.to_nat offset with
  | Some v => mret v
  | None => stop BadAddress
  end.
Definition set_slot (p offset v : Z) : RM unit :=
  upd_node p (fun n => RNode (height n) (count n) (<[Z.to_nat offset := v]> (slots n)) (tags n)).
Definition set_count (p : Z) (f : Z -> Z) : RM unit :=
  upd_node p (fun n => RNode (height n) (u32 (f (count n))) (slots n) (tags n)).
Definition set_height (p h : Z) : RM unit := upd_node p (fun n => RNode h (count n) (slots n) (tags n)).

Definition mask (tag : Z) (n : radix_tree_node) : Z := default 0 (tags n !! Z.to_nat tag).
Definition tag_set (p tag offset : Z) : RM unit :=
  upd_node p (fun n => RNode (height n) (count n) (slots n)
                         (<[Z.to_nat tag := Z.setbit (mask tag n) offset]> (tags n))).
Definition tag_clear (p tag offset : Z) : RM unit :=
  upd_node p (fun n => RNode (height n) (count n) (slots n)
                         (<[Z.to_nat tag := Z.clearbit (mask tag n) offset]> (tags n))).
Definition tag_get (p tag offset : Z) : RM bool := n ← get_node p; mret (Z.testbit (mask tag n) offset).
Definition any_tag_set (p tag : Z) : RM bool := n ← get_node p; mret (negb (mask tag n =? 0)).

Definition root_tag_set (tag : Z) : RM unit :=
  r ← get_root; set_gfp_mask (Z.lor (gfp_mask r) (Z.shiftl 1 (tag + __GFP_BITS_SHIFT))).
Definition root_tag_clear (tag : Z) : RM unit :=
  r ← get_root; set_gfp_mask (Z.ldiff (gfp_mask r) (Z.shiftl 1 (tag + __GFP_BITS_SHIFT))).
Definition root_tag_clear_all : RM unit :=
  r ← get_root; set_gfp_mask (Z.land (gfp_mask r) __GFP_BITS_MASK).
Definition root_tag_get (tag : Z) : RM bool :=
  r ← get_root; mret (negb (Z.land (gfp_mask r) (Z.shiftl 1 (tag + __GFP_BITS_SHIFT)) =? 0)).

Definition radix_tree_ptr_to_indirect (p : Z) : Z := Z.lor p 1.
Definition radix_tree_indirect_to_ptr (p : Z) : Z := Z.land p 0xfffffffe.
Definition radix_tree_is_indirect_ptr (p : Z) : bool := negb (Z.land p 1 =? 0).

Definition root_gfp_mask (r : radix_tree_root) : Z := Z.land (gfp_mask r) __GFP_BITS_MASK.

(** The slab allocator: NULL when it has no node left. *)
Definition kmem_cache_alloc : RM Z := fun s =>
  match pool s with
  | [] => Ok (NULL, s)
  | a :: l => Ok (a, RState (root s) (node_at s) (preloads s) l (pending s))
  end.

Definition get_preloads : RM (list Z) := fun s => Ok (preloads s, s).
Definition set_preloads (l : list Z) : RM unit :=
  fun s => Ok (tt, RState (root s) (node_at s) l (pool s) (pending s)).

(** A root that may not wait takes the nodes set aside first. *)
Definition radix_tree_node_alloc : RM Z :=
  r ← get_root;
  ret ← (if Z.land (root_gfp_mask r) __GFP_WAIT =? 0 then
           l ← get_preloads;
           match l with
           | [] => mret NULL
           | a :: l => set_preloads l ;; mret a
           end
         else mret NULL);
  ret ← (if ret =? NULL then kmem_cache_alloc else mret ret);
  BUG_ON (radix_tree_is_indirect_ptr ret) ;;
  mret ret.

(** Fill the array of nodes set aside. *)
Definition radix_tree_preload : RM Z :=
  loop (S (Z.to_nat RADIX_TREE_MAX_PATH)) (fun _ =>
    l ← get_preloads;
    if Z.of_nat (length l) <? RADIX_TREE_MAX_PATH then
      node ← kmem_cache_alloc;
      if node =? NULL then break (- ENOMEM) else
      set_preloads (node :: l) ;; continue tt
    else break 0) tt.

Definition radix_tree_node_free (p : Z) : RM unit := fun s =>
  Ok (tt, RState (root s) (node_at s) (preloads s) (pool s) (pending s ++ [p])).

(** What call_rcu does later with the first node that waits: clear the first slot and
    its tags and give the node back. *)
Definition radix_tree_node_rcu_free : RM unit := fun s =>
  match pending s with
  | [] => Ok (tt, s)
  | p :: l =>
      (tag_clear p 0 0 ;; tag_clear p 1 0 ;; set_slot p 0 NULL ;; set_count p (fun _ => 0))
        (RState (root s) (node_at s) (preloads s) (p :: pool s) l)
  end.

Definition __maxindex (height : Z) : Z :=
  let width := height * RADIX_TREE_MAP_SHIFT in
  let shift := RADIX_TREE_INDEX_BITS - width in
  if shift <? 0 then 0xffffffff
  else if 32 <=? shift then 0
  else Z.shiftr 0xffffffff shift.

Definition height_to_maxindex : list Z := __maxindex <$> seqZ 0 (RADIX_TREE_MAX_PATH + 1).

Definition radix_tree_maxindex (height : Z) : RM Z :=
  match height_to_maxindex !! Z.to_nat height with
  | Some v => mret v
  | None => stop BadAddress
  end.

(** No path is longer than [RADIX_TREE_MAX_PATH]; the fuel of every loop below. *)
Definition path_fuel : nat := 8.

(** One turn of the loop that makes the tree higher. *)
Definition extend_once : RM bool :=
  node ← radix_tree_node_alloc;
  if node =? NULL then mret false else
  r ← get_root;
  set_slot node 0 (radix_tree_indirect_to_ptr (rnode r)) ;;
  (t0 ← root_tag_get 0; if (t0 : bool) then tag_set node 0 0 else mret tt) ;;
  (t1 ← root_tag_get 1; if (t1 : bool) then tag_set node 1 0 else mret tt) ;;
  let newheight := rheight r + 1 in
  set_height node newheight ;;
  set_count node (fun _ => 1) ;;
  set_rnode (radix_tree_ptr_to_indirect node) ;;
  set_rheight newheight ;;
  mret true.

Definition radix_tree_extend (index : Z) : RM Z :=
  r ← get_root;
  h ← loop path_fuel (fun h =>
    max ← radix_tree_maxindex h;
    if max <? index then continue (h + 1) else break h) (rheight r + 1);
  if rnode r =? NULL then set_rheight h ;; mret 0 else
  loop path_fuel (fun _ =>
    ok ← extend_once;
    if negb (ok : bool) then break (- ENOMEM) else
    r ← get_root;
    if rheight r <? h then continue tt else break 0) tt.

(** The loop of radix_tree_insert: down to the slot of the index, with nodes added
    where they are missing; [None] when the allocation fails. *)
Definition insert_down (index height shift : Z) (slot : Z) : RM (option (Z * Z * Z)) :=
  loop path_fuel (fun '(height, shift, node, offset, slot) =>
    if 0 <? height then
      slot ← (if slot =? NULL then
                s ← radix_tree_node_alloc;
                if s =? NULL then mret NULL else
                set_height s height ;;
                (if negb (node =? NULL) then set_slot node offset s ;; set_count node (fun c => c + 1)
                 else set_rnode (radix_tree_ptr_to_indirect s)) ;;
                mret s
              else mret slot);
      if slot =? NULL then break None else
      let offset := Z.land (Z.shiftr index shift) RADIX_TREE_MAP_MASK in
      let node := slot in
      slot ← get_slot node offset;
      continue (height - 1, u32 (shift - RADIX_TREE_MAP_SHIFT), node, offset, slot)
    else break (Some (node, offset, slot)))
    (height, shift, NULL, 0, slot).

(** The rest of radix_tree_insert when the tree is high enough. *)
Definition insert_at (index item : Z) : RM Z :=
  r ← get_root;
  let slot := radix_tree_indirect_to_ptr (rnode r) in
  d ← insert_down index (rheight r) (u32 ((rheight r - 1) * RADIX_TREE_MAP_SHIFT)) slot;
  match d with
  | None => mret (- ENOMEM)
  | Some (node, offset, slot) =>
      if negb (slot =? NULL) then mret (- EEXIST) else
      (if negb (node =? NULL) then
         set_count node (fun c => c + 1) ;;
         set_slot node offset item ;;
         (t0 ← tag_get node 0 offset; BUG_ON t0) ;;
         (t1 ← tag_get node 1 offset; BUG_ON t1)
       else
         set_rnode item ;;
         (t0 ← root_tag_get 0; BUG_ON t0) ;;
         (t1 ← root_tag_get 1; BUG_ON t1)) ;;
      mret 0
  end.

Definition radix_tree_insert (index item : Z) : RM Z :=
  BUG_ON (radix_tree_is_indirect_ptr item) ;;
  r ← get_root;
  max ← radix_tree_maxindex (rheight r);
  error ← (if max <? index then radix_tree_extend index else mret 0);
  if negb (error =? 0) then mret error else insert_at index item.

(** The loop of radix_tree_lookup and radix_tree_lookup_slot. *)
Definition lookup_down (index height shift node : Z) : RM Z :=
  loop path_fuel (fun '(height, shift, node) =>
    node ← get_slot node (Z.land (Z.shiftr index shift) RADIX_TREE_MAP_MASK);
    if node =? NULL then break NULL else
    let height := u32 (height - 1) in
    if 0 <? height then continue (height, u32 (shift - RADIX_TREE_MAP_SHIFT), node)
    else break node) (height, shift, node).

Definition radix_tree_lookup (index : Z) : RM Z :=
  r ← get_root;
  let node := rnode r in
  if node =? NULL then mret NULL else
  if negb (radix_tree_is_indirect_ptr node) then
    if 0 <? index then mret NULL else mret node
  else
  let node := radix_tree_indirect_to_ptr node in
  n ← get_node node;
  max ← radix_tree_maxindex (height n);
  if max <? index then mret NULL else
  lookup_down index (height n) (u32 ((height n - 1) * RADIX_TREE_MAP_SHIFT)) node.

Definition radix_tree_tag_set (index tag : Z) : RM Z :=
  r ← get_root;
  max ← radix_tree_maxindex (rheight r);
  BUG_ON (max <? index) ;;
  slot ← loop path_fuel (fun '(height, shift, slot) =>
    if 0 <? height then
      let offset := Z.land (Z.shiftr index shift) RADIX_TREE_MAP_MASK in
      t ← tag_get slot tag offset;
      (if negb (t : bool) then tag_set slot tag offset else mret tt) ;;
      slot ← get_slot slot offset;
      BUG_ON (slot =? NULL) ;;
      continue (height - 1, u32 (shift - RADIX_TREE_MAP_SHIFT), slot)
    else break slot)
    (rheight r, u32 ((rheight r - 1) * RADIX_TREE_MAP_SHIFT), radix_tree_indirect_to_ptr (rnode r));
  (if negb (slot =? NULL) then
     t ← root_tag_get tag;
     if negb (t : bool) then root_tag_set tag else mret tt
   else mret tt) ;;
  mret slot.

(** The loops of radix_tree_tag_clear and radix_tree_delete that go down with the
    path: the nodes and offsets passed, the last first, and the slot reached. *)
Definition path_down (index height shift slot : Z) : RM (list (Z * Z) * Z) :=
  loop path_fuel (fun '(height, shift, slot, path) =>
    if 0 <? height then
      if slot =? NULL then break ([], NULL) else
      let offset := Z.land (Z.shiftr index shift) RADIX_TREE_MAP_MASK in
      let node := slot in
      slot ← get_slot node offset;
      continue (height - 1, u32 (shift - RADIX_TREE_MAP_SHIFT), slot, (node, offset) :: path)
    else break (path, slot)) (height, shift, slot, []).

(** Up again, clearing the tag as long as nothing else in the node has it; true when
    the end of the path is passed. *)
Fixpoint clear_up (tag : Z) (path : list (Z * Z)) : RM bool :=
  match path with
  | [] => mret true
  | (node, offset) :: path =>
      t ← tag_get node tag offset;
      if negb (t : bool) then mret false else
      tag_clear node tag offset ;;
      any ← any_tag_set node tag;
      if (any : bool) then mret false else clear_up tag path
  end.

Definition radix_tree_tag_clear (index tag : Z) : RM Z :=
  r ← get_root;
  max ← radix_tree_maxindex (rheight r);
  if max <? index then mret NULL else
  '(path, slot) ← path_down index (rheight r) (u32 ((rheight r - 1) * RADIX_TREE_MAP_SHIFT))
                    (radix_tree_indirect_to_ptr (rnode r));
  if slot =? NULL then mret NULL else
  up ← clear_up tag path;
  (if (up : bool) then
     t ← root_tag_get tag;
     if (t : bool) then root_tag_clear tag else mret tt
   else mret tt) ;;
  mret slot.

Definition radix_tree_shrink : RM unit :=
  loop path_fuel (fun _ =>
    r ← get_root;
    if 0 <? rheight r then
      BUG_ON (negb (radix_tree_is_indirect_ptr (rnode r))) ;;
      let to_free := radix_tree_indirect_to_ptr (rnode r) in
      n ← get_node to_free;
      if negb (count n =? 1) then break tt else
      newptr ← get_slot to_free 0;
      if newptr =? NULL then break tt else
      set_rnode (if 1 <? rheight r then radix_tree_ptr_to_indirect newptr else newptr) ;;
      set_rheight (rheight r - 1) ;;
      radix_tree_node_free to_free ;;
      continue tt
    else break tt) tt.

(** The loop of radix_tree_delete that goes up and drops the nodes that get empty. *)
Fixpoint delete_up (path : list (Z * Z)) (to_free : Z) : RM unit :=
  match path with
  | [] =>
      root_tag_clear_all ;;
      set_rheight 0 ;;
      set_rnode NULL ;;
      (if negb (to_free =? NULL) then radix_tree_node_free to_free else mret tt)
  | (node, offset) :: path =>
      set_slot node offset NULL ;;
      set_count node (fun c => c - 1) ;;
      (if negb (to_free =? NULL) then radix_tree_node_free to_free else mret tt) ;;
      n ← get_node node;
      if negb (count n =? 0) then
        r ← get_root;
        if node =? radix_tree_indirect_to_ptr (rnode r) then radix_tree_shrink else mret tt
      else delete_up path node
  end.

Definition clear_if_tagged (index tag node offset : Z) : RM unit :=
  t ← tag_get node tag offset;
  if (t : bool) then radix_tree_tag_clear index tag ;; mret tt else mret tt.

Definition radix_tree_delete (index : Z) : RM Z :=
  r ← get_root;
  max ← radix_tree_maxindex (rheight r);
  if max <? index then mret NULL else
  if rheight r =? 0 then
    root_tag_clear_all ;; set_rnode NULL ;; mret (rnode r)
  else
  '(path, slot) ← path_down index (rheight r) (u32 ((rheight r - 1) * RADIX_TREE_MAP_SHIFT))
                    (radix_tree_indirect_to_ptr (rnode r));
  if slot =? NULL then mret NULL else
  match path with
  | [] => mret slot
  | (node, offset) :: _ =>
      clear_if_tagged index 0 node offset ;;
      clear_if_tagged index 1 node offset ;;
      delete_up path NULL ;;
      mret slot
  end.

Definition radix_tree_tagged (tag : Z) : RM bool := root_tag_get tag.

Definition radix_tree_next_hole (index max_scan : Z) : RM Z :=
  loop (S (Z.to_nat max_scan)) (fun '(i, index) =>
    if i <? max_scan then
      item ← radix_tree_lookup index;
      if item =? NULL then break index else
      let index := u32 (index + 1) in
      if index =? 0 then break index else continue (i + 1, index)
    else break index) (0, index).

(** ** Trees and places in trees *)

(** [RItem p] is an item in a slot, [RSub a tg kids] the node at [a] with its tag
    bitmaps and what its slots lead to. *)
Inductive rtree := RNull | RItem (p : Z) | RSub (a : Z) (tg : list Z) (kids : list rtree).

Definition ptr (t : rtree) : Z := match t with RNull => NULL | RItem p => p | RSub a _ _ => a end.

(** Node addresses and items have bit 0 clear. *)
Definition even_ptr (p : Z) : Prop := 0 < p < 2 ^ 32 /\ Z.land p 1 = 0.

Definition in_use (l : list Z) : Z := Z.of_nat (length (filter (fun p => p <> NULL) l)).

(** The record of a node of height [h] with the given slots. *)
Definition node_of (h : nat) (tg : list Z) (sl : list Z) : radix_tree_node := RNode (Z.of_nat h) (in_use sl) sl tg.

Fixpoint entries (h : nat) (t : rtree) : list (Z * radix_tree_node) :=
  match h, t with
  | S h', RSub a tg kids => [(a, node_of h tg (map ptr kids))] ++ concat (map (entries h') kids)
  | _, _ => []
  end.

(** A tree of height [h]. *)
Fixpoint shape (h : nat) (t : rtree) : Prop :=
  match h, t with
  | _, RNull => True
  | O, RItem p => even_ptr p
  | S h', RSub a tg kids => even_ptr a /\ length kids = 64%nat /\ length tg = 2%nat /\ Forall (shape h') kids
  | _, _ => False
  end.

(** The digit of an index that selects the slot of a node of height [h + 1]. *)
Definition digit (h : nat) (i : Z) : nat := Z.to_nat ((i / 64 ^ Z.of_nat h) mod 64).

(** The item at an index, 0 if there is none. *)
Fixpoint tget (h : nat) (t : rtree) (i : Z) : Z :=
  match h, t with
  | O, RItem p => p
  | S h', RSub _ _ kids => tget h' (default RNull (kids !! digit h' i)) i
  | _, _ => NULL
  end.

(** A path to a slot: the nodes above with the offset taken in each, the nearest
    first. *)
Inductive rctx := RTop | RFr (a : Z) (tg : list Z) (kids : list rtree) (o : nat) (c : rctx).

Fixpoint rplug (c : rctx) (t : rtree) : rtree :=
  match c with
  | RTop => t
  | RFr a tg kids o c => rplug c (RSub a tg (<[o := t]> kids))
  end.

Fixpoint rdepth (c : rctx) : nat := match c with RTop => 0 | RFr _ _ _ _ c => S (rdepth c) end.

(** The nodes of the path and of what hangs beside it; [p] is the pointer in the slot. *)
Fixpoint centries (h : nat) (c : rctx) (p : Z) : list (Z * radix_tree_node) :=
  match c with
  | RTop => []
  | RFr a tg kids o c =>
      [(a, node_of (S h) tg (<[o := p]> (map ptr kids)))] ++
      concat (map (entries h) (<[o := RNull]> kids)) ++ centries (S h) c a
  end.

(** The path is that of the index [i]. *)
Fixpoint cshape (h : nat) (c : rctx) : Prop :=
  match c with
  | RTop => True
  | RFr a tg kids o c =>
      even_ptr a /\ length kids = 64%nat /\ length tg = 2%nat /\ Forall (shape h) kids /\ (o < 64)%nat /\ cshape (S h) c
  end.

Fixpoint on_path (h : nat) (c : rctx) (i : Z) : bool :=
  match c with
  | RTop => true
  | RFr _ _ _ o c => bool_decide (o = digit h i) && on_path (S h) c i
  end.

Lemma entries_null h : entries h RNull = [].
Proof. by destruct h. Qed.

Lemma map_insert {A B} (f : A -> B) o x l : map f (<[o := x]> l) = <[o := f x]> (map f l).
Proof. apply (list_fmap_insert f). Qed.

(** The nodes of one child apart from those of the others. *)
Lemma concat_insert h kids o t :
  (o < length kids)%nat ->
  concat (map (entries h) (<[o := t]> kids)) ≡ₚ entries h t ++ concat (map (entries h) (<[o := RNull]> kids)).
Proof.
  intros Ho. rewrite !insert_take_drop by done. rewrite !map_app, !concat_app. simpl. rewrite entries_null. perm.
Qed.

Lemma shape_plug h c t : shape h t -> cshape h c -> shape (h + rdepth c) (rplug c t).
Proof.
  revert h t. induction c as [|a tg kids o c IH]; intros h t Ht Hc; simpl; [by rewrite Nat.add_0_r|].
  destruct Hc as (Ha & Hk & Hg & Hs & Ho & Hc). rewrite Nat.add_succ_r. apply (IH (S h)); [|done].
  simpl. rewrite length_insert. split; [done|]. split; [done|]. split; [done|]. by apply Forall_insert.
Qed.

Lemma entries_plug h c t :
  cshape h c -> entries (h + rdepth c) (rplug c t) ≡ₚ entries h t ++ centries h c (ptr t).
Proof.
  revert h t. induction c as [|a tg kids o c IH]; intros h t Hc; [simpl; by rewrite Nat.add_0_r, app_nil_r|].
  destruct Hc as (Ha & Hk & Hg & Hs & Ho & Hc). cbn [rdepth rplug centries]. rewrite Nat.add_succ_r.
  change (S (h + rdepth c)) with (S h + rdepth c)%nat. rewrite IH by done. cbn [entries ptr].
  rewrite concat_insert by lia. rewrite map_insert. perm.
Qed.

(** Replacing what the slot leads to changes the items on the path alone. *)
Lemma tget_plug h c t i :
  cshape h c -> tget (h + rdepth c) (rplug c t) i = if on_path h c i then tget h t i else tget (h + rdepth c) (rplug c RNull) i.
Proof.
  revert h t. induction c as [|a tg kids o c IH]; intros h t Hc; [simpl; by rewrite Nat.add_0_r|].
  destruct Hc as (Ha & Hk & Hg & Hs & Ho & Hc). cbn [rdepth rplug on_path]. rewrite Nat.add_succ_r.
  change (S (h + rdepth c)) with (S h + rdepth c)%nat. rewrite IH by done.
  rewrite (IH (S h) (RSub a tg (<[o := RNull]> kids))) by done. destruct (on_path (S h) c i); [|by rewrite andb_false_r].
  rewrite andb_true_r. cbn [tget]. case_bool_decide as E.
  - subst o. by rewrite list_lookup_insert_eq by lia.
  - by rewrite !list_lookup_insert_ne by done.
Qed.

(** ** Digits *)

Lemma digit_code h i : Z.land (Z.shiftr i (6 * Z.of_nat h)) RADIX_TREE_MAP_MASK = Z.of_nat (digit h i).
Proof.
  unfold digit. change RADIX_TREE_MAP_MASK with (Z.ones 6). rewrite Z.land_ones, Z.shiftr_div_pow2 by lia.
  rewrite Z.pow_mul_r by lia. change (2 ^ 6) with 64. pose proof (Z.mod_pos_bound (i / 64 ^ Z.of_nat h) 64). lia.
Qed.

Lemma digit_lt h i : (digit h i < 64)%nat.
Proof. unfold digit. pose proof (Z.mod_pos_bound (i / 64 ^ Z.of_nat h) 64). lia. Qed.

(** Indices with the same digits from [h] on are equal above. *)
Lemma on_path_same h c i j :
  on_path h c i = true -> on_path h c j = true ->
  0 <= i < 64 ^ Z.of_nat (h + rdepth c) -> 0 <= j < 64 ^ Z.of_nat (h + rdepth c) ->
  i / 64 ^ Z.of_nat h = j / 64 ^ Z.of_nat h.
Proof.
  revert h. induction c as [|a tg kids o c IH]; intros h Hi Hj Bi Bj; simpl in *.
  - rewrite Nat.add_0_r in *. by rewrite !Z.div_small.
  - apply andb_prop in Hi as [Ei%bool_decide_eq_true Hi], Hj as [Ej%bool_decide_eq_true Hj].
    rewrite Nat.add_succ_r in Bi, Bj. specialize (IH (S h) Hi Hj Bi Bj). unfold digit in Ei, Ej.
    pose proof (Z.mod_pos_bound (i / 64 ^ Z.of_nat h) 64). pose proof (Z.mod_pos_bound (j / 64 ^ Z.of_nat h) 64).
    rewrite Nat2Z.inj_succ, Z.pow_succ_r, (Z.mul_comm 64), <- !Z.div_div in IH by lia.
    rewrite (Z.div_mod (i / 64 ^ Z.of_nat h) 64), (Z.div_mod (j / 64 ^ Z.of_nat h) 64) by lia. lia.
Qed.

(** ** The state and a place in its tree *)

Definition root_ptr (h : nat) (p : Z) : Z :=
  match h with O => p | S _ => if p =? NULL then NULL else radix_tree_ptr_to_indirect p end.

(** The nodes that a root with the mask [g] can get. *)
Definition supply (g : Z) (s : radix_state) : list Z :=
  (if Z.land (Z.land g __GFP_BITS_MASK) __GFP_WAIT =? 0 then preloads s else []) ++ pool s.

(** The store holds the tree [rplug c t] and the nodes [F] besides; [g] is the mask of
    the root, [P] and [D] are the free and the waiting nodes. *)
Definition zst (s : radix_state) (h : nat) (c : rctx) (t : rtree) (g : Z)
    (F : list (Z * radix_tree_node)) (P D : list Z) : Prop :=
  root s = RRoot (Z.of_nat (h + rdepth c)) g (root_ptr (h + rdepth c) (ptr (rplug c t))) /\
  cells (node_at s) (entries h t ++ centries h c (ptr t) ++ F) /\
  shape h t /\ cshape h c /\ supply g s = P /\ pending s = D.

Lemma insert_same {A} (l : list A) o x : l !! o = Some x -> <[o := x]> l = l.
Proof. apply list_insert_id. Qed.

Lemma insert_default (kids : list rtree) o : (o < length kids)%nat -> <[o := default RNull (kids !! o)]> kids = kids.
Proof. intros Ho. destruct (lookup_lt_is_Some_2 kids o Ho) as [x Hx]. rewrite Hx. by apply list_insert_id. Qed.

Lemma shape_null h : shape h RNull.
Proof. by destruct h. Qed.

Lemma shape_default h kids o : Forall (shape h) kids -> shape h (default RNull (kids !! o)).
Proof.
  intros H. destruct (kids !! o) as [x|] eqn:E; simpl; [|apply shape_null]. by eapply Forall_lookup_1.
Qed.

Lemma ptr_plug c t t' : ptr t = ptr t' -> ptr (rplug c t) = ptr (rplug c t').
Proof. destruct c as [|a tg kids o c]; [done|]. intros _. simpl. revert a tg kids o t t'.
  induction c as [|a' tg' kids' o' c IH]; intros; simpl; [done|]. apply IH.
Qed.

Section Moves.
Implicit Types (F : list (Z * radix_tree_node)) (P D : list Z).

(** One level down and up. *)
Lemma zst_up s h a tg kids o c t g F P D :
  zst s h (RFr a tg kids o c) t g F P D -> zst s (S h) c (RSub a tg (<[o := t]> kids)) g F P D.
Proof.
  intros (Hr & Hc & Ht & (Ha & Hk & Hg & Hs & Ho & Hcs) & HP & HD). cbn [rdepth rplug] in Hr. rewrite Nat.add_succ_r in Hr.
  split; [done|]. split; [|].
  - cbn [centries] in Hc. cbn [entries ptr]. rewrite concat_insert by lia. rewrite map_insert.
    refine (cells_from _ _ _ Hc _). perm.
  - split; [|done]. simpl. rewrite length_insert. do 3 (split; [done|]). by apply Forall_insert.
Qed.

Lemma zst_down s h a tg kids o c g F P D :
  (o < 64)%nat -> zst s (S h) c (RSub a tg kids) g F P D ->
  zst s h (RFr a tg kids o c) (default RNull (kids !! o)) g F P D.
Proof.
  intros Ho (Hr & Hc & (Ha & Hk & Hg & Hs) & Hcs & HP & HD). pose proof (insert_default kids o ltac:(lia)) as Ek.
  split; [cbn [rdepth rplug]; by rewrite Nat.add_succ_r, Ek|]. split; [|].
  - cbn [entries ptr centries] in *. rewrite <- Ek in Hc. rewrite concat_insert, map_insert in Hc by lia.
    refine (cells_from _ _ _ Hc _). perm.
  - split; [by apply shape_default|]. done.
Qed.

(** The whole tree from its root. *)
Lemma zst_plug s h c t g F P D :
  zst s h c t g F P D <-> zst s (h + rdepth c) RTop (rplug c t) g F P D /\ shape h t /\ cshape h c.
Proof.
  unfold zst. cbn [rdepth rplug centries cshape]. rewrite Nat.add_0_r. split.
  - intros (Hr & Hc & Ht & Hcs & HP & HD). split; [|done]. split; [done|]. split; [|by auto using shape_plug].
    rewrite entries_plug by done. refine (cells_from _ _ _ Hc _). perm.
  - intros ((Hr & Hc & _ & _ & HP & HD) & Ht & Hcs). split; [done|]. split; [|done].
    rewrite entries_plug in Hc by done. refine (cells_from _ _ _ Hc _). perm.
Qed.

(** The node at the place. *)
Lemma zst_node s h a tg kids c g F P D :
  zst s (S h) c (RSub a tg kids) g F P D ->
  node_at s !! a = Some (node_of (S h) tg (map ptr kids)) /\ even_ptr a /\ length kids = 64%nat /\ length tg = 2%nat.
Proof.
  intros (_ & Hc & (Ha & Hk & Hg & _) & _). split; [|done]. cbn [entries] in Hc. rewrite <- ?app_assoc in Hc.
  by apply cells_lookup in Hc.
Qed.

Lemma wp_get_node s a n Q : node_at s !! a = Some n -> Q n s -> wp (get_node a) Q s.
Proof. unfold wp, get_node. by intros ->. Qed.

Lemma wp_get_slot s h a tg kids o c g F P D Q :
  zst s (S h) c (RSub a tg kids) g F P D -> (o < 64)%nat ->
  Q (ptr (default RNull (kids !! o))) s -> wp (get_slot a (Z.of_nat o)) Q s.
Proof.
  intros (Hn & _ & Hk & _)%zst_node Ho HQ. apply wp_bind. eapply wp_get_node; [exact Hn|]. cbn [slots node_of].
  rewrite Nat2Z.id. destruct (lookup_lt_is_Some_2 kids o) as [x Hx]; [lia|]. rewrite Hx in HQ.
  by rewrite list_lookup_fmap, Hx.
Qed.

(** The node just above the place changes, in its tags or in what the slot leads to. *)
Lemma wp_upd_slot s h a tg tg' kids o c t t' g F F' P D f Q :
  zst s h (RFr a tg kids o c) t g F P D -> length tg' = 2%nat -> shape h t' ->
  entries h t ++ F ≡ₚ entries h t' ++ F' ->
  f (node_of (S h) tg (<[o := ptr t]> (map ptr kids))) = node_of (S h) tg' (<[o := ptr t']> (map ptr kids)) ->
  (forall s', zst s' h (RFr a tg' kids o c) t' g F' P D -> Q tt s') -> wp (upd_node a f) Q s.
Proof.
  intros (Hr & Hc & Ht & (Ha & Hk & Hg & Hs & Ho & Hcs) & HP & HD) Hg' Ht' HF Hf HQ. unfold wp, upd_node.
  cbn [centries] in Hc. rewrite <- ?app_assoc in Hc. edestruct (cells_update (node_at s) a) as [En Hu]; [exact Hc|pull_cell a|].
  rewrite En, Hf. apply HQ. split; [by rewrite Hr; cbn [rplug]; rewrite (ptr_plug c _ (RSub a tg' (<[o := t']> kids)))|].
  split; [|done]. cbn [centries node_at].
  refine (cells_from _ _ _ (Hu (node_of (S h) tg' (<[o := ptr t']> (map ptr kids)))) _).
  transitivity (([(a, node_of (S h) tg' (<[o := ptr t']> (map ptr kids)))] ++
    concat (map (entries h) (<[o := RNull]> kids)) ++ centries (S h) c a) ++ entries h t ++ F); [perm|].
  rewrite HF. perm.
Qed.

(** The same at the root. *)
Lemma wp_set_rnode s h t t' g F F' P D p Q :
  zst s h RTop t g F P D -> shape h t' -> entries h t ++ F ≡ₚ entries h t' ++ F' -> p = root_ptr h (ptr t') ->
  (forall s', zst s' h RTop t' g F' P D -> Q tt s') -> wp (set_rnode p) Q s.
Proof.
  intros (Hr & Hc & Ht & _ & HP & HD) Ht' HF -> HQ. apply wp_bind. apply HQ. cbn [rdepth rplug centries] in *.
  split; [rewrite Hr; simpl; by rewrite Nat.add_0_r|]. split; [|done]. cbn [node_at centries].
  by rewrite app_nil_l, <- HF.
Qed.

Lemma wp_upd_upd a f f' s (Q : unit -> radix_state -> Prop) :
  wp (upd_node a (fun n => f' (f n))) Q s -> wp (upd_node a f ;; upd_node a f') Q s.
Proof.
  unfold wp, mbind, M_bind, upd_node. destruct (node_at s !! a) as [n|]; [|done]. simpl.
  by rewrite lookup_insert_eq, insert_insert_eq.
Qed.
End Moves.

(** ** Counting the slots in use *)

Lemma in_use_insert l o p :
  (o < length l)%nat -> in_use (<[o := p]> l) = in_use (<[o := NULL]> l) + (if p =? NULL then 0 else 1).
Proof.
  intros Ho. unfold in_use. rewrite !insert_take_drop, !filter_app, !length_app by done. rewrite !filter_cons.
  rewrite (decide_False (P := NULL <> NULL)) by auto. destruct (Z.eqb_spec p NULL) as [->|Hne].
  - rewrite decide_False by auto. lia.
  - rewrite decide_True by done. simpl. lia.
Qed.

Lemma in_use_bound l : 0 <= in_use l <= Z.of_nat (length l).
Proof. unfold in_use. pose proof (length_filter (fun p : Z => p <> NULL) l). lia. Qed.

Lemma in_use_zero l : in_use l = 0 <-> l = replicate (length l) NULL.
Proof.
  induction l as [|p l IH]; [done|]. unfold in_use in *. rewrite filter_cons. cbn [length replicate].
  case_decide as Hp; simpl.
  - split; [lia|]. intros [= ->]. done.
  - rewrite IH. assert (p = NULL) as -> by (by destruct (decide (p = NULL))). split; [by intros <-|by intros [= <-]].
Qed.

Lemma in_use_wrap l k : length l = 64%nat -> - 1 <= k <= 1 -> 0 <= in_use l + k -> u32 (in_use l + k) = in_use l + k.
Proof. intros Hl Hk H. apply wrap_id. pose proof (in_use_bound l). split; lia. Qed.

(** ** Linking and unlinking *)

Section Links.
Implicit Types (F : list (Z * radix_tree_node)) (P D : list Z).

Lemma node_slot (f : list Z -> list Z) (k : Z) h tg sl sl' :
  length sl = 64%nat -> -1 <= k <= 1 -> f sl = sl' -> in_use sl' = in_use sl + k ->
  RNode (Z.of_nat h) (u32 (in_use sl + k)) (f sl) tg = node_of h tg sl'.
Proof.
  intros Hl Hk <- Hu. unfold node_of. rewrite Hu, in_use_wrap; try done. pose proof (in_use_bound (f sl)). lia.
Qed.

(** A slot that was empty gets [t]; the two orders of the updates. *)
Lemma wp_link s h a tg kids o c t g F F' P D Q :
  zst s h (RFr a tg kids o c) RNull g F P D -> shape h t -> t <> RNull -> F ≡ₚ entries h t ++ F' ->
  (forall s', zst s' h (RFr a tg kids o c) t g F' P D -> Q tt s') ->
  wp (set_slot a (Z.of_nat o) (ptr t) ;; set_count a (fun n => n + 1)) Q s /\
  wp (set_count a (fun n => n + 1) ;; set_slot a (Z.of_nat o) (ptr t)) Q s.
Proof.
  intros H Ht Hne HF HQ. pose proof H as (_ & _ & _ & (_ & Hk & Hg & _ & Ho & _) & _).
  assert (ptr t <> NULL) as Hp.
  { destruct h, t; simpl in *; try done; [destruct Ht|destruct Ht as [[] _]]; unfold NULL; lia. }
  assert (forall n : radix_tree_node, n = node_of (S h) tg (<[o := ptr RNull]> (map ptr kids)) ->
    RNode (height n) (u32 (count n + 1)) (<[Z.to_nat (Z.of_nat o) := ptr t]> (slots n)) (tags n) =
      node_of (S h) tg (<[o := ptr t]> (map ptr kids))) as Hn.
  { intros n ->. cbn [node_of height count slots tags]. rewrite Nat2Z.id.
    apply (node_slot (<[o := ptr t]>) 1); [by rewrite length_insert, length_map|lia|apply list_insert_insert_eq|].
    rewrite in_use_insert by (rewrite length_map; lia). by rewrite (proj2 (Z.eqb_neq _ _)). }
  split; apply wp_upd_upd; (eapply wp_upd_slot; [exact H|done|exact Ht|rewrite entries_null; exact HF|exact (Hn _ eq_refl)|exact HQ]).
Qed.

(** A slot is emptied; its tree stays in memory. *)
Lemma wp_unlink s h a tg kids o c t g F P D Q :
  zst s h (RFr a tg kids o c) t g F P D -> t <> RNull ->
  (forall s', zst s' h (RFr a tg kids o c) RNull g (entries h t ++ F) P D -> Q tt s') ->
  wp (set_slot a (Z.of_nat o) NULL ;; set_count a (fun n => n - 1)) Q s.
Proof.
  intros H Hne HQ. pose proof H as (_ & _ & Ht & (_ & Hk & Hg & _ & Ho & _) & _).
  assert (ptr t <> NULL) as Hp.
  { destruct h, t; simpl in *; try done; [destruct Ht|destruct Ht as [[] _]]; unfold NULL; lia. }
  apply wp_upd_upd. eapply (wp_upd_slot _ _ _ _ tg _ _ _ t RNull _ _ (entries h t ++ F)); [exact H|done|apply shape_null|by rewrite entries_null| |exact HQ].
  cbn [node_of height count slots tags]. rewrite Nat2Z.id.
  apply (node_slot (<[o := NULL]>) (-1)); [by rewrite length_insert, length_map|lia|apply list_insert_insert_eq|].
  rewrite (in_use_insert _ _ (ptr t)) by (rewrite length_map; lia). rewrite (proj2 (Z.eqb_neq _ _)) by done. simpl. lia.
Qed.
End Links.

(** ** Tags *)

Definition tmask (τ : nat) (tg : list Z) : Z := default 0 (tg !! τ).

(** [b] is the bit of the tag [τ] for the slot that leads to [t]: at an item it can be
    either, at a node it tells whether the node has any bit set. *)
Fixpoint tag_ok (τ h : nat) (b : bool) (t : rtree) : Prop :=
  match h, t with
  | _, RNull => b = false
  | O, RItem _ => True
  | S h', RSub a tg kids =>
      fits 64 (tmask τ tg) /\ b = negb (tmask τ tg =? 0) /\
      (forall o k, kids !! o = Some k -> tag_ok τ h' (Z.testbit (tmask τ tg) (Z.of_nat o)) k)
  | _, _ => False
  end.

(** Whether the item at an index has the tag. *)
Fixpoint tagged (τ h : nat) (b : bool) (t : rtree) (i : Z) : bool :=
  match h, t with
  | O, RItem _ => b
  | S h', RSub _ tg kids =>
      tagged τ h' (Z.testbit (tmask τ tg) (Z.of_nat (digit h' i))) (default RNull (kids !! digit h' i)) i
  | _, _ => false
  end.

(** The bit of the slot at the place; [B] is that of the root. *)
Definition cbit (τ : nat) (c : rctx) (B : bool) : bool :=
  match c with RTop => B | RFr _ tg _ o _ => Z.testbit (tmask τ tg) (Z.of_nat o) end.

Fixpoint ctag_ok (τ h : nat) (c : rctx) (B : bool) : Prop :=
  match c with
  | RTop => True
  | RFr a tg kids o c =>
      fits 64 (tmask τ tg) /\ cbit τ c B = negb (tmask τ tg =? 0) /\
      (forall o' k, o' <> o -> kids !! o' = Some k -> tag_ok τ h (Z.testbit (tmask τ tg) (Z.of_nat o')) k) /\
      ctag_ok τ (S h) c B
  end.

Section Tags.
Context (τ : nat).
Implicit Types (h : nat) (c : rctx) (t : rtree) (B b : bool).

Lemma tag_ok_null h b : tag_ok τ h b RNull <-> b = false.
Proof. by destruct h. Qed.

Lemma tagged_null h b i : tagged τ h b RNull i = false.
Proof. by destruct h. Qed.

(** Bits outside the mask are clear. *)
Lemma tmask_high tg o : fits 64 (tmask τ tg) -> (64 <= o)%nat -> Z.testbit (tmask τ tg) (Z.of_nat o) = false.
Proof. intros Hf Ho. apply (fits_testbit_high 64); [lia|done|lia]. Qed.

Lemma ctag_up h a tg kids o c B t :
  ctag_ok τ h (RFr a tg kids o c) B -> tag_ok τ h (Z.testbit (tmask τ tg) (Z.of_nat o)) t ->
  tag_ok τ (S h) (cbit τ c B) (RSub a tg (<[o := t]> kids)) /\ ctag_ok τ (S h) c B.
Proof.
  intros (Hf & Hb & Hk & Hc) Ht. split; [|done]. split; [done|]. split; [done|]. intros o' k Hl.
  destruct (decide (o' = o)) as [->|Hne].
  - destruct (decide (o < length kids)%nat) as [Hlt|]; [|by rewrite list_insert_ge, lookup_ge_None_2 in Hl by lia].
    rewrite list_lookup_insert_eq in Hl by done. by injection Hl as <-.
  - rewrite list_lookup_insert_ne in Hl by done. by apply Hk.
Qed.

Lemma ctag_down h a tg kids o c B :
  length kids = 64%nat -> tag_ok τ (S h) (cbit τ c B) (RSub a tg kids) -> ctag_ok τ (S h) c B ->
  ctag_ok τ h (RFr a tg kids o c) B /\
  tag_ok τ h (Z.testbit (tmask τ tg) (Z.of_nat o)) (default RNull (kids !! o)).
Proof.
  intros Hl (Hf & Hb & Hk) Hc. split.
  - do 2 (split; [done|]). split; [|done]. intros o' k _. apply Hk.
  - destruct (kids !! o) as [k|] eqn:E; simpl; [by apply Hk|]. apply tag_ok_null, tmask_high; [done|].
    apply lookup_ge_None_1 in E. lia.
Qed.

Lemma tag_plug h c B t :
  ctag_ok τ h c B -> tag_ok τ h (cbit τ c B) t -> tag_ok τ (h + rdepth c) B (rplug c t).
Proof.
  revert h t. induction c as [|a tg kids o c IH]; intros h t Hc Ht; [simpl; by rewrite Nat.add_0_r|].
  destruct (ctag_up _ _ _ _ _ _ _ _ Hc Ht) as [Hu Hc']. cbn [rdepth rplug]. rewrite Nat.add_succ_r.
  by apply (IH (S h)).
Qed.

Lemma tagged_plug h c t B i :
  cshape h c ->
  tagged τ (h + rdepth c) B (rplug c t) i =
    if on_path h c i then tagged τ h (cbit τ c B) t i else tagged τ (h + rdepth c) B (rplug c RNull) i.
Proof.
  revert h t. induction c as [|a tg kids o c IH]; intros h t Hc; [simpl; by rewrite Nat.add_0_r|].
  destruct Hc as (Ha & Hk & Hg & Hs & Ho & Hc). cbn [rdepth rplug on_path]. rewrite Nat.add_succ_r.
  change (S (h + rdepth c)) with (S h + rdepth c)%nat. rewrite IH by done.
  rewrite (IH (S h) (RSub a tg (<[o := RNull]> kids))) by done. destruct (on_path (S h) c i); [|by rewrite andb_false_r].
  rewrite andb_true_r. cbn [tagged cbit]. case_bool_decide as E.
  - subst o. by rewrite list_lookup_insert_eq by lia.
  - by rewrite !list_lookup_insert_ne by done.
Qed.

(** The tag of the root of a tree tells whether anything in it has the tag. *)
Lemma tagged_any h b t i : tag_ok τ h b t -> tagged τ h b t i = true -> b = true.
Proof.
  revert b t. induction h as [|h IH]; intros b [|p|a tg kids] Ht Hi; try done. cbn [tagged tag_ok] in *.
  destruct Ht as (Hf & -> & Hk). destruct (kids !! digit h i) as [k|] eqn:E; [|by rewrite tagged_null in Hi].
  pose proof (IH _ _ (Hk _ _ E) Hi) as Hb. destruct (Z.eqb_spec (tmask τ tg) 0) as [E0|]; [|done].
  by rewrite E0, Z.bits_0 in Hb.
Qed.

Lemma some_bit m : fits 64 m -> m <> 0 -> exists o, (o < 64)%nat /\ Z.testbit m (Z.of_nat o) = true.
Proof.
  intros Hf Hm. exists (Z.to_nat (Z.log2 m)). assert (0 < m) by (destruct Hf; lia). pose proof (Z.log2_nonneg m).
  assert (Z.log2 m < 64) by (apply Z.log2_lt_pow2; [done|apply Hf]). split; [lia|].
  rewrite Z2Nat.id by done. by apply Z.bit_log2.
Qed.

Lemma digit_join h (o : nat) i :
  0 <= i < 64 ^ Z.of_nat h -> (o < 64)%nat ->
  digit h (Z.of_nat o * 64 ^ Z.of_nat h + i) = o.
Proof.
  intros Hi Ho. unfold digit. rewrite Z.div_add_l by lia. rewrite (Z.div_small i) by done. rewrite Z.add_0_r, Z.mod_small by lia. lia.
Qed.

Lemma digit_low h h' j i :
  (h' < h)%nat -> digit h' (j * 64 ^ Z.of_nat h + i) = digit h' i.
Proof.
  intros Hh. unfold digit. f_equal. replace (Z.of_nat h) with (Z.of_nat h' + 1 + Z.of_nat (h - S h')) by lia.
  rewrite !Z.pow_add_r by lia. rewrite Z.pow_1_r.
  replace (j * (64 ^ Z.of_nat h' * 64 * 64 ^ Z.of_nat (h - S h')) + i)
    with ((j * 64 ^ Z.of_nat (h - S h') * 64) * 64 ^ Z.of_nat h' + i) by ring.
  rewrite Z.div_add_l by lia. rewrite Z.add_comm. by rewrite Z.mod_add by lia.
Qed.

Lemma tget_low h t j i k : (h <= k)%nat -> tget h t (j * 64 ^ Z.of_nat k + i) = tget h t i.
Proof.
  revert t. induction h as [|h IH]; intros [|p|a tg kids] Hh; try done. cbn [tget]. rewrite digit_low by lia. apply IH. lia.
Qed.

Lemma tagged_low h b t j i k : (h <= k)%nat -> tagged τ h b t (j * 64 ^ Z.of_nat k + i) = tagged τ h b t i.
Proof.
  revert b t. induction h as [|h IH]; intros b [|p|a tg kids] Hh; try done. cbn [tagged]. rewrite digit_low by lia. apply IH. lia.
Qed.

Lemma tagged_exists h b t :
  tag_ok τ h b t -> shape h t -> b = true -> exists i, 0 <= i < 64 ^ Z.of_nat h /\ tagged τ h b t i = true.
Proof.
  revert b t. induction h as [|h IH]; intros b t Ht Hs ->; destruct t as [|p|a tg kids]; try done; [by exists 0|].
  destruct Ht as (Hf & Hb & Hk), Hs as (_ & Hl & _ & Hs). symmetry in Hb. apply negb_true_iff, Z.eqb_neq in Hb.
  destruct (some_bit _ Hf Hb) as (o & Ho & Hbit). destruct (lookup_lt_is_Some_2 kids o ltac:(lia)) as [k Ek].
  pose proof (Hk _ _ Ek) as Hk'. rewrite Hbit in Hk'.
  destruct (IH true k Hk' (Forall_lookup_1 _ _ _ _ Hs Ek) eq_refl) as (i & Hi & Hti).
  exists (Z.of_nat o * 64 ^ Z.of_nat h + i). split; [rewrite Nat2Z.inj_succ, Z.pow_succ_r by lia; nia|].
  cbn [tagged]. rewrite digit_join by done. rewrite Ek, Hbit. simpl. rewrite tagged_low by lia. done.
Qed.
End Tags.

(** ** What the tree stores *)

(** The tag [τ] of the root in its mask. *)
Definition gtag (g : Z) (τ : nat) : bool := Z.testbit g (Z.of_nat τ + __GFP_BITS_SHIFT).

(** The entry at an index: the item and its two tags. *)
Definition tview (h : nat) (g : Z) (t : rtree) (i : Z) : option (Z * bool * bool) :=
  if (0 <=? i) && (i <? 64 ^ Z.of_nat h) && negb (tget h t i =? NULL)
  then Some (tget h t i, tagged 0 h (gtag g 0) t i, tagged 1 h (gtag g 1) t i)
  else None.

Definition tags_ok (h : nat) (g : Z) (t : rtree) : Prop := forall τ, (τ < 2)%nat -> tag_ok τ h (gtag g τ) t.

(** A node that is ready to be handed out, and one that is so when
    radix_tree_node_rcu_free is done with it. *)
Definition clean (n : radix_tree_node) : Prop := count n = 0 /\ slots n = replicate 64 NULL /\ tags n = [0; 0].
Definition spent (n : radix_tree_node) : Prop :=
  exists x b0 b1, slots n = x :: replicate 63 NULL /\ tags n = [Z.b2z b0; Z.b2z b1].

(** The free nodes [P] and the waiting nodes [D] in the store. *)
Definition avail (F : list (Z * radix_tree_node)) (P D : list Z) : Prop :=
  exists FP FD, F ≡ₚ FP ++ FD /\ FP.*1 = P /\ FD.*1 = D /\
    Forall (fun x => even_ptr x.1 /\ clean x.2) FP /\ Forall (fun x => even_ptr x.1 /\ spent x.2) FD.

#[export] Instance avail_proper : Proper ((≡ₚ) ==> (=) ==> (=) ==> iff) avail.
Proof.
  intros F F' HF P ? <- D ? <-. unfold avail. split; intros (FP & FD & H & ?); exists FP, FD; (split; [|done]);
  [by rewrite <- HF|by rewrite HF].
Qed.

Section Frames.
Implicit Types (F : list (Z * radix_tree_node)) (P D : list Z).

Lemma zst_perm s h c t g F F' P D : F ≡ₚ F' -> zst s h c t g F P D -> zst s h c t g F' P D.
Proof. intros HF (Hr & Hc & H). split; [done|]. split; [|done]. by rewrite <- HF. Qed.

(** A node outside the tree changes. *)
Lemma wp_upd_frame s h c t g a n F P D f Q :
  zst s h c t g ((a, n) :: F) P D -> (forall s', zst s' h c t g ((a, f n) :: F) P D -> Q tt s') ->
  wp (upd_node a f) Q s.
Proof.
  intros (Hr & Hc & H) HQ. unfold wp, upd_node. change ((a, n) :: F) with ([(a, n)] ++ F) in Hc.
  edestruct (cells_update (node_at s) a) as [En Hu]; [exact Hc|pull_cell a|].
  rewrite En. apply HQ. split; [done|]. split; [|done]. refine (cells_from _ _ _ (Hu (f n)) _). perm.
Qed.

Lemma get_root_zst s h c t g F P D Q :
  zst s h c t g F P D ->
  Q (RRoot (Z.of_nat (h + rdepth c)) g (root_ptr (h + rdepth c) (ptr (rplug c t)))) s -> wp get_root Q s.
Proof. intros (Hr & _) HQ. unfold wp, get_root. by rewrite Hr. Qed.

(** The mask of the root changes in its tags. *)
Definition same_gfp (g g' : Z) : Prop := Z.land g' __GFP_BITS_MASK = Z.land g __GFP_BITS_MASK.

Lemma supply_same g g' s : same_gfp g g' -> supply g' s = supply g s.
Proof. unfold supply, same_gfp. by intros ->. Qed.

Lemma same_gfp_bits g g' : (forall i, 0 <= i < 21 -> Z.testbit g' i = Z.testbit g i) -> same_gfp g g'.
Proof.
  intros H. apply Z.bits_inj'. intros i Hi. change __GFP_BITS_MASK with (Z.ones 21). rewrite !Z.land_spec, Ztestbit_ones by lia.
  destruct (Z.ltb_spec i 21); [by rewrite H by lia|by rewrite !andb_false_r].
Qed.

Lemma wp_set_gfp s h c t g g' F P D Q :
  zst s h c t g F P D -> same_gfp g g' -> (forall s', zst s' h c t g' F P D -> Q tt s') -> wp (set_gfp_mask g') Q s.
Proof.
  intros H Hg HQ. apply wp_bind. eapply get_root_zst; [exact H|]. apply HQ. destruct H as (Hr & Hc & Hs & Hcs & HP & HD).
  do 4 (split; [done|]). split; [|done]. rewrite (supply_same g g') by done. exact HP.
Qed.

Lemma root_tag_bit g tag : 0 <= tag -> negb (Z.land g (Z.shiftl 1 (tag + 21)) =? 0) = Z.testbit g (tag + 21).
Proof.
  intros Ht. rewrite Z.shiftl_1_l. destruct (Z.eqb_spec (Z.land g (2 ^ (tag + 21))) 0) as [E|E].
  - apply (f_equal (fun x => Z.testbit x (tag + 21))) in E. rewrite Z.land_spec, Z.pow2_bits_true, Z.bits_0, andb_true_r in E by lia. by rewrite E.
  - destruct (Z.testbit g (tag + 21)) eqn:Eb; [done|]. destruct E. apply Z.bits_inj'. intros i Hi. rewrite Z.land_spec, Z.bits_0, Z.pow2_bits_eqb by lia.
    destruct (Z.eqb_spec (tag + 21) i) as [<-|]; [by rewrite Eb|apply andb_false_r].
Qed.

Lemma wp_root_tag_get s h c t g F P D τ Q :
  zst s h c t g F P D -> Q (gtag g τ) s -> wp (root_tag_get (Z.of_nat τ)) Q s.
Proof.
  intros H HQ. apply wp_bind. eapply get_root_zst; [exact H|]. apply wp_ret. cbn [gfp_mask].
  change __GFP_BITS_SHIFT with 21. rewrite root_tag_bit by lia. exact HQ.
Qed.

(** The allocator. *)
Lemma wp_alloc s h c t g F P D (Q : Z -> radix_state -> Prop) :
  zst s h c t g F P D -> avail F P D ->
  (P = [] -> Q NULL s) ->
  (forall a n P' F' s', P = a :: P' -> even_ptr a -> clean n -> zst s' h c t g ((a, n) :: F') P' D -> avail F' P' D -> Q a s') ->
  wp radix_tree_node_alloc Q s.
Proof.
  intros H (FP & FD & HF & HP & HD & HcP & HcD) Q0 Q1. pose proof H as (Hr & Hc & Ht & Hs & Ep & Ed).
  apply wp_bind. eapply get_root_zst; [exact H|]. unfold root_gfp_mask. cbn [gfp_mask].
  assert (forall a n FP' s', P = a :: FP'.*1 -> FP = (a, n) :: FP' -> root s' = root s -> node_at s' = node_at s -> pending s' = pending s ->
    supply g s' = FP'.*1 -> wp (BUG_ON (radix_tree_is_indirect_ptr a) ;; mret a) Q s' /\ (a =? NULL) = false) as Hget.
  { intros a n FP' s' EP -> E1 E2 E3 E4. apply Forall_cons in HcP as [[Ha Hn] HcP]. cbn [fst snd] in Ha, Hn. split; [|unfold NULL; destruct Ha; lia].
    apply wp_bind, wp_BUG_ON; [unfold radix_tree_is_indirect_ptr; by rewrite (proj2 Ha)|]. apply wp_ret.
    eapply (Q1 _ _ _ (FP' ++ FD)); [exact EP|done|done| |by exists FP', FD].
    split; [congruence|]. rewrite E2, E3. split; [|done]. refine (cells_from _ _ _ Hc _). rewrite HF. perm. }
  assert ((forall l, supply g (RState (root s) (node_at s) (preloads s) l (pending s)) = l) -> supply g s = pool s ->
    wp (ret ← kmem_cache_alloc; BUG_ON (radix_tree_is_indirect_ptr ret) ;; mret ret) Q s) as Hslab.
  { intros El Es. rewrite Es in Ep. apply wp_bind. unfold wp at 1, kmem_cache_alloc. rewrite Ep.
    destruct FP as [|[a n] FP]; [rewrite <- HP in *; by apply Q0|]. rewrite <- HP. by apply (Hget a n FP). }
  apply wp_bind. unfold supply in *. destruct (Z.land (Z.land g __GFP_BITS_MASK) __GFP_WAIT =? 0).
  - apply wp_bind. unfold wp at 1, get_preloads. destruct (preloads s) as [|a l] eqn:El.
    + apply wp_ret. by apply Hslab.
    + cbn [app] in Ep. destruct FP as [|[a' n] FP]; rewrite <- HP in Ep; [done|]. injection Ep as -> Ep.
      destruct (Hget a' n FP (RState (root s) (node_at s) l (pool s) (pending s))) as [Hw E]; try done.
      apply wp_bind. unfold wp at 1, set_preloads. apply wp_ret. rewrite E. by apply wp_bind, wp_ret.
  - apply wp_ret. by apply Hslab.
Qed.

(** A node outside the tree goes to the end of the waiting nodes. *)
Lemma wp_free s h c t g a n F P D Q :
  zst s h c t g ((a, n) :: F) P D -> avail F P D -> even_ptr a -> spent n ->
  (forall s' F', zst s' h c t g F' P (D ++ [a]) -> avail F' P (D ++ [a]) -> Q tt s') ->
  wp (radix_tree_node_free a) Q s.
Proof.
  intros (Hr & Hc & Ht & Hs & Ep & Ed) (FP & FD & HF & HP & HD & HcP & HcD) Ha Hn HQ. unfold wp, radix_tree_node_free.
  apply (HQ _ ((a, n) :: F)).
  - split; [done|]. split; [done|]. split; [done|]. split; [done|]. cbn [pending]. by rewrite Ed.
  - exists FP, (FD ++ [(a, n)]). split; [rewrite HF; perm|]. split; [done|]. split; [by rewrite fmap_app, HD|].
    split; [done|]. apply Forall_app. split; [done|]. by constructor.
Qed.
End Frames.

(** ** Pointers, shifts and bounds *)

Lemma even_land p : even_ptr p -> radix_tree_indirect_to_ptr p = p /\ radix_tree_indirect_to_ptr (radix_tree_ptr_to_indirect p) = p.
Proof.
  intros [Hp H0]. assert (forall i, 0 <= i -> Z.testbit 0xfffffffe i = (1 <=? i) && (i <? 32)) as Hm.
  { intros i Hi. change 0xfffffffe with (Z.shiftl (Z.ones 31) 1). rewrite Z.shiftl_spec by done.
    destruct (Z.leb_spec 1 i); [|rewrite Z.testbit_neg_r by lia; done]. rewrite Ztestbit_ones by lia.
    destruct (Z.leb_spec 0 (i - 1)), (Z.ltb_spec (i - 1) 31), (Z.ltb_spec i 32); done || lia. }
  assert (Z.testbit p 0 = false) as Hb.
  { apply (f_equal (fun x => Z.testbit x 0)) in H0. by rewrite Z.land_spec, andb_true_r in H0. }
  assert (forall i, 0 <= i -> Z.testbit p i && ((1 <=? i) && (i <? 32)) = Z.testbit p i) as Hs.
  { intros i Hi. destruct (Z.leb_spec 1 i); [|by replace i with 0 by lia; rewrite Hb].
    destruct (Z.ltb_spec i 32); [by rewrite andb_true_r|]. by rewrite (fits_testbit_high 32 p i) by (unfold fits; lia). }
  unfold radix_tree_indirect_to_ptr, radix_tree_ptr_to_indirect. split; apply Z.bits_inj'; intros i Hi.
  - rewrite Z.land_spec, Hm by done. auto.
  - rewrite Z.land_spec, Hm, Z.lor_spec, andb_orb_distrib_l by done. rewrite Hs by done.
    change 1 with (2 ^ 0) at 1. rewrite Z.pow2_bits_eqb by lia. destruct (Z.eqb_spec 0 i) as [<-|]; [|by rewrite orb_false_r].
    by rewrite andb_false_r, orb_false_r.
Qed.

Lemma indirect_flag p : even_ptr p ->
  radix_tree_is_indirect_ptr p = false /\ radix_tree_is_indirect_ptr (radix_tree_ptr_to_indirect p) = true.
Proof.
  intros [Hp H0]. unfold radix_tree_is_indirect_ptr, radix_tree_ptr_to_indirect. rewrite H0, Z.land_lor_distr_l, H0. done.
Qed.

#[export] Instance null_decision (t : rtree) : Decision (t = RNull).
Proof. destruct t; [by left|by right|by right]. Defined.

Lemma shape_ptr h t : shape h t -> t = RNull \/ even_ptr (ptr t).
Proof. destruct h, t; simpl; try tauto. Qed.

Lemma even_nonnull p : even_ptr p -> (p =? NULL) = false /\ p <> NULL.
Proof. intros [? _]. unfold NULL. split; lia. Qed.

Lemma nonnull_ptr h t : shape h t -> t <> RNull -> (ptr t =? NULL) = false /\ ptr t <> NULL.
Proof. intros [->|He]%shape_ptr Hn; [done|]. by apply even_nonnull. Qed.

Lemma indirect_root h t : shape h t -> radix_tree_indirect_to_ptr (root_ptr h (ptr t)) = ptr t.
Proof.
  intros [->|He]%shape_ptr; [by destruct h|]. destruct (even_nonnull _ He) as [E _].
  destruct h; simpl; rewrite ?E; by apply even_land.
Qed.

Lemma root_null h t : shape h t -> (root_ptr h (ptr t) =? NULL) = (ptr t =? NULL).
Proof.
  intros [->|He]%shape_ptr; [by destruct h|]. destruct (even_nonnull _ He) as [E Hn], h; simpl; [done|]. rewrite E.
  apply Z.eqb_neq. intros H0. apply Hn. apply Z.lor_eq_0_iff in H0 as [? ?]. done.
Qed.

(** The shift for a node of height [h], as the code computes it. *)
Definition level_shift (h : nat) : Z := u32 ((Z.of_nat h - 1) * RADIX_TREE_MAP_SHIFT).

Lemma level_shift_next h : u32 (level_shift (S h) - RADIX_TREE_MAP_SHIFT) = level_shift h.
Proof. unfold level_shift. rewrite wrap_sub_l. f_equal. unfold RADIX_TREE_MAP_SHIFT. lia. Qed.

Lemma level_digit h i : (h < 6)%nat -> Z.land (Z.shiftr i (level_shift (S h))) RADIX_TREE_MAP_MASK = Z.of_nat (digit h i).
Proof.
  intros Hh. unfold level_shift, RADIX_TREE_MAP_SHIFT. rewrite wrap_id by (unfold fits; lia).
  replace ((Z.of_nat (S h) - 1) * 6) with (6 * Z.of_nat h) by lia. apply digit_code.
Qed.

Lemma maxindex_table H : (H <= 6)%nat -> exists v, height_to_maxindex !! H = Some v /\ forall i, 0 <= i < 2 ^ 32 -> (v <? i) = negb (i <? 64 ^ Z.of_nat H).
Proof.
  intros Hh. do 7 (destruct H as [|H]; [eexists; split; [vm_compute; reflexivity|intros i Hi;
    match goal with |- context [64 ^ ?k] => let x := eval vm_compute in (64 ^ k) in change (64 ^ k) with x end; case_test; case_test; simpl; lia]|]). lia.
Qed.

Lemma wp_maxindex H i s (Q : Z -> radix_state -> Prop) :
  (H <= 6)%nat -> 0 <= i < 2 ^ 32 ->
  (forall v, (v <? i) = negb (i <? 64 ^ Z.of_nat H) -> Q v s) -> wp (radix_tree_maxindex (Z.of_nat H)) Q s.
Proof.
  intros Hh Hi HQ. destruct (maxindex_table H Hh) as (v & Hv & Hb). unfold radix_tree_maxindex. rewrite Nat2Z.id, Hv.
  apply wp_ret, HQ. auto.
Qed.

(** ** Lookup *)

Lemma tget_null h i : tget h RNull i = NULL.
Proof. by destruct h. Qed.

Lemma lookup_down_ok s h a tg kids c g F P D i :
  zst s (S h) c (RSub a tg kids) g F P D -> (h < 6)%nat ->
  wp (lookup_down i (Z.of_nat (S h)) (level_shift (S h)) a)
    (fun p s' => p = tget (S h) (RSub a tg kids) i /\ s' = s) s.
Proof.
  intros H Hh. set (v := tget _ _ _).
  eapply (wp_loop_depth (fun n '(height, shift, node) s' => s' = s /\ (n < 6)%nat /\ exists a tg kids c,
    height = Z.of_nat (S n) /\ shift = level_shift (S n) /\ node = a /\ zst s (S n) c (RSub a tg kids) g F P D /\
    tget (S n) (RSub a tg kids) i = v)); [|split; [done|]; split; [exact Hh|]; eauto 10|unfold path_fuel; lia].
  clearbody v. clear H a tg kids c h Hh. intros n [[height shift] node] s' (-> & Hn & a & tg & kids & c & -> & -> & -> & H & Hv). cbn [tget] in Hv.
  rewrite level_digit by done. apply wp_bind. eapply wp_get_slot; [exact H|apply digit_lt|].
  pose proof (zst_down _ _ _ _ _ _ _ _ _ _ _ (digit_lt n i) H) as Hd. set (k := default RNull (kids !! digit n i)) in *.
  pose proof Hd as (_ & _ & Hk & _). destruct (decide (k = RNull)) as [E|E].
  - rewrite E. apply wp_ret. split; [|done]. rewrite <- Hv, E. by destruct n.
  - destruct (nonnull_ptr _ _ Hk E) as [-> _]. cbv zeta.
    replace (u32 (Z.of_nat (S n) - 1)) with (Z.of_nat n) by (rewrite wrap_id by (unfold fits; lia); lia).
    destruct n as [|n].
    + destruct k as [|p|]; [done|done|by destruct Hk].
    + rewrite (proj2 (Z.ltb_lt 0 _)) by lia. apply wp_ret. exists n. split; [lia|]. split; [done|]. split; [lia|].
      destruct k as [| |a' tg' kids'] eqn:Ek; [done|by destruct Hk|]. exists a', tg', kids'. eexists.
      split; [lia|]. split; [apply level_shift_next|]. split; [done|]. split; [exact Hd|done].
Qed.

Lemma radix_tree_lookup_ok s H t g F P D i :
  zst s H RTop t g F P D -> (H <= 6)%nat -> 0 <= i < 2 ^ 32 ->
  wp (radix_tree_lookup i) (fun p s' => p = (if i <? 64 ^ Z.of_nat H then tget H t i else NULL) /\ s' = s) s.
Proof.
  intros Hz HH Hi. apply wp_bind. eapply get_root_zst; [exact Hz|]. cbn [rnode rdepth rplug]. rewrite Nat.add_0_r.
  pose proof Hz as (_ & _ & Hs & _). cbv zeta. rewrite root_null by done.
  destruct (decide (t = RNull)) as [->|Hn].
  { apply wp_ret. split; [|done]. rewrite tget_null. by destruct (i <? _). }
  destruct (nonnull_ptr _ _ Hs Hn) as [-> _]. destruct (shape_ptr _ _ Hs) as [|He]; [done|].
  destruct H as [|h].
  - destruct t as [|p|]; try done. cbn [root_ptr ptr] in *. rewrite (proj1 (indirect_flag _ He)). cbn [negb].
    change (64 ^ Z.of_nat 0) with 1. destruct (Z.ltb_spec 0 i), (Z.ltb_spec i 1); try lia; apply wp_ret; done.
  - destruct t as [| |a tg kids]; try done. cbn [root_ptr ptr] in *. rewrite (proj1 (even_nonnull _ He)).
    rewrite (proj2 (indirect_flag _ He)), (proj2 (even_land _ He)). cbn [negb].
    apply wp_bind. eapply wp_get_node; [apply (zst_node _ _ _ _ _ _ _ _ _ _ Hz)|]. cbn [height node_of].
    apply wp_bind, (wp_maxindex _ i); [done|done|]. intros v Hv. rewrite Hv. destruct (i <? 64 ^ Z.of_nat (S h)); cbn [negb].
    + apply (lookup_down_ok _ _ _ _ _ _ _ _ _ _ _ Hz). lia.
    + by apply wp_ret.
Qed.

(** ** A root with one child *)

(** The slots of a node that has only the first in use. *)
Definition sole (t : rtree) : list rtree := t :: replicate 63 RNull.

Lemma concat_nulls h n : concat (map (entries h) (replicate n RNull)) = [].
Proof. induction n as [|n IH]; [done|]. simpl. by rewrite entries_null, IH. Qed.

Lemma in_use_nulls n : in_use (replicate n NULL) = 0.
Proof. apply in_use_zero. by rewrite length_replicate. Qed.

Lemma map_ptr_nulls n : map ptr (replicate n RNull) = replicate n NULL.
Proof. apply (fmap_replicate ptr). Qed.

Lemma in_use_sole h t : shape h t -> t <> RNull -> in_use (map ptr (sole t)) = 1.
Proof.
  intros Hs Hn. unfold sole, in_use. cbn [map]. rewrite map_ptr_nulls, filter_cons.
  rewrite decide_True by (by apply (nonnull_ptr h)). cbn [length]. pose proof (in_use_nulls 63) as E. unfold in_use in E. lia.
Qed.

(** When one slot is in use and the first is, it is the only one. *)
Lemma sole_of h kids :
  Forall (shape h) kids -> length kids = 64%nat -> in_use (map ptr kids) = 1 -> ptr (default RNull (kids !! 0%nat)) <> NULL ->
  kids = sole (default RNull (kids !! 0%nat)).
Proof.
  intros Hs Hl Hu Hp. destruct kids as [|k kids]; [done|]. cbn [lookup list_lookup] in *. simpl in Hp |- *. unfold sole. f_equal.
  apply Forall_cons in Hs as [_ Hs]. unfold in_use in Hu. cbn [map] in Hu. rewrite filter_cons, decide_True in Hu by done.
  cbn [length] in Hu. assert (in_use (map ptr kids) = 0) as H0 by (unfold in_use; lia). apply in_use_zero in H0.
  rewrite length_map in H0. injection Hl as Hl. rewrite Hl in H0. clear Hu. revert Hl H0. generalize 63%nat as n.
  clear Hp. induction kids as [|k' kids IH]; intros n <-; [done|]. cbn [length map replicate]. intros [= Hk H0].
  apply Forall_cons in Hs as [Hk' Hs]. f_equal; [|by apply IH].
  destruct (decide (k' = RNull)) as [|Hn]; [done|]. by destruct (nonnull_ptr _ _ Hk' Hn).
Qed.

Lemma sole_lookup (t : rtree) o : sole t !! o = if decide (o = 0%nat) then Some t else if decide (o < 64)%nat then Some RNull else None.
Proof.
  destruct o as [|o]; [done|]. rewrite decide_False by lia. unfold sole. cbn [lookup list_lookup].
  case_decide; [apply lookup_replicate_2; lia|]. apply lookup_replicate_None. lia.
Qed.

Lemma b2z_high b i : 0 < i -> Z.testbit (Z.b2z b) i = false.
Proof. intros Hi. destruct b; [|apply Z.bits_0]. change (Z.b2z true) with (2 ^ 0). rewrite Z.pow2_bits_eqb by lia. lia. Qed.

Lemma tag_sole τ h b a tg t :
  tag_ok τ (S h) b (RSub a tg (sole t)) <-> tmask τ tg = Z.b2z b /\ tag_ok τ h b t.
Proof.
  split.
  - intros (Hf & -> & Hk). assert (tmask τ tg = Z.b2z (Z.testbit (tmask τ tg) 0)) as E.
    { apply Z.bits_inj'. intros i Hi. destruct (decide (i = 0)) as [->|]; [by rewrite Z.b2z_bit0|].
      rewrite b2z_high by lia.
      destruct (decide (i < 64)) as [Hlt|]; [|apply (fits_testbit_high 64); [lia|done|lia]].
      specialize (Hk (Z.to_nat i) RNull). rewrite sole_lookup, decide_False, decide_True, tag_ok_null, Z2Nat.id in Hk by lia. auto. }
    assert (Z.testbit (tmask τ tg) 0 = negb (tmask τ tg =? 0)) as E'.
    { rewrite E at 2. by destruct (Z.testbit _ 0). }
    specialize (Hk 0%nat t eq_refl). change (Z.of_nat 0) with 0 in Hk. rewrite E' in *. done.
  - intros [E Ht]. cbn [tag_ok]. rewrite E. split; [destruct b; split; simpl; lia|]. split; [by destruct b|].
    intros o k. rewrite sole_lookup. destruct (decide (o = 0%nat)) as [->|Ho].
    + intros [= <-]. by destruct b.
    + case_decide; [|done]. intros [= <-]. apply tag_ok_null, b2z_high. lia.
Qed.

Lemma digit_zero h i : 0 <= i < 64 ^ Z.of_nat (S h) -> (digit h i = 0%nat) <-> i < 64 ^ Z.of_nat h.
Proof.
  intros Hi. rewrite Nat2Z.inj_succ, Z.pow_succ_r in Hi by lia. unfold digit.
  assert (0 <= i / 64 ^ Z.of_nat h < 64) as Hd.
  { split; [apply Z.div_pos; lia|]. apply Z.div_lt_upper_bound; lia. }
  rewrite Z.mod_small by done. split; intros H.
  - assert (i / 64 ^ Z.of_nat h = 0) as [?|?]%Z.div_small_iff by lia; lia.
  - rewrite Z.div_small; lia.
Qed.

(** The level above a sole child adds nothing. *)
Lemma tview_sole h g a tg t i :
  (forall τ, (τ < 2)%nat -> tmask τ tg = Z.b2z (gtag g τ)) -> tview (S h) g (RSub a tg (sole t)) i = tview h g t i.
Proof.
  intros Hg. unfold tview. cbn [tget tagged]. destruct (Z.leb_spec 0 i); [|done].
  destruct (Z.ltb_spec i (64 ^ Z.of_nat (S h))) as [Hlt|Hge].
  - pose proof (digit_zero h i ltac:(lia)) as Hd. destruct (Z.ltb_spec i (64 ^ Z.of_nat h)) as [Hl|Hg'].
    + rewrite (proj2 Hd) by done. rewrite sole_lookup, decide_True by done. cbn [default]. change (Z.of_nat 0) with 0.
      rewrite !Hg by lia. by rewrite !Z.b2z_bit0.
    + rewrite sole_lookup, decide_False by lia. rewrite decide_True by (apply digit_lt). cbn [default]. by rewrite tget_null.
  - rewrite (proj2 (Z.ltb_ge i (64 ^ Z.of_nat h))); [done|]. rewrite Nat2Z.inj_succ, Z.pow_succ_r in Hge by lia. lia.
Qed.

(** ** Making the tree higher *)

Section Extend.
Implicit Types (F : list (Z * radix_tree_node)) (P D : list Z).

Lemma wp_tall s H t g a tg F P D Q :
  zst s H RTop t g ((a, node_of (S H) tg (map ptr (sole t))) :: F) P D -> even_ptr a -> length tg = 2%nat ->
  (forall s', zst s' (S H) RTop (RSub a tg (sole t)) g F P D -> Q true s') ->
  wp (set_rnode (radix_tree_ptr_to_indirect a) ;; set_rheight (Z.of_nat H + 1) ;; mret true) Q s.
Proof.
  intros (Hr & Hc & Hs & _ & HP & HD) Ha Hg HQ. unfold wp, set_rnode, set_rheight, mbind, M_bind, get_root, set_root, mret, M_ret.
  cbn [root node_at preloads pool pending rheight gfp_mask rnode]. rewrite Hr. cbn [gfp_mask]. apply HQ. split; [|split; [|split; [|done]]].
  - cbn [root rdepth rplug ptr]. rewrite Nat.add_0_r. cbn [root_ptr]. rewrite (proj1 (even_nonnull _ Ha)). f_equal. lia.
  - cbn [centries entries ptr node_at]. unfold sole at 2. cbn [map concat]. rewrite concat_nulls, app_nil_r, app_nil_l.
    cbn [centries] in Hc. refine (cells_from _ _ _ Hc _). perm.
  - split; [done|]. split; [done|]. split; [done|]. constructor; [done|]. apply Forall_replicate, shape_null.
Qed.

Lemma wp_frame_tag s h c t g a n F P D τ Q :
  zst s h c t g ((a, n) :: F) P D -> length (tags n) = 2%nat -> (τ < 2)%nat ->
  (forall s', zst s' h c t g ((a, RNode (height n) (count n) (slots n)
      (if gtag g τ then <[τ := Z.setbit (tmask τ (tags n)) 0]> (tags n) else tags n)) :: F) P D -> Q tt s') ->
  wp (b ← root_tag_get (Z.of_nat τ); if (b : bool) then tag_set a (Z.of_nat τ) 0 else mret tt) Q s.
Proof.
  intros H Hl Hτ HQ. apply wp_bind. eapply wp_root_tag_get; [exact H|]. destruct (gtag g τ).
  - eapply wp_upd_frame; [exact H|]. cbn beta. unfold mask. rewrite Nat2Z.id. exact HQ.
  - apply wp_ret, HQ. by destruct n.
Qed.

(** One turn: a node is taken from the pool, or there is none. *)
Lemma extend_once_ok s H t g F P D :
  zst s H RTop t g F P D -> avail F P D -> t <> RNull -> tags_ok H g t ->
  wp extend_once (fun ok s' =>
    if ok then exists a tg F' P', P = a :: P' /\ zst s' (S H) RTop (RSub a tg (sole t)) g F' P' D /\ avail F' P' D /\
      tags_ok (S H) g (RSub a tg (sole t)) /\ forall i, tview (S H) g (RSub a tg (sole t)) i = tview H g t i
    else P = [] /\ s' = s) s.
Proof.
  intros Hz Hav Hn Htg. apply wp_bind. eapply wp_alloc; [exact Hz|exact Hav|intros ->; by apply wp_ret|].
  clear Hz. intros a n P' F' s1 -> Ha (Hc & Hsl & Ht) Hz Hav'. rewrite (proj1 (even_nonnull _ Ha)).
  pose proof Hz as (_ & _ & Hs & _). apply wp_bind. eapply get_root_zst; [exact Hz|]. cbn [rnode rheight rdepth rplug].
  rewrite Nat.add_0_r, indirect_root by done. apply wp_bind. eapply wp_upd_frame; [exact Hz|]. clear Hz. intros s2 Hz. cbn beta in Hz.
  apply wp_bind. change 0 with (Z.of_nat 0) at 1 2. eapply (wp_frame_tag _ _ _ _ _ _ _ _ _ _ 0); [exact Hz|by rewrite Ht|lia|].
  clear Hz. intros s3 Hz. cbn [height count slots tags] in Hz. rewrite Ht in Hz.
  apply wp_bind. change 1 with (Z.of_nat 1) at 1 2. eapply (wp_frame_tag _ _ _ _ _ _ _ _ _ _ 1); [exact Hz|by destruct (gtag g 0)|lia|].
  clear Hz. intros s4 Hz. cbn [height count slots tags] in Hz. cbv zeta.
  set (tg := if gtag g 1 then _ else _) in Hz. apply wp_bind. eapply wp_upd_frame; [exact Hz|]. clear Hz. intros s5 Hz. cbn beta in Hz.
  apply wp_bind. eapply wp_upd_frame; [exact Hz|]. clear Hz. intros s6 Hz. cbn [height count slots tags] in Hz.
  assert (tg = [Z.b2z (gtag g 0); Z.b2z (gtag g 1)]) as Etg by (subst tg; by destruct (gtag g 0), (gtag g 1)).
  clearbody tg. eapply (wp_tall _ _ _ _ _ tg); [|exact Ha|by rewrite Etg|].
  { refine (eq_rect _ (fun n => zst _ _ _ _ _ ((a, n) :: _) _ _) Hz _ _). unfold node_of. rewrite (in_use_sole H) by done.
    rewrite Hsl. cbn [sole map]. rewrite map_ptr_nulls. f_equal. lia. }
  clear Hz. intros s7 Hz. exists a, tg, F', P'. split; [done|]. split; [exact Hz|]. split; [done|].
  assert (forall τ, (τ < 2)%nat -> tmask τ tg = Z.b2z (gtag g τ)) as Hm.
  { rewrite Etg. clear. intros [|[|τ]] Hτ; [reflexivity|reflexivity|lia]. }
  split; [intros τ Hτ; apply tag_sole; auto|]. intros i. by apply tview_sole.
Qed.

(** The whole state: the tree, its tags and the nodes outside of it. *)
Definition tree_state (s : radix_state) (H : nat) (t : rtree) (g : Z) (P D : list Z) : Prop :=
  (H <= 6)%nat /\ tags_ok H g t /\ exists F, zst s H RTop t g F P D /\ avail F P D.

Lemma pow64_mono k k' : (k <= k')%nat -> 64 ^ Z.of_nat k <= 64 ^ Z.of_nat k'.
Proof. intros. apply Z.pow_le_mono_r; lia. Qed.

Lemma pow64_pos k : 1 <= 64 ^ Z.of_nat k.
Proof. apply (pow64_mono 0). lia. Qed.

(** The search for the height. *)
Lemma extend_height s k i (Q : Z -> radix_state -> Prop) :
  (k <= 6)%nat -> 0 <= i < 2 ^ 32 ->
  (forall k', (k <= k' <= 6)%nat -> i < 64 ^ Z.of_nat k' -> Q (Z.of_nat k') s) ->
  wp (loop path_fuel (fun h => max ← radix_tree_maxindex h; if max <? i then continue (h + 1) else break h) (Z.of_nat k)) Q s.
Proof.
  intros Hk Hi HQ. apply (wp_loop_depth (fun n h s' => s' = s /\ exists k', h = Z.of_nat k' /\ (k <= k')%nat /\ (n + k' = 6)%nat))
    with (n := (6 - k)%nat); [|split; [done|]; exists k; split; [done|]; lia|unfold path_fuel; lia].
  intros n h s' (-> & k' & -> & Hk1 & Hk2). apply wp_bind, (wp_maxindex _ i); [lia|done|]. intros v ->.
  destruct (Z.ltb_spec i (64 ^ Z.of_nat k')) as [Hl|Hg]; cbn [negb].
  - apply wp_ret, HQ; [lia|done].
  - apply wp_ret. assert (k' <> 6)%nat by (intros ->; change (64 ^ Z.of_nat 6) with (2 ^ 36) in Hg; lia).
    exists (n - 1)%nat. split; [lia|]. split; [done|]. exists (S k'). split; lia.
Qed.

(** An empty tree has no nodes whatever its height. *)
Lemma wp_null_height s H HT g P D Q :
  tree_state s H RNull g P D -> (HT <= 6)%nat ->
  (forall s', tree_state s' HT RNull g P D -> (forall j, tview HT g RNull j = tview H g RNull j) -> Q tt s') ->
  wp (set_rheight (Z.of_nat HT)) Q s.
Proof.
  intros (HH & Htg & F & Hz & Hav) HT6 HQ. apply wp_bind. eapply get_root_zst; [exact Hz|]. apply HQ.
  - split; [done|]. split; [intros τ Hτ; specialize (Htg τ Hτ); apply tag_ok_null in Htg; by apply tag_ok_null|].
    exists F. split; [|done]. destruct Hz as (Hr & Hc & _ & _ & HP). split; [|split; [|split; [apply shape_null|done]]].
    + cbn [rdepth rplug root rnode gfp_mask]. rewrite !Nat.add_0_r. f_equal. by destruct H, HT.
    + rewrite entries_null in *. done.
  - intros j. unfold tview. rewrite !tget_null. by rewrite !andb_false_r.
Qed.

Lemma radix_tree_extend_ok s H t g P D i :
  tree_state s H t g P D -> 0 <= i < 2 ^ 32 -> 64 ^ Z.of_nat H <= i ->
  wp (radix_tree_extend i) (fun r s' => exists H' t' P',
    tree_state s' H' t' g P' D /\ (forall j, tview H' g t' j = tview H g t j) /\
    (r = 0 /\ i < 64 ^ Z.of_nat H' \/ r = - ENOMEM /\ (length P < 6)%nat) /\
    (t = RNull /\ t' = RNull /\ P' = P \/ t <> RNull /\ t' <> RNull /\ (length P' + H' = length P + H)%nat)) s.
Proof.
  intros (HH & Htg & F & Hz & Hav) Hi Hge. apply wp_bind. eapply get_root_zst; [exact Hz|]. cbn [rnode rheight rdepth rplug].
  rewrite Nat.add_0_r. pose proof Hz as (_ & _ & Hs & _).
  assert (H <> 6)%nat by (intros ->; change (64 ^ Z.of_nat 6) with (2 ^ 36) in Hge; lia).
  apply wp_bind. replace (Z.of_nat H + 1) with (Z.of_nat (S H)) by lia. apply extend_height; [lia|done|].
  intros HT HT6 HTi. rewrite root_null by done. destruct (decide (t = RNull)) as [->|Hn].
  { apply wp_bind. eapply wp_null_height; [exact (conj HH (conj Htg (ex_intro _ F (conj Hz Hav))))|apply HT6|].
    intros s' Hz' Hv. apply wp_ret. exists HT, RNull, P. tauto. }
  rewrite (proj1 (nonnull_ptr _ _ Hs Hn)).
  apply (wp_loop_depth (fun n _ s' => exists H' t' P', tree_state s' H' t' g P' D /\ t' <> RNull /\
    (forall j, tview H' g t' j = tview H g t j) /\ (H' < HT)%nat /\ (n + H' = HT)%nat /\ (length P' + H' = length P + H)%nat))
    with (n := (HT - H)%nat); [|exists H, t, P; split; [by split; [|eauto]|]; split; [done|]; split; [done|]; lia|unfold path_fuel; lia].
  clear s F Hz Hav Htg. intros n [] s (H' & t' & P' & (HH' & Htg & F & Hz & Hav) & Hn' & Hv & Hlt & Hsum & Hlen).
  apply wp_bind. eapply wp_mono; [exact (extend_once_ok _ _ _ _ _ _ _ Hz Hav Hn' Htg)|]. intros [|] s'; cbn [negb].
  - intros (a & tg & F' & P'' & -> & Hz' & Hav' & Htg' & Hv'). cbn [length] in Hlen. apply wp_bind.
    eapply get_root_zst; [exact Hz'|]. cbn [rheight rdepth]. rewrite Nat.add_0_r.
    assert (tree_state s' (S H') (RSub a tg (sole t')) g P'' D) as Hst by (split; [lia|eauto]).
    assert (forall j, tview (S H') g (RSub a tg (sole t')) j = tview H g t j) as Hv2 by (intros j; by rewrite Hv').
    destruct (Z.ltb_spec (Z.of_nat (S H')) (Z.of_nat HT)); apply wp_ret.
    + exists (n - 1)%nat. split; [lia|]. exists (S H'), (RSub a tg (sole t')), P''. do 3 (split; [done|]). lia.
    + exists (S H'), (RSub a tg (sole t')), P''. do 2 (split; [done|]). replace (S H') with HT by lia.
      split; [left; done|]. right. do 2 (split; [done|]). lia.
  - intros [-> ->]. apply wp_ret. exists H', t', []. split; [split; [done|]; eauto|]. split; [done|].
    cbn [length] in Hlen. split; [right; split; [done|]; lia|]. right. do 2 (split; [done|]). simpl. lia.
Qed.
End Extend.

(** ** Places on the path of an index *)

(** The entries of the tree at the place, as the whole tree shows them. *)
Definition lview (h : nat) (c : rctx) (g : Z) (t : rtree) (i : Z) : option (Z * bool * bool) :=
  if tget h t i =? NULL then None
  else Some (tget h t i, tagged 0 h (cbit 0 c (gtag g 0)) t i, tagged 1 h (cbit 1 c (gtag g 1)) t i).

Lemma tview_plug h c g t j :
  cshape h c ->
  tview (h + rdepth c) g (rplug c t) j =
    if (0 <=? j) && (j <? 64 ^ Z.of_nat (h + rdepth c)) && on_path h c j then lview h c g t j
    else tview (h + rdepth c) g (rplug c RNull) j.
Proof.
  intros Hc. unfold tview, lview. rewrite (tget_plug _ _ t), !(tagged_plug _ _ _ t) by done.
  destruct (_ && (j <? _)); [|done]. cbn [andb]. destruct (on_path h c j); [|done]. by destruct (tget h t j =? NULL).
Qed.

(** At a slot the path belongs to one index. *)
Lemma on_path_one c i j :
  on_path 0 c i = true -> on_path 0 c j = true -> 0 <= i < 64 ^ Z.of_nat (0 + rdepth c) -> 0 <= j < 64 ^ Z.of_nat (0 + rdepth c) -> i = j.
Proof. intros Hi Hj Bi Bj. pose proof (on_path_same 0 c i j Hi Hj Bi Bj) as E. change (64 ^ Z.of_nat 0) with 1 in E. by rewrite !Z.div_1_r in E. Qed.

(** The view after a change in a slot. *)
Lemma tview_slot c g t i j :
  cshape 0 c -> on_path 0 c i = true -> 0 <= i < 64 ^ Z.of_nat (0 + rdepth c) ->
  tview (0 + rdepth c) g (rplug c t) j = if decide (j = i) then lview 0 c g t j else tview (0 + rdepth c) g (rplug c RNull) j.
Proof.
  intros Hc Hp Bi. rewrite tview_plug by done. case_decide as E.
  - subst j. by rewrite Hp, (proj2 (Z.leb_le 0 i)), (proj2 (Z.ltb_lt i _)) by lia.
  - destruct (Z.leb_spec 0 j); [|done]. destruct (Z.ltb_spec j (64 ^ Z.of_nat (0 + rdepth c))); [|done].
    destruct (on_path 0 c j) eqn:Hj; [|done]. destruct E. by apply (on_path_one c).
Qed.

(** Trees that have the same entries at the place. *)
Lemma tview_same h c g t t' j :
  cshape h c -> (forall i, lview h c g t i = lview h c g t' i) -> tview (h + rdepth c) g (rplug c t) j = tview (h + rdepth c) g (rplug c t') j.
Proof. intros Hc E. by rewrite (tview_plug _ _ _ t), (tview_plug _ _ _ t'), E by done. Qed.

Definition place (s : radix_state) (h : nat) (c : rctx) (t : rtree) (g : Z) (P D : list Z) (i : Z) : Prop :=
  (h + rdepth c <= 6)%nat /\ on_path h c i = true /\
  (forall τ, (τ < 2)%nat -> ctag_ok τ h c (gtag g τ) /\ tag_ok τ h (cbit τ c (gtag g τ)) t) /\
  exists F, zst s h c t g F P D /\ avail F P D.

(** The node and the offset of the slot, as the code has them. *)
Definition slot_of (c : rctx) : Z * Z := match c with RTop => (NULL, 0) | RFr a _ _ o _ => (a, Z.of_nat o) end.

Section Places.
Implicit Types (P D : list Z).

Lemma place_top s H t g P D i : tree_state s H t g P D -> place s H RTop t g P D i.
Proof.
  intros (HH & Htg & H'). split; [cbn [rdepth]; lia|]. split; [done|]. split; [|done]. intros τ Hτ. split; [done|]. by apply Htg.
Qed.

Lemma place_tree s h c t g P D i : place s h c t g P D i -> tree_state s (h + rdepth c) (rplug c t) g P D.
Proof.
  intros (Hh & _ & Htg & F & Hz & Hav). split; [done|]. split; [|exists F; split; [by apply zst_plug in Hz as [? _]|done]].
  intros τ Hτ. apply tag_plug; by apply Htg.
Qed.

Lemma place_down s h c a tg kids g P D i :
  place s (S h) c (RSub a tg kids) g P D i ->
  place s h (RFr a tg kids (digit h i) c) (default RNull (kids !! digit h i)) g P D i.
Proof.
  intros (Hh & Hp & Htg & F & Hz & Hav). split; [cbn [rdepth]; lia|]. split; [cbn [on_path]; by rewrite bool_decide_true|].
  pose proof (zst_node _ _ _ _ _ _ _ _ _ _ Hz) as (_ & _ & Hk & _).
  split; [|exists F; split; [by apply zst_down; [apply digit_lt|]|done]].
  intros τ Hτ. destruct (Htg τ Hτ) as [Hc Ht]. by apply ctag_down.
Qed.

(** A new node on the path. *)
Definition fresh (a : Z) : rtree := RSub a [0; 0] (replicate 64 RNull).

Lemma fresh_entries h a : entries (S h) (fresh a) = [(a, RNode (Z.of_nat (S h)) 0 (replicate 64 NULL) [0; 0])].
Proof.
  cbn [entries fresh]. rewrite concat_nulls, app_nil_r, map_ptr_nulls. unfold node_of. by rewrite in_use_nulls.
Qed.

Lemma fresh_shape h a : even_ptr a -> shape (S h) (fresh a).
Proof. intros Ha. split; [done|]. do 2 (split; [done|]). apply Forall_replicate, shape_null. Qed.

Lemma nulls_lview h c g a tg j : lview (S h) c g (RSub a tg (replicate 64 RNull)) j = None.
Proof.
  unfold lview. cbn [tget]. rewrite lookup_replicate_2 by (apply digit_lt). cbn [default]. by rewrite tget_null.
Qed.

Lemma fresh_lview h c g a j : lview (S h) c g (fresh a) j = None.
Proof. apply nulls_lview. Qed.

Lemma lview_null h c g j : lview h c g RNull j = None.
Proof. unfold lview. by rewrite tget_null. Qed.

Lemma fresh_tag τ h a b : (τ < 2)%nat -> tag_ok τ (S h) b RNull -> tag_ok τ (S h) b (fresh a).
Proof.
  intros Hτ ->%tag_ok_null. cbn [tag_ok fresh]. assert (tmask τ [0; 0] = 0) as -> by (destruct τ as [|[|]]; [done|done|lia]).
  split; [by apply fits_0|]. split; [done|]. intros o k Hk. apply lookup_replicate_1 in Hk as [-> _]. apply tag_ok_null, Z.bits_0.
Qed.

(** The allocation in insert_down: the slot gets a fresh node. *)
Lemma insert_node s h c g P D i (Q : Z -> radix_state -> Prop) :
  place s (S h) c RNull g P D i ->
  (P = [] -> Q NULL s) ->
  (forall a P' s', P = a :: P' -> even_ptr a -> place s' (S h) c (fresh a) g P' D i -> Q a s') ->
  wp (s ← radix_tree_node_alloc;
      if s =? NULL then mret NULL else
      set_height s (Z.of_nat (S h)) ;;
      (if negb ((slot_of c).1 =? NULL) then set_slot (slot_of c).1 (slot_of c).2 s ;; set_count (slot_of c).1 (fun c => c + 1)
       else set_rnode (radix_tree_ptr_to_indirect s)) ;;
      mret s) Q s.
Proof.
  intros (Hh & Hp & Htg & F & Hz & Hav) Q0 Q1. apply wp_bind. eapply wp_alloc; [exact Hz|exact Hav|intros E; apply wp_ret; auto|].
  clear s F Hz Hav Q0. intros a n P' F s EP Ha (Hc & Hsl & Ht) Hz Hav. rewrite (proj1 (even_nonnull _ Ha)).
  apply wp_bind. eapply wp_upd_frame; [exact Hz|]. clear s Hz. intros s Hz. 
  assert (zst s (S h) c RNull g (entries (S h) (fresh a) ++ F) P' D) as Hz'.
  { rewrite fresh_entries. cbn [app]. refine (eq_rect _ (fun n => zst _ _ _ _ _ ((a, n) :: _) _ _) Hz _ _). by rewrite Hc, Hsl, Ht. }
  clear Hz. apply wp_bind. eapply wp_mono with (Q := fun _ s' => place s' (S h) c (fresh a) g P' D i);
    [|intros [] s' Hpl; apply wp_ret; eauto].
  assert (forall s', zst s' (S h) c (fresh a) g F P' D -> place s' (S h) c (fresh a) g P' D i) as Hpl.
  { intros s' H. split; [done|]. split; [done|]. split; [|by exists F]. intros τ Hτ. destruct (Htg τ Hτ) as [? Hn].
    split; [done|]. by apply fresh_tag. }
  destruct c as [|a' tg kids o c]; cbn [slot_of fst snd].
  - cbn [Z.eqb negb NULL]. eapply (wp_set_rnode _ _ RNull (fresh a)); [exact Hz'|by apply fresh_shape| | |exact Hpl].
    + by rewrite entries_null.
    + cbn [root_ptr ptr fresh]. by rewrite (proj1 (even_nonnull _ Ha)).
  - pose proof Hz' as (_ & _ & _ & (Ha' & _) & _). rewrite (proj1 (even_nonnull _ Ha')). cbn [negb].
    by apply (wp_link _ _ _ _ _ _ _ (fresh a) _ _ F _ _ _ Hz' (fresh_shape _ _ Ha)).
Qed.
End Places.

(** ** Insertion *)

(** How many nodes the path to a slot can need. *)
Definition need (h : nat) (t : rtree) : nat := match t with RNull => h | _ => h - 1 end.

Section Insert.
Implicit Types (P D : list Z).

Definition insert_inv (H : nat) (g : Z) (D : list Z) (i : Z) (v : Z -> option (Z * bool * bool)) (rich : Prop)
    (h : nat) '(height, shift, node, offset, slot) (s : radix_state) : Prop :=
  exists c t P, height = Z.of_nat h /\ shift = level_shift h /\ node = (slot_of c).1 /\ offset = (slot_of c).2 /\ slot = ptr t /\
    place s h c t g P D i /\ (h + rdepth c)%nat = H /\ (forall j, tview H g (rplug c t) j = v j) /\
    (rich -> (need h t <= length P)%nat).

Definition insert_post (H : nat) (g : Z) (D : list Z) (i : Z) (v : Z -> option (Z * bool * bool)) (rich : Prop)
    (r : option (Z * Z * Z)) (s : radix_state) : Prop :=
  match r with
  | None => ~ rich /\ exists t P, tree_state s H t g P D /\ forall j, tview H g t j = v j
  | Some (node, offset, slot) => exists c t P, node = (slot_of c).1 /\ offset = (slot_of c).2 /\ slot = ptr t /\ place s 0 c t g P D i /\
      rdepth c = H /\ forall j, tview H g (rplug c t) j = v j
  end.

(** One level down from a node. *)
Lemma insert_level s h c a tg kids g P D i H v rich :
  place s (S h) c (RSub a tg kids) g P D i -> (S h + rdepth c)%nat = H ->
  (forall j, tview H g (rplug c (RSub a tg kids)) j = v j) -> (rich -> (h <= length P)%nat) ->
  wp (slot ← get_slot a (Z.land (Z.shiftr i (level_shift (S h))) RADIX_TREE_MAP_MASK);
      continue (Z.of_nat (S h) - 1, u32 (level_shift (S h) - RADIX_TREE_MAP_SHIFT), a,
                Z.land (Z.shiftr i (level_shift (S h))) RADIX_TREE_MAP_MASK, slot))
    (fun r s' => match r with
       | inl x => exists n, (n < S h)%nat /\ insert_inv H g D i v rich n x s'
       | inr y => insert_post H g D i v rich y s' end) s.
Proof.
  intros Hpl HH Hv Hn. pose proof Hpl as (Hh & _ & _ & F & Hz & _). rewrite level_digit, level_shift_next by lia.
  apply wp_bind. eapply wp_get_slot; [exact Hz|apply digit_lt|]. apply wp_ret. exists h. split; [lia|].
  pose proof (zst_node _ _ _ _ _ _ _ _ _ _ Hz) as (_ & _ & Hk & _). apply place_down in Hpl.
  exists (RFr a tg kids (digit h i) c), (default RNull (kids !! digit h i)), P.
  split; [lia|]. do 5 (split; [done|]). cbn [rdepth rplug]. split; [lia|].
  split; [|intros Hr; specialize (Hn Hr); unfold need; destruct (default _ _); lia].
  intros j. rewrite insert_default by (pose proof (digit_lt h i); lia). apply Hv.
Qed.

Lemma insert_down_ok s H t g P D i :
  tree_state s H t g P D ->
  wp (insert_down i (Z.of_nat H) (level_shift H) (ptr t))
    (insert_post H g D i (tview H g t) (need H t <= length P)%nat) s.
Proof.
  intros Hst. apply (wp_loop_depth (insert_inv H g D i (tview H g t) (need H t <= length P)%nat)) with (n := H);
    [|exists RTop, t, P; do 5 (split; [done|]); split; [by apply place_top|]; cbn [rdepth]; split; [lia|]; done|destruct Hst as [? _]; unfold path_fuel; lia].
  generalize (need H t <= length P)%nat (tview H g t). clear s t P Hst. intros rich v h [[[[height shift] node] offset] slot] s
    (c & t & P & -> & -> & -> & -> & -> & Hpl & HH & Hv & Hn). destruct h as [|h].
  { apply wp_ret. exists c, t, P. done. }
  rewrite (proj2 (Z.ltb_lt 0 _)) by lia. apply wp_bind. pose proof Hpl as (_ & _ & _ & F & (_ & _ & Hs & _) & _).
  destruct (decide (t = RNull)) as [->|Ht].
  - cbn [ptr Z.eqb NULL]. eapply insert_node; [exact Hpl| |].
    + intros ->. apply wp_ret. split; [intros Hr; specialize (Hn Hr); cbn [need length] in Hn; lia|]. exists (rplug c RNull), [].
      subst H. split; [by eapply place_tree|done].
    + clear s Hpl F Hs. intros a P' s -> Ha Hpl. rewrite (proj1 (even_nonnull _ Ha)). cbv zeta. eapply insert_level; [exact Hpl|done| |].
      * intros j. pose proof Hpl as (_ & _ & _ & F & (_ & _ & _ & Hc & _) & _). rewrite <- Hv, <- HH. apply (tview_same _ _ _ (fresh a) RNull); [done|].
        intros i'. by rewrite fresh_lview, lview_null.
      * intros Hr. specialize (Hn Hr). cbn [need length] in Hn. lia.
  - destruct (nonnull_ptr _ _ Hs Ht) as [E _]. rewrite E. apply wp_ret. rewrite E. cbv zeta.
    destruct t as [| |a tg kids]; [done|by destruct Hs|]. eapply insert_level; [exact Hpl|done|done|].
    intros Hr. specialize (Hn Hr). cbn [need] in Hn. lia.
Qed.

Lemma wp_tag_get s h c a tg kids g F P D τ o Q :
  zst s (S h) c (RSub a tg kids) g F P D -> Q (Z.testbit (tmask τ tg) o) s -> wp (tag_get a (Z.of_nat τ) o) Q s.
Proof.
  intros (Hn & _)%zst_node HQ. apply wp_bind. eapply wp_get_node; [exact Hn|]. apply wp_ret. unfold mask. by rewrite Nat2Z.id.
Qed.

(** The item goes into the slot; its tags are clear. *)
Lemma insert_item s c g P D i p :
  place s 0 c RNull g P D i -> even_ptr p ->
  wp (if negb ((slot_of c).1 =? NULL) then
        set_count (slot_of c).1 (fun c => c + 1) ;;
        set_slot (slot_of c).1 (slot_of c).2 p ;;
        (t0 ← tag_get (slot_of c).1 0 (slot_of c).2; BUG_ON t0) ;;
        (t1 ← tag_get (slot_of c).1 1 (slot_of c).2; BUG_ON t1)
      else
        set_rnode p ;;
        (t0 ← root_tag_get 0; BUG_ON t0) ;;
        (t1 ← root_tag_get 1; BUG_ON t1))
    (fun _ s' => place s' 0 c (RItem p) g P D i) s.
Proof.
  intros (Hh & Hp & Htg & F & Hz & Hav) He.
  assert (forall τ, (τ < 2)%nat -> cbit τ c (gtag g τ) = false) as Hb by (intros τ Hτ; destruct (Htg τ Hτ) as [_ H]; exact H).
  assert (forall s', zst s' 0 c (RItem p) g F P D -> place s' 0 c (RItem p) g P D i) as Hpl.
  { intros s' H. split; [done|]. split; [done|]. split; [|by exists F]. intros τ Hτ. by destruct (Htg τ Hτ) as [? _]. }
  pose proof (Hb 0%nat ltac:(lia)) as Hb0. pose proof (Hb 1%nat ltac:(lia)) as Hb1. clear Hb Htg.
  destruct c as [|a tg kids o c]; cbn [slot_of fst snd cbit] in *.
  - cbn [Z.eqb negb NULL]. apply wp_bind. eapply (wp_set_rnode _ _ RNull (RItem p)); [exact Hz|exact He|done|done|].
    clear s Hz. intros s Hz. apply wp_bind, wp_bind. change 0 with (Z.of_nat 0). change 1 with (Z.of_nat 1). eapply (wp_root_tag_get _ _ _ _ _ _ _ _ 0); [exact Hz|]. rewrite Hb0.
    apply wp_ret, wp_bind. eapply (wp_root_tag_get _ _ _ _ _ _ _ _ 1); [exact Hz|]. rewrite Hb1. apply wp_ret. auto.
  - pose proof Hz as (_ & _ & _ & (Ha & _) & _). rewrite (proj1 (even_nonnull _ Ha)). cbn [negb].
    apply wp_assoc, wp_bind. eapply (wp_link _ _ _ _ _ _ _ (RItem p) _ _ F); [exact Hz|exact He|done|done|].
    clear s Hz. intros s Hz. pose proof (zst_up _ _ _ _ _ _ _ _ _ _ _ _ Hz) as Hu. apply wp_bind, wp_bind.
    change 0 with (Z.of_nat 0). change 1 with (Z.of_nat 1). eapply (wp_tag_get _ _ _ _ _ _ _ _ _ _ 0); [exact Hu|]. rewrite Hb0. apply wp_ret, wp_bind.
    eapply (wp_tag_get _ _ _ _ _ _ _ _ _ _ 1); [exact Hu|]. rewrite Hb1. apply wp_ret. auto.
Qed.

Lemma lview_item c g p j : even_ptr p -> lview 0 c g (RItem p) j = Some (p, cbit 0 c (gtag g 0), cbit 1 c (gtag g 1)).
Proof. intros [H _]%even_nonnull. unfold lview. cbn [tget tagged]. by rewrite H. Qed.

Definition insert_result (H : nat) (g : Z) (t : rtree) (i p : Z) (poor : Prop) (H' : nat) (t' : rtree) (r : Z) : Prop :=
  r = 0 /\ tview H g t i = None /\ (forall j, tview H' g t' j = if decide (j = i) then Some (p, false, false) else tview H g t j) \/
  r = - EEXIST /\ is_Some (tview H g t i) /\ (forall j, tview H' g t' j = tview H g t j) \/
  r = - ENOMEM /\ poor /\ (forall j, tview H' g t' j = tview H g t j).

Lemma insert_at_ok s H t g P D i p :
  tree_state s H t g P D -> 0 <= i < 64 ^ Z.of_nat H -> even_ptr p ->
  wp (insert_at i p) (fun r s' => exists t' P', tree_state s' H t' g P' D /\
    insert_result H g t i p (length P < need H t)%nat H t' r) s.
Proof.
  intros Hst Hi Hp. pose proof Hst as (HH & Htg & F & Hz & Hav). apply wp_bind. eapply get_root_zst; [exact Hz|].
  cbn [rnode rheight rdepth rplug]. rewrite Nat.add_0_r. pose proof Hz as (_ & _ & Hs & _). cbv zeta. rewrite indirect_root by done.
  apply wp_bind. eapply wp_mono; [exact (insert_down_ok _ _ _ _ _ _ i Hst)|]. clear s F Hz Hav Hst.
  intros [[[node offset] slot]|] s; cbn [insert_post].
  - intros (c & t' & P' & -> & -> & -> & Hpl & <- & Hv). pose proof Hpl as (_ & Hon & Htg' & F & Hz & _).
    pose proof Hz as (_ & _ & Hs' & Hc & _). change (rdepth c) with (0 + rdepth c)%nat in *.
    pose proof (Hv i) as Ei. rewrite (tview_slot c _ _ i), decide_True in Ei by done.
    destruct t' as [|q|]; cbn [ptr] in *; [|destruct (even_nonnull _ Hs') as [-> _]|done].
    + cbn [Z.eqb NULL negb]. apply wp_bind. eapply wp_mono; [exact (insert_item _ _ _ _ _ _ _ Hpl Hp)|].
      clear s Hpl F Hz. intros [] s Hpl. apply wp_ret. exists (rplug c (RItem p)), P'. split; [by eapply place_tree|].
      left. split; [done|]. split; [by rewrite <- Ei, lview_null|]. intros j. rewrite (tview_slot c _ _ i), <- Hv by done. case_decide; [|done].
      rewrite lview_item by done. by rewrite (proj2 (Htg' 0%nat ltac:(lia))), (proj2 (Htg' 1%nat ltac:(lia))).
    + apply wp_ret. exists (rplug c (RItem q)), P'. split; [by eapply place_tree|]. right; left. split; [done|].
      split; [|exact Hv]. rewrite <- Ei, lview_item by done. by eexists.
  - intros (Hr & t' & P' & Hst & Hv). apply wp_ret. exists t', P'. split; [done|]. right; right. split; [done|]. split; [lia|done].
Qed.

Lemma radix_tree_insert_ok s H t g P D i p :
  tree_state s H t g P D -> 0 <= i < 2 ^ 32 -> even_ptr p ->
  wp (radix_tree_insert i p) (fun r s' => exists H' t' P', tree_state s' H' t' g P' D /\
    insert_result H g t i p (length P < 11)%nat H' t' r) s.
Proof.
  intros Hst Hi Hp. apply wp_bind, wp_BUG_ON; [by apply indirect_flag|]. pose proof Hst as (HH & Htg & F & Hz & Hav).
  apply wp_bind. eapply get_root_zst; [exact Hz|]. cbn [rheight rdepth]. rewrite Nat.add_0_r.
  apply wp_bind, (wp_maxindex _ i); [done|done|]. intros v ->.
  apply wp_bind, wp_mono with (Q := fun r s' => exists H' t' P', tree_state s' H' t' g P' D /\ (forall j, tview H' g t' j = tview H g t j) /\
    (r = 0 /\ i < 64 ^ Z.of_nat H' /\ (11 <= length P -> need H' t' <= length P')%nat \/ r = - ENOMEM /\ (length P < 6)%nat)).
  { destruct (Z.ltb_spec i (64 ^ Z.of_nat H)) as [Hlt|Hge]; cbn [negb].
    - apply wp_ret. exists H, t, P. split; [done|]. split; [done|]. left. do 2 (split; [done|]). unfold need. destruct t; lia.
    - eapply wp_mono; [exact (radix_tree_extend_ok _ _ _ _ _ _ _ Hst Hi Hge)|].
      intros r s' (H' & t' & P' & Hst' & Hv & Hr & Hl). exists H', t', P'. split; [done|]. split; [done|].
      destruct Hr as [[-> Hlt]|]; [left|by right]. do 2 (split; [done|]). pose proof Hst' as [? _]. unfold need.
      destruct Hl as [(_ & -> & ->)|(_ & Ht & Hl)]; [lia|]. destruct t'; [done|lia|lia]. }
  clear s F Hz Hav Hst. intros r s (H' & t' & P' & Hst & Hv & [(-> & Hlt & Hrich)|[-> Hl]]);
    [|cbn [Z.eqb ENOMEM Z.opp negb]; apply wp_ret; exists H', t', P'; split; [done|]; right; right; split; [done|]; split; [lia|done]].
  cbn [Z.eqb negb]. eapply wp_mono; [exact (insert_at_ok _ _ _ _ _ _ _ _ Hst (conj (proj1 Hi) Hlt) Hp)|].
  intros r s' (t'' & P'' & Hst' & Hr). exists H', t'', P''. split; [done|]. unfold insert_result in *. rewrite <- !Hv.
  destruct Hr as [(? & ? & Hj)|[(? & ? & Hj)|(? & ? & Hj)]]; [left|right; left|right; right]; (split; [done|]);
    (split; [done || lia|]); intros j; rewrite Hj, <- ?Hv; done.
Qed.
End Insert.

(** ** Tagging *)

Definition mark (τ : nat) (b : bool) '((p, b0, b1) : Z * bool * bool) : Z * bool * bool :=
  match τ with O => (p, b, b1) | _ => (p, b0, b) end.

(** The entry at [i], if there is one, has its tag [τ] changed. *)
Lemma tview_mark τ b i h g t g' t' :
  (τ < 2)%nat -> (forall j, tget h t' j = tget h t j) ->
  (forall j, 0 <= j < 64 ^ Z.of_nat h -> tagged τ h (gtag g' τ) t' j = if decide (j = i) then b else tagged τ h (gtag g τ) t j) ->
  (forall τ' j, (τ' < 2)%nat -> τ' <> τ -> tagged τ' h (gtag g' τ') t' j = tagged τ' h (gtag g τ') t j) ->
  forall j, tview h g' t' j = if decide (j = i) then mark τ b <$> tview h g t j else tview h g t j.
Proof.
  intros Hτ Hg Ht Ho j. unfold tview. rewrite Hg. destruct (Z.leb_spec 0 j); [|by case_decide].
  destruct (Z.ltb_spec j (64 ^ Z.of_nat h)); [|by case_decide]. cbn [andb]. specialize (Ht j ltac:(done)).
  destruct (tget h t j =? NULL); [by case_decide|]. cbn [negb]. destruct τ as [|[|]]; [| |lia].
  - rewrite Ht, (Ho 1%nat) by lia. by case_decide.
  - rewrite Ht, (Ho 0%nat) by lia. by case_decide.
Qed.

Section Marks.
Implicit Types (F : list (Z * radix_tree_node)) (P D : list Z).

Lemma tget_plug_same h c t t' j :
  cshape h c -> (forall j, tget h t j = tget h t' j) -> tget (h + rdepth c) (rplug c t) j = tget (h + rdepth c) (rplug c t') j.
Proof. intros Hc E. by rewrite (tget_plug _ _ t), (tget_plug _ _ t'), E by done. Qed.

Lemma tagged_plug_same τ h c t t' B j :
  cshape h c -> (forall b j, tagged τ h b t j = tagged τ h b t' j) ->
  tagged τ (h + rdepth c) B (rplug c t) j = tagged τ (h + rdepth c) B (rplug c t') j.
Proof. intros Hc E. by rewrite (tagged_plug τ _ _ t), (tagged_plug τ _ _ t'), E by done. Qed.

(** The tags of a node change in one mask. *)
Definition retag (τ : nat) (m : Z) (tg tg' : list Z) : Prop :=
  length tg' = length tg /\ tmask τ tg' = m /\ forall τ', τ' <> τ -> tmask τ' tg' = tmask τ' tg.

Lemma retag_insert τ m tg : (τ < length tg)%nat -> retag τ m tg (<[τ := m]> tg).
Proof.
  intros Hτ. split; [apply length_insert|]. unfold tmask. split; [by rewrite list_lookup_insert_eq|].
  intros τ' Hne. by rewrite list_lookup_insert_ne.
Qed.

Lemma retag_id τ tg m : tmask τ tg = m -> retag τ m tg tg.
Proof. intros <-. by split. Qed.

Lemma wp_retag s h c a tg kids g F P D τ m f Q :
  zst s (S h) c (RSub a tg kids) g F P D -> (τ < 2)%nat ->
  (forall n, tags n = tg -> f n = RNode (height n) (count n) (slots n) (<[τ := m]> tg)) ->
  (forall s' tg', retag τ m tg tg' -> zst s' (S h) c (RSub a tg' kids) g F P D -> Q tt s') -> wp (upd_node a f) Q s.
Proof.
  intros Hz Hτ Hf HQ. pose proof (zst_node _ _ _ _ _ _ _ _ _ _ Hz) as (_ & _ & Hk & Hg).
  pose proof (zst_down _ _ _ _ _ 0 _ _ _ _ _ ltac:(lia) Hz) as Hd. pose proof (insert_default kids 0 ltac:(lia)) as Ek.
  eapply (wp_upd_slot _ _ _ _ (<[τ := m]> tg) _ _ _ _ _ _ _ F); [exact Hd|by rewrite length_insert|apply Hd|done|by rewrite Hf|].
  intros s' Hz'. apply zst_up in Hz'. rewrite Ek in Hz'. eapply HQ; [|exact Hz']. apply retag_insert. lia.
Qed.

Lemma setbit_id m o : 0 <= o -> Z.testbit m o = true -> Z.setbit m o = m.
Proof.
  intros Ho H. apply Z.bits_inj'. intros i Hi. rewrite Z.setbit_eqb by done. destruct (Z.eqb_spec o i) as [<-|]; [by rewrite H|done].
Qed.

Lemma wp_mark s h c a tg kids g F P D τ o Q :
  zst s (S h) c (RSub a tg kids) g F P D -> (τ < 2)%nat ->
  (forall s' tg', retag τ (Z.setbit (tmask τ tg) (Z.of_nat o)) tg tg' -> zst s' (S h) c (RSub a tg' kids) g F P D -> Q tt s') ->
  wp (t ← tag_get a (Z.of_nat τ) (Z.of_nat o); if negb (t : bool) then tag_set a (Z.of_nat τ) (Z.of_nat o) else mret tt) Q s.
Proof.
  intros Hz Hτ HQ. apply wp_bind. eapply wp_tag_get; [exact Hz|]. destruct (Z.testbit (tmask τ tg) (Z.of_nat o)) eqn:Eb; cbn [negb].
  - apply wp_ret. eapply HQ; [|exact Hz]. apply retag_id. symmetry. apply setbit_id; [lia|done].
  - eapply wp_retag; [exact Hz|exact Hτ| |exact HQ]. intros n <-. unfold mask. by rewrite Nat2Z.id.
Qed.

(** The tag of the root. *)
Lemma gtag_set g τ τ' : gtag (Z.lor g (Z.shiftl 1 (Z.of_nat τ + __GFP_BITS_SHIFT))) τ' = gtag g τ' || bool_decide (τ = τ').
Proof.
  unfold gtag, __GFP_BITS_SHIFT. rewrite Z.lor_spec, Z.shiftl_1_l, Z.pow2_bits_eqb by lia. f_equal. repeat case_test; lia || done.
Qed.

Lemma gtag_clear g τ τ' : gtag (Z.ldiff g (Z.shiftl 1 (Z.of_nat τ + __GFP_BITS_SHIFT))) τ' = gtag g τ' && negb (bool_decide (τ = τ')).
Proof.
  unfold gtag, __GFP_BITS_SHIFT. rewrite Z.ldiff_spec, Z.shiftl_1_l, Z.pow2_bits_eqb by lia. f_equal. f_equal. repeat case_test; lia || done.
Qed.

Lemma same_gfp_tags g τ :
  same_gfp g (Z.lor g (Z.shiftl 1 (Z.of_nat τ + __GFP_BITS_SHIFT))) /\ same_gfp g (Z.ldiff g (Z.shiftl 1 (Z.of_nat τ + __GFP_BITS_SHIFT))) /\
  same_gfp g (Z.land g __GFP_BITS_MASK).
Proof.
  unfold __GFP_BITS_SHIFT. split; [|split]; apply same_gfp_bits; intros i Hi.
  - rewrite Z.lor_spec, Z.shiftl_1_l, Z.pow2_bits_false by lia. apply orb_false_r.
  - rewrite Z.ldiff_spec, Z.shiftl_1_l, Z.pow2_bits_false by lia. apply andb_true_r.
  - change __GFP_BITS_MASK with (Z.ones 21). rewrite Z.land_spec, Z.ones_spec_low by lia. apply andb_true_r.
Qed.

Lemma wp_root_mark s h c t g F P D τ Q :
  zst s h c t g F P D ->
  (forall s' g', gtag g' τ = true -> (forall τ', τ' <> τ -> gtag g' τ' = gtag g τ') -> zst s' h c t g' F P D -> Q tt s') ->
  wp (t ← root_tag_get (Z.of_nat τ); if negb (t : bool) then root_tag_set (Z.of_nat τ) else mret tt) Q s.
Proof.
  intros Hz HQ. apply wp_bind. eapply wp_root_tag_get; [exact Hz|]. destruct (gtag g τ) eqn:E; cbn [negb].
  - apply wp_ret. by apply (HQ s g).
  - apply wp_bind. eapply get_root_zst; [exact Hz|]. eapply wp_set_gfp; [exact Hz|apply same_gfp_tags|]. intros s'. apply HQ.
    + cbn [gfp_mask]. by rewrite gtag_set, bool_decide_true, orb_true_r.
    + intros τ' Hne. cbn [gfp_mask]. by rewrite gtag_set, bool_decide_false, orb_false_r by done.
Qed.

Lemma wp_root_unmark s h c t g F P D τ Q :
  zst s h c t g F P D ->
  (forall s' g', gtag g' τ = false -> (forall τ', τ' <> τ -> gtag g' τ' = gtag g τ') -> zst s' h c t g' F P D -> Q tt s') ->
  wp (t ← root_tag_get (Z.of_nat τ); if (t : bool) then root_tag_clear (Z.of_nat τ) else mret tt) Q s.
Proof.
  intros Hz HQ. apply wp_bind. eapply wp_root_tag_get; [exact Hz|]. destruct (gtag g τ) eqn:E.
  - apply wp_bind. eapply get_root_zst; [exact Hz|]. eapply wp_set_gfp; [exact Hz|apply same_gfp_tags|]. intros s'. apply HQ.
    + cbn [gfp_mask]. by rewrite gtag_clear, bool_decide_true, andb_false_r.
    + intros τ' Hne. cbn [gfp_mask]. by rewrite gtag_clear, bool_decide_false, andb_true_r by done.
  - apply wp_ret. by apply (HQ s g).
Qed.
End Marks.

Section TagSet.
Implicit Types (F : list (Z * radix_tree_node)) (P D : list Z).

Lemma tag_ok_same τ h c t t' B :
  (forall b, tag_ok τ h b t -> tag_ok τ h b t') -> tag_ok τ (h + rdepth c) B (rplug c t) -> tag_ok τ (h + rdepth c) B (rplug c t').
Proof.
  revert h t t'. induction c as [|a tg kids o c IH]; intros h t t' E; [simpl; rewrite Nat.add_0_r; auto|].
  cbn [rdepth rplug]. rewrite Nat.add_succ_r. apply (IH (S h)). intros b (Hf & Hb & Hk). split; [done|]. split; [done|].
  intros o' k Hl. apply list_lookup_insert_Some in Hl as [(-> & -> & Ho)|[Hne Hl]].
  - apply E, Hk. by apply list_lookup_insert_eq.
  - apply Hk. by rewrite list_lookup_insert_ne.
Qed.

(** Everything but the tag [τ] is as in the tree [t0]. *)
Definition rest (τ H : nat) (g : Z) (t0 t : rtree) : Prop :=
  (forall j, tget H t j = tget H t0 j) /\
  forall τ', (τ' < 2)%nat -> τ' <> τ ->
    tag_ok τ' H (gtag g τ') t /\ forall j, tagged τ' H (gtag g τ') t j = tagged τ' H (gtag g τ') t0 j.

Lemma rest_retag τ H g t0 h c a tg tg' kids m :
  rest τ H g t0 (rplug c (RSub a tg kids)) -> retag τ m tg tg' -> cshape (S h) c -> (S h + rdepth c)%nat = H ->
  rest τ H g t0 (rplug c (RSub a tg' kids)).
Proof.
  intros [Hg Ho] (_ & _ & Hm) Hc <-. split.
  - intros j. rewrite <- Hg. by apply tget_plug_same.
  - intros τ' Hτ' Hne. destruct (Ho τ' Hτ' Hne) as [Hk Ht]. split.
    + revert Hk. apply tag_ok_same. intros b. cbn [tag_ok]. by rewrite Hm.
    + intros j. rewrite <- Ht. apply tagged_plug_same; [done|]. intros b j'. cbn [tagged]. by rewrite Hm.
Qed.

Definition set_inv (τ H : nat) (g : Z) P D (i : Z) (t0 : rtree) (h : nat) '(height, shift, slot) (s : radix_state) : Prop :=
  exists c t b F, height = Z.of_nat h /\ shift = level_shift h /\ slot = ptr t /\ (h + rdepth c)%nat = H /\
    zst s h c t g F P D /\ avail F P D /\ on_path h c i = true /\ rest τ H g t0 (rplug c t) /\
    ctag_ok τ h c true /\ cbit τ c true = true /\ tag_ok τ h b t /\
    forall j, (if on_path h c j then tagged τ h b t j else tagged τ H true (rplug c RNull) j) = tagged τ H (gtag g τ) t0 j.

Lemma setbit_fits m o : (o < 64)%nat -> fits 64 m -> fits 64 (Z.setbit m (Z.of_nat o)).
Proof.
  intros Ho Hf. rewrite Z.setbit_spec'. apply fits_lor; [lia|done|]. split; [apply Z.pow_nonneg; lia|]. apply Z.pow_lt_mono_r; lia.
Qed.

(** The tag of the path below a node that gets its bit. *)
Lemma set_down τ h c a tg tg' kids i H g t0 b :
  length kids = 64%nat -> cshape (S h) c -> (S h + rdepth c)%nat = H ->
  retag τ (Z.setbit (tmask τ tg) (Z.of_nat (digit h i))) tg tg' ->
  ctag_ok τ (S h) c true -> cbit τ c true = true -> tag_ok τ (S h) b (RSub a tg kids) ->
  (forall j, (if on_path (S h) c j then tagged τ (S h) b (RSub a tg kids) j else tagged τ H true (rplug c RNull) j) = tagged τ H (gtag g τ) t0 j) ->
  let c' := RFr a tg' kids (digit h i) c in let k := default RNull (kids !! digit h i) in
  ctag_ok τ h c' true /\ cbit τ c' true = true /\ exists b', tag_ok τ h b' k /\
    forall j, (if on_path h c' j then tagged τ h b' k j else tagged τ H true (rplug c' RNull) j) = tagged τ H (gtag g τ) t0 j.
Proof.
  intros Hl Hc HH (_ & Hm & _) Hct Hb (Hf & _ & Hk) Hj. pose proof (digit_lt h i) as Hd. split; [|split; [|eexists; split]].
  - cbn [ctag_ok]. rewrite Hm, Hb. split; [by apply setbit_fits|]. split; [|split; [|done]].
    + symmetry. apply negb_true_iff, Z.eqb_neq. intros E. assert (Z.testbit (Z.setbit (tmask τ tg) (Z.of_nat (digit h i))) (Z.of_nat (digit h i)) = true) as Ht by (apply Z.setbit_eq; lia).
      by rewrite E, Z.bits_0 in Ht.
    + intros o k Ho Hlo. rewrite Z.setbit_neq by lia. by apply Hk.
  - cbn [cbit]. rewrite Hm. apply Z.setbit_eq. lia.
  - destruct (lookup_lt_is_Some_2 kids (digit h i) ltac:(lia)) as [k Ek]. rewrite Ek. apply (Hk _ _ Ek).
  - intros j. rewrite <- Hj. cbn [on_path rplug]. rewrite <- HH. rewrite (tagged_plug τ _ _ (RSub a tg' _)) by done.
    destruct (on_path (S h) c j); [|by rewrite andb_false_r]. rewrite andb_true_r. cbn [tagged].
    case_bool_decide as E; [by rewrite E|]. rewrite Hm, list_lookup_insert_ne by done. rewrite Z.setbit_neq by lia. done.
Qed.

Definition tag_set_loop (i : Z) (τ : nat) : Z * Z * Z -> RM (Z * Z * Z + Z) := fun '(height, shift, slot) =>
  if 0 <? height then
    let offset := Z.land (Z.shiftr i shift) RADIX_TREE_MAP_MASK in
    t ← tag_get slot (Z.of_nat τ) offset;
    (if negb (t : bool) then tag_set slot (Z.of_nat τ) offset else mret tt) ;;
    slot ← get_slot slot offset;
    BUG_ON (slot =? NULL) ;;
    continue (height - 1, u32 (shift - RADIX_TREE_MAP_SHIFT), slot)
  else break slot.

Lemma tag_set_loop_ok s H t0 g P D i τ (Q : Z -> radix_state -> Prop) :
  tree_state s H t0 g P D -> (τ < 2)%nat -> tget H t0 i <> NULL ->
  (forall s' c p F, zst s' 0 c (RItem p) g F P D -> avail F P D -> rdepth c = H -> on_path 0 c i = true ->
     rest τ H g t0 (rplug c (RItem p)) -> ctag_ok τ 0 c true -> cbit τ c true = true ->
     (forall j, on_path 0 c j = false -> tagged τ H true (rplug c RNull) j = tagged τ H (gtag g τ) t0 j) -> Q p s') ->
  wp (loop path_fuel (tag_set_loop i τ) (Z.of_nat H, level_shift H, ptr t0)) Q s.
Proof.
  intros (HH & Htg & F & Hz & Hav) Hτ Hp HQ.
  apply (wp_loop_depth (set_inv τ H g P D i t0)) with (n := H); [| |unfold path_fuel; lia].
  2:{ exists RTop, t0, (gtag g τ), F. do 3 (split; [done|]). split; [cbn [rdepth]; lia|]. do 3 (split; [done|]).
      split; [split; [done|]; intros τ' Hτ' _; split; [by apply Htg|done]|]. do 2 (split; [done|]). split; [by apply Htg|]. done. }
  clear s F Hz Hav Htg. intros h [[height shift] slot] s (c & t & b & F & -> & -> & -> & Hd & Hz & Hav & Hon & Hr & Hct & Hb & Ht & Hj).
  pose proof Hz as (_ & _ & Hs & Hc & _).
  assert (tget h t i <> NULL) as Hp'.
  { destruct Hr as [Hr _]. rewrite <- (Hr i), <- Hd, tget_plug, Hon in Hp by done. done. }
  destruct h as [|h].
  { destruct t as [|p|]; try done. apply wp_ret. eapply HQ; [exact Hz|done|done|done|done|done|done|].
    intros j E. by rewrite <- Hj, E. }
  destruct t as [| |a tg kids]; [done|by destruct Hs|]. cbn [tag_set_loop]. rewrite (proj2 (Z.ltb_lt 0 _)) by lia. cbv zeta.
  rewrite level_digit, level_shift_next by lia. apply wp_assoc, wp_bind. eapply wp_mark; [exact Hz|exact Hτ|].
  clear s Hz. intros s tg' Hre Hz. pose proof (zst_node _ _ _ _ _ _ _ _ _ _ Hz) as (_ & _ & Hk & _).
  apply wp_bind. eapply wp_get_slot; [exact Hz|apply digit_lt|]. pose proof (zst_down _ _ _ _ _ _ _ _ _ _ _ (digit_lt h i) Hz) as Hzd.
  cbn [tget] in Hp'. apply wp_bind, wp_BUG_ON.
  { pose proof Hzd as (_ & _ & Hsk & _). apply (nonnull_ptr h); [done|]. intros E. by rewrite E, tget_null in Hp'. }
  apply wp_ret. exists h. split; [lia|]. destruct (set_down _ _ _ _ _ _ _ _ _ _ _ _ Hk Hc Hd Hre Hct Hb Ht Hj) as (Hct' & Hb' & b' & Ht' & Hj').
  exists (RFr a tg' kids (digit h i) c), (default RNull (kids !! digit h i)), b', F. split; [lia|]. do 2 (split; [done|]). split; [cbn [rdepth]; lia|]. split; [exact Hzd|]. split; [done|].
  split; [cbn [on_path]; by rewrite bool_decide_true|]. split; [|done].
  cbn [rplug]. rewrite insert_default by (pose proof (digit_lt h i); lia). by eapply rest_retag.
Qed.

Lemma radix_tree_tag_set_ok s H t g P D i τ e :
  tree_state s H t g P D -> 0 <= i < 2 ^ 32 -> (τ < 2)%nat -> tview H g t i = Some e ->
  wp (radix_tree_tag_set i (Z.of_nat τ)) (fun r s' => r = e.1.1 /\ exists t' g', tree_state s' H t' g' P D /\
    forall j, tview H g' t' j = if decide (j = i) then mark τ true <$> tview H g t j else tview H g t j) s.
Proof.
  intros Hst Hi Hτ He. pose proof Hst as (HH & Htg & F & Hz & Hav). pose proof Hz as (_ & _ & Hs & _).
  unfold tview in He. destruct (Z.leb_spec 0 i); [|done]. destruct (Z.ltb_spec i (64 ^ Z.of_nat H)) as [Hlt|]; [|done].
  destruct (Z.eqb_spec (tget H t i) NULL) as [|Hp]; [done|]. cbn [andb negb] in He. injection He as <-. cbn [fst].
  apply wp_bind. eapply get_root_zst; [exact Hz|]. cbn [rnode rheight rdepth rplug]. rewrite Nat.add_0_r, indirect_root by done.
  apply wp_bind, (wp_maxindex _ i); [done|done|]. intros v ->. apply wp_bind, wp_BUG_ON; [by rewrite (proj2 (Z.ltb_lt i _))|].
  apply wp_bind. apply (tag_set_loop_ok _ _ _ _ _ _ _ _ _ Hst Hτ Hp). clear s F Hz Hav Hst.
  intros s c p F Hz Hav <- Hon [Hg Ho] Hct Hb Hj. pose proof Hz as (_ & _ & Hs' & Hc & _). change (rdepth c) with (0 + rdepth c)%nat in *.
  rewrite (proj1 (even_nonnull _ Hs')). cbn [negb]. apply wp_bind. eapply wp_root_mark; [exact Hz|].
  clear s Hz. intros s g' Hg1 Hg2 Hz. apply wp_ret. split; [by rewrite <- Hg, tget_plug, Hon by done|].
  exists (rplug c (RItem p)), g'. split.
  - split; [done|]. split; [|exists F; split; [by apply zst_plug in Hz as [? _]|done]]. intros τ' Hτ'.
    destruct (decide (τ' = τ)) as [->|Hne]; [rewrite Hg1; by apply tag_plug|rewrite Hg2 by done; by apply Ho].
  - apply tview_mark; [done|done| |].
    + intros j Bj. rewrite Hg1, tagged_plug by done. destruct (on_path 0 c j) eqn:E.
      * rewrite decide_True by (symmetry; by apply (on_path_one c)). exact Hb.
      * rewrite decide_False by (intros ->; congruence). auto.
    + intros τ' j Hτ' Hne. rewrite Hg2 by done. by apply Ho.
Qed.
End TagSet.

(** ** Going down with the path and clearing tags on the way up *)

Fixpoint cpath (c : rctx) : list (Z * Z) :=
  match c with RTop => [] | RFr a _ _ o c => (a, Z.of_nat o) :: cpath c end.

Section TagClear.
Implicit Types (F : list (Z * radix_tree_node)) (P D : list Z).

Lemma path_down_ok s H t g P D i (Q : list (Z * Z) * Z -> radix_state -> Prop) :
  tree_state s H t g P D ->
  (forall path, tget H t i = NULL -> Q (path, NULL) s) ->
  (forall c p, rplug c (RItem p) = t -> rdepth c = H -> even_ptr p -> place s 0 c (RItem p) g P D i -> Q (cpath c, p) s) ->
  wp (path_down i (Z.of_nat H) (level_shift H) (ptr t)) Q s.
Proof.
  intros Hst Q0 Q1. apply (wp_loop_depth (fun h '(height, shift, slot, path) s' => s' = s /\ exists c t', height = Z.of_nat h /\
    shift = level_shift h /\ slot = ptr t' /\ path = cpath c /\ (h + rdepth c)%nat = H /\ rplug c t' = t /\ place s h c t' g P D i))
    with (n := H); [| |destruct Hst; unfold path_fuel; lia].
  2:{ split; [done|]. exists RTop, t. do 4 (split; [done|]). split; [cbn [rdepth]; lia|]. split; [done|]. by apply place_top. }
  clear Hst. intros h [[[height shift] slot] path] s' (-> & c & t' & -> & -> & -> & -> & Hd & <- & Hpl).
  pose proof Hpl as (Hh & Hon & Htg & F & Hz & Hav). pose proof Hz as (_ & _ & Hs & Hc & _).
  assert (t' = RNull -> tget H (rplug c t') i = NULL) as H0.
  { intros ->. rewrite <- Hd, tget_plug by done. by rewrite Hon, tget_null. }
  destruct h as [|h].
  - apply wp_ret. destruct t' as [|p|]; [by apply Q0, H0|by eapply Q1|done].
  - rewrite (proj2 (Z.ltb_lt 0 _)) by lia. destruct t' as [| |a tg kids]; [apply wp_ret; by apply Q0, H0|by destruct Hs|].
    pose proof (zst_node _ _ _ _ _ _ _ _ _ _ Hz) as (_ & Ha & Hk & _). cbn [ptr]. rewrite (proj1 (even_nonnull _ Ha)). cbv zeta.
    rewrite level_digit, level_shift_next by lia. apply wp_bind. eapply wp_get_slot; [exact Hz|apply digit_lt|]. apply wp_ret.
    exists h. split; [lia|]. split; [done|]. exists (RFr a tg kids (digit h i) c), (default RNull (kids !! digit h i)).
    split; [lia|]. do 2 (split; [done|]). split; [done|]. cbn [rdepth rplug]. split; [lia|].
    rewrite insert_default by (pose proof (digit_lt h i); lia). split; [done|]. by apply place_down.
Qed.

Lemma clearbit_fits m o : 0 <= o -> fits 64 m -> fits 64 (Z.clearbit m o).
Proof.
  intros Ho Hf. rewrite Z.clearbit_spec'. apply fits_of_bits; [lia| |].
  - apply Z.ldiff_nonneg. left. apply Hf.
  - intros i Hi. rewrite Z.ldiff_spec, (fits_testbit_high 64 m i) by (done || lia). done.
Qed.

Lemma wp_unmark s h c a tg kids g F P D τ o Q :
  zst s (S h) c (RSub a tg kids) g F P D -> (τ < 2)%nat ->
  (forall s' tg', retag τ (Z.clearbit (tmask τ tg) o) tg tg' -> zst s' (S h) c (RSub a tg' kids) g F P D -> Q tt s') ->
  wp (tag_clear a (Z.of_nat τ) o) Q s.
Proof.
  intros Hz Hτ HQ. eapply wp_retag; [exact Hz|exact Hτ| |exact HQ]. intros n <-. unfold mask. by rewrite Nat2Z.id.
Qed.

(** The node after its bit is cleared. *)
Lemma clear_node τ h c a tg tg' kids o t B :
  (o < length kids)%nat -> ctag_ok τ h (RFr a tg kids o c) B -> tag_ok τ h false t -> retag τ (Z.clearbit (tmask τ tg) (Z.of_nat o)) tg tg' ->
  tag_ok τ (S h) (negb (tmask τ tg' =? 0)) (RSub a tg' (<[o := t]> kids)) /\
  forall b b' j, tagged τ (S h) b (RSub a tg' (<[o := t]> kids)) j =
    if bool_decide (o = digit h j) then tagged τ h false t j else tagged τ (S h) b' (RSub a tg (<[o := t]> kids)) j.
Proof.
  intros Ho (Hf & _ & Hk & _) Ht (_ & Hm & _). split.
  - split; [rewrite Hm; apply clearbit_fits; [lia|done]|]. split; [done|]. rewrite Hm. intros o' k Hl.
    apply list_lookup_insert_Some in Hl as [(-> & -> & _)|[Hne Hl]].
    + by rewrite Z.clearbit_eq.
    + rewrite Z.clearbit_neq by lia. apply Hk; [done|exact Hl].
  - intros b b' j. cbn [tagged]. rewrite Hm. case_bool_decide as E.
    + subst o. rewrite list_lookup_insert_eq by done. by rewrite Z.clearbit_eq.
    + by rewrite Z.clearbit_neq by lia.
Qed.

Lemma clear_up_ok τ c g t0 : forall s h t F P D,
  (τ < 2)%nat -> zst s h c t g F P D -> ctag_ok τ h c (gtag g τ) -> tag_ok τ h false t -> rest τ (h + rdepth c) g t0 (rplug c t) ->
  wp (clear_up (Z.of_nat τ) (cpath c)) (fun up s' => exists c', let B := if (up : bool) then false else gtag g τ in
    cpath c' = cpath c /\ rdepth c' = rdepth c /\ (forall j, on_path h c' j = on_path h c j) /\
    zst s' h c' t g F P D /\ tag_ok τ (h + rdepth c) B (rplug c' t) /\ rest τ (h + rdepth c) g t0 (rplug c' t) /\
    forall j, tagged τ (h + rdepth c) B (rplug c' t) j =
      if on_path h c j then tagged τ h false t j else tagged τ (h + rdepth c) (gtag g τ) (rplug c t) j) s.
Proof.
  induction c as [|a tg kids o c IH]; intros s h t F P D Hτ Hz Hct Ht Hr.
  { apply wp_ret. exists RTop. cbn [rdepth rplug on_path] in *. rewrite Nat.add_0_r in *. done. }
  pose proof Hz as (_ & _ & Hs & Hc & _). pose proof Hc as (_ & Hl & _ & _ & Ho & Hc'). pose proof (zst_up _ _ _ _ _ _ _ _ _ _ _ _ Hz) as Hu.
  cbn [cpath clear_up]. apply wp_bind. eapply wp_tag_get; [exact Hu|]. destruct (Z.testbit (tmask τ tg) (Z.of_nat o)) eqn:Eb; cbn [negb].
  2:{ apply wp_ret. exists (RFr a tg kids o c). cbv zeta. do 4 (split; [done|]).
      assert (cbit τ (RFr a tg kids o c) (gtag g τ) = false) as Hb by exact Eb. split; [apply tag_plug; [done|by rewrite Hb]|].
      split; [done|]. intros j. destruct (on_path h (RFr a tg kids o c) j) eqn:E; [|done]. by rewrite tagged_plug, E, Hb by done. }
  apply wp_bind. eapply wp_unmark; [exact Hu|exact Hτ|]. clear s Hz Hu. intros s tg' Hre Hz.
  pose proof (zst_node _ _ _ _ _ _ _ _ _ _ Hz) as (Hn & _ & _ & Hg'). assert (o < length kids)%nat as Ho' by lia.
  destruct (clear_node _ _ _ _ _ _ _ _ _ _ Ho' Hct Ht Hre) as [Hok Htag].
  cbn [rdepth rplug] in *. rewrite Nat.add_succ_r in *. change (S (h + rdepth c)) with (S h + rdepth c)%nat in *.
  assert (rest τ (S h + rdepth c) g t0 (rplug c (RSub a tg' (<[o := t]> kids)))) as Hr' by (by eapply rest_retag).
  assert (forall s c', zst s (S h) c' (RSub a tg' (<[o := t]> kids)) g F P D -> zst s h (RFr a tg' kids o c') t g F P D) as Hdown.
  { intros s' c' Hz'. pose proof Hz' as (_ & _ & _ & Hc'' & _). apply zst_plug in Hz' as [Hz' _]. apply zst_plug. cbn [rdepth rplug].
    rewrite Nat.add_succ_r. split; [done|]. split; [done|]. destruct Hc as (? & ? & ? & ? & ? & _). done. }
  apply wp_bind, wp_bind. eapply wp_get_node; [exact Hn|]. apply wp_ret. unfold mask. rewrite Nat2Z.id. cbn [tags node_of].
  change (default 0 (tg' !! τ)) with (tmask τ tg'). pose proof Hct as (_ & Hb & _ & Hct'). destruct (negb (tmask τ tg' =? 0)) eqn:Em.
  - apply wp_ret. exists (RFr a tg' kids o c). cbv zeta. do 3 (split; [done|]). split; [by apply Hdown|]. cbn [rplug].
    split; [apply tag_plug; [done|]|split; [done|]].
    + replace (cbit τ c (gtag g τ)) with true; [done|]. rewrite Hb. symmetry. apply negb_true_iff, Z.eqb_neq.
      intros E. by rewrite E, Z.bits_0 in Eb.
    + intros j. rewrite (tagged_plug τ (S h) c (RSub a tg' _)), (tagged_plug τ (S h) c (RSub a tg _)) by done.
      cbn [on_path]. destruct (on_path (S h) c j); [|by rewrite andb_false_r]. rewrite andb_true_r. apply Htag.
  - eapply wp_mono; [apply (IH s (S h) (RSub a tg' (<[o := t]> kids)) F P D Hτ Hz Hct' Hok Hr')|].
    intros up s' (c' & Ep & Ed & Eo & Hz' & Hok' & Hr'' & Hj). exists (RFr a tg' kids o c'). cbv zeta in *. cbn [cpath rdepth rplug on_path].
    split; [by rewrite Ep|]. split; [by rewrite Ed|]. split; [intros j; by rewrite Eo|]. split; [by apply Hdown|]. do 2 (split; [done|]).
    intros j. rewrite Hj. rewrite (tagged_plug τ (S h) c (RSub a tg' _)), (tagged_plug τ (S h) c (RSub a tg _)) by done.
    destruct (on_path (S h) c j); [|by rewrite andb_false_r]. rewrite andb_true_r. apply Htag.
Qed.

(** The value that the routines return for an entry. *)
Definition item_of (e : option (Z * bool * bool)) : Z := default NULL (fst ∘ fst <$> e).

Lemma item_of_view H g t i : 0 <= i < 64 ^ Z.of_nat H -> item_of (tview H g t i) = tget H t i.
Proof.
  intros Hi. unfold tview, item_of. rewrite (proj2 (Z.leb_le 0 i)), (proj2 (Z.ltb_lt i _)) by lia. cbn [andb].
  by destruct (Z.eqb_spec (tget H t i) NULL).
Qed.

Lemma tview_out H g t i : ~ i < 64 ^ Z.of_nat H -> tview H g t i = None.
Proof. intros Hi. unfold tview. rewrite (proj2 (Z.ltb_ge i _)) by lia. by rewrite andb_false_r. Qed.

Lemma tview_none H g t i : tget H t i = NULL -> tview H g t i = None.
Proof. intros E. unfold tview. by rewrite E, andb_false_r. Qed.

(** A tag is cleared where there is no entry: nothing changes. *)
Lemma mark_none τ b i H g t : tview H g t i = None -> forall j, tview H g t j = if decide (j = i) then mark τ b <$> tview H g t j else tview H g t j.
Proof. intros E j. case_decide; [|done]. subst j. by rewrite E. Qed.

(** The tags of a tree with a place are those above and those below. *)
Lemma ctag_of_plug τ h c t B :
  cshape h c -> tag_ok τ (h + rdepth c) B (rplug c t) -> ctag_ok τ h c B /\ tag_ok τ h (cbit τ c B) t.
Proof.
  revert h t. induction c as [|a tg kids o c IH]; intros h t Hc Ht; [cbn [rdepth rplug] in Ht; by rewrite Nat.add_0_r in Ht|].
  cbn [rdepth rplug] in Ht. rewrite Nat.add_succ_r in Ht. destruct Hc as (_ & Hl & _ & _ & Ho & Hc).
  destruct (IH (S h) _ Hc Ht) as (Hct & Hf & Hb & Hk). split.
  - do 2 (split; [done|]). split; [|done]. intros o' k Hne Hlk. apply Hk. by rewrite list_lookup_insert_ne.
  - apply Hk. apply list_lookup_insert_eq. lia.
Qed.

(** An index has one path in a tree. *)
Lemma path_unique h c c' t t' i :
  cshape h c -> cshape h c' -> rdepth c = rdepth c' -> on_path h c i = true -> on_path h c' i = true ->
  rplug c t = rplug c' t' -> t = t' /\ cpath c = cpath c'.
Proof.
  revert h c' t t'. induction c as [|a tg kids o c IH]; intros h [|a' tg' kids' o' c'] t t' Hc Hc' Hd Hi Hi' E; try done.
  destruct Hc as (_ & Hl & _ & _ & Ho & Hc), Hc' as (_ & Hl' & _ & _ & Ho' & Hc'). cbn [on_path] in Hi, Hi'.
  apply andb_prop in Hi as [Eo%bool_decide_eq_true Hi], Hi' as [Eo'%bool_decide_eq_true Hi']. injection Hd as Hd.
  destruct (IH (S h) c' _ _ Hc Hc' Hd Hi Hi' E) as [[= -> -> Ek] Ep]. subst o o'. split; [|cbn [cpath]; by rewrite Ep].
  apply (f_equal (fun l => l !! digit h i)) in Ek. rewrite !list_lookup_insert_eq in Ek by lia. by injection Ek.
Qed.

(** The same place when only the tags have changed. *)
Definition replaced s (c : rctx) (p g : Z) P D i s' (t' : rtree) (g' : Z) : Prop :=
  place s 0 c (RItem p) g P D i -> exists c', t' = rplug c' (RItem p) /\ rdepth c' = rdepth c /\ cpath c' = cpath c /\
    place s' 0 c' (RItem p) g' P D i.

Lemma tag_clear_at s c p g P D i τ :
  place s 0 c (RItem p) g P D i -> 0 <= i < 64 ^ Z.of_nat (0 + rdepth c) -> (τ < 2)%nat ->
  wp (up ← clear_up (Z.of_nat τ) (cpath c);
      (if (up : bool) then t ← root_tag_get (Z.of_nat τ); if (t : bool) then root_tag_clear (Z.of_nat τ) else mret tt else mret tt) ;;
      mret p)
    (fun r s' => r = p /\ exists c' g', rdepth c' = rdepth c /\ cpath c' = cpath c /\ place s' 0 c' (RItem p) g' P D i /\
      forall j, tview (0 + rdepth c) g' (rplug c' (RItem p)) j =
        if decide (j = i) then mark τ false <$> tview (0 + rdepth c) g (rplug c (RItem p)) j else tview (0 + rdepth c) g (rplug c (RItem p)) j) s.
Proof.
  intros Hpl Hi Hτ. pose proof (place_tree _ _ _ _ _ _ _ _ Hpl) as (_ & Htg & _). destruct Hpl as (Hh & Hon & Htg' & F & Hz & Hav).
  destruct (Htg' τ Hτ) as [Hct _]. set (t := rplug c (RItem p)) in *.
  apply wp_bind. eapply wp_mono; [apply (clear_up_ok τ c g t s 0 (RItem p) F P D Hτ Hz Hct I)|].
  { split; [done|]. intros τ' Hτ' _. split; [by apply Htg|done]. }
  clear s Hz. intros up s (c' & Ep & Ed & Eo & Hz & Hok & [Hr Ho] & Hj). cbv zeta in Hok, Hj.
  apply wp_bind. eapply wp_mono with (Q := fun _ s' => exists g', gtag g' τ = (if up then false else gtag g τ) /\
    (forall τ', τ' <> τ -> gtag g' τ' = gtag g τ') /\ zst s' 0 c' (RItem p) g' F P D).
  { destruct up; [eapply wp_root_unmark; [exact Hz|eauto]|]. apply wp_ret. by exists g. }
  clear s Hz. intros [] s (g' & Hg1 & Hg2 & Hz). apply wp_ret. split; [done|]. exists c', g'. do 2 (split; [done|]). split.
  - split; [by rewrite Ed|]. split; [by rewrite Eo|]. split; [|by exists F]. intros τ' Hτ'. pose proof Hz as (_ & _ & _ & Hc' & _).
    apply ctag_of_plug; [done|]. rewrite Ed. destruct (decide (τ' = τ)) as [->|Hne]; [by rewrite Hg1|]. rewrite Hg2 by done. by apply Ho.
  - apply tview_mark; [done|done| |].
    + intros j Bj. rewrite Hg1, Hj. cbn [tagged]. destruct (on_path 0 c j) eqn:E.
      * by rewrite decide_True by (symmetry; apply (on_path_one c); done || lia).
      * rewrite decide_False by (intros ->; congruence). done.
    + intros τ' j Hτ' Hne. rewrite Hg2 by done. by apply Ho.
Qed.

Lemma radix_tree_tag_clear_ok s H t g P D i τ :
  tree_state s H t g P D -> 0 <= i < 2 ^ 32 -> (τ < 2)%nat ->
  wp (radix_tree_tag_clear i (Z.of_nat τ)) (fun r s' => r = item_of (tview H g t i) /\ exists t' g', tree_state s' H t' g' P D /\
    (forall j, tview H g' t' j = if decide (j = i) then mark τ false <$> tview H g t j else tview H g t j) /\
    forall c p, t = rplug c (RItem p) -> rdepth c = H -> replaced s c p g P D i s' t' g') s.
Proof.
  intros Hst Hi Hτ. pose proof Hst as (HH & Htg & F & Hz & Hav). pose proof Hz as (_ & _ & Hs & _).
  assert (tview H g t i = None -> NULL = item_of (tview H g t i) /\ exists t' g', tree_state s H t' g' P D /\
    (forall j, tview H g' t' j = if decide (j = i) then mark τ false <$> tview H g t j else tview H g t j) /\
    forall c p, t = rplug c (RItem p) -> rdepth c = H -> replaced s c p g P D i s t' g') as Hnone.
  { intros E. rewrite E. split; [done|]. exists t, g. split; [done|]. split; [by apply mark_none|]. intros c p -> Hd Hpl. by exists c. }
  apply wp_bind. eapply get_root_zst; [exact Hz|]. cbn [rnode rheight rdepth rplug]. rewrite Nat.add_0_r, indirect_root by done.
  apply wp_bind, (wp_maxindex _ i); [done|done|]. intros v ->. destruct (Z.ltb_spec i (64 ^ Z.of_nat H)) as [Hlt|Hge]; cbn [negb].
  2:{ apply wp_ret, Hnone, tview_out. lia. }
  apply wp_bind. eapply path_down_ok; [exact Hst|intros path E; apply wp_ret, Hnone, tview_none; done|].
  clear F Hz Hav Hs Hnone. intros c p <- <- He Hpl. rewrite (proj1 (even_nonnull _ He)).
  eapply wp_mono; [apply (tag_clear_at _ _ _ _ _ _ _ _ Hpl ltac:(cbn [Nat.add]; lia) Hτ)|].
  intros r s' (-> & c' & g' & Hd & Ep & Hpl' & Hv). cbn [Nat.add] in Hv. pose proof Hpl as (_ & Hon & _ & F & (_ & _ & _ & Hc & _) & _).
  split; [rewrite item_of_view by lia; pose proof (tget_plug 0 c (RItem p) i Hc) as E; by rewrite Hon in E|]. exists (rplug c' (RItem p)), g'.
  split; [rewrite <- Hd; by eapply (place_tree _ 0)|]. split; [done|]. intros c2 p2 E Hd2 Hpl2. pose proof Hpl2 as (_ & Hon2 & _ & F2 & (_ & _ & _ & Hc2 & _) & _).
  destruct (path_unique _ _ _ _ _ _ Hc Hc2 (eq_sym Hd2) Hon Hon2 E) as [[= <-] Ep2]. exists c'. split; [done|]. split; [congruence|]. split; [congruence|done].
Qed.
End TagClear.

(** ** Deletion *)

Section Delete.
Implicit Types (F : list (Z * radix_tree_node)) (P D : list Z).

(** The root with one child is dropped. *)
Lemma wp_short s H k g a tg F P D Q :
  zst s (S H) RTop (RSub a tg (sole k)) g F P D ->
  (forall s', zst s' H RTop k g ((a, node_of (S H) tg (map ptr (sole k))) :: F) P D -> Q s') ->
  wp (set_rnode (root_ptr H (ptr k)) ;; set_rheight (Z.of_nat (S H) - 1)) (fun _ s' => Q s') s.
Proof.
  intros (Hr & Hc & (Ha & _ & Hg & Hs) & _ & HP & HD) HQ. unfold wp, set_rnode, set_rheight, mbind, M_bind, get_root, set_root.
  cbn [root node_at preloads pool pending rheight gfp_mask rnode]. rewrite Hr. cbn [gfp_mask]. apply HQ. apply Forall_cons in Hs as [Hk _].
  split; [|split; [|done]].
  - cbn [root rdepth rplug]. rewrite Nat.add_0_r. f_equal. lia.
  - cbn [centries entries ptr node_at] in *. unfold sole at 2 in Hc. cbn [map concat] in Hc. rewrite concat_nulls, app_nil_r, app_nil_l in Hc.
    refine (cells_from _ _ _ Hc _). perm.
Qed.

Lemma two_masks (tg : list Z) : length tg = 2%nat -> tg = [tmask 0 tg; tmask 1 tg].
Proof. destruct tg as [|x [|y [|]]]; done. Qed.

Lemma spent_sole H a tg k g :
  length tg = 2%nat -> tags_ok (S H) g (RSub a tg (sole k)) -> spent (node_of (S H) tg (map ptr (sole k))).
Proof.
  intros Hl Htg. exists (ptr k), (gtag g 0), (gtag g 1). cbn [slots tags node_of sole map]. split; [by rewrite map_ptr_nulls|].
  rewrite (two_masks tg Hl). destruct (proj1 (tag_sole _ _ _ _ _ _) (Htg 0%nat ltac:(lia))) as [-> _].
  by destruct (proj1 (tag_sole _ _ _ _ _ _) (Htg 1%nat ltac:(lia))) as [-> _].
Qed.

Definition same_view (s : radix_state) P (v : Z -> option (Z * bool * bool)) : Prop :=
  exists H t g' D, tree_state s H t g' P D /\ forall j, tview H g' t j = v j.

Lemma radix_tree_shrink_ok s H t g P D :
  tree_state s H t g P D -> t <> RNull -> wp radix_tree_shrink (fun _ s' => same_view s' P (tview H g t)) s.
Proof.
  intros Hst Hn. apply (wp_loop_depth (fun h (_ : unit) s' => exists t' D', tree_state s' h t' g P D' /\ t' <> RNull /\
    forall j, tview h g t' j = tview H g t j)) with (n := H); [|by exists t, D|destruct Hst; unfold path_fuel; lia].
  generalize (tview H g t). clear s H t D Hst Hn. intros v H [] s (t & D & Hst & Hn & Hv).
  pose proof Hst as (HH & Htg & F & Hz & Hav). pose proof Hz as (_ & _ & Hs & _). assert (same_view s P v) as Hsame by (by exists H, t, g, D).
  apply wp_bind. eapply get_root_zst; [exact Hz|]. cbn [rnode rheight rdepth rplug]. rewrite Nat.add_0_r. destruct H as [|h]; [by apply wp_ret|].
  rewrite (proj2 (Z.ltb_lt 0 _)) by lia. destruct t as [| |a tg kids]; [done|by destruct Hs|].
  pose proof (zst_node _ _ _ _ _ _ _ _ _ _ Hz) as (Hnode & Ha & Hk & Hl). cbn [ptr root_ptr]. rewrite (proj1 (even_nonnull _ Ha)).
  apply wp_bind, wp_BUG_ON; [by rewrite (proj2 (indirect_flag _ Ha))|]. cbv zeta. rewrite (proj2 (even_land _ Ha)).
  apply wp_bind. eapply wp_get_node; [exact Hnode|]. cbn [count node_of]. destruct (Z.eqb_spec (in_use (map ptr kids)) 1) as [Hu|]; cbn [negb]; [|by apply wp_ret].
  apply wp_bind. change 0 with (Z.of_nat 0) at 1. eapply wp_get_slot; [exact Hz|lia|]. destruct (Z.eqb_spec (ptr (default RNull (kids !! 0%nat))) NULL) as [|Hp]; [by apply wp_ret|].
  destruct Hs as (_ & _ & _ & Hs). pose proof (sole_of h kids Hs Hk Hu Hp) as Ek. set (k := default RNull (kids !! 0%nat)) in *. clearbody k. subst kids.
  apply wp_assoc, wp_bind. replace (if 1 <? Z.of_nat (S h) then _ else _) with (root_ptr h (ptr k)).
  2:{ destruct h; [done|]. rewrite (proj2 (Z.ltb_lt 1 _)) by lia. cbn [root_ptr]. by destruct (Z.eqb_spec (ptr k) NULL). }
  eapply wp_short; [exact Hz|]. clear s Hz Hsame Hnode Hst. intros s Hz. apply wp_bind. eapply wp_free; [exact Hz|exact Hav|exact Ha|by eapply spent_sole|].
  clear s Hz Hav F. intros s F Hz Hav. apply wp_ret. exists h. split; [lia|]. exists k, (D ++ [a]).
  assert (forall τ, (τ < 2)%nat -> tmask τ tg = Z.b2z (gtag g τ) /\ tag_ok τ h (gtag g τ) k) as Hm by (intros τ Hτ; by apply (tag_sole τ h (gtag g τ) a), Htg).
  split; [split; [lia|]; split; [intros τ Hτ; by apply Hm|by exists F]|]. split; [intros ->; done|].
  intros j. rewrite <- Hv. symmetry. apply tview_sole. intros τ Hτ. by apply Hm.
Qed.

(** What is left to free when the slot is emptied: nothing below an item, the node
    alone below a node that has no slots in use. *)
Definition spare (h : nat) (t : rtree) (tf : Z) : Prop :=
  tf = NULL /\ entries h t = [] \/ even_ptr tf /\ exists n, entries h t = [(tf, n)] /\ spent n.

Lemma wp_free_spare s h c g t' h' F P D tf Q :
  zst s h c RNull g (entries h' t' ++ F) P D -> avail F P D -> spare h' t' tf ->
  (forall s' F' D', zst s' h c RNull g F' P D' -> avail F' P D' -> Q tt s') ->
  wp (if negb (tf =? NULL) then radix_tree_node_free tf else mret tt) Q s.
Proof.
  intros Hz Hav [[-> E]|(Ha & n & E & Hn)] HQ; rewrite E in Hz.
  - cbn [Z.eqb NULL negb]. apply wp_ret. by eapply HQ.
  - rewrite (proj1 (even_nonnull _ Ha)). cbn [negb]. eapply wp_free; [exact Hz|exact Hav|exact Ha|exact Hn|]. eauto.
Qed.

Lemma gtag_clear_all g τ : (τ < 2)%nat -> gtag (Z.land g __GFP_BITS_MASK) τ = false.
Proof.
  intros Hτ. unfold gtag. change __GFP_BITS_MASK with (Z.ones 21). unfold __GFP_BITS_SHIFT. rewrite Z.land_spec, Ztestbit_ones by lia.
  rewrite (proj2 (Z.ltb_ge (Z.of_nat τ + 21) 21)) by lia. by rewrite !andb_false_r.
Qed.

(** The root is reset. *)
Lemma wp_reset {A} (k : RM A) s h t g F P D Q :
  zst s h RTop t g F P D ->
  (forall s', zst s' 0 RTop RNull (Z.land g __GFP_BITS_MASK) (entries h t ++ F) P D -> wp k Q s') ->
  wp (root_tag_clear_all ;; set_rheight 0 ;; set_rnode NULL ;; k) Q s.
Proof.
  intros (Hr & Hc & _ & _ & HP & HD) HQ. do 3 apply wp_bind. unfold root_tag_clear_all, set_rheight, set_rnode, set_gfp_mask.
  unfold wp at 1 2 3, mbind, M_bind, get_root, set_root. cbn [root node_at preloads pool pending rheight gfp_mask rnode]. rewrite Hr. cbn [gfp_mask].
  apply HQ. do 4 (split; [done|]). split; [|done]. rewrite (supply_same g) by (apply (same_gfp_tags g 0)). done.
Qed.

(** A node without a slot in use. *)
Lemma nulls_of h kids : Forall (shape h) kids -> in_use (map ptr kids) = 0 -> kids = replicate (length kids) RNull.
Proof.
  intros Hs H0%in_use_zero. rewrite length_map in H0. induction Hs as [|k kids Hk Hs IH]; [done|]. cbn [map length replicate] in *.
  injection H0 as Hp H0. f_equal; [|by apply IH]. destruct (decide (k = RNull)) as [|Hn]; [done|]. by destruct (nonnull_ptr _ _ Hk Hn).
Qed.

Lemma mask_zero τ h b a tg : tag_ok τ (S h) b (RSub a tg (replicate 64 RNull)) -> tmask τ tg = 0 /\ b = false.
Proof.
  intros (Hf & -> & Hk). assert (tmask τ tg = 0) as ->; [|done]. destruct (decide (tmask τ tg = 0)) as [|Hne]; [done|].
  destruct (some_bit _ Hf Hne) as (o & Ho & Hb). specialize (Hk o RNull (lookup_replicate_2 _ _ _ Ho)). apply tag_ok_null in Hk. congruence.
Qed.

Lemma spare_empty h c a tg (g : Z) :
  length tg = 2%nat -> even_ptr a -> (forall τ, (τ < 2)%nat -> tag_ok τ (S h) (cbit τ c (gtag g τ)) (RSub a tg (replicate 64 RNull))) ->
  spare (S h) (RSub a tg (replicate 64 RNull)) a.
Proof.
  intros Hl Ha Htg. right. split; [done|]. cbn [entries]. rewrite concat_nulls, app_nil_r, map_ptr_nulls. eexists. split; [done|].
  exists NULL, false, false. split; [done|]. cbn [tags node_of]. rewrite (two_masks tg Hl).
  destruct (mask_zero _ _ _ _ _ (Htg 0%nat ltac:(lia))) as [-> _]. by destruct (mask_zero _ _ _ _ _ (Htg 1%nat ltac:(lia))) as [-> _].
Qed.

Lemma plug_nonnull c t : t <> RNull -> rplug c t <> RNull.
Proof. revert t. induction c as [|a tg kids o c IH]; intros t Hn; [done|]. by apply IH. Qed.

Lemma delete_up_ok c g : forall s h t tf F P D,
  zst s h c t g F P D -> avail F P D -> t <> RNull -> spare h t tf -> (h + rdepth c <= 6)%nat ->
  (forall τ, (τ < 2)%nat -> ctag_ok τ h c (gtag g τ) /\ cbit τ c (gtag g τ) = false) ->
  wp (delete_up (cpath c) tf) (fun _ s' => same_view s' P (tview (h + rdepth c) g (rplug c RNull))) s.
Proof.
  induction c as [|a tg kids o c IH]; intros s h t tf F P D Hz Hav Hn Hsp HH Htg.
  - cbn [cpath delete_up]. eapply wp_reset; [exact Hz|]. clear s Hz. intros s Hz. eapply wp_free_spare; [exact Hz|exact Hav|exact Hsp|].
    clear s F Hz Hav Hsp. intros s F D' Hz Hav. exists 0%nat, RNull, (Z.land g __GFP_BITS_MASK), D'. split.
    + split; [lia|]. split; [|by exists F]. intros τ Hτ. by apply tag_ok_null, gtag_clear_all.
    + intros j. by rewrite !tview_none by (apply tget_null).
  - pose proof Hz as (_ & _ & _ & (Ha & Hk & Hl & Hs & Ho & Hc) & _). cbn [cpath delete_up].
    apply wp_assoc, wp_bind. eapply wp_unlink; [exact Hz|exact Hn|]. clear s Hz. intros s Hz.
    apply wp_bind. eapply wp_free_spare; [exact Hz|exact Hav|exact Hsp|]. clear s F D Hz Hav Hsp Hn. intros s F D Hz Hav.
    pose proof (zst_up _ _ _ _ _ _ _ _ _ _ _ _ Hz) as Hu. pose proof (zst_node _ _ _ _ _ _ _ _ _ _ Hu) as (Hnode & _).
    assert (forall τ, (τ < 2)%nat -> tag_ok τ (S h) (cbit τ c (gtag g τ)) (RSub a tg (<[o := RNull]> kids)) /\ ctag_ok τ (S h) c (gtag g τ)) as Htg'.
    { intros τ Hτ. destruct (Htg τ Hτ) as [Hct Hb]. apply (ctag_up _ _ _ _ _ _ _ _ _ Hct). by apply tag_ok_null. }
    cbn [rdepth rplug] in *. rewrite Nat.add_succ_r in *. change (S (h + rdepth c)) with (S h + rdepth c)%nat in *.
    apply wp_bind. eapply wp_get_node; [exact Hnode|]. cbn [count node_of].
    destruct (Z.eqb_spec (in_use (map ptr (<[o := RNull]> kids))) 0) as [H0|]; cbn [negb].
    + apply (nulls_of h) in H0; [|apply Forall_insert; [done|apply shape_null]]. rewrite length_insert, Hk in H0. rewrite H0 in *.
      eapply wp_mono; [eapply (IH s (S h) _ a F P D Hu Hav); [done| |done|]|].
      * eapply (spare_empty h c _ _ g); [done|done|]. intros τ Hτ. by apply Htg'.
      * intros τ Hτ. destruct (Htg' τ Hτ) as [Ht Hct]. split; [done|]. by destruct (mask_zero _ _ _ _ _ Ht).
      * intros [] s' (H' & t' & g' & D' & Hst & Hv). exists H', t', g', D'. split; [done|]. intros j. rewrite Hv.
        apply tview_same; [done|]. intros i. rewrite lview_null. symmetry. apply nulls_lview.
    + assert (tree_state s (S h + rdepth c) (rplug c (RSub a tg (<[o := RNull]> kids))) g P D) as Hst.
      { split; [done|]. split; [|exists F; split; [by apply zst_plug in Hu as [? _]|done]]. intros τ Hτ. apply tag_plug; by apply Htg'. }
      apply wp_bind. eapply get_root_zst; [exact Hu|]. destruct (a =? _); [|apply wp_ret; eexists _, _, _, _; split; [exact Hst|done]].
      eapply radix_tree_shrink_ok; [exact Hst|]. by apply plug_nonnull.
Qed.
End Delete.

Section DeleteItem.
Implicit Types (F : list (Z * radix_tree_node)) (P D : list Z).

Lemma tview_place s c p g P D i :
  place s 0 c (RItem p) g P D i -> 0 <= i < 64 ^ Z.of_nat (rdepth c) -> even_ptr p ->
  tview (rdepth c) g (rplug c (RItem p)) i = Some (p, cbit 0 c (gtag g 0), cbit 1 c (gtag g 1)).
Proof.
  intros (_ & Hon & _ & F & (_ & _ & _ & Hc & _) & _) Hi He. pose proof (tview_slot c g (RItem p) i i Hc Hon Hi) as E.
  by rewrite decide_True, lview_item in E by done.
Qed.

Lemma clear_if_tagged_ok s c p g P D i τ :
  place s 0 c (RItem p) g P D i -> c <> RTop -> 0 <= i < 2 ^ 32 -> i < 64 ^ Z.of_nat (rdepth c) -> (τ < 2)%nat -> even_ptr p ->
  wp (clear_if_tagged i (Z.of_nat τ) (slot_of c).1 (slot_of c).2) (fun _ s' => exists c' g',
    rdepth c' = rdepth c /\ cpath c' = cpath c /\ place s' 0 c' (RItem p) g' P D i /\
    forall j, tview (rdepth c) g' (rplug c' (RItem p)) j =
      if decide (j = i) then mark τ false <$> tview (rdepth c) g (rplug c (RItem p)) j else tview (rdepth c) g (rplug c (RItem p)) j) s.
Proof.
  intros Hpl Hc Hi Hlt Hτ He. pose proof (place_tree _ _ _ _ _ _ _ _ Hpl) as Hst. cbn [Nat.add] in Hst.
  pose proof Hpl as (_ & _ & _ & F & Hz & _). pose proof (tview_place _ _ _ _ _ _ _ Hpl (conj (proj1 Hi) Hlt) He) as Ev.
  destruct c as [|a tg kids o c]; [done|]. cbn [slot_of fst snd]. apply wp_bind.
  eapply wp_tag_get; [exact (zst_up _ _ _ _ _ _ _ _ _ _ _ _ Hz)|]. set (c1 := RFr a tg kids o c) in *.
  change (Z.testbit (tmask τ tg) (Z.of_nat o)) with (cbit τ c1 (gtag g τ)). destruct (cbit τ c1 (gtag g τ)) eqn:Eb.
  - apply wp_bind. eapply wp_mono; [exact (radix_tree_tag_clear_ok _ _ _ _ _ _ _ _ Hst Hi Hτ)|].
    intros r s' (_ & t' & g' & _ & Hv & Hre). apply wp_ret. destruct (Hre c1 p eq_refl eq_refl Hpl) as (c' & -> & Hd & Ep & Hpl').
    exists c', g'. done.
  - apply wp_ret. exists c1, g. do 3 (split; [done|]). intros j. case_decide as Ej; [|done]. subst j. rewrite Ev. cbn [fmap option_fmap option_map].
    f_equal. destruct τ as [|[|]]; [| |lia]; cbn [mark]; congruence.
Qed.

(** The item is taken out of its slot. *)
Lemma delete_item s c p g P D i :
  place s 0 c (RItem p) g P D i -> 0 <= i < 64 ^ Z.of_nat (rdepth c) -> even_ptr p ->
  cbit 0 c (gtag g 0) = false -> cbit 1 c (gtag g 1) = false ->
  wp (delete_up (cpath c) NULL) (fun _ s' => same_view s' P (fun j => if decide (j = i) then None else tview (rdepth c) g (rplug c (RItem p)) j)) s.
Proof.
  intros (Hh & Hon & Htg & F & Hz & Hav) Hi He Hb0 Hb1. pose proof Hz as (_ & _ & _ & Hc & _).
  eapply wp_mono; [eapply (delete_up_ok c g s 0 (RItem p) NULL F P D Hz Hav); [done|by left|done|]|].
  - intros τ Hτ. split; [by apply Htg|]. destruct τ as [|[|]]; [done|done|lia].
  - intros [] s' (H' & t' & g' & D' & Hst & Hv). exists H', t', g', D'. split; [done|]. intros j. rewrite Hv. cbn [Nat.add].
    pose proof (tview_slot c g (RItem p) i j Hc Hon Hi) as E. cbn [Nat.add] in E. rewrite E.
    pose proof (tview_slot c g RNull i j Hc Hon Hi) as E'. cbn [Nat.add] in E'. rewrite E'. case_decide; [|done]. by rewrite lview_null.
Qed.

Definition deleted s H g t P i (r : Z) : Prop :=
  r = item_of (tview H g t i) /\ same_view s P (fun j => if decide (j = i) then None else tview H g t j).

Lemma delete_root s t g P D :
  tree_state s 0 t g P D -> wp (root_tag_clear_all ;; set_rnode NULL ;; mret (root_ptr 0 (ptr t))) (fun r s' => deleted s' 0 g t P 0 r) s.
Proof.
  intros (_ & _ & F & Hz & Hav). pose proof Hz as (_ & _ & Hs & _). apply wp_bind, wp_bind. eapply get_root_zst; [exact Hz|].
  eapply wp_set_gfp; [exact Hz|apply (same_gfp_tags g 0)|]. clear s Hz. intros s Hz. apply wp_bind.
  eapply (wp_set_rnode _ _ _ RNull); [exact Hz|done|by destruct t|done|].
  clear s Hz. intros s Hz. apply wp_ret. split; [rewrite item_of_view by done; by destruct t|].
  eexists 0%nat, RNull, _, D. split.
  - split; [lia|]. split; [|by exists F]. intros τ Hτ. by apply tag_ok_null, gtag_clear_all.
  - intros j. rewrite tview_none by done. case_decide; [done|]. unfold tview. change (64 ^ Z.of_nat 0) with 1.
    destruct (Z.leb_spec 0 j), (Z.ltb_spec j 1); done || lia.
Qed.

Lemma delete_path s c p g P D i :
  place s 0 c (RItem p) g P D i -> c <> RTop -> 0 <= i < 2 ^ 32 -> i < 64 ^ Z.of_nat (rdepth c) -> even_ptr p ->
  wp (clear_if_tagged i 0 (slot_of c).1 (slot_of c).2 ;; clear_if_tagged i 1 (slot_of c).1 (slot_of c).2 ;; delete_up (cpath c) NULL ;; mret p)
    (fun r s' => deleted s' (rdepth c) g (rplug c (RItem p)) P i r) s.
Proof.
  intros Hpl Hc Hi Hlt He. pose proof (conj (proj1 Hi) Hlt) as Hir. pose proof (tview_place _ _ _ _ _ _ _ Hpl Hir He) as Ev.
  assert (forall c c', cpath c' = cpath c -> c <> RTop -> c' <> RTop /\ slot_of c' = slot_of c) as Hsame.
  { intros [|????] [|????]; [done|done|done|]. intros E _. split; [done|]. cbn [slot_of]. cbn [cpath] in E. congruence. }
  apply wp_bind. change 0 with (Z.of_nat 0) at 1. eapply wp_mono; [exact (clear_if_tagged_ok _ _ _ _ _ _ _ 0 Hpl Hc Hi Hlt ltac:(lia) He)|].
  intros [] s1 (c1 & g1 & Hd1 & Ep1 & Hpl1 & Hv1). destruct (Hsame _ _ Ep1 Hc) as [Hc1 <-]. rewrite <- Hd1 in Hlt, Hir.
  apply wp_bind. change 1 with (Z.of_nat 1). eapply wp_mono; [exact (clear_if_tagged_ok _ _ _ _ _ _ _ 1 Hpl1 Hc1 Hi Hlt ltac:(lia) He)|].
  intros [] s2 (c2 & g2 & Hd2 & Ep2 & Hpl2 & Hv2). rewrite <- Hd2 in Hlt, Hir. rewrite <- Ep1, <- Ep2.
  pose proof (tview_place _ _ _ _ _ _ _ Hpl2 Hir He) as Ev2. rewrite Hd2, Hv2, decide_True, Hd1, Hv1, decide_True, Ev in Ev2 by done.
  cbn [fmap option_fmap option_map mark] in Ev2. injection Ev2 as Hb0 Hb1.
  apply wp_bind. eapply wp_mono; [exact (delete_item _ _ _ _ _ _ _ Hpl2 Hir He (eq_sym Hb0) (eq_sym Hb1))|].
  intros [] s3 (H' & t' & g' & D' & Hst & Hv). apply wp_ret. split; [by rewrite Ev|]. exists H', t', g', D'. split; [done|].
  intros j. rewrite Hv. case_decide; [done|]. rewrite Hd2, Hv2, decide_False, Hd1, Hv1, decide_False by done. done.
Qed.

Lemma radix_tree_delete_ok s H t g P D i :
  tree_state s H t g P D -> 0 <= i < 2 ^ 32 -> wp (radix_tree_delete i) (fun r s' => deleted s' H g t P i r) s.
Proof.
  intros Hst Hi. pose proof Hst as (HH & Htg & F & Hz & Hav). pose proof Hz as (_ & _ & Hs & _).
  assert (tview H g t i = None -> deleted s H g t P i NULL) as Hnone.
  { intros E. split; [by rewrite E|]. exists H, t, g, D. split; [done|]. intros j. case_decide; [by subst j|done]. }
  apply wp_bind. eapply get_root_zst; [exact Hz|]. cbn [rnode rheight rdepth rplug]. rewrite Nat.add_0_r.
  apply wp_bind, (wp_maxindex _ i); [done|done|]. intros v ->. destruct (Z.ltb_spec i (64 ^ Z.of_nat H)) as [Hlt|Hge]; cbn [negb].
  2:{ apply wp_ret, Hnone, tview_out. lia. }
  destruct (Z.eqb_spec (Z.of_nat H) 0) as [E0|E0].
  { assert (H = 0%nat) as -> by lia. change (64 ^ Z.of_nat 0) with 1 in Hlt. assert (i = 0) as -> by lia. by eapply delete_root. }
  rewrite indirect_root by done. apply wp_bind. eapply path_down_ok; [exact Hst|intros path E; apply wp_ret, Hnone, tview_none; done|].
  clear F Hz Hav Hs Hnone Hst Htg. intros c p <- <- He Hpl. rewrite (proj1 (even_nonnull _ He)).
  assert (c <> RTop) as Hc by (by intros ->). pose proof (delete_path _ _ _ _ _ _ _ Hpl Hc Hi Hlt He) as Hp.
  by destruct c as [|a tg kids o c].
Qed.
End DeleteItem.

(** ** The grace period *)

Lemma avail_perm F P P' D : P ≡ₚ P' -> avail F P D -> avail F P' D.
Proof.
  intros HP (FP & FD & HF & EP & ED & HcP & HcD). destruct (Permutation_map_inv fst FP (l1 := P')) as (FP' & E & Hp).
  { symmetry. etransitivity; [|exact HP]. by rewrite <- EP. }
  exists FP', FD. split; [by rewrite HF, Hp|]. split; [by symmetry|]. split; [done|]. split; [by rewrite <- Hp|done].
Qed.

Lemma avail_drop F a P D : avail F (a :: P) D -> exists n F', F ≡ₚ (a, n) :: F' /\ avail F' P D /\ even_ptr a.
Proof.
  intros (FP & FD & HF & EP & ED & HcP & HcD). destruct FP as [|[a' n] FP]; [done|]. cbn in EP. injection EP as -> EP.
  apply Forall_cons in HcP as [[Ha _] HcP]. exists n, (FP ++ FD). split; [by rewrite HF|]. split; [by exists FP, FD|done].
Qed.

Lemma zst_drop s h c t g x F P D : zst s h c t g (x :: F) P D -> zst s h c t g F P D.
Proof.
  intros (Hr & Hc & H). split; [done|]. split; [|done]. apply (cells_app_l _ _ [x]). refine (cells_from _ _ _ Hc _).
  rewrite (cons_single x F). perm.
Qed.

Lemma supply_pool g s a l :
  pool s = a :: l -> supply g s ≡ₚ a :: supply g (RState (root s) (node_at s) (preloads s) l (pending s)).
Proof. intros E. unfold supply. rewrite E. cbn [preloads pool]. symmetry. apply Permutation_middle. Qed.

Lemma rcu_free_ok s H t g P D :
  tree_state s H t g P D -> wp radix_tree_node_rcu_free (fun _ s' => exists P' D', tree_state s' H t g P' D') s.
Proof.
  intros (HH & Htg & F & Hz & FP & FD & HF & HP & HD & HcP & HcD). pose proof Hz as (Hr & Hc & Hs & Hcs & Ep & Ed).
  unfold wp, radix_tree_node_rcu_free. rewrite Ed. destruct FD as [|[a n] FD].
  { subst D. exists P, []. split; [done|]. split; [done|]. exists F. split; [done|]. by exists FP, []. }
  subst D. cbn [fmap list_fmap fst]. apply Forall_cons in HcD as [[Ha (x & b0 & b1 & Hsl & Htg1)] HcD]. cbn [fst snd] in Ha, Hsl, Htg1.
  set (s1 := RState (root s) (node_at s) (preloads s) (a :: pool s) FD.*1).
  assert (a :: P ≡ₚ supply g s1) as Hsup by (rewrite (supply_pool g s1 a (pool s)), <- Ep by done; reflexivity).
  assert (zst s1 H RTop t g ((a, n) :: FP ++ FD) (supply g s1) FD.*1) as Hz1.
  { split; [done|]. split; [|done]. refine (cells_from _ _ _ Hc _). rewrite HF. perm. }
  fold (wp (tag_clear a 0 0 ;; tag_clear a 1 0 ;; set_slot a 0 NULL ;; set_count a (fun _ => 0))
    (fun _ s' => exists P' D', tree_state s' H t g P' D') s1).
  apply wp_bind. eapply wp_upd_frame; [exact Hz1|]. intros s2 Hz2. apply wp_bind. eapply wp_upd_frame; [exact Hz2|]. intros s3 Hz3.
  apply wp_bind. eapply wp_upd_frame; [exact Hz3|]. intros s4 Hz4. eapply wp_upd_frame; [exact Hz4|]. intros s5 Hz5. cbn beta in Hz5.
  assert (zst s5 H RTop t g ((a, RNode (height n) 0 (replicate 64 NULL) [0; 0]) :: FP ++ FD) (supply g s1) FD.*1) as Hz6.
  { refine (eq_rect _ (fun n => zst _ _ _ _ _ ((a, n) :: _) _ _) Hz5 _ _). cbn [height count slots tags]. unfold mask. cbn [tags].
    rewrite Hsl, Htg1. by destruct b0, b1. }
  exists (supply g s1), FD.*1. split; [done|]. split; [done|]. eexists. split; [exact Hz6|]. eapply avail_perm; [exact Hsup|].
  exists ((a, RNode (height n) 0 (replicate 64 NULL) [0; 0]) :: FP), FD. split; [reflexivity|].
  split; [by cbn; rewrite HP|]. split; [done|]. split; [|done]. by constructor.
Qed.

(** ** Setting nodes aside *)

(** The nodes move from the allocator to the array: the tree is not concerned, and all
    six are there when the result is 0. *)
Lemma radix_tree_preload_ok s H t g P D :
  tree_state s H t g P D ->
  wp radix_tree_preload (fun r s' => (exists P', tree_state s' H t g P' D) /\
    (r = - ENOMEM \/ r = 0 /\ RADIX_TREE_MAX_PATH <= Z.of_nat (length (preloads s')))) s.
Proof.
  intros Hst. apply (wp_loop_depth (fun n (_ : unit) s' => (exists P', tree_state s' H t g P' D) /\
    n = (Z.to_nat RADIX_TREE_MAX_PATH - length (preloads s'))%nat)) with (n := (Z.to_nat RADIX_TREE_MAX_PATH - length (preloads s))%nat);
    [|split; [by exists P|done]|lia].
  clear s P Hst. intros n [] s [(P & HH & Htg & F & Hz & Hav) ->]. change (Z.to_nat RADIX_TREE_MAX_PATH) with 6%nat.
  change RADIX_TREE_MAX_PATH with 6. apply wp_bind. unfold wp at 1, get_preloads.
  assert (exists P', tree_state s H t g P' D) as Hst by (exists P; by split; [|split; [|exists F]]).
  destruct (Z.ltb_spec (Z.of_nat (length (preloads s))) 6); [|by apply wp_ret; split; [|right]].
  apply wp_bind. unfold wp at 1, kmem_cache_alloc. destruct (pool s) as [|a l] eqn:Epl; [by apply wp_ret; split; [|left]|].
  pose proof Hz as (Hr & Hc & Hs & Hcs & EP & ED). pose proof (supply_pool g s a l Epl) as Hsup. rewrite EP in Hsup.
  destruct (avail_drop _ _ _ _ (avail_perm _ _ _ _ Hsup Hav)) as (nd & F' & HF & Hav' & Ha). rewrite (proj1 (even_nonnull _ Ha)).
  apply wp_bind. unfold wp at 1, set_preloads. apply wp_ret. eexists. split; [|split; [|reflexivity]]; [cbn [preloads length]; lia|].
  set (s' := RState _ _ _ _ _). exists (supply g s'). split; [done|]. split; [done|].
  assert (zst s' H RTop t g F (supply g s') D) as Hz' by exact (conj Hr (conj Hc (conj Hs (conj Hcs (conj eq_refl ED))))).
  unfold supply in *. cbn [preloads pool] in *. destruct (Z.land (Z.land g __GFP_BITS_MASK) __GFP_WAIT =? 0).
  - exists F. split; [exact Hz'|]. eapply avail_perm; [|exact Hav]. by rewrite Hsup.
  - exists F'. split; [|exact Hav']. eapply zst_drop, zst_perm; [exact HF|exact Hz'].
Qed.

(** ** The scan for a hole *)

Lemma next_hole_ok s H t g P D i n :
  tree_state s H t g P D -> 0 <= i < 2 ^ 32 -> 0 <= n ->
  wp (radix_tree_next_hole i n) (fun r s' => s' = s /\ exists k, 0 <= k <= n /\ i + k <= 2 ^ 32 /\ r = u32 (i + k) /\
    (forall j, i <= j < i + k -> is_Some (tview H g t j)) /\ (k = n \/ i + k = 2 ^ 32 \/ tview H g t (i + k) = None)) s.
Proof.
  intros (HH & _ & F & Hz & _) Hi Hn.
  apply (wp_loop (fun '(k, idx) s' => s' = s /\ 0 <= k <= n /\ idx = i + k /\ i + k < 2 ^ 32 /\ forall j, i <= j < i + k -> is_Some (tview H g t j))
    (fun '(k, _) => Z.to_nat (n - k))); [split; [done|]; split; [lia|]; split; [lia|]; split; [lia|]; intros; lia|lia|].
  intros [k idx] s' (-> & Hk & -> & Hlt & Hall). destruct (Z.ltb_spec k n).
  2:{ apply wp_ret. split; [done|]. exists k. rewrite (wrap_id 32 (i + k)) by (split; lia). do 4 (split; [done || lia|]). left. lia. }
  apply wp_bind. eapply wp_mono; [exact (radix_tree_lookup_ok _ _ _ _ _ _ _ (i + k) Hz HH ltac:(lia))|].
  intros item s' [-> ->]. destruct (Z.eqb_spec (if i + k <? 64 ^ Z.of_nat H then tget H t (i + k) else NULL) NULL) as [E|E].
  - apply wp_ret. split; [done|]. exists k. rewrite (wrap_id 32 (i + k)) by (split; lia). do 4 (split; [done || lia|]). right; right.
    destruct (Z.ltb_spec (i + k) (64 ^ Z.of_nat H)); [by apply tview_none|apply tview_out; lia].
  - destruct (Z.ltb_spec (i + k) (64 ^ Z.of_nat H)) as [Hl|]; [|done]. cbv zeta.
    assert (forall j, i <= j < i + (k + 1) -> is_Some (tview H g t j)) as Hall'.
    { intros j Hj. destruct (decide (j = i + k)) as [->|]; [|apply Hall; lia]. unfold tview.
      rewrite (proj2 (Z.leb_le 0 _)), (proj2 (Z.ltb_lt _ _)), (proj2 (Z.eqb_neq _ _)) by (done || lia). by eexists. }
    destruct (Z.eqb_spec (u32 (i + k + 1)) 0) as [E0|E0]; apply wp_ret.
    + split; [done|]. exists (k + 1). rewrite Z.add_assoc, E0. assert (i + k + 1 = 2 ^ 32) as E1.
      { destruct (decide (i + k + 1 = 2 ^ 32)); [done|]. rewrite wrap_id in E0 by (split; lia). lia. }
      split; [lia|]. split; [lia|]. split; [done|]. split; [|right; left; done]. intros j Hj. apply Hall'. lia.
    + assert (i + k + 1 <> 2 ^ 32) by (intros E1; by rewrite E1 in E0). rewrite (wrap_id 32 (i + k + 1)) by (split; lia).
      split; [|lia]. split; [done|]. split; [lia|]. split; [lia|]. split; [lia|]. exact Hall'.
Qed.

(** ** The map that the tree implements *)

(** An index has an item and its two tags. *)
Abbreviation index_map := (gmap Z (Z * bool * bool)).

Definition has_tag (τ : nat) '((p, b0, b1) : Z * bool * bool) : bool := match τ with O => b0 | _ => b1 end.

Definition rep (s : radix_state) (m : index_map) : Prop :=
  (exists H t g P D, tree_state s H t g P D /\ forall i, m !! i = tview H g t i) /\ forall i, is_Some (m !! i) -> i < 2 ^ 32.

Inductive request :=
  | Insert (i p : Z) | Lookup (i : Z) | Delete (i : Z) | TagSet (i : Z) (τ : nat) | TagClear (i : Z) (τ : nat)
  | Tagged (τ : nat) | NextHole (i n : Z) | Preload | Reclaim.

(** The routine that serves a request; Reclaim is the end of a grace period for the
    node that waits longest. *)
Definition serve (q : request) : RM Z :=
  match q with
  | Insert i p => radix_tree_insert i p
  | Lookup i => radix_tree_lookup i
  | Delete i => radix_tree_delete i
  | TagSet i τ => radix_tree_tag_set i (Z.of_nat τ)
  | TagClear i τ => radix_tree_tag_clear i (Z.of_nat τ)
  | Tagged τ => b ← radix_tree_tagged (Z.of_nat τ); mret (Z.b2z b)
  | NextHole i n => radix_tree_next_hole i n
  | Preload => radix_tree_preload
  | Reclaim => radix_tree_node_rcu_free ;; mret 0
  end.

(** What the callers have to see to: indices are unsigned longs, items are aligned
    pointers, a tag is only set on an item that is present. *)
Definition allowed (m : index_map) (q : request) : Prop :=
  match q with
  | Insert i p => 0 <= i < 2 ^ 32 /\ even_ptr p
  | Lookup i | Delete i => 0 <= i < 2 ^ 32
  | TagSet i τ => 0 <= i < 2 ^ 32 /\ (τ < 2)%nat /\ is_Some (m !! i)
  | TagClear i τ => 0 <= i < 2 ^ 32 /\ (τ < 2)%nat
  | Tagged τ => (τ < 2)%nat
  | NextHole i n => 0 <= i < 2 ^ 32 /\ 0 <= n
  | Preload | Reclaim => True
  end.

(** The result and the map after a request; an insertion can fail with -ENOMEM, which
    leaves the map as it is. *)
Definition answers (m : index_map) (q : request) (r : Z) (m' : index_map) : Prop :=
  match q with
  | Insert i p =>
      match m !! i with
      | None => r = 0 /\ m' = <[i := (p, false, false)]> m \/ r = - ENOMEM /\ m' = m
      | Some _ => (r = - EEXIST \/ r = - ENOMEM) /\ m' = m
      end
  | Lookup i => r = item_of (m !! i) /\ m' = m
  | Delete i => r = item_of (m !! i) /\ m' = delete i m
  | TagSet i τ => r = item_of (m !! i) /\ m' = alter (mark τ true) i m
  | TagClear i τ => r = item_of (m !! i) /\ m' = alter (mark τ false) i m
  | Tagged τ => r = Z.b2z (bool_decide (map_Exists (fun _ e => has_tag τ e = true) m)) /\ m' = m
  | NextHole i n =>
      m' = m /\ exists k, 0 <= k <= n /\ i + k <= 2 ^ 32 /\ r = u32 (i + k) /\
        (forall j, i <= j < i + k -> is_Some (m !! j)) /\ (k = n \/ i + k = 2 ^ 32 \/ m !! (i + k) = None)
  | Preload => (r = 0 \/ r = - ENOMEM) /\ m' = m
  | Reclaim => r = 0 /\ m' = m
  end.

Section Refinement.
Implicit Types (m : index_map) (P D : list Z).

Lemma tagged_present τ h b t i : shape h t -> tagged τ h b t i = true -> tget h t i <> NULL.
Proof.
  revert b t. induction h as [|h IH]; intros b [|p|a tg kids] Hs Hi; try done; [by apply even_nonnull|].
  cbn [tget tagged] in *. eapply IH; [|exact Hi]. by apply shape_default, Hs.
Qed.

(** The tag of the root tells whether the map has an item with the tag. *)
Lemma tagged_map s H t g P D m τ :
  tree_state s H t g P D -> (forall i, m !! i = tview H g t i) -> (τ < 2)%nat ->
  gtag g τ = bool_decide (map_Exists (fun _ e => has_tag τ e = true) m).
Proof.
  intros (HH & Htg & F & (_ & _ & Hs & _) & _) Hm Hτ. apply eq_bool_prop_intro. rewrite bool_decide_spec.
  assert (forall i e, m !! i = Some e -> has_tag τ e = tagged τ H (gtag g τ) t i) as Ht.
  { intros i e. rewrite Hm. unfold tview. destruct (_ && _); [|done]. intros [= <-]. destruct τ as [|[|]]; [done|done|lia]. }
  split.
  - intros E%Is_true_eq_true. destruct (tagged_exists τ H _ t (Htg τ Hτ) Hs E) as (i & Hi & Hti).
    assert (is_Some (m !! i)) as [e He].
    { rewrite Hm. unfold tview. rewrite (proj2 (Z.leb_le 0 i)), (proj2 (Z.ltb_lt i _)), (proj2 (Z.eqb_neq _ _)); [by eexists| |lia|lia].
      by eapply tagged_present. }
    exists i, e. split; [done|]. by rewrite (Ht _ _ He).
  - intros (i & e & He & Hte). rewrite (Ht _ _ He) in Hte. by rewrite (tagged_any τ H _ t i (Htg τ Hτ) Hte).
Qed.

Lemma rep_same s' m H t g H' t' g' P' D' :
  tree_state s' H' t' g' P' D' -> (forall i, tview H' g' t' i = tview H g t i) -> (forall i, m !! i = tview H g t i) ->
  (forall i, is_Some (m !! i) -> i < 2 ^ 32) -> rep s' m.
Proof. intros Hst Hv Hm Hd. split; [|done]. exists H', t', g', P', D'. split; [done|]. intros i. by rewrite Hm, Hv. Qed.

(** The request [q] is served from a state that implements [m]. *)
Definition served m (q : request) s : Prop :=
  wp (serve q) (fun r s' => exists m', answers m q r m' /\ rep s' m') s.

Lemma serve_insert s m i p : rep s m -> allowed m (Insert i p) -> served m (Insert i p) s.
Proof.
  intros [(H & t & g & P & D & Hst & Hm) Hd] [Hi Hp]. eapply wp_mono; [exact (radix_tree_insert_ok _ _ _ _ _ _ _ _ Hst Hi Hp)|].
  intros r s' (H' & t' & P' & Hst' & [(-> & E & Hv)|[(-> & [e E] & Hv)|(-> & _ & Hv)]]); unfold answers.
  - exists (<[i := (p, false, false)]> m). rewrite (Hm i), E. split; [by left|]. split.
    + exists H', t', g, P', D. split; [done|]. intros j. rewrite Hv. case_decide as Ej; [subst j; apply lookup_insert_eq|].
      by rewrite lookup_insert_ne by done.
    + intros j [e He]. apply lookup_insert_Some in He as [[<- _]|[_ He]]; [lia|]. by apply Hd; exists e.
  - exists m. rewrite (Hm i), E. split; [by split; [left|]|]. eapply rep_same; [exact Hst'|exact Hv|done|done].
  - exists m. split; [|eapply rep_same; [exact Hst'|exact Hv|done|done]]. destruct (m !! i); [by split; [right|]|by right].
Qed.

Lemma rep_mark s' m i τ b H t g H' t' g' P' D' :
  tree_state s' H' t' g' P' D' -> (forall j, tview H' g' t' j = if decide (j = i) then mark τ b <$> tview H g t j else tview H g t j) ->
  (forall j, m !! j = tview H g t j) -> (forall j, is_Some (m !! j) -> j < 2 ^ 32) -> rep s' (alter (mark τ b) i m).
Proof.
  intros Hst Hv Hm Hd. split.
  - exists H', t', g', P', D'. split; [done|]. intros j. rewrite Hv. case_decide as Ej.
    + subst j. by rewrite lookup_alter_eq, Hm.
    + by rewrite lookup_alter_ne by done.
  - intros j Hj. apply Hd. destruct (decide (i = j)) as [<-|Hne]; [by rewrite lookup_alter_eq, fmap_is_Some in Hj|by rewrite lookup_alter_ne in Hj].
Qed.

Lemma serve_tags s m q :
  rep s m -> allowed m q -> match q with TagSet _ _ | TagClear _ _ | Tagged _ => True | _ => False end -> served m q s.
Proof.
  intros [(H & t & g & P & D & Hst & Hm) Hd] Ha Hq. destruct q as [| | |i τ|i τ|τ| | |]; try done; unfold served; cbn [serve allowed] in *.
  - destruct Ha as (Hi & Hτ & [e He]). pose proof He as He'. rewrite Hm in He'.
    eapply wp_mono; [exact (radix_tree_tag_set_ok _ _ _ _ _ _ _ _ _ Hst Hi Hτ He')|]. intros r s' (-> & t' & g' & Hst' & Hv).
    eexists. split; [split; [by rewrite He|done]|]. by eapply rep_mark.
  - destruct Ha as (Hi & Hτ). eapply wp_mono; [exact (radix_tree_tag_clear_ok _ _ _ _ _ _ _ _ Hst Hi Hτ)|].
    intros r s' (-> & t' & g' & Hst' & Hv & _). eexists. split; [split; [by rewrite Hm|done]|]. by eapply rep_mark.
  - pose proof Hst as (_ & _ & F & Hz & _). apply wp_bind. eapply wp_root_tag_get; [exact Hz|]. apply wp_ret. exists m.
    split; [split; [by rewrite (tagged_map _ _ _ _ _ _ _ _ Hst Hm Ha)|done]|]. by eapply rep_same.
Qed.

(** Every request is served as the map answers it. *)
Lemma serve_request s m q : rep s m -> allowed m q -> served m q s.
Proof.
  intros Hr Ha. destruct q as [i p|i|i|i τ|i τ|τ|i n| |]; [by apply serve_insert| | |by apply serve_tags|by apply serve_tags|by apply serve_tags| | |];
    destruct Hr as [(H & t & g & P & D & Hst & Hm) Hd]; unfold served; cbn [serve allowed answers] in *; pose proof Hst as (HH & _ & F & Hz & _).
  - eapply wp_mono; [exact (radix_tree_lookup_ok _ _ _ _ _ _ _ _ Hz HH Ha)|]. intros r s' [-> ->]. exists m.
    split; [split; [|done]|by eapply rep_same]. rewrite Hm. destruct (Z.ltb_spec i (64 ^ Z.of_nat H)); [by rewrite item_of_view by lia|].
    by rewrite tview_out by lia.
  - eapply wp_mono; [exact (radix_tree_delete_ok _ _ _ _ _ _ _ Hst Ha)|]. intros r s' (-> & H' & t' & g' & D' & Hst' & Hv).
    exists (delete i m). split; [split; [by rewrite Hm|done]|]. split.
    + exists H', t', g', P, D'. split; [done|]. intros j. rewrite Hv. case_decide as Ej; [subst j; apply lookup_delete_eq|by rewrite lookup_delete_ne].
    + intros j [e He]. apply lookup_delete_Some in He as [_ He]. apply Hd. by exists e.
  - destruct Ha as [Hi Hn]. eapply wp_mono; [exact (next_hole_ok _ _ _ _ _ _ _ _ Hst Hi Hn)|]. intros r s' (-> & k & Hk & Hb & Hr & Hall & Hend).
    exists m. split; [split; [done|]|by eapply rep_same]. exists k. do 3 (split; [done|]). rewrite Hm. split; [intros j Hj; rewrite Hm; auto|done].
  - eapply wp_mono; [exact (radix_tree_preload_ok _ _ _ _ _ _ Hst)|]. intros r s' [[P' Hst'] Hr]. exists m.
    split; [split; [tauto|done]|]. by eapply rep_same.
  - apply wp_bind. eapply wp_mono; [exact (rcu_free_ok _ _ _ _ _ _ Hst)|]. intros [] s' (P' & D' & Hst'). apply wp_ret. exists m.
    split; [done|]. by eapply rep_same.
Qed.
End Refinement.

(** ** Callers *)

(** A caller chooses its next request by the result of the last. *)
Inductive caller := Done | Ask (q : request) (k : Z -> caller).

(** The requests made, with their results. *)
Fixpoint serve_all (c : caller) : RM (list (request * Z)) :=
  match c with
  | Done => mret []
  | Ask q k => r ← serve q; l ← serve_all (k r); mret ((q, r) :: l)
  end.

(** Whatever the answers, the caller makes only requests that are allowed. *)
Fixpoint well_behaved (m : index_map) (c : caller) : Prop :=
  match c with
  | Done => True
  | Ask q k => allowed m q /\ forall r m', answers m q r m' -> well_behaved m' (k r)
  end.

Fixpoint all_answers (m : index_map) (l : list (request * Z)) (m' : index_map) : Prop :=
  match l with
  | [] => m' = m
  | (q, r) :: l => exists m1, answers m q r m1 /\ all_answers m1 l m'
  end.

(** An empty root as INIT_RADIX_TREE makes it and an allocator with the given nodes. *)
Definition fresh_root (gfp : Z) (nodes : list Z) : radix_state :=
  RState (RRoot 0 gfp NULL) (list_to_map ((fun a => (a, RNode 0 0 (replicate 64 NULL) [0; 0])) <$> nodes)) [] nodes [].

Lemma fresh_rep gfp nodes : fits __GFP_BITS_SHIFT gfp -> NoDup nodes -> Forall even_ptr nodes -> rep (fresh_root gfp nodes) ∅.
Proof.
  intros Hg Hn He. split; [|intros i [e He']; by rewrite lookup_empty in He'].
  exists 0%nat, RNull, gfp, nodes, []. split; [|intros i; rewrite lookup_empty, tview_none; done].
  split; [lia|]. split; [intros τ Hτ; apply tag_ok_null, (fits_testbit_high __GFP_BITS_SHIFT); unfold __GFP_BITS_SHIFT in *; done || lia|].
  set (f := fun a : Z => (a, RNode 0 0 (replicate 64 NULL) [0; 0])). exists (f <$> nodes).
  assert ((f <$> nodes).*1 = nodes) as Ef by (rewrite <- list_fmap_compose; apply list_fmap_id).
  split; [split; [done|]; split; [|do 2 (split; [done|]); split; [by unfold supply; destruct (_ =? 0)|done]]|].
  - apply cells_list_to_map, bool_decide_eq_true. exact (eq_ind_r NoDup Hn Ef).
  - exists (f <$> nodes), []. rewrite app_nil_r. do 3 (split; [done|]). split; [|done]. apply Forall_fmap.
    eapply Forall_impl; [exact He|]. intros a Ha. done.
Qed.

Lemma serve_all_ok c : forall s m, rep s m -> well_behaved m c ->
  wp (serve_all c) (fun l s' => exists m', all_answers m l m' /\ rep s' m') s.
Proof.
  induction c as [|q k IH]; intros s m Hr Ha; [apply wp_ret; by exists m|]. destruct Ha as [Hq Ha]. apply wp_bind.
  eapply wp_mono; [exact (serve_request _ _ _ Hr Hq)|]. intros r s1 (m1 & H1 & Hr1). apply wp_bind.
  eapply wp_mono; [exact (IH r _ _ Hr1 (Ha _ _ H1))|]. intros l s2 (m2 & H2 & Hr2). apply wp_ret. exists m2. split; [by exists m1|done].
Qed.

(** ** A check of the whole store *)

(** The node at [a] and all below it: the height, the number of slots in use, and for
    each tag that the bit of a slot is clear when the slot is empty and tells whether
    the node below has any bit set when there is one. *)
Fixpoint node_ok (s : radix_state) (h : nat) (a : Z) (b : nat -> bool) : bool :=
  match h with
  | O => true
  | S h' =>
      match node_at s !! a with
      | None => false
      | Some n =>
          (height n =? Z.of_nat h) && (count n =? in_use (slots n)) && (length (slots n) =? 64)%nat &&
          forallb (fun τ => eqb (b τ) (negb (mask (Z.of_nat τ) n =? 0))) [0%nat; 1%nat] &&
          forallb (fun o =>
            let p := default NULL (slots n !! o) in
            let bit τ := Z.testbit (mask (Z.of_nat τ) n) (Z.of_nat o) in
            if p =? NULL then negb (bit 0%nat) && negb (bit 1%nat) else node_ok s h' p bit) (seq 0 64)
      end
  end.

Definition store_ok (s : radix_state) : bool :=
  (rheight (root s) <=? 6) &&
  if rnode (root s) =? NULL then negb (gtag (gfp_mask (root s)) 0) && negb (gtag (gfp_mask (root s)) 1)
  else eqb (radix_tree_is_indirect_ptr (rnode (root s))) (0 <? rheight (root s)) &&
       node_ok s (Z.to_nat (rheight (root s))) (radix_tree_indirect_to_ptr (rnode (root s))) (gtag (gfp_mask (root s))).

Lemma node_ok_place s h : forall c t g F P D b,
  zst s h c t g F P D -> t <> RNull -> (forall τ, (τ < 2)%nat -> tag_ok τ h (b τ) t) -> node_ok s h (ptr t) b = true.
Proof.
  induction h as [|h IH]; intros c t g F P D b Hz Hn Htg; [done|]. pose proof Hz as (_ & _ & Hs & _).
  destruct t as [| |a tg kids]; [done|by destruct Hs|]. pose proof (zst_node _ _ _ _ _ _ _ _ _ _ Hz) as (Hnode & _ & Hk & Hl).
  cbn [node_ok ptr]. rewrite Hnode. cbn [height count slots node_of]. rewrite length_map, Hk, !Z.eqb_refl. cbn [Nat.eqb andb].
  assert (forall τ, mask (Z.of_nat τ) (node_of (S h) tg (map ptr kids)) = tmask τ tg) as Em by (intros τ; unfold mask; by rewrite Nat2Z.id).
  apply andb_true_iff. split.
  - cbn [forallb]. rewrite !Em. destruct (Htg 0%nat ltac:(lia)) as (_ & -> & _), (Htg 1%nat ltac:(lia)) as (_ & -> & _). by rewrite !eqb_reflx.
  - apply forallb_forall. intros o Ho%in_seq. destruct (lookup_lt_is_Some_2 kids o ltac:(lia)) as [k Ek]. cbv zeta. rewrite !Em.
    change (map ptr kids !! o) with ((ptr <$> kids) !! o). rewrite list_lookup_fmap, Ek. cbn [fmap option_fmap option_map from_option id].
    assert (o < 64)%nat as Ho' by lia. pose proof (zst_down _ _ _ _ _ _ _ _ _ _ _ Ho' Hz) as Hd. rewrite Ek in Hd. cbn [from_option id] in Hd.
    pose proof Hd as (_ & _ & Hsk & _). destruct (decide (k = RNull)) as [->|Hnk].
    + cbn [ptr Z.eqb NULL]. destruct (Htg 0%nat ltac:(lia)) as (_ & _ & H0), (Htg 1%nat ltac:(lia)) as (_ & _ & H1).
      specialize (H0 _ _ Ek). specialize (H1 _ _ Ek). apply tag_ok_null in H0, H1. by rewrite H0, H1.
    + rewrite (proj1 (nonnull_ptr _ _ Hsk Hnk)). eapply IH; [exact Hd|done|]. intros τ Hτ. rewrite Em. destruct (Htg τ Hτ) as (_ & _ & H0). by apply H0.
Qed.

Lemma rep_store_ok s m : rep s m -> store_ok s = true.
Proof.
  intros [(H & t & g & P & D & (HH & Htg & F & Hz & _) & _) _]. pose proof Hz as (Hr & _ & Hs & _). unfold store_ok. rewrite Hr.
  cbn [rheight rnode gfp_mask rdepth rplug]. rewrite Nat.add_0_r, Nat2Z.id, indirect_root, root_null by done.
  rewrite (proj2 (Z.leb_le _ 6)) by lia. cbn [andb]. destruct (decide (t = RNull)) as [->|Hn].
  - cbn [ptr Z.eqb NULL]. pose proof (Htg 0%nat ltac:(lia)) as H0. pose proof (Htg 1%nat ltac:(lia)) as H1. apply tag_ok_null in H0, H1. by rewrite H0, H1.
  - rewrite (proj1 (nonnull_ptr _ _ Hs Hn)). apply andb_true_iff. split; [|by eapply node_ok_place]. destruct (shape_ptr _ _ Hs) as [|He]; [done|].
    destruct (indirect_flag _ He) as [E0 E1], H as [|h]; cbn [root_ptr]; [by rewrite E0|].
    rewrite (proj1 (even_nonnull _ He)), E1. by rewrite (proj2 (Z.ltb_lt 0 _)) by lia.
Qed.

(** ** The properties *)

(** C7: The radix tree is a finite map from indices to items with two tags each.  From
    an empty root and whatever nodes the allocator has, every caller that makes
    insertions, lookups, deletions, settings and clearings of tags, tests of the whole
    tree for a tag, scans for a hole, preloads and grace periods in any order, and
    chooses them by the results it gets, is served without a fault or a BUG and with the results that
    the map gives; an insertion that fails with -ENOMEM or -EEXIST, at whatever point of
    growing the tree, leaves the map as it was. *)
Theorem radix_tree_refines_map gfp nodes c :
  fits __GFP_BITS_SHIFT gfp -> NoDup nodes -> Forall even_ptr nodes -> well_behaved ∅ c ->
  exists l s m, serve_all c (fresh_root gfp nodes) = Ok (l, s) /\ all_answers ∅ l m /\ rep s m.
Proof.
  intros Hg Hn He Ha. destruct (wp_run _ _ _ (serve_all_ok c _ _ (fresh_rep _ _ Hg Hn He) Ha)) as (l & s & E & m & Hm). by exists l, s, m.
Qed.

(** C8: The store stays consistent.  After the requests of any such caller every node of
    the tree has the height of its level and the number of its slots in use as its
    count, an empty slot has no tag, and the bit of a slot that leads to a node tells
    whether the node has any bit set, up to the tags of the root. *)
Theorem radix_tree_store_ok gfp nodes c l s :
  fits __GFP_BITS_SHIFT gfp -> NoDup nodes -> Forall even_ptr nodes -> well_behaved ∅ c ->
  serve_all c (fresh_root gfp nodes) = Ok (l, s) -> store_ok s = true.
Proof.
  intros Hg Hn He Ha E. destruct (wp_run _ _ _ (serve_all_ok c _ _ (fresh_rep _ _ Hg Hn He) Ha)) as (l' & s' & E' & m & _ & Hr).
  rewrite E in E'. injection E' as <- <-. by eapply rep_store_ok.
Qed.

(** C35: Eleven nodes within reach, set aside or in the allocator, are enough for any
    insertion: six to make the tree as high as the index needs and five for the path
    down from the root. *)
Theorem radix_tree_insert_enough s m i p :
  rep s m -> 0 <= i < 2 ^ 32 -> even_ptr p -> (2 * Z.to_nat RADIX_TREE_MAX_PATH - 1 <= length (supply (gfp_mask (root s)) s))%nat ->
  exists s', radix_tree_insert i p s = Ok (match m !! i with None => 0 | Some _ => - EEXIST end, s').
Proof.
  intros [(H & t & g & P & D & Hst & Hm) _] Hi Hp Hl. change (2 * Z.to_nat RADIX_TREE_MAX_PATH - 1)%nat with 11%nat in Hl.
  pose proof Hst as (_ & _ & F & (Er & _ & _ & _ & EP & _) & _). rewrite Er in Hl. cbn [gfp_mask] in Hl. rewrite EP in Hl.
  destruct (wp_run _ _ _ (radix_tree_insert_ok _ _ _ _ _ _ _ _ Hst Hi Hp)) as (r & s' & E & H' & t' & P' & _ & Hr). exists s'. rewrite E, Hm.
  destruct Hr as [(-> & E' & _)|[(-> & [e E'] & _)|(_ & Hlt & _)]]; [by rewrite E'|by rewrite E'|lia].
Qed.

(** A successful radix_tree_preload does not ensure that the next insertion cannot
    fail: with the one item at index 0 in the tree, the preload returns 0 and sets
    RADIX_TREE_MAX_PATH nodes aside, and the insertion at the highest index still fails
    with -ENOMEM when the allocator has nothing more. *)
Theorem radix_tree_preload_short :
  exists s s', (radix_tree_insert 0 4096 ;; radix_tree_preload) (fresh_root 0 (Z.mul 8 <$> seqZ 1 RADIX_TREE_MAX_PATH)) = Ok (0, s) /\
    Z.of_nat (length (preloads s)) = RADIX_TREE_MAX_PATH /\ radix_tree_insert (2 ^ 32 - 1) 8192 s = Ok (- ENOMEM, s').
Proof. eexists _, _. split; [vm_compute; reflexivity|]. split; [vm_compute; reflexivity|]. vm_compute. reflexivity. Qed.

(** ** Witnesses *)

Definition sample_nodes : list Z := Z.mul 8 <$> seqZ 1 11.

(** A caller that tags an item only when the insertion has put it there. *)
Definition sample_caller : caller :=
  Ask (Insert 5 4096) (fun r => if r =? 0 then
    Ask (TagSet 5 1) (fun _ => Ask (Insert (2 ^ 32 - 1) 8192) (fun _ => Ask (Tagged 1) (fun _ => Ask (Delete (2 ^ 32 - 1)) (fun _ =>
    Ask Reclaim (fun _ => Ask Preload (fun _ => Ask (NextHole 5 10) (fun _ => Ask (Delete 5) (fun _ => Done)))))))) else Done).

Lemma sample_nodes_ok : NoDup sample_nodes /\ Forall even_ptr sample_nodes.
Proof.
  split; [refine (bool_decide_unpack _ _); vm_compute; exact I|]. unfold sample_nodes. apply Forall_fmap, Forall_forall.
  intros k Hk%elem_of_seqZ. unfold compose, even_ptr. split; [lia|]. change 1 with (Z.ones 1). rewrite Z.land_ones by lia. replace (8 * k) with (4 * k * 2 ^ 1) by lia. by apply Z.mod_mul.
Qed.

Lemma sample_caller_ok : well_behaved ∅ sample_caller.
Proof.
  assert (even_ptr 4096 /\ even_ptr 8192) as [H1 H2] by done.
  split; [split; [lia|done]|]. intros r m H. cbn [answers] in H. rewrite lookup_empty in H. destruct H as [[-> ->]|[-> ->]]; [|done].
  cbn [Z.eqb]. split; [split; [lia|]; split; [lia|]; by rewrite lookup_insert_eq|]. intros r1 m1 _.
  split; [split; [lia|done]|]. intros r2 m2 _. split; [simpl; lia|]. intros r3 m3 _. split; [simpl; lia|]. intros r4 m4 _.
  split; [done|]. intros r5 m5 _. split; [done|]. intros r7 m7 _. split; [simpl; lia|]. intros r6 m6 _. split; [simpl; lia|]. done.
Qed.

Lemma sample_run : exists l s, serve_all sample_caller (fresh_root 0 sample_nodes) = Ok (l, s) /\ l.*2 = [0; 4096; 0; 1; 8192; 0; -12; 6; 4096].
Proof. eexists _, _. split; [vm_compute; reflexivity|]. vm_compute. reflexivity. Qed.

Lemma radix_tree_refines_map_witness :
  well_behaved ∅ sample_caller /\
  exists l s m, serve_all sample_caller (fresh_root 0 sample_nodes) = Ok (l, s) /\ all_answers ∅ l m /\ rep s m.
Proof.
  pose proof sample_nodes_ok as [Hn He]. assert (fits __GFP_BITS_SHIFT 0) as Hg by done.
  exact (conj sample_caller_ok (radix_tree_refines_map 0 sample_nodes sample_caller Hg Hn He sample_caller_ok)).
Defined.

Lemma radix_tree_store_ok_witness :
  exists l s, serve_all sample_caller (fresh_root 0 sample_nodes) = Ok (l, s) /\ store_ok s = true.
Proof.
  pose proof sample_nodes_ok as [Hn He]. assert (fits __GFP_BITS_SHIFT 0) as Hg by done. destruct sample_run as (l & s & E & _).
  exact (ex_intro _ l (ex_intro _ s (conj E (radix_tree_store_ok 0 sample_nodes sample_caller l s Hg Hn He sample_caller_ok E)))).
Defined.

Lemma radix_tree_insert_enough_witness :
  exists s', radix_tree_insert 5 4096 (fresh_root 0 sample_nodes) = Ok (0, s').
Proof.
  pose proof sample_nodes_ok as [Hn He]. assert (fits __GFP_BITS_SHIFT 0) as Hg by done.
  assert (0 <= 5 < 2 ^ 32) as Hi by lia. assert (even_ptr 4096) as Hp by done.
  assert (2 * Z.to_nat RADIX_TREE_MAX_PATH - 1 <= length (supply (gfp_mask (root (fresh_root 0 sample_nodes))) (fresh_root 0 sample_nodes)))%nat as Hl by (vm_compute; lia).
  exact (radix_tree_insert_enough _ ∅ 5 4096 (fresh_rep 0 sample_nodes Hg Hn He) Hi Hp Hl).
Defined.
