(* ===== verification/RadixGang.v ===== *)
(** * Gang lookups in radix trees: lib/radix-tree.c

    The routines that collect the items from an index on, or those of them that have a
    tag, in ascending order.  They only read the tree; the model and the invariant of
    the tree are those of RadixTree. *)

From S2P Require Import Prelude Cells RadixTree.

#[local] Arguments loop : simpl never.

(** ** The code *)

(** The address of a slot: that of the root, or a slot of a node. *)
Inductive slot_ref := RootSlot | NodeSlot (node offset : Z).

Definition deref (r : slot_ref) : RM Z :=
  match r with
  | RootSlot => r ← get_root; mret (rnode r)
  | NodeSlot node offset => get_slot node offset
  end.

(** The inner loop of __lookup and __lookup_tag: on to the next slot of the node that
    passes the test; [None] where the code goes to [out]. *)
Definition skip (test : Z -> RM bool) (shift index i : Z) : RM (Z * option Z) :=
  loop 65 (fun '(index, i) =>
    t ← test i;
    if (t : bool) then break (index, Some i) else
    let index := Z.ldiff index (Z.shiftl 1 shift - 1) in
    let index := u32 (index + Z.shiftl 1 shift) in
    if index =? 0 then break (index, None) else
    let i := i + 1 in
    if i =? RADIX_TREE_MAP_SIZE then break (index, None) else continue (index, i)) (index, i).

(** Their loops over the slots of the bottom level. *)
Definition grab (test : Z -> RM bool) (slot index i max_items : Z) : RM (list slot_ref * Z) :=
  loop 65 (fun '(i, index, found) =>
    if i <? RADIX_TREE_MAP_SIZE then
      let index := u32 (index + 1) in
      t ← test i;
      if (t : bool) then
        let found := found ++ [NodeSlot slot i] in
        if Z.of_nat (length found) =? max_items then break (found, index)
        else continue (i + 1, index, found)
      else continue (i + 1, index, found)
    else break (found, index)) (i, index, []).

Definition slot_present (slot i : Z) : RM bool := v ← get_slot slot i; mret (negb (v =? NULL)).

Definition __lookup (slot index max_items : Z) : RM (list slot_ref * Z) :=
  n ← get_node slot;
  if height n =? 0 then mret ([], index) else
  r ← loop path_fuel (fun '(height, shift, slot, index) =>
    if 1 <? height then
      '(index, i) ← skip (slot_present slot) shift index (Z.land (Z.shiftr index shift) RADIX_TREE_MAP_MASK);
      match i with
      | None => break (inl index)
      | Some i =>
          next ← get_slot slot i;
          if next =? NULL then break (inl index)
          else continue (height - 1, u32 (shift - RADIX_TREE_MAP_SHIFT), next, index)
      end
    else break (inr (slot, index)))
    (height n, u32 ((height n - 1) * RADIX_TREE_MAP_SHIFT), slot, index);
  match r with
  | inl index => mret ([], index)
  | inr (slot, index) => grab (slot_present slot) slot index (Z.land index RADIX_TREE_MAP_MASK) max_items
  end.

(** A slot counts when it has the tag and is not empty. *)
Definition slot_tagged (slot tag i : Z) : RM bool :=
  t ← tag_get slot tag i;
  if negb (t : bool) then mret false else
  v ← get_slot slot i; mret (negb (v =? NULL)).

Definition __lookup_tag (slot index max_items tag : Z) : RM (list slot_ref * Z) :=
  n ← get_node slot;
  if height n =? 0 then mret ([], index) else
  loop path_fuel (fun '(height, shift, slot, index) =>
    if 0 <? height then
      '(index, i) ← skip (tag_get slot tag) shift index (Z.land (Z.shiftr index shift) RADIX_TREE_MAP_MASK);
      match i with
      | None => break ([], index)
      | Some i =>
          let height := height - 1 in
          if height =? 0 then
            '(found, index) ← grab (slot_tagged slot tag) slot index (Z.land index RADIX_TREE_MAP_MASK) max_items;
            if Z.of_nat (length found) =? max_items then break (found, index) else
            get_slot slot i ;; break (found, index)
          else
          next ← get_slot slot i;
          if next =? NULL then break ([], index)
          else continue (height, u32 (shift - RADIX_TREE_MAP_SHIFT), next, index)
      end
    else break ([], index))
    (height n, u32 ((height n - 1) * RADIX_TREE_MAP_SHIFT), slot, index).

(** The loop that replaces the slots found by what they hold. *)
Fixpoint load_slots (found : list slot_ref) : RM (list Z) :=
  match found with
  | [] => mret []
  | r :: found =>
      slot ← deref r;
      l ← load_slots found;
      mret (if slot =? NULL then l else slot :: l)
  end.

(** The loops of the gang lookups; [look] is __lookup or __lookup_tag from an index on
    and for at most so many items. *)
Definition gang_items (look : Z -> Z -> RM (list slot_ref * Z)) (first_index max_index max_items : Z) : RM (list Z) :=
  long_loop (fun '(cur_index, results) =>
    let ret := Z.of_nat (length results) in
    if ret <? max_items then
      if max_index <? cur_index then break results else
      '(found, next_index) ← look cur_index (max_items - ret);
      l ← load_slots found;
      let results := results ++ l in
      if next_index =? 0 then break results else continue (next_index, results)
    else break results) (first_index, []).

Definition gang_slots (look : Z -> Z -> RM (list slot_ref * Z)) (first_index max_index max_items : Z) : RM (list slot_ref) :=
  long_loop (fun '(cur_index, results) =>
    let ret := Z.of_nat (length results) in
    if ret <? max_items then
      if max_index <? cur_index then break results else
      '(found, next_index) ← look cur_index (max_items - ret);
      let results := results ++ found in
      if next_index =? 0 then break results else continue (next_index, results)
    else break results) (first_index, []).

Definition radix_tree_gang_lookup (first_index max_items : Z) : RM (list Z) :=
  r ← get_root;
  let node := rnode r in
  if node =? NULL then mret [] else
  if negb (radix_tree_is_indirect_ptr node) then
    if 0 <? first_index then mret [] else mret [node]
  else
  let node := radix_tree_indirect_to_ptr node in
  n ← get_node node;
  max_index ← radix_tree_maxindex (height n);
  gang_items (__lookup node) first_index max_index max_items.

Definition radix_tree_gang_lookup_slot (first_index max_items : Z) : RM (list slot_ref) :=
  r ← get_root;
  let node := rnode r in
  if node =? NULL then mret [] else
  if negb (radix_tree_is_indirect_ptr node) then
    if 0 <? first_index then mret [] else mret [RootSlot]
  else
  let node := radix_tree_indirect_to_ptr node in
  n ← get_node node;
  max_index ← radix_tree_maxindex (height n);
  gang_slots (__lookup node) first_index max_index max_items.

Definition radix_tree_gang_lookup_tag (first_index max_items tag : Z) : RM (list Z) :=
  t ← root_tag_get tag;
  if negb (t : bool) then mret [] else
  r ← get_root;
  let node := rnode r in
  if node =? NULL then mret [] else
  if negb (radix_tree_is_indirect_ptr node) then
    if 0 <? first_index then mret [] else mret [node]
  else
  let node := radix_tree_indirect_to_ptr node in
  n ← get_node node;
  max_index ← radix_tree_maxindex (height n);
  gang_items (fun index max_items => __lookup_tag node index max_items tag) first_index max_index max_items.

Definition radix_tree_gang_lookup_tag_slot (first_index max_items tag : Z) : RM (list slot_ref) :=
  t ← root_tag_get tag;
  if negb (t : bool) then mret [] else
  r ← get_root;
  let node := rnode r in
  if node =? NULL then mret [] else
  if negb (radix_tree_is_indirect_ptr node) then
    if 0 <? first_index then mret [] else mret [RootSlot]
  else
  let node := radix_tree_indirect_to_ptr node in
  n ← get_node node;
  max_index ← radix_tree_maxindex (height n);
  gang_slots (fun index max_items => __lookup_tag node index max_items tag) first_index max_index max_items.

(** radix_tree_lookup_slot: as radix_tree_lookup, with the address of the slot. *)
Definition radix_tree_lookup_slot (index : Z) : RM (option slot_ref) :=
  r ← get_root;
  let node := rnode r in
  if node =? NULL then mret None else
  if negb (radix_tree_is_indirect_ptr node) then
    if 0 <? index then mret None else mret (Some RootSlot)
  else
  let node := radix_tree_indirect_to_ptr node in
  n ← get_node node;
  max ← radix_tree_maxindex (height n);
  if max <? index then mret None else
  loop path_fuel (fun '(height, shift, node) =>
    let offset := Z.land (Z.shiftr index shift) RADIX_TREE_MAP_MASK in
    let slot := NodeSlot node offset in
    node ← get_slot node offset;
    if node =? NULL then break None else
    let height := u32 (height - 1) in
    if 0 <? height then continue (height, u32 (shift - RADIX_TREE_MAP_SHIFT), node)
    else break (Some slot)) (height n, u32 ((height n - 1) * RADIX_TREE_MAP_SHIFT), node).

(** ** Blocks of indices *)

(** The indices below a slot of a node of height [h + 1] are those with the same
    quotient by 64^h. *)
Definition block (h : nat) (i : Z) : Z := i / 64 ^ Z.of_nat h.

Lemma block_digit h i : block h i = block (S h) i * 64 + Z.of_nat (digit h i).
Proof.
  unfold block, digit. rewrite Nat2Z.inj_succ, Z.pow_succ_r, (Z.mul_comm 64), <- Z.div_div by lia.
  pose proof (Z.mod_pos_bound (i / 64 ^ Z.of_nat h) 64). rewrite Z2Nat.id by lia.
  rewrite (Z.div_mod (i / 64 ^ Z.of_nat h) 64) at 1 by lia. lia.
Qed.

Lemma block_eq h i j : block h i = block h j <-> block (S h) i = block (S h) j /\ digit h i = digit h j.
Proof.
  pose proof (block_digit h i). pose proof (block_digit h j). pose proof (digit_lt h i). pose proof (digit_lt h j). lia.
Qed.

Lemma block_bounds h i : block h i * 64 ^ Z.of_nat h <= i < (block h i + 1) * 64 ^ Z.of_nat h.
Proof.
  unfold block. pose proof (pow64_pos h). pose proof (Z.div_mod i (64 ^ Z.of_nat h) ltac:(lia)).
  pose proof (Z.mod_pos_bound i (64 ^ Z.of_nat h) ltac:(lia)). lia.
Qed.

Lemma block_of h b i : b * 64 ^ Z.of_nat h <= i < (b + 1) * 64 ^ Z.of_nat h -> block h i = b.
Proof.
  intros Hi. unfold block. pose proof (pow64_pos h). symmetry. apply (Z.div_unique_pos _ _ _ (i - b * 64 ^ Z.of_nat h)); lia.
Qed.

Lemma on_path_block h c i j : block h i = block h j -> on_path h c i = on_path h c j.
Proof.
  revert h. induction c as [|a tg kids o c IH]; intros h E; [done|]. apply block_eq in E as [E Ed]. cbn [on_path]. by rewrite Ed, (IH (S h)).
Qed.

(** The start of the next block, as the code computes it. *)
Lemma next_block h i :
  (h < 6)%nat -> 0 <= i < 2 ^ 32 ->
  Z.ldiff i (Z.shiftl 1 (level_shift (S h)) - 1) + Z.shiftl 1 (level_shift (S h)) = (block h i + 1) * 64 ^ Z.of_nat h.
Proof.
  intros Hh Hi. unfold level_shift, RADIX_TREE_MAP_SHIFT. rewrite wrap_id by (unfold fits; lia).
  replace ((Z.of_nat (S h) - 1) * 6) with (6 * Z.of_nat h) by lia. rewrite Z.shiftl_1_l.
  replace (2 ^ (6 * Z.of_nat h) - 1) with (Z.ones (6 * Z.of_nat h)) by (rewrite Z.ones_equiv; lia).
  rewrite Z.ldiff_ones_r, Z.shiftl_mul_pow2, Z.shiftr_div_pow2 by lia. unfold block. rewrite !Z.pow_mul_r by lia. change (2 ^ 6) with 64. lia.
Qed.

Lemma next_block_bound h i :
  (h < 6)%nat -> 0 <= i < 2 ^ 32 -> i < (block h i + 1) * 64 ^ Z.of_nat h <= 2 ^ 32.
Proof.
  intros Hh Hi. pose proof (block_bounds h i) as Hb. split; [lia|].
  assert (2 ^ 32 = 2 ^ (32 - 6 * Z.of_nat h) * 64 ^ Z.of_nat h) as E.
  { change 64 with (2 ^ 6). rewrite <- Z.pow_mul_r, <- Z.pow_add_r by lia. f_equal. lia. }
  rewrite E in Hi |- *. pose proof (pow64_pos h). apply Z.mul_le_mono_nonneg_r; [lia|]. nia.
Qed.

(** ** The test of a slot *)

Section Gang.
Context (s : radix_state) (H : nat) (T : rtree) (g : Z) (F : list (Z * radix_tree_node)) (P D : list Z).
Context (Hz : zst s H RTop T g F P D) (HH : (H <= 6)%nat) (Htg : tags_ok H g T).

(** What is looked for: any item, or the items with a tag. *)
Context (sel : option nat) (Hsel : match sel with Some τ => (τ < 2)%nat | None => True end).

Definition slot_hit (tg : list Z) (kids : list rtree) (o : nat) : bool :=
  match sel with
  | None => negb (ptr (default RNull (kids !! o)) =? NULL)
  | Some τ => Z.testbit (tmask τ tg) (Z.of_nat o)
  end.

Definition hit_at (h : nat) (c : rctx) (t : rtree) (j : Z) : bool :=
  match sel with
  | None => negb (tget h t j =? NULL)
  | Some τ => tagged τ h (cbit τ c (gtag g τ)) t j
  end.

(** The item that is looked for at an index. *)
Definition wanted (j : Z) : option Z :=
  if (0 <=? j) && (j <? 64 ^ Z.of_nat H) && hit_at H RTop T j then Some (tget H T j) else None.

(** The place [c], [t] is one of the tree. *)
Definition here (h : nat) (c : rctx) (t : rtree) : Prop :=
  (h + rdepth c)%nat = H /\ zst s h c t g F P D /\ rplug c t = T /\
  forall τ, (τ < 2)%nat -> ctag_ok τ h c (gtag g τ) /\ tag_ok τ h (cbit τ c (gtag g τ)) t.

Lemma here_top : here H RTop T.
Proof using All.
  split; [cbn [rdepth]; lia|]. split; [done|]. split; [done|]. intros τ Hτ. split; [done|]. by apply Htg.
Qed.

Lemma here_down h c a tg kids o :
  here (S h) c (RSub a tg kids) -> (o < 64)%nat -> here h (RFr a tg kids o c) (default RNull (kids !! o)).
Proof using All.
  intros (Hd & Hp & E & Ht) Ho. pose proof (zst_node _ _ _ _ _ _ _ _ _ _ Hp) as (_ & _ & Hk & _). split; [cbn [rdepth]; lia|].
  split; [by apply zst_down|]. split; [cbn [rplug]; by rewrite insert_default by lia|].
  intros τ Hτ. destruct (Ht τ Hτ) as [Hc Ht']. by apply ctag_down.
Qed.

Lemma wanted_here h c t j :
  here h c t -> on_path h c j = true -> 0 <= j < 64 ^ Z.of_nat H -> wanted j = if hit_at h c t j then Some (tget h t j) else None.
Proof using All.
  intros (Ed & (_ & _ & _ & Hc & _) & Ep & _) Hp Hj. unfold wanted, hit_at. destruct (Z.leb_spec 0 j); [|lia].
  destruct (Z.ltb_spec j (64 ^ Z.of_nat H)); [|lia]. cbn [andb cbit]. rewrite <- Ed, <- Ep, tget_plug, Hp by done.
  destruct sel as [τ|]; [|done]. by rewrite tagged_plug, Hp by done.
Qed.

Lemma hit_down h c a tg kids j :
  hit_at (S h) c (RSub a tg kids) j = hit_at h (RFr a tg kids (digit h j) c) (default RNull (kids !! digit h j)) j.
Proof using All. unfold hit_at. by destruct sel. Qed.

(** Nothing is wanted below a slot that fails the test, and a slot that passes it is
    not empty. *)
Lemma hit_slot h c a tg kids o :
  here (S h) c (RSub a tg kids) -> (o < 64)%nat ->
  if slot_hit tg kids o then default RNull (kids !! o) <> RNull
  else forall j, hit_at h (RFr a tg kids o c) (default RNull (kids !! o)) j = false.
Proof using All.
  intros Hh Ho. destruct (here_down _ _ _ _ _ _ Hh Ho) as (_ & (_ & _ & Hs & _) & _ & Ht). set (k := default RNull (kids !! o)) in *.
  unfold slot_hit, hit_at. fold k. destruct sel as [τ|].
  - destruct (Ht τ Hsel) as [_ Hk]. cbn [cbit] in Hk |- *. destruct (Z.testbit (tmask τ tg) (Z.of_nat o)).
    + intros E. rewrite E in Hk. by apply tag_ok_null in Hk.
    + intros j. destruct (tagged τ h false k j) eqn:E; [|done]. by apply (tagged_any τ h false k j) in Hk.
  - destruct (decide (k = RNull)) as [->|Hn]; [intros j; by rewrite tget_null|]. by rewrite (proj1 (nonnull_ptr _ _ Hs Hn)).
Qed.

(** ** The loops within a node *)

(** From [x] up to [y] the tests of the slots of a node fail. *)
Definition none_in (h : nat) (f : nat -> bool) (x y : Z) : Prop :=
  forall j, x <= j < y -> block (S h) j = block (S h) x /\ f (digit h j) = false.

Lemma none_next h f x y :
  none_in h f x y -> block (S h) y = block (S h) x -> f (digit h y) = false -> none_in h f x ((block h y + 1) * 64 ^ Z.of_nat h).
Proof using All.
  intros Hn Hb Hf j Hj. destruct (decide (j < y)) as [|Hge]; [apply Hn; lia|].
  assert (block h j = block h y) as E by (apply block_of; pose proof (block_bounds h y); lia). apply block_eq in E as [E1 E2].
  by rewrite E1, E2.
Qed.

Lemma skip_ok test f h x :
  (h < 6)%nat -> 0 <= x < 2 ^ 32 -> (forall o, (o < 64)%nat -> wp (test (Z.of_nat o)) (fun b s' => b = f o /\ s' = s) s) ->
  wp (skip test (level_shift (S h)) x (Z.of_nat (digit h x))) (fun '(y, r) s' => s' = s /\
    match r with
    | Some i => i = Z.of_nat (digit h y) /\ f (digit h y) = true /\ block (S h) y = block (S h) x /\ x <= y < 2 ^ 32 /\ none_in h f x y
    | None => exists y', y = u32 y' /\ x < y' <= 2 ^ 32 /\ none_in h f x y'
    end) s.
Proof using All.
  intros Hh Hx Htest.
  apply (wp_loop (fun '(y, i) s' => s' = s /\ i = Z.of_nat (digit h y) /\ block (S h) y = block (S h) x /\ x <= y < 2 ^ 32 /\ none_in h f x y)
    (fun '(y, i) => Z.to_nat (64 - i))); [do 3 (split; [done|]); split; [lia|]; intros j Hj; lia|lia|].
  intros [y i] s' (-> & -> & Hb & Hy & Hn). pose proof (digit_lt h y) as Hd. apply wp_bind. eapply wp_mono; [by apply Htest|].
  intros b s' [-> ->]. destruct (f (digit h y)) eqn:Ef; [by apply wp_ret|]. cbv zeta. rewrite next_block by lia.
  pose proof (next_block_bound h y Hh ltac:(lia)) as Hnb. pose proof (none_next _ _ _ _ Hn Hb Ef) as Hn'.
  set (y' := (block h y + 1) * 64 ^ Z.of_nat h) in *. change RADIX_TREE_MAP_SIZE with 64.
  destruct (Z.eqb_spec (u32 y') 0) as [E|E]; [apply wp_ret; split; [done|]; exists y'; split; [done|]; split; [lia|done]|].
  assert (y' <> 2 ^ 32) as Hne by (intros E'; by rewrite E' in E). rewrite (wrap_id 32 y') by (split; lia).
  destruct (Z.eqb_spec (Z.of_nat (digit h y) + 1) 64) as [E64|E64]; apply wp_ret.
  - split; [done|]. exists y'. rewrite wrap_id by (split; lia). split; [done|]. split; [lia|done].
  - assert (block h y' = block h y + 1) as Eb by (apply block_of; subst y'; pose proof (pow64_pos h); lia).
    pose proof (block_digit h y) as B1. pose proof (block_digit h y') as B2. pose proof (digit_lt h y') as Hd'.
    split; [|lia]. split; [done|]. split; [lia|]. split; [lia|]. split; [lia|done].
Qed.

Lemma seqZ_snoc x z : x <= z -> seqZ x (z + 1 - x) = seqZ x (z - x) ++ [z].
Proof using All. intros Hz'. replace (z + 1 - x) with ((z - x) + 1) by lia. rewrite seqZ_app by lia. f_equal. by replace (x + (z - x)) with z by lia. Qed.

(** The slots of a bottom node that pass the test from [x] up to [y]. *)
Definition slots_in (a : Z) (f : nat -> bool) (x y : Z) : list slot_ref :=
  (fun j => NodeSlot a (Z.of_nat (digit 0 j))) <$> filter (fun j => f (digit 0 j) = true) (seqZ x (y - x)).

Lemma slots_in_snoc a f x z :
  x <= z -> slots_in a f x (z + 1) = slots_in a f x z ++ (if f (digit 0 z) then [NodeSlot a (Z.of_nat (digit 0 z))] else []).
Proof using All.
  intros Hz'. unfold slots_in. rewrite seqZ_snoc, filter_app, fmap_app by lia. f_equal. rewrite filter_cons, filter_nil.
  by destruct (f (digit 0 z)).
Qed.

Lemma grab_ok test f a x max :
  0 <= x < 2 ^ 32 -> 0 < max -> (forall o, (o < 64)%nat -> wp (test (Z.of_nat o)) (fun b s' => b = f o /\ s' = s) s) ->
  wp (grab test a x (Z.land x RADIX_TREE_MAP_MASK) max) (fun '(found, y) s' => s' = s /\ exists y', y = u32 y' /\ x < y' <= 2 ^ 32 /\
    (forall j, x <= j < y' -> block 1 j = block 1 x) /\ found = slots_in a f x y' /\ Z.of_nat (length found) <= max) s.
Proof using All.
  intros Hx Hm Htest. pose proof (digit_code 0 x) as E0. rewrite Z.mul_0_r, Z.shiftr_0_r in E0. rewrite E0.
  pose proof (next_block_bound 1 x ltac:(lia) Hx) as Hnb. pose proof (block_bounds 1 x) as Hbb. change (64 ^ Z.of_nat 1) with 64 in *.
  pose proof (block_digit 0 x) as Bx. assert (forall j, block 0 j = j) as B0 by (intros j; unfold block; apply Z.div_1_r). rewrite B0 in Bx.
  apply (wp_loop (fun '(i, index, found) s' => s' = s /\ exists z, index = u32 z /\ x <= z /\ i = z - block 1 x * 64 /\ i <= 64 /\
    found = slots_in a f x z /\ Z.of_nat (length found) < max /\ (i = 64 -> x < z)) (fun '(i, _, _) => Z.to_nat (64 - i))).
  { split; [done|]. exists x. rewrite wrap_id by done. split; [done|]. split; [lia|]. pose proof (digit_lt 0 x). split; [lia|]. split; [lia|].
    unfold slots_in. rewrite Z.sub_diag. split; [done|]. split; [simpl; lia|lia]. }
  { lia. }
  intros [[i index] found] s' (-> & z & -> & Hxz & -> & Hi & -> & Hl & Hx').
  assert (forall y', y' <= block 1 x * 64 + 64 -> forall j, x <= j < y' -> block 1 j = block 1 x) as Hblk.
  { intros y' Hy' j Hj. apply block_of. change (64 ^ Z.of_nat 1) with 64. lia. }
  change RADIX_TREE_MAP_SIZE with 64. destruct (Z.ltb_spec (z - block 1 x * 64) 64) as [Hlt|Hge].
  2:{ apply wp_ret. split; [done|]. exists z. split; [done|]. split; [lia|]. split; [apply Hblk; lia|]. split; [done|lia]. }
  cbv zeta. rewrite wrap_add_l. assert (block 1 z = block 1 x) as Ebz by (apply (Hblk (z + 1)); lia). pose proof (block_digit 0 z) as Bz. rewrite B0 in Bz.
  assert (z - block 1 x * 64 = Z.of_nat (digit 0 z)) as -> by lia. pose proof (digit_lt 0 z) as Hd. pose proof (slots_in_snoc a f x z Hxz) as Es.
  apply wp_bind. eapply wp_mono; [by apply Htest|]. intros b s' [-> ->].
  destruct (f (digit 0 z)); [|rewrite app_nil_r in Es].
  - rewrite <- Es. destruct (Z.eqb_spec (Z.of_nat (length (slots_in a f x (z + 1)))) max) as [E|E]; apply wp_ret.
    + split; [done|]. exists (z + 1). split; [done|]. split; [lia|]. split; [apply Hblk; lia|]. split; [done|lia].
    + split; [|lia]. split; [done|]. exists (z + 1). split; [done|]. split; [lia|]. split; [lia|]. split; [lia|]. split; [done|]. split; [|lia].
      rewrite Es, length_app in E |- *. simpl in *. lia.
  - apply wp_ret. split; [|lia]. split; [done|]. exists (z + 1). split; [done|]. split; [lia|]. split; [lia|]. split; [lia|].
    rewrite Es. split; [done|]. split; [done|lia].
Qed.

(** ** What a lookup finds *)

Definition points (r : slot_ref) (p : Z) : Prop := wp (deref r) (fun q s' => q = p /\ s' = s) s /\ p <> NULL.

(** The slots found from [x] on hold the items wanted up to the index returned, which
    is 0 when the indices have come to their end. *)
Definition look_ok (x max : Z) (r : list slot_ref * Z) (s' : radix_state) : Prop :=
  s' = s /\ exists y, r.2 = u32 y /\ x < y <= 2 ^ 32 /\
    Forall2 points r.1 (omap wanted (seqZ x (y - x))) /\ Z.of_nat (length r.1) <= max.

Lemma omap_none (l : list Z) : (forall j, j ∈ l -> wanted j = None) -> omap wanted l = [].
Proof using All.
  induction l as [|j l IH]; intros Hl; [done|]. cbn. rewrite (Hl j) by left. apply IH. intros j' Hj'. apply Hl. by right.
Qed.

Lemma omap_range x z y : x <= z <= y -> (forall j, x <= j < z -> wanted j = None) -> omap wanted (seqZ x (y - x)) = omap wanted (seqZ z (y - z)).
Proof using All.
  intros Hz' Hn. replace (y - x) with ((z - x) + (y - z)) by lia. rewrite seqZ_app, omap_app by lia. rewrite (omap_none (seqZ x (z - x))).
  2:{ intros j Hj%elem_of_seqZ. apply Hn. lia. }
  by replace (x + (z - x)) with z by lia.
Qed.

Lemma block_lt k i j : (k <= H)%nat -> block k j = block k i -> i < 64 ^ Z.of_nat H -> j < 64 ^ Z.of_nat H.
Proof using All.
  intros Hk E Hi. pose proof (block_bounds k i) as Bi. pose proof (block_bounds k j) as Bj. rewrite E in Bj.
  assert (64 ^ Z.of_nat H = 64 ^ Z.of_nat (H - k) * 64 ^ Z.of_nat k) as Ep by (rewrite <- Z.pow_add_r by lia; f_equal; lia).
  rewrite Ep in Hi |- *. pose proof (pow64_pos k) as Hpos.
  assert (block k i < 64 ^ Z.of_nat (H - k)) by (apply (Z.mul_lt_mono_pos_r (64 ^ Z.of_nat k)); lia).
  eapply Z.lt_le_trans; [apply Bj|]. apply Z.mul_le_mono_nonneg_r; lia.
Qed.

Lemma wanted_none h c a tg kids x y :
  here (S h) c (RSub a tg kids) -> on_path (S h) c x = true -> 0 <= x -> none_in h (slot_hit tg kids) x y ->
  forall j, x <= j < y -> wanted j = None.
Proof using All.
  intros Hh Hp Hx Hn j Hj. destruct (Hn j Hj) as [Eb Ef].
  destruct (decide (j < 64 ^ Z.of_nat H)) as [Hlt|Hge]; [|unfold wanted; by rewrite (proj2 (Z.ltb_ge j _)), andb_false_r by lia].
  rewrite (wanted_here _ _ _ j Hh) by (lia || (rewrite <- Hp; by apply on_path_block)). rewrite hit_down.
  pose proof (hit_slot _ _ _ _ _ (digit h j) Hh (digit_lt h j)) as Hs. rewrite Ef in Hs. by rewrite Hs.
Qed.

(** The bottom level. *)
Lemma wanted_slot c a tg kids j :
  here 1 c (RSub a tg kids) -> on_path 1 c j = true -> 0 <= j < 64 ^ Z.of_nat H ->
  if slot_hit tg kids (digit 0 j) then exists p, wanted j = Some p /\ points (NodeSlot a (Z.of_nat (digit 0 j))) p else wanted j = None.
Proof using All.
  intros Hh Hp Hj. pose proof (hit_slot _ _ _ _ _ (digit 0 j) Hh (digit_lt 0 j)) as Hs. rewrite (wanted_here _ _ _ j Hh Hp Hj), hit_down. cbn [tget].
  pose proof (here_down _ _ _ _ _ _ Hh (digit_lt 0 j)) as (_ & (_ & _ & Hsk & _) & _).
  destruct (slot_hit tg kids (digit 0 j)) eqn:E; [|by rewrite Hs]. set (k := default RNull (kids !! digit 0 j)) in *.
  destruct (nonnull_ptr _ _ Hsk Hs) as [E0 Hnn]. exists (ptr k). destruct k as [|p|] eqn:Ek; [done| |done]. cbn [tget ptr] in *.
  split; [|split; [|done]].
  - unfold slot_hit, hit_at in *. destruct sel as [τ|]; cbn [cbit tagged tget]; [by rewrite E|by rewrite E0].
  - destruct Hh as (_ & Hz1 & _). eapply wp_get_slot; [exact Hz1|apply digit_lt|]. fold k. by rewrite Ek.
Qed.

Lemma slots_points c a tg kids x y :
  here 1 c (RSub a tg kids) -> on_path 1 c x = true -> 0 <= x < 64 ^ Z.of_nat H -> (forall j, x <= j < y -> block 1 j = block 1 x) ->
  Forall2 points (slots_in a (slot_hit tg kids) x y) (omap wanted (seqZ x (y - x))).
Proof using All.
  intros Hh Hp Hx Hb. unfold slots_in. pose proof Hh as (Hd & _).
  assert (Forall (fun j => on_path 1 c j = true /\ 0 <= j < 64 ^ Z.of_nat H) (seqZ x (y - x))) as HF.
  { apply Forall_forall. intros j Hj%elem_of_seqZ. specialize (Hb j ltac:(lia)). split; [rewrite <- Hp; by apply on_path_block|].
    split; [lia|]. eapply (block_lt 1); [lia|exact Hb|lia]. }
  induction HF as [|j l [Hpj Hj] _ IH]; [constructor|]. rewrite filter_cons. cbn. pose proof (wanted_slot _ _ _ _ _ Hh Hpj Hj) as Hw.
  destruct (slot_hit tg kids (digit 0 j)); simpl; [|by rewrite Hw]. destruct Hw as (p & -> & Hpt). by constructor.
Qed.

(** ** __lookup and __lookup_tag *)

Lemma present_ok h c a tg kids o :
  sel = None -> here (S h) c (RSub a tg kids) -> (o < 64)%nat ->
  wp (slot_present a (Z.of_nat o)) (fun b s' => b = slot_hit tg kids o /\ s' = s) s.
Proof using All.
  intros Es (_ & Hz1 & _) Ho. apply wp_bind. eapply wp_get_slot; [exact Hz1|exact Ho|]. apply wp_ret. unfold slot_hit. by rewrite Es.
Qed.

Lemma tagbit_ok τ h c a tg kids o :
  sel = Some τ -> here (S h) c (RSub a tg kids) -> (o < 64)%nat ->
  wp (tag_get a (Z.of_nat τ) (Z.of_nat o)) (fun b s' => b = slot_hit tg kids o /\ s' = s) s.
Proof using All.
  intros Es (_ & Hz1 & _) Ho. eapply wp_tag_get; [exact Hz1|]. unfold slot_hit. by rewrite Es.
Qed.

Lemma slot_tagged_ok τ h c a tg kids o :
  sel = Some τ -> here (S h) c (RSub a tg kids) -> (o < 64)%nat ->
  wp (slot_tagged a (Z.of_nat τ) (Z.of_nat o)) (fun b s' => b = slot_hit tg kids o /\ s' = s) s.
Proof using All.
  intros Es Hh Ho. pose proof (hit_slot _ _ _ _ _ o Hh Ho) as Hs. pose proof (here_down _ _ _ _ _ _ Hh Ho) as (_ & (_ & _ & Hsk & _) & _).
  apply wp_bind. eapply wp_mono; [by eapply tagbit_ok|]. intros b s' [-> ->]. destruct (slot_hit tg kids o); cbn [negb]; [|by apply wp_ret].
  apply wp_bind. pose proof Hh as (_ & Hz1 & _). eapply wp_get_slot; [exact Hz1|exact Ho|]. apply wp_ret. by rewrite (proj1 (nonnull_ptr _ _ Hsk Hs)).
Qed.

(** How far the search from [x] has come when it is at the node of height [S h] with
    the address [a] and at the index [y]. *)
Definition at_node (x : Z) (h : nat) (height shift a y : Z) : Prop :=
  exists c tg kids, height = Z.of_nat (S h) /\ shift = level_shift (S h) /\ here (S h) c (RSub a tg kids) /\
    on_path (S h) c y = true /\ 0 <= x <= y /\ y < 2 ^ 32 /\ y < 64 ^ Z.of_nat H /\ forall j, x <= j < y -> wanted j = None.

(** The search ends within a node. *)
Lemma out_ok x max h c a tg kids y z' :
  here (S h) c (RSub a tg kids) -> on_path (S h) c y = true -> 0 <= x <= y -> (forall j, x <= j < y -> wanted j = None) ->
  0 < max -> y < z' <= 2 ^ 32 -> none_in h (slot_hit tg kids) y z' -> look_ok x max ([], u32 z') s.
Proof using All.
  intros Hh Hp Hx Hn Hm Hz' Hn'. split; [done|]. exists z'. split; [done|]. split; [lia|]. split; [|simpl; lia].
  rewrite omap_none; [constructor|]. intros j Hj%elem_of_seqZ. destruct (decide (j < y)); [apply Hn; lia|].
  eapply (wanted_none _ _ _ _ _ y z' Hh Hp); [lia|done|lia].
Qed.

(** One level down after the slot is found. *)
Lemma down_ok x h c a tg kids y z :
  here (S (S h)) c (RSub a tg kids) -> on_path (S (S h)) c y = true -> 0 <= x <= y -> y < 64 ^ Z.of_nat H ->
  (forall j, x <= j < y -> wanted j = None) ->
  slot_hit tg kids (digit (S h) z) = true -> block (S (S h)) z = block (S (S h)) y -> y <= z < 2 ^ 32 -> none_in (S h) (slot_hit tg kids) y z ->
  wp (get_slot a (Z.of_nat (digit (S h) z))) (fun p s' => s' = s /\ (p =? NULL) = false /\
    at_node x h (Z.of_nat (S (S h)) - 1) (u32 (level_shift (S (S h)) - RADIX_TREE_MAP_SHIFT)) p z) s.
Proof using All.
  intros Hh Hp Hx Hy Hn Hs Hb Hyz Hn'. pose proof (hit_slot _ _ _ _ _ (digit (S h) z) Hh (digit_lt _ z)) as Hk. rewrite Hs in Hk.
  pose proof (here_down _ _ _ _ _ _ Hh (digit_lt (S h) z)) as Hd. pose proof Hh as (EH & Hz1 & _). eapply wp_get_slot; [exact Hz1|apply digit_lt|].
  pose proof Hd as (_ & (_ & _ & Hsk & _) & _). destruct (nonnull_ptr _ _ Hsk Hk) as [E _]. do 2 (split; [done|]). rewrite level_shift_next.
  destruct (default RNull (kids !! digit (S h) z)) as [| |a' tg' kids'] eqn:Ek; [done|by destruct Hsk|]. eexists _, tg', kids'.
  split; [lia|]. split; [done|]. split; [exact Hd|].
  split; [cbn [on_path]; rewrite bool_decide_true by done; cbn [andb]; rewrite <- Hp; by apply on_path_block|]. split; [lia|]. split; [lia|].
  split; [eapply (block_lt (S (S h))); [cbn [rdepth] in EH; lia|exact Hb|done]|].
  intros j Hj. destruct (decide (j < y)); [apply Hn; lia|]. eapply (wanted_none _ _ _ _ _ y z Hh Hp); [lia|done|lia].
Qed.

(** The items of the bottom node. *)
Lemma bottom_ok test x max c a tg kids y :
  here 1 c (RSub a tg kids) -> on_path 1 c y = true -> 0 <= x <= y -> y < 2 ^ 32 -> y < 64 ^ Z.of_nat H -> (forall j, x <= j < y -> wanted j = None) ->
  0 < max -> (forall o, (o < 64)%nat -> wp (test (Z.of_nat o)) (fun b s' => b = slot_hit tg kids o /\ s' = s) s) ->
  wp (grab test a y (Z.land y RADIX_TREE_MAP_MASK) max) (look_ok x max) s.
Proof using All.
  intros Hh Hp Hx Hy HyH Hn Hm Htest. eapply wp_mono; [apply (grab_ok test (slot_hit tg kids)); [lia|done|done]|].
  intros [found y2] s' (-> & y' & -> & Hy' & Hb & -> & Hl). split; [done|]. exists y'. split; [done|]. split; [lia|].
  split; [|done]. rewrite (omap_range x y y') by (lia || done). apply (slots_points c); [done|done|lia|done].
Qed.

Lemma top_node a tg kids x :
  T = RSub a tg kids -> 0 <= x < 2 ^ 32 -> x < 64 ^ Z.of_nat H -> exists h, (h < 6)%nat /\ at_node x h (Z.of_nat (S h)) (level_shift (S h)) a x /\
    node_at s !! a = Some (node_of (S h) tg (map ptr kids)).
Proof using All.
  intros ET Hx HxH. pose proof here_top as Hh0. rewrite ET in Hh0. assert (exists h, H = S h) as [h EH].
  { destruct Hh0 as (_ & (_ & _ & Hs & _) & _). clear - Hs. destruct H; [done|by eexists]. }
  rewrite EH in Hh0. exists h. split; [lia|]. split.
  - exists RTop, tg, kids. do 3 (split; [done|]). split; [done|]. split; [lia|]. split; [lia|]. split; [done|]. intros j Hj. lia.
  - destruct Hh0 as (_ & Hz0 & _). by apply zst_node in Hz0 as [? _].
Qed.

Lemma lookup_ok a tg kids x max :
  sel = None -> T = RSub a tg kids -> 0 <= x < 2 ^ 32 -> x < 64 ^ Z.of_nat H -> 0 < max -> wp (__lookup a x max) (look_ok x max) s.
Proof using All.
  intros Es ET Hx HxH Hm. destruct (top_node _ _ _ _ ET Hx HxH) as (h0 & Hh0 & Hat & Hnode). apply wp_bind. eapply wp_get_node; [exact Hnode|].
  cbn [height node_of]. rewrite (proj2 (Z.eqb_neq _ 0)) by lia. apply wp_bind. change (u32 ((Z.of_nat (S h0) - 1) * RADIX_TREE_MAP_SHIFT)) with (level_shift (S h0)).
  apply (wp_loop_depth (fun h '(height, shift, slot, y) s' => s' = s /\ at_node x h height shift slot y)) with (n := h0); [|by split|unfold path_fuel; lia].
  clear h0 Hh0 Hat Hnode tg kids ET a. intros h [[[height shift] a] y] s' (-> & c & tg & kids & -> & -> & Hh & Hp & Hxy & Hy & HyH & Hn).
  pose proof Hh as (EH & _). destruct h as [|h].
  { apply wp_ret. eapply (bottom_ok _ x max c); [exact Hh|done|lia|done|done|done|done|]. intros o Ho. by apply (present_ok 0 c). }
  rewrite (proj2 (Z.ltb_lt 1 _)) by lia. rewrite level_digit by lia. apply wp_bind.
  eapply wp_mono; [apply (skip_ok _ (slot_hit tg kids)); [lia|lia|]; intros o Ho; by apply (present_ok (S h) c)|].
  intros [z [i|]] s'.
  - intros (-> & -> & Hs & Hb & Hyz & Hn'). apply wp_bind.
    eapply wp_mono; [apply (down_ok x h c a tg kids y z Hh Hp Hxy HyH Hn Hs Hb Hyz Hn')|].
    intros p s' (-> & -> & Hat). apply wp_ret. exists h. split; [lia|]. done.
  - intros (-> & z' & -> & Hz' & Hn'). apply wp_ret. by apply wp_ret, (out_ok x max (S h) c a tg kids y).
Qed.

Lemma lookup_tag_ok τ a tg kids x max :
  sel = Some τ -> T = RSub a tg kids -> 0 <= x < 2 ^ 32 -> x < 64 ^ Z.of_nat H -> 0 < max ->
  wp (__lookup_tag a x max (Z.of_nat τ)) (look_ok x max) s.
Proof using All.
  intros Es ET Hx HxH Hm. destruct (top_node _ _ _ _ ET Hx HxH) as (h0 & Hh0 & Hat & Hnode). apply wp_bind. eapply wp_get_node; [exact Hnode|].
  cbn [height node_of]. rewrite (proj2 (Z.eqb_neq _ 0)) by lia. change (u32 ((Z.of_nat (S h0) - 1) * RADIX_TREE_MAP_SHIFT)) with (level_shift (S h0)).
  apply (wp_loop_depth (fun h '(height, shift, slot, y) s' => s' = s /\ at_node x h height shift slot y)) with (n := h0); [|by split|unfold path_fuel; lia].
  clear h0 Hh0 Hat Hnode tg kids ET a. intros h [[[height shift] a] y] s' (-> & c & tg & kids & -> & -> & Hh & Hp & Hxy & Hy & HyH & Hn).
  pose proof Hh as (EH & Hz1 & _). rewrite (proj2 (Z.ltb_lt 0 _)) by lia. rewrite level_digit by lia. apply wp_bind.
  eapply wp_mono; [apply (skip_ok _ (slot_hit tg kids)); [lia|lia|]; intros o Ho; by apply (tagbit_ok τ h c)|].
  intros [z [i|]] s'.
  - intros (-> & -> & Hs & Hb & Hyz & Hn'). cbv zeta. destruct h as [|h].
    + assert (on_path 1 c z = true) as Hpz by (rewrite <- Hp; by apply on_path_block). cbn [Z.of_nat Pos.of_succ_nat Z.sub Z.add Z.opp Z.pos_sub Z.eqb].
      apply wp_bind. eapply wp_mono; [eapply (bottom_ok _ x max c); [exact Hh|done|lia|lia|by eapply (block_lt 1); [lia|exact Hb|]| |done|]|].
      * intros j Hj. destruct (decide (j < y)); [apply Hn; lia|]. eapply (wanted_none _ _ _ _ _ y z Hh Hp); [lia|done|lia].
      * intros o Ho. by apply (slot_tagged_ok τ 0 c).
      * intros [found y2] s' Hl. pose proof Hl as (-> & _). destruct (_ =? max); [by apply wp_ret|]. apply wp_bind.
        eapply wp_get_slot; [exact Hz1|apply digit_lt|]. by apply wp_ret.
    + rewrite (proj2 (Z.eqb_neq _ 0)) by lia. apply wp_bind. eapply wp_mono; [apply (down_ok x h c a tg kids y z Hh Hp Hxy HyH Hn Hs Hb Hyz Hn')|].
      intros p s' (-> & -> & Hat). apply wp_ret. exists h. split; [lia|]. done.
  - intros (-> & z' & -> & Hz' & Hn'). apply wp_ret. by apply (out_ok x max h c a tg kids y).
Qed.

(** ** The loops of the gang lookups *)

Lemma load_slots_ok found items :
  Forall2 points found items -> wp (load_slots found) (fun l s' => l = items /\ s' = s) s.
Proof using All.
  induction 1 as [|r p found items [Hp Hn] _ IH]; [by apply wp_ret|]. cbn [load_slots]. apply wp_bind. eapply wp_mono; [exact Hp|].
  intros q s' [-> ->]. apply wp_bind. eapply wp_mono; [exact IH|]. intros l s' [-> ->]. apply wp_ret. by rewrite (proj2 (Z.eqb_neq _ _)).
Qed.

(** All the items wanted from an index on. *)
Definition listing (first : Z) : list Z := omap wanted (seqZ first (2 ^ 32 - first)).

Lemma listing_app first y : first <= y <= 2 ^ 32 -> listing first = omap wanted (seqZ first (y - first)) ++ listing y.
Proof using All.
  intros Hy. unfold listing. replace (2 ^ 32 - first) with ((y - first) + (2 ^ 32 - y)) by lia. rewrite seqZ_app, omap_app by lia.
  by replace (first + (y - first)) with y by lia.
Qed.

Lemma listing_end y : 64 ^ Z.of_nat H <= y -> listing y = [].
Proof using All.
  intros Hy. apply omap_none. intros j Hj%elem_of_seqZ. unfold wanted. rewrite (proj2 (Z.ltb_ge j _)) by lia. by rewrite andb_false_r.
Qed.

Context (look : Z -> Z -> RM (list slot_ref * Z)) (max_index : Z).
Context (Hlook : forall x max, 0 <= x < 2 ^ 32 -> x < 64 ^ Z.of_nat H -> 0 < max -> wp (look x max) (look_ok x max) s).
Context (Hmax : forall j, 0 <= j < 2 ^ 32 -> (max_index <? j) = negb (j <? 64 ^ Z.of_nat H)).

(** The results so far are the items wanted up to the current index. *)
Definition gang_inv (first max cur : Z) (l : list Z) : Prop :=
  0 <= first <= cur /\ cur < 2 ^ 32 /\ l = omap wanted (seqZ first (cur - first)) /\ Z.of_nat (length l) <= max.

Lemma gang_full first max cur l :
  gang_inv first max cur l -> max <= Z.of_nat (length l) -> l = take (Z.to_nat max) (listing first).
Proof using All.
  intros (Hc & Hc' & E & Hl) Hf. rewrite (listing_app first cur), <- E by lia. by rewrite take_app_length' by lia.
Qed.

Lemma gang_past first max cur l :
  gang_inv first max cur l -> 64 ^ Z.of_nat H <= cur -> l = take (Z.to_nat max) (listing first).
Proof using All.
  intros (Hc & Hc' & E & Hl) Hge. rewrite (listing_app first cur), <- E, listing_end, app_nil_r, take_ge by lia. done.
Qed.

Lemma gang_next first max cur l y items :
  gang_inv first max cur l -> cur < y <= 2 ^ 32 -> items = omap wanted (seqZ cur (y - cur)) -> Z.of_nat (length items) <= max - Z.of_nat (length l) ->
  if u32 y =? 0 then l ++ items = take (Z.to_nat max) (listing first) else gang_inv first max (u32 y) (l ++ items) /\ cur < u32 y.
Proof using All.
  intros (Hc & Hc' & E & Hl) Hy -> Hi. assert (l ++ omap wanted (seqZ cur (y - cur)) = omap wanted (seqZ first (y - first))) as Ea.
  { rewrite E, <- omap_app. f_equal. replace (y - first) with ((cur - first) + (y - cur)) by lia. rewrite seqZ_app by lia. do 2 f_equal. lia. }
  rewrite Ea. destruct (decide (y = 2 ^ 32)) as [->|Hne].
  - change (u32 (2 ^ 32) =? 0) with true. fold (listing first). rewrite take_ge; [done|]. unfold listing. rewrite <- Ea, length_app. lia.
  - rewrite wrap_id by (split; lia). rewrite (proj2 (Z.eqb_neq _ 0)) by lia. split; [|lia]. split; [lia|]. split; [lia|]. split; [done|]. rewrite <- Ea, length_app. lia.
Qed.

Lemma gang_items_ok first max :
  0 <= first < 2 ^ 32 -> 0 < max ->
  wp (gang_items look first max_index max) (fun l s' => l = take (Z.to_nat max) (listing first) /\ s' = s) s.
Proof using All.
  intros Hf Hm. apply (wp_long_loop (fun '(cur, l) s' => s' = s /\ gang_inv first max cur l) (fun '(cur, _) => 2 ^ 32 - cur)); [|lia|].
  { split; [done|]. split; [lia|]. split; [lia|]. rewrite Z.sub_diag. split; [done|simpl; lia]. }
  intros [cur l] s' (-> & Hinv). pose proof Hinv as (Hc & Hc' & _ & Hl). split; [lia|]. cbv zeta.
  destruct (Z.ltb_spec (Z.of_nat (length l)) max) as [Hlt|Hge]; [|apply wp_ret; split; [by eapply gang_full|done]].
  rewrite Hmax by lia. destruct (Z.ltb_spec cur (64 ^ Z.of_nat H)) as [HcH|HcH]; cbn [negb]; [|apply wp_ret; split; [by eapply gang_past|done]].
  apply wp_bind. eapply wp_mono; [apply Hlook; lia|]. intros [found y2] s' (-> & y & E & Hy & HF & Hlen). cbn [fst snd] in *. subst y2.
  apply wp_bind. eapply wp_mono; [by apply load_slots_ok|]. intros items s' [-> ->]. rewrite (Forall2_length _ _ _ HF) in Hlen.
  pose proof (gang_next _ _ _ _ y _ Hinv Hy eq_refl Hlen) as Hnext. destruct (u32 y =? 0); apply wp_ret; [done|]. split; [|lia]. split; [done|]. apply Hnext.
Qed.

Lemma gang_slots_ok first max :
  0 <= first < 2 ^ 32 -> 0 < max ->
  wp (gang_slots look first max_index max) (fun r s' => Forall2 points r (take (Z.to_nat max) (listing first)) /\ s' = s) s.
Proof using All.
  intros Hf Hm. apply (wp_long_loop (fun '(cur, r) s' => s' = s /\ exists l, Forall2 points r l /\ gang_inv first max cur l) (fun '(cur, _) => 2 ^ 32 - cur)); [|lia|].
  { split; [done|]. exists []. split; [constructor|]. split; [lia|]. split; [lia|]. rewrite Z.sub_diag. split; [done|simpl; lia]. }
  intros [cur r] s' (-> & l & HF & Hinv). pose proof Hinv as (Hc & Hc' & _ & Hl). split; [lia|]. cbv zeta. rewrite (Forall2_length _ _ _ HF).
  destruct (Z.ltb_spec (Z.of_nat (length l)) max) as [Hlt|Hge]; [|apply wp_ret; split; [by rewrite <- (gang_full _ _ _ _ Hinv Hge)|done]].
  rewrite Hmax by lia. destruct (Z.ltb_spec cur (64 ^ Z.of_nat H)) as [HcH|HcH]; cbn [negb];
    [|apply wp_ret; split; [by rewrite <- (gang_past _ _ _ _ Hinv HcH)|done]].
  apply wp_bind. eapply wp_mono; [apply Hlook; lia|]. intros [found y2] s' (-> & y & E & Hy & HF' & Hlen). cbn [fst snd] in *. subst y2.
  rewrite (Forall2_length _ _ _ HF') in Hlen. pose proof (gang_next _ _ _ _ y _ Hinv Hy eq_refl Hlen) as Hnext.
  pose proof (Forall2_app HF HF') as HFa. destruct (u32 y =? 0); apply wp_ret; [split; [by rewrite <- Hnext|done]|].
  split; [|lia]. split; [done|]. eexists. split; [exact HFa|]. apply Hnext.
Qed.
End Gang.

(** ** The routines *)

(** The item that a map has at an index, if it is one of those looked for. *)
Definition select (sel : option nat) (m : index_map) (j : Z) : option Z :=
  e ← m !! j;
  match sel with
  | None => Some e.1.1
  | Some τ => if has_tag τ e then Some e.1.1 else None
  end.

(** All of them from an index on, in ascending order. *)
Definition select_from (sel : option nat) (m : index_map) (first : Z) : list Z := omap (select sel m) (seqZ first (2 ^ 32 - first)).

Section Routines.
Context (s : radix_state) (H : nat) (T : rtree) (g : Z) (F : list (Z * radix_tree_node)) (P D : list Z).
Context (Hz : zst s H RTop T g F P D) (HH : (H <= 6)%nat) (Htg : tags_ok H g T).

Lemma wanted_select sel m :
  match sel with Some τ => (τ < 2)%nat | None => True end -> (forall i, m !! i = tview H g T i) -> forall j, wanted H T g sel j = select sel m j.
Proof using All.
  intros Hsel Hm j. unfold wanted, select, tview, hit_at in *. rewrite Hm. destruct ((0 <=? j) && (j <? 64 ^ Z.of_nat H)); cbn [andb]; [|done].
  destruct sel as [τ|]; [|by destruct (tget H T j =? NULL)]. cbn [cbit]. pose proof Hz as (_ & _ & Hs & _).
  destruct (tagged τ H (gtag g τ) T j) eqn:E.
  - rewrite (proj2 (Z.eqb_neq _ _)) by (by eapply tagged_present). cbn. by destruct τ as [|[|]]; [rewrite E|rewrite E|lia].
  - destruct (tget H T j =? NULL); [done|]. cbn. by destruct τ as [|[|]]; [rewrite E|rewrite E|lia].
Qed.

Lemma listing_select sel m first :
  match sel with Some τ => (τ < 2)%nat | None => True end -> (forall i, m !! i = tview H g T i) -> listing H T g sel first = select_from sel m first.
Proof using All.
  intros Hsel Hm. unfold listing, select_from. generalize (seqZ first (2 ^ 32 - first)) as l.
  induction l as [|j l IH]; [done|]. cbn. by rewrite (wanted_select sel m Hsel Hm), IH.
Qed.

Lemma routine_ok {A} sel (empty : A) (root_case : Z -> A) (node_case : Z -> Z -> RM A) (good : A -> list Z -> Prop) first max :
  match sel with Some τ => (τ < 2)%nat /\ gtag g τ = true | None => True end -> 0 <= first < 2 ^ 32 -> 0 < max ->
  good empty [] -> (forall p, T = RItem p -> good (root_case p) [p]) ->
  (forall a tg kids v, T = RSub a tg kids -> (forall j, 0 <= j < 2 ^ 32 -> (v <? j) = negb (j <? 64 ^ Z.of_nat H)) ->
     wp (node_case a v) (fun r s' => good r (take (Z.to_nat max) (listing H T g sel first)) /\ s' = s) s) ->
  wp (r ← get_root;
      let node := rnode r in
      if node =? NULL then mret empty else
      if negb (radix_tree_is_indirect_ptr node) then
        if 0 <? first then mret empty else mret (root_case node)
      else
      let node := radix_tree_indirect_to_ptr node in
      n ← get_node node;
      max_index ← radix_tree_maxindex (height n);
      node_case node max_index)
    (fun r s' => good r (take (Z.to_nat max) (listing H T g sel first)) /\ s' = s) s.
Proof using All.
  intros Hsel Hf Hm G0 G1 G2. assert (match sel with Some τ => (τ < 2)%nat | None => True end) as Hsel' by (destruct sel; [apply Hsel|done]).
  apply wp_bind. eapply get_root_zst; [exact Hz|]. cbn [rnode rdepth rplug]. rewrite Nat.add_0_r.
  pose proof Hz as (_ & _ & Hs & _). cbv zeta. rewrite root_null by done. destruct (decide (T = RNull)) as [E|Hn].
  { rewrite E at 1. cbn [ptr Z.eqb NULL]. apply wp_ret. split; [|done].
    unfold listing.
    rewrite (omap_none s H T g F P D Hz HH Htg sel Hsel'); [by rewrite take_nil|]. intros j _. unfold wanted, hit_at. rewrite E, tget_null.
    destruct sel as [τ|]; rewrite ?tagged_null, ?andb_false_r; done. }
  destruct (nonnull_ptr _ _ Hs Hn) as [-> _]. destruct (shape_ptr _ _ Hs) as [|He]; [done|].
  assert (T = RItem (ptr T) /\ H = 0%nat \/ exists a tg kids h, T = RSub a tg kids /\ H = S h) as [[ET E0]|(a & tg & kids & h & ET & EH)].
  { clear - Hs Hn. destruct T as [|p|a tg kids], H as [|h]; try done; [by left|right; by eexists _, _, _, _]. }
  - replace (root_ptr H (ptr T)) with (ptr T) by (by rewrite E0). rewrite (proj1 (indirect_flag _ He)). cbn [negb].
    assert (forall y, 1 <= y -> listing H T g sel y = []) as Hend.
    { intros y Hy. apply (listing_end s H T g F P D Hz HH Htg sel Hsel'). by rewrite E0. }
    destruct (Z.ltb_spec 0 first); apply wp_ret; (split; [|done]); [by rewrite Hend, take_nil by lia|].
    assert (first = 0) as -> by lia. rewrite (listing_app s H T g F P D Hz HH Htg sel Hsel' 0 1), Hend, app_nil_r by lia.
    change (seqZ 0 (1 - 0)) with [0]. cbn [omap list_omap]. assert (wanted H T g sel 0 = Some (ptr T)) as ->.
    { unfold wanted, hit_at. rewrite E0, ET. cbn. destruct sel as [τ|]; cbn; [by rewrite (proj2 Hsel)|]. rewrite (proj1 (even_nonnull _ He)). done. }
    rewrite take_ge by (simpl; lia). by apply G1.
  - replace (root_ptr H (ptr T)) with (radix_tree_ptr_to_indirect (ptr T)) by (rewrite EH; cbn [root_ptr]; by rewrite (proj1 (even_nonnull _ He))).
    rewrite (proj2 (indirect_flag _ He)), (proj2 (even_land _ He)). cbn [negb].
    pose proof Hz as Hz'. rewrite ET, EH in Hz'. pose proof (zst_node _ _ _ _ _ _ _ _ _ _ Hz') as (Hnode & _).
    rewrite ET at 1. cbn [ptr]. apply wp_bind. eapply wp_get_node; [exact Hnode|]. cbn [height node_of].
    destruct (maxindex_table (S h) ltac:(lia)) as (v & Hv & Hb). apply wp_bind. unfold radix_tree_maxindex. rewrite Nat2Z.id, Hv. apply wp_ret.
    rewrite ET at 1. cbn [ptr]. rewrite <- EH in Hb. by eapply G2.
Qed.

(** The two kinds of results. *)
Definition is_items (r : list Z) (l : list Z) : Prop := r = l.
Definition is_slots (r : list slot_ref) (l : list Z) : Prop := Forall2 (points s) r l.

Lemma plain_ok {A} (good : A -> list Z -> Prop) (empty : A) (root_case : Z -> A) (gang : (Z -> Z -> RM (list slot_ref * Z)) -> Z -> Z -> Z -> RM A) first max :
  0 <= first < 2 ^ 32 -> 0 < max -> good empty [] -> (forall p, T = RItem p -> good (root_case p) [p]) ->
  (forall look v, (forall x max, 0 <= x < 2 ^ 32 -> x < 64 ^ Z.of_nat H -> 0 < max -> wp (look x max) (look_ok s H T g None x max) s) ->
     (forall j, 0 <= j < 2 ^ 32 -> (v <? j) = negb (j <? 64 ^ Z.of_nat H)) ->
     wp (gang look first v max) (fun r s' => good r (take (Z.to_nat max) (listing H T g None first)) /\ s' = s) s) ->
  wp (r ← get_root;
      let node := rnode r in
      if node =? NULL then mret empty else
      if negb (radix_tree_is_indirect_ptr node) then
        if 0 <? first then mret empty else mret (root_case node)
      else
      let node := radix_tree_indirect_to_ptr node in
      n ← get_node node;
      max_index ← radix_tree_maxindex (height n);
      gang (__lookup node) first max_index max)
    (fun r s' => good r (take (Z.to_nat max) (listing H T g None first)) /\ s' = s) s.
Proof using All.
  intros Hf Hm G0 G1 G2. apply (routine_ok None empty root_case (fun node v => gang (__lookup node) first v max)); try done.
  intros a tg kids v ET Hv. apply G2; [|done]. intros x max' Hx HxH Hm'. by eapply (lookup_ok s H T g F P D Hz HH Htg None I).
Qed.

Lemma tag_ok_routine {A} (good : A -> list Z -> Prop) (empty : A) (root_case : Z -> A) (gang : (Z -> Z -> RM (list slot_ref * Z)) -> Z -> Z -> Z -> RM A) τ first max :
  (τ < 2)%nat -> 0 <= first < 2 ^ 32 -> 0 < max -> good empty [] -> (forall p, T = RItem p -> good (root_case p) [p]) ->
  (forall look v, (forall x max, 0 <= x < 2 ^ 32 -> x < 64 ^ Z.of_nat H -> 0 < max -> wp (look x max) (look_ok s H T g (Some τ) x max) s) ->
     (forall j, 0 <= j < 2 ^ 32 -> (v <? j) = negb (j <? 64 ^ Z.of_nat H)) ->
     wp (gang look first v max) (fun r s' => good r (take (Z.to_nat max) (listing H T g (Some τ) first)) /\ s' = s) s) ->
  wp (t ← root_tag_get (Z.of_nat τ);
      if negb (t : bool) then mret empty else
      r ← get_root;
      let node := rnode r in
      if node =? NULL then mret empty else
      if negb (radix_tree_is_indirect_ptr node) then
        if 0 <? first then mret empty else mret (root_case node)
      else
      let node := radix_tree_indirect_to_ptr node in
      n ← get_node node;
      max_index ← radix_tree_maxindex (height n);
      gang (fun index max_items => __lookup_tag node index max_items (Z.of_nat τ)) first max_index max)
    (fun r s' => good r (take (Z.to_nat max) (listing H T g (Some τ) first)) /\ s' = s) s.
Proof using All.
  intros Hτ Hf Hm G0 G1 G2. apply wp_bind. eapply wp_root_tag_get; [exact Hz|]. destruct (gtag g τ) eqn:Eg; cbn [negb].
  - apply (routine_ok (Some τ) empty root_case (fun node v => gang (fun index max_items => __lookup_tag node index max_items (Z.of_nat τ)) first v max)); try done.
    intros a tg kids v ET Hv. apply G2; [|done]. intros x max' Hx HxH Hm'. by eapply (lookup_tag_ok s H T g F P D Hz HH Htg (Some τ) Hτ).
  - apply wp_ret. split; [|done]. unfold listing. rewrite (omap_none s H T g F P D Hz HH Htg (Some τ) Hτ); [by rewrite take_nil|].
    intros j _. unfold wanted, hit_at. cbn [cbit]. destruct (tagged τ H (gtag g τ) T j) eqn:E; [|by rewrite andb_false_r].
    apply tagged_any in E; [congruence|by apply Htg].
Qed.

Lemma root_points p : T = RItem p -> points s RootSlot p.
Proof using All.
  intros ET. pose proof Hz as (_ & _ & Hs & _). rewrite ET in Hs. assert (H = 0%nat /\ even_ptr p) as [E0 He] by (clear - Hs; by destruct H).
  split; [|by apply even_nonnull]. apply wp_bind. eapply get_root_zst; [exact Hz|]. apply wp_ret. cbn [rnode rdepth rplug]. rewrite Nat.add_0_r, E0, ET. done.
Qed.

Lemma gangs_ok τ first max :
  (τ < 2)%nat -> 0 <= first < 2 ^ 32 -> 0 < max ->
  wp (radix_tree_gang_lookup first max) (fun r s' => is_items r (take (Z.to_nat max) (listing H T g None first)) /\ s' = s) s /\
  wp (radix_tree_gang_lookup_slot first max) (fun r s' => is_slots r (take (Z.to_nat max) (listing H T g None first)) /\ s' = s) s /\
  wp (radix_tree_gang_lookup_tag first max (Z.of_nat τ)) (fun r s' => is_items r (take (Z.to_nat max) (listing H T g (Some τ) first)) /\ s' = s) s /\
  wp (radix_tree_gang_lookup_tag_slot first max (Z.of_nat τ)) (fun r s' => is_slots r (take (Z.to_nat max) (listing H T g (Some τ) first)) /\ s' = s) s.
Proof using All.
  intros Hτ Hf Hm. assert (forall p, T = RItem p -> is_slots [RootSlot] [p]) as Hr by (intros p ET; constructor; [by apply root_points|constructor]).
  split; [|split; [|split]].
  - apply (plain_ok is_items [] (fun p => [p]) gang_items); try done. intros look v Hl Hv. by apply (gang_items_ok s H T g F P D Hz HH Htg None I).
  - apply (plain_ok is_slots [] (fun _ => [RootSlot]) gang_slots); try done; [constructor|]. intros look v Hl Hv. by apply (gang_slots_ok s H T g F P D Hz HH Htg None I).
  - apply (tag_ok_routine is_items [] (fun p => [p]) gang_items); try done. intros look v Hl Hv. by apply (gang_items_ok s H T g F P D Hz HH Htg (Some τ) Hτ).
  - apply (tag_ok_routine is_slots [] (fun _ => [RootSlot]) gang_slots); try done; [constructor|]. intros look v Hl Hv. by apply (gang_slots_ok s H T g F P D Hz HH Htg (Some τ) Hτ).
Qed.
End Routines.

(** C34: The gang lookups return, in ascending order of their indices, the first
    max_items items from first_index on, of all the items or of those with the tag;
    they stop at the end of the indices where the counter wraps to 0, and change
    nothing.  The slot variants return the addresses of the slots of these items. *)
Theorem radix_tree_gang_lookups s m τ first max :
  rep s m -> (τ < 2)%nat -> 0 <= first < 2 ^ 32 -> 0 < max ->
  radix_tree_gang_lookup first max s = Ok (take (Z.to_nat max) (select_from None m first), s) /\
  radix_tree_gang_lookup_tag first max (Z.of_nat τ) s = Ok (take (Z.to_nat max) (select_from (Some τ) m first), s) /\
  (exists r, radix_tree_gang_lookup_slot first max s = Ok (r, s) /\ load_slots r s = Ok (take (Z.to_nat max) (select_from None m first), s)) /\
  (exists r, radix_tree_gang_lookup_tag_slot first max (Z.of_nat τ) s = Ok (r, s) /\ load_slots r s = Ok (take (Z.to_nat max) (select_from (Some τ) m first), s)).
Proof.
  intros [(H & T & g & P & D & (HH & Htg & F & Hz & _) & Hm) _] Hτ Hf Hx.
  pose proof (listing_select s H T g F P D Hz HH Htg None m first I Hm) as E0. pose proof (listing_select s H T g F P D Hz HH Htg (Some τ) m first Hτ Hm) as E1.
  destruct (gangs_ok s H T g F P D Hz HH Htg τ first max Hτ Hf Hx) as (H1 & H2 & H3 & H4). rewrite E0 in H1, H2. rewrite E1 in H3, H4.
  split; [by apply wp_eq|]. split; [by apply wp_eq|].
  split; [destruct (wp_run _ _ _ H2) as (r & s' & E & HF & ->)|destruct (wp_run _ _ _ H4) as (r & s' & E & HF & ->)];
    exists r; (split; [done|]); apply wp_eq; [by apply (load_slots_ok s H T g F P D Hz HH Htg None I)|by apply (load_slots_ok s H T g F P D Hz HH Htg None I)].
Qed.

(** A tree whose only item is at index 0 gives one item also when none is asked for. *)
Lemma gang_lookup_zero :
  exists s, radix_tree_insert 0 4096 (fresh_root 0 []) = Ok (0, s) /\ radix_tree_gang_lookup 0 0 s = Ok ([4096], s).
Proof. eexists. split; [vm_compute; reflexivity|]. vm_compute. reflexivity. Qed.

(** ** radix_tree_lookup_slot *)

Lemma lookup_slot_down s h a tg kids c g F P D i :
  zst s (S h) c (RSub a tg kids) g F P D -> (h < 6)%nat ->
  wp (loop path_fuel (fun '(height, shift, node) =>
        let offset := Z.land (Z.shiftr i shift) RADIX_TREE_MAP_MASK in
        let slot := NodeSlot node offset in
        node ← get_slot node offset;
        if node =? NULL then break None else
        let height := u32 (height - 1) in
        if 0 <? height then continue (height, u32 (shift - RADIX_TREE_MAP_SHIFT), node)
        else break (Some slot)) (Z.of_nat (S h), level_shift (S h), a))
    (fun r s' => s' = s /\ match r with Some x => points s x (tget (S h) (RSub a tg kids) i) | None => tget (S h) (RSub a tg kids) i = NULL end) s.
Proof.
  intros H Hh. set (v := tget _ _ _).
  eapply (wp_loop_depth (fun n '(height, shift, node) s' => s' = s /\ (n < 6)%nat /\ exists a tg kids c,
    height = Z.of_nat (S n) /\ shift = level_shift (S n) /\ node = a /\ zst s (S n) c (RSub a tg kids) g F P D /\
    tget (S n) (RSub a tg kids) i = v)); [|split; [done|]; split; [exact Hh|]; eauto 10|unfold path_fuel; lia].
  clearbody v. clear H a tg kids c h Hh. intros n [[height shift] node] s' (-> & Hn & a & tg & kids & c & -> & -> & -> & H & Hv). cbn [tget] in Hv.
  cbv zeta. rewrite level_digit by done. apply wp_bind. eapply wp_get_slot; [exact H|apply digit_lt|].
  pose proof (zst_down _ _ _ _ _ _ _ _ _ _ _ (digit_lt n i) H) as Hd. set (k := default RNull (kids !! digit n i)) in *.
  pose proof Hd as (_ & _ & Hk & _). destruct (decide (k = RNull)) as [E|E].
  { rewrite E. apply wp_ret. split; [done|]. by rewrite <- Hv, E, tget_null. }
  destruct (nonnull_ptr _ _ Hk E) as [E0 Hnn]. rewrite E0.
  replace (u32 (Z.of_nat (S n) - 1)) with (Z.of_nat n) by (rewrite wrap_id by (unfold fits; lia); lia).
  destruct n as [|n].
  - apply wp_ret. split; [done|]. subst v. split; [eapply wp_get_slot; [exact H|apply digit_lt|]|]; fold k; by destruct k as [|p|].
  - rewrite (proj2 (Z.ltb_lt 0 _)) by lia. apply wp_ret. exists n. split; [lia|]. split; [done|]. split; [lia|].
    destruct k as [| |a' tg' kids'] eqn:Ek; [done|by destruct Hk|]. exists a', tg', kids'. eexists.
    split; [lia|]. split; [apply level_shift_next|]. split; [done|]. split; [exact Hd|done].
Qed.

(** radix_tree_lookup_slot returns the address of the slot that holds the item, NULL
    when there is none. *)
Theorem radix_tree_lookup_slot_ok s m i :
  rep s m -> 0 <= i < 2 ^ 32 ->
  wp (radix_tree_lookup_slot i) (fun r s' => s' = s /\ match r with Some x => points s x (item_of (m !! i)) | None => m !! i = None end) s.
Proof.
  intros [(H & T & g & P & D & (HH & Htg & F & Hz & _) & Hm) _] Hi. rewrite Hm. pose proof Hz as (_ & _ & Hs & _).
  apply wp_bind. eapply get_root_zst; [exact Hz|]. cbn [rnode rdepth rplug]. rewrite Nat.add_0_r. cbv zeta. rewrite root_null by done.
  destruct (decide (T = RNull)) as [->|Hn]; [apply wp_ret; split; [done|]; by apply tview_none, tget_null|].
  destruct (nonnull_ptr _ _ Hs Hn) as [-> _]. destruct (shape_ptr _ _ Hs) as [|He]; [done|].
  destruct H as [|h].
  - destruct T as [|p|]; try done. cbn [root_ptr ptr] in *. rewrite (proj1 (indirect_flag _ He)). cbn [negb].
    destruct (Z.ltb_spec 0 i); apply wp_ret; (split; [done|]); [apply tview_out; simpl; lia|].
    assert (i = 0) as -> by lia. rewrite item_of_view by done. split; [|by apply even_nonnull]. apply wp_bind. eapply get_root_zst; [exact Hz|]. by apply wp_ret.
  - destruct T as [| |a tg kids]; try done. cbn [root_ptr ptr] in *. rewrite (proj1 (even_nonnull _ He)).
    rewrite (proj2 (indirect_flag _ He)), (proj2 (even_land _ He)). cbn [negb].
    apply wp_bind. eapply wp_get_node; [apply (zst_node _ _ _ _ _ _ _ _ _ _ Hz)|]. cbn [height node_of].
    apply wp_bind, (wp_maxindex _ i); [done|done|]. intros v ->. destruct (Z.ltb_spec i (64 ^ Z.of_nat (S h))); cbn [negb];
      [|apply wp_ret; split; [done|]; apply tview_out; lia].
    eapply wp_mono; [apply (lookup_slot_down _ _ _ _ _ _ _ _ _ _ i Hz); lia|]. intros [x|] s' [-> Hx]; (split; [done|]); [|by apply tview_none].
    by rewrite item_of_view by lia.
Qed.

(** ** Witnesses *)

Definition gang_caller : caller :=
  Ask (Insert 3 4096) (fun _ => Ask (Insert (2 ^ 32 - 1) 8192) (fun _ => Ask (Insert 7 12288) (fun _ => Done))).

Definition gang_state : radix_state :=
  match serve_all gang_caller (fresh_root 0 sample_nodes) with Ok (_, s) => s | Fault _ => fresh_root 0 sample_nodes end.

Lemma gang_results : radix_tree_gang_lookup 4 10 gang_state = Ok ([12288; 8192], gang_state).
Proof. vm_compute. reflexivity. Qed.

Lemma gang_state_ok : exists m, rep gang_state m.
Proof.
  pose proof sample_nodes_ok as [Hn He]. assert (fits __GFP_BITS_SHIFT 0) as Hg by done.
  assert (well_behaved ∅ gang_caller) as Hc.
  { split; [split; [lia|done]|]. intros r1 m1 _. split; [split; [lia|done]|]. intros r2 m2 _. split; [split; [lia|done]|]. done. }
  pose proof (serve_all_ok gang_caller _ _ (fresh_rep 0 sample_nodes Hg Hn He) Hc) as Hw. unfold wp in Hw. unfold gang_state.
  destruct (serve_all gang_caller (fresh_root 0 sample_nodes)) as [[l s]|]; [|done]. destruct Hw as (m & _ & Hr). by exists m.
Qed.

Lemma radix_tree_gang_lookups_witness :
  exists m, rep gang_state m /\ [12288; 8192] = take (Z.to_nat 10) (select_from None m 4).
Proof.
  destruct gang_state_ok as [m Hr]. exists m. split; [exact Hr|].
  destruct (radix_tree_gang_lookups gang_state m 0 4 10 Hr ltac:(lia) ltac:(lia) ltac:(lia)) as [E _]. rewrite gang_results in E.
  exact (f_equal (fun r => match r with Ok (l, _) => l | Fault _ => [] end) E).
Defined.
