(* ===== verification/Lmb.v ===== *)
(** * Logical memory blocks: lib/lmb.c

    Two tables of physical address ranges, the memory that there is and the part of it
    that is reserved, and the early allocator that works on them.  A table is an array
    of 129 entries of which the first [cnt] are in use; an access beyond the array is a
    fault.  Addresses and sizes have 64 bits, indices and counts 32. *)

From Stdlib Require Import Sorted.
From S2P Require Import Prelude.

#[local] Arguments loop : simpl never.
Abbreviation u64 := (wrap 64).

(** ** The code *)

Definition MAX_LMB_REGIONS : Z := 128.
Definition LMB_ALLOC_ANYWHERE : Z := 0.

Record lmb_property := LmbProperty { base : Z; size : Z }.
Record lmb_region := LmbRegion { cnt : Z; total : Z; region : list lmb_property }.
Record lmb := Lmb { rmo_size : Z; memory : lmb_region; reserved : lmb_region }.

Abbreviation RG := (ST lmb_region).
Abbreviation LM := (ST lmb).

Definition get_cnt : RG Z := fun r => Ok (cnt r, r).
Definition set_cnt (c : Z) : RG unit := fun r => Ok (tt, LmbRegion c (total r) (region r)).
Definition get_rgn (i : Z) : RG lmb_property := fun r =>
  match region r !! Z.to_nat i with
  | Some p => if i <? 0 then Fault BadAddress else Ok (p, r)
  | None => Fault BadAddress
  end.
Definition set_rgn (i : Z) (p : lmb_property) : RG unit := fun r =>
  match region r !! Z.to_nat i with
  | Some _ => if i <? 0 then Fault BadAddress else Ok (tt, LmbRegion (cnt r) (total r) (<[Z.to_nat i := p]> (region r)))
  | None => Fault BadAddress
  end.

Definition set_total (f : Z -> Z) : RG unit := fun r => Ok (tt, LmbRegion (cnt r) (f (total r)) (region r)).
Definition set_rmo_size (f : Z -> Z) : LM unit := fun l => Ok (tt, Lmb (f (rmo_size l)) (memory l) (reserved l)).

Definition on_memory {A} (c : RG A) : LM A := fun l =>
  match c (memory l) with
  | Ok (a, r) => Ok (a, Lmb (rmo_size l) r (reserved l))
  | Fault f => Fault f
  end.
Definition on_reserved {A} (c : RG A) : LM A := fun l =>
  match c (reserved l) with
  | Ok (a, r) => Ok (a, Lmb (rmo_size l) (memory l) r)
  | Fault f => Fault f
  end.

Definition lmb_addrs_overlap (base1 size1 base2 size2 : Z) : bool :=
  (base1 <? u64 (base2 + size2)) && (base2 <? u64 (base1 + size1)).

Definition lmb_addrs_adjacent (base1 size1 base2 size2 : Z) : Z :=
  if base2 =? u64 (base1 + size1) then 1
  else if base1 =? u64 (base2 + size2) then -1
  else 0.

Definition lmb_regions_adjacent (r1 r2 : Z) : RG Z :=
  p1 ← get_rgn r1;
  p2 ← get_rgn r2;
  mret (lmb_addrs_adjacent (base p1) (size p1) (base p2) (size p2)).

(** The array ends before the fuel does. *)
Definition lmb_remove_region (r : Z) : RG unit :=
  loop 131 (fun i =>
    c ← get_cnt;
    if i <? u32 (c - 1) then
      p ← get_rgn (i + 1);
      set_rgn i p ;;
      continue (i + 1)
    else break tt) r ;;
  c ← get_cnt;
  set_cnt (u32 (c - 1)).

Definition lmb_coalesce_regions (r1 r2 : Z) : RG unit :=
  p1 ← get_rgn r1;
  p2 ← get_rgn r2;
  set_rgn r1 (LmbProperty (base p1) (u64 (size p1 + size p2))) ;;
  lmb_remove_region r2.

(** A table with the dummy entry that lmb_init makes. *)
Definition lmb_init : LM unit :=
  on_memory (set_rgn 0 (LmbProperty 0 0) ;; set_cnt 1) ;;
  on_reserved (set_rgn 0 (LmbProperty 0 0) ;; set_cnt 1).

Definition lmb_analyze : LM unit :=
  on_memory (set_total (fun _ => 0)) ;;
  on_memory (
    c ← get_cnt;
    loop 131 (fun i =>
      if i <? c then
        p ← get_rgn i;
        set_total (fun n => u64 (n + size p)) ;;
        continue (i + 1)
      else break tt) 0).

(** The first loop of lmb_add_region: [None] when the region is already there, else the
    index where it ends and the number of regions merged. *)
Definition coalesce_one (b s : Z) : RG (option (Z * Z)) :=
  loop 131 (fun i =>
    c ← get_cnt;
    if i <? c then
      p ← get_rgn i;
      if (base p =? b) && (size p =? s) then break None else
      let adjacent := lmb_addrs_adjacent b s (base p) (size p) in
      if 0 <? adjacent then
        set_rgn i (LmbProperty (u64 (base p - s)) (u64 (size p + s))) ;; break (Some (i, 1))
      else if adjacent <? 0 then
        set_rgn i (LmbProperty (base p) (u64 (size p + s))) ;; break (Some (i, 1))
      else continue (i + 1)
    else break (Some (i, 0))) 0.

(** Its last loop: the entries above move up by one. *)
Definition insert_sorted (b s : Z) : RG unit :=
  c ← get_cnt;
  loop 131 (fun i =>
    if 0 <=? i then
      p ← get_rgn i;
      if b <? base p then
        set_rgn (i + 1) p ;; continue (i - 1)
      else set_rgn (i + 1) (LmbProperty b s) ;; break tt
    else break tt) (s32 (c - 1)) ;;
  p ← get_rgn 0;
  (if b <? base p then set_rgn 0 (LmbProperty b s) else mret tt) ;;
  set_cnt (u32 (c + 1)).

Definition lmb_add_region (b s : Z) : RG Z :=
  c ← get_cnt;
  p0 ← get_rgn 0;
  if (c =? 1) && (size p0 =? 0) then
    set_rgn 0 (LmbProperty b s) ;; mret 0
  else
  r ← coalesce_one b s;
  match r with
  | None => mret 0
  | Some (i, coalesced) =>
      c ← get_cnt;
      coalesced ← (if i <? u32 (c - 1) then
                     adjacent ← lmb_regions_adjacent i (i + 1);
                     if negb (adjacent =? 0) then
                       lmb_coalesce_regions i (i + 1) ;; mret (coalesced + 1)
                     else mret coalesced
                   else mret coalesced);
      if negb (coalesced =? 0) then mret coalesced else
      if MAX_LMB_REGIONS <=? c then mret (-1) else
      insert_sorted b s ;; mret 0
  end.

Definition lmb_add (b s : Z) : LM Z :=
  (if b =? 0 then set_rmo_size (fun _ => s) else mret tt) ;;
  on_memory (lmb_add_region b s).

(** The first region that contains [b, e); the count when there is none. *)
Definition find_container (b e : Z) : RG Z :=
  loop 131 (fun i =>
    c ← get_cnt;
    if i <? c then
      p ← get_rgn i;
      if (base p <=? b) && (e <=? u64 (base p + size p)) then break i else continue (i + 1)
    else break i) 0.

Definition lmb_remove (b s : Z) : LM Z :=
  let e := u64 (b + s) in
  on_memory (
    i ← find_container b e;
    c ← get_cnt;
    if i =? c then mret (-1) else
    p ← get_rgn i;
    let rgnbegin := base p in
    let rgnend := u64 (base p + size p) in
    if (rgnbegin =? b) && (rgnend =? e) then lmb_remove_region i ;; mret 0 else
    if rgnbegin =? b then set_rgn i (LmbProperty e (u64 (size p - s))) ;; mret 0 else
    if rgnend =? e then set_rgn i (LmbProperty (base p) (u64 (size p - s))) ;; mret 0 else
    set_rgn i (LmbProperty (base p) (u64 (b - base p))) ;;
    lmb_add_region e (u64 (rgnend - e))).

Definition lmb_reserve (b s : Z) : LM Z :=
  BUG_ON (0 =? s) ;;
  on_reserved (lmb_add_region b s).

Definition lmb_overlaps_region (b s : Z) : RG Z :=
  c ← get_cnt;
  i ← loop 131 (fun i =>
    if i <? c then
      p ← get_rgn i;
      if lmb_addrs_overlap b s (base p) (size p) then break i else continue (i + 1)
    else break i) 0;
  mret (if i <? c then i else -1).

Definition lmb_align_down (addr s : Z) : Z := Z.ldiff addr (u64 (s - 1)).
Definition lmb_align_up (addr s : Z) : Z := Z.ldiff (u64 (addr + u64 (s - 1))) (u64 (s - 1)).

(** The inner loop of __lmb_alloc_base: from [b] downwards in the memory that begins at
    [lmbbase]; [None] where the code goes on with the next region. *)
Definition scan_down (lmbbase b s align : Z) : LM (option Z) :=
  loop 131 (fun b =>
    if negb (b =? 0) && (lmbbase <=? b) then
      j ← on_reserved (lmb_overlaps_region b s);
      if j <? 0 then
        r ← on_reserved (lmb_add_region b s);
        break (Some (if r <? 0 then 0 else b))
      else
      p ← on_reserved (get_rgn j);
      if base p <? s then break None
      else continue (lmb_align_down (u64 (base p - s)) align)
    else break None) b.

(** Where the search in a region of the memory begins. *)
Definition scan_start (p : lmb_property) (s align max_addr : Z) : option Z :=
  if max_addr =? LMB_ALLOC_ANYWHERE then Some (lmb_align_down (u64 (u64 (base p + size p) - s)) align)
  else if base p <? max_addr then
    let b := Z.min (u64 (base p + size p)) max_addr in
    Some (lmb_align_down (u64 (b - s)) align)
  else None.

Section Platform.
(** LMB_REAL_LIMIT of the platform's asm/lmb.h. *)
Context (LMB_REAL_LIMIT : Z).

Definition __lmb_alloc_base (s align max_addr : Z) : LM Z :=
  BUG_ON (0 =? s) ;;
  let s := lmb_align_up s align in
  let max_addr := if max_addr =? LMB_ALLOC_ANYWHERE then LMB_REAL_LIMIT else max_addr in
  c ← on_memory get_cnt;
  loop 131 (fun i =>
    if 0 <=? i then
      p ← on_memory (get_rgn i);
      if size p <? s then continue (i - 1) else
      match scan_start p s align max_addr with
      | None => continue (i - 1)
      | Some b =>
          r ← scan_down (base p) b s align;
          match r with
          | Some x => break x
          | None => continue (i - 1)
          end
      end
    else break 0) (s32 (c - 1)).

(** panic() is modelled as the fault of BUG. *)
Definition lmb_alloc_base (s align max_addr : Z) : LM Z :=
  alloc ← __lmb_alloc_base s align max_addr;
  BUG_ON (alloc =? 0) ;;
  mret alloc.

Definition lmb_alloc (s align : Z) : LM Z := lmb_alloc_base s align LMB_ALLOC_ANYWHERE.

Definition NO_ADDR : Z := 2 ^ 64 - 1.

Definition lmb_alloc_nid_unreserved (start e s align : Z) : LM Z :=
  loop 131 (fun b =>
    if start <=? b then
      j ← on_reserved (lmb_overlaps_region b s);
      if j <? 0 then
        r ← on_reserved (lmb_add_region b s);
        break (if r <? 0 then NO_ADDR else b)
      else
      p ← on_reserved (get_rgn j);
      if base p <? s then break NO_ADDR
      else continue (lmb_align_down (u64 (base p - s)) align)
    else break NO_ADDR) (lmb_align_down (u64 (e - s)) align).

(** [nid_range start end] gives the end of the part that belongs to one node, and the
    node; [fuel] bounds the number of parts of a region. *)
Definition lmb_alloc_nid_region (fuel : nat) (nid_range : Z -> Z -> Z * Z) (mp : lmb_property) (s align nid : Z) : LM Z :=
  let e := u64 (base mp + size mp) in
  loop fuel (fun start =>
    if start <? e then
      let '(this_end, this_nid) := nid_range start e in
      ret ← (if this_nid =? nid then lmb_alloc_nid_unreserved start this_end s align else mret NO_ADDR);
      if negb (ret =? NO_ADDR) then break ret else continue this_end
    else break NO_ADDR) (lmb_align_up (base mp) align).

Definition lmb_alloc_nid (fuel : nat) (nid_range : Z -> Z -> Z * Z) (s align nid : Z) : LM Z :=
  BUG_ON (0 =? s) ;;
  let s := lmb_align_up s align in
  c ← on_memory get_cnt;
  r ← loop 131 (fun i =>
    if i <? c then
      p ← on_memory (get_rgn i);
      ret ← lmb_alloc_nid_region fuel nid_range p s align nid;
      if negb (ret =? NO_ADDR) then break (Some ret) else continue (i + 1)
    else break None) 0;
  match r with
  | Some ret => mret ret
  | None => lmb_alloc s align
  end.
End Platform.

Definition lmb_phys_mem_size : LM Z := fun l => Ok (total (memory l), l).

Definition lmb_end_of_DRAM : LM Z :=
  c ← on_memory get_cnt;
  p ← on_memory (get_rgn (s32 (c - 1)));
  mret (u64 (base p + size p)).

(** The two loops of lmb_enforce_memory_limit. *)
Definition truncate_memory (limit : Z) : RG unit :=
  loop 131 (fun '(i, limit) =>
    c ← get_cnt;
    if i <? c then
      p ← get_rgn i;
      if size p <? limit then continue (i + 1, limit - size p) else
      set_rgn i (LmbProperty (base p) limit) ;;
      set_cnt (u32 (i + 1)) ;;
      break tt
    else break tt) (0, limit).

Definition truncate_reserved (memory_limit : Z) : RG unit :=
  loop 262 (fun i =>
    c ← get_cnt;
    if i <? c then
      p ← get_rgn i;
      let s :=
        if memory_limit <? base p then 0
        else if memory_limit <? u64 (base p + size p) then u64 (memory_limit - base p)
        else size p in
      set_rgn i (LmbProperty (base p) s) ;;
      if s =? 0 then lmb_remove_region i ;; continue i
      else continue (i + 1)
    else break tt) 0.

Definition lmb_enforce_memory_limit (memory_limit : Z) : LM unit :=
  if memory_limit =? 0 then mret tt else
  on_memory (truncate_memory memory_limit) ;;
  p ← on_memory (get_rgn 0);
  set_rmo_size (fun n => if size p <? n then size p else n) ;;
  memory_limit ← lmb_end_of_DRAM;
  on_reserved (truncate_reserved memory_limit).

Definition lmb_is_reserved (addr : Z) : LM Z :=
  on_reserved (
    c ← get_cnt;
    loop 131 (fun i =>
      if i <? c then
        p ← get_rgn i;
        let upper := u64 (u64 (base p + size p) - 1) in
        if (base p <=? addr) && (addr <=? upper) then break 1 else continue (i + 1)
      else break 0) 0).

(** The adjusted request, or -1. *)
Definition lmb_find (res : lmb_property) : LM (Z * lmb_property) :=
  let rstart := base res in
  let rend := u64 (u64 (rstart + size res) - 1) in
  on_memory (
    c ← get_cnt;
    loop 131 (fun i =>
      if i <? c then
        p ← get_rgn i;
        let start := base p in
        let e := u64 (u64 (start + size p) - 1) in
        if rend <? start then break (-1, res) else
        if (rstart <=? e) && (start <? rend) then
          let rstart := if rstart <? start then start else rstart in
          let rend := if e <? rend then e else rend in
          break (0, LmbProperty rstart (u64 (rend - rstart + 1)))
        else continue (i + 1)
      else break (-1, res)) 0).

(** ** Regions and tables *)

#[export] Instance in_region : ElemOf Z lmb_property := fun a p => base p <= a < base p + size p.

#[export] Instance lmb_property_eq_dec : EqDecision lmb_property.
Proof. solve_decision. Defined.

(** An address is in one of the regions. *)
Definition covered (l : list lmb_property) (a : Z) : Prop := exists p, p ∈ l /\ a ∈ p.

(** A region of at least a byte that ends below 2^64. *)
Definition placed (p : lmb_property) : Prop := 0 <= base p /\ 0 < size p /\ base p + size p < 2 ^ 64.

(** One region ends before the other begins, with a gap between them. *)
Definition before (p q : lmb_property) : Prop := base p + size p < base q.

Definition separated (l : list lmb_property) : Prop := Forall placed l /\ StronglySorted before l.

(** The entries in use. *)
Definition table (r : lmb_region) (l : list lmb_property) : Prop :=
  cnt r = Z.of_nat (length l) /\ (length l <= 128)%nat /\ length (region r) = 129%nat /\ exists rest, region r = l ++ rest.

(** What a table holds; without regions it has the dummy entry. *)
Definition holds (r : lmb_region) (l : list lmb_property) : Prop :=
  separated l /\ match l with [] => table r [LmbProperty 0 0] | _ => table r l end.

Section Tables.
Implicit Types (r : lmb_region) (l : list lmb_property) (p q : lmb_property).

Lemma elem_region a p : a ∈ p <-> base p <= a < base p + size p.
Proof. done. Qed.

Lemma covered_nil a : ~ covered [] a.
Proof. intros (p & Hp & _). by apply not_elem_of_nil in Hp. Qed.

Lemma covered_cons p l a : covered (p :: l) a <-> a ∈ p \/ covered l a.
Proof.
  unfold covered. split.
  - intros (q & [->|Hq]%elem_of_cons & Ha); [by left|right; by exists q].
  - intros [Ha|(q & Hq & Ha)]; [exists p; by split; [left|]|exists q; by split; [right|]].
Qed.

Lemma covered_app l1 l2 a : covered (l1 ++ l2) a <-> covered l1 a \/ covered l2 a.
Proof.
  unfold covered. split.
  - intros (q & [Hq|Hq]%elem_of_app & Ha); [left|right]; by exists q.
  - intros [(q & Hq & Ha)|(q & Hq & Ha)]; exists q; (split; [|done]); apply elem_of_app; [by left|by right].
Qed.

Lemma separated_nil : separated [].
Proof. split; [by apply Forall_nil|by apply SSorted_nil]. Qed.

Lemma separated_app l1 l2 :
  separated (l1 ++ l2) <-> separated l1 /\ separated l2 /\ forall p q, p ∈ l1 -> q ∈ l2 -> before p q.
Proof.
  unfold separated. rewrite Forall_app. induction l1 as [|p l1 IH]; cbn [app].
  - split.
    + intros [[_ H2] S2]. split; [apply separated_nil|]. split; [done|]. intros p q Hp. by apply not_elem_of_nil in Hp.
    + intros (_ & [H2 S2] & _). split; [|done]. split; [by apply Forall_nil|done].
  - rewrite !Forall_cons. split.
    + intros [[[Hp H1] H2] [Hs Hb]%StronglySorted_inv]. destruct (proj1 IH (conj (conj H1 H2) Hs)) as ([_ S1] & S2 & Hpq).
      rewrite Forall_app in Hb. destruct Hb as [Hb1 Hb2]. split; [split; [done|by constructor]|]. split; [done|].
      intros p' q [->|Hp']%elem_of_cons Hq; [by eapply Forall_forall in Hb2|by apply Hpq].
    + intros ([[Hp H1] [S1 Hb]%StronglySorted_inv] & [H2 S2] & Hpq). split; [done|]. constructor.
      * apply IH. split; [done|]. split; [done|]. intros p' q Hp' Hq. apply Hpq; [by right|done].
      * apply Forall_app. split; [done|]. apply Forall_forall. intros q Hq. apply Hpq; [by left|done].
Qed.

Lemma separated_cons p l : separated (p :: l) <-> placed p /\ separated l /\ forall q, q ∈ l -> before p q.
Proof.
  change (p :: l) with ([p] ++ l). rewrite separated_app. split.
  - intros ([Hp _] & Hl & Hb). apply Forall_cons in Hp as [Hp _]. split; [done|]. split; [done|]. intros q Hq. apply Hb; [by left|done].
  - intros (Hp & Hl & Hb). split; [split; [by constructor|repeat constructor]|]. split; [done|]. intros p' q ->%list_elem_of_singleton Hq. auto.
Qed.

Lemma separated_placed l p : separated l -> p ∈ l -> placed p.
Proof. intros [H _] Hp. by eapply Forall_forall in H. Qed.

(** ** Access to the table *)

Lemma wp_get_cnt r l Q : table r l -> Q (Z.of_nat (length l)) r -> wp get_cnt Q r.
Proof. intros [E _] HQ. unfold wp, get_cnt. by rewrite E. Qed.

Lemma wp_get_rgn r l i p Q : table r l -> l !! i = Some p -> Q p r -> wp (get_rgn (Z.of_nat i)) Q r.
Proof.
  intros (_ & _ & _ & rest & E) Hi HQ. unfold wp, get_rgn. rewrite Nat2Z.id, E, (lookup_app_l_Some _ _ _ _ Hi).
  by rewrite (proj2 (Z.ltb_ge _ 0)) by lia.
Qed.

(** An entry is written, in use or the one after. *)
Lemma wp_set_rgn r l i p Q :
  table r l -> (i < length l)%nat -> (forall r', table r' (<[i := p]> l) -> Q tt r') -> wp (set_rgn (Z.of_nat i) p) Q r.
Proof.
  intros (Ec & Hl & Hr & rest & E) Hi HQ. destruct (lookup_lt_is_Some_2 l i Hi) as [q Hq]. unfold wp, set_rgn.
  rewrite Nat2Z.id. destruct (region r !! i) as [q'|] eqn:Er; [|rewrite E, (lookup_app_l_Some _ _ _ _ Hq) in Er; done].
  rewrite (proj2 (Z.ltb_ge _ 0)) by lia. apply HQ. split; [cbn; by rewrite length_insert|]. rewrite length_insert. split; [done|].
  cbn [region]. rewrite length_insert. split; [done|]. exists rest. by rewrite E, insert_app_l.
Qed.

Lemma wp_set_next r l p Q :
  table r l -> (length l < 128)%nat -> (forall r', region r' = l ++ p :: tail (drop (length l) (region r)) -> cnt r' = cnt r -> length (region r') = 129%nat -> Q tt r') ->
  wp (set_rgn (Z.of_nat (length l)) p) Q r.
Proof.
  intros (Ec & Hl & Hr & rest & E) Hi HQ. unfold wp, set_rgn. rewrite Nat2Z.id. destruct rest as [|x rest].
  { rewrite E, app_nil_r in Hr. lia. }
  rewrite E, list_lookup_middle by done. rewrite (proj2 (Z.ltb_ge _ 0)) by lia. apply HQ; cbn [region cnt]; [|done|by rewrite length_insert, <- E].
  rewrite E, drop_app_length. cbn [tail]. rewrite insert_app_r_alt, Nat.sub_diag by lia. done.
Qed.
End Tables.

(** ** Removing and merging entries *)

Section Edits.
Implicit Types (r : lmb_region) (l : list lmb_property) (p q : lmb_property).

Lemma table_length r l : table r l -> 0 <= Z.of_nat (length l) <= 128.
Proof. intros (_ & Hl & _). lia. Qed.

Lemma wp_set_cnt r l1 l2 Q :
  table r (l1 ++ l2) -> (forall r', table r' l1 -> Q tt r') -> wp (set_cnt (Z.of_nat (length l1))) Q r.
Proof.
  intros (Ec & Hl & Hr & rest & E) HQ. apply HQ. rewrite length_app in Hl. split; [done|]. split; [lia|]. split; [done|].
  exists (l2 ++ rest). cbn [region]. by rewrite E, <- app_assoc.
Qed.

Lemma lmb_remove_region_ok r l1 p l2 Q :
  table r (l1 ++ p :: l2) -> (forall r', table r' (l1 ++ l2) -> Q tt r') -> wp (lmb_remove_region (Z.of_nat (length l1))) Q r.
Proof.
  intros Ht HQ. apply wp_bind. set (n := length (l1 ++ p :: l2)). pose proof (table_length _ _ Ht) as Hn. fold n in Hn.
  assert (n = S (length l1 + length l2)) as En by (subst n; rewrite length_app; simpl; lia).
  apply wp_mono with (Q := fun _ r' => exists x, table r' ((l1 ++ l2) ++ [x])).
  - apply (wp_loop (fun i r' => exists m1 x m2, l2 = m1 ++ m2 /\ i = Z.of_nat (length (l1 ++ m1)) /\ table r' ((l1 ++ m1) ++ x :: m2))
      (fun i => Z.to_nat (129 - i))); [exists [], p, l2; by rewrite app_nil_r|lia|].
    clear r Ht. intros i r (m1 & x & m2 & E2 & -> & Ht). rewrite E2, length_app in En.
    apply wp_bind. eapply wp_get_cnt; [exact Ht|]. rewrite !length_app. cbn [length].
    replace (u32 (Z.of_nat (length l1 + length m1 + S (length m2)) - 1)) with (Z.of_nat (length l1 + length m1 + length m2)) by (rewrite wrap_id by (split; lia); lia).
    destruct m2 as [|y m2]; cbn [length].
    + rewrite (proj2 (Z.ltb_ge _ _)) by lia. apply wp_ret. exists x. by rewrite E2, app_nil_r.
    + rewrite (proj2 (Z.ltb_lt _ _)) by lia. apply wp_bind. rewrite <- length_app.
      replace (Z.of_nat (length (l1 ++ m1)) + 1) with (Z.of_nat (S (length (l1 ++ m1)))) by lia.
      eapply wp_get_rgn; [exact Ht|rewrite lookup_app_r by lia; by replace (S (length (l1 ++ m1)) - length (l1 ++ m1))%nat with 1%nat by lia|].
      apply wp_bind. eapply wp_set_rgn; [exact Ht|rewrite !length_app; simpl; lia|]. clear r Ht. intros r Ht. apply wp_ret.
      rewrite insert_app_r_alt, Nat.sub_diag in Ht by lia. cbn [insert list_insert] in Ht.
      split; [|rewrite ?length_app in *; simpl in En; lia]. exists (m1 ++ [y]), y, m2. rewrite <- app_assoc. split; [done|].
      rewrite app_assoc, (length_app _ [y]). split; [simpl; lia|]. by rewrite <- app_assoc.
  - clear r Ht. intros _ r (x & Ht). apply wp_bind. eapply wp_get_cnt; [exact Ht|]. rewrite length_app. cbn [length].
    pose proof (table_length _ _ Ht) as Hn'. rewrite length_app in Hn'. cbn [length] in Hn'.
    replace (u32 (Z.of_nat (length (l1 ++ l2) + 1) - 1)) with (Z.of_nat (length (l1 ++ l2))) by (rewrite wrap_id by (split; lia); lia).
    eapply wp_set_cnt; [exact Ht|exact HQ].
Qed.

Lemma lmb_coalesce_regions_ok r l1 p q l2 Q :
  table r (l1 ++ p :: q :: l2) -> 0 <= size p + size q < 2 ^ 64 ->
  (forall r', table r' (l1 ++ LmbProperty (base p) (size p + size q) :: l2) -> Q tt r') ->
  wp (lmb_coalesce_regions (Z.of_nat (length l1)) (Z.of_nat (length l1) + 1)) Q r.
Proof.
  intros Ht Hs HQ. replace (Z.of_nat (length l1) + 1) with (Z.of_nat (S (length l1))) by lia.
  apply wp_bind. eapply wp_get_rgn; [exact Ht|by apply list_lookup_middle|]. apply wp_bind.
  eapply wp_get_rgn; [exact Ht|rewrite lookup_app_r by lia; by replace (S (length l1) - length l1)%nat with 1%nat by lia|].
  apply wp_bind. eapply wp_set_rgn; [exact Ht|rewrite !length_app; simpl; lia|]. clear r Ht. intros r Ht.
  rewrite insert_app_r_alt, Nat.sub_diag in Ht by lia. cbn [insert list_insert] in Ht. rewrite (wrap_id 64) in Ht by (split; lia).
  set (pq := LmbProperty (base p) (size p + size q)) in *. change (l1 ++ pq :: q :: l2) with (l1 ++ [pq] ++ q :: l2) in Ht. rewrite app_assoc in Ht.
  replace (S (length l1)) with (length (l1 ++ [pq])) by (rewrite length_app; simpl; lia).
  eapply lmb_remove_region_ok; [exact Ht|]. intros r' Ht'. rewrite <- app_assoc in Ht'. by apply HQ.
Qed.

(** ** Adjacent regions *)

Definition adjacent (p q : lmb_property) : Prop := base p + size p = base q \/ base q + size q = base p.

Lemma addrs_adjacent p q :
  placed p -> placed q ->
  lmb_addrs_adjacent (base p) (size p) (base q) (size q) =
    if base q =? base p + size p then 1 else if base p =? base q + size q then -1 else 0.
Proof. intros (? & ? & ?) (? & ? & ?). unfold lmb_addrs_adjacent. by rewrite !wrap_id by (split; lia). Qed.

(** The first loop on a table whose entries are separated. *)
Lemma coalesce_one_ok r l p Q :
  table r l -> Forall placed l -> placed p ->
  (p ∈ l -> Q None r) ->
  (forall l1 q l2 r', l = l1 ++ q :: l2 -> Forall (fun x => x <> p /\ ~ adjacent p x) l1 -> q <> p ->
     (base p + size p = base q /\ table r' (l1 ++ LmbProperty (base p) (size q + size p) :: l2) \/
      base q + size q = base p /\ base p + size p <> base q /\ table r' (l1 ++ LmbProperty (base q) (size q + size p) :: l2)) ->
     size q + size p < 2 ^ 64 -> Q (Some (Z.of_nat (length l1), 1)) r') ->
  (Forall (fun x => x <> p /\ ~ adjacent p x) l -> Q (Some (Z.of_nat (length l), 0)) r) ->
  wp (coalesce_one (base p) (size p)) Q r.
Proof.
  intros Ht Hl Hp Q0 Q1 Q2. pose proof (table_length _ _ Ht) as Hn.
  apply (wp_loop (fun i r' => r' = r /\ exists l1 l2, l = l1 ++ l2 /\ i = Z.of_nat (length l1) /\ Forall (fun x => x <> p /\ ~ adjacent p x) l1)
    (fun i => Z.to_nat (129 - i))); [split; [done|]; by exists [], l|lia|].
  intros i r' (-> & l1 & l2 & E & -> & HF). apply wp_bind. eapply wp_get_cnt; [exact Ht|]. destruct l2 as [|q l2].
  { rewrite app_nil_r in E. subst l1. rewrite Z.ltb_irrefl. apply wp_ret. auto. }
  assert (length l1 < length l)%nat as Hlt by (rewrite E, length_app; simpl; lia). rewrite (proj2 (Z.ltb_lt _ _)) by lia.
  assert (l !! length l1 = Some q) as Hq by (rewrite E; by apply list_lookup_middle). apply wp_bind. eapply wp_get_rgn; [exact Ht|exact Hq|].
  assert (placed q) as Hpq by (eapply Forall_lookup_1; [exact Hl|exact Hq]).
  destruct (decide (q = p)) as [->|Hne].
  { rewrite !Z.eqb_refl. apply wp_ret, Q0. by eapply list_elem_of_lookup_2. }
  replace ((base q =? base p) && (size q =? size p)) with false.
  2:{ symmetry. apply andb_false_iff. destruct (Z.eqb_spec (base q) (base p)), (Z.eqb_spec (size q) (size p)); auto. destruct Hne, p, q; simpl in *; congruence. }
  cbv zeta. rewrite addrs_adjacent by done. destruct Hp as (Hp0 & Hp1 & Hp2), Hpq as (Hq0 & Hq1 & Hq2).
  assert (forall x, <[length l1 := x]> l = l1 ++ x :: l2) as Eins by (intros x; rewrite E, insert_app_r_alt, Nat.sub_diag by lia; done).
  destruct (Z.eqb_spec (base q) (base p + size p)) as [Ea|Ea]; [|destruct (Z.eqb_spec (base p) (base q + size q)) as [Eb|Eb]]; cbn [Z.ltb Z.compare].
  - apply wp_bind. eapply wp_set_rgn; [exact Ht|done|]. intros r' Ht'. apply wp_ret. rewrite Eins, !wrap_id in Ht' by (split; lia).
    replace (base q - size p) with (base p) in Ht' by lia. eapply Q1; [exact E|done|done|by left|lia].
  - apply wp_bind. eapply wp_set_rgn; [exact Ht|done|]. intros r' Ht'. apply wp_ret. rewrite Eins, wrap_id in Ht' by (split; lia).
    eapply Q1; [exact E|done|done|right; split; [lia|split; [lia|done]]|lia].
  - apply wp_ret. split; [|lia]. split; [done|]. exists (l1 ++ [q]), l2. rewrite <- app_assoc. split; [done|]. split; [rewrite !length_app; simpl; lia|].
    apply Forall_app. split; [done|]. constructor; [|done]. split; [done|]. unfold adjacent. lia.
Qed.


(** The entries of the array itself. *)
Lemma wp_get_at r u y v i Q : region r = u ++ y :: v -> i = Z.of_nat (length u) -> Q y r -> wp (get_rgn i) Q r.
Proof.
  intros E -> HQ. unfold wp, get_rgn. rewrite Nat2Z.id, E, list_lookup_middle by done. by rewrite (proj2 (Z.ltb_ge _ 0)) by lia.
Qed.

Lemma wp_set_at r u y v p i Q :
  region r = u ++ y :: v -> i = Z.of_nat (length u) -> (forall r', region r' = u ++ p :: v -> cnt r' = cnt r -> Q tt r') ->
  wp (set_rgn i p) Q r.
Proof.
  intros E -> HQ. unfold wp, set_rgn. rewrite Nat2Z.id, E, list_lookup_middle by done. rewrite (proj2 (Z.ltb_ge _ 0)) by lia.
  apply HQ; [|done]. cbn [region]. by rewrite insert_app_r_alt, Nat.sub_diag by lia.
Qed.

(** The loop that moves the entries above up and puts the new one below them. *)
Lemma insert_loop r l1 l2 x0 rest p Q :
  region r = (l1 ++ l2) ++ x0 :: rest -> (length (l1 ++ l2) < 128)%nat ->
  Forall (fun q => base q <= base p) l1 -> Forall (fun q => base p < base q) l2 ->
  (forall r' y, cnt r' = cnt r -> region r' = l1 ++ y :: l2 ++ rest -> (l1 <> [] -> y = p) -> (l1 = [] -> l2 <> [] -> base p < base y) -> Q tt r') ->
  wp (loop 131 (fun i =>
    if 0 <=? i then
      q ← get_rgn i;
      if base p <? base q then
        set_rgn (i + 1) q ;; continue (i - 1)
      else set_rgn (i + 1) p ;; break tt
    else break tt) (Z.of_nat (length (l1 ++ l2)) - 1)) Q r.
Proof.
  intros E Hlen H1 H2 HQ.
  apply (wp_loop (fun i r' => exists m1 m2 x, l2 = m1 ++ m2 /\ i = Z.of_nat (length (l1 ++ m1)) - 1 /\ cnt r' = cnt r /\
    region r' = (l1 ++ m1) ++ x :: m2 ++ rest /\ (m2 <> [] -> base p < base x)) (fun i => Z.to_nat (i + 1)));
    [exists l2, [], x0; by rewrite app_nil_r|lia|].
  intros i r' (m1 & m2 & x & E2 & -> & Ec & Er & Hx). destruct m1 as [|y m1 _] using rev_ind.
  - rewrite app_nil_r in *. cbn [app] in E2. subst m2. destruct l1 as [|z l1 _] using rev_ind.
    + cbn [length app Z.of_nat] in *. apply wp_ret. by apply (HQ r' x).
    + rewrite (proj2 (Z.leb_le 0 _)) by (rewrite length_app; simpl; lia). apply wp_bind. apply Forall_app in H1 as [H1 Hz]. apply Forall_cons in Hz as [Hz _].
      eapply (wp_get_at _ l1 z); [by rewrite Er, <- app_assoc|rewrite length_app; simpl; lia|]. rewrite (proj2 (Z.ltb_ge _ _)) by lia.
      apply wp_bind. eapply wp_set_at; [exact Er|lia|]. intros r'' Er' Ec'. apply wp_ret.
      eapply (HQ _ p); [congruence|done|done|]. by destruct l1.
  - rewrite (proj2 (Z.leb_le 0 _)) by (rewrite !length_app; simpl; lia). rewrite E2 in H2. apply Forall_app in H2 as [H2 _]. apply Forall_app in H2 as [_ Hy].
    apply Forall_cons in Hy as [Hy _]. apply wp_bind. eapply (wp_get_at _ (l1 ++ m1) y); [by rewrite Er, app_assoc, <- app_assoc|rewrite !length_app; simpl; lia|].
    rewrite (proj2 (Z.ltb_lt _ _)) by lia. apply wp_bind. eapply wp_set_at; [exact Er|lia|]. intros r'' Er' Ec'. apply wp_ret.
    split; [|rewrite !length_app; simpl; lia]. exists m1, (y :: m2), y. split; [by rewrite E2, <- app_assoc|]. split; [rewrite !length_app; simpl; lia|].
    split; [congruence|]. split; [|done]. by rewrite Er', app_assoc, <- app_assoc.
Qed.

Lemma insert_sorted_ok r l1 l2 p Q :
  table r (l1 ++ l2) -> (length (l1 ++ l2) < 128)%nat -> l1 ++ l2 <> [] ->
  Forall (fun q => base q <= base p) l1 -> Forall (fun q => base p < base q) l2 ->
  (forall r', table r' (l1 ++ p :: l2) -> Q tt r') -> wp (insert_sorted (base p) (size p)) Q r.
Proof.
  intros Ht Hlen Hne H1 H2 HQ. pose proof Ht as (Ec & _ & Hr & rest & E). apply wp_bind. eapply wp_get_cnt; [exact Ht|]. apply wp_bind.
  destruct rest as [|x0 rest]; [rewrite E, app_nil_r in Hr; lia|].
  assert (LmbProperty (base p) (size p) = p) as -> by (by destruct p). rewrite swrap_id by lia.
  apply (insert_loop _ l1 l2 x0 rest p); try done. intros r' y Ec' Er Hy1 Hy2.
  assert (length (region r') = 129%nat) as Hr'.
  { rewrite Er. rewrite E in Hr. rewrite !length_app in *. cbn [length] in *. rewrite !length_app in *. lia. }
  assert (forall r'', region r'' = l1 ++ p :: l2 ++ rest -> wp (set_cnt (u32 (Z.of_nat (length (l1 ++ l2)) + 1))) Q r'') as Hend.
  { intros r'' Er''. rewrite wrap_id by (split; lia). apply HQ. rewrite Er in Hr'. unfold table. cbn [cnt region]. rewrite Er''.
    rewrite !length_app in *. cbn [length] in *. rewrite !length_app in *. split; [lia|]. split; [lia|]. split; [lia|].
    exists rest. by rewrite <- app_assoc. }
  destruct l1 as [|z l1].
  - cbn [app] in *. apply wp_bind. eapply (wp_get_at _ [] y); [exact Er|done|]. rewrite (proj2 (Z.ltb_lt _ _)) by auto.
    apply wp_bind. eapply (wp_set_at _ [] y); [exact Er|done|]. intros r'' Er'' _. by apply Hend.
  - rewrite (Hy1 ltac:(done)) in Er. apply wp_bind. eapply (wp_get_at _ [] z); [exact Er|done|]. apply Forall_cons in H1 as [Hz _].
    rewrite (proj2 (Z.ltb_ge _ _)) by lia. apply wp_bind, wp_ret. by apply Hend.
Qed.
End Edits.

(** ** Adding a region *)

Definition disjoint_from (p : lmb_property) (l : list lmb_property) : Prop := forall a, a ∈ p -> ~ covered l a.

Section Add.
Implicit Types (r : lmb_region) (l : list lmb_property) (p q : lmb_property).

Lemma apart p q : placed p -> placed q -> (forall a, a ∈ p -> a ∈ q -> False) -> base p + size p <= base q \/ base q + size q <= base p.
Proof.
  intros (? & ? & ?) (? & ? & ?) Hno. destruct (Z.le_gt_cases (base p + size p) (base q)); [by left|].
  destruct (Z.le_gt_cases (base q + size q) (base p)); [by right|]. destruct (Hno (Z.max (base p) (base q))); rewrite elem_region; lia.
Qed.

Lemma apart_in p l q : separated l -> placed p -> disjoint_from p l -> q ∈ l -> base p + size p <= base q \/ base q + size q <= base p.
Proof.
  intros Hl Hp Hd Hq. apply apart; [done|by eapply separated_placed|]. intros a Ha Haq. apply (Hd a Ha). by exists q.
Qed.

Lemma separated_middle l1 p l2 :
  separated (l1 ++ p :: l2) <-> separated (l1 ++ l2) /\ placed p /\ (forall q, q ∈ l1 -> before q p) /\ (forall q, q ∈ l2 -> before p q).
Proof.
  rewrite !separated_app, separated_cons. split.
  - intros (H1 & (Hp & H2 & Hp2) & H12). split; [split; [done|]; split; [done|]; intros x y Hx Hy; apply H12; [done|by right]|].
    split; [done|]. split; [|done]. intros q Hq. apply H12; [done|by left].
  - intros ((H1 & H2 & H12) & Hp & Hp1 & Hp2). split; [done|]. split; [done|]. intros x y Hx [->|Hy]%elem_of_cons; auto.
Qed.

(** The table grows by a region that touches none of the others. *)
Lemma insert_split l p :
  separated l -> placed p -> disjoint_from p l -> Forall (fun x => x <> p /\ ~ adjacent p x) l ->
  exists l1 l2, l = l1 ++ l2 /\ Forall (fun q => base q <= base p) l1 /\ Forall (fun q => base p < base q) l2 /\ separated (l1 ++ p :: l2).
Proof.
  intros Hl Hp Hd Hna. assert (exists l1 l2, l = l1 ++ l2 /\ Forall (fun q => base q <= base p) l1 /\ Forall (fun q => base p < base q) l2) as (l1 & l2 & E & H1 & H2).
  { clear Hd Hna. induction l as [|q l IH]; [by exists [], []|]. apply separated_cons in Hl as ((Hq0 & Hq1 & Hq2) & Hl & Hb). destruct (Z.le_gt_cases (base q) (base p)).
    - destruct (IH Hl) as (l1 & l2 & -> & H1 & H2). exists (q :: l1), l2. split; [done|]. split; [by constructor|done].
    - exists [], (q :: l). split; [done|]. split; [done|]. constructor; [lia|]. apply Forall_forall. intros x Hx. specialize (Hb x Hx). unfold before in Hb. lia. }
  exists l1, l2. do 3 (split; [done|]). apply separated_middle. rewrite <- E. split; [done|]. split; [done|]. destruct Hp as (Hp0 & Hp1 & Hp2).
  assert (forall q, q ∈ l -> q <> p /\ ~ adjacent p q) as Hna' by (intros q Hq; by eapply Forall_forall in Hna). unfold adjacent in Hna'.
  split; intros q Hq; (assert (q ∈ l) as Hql by (rewrite E; apply elem_of_app; auto)); destruct (Hna' q Hql) as [_ Ha];
    destruct (apart_in p l q Hl ltac:(done) Hd Hql) as [Hle|Hle]; pose proof (separated_placed _ _ Hl Hql) as (? & ? & ?); unfold before.
  - eapply Forall_forall in H1; [|exact Hq]. lia.
  - lia.
  - lia.
  - eapply Forall_forall in H2; [|exact Hq]. lia.
Qed.

(** A region grows downwards, or upwards to at most the next one. *)
Lemma grow_down l1 q l2 p :
  separated (l1 ++ q :: l2) -> placed p -> disjoint_from p (l1 ++ q :: l2) -> Forall (fun x => x <> p /\ ~ adjacent p x) l1 ->
  base p + size p = base q -> separated (l1 ++ LmbProperty (base p) (size q + size p) :: l2).
Proof.
  intros Hl Hp Hd Hna E. pose proof Hl as (Hl' & (Hq0 & Hq1 & Hq2) & Hb1 & Hb2)%separated_middle. destruct Hp as (Hp0 & Hp1 & Hp2). apply separated_middle.
  split; [done|]. split; [split; simpl; lia|]. unfold before in *. cbn [base size]. split; intros x Hx.
  - assert (x ∈ l1 ++ q :: l2) as Hx' by (apply elem_of_app; by left). eapply Forall_forall in Hna; [|exact Hx]. destruct Hna as [_ Hna]. unfold adjacent in Hna.
    specialize (Hb1 x Hx). pose proof (separated_placed _ _ Hl Hx') as (? & ? & ?). destruct (apart_in p _ x Hl ltac:(done) Hd Hx'); lia.
  - specialize (Hb2 x Hx). lia.
Qed.

Lemma grow_up l1 q l2 p :
  separated (l1 ++ q :: l2) -> placed p -> disjoint_from p (l1 ++ q :: l2) -> base q + size q = base p ->
  let q' := LmbProperty (base q) (size q + size p) in
  placed q' /\ (forall x, x ∈ l1 -> before x q') /\ (forall x, x ∈ l2 -> base q' + size q' <= base x).
Proof.
  intros Hl Hp Hd E q'. pose proof Hl as (Hl' & (Hq0 & Hq1 & Hq2) & Hb1 & Hb2)%separated_middle. destruct Hp as (Hp0 & Hp1 & Hp2). subst q'. unfold before in *. cbn [base size].
  split; [split; simpl; lia|]. split; [done|]. intros x Hx. assert (x ∈ l1 ++ q :: l2) as Hx' by (apply elem_of_app; right; by right).
  specialize (Hb2 x Hx). pose proof (separated_placed _ _ Hl Hx') as (? & ? & ?). destruct (apart_in p _ x Hl ltac:(done) Hd Hx'); lia.
Qed.

Lemma covered_grow l1 q q' l2 p a :
  (a ∈ q' <-> a ∈ q \/ a ∈ p) -> covered (l1 ++ q' :: l2) a <-> covered (l1 ++ q :: l2) a \/ a ∈ p.
Proof. intros E. rewrite !covered_app, !covered_cons, E. tauto. Qed.

Lemma covered_merge l1 p q l2 a :
  base p + size p = base q -> 0 <= size p -> 0 <= size q ->
  covered (l1 ++ LmbProperty (base p) (size p + size q) :: l2) a <-> covered (l1 ++ p :: q :: l2) a.
Proof. intros E Hp Hq. rewrite !covered_app, !covered_cons, !elem_region. cbn [base size]. intuition lia. Qed.


(** After a region has grown: merge it with the next one if they touch. *)
Lemma merge_next r l1 q l2 :
  table r (l1 ++ q :: l2) -> separated (l1 ++ l2) -> placed q -> (forall x, x ∈ l1 -> before x q) -> (forall x, x ∈ l2 -> base q + size q <= base x) ->
  wp (if Z.of_nat (length l1) <? u32 (Z.of_nat (length (l1 ++ q :: l2)) - 1) then
        adjacent ← lmb_regions_adjacent (Z.of_nat (length l1)) (Z.of_nat (length l1) + 1);
        if negb (adjacent =? 0) then
          lmb_coalesce_regions (Z.of_nat (length l1)) (Z.of_nat (length l1) + 1) ;; mret (1 + 1)
        else mret 1
      else mret 1)
    (fun c r' => 0 < c /\ exists l', table r' l' /\ l' <> [] /\ separated l' /\ forall a, covered l' a <-> covered (l1 ++ q :: l2) a) r.
Proof.
  intros Ht Hs Hq Hb1 Hb2. pose proof (table_length _ _ Ht) as Hn. rewrite length_app in *. cbn [length] in *.
  assert ((forall x, x ∈ l2 -> base q + size q <> base x) -> 0 < 1 /\ exists l', table r l' /\ l' <> [] /\ separated l' /\
    forall a, covered l' a <-> covered (l1 ++ q :: l2) a) as Hsame.
  { intros Hne. split; [lia|]. exists (l1 ++ q :: l2). split; [done|]. split; [by destruct l1|]. split; [|done]. apply separated_middle.
    do 3 (split; [done|]). intros x Hx. specialize (Hb2 x Hx). specialize (Hne x Hx). unfold before. lia. }
  rewrite wrap_id by (split; lia). destruct l2 as [|x l2]; cbn [length] in *.
  { rewrite (proj2 (Z.ltb_ge _ _)) by lia. apply wp_ret, Hsame. intros x Hx. by apply not_elem_of_nil in Hx. }
  pose proof Hs as (Hs' & Hx & Hx1 & Hx2)%separated_middle. rewrite (proj2 (Z.ltb_lt _ _)) by lia. apply wp_bind, wp_bind.
  eapply wp_get_rgn; [exact Ht|by apply list_lookup_middle|]. apply wp_bind. replace (Z.of_nat (length l1) + 1) with (Z.of_nat (S (length l1))) by lia.
  eapply wp_get_rgn; [exact Ht|rewrite lookup_app_r by lia; by replace (S (length l1) - length l1)%nat with 1%nat by lia|].
  apply wp_ret. rewrite addrs_adjacent by done. pose proof (Hb2 x ltac:(left)) as Hle. destruct Hq as (Hq0 & Hq1 & Hq2), Hx as (Hx0 & Hx1' & Hx2').
  destruct (Z.eqb_spec (base x) (base q + size q)) as [E|E].
  - cbn [Z.eqb negb]. apply wp_bind. replace (Z.of_nat (S (length l1))) with (Z.of_nat (length l1) + 1) by lia.
    eapply lmb_coalesce_regions_ok; [exact Ht|lia|]. clear r Ht Hsame. intros r Ht. apply wp_ret. split; [lia|]. eexists. split; [exact Ht|]. split; [by destruct l1|].
    split; [|intros a; apply covered_merge; lia]. apply separated_middle. split; [done|]. split; [split; simpl; lia|]. unfold before in *. cbn [base size]. split; [done|].
    intros y Hy. specialize (Hx2 y Hy). lia.
  - rewrite (proj2 (Z.eqb_neq (base q) _)) by lia. cbn [Z.eqb negb]. apply wp_ret, Hsame. intros y [->|Hy]%elem_of_cons; [lia|]. specialize (Hx2 y Hy). unfold before in Hx2. lia.
Qed.

(** The end of lmb_add_region when a region has grown. *)
Lemma grown_ok r r' l l1 q l2 p :
  l = l1 ++ q :: l2 -> separated (l1 ++ q :: l2) -> placed p -> disjoint_from p (l1 ++ q :: l2) -> Forall (fun x => x <> p /\ ~ adjacent p x) l1 ->
  (base p + size p = base q /\ table r' (l1 ++ LmbProperty (base p) (size q + size p) :: l2) \/
   base q + size q = base p /\ base p + size p <> base q /\ table r' (l1 ++ LmbProperty (base q) (size q + size p) :: l2)) ->
  wp (c ← get_cnt;
      coalesced ← (if Z.of_nat (length l1) <? u32 (c - 1) then
                     adjacent ← lmb_regions_adjacent (Z.of_nat (length l1)) (Z.of_nat (length l1) + 1);
                     if negb (adjacent =? 0) then
                       lmb_coalesce_regions (Z.of_nat (length l1)) (Z.of_nat (length l1) + 1) ;; mret (1 + 1)
                     else mret 1
                   else mret 1);
      if negb (coalesced =? 0) then mret coalesced else
      if MAX_LMB_REGIONS <=? c then mret (-1) else
      insert_sorted (base p) (size p) ;; mret 0)
    (fun c r' => c = -1 /\ r' = r /\ length l = 128%nat \/
      0 <= c /\ exists l', l' <> [] /\ holds r' l' /\ forall a, covered l' a <-> covered l a \/ a ∈ p) r'.
Proof.
  intros El Hs Hp Hd Hna Hcase.
  assert (exists q', table r' (l1 ++ q' :: l2) /\ placed q' /\ (forall x, x ∈ l1 -> before x q') /\ (forall x, x ∈ l2 -> base q' + size q' <= base x) /\
    forall a, a ∈ q' <-> a ∈ q \/ a ∈ p) as (q' & Ht & Hq' & Hb1 & Hb2 & Ha).
  { pose proof Hs as (_ & (Hq0 & Hq1 & Hq2) & _)%separated_middle. pose proof Hp as (Hp0 & Hp1 & Hp2). destruct Hcase as [[E Ht]|(E & _ & Ht)]; eexists; (split; [exact Ht|]).
    - pose proof (grow_down _ _ _ _ Hs Hp Hd Hna E) as (_ & Hpl & Hb1 & Hb2)%separated_middle. do 2 (split; [done|]).
      split; [intros x Hx; specialize (Hb2 x Hx); unfold before in Hb2; simpl in *; lia|]. intros a. rewrite !elem_region. cbn [base size]. lia.
    - destruct (grow_up _ _ _ _ Hs Hp Hd E) as (Hpl & Hb1 & Hb2). do 3 (split; [done|]). intros a. rewrite !elem_region. cbn [base size]. lia. }
  pose proof Hs as (Hs' & _)%separated_middle. apply wp_bind. eapply wp_get_cnt; [exact Ht|]. apply wp_bind.
  eapply wp_mono; [exact (merge_next _ _ _ _ Ht Hs' Hq' Hb1 Hb2)|]. intros c r'' (Hc & l' & Ht' & Hne & Hs'' & Hcov).
  rewrite (proj2 (Z.eqb_neq c 0)) by lia. apply wp_ret. right. split; [lia|]. exists l'. split; [done|]. split; [split; [done|by destruct l']|].
  intros a. by rewrite Hcov, El, (covered_grow _ q q').
Qed.

(** lmb_add_region: a region that is already there, or one that overlaps none. *)
Lemma lmb_add_region_ok r l p :
  holds r l -> placed p -> p ∈ l \/ disjoint_from p l ->
  wp (lmb_add_region (base p) (size p)) (fun c r' =>
    c = -1 /\ r' = r /\ length l = 128%nat \/
    0 <= c /\ exists l', l' <> [] /\ holds r' l' /\ forall a, covered l' a <-> covered l a \/ a ∈ p) r.
Proof.
  intros [Hs Ht] Hp Hd. assert (LmbProperty (base p) (size p) = p) as Ep by (by destruct p).
  destruct l as [|q0 l0].
  { destruct Hd as [Hd|Hd]; [by apply not_elem_of_nil in Hd|]. apply wp_bind. eapply wp_get_cnt; [exact Ht|]. apply wp_bind.
    change 0 with (Z.of_nat 0) at 1. eapply wp_get_rgn; [exact Ht|reflexivity|]. cbn [length Z.of_nat size Z.eqb andb Pos.of_succ_nat Pos.eqb].
    apply wp_bind. change 0 with (Z.of_nat 0) at 1. eapply wp_set_rgn; [exact Ht|simpl; lia|]. intros r' Ht'. apply wp_ret. right. split; [lia|].
    exists [p]. split; [done|]. cbn [insert list_insert] in Ht'. rewrite Ep in Ht'. split; [split; [|done]|].
    - apply separated_cons. split; [done|]. split; [apply separated_nil|]. intros q Hq. by apply not_elem_of_nil in Hq.
    - intros a. rewrite covered_cons. tauto. }
  set (l := q0 :: l0) in *. assert (holds r l) as Hr by (by split). apply wp_bind. eapply wp_get_cnt; [exact Ht|]. apply wp_bind.
  change 0 with (Z.of_nat 0) at 1. eapply (wp_get_rgn _ _ 0 q0); [exact Ht|done|]. pose proof (separated_placed l q0 Hs ltac:(left)) as (_ & Hq0 & _).
  rewrite (proj2 (Z.eqb_neq (size q0) 0)), andb_false_r by lia. apply wp_bind. eapply coalesce_one_ok; [exact Ht|apply Hs|exact Hp| | |].
  - intros Hin. apply wp_ret. right. split; [lia|]. exists l. split; [done|]. split; [done|]. intros a. split; [tauto|]. intros [?|Ha]; [done|]. by exists p.
  - intros l1 q l2 r' El Hna Hqp Hcase Hsz. destruct Hd as [Hin|Hd].
    { exfalso. rewrite El in Hin. rewrite El in Hs. destruct Hp as (? & ? & ?). apply elem_of_app in Hin as [Hin|[->|Hin]%elem_of_cons]; [|done|].
      - eapply Forall_forall in Hna; [|exact Hin]. by destruct Hna.
      - pose proof Hs as (_ & (? & ? & ?) & _ & Hb)%separated_middle. specialize (Hb p Hin). unfold before in Hb. destruct Hcase as [[? _]|[? _]]; lia. }
    rewrite El in Hs, Hd. eapply grown_ok; [exact El|exact Hs|exact Hp|exact Hd|exact Hna|exact Hcase].
  - intros Hna. destruct Hd as [Hin|Hd]; [eapply Forall_forall in Hna; [|exact Hin]; by destruct Hna|]. pose proof (table_length _ _ Ht) as Hn.
    assert (0 < length l)%nat by (simpl; lia). apply wp_bind. eapply wp_get_cnt; [exact Ht|]. rewrite wrap_id by (split; lia).
    rewrite (proj2 (Z.ltb_ge _ _)) by lia. apply wp_bind, wp_ret. cbn [Z.eqb negb]. unfold MAX_LMB_REGIONS. destruct (Z.leb_spec 128 (Z.of_nat (length l))).
    { apply wp_ret. left. do 2 (split; [done|]). lia. }
    destruct (insert_split l p Hs Hp Hd Hna) as (l1 & l2 & El & H1 & H2 & Hs'). assert (l1 ++ l2 <> []) as Hne by (by rewrite <- El). rewrite El in Ht.
    apply wp_bind. eapply insert_sorted_ok; [exact Ht|rewrite <- El; lia|done|done|done|]. intros r' Ht'. apply wp_ret. right. split; [lia|].
    exists (l1 ++ p :: l2). split; [by destruct l1|]. split; [split; [done|by destruct l1]|]. intros a. rewrite El, !covered_app, covered_cons. tauto.
Qed.
End Add.

(** ** The table is determined by the addresses it covers *)

Section Canonical.
Implicit Types (l : list lmb_property) (p q : lmb_property).

Lemma covered_above p l a : separated (p :: l) -> covered l a -> base p + size p < a.
Proof. intros (_ & _ & Hb)%separated_cons (q & Hq & Ha). specialize (Hb q Hq). unfold before in Hb. rewrite elem_region in Ha. lia. Qed.

Lemma head_le p l q m : separated (p :: l) -> separated (q :: m) -> (forall a, covered (p :: l) a -> covered (q :: m) a) -> base q <= base p.
Proof.
  intros Hl Hm Hsub. pose proof Hl as ((? & ? & ?) & _)%separated_cons. pose proof Hm as ((? & ? & ?) & _)%separated_cons.
  destruct (proj1 (covered_cons _ _ _) (Hsub (base p) ltac:(apply covered_cons; left; apply elem_region; lia))) as [Ha|Ha].
  - rewrite elem_region in Ha. lia.
  - pose proof (covered_above _ _ _ Hm Ha). lia.
Qed.

(** The first region ends where the covered addresses stop. *)
Lemma head_end_le p l q m :
  separated (p :: l) -> separated (q :: m) -> base p = base q -> (forall a, covered (p :: l) a -> covered (q :: m) a) -> base p + size p <= base q + size q.
Proof.
  intros Hl Hm E Hsub. pose proof Hl as ((? & ? & ?) & _)%separated_cons. pose proof Hm as ((? & ? & ?) & _)%separated_cons.
  destruct (Z.le_gt_cases (base p + size p) (base q + size q)); [done|]. exfalso.
  destruct (proj1 (covered_cons _ _ _) (Hsub (base q + size q) ltac:(apply covered_cons; left; apply elem_region; lia))) as [Ha|Ha].
  - rewrite elem_region in Ha. lia.
  - pose proof (covered_above _ _ _ Hm Ha). lia.
Qed.

Lemma separated_unique l m : separated l -> separated m -> (forall a, covered l a <-> covered m a) -> l = m.
Proof.
  revert m. induction l as [|p l IH]; intros [|q m] Hl Hm E; [done| | |].
  - exfalso. apply separated_cons in Hm as ((? & ? & ?) & _). apply (covered_nil (base q)), E, covered_cons. left. apply elem_region. lia.
  - exfalso. apply separated_cons in Hl as ((? & ? & ?) & _). apply (covered_nil (base p)), E, covered_cons. left. apply elem_region. lia.
  - assert (base p = base q) as Eb by (apply Z.le_antisymm; [eapply head_le; [exact Hm|exact Hl|]|eapply head_le; [exact Hl|exact Hm|]]; intros a; apply E).
    assert (size p = size q) as Es.
    { assert (base p + size p <= base q + size q) by (eapply head_end_le; [exact Hl|exact Hm|done|intros a; apply E]).
      assert (base q + size q <= base p + size p) by (eapply head_end_le; [exact Hm|exact Hl|done|intros a; apply E]). lia. }
    assert (p = q) as <- by (destruct p, q; simpl in *; congruence). f_equal. apply IH; [by apply separated_cons in Hl as (_ & ? & _)|by apply separated_cons in Hm as (_ & ? & _)|].
    intros a. specialize (E a). rewrite !covered_cons in E. split; intros Ha.
    + pose proof (covered_above _ _ _ Hl Ha). destruct (proj1 E (or_intror Ha)) as [Hp|?]; [rewrite elem_region in Hp; lia|done].
    + pose proof (covered_above _ _ _ Hm Ha). destruct (proj2 E (or_intror Ha)) as [Hp|?]; [rewrite elem_region in Hp; lia|done].
Qed.
End Canonical.

(** ** Removing a region *)

Definition contains (q p : lmb_property) : Prop := base q <= base p /\ base p + size p <= base q + size q.

Lemma wp_on_memory {A} (c : RG A) (Q : A -> lmb -> Prop) m :
  wp c (fun a r => Q a (Lmb (rmo_size m) r (reserved m))) (memory m) -> wp (on_memory c) Q m.
Proof. unfold wp, on_memory. by destruct (c (memory m)) as [[a r]|]. Qed.

Lemma wp_on_reserved {A} (c : RG A) (Q : A -> lmb -> Prop) m :
  wp c (fun a r => Q a (Lmb (rmo_size m) (memory m) r)) (reserved m) -> wp (on_reserved c) Q m.
Proof. unfold wp, on_reserved. by destruct (c (reserved m)) as [[a r]|]. Qed.

Section Remove.
Implicit Types (r : lmb_region) (l : list lmb_property) (p q : lmb_property).

(** The entries in use, the dummy entry of an empty table included. *)
Lemma holds_table r l : holds r l -> exists l', table r l' /\ Forall (fun q => 0 <= base q /\ 0 <= size q /\ base q + size q < 2 ^ 64) l' /\ forall q, q ∈ l' <-> q ∈ l \/ l = [] /\ q = LmbProperty 0 0.
Proof.
  intros [[Hp _] Ht]. destruct l as [|p l].
  - exists [LmbProperty 0 0]. split; [done|]. split; [constructor; [simpl; lia|done]|]. intros q. rewrite list_elem_of_singleton. split; [by right|].
    intros [H|[_ ?]]; [by apply not_elem_of_nil in H|done].
  - exists (p :: l). split; [done|]. split; [|naive_solver]. eapply Forall_impl; [exact Hp|]. intros q (? & ? & ?). lia.
Qed.

Lemma find_container_ok r l p Q :
  table r l -> Forall (fun q => 0 <= base q /\ 0 <= size q /\ base q + size q < 2 ^ 64) l ->
  (forall l1 q l2, l = l1 ++ q :: l2 -> contains q p -> Q (Z.of_nat (length l1)) r) ->
  ((forall q, q ∈ l -> ~ contains q p) -> Q (Z.of_nat (length l)) r) -> wp (find_container (base p) (base p + size p)) Q r.
Proof.
  intros Ht Hl Q1 Q2. pose proof (table_length _ _ Ht) as Hn.
  apply (wp_loop (fun i r' => r' = r /\ exists l1 l2, l = l1 ++ l2 /\ i = Z.of_nat (length l1) /\ forall q, q ∈ l1 -> ~ contains q p)
    (fun i => Z.to_nat (129 - i))); [split; [done|]; exists [], l; split; [done|]; split; [done|]; intros q Hq; by apply not_elem_of_nil in Hq|lia|].
  intros i r' (-> & l1 & l2 & E & -> & Hno). apply wp_bind. eapply wp_get_cnt; [exact Ht|]. destruct l2 as [|q l2].
  { rewrite app_nil_r in E. subst l1. rewrite Z.ltb_irrefl. apply wp_ret. auto. }
  assert (length l1 < length l)%nat as Hlt by (rewrite E, length_app; simpl; lia). rewrite (proj2 (Z.ltb_lt _ _)) by lia.
  assert (l !! length l1 = Some q) as Hq by (rewrite E; by apply list_lookup_middle). apply wp_bind. eapply wp_get_rgn; [exact Ht|exact Hq|].
  destruct (Forall_lookup_1 _ _ _ _ Hl Hq) as (? & ? & ?). rewrite wrap_id by (split; lia).
  destruct (Z.leb_spec (base q) (base p)), (Z.leb_spec (base p + size p) (base q + size q)); cbn [andb]; apply wp_ret; [by eapply Q1|split; [|lia]..].
  all: split; [done|]; exists (l1 ++ [q]), l2; rewrite <- app_assoc; split; [done|]; split; [rewrite !length_app; simpl; lia|];
    intros x [Hx| ->%list_elem_of_singleton]%elem_of_app; [by apply Hno|unfold contains; lia].
Qed.

#[global] Instance in_region_dec a p : Decision (a ∈ p).
Proof. unfold elem_of, in_region. apply _. Defined.

#[global] Instance covered_dec l a : Decision (covered l a).
Proof. destruct (decide (Exists (fun p => a ∈ p) l)) as [H|H]; [left|right]; by rewrite Exists_exists in H. Defined.

Lemma covered_other l1 q l2 a : separated (l1 ++ q :: l2) -> covered (l1 ++ l2) a -> ~ a ∈ q.
Proof.
  intros (Hs & (? & ? & ?) & Hb1 & Hb2)%separated_middle (x & Hx & Ha). rewrite elem_region in *. pose proof (separated_placed _ _ Hs Hx) as (? & ? & ?).
  unfold before in *. apply elem_of_app in Hx as [Hx|Hx]; [specialize (Hb1 x Hx)|specialize (Hb2 x Hx)]; lia.
Qed.

Lemma covered_middle l1 q l2 a : covered (l1 ++ q :: l2) a <-> covered (l1 ++ l2) a \/ a ∈ q.
Proof. rewrite !covered_app, covered_cons. tauto. Qed.

(** A region shrinks. *)
Lemma shrink l1 q q' l2 :
  separated (l1 ++ q :: l2) -> placed q' -> contains q q' ->
  separated (l1 ++ q' :: l2) /\ forall a, covered (l1 ++ q' :: l2) a <-> covered (l1 ++ q :: l2) a /\ (a ∈ q -> a ∈ q').
Proof.
  intros Hs Hq' [? ?]. split.
  - apply separated_middle in Hs as (Hs & (? & ? & ?) & Hb1 & Hb2). apply separated_middle. do 2 (split; [done|]). unfold before in *.
    split; intros x Hx; [specialize (Hb1 x Hx)|specialize (Hb2 x Hx)]; lia.
  - intros a. rewrite !covered_middle. pose proof (covered_other l1 q l2 a Hs) as Hno. assert (a ∈ q' -> a ∈ q) by (rewrite !elem_region; lia). tauto.
Qed.

Lemma table_fun r l l' : table r l -> table r l' -> l = l'.
Proof.
  intros (E & _ & _ & rest & Er) (E' & _ & _ & rest' & Er'). rewrite Er in Er'. apply app_inj_1 in Er'; [by destruct Er'|lia].
Qed.

(** What lmb_remove leaves of the memory. *)
Definition removed (l : list lmb_property) (p : lmb_property) (c : Z) (r r' : lmb_region) : Prop :=
  (forall q, q ∈ l -> ~ contains q p) /\ c = -1 /\ r' = r \/
  l = [p] /\ c = 0 /\ table r' [] \/
  (exists q l', q ∈ l /\ contains q p /\ base q < base p /\ base p + size p < base q + size q /\ length l = 128%nat /\ c = -1 /\
     l' <> [] /\ holds r' l' /\ forall a, covered l' a <-> covered l a /\ ~ base p <= a < base q + size q) \/
  (exists q l', q ∈ l /\ contains q p /\ 0 <= c /\ l' <> [] /\ holds r' l' /\ forall a, covered l' a <-> covered l a /\ ~ a ∈ p).

Lemma holds_table_of r l : holds r l -> l <> [] -> table r l.
Proof. intros [_ Ht]. by destruct l. Qed.

Lemma holds_of_table r l : table r l -> separated l -> l <> [] -> holds r l.
Proof. intros Ht Hs Hne. split; [done|]. by destruct l. Qed.

(** The region in the middle of another: the part above it is added again. *)
Lemma split_ok r l1 q l2 p :
  table r (l1 ++ LmbProperty (base q) (base p - base q) :: l2) -> separated (l1 ++ q :: l2) -> placed p ->
  base q < base p -> base p + size p < base q + size q ->
  wp (lmb_add_region (base p + size p) (base q + size q - (base p + size p)))
    (fun c r' => exists l', l' <> [] /\ holds r' l' /\
      (length (l1 ++ q :: l2) = 128%nat /\ c = -1 /\ (forall a, covered l' a <-> covered (l1 ++ q :: l2) a /\ ~ base p <= a < base q + size q) \/
       0 <= c /\ forall a, covered l' a <-> covered (l1 ++ q :: l2) a /\ ~ a ∈ p)) r.
Proof.
  intros Ht Hs (Hp0 & Hp1 & Hp2) H1 H2. pose proof Hs as (_ & (Hq0 & Hq1 & Hq2) & _)%separated_middle.
  set (q1 := LmbProperty (base q) (base p - base q)) in *. set (q2 := LmbProperty (base p + size p) (base q + size q - (base p + size p))).
  destruct (shrink l1 q q1 l2 Hs) as [Hs1 Hc1]; [split; simpl; lia|split; simpl; lia|]. destruct (shrink l1 q q2 l2 Hs) as [Hs2 Hc2]; [split; simpl; lia|split; simpl; lia|].
  assert (holds r (l1 ++ q1 :: l2)) as Hh by (apply holds_of_table; [done|done|by destruct l1]).
  change (base p + size p) with (base q2) at 1. change (base q + size q - (base p + size p)) with (size q2).
  eapply wp_mono; [apply (lmb_add_region_ok r (l1 ++ q1 :: l2) q2); [done|split; simpl; lia|right]|].
  - intros a Ha Hcov. apply Hc1 in Hcov as [_ Hcov]. rewrite !elem_region in *. simpl in *. lia.
  - intros c r' [(-> & -> & Hfull)|(Hc & l' & Hne & Hh' & Hcov)].
    + exists (l1 ++ q1 :: l2). split; [by destruct l1|]. split; [done|]. left. rewrite length_app in *. cbn [length] in *. split; [done|]. split; [done|].
      intros a. rewrite Hc1, !elem_region. cbn [base size q1]. assert ((base q <= a < base q + size q -> base q <= a < base q + (base p - base q)) <-> ~ base p <= a < base q + size q) as -> by lia. done.
    + exists l'. split; [done|]. split; [done|]. right. split; [done|]. intros a. rewrite Hcov, Hc1.
      assert (a ∈ q2 -> a ∈ q) by (rewrite !elem_region; cbn [base size q2]; lia).
      assert ((a ∈ q -> a ∈ q1) \/ a ∈ q2 <-> ~ a ∈ p) by (rewrite !elem_region; cbn [base size q1 q2]; lia).
      assert (a ∈ q -> covered (l1 ++ q :: l2) a) by (rewrite covered_middle; by right). tauto.
Qed.

Lemma lmb_remove_ok m l p :
  holds (memory m) l -> placed p ->
  wp (lmb_remove (base p) (size p)) (fun c m' =>
    rmo_size m' = rmo_size m /\ reserved m' = reserved m /\ removed l p c (memory m) (memory m')) m.
Proof.
  intros Hh Hp. pose proof Hp as (Hp0 & Hp1 & Hp2). destruct (holds_table _ _ Hh) as (k & Ht & Hk & Hkl). unfold lmb_remove. cbv zeta. rewrite (wrap_id 64 (base p + size p)) by (split; lia).
  apply wp_on_memory, wp_bind. eapply find_container_ok; [exact Ht|exact Hk| |].
  2:{ intros Hno. apply wp_bind. eapply wp_get_cnt; [exact Ht|]. rewrite Z.eqb_refl. apply wp_ret. split; [done|]. split; [done|]. left. split; [|by destruct m].
      intros q Hq. apply Hno, Hkl. by left. }
  intros l1 q l2 E Hc. assert (l = l1 ++ q :: l2) as El.
  { destruct l as [|x l]; [|by destruct Hh as [_ Ht']; pose proof (table_fun _ _ _ Ht Ht'); congruence].
    exfalso. assert (q ∈ k) as [Hq|[_ ->]]%Hkl by (rewrite E; apply elem_of_app; right; left); [by apply not_elem_of_nil in Hq|]. destruct Hc; simpl in *; lia. }
  rewrite E, <- El in Ht. clear k Hkl Hk E. pose proof Hh as [Hs _]. rewrite El in Hs. pose proof Hs as (Hs' & (Hq0 & Hq1 & Hq2) & Hb1 & Hb2)%separated_middle.
  pose proof (table_length _ _ Ht) as Hn.
  assert (q ∈ l) as Hql by (rewrite El; apply elem_of_app; right; left).
  apply wp_bind. eapply wp_get_cnt; [exact Ht|]. assert (length l1 < length l)%nat as Hlt by (rewrite El, length_app; simpl; lia). rewrite (proj2 (Z.eqb_neq _ _)) by lia.
  apply wp_bind. eapply wp_get_rgn; [exact Ht|rewrite El; by apply list_lookup_middle|]. rewrite (wrap_id 64 (base q + size q)) by (split; lia). destruct Hc as [Hc1 Hc2].
  assert (forall x, <[length l1 := x]> l = l1 ++ x :: l2) as Eins by (intros x; rewrite El, insert_app_r_alt, Nat.sub_diag by lia; done).
  assert (forall q', placed q' -> contains q q' -> (forall a, a ∈ q' <-> a ∈ q /\ ~ a ∈ p) ->
    wp (set_rgn (Z.of_nat (length l1)) q' ;; mret 0) (fun c r => rmo_size (Lmb (rmo_size m) r (reserved m)) = rmo_size m /\
      reserved (Lmb (rmo_size m) r (reserved m)) = reserved m /\ removed l p c (memory m) (memory (Lmb (rmo_size m) r (reserved m)))) (memory m)) as Htrim.
  { intros q' Hq' Hqq' Ha. apply wp_bind. eapply wp_set_rgn; [exact Ht|lia|]. intros r' Ht'. rewrite Eins in Ht'. apply wp_ret. split; [done|]. split; [done|].
    destruct (shrink l1 q q' l2 Hs Hq' Hqq') as [Hs1 Hcov]. do 3 right. exists q, (l1 ++ q' :: l2). split; [done|]. split; [done|]. split; [lia|].
    split; [by destruct l1|]. split; [apply holds_of_table; [done|done|by destruct l1]|]. intros a. rewrite Hcov, <- El, Ha.
    pose proof (covered_other l1 q l2 a Hs). assert (a ∈ p -> a ∈ q) by (rewrite !elem_region; lia). rewrite El, covered_middle. tauto. }
  destruct (Z.eqb_spec (base q) (base p)) as [Eb|Eb]; cbn [andb]; [destruct (Z.eqb_spec (base q + size q) (base p + size p)) as [Ee|Ee]|destruct (Z.eqb_spec (base q + size q) (base p + size p)) as [Ee|Ee]].
  - assert (q = p) as -> by (destruct p, q; simpl in *; f_equal; lia). apply wp_bind. rewrite El in Ht. eapply lmb_remove_region_ok; [exact Ht|]. intros r' Ht'.
    apply wp_ret. split; [done|]. split; [done|]. destruct (decide (l1 ++ l2 = [])) as [E0|Hne].
    { right. left. rewrite E0 in Ht'. apply app_eq_nil in E0 as [-> ->]. done. }
    do 3 right. exists p, (l1 ++ l2). split; [done|]. split; [done|]. split; [lia|]. split; [done|]. split; [by apply holds_of_table|].
    intros a. rewrite El, covered_middle. pose proof (covered_other l1 p l2 a Hs). tauto.
  - rewrite wrap_id by (split; lia). apply Htrim; [split; simpl; lia|split; simpl; lia|]. intros a. rewrite !elem_region. simpl. lia.
  - rewrite wrap_id by (split; lia). apply Htrim; [split; simpl; lia|split; simpl; lia|]. intros a. rewrite !elem_region. simpl. lia.
  - rewrite !wrap_id by (split; lia). apply wp_bind. eapply wp_set_rgn; [exact Ht|lia|]. intros r' Ht'. rewrite Eins in Ht'.
    eapply wp_mono; [apply (split_ok r' l1 q l2 p); [done|done|done|lia|lia]|]. intros c r'' (l' & Hne & Hh' & Hcase). split; [done|]. split; [done|].
    rewrite <- El in Hcase. right. right. destruct Hcase as [(Hf & Hm1 & Hcov)|[H0 Hcov]]; [left|right]; exists q, l'; [|done].
    split; [done|]. split; [done|]. split; [lia|]. split; [lia|]. done.
Qed.
End Remove.

(** ** Allocation *)

Section Alloc.
Implicit Types (r : lmb_region) (l : list lmb_property) (p q : lmb_property) (m : lmb).

Definition overlap (p q : lmb_property) : Prop := base p < base q + size q /\ base q < base p + size p.

Lemma lmb_overlaps_region_ok r l p Q :
  holds r l -> placed p -> (disjoint_from p l -> Q (-1) r) ->
  (forall l1 q l2, l = l1 ++ q :: l2 -> overlap p q -> Q (Z.of_nat (length l1)) r) ->
  wp (lmb_overlaps_region (base p) (size p)) Q r.
Proof.
  intros Hh (Hp0 & Hp1 & Hp2) Q0 Q1. destruct (holds_table _ _ Hh) as (k & Ht & Hk & Hkl). pose proof (table_length _ _ Ht) as Hn.
  apply wp_bind. eapply wp_get_cnt; [exact Ht|]. apply wp_bind.
  apply (wp_loop (fun i r' => r' = r /\ exists l1 l2, k = l1 ++ l2 /\ i = Z.of_nat (length l1) /\ forall q, q ∈ l1 -> ~ overlap p q)
    (fun i => Z.to_nat (129 - i))); [split; [done|]; exists [], k; split; [done|]; split; [done|]; intros q Hq; by apply not_elem_of_nil in Hq|lia|].
  intros i r' (-> & l1 & l2 & E & -> & Hno). destruct l2 as [|q l2].
  { rewrite app_nil_r in E. subst l1. rewrite Z.ltb_irrefl. apply wp_ret, wp_ret. rewrite Z.ltb_irrefl. apply Q0. intros a Ha (q & Hq & Haq).
    apply (Hno q); [apply Hkl; by left|]. rewrite elem_region in *. unfold overlap. lia. }
  assert (length l1 < length k)%nat as Hlt by (rewrite E, length_app; simpl; lia). rewrite (proj2 (Z.ltb_lt _ _)) by lia.
  assert (k !! length l1 = Some q) as Hq by (rewrite E; by apply list_lookup_middle). apply wp_bind. eapply wp_get_rgn; [exact Ht|exact Hq|].
  destruct (Forall_lookup_1 _ _ _ _ Hk Hq) as (? & ? & ?). unfold lmb_addrs_overlap. rewrite !wrap_id by (split; lia).
  destruct (Z.ltb_spec (base p) (base q + size q)), (Z.ltb_spec (base q) (base p + size p)); cbn [andb]; apply wp_ret.
  - apply wp_ret. rewrite (proj2 (Z.ltb_lt _ _)) by lia. apply (Q1 l1 q l2); [|done]. rewrite <- E. destruct l as [|x l]; [|destruct Hh as [_ Ht']; by eapply table_fun].
    exfalso. assert (q ∈ k) as [Hqk|[_ ->]]%Hkl by (by eapply list_elem_of_lookup_2); [by apply not_elem_of_nil in Hqk|simpl in *; lia].
  - split; [|lia]. split; [done|]. exists (l1 ++ [q]), l2. rewrite <- app_assoc. split; [done|]. split; [rewrite !length_app; simpl; lia|].
    intros x [Hx| ->%list_elem_of_singleton]%elem_of_app; [by apply Hno|unfold overlap; lia].
  - split; [|lia]. split; [done|]. exists (l1 ++ [q]), l2. rewrite <- app_assoc. split; [done|]. split; [rewrite !length_app; simpl; lia|].
    intros x [Hx| ->%list_elem_of_singleton]%elem_of_app; [by apply Hno|unfold overlap; lia].
  - lia.
Qed.

Lemma align_down_ok a k : 0 <= k < 64 -> 0 <= a ->
  (2 ^ k | lmb_align_down a (2 ^ k)) /\ 0 <= lmb_align_down a (2 ^ k) <= a /\ forall x, (2 ^ k | x) -> x <= a -> x <= lmb_align_down a (2 ^ k).
Proof.
  intros Hk Ha. assert (0 < 2 ^ k) by lia. assert (2 ^ k < 2 ^ 64) by (apply Z.pow_lt_mono_r; lia).
  unfold lmb_align_down. rewrite wrap_id by (split; lia). rewrite ldiff_pow2 by lia. pose proof (Z.mul_div_le a (2 ^ k) ltac:(lia)).
  pose proof (Z.div_pos a (2 ^ k) Ha ltac:(lia)). split; [by exists (a / 2 ^ k); rewrite Z.mul_comm|]. split; [nia|].
  intros x [y ->] Hx. rewrite Z.mul_comm. apply Z.mul_le_mono_nonneg_l; [lia|]. apply Z.div_le_lower_bound; lia.
Qed.

Lemma align_up_ok s k : 0 <= k < 64 -> 0 < s -> s + 2 ^ k <= 2 ^ 64 ->
  (2 ^ k | lmb_align_up s (2 ^ k)) /\ s <= lmb_align_up s (2 ^ k) < s + 2 ^ k.
Proof.
  intros Hk Hs Hb. assert (0 < 2 ^ k) by lia. unfold lmb_align_up. rewrite (wrap_id 64 (2 ^ k - 1)) by (split; lia). rewrite wrap_id by (split; lia).
  rewrite ldiff_pow2 by lia. split; [by exists ((s + (2 ^ k - 1)) / 2 ^ k); rewrite Z.mul_comm|].
  pose proof (Z.div_mod (s + (2 ^ k - 1)) (2 ^ k) ltac:(lia)). pose proof (Z.mod_pos_bound (s + (2 ^ k - 1)) (2 ^ k) ltac:(lia)). lia.
Qed.

(** A place for [s] bytes from [lo] on, not above [hi], that no region of [l] touches. *)
Definition vacant (l : list lmb_property) (s k lo hi x : Z) : Prop :=
  lo <= x <= hi /\ (2 ^ k | x) /\ disjoint_from (LmbProperty x s) l.

(** The outcome of a search: no place; the highest place, now reserved; a full table. *)
Definition placed_at {R} (miss : R) (hit : bool -> Z -> R) (P : Z -> Prop) (s : Z) (m : lmb) (l : list lmb_property) (c : R) (m' : lmb) : Prop :=
  c = miss /\ m' = m /\ (forall x, ~ P x) \/
  rmo_size m' = rmo_size m /\ memory m' = memory m /\ exists y, P y /\
    (c = hit true y /\ reserved m' = reserved m /\ length l = 128%nat \/
     c = hit false y /\ (forall x, P x -> x <= y) /\ exists l', l' <> [] /\ holds (reserved m') l' /\ forall a, covered l' a <-> covered l a \/ y <= a < y + s).

Lemma placed_at_ext {R} (miss : R) hit (P P' : Z -> Prop) s m l c m' :
  (forall x, P x <-> P' x) -> placed_at miss hit P s m l c m' -> placed_at miss hit P' s m l c m'.
Proof.
  intros E [(-> & -> & Hno)|(E1 & E2 & y & Hy & H)]; [left; split; [done|]; split; [done|]; intros x Hx; by eapply Hno, E|right].
  split; [done|]. split; [done|]. exists y. split; [by apply E|]. destruct H as [H|(-> & Hmax & H)]; [by left|right]. split; [done|]. split; [|done]. intros x Hx. by apply Hmax, E.
Qed.

(** The loop that both allocators run: from [b] downwards while [test] holds. *)
Definition scan_from {R} (test : Z -> bool) (miss : R) (hit : bool -> Z -> R) (s align b : Z) : LM R :=
  loop 131 (fun b =>
    if test b then
      j ← on_reserved (lmb_overlaps_region b s);
      if j <? 0 then
        r ← on_reserved (lmb_add_region b s);
        break (hit (r <? 0) b)
      else
      p ← on_reserved (get_rgn j);
      if base p <? s then break miss
      else continue (lmb_align_down (u64 (base p - s)) align)
    else break miss) b.

(** Every place below one that overlaps a region ends at or below the begin of the region. *)
Lemma vacant_below l s k lo x b q : 0 < s -> q ∈ l -> 0 < size q -> overlap (LmbProperty b s) q -> vacant l s k lo b x -> x + s <= base q.
Proof.
  intros Hs Hq Hsz [Ho1 Ho2] (Hx1 & _ & Hd). cbn [base size] in *. destruct (Z.le_gt_cases (x + s) (base q)); [done|]. exfalso.
  apply (Hd (Z.max x (base q))); [apply elem_region; simpl; lia|]. exists q. split; [done|]. apply elem_region. lia.
Qed.

Lemma scan_from_ok {R} test (miss : R) hit m l lo b s k :
  (forall x, 0 <= x <= b -> test x = (lo <=? x)) ->
  holds (reserved m) l -> 0 <= k < 64 -> 0 < s -> 0 <= b -> b + s < 2 ^ 64 -> (2 ^ k | b) -> 0 <= lo ->
  wp (scan_from test miss hit s (2 ^ k) b) (placed_at miss hit (vacant l s k lo b) s m l) m.
Proof.
  intros Htest Hh Hk Hs Hb0 Hb1 Hdiv Hlo. pose proof Hh as [Hsep _].
  assert (length l <= 128)%nat as Hlen by (destruct Hh as [_ Ht]; destruct l; [simpl; lia|by destruct Ht as (_ & ? & _)]).
  eapply (wp_loop_depth (fun n x m' => m' = m /\ 0 <= x <= b /\ (2 ^ k | x) /\ (forall y, vacant l s k lo b y -> y <= x) /\
    forall j q, l !! j = Some q -> (n <= j)%nat -> x + s <= base q)) with (n := length l); [|split; [done|]; split; [lia|]; split; [done|]; split|lia].
  2:{ intros y (Hy & _). lia. }
  2:{ intros j q Hj Hle. apply lookup_lt_Some in Hj. lia. }
  intros n x m' (-> & Hx & Hxd & Hmax & Hab). rewrite Htest by done. destruct (Z.leb_spec lo x).
  2:{ apply wp_ret. left. split; [done|]. split; [done|]. intros y Hy. pose proof (Hmax y Hy). destruct Hy as (? & _). lia. }
  set (p := LmbProperty x s). assert (placed p) as Hp by (split; simpl; lia). apply wp_bind, wp_on_reserved. change x with (base p) at 1. change s with (size p) at 1.
  eapply lmb_overlaps_region_ok; [exact Hh|exact Hp| |].
  - intros Hd. cbn [Z.ltb Z.compare]. apply wp_bind, wp_on_reserved. cbn [reserved]. change x with (base p) at 1. change s with (size p) at 1.
    eapply wp_mono; [apply (lmb_add_region_ok _ l p); [done|done|by right]|]. intros c r' Hc. apply wp_ret. right. cbn [rmo_size memory reserved].
    split; [done|]. split; [done|]. exists x. split; [split; [lia|done]|]. destruct Hc as [(-> & -> & Hfull)|(Hc & l' & Hne & Hh' & Hcov)]; [left; done|right].
    rewrite (proj2 (Z.ltb_ge c 0)) by lia. split; [done|]. split; [done|]. exists l'. done.
  - intros l1 q l2 E Hov. assert (q ∈ l) as Hq by (rewrite E; apply elem_of_app; right; left). pose proof (separated_placed _ _ Hsep Hq) as (Hq0 & Hq1 & Hq2).
    assert (l !! length l1 = Some q) as Hlq by (rewrite E; by apply list_lookup_middle).
    rewrite (proj2 (Z.ltb_ge _ 0)) by lia. apply wp_bind, wp_on_reserved. cbn [reserved].
    assert (table (reserved m) l) as Ht by (apply holds_table_of; [done|rewrite E; by destruct l1]).
    eapply wp_get_rgn; [exact Ht|exact Hlq|]. replace (Lmb _ _ _) with m by (by destruct m).
    assert (forall y, vacant l s k lo b y -> y + s <= base q) as Hbelow.
    { intros y Hy. eapply (vacant_below l s k lo y x q); [done|done|done|done|]. destruct Hy as (? & ? & ?). pose proof (Hmax y ltac:(done)). split; [lia|done]. }
    destruct (Z.ltb_spec (base q) s).
    { apply wp_ret. left. split; [done|]. split; [done|]. intros y Hy. pose proof (Hbelow y Hy). destruct Hy as (? & _). lia. }
    rewrite wrap_id by (split; lia). destruct (align_down_ok (base q - s) k) as (Hd1 & Hd2 & Hd3); [done|lia|]. set (x' := lmb_align_down (base q - s) (2 ^ k)) in *.
    apply wp_ret. exists (length l1). split; [destruct (le_lt_dec n (length l1)) as [Hle|]; [|done]; specialize (Hab _ _ Hlq Hle); destruct Hov; simpl in *; lia|].
    assert (x' < x) by (destruct Hov; simpl in *; lia). split; [done|]. split; [lia|]. split; [done|]. split.
    + intros y Hy. apply Hd3; [by destruct Hy as (_ & ? & _)|]. specialize (Hbelow y Hy). lia.
    + intros j z Hj Hle. rewrite E in Hsep, Hj. apply separated_middle in Hsep as (_ & _ & _ & Hafter). rewrite lookup_app_r in Hj by done.
      destruct (j - length l1)%nat; [simplify_eq/=; lia|]. cbn in Hj. apply list_elem_of_lookup_2 in Hj. specialize (Hafter z Hj). unfold before in Hafter. lia.
Qed.

(** From the highest aligned place at or below [h]. *)
Lemma scan_aligned_ok {R} test (miss : R) hit m l lo h s k :
  (forall x, 0 <= x <= h -> test x = (lo <=? x)) ->
  holds (reserved m) l -> 0 <= k < 64 -> 0 < s -> 0 <= h -> h + s < 2 ^ 64 -> 0 <= lo ->
  wp (scan_from test miss hit s (2 ^ k) (lmb_align_down (u64 h) (2 ^ k))) (placed_at miss hit (vacant l s k lo h) s m l) m.
Proof.
  intros Htest Hh Hk Hs Hh0 Hh1 Hlo. rewrite wrap_id by (split; lia). destruct (align_down_ok h k Hk Hh0) as (Hd1 & Hd2 & Hd3).
  eapply wp_mono; [eapply (scan_from_ok _ _ _ _ _ lo); [intros x Hx; apply Htest; lia|exact Hh|done|done|lia|lia|done|lia]|].
  intros c m' Hc. eapply placed_at_ext; [|exact Hc]. intros x. unfold vacant. split; intros (? & ? & ?); (split; [|done]); [lia|].
  split; [lia|]. apply Hd3; [done|lia].
Qed.

Lemma separated_total l p q : separated l -> p ∈ l -> q ∈ l -> p = q \/ before p q \/ before q p.
Proof.
  induction l as [|x l IH]; intros Hs Hp Hq; [by apply not_elem_of_nil in Hp|]. apply separated_cons in Hs as (_ & Hs & Hb).
  apply elem_of_cons in Hp as [->|Hp]; apply elem_of_cons in Hq as [->|Hq]; auto.
Qed.

(** An interval of covered addresses is in one region. *)
Lemma covered_interval l x s : separated l -> 0 < s -> (forall a, x <= a < x + s -> covered l a) -> exists q, q ∈ l /\ contains q (LmbProperty x s).
Proof.
  intros Hl Hs Hc. destruct (Hc x ltac:(lia)) as (q & Hq & Hx). rewrite elem_region in Hx. exists q. split; [done|]. unfold contains. cbn [base size].
  destruct (Z.le_gt_cases (x + s) (base q + size q)); [lia|]. exfalso. destruct (Hc (base q + size q) ltac:(lia)) as (q' & Hq' & Ha). rewrite elem_region in Ha.
  destruct (separated_total _ _ _ Hl Hq Hq') as [<-|[Hb|Hb]]; unfold before in *; lia.
Qed.

(** A block that may be allocated: aligned memory below the limit, none of it reserved. *)
Definition free_block (mem res : list lmb_property) (s k max_addr x : Z) : Prop :=
  0 < x /\ (2 ^ k | x) /\ forall a, x <= a < x + s -> covered mem a /\ ~ covered res a /\ (max_addr <> 0 -> a < max_addr).

(** The highest begin of a block in a region. *)
Definition top (q : lmb_property) (s max_addr : Z) : Z :=
  (if max_addr =? 0 then base q + size q else Z.min (base q + size q) max_addr) - s.

Lemma free_block_vacant mem res s k max_addr x :
  separated mem -> 0 < s -> free_block mem res s k max_addr x <-> exists q, q ∈ mem /\ vacant res s k (Z.max 1 (base q)) (top q s max_addr) x.
Proof.
  intros Hm Hs. split.
  - intros (Hx & Hd & Ha). destruct (covered_interval mem x s Hm Hs) as (q & Hq & [Hc1 Hc2]); [intros a H; by apply Ha|]. cbn [base size] in *. exists q. split; [done|].
    split; [|split; [done|intros a H; rewrite elem_region in H; by apply Ha]]. split; [lia|]. unfold top.
    destruct (Z.eqb_spec max_addr 0); [lia|]. destruct (Ha (x + s - 1) ltac:(lia)) as (_ & _ & Hlt). specialize (Hlt ltac:(done)). lia.
  - intros (q & Hq & Hr & Hd & Hdis). split; [lia|]. split; [done|]. intros a Ha. unfold top in Hr. split; [exists q; split; [done|]; apply elem_region; destruct (max_addr =? 0); lia|].
    split; [apply Hdis; by apply elem_region|]. intros Hne. rewrite (proj2 (Z.eqb_neq _ _)) in Hr by done. lia.
Qed.

Lemma scan_down_from lo b s align :
  scan_down lo b s align = scan_from (fun b => negb (b =? 0) && (lo <=? b)) None (fun full y => Some (if full then 0 else y)) s align b.
Proof. reflexivity. Qed.

(** The search in one region. *)
Lemma scan_region_ok m l q s k max_addr :
  holds (reserved m) l -> 0 <= k < 64 -> 0 < s -> 0 <= base q -> s <= size q -> base q + size q < 2 ^ 64 -> 0 <= max_addr < 2 ^ 64 -> (max_addr = 0 \/ s <= max_addr) ->
  match scan_start q s (2 ^ k) max_addr with
  | None => forall x, ~ vacant l s k (Z.max 1 (base q)) (top q s max_addr) x
  | Some b => wp (scan_down (base q) b s (2 ^ k))
      (placed_at None (fun full y => Some (if full then 0 else y)) (vacant l s k (Z.max 1 (base q)) (top q s max_addr)) s m l) m
  end.
Proof.
  intros Hh Hk Hs Hq0 Hqs Hq2 Hmax Hle. unfold scan_start, top, LMB_ALLOC_ANYWHERE. cbv zeta. rewrite (wrap_id 64 (base q + size q)) by (split; lia).
  assert (forall h, 0 <= h -> h + s < 2 ^ 64 -> wp (scan_down (base q) (lmb_align_down (u64 h) (2 ^ k)) s (2 ^ k))
    (placed_at None (fun full y => Some (if full then 0 else y)) (vacant l s k (Z.max 1 (base q)) h) s m l) m) as Hscan.
  { intros h Hh0 Hh1. rewrite scan_down_from. apply scan_aligned_ok; [|done|done|done|done|done|lia].
    intros x Hx. destruct (Z.eqb_spec x 0), (Z.leb_spec (base q) x), (Z.leb_spec (Z.max 1 (base q)) x); simpl; lia. }
  destruct (Z.eqb_spec max_addr 0) as [->|Hne]; [apply Hscan; lia|]. destruct (Z.ltb_spec (base q) max_addr); [apply Hscan; lia|].
  intros x (? & _). lia.
Qed.

Lemma __lmb_alloc_base_ok LMB_REAL_LIMIT m mem res s k max_addr :
  let s' := lmb_align_up s (2 ^ k) in
  let limit := if max_addr =? 0 then LMB_REAL_LIMIT else max_addr in
  holds (memory m) mem -> holds (reserved m) res -> 0 <= k < 64 -> 0 < s -> s + 2 ^ k <= 2 ^ 64 -> 0 <= limit < 2 ^ 64 -> (limit = 0 \/ s' <= limit) ->
  wp (__lmb_alloc_base LMB_REAL_LIMIT s (2 ^ k) max_addr) (fun c m' =>
    rmo_size m' = rmo_size m /\ memory m' = memory m /\
    (c = 0 /\ reserved m' = reserved m /\ (length res = 128%nat \/ forall x, ~ free_block mem res s' k limit x) \/
     free_block mem res s' k limit c /\ (forall x, free_block mem res s' k limit x -> x <= c) /\
     exists l', l' <> [] /\ holds (reserved m') l' /\ forall a, covered l' a <-> covered res a \/ c <= a < c + s')) m.
Proof.
  intros s' limit Hm Hr Hk Hs Hs2 Hlim Hle. destruct (align_up_ok s k Hk Hs Hs2) as [_ Hs']. fold s' in Hs'. unfold __lmb_alloc_base, LMB_ALLOC_ANYWHERE. apply wp_bind, wp_BUG_ON; [lia|].
  cbv zeta. fold s' limit. destruct (holds_table _ _ Hm) as (ks & Ht & Hks & Hkm). pose proof (table_length _ _ Ht) as Hn. apply wp_bind, wp_on_memory. eapply wp_get_cnt; [exact Ht|].
  replace (Lmb _ _ _) with m by (by destruct m). rewrite swrap_id by lia.
  apply (wp_loop (fun i m' => m' = m /\ exists l1 l2, ks = l1 ++ l2 /\ i = Z.of_nat (length l1) - 1 /\ forall q x, q ∈ l2 -> ~ vacant res s' k (Z.max 1 (base q)) (top q s' limit) x)
    (fun i => Z.to_nat (i + 1))); [split; [done|]; exists ks, []; rewrite app_nil_r; split; [done|]; split; [done|]; intros q x Hq; by apply not_elem_of_nil in Hq|lia|].
  assert (forall x, free_block mem res s' k limit x <-> exists q, q ∈ mem /\ vacant res s' k (Z.max 1 (base q)) (top q s' limit) x) as Hfree by (intros x; apply free_block_vacant; [apply Hm|lia]).
  intros i m' (-> & l1 & l2 & E & -> & Hno). destruct l1 as [|q l1 _] using rev_ind.
  { apply wp_ret. split; [done|]. split; [done|]. left. split; [done|]. split; [done|]. right. intros x (q & Hq & Hv)%Hfree. eapply (Hno q); [|exact Hv]. cbn in E. rewrite <- E. apply Hkm. by left. }
  rewrite length_app. cbn [length]. rewrite (proj2 (Z.leb_le 0 _)) by lia. rewrite <- app_assoc in E. cbn [app] in E. replace (Z.of_nat (length l1 + 1) - 1) with (Z.of_nat (length l1)) by lia.
  assert (ks !! length l1 = Some q) as Hq by (rewrite E; by apply list_lookup_middle).
  apply wp_bind, wp_on_memory. eapply wp_get_rgn; [exact Ht|exact Hq|]. replace (Lmb _ _ _) with m by (by destruct m).
  destruct (Forall_lookup_1 _ _ _ _ Hks Hq) as (Hq0 & Hq1 & Hq2).
  assert ((forall x, ~ vacant res s' k (Z.max 1 (base q)) (top q s' limit) x) ->
    m = m /\ exists k1 k2, ks = k1 ++ k2 /\ Z.of_nat (length l1) - 1 = Z.of_nat (length k1) - 1 /\ forall y x, y ∈ k2 -> ~ vacant res s' k (Z.max 1 (base y)) (top y s' limit) x) as Hnext.
  { intros Hnq. split; [done|]. exists l1, (q :: l2). split; [done|]. split; [done|]. intros y x [->|Hy]%elem_of_cons; auto. }
  destruct (Z.ltb_spec (size q) s').
  { apply wp_ret. split; [|lia]. apply Hnext. intros x (Hx & _). unfold top in Hx. destruct (limit =? 0); lia. }
  pose proof (scan_region_ok m res q s' k limit Hr Hk ltac:(lia) Hq0 ltac:(lia) Hq2 Hlim Hle) as Hscan.
  destruct (scan_start q s' (2 ^ k) limit) as [b|]; [|apply wp_ret; split; [by apply Hnext|lia]].
  apply wp_bind. eapply wp_mono; [exact Hscan|]. intros c m' [(-> & -> & Hy)|(E1 & E2 & y & Hv & Hy)]; [apply wp_ret; split; [by apply Hnext|lia]|].
  destruct Hy as [(-> & ? & ?)|(-> & Hmax & Hl')]; apply wp_ret; (split; [done|]); (split; [done|]); [left; auto|right].
  assert (q ∈ mem) as Hqm.
  { assert (q ∈ ks) as [?|[_ ->]]%Hkm by (by eapply list_elem_of_lookup_2); [done|]. simpl in *; lia. }
  split; [apply Hfree; by exists q|]. split; [|done]. intros x (q' & Hq' & Hv')%Hfree.
  assert (q' ∈ ks) as Hqk by (apply Hkm; by left). rewrite E in Hqk. apply elem_of_app in Hqk as [Hqk|[->|Hqk]%elem_of_cons]; [|by apply Hmax|exfalso; by eapply Hno].
  destruct mem as [|m0 mem]; [by apply not_elem_of_nil in Hqm|]. destruct Hm as [Hsm Htm]. rewrite (table_fun _ _ _ Htm Ht), E in Hsm.
  apply separated_middle in Hsm as (_ & _ & Hb & _). specialize (Hb q' Hqk). unfold before in Hb. destruct Hv as (? & _), Hv' as (Hx & _). unfold top in Hx. destruct (limit =? 0); lia.
Qed.
End Alloc.

(** ** The memory limit *)

Definition bytes (l : list lmb_property) : Z := foldr (fun p n => size p + n) 0 l.

Section Limit.
Implicit Types (r : lmb_region) (l : list lmb_property) (p q : lmb_property) (m : lmb).

Lemma bytes_app l1 l2 : bytes (l1 ++ l2) = bytes l1 + bytes l2.
Proof. unfold bytes. induction l1 as [|p l1 IH]; cbn [app foldr]; [done|]. rewrite IH. lia. Qed.

Lemma bytes_pos l : Forall placed l -> 0 <= bytes l.
Proof. induction 1 as [|p l (_ & Hp & _) _ IH]; cbn [bytes foldr]; [done|]. fold (bytes l). lia. Qed.

(** Regions between two addresses do not have more bytes than there are. *)
Lemma bytes_range l b e : separated l -> b <= e -> (forall p, p ∈ l -> b <= base p /\ base p + size p <= e) -> bytes l <= e - b.
Proof.
  revert b. induction l as [|p l IH]; intros b Hs Hbe Hin; cbn [bytes foldr]; [lia|]. fold (bytes l). destruct (Hin p ltac:(left)).
  pose proof Hs as (Hp & Hs' & Hb)%separated_cons. assert (bytes l <= e - (base p + size p)); [|lia]. apply IH; [done|lia|].
  intros q Hq. specialize (Hb q Hq). unfold before in Hb. destruct (Hin q ltac:(by right)). lia.
Qed.

Lemma bytes_fit l : separated l -> bytes l < 2 ^ 64.
Proof.
  intros Hs. enough (bytes l <= 2 ^ 64 - 1 - 0) by lia. apply bytes_range; [done|lia|]. intros p Hp. pose proof (separated_placed _ _ Hs Hp) as (? & ? & ?). lia.
Qed.

Lemma truncate_memory_ok r l n Q :
  table r l -> separated l -> l <> [] -> 0 < n ->
  (forall r' k z, table r' (k ++ [z]) -> separated (k ++ [z]) -> (forall a, covered (k ++ [z]) a <-> covered l a /\ a < base z + size z) ->
     bytes (k ++ [z]) = Z.min n (bytes l) -> Q tt r') ->
  wp (truncate_memory n) Q r.
Proof.
  intros Ht Hs Hne Hn HQ. pose proof (table_length _ _ Ht) as Hlen.
  apply (wp_loop (fun '(i, c) r' => r' = r /\ exists l1 l2, l = l1 ++ l2 /\ i = Z.of_nat (length l1) /\ c = n - bytes l1 /\ 0 < c) (fun '(i, _) => Z.to_nat (129 - i)));
    [split; [done|]; exists [], l; split; [done|]; split; [done|]; cbn [bytes foldr]; lia|lia|].
  intros [i c] r' (-> & l1 & l2 & E & -> & -> & Hc). apply wp_bind. eapply wp_get_cnt; [exact Ht|]. destruct l2 as [|q l2].
  - rewrite app_nil_r in E. subst l1. rewrite Z.ltb_irrefl. apply wp_ret. destruct l as [|z k _] using rev_ind; [done|]. apply (HQ _ k z); [done|done| |lia].
    intros a. split; [|tauto]. intros Ha. split; [done|]. apply separated_middle in Hs as (_ & (? & ? & ?) & Hb & _). rewrite covered_middle, app_nil_r in Ha.
    destruct Ha as [(p & Hp & Ha)|Ha]; [specialize (Hb p Hp); unfold before in Hb|]; rewrite elem_region in Ha; lia.
  - assert (length l1 < length l)%nat as Hlt by (rewrite E, length_app; simpl; lia). rewrite (proj2 (Z.ltb_lt _ _)) by lia. rewrite E in Hs.
    apply wp_bind. eapply wp_get_rgn; [exact Ht|rewrite E; by apply list_lookup_middle|]. pose proof Hs as (_ & (Hq0 & Hq1 & Hq2) & _)%separated_middle. destruct (Z.ltb_spec (size q) (n - bytes l1)).
    { apply wp_ret. split; [|lia]. split; [done|]. exists (l1 ++ [q]), l2. rewrite <- app_assoc. split; [done|]. rewrite length_app, bytes_app. cbn [bytes foldr length]. lia. }
    set (q' := LmbProperty (base q) (n - bytes l1)). destruct (shrink l1 q q' l2 Hs) as [Hs' Hcov]; [split; simpl; lia|split; simpl; lia|].
    apply wp_bind. eapply wp_set_rgn; [exact Ht|lia|]. intros r' Ht'. rewrite E, insert_app_r_alt, Nat.sub_diag in Ht' by lia. cbn [insert list_insert] in Ht'.
    replace (l1 ++ q' :: l2) with ((l1 ++ [q']) ++ l2) in Ht' by (by rewrite <- app_assoc). apply wp_bind.
    replace (u32 (Z.of_nat (length l1) + 1)) with (Z.of_nat (length (l1 ++ [q']))) by (rewrite length_app, wrap_id by (split; lia); simpl; lia).
    eapply wp_set_cnt; [exact Ht'|]. intros r'' Ht''. apply wp_ret. apply (HQ _ l1 q'); [done| | |].
    + replace (l1 ++ q' :: l2) with ((l1 ++ [q']) ++ l2) in Hs' by (by rewrite <- app_assoc). by apply separated_app in Hs' as [? _].
    + intros a. pose proof Hs as (Hs1 & _ & Hb1 & Hb2)%separated_middle. rewrite E, !covered_middle, app_nil_r, covered_app.
      assert (covered l1 a -> a < base q) as H1 by (intros (p & Hp & Ha); specialize (Hb1 p Hp); unfold before in Hb1; rewrite elem_region in Ha; lia).
      assert (covered l2 a -> base q + size q < a) as H2 by (intros (p & Hp & Ha); specialize (Hb2 p Hp); unfold before in Hb2; rewrite elem_region in Ha; lia).
      rewrite !elem_region. cbn [base size q']. split.
      * intros [Ha|Ha]; [specialize (H1 Ha); split; [tauto|lia]|split; [right; lia|lia]].
      * intros [[[Ha|Ha]|Ha] Hlt']; [by left|specialize (H2 Ha); lia|right; lia].
    + rewrite E, !bytes_app. cbn [bytes foldr]. fold (bytes l2). assert (0 <= bytes l2); [|simpl; lia]. apply bytes_pos. by apply separated_app in Hs as (_ & [[_ ?]%Forall_cons _] & _).
Qed.

Lemma truncate_reserved_ok r l e Q :
  table r l -> separated l -> 0 <= e < 2 ^ 64 ->
  (forall r' l', table r' l' -> separated l' -> (forall a, covered l' a <-> covered l a /\ a < e) -> Q tt r') ->
  wp (truncate_reserved e) Q r.
Proof.
  intros Ht Hs He HQ. pose proof (table_length _ _ Ht) as Hlen.
  eapply (wp_loop_depth (fun n i r' => exists l1 l2, i = Z.of_nat (length l1) /\ n = length l2 /\ table r' (l1 ++ l2) /\ separated (l1 ++ l2) /\
    (forall q, q ∈ l1 -> base q + size q <= e) /\ forall a, covered (l1 ++ l2) a /\ a < e <-> covered l a /\ a < e)) with (n := length l);
    [|exists [], l; split; [done|]; split; [done|]; split; [done|]; split; [done|]; split; [intros q Hq; by apply not_elem_of_nil in Hq|done]|lia].
  clear r Ht Hs. intros n i r (l1 & l2 & -> & -> & Ht & Hs & Hlow & Hcov). apply wp_bind. eapply wp_get_cnt; [exact Ht|]. destruct l2 as [|q l2].
  - rewrite app_nil_r in *. rewrite Z.ltb_irrefl. apply wp_ret. eapply HQ; [exact Ht|done|]. intros a. rewrite <- Hcov. split; [|tauto]. intros Ha. split; [done|].
    destruct Ha as (q & Hq & Ha). specialize (Hlow q Hq). rewrite elem_region in Ha. lia.
  - rewrite (proj2 (Z.ltb_lt _ _)) by (rewrite length_app; simpl; lia). apply wp_bind. eapply wp_get_rgn; [exact Ht|by apply list_lookup_middle|].
    pose proof Hs as (Hs' & (Hq0 & Hq1 & Hq2) & Hb1 & Hb2)%separated_middle. cbv zeta. rewrite (wrap_id 64 (base q + size q)) by (split; lia).
    set (s := if e <? base q then 0 else if e <? base q + size q then u64 (e - base q) else size q).
    assert (s = Z.max 0 (Z.min (size q) (e - base q))) as Es.
    { subst s. destruct (Z.ltb_spec e (base q)); [lia|]. destruct (Z.ltb_spec e (base q + size q)); [rewrite wrap_id by (split; lia)|]; lia. }
    clearbody s. apply wp_bind. eapply wp_set_rgn; [exact Ht|rewrite length_app; simpl; lia|]. clear r Ht. intros r Ht.
    rewrite insert_app_r_alt, Nat.sub_diag in Ht by lia. cbn [insert list_insert] in Ht. destruct (Z.eqb_spec s 0) as [->|Hs0].
    + apply wp_bind. eapply lmb_remove_region_ok; [exact Ht|]. clear r Ht. intros r Ht. apply wp_ret. exists (length l2). split; [simpl; lia|].
      exists l1, l2. do 5 (split; [done|]). intros a. rewrite <- Hcov, covered_middle, elem_region. split; [tauto|]. intros [[?|?] ?]; [done|lia].
    + apply wp_ret. exists (length l2). split; [simpl; lia|]. exists (l1 ++ [LmbProperty (base q) s]), l2. rewrite <- app_assoc. split; [rewrite length_app; simpl; lia|].
      destruct (shrink l1 q (LmbProperty (base q) s) l2 Hs) as [Hs1 Hc1]; [split; simpl; lia|split; simpl; lia|]. do 3 (split; [done|]). split.
      * intros x [Hx| ->%list_elem_of_singleton]%elem_of_app; [by apply Hlow|simpl; lia].
      * intros a. cbn [app]. rewrite <- Hcov, Hc1, !elem_region. cbn [base size]. split; [tauto|]. intros [? ?]. split; [split; [done|lia]|done].
Qed.

Lemma lmb_end_of_DRAM_ok m k z Q :
  table (memory m) (k ++ [z]) -> placed z -> Q (base z + size z) m -> wp lmb_end_of_DRAM Q m.
Proof.
  intros Ht (Hz0 & Hz1 & Hz2) HQ. pose proof (table_length _ _ Ht) as Hn. rewrite length_app in Hn. cbn [length] in Hn. assert (Lmb (rmo_size m) (memory m) (reserved m) = m) as Em by (by destruct m).
  apply wp_bind, wp_on_memory. eapply wp_get_cnt; [exact Ht|]. rewrite Em, length_app. cbn [length]. rewrite swrap_id by lia. replace (Z.of_nat (length k + 1) - 1) with (Z.of_nat (length k)) by lia.
  apply wp_bind, wp_on_memory. eapply wp_get_rgn; [exact Ht|by apply list_lookup_middle|]. rewrite Em. apply wp_ret. by rewrite wrap_id by (split; lia).
Qed.

(** The limit in force: the memory keeps its lowest [n] bytes and the reserved regions
    what lies below the end of these. *)
Lemma lmb_enforce_memory_limit_ok m mem res n :
  holds (memory m) mem -> holds (reserved m) res -> mem <> [] -> res <> [] -> 0 < n ->
  wp (lmb_enforce_memory_limit n) (fun _ m' => exists mem' res' e,
    mem' <> [] /\ holds (memory m') mem' /\ (forall a, covered mem' a <-> covered mem a /\ a < e) /\ bytes mem' = Z.min n (bytes mem) /\
    table (reserved m') res' /\ separated res' /\ (forall a, covered res' a <-> covered res a /\ a < e) /\
    exists p, head mem' = Some p /\ rmo_size m' = Z.min (rmo_size m) (size p)) m.
Proof.
  intros Hm Hr Hmem Hres Hn. unfold lmb_enforce_memory_limit. rewrite (proj2 (Z.eqb_neq n 0)) by lia. apply wp_bind, wp_on_memory.
  eapply truncate_memory_ok; [by apply holds_table_of|apply Hm|done|done|]. intros r k z Ht Hs Hcov Hby. set (m1 := Lmb (rmo_size m) r (reserved m)). apply wp_bind, wp_on_memory.
  destruct (k ++ [z]) as [|p l] eqn:E; [by destruct k|]. change 0 with (Z.of_nat 0) at 1. eapply (wp_get_rgn _ _ 0 p); [exact Ht|done|]. cbn [memory rmo_size reserved m1].
  apply wp_bind.
  match goal with |- wp (set_rmo_size ?f) ?Q ?x => enough (Q tt (Lmb (f (rmo_size x)) (memory x) (reserved x))) by done end. cbn [rmo_size memory reserved].
  rewrite <- E in *. assert (placed z) as Hz by (eapply separated_placed; [exact Hs|apply elem_of_app; right; left]).
  apply wp_bind. eapply lmb_end_of_DRAM_ok; [exact Ht|done|]. destruct Hz as (Hz0 & Hz1 & Hz2). apply wp_on_reserved. cbn [reserved].
  eapply truncate_reserved_ok; [by apply holds_table_of|apply Hr|lia|]. intros r' res' Ht' Hs' Hcov'. exists (k ++ [z]), res', (base z + size z). cbn [memory reserved rmo_size].
  split; [by destruct k|]. split; [apply holds_of_table; [done|done|by destruct k]|]. do 5 (split; [done|]). exists p. rewrite E. split; [done|].
  destruct (Z.ltb_spec (size p) (rmo_size m)); lia.
Qed.

Lemma lmb_analyze_ok m mem : holds (memory m) mem ->
  wp lmb_analyze (fun _ m' => m' = Lmb (rmo_size m) (LmbRegion (cnt (memory m)) (bytes mem) (region (memory m))) (reserved m)) m.
Proof.
  intros Hh. destruct (holds_table _ _ Hh) as (k & Ht & Hk & Hkm). assert (bytes k = bytes mem) as Eb.
  { destruct mem as [|p mem]; destruct Hh as [_ Ht']; by rewrite (table_fun _ _ _ Ht Ht'). }
  pose proof (table_length _ _ Ht) as Hn. apply wp_bind, wp_on_memory. cbn [set_total]. unfold wp at 1, set_total at 1. apply wp_on_memory. cbn [memory].
  set (r0 := LmbRegion (cnt (memory m)) 0 (region (memory m))). assert (table r0 k) as Ht0 by done. apply wp_bind. eapply wp_get_cnt; [exact Ht0|].
  apply (wp_loop (fun i r => exists l1 l2, k = l1 ++ l2 /\ i = Z.of_nat (length l1) /\ r = LmbRegion (cnt (memory m)) (bytes l1) (region (memory m))) (fun i => Z.to_nat (129 - i)));
    [by exists [], k|lia|].
  intros i r (l1 & l2 & E & -> & ->). destruct l2 as [|q l2].
  - rewrite app_nil_r in E. subst l1. rewrite Z.ltb_irrefl. apply wp_ret. by rewrite Eb.
  - assert (length l1 < length k)%nat as Hlt by (rewrite E, length_app; simpl; lia). rewrite (proj2 (Z.ltb_lt _ _)) by lia. set (r := LmbRegion _ _ _).
    assert (table r k) as Htr by done. apply wp_bind. eapply wp_get_rgn; [exact Htr|rewrite E; by apply list_lookup_middle|]. apply wp_bind.
    unfold wp at 1, set_total. cbn [total r cnt region]. apply wp_ret. split; [|lia]. exists (l1 ++ [q]), l2. rewrite <- app_assoc. split; [done|].
    split; [rewrite length_app; simpl; lia|]. f_equal. rewrite bytes_app. cbn [bytes foldr]. rewrite Z.add_0_r. apply wrap_id.
    assert (0 <= bytes l1 /\ 0 <= size q /\ bytes l1 + size q <= bytes k) as (? & ? & ?).
    { assert (forall j, Forall (fun q => 0 <= base q /\ 0 <= size q /\ base q + size q < 2 ^ 64) j -> 0 <= bytes j) as Hpos.
      { induction 1 as [|x j (_ & Hx & _) _ IH]; cbn [bytes foldr]; [done|]. fold (bytes j). lia. }
      rewrite E in Hk. apply Forall_app in Hk as [H1 [Hq H2]%Forall_cons]. pose proof (Hpos _ H1). pose proof (Hpos _ H2). rewrite E, bytes_app. cbn [bytes foldr]. fold (bytes l2). lia. }
    split; [lia|]. assert (bytes mem < 2 ^ 64) by (apply bytes_fit, Hh). lia.
Qed.

(** With at least one region reserved, lmb_is_reserved tells the reserved addresses. *)
Lemma lmb_is_reserved_ok m res a :
  holds (reserved m) res -> res <> [] ->
  wp (lmb_is_reserved a) (fun c m' => m' = m /\ (c = 1 /\ covered res a \/ c = 0 /\ ~ covered res a)) m.
Proof.
  intros Hh Hne. pose proof (holds_table_of _ _ Hh Hne) as Ht. destruct Hh as [Hs _]. pose proof (table_length _ _ Ht) as Hn.
  assert (Lmb (rmo_size m) (memory m) (reserved m) = m) as Em by (by destruct m). apply wp_on_reserved, wp_bind. eapply wp_get_cnt; [exact Ht|].
  apply (wp_loop (fun i r => r = reserved m /\ exists l1 l2, res = l1 ++ l2 /\ i = Z.of_nat (length l1) /\ ~ covered l1 a) (fun i => Z.to_nat (129 - i)));
    [split; [done|]; exists [], res; split; [done|]; split; [done|apply covered_nil]|lia|].
  intros i r (-> & l1 & l2 & E & -> & Hno). destruct l2 as [|q l2].
  - rewrite app_nil_r in E. subst l1. rewrite Z.ltb_irrefl. apply wp_ret. split; [done|]. by right.
  - assert (length l1 < length res)%nat as Hlt by (rewrite E, length_app; simpl; lia). rewrite (proj2 (Z.ltb_lt _ _)) by lia.
    apply wp_bind. eapply wp_get_rgn; [exact Ht|rewrite E; by apply list_lookup_middle|]. rewrite E in Hs. apply separated_middle in Hs as (_ & (? & ? & ?) & _).
    cbv zeta. rewrite !wrap_id by (rewrite ?wrap_id; split; lia). destruct (Z.leb_spec (base q) a), (Z.leb_spec a (base q + size q - 1)); cbn [andb]; apply wp_ret.
    { split; [done|]. left. split; [done|]. rewrite E, covered_middle, elem_region. right. lia. }
    all: split; [|lia]; split; [done|]; exists (l1 ++ [q]), l2; rewrite <- app_assoc; split; [done|]; split; [rewrite length_app; simpl; lia|];
      rewrite covered_middle, app_nil_r, elem_region; intros [?|?]; [done|lia].
Qed.

(** lmb_find: the part of the request that is in the lowest region it meets before its
    last byte. *)
Lemma lmb_find_ok m mem p :
  holds (memory m) mem -> mem <> [] -> placed p ->
  wp (lmb_find p) (fun '(c, p') m' => m' = m /\
    (c = -1 /\ p' = p /\ (forall a, base p <= a < base p + size p - 1 -> ~ covered mem a) \/
     c = 0 /\ placed p' /\ contains p p' /\ (forall a, a ∈ p' -> covered mem a) /\
       (forall a, base p <= a < base p' -> ~ covered mem a) /\ (base p' + size p' = base p + size p \/ ~ covered mem (base p' + size p')))) m.
Proof.
  intros Hh Hne (Hp0 & Hp1 & Hp2). pose proof (holds_table_of _ _ Hh Hne) as Ht. destruct Hh as [Hs _]. pose proof (table_length _ _ Ht) as Hn.
  assert (Lmb (rmo_size m) (memory m) (reserved m) = m) as Em by (by destruct m). unfold lmb_find. cbv zeta. rewrite !wrap_id by (rewrite ?wrap_id; split; lia).
  apply wp_on_memory, wp_bind. eapply wp_get_cnt; [exact Ht|].
  apply (wp_loop (fun i r => r = memory m /\ exists l1 l2, mem = l1 ++ l2 /\ i = Z.of_nat (length l1) /\ forall q, q ∈ l1 -> base q + size q <= base p \/ base q >= base p + size p - 1)
    (fun i => Z.to_nat (129 - i))); [split; [done|]; exists [], mem; split; [done|]; split; [done|]; intros q Hq; by apply not_elem_of_nil in Hq|lia|].
  intros i r (-> & l1 & l2 & E & -> & Hno). destruct l2 as [|q l2].
  - rewrite app_nil_r in E. subst l1. rewrite Z.ltb_irrefl. apply wp_ret. split; [done|]. left. split; [done|]. split; [done|]. intros a Ha (q & Hq & Haq). specialize (Hno q Hq). rewrite elem_region in Haq. lia.
  - assert (length l1 < length mem)%nat as Hlt by (rewrite E, length_app; simpl; lia). rewrite (proj2 (Z.ltb_lt _ _)) by lia.
    apply wp_bind. eapply wp_get_rgn; [exact Ht|rewrite E; by apply list_lookup_middle|]. pose proof Hs as Hs0. rewrite E in Hs. apply separated_middle in Hs as (_ & (Hq0 & Hq1 & Hq2) & Hb1 & Hb2). unfold before in *.
    assert (forall a, covered mem a -> base p <= a < base p + size p - 1 -> a ∈ q \/ base q + size q < a) as Hrest.
    { intros a (x & Hx & Ha) Hpa. rewrite E in Hx. rewrite elem_region in *. apply elem_of_app in Hx as [Hx|[->|Hx]%elem_of_cons]; [specialize (Hno x Hx); lia|by left|specialize (Hb2 x Hx); lia]. }
    rewrite !(wrap_id 64 (base q + size q)) by (split; lia). rewrite (wrap_id 64 (base q + size q - 1)) by (split; lia).
    destruct (Z.ltb_spec (base p + size p - 1) (base q)).
    { apply wp_ret. split; [done|]. left. split; [done|]. split; [done|]. intros a Ha Hc. destruct (Hrest a Hc Ha) as [Hr|Hr]; rewrite ?elem_region in Hr; lia. }
    destruct (Z.leb_spec (base p) (base q + size q - 1)), (Z.ltb_spec (base q) (base p + size p - 1)); cbn [andb]; apply wp_ret.
    2,3,4: split; [|lia]; split; [done|]; exists (l1 ++ [q]), l2; rewrite <- app_assoc; split; [done|]; split; [rewrite length_app; simpl; lia|];
      intros x [Hx| ->%list_elem_of_singleton]%elem_of_app; [by apply Hno|lia].
    split; [done|]. right. split; [done|].
    assert ((if base p <? base q then base q else base p) = Z.max (base p) (base q)) as -> by (destruct (Z.ltb_spec (base p) (base q)); lia).
    assert ((if base q + size q - 1 <? base p + size p - 1 then base q + size q - 1 else base p + size p - 1) = Z.min (base q + size q) (base p + size p) - 1) as ->
      by (destruct (Z.ltb_spec (base q + size q - 1) (base p + size p - 1)); lia).
    rewrite wrap_id by (split; lia). split; [split; simpl; lia|]. split; [split; simpl; lia|]. cbn [base size]. split; [|split].
    + intros a Ha. exists q. rewrite E. split; [apply elem_of_app; right; left|]. rewrite !elem_region in *. simpl in Ha. lia.
    + intros a Ha Hc. destruct (Hrest a Hc ltac:(lia)) as [Hr|Hr]; rewrite ?elem_region in Hr; lia.
    + destruct (Z.le_gt_cases (base p + size p) (base q + size q)); [left; lia|right]. rewrite E, covered_middle, elem_region. intros [(x & Hx & Ha)|?]; [|lia].
      rewrite elem_region in Ha. apply elem_of_app in Hx as [Hx|Hx]; [specialize (Hb1 x Hx)|specialize (Hb2 x Hx)]; lia.
Qed.
End Limit.

(** ** Allocation on a node *)

(** A routine that returns with [Q] or panics where [P] holds. *)
Definition wp_panic {A} (c : LM A) (Q : A -> lmb -> Prop) (P : Prop) (m : lmb) : Prop :=
  match c m with
  | Ok (a, m') => Q a m'
  | Fault Bug => P
  | Fault _ => False
  end.

Section Node.
Context (LMB_REAL_LIMIT : Z) (nid_range : Z -> Z -> Z * Z) (nid : Z).
Implicit Types (r : lmb_region) (l : list lmb_property) (p q : lmb_property) (m : lmb).

(** The block [y, y + s) has been added to the reserved regions [l]. *)
Definition now_reserved l (y s : Z) (m m' : lmb) : Prop :=
  rmo_size m' = rmo_size m /\ memory m' = memory m /\
  exists l', l' <> [] /\ holds (reserved m') l' /\ forall a, covered l' a <-> covered l a \/ y <= a < y + s.

Lemma lmb_alloc_base_ok m mem res s k max_addr :
  let s' := lmb_align_up s (2 ^ k) in
  let limit := if max_addr =? 0 then LMB_REAL_LIMIT else max_addr in
  holds (memory m) mem -> holds (reserved m) res -> 0 <= k < 64 -> 0 < s -> s + 2 ^ k <= 2 ^ 64 -> 0 <= limit < 2 ^ 64 -> (limit = 0 \/ s' <= limit) ->
  wp_panic (lmb_alloc_base LMB_REAL_LIMIT s (2 ^ k) max_addr)
    (fun c m' => free_block mem res s' k limit c /\ (forall x, free_block mem res s' k limit x -> x <= c) /\ now_reserved res c s' m m')
    (length res = 128%nat \/ forall x, ~ free_block mem res s' k limit x) m.
Proof.
  intros s' limit Hm Hr Hk Hs Hs2 Hlim Hle. destruct (wp_run _ _ _ (__lmb_alloc_base_ok LMB_REAL_LIMIT m mem res s k max_addr Hm Hr Hk Hs Hs2 Hlim Hle)) as (c & m' & E & Hc).
  unfold wp_panic, lmb_alloc_base, mbind, M_bind. rewrite E. destruct Hc as (E1 & E2 & [(-> & _ & Hno)|(Hf & Hmax & Hl)]); [done|].
  rewrite (proj2 (Z.eqb_neq c 0)) by (destruct Hf; lia). done.
Qed.

(** nid_range cuts a region into parts; those of the node have room above address 0. *)
Definition cuts (s : Z) p : Prop := forall start, base p <= start < base p + size p ->
  let '(this_end, this_nid) := nid_range start (base p + size p) in
  start < this_end <= base p + size p /\ (this_nid = nid -> s <= this_end).

(** A free block in a part of the region that belongs to the node. *)
Definition node_block l (s k : Z) p (y : Z) : Prop := exists start,
  base p <= start < base p + size p /\ (nid_range start (base p + size p)).2 = nid /\
  vacant l s k start ((nid_range start (base p + size p)).1 - s) y.

Lemma lmb_alloc_nid_region_ok fuel m res p s k :
  holds (reserved m) res -> placed p -> 0 <= k < 64 -> 0 < s -> base p + 2 ^ k <= 2 ^ 64 -> cuts s p -> (Z.to_nat (size p) < fuel)%nat ->
  wp (lmb_alloc_nid_region fuel nid_range p s (2 ^ k) nid) (fun c m' =>
    c = NO_ADDR /\ m' = m \/ c <> NO_ADDR /\ node_block res s k p c /\ now_reserved res c s m m') m.
Proof.
  intros Hr (Hp0 & Hp1 & Hp2) Hk Hs Hal Hcut Hfuel. unfold lmb_alloc_nid_region. cbv zeta. rewrite (wrap_id 64 (base p + size p)) by (split; lia).
  assert (base p <= lmb_align_up (base p) (2 ^ k)) as Hup.
  { unfold lmb_align_up. assert (0 < 2 ^ k) by lia. rewrite (wrap_id 64 (2 ^ k - 1)) by (split; lia). rewrite wrap_id by (split; lia). rewrite ldiff_pow2 by lia.
    pose proof (Z.div_mod (base p + (2 ^ k - 1)) (2 ^ k) ltac:(lia)). pose proof (Z.mod_pos_bound (base p + (2 ^ k - 1)) (2 ^ k) ltac:(lia)). lia. }
  apply (wp_loop (fun start m' => m' = m /\ base p <= start) (fun start => Z.to_nat (base p + size p - start))); [done|lia|].
  intros start m' [-> Hst]. destruct (Z.ltb_spec start (base p + size p)); [|apply wp_ret; by left].
  specialize (Hcut start ltac:(lia)). destruct (nid_range start (base p + size p)) as [this_end this_nid] eqn:En. destruct Hcut as [Hend Hroom].
  assert (wp (continue this_end : LM (Z + Z)) (fun w m' => match w with inl start' => (m' = m /\ base p <= start') /\ (Z.to_nat (base p + size p - start') < Z.to_nat (base p + size p - start))%nat
    | inr x => x = NO_ADDR /\ m' = m \/ x <> NO_ADDR /\ node_block res s k p x /\ now_reserved res x s m m' end) m) as Hgo by (apply wp_ret; split; [split; [done|lia]|lia]).
  apply wp_bind. destruct (Z.eqb_spec this_nid nid) as [Enid|_]; [|apply wp_ret; by rewrite Z.eqb_refl].
  change (lmb_alloc_nid_unreserved start this_end s (2 ^ k)) with
    (scan_from (fun b => start <=? b) NO_ADDR (fun full y => if full then NO_ADDR else y : Z) s (2 ^ k) (lmb_align_down (u64 (this_end - s)) (2 ^ k))).
  eapply wp_mono; [apply (scan_aligned_ok _ _ _ _ res start); [done|done|done|done|specialize (Hroom Enid); lia|lia|lia]|].
  intros c m' [(-> & -> & Hno)|(E1 & E2 & y & Hv & [(-> & E3 & _)|(-> & _ & Hl)])].
  - by rewrite Z.eqb_refl.
  - rewrite Z.eqb_refl. assert (m' = m) as -> by (destruct m, m'; simpl in *; congruence). done.
  - assert (y <> NO_ADDR) as Hne by (destruct Hv as (? & _); unfold NO_ADDR; lia). rewrite (proj2 (Z.eqb_neq _ _)) by done. cbn [negb]. apply wp_ret. right. split; [done|].
    split; [|done]. exists start. rewrite En. done.
Qed.

Lemma align_up_twice s k : 0 <= k < 64 -> 0 < s -> s + 2 ^ k <= 2 ^ 64 -> lmb_align_up s (2 ^ k) + 2 ^ k <= 2 ^ 64 ->
  lmb_align_up (lmb_align_up s (2 ^ k)) (2 ^ k) = lmb_align_up s (2 ^ k).
Proof.
  intros Hk Hs Hb Hb'. destruct (align_up_ok s k Hk Hs Hb) as [[x Ex] ?]. destruct (align_up_ok (lmb_align_up s (2 ^ k)) k Hk ltac:(lia) Hb') as [[y Ey] Hy]. rewrite Ey in Hy. rewrite Ey, Ex in *.
  assert (0 < 2 ^ k) by lia. generalize dependent (2 ^ k). intros P **. assert (x <= y < x + 1) by nia. f_equal. lia.
Qed.

Lemma lmb_alloc_nid_ok fuel m mem res s k :
  let s' := lmb_align_up s (2 ^ k) in
  holds (memory m) mem -> mem <> [] -> holds (reserved m) res -> 0 <= k < 64 -> 0 < s -> s' + 2 ^ k <= 2 ^ 64 -> s + 2 ^ k <= 2 ^ 64 -> 0 <= LMB_REAL_LIMIT < 2 ^ 64 -> (LMB_REAL_LIMIT = 0 \/ s' <= LMB_REAL_LIMIT) ->
  (forall p, p ∈ mem -> base p + 2 ^ k <= 2 ^ 64 /\ cuts s' p /\ (Z.to_nat (size p) < fuel)%nat) ->
  wp_panic (lmb_alloc_nid LMB_REAL_LIMIT fuel nid_range s (2 ^ k) nid)
    (fun c m' => ((exists p, p ∈ mem /\ node_block res s' k p c) \/ free_block mem res s' k LMB_REAL_LIMIT c) /\ now_reserved res c s' m m')
    (length res = 128%nat \/ forall x, ~ free_block mem res s' k LMB_REAL_LIMIT x) m.
Proof.
  intros s' Hm Hne Hr Hk Hs Hs1 Hs2 Hlim Hle Hall. pose proof (holds_table_of _ _ Hm Hne) as Ht. pose proof (table_length _ _ Ht) as Hn. assert (Lmb (rmo_size m) (memory m) (reserved m) = m) as Em by (by destruct m).
  destruct (align_up_ok s k Hk Hs Hs2) as [_ Hs']. fold s' in Hs'.
  assert (forall q, q ∈ mem -> placed q) as Hpl by (intros q; apply separated_placed, Hm).
  assert (wp (loop 131 (fun i => if i <? Z.of_nat (length mem) then
      p ← on_memory (get_rgn i);
      ret ← lmb_alloc_nid_region fuel nid_range p s' (2 ^ k) nid;
      if negb (ret =? NO_ADDR) then break (Some ret) else continue (i + 1)
    else break None) 0) (fun c m' => match c with None => m' = m | Some y => (exists p, p ∈ mem /\ node_block res s' k p y) /\ now_reserved res y s' m m' end) m) as Hloop.
  { apply (wp_loop (fun i m' => m' = m /\ 0 <= i <= Z.of_nat (length mem)) (fun i => Z.to_nat (129 - i))); [split; [done|lia]|lia|].
    intros i m' [-> Hi]. destruct (Z.ltb_spec i (Z.of_nat (length mem))); [|by apply wp_ret]. destruct (lookup_lt_is_Some_2 mem (Z.to_nat i)) as [q Hq]; [lia|].
    rewrite <- (Z2Nat.id i) at 1 by lia. apply wp_bind, wp_on_memory. eapply wp_get_rgn; [exact Ht|exact Hq|]. rewrite Em. apply list_elem_of_lookup_2 in Hq. destruct (Hall q Hq) as (? & ? & ?).
    apply wp_bind. eapply wp_mono; [apply (lmb_alloc_nid_region_ok _ _ res); auto; lia|]. intros c m' [[-> ->]|(Hc & Hb & Hres)].
    - rewrite Z.eqb_refl. apply wp_ret. split; [split; [done|lia]|lia].
    - rewrite (proj2 (Z.eqb_neq _ _)) by done. apply wp_ret. split; [by exists q|done]. }
  destruct (wp_run _ _ _ Hloop) as (c & m' & E & Hc). pose proof (lmb_alloc_base_ok m mem res s' k 0 Hm Hr Hk ltac:(lia) Hs1 Hlim) as Hbase. cbn [Z.eqb] in Hbase.
  replace (lmb_align_up s' (2 ^ k)) with s' in Hbase by (symmetry; by apply align_up_twice).  specialize (Hbase Hle).
  unfold wp_panic, lmb_alloc_nid. unfold mbind at 1, M_bind at 1. rewrite (proj2 (Z.eqb_neq 0 s)) by lia. cbn [BUG_ON]. cbv zeta. fold s'.
  unfold mbind at 1, M_bind at 1, mret, M_ret. unfold on_memory at 1, get_cnt at 1. cbv beta. rewrite Em. destruct Ht as [-> _].
  unfold mbind at 1, M_bind at 1. unfold mret, M_ret in E. rewrite E. destruct c as [y|]; [destruct Hc as [? ?]; split; [by left|done]|]. subst m'.
  unfold lmb_alloc, wp_panic in *. unfold LMB_ALLOC_ANYWHERE. destruct (lmb_alloc_base LMB_REAL_LIMIT s' (2 ^ k) 0 m) as [[y m']|[]]; [|done..]. destruct Hbase as (? & _ & ?). split; [by right|done].
Qed.
End Node.

(** ** The tables as sets of addresses *)

(** The calls that change the tables, with the region or the block that they are about. *)
Inductive lmb_op :=
| Add (p : lmb_property)
| Remove (p : lmb_property)
| Reserve (p : lmb_property)
| Alloc (s k max_addr : Z).

Section Calls.
Context (LMB_REAL_LIMIT : Z).
Implicit Types (mem res : list lmb_property).

Definition lmb_do (op : lmb_op) : LM Z :=
  match op with
  | Add p => lmb_add (base p) (size p)
  | Remove p => lmb_remove (base p) (size p)
  | Reserve p => lmb_reserve (base p) (size p)
  | Alloc s k max_addr => __lmb_alloc_base LMB_REAL_LIMIT s (2 ^ k) max_addr
  end.

Definition lowest (max_addr : Z) : Z := if max_addr =? 0 then LMB_REAL_LIMIT else max_addr.

(** What the callers have to see to, although the source does not say so: a region that is
    added or reserved is there already or does not overlap what is there; the only region
    of the memory is not removed, nor a hole made while the table is full; and the limit of
    an allocation is 0 or leaves room for the block.  lmb_remove_last_returns,
    lmb_remove_ok and lmb_alloc_limit_wraps show what happens otherwise. *)
Definition allowed (op : lmb_op) mem res : Prop :=
  match op with
  | Add p => placed p /\ (p ∈ mem \/ disjoint_from p mem)
  | Remove p => placed p /\ mem <> [p] /\ (length mem < 128)%nat
  | Reserve p => placed p /\ (p ∈ res \/ disjoint_from p res)
  | Alloc s k max_addr => 0 <= k < 64 /\ 0 < s /\ s + 2 ^ k <= 2 ^ 64 /\ 0 <= lowest max_addr < 2 ^ 64 /\
      (lowest max_addr = 0 \/ lmb_align_up s (2 ^ k) <= lowest max_addr)
  end.

Definition effect (op : lmb_op) (c : Z) mem res mem' res' : Prop :=
  match op with
  | Add p => res' = res /\ (c = -1 /\ mem' = mem /\ length mem = 128%nat \/ 0 <= c /\ forall a, covered mem' a <-> covered mem a \/ a ∈ p)
  | Remove p => res' = res /\ (c = -1 /\ mem' = mem /\ (forall q, q ∈ mem -> ~ contains q p) \/ 0 <= c /\ forall a, covered mem' a <-> covered mem a /\ ~ a ∈ p)
  | Reserve p => mem' = mem /\ (c = -1 /\ res' = res /\ length res = 128%nat \/ 0 <= c /\ forall a, covered res' a <-> covered res a \/ a ∈ p)
  | Alloc s k max_addr => mem' = mem /\
      (c = 0 /\ res' = res \/
       free_block mem res (lmb_align_up s (2 ^ k)) k (lowest max_addr) c /\
       forall a, covered res' a <-> covered res a \/ c <= a < c + lmb_align_up s (2 ^ k))
  end.

(** Every call of the list returns, with the effect it should have, as long as they are
    allowed. *)
Fixpoint served (ops : list lmb_op) mem res (m : lmb) : Prop :=
  match ops with
  | [] => True
  | op :: ops => allowed op mem res ->
      wp (lmb_do op) (fun c m' => exists mem' res',
        holds (memory m') mem' /\ holds (reserved m') res' /\ effect op c mem res mem' res' /\ served ops mem' res' m') m
  end.

Lemma lmb_do_ok op m mem res :
  holds (memory m) mem -> holds (reserved m) res -> allowed op mem res ->
  wp (lmb_do op) (fun c m' => exists mem' res', holds (memory m') mem' /\ holds (reserved m') res' /\ effect op c mem res mem' res') m.
Proof.
  intros Hm Hr Ha. destruct op as [p|p|p|s k max_addr]; cbn [lmb_do allowed effect] in *.
  - destruct Ha as [Hp Hd]. unfold lmb_add. apply wp_bind. apply wp_mono with (Q := fun _ m' => memory m' = memory m /\ reserved m' = reserved m); [by destruct (base p =? 0)|].
    intros [] m' [E1 E2]. apply wp_on_memory. rewrite E1. eapply wp_mono; [by apply (lmb_add_region_ok _ mem)|]. cbn [memory reserved]. rewrite E2.
    intros c r' [(-> & -> & Hf)|(Hc & l' & _ & Hh & Hcov)]; [exists mem, res|exists l', res]; auto 10.
  - destruct Ha as (Hp & Hne & Hlt). eapply wp_mono; [by apply (lmb_remove_ok m mem)|]. intros c m' (_ & E & Hc). rewrite E.
    destruct Hc as [(Hno & -> & ->)|[(? & _)|[(q & l' & _ & _ & _ & _ & ? & _)|(q & l' & _ & _ & Hc & _ & Hh & Hcov)]]]; [|done|lia|]; [exists mem, res|exists l', res]; auto 10.
  - destruct Ha as [Hp Hd]. unfold lmb_reserve. apply wp_bind, wp_BUG_ON; [destruct Hp; lia|]. apply wp_on_reserved. eapply wp_mono; [by apply (lmb_add_region_ok _ res)|]. cbn [memory reserved].
    intros c r' [(-> & -> & Hf)|(Hc & l' & _ & Hh & Hcov)]; [exists mem, res|exists mem, l']; auto 10.
  - destruct Ha as (Hk & Hs & Hs2 & Hlim & Hle). eapply wp_mono; [by apply (__lmb_alloc_base_ok _ m mem res)|]. intros c m' (_ & E & Hc). rewrite E.
    destruct Hc as [(-> & -> & _)|(Hf & _ & l' & _ & Hh & Hcov)]; [exists mem, res|exists mem, l']; auto 10.
Qed.

Lemma lmb_served ops m mem res : holds (memory m) mem -> holds (reserved m) res -> served ops mem res m.
Proof.
  revert m mem res. induction ops as [|op ops IH]; intros m mem res Hm Hr; cbn [served]; [done|]. intros Ha.
  eapply wp_mono; [by apply lmb_do_ok|]. intros c m' (mem' & res' & Hm' & Hr' & He). exists mem', res'. auto.
Qed.

Lemma lmb_init_ok m : length (region (memory m)) = 129%nat -> length (region (reserved m)) = 129%nat ->
  wp lmb_init (fun _ m' => holds (memory m') [] /\ holds (reserved m') []) m.
Proof.
  assert (forall r Q, length (region r) = 129%nat -> (forall r', holds r' [] -> Q tt r') -> wp (set_rgn 0 (LmbProperty 0 0) ;; set_cnt 1) Q r) as Hset.
  { intros r Q Hr HQ. apply wp_bind. destruct (region r) as [|x rest] eqn:E; [done|]. eapply (wp_set_at _ [] x rest); [exact E|done|]. intros r' Er' _. apply HQ.
    split; [apply separated_nil|]. split; [done|]. split; [simpl; lia|]. cbn [region]. rewrite Er'. split; [done|]. by exists rest. }
  intros H1 H2. apply wp_bind, wp_on_memory, Hset; [done|]. intros r1 Hr1. apply wp_on_reserved, Hset; [done|]. intros r2 Hr2. done.
Qed.
End Calls.

(** ** Properties *)

Lemma loop_S_st {St S R} fuel (body : S -> ST St (S + R)) s :
  loop (Datatypes.S fuel) body s = (r ← body s; match r with inl s' => loop fuel body s' | inr x => mret x end).
Proof. done. Qed.

(** Tables in memory that is all zero, as the kernel finds them. *)
Definition blank : lmb := Lmb 0 (LmbRegion 0 0 (replicate 129 (LmbProperty 0 0))) (LmbRegion 0 0 (replicate 129 (LmbProperty 0 0))).

(** C11: the two tables are sets of addresses, for callers that keep to [allowed]: they add
    and reserve regions that are there already or overlap nothing there, do not remove the
    only region nor make a hole in a full table, and give limits that are 0 or leave room
    for the block.  From lmb_init on, every such sequence of lmb_add, lmb_remove,
    lmb_reserve and __lmb_alloc_base runs to its end without leaving the arrays; adding and reserving are the union with the region, removing
    is the difference, a block that is allocated is aligned memory below the limit that was
    not reserved and is reserved then, and -1 or 0 leaves everything as it was.  The table is
    always the list of the maximal intervals of its set in ascending order, the only list
    of regions with gaps between them that covers the set. *)
Theorem lmb_refines_sets LMB_REAL_LIMIT ops m :
  length (region (memory m)) = 129%nat -> length (region (reserved m)) = 129%nat ->
  wp lmb_init (fun _ m' => served LMB_REAL_LIMIT ops [] [] m') m /\
  forall l l', separated l -> separated l' -> (forall a, covered l a <-> covered l' a) -> l = l'.
Proof.
  intros H1 H2. split; [|exact separated_unique]. eapply wp_mono; [by apply lmb_init_ok|]. intros _ m' [Hm Hr]. by apply lmb_served.
Qed.

Lemma lmb_refines_sets_witness :
  wp lmb_init (fun _ m' => served 0 [Add (LmbProperty 0 65536); Reserve (LmbProperty 4096 4096); Alloc 100 12 0; Remove (LmbProperty 8192 4096)] [] [] m') blank.
Proof. apply (lmb_refines_sets 0 _ blank); reflexivity. Defined.

(** C12: When the limit is 0 (none) or at least the rounded size, and the size does not
    overflow when it is rounded, __lmb_alloc_base returns the highest block that may be
    allocated: the highest
    multiple of the alignment where the rounded size fits into memory below the limit with
    none of it reserved, and reserves exactly that block.  It returns 0, with the tables as
    they were, only if there is no such block or the table of reserved regions is full. *)
Theorem lmb_alloc_highest LMB_REAL_LIMIT m mem res s k max_addr :
  let s' := lmb_align_up s (2 ^ k) in
  let limit := if max_addr =? 0 then LMB_REAL_LIMIT else max_addr in
  holds (memory m) mem -> holds (reserved m) res -> 0 <= k < 64 -> 0 < s -> s + 2 ^ k <= 2 ^ 64 -> 0 <= limit < 2 ^ 64 -> (limit = 0 \/ s' <= limit) ->
  s <= s' < s + 2 ^ k /\ (2 ^ k | s') /\
  wp (__lmb_alloc_base LMB_REAL_LIMIT s (2 ^ k) max_addr) (fun c m' =>
    rmo_size m' = rmo_size m /\ memory m' = memory m /\
    (c = 0 /\ reserved m' = reserved m /\ (length res = 128%nat \/ forall x, ~ free_block mem res s' k limit x) \/
     free_block mem res s' k limit c /\ (forall x, free_block mem res s' k limit x -> x <= c) /\
     exists l', l' <> [] /\ holds (reserved m') l' /\ forall a, covered l' a <-> covered res a \/ c <= a < c + s')) m.
Proof. intros s' limit Hm Hr Hk Hs Hs2 Hlim Hle. destruct (align_up_ok s k Hk Hs Hs2). split; [done|]. split; [done|]. by apply __lmb_alloc_base_ok. Qed.

(** A table with one region. *)
Definition one (p : lmb_property) : lmb_region := LmbRegion 1 0 (p :: replicate 128 (LmbProperty 0 0)).

Lemma one_holds p : placed p -> holds (one p) [p].
Proof.
  intros Hp. split; [|split; [done|]; split; [simpl; lia|]; split; [done|]; by eexists]. apply separated_cons. split; [done|]. split; [apply separated_nil|].
  intros q Hq. by apply not_elem_of_nil in Hq.
Qed.

Lemma lmb_alloc_highest_witness :
  wp (__lmb_alloc_base 0 100 (2 ^ 12) 32768) (fun c m' => c = 24576 /\ memory m' = one (LmbProperty 0 65536) /\ free_block [LmbProperty 0 65536] [LmbProperty 28672 100] 4096 12 32768 c /\
    forall x, free_block [LmbProperty 0 65536] [LmbProperty 28672 100] 4096 12 32768 x -> x <= 24576)
    (Lmb 0 (one (LmbProperty 0 65536)) (one (LmbProperty 28672 100))).
Proof.
  assert (wp (__lmb_alloc_base 0 100 (2 ^ 12) 32768) (fun c _ => c = 24576) (Lmb 0 (one (LmbProperty 0 65536)) (one (LmbProperty 28672 100)))) as Hrun by (vm_compute; reflexivity).
  destruct (lmb_alloc_highest 0 (Lmb 0 (one (LmbProperty 0 65536)) (one (LmbProperty 28672 100))) [LmbProperty 0 65536] [LmbProperty 28672 100] 100 12 32768) as (_ & _ & H);
    [apply one_holds; split; simpl; lia|apply one_holds; split; simpl; lia|lia|lia|lia|simpl; lia|right; vm_compute; discriminate|].
  change (lmb_align_up 100 (2 ^ 12)) with 4096 in H. change (if 32768 =? 0 then 0 else 32768) with 32768 in H.
  revert Hrun H. unfold wp. destruct (__lmb_alloc_base 0 100 (2 ^ 12) 32768 _) as [[c m']|]; [|intros []]. intros -> (_ & Em & [[Hc _]|(Hf & Hmax & _)]); [discriminate Hc|].
  split; [reflexivity|]. split; [exact Em|]. split; [exact Hf|exact Hmax].
Defined.

(** C36: lmb_enforce_memory_limit keeps the lowest [n] bytes of the memory, or all of it when
    there are not so many, and of the reserved regions what lies below the end of these;
    the real-mode area shrinks to the first region.  lmb_analyze then adds the regions up
    without overflow, and lmb_phys_mem_size is the smaller of the limit and the memory there
    was. *)
Theorem lmb_limit_memory m mem res n :
  holds (memory m) mem -> holds (reserved m) res -> mem <> [] -> res <> [] -> 0 < n ->
  wp (lmb_enforce_memory_limit n ;; lmb_analyze ;; lmb_phys_mem_size) (fun c m' =>
    c = Z.min n (bytes mem) /\ exists mem' res' e,
      mem' <> [] /\ holds (memory m') mem' /\ (forall a, covered mem' a <-> covered mem a /\ a < e) /\ bytes mem' = c /\
      table (reserved m') res' /\ separated res' /\ (forall a, covered res' a <-> covered res a /\ a < e) /\
      exists p, head mem' = Some p /\ rmo_size m' = Z.min (rmo_size m) (size p)) m.
Proof.
  intros Hm Hr Hmem Hres Hn. apply wp_bind. eapply wp_mono; [by apply (lmb_enforce_memory_limit_ok m mem res)|].
  intros [] m1 (mem' & res' & e & Hne & Hh & Hcov & Hby & Ht & Hs & Hcov' & Hrmo). apply wp_bind. eapply wp_mono; [by apply (lmb_analyze_ok m1 mem')|].
  intros [] m2 ->. split; [done|]. exists mem', res', e. split; [done|]. split; [|done]. by destruct mem'.
Qed.

Lemma lmb_limit_memory_witness :
  wp (lmb_enforce_memory_limit 8192 ;; lmb_analyze ;; lmb_phys_mem_size) (fun c _ => c = 8192) (Lmb 65536 (one (LmbProperty 0 65536)) (one (LmbProperty 4096 100))).
Proof.
  eapply wp_mono; [apply (lmb_limit_memory _ [LmbProperty 0 65536] [LmbProperty 4096 100] 8192); [apply one_holds; split; simpl; lia|apply one_holds; split; simpl; lia|discriminate|discriminate|lia]|].
  intros c m' [-> _]. reflexivity.
Defined.

(** The table that the removal of its only region leaves. *)
Definition gone (p : lmb_property) : lmb_region := LmbRegion 0 0 (p :: replicate 128 (LmbProperty 0 0)).

Lemma remove_only p Q : placed p -> Q 0 (Lmb 0 (gone p) (one (LmbProperty 0 0))) -> wp (lmb_remove (base p) (size p)) Q (Lmb 0 (one p) (one (LmbProperty 0 0))).
Proof.
  intros (Hp0 & Hp1 & Hp2) HQ. unfold lmb_remove. cbv zeta. rewrite (wrap_id 64 (base p + size p)) by (split; lia). apply wp_on_memory, wp_bind.
  assert (table (one p) [p]) as Ht by (apply holds_table_of; [by apply one_holds|done]).
  eapply find_container_ok; [exact Ht|constructor; [lia|done]| |intros Hno; exfalso; apply (Hno p); [left|by split]].
  intros [|x [|]] q l2 E _; [|by simplify_eq/=..]. simplify_eq/=. change (Z.of_nat 0) with 0.
  apply wp_bind. apply (wp_det _ 1 _ (one q)); [done|]. cbn [Z.eqb]. apply wp_bind. apply (wp_det _ q _ (one q)); [done|]. rewrite wrap_id by (split; lia). rewrite !Z.eqb_refl. cbn [andb].
  apply wp_bind. by apply (wp_det _ tt _ (gone q)).
Qed.

Lemma add_to_gone p q : placed p -> 0 < base p <= base q -> wp (lmb_add_region (base q) (size q)) (fun c r => c = 0 /\ r = one p) (gone p).
Proof.
  intros (Hp0 & Hp1 & Hp2) Hb. apply wp_bind. apply (wp_det _ 0 _ (gone p)); [done|]. apply wp_bind. apply (wp_det _ p _ (gone p)); [done|]. cbn [Z.eqb andb].
  apply wp_bind. apply (wp_det _ (Some (0, 0)) _ (gone p)); [done|]. apply wp_bind. apply (wp_det _ 0 _ (gone p)); [done|]. apply wp_bind.
  change (0 <? u32 (0 - 1)) with true. cbv iota. apply wp_bind, (wp_det _ 0 _ (gone p)).
  { transitivity (Ok (lmb_addrs_adjacent (base p) (size p) 0 0, gone p)); [done|]. unfold lmb_addrs_adjacent.
    rewrite (wrap_id 64 (base p + size p)) by (split; lia). rewrite (proj2 (Z.eqb_neq 0 _)) by lia. change (u64 (0 + 0)) with 0. by rewrite (proj2 (Z.eqb_neq (base p) 0)) by lia. }
  apply wp_ret. cbn [Z.eqb negb]. change (MAX_LMB_REGIONS <=? 0) with false. cbv iota. apply wp_bind, wp_bind. apply (wp_det _ 0 _ (gone p)); [done|]. apply wp_bind.
  apply (wp_det _ tt _ (gone p)); [done|]. apply wp_bind. apply (wp_det _ p _ (gone p)); [done|]. rewrite (proj2 (Z.ltb_ge (base q) (base p))) by lia. done.
Qed.

(** After the last region of the memory has been removed the table has no entry, which
    lmb_add_region does not expect: the next region to be added is lost and the region that
    was removed comes back. *)
Theorem lmb_remove_last_returns p q :
  placed p -> placed q -> 0 < base p <= base q ->
  wp (lmb_init ;; lmb_add (base p) (size p) ;; lmb_remove (base p) (size p) ;; lmb_add (base q) (size q))
    (fun c m' => c = 0 /\ holds (memory m') [p]) blank.
Proof.
  intros Hp Hq Hb. apply wp_bind. apply (wp_det _ tt _ (Lmb 0 (one (LmbProperty 0 0)) (one (LmbProperty 0 0)))); [done|]. apply wp_bind.
  apply (wp_det _ 0 _ (Lmb 0 (one p) (one (LmbProperty 0 0)))).
  { unfold lmb_add. rewrite (proj2 (Z.eqb_neq (base p) 0)) by lia. by destruct p. }
  apply wp_bind, remove_only; [done|]. unfold lmb_add. rewrite (proj2 (Z.eqb_neq (base q) 0)) by lia. apply wp_bind, wp_ret, wp_on_memory.
  eapply wp_mono; [by apply add_to_gone|]. intros c r [-> ->]. split; [done|]. by apply one_holds.
Qed.

Lemma lmb_remove_last_returns_witness :
  wp (lmb_init ;; lmb_add 4096 4096 ;; lmb_remove 4096 4096 ;; lmb_add 16384 65536) (fun c m' => c = 0 /\ holds (memory m') [LmbProperty 4096 4096]) blank.
Proof. apply (lmb_remove_last_returns (LmbProperty 4096 4096) (LmbProperty 16384 65536)); [split; simpl; lia|split; simpl; lia|simpl; lia]. Defined.

(** Of a region at address 0 nothing comes back: the entries behind it are taken for
    neighbours until the array ends. *)
Example lmb_remove_last_faults :
  (lmb_init ;; lmb_add 0 4096 ;; lmb_remove 0 4096 ;; lmb_add 16384 65536) blank = Fault BadAddress.
Proof. vm_compute. reflexivity. Qed.

(** A limit below the size of the block makes the begin of the search wrap around. *)
Example lmb_alloc_limit_wraps : wp (lmb_init ;; lmb_add 0 65536 ;; __lmb_alloc_base 0 8192 4096 4096) (fun c _ => c = 2 ^ 64 - 4096) blank.
Proof. vm_compute. reflexivity. Qed.

(** While nothing is reserved the dummy entry makes every address look reserved. *)
Lemma lmb_is_reserved_unused m a : holds (reserved m) [] -> 0 <= a < 2 ^ 64 -> wp (lmb_is_reserved a) (fun c m' => c = 1 /\ m' = m) m.
Proof.
  intros [_ Ht] Ha. apply wp_on_reserved, wp_bind. eapply wp_get_cnt; [exact Ht|]. rewrite loop_S_st. apply wp_bind. cbn [length Z.of_nat Pos.of_succ_nat Z.ltb Z.compare].
  apply wp_bind. change 0 with (Z.of_nat 0) at 1. eapply wp_get_rgn; [exact Ht|reflexivity|]. change (u64 (u64 (base (LmbProperty 0 0) + size (LmbProperty 0 0)) - 1)) with (2 ^ 64 - 1). cbn [base].
  cbv zeta. rewrite (proj2 (Z.leb_le 0 a)), (proj2 (Z.leb_le a _)) by lia. cbn [andb]. apply wp_ret, wp_ret. split; [done|]. by destruct m.
Qed.

(** A request whose last byte is the first of a region does not find it. *)
Example lmb_find_first_byte : wp (lmb_init ;; lmb_add 4096 65536 ;; lmb_find (LmbProperty 4096 1)) (fun '(c, _) _ => c = -1) blank.
Proof. vm_compute. reflexivity. Qed.

(** The limit drops the dummy entry of a table without regions. *)
Example lmb_limit_unreserved : (lmb_init ;; lmb_add 4096 65536 ;; lmb_enforce_memory_limit 8192 ;; lmb_reserve 4096 4096) blank = Fault BadAddress.
Proof. vm_compute. reflexivity. Qed.
