(* ===== verification/LinkedList.v ===== *)
(** * Linked lists: include/linux/list.h

    The circular doubly linked lists of the kernel and the lists of hash chains.  A
    struct list_head at address [p] has its next pointer in the cell at [p] and its prev
    pointer in the cell at [p + 4]; a struct hlist_node its next pointer at [p] and at
    [p + 4] the address of the pointer that leads to it. *)

From S2P Require Import Prelude Cells.

#[local] Arguments loop : simpl never.

(** ** The code *)

Definition LIST_POISON1 : Z := 0x00100100.
Definition LIST_POISON2 : Z := 0x00200200.

Definition INIT_LIST_HEAD (list : Z) : M unit :=
  store list list ;;
  store (list + 4) list.

Definition __list_add (new prev next : Z) : M unit :=
  store (next + 4) new ;;
  store new next ;;
  store (new + 4) prev ;;
  store prev new.

Definition list_add (new head : Z) : M unit :=
  next ← load head;
  __list_add new head next.

Definition list_add_tail (new head : Z) : M unit :=
  prev ← load (head + 4);
  __list_add new prev head.

Definition __list_del (prev next : Z) : M unit :=
  store (next + 4) prev ;;
  store prev next.

Definition list_del (entry : Z) : M unit :=
  prev ← load (entry + 4);
  next ← load entry;
  __list_del prev next ;;
  store entry LIST_POISON1 ;;
  store (entry + 4) LIST_POISON2.

Definition list_replace (old new : Z) : M unit :=
  next ← load old;
  store new next ;;
  next ← load new;
  store (next + 4) new ;;
  prev ← load (old + 4);
  store (new + 4) prev ;;
  prev ← load (new + 4);
  store prev new.

Definition list_replace_init (old new : Z) : M unit :=
  list_replace old new ;;
  INIT_LIST_HEAD old.

Definition list_del_init (entry : Z) : M unit :=
  prev ← load (entry + 4);
  next ← load entry;
  __list_del prev next ;;
  INIT_LIST_HEAD entry.

Definition list_move (list head : Z) : M unit :=
  prev ← load (list + 4);
  next ← load list;
  __list_del prev next ;;
  list_add list head.

Definition list_move_tail (list head : Z) : M unit :=
  prev ← load (list + 4);
  next ← load list;
  __list_del prev next ;;
  list_add_tail list head.

Definition list_is_last (list head : Z) : M bool :=
  next ← load list;
  mret (next =? head).

Definition list_empty (head : Z) : M bool :=
  next ← load head;
  mret (next =? head).

Definition list_empty_careful (head : Z) : M bool :=
  next ← load head;
  if next =? head then
    prev ← load (head + 4);
    mret (next =? prev)
  else mret false.

Definition list_is_singular (head : Z) : M bool :=
  e ← list_empty head;
  if negb e then
    next ← load head;
    prev ← load (head + 4);
    mret (next =? prev)
  else mret false.

Definition __list_cut_position (list head entry : Z) : M unit :=
  new_first ← load entry;
  next ← load head;
  store list next ;;
  next ← load list;
  store (next + 4) list ;;
  store (list + 4) entry ;;
  store entry list ;;
  store head new_first ;;
  store (new_first + 4) head.

Definition list_cut_position (list head entry : Z) : M unit :=
  e ← list_empty head;
  if (e : bool) then mret tt else
  singular ← list_is_singular head;
  other ← (if (singular : bool) then
             next ← load head;
             mret (negb (next =? entry) && negb (head =? entry))
           else mret false);
  if (other : bool) then mret tt else
  if entry =? head then INIT_LIST_HEAD list
  else __list_cut_position list head entry.

Definition __list_splice (list prev next : Z) : M unit :=
  first ← load list;
  last ← load (list + 4);
  store (first + 4) prev ;;
  store prev first ;;
  store last next ;;
  store (next + 4) last.

Definition list_splice (list head : Z) : M unit :=
  e ← list_empty list;
  if negb e then
    next ← load head;
    __list_splice list head next
  else mret tt.

Definition list_splice_tail (list head : Z) : M unit :=
  e ← list_empty list;
  if negb e then
    prev ← load (head + 4);
    __list_splice list prev head
  else mret tt.

Definition list_splice_init (list head : Z) : M unit :=
  e ← list_empty list;
  if negb e then
    next ← load head;
    __list_splice list head next ;;
    INIT_LIST_HEAD list
  else mret tt.

Definition list_splice_tail_init (list head : Z) : M unit :=
  e ← list_empty list;
  if negb e then
    prev ← load (head + 4);
    __list_splice list prev head ;;
    INIT_LIST_HEAD list
  else mret tt.

(** The loops over a list; the body may leave the loop with a value.  list_for_each looks
    up the next entry after the body has run, list_for_each_safe before. *)
Definition list_for_each {R} (fuel : nat) (head : Z) (body : Z -> M (option R)) : M (option R) :=
  pos ← load head;
  loop fuel (fun pos =>
    load pos ;;
    if negb (pos =? head) then
      r ← body pos;
      match r with
      | Some x => break (Some x)
      | None => next ← load pos; continue next
      end
    else break None) pos.

Definition list_for_each_prev {R} (fuel : nat) (head : Z) (body : Z -> M (option R)) : M (option R) :=
  pos ← load (head + 4);
  loop fuel (fun pos =>
    load (pos + 4) ;;
    if negb (pos =? head) then
      r ← body pos;
      match r with
      | Some x => break (Some x)
      | None => prev ← load (pos + 4); continue prev
      end
    else break None) pos.

Definition list_for_each_safe {R} (fuel : nat) (head : Z) (body : Z -> M (option R)) : M (option R) :=
  pos ← load head;
  n ← load pos;
  loop fuel (fun '(pos, n) =>
    if negb (pos =? head) then
      r ← body pos;
      match r with
      | Some x => break (Some x)
      | None => next ← load n; continue (n, next)
      end
    else break None) (pos, n).

Definition INIT_HLIST_HEAD (ptr : Z) : M unit := store ptr NULL.

Definition INIT_HLIST_NODE (h : Z) : M unit :=
  store h NULL ;;
  store (h + 4) NULL.

Definition hlist_unhashed (h : Z) : M bool :=
  pprev ← load (h + 4);
  mret (pprev =? NULL).

Definition hlist_empty (h : Z) : M bool :=
  first ← load h;
  mret (first =? NULL).

Definition __hlist_del (n : Z) : M unit :=
  next ← load n;
  pprev ← load (n + 4);
  store pprev next ;;
  if negb (next =? NULL) then store (next + 4) pprev else mret tt.

Definition hlist_del (n : Z) : M unit :=
  __hlist_del n ;;
  store n LIST_POISON1 ;;
  store (n + 4) LIST_POISON2.

Definition hlist_del_init (n : Z) : M unit :=
  u ← hlist_unhashed n;
  if negb u then
    __hlist_del n ;;
    INIT_HLIST_NODE n
  else mret tt.

Definition hlist_add_head (n h : Z) : M unit :=
  first ← load h;
  store n first ;;
  (if negb (first =? NULL) then store (first + 4) n else mret tt) ;;
  store h n ;;
  store (n + 4) h.

Definition hlist_add_before (n next : Z) : M unit :=
  pprev ← load (next + 4);
  store (n + 4) pprev ;;
  store n next ;;
  store (next + 4) n ;;
  pprev ← load (n + 4);
  store pprev n.

Definition hlist_add_after (n next : Z) : M unit :=
  after ← load n;
  store next after ;;
  store n next ;;
  store (next + 4) n ;;
  after ← load next;
  if negb (after =? NULL) then
    after ← load next;
    store (after + 4) next
  else mret tt.

Definition hlist_move_list (old new : Z) : M unit :=
  first ← load old;
  store new first ;;
  first ← load new;
  (if negb (first =? NULL) then first ← load new; store (first + 4) new else mret tt) ;;
  store old NULL.

(** ** Links

    A link from [a] to [b]: the next pointer of [a] and the prev pointer of [b]. *)

Definition link (a b : Z) : list (Z * Z) := [(a, b)] ++ [(b + 4, a)].

(** The links from [p] through the nodes [l] to [e]. *)
Fixpoint seg (p : Z) (l : list Z) (e : Z) : list (Z * Z) :=
  match l with
  | [] => link p e
  | x :: l => link p x ++ seg x l e
  end.

Definition ring (h : Z) (l : list Z) : list (Z * Z) := seg h l h.
Definition node (n u v : Z) : list (Z * Z) := [(n, u)] ++ [(n + 4, v)].

(** The pointers of a hash chain: the last node leads nowhere. *)
Fixpoint chain (p : Z) (l : list Z) : list (Z * Z) :=
  match l with
  | [] => [(p, NULL)]
  | x :: l => link p x ++ chain x l
  end.

Section Links.
Implicit Types (l : list Z) (R : list (Z * Z)) (m : mem).

Lemma seg_app p l1 x l2 e : seg p (l1 ++ x :: l2) e = seg p l1 x ++ seg x l2 e.
Proof. revert p. induction l1 as [|y l1 IH]; intros p; cbn [app seg]; [done|]. by rewrite IH, app_assoc. Qed.

Lemma chain_app p l1 x l2 : chain p (l1 ++ x :: l2) = seg p l1 x ++ chain x l2.
Proof. revert p. induction l1 as [|y l1 IH]; intros p; cbn [app seg chain]; [done|]. by rewrite IH, app_assoc. Qed.

(** A ring may be looked at from each of its nodes. *)
Lemma ring_rotate h l1 x l2 : ring h (l1 ++ x :: l2) ≡ₚ ring x (l2 ++ h :: l1).
Proof. unfold ring. rewrite !seg_app. apply Permutation_app_comm. Qed.

(** The first and the last link of a segment. *)
Definition first_of l (e : Z) : Z := match l with [] => e | x :: _ => x end.
Definition last_of (p : Z) l : Z := default p (last l).

Lemma seg_first p l e : exists r, seg p l e = link p (first_of l e) ++ r /\ forall q, seg q l e = link q (first_of l e) ++ r.
Proof. destruct l as [|x l]; [exists []|exists (seg x l e)]; cbn [seg first_of]; rewrite ?app_nil_r; [|done]. split; [done|]. intros q. by rewrite app_nil_r. Qed.

Lemma seg_last p l e : exists r, seg p l e = r ++ link (last_of p l) e /\ forall q, seg p l q = r ++ link (last_of p l) q.
Proof.
  destruct l as [|y l _] using rev_ind; [by exists []|]. exists (seg p l y). unfold last_of. rewrite last_snoc. cbn [default]. rewrite seg_app. split; [done|].
  intros q. by rewrite seg_app.
Qed.

(** ** Cutting and joining links *)

Lemma wp___list_add m p x n u v R (Q : unit -> mem -> Prop) :
  cells m (link p x ++ node n u v ++ R) -> (forall m', cells m' (link p n ++ link n x ++ R) -> Q tt m') -> wp (__list_add n p x) Q m.
Proof.
  unfold link, node. intros H HQ. rewrite <- !app_assoc in H. unfold __list_add. apply wp_bind. cell_store H. apply wp_bind. cell_store H. apply wp_bind. cell_store H.
  cell_store H. apply HQ. cells_by H.
Qed.

Lemma wp___list_del m p e x R (Q : unit -> mem -> Prop) :
  cells m (link p e ++ link e x ++ R) -> (forall m', cells m' (link p x ++ node e x p ++ R) -> Q tt m') -> wp (__list_del p x) Q m.
Proof.
  unfold link, node. intros H HQ. rewrite <- !app_assoc in H. unfold __list_del. apply wp_bind. cell_store H. cell_store H. apply HQ. cells_by H.
Qed.

Lemma wp_INIT_LIST_HEAD m n u v R (Q : unit -> mem -> Prop) :
  cells m (node n u v ++ R) -> (forall m', cells m' (ring n [] ++ R) -> Q tt m') -> wp (INIT_LIST_HEAD n) Q m.
Proof.
  unfold ring, seg, link, node. intros H HQ. rewrite <- !app_assoc in H. unfold INIT_LIST_HEAD. apply wp_bind. cell_store H. cell_store H. apply HQ. cells_by H.
Qed.

Lemma list_add_ok m h l n u v R (Q : unit -> mem -> Prop) :
  cells m (ring h l ++ node n u v ++ R) -> (forall m', cells m' (ring h (n :: l) ++ R) -> Q tt m') -> wp (list_add n h) Q m.
Proof.
  intros H HQ. destruct (seg_first h l h) as (r & E & E'). unfold ring in *. rewrite E in H. unfold list_add. apply wp_bind.
  unfold link at 1 in H. rewrite <- !app_assoc in H. cell_load H. eapply (wp___list_add _ _ _ _ u v (r ++ R)); [unfold link; cells_by H|].
  intros m' H'. apply HQ. cbn [seg]. rewrite E'. cells_by H'.
Qed.

Lemma list_add_tail_ok m h l n u v R (Q : unit -> mem -> Prop) :
  cells m (ring h l ++ node n u v ++ R) -> (forall m', cells m' (ring h (l ++ [n]) ++ R) -> Q tt m') -> wp (list_add_tail n h) Q m.
Proof.
  intros H HQ. destruct (seg_last h l h) as (r & E & E'). unfold ring in *. rewrite E in H. unfold list_add_tail. apply wp_bind.
  unfold link at 1 in H. rewrite <- !app_assoc in H. cell_load H. eapply (wp___list_add _ _ _ _ u v (r ++ R)); [unfold link; cells_by H|].
  intros m' H'. apply HQ. rewrite seg_app, E'. cbn [seg]. cells_by H'.
Qed.

(** The same at a node of the list. *)
Lemma list_add_at m h l1 x l2 n u v R (Q : unit -> mem -> Prop) :
  cells m (ring h (l1 ++ x :: l2) ++ node n u v ++ R) -> (forall m', cells m' (ring h (l1 ++ x :: n :: l2) ++ R) -> Q tt m') -> wp (list_add n x) Q m.
Proof.
  intros H HQ. rewrite ring_rotate in H. eapply list_add_ok; [exact H|]. intros m' H'. apply HQ. change (n :: l2 ++ h :: l1) with ((n :: l2) ++ h :: l1) in H'. by rewrite <- ring_rotate in H'.
Qed.

Lemma list_add_tail_at m h l1 x l2 n u v R (Q : unit -> mem -> Prop) :
  cells m (ring h (l1 ++ x :: l2) ++ node n u v ++ R) -> (forall m', cells m' (ring h (l1 ++ n :: x :: l2) ++ R) -> Q tt m') -> wp (list_add_tail n x) Q m.
Proof.
  intros H HQ. rewrite ring_rotate in H. eapply list_add_tail_ok; [exact H|]. intros m' H'. apply HQ. rewrite <- app_assoc in H'. cbn [app] in H'. rewrite <- ring_rotate, <- app_assoc in H'. done.
Qed.

(** A ring without one of its nodes, seen from the node that follows. *)
Lemma ring_without h l1 x l2 : exists f k, ring h (l1 ++ x :: l2) ≡ₚ ring x (f :: k) /\ ring f k ≡ₚ ring h (l1 ++ l2).
Proof.
  destruct l2 as [|f l2]; [exists h, l1|exists f, (l2 ++ h :: l1)]; (split; [apply ring_rotate|]); [by rewrite app_nil_r|]. symmetry. apply ring_rotate.
Qed.

Lemma ring_open f k : exists q r, (forall e, ring e (f :: k) ≡ₚ link q e ++ link e f ++ r) /\ ring f k ≡ₚ link q f ++ r.
Proof.
  unfold ring. cbn [seg]. destruct (seg_last f k f) as (r & E & E'). exists (last_of f k), r. rewrite E. split; [intros e; rewrite E'|]; perm.
Qed.

(** The beginning that list_del, list_del_init and the moves share: the entry is taken out
    of its ring. *)
Lemma wp_list_unlink {A} m e f k R (c : M A) (Q : A -> mem -> Prop) :
  cells m (ring e (f :: k) ++ R) ->
  (forall m' q, cells m' (ring f k ++ node e f q ++ R) -> wp c Q m') ->
  wp (prev ← load (e + 4); next ← load e; __list_del prev next ;; c) Q m.
Proof.
  intros H HQ. destruct (ring_open f k) as (q & r & E & E'). rewrite E in H. apply wp_bind. unfold link in H. rewrite <- !app_assoc in H. cell_load H. apply wp_bind. cell_load H.
  apply wp_bind. eapply (wp___list_del _ q e f (r ++ R)); [unfold link; cells_by H|]. intros m' H'. apply (HQ _ q). rewrite E'. cells_by H'.
Qed.

(** An entry that is alone stays as it is. *)
Lemma wp_unlink_alone {A} m e R (c : M A) (Q : A -> mem -> Prop) :
  cells m (ring e [] ++ R) -> (forall m', cells m' (node e e e ++ R) -> wp c Q m') ->
  wp (prev ← load (e + 4); next ← load e; __list_del prev next ;; c) Q m.
Proof.
  unfold ring, seg, link, node. intros H HQ. rewrite <- !app_assoc in *. apply wp_bind. cell_load H. apply wp_bind. cell_load H. apply wp_bind, wp_bind. cell_store H. cell_store H.
  apply HQ. cells_by H.
Qed.

Lemma list_del_ok m h l1 e l2 R (Q : unit -> mem -> Prop) :
  cells m (ring h (l1 ++ e :: l2) ++ R) -> (forall m', cells m' (ring h (l1 ++ l2) ++ node e LIST_POISON1 LIST_POISON2 ++ R) -> Q tt m') -> wp (list_del e) Q m.
Proof.
  intros H HQ. destruct (ring_without h l1 e l2) as (f & k & E & E'). rewrite E in H. eapply wp_list_unlink; [exact H|]. clear m H. intros m q H. unfold node in H. rewrite <- app_assoc in H.
  apply wp_bind. cell_store H. cell_store H. apply HQ. rewrite <- E'. unfold node. cells_by H.
Qed.

Lemma list_del_init_ok m h l1 e l2 R (Q : unit -> mem -> Prop) :
  cells m (ring h (l1 ++ e :: l2) ++ R) -> (forall m', cells m' (ring h (l1 ++ l2) ++ ring e [] ++ R) -> Q tt m') -> wp (list_del_init e) Q m.
Proof.
  intros H HQ. destruct (ring_without h l1 e l2) as (f & k & E & E'). rewrite E in H. eapply wp_list_unlink; [exact H|]. clear m H. intros m q H.
  eapply (wp_INIT_LIST_HEAD _ e f q (ring f k ++ R)); [cells_by H|]. intros m' H'. apply HQ. rewrite <- E'. cells_by H'.
Qed.

Lemma list_del_init_alone m e R (Q : unit -> mem -> Prop) :
  cells m (ring e [] ++ R) -> (forall m', cells m' (ring e [] ++ R) -> Q tt m') -> wp (list_del_init e) Q m.
Proof. intros H HQ. eapply wp_unlink_alone; [exact H|]. intros m' H'. eapply wp_INIT_LIST_HEAD; [exact H'|done]. Qed.

(** Move to another ring, or to another place of the same. *)
Lemma list_move_ok m h l1 e l2 k l R (Q : unit -> mem -> Prop) :
  cells m (ring h (l1 ++ e :: l2) ++ ring k l ++ R) -> (forall m', cells m' (ring h (l1 ++ l2) ++ ring k (e :: l) ++ R) -> Q tt m') -> wp (list_move e k) Q m.
Proof.
  intros H HQ. destruct (ring_without h l1 e l2) as (f & j & E & E'). rewrite E in H. eapply wp_list_unlink; [exact H|]. clear m H. intros m q H.
  eapply (list_add_ok _ k l e f q (ring f j ++ R)); [cells_by H|]. intros m' H'. apply HQ. rewrite <- E'. cells_by H'.
Qed.

Lemma list_move_tail_ok m h l1 e l2 k l R (Q : unit -> mem -> Prop) :
  cells m (ring h (l1 ++ e :: l2) ++ ring k l ++ R) -> (forall m', cells m' (ring h (l1 ++ l2) ++ ring k (l ++ [e]) ++ R) -> Q tt m') -> wp (list_move_tail e k) Q m.
Proof.
  intros H HQ. destruct (ring_without h l1 e l2) as (f & j & E & E'). rewrite E in H. eapply wp_list_unlink; [exact H|]. clear m H. intros m q H.
  eapply (list_add_tail_ok _ k l e f q (ring f j ++ R)); [cells_by H|]. intros m' H'. apply HQ. rewrite <- E'. cells_by H'.
Qed.

Lemma list_move_same m h l1 e l2 R (Q : unit -> mem -> Prop) :
  cells m (ring h (l1 ++ e :: l2) ++ R) -> (forall m', cells m' (ring h (e :: l1 ++ l2) ++ R) -> Q tt m') -> wp (list_move e h) Q m.
Proof.
  intros H HQ. destruct (ring_without h l1 e l2) as (f & j & E & E'). rewrite E in H. eapply wp_list_unlink; [exact H|]. clear m H. intros m q H. rewrite E' in H.
  by eapply list_add_ok.
Qed.

Lemma list_move_tail_same m h l1 e l2 R (Q : unit -> mem -> Prop) :
  cells m (ring h (l1 ++ e :: l2) ++ R) -> (forall m', cells m' (ring h ((l1 ++ l2) ++ [e]) ++ R) -> Q tt m') -> wp (list_move_tail e h) Q m.
Proof.
  intros H HQ. destruct (ring_without h l1 e l2) as (f & j & E & E'). rewrite E in H. eapply wp_list_unlink; [exact H|]. clear m H. intros m q H. rewrite E' in H.
  by eapply list_add_tail_ok.
Qed.

(** The new entry takes the place of the old one, which keeps its pointers; this holds of
    the head of a list too, and of an empty one. *)
Lemma list_replace_ok m e l n u v R (Q : unit -> mem -> Prop) :
  cells m (ring e l ++ node n u v ++ R) -> (forall m' s t, cells m' (ring n l ++ node e s t ++ R) -> Q tt m') -> wp (list_replace e n) Q m.
Proof.
  intros H HQ. unfold list_replace. destruct l as [|f k].
  - unfold ring, seg, link, node in *. rewrite <- !app_assoc in *. do 8 (first [apply wp_bind; first [cell_load H|cell_store H]|cell_store H]). apply (HQ _ e n). cells_by H.
  - destruct (ring_open f k) as (q & r & E & _). rewrite E in H.
    unfold link, node in *. rewrite <- !app_assoc in *. do 8 (first [apply wp_bind; first [cell_load H|cell_store H]|cell_store H]). apply (HQ _ f q). rewrite E. unfold link. cells_by H.
Qed.

Lemma list_replace_init_ok m e l n u v R (Q : unit -> mem -> Prop) :
  cells m (ring e l ++ node n u v ++ R) -> (forall m', cells m' (ring n l ++ ring e [] ++ R) -> Q tt m') -> wp (list_replace_init e n) Q m.
Proof.
  intros H HQ. apply wp_bind. eapply list_replace_ok; [exact H|]. clear m H. intros m s t H. eapply (wp_INIT_LIST_HEAD _ e s t (ring n l ++ R)); [cells_by H|].
  intros m' H'. apply HQ. cells_by H'.
Qed.

(** ** Queries *)

Lemma seg_in p l e x : x ∈ l -> exists y r, seg p l e ≡ₚ [(x + 4, y)] ++ r.
Proof.
  intros (l1 & l2 & ->)%list_elem_of_split. rewrite seg_app. destruct (seg_last p l1 x) as (r & -> & _). exists (last_of p l1). unfold link.
  eexists. rewrite <- !app_assoc. expose.
Qed.

Lemma seg_NoDup p l e : NoDup (seg p l e).*1 -> NoDup l.
Proof.
  revert p. induction l as [|x l IH]; intros p; cbn [seg]; [constructor|]. unfold link. rewrite <- app_assoc. cbn [app fmap list_fmap fst]. intros [_ [Hx Hn]%NoDup_cons]%NoDup_cons.
  constructor; [|by eapply IH]. intros Hin. apply Hx. destruct (seg_in x l e x Hin) as (y & r & E). rewrite E. left.
Qed.

Lemma ring_NoDup m h l R : cells m (ring h l ++ R) -> NoDup l.
Proof. intros [Hn _]. rewrite fmap_app in Hn. apply NoDup_app in Hn as [Hn _]. by eapply seg_NoDup. Qed.

(** The head is not one of the nodes. *)
Lemma ring_head m h l R : cells m (ring h l ++ R) -> h ∉ l.
Proof.
  intros H Hin. destruct (seg_last h l h) as (r & E & _). apply list_elem_of_split in Hin as (l1 & l2 & ->). unfold ring in H. rewrite seg_app in H.
  destruct (seg_last h l1 h) as (r1 & E1 & _), (seg_last h l2 h) as (r2 & E2 & _). rewrite E1, E2 in H. unfold link in H. rewrite <- !app_assoc in H.
  assert (h + 4 <> h + 4); [|done]. eapply (cells_ne _ _ (last_of h l1) _ (last_of h l2)). cells_with H.
Qed.

Lemma wp_first m h l R (Q : Z -> mem -> Prop) : cells m (ring h l ++ R) -> Q (first_of l h) m -> wp (load h) Q m.
Proof.
  intros H HQ. destruct (seg_first h l h) as (r & E & _). unfold ring in H. rewrite E in H. unfold link in H. rewrite <- !app_assoc in H. cell_load H. done.
Qed.

Lemma wp_last m h l R (Q : Z -> mem -> Prop) : cells m (ring h l ++ R) -> Q (last_of h l) m -> wp (load (h + 4)) Q m.
Proof.
  intros H HQ. destruct (seg_last h l h) as (r & E & _). unfold ring in H. rewrite E in H. unfold link in H. rewrite <- !app_assoc in H. cell_load H. done.
Qed.

Lemma first_is_head h l : h ∉ l -> (first_of l h =? h) = bool_decide (l = []).
Proof. intros Hh. destruct l as [|x l]; cbn [first_of]; [by rewrite Z.eqb_refl|]. rewrite (proj2 (Z.eqb_neq _ _)); [done|]. intros ->. set_solver. Qed.

Lemma list_empty_ok m h l R (Q : bool -> mem -> Prop) : cells m (ring h l ++ R) -> Q (bool_decide (l = [])) m -> wp (list_empty h) Q m.
Proof. intros H HQ. apply wp_bind. eapply wp_first; [exact H|]. apply wp_ret. by rewrite first_is_head by (by eapply ring_head). Qed.

Lemma list_empty_careful_ok m h l R (Q : bool -> mem -> Prop) : cells m (ring h l ++ R) -> Q (bool_decide (l = [])) m -> wp (list_empty_careful h) Q m.
Proof.
  intros H HQ. apply wp_bind. eapply wp_first; [exact H|]. rewrite first_is_head by (by eapply ring_head). destruct l as [|x l]; [|done]. apply wp_bind. eapply wp_last; [exact H|].
  cbn [bool_decide decide_rel decide first_of last_of last default]. apply wp_ret. by rewrite Z.eqb_refl.
Qed.

Lemma list_is_singular_ok m h l R (Q : bool -> mem -> Prop) : cells m (ring h l ++ R) -> Q (bool_decide (length l = 1%nat)) m -> wp (list_is_singular h) Q m.
Proof.
  intros H HQ. pose proof (ring_NoDup _ _ _ _ H) as Hn. apply wp_bind. eapply list_empty_ok; [exact H|]. destruct l as [|x l]; [done|]. cbn. apply wp_bind. eapply wp_first; [exact H|].
  apply wp_bind. eapply wp_last; [exact H|]. apply wp_ret. cbn [first_of]. unfold last_of. destruct l as [|y l _] using rev_ind; [by rewrite Z.eqb_refl|].
  change (x :: l ++ [y]) with ((x :: l) ++ [y]) in *. rewrite last_snoc. cbn [default]. rewrite (proj2 (Z.eqb_neq _ _)).
  - rewrite bool_decide_eq_false_2 in HQ; [done|]. rewrite length_app. simpl. lia.
  - intros ->. apply NoDup_app in Hn as (_ & Hd & _). apply (Hd y); left.
Qed.

Lemma list_is_last_ok m h l1 x l2 R (Q : bool -> mem -> Prop) : cells m (ring h (l1 ++ x :: l2) ++ R) -> Q (bool_decide (l2 = [])) m -> wp (list_is_last x h) Q m.
Proof.
  intros H HQ. pose proof (ring_head _ _ _ _ H) as Hh. rewrite ring_rotate in H. apply wp_bind. eapply wp_first; [exact H|]. apply wp_ret.
  destruct l2 as [|y l2]; cbn [app first_of]; [by rewrite Z.eqb_refl|]. rewrite (proj2 (Z.eqb_neq _ _)); [done|]. intros ->. set_solver.
Qed.

(** ** Joining and cutting lists *)

Lemma seg_both l : l <> [] -> exists f q r, forall a b, seg a l b ≡ₚ link a f ++ link q b ++ r.
Proof.
  destruct l as [|f l]; [done|]. intros _. destruct (seg_last f l f) as (r & _ & E). exists f, (last_of f l), r. intros a b. cbn [seg]. rewrite E. perm.
Qed.

(** The nodes of the ring at [k] go between [p] and [x]; the old head keeps its pointers. *)
Lemma wp___list_splice m k l p x R (Q : unit -> mem -> Prop) :
  l <> [] -> cells m (ring k l ++ link p x ++ R) -> (forall m' s t, cells m' (seg p l x ++ node k s t ++ R) -> Q tt m') -> wp (__list_splice k p x) Q m.
Proof.
  intros Hl H HQ. destruct (seg_both l Hl) as (f & q & r & E). unfold ring in H. rewrite E in H. unfold link in H. rewrite <- !app_assoc in H.
  unfold __list_splice. do 6 (first [apply wp_bind; first [cell_load H|cell_store H]|cell_store H]). apply (HQ _ f q). rewrite E. unfold link, node. cells_by H.
Qed.

(** What is left of the list that was spliced: an empty list as it was, or a node with old
    pointers. *)
Definition left_over (k : Z) (l : list Z) (r : list (Z * Z)) : Prop :=
  match l with [] => r = ring k [] | _ => exists s t, r = node k s t end.

Lemma wp_splice_front m k j h l R (Q : unit -> mem -> Prop) :
  j <> [] -> cells m (ring k j ++ ring h l ++ R) -> (forall m' s t, cells m' (ring h (j ++ l) ++ node k s t ++ R) -> Q tt m') -> wp (next ← load h; __list_splice k h next) Q m.
Proof.
  intros Hj H HQ. destruct (seg_first h l h) as (r & E & _). apply wp_bind. eapply (wp_first _ h l (ring k j ++ R)); [cells_by H|]. unfold ring at 2 in H. rewrite E in H.
  eapply (wp___list_splice _ k j h _ (r ++ R)); [done|cells_by H|]. clear m H. intros m s t H. apply (HQ _ s t).
  assert (ring h (j ++ l) = seg h j (first_of l h) ++ r) as ->; [|cells_by H]. unfold ring. destruct l as [|y l]; cbn [first_of seg] in *.
  - rewrite <- (app_nil_r (link h h)) in E at 1. apply app_inv_head in E. by rewrite <- E, !app_nil_r.
  - rewrite seg_app. apply app_inv_head in E. by rewrite E.
Qed.

Lemma wp_splice_back m k j h l R (Q : unit -> mem -> Prop) :
  j <> [] -> cells m (ring k j ++ ring h l ++ R) -> (forall m' s t, cells m' (ring h (l ++ j) ++ node k s t ++ R) -> Q tt m') -> wp (prev ← load (h + 4); __list_splice k prev h) Q m.
Proof.
  intros Hj H HQ. destruct (seg_last h l h) as (r & E & _). apply wp_bind. eapply (wp_last _ h l (ring k j ++ R)); [cells_by H|]. unfold ring at 2 in H. rewrite E in H.
  eapply (wp___list_splice _ k j (last_of h l) h (r ++ R)); [done|cells_by H|]. clear m H. intros m s t H. apply (HQ _ s t).
  assert (ring h (l ++ j) = r ++ seg (last_of h l) j h) as ->; [|cells_by H]. unfold ring, last_of in *. destruct j as [|x j]; [done|]. destruct l as [|y l _] using rev_ind; cbn [last default] in *.
  - change (seg h [] h) with ([] ++ link h h) in E. apply app_inv_tail in E. by rewrite <- E.
  - rewrite last_snoc in *. cbn [default] in *. rewrite seg_app in E. apply app_inv_tail in E. rewrite <- app_assoc. cbn [app]. by rewrite seg_app, E.
Qed.

Lemma list_splice_ok m k l' h l R (Q : unit -> mem -> Prop) :
  cells m (ring k l' ++ ring h l ++ R) -> (forall m' r, left_over k l' r -> cells m' (ring h (l' ++ l) ++ r ++ R) -> Q tt m') -> wp (list_splice k h) Q m.
Proof.
  intros H HQ. apply wp_bind. eapply list_empty_ok; [exact H|]. destruct l' as [|x l']; [cbn; apply wp_ret, (HQ _ (ring k [])); [done|]; cells_by H|].
  eapply wp_splice_front; [|exact H|]; [done|]. intros m' s t H'. apply (HQ _ (node k s t)); [by exists s, t|done].
Qed.

Lemma list_splice_tail_ok m k l' h l R (Q : unit -> mem -> Prop) :
  cells m (ring k l' ++ ring h l ++ R) -> (forall m' r, left_over k l' r -> cells m' (ring h (l ++ l') ++ r ++ R) -> Q tt m') -> wp (list_splice_tail k h) Q m.
Proof.
  intros H HQ. apply wp_bind. eapply list_empty_ok; [exact H|]. destruct l' as [|x l']; [cbn; apply wp_ret, (HQ _ (ring k [])); [done|]; rewrite app_nil_r; cells_by H|].
  eapply wp_splice_back; [|exact H|]; [done|]. intros m' s t H'. apply (HQ _ (node k s t)); [by exists s, t|done].
Qed.

Lemma list_splice_init_ok m k l' h l R (Q : unit -> mem -> Prop) :
  cells m (ring k l' ++ ring h l ++ R) -> (forall m', cells m' (ring h (l' ++ l) ++ ring k [] ++ R) -> Q tt m') -> wp (list_splice_init k h) Q m.
Proof.
  intros H HQ. apply wp_bind. eapply list_empty_ok; [exact H|]. destruct l' as [|x l']; [cbn; apply wp_ret, HQ; cells_by H|].
  apply wp_assoc, wp_bind. eapply wp_splice_front; [|exact H|]; [done|]. clear m H. intros m s t H.
  eapply (wp_INIT_LIST_HEAD _ k s t (ring h ((x :: l') ++ l) ++ R)); [cells_by H|]. intros m' H'. apply HQ. cells_by H'.
Qed.

Lemma list_splice_tail_init_ok m k l' h l R (Q : unit -> mem -> Prop) :
  cells m (ring k l' ++ ring h l ++ R) -> (forall m', cells m' (ring h (l ++ l') ++ ring k [] ++ R) -> Q tt m') -> wp (list_splice_tail_init k h) Q m.
Proof.
  intros H HQ. apply wp_bind. eapply list_empty_ok; [exact H|]. destruct l' as [|x l']; [cbn; apply wp_ret, HQ; rewrite app_nil_r; cells_by H|].
  apply wp_assoc, wp_bind. eapply wp_splice_back; [|exact H|]; [done|]. clear m H. intros m s t H.
  eapply (wp_INIT_LIST_HEAD _ k s t (ring h (l ++ x :: l') ++ R)); [cells_by H|]. intros m' H'. apply HQ. cells_by H'.
Qed.

(** The list is cut after the entry [e]. *)
Lemma wp___list_cut_position m k u v h l1 e l2 R (Q : unit -> mem -> Prop) :
  cells m (node k u v ++ ring h (l1 ++ e :: l2) ++ R) -> (forall m', cells m' (ring k (l1 ++ [e]) ++ ring h l2 ++ R) -> Q tt m') -> wp (__list_cut_position k h e) Q m.
Proof.
  intros H HQ. unfold ring in *. rewrite seg_app in H. destruct (seg_first h l1 e) as (r1 & E1 & E1'), (seg_first e l2 h) as (r2 & E2 & E2'). rewrite E1, E2 in H.
  unfold link, node in H. rewrite <- !app_assoc in H. unfold __list_cut_position. do 9 (first [apply wp_bind; first [cell_load H|cell_store H]|cell_store H]).
  apply HQ. rewrite seg_app, E1', E2'. unfold link. cbn [seg]. unfold link. cells_by H.
Qed.

Lemma list_cut_position_ok m k u v h l1 e l2 R (Q : unit -> mem -> Prop) :
  cells m (node k u v ++ ring h (l1 ++ e :: l2) ++ R) -> (forall m', cells m' (ring k (l1 ++ [e]) ++ ring h l2 ++ R) -> Q tt m') -> wp (list_cut_position k h e) Q m.
Proof.
  intros H HQ. assert (cells m (ring h (l1 ++ e :: l2) ++ node k u v ++ R)) as H' by cells_by H. pose proof (ring_head _ _ _ _ H') as Hh.
  apply wp_bind. eapply list_empty_ok; [exact H'|]. rewrite bool_decide_eq_false_2 by (by destruct l1). apply wp_bind. eapply list_is_singular_ok; [exact H'|].
  assert (e <> h) as Hne by (intros ->; set_solver).
  assert (wp (if e =? h then INIT_LIST_HEAD k else __list_cut_position k h e) Q m) as Hcut.
  { rewrite (proj2 (Z.eqb_neq _ _)) by done. by eapply wp___list_cut_position. }
  apply wp_bind. case_bool_decide as Hs; [|by apply wp_ret]. apply wp_bind. eapply wp_first; [exact H'|]. apply wp_ret.
  rewrite length_app in Hs. cbn [length] in Hs. destruct l1; [|cbn in Hs; lia]. cbn [app first_of]. by rewrite Z.eqb_refl.
Qed.

Lemma list_cut_position_head m k u v h l R (Q : unit -> mem -> Prop) :
  l <> [] -> cells m (node k u v ++ ring h l ++ R) -> (forall m', cells m' (ring k [] ++ ring h l ++ R) -> Q tt m') -> wp (list_cut_position k h h) Q m.
Proof.
  intros Hl H HQ. assert (cells m (ring h l ++ node k u v ++ R)) as H' by cells_by H. apply wp_bind. eapply list_empty_ok; [exact H'|]. rewrite bool_decide_eq_false_2 by done.
  apply wp_bind. eapply list_is_singular_ok; [exact H'|]. apply wp_bind. apply wp_mono with (Q := fun b n => b = false /\ n = m).
  - case_bool_decide; [|by apply wp_ret]. apply wp_bind. eapply wp_first; [exact H'|]. apply wp_ret. by rewrite Z.eqb_refl, andb_false_r.
  - intros b n [-> ->]. rewrite Z.eqb_refl. by eapply wp_INIT_LIST_HEAD.
Qed.

(** A cut of an empty list does nothing, to the other list either. *)
Lemma list_cut_position_empty m k h e R (Q : unit -> mem -> Prop) : cells m (ring h [] ++ R) -> Q tt m -> wp (list_cut_position k h e) Q m.
Proof. intros H HQ. apply wp_bind. eapply list_empty_ok; [exact H|]. done. Qed.

(** ** Hash chains *)

Lemma chain_insert p l1 l2 : exists q r, (forall x, seg p l1 x = r ++ link q x) /\ chain p (l1 ++ l2) = r ++ chain q l2.
Proof.
  destruct l1 as [|q l1 _] using rev_ind; [by exists p, []|]. exists q, (seg p l1 q). split; [intros x; by rewrite seg_app|]. rewrite <- app_assoc. cbn [app]. by rewrite chain_app.
Qed.

Lemma hlist_add_head_ok m h l n u v R (Q : unit -> mem -> Prop) :
  Forall (fun x => x <> NULL) l -> cells m (chain h l ++ node n u v ++ R) -> (forall m', cells m' (chain h (n :: l) ++ R) -> Q tt m') -> wp (hlist_add_head n h) Q m.
Proof.
  intros Hl H HQ. unfold hlist_add_head. destruct l as [|f l]; cbn [chain] in *; unfold link, node in *; rewrite <- !app_assoc in *.
  - apply wp_bind. cell_load H. apply wp_bind. cell_store H. apply wp_bind, wp_ret. apply wp_bind. cell_store H. cell_store H. apply HQ. cells_by H.
  - apply Forall_cons in Hl as [Hf _]. apply wp_bind. cell_load H. apply wp_bind. cell_store H. rewrite (proj2 (Z.eqb_neq f NULL)) by done. cbn [negb]. apply wp_bind. cell_store H.
    apply wp_bind. cell_store H. cell_store H. apply HQ. cells_by H.
Qed.

Lemma hlist_add_before_ok m h l1 x l2 n u v R (Q : unit -> mem -> Prop) :
  cells m (chain h (l1 ++ x :: l2) ++ node n u v ++ R) -> (forall m', cells m' (chain h (l1 ++ n :: x :: l2) ++ R) -> Q tt m') -> wp (hlist_add_before n x) Q m.
Proof.
  intros H HQ. unfold hlist_add_before. destruct (seg_last h l1 x) as (r & E & E'). rewrite chain_app, E in H. unfold link, node in H. rewrite <- !app_assoc in H.
  do 6 (first [apply wp_bind; first [cell_load H|cell_store H]|cell_store H]). apply HQ. rewrite chain_app, E'. cbn [chain]. unfold link. cells_by H.
Qed.

Lemma hlist_add_after_ok m h l1 x l2 n u v R (Q : unit -> mem -> Prop) :
  Forall (fun y => y <> NULL) l2 -> cells m (chain h (l1 ++ x :: l2) ++ node n u v ++ R) -> (forall m', cells m' (chain h (l1 ++ x :: n :: l2) ++ R) -> Q tt m') -> wp (hlist_add_after x n) Q m.
Proof.
  intros Hl H HQ. unfold hlist_add_after. rewrite chain_app in H. setoid_rewrite chain_app in HQ. destruct l2 as [|f l2]; cbn [chain] in *; unfold link, node in *; rewrite <- !app_assoc in *.
  - apply wp_bind. cell_load H. apply wp_bind. cell_store H. apply wp_bind. cell_store H. apply wp_bind. cell_store H. apply wp_bind. cell_load H. apply wp_ret, HQ. cells_by H.
  - apply Forall_cons in Hl as [Hf _]. apply wp_bind. cell_load H. apply wp_bind. cell_store H. apply wp_bind. cell_store H. apply wp_bind. cell_store H. apply wp_bind. cell_load H.
    rewrite (proj2 (Z.eqb_neq f NULL)) by done. cbn [negb]. apply wp_bind. cell_load H. cell_store H. apply HQ. cells_by H.
Qed.

Lemma wp___hlist_del m h l1 x l2 R (Q : unit -> mem -> Prop) :
  Forall (fun y => y <> NULL) l2 -> cells m (chain h (l1 ++ x :: l2) ++ R) -> (forall m' s t, cells m' (chain h (l1 ++ l2) ++ node x s t ++ R) -> Q tt m') -> wp (__hlist_del x) Q m.
Proof.
  intros Hl H HQ. unfold __hlist_del. destruct (chain_insert h l1 l2) as (q & r & E & E'). rewrite chain_app, E in H. rewrite E' in HQ.
  destruct l2 as [|f l2]; cbn [chain] in *; unfold link, node in *; rewrite <- !app_assoc in *.
  - apply wp_bind. cell_load H. apply wp_bind. cell_load H. apply wp_bind. cell_store H. apply wp_ret, (HQ _ NULL q). cells_by H.
  - apply Forall_cons in Hl as [Hf _]. apply wp_bind. cell_load H. apply wp_bind. cell_load H. apply wp_bind. cell_store H. rewrite (proj2 (Z.eqb_neq f NULL)) by done. cbn [negb]. cell_store H.
    apply (HQ _ f q). cells_by H.
Qed.

Lemma hlist_del_ok m h l1 x l2 R (Q : unit -> mem -> Prop) :
  Forall (fun y => y <> NULL) l2 -> cells m (chain h (l1 ++ x :: l2) ++ R) ->
  (forall m', cells m' (chain h (l1 ++ l2) ++ node x LIST_POISON1 LIST_POISON2 ++ R) -> Q tt m') -> wp (hlist_del x) Q m.
Proof.
  intros Hl H HQ. apply wp_bind. eapply wp___hlist_del; [exact Hl|exact H|]. clear m H. intros m s t H. unfold node in *. rewrite <- !app_assoc in *. apply wp_bind. cell_store H. cell_store H.
  apply HQ. cells_by H.
Qed.

(** A node is unhashed when its back pointer is NULL. *)
Lemma chain_pprev m h l1 x l2 R : h <> NULL -> Forall (fun y => y <> NULL) l1 -> cells m (chain h (l1 ++ x :: l2) ++ R) ->
  exists q, q <> NULL /\ forall Q : Z -> mem -> Prop, Q q m -> wp (load (x + 4)) Q m.
Proof.
  intros Hh Hl H. rewrite chain_app in H. destruct (seg_last h l1 x) as (r & E & _). rewrite E in H. unfold link in H. rewrite <- !app_assoc in H. exists (last_of h l1). split.
  - unfold last_of. destruct l1 as [|y l1 _] using rev_ind; [done|]. rewrite last_snoc. apply Forall_app in Hl as [_ Hy]. by apply Forall_cons in Hy as [Hy _].
  - intros Q HQ. cell_load H. done.
Qed.

Lemma hlist_unhashed_ok m h l1 x l2 R (Q : bool -> mem -> Prop) :
  h <> NULL -> Forall (fun y => y <> NULL) l1 -> cells m (chain h (l1 ++ x :: l2) ++ R) -> Q false m -> wp (hlist_unhashed x) Q m.
Proof.
  intros Hh Hl H HQ. destruct (chain_pprev _ _ _ _ _ _ Hh Hl H) as (q & Hq & Hload). apply wp_bind, Hload, wp_ret. by rewrite (proj2 (Z.eqb_neq q NULL)).
Qed.

Lemma hlist_del_init_ok m h l1 x l2 R (Q : unit -> mem -> Prop) :
  h <> NULL -> Forall (fun y => y <> NULL) (l1 ++ l2) -> cells m (chain h (l1 ++ x :: l2) ++ R) ->
  (forall m', cells m' (chain h (l1 ++ l2) ++ node x NULL NULL ++ R) -> Q tt m') -> wp (hlist_del_init x) Q m.
Proof.
  intros Hh [Hl1 Hl2]%Forall_app H HQ. apply wp_bind. eapply hlist_unhashed_ok; [done|exact Hl1|exact H|]. apply wp_bind. eapply wp___hlist_del; [exact Hl2|exact H|]. clear m H. intros m s t H.
  unfold INIT_HLIST_NODE, node in *. rewrite <- !app_assoc in H. apply wp_bind. cell_store H. cell_store H. apply HQ. cells_by H.
Qed.

Lemma hlist_del_init_unhashed m x u R (Q : unit -> mem -> Prop) : cells m (node x u NULL ++ R) -> Q tt m -> wp (hlist_del_init x) Q m.
Proof. unfold node. intros H HQ. rewrite <- app_assoc in H. apply wp_bind, wp_bind. cell_load H. done. Qed.

Lemma hlist_move_list_ok m h l k u R (Q : unit -> mem -> Prop) :
  Forall (fun y => y <> NULL) l -> cells m (chain h l ++ [(k, u)] ++ R) -> (forall m', cells m' (chain k l ++ chain h [] ++ R) -> Q tt m') -> wp (hlist_move_list h k) Q m.
Proof.
  intros Hl H HQ. unfold hlist_move_list. destruct l as [|f l]; cbn [chain] in *; unfold link in *; rewrite <- ?app_assoc in *.
  - apply wp_bind. cell_load H. apply wp_bind. cell_store H. apply wp_bind. cell_load H. apply wp_bind, wp_ret. cell_store H. apply HQ. cells_by H.
  - apply Forall_cons in Hl as [Hf _]. apply wp_bind. cell_load H. apply wp_bind. cell_store H. apply wp_bind. cell_load H. rewrite (proj2 (Z.eqb_neq f NULL)) by done. cbn [negb].
    apply wp_bind, wp_bind. cell_load H. cell_store H. cell_store H. apply HQ. cells_by H.
Qed.

Lemma hlist_empty_ok m h l R (Q : bool -> mem -> Prop) :
  Forall (fun y => y <> NULL) l -> cells m (chain h l ++ R) -> Q (bool_decide (l = [])) m -> wp (hlist_empty h) Q m.
Proof.
  intros Hl H HQ. apply wp_bind. destruct l as [|f l]; cbn [chain] in H; unfold link in H; rewrite <- ?app_assoc in H; cell_load H; [done|]. apply Forall_cons in Hl as [Hf _].
  apply wp_ret. by rewrite (proj2 (Z.eqb_neq f NULL)).
Qed.

(** ** Loops over a list *)

Lemma wp_next m h l1 x l2 R (Q : Z -> mem -> Prop) : cells m (ring h (l1 ++ x :: l2) ++ R) -> Q (first_of l2 h) m -> wp (load x) Q m.
Proof. intros H HQ. rewrite ring_rotate in H. eapply wp_first; [exact H|]. by destruct l2. Qed.

Lemma wp_prev m h l1 x l2 R (Q : Z -> mem -> Prop) : cells m (ring h (l1 ++ x :: l2) ++ R) -> Q (last_of h l1) m -> wp (load (x + 4)) Q m.
Proof.
  intros H HQ. rewrite ring_rotate in H. eapply wp_last; [exact H|]. unfold last_of in *. destruct l1 as [|y l1 _] using rev_ind; [by rewrite last_snoc|].
  by rewrite app_comm_cons, app_assoc, !last_snoc in *.
Qed.

(** list_for_each visits the nodes in order; the body may change all but the links. *)
Lemma wp_list_for_each {A} (I : list Z -> mem -> Prop) fuel h l (body : Z -> M (option A)) Q m :
  (length l < fuel)%nat -> I [] m ->
  (forall l1 m, I l1 m -> exists R, cells m (ring h l ++ R)) ->
  (forall l1 x l2 m, l = l1 ++ x :: l2 -> I l1 m -> wp (body x) (fun r m' => match r with Some y => Q (Some y) m' | None => I (l1 ++ [x]) m' end) m) ->
  (forall m, I l m -> Q None m) -> wp (list_for_each fuel h body) Q m.
Proof.
  intros Hfuel HI Hring Hbody Hend. apply wp_bind. destruct (Hring _ _ HI) as [R0 H0]. pose proof (ring_head _ _ _ _ H0) as Hh. eapply wp_first; [exact H0|].
  eapply (wp_loop_depth (fun n pos m => exists l1 l2, l = l1 ++ l2 /\ n = length l2 /\ pos = first_of l2 h /\ I l1 m)) with (n := length l); [|by exists [], l|lia].
  clear m HI R0 H0. intros n pos m (l1 & l2 & El & -> & -> & HI). destruct (Hring _ _ HI) as [R H]. apply wp_bind. destruct l2 as [|x l2]; cbn [first_of].
  - eapply wp_first; [exact H|]. rewrite Z.eqb_refl. apply wp_ret, Hend. by rewrite El, app_nil_r.
  - rewrite El in H, Hh. eapply wp_next; [exact H|]. rewrite (proj2 (Z.eqb_neq x h)) by (intros ->; set_solver). cbn [negb]. apply wp_bind.
    eapply wp_mono; [by apply (Hbody l1 x l2)|]. intros [y|] m' HI'; [done|]. destruct (Hring _ _ HI') as [R' H']. rewrite El in H'. apply wp_bind. eapply wp_next; [exact H'|].
    apply wp_ret. exists (length l2). split; [simpl; lia|]. exists (l1 ++ [x]), l2. by rewrite <- app_assoc.
Qed.

Lemma wp_list_for_each_prev {A} (I : list Z -> mem -> Prop) fuel h l (body : Z -> M (option A)) Q m :
  (length l < fuel)%nat -> I [] m ->
  (forall l1 m, I l1 m -> exists R, cells m (ring h l ++ R)) ->
  (forall l1 x l2 m, l = l1 ++ x :: l2 -> I l2 m -> wp (body x) (fun r m' => match r with Some y => Q (Some y) m' | None => I (x :: l2) m' end) m) ->
  (forall m, I l m -> Q None m) -> wp (list_for_each_prev fuel h body) Q m.
Proof.
  intros Hfuel HI Hring Hbody Hend. apply wp_bind. destruct (Hring _ _ HI) as [R0 H0]. pose proof (ring_head _ _ _ _ H0) as Hh. eapply wp_last; [exact H0|].
  eapply (wp_loop_depth (fun n pos m => exists l1 l2, l = l1 ++ l2 /\ n = length l1 /\ pos = last_of h l1 /\ I l2 m)) with (n := length l); [|exists l, []; by rewrite app_nil_r|lia].
  clear m HI R0 H0. intros n pos m (l1 & l2 & El & -> & -> & HI). destruct (Hring _ _ HI) as [R H]. apply wp_bind. unfold last_of. destruct l1 as [|x l1 _] using rev_ind; cbn [last default].
  - eapply wp_last; [exact H|]. rewrite Z.eqb_refl. apply wp_ret, Hend. by rewrite El.
  - rewrite last_snoc. change (default h (Some x)) with x. rewrite <- app_assoc in El. cbn [app] in El. rewrite El in H, Hh. eapply wp_prev; [exact H|]. rewrite (proj2 (Z.eqb_neq x h)) by (intros ->; set_solver). cbn [negb].
    apply wp_bind. eapply wp_mono; [by apply (Hbody l1 x l2)|]. intros [y|] m' HI'; [done|]. destruct (Hring _ _ HI') as [R' H']. rewrite El in H'. apply wp_bind. eapply wp_prev; [exact H'|].
    apply wp_ret. exists (length l1). split; [rewrite length_app; simpl; lia|]. by exists l1, (x :: l2).
Qed.

(** list_for_each_safe allows the body to take the entry out of the list. *)
Lemma wp_list_for_each_safe {A} (I : list Z -> mem -> Prop) fuel h l R0 (body : Z -> M (option A)) Q m :
  (length l < fuel)%nat -> cells m (ring h l ++ R0) -> I [] m ->
  (forall l1 l2 m, l = l1 ++ l2 -> I l1 m -> exists k R, cells m (ring h (k ++ l2) ++ R)) ->
  (forall l1 x l2 m, l = l1 ++ x :: l2 -> I l1 m -> wp (body x) (fun r m' => match r with Some y => Q (Some y) m' | None => I (l1 ++ [x]) m' end) m) ->
  (forall m, I l m -> Q None m) -> wp (list_for_each_safe fuel h body) Q m.
Proof.
  intros Hfuel H0 HI Hring Hbody Hend. pose proof (ring_head _ _ _ _ H0) as Hh.
  assert (forall l1 l2 m (K : Z -> mem -> Prop), l = l1 ++ l2 -> I l1 m -> (forall n, (forall x l2', l2 = x :: l2' -> n = first_of l2' h) -> K n m) -> wp (load (first_of l2 h)) K m) as Hload.
  { intros l1 l2 m1 K El HI1 HK. destruct (Hring l1 l2 m1 El HI1) as (k & R & H). destruct l2 as [|x l2]; cbn [first_of]; [eapply wp_first; [exact H|by apply HK]|].
    eapply wp_next; [exact H|]. apply HK. by intros x' l2' [= -> ->]. }
  apply wp_bind. eapply wp_first; [exact H0|]. apply wp_bind. eapply (Hload [] l); [done|done|]. intros n Hn.
  eapply (wp_loop_depth (fun d '(pos, n) m => exists l1 l2, l = l1 ++ l2 /\ d = length l2 /\ pos = first_of l2 h /\ (forall x l2', l2 = x :: l2' -> n = first_of l2' h) /\ I l1 m))
    with (n := length l); [|by exists [], l|lia].
  clear m n Hn H0 HI. intros d [pos n] m (l1 & l2 & El & -> & -> & Hn & HI). destruct l2 as [|x l2]; cbn [first_of].
  - rewrite Z.eqb_refl. apply wp_ret, Hend. by rewrite El, app_nil_r.
  - rewrite El in Hh. rewrite (proj2 (Z.eqb_neq x h)) by (intros ->; set_solver). cbn [negb]. apply wp_bind. eapply wp_mono; [by apply (Hbody l1 x l2)|]. intros [y|] m' HI'; [done|].
    rewrite (Hn x l2) by done. apply wp_bind. eapply (Hload (l1 ++ [x]) l2); [by rewrite <- app_assoc|done|]. intros n' Hn'. apply wp_ret. exists (length l2). split; [simpl; lia|].
    exists (l1 ++ [x]), l2. by rewrite <- app_assoc.
Qed.
End Links.

(** ** The lists as sequences

    A memory as the lists, nodes, hash chains and other words that it is made of. *)

Inductive item :=
| Ring (h : Z) (l : list Z)
| Node (n u v : Z)
| Chain (h : Z) (l : list Z)
| Word (a v : Z).

Definition item_cells (i : item) : list (Z * Z) :=
  match i with
  | Ring h l => ring h l
  | Node n u v => node n u v
  | Chain h l => chain h l
  | Word a v => [(a, v)]
  end.

(** Chains end with NULL, so none of their addresses is NULL. *)
Definition item_ok (i : item) : Prop :=
  match i with
  | Chain h l => h <> NULL /\ Forall (fun x => x <> NULL) l
  | _ => True
  end.

Definition world (m : mem) (W : list item) : Prop := cells m (W ≫= item_cells) /\ Forall item_ok W.

#[export] Instance world_perm m : Proper ((≡ₚ) ==> iff) (world m).
Proof. intros W V E. unfold world. by rewrite E. Qed.

Inductive list_op :=
| Init (n : Z) | Add (n x : Z) | AddTail (n x : Z) | Del (x : Z) | DelInit (x : Z)
| Replace (old new : Z) | ReplaceInit (old new : Z) | Move (x h : Z) | MoveTail (x h : Z)
| Splice (k h : Z) | SpliceTail (k h : Z) | SpliceInit (k h : Z) | SpliceTailInit (k h : Z) | Cut (k h x : Z)
| HInit (n : Z) | HInitHead (h : Z) | HAddHead (n h : Z) | HAddBefore (n x : Z) | HAddAfter (x n : Z)
| HDel (x : Z) | HDelInit (x : Z) | HMove (h k : Z).

Definition do_list (op : list_op) : M unit :=
  match op with
  | Init n => INIT_LIST_HEAD n
  | Add n x => list_add n x
  | AddTail n x => list_add_tail n x
  | Del x => list_del x
  | DelInit x => list_del_init x
  | Replace old new => list_replace old new
  | ReplaceInit old new => list_replace_init old new
  | Move x h => list_move x h
  | MoveTail x h => list_move_tail x h
  | Splice k h => list_splice k h
  | SpliceTail k h => list_splice_tail k h
  | SpliceInit k h => list_splice_init k h
  | SpliceTailInit k h => list_splice_tail_init k h
  | Cut k h x => list_cut_position k h x
  | HInit n => INIT_HLIST_NODE n
  | HInitHead h => INIT_HLIST_HEAD h
  | HAddHead n h => hlist_add_head n h
  | HAddBefore n x => hlist_add_before n x
  | HAddAfter x n => hlist_add_after x n
  | HDel x => hlist_del x
  | HDelInit x => hlist_del_init x
  | HMove h k => hlist_move_list h k
  end.

(** What an operation makes of the items that it is about.  Old pointers of a node that is
    out of a list are not specified, but for the poison. *)
Inductive small : list_op -> list item -> list item -> Prop :=
| s_init n u v : small (Init n) [Node n u v] [Ring n []]
| s_add n u v h l : small (Add n h) [Ring h l; Node n u v] [Ring h (n :: l)]
| s_add_at n u v h l1 x l2 : small (Add n x) [Ring h (l1 ++ x :: l2); Node n u v] [Ring h (l1 ++ x :: n :: l2)]
| s_add_tail n u v h l : small (AddTail n h) [Ring h l; Node n u v] [Ring h (l ++ [n])]
| s_add_tail_at n u v h l1 x l2 : small (AddTail n x) [Ring h (l1 ++ x :: l2); Node n u v] [Ring h (l1 ++ n :: x :: l2)]
| s_del h l1 x l2 : small (Del x) [Ring h (l1 ++ x :: l2)] [Ring h (l1 ++ l2); Node x LIST_POISON1 LIST_POISON2]
| s_del_init h l1 x l2 : small (DelInit x) [Ring h (l1 ++ x :: l2)] [Ring h (l1 ++ l2); Ring x []]
| s_del_init_alone x : small (DelInit x) [Ring x []] [Ring x []]
| s_replace h l1 x l2 n u v s t : small (Replace x n) [Ring h (l1 ++ x :: l2); Node n u v] [Ring h (l1 ++ n :: l2); Node x s t]
| s_replace_head h l n u v s t : small (Replace h n) [Ring h l; Node n u v] [Ring n l; Node h s t]
| s_replace_init h l1 x l2 n u v : small (ReplaceInit x n) [Ring h (l1 ++ x :: l2); Node n u v] [Ring h (l1 ++ n :: l2); Ring x []]
| s_replace_init_head h l n u v : small (ReplaceInit h n) [Ring h l; Node n u v] [Ring n l; Ring h []]
| s_move h l1 x l2 k l : small (Move x k) [Ring h (l1 ++ x :: l2); Ring k l] [Ring h (l1 ++ l2); Ring k (x :: l)]
| s_move_same h l1 x l2 : small (Move x h) [Ring h (l1 ++ x :: l2)] [Ring h (x :: l1 ++ l2)]
| s_move_tail h l1 x l2 k l : small (MoveTail x k) [Ring h (l1 ++ x :: l2); Ring k l] [Ring h (l1 ++ l2); Ring k (l ++ [x])]
| s_move_tail_same h l1 x l2 : small (MoveTail x h) [Ring h (l1 ++ x :: l2)] [Ring h ((l1 ++ l2) ++ [x])]
| s_splice k l' h l s t : small (Splice k h) [Ring k l'; Ring h l] [Ring h (l' ++ l); match l' with [] => Ring k [] | _ => Node k s t end]
| s_splice_tail k l' h l s t : small (SpliceTail k h) [Ring k l'; Ring h l] [Ring h (l ++ l'); match l' with [] => Ring k [] | _ => Node k s t end]
| s_splice_init k l' h l : small (SpliceInit k h) [Ring k l'; Ring h l] [Ring h (l' ++ l); Ring k []]
| s_splice_tail_init k l' h l : small (SpliceTailInit k h) [Ring k l'; Ring h l] [Ring h (l ++ l'); Ring k []]
| s_cut k u v h l1 x l2 : small (Cut k h x) [Node k u v; Ring h (l1 ++ x :: l2)] [Ring k (l1 ++ [x]); Ring h l2]
| s_cut_head k u v h l : l <> [] -> small (Cut k h h) [Node k u v; Ring h l] [Ring k []; Ring h l]
| s_cut_empty k u v h x : small (Cut k h x) [Node k u v; Ring h []] [Node k u v; Ring h []]
| s_hinit n u v : small (HInit n) [Node n u v] [Node n NULL NULL]
| s_hinit_head h v : h <> NULL -> small (HInitHead h) [Word h v] [Chain h []]
| s_hadd_head n u v h l : n <> NULL -> small (HAddHead n h) [Chain h l; Node n u v] [Chain h (n :: l)]
| s_hadd_before n u v h l1 x l2 : n <> NULL -> small (HAddBefore n x) [Chain h (l1 ++ x :: l2); Node n u v] [Chain h (l1 ++ n :: x :: l2)]
| s_hadd_after n u v h l1 x l2 : n <> NULL -> small (HAddAfter x n) [Chain h (l1 ++ x :: l2); Node n u v] [Chain h (l1 ++ x :: n :: l2)]
| s_hdel h l1 x l2 : small (HDel x) [Chain h (l1 ++ x :: l2)] [Chain h (l1 ++ l2); Node x LIST_POISON1 LIST_POISON2]
| s_hdel_init h l1 x l2 : small (HDelInit x) [Chain h (l1 ++ x :: l2)] [Chain h (l1 ++ l2); Node x NULL NULL]
| s_hdel_init_out x u : small (HDelInit x) [Node x u NULL] [Node x u NULL]
| s_hmove h l k u : k <> NULL -> small (HMove h k) [Chain h l; Word k u] [Chain k l; Chain h []].

(** The rest of the memory stays. *)
Definition list_step (op : list_op) (W V : list item) : Prop :=
  exists S T F, small op S T /\ W ≡ₚ S ++ F /\ V = T ++ F.

Section Steps.
Implicit Types (W V S T F : list item) (R : list (Z * Z)).

Ltac conclude rule H :=
  eexists; split; [apply rule; done|split; [repeat constructor; done|cbn [mbind list_bind item_cells app]; cells_by H]].

(** The items before and after an operation, beside any other cells. *)
Lemma small_ok op S T R m :
  small op S T -> Forall item_ok S -> cells m ((S ≫= item_cells) ++ R) ->
  wp (do_list op) (fun _ m' => exists T', small op S T' /\ Forall item_ok T' /\ cells m' ((T' ≫= item_cells) ++ R)) m.
Proof.
  intros Hs HS H. destruct Hs; cbn [do_list mbind list_bind item_cells app] in *; rewrite <- ?app_assoc in H; cbn [app] in H.
  - eapply wp_INIT_LIST_HEAD; [exact H|]. intros m' H'. conclude s_init H'.
  - eapply list_add_ok; [exact H|]. intros m' H'. conclude s_add H'.
  - eapply list_add_at; [exact H|]. intros m' H'. conclude s_add_at H'.
  - eapply list_add_tail_ok; [exact H|]. intros m' H'. conclude s_add_tail H'.
  - eapply list_add_tail_at; [exact H|]. intros m' H'. conclude s_add_tail_at H'.
  - eapply list_del_ok; [exact H|]. intros m' H'. conclude s_del H'.
  - eapply list_del_init_ok; [exact H|]. intros m' H'. conclude s_del_init H'.
  - eapply list_del_init_alone; [exact H|]. intros m' H'. conclude s_del_init_alone H'.
  - rewrite ring_rotate in H. eapply list_replace_ok; [exact H|]. intros m' s' t' H'. rewrite <- ring_rotate in H'. conclude (s_replace h l1 x l2 n u v s' t') H'.
  - eapply list_replace_ok; [exact H|]. intros m' s' t' H'. conclude (s_replace_head h l n u v s' t') H'.
  - rewrite ring_rotate in H. eapply list_replace_init_ok; [exact H|]. intros m' H'. rewrite <- ring_rotate in H'. conclude s_replace_init H'.
  - eapply list_replace_init_ok; [exact H|]. intros m' H'. conclude s_replace_init_head H'.
  - eapply list_move_ok; [exact H|]. intros m' H'. conclude s_move H'.
  - eapply list_move_same; [exact H|]. intros m' H'. conclude s_move_same H'.
  - eapply list_move_tail_ok; [exact H|]. intros m' H'. conclude s_move_tail H'.
  - eapply list_move_tail_same; [exact H|]. intros m' H'. conclude s_move_tail_same H'.
  - eapply list_splice_ok; [exact H|]. intros m' r Hr H'. destruct l' as [|y l']; [change (r = ring k []) in Hr; subst r; conclude (s_splice k [] h l 0 0) H'|destruct Hr as (s' & t' & ->); conclude (s_splice k (y :: l') h l s' t') H'].
  - eapply list_splice_tail_ok; [exact H|]. intros m' r Hr H'. destruct l' as [|y l']; [change (r = ring k []) in Hr; subst r; conclude (s_splice_tail k [] h l 0 0) H'|destruct Hr as (s' & t' & ->); conclude (s_splice_tail k (y :: l') h l s' t') H'].
  - eapply list_splice_init_ok; [exact H|]. intros m' H'. conclude s_splice_init H'.
  - eapply list_splice_tail_init_ok; [exact H|]. intros m' H'. conclude s_splice_tail_init H'.
  - eapply list_cut_position_ok; [exact H|]. intros m' H'. conclude s_cut H'.
  - eapply list_cut_position_head; [done|exact H|]. intros m' H'. conclude s_cut_head H'.
  - eapply (list_cut_position_empty _ _ _ _ (node k u v ++ R)); [cells_by H|]. conclude s_cut_empty H.
  - unfold node in H. rewrite <- app_assoc in H. apply wp_bind. cell_store H. cell_store H. eexists. split; [apply s_hinit|]. split; [repeat constructor|]. cbn [mbind list_bind item_cells app]. unfold node. cells_by H.
  - unfold INIT_HLIST_HEAD. change ((h, v) :: R) with ([(h, v)] ++ R) in H. cell_store H. change [(h, NULL)] with (chain h []) in H. conclude s_hinit_head H.
  - apply Forall_cons in HS as [[? ?] _]. eapply hlist_add_head_ok; [|exact H|]; [done|]. intros m' H'. conclude s_hadd_head H'.
  - apply Forall_cons in HS as [[? Hl] _]. apply Forall_app in Hl as [? [? ?]%Forall_cons]. eapply hlist_add_before_ok; [exact H|]. intros m' H'. eexists. split; [by apply s_hadd_before|]. split; [|cbn [mbind list_bind item_cells app]; cells_by H']. constructor; [|done]. split; [done|]. rewrite Forall_app, !Forall_cons. done.
  - apply Forall_cons in HS as [[? Hl] _]. apply Forall_app in Hl as [? [? ?]%Forall_cons]. eapply hlist_add_after_ok; [|exact H|]; [done|]. intros m' H'. eexists. split; [by apply s_hadd_after|]. split; [|cbn [mbind list_bind item_cells app]; cells_by H']. constructor; [|done]. split; [done|]. rewrite Forall_app, !Forall_cons. done.
  - apply Forall_cons in HS as [[? Hl] _]. apply Forall_app in Hl as [? [? ?]%Forall_cons]. eapply hlist_del_ok; [|exact H|]; [done|]. intros m' H'. eexists. split; [by apply s_hdel|]. split; [|cbn [mbind list_bind item_cells app]; cells_by H']. constructor; [|by constructor]. split; [done|]. by apply Forall_app.
  - apply Forall_cons in HS as [[? Hl] _]. apply Forall_app in Hl as [? [? ?]%Forall_cons]. eapply (hlist_del_init_ok _ h l1 x l2); [done| |exact H|]; [by apply Forall_app|]. intros m' H'. eexists. split; [by apply s_hdel_init|]. split; [|cbn [mbind list_bind item_cells app]; cells_by H']. constructor; [|by constructor]. split; [done|]. by apply Forall_app.
  - eapply hlist_del_init_unhashed; [exact H|]. conclude s_hdel_init_out H.
  - apply Forall_cons in HS as [[? ?] _]. eapply hlist_move_list_ok; [|exact H|]; [done|]. intros m' H'. conclude s_hmove H'.
Qed.

Lemma list_step_ok op m W V :
  world m W -> list_step op W V -> wp (do_list op) (fun _ m' => exists V', list_step op W V' /\ world m' V') m.
Proof.
  intros Hw (S & T & F & Hs & E & _). rewrite E in Hw. destruct Hw as [H Hok]. rewrite bind_app in H. apply Forall_app in Hok as [HS HF].
  eapply wp_mono; [by eapply small_ok|]. intros [] m' (T' & Hs' & HT & H'). exists (T' ++ F). split; [by exists S, T', F|]. split; [by rewrite bind_app|by apply Forall_app].
Qed.

(** A sequence of operations: each returns and does to the lists what it should, as long
    as it is applied to items that are there. *)
Fixpoint served (ops : list list_op) W m : Prop :=
  match ops with
  | [] => True
  | op :: ops => (exists V, list_step op W V) ->
      wp (do_list op) (fun _ m' => exists V, list_step op W V /\ world m' V /\ served ops V m') m
  end.

Lemma world_served ops m W : world m W -> served ops W m.
Proof.
  revert m W. induction ops as [|op ops IH]; intros m W Hw; cbn [served]; [done|]. intros [V Hs]. eapply wp_mono; [by eapply list_step_ok|].
  intros [] m' (V' & Hs' & Hw'). exists V'. auto.
Qed.
End Steps.

(** C13: the list operations of list.h refine operations on sequences.  In a memory that is
    made of circular lists, nodes outside of lists, hash chains and other words, every
    sequence of list_add, list_del, list_replace, list_move, list_splice, list_cut_position,
    the hlist operations and their variants returns without a fault; each makes of the
    sequences of nodes what [small] says and leaves all other lists and words as they are.
    Empty lists, heads in place of nodes and moves within one list are included. *)
Theorem list_ops_refine ops m W : world m W -> served ops W m.
Proof. apply world_served. Qed.

(** The list 100, 108, 116 and a node 200. *)
Definition example_list : list item := [Ring 100 [108; 116]; Node 200 0 0].

Lemma list_ops_refine_witness :
  let m := list_to_map (example_list ≫= item_cells) : mem in
  served [AddTail 200 100; Del 116; Move 200 100] example_list m.
Proof.
  apply (list_ops_refine [AddTail 200 100; Del 116; Move 200 100] _ example_list). split; [apply cells_list_to_map; vm_compute; reflexivity|repeat constructor].
Defined.

(** List_for_each_safe visits the nodes that the list had at the begin in their order,
    also when the body takes the node it is at out of the list: with list_del as body the
    list ends up empty and every node poisoned. *)
Theorem list_drain fuel h l m R :
  (length l < fuel)%nat -> cells m (ring h l ++ R) ->
  wp (list_for_each_safe fuel h (fun pos => list_del pos ;; mret (None : option unit)))
    (fun r m' => r = None /\ cells m' (ring h [] ++ (l ≫= fun x => node x LIST_POISON1 LIST_POISON2) ++ R)) m.
Proof.
  intros Hfuel H. apply (wp_list_for_each_safe (fun l1 m => forall l2, l = l1 ++ l2 -> cells m (ring h l2 ++ (l1 ≫= fun x => node x LIST_POISON1 LIST_POISON2) ++ R)) _ h l R).
  - done.
  - done.
  - intros l2 E. cbn [app] in E. by subst l2.
  - intros l1 l2 m' El HI. exists []. eexists. by apply HI.
  - intros l1 x l2 m' El HI. specialize (HI (x :: l2) El). apply wp_bind. eapply (list_del_ok _ h [] x l2); [exact HI|]. intros m'' H''. apply wp_ret. intros k Ek.
    rewrite El, <- app_assoc in Ek. apply app_inv_head in Ek as [= <-]. rewrite bind_app. change ([] ++ l2) with l2 in H''. cbn [mbind list_bind]. cells_by H''.
  - intros m' HI. split; [done|]. apply HI. by rewrite app_nil_r.
Qed.

Lemma list_drain_witness :
  exists m', list_for_each_safe 3 100 (fun pos => list_del pos ;; mret (None : option unit)) (list_to_map (ring 100 [108; 116])) = Ok (None, m') /\ m' !! 100 = Some 100.
Proof.
  destruct (wp_run _ _ _ (list_drain 3 100 [108; 116] (list_to_map (ring 100 [108; 116])) [] ltac:(simpl; lia) (cells_list_to_map (ring 100 [108; 116]) eq_refl))) as (r & m' & E & -> & H).
  exists m'. split; [exact E|]. by apply (cells_lookup m' 100 100 _ H).
Defined.
