(* ===== verification/Plist.v ===== *)
(** * Priority lists: lib/plist.c

    Lists sorted by priority, nodes of the same priority in the order of their insertion.
    All nodes are on one circular list, and the first node of each priority is on a
    second one, so that an insertion looks at each priority once.  A struct plist_head at
    [h] has the list of priorities at [h] and the list of nodes at [h + 8]; a struct
    plist_node at [n] has its priority at [n] and a plist_head at [n + 4].  The checks of
    CONFIG_DEBUG_PI_LIST are off. *)

From Stdlib Require Import Sorted.
From S2P Require Import Prelude Cells LinkedList.

#[local] Arguments loop : simpl never.

(** ** The code *)

Definition plist_head_init (head : Z) : M unit :=
  INIT_LIST_HEAD head ;;
  INIT_LIST_HEAD (head + 8).

Definition plist_node_init (node prio : Z) : M unit :=
  store node prio ;;
  plist_head_init (node + 4).

Definition plist_head_empty (head : Z) : M bool := list_empty (head + 8).
Definition plist_node_empty (node : Z) : M bool := plist_head_empty (node + 4).

(** The node that has the first entry of the list of nodes in it. *)
Definition plist_first (head : Z) : M Z :=
  next ← load (head + 8);
  mret (next - 12).

(** The loop of plist_add: where it goes on, at [lt_prio] (true) or [eq_prio], and iter. *)
Definition plist_place (fuel : nat) (node head : Z) : M (bool * Z) :=
  r ← list_for_each fuel head (fun pos =>
    let iter := pos - 4 in
    prio ← load node;
    iter_prio ← load iter;
    if prio <? iter_prio then mret (Some (true, iter)) else
    prio ← load node;
    iter_prio ← load iter;
    if prio =? iter_prio then
      next ← load (iter + 4);
      mret (Some (false, next - 4))
    else mret None);
  mret (match r with Some x => x | None => (true, head - 4) end).

(** The warning that the node is in a list has no effect on it. *)
Definition plist_add (fuel : nat) (node head : Z) : M unit :=
  plist_node_empty node ;;
  r ← plist_place fuel node head;
  let '(lt_prio, iter) := r in
  (if (lt_prio : bool) then list_add_tail (node + 4) (iter + 4) else mret tt) ;;
  list_add_tail (node + 12) (iter + 12).

Definition plist_del (node head : Z) : M unit :=
  e ← list_empty (node + 4);
  (if negb e then
     next ← plist_first (node + 4);
     list_move_tail (next + 4) (node + 4) ;;
     list_del_init (node + 4)
   else mret tt) ;;
  list_del_init (node + 12).

(** ** Priority lists in memory *)

(** The nodes of one priority: the first and the others. *)
Record group := Group { gprio : Z; gfirst : Z; grest : list Z }.

Definition gnodes (g : group) : list Z := gfirst g :: grest g.
Definition firsts (gs : list group) : list Z := (fun g => gfirst g + 4) <$> gs.
Definition members (gs : list group) : list Z := gs ≫= gnodes.
Definition places (ns : list Z) : list Z := (fun n => n + 12) <$> ns.

(** The priorities, and the lists of priorities of the nodes that are not first. *)
Definition group_cells (g : group) : list (Z * Z) :=
  ((fun n => (n, gprio g)) <$> gnodes g) ++ (grest g ≫= fun n => ring (n + 4) []).

Definition plist_cells (h : Z) (gs : list group) : list (Z * Z) :=
  ring h (firsts gs) ++ ring (h + 8) (places (members gs)) ++ (gs ≫= group_cells).

(** A node that is in no list. *)
Definition idle_cells (n p : Z) : list (Z * Z) := [(n, p)] ++ ring (n + 4) [] ++ ring (n + 12) [].

(** The list of nodes and priorities that it stands for. *)
Definition entries (gs : list group) : list (Z * Z) := gs ≫= fun g => (fun n => (n, gprio g)) <$> gnodes g.

Fixpoint ascending (gs : list group) : Prop :=
  match gs with
  | [] => True
  | g :: gs => Forall (fun g' => gprio g < gprio g') gs /\ ascending gs
  end.

(** After all nodes of at most the same priority. *)
Fixpoint insert_entry (n p : Z) (l : list (Z * Z)) : list (Z * Z) :=
  match l with
  | [] => [(n, p)]
  | (x, q) :: l => if p <? q then (n, p) :: (x, q) :: l else (x, q) :: insert_entry n p l
  end.

Definition remove_entry (n : Z) (l : list (Z * Z)) : list (Z * Z) := filter (fun e => e.1 <> n) l.

Section Places.
Implicit Types (gs : list group) (R : list (Z * Z)) (m : mem).

Lemma firsts_app gs1 gs2 : firsts (gs1 ++ gs2) = firsts gs1 ++ firsts gs2.
Proof. apply fmap_app. Qed.
Lemma members_app gs1 gs2 : members (gs1 ++ gs2) = members gs1 ++ members gs2.
Proof. apply bind_app. Qed.
Lemma places_app l1 l2 : places (l1 ++ l2) = places l1 ++ places l2.
Proof. apply fmap_app. Qed.
Lemma entries_app gs1 gs2 : entries (gs1 ++ gs2) = entries gs1 ++ entries gs2.
Proof. apply bind_app. Qed.

Lemma prio_cell m h gs g n R : cells m (plist_cells h gs ++ R) -> g ∈ gs -> n ∈ gnodes g -> m !! n = Some (gprio g).
Proof.
  intros [_ H] Hg Hn. apply H. apply elem_of_app. left. unfold plist_cells. rewrite !elem_of_app. do 2 right. apply list_elem_of_bind. exists g. split; [|done].
  unfold group_cells. apply elem_of_app. left. apply list_elem_of_fmap. by exists n.
Qed.

Lemma plist_place_ok fuel m h gs n p R (Q : bool * Z -> mem -> Prop) :
  (length gs < fuel)%nat -> cells m (plist_cells h gs ++ [(n, p)] ++ R) ->
  (Forall (fun g => gprio g < p) gs -> Q (true, h - 4) m) ->
  (forall g1 g g2, gs = g1 ++ g :: g2 -> Forall (fun g => gprio g < p) g1 -> p < gprio g -> Q (true, gfirst g) m) ->
  (forall g1 g g2, gs = g1 ++ g :: g2 -> p = gprio g -> Q (false, first_of (firsts g2) h - 4) m) ->
  wp (plist_place fuel n h) Q m.
Proof.
  intros Hfuel H Qend Qlt Qeq. apply wp_bind.
  assert (m !! n = Some p) as Hn by (apply (proj2 H); set_solver).
  apply (wp_list_for_each (fun l1 m' => m' = m /\ exists g1 g2, gs = g1 ++ g2 /\ l1 = firsts g1 /\ Forall (fun g => gprio g < p) g1) _ h (firsts gs)).
  - unfold firsts. by rewrite length_fmap.
  - split; [done|]. exists [], gs. done.
  - intros l1 m' [-> _]. eexists. unfold plist_cells in H. rewrite <- app_assoc in H. exact H.
  - intros l1 x l2 m' El (-> & g1 & g2 & E & -> & Hlow). rewrite E, firsts_app in El. apply app_inv_head in El. destruct g2 as [|g g2]; [done|]. cbn in El. injection El as <- El2. fold (firsts g2) in El2.
    replace (gfirst g + 4 - 4) with (gfirst g) by lia. assert (m !! gfirst g = Some (gprio g)) as Hg.
    { eapply prio_cell; [exact H| |left]. rewrite E. apply elem_of_app. right. left. }
    cbv zeta. apply wp_bind. eapply wp_load; [exact Hn|]. apply wp_bind. eapply wp_load; [exact Hg|]. destruct (Z.ltb_spec p (gprio g)).
    { apply wp_ret. rewrite E in *. eapply Qlt; [done|done|done]. }
    apply wp_bind. eapply wp_load; [exact Hn|]. apply wp_bind. eapply wp_load; [exact Hg|]. destruct (Z.eqb_spec p (gprio g)).
    + unfold plist_cells in H. rewrite <- !app_assoc in H. rewrite E, firsts_app in H. apply wp_bind. eapply (wp_next _ h (firsts g1) _ (firsts g2)); [exact H|].
      apply wp_ret. eapply Qeq; [done|done].
    + apply wp_ret. split; [done|]. exists (g1 ++ [g]), g2. rewrite firsts_app, <- app_assoc. split; [done|]. split; [done|]. apply Forall_app. split; [done|]. constructor; [lia|done].
  - intros m' (-> & g1 & g2 & E & Ef & Hlow). apply wp_ret, Qend. rewrite E, firsts_app in Ef. assert (g2 = []) as ->; [|by rewrite app_nil_r in E; subst].
    apply (f_equal length) in Ef. rewrite length_app in Ef. unfold firsts in Ef. rewrite !length_fmap in Ef. destruct g2; [done|simpl in Ef; lia].
Qed.

Lemma ring_nil x : ring x [] = node x x x.
Proof. done. Qed.

Lemma insert_entry_at n p e1 e2 :
  Forall (fun e => e.2 <= p) e1 -> match e2 with [] => True | e :: _ => p < e.2 end -> insert_entry n p (e1 ++ e2) = e1 ++ (n, p) :: e2.
Proof.
  intros H1 H2. induction H1 as [|[x q] e1 Hq H1 IH]; cbn [app insert_entry].
  - destruct e2 as [|[x q] e2]; [done|]. cbn [insert_entry]. cbn in H2. by rewrite (proj2 (Z.ltb_lt p q)).
  - cbn in Hq. rewrite (proj2 (Z.ltb_ge p q)) by done. by rewrite IH.
Qed.

Lemma entries_le p gs : Forall (fun g => gprio g <= p) gs -> Forall (fun e => e.2 <= p) (entries gs).
Proof.
  intros H. apply Forall_forall. intros e (g & He & Hg)%list_elem_of_bind. apply list_elem_of_fmap in He as (n & -> & _). by eapply Forall_forall in H.
Qed.

Lemma ascending_app gs1 gs2 : ascending (gs1 ++ gs2) <-> ascending gs1 /\ ascending gs2 /\ Forall (fun g1 => Forall (fun g2 => gprio g1 < gprio g2) gs2) gs1.
Proof.
  induction gs1 as [|g gs1 IH]; cbn [app ascending]; [split; [done|tauto]|]. rewrite IH, Forall_app, Forall_cons. tauto.
Qed.

Lemma ascending_cons g gs : ascending (g :: gs) <-> Forall (fun g' => gprio g < gprio g') gs /\ ascending gs.
Proof. done. Qed.

(** A node goes to the list of nodes in front of the group that follows, or at the end. *)
Lemma add_place m h l1 gs n R (Q : unit -> mem -> Prop) :
  cells m (ring (h + 8) (l1 ++ places (members gs)) ++ ring (n + 12) [] ++ R) ->
  (forall m', cells m' (ring (h + 8) (l1 ++ (n + 12) :: places (members gs)) ++ R) -> Q tt m') ->
  wp (list_add_tail (n + 12) (first_of (firsts gs) h - 4 + 12)) Q m.
Proof.
  rewrite ring_nil. intros H HQ. destruct gs as [|g gs]; cbn [firsts fmap list_fmap first_of].
  - replace (h - 4 + 12) with (h + 8) by lia. cbn [members mbind list_bind places fmap list_fmap] in *. rewrite app_nil_r in H. by eapply list_add_tail_ok.
  - replace (gfirst g + 4 - 4 + 12) with (gfirst g + 12) by lia. change (places (members (g :: gs))) with (gfirst g + 12 :: places (grest g ++ members gs)) in *. by eapply list_add_tail_at.
Qed.

(** The new node opens a group in front of [g2]. *)
Lemma add_group m h g1 g2 n p R (Q : unit -> mem -> Prop) :
  cells m (plist_cells h (g1 ++ g2) ++ idle_cells n p ++ R) -> (forall m', cells m' (plist_cells h (g1 ++ Group p n [] :: g2) ++ R) -> Q tt m') ->
  wp (list_add_tail (n + 4) (first_of (firsts g2) h - 4 + 4) ;; list_add_tail (n + 12) (first_of (firsts g2) h - 4 + 12)) Q m.
Proof.
  intros H HQ. unfold plist_cells, idle_cells in H. rewrite <- !app_assoc in H. rewrite firsts_app, members_app, places_app, bind_app in H. rewrite Z.sub_add.
  set (R1 := ring (h + 8) (places (members g1) ++ places (members g2)) ++ ((g1 ≫= group_cells) ++ (g2 ≫= group_cells)) ++ [(n, p)] ++ ring (n + 12) [] ++ R).
  assert (wp (list_add_tail (n + 4) (first_of (firsts g2) h)) (fun _ m' => cells m' (ring h (firsts g1 ++ (n + 4) :: firsts g2) ++ R1)) m) as Hadd.
  { assert (cells m (ring h (firsts g1 ++ firsts g2) ++ node (n + 4) (n + 4) (n + 4) ++ R1)) as H' by (subst R1; rewrite <- ring_nil; cells_by H).
    destruct g2 as [|g g2]; cbn [firsts fmap list_fmap first_of] in *; [|by eapply list_add_tail_at]. fold (firsts g1) in *. rewrite app_nil_r in H'. by eapply list_add_tail_ok. }
  apply wp_bind. eapply wp_mono; [exact Hadd|]. clear m H Hadd. intros [] m H. subst R1.
  eapply (add_place _ h (places (members g1)) g2 n); [cells_with H|]. intros m' H'. apply HQ.
  unfold plist_cells. rewrite firsts_app, members_app, places_app, bind_app.
  change (firsts (Group p n [] :: g2)) with (n + 4 :: firsts g2). change (places (members (Group p n [] :: g2))) with (n + 12 :: places (members g2)).
  change ((Group p n [] :: g2) ≫= group_cells) with ([(n, p)] ++ (g2 ≫= group_cells)). cells_by H'.
Qed.

(** The cells of a list with a group taken out. *)
Lemma plist_cells_middle h g1 g g2 :
  plist_cells h (g1 ++ g :: g2) ≡ₚ
  ring h (firsts g1 ++ gfirst g + 4 :: firsts g2) ++ ring (h + 8) (places (members g1) ++ places (gnodes g) ++ places (members g2)) ++
  ((fun n => (n, gprio g)) <$> gnodes g) ++ (grest g ≫= fun n => ring (n + 4) []) ++ (g1 ≫= group_cells) ++ (g2 ≫= group_cells).
Proof.
  unfold plist_cells. rewrite firsts_app, members_app, places_app, bind_app. change (members (g :: g2)) with (gnodes g ++ members g2).
  change (firsts (g :: g2)) with (gfirst g + 4 :: firsts g2). change ((g :: g2) ≫= group_cells) with (group_cells g ++ (g2 ≫= group_cells)). rewrite places_app. unfold group_cells at 2. perm.
Qed.

(** The new node joins the group of its priority. *)
Lemma join_group m h g1 g g2 n R (Q : unit -> mem -> Prop) :
  cells m (plist_cells h (g1 ++ g :: g2) ++ idle_cells n (gprio g) ++ R) ->
  (forall m', cells m' (plist_cells h (g1 ++ Group (gprio g) (gfirst g) (grest g ++ [n]) :: g2) ++ R) -> Q tt m') ->
  wp (list_add_tail (n + 12) (first_of (firsts g2) h - 4 + 12)) Q m.
Proof.
  intros H HQ. rewrite plist_cells_middle in H. unfold idle_cells in H. rewrite <- !app_assoc in H. rewrite (app_assoc (places (members g1))) in H.
  eapply (add_place _ h (places (members g1) ++ places (gnodes g)) g2 n); [cells_with H|]. intros m' H'. apply HQ. rewrite plist_cells_middle.
  assert (gnodes (Group (gprio g) (gfirst g) (grest g ++ [n])) = gnodes g ++ [n]) as -> by done. cbn [gfirst gprio grest]. rewrite places_app, fmap_app, bind_app.
  change (places [n]) with [n + 12]. change ([n] ≫= fun n => ring (n + 4) []) with (ring (n + 4) [] ++ []). change ((fun n => (n, gprio g)) <$> [n]) with [(n, gprio g)]. rewrite <- !app_assoc in *. cbn [app] in *. cells_by H'.
Qed.

Lemma plist_node_empty_ok m n p R (Q : bool -> mem -> Prop) : cells m (idle_cells n p ++ R) -> Q true m -> wp (plist_node_empty n) Q m.
Proof.
  intros H HQ. unfold plist_node_empty, plist_head_empty. replace (n + 4 + 8) with (n + 12) by lia. unfold idle_cells in H. rewrite <- !app_assoc in H.
  eapply (list_empty_ok _ _ [] ([(n, p)] ++ ring (n + 4) [] ++ R)); [cells_by H|done].
Qed.

Lemma plist_add_ok fuel m h gs n p R (Q : unit -> mem -> Prop) :
  (length gs < fuel)%nat -> ascending gs -> cells m (plist_cells h gs ++ idle_cells n p ++ R) ->
  (forall m' gs', ascending gs' -> entries gs' = insert_entry n p (entries gs) -> cells m' (plist_cells h gs' ++ R) -> Q tt m') ->
  wp (plist_add fuel n h) Q m.
Proof.
  intros Hfuel Hasc H HQ. apply wp_bind. eapply (plist_node_empty_ok _ n p (plist_cells h gs ++ R)); [cells_by H|]. apply wp_bind.
  assert (forall g1 g2, gs = g1 ++ g2 -> Forall (fun g => gprio g < p) g1 -> Forall (fun g => p < gprio g) g2 ->
    wp (list_add_tail (n + 4) (first_of (firsts g2) h - 4 + 4) ;; list_add_tail (n + 12) (first_of (firsts g2) h - 4 + 12)) Q m) as Hnew.
  { intros g1 g2 E H1 H2. rewrite E in H, Hasc, HQ. eapply add_group; [exact H|]. intros m' H'. eapply HQ; [| |exact H'].
    - apply ascending_app in Hasc as (Ha1 & Ha2 & Ha12). apply ascending_app. split; [done|]. split; [by split|]. apply Forall_forall. intros g Hg. constructor; [by eapply Forall_forall in H1|by eapply Forall_forall in Ha12].
    - rewrite !entries_app. symmetry. apply (insert_entry_at n p (entries g1)); [apply entries_le; eapply Forall_impl; [exact H1|]; simpl; lia|]. destruct g2 as [|g g2]; [done|]. by apply Forall_cons in H2 as [H2 _]. }
  assert (forall g1 g g2, gs = g1 ++ g :: g2 -> Forall (fun g' => gprio g' < gprio g) g1 /\ Forall (fun g' => gprio g < gprio g') g2) as Hsides.
  { intros g1 g g2 E. rewrite E in Hasc. apply ascending_app in Hasc as (_ & [Ha2 _] & Ha12). split; [|done]. eapply Forall_impl; [exact Ha12|]. intros g' Hg'. by apply Forall_cons in Hg' as [Hg' _]. }
  eapply (plist_place_ok _ _ _ gs n p (ring (n + 4) [] ++ ring (n + 12) [] ++ R)); [done|unfold idle_cells in H; cells_by H| | |].
  - intros Hlow. rewrite <- (app_nil_r gs) in Hlow. apply (Hnew gs []); [by rewrite app_nil_r|by rewrite app_nil_r in Hlow|done].
  - intros g1 g g2 E Hlow Hlt. destruct (Hsides g1 g g2 E) as [_ Ha2]. specialize (Hnew g1 (g :: g2) E Hlow). cbn [firsts fmap list_fmap first_of] in Hnew.
    replace (gfirst g + 4 - 4) with (gfirst g) in Hnew by lia. apply Hnew. constructor; [done|]. eapply Forall_impl; [exact Ha2|]. simpl. lia.
  - intros g1 g g2 E ->. destruct (Hsides g1 g g2 E) as [Ha1 Ha2]. apply wp_bind, wp_ret. rewrite E in H. eapply join_group; [exact H|]. intros m' H'. eapply HQ; [| |exact H'].
    + rewrite E in Hasc. apply ascending_app in Hasc as (Ha & [_ Hb] & Ha12). apply ascending_app. split; [done|]. split; [by split|]. eapply Forall_impl; [exact Ha12|]. intros g' Hg'. by rewrite Forall_cons in *.
    + set (eg := (fun n => (n, gprio g)) <$> gnodes g). assert (entries gs = (entries g1 ++ eg) ++ entries g2) as -> by (rewrite E, entries_app, <- app_assoc; done).
      rewrite insert_entry_at; [| |destruct g2 as [|g' g2]; [done|by apply Forall_cons in Ha2 as [Ha2 _]]].
      * rewrite entries_app. change (entries (?g' :: g2)) with (((fun n => (n, gprio g)) <$> (gnodes g ++ [n])) ++ entries g2). rewrite fmap_app, <- !app_assoc. done.
      * apply Forall_app. split; [apply entries_le; eapply Forall_impl; [exact Ha1|]; simpl; lia|]. apply Forall_fmap, Forall_forall. intros x _. simpl. lia.
Qed.

(** ** Removal *)

(** The list of nodes loses a node. *)
Lemma del_place m h l1 n l2 R (Q : unit -> mem -> Prop) :
  cells m (ring (h + 8) (places (l1 ++ n :: l2)) ++ R) -> (forall m', cells m' (ring (h + 8) (places (l1 ++ l2)) ++ ring (n + 12) [] ++ R) -> Q tt m') ->
  wp (list_del_init (n + 12)) Q m.
Proof.
  intros H HQ. rewrite places_app in H. eapply (list_del_init_ok _ (h + 8) (places l1) (n + 12) (places l2)); [exact H|]. intros m' H'. apply HQ. by rewrite places_app.
Qed.

(** The entry of a node in the list of priorities, seen from it. *)
Lemma wp_first_of_prio m h g1 n g2 R (Q : bool -> mem -> Prop) :
  cells m (ring h (firsts g1 ++ n + 4 :: firsts g2) ++ R) -> Q false m -> wp (list_empty (n + 4)) Q m.
Proof.
  intros H HQ. rewrite ring_rotate in H. eapply list_empty_ok; [exact H|]. rewrite bool_decide_eq_false_2; [done|]. by destruct (firsts g2).
Qed.

Lemma plist_first_next m h l1 n l2 R (Q : Z -> mem -> Prop) :
  cells m (ring (h + 8) (places (l1 ++ n :: l2)) ++ R) -> Q (first_of (places l2) (h + 8) - 12) m -> wp (plist_first (n + 4)) Q m.
Proof.
  intros H HQ. rewrite places_app in H. unfold plist_first. replace (n + 4 + 8) with (n + 12) by lia. apply wp_bind. eapply (wp_next _ _ (places l1) _ (places l2)); [exact H|]. by apply wp_ret.
Qed.

(** The first node of a group that has others: the second takes its place. *)
Lemma second_takes_over m h f1 n x f2 R (Q : unit -> mem -> Prop) :
  cells m (ring h (f1 ++ n :: f2) ++ ring x [] ++ R) -> (forall m', cells m' (ring h (f1 ++ x :: f2) ++ ring n [] ++ R) -> Q tt m') ->
  wp (list_move_tail x n ;; list_del_init n) Q m.
Proof.
  intros H HQ. apply wp_bind. eapply (wp_unlink_alone _ x (ring h (f1 ++ n :: f2) ++ R)); [cells_by H|]. clear m H. intros m H.
  eapply (list_add_tail_at _ h f1 n f2 x x x R); [cells_by H|]. clear m H. intros m H. change (f1 ++ x :: n :: f2) with (f1 ++ [x] ++ n :: f2) in H. rewrite app_assoc in H.
  eapply list_del_init_ok; [exact H|]. intros m' H'. rewrite <- app_assoc in H'. by apply HQ.
Qed.

(** A node that is alone in its group: the entry that follows moves in front of it. *)
Lemma next_moves_up m h f1 n f2 R (Q : unit -> mem -> Prop) :
  cells m (ring h (f1 ++ n :: f2) ++ R) -> (forall m', cells m' (ring h (f1 ++ f2) ++ ring n [] ++ R) -> Q tt m') ->
  wp (list_move_tail (first_of f2 h) n ;; list_del_init n) Q m.
Proof.
  intros H HQ. rewrite ring_rotate in H. assert (exists k, f2 ++ h :: f1 = first_of f2 h :: k /\ ring (first_of f2 h) k ≡ₚ ring h (f1 ++ f2)) as (k & Ek & Er).
  { destruct f2 as [|y f2]; [exists f1; by rewrite app_nil_r|]. exists (f2 ++ h :: f1). split; [done|]. symmetry. apply ring_rotate. }
  rewrite Ek in H. set (y := first_of f2 h) in *. apply wp_bind. eapply (list_move_tail_same _ n [] y k); [exact H|]. clear m H. intros m H. change (([] ++ k) ++ [y]) with (k ++ y :: []) in H.
  rewrite <- (ring_rotate y [] n k) in H. eapply (list_del_init_ok _ y [] n k); [exact H|]. intros m' H'. apply HQ. by rewrite <- Er.
Qed.

Lemma members_first gs h : first_of (places (members gs)) (h + 8) - 12 + 4 = first_of (firsts gs) h.
Proof. destruct gs as [|g gs]; cbn; lia. Qed.

Lemma del_member m h g1 p f r1 n r2 g2 R (Q : unit -> mem -> Prop) :
  cells m (plist_cells h (g1 ++ Group p f (r1 ++ n :: r2) :: g2) ++ R) ->
  (forall m', cells m' (plist_cells h (g1 ++ Group p f (r1 ++ r2) :: g2) ++ idle_cells n p ++ R) -> Q tt m') -> wp (plist_del n h) Q m.
Proof.
  rewrite plist_cells_middle. setoid_rewrite plist_cells_middle. unfold idle_cells, gnodes. cbn [gfirst gprio grest]. rewrite bind_app. intros H HQ.
  change ((n :: r2) ≫= fun n => ring (n + 4) []) with (ring (n + 4) [] ++ (r2 ≫= fun n => ring (n + 4) [])) in H. rewrite <- !places_app, <- !app_assoc in H.
  set (c := (fun x => ring (x + 4) []) : Z -> list (Z * Z)) in *. set (e := (fun x => (x, p)) : Z -> Z * Z) in *.
  apply wp_bind. eapply (list_empty_ok _ (n + 4) []); [cells_with H|]. apply wp_bind, wp_ret.
  replace (members g1 ++ (f :: r1 ++ n :: r2) ++ members g2) with ((members g1 ++ f :: r1) ++ n :: r2 ++ members g2) in H by (cbn [app]; by rewrite <- !app_assoc).
  eapply (del_place _ h (members g1 ++ f :: r1) n (r2 ++ members g2)); [cells_with H|]. intros m' H'. apply HQ.
  replace (places (members g1) ++ places (f :: r1 ++ r2) ++ places (members g2)) with (places ((members g1 ++ f :: r1) ++ r2 ++ members g2))
    by (rewrite <- !places_app; f_equal; rewrite <- !app_assoc; cbn [app]; by rewrite <- ?app_assoc).
  rewrite bind_app. cbn [fmap list_fmap] in *. rewrite fmap_app in *. cbn [fmap list_fmap] in *. change (e n) with (n, p) in H'. cells_by H'.
Qed.

Lemma del_first m h g1 p n x r g2 R (Q : unit -> mem -> Prop) :
  cells m (plist_cells h (g1 ++ Group p n (x :: r) :: g2) ++ R) ->
  (forall m', cells m' (plist_cells h (g1 ++ Group p x r :: g2) ++ idle_cells n p ++ R) -> Q tt m') -> wp (plist_del n h) Q m.
Proof.
  rewrite plist_cells_middle. setoid_rewrite plist_cells_middle. unfold idle_cells, gnodes. cbn [gfirst gprio grest]. intros H HQ.
  change ((x :: r) ≫= fun n => ring (n + 4) []) with (ring (x + 4) [] ++ (r ≫= fun n => ring (n + 4) [])) in H. rewrite <- !places_app, <- !app_assoc in H. cbn [app] in H.
  set (c := (fun x => ring (x + 4) []) : Z -> list (Z * Z)) in *. set (e := (fun x => (x, p)) : Z -> Z * Z) in *.
  apply wp_bind. eapply (wp_first_of_prio _ h g1 n g2); [cells_with H|]. cbn [negb]. apply wp_bind, wp_bind.
  eapply (plist_first_next _ h (members g1) n (x :: r ++ members g2)); [cells_with H|]. cbn [places fmap list_fmap first_of]. replace (x + 12 - 12) with x by lia.
  eapply (second_takes_over _ h (firsts g1) (n + 4) (x + 4) (firsts g2)); [cells_with H|]. clear m H. intros m H.
  eapply (del_place _ h (members g1) n (x :: r ++ members g2)); [cells_with H|]. intros m' H'. apply HQ.
  replace (places (members g1) ++ places (x :: r) ++ places (members g2)) with (places (members g1 ++ x :: r ++ members g2)) by (by rewrite <- !places_app).
  cbn [fmap list_fmap] in *. change (e n) with (n, p) in H'. cells_by H'.
Qed.

Lemma del_alone m h g1 p n g2 R (Q : unit -> mem -> Prop) :
  cells m (plist_cells h (g1 ++ Group p n [] :: g2) ++ R) ->
  (forall m', cells m' (plist_cells h (g1 ++ g2) ++ idle_cells n p ++ R) -> Q tt m') -> wp (plist_del n h) Q m.
Proof.
  rewrite plist_cells_middle. unfold idle_cells, gnodes. cbn [gfirst gprio grest]. intros H HQ. cbn [mbind list_bind] in H. rewrite <- !places_app, <- !app_assoc in H. cbn [app] in H.
  apply wp_bind. eapply (wp_first_of_prio _ h g1 n g2); [cells_with H|]. cbn [negb]. apply wp_bind, wp_bind.
  eapply (plist_first_next _ h (members g1) n (members g2)); [cells_with H|]. rewrite members_first.
  eapply (next_moves_up _ h (firsts g1) (n + 4) (firsts g2)); [cells_with H|]. clear m H. intros m H.
  eapply (del_place _ h (members g1) n (members g2)); [cells_with H|]. intros m' H'. apply HQ. unfold plist_cells. rewrite firsts_app, members_app, bind_app.
  change ((fun n => (n, p)) <$> [n]) with [(n, p)] in H'. cells_by H'.
Qed.

Lemma remove_entry_middle n p e1 e2 : NoDup (e1 ++ (n, p) :: e2).*1 -> remove_entry n (e1 ++ (n, p) :: e2) = e1 ++ e2.
Proof.
  rewrite fmap_app. cbn [fmap list_fmap fst]. intros (_ & Hd & [Hn _]%NoDup_cons)%NoDup_app. unfold remove_entry. rewrite filter_app, filter_cons_False by (simpl; congruence).
  assert (forall e : list (Z * Z), (forall y, y ∈ e -> y.1 <> n) -> filter (fun e => e.1 <> n) e = e) as Hid.
  { induction e as [|y e IH]; intros He; [done|]. rewrite filter_cons_True by (apply He; left). f_equal. apply IH. intros z Hz. apply He. by right. }
  rewrite (Hid e1), (Hid e2); [done|intros y Hy E; apply Hn; rewrite <- E; by apply list_elem_of_fmap_2|].
  intros y Hy E. apply (Hd y.1); [by apply list_elem_of_fmap_2|rewrite E; left].
Qed.

Lemma entries_members gs : (entries gs).*1 = members gs.
Proof.
  induction gs as [|g gs IH]; [done|]. change (entries (g :: gs)) with (((fun n => (n, gprio g)) <$> gnodes g) ++ entries gs). rewrite fmap_app, IH, <- list_fmap_compose. cbn.
  f_equal. change (members (g :: gs)) with (gnodes g ++ members gs). f_equal. apply list_fmap_id.
Qed.

Lemma entries_NoDup m h gs R : cells m (plist_cells h gs ++ R) -> NoDup (entries gs).*1.
Proof.
  intros H. rewrite entries_members. unfold plist_cells in H. rewrite <- !app_assoc in H.
  assert (NoDup (places (members gs))) as Hn. { eapply (ring_NoDup m (h + 8)). eapply cells_from; [exact H|]. expose. }
  by apply NoDup_fmap_1 in Hn.
Qed.

Lemma ascending_swap g1 g g' g2 : gprio g' = gprio g -> ascending (g1 ++ g :: g2) -> ascending (g1 ++ g' :: g2).
Proof.
  intros E. rewrite !ascending_app, !ascending_cons, E. intros (? & [? ?] & Hg). split; [done|]. split; [done|]. eapply Forall_impl; [exact Hg|]. intros x. rewrite !Forall_cons, E. done.
Qed.

Lemma ascending_drop g1 g g2 : ascending (g1 ++ g :: g2) -> ascending (g1 ++ g2).
Proof.
  rewrite !ascending_app, !ascending_cons. intros (? & [? ?] & Hg). split; [done|]. split; [done|]. eapply Forall_impl; [exact Hg|]. intros x. rewrite Forall_cons. tauto.
Qed.

Lemma plist_del_ok m h gs n p R (Q : unit -> mem -> Prop) :
  ascending gs -> cells m (plist_cells h gs ++ R) -> (n, p) ∈ entries gs ->
  (forall m' gs', ascending gs' -> entries gs' = remove_entry n (entries gs) -> cells m' (plist_cells h gs' ++ idle_cells n p ++ R) -> Q tt m') ->
  wp (plist_del n h) Q m.
Proof.
  intros Hasc H Hin HQ. pose proof (entries_NoDup _ _ _ _ H) as Hnd. apply list_elem_of_bind in Hin as ([q f rest] & Hn & Hg). cbn [gprio] in Hn. apply list_elem_of_fmap in Hn as (n' & [= <- <-] & Hn).
  apply list_elem_of_split in Hg as (g1 & g2 & ->). rewrite entries_app in *. set (e := (fun n => (n, p)) : Z -> Z * Z).
  change (entries (Group p f rest :: g2)) with ((e <$> f :: rest) ++ entries g2) in *.
  assert (forall g', gprio g' = p -> entries (g1 ++ g' :: g2) = entries g1 ++ (e <$> gnodes g') ++ entries g2) as Eg by (intros g' <-; by rewrite entries_app).
  change (n ∈ f :: rest) in Hn. apply elem_of_cons in Hn as [->|(r1 & r2 & ->)%list_elem_of_split]; [destruct rest as [|x r]|].
  - eapply del_alone; [exact H|]. intros m' H'. eapply HQ; [by eapply ascending_drop|rewrite entries_app|exact H']. symmetry. by apply remove_entry_middle.
  - eapply del_first; [exact H|]. intros m' H'. eapply HQ; [| |exact H']; [by eapply ascending_swap; [|exact Hasc]|]. rewrite Eg by done. symmetry. by apply remove_entry_middle.
  - eapply del_member; [exact H|]. intros m' H'. eapply HQ; [| |exact H']; [by eapply ascending_swap; [|exact Hasc]|]. rewrite Eg by done.
    pose proof (remove_entry_middle n p (entries g1 ++ e f :: (e <$> r1)) ((e <$> r2) ++ entries g2)) as Hr.
    assert (forall r, e <$> f :: r1 ++ r = (e f :: (e <$> r1)) ++ (e <$> r)) as Er by (intros r; cbn; by rewrite fmap_app).
    rewrite Er in Hnd. unfold gnodes. cbn [gfirst grest]. rewrite !Er. cbn [fmap list_fmap] in *. rewrite <- !app_assoc in *. cbn [app] in *. rewrite <- ?app_assoc in *. symmetry. by apply Hr.
Qed.

(** The list of entries is sorted by priority. *)
Lemma entries_sorted gs : ascending gs -> StronglySorted (fun a b => a.2 <= b.2) (entries gs).
Proof.
  induction gs as [|g gs IH]; intros Ha; [constructor|]. destruct Ha as [Hg Ha]. specialize (IH Ha). change (entries (g :: gs)) with (((fun n => (n, gprio g)) <$> gnodes g) ++ entries gs).
  assert (forall e, e ∈ entries gs -> gprio g <= e.2) as Hle.
  { intros e (g' & He & Hg')%list_elem_of_bind. apply list_elem_of_fmap in He as (n & -> & _). eapply Forall_forall in Hg; [|exact Hg']. simpl. lia. }
  induction (gnodes g) as [|n l IHl]; [done|]. cbn. constructor; [done|]. apply Forall_app. split; [|by apply Forall_forall].
  apply Forall_fmap, Forall_forall. intros x _. simpl. lia.
Qed.
End Places.

(** ** The list as a stable sorted sequence *)

Inductive plist_op := PAdd (n : Z) | PDel (n : Z) | PFirst | PEmpty.

Section Calls.
Context (fuel : nat) (h : Z) (R : list (Z * Z)).

(** The result of a query is the address of a node or 0 and 1. *)
Definition plist_do (op : plist_op) : M Z :=
  match op with
  | PAdd n => plist_add fuel n h ;; mret 0
  | PDel n => plist_del n h ;; mret 0
  | PFirst => plist_first h
  | PEmpty => e ← plist_head_empty h; mret (if (e : bool) then 1 else 0)
  end.

(** The sorted list of nodes with their priorities, and the nodes that are in no list. *)
Definition plist_holds (m : mem) (l idle : list (Z * Z)) : Prop :=
  exists gs, ascending gs /\ entries gs = l /\ cells m (plist_cells h gs ++ (idle ≫= fun e => idle_cells e.1 e.2) ++ R).

Inductive plist_step : plist_op -> list (Z * Z) -> list (Z * Z) -> Z -> list (Z * Z) -> list (Z * Z) -> Prop :=
| p_add n p l idle idle' : idle ≡ₚ (n, p) :: idle' -> (length l < fuel)%nat -> plist_step (PAdd n) l idle 0 (insert_entry n p l) idle'
| p_del n p l idle : (n, p) ∈ l -> plist_step (PDel n) l idle 0 (remove_entry n l) ((n, p) :: idle)
| p_first n p l idle : plist_step PFirst ((n, p) :: l) idle n ((n, p) :: l) idle
| p_empty l idle : plist_step PEmpty l idle (if decide (l = []) then 1 else 0) l idle.

Lemma entries_length gs : (length gs <= length (entries gs))%nat.
Proof. induction gs as [|g gs IH]; [done|]. change (entries (g :: gs)) with (((fun n => (n, gprio g)) <$> gnodes g) ++ entries gs). rewrite length_app. cbn. lia. Qed.

Lemma plist_step_ok op m l idle r l' idle' :
  plist_holds m l idle -> plist_step op l idle r l' idle' -> wp (plist_do op) (fun r' m' => r' = r /\ plist_holds m' l' idle') m.
Proof.
  intros (gs & Ha & El & H) Hs. destruct Hs as [n p l idle idle' E Hf|n p l idle Hin|n p l idle|l idle]; cbn [plist_do].
  - rewrite E in H. cbn [mbind list_bind fst snd] in H. rewrite <- app_assoc in H. apply wp_bind. eapply plist_add_ok; [|exact Ha|exact H|].
    { pose proof (entries_length gs). rewrite El in *. lia. }
    intros m' gs' Ha' El' H'. apply wp_ret. split; [done|]. exists gs'. by rewrite <- El.
  - rewrite <- El in Hin. apply wp_bind. eapply plist_del_ok; [exact Ha|exact H|exact Hin|]. intros m' gs' Ha' El' H'. apply wp_ret. split; [done|]. exists gs'. rewrite <- El. split; [done|]. split; [done|].
    cbn [mbind list_bind fst snd]. cells_by H'.
  - assert (members gs = n :: l.*1) as Em by (by rewrite <- entries_members, El). assert (cells m (ring (h + 8) (places (members gs)) ++ ring h (firsts gs) ++ (gs ≫= group_cells) ++ (idle ≫= fun e => idle_cells e.1 e.2) ++ R)) as H'.
    { unfold plist_cells in H. cells_by H. }
    rewrite Em in H'. apply wp_bind. eapply wp_first; [exact H'|]. apply wp_ret. cbn. split; [lia|]. by exists gs.
  - assert (cells m (ring (h + 8) (places (members gs)) ++ ring h (firsts gs) ++ (gs ≫= group_cells) ++ (idle ≫= fun e => idle_cells e.1 e.2) ++ R)) as H' by (unfold plist_cells in H; cells_by H).
    apply wp_bind. eapply list_empty_ok; [exact H'|]. apply wp_ret. split; [|by exists gs]. rewrite <- entries_members, El. by destruct l.
Qed.

(** Any sequence of calls on nodes that are where they should be. *)
Fixpoint plist_served (ops : list plist_op) (l idle : list (Z * Z)) (m : mem) : Prop :=
  StronglySorted (fun a b => a.2 <= b.2) l /\
  match ops with
  | [] => True
  | op :: ops => forall r l' idle', plist_step op l idle r l' idle' -> wp (plist_do op) (fun r' m' => r' = r /\ plist_served ops l' idle' m') m
  end.

Lemma plist_holds_served ops m l idle : plist_holds m l idle -> plist_served ops l idle m.
Proof.
  revert m l idle. induction ops as [|op ops IH]; intros m l idle Hh; (split; [destruct Hh as (gs & Ha & <- & _); by apply entries_sorted|]); [done|].
  intros r l' idle' Hs. eapply wp_mono; [by eapply plist_step_ok|]. intros r' m' [-> Hh']. split; [done|]. by apply IH.
Qed.

Lemma plist_head_init_ok m u v u' v' (idle : list (Z * Z)) (Q : unit -> mem -> Prop) :
  cells m (node h u v ++ node (h + 8) u' v' ++ (idle ≫= fun e => idle_cells e.1 e.2) ++ R) -> (forall m', plist_holds m' [] idle -> Q tt m') -> wp (plist_head_init h) Q m.
Proof.
  intros H HQ. apply wp_bind. eapply wp_INIT_LIST_HEAD; [exact H|]. clear m H. intros m H.
  eapply (wp_INIT_LIST_HEAD _ (h + 8) u' v' (ring h [] ++ (idle ≫= fun e => idle_cells e.1 e.2) ++ R)); [cells_by H|]. clear m H. intros m H. apply HQ. exists []. split; [done|]. split; [done|].
  unfold plist_cells. cbn [firsts members places fmap list_fmap mbind list_bind]. cells_by H.
Qed.

Lemma plist_node_init_ok m n p u v u' v' w S (Q : unit -> mem -> Prop) :
  cells m ([(n, w)] ++ node (n + 4) u v ++ node (n + 12) u' v' ++ S) -> (forall m', cells m' (idle_cells n p ++ S) -> Q tt m') -> wp (plist_node_init n p) Q m.
Proof.
  intros H HQ. apply wp_bind. cell_store H. unfold plist_head_init. replace (n + 4 + 8) with (n + 12) by lia. apply wp_bind.
  eapply (wp_INIT_LIST_HEAD _ (n + 4) u v ([(n, p)] ++ node (n + 12) u' v' ++ S)); [cells_by H|]. clear m H. intros m H.
  eapply (wp_INIT_LIST_HEAD _ (n + 12) u' v' (ring (n + 4) [] ++ [(n, p)] ++ S)); [cells_by H|]. clear m H. intros m H. apply HQ. unfold idle_cells. cells_by H.
Qed.
End Calls.

(** C14: a priority list is a sequence of nodes sorted by priority.  After plist_head_init,
    any sequence of plist_add, plist_del, plist_first and plist_head_empty on nodes made by
    plist_node_init behaves so: plist_add puts the node behind all nodes of at most its
    priority value, plist_del takes it out and makes it ready to be added again, the others
    keep their order, plist_first is the oldest node of the least value, and the memory
    around the list stays as it was. *)
Theorem plist_refines_sorted fuel h R ops m u v u' v' idle :
  cells m (node h u v ++ node (h + 8) u' v' ++ (idle ≫= fun e => idle_cells e.1 e.2) ++ R) ->
  wp (plist_head_init h) (fun _ m' => plist_served fuel h ops [] idle m') m.
Proof. intros H. eapply plist_head_init_ok; [exact H|]. intros m' Hm'. eapply plist_holds_served. exact Hm'. Qed.

Lemma plist_refines_sorted_witness :
  wp (plist_head_init 100) (fun _ m' => plist_served 8 100 [PAdd 200; PAdd 300; PAdd 400; PFirst; PDel 200; PFirst] [] [(200, 5); (300, 7); (400, 5)] m')
    (list_to_map (node 100 0 0 ++ node 108 0 0 ++ idle_cells 200 5 ++ idle_cells 300 7 ++ idle_cells 400 5)).
Proof.
  apply (plist_refines_sorted 8 100 [] _ _ 0 0 0 0 [(200, 5); (300, 7); (400, 5)]). rewrite app_nil_r. apply cells_list_to_map. vm_compute. reflexivity.
Defined.
