(* ===== verification/Buddy.v ===== *)
(** * The buddy allocator of a zone: mm/page_alloc.c

    A zone hands out blocks of 2^order contiguous pages.  The free blocks of every order
    and migrate type are on a list; a block that is asked for and is not there is cut out
    of a larger one ([expand]), and a block that comes back is merged with its buddy as
    long as that is free ([__free_one_page]).

    A struct page pointer is the number of its page frame (mem_map is contiguous, so the
    pointer arithmetic of the code is arithmetic on frame numbers).  The zone's fields that
    the allocator only reads are in [zone]; everything it changes is in [state].  The
    lists are sequences of pages: what list.h does to the links is the subject of
    LinkedList.v, and here an operation on a page that is on no list, or the addition of a
    page that is on one already, is a fault.  Every routine runs under zone->lock with
    interrupts off, on a single processor.  Assertions of CONFIG_DEBUG_VM are off, and the
    memory map has no holes inside a block of MAX_ORDER pages, as on the ARM
    configurations of the tree. *)

From S2P Require Import Prelude Bitops.

#[local] Arguments loop : simpl never.

(** ** Data *)

(** Without CONFIG_FORCE_MAX_ZONEORDER and CONFIG_HUGETLB_PAGE. *)
Definition MAX_ORDER : Z := 11.
Definition pageblock_order : Z := MAX_ORDER - 1.
Definition pageblock_nr_pages : Z := Z.shiftl 1 pageblock_order.

Definition MIGRATE_UNMOVABLE : Z := 0.
Definition MIGRATE_RECLAIMABLE : Z := 1.
Definition MIGRATE_MOVABLE : Z := 2.
Definition MIGRATE_RESERVE : Z := 3.
Definition MIGRATE_ISOLATE : Z := 4.
Definition MIGRATE_TYPES : Z := 5.

Definition PB_migrate : Z := 0.
Definition PB_migrate_end : Z := PB_migrate + 3 - 1.
Definition NR_PAGEBLOCK_BITS : Z := PB_migrate_end + 1.

(** Positions in [pg_flags]; with CONFIG_PAGEFLAGS_EXTENDED and CONFIG_UNEVICTABLE_LRU. *)
Definition PG_locked : Z := 0.
Definition PG_lru : Z := 5.
Definition PG_active : Z := 6.
Definition PG_slab : Z := 7.
Definition PG_reserved : Z := 10.
Definition PG_private : Z := 11.
Definition PG_writeback : Z := 12.
Definition PG_head : Z := 13.
Definition PG_tail : Z := 14.
Definition PG_swapcache : Z := 15.
Definition PG_buddy : Z := 18.
Definition PG_unevictable : Z := 20.
Definition PG_mlocked : Z := 21.
Definition NR_PAGEFLAGS : Z := 22.

(** struct page.  [pg_flags] are the NR_PAGEFLAGS low bits of the member flags and
    [pg_zone_id] is page_zone_id, the field above them.  The member first_page of tail
    pages shares the word of [pg_private].  The words of lru have a second use on the
    first tail page of a compound page, which is on no list: the destructor and the order
    ([pg_lru_next], [pg_lru_prev]). *)
Record page := Page {
  pg_flags : Z;
  pg_zone_id : Z;
  pg_count : Z;
  pg_mapcount : Z;
  pg_private : Z;
  pg_mapping : Z;
  pg_lru_next : Z;
  pg_lru_prev : Z
}.

Definition with_flags (f : Z -> Z) (p : page) : page :=
  Page (f (pg_flags p)) (pg_zone_id p) (pg_count p) (pg_mapcount p) (pg_private p) (pg_mapping p) (pg_lru_next p) (pg_lru_prev p).
Definition with_count (v : Z) (p : page) : page :=
  Page (pg_flags p) (pg_zone_id p) v (pg_mapcount p) (pg_private p) (pg_mapping p) (pg_lru_next p) (pg_lru_prev p).
Definition with_private (v : Z) (p : page) : page :=
  Page (pg_flags p) (pg_zone_id p) (pg_count p) (pg_mapcount p) v (pg_mapping p) (pg_lru_next p) (pg_lru_prev p).
Definition with_mapping (v : Z) (p : page) : page :=
  Page (pg_flags p) (pg_zone_id p) (pg_count p) (pg_mapcount p) (pg_private p) v (pg_lru_next p) (pg_lru_prev p).
Definition with_lru (u v : Z) (p : page) : page :=
  Page (pg_flags p) (pg_zone_id p) (pg_count p) (pg_mapcount p) (pg_private p) (pg_mapping p) u v.

(** The heads of the lists: free_area[order].free_list[migratetype], and the list of
    the processor's own pages. *)
Inductive lhead := Free (order migratetype : Z) | Pcp.

#[export] Instance lhead_eq_dec : EqDecision lhead.
Proof. solve_decision. Defined.

#[export] Program Instance lhead_countable : Countable lhead :=
  inj_countable' (fun h => match h with Free o t => Some (o, t) | Pcp => None end)
    (fun x => match x with Some (o, t) => Free o t | None => Pcp end) _.
Next Obligation. by intros []. Qed.

(** Where list_add inserts: behind the head of a list or behind a page on one. *)
Inductive lpos := Head (h : lhead) | Entry (p : Z).

(** The members of struct zone, and of its struct per_cpu_pages, that do not change. *)
Record zone := Zone {
  zone_id : Z;
  zone_start_pfn : Z;
  spanned_pages : Z;
  pageblock_flags : Z;
  lowmem_reserve : list Z;
  pcp_high : Z;
  pcp_batch : Z;
  page_group_by_mobility_disabled : bool
}.

(** [mem_map]: the pages; [lists]: the lists; [nr_free]: free_area[order].nr_free;
    [vm_stat]: vm_stat[NR_FREE_PAGES]; [bits]: the longs of the pageblock bitmap. *)
Record state := State {
  mem_map : gmap Z page;
  lists : gmap lhead (list Z);
  nr_free : gmap Z Z;
  vm_stat : Z;
  bits : mem;
  all_unreclaimable : bool;
  pages_scanned : Z;
  pcp_count : Z;
  tainted : bool
}.

Definition with_pages (f : gmap Z page -> gmap Z page) (s : state) : state :=
  State (f (mem_map s)) (lists s) (nr_free s) (vm_stat s) (bits s) (all_unreclaimable s) (pages_scanned s) (pcp_count s) (tainted s).
Definition with_lists (f : gmap lhead (list Z) -> gmap lhead (list Z)) (s : state) : state :=
  State (mem_map s) (f (lists s)) (nr_free s) (vm_stat s) (bits s) (all_unreclaimable s) (pages_scanned s) (pcp_count s) (tainted s).
Definition with_nr_free (f : gmap Z Z -> gmap Z Z) (s : state) : state :=
  State (mem_map s) (lists s) (f (nr_free s)) (vm_stat s) (bits s) (all_unreclaimable s) (pages_scanned s) (pcp_count s) (tainted s).
Definition with_vm_stat (v : Z) (s : state) : state :=
  State (mem_map s) (lists s) (nr_free s) v (bits s) (all_unreclaimable s) (pages_scanned s) (pcp_count s) (tainted s).
Definition with_bits (m : mem) (s : state) : state :=
  State (mem_map s) (lists s) (nr_free s) (vm_stat s) m (all_unreclaimable s) (pages_scanned s) (pcp_count s) (tainted s).
Definition with_scanned (u : bool) (n : Z) (s : state) : state :=
  State (mem_map s) (lists s) (nr_free s) (vm_stat s) (bits s) u n (pcp_count s) (tainted s).
Definition with_pcp_count (n : Z) (s : state) : state :=
  State (mem_map s) (lists s) (nr_free s) (vm_stat s) (bits s) (all_unreclaimable s) (pages_scanned s) n (tainted s).
Definition with_tainted (b : bool) (s : state) : state :=
  State (mem_map s) (lists s) (nr_free s) (vm_stat s) (bits s) (all_unreclaimable s) (pages_scanned s) (pcp_count s) b.

Abbreviation ZM := (ST state).

Definition modify (f : state -> state) : ZM unit := fun s => Ok (tt, f s).
Definition asks {A} (f : state -> A) : ZM A := fun s => Ok (f s, s).

(** ** Pages *)

Definition page_at (p : Z) : ZM page := fun s =>
  match mem_map s !! p with
  | Some pg => Ok (pg, s)
  | None => Fault BadAddress
  end.

Definition page_update (p : Z) (f : page -> page) : ZM unit :=
  pg ← page_at p;
  modify (with_pages (insert p (f pg))).

Definition PageBuddy (pg : page) : bool := Z.testbit (pg_flags pg) PG_buddy.
Definition PageHead (pg : page) : bool := Z.testbit (pg_flags pg) PG_head.
Definition PageTail (pg : page) : bool := Z.testbit (pg_flags pg) PG_tail.
Definition PageCompound (pg : page) : bool :=
  negb (Z.land (pg_flags pg) (Z.lor (Z.shiftl 1 PG_head) (Z.shiftl 1 PG_tail)) =? 0).

Definition SetPageFlag (nr p : Z) : ZM unit := page_update p (with_flags (fun f => Z.setbit f nr)).
Definition ClearPageFlag (nr p : Z) : ZM unit := page_update p (with_flags (fun f => Z.clearbit f nr)).
Definition set_page_private (p v : Z) : ZM unit := page_update p (with_private v).

Definition page_count (p : Z) : ZM Z :=
  pg ← page_at p;
  if PageTail pg then h ← page_at (pg_private pg); mret (pg_count h)
  else mret (pg_count pg).

Definition set_page_order (p order : Z) : ZM unit :=
  set_page_private p order ;; SetPageFlag PG_buddy p.

Definition rmv_page_order (p : Z) : ZM unit :=
  ClearPageFlag PG_buddy p ;; set_page_private p 0.

(** bad_page, but for its report: it takes the page out of the buddy system and taints
    the kernel. *)
Definition bad_page (p : Z) : ZM unit :=
  ClearPageFlag PG_buddy p ;; modify (with_tainted true).

(** ** Lists of pages *)

Definition list_at (h : lhead) : ZM (list Z) := fun s =>
  match lists s !! h with
  | Some l => Ok (l, s)
  | None => Fault BadAddress
  end.

(** The list that the page is on. *)
Definition head_of (s : state) (p : Z) : option lhead :=
  fst <$> List.find (fun hl : lhead * list Z => bool_decide (p ∈ hl.2)) (map_to_list (lists s)).

Definition page_list_del (p : Z) : ZM unit :=
  h ← asks (fun s => head_of s p);
  match h with
  | None => stop BadAddress
  | Some h => l ← list_at h; modify (with_lists (insert h (filter (fun q => q <> p) l)))
  end.

Fixpoint insert_behind (q p : Z) (l : list Z) : list Z :=
  match l with
  | [] => []
  | x :: l => if x =? q then x :: p :: l else x :: insert_behind q p l
  end.

Definition page_list_add (p : Z) (pos : lpos) : ZM unit :=
  o ← asks (fun s => head_of s p);
  match o with
  | Some _ => stop BadAddress
  | None =>
      match pos with
      | Head h => l ← list_at h; modify (with_lists (insert h (p :: l)))
      | Entry q =>
          o ← asks (fun s => head_of s q);
          match o with
          | None => stop BadAddress
          | Some h => l ← list_at h; modify (with_lists (insert h (insert_behind q p l)))
          end
      end
  end.

Definition page_list_add_tail (p : Z) (h : lhead) : ZM unit :=
  o ← asks (fun s => head_of s p);
  match o with
  | Some _ => stop BadAddress
  | None => l ← list_at h; modify (with_lists (insert h (l ++ [p])))
  end.

Definition page_list_empty (h : lhead) : ZM bool :=
  l ← list_at h; mret (bool_decide (l = [])).

(** list_entry(head->next, struct page, lru) and list_entry(head->prev, ...). *)
Definition page_list_first (h : lhead) : ZM Z :=
  l ← list_at h; match head l with Some p => mret p | None => stop BadAddress end.

Definition page_list_last (h : lhead) : ZM Z :=
  l ← list_at h; match last l with Some p => mret p | None => stop BadAddress end.

(** ** Counters *)

Definition add_nr_free (order d : Z) : ZM unit := fun s =>
  match nr_free s !! order with
  | Some n => Ok (tt, with_nr_free (insert order (u32 (n + d))) s)
  | None => Fault BadAddress
  end.

Definition __mod_zone_page_state (delta : Z) : ZM unit :=
  modify (fun s => with_vm_stat (s32 (vm_stat s + s32 delta)) s).

(** ** The operations of a zone *)

Section Zone.
Context (zn : zone).

(** Run an operation on the pageblock bitmap. *)
Definition on_bits {A} (c : M A) : ZM A := fun s =>
  match c (bits s) with
  | Ok (a, m) => Ok (a, with_bits m s)
  | Fault f => Fault f
  end.

Definition pfn_to_bitidx (pfn : Z) : Z :=
  Z.shiftr (u32 (pfn - zone_start_pfn zn)) pageblock_order * NR_PAGEBLOCK_BITS.

Definition get_pageblock_flags_group (p start_bitidx end_bitidx : Z) : ZM Z :=
  let bitidx := pfn_to_bitidx p in
  loop (S (Z.to_nat (end_bitidx - start_bitidx + 1))) (fun '(start_bitidx, value, flags) =>
    if start_bitidx <=? end_bitidx then
      t ← on_bits (test_bit (bitidx + start_bitidx) (pageblock_flags zn));
      continue (start_bitidx + 1, u32 (Z.shiftl value 1), if t =? 0 then flags else Z.lor flags value)
    else break flags) (start_bitidx, 1, 0).

Definition set_pageblock_flags_group (p flags start_bitidx end_bitidx : Z) : ZM unit :=
  let bitidx := pfn_to_bitidx p in
  loop (S (Z.to_nat (end_bitidx - start_bitidx + 1))) (fun '(start_bitidx, value) =>
    if start_bitidx <=? end_bitidx then
      on_bits (if Z.land flags value =? 0 then __clear_bit (bitidx + start_bitidx) (pageblock_flags zn)
               else __set_bit (bitidx + start_bitidx) (pageblock_flags zn)) ;;
      continue (start_bitidx + 1, u32 (Z.shiftl value 1))
    else break tt) (start_bitidx, 1).

Definition get_pageblock_migratetype (p : Z) : ZM Z :=
  if page_group_by_mobility_disabled zn then mret MIGRATE_UNMOVABLE
  else get_pageblock_flags_group p PB_migrate PB_migrate_end.

Definition set_pageblock_migratetype (p migratetype : Z) : ZM unit :=
  set_pageblock_flags_group p (u32 migratetype) PB_migrate PB_migrate_end.

(** Returns the number of faults found; all of them are reported on the head page. *)
Definition destroy_compound_page (page order : Z) : ZM Z :=
  h ← page_at page;
  o ← (if PageHead h then t ← page_at (page + 1); mret (pg_lru_prev t) else mret 0);
  bad ← (if negb (o =? order) || negb (PageHead h) then bad_page page ;; mret 1 else mret 0);
  ClearPageFlag PG_head page ;;
  loop (S (Z.to_nat (Z.shiftl 1 order))) (fun '(i, bad) =>
    if i <? Z.shiftl 1 order then
      p ← page_at (page + i);
      bad ← (if negb (PageTail p) || negb (pg_private p =? page) then bad_page page ;; mret (bad + 1) else mret bad);
      ClearPageFlag PG_tail (page + i) ;;
      continue (i + 1, bad)
    else break bad) (1, bad).

Definition __page_find_buddy (page page_idx order : Z) : Z :=
  let buddy_idx := Z.lxor page_idx (Z.shiftl 1 order) in
  page + (buddy_idx - page_idx).

Definition __find_combined_index (page_idx order : Z) : Z :=
  Z.land page_idx (Z.lnot (Z.shiftl 1 order)).

Definition page_is_buddy (page buddy order : Z) : ZM bool :=
  b ← page_at buddy;
  p ← page_at page;
  if negb (pg_zone_id p =? pg_zone_id b) then mret false
  else if PageBuddy b && (pg_private b =? order) then
    c ← page_count buddy;
    BUG_ON (negb (c =? 0)) ;;
    mret true
  else mret false.

(** The loop of [__free_one_page]: merge the block with its buddy as long as that is a
    free block of the same order. *)
Definition merge (page order : Z) : ZM (Z * Z) :=
  loop (S (Z.to_nat (MAX_ORDER - order))) (fun '(page, page_idx, order) =>
    if order <? MAX_ORDER - 1 then
      let buddy := __page_find_buddy page page_idx order in
      b ← page_is_buddy page buddy order;
      if negb b then break (page, order)
      else
        page_list_del buddy ;;
        add_nr_free order (-1) ;;
        rmv_page_order buddy ;;
        let combined_idx := __find_combined_index page_idx order in
        continue (page + (combined_idx - page_idx), combined_idx, order + 1)
    else break (page, order)) (page, Z.land page (Z.shiftl 1 MAX_ORDER - 1), order).

Definition __free_one_page (page order : Z) : ZM unit :=
  migratetype ← get_pageblock_migratetype page;
  pg ← page_at page;
  bad ← (if PageCompound pg then destroy_compound_page page order else mret 0);
  if negb (bad =? 0) then mret tt
  else
    __mod_zone_page_state (Z.shiftl 1 order) ;;
    '(page, order) ← merge page order;
    set_page_order page order ;;
    page_list_add page (Head (Free order migratetype)) ;;
    add_nr_free order 1.

(** [count] pages of the list [list], from its end. *)
Definition free_pages_bulk (count : Z) (list : lhead) (order : Z) : ZM unit :=
  modify (with_scanned false 0) ;;
  loop (S (Z.to_nat count)) (fun count =>
    if count =? 0 then break tt
    else
      page ← page_list_last list;
      page_list_del page ;;
      __free_one_page page order ;;
      continue (count - 1)) count.

Definition free_one_page (page order : Z) : ZM unit :=
  modify (with_scanned false 0) ;;
  __free_one_page page order.

(** The parameter area of the code is the index of a free_area. *)
Definition expand (page low high area migratetype : Z) : ZM unit :=
  loop (S (Z.to_nat (high - low))) (fun '(area, high, size) =>
    if low <? high then
      let area := area - 1 in
      let high := high - 1 in
      let size := Z.shiftr size 1 in
      page_list_add (page + size) (Head (Free area migratetype)) ;;
      add_nr_free area 1 ;;
      set_page_order (page + size) high ;;
      continue (area, high, size)
    else break tt) (area, high, Z.shiftl 1 high).

Definition __rmqueue_smallest (order migratetype : Z) : ZM (option Z) :=
  for_loop order MAX_ORDER (fun current_order =>
    e ← page_list_empty (Free current_order migratetype);
    if (e : bool) then mret None
    else
      page ← page_list_first (Free current_order migratetype);
      page_list_del page ;;
      rmv_page_order page ;;
      add_nr_free current_order (-1) ;;
      __mod_zone_page_state (- Z.shiftl 1 order) ;;
      expand page order current_order current_order migratetype ;;
      mret (Some page)).

(** Rows of MIGRATE_TYPES - 1 = 4 entries: those the source gives, and 0 for the rest. *)
Definition fallbacks : list (list Z) :=
  [ [MIGRATE_RECLAIMABLE; MIGRATE_MOVABLE; MIGRATE_RESERVE; 0];
    [MIGRATE_UNMOVABLE; MIGRATE_MOVABLE; MIGRATE_RESERVE; 0];
    [MIGRATE_RECLAIMABLE; MIGRATE_UNMOVABLE; MIGRATE_RESERVE; 0];
    [MIGRATE_RESERVE; MIGRATE_RESERVE; MIGRATE_RESERVE; 0];
    [0; 0; 0; 0] ].

Definition fallback (start_migratetype i : Z) : ZM Z :=
  match fallbacks !! Z.to_nat start_migratetype ≫= lookup (Z.to_nat i) with
  | Some t => mret t
  | None => stop BadAddress
  end.

Definition move_freepages (start_page end_page migratetype : Z) : ZM Z :=
  s ← page_at start_page;
  e ← page_at end_page;
  BUG_ON (negb (pg_zone_id s =? pg_zone_id e)) ;;
  loop (S (Z.to_nat (end_page - start_page + 1))) (fun '(page, pages_moved) =>
    if page <=? end_page then
      pg ← page_at page;
      if negb (PageBuddy pg) then continue (page + 1, pages_moved)
      else
        let order := pg_private pg in
        page_list_del page ;;
        page_list_add page (Head (Free order migratetype)) ;;
        continue (page + Z.shiftl 1 order, pages_moved + Z.shiftl 1 order)
    else break pages_moved) (start_page, 0).

Definition move_freepages_block (page migratetype : Z) : ZM Z :=
  let start_pfn := Z.land page (Z.lnot (pageblock_nr_pages - 1)) in
  let end_pfn := start_pfn + pageblock_nr_pages - 1 in
  let start_page := if start_pfn <? zone_start_pfn zn then page else start_pfn in
  if zone_start_pfn zn + spanned_pages zn <=? end_pfn then mret 0
  else move_freepages start_page end_pfn migratetype.

(** The body of the inner loop of [__rmqueue_fallback] for a list that is not empty. *)
Definition steal (order start_migratetype current_order migratetype : Z) : ZM Z :=
  page ← page_list_first (Free current_order migratetype);
  add_nr_free current_order (-1) ;;
  migratetype ←
    (if (Z.shiftr pageblock_order 1 <=? current_order) || (start_migratetype =? MIGRATE_RECLAIMABLE) then
       pages ← move_freepages_block page start_migratetype;
       (if Z.shiftl 1 (pageblock_order - 1) <=? pages then set_pageblock_migratetype page start_migratetype
        else mret tt) ;;
       mret start_migratetype
     else mret migratetype);
  page_list_del page ;;
  rmv_page_order page ;;
  __mod_zone_page_state (- Z.shiftl 1 order) ;;
  (if current_order =? pageblock_order then set_pageblock_migratetype page start_migratetype else mret tt) ;;
  expand page order current_order current_order migratetype ;;
  mret page.

Definition __rmqueue_fallback (order start_migratetype : Z) : ZM (option Z) :=
  r ← loop (S (Z.to_nat (MAX_ORDER - order))) (fun current_order =>
    if order <=? current_order then
      r ← for_loop 0 (MIGRATE_TYPES - 1) (fun i =>
        migratetype ← fallback start_migratetype i;
        if migratetype =? MIGRATE_RESERVE then mret None
        else
          e ← page_list_empty (Free current_order migratetype);
          if (e : bool) then mret None
          else page ← steal order start_migratetype current_order migratetype; mret (Some page));
      match r with
      | Some page => break (Some page)
      | None => continue (current_order - 1)
      end
    else break None) (MAX_ORDER - 1);
  match r with
  | Some page => mret (Some page)
  | None => __rmqueue_smallest order MIGRATE_RESERVE
  end.

Definition __rmqueue (order migratetype : Z) : ZM (option Z) :=
  page ← __rmqueue_smallest order migratetype;
  match page with
  | Some page => mret (Some page)
  | None => __rmqueue_fallback order migratetype
  end.

(** Returns the number of pages put on the list. *)
Definition rmqueue_bulk (order count : Z) (list : lpos) (migratetype : Z) : ZM Z :=
  loop (S (Z.to_nat count)) (fun '(i, list) =>
    if i <? count then
      page ← __rmqueue order migratetype;
      match page with
      | None => break i
      | Some page =>
          page_list_add page list ;;
          set_page_private page migratetype ;;
          continue (i + 1, Entry page)
      end
    else break i) (0, list).

(** At boot: every list is empty. *)
Definition zone_init_free_lists : ZM unit :=
  for_up 0 MAX_ORDER (fun order =>
    for_up 0 MIGRATE_TYPES (fun t =>
      modify (with_lists (insert (Free order t) [])) ;;
      modify (with_nr_free (insert order 0)))).

(** ** Blocks *)

Definition range (p o x : Z) : Prop := p <= x < p + 2 ^ o.

Definition in_zone (x : Z) : Prop := zone_start_pfn zn <= x < zone_start_pfn zn + spanned_pages zn.

(** A naturally aligned block of the zone. *)
Definition block (p o : Z) : Prop :=
  0 <= o < MAX_ORDER /\ p mod 2 ^ o = 0 /\ forall x, range p o x -> in_zone x.

Definition buddy_of (p o : Z) : Z := Z.lxor p (2 ^ o).

(** The page numbers of the zone are those of a 32-bit physical address space. *)
Definition zone_ok : Prop := 0 <= zone_start_pfn zn /\ 0 <= spanned_pages zn /\ zone_start_pfn zn + spanned_pages zn <= 2 ^ 20.

Lemma pow2_pos o : 0 <= o -> 0 < 2 ^ o.
Proof. intros. apply Z.pow_pos_nonneg; lia. Qed.

Lemma range_start p o : 0 <= o -> range p o p.
Proof. intros H. pose proof (pow2_pos o H). unfold range. lia. Qed.

Lemma pow2_S o : 0 <= o -> 2 ^ (o + 1) = 2 * 2 ^ o.
Proof. intros. by rewrite Z.pow_add_r, Z.mul_comm by lia. Qed.

(** Flipping and clearing one bit, as arithmetic. *)
Lemma testbit_pow2 o i : 0 <= o -> Z.testbit (2 ^ o) i = (i =? o).
Proof.
  intros. destruct (Z.eqb_spec i o) as [->|]; [by apply Z.pow2_bits_true|]. by apply Z.pow2_bits_false.
Qed.

Lemma land_pow2_test f o : 0 <= o -> (Z.land f (2 ^ o) =? 0) = negb (Z.testbit f o).
Proof.
  intros Ho. destruct (Z.testbit f o) eqn:E; simpl.
  - apply Z.eqb_neq. intros H. pose proof (Z.land_spec f (2 ^ o) o) as E'. by rewrite H, Z.bits_0, E, testbit_pow2, Z.eqb_refl in E'.
  - apply Z.eqb_eq. bitwise i Hi. rewrite testbit_pow2 by lia. destruct (Z.eqb_spec i o) as [->|]; [by rewrite E|apply andb_false_r].
Qed.

Lemma clear_bit_arith x o : 0 <= o -> Z.ldiff x (2 ^ o) = if Z.testbit x o then x - 2 ^ o else x.
Proof.
  intros Ho. destruct (Z.testbit x o) eqn:E.
  - symmetry. apply Z.sub_nocarry_ldiff. bitwise i Hi. rewrite testbit_pow2 by lia.
    destruct (Z.eqb_spec i o) as [->|]; [|done]. by rewrite E.
  - bitwise i Hi. rewrite testbit_pow2 by lia. destruct (Z.eqb_spec i o) as [->|]; [by rewrite E|apply andb_true_r].
Qed.

Lemma flip_bit_arith x o : 0 <= o -> Z.lxor x (2 ^ o) = if Z.testbit x o then x - 2 ^ o else x + 2 ^ o.
Proof.
  intros Ho. destruct (Z.testbit x o) eqn:E.
  - replace (x - 2 ^ o) with (Z.ldiff x (2 ^ o)) by (rewrite clear_bit_arith by lia; by rewrite E).
    bitwise i Hi. rewrite testbit_pow2 by lia. destruct (Z.eqb_spec i o) as [->|]; [by rewrite E|by rewrite xorb_false_r, andb_true_r].
  - symmetry. apply Z.add_nocarry_lxor. bitwise i Hi. rewrite testbit_pow2 by lia.
    destruct (Z.eqb_spec i o) as [->|]; [by rewrite E|apply andb_false_r].
Qed.

(** The buddy of an even block is behind it, that of an odd one before it. *)
Lemma buddy_cases p o :
  0 <= o -> p mod 2 ^ o = 0 ->
  (p mod 2 ^ (o + 1) = 0 /\ buddy_of p o = p + 2 ^ o /\ Z.ldiff p (2 ^ o) = p) \/
  ((p - 2 ^ o) mod 2 ^ (o + 1) = 0 /\ buddy_of p o = p - 2 ^ o /\ Z.ldiff p (2 ^ o) = p - 2 ^ o).
Proof.
  intros Ho Hp. pose proof (pow2_pos o Ho) as Hpos. unfold buddy_of.
  rewrite flip_bit_arith, clear_bit_arith by done.
  apply Z_div_exact_full_2 in Hp; [|lia]. set (k := p / 2 ^ o) in *. clearbody k. subst p.
  assert (Z.testbit (2 ^ o * k) o = Z.odd k) as ->.
  { rewrite Z.mul_comm, Z.mul_pow2_bits by lia. by rewrite Z.sub_diag, Z.bit0_odd. }
  rewrite pow2_S by lia. pose proof (Z.div2_odd k) as Ek. destruct (Z.odd k); [right|left]; (split; [|done]); rewrite Ek; simpl Z.b2z.
  - replace (2 ^ o * (2 * Z.div2 k + 1) - 2 ^ o) with (Z.div2 k * (2 * 2 ^ o)) by lia. apply Z_mod_mult.
  - replace (2 ^ o * (2 * Z.div2 k + 0)) with (Z.div2 k * (2 * 2 ^ o)) by lia. apply Z_mod_mult.
Qed.

Lemma buddy_twice p o : buddy_of (buddy_of p o) o = p.
Proof. unfold buddy_of. by rewrite Z.lxor_assoc, Z.lxor_nilpotent, Z.lxor_0_r. Qed.

(** Cutting the number of a page to the bits that its position in a block of MAX_ORDER
    has does not change the distance to its buddy, nor to the start of the pair. *)
Definition cut_idx (p i : Z) : Prop := i = Z.land p (Z.shiftl 1 MAX_ORDER - 1).

Lemma testbit_idx p o : 0 <= o < MAX_ORDER -> Z.testbit (Z.land p (Z.shiftl 1 MAX_ORDER - 1)) o = Z.testbit p o.
Proof.
  intros Ho. unfold MAX_ORDER in *. change (Z.shiftl 1 11 - 1) with (Z.ones 11).
  rewrite Z.land_spec, Z.testbit_ones by lia. replace (0 <=? o) with true by lia. replace (o <? 11) with true by lia. apply andb_true_r.
Qed.

Lemma find_buddy p i o : 0 <= o < MAX_ORDER -> cut_idx p i -> __page_find_buddy p i o = buddy_of p o.
Proof.
  intros Ho ->. unfold __page_find_buddy, buddy_of. cbv zeta. rewrite (Z.shiftl_1_l o), !flip_bit_arith by lia.
  rewrite testbit_idx by done. destruct (Z.testbit p o); lia.
Qed.

Lemma find_combined p i o : 0 <= o < MAX_ORDER -> cut_idx p i ->
  p + (__find_combined_index i o - i) = Z.ldiff p (2 ^ o) /\ cut_idx (Z.ldiff p (2 ^ o)) (__find_combined_index i o).
Proof.
  intros Ho ->. unfold __find_combined_index, cut_idx. rewrite (Z.shiftl_1_l o), <- Z.ldiff_land. split.
  - rewrite !clear_bit_arith, testbit_idx by lia. destruct (Z.testbit p o); lia.
  - bitwise j Hj. destruct (Z.testbit p j), (Z.testbit (2 ^ o) j), (Z.testbit (Z.shiftl 1 MAX_ORDER - 1) j); done.
Qed.

(** The two halves of a block. *)
Lemma range_halves p o x : 0 <= o -> range p (o + 1) x <-> range p o x \/ range (p + 2 ^ o) o x.
Proof. intros Ho. pose proof (pow2_pos o Ho). unfold range. rewrite pow2_S by done. lia. Qed.

Lemma combined_range p o x : 0 <= o -> p mod 2 ^ o = 0 ->
  range (Z.ldiff p (2 ^ o)) (o + 1) x <-> range p o x \/ range (buddy_of p o) o x.
Proof.
  intros Ho Hp. rewrite range_halves by done.
  destruct (buddy_cases p o Ho Hp) as [(_ & -> & ->)|(_ & -> & ->)]; [done|]. rewrite Z.sub_add. tauto.
Qed.

Lemma combined_block p o : block p o -> block (buddy_of p o) o -> o + 1 < MAX_ORDER -> block (Z.ldiff p (2 ^ o)) (o + 1).
Proof.
  intros (Ho & Hp & Hz) (_ & _ & Hz') Hlt. split; [lia|]. split.
  - destruct (buddy_cases p o) as [(H & _ & ->)|(H & _ & ->)]; (done || lia).
  - intros x Hx. apply combined_range in Hx as []; auto; lia.
Qed.

Lemma half_block p o : block p (o + 1) -> 0 <= o -> block p o /\ block (p + 2 ^ o) o /\ buddy_of (p + 2 ^ o) o = p.
Proof.
  intros (Ho & Hp & Hz) H0. pose proof (pow2_pos o H0).
  assert (p mod 2 ^ o = 0 /\ (p + 2 ^ o) mod 2 ^ o = 0) as [Hm Hm'].
  { rewrite pow2_S in Hp by done. apply Z_div_exact_full_2 in Hp; [|lia]. set (k := p / (2 * 2 ^ o)) in *.
    split; [replace p with ((2 * k) * 2 ^ o) by lia|replace (p + 2 ^ o) with ((2 * k + 1) * 2 ^ o) by lia]; apply Z_mod_mult. }
  split; [|split].
  - split; [lia|]. split; [done|]. intros x Hx. apply Hz, range_halves; auto.
  - split; [lia|]. split; [done|]. intros x Hx. apply Hz, range_halves; auto.
  - assert (buddy_of p o = p + 2 ^ o) as <-; [|apply buddy_twice]. destruct (buddy_cases p o H0 Hm) as [(_ & -> & _)|(Hx & _)]; [done|].
    exfalso. rewrite pow2_S in * by done.
    assert ((p mod (2 * 2 ^ o) - (p - 2 ^ o) mod (2 * 2 ^ o)) = 0) as E by lia.
    rewrite !Z.mod_eq in E by lia. assert (2 ^ o * (1 - 2 * (p / (2 * 2 ^ o) - (p - 2 ^ o) / (2 * 2 ^ o))) = 0) as E' by lia.
    apply Zmult_integral in E'. lia.
Qed.

(** A block that shares a page with a larger one is inside it. *)
Lemma block_nested p o q r x : 0 <= o <= r -> p mod 2 ^ o = 0 -> q mod 2 ^ r = 0 -> range p o x -> range q r x ->
  forall y, range p o y -> range q r y.
Proof.
  intros Ho Hp Hq Hx Hx' y Hy. unfold range in *. pose proof (pow2_pos o). replace r with (o + (r - o)) in * by lia.
  set (d := r - o) in *. pose proof (pow2_pos d). rewrite Z.pow_add_r in * by lia.
  apply Z_div_exact_full_2 in Hp; [|lia]. apply Z_div_exact_full_2 in Hq; [|lia].
  set (a := p / 2 ^ o) in *. set (b := q / (2 ^ o * 2 ^ d)) in *. set (w := 2 ^ o) in *. set (v := 2 ^ d) in *. clearbody a b w v. subst p q.
  assert (v * b <= a) by nia. assert (a < v * b + v) by nia. nia.
Qed.

(** Buddies below the largest order are in the same block of that order. *)
Lemma buddy_same_block p o : 0 <= o < MAX_ORDER - 1 -> buddy_of p o / pageblock_nr_pages = p / pageblock_nr_pages.
Proof.
  intros Ho. unfold buddy_of, pageblock_nr_pages, pageblock_order, MAX_ORDER in *. rewrite Z.shiftl_1_l, <- !Z.shiftr_div_pow2 by lia.
  rewrite Z.shiftr_lxor, (Z.shiftr_div_pow2 (2 ^ o)) by lia. rewrite (Z.div_small (2 ^ o)), Z.lxor_0_r; [done|].
  split; [lia|]. apply Z.pow_lt_mono_r; lia.
Qed.

Lemma block_shrink p c o : block p c -> 0 <= o <= c -> block p o.
Proof.
  intros (Hc & Hal & Hz) Ho. split; [lia|]. pose proof (pow2_pos (c - o)). pose proof (pow2_pos o). split.
  - replace c with (c - o + o) in Hal by lia. rewrite Z.pow_add_r in Hal by lia. apply Z_div_exact_full_2 in Hal; [|nia]. rewrite Hal.
    rewrite <- Z.mul_assoc, (Z.mul_comm (2 ^ o)), Z.mul_assoc. apply Z_mod_mult.
  - intros x Hx. apply Hz. unfold range in *. assert (2 ^ o <= 2 ^ c) by (apply Z.pow_le_mono_r; lia). lia.
Qed.

Lemma same_order p o q x : 0 <= o -> p mod 2 ^ o = 0 -> q mod 2 ^ o = 0 -> range p o x -> range q o x -> q = p.
Proof.
  intros Ho Hp Hq Hx Hx'. pose proof (pow2_pos o Ho). unfold range in *.
  apply Z_div_exact_full_2 in Hp; [|lia]. apply Z_div_exact_full_2 in Hq; [|lia]. set (w := 2 ^ o) in *. set (a := p / w) in *. set (b := q / w) in *.
  clearbody a b w. subst p q. assert (a = b) by nia. lia.
Qed.

(** ** What the lists hold *)

Implicit Types (L : gmap lhead (list Z)) (P : gmap Z page) (s : state).

Definition on L (h : lhead) (p : Z) : Prop := exists l, L !! h = Some l /\ p ∈ l.

(** [fblock L p o]: the block of order [o] at page [p] is free; [free_page L x]: page [x]
    is in a free block. *)
Definition fblock L (p o : Z) : Prop := exists t, on L (Free o t) p.
Definition free_page L (x : Z) : Prop := exists p o, fblock L p o /\ range p o x.

(** A page that nobody uses, as free_pages_check leaves it. *)
Definition quiet P (x : Z) : Prop := exists pg, P !! x = Some pg /\ pg_count pg = 0 /\
  pg_mapcount pg = -1 /\ pg_mapping pg = 0 /\ Z.clearbit (pg_flags pg) PG_buddy = 0.

(** All pages of the zone, and no others, carry its number; the blocks of MAX_ORDER that
    the zone reaches into have struct pages all through. *)
Record mem_map_ok P : Prop := {
  map_zone : forall x, in_zone x -> exists pg, P !! x = Some pg /\ pg_zone_id pg = zone_id zn;
  map_other : forall x pg, P !! x = Some pg -> pg_zone_id pg = zone_id zn -> in_zone x;
  map_whole : forall x y, in_zone x -> y / pageblock_nr_pages = x / pageblock_nr_pages -> is_Some (P !! y)
}.

Record lists_ok L : Prop := {
  has_free : forall o t, is_Some (L !! Free o t) <-> 0 <= o < MAX_ORDER /\ 0 <= t < MIGRATE_TYPES;
  has_pcp : is_Some (L !! Pcp);
  once : forall h l, L !! h = Some l -> NoDup l;
  one_list : forall h k p, on L h p -> on L k p -> h = k
}.

(** The structure of the free lists: every page on a list heads an aligned block of the
    zone of the list's order, is marked as such, and the blocks do not overlap; no other
    page of the zone is marked; and no two buddies of an order that could be merged are
    both free. *)
Record core L P : Prop := {
  c_map : mem_map_ok P;
  c_lists : lists_ok L;
  c_block : forall p o, fblock L p o -> block p o;
  c_mark : forall p o, fblock L p o -> exists pg, P !! p = Some pg /\ PageBuddy pg = true /\ pg_private pg = o;
  c_marked : forall p pg, in_zone p -> P !! p = Some pg -> PageBuddy pg = true -> exists o, fblock L p o;
  c_quiet : forall x, free_page L x -> quiet P x;
  c_apart : forall p o q r x, fblock L p o -> fblock L q r -> range p o x -> range q r x -> p = q;
  c_merged : forall p o, fblock L p o -> o < MAX_ORDER - 1 -> ~ fblock L (buddy_of p o) o;
  c_pcp : forall p, on L Pcp p -> in_zone p /\ ~ free_page L p /\ quiet P p
}.

Lemma on_insert L h l k q : on (<[h := l]> L) k q <-> (k = h /\ q ∈ l) \/ (k <> h /\ on L k q).
Proof.
  unfold on. destruct (decide (k = h)) as [->|Hk].
  - rewrite lookup_insert_eq. naive_solver.
  - rewrite lookup_insert_ne by done. naive_solver.
Qed.

Lemma on_list L h l p : L !! h = Some l -> p ∈ l -> on L h p.
Proof. intros. by exists l. Qed.

(** Taking a page off its list. *)
Lemma lists_ok_del L h l p : lists_ok L -> L !! h = Some l -> p ∈ l ->
  lists_ok (<[h := filter (fun q => q <> p) l]> L) /\
  forall k q, on (<[h := filter (fun q => q <> p) l]> L) k q <-> on L k q /\ q <> p.
Proof.
  intros HL Hl Hp. assert (forall k q, on (<[h := filter (fun q => q <> p) l]> L) k q <-> on L k q /\ q <> p) as Hon.
  { intros k q. rewrite on_insert, list_elem_of_filter. split.
    - intros [(-> & ? & ?)|(Hk & Hq)]; [split; [by exists l|done]|]. split; [done|]. intros ->.
      apply Hk. eapply (one_list _ HL); [done|by exists l].
    - intros [(l' & Hl' & Hq) Hne]. destruct (decide (k = h)) as [->|]; [left; by simplify_eq|right; split; [done|by exists l']]. }
  split; [|done]. split.
  - intros o t. rewrite <- (has_free _ HL). destruct (decide (h = Free o t)) as [->|]; [|by rewrite lookup_insert_ne].
    rewrite lookup_insert_eq, Hl. split; intros; eexists; done.
  - destruct (decide (h = Pcp)) as [->|]; [rewrite lookup_insert_eq; eauto|rewrite lookup_insert_ne by done; apply HL].
  - intros k l'. destruct (decide (h = k)) as [->|]; [rewrite lookup_insert_eq|rewrite lookup_insert_ne by done; apply HL].
    intros [= <-]. apply NoDup_filter, (once _ HL _ _ Hl).
  - intros k k' q Hk Hk'. apply Hon in Hk as [? _]. apply Hon in Hk' as [? _]. by eapply (one_list _ HL).
Qed.

(** Putting a page on a list. *)
Lemma lists_ok_add L h l l' p : lists_ok L -> L !! h = Some l -> (forall k, ~ on L k p) -> l' ≡ₚ p :: l ->
  lists_ok (<[h := l']> L) /\ forall k q, on (<[h := l']> L) k q <-> on L k q \/ (k = h /\ q = p).
Proof.
  intros HL Hl Hp Hperm. assert (forall k q, on (<[h := l']> L) k q <-> on L k q \/ (k = h /\ q = p)) as Hon.
  { intros k q. rewrite on_insert, Hperm, elem_of_cons. split.
    - intros [(-> & [->|?])|(Hk & Hq)]; [by right|left; by exists l|by left].
    - intros [(l'' & Hl' & Hq)|[-> ->]]; [|by auto]. destruct (decide (k = h)) as [->|]; [left; simplify_eq; auto|right; split; [done|by exists l'']]. }
  split; [|done]. split.
  - intros o t. rewrite <- (has_free _ HL). destruct (decide (h = Free o t)) as [->|]; [|by rewrite lookup_insert_ne].
    rewrite lookup_insert_eq, Hl. split; intros; eexists; done.
  - destruct (decide (h = Pcp)) as [->|]; [rewrite lookup_insert_eq; eauto|rewrite lookup_insert_ne by done; apply HL].
  - intros k l''. destruct (decide (h = k)) as [->|]; [rewrite lookup_insert_eq|rewrite lookup_insert_ne by done; apply HL].
    intros [= <-]. rewrite Hperm. apply NoDup_cons. split; [intros ?; apply (Hp k); by exists l|apply (once _ HL _ _ Hl)].
  - intros k k' q. rewrite !Hon. intros [Hk|[-> ->]] [Hk'|[-> E]]; [by eapply (one_list _ HL)|subst; by destruct (Hp k)|by destruct (Hp k')|done].
Qed.

(** ** Marks *)

Definition unmark (pg : page) : page := with_private 0 (with_flags (fun f => Z.clearbit f PG_buddy) pg).
Definition mark (o : Z) (pg : page) : page := with_flags (fun f => Z.setbit f PG_buddy) (with_private o pg).

Lemma buddy_unmark pg : PageBuddy (unmark pg) = false.
Proof. apply (Z.clearbit_eq (pg_flags pg)). Qed.

Lemma buddy_mark o pg : PageBuddy (mark o pg) = true.
Proof. by apply (Z.setbit_eq (pg_flags pg)). Qed.

Lemma clear_clear f n : Z.clearbit (Z.clearbit f n) n = Z.clearbit f n.
Proof.
  bitwise i Hi. rewrite !Z.clearbit_eqb. destruct (Z.testbit f i), (Z.eqb_spec n i); done.
Qed.

Lemma clear_set f n : 0 <= n -> Z.clearbit (Z.setbit f n) n = Z.clearbit f n.
Proof.
  intros Hn. bitwise i Hi. rewrite !Z.clearbit_eqb, Z.setbit_eqb by lia. destruct (Z.testbit f i), (Z.eqb_spec n i); done.
Qed.

(** A page out of use has no flag but the mark. *)
Lemma quiet_flag f n : Z.clearbit f PG_buddy = 0 -> n <> PG_buddy -> Z.testbit f n = false.
Proof.
  intros Hf Hn. pose proof (Z.clearbit_eqb f PG_buddy n) as E. rewrite Hf, Z.bits_0 in E.
  replace (PG_buddy =? n) with false in E by (symmetry; apply Z.eqb_neq; congruence). by rewrite andb_true_r in E.
Qed.

(** Changing the mark of one page. *)
Lemma quiet_insert P p pg pg' x : P !! p = Some pg ->
  pg_count pg' = pg_count pg -> pg_mapcount pg' = pg_mapcount pg -> pg_mapping pg' = pg_mapping pg ->
  Z.clearbit (pg_flags pg') PG_buddy = Z.clearbit (pg_flags pg) PG_buddy ->
  quiet (<[p := pg']> P) x <-> quiet P x.
Proof.
  intros Hpg Hc Hm Hk Hf. unfold quiet. destruct (decide (x = p)) as [->|]; [|by rewrite lookup_insert_ne].
  rewrite lookup_insert_eq. split.
  - intros (? & [= <-] & ?). exists pg. rewrite <- Hc, <- Hm, <- Hk, <- Hf. done.
  - intros (? & ? & ?). simplify_eq. exists pg'. rewrite Hc, Hm, Hk, Hf. done.
Qed.

Lemma quiet_unmark P p pg x : P !! p = Some pg -> quiet (<[p := unmark pg]> P) x <-> quiet P x.
Proof. intros Hpg. apply (quiet_insert _ _ pg); [done..|]. apply clear_clear. Qed.

Lemma quiet_mark P p o pg x : P !! p = Some pg -> quiet (<[p := mark o pg]> P) x <-> quiet P x.
Proof. intros Hpg. apply (quiet_insert _ _ pg); [done..|]. by apply clear_set. Qed.

Lemma map_ok_insert P p pg pg' : mem_map_ok P -> P !! p = Some pg -> pg_zone_id pg' = pg_zone_id pg -> mem_map_ok (<[p := pg']> P).
Proof.
  intros HP Hpg Hz. split.
  - intros x Hx. destruct (decide (x = p)) as [->|]; [rewrite lookup_insert_eq|rewrite lookup_insert_ne by done; by apply HP].
    exists pg'. split; [done|]. destruct (map_zone _ HP p Hx) as (? & ? & ?). simplify_eq. congruence.
  - intros x q. destruct (decide (x = p)) as [->|]; [rewrite lookup_insert_eq|rewrite lookup_insert_ne by done; by apply (map_other _ HP)].
    intros [= <-] Hq. apply (map_other _ HP p pg); [done|]. congruence.
  - intros x y Hx Hy. destruct (decide (y = p)) as [->|]; [rewrite lookup_insert_eq; eauto|].
    rewrite lookup_insert_ne by done. by apply (map_whole _ HP x).
Qed.

(** A free block is on one list and has one order. *)
Lemma fblock_order L P p o r : core L P -> fblock L p o -> fblock L p r -> o = r.
Proof.
  intros H [t Ht] [u Hu]. pose proof (one_list _ (c_lists _ _ H) _ _ _ Ht Hu). congruence.
Qed.

Lemma fblock_free L P p o x : core L P -> fblock L p o -> range p o x -> free_page L x.
Proof. intros _ ? ?. by exists p, o. Qed.

Lemma fblock_self L P p o : core L P -> fblock L p o -> free_page L p.
Proof. intros H Hb. exists p, o. split; [done|]. apply range_start. apply (c_block _ _ H) in Hb as [? _]. lia. Qed.

(** ** Taking a block out and putting one in *)

Lemma core_take L L' P p o t pg :
  core L P -> on L (Free o t) p -> P !! p = Some pg -> lists_ok L' -> (forall k q, on L' k q <-> on L k q /\ q <> p) ->
  core L' (<[p := unmark pg]> P) /\ (forall q r, fblock L' q r <-> fblock L q r /\ q <> p) /\
  (forall x, free_page L' x <-> free_page L x /\ ~ range p o x).
Proof.
  intros H Hp Hpg HL' Hon.
  assert (forall q r, fblock L' q r <-> fblock L q r /\ q <> p) as Hfb.
  { intros q r. split; [intros [u Hu]; apply Hon in Hu as [? ?]; split; [by exists u|done]|].
    intros [[u Hu] ?]. exists u. by apply Hon. }
  assert (fblock L p o) as Hb by by exists t.
  assert (forall x, free_page L' x <-> free_page L x /\ ~ range p o x) as Hfree.
  { intros x. split.
    - intros (q & r & Hq & Hx). apply Hfb in Hq as [Hq Hne]. split; [by exists q, r|]. intros Hpx. apply Hne.
      by eapply (c_apart _ _ H).
    - intros [(q & r & Hq & Hx) Hn]. exists q, r. split; [|done]. apply Hfb. split; [done|]. intros ->.
      by rewrite (fblock_order _ _ _ _ _ H Hq Hb) in Hx. }
  split; [|done]. split.
  - apply (map_ok_insert _ _ pg); [apply H|done|done].
  - done.
  - intros q r Hq. apply (c_block _ _ H). by apply Hfb.
  - intros q r Hq. apply Hfb in Hq as [Hq Hne]. rewrite lookup_insert_ne by done. by apply (c_mark _ _ H).
  - intros q qg Hz. destruct (decide (q = p)) as [->|]; [rewrite lookup_insert_eq|rewrite lookup_insert_ne by done].
    + intros [= <-]. by rewrite buddy_unmark.
    + intros Hq Hm. destruct (c_marked _ _ H q qg Hz Hq Hm) as [r ?]. exists r. by apply Hfb.
  - intros x Hx. apply quiet_unmark; [done|]. apply (c_quiet _ _ H). by apply Hfree in Hx as [? _].
  - intros q r q' r' x Hq Hq'. apply (c_apart _ _ H); [by apply Hfb in Hq as [? _]|by apply Hfb in Hq' as [? _]].
  - intros q r Hq Hr Hn. apply Hfb in Hq as [Hq _]. apply Hfb in Hn as [Hn _]. by destruct (c_merged _ _ H q r).
  - intros q Hq. apply Hon in Hq as [Hq _]. destruct (c_pcp _ _ H q Hq) as (? & Hn & ?). split; [done|]. split.
    + intros Hf. by apply Hfree in Hf as [? _].
    + by apply quiet_unmark.
Qed.

Lemma core_put L L' P p o t pg :
  core L P -> block p o -> (forall x, range p o x -> ~ free_page L x /\ quiet P x /\ ~ on L Pcp x) -> P !! p = Some pg ->
  (o = MAX_ORDER - 1 \/ ~ fblock L (buddy_of p o) o) ->
  lists_ok L' -> (forall k q, on L' k q <-> on L k q \/ (k = Free o t /\ q = p)) ->
  core L' (<[p := mark o pg]> P) /\ (forall q r, fblock L' q r <-> fblock L q r \/ (q = p /\ r = o)) /\
  (forall x, free_page L' x <-> free_page L x \/ range p o x).
Proof.
  intros H Hblk Hnew Hpg Hbud HL' Hon.
  assert (forall q r, fblock L' q r <-> fblock L q r \/ (q = p /\ r = o)) as Hfb.
  { intros q r. split; [intros [u Hu]; apply Hon in Hu as [?|[? ?]]; [left; by exists u|right; by simplify_eq]|].
    intros [[u Hu]|[-> ->]]; [exists u|exists t]; apply Hon; auto. }
  assert (forall x, free_page L' x <-> free_page L x \/ range p o x) as Hfree.
  { intros x. split.
    - intros (q & r & Hq & Hx). apply Hfb in Hq as [Hq|[-> ->]]; [left; by exists q, r|by right].
    - intros [(q & r & Hq & Hx)|Hx]; [exists q, r|exists p, o]; (split; [apply Hfb; auto|done]). }
  assert (0 <= o) as Ho by (destruct Hblk as [? _]; lia).
  assert (~ free_page L p) as Hnp by (apply Hnew, range_start; lia).
  split; [|done]. split.
  - apply (map_ok_insert _ _ pg); [apply H|done|done].
  - done.
  - intros q r Hq. apply Hfb in Hq as [Hq|[-> ->]]; [by apply (c_block _ _ H)|done].
  - intros q r Hq. destruct (decide (q = p)) as [->|]; [rewrite lookup_insert_eq|rewrite lookup_insert_ne by done].
    + apply Hfb in Hq as [Hq|[_ ->]]; [by destruct Hnp; eapply fblock_self|]. exists (mark o pg). split; [done|]. split; [apply buddy_mark|done].
    + apply Hfb in Hq as [Hq|[? _]]; [by apply (c_mark _ _ H)|done].
  - intros q qg Hz. destruct (decide (q = p)) as [->|]; [intros _ _; exists o; apply Hfb; auto|rewrite lookup_insert_ne by done].
    intros Hq Hm. destruct (c_marked _ _ H q qg Hz Hq Hm) as [r ?]. exists r. apply Hfb. auto.
  - intros x Hx. apply quiet_mark; [done|]. apply Hfree in Hx as [Hx|Hx]; [by apply (c_quiet _ _ H)|by apply Hnew].
  - intros q r q' r' x Hq Hq' Hx Hx'. apply Hfb in Hq as [Hq|[-> ->]]; apply Hfb in Hq' as [Hq'|[-> ->]].
    + by eapply (c_apart _ _ H).
    + destruct (Hnew x Hx') as [[] _]. by exists q, r.
    + destruct (Hnew x Hx) as [[] _]. by exists q', r'.
    + done.
  - intros q r Hq Hr Hn. apply Hfb in Hq as [Hq|[-> ->]]; apply Hfb in Hn as [Hn|[Hn E]].
    + by destruct (c_merged _ _ H q r).
    + subst r. destruct Hbud as [|Hbud]; [lia|]. apply Hbud. rewrite <- Hn, buddy_twice. done.
    + by destruct Hbud as [|[]]; [lia|].
    + destruct Hblk as (_ & Hal & _). pose proof (pow2_pos o Ho). destruct (buddy_cases p o Ho Hal) as [(_ & E' & _)|(_ & E' & _)]; lia.
  - intros q Hq. apply Hon in Hq as [Hq|[? _]]; [|done]. destruct (c_pcp _ _ H q Hq) as (? & Hn & ?). split; [done|]. split.
    + intros Hf. apply Hfree in Hf as [?|Hx]; [done|]. by destruct (Hnew q Hx) as (_ & _ & []).
    + by apply quiet_mark.
Qed.

(** ** Counting blocks *)

Definition len L (h : lhead) : Z := Z.of_nat (length (default [] (L !! h))).

Definition cnt L (o : Z) : Z :=
  len L (Free o 0) + len L (Free o 1) + len L (Free o 2) + len L (Free o 3) + len L (Free o 4).

(** [grew L h d L']: the list [h] is [d] longer, the others are as they were. *)
Definition grew L h (d : Z) L' : Prop :=
  len L' h = len L h + d /\ forall k, k <> h -> L' !! k = L !! k.

Lemma grew_cnt L o t d L' r : grew L (Free o t) d L' -> 0 <= t < MIGRATE_TYPES ->
  cnt L' r = cnt L r + (if r =? o then d else 0).
Proof.
  intros [Hh Hk] Ht. unfold cnt. destruct (Z.eqb_spec r o) as [->|Hr].
  - assert (forall u, u <> t -> len L' (Free o u) = len L (Free o u)) as E by (intros; unfold len; rewrite Hk; congruence).
    unfold MIGRATE_TYPES in Ht. assert (t = 0 \/ t = 1 \/ t = 2 \/ t = 3 \/ t = 4) as Hc by lia.
    destruct Hc as [->|[->|[->|[->| ->]]]]; rewrite Hh; rewrite !E by lia; lia.
  - assert (forall u, len L' (Free r u) = len L (Free r u)) as E by (intros; unfold len; rewrite Hk; congruence).
    rewrite !E. lia.
Qed.

Lemma grew_pcp_cnt L d L' r : grew L Pcp d L' -> cnt L' r = cnt L r.
Proof. intros [_ Hk]. unfold cnt, len. by rewrite !Hk. Qed.

Lemma filter_absent (p : Z) (l : list Z) : p ∉ l -> filter (fun q => q <> p) l = l.
Proof.
  induction l as [|x l IH]; intros Hp; [done|]. apply not_elem_of_cons in Hp as [? ?]. rewrite filter_cons_True by done. by rewrite IH.
Qed.

Lemma length_del (p : Z) (l : list Z) : NoDup l -> p ∈ l -> Z.of_nat (length (filter (fun q => q <> p) l)) = Z.of_nat (length l) - 1.
Proof.
  induction l as [|x l IH]; intros Hnd Hp; [by apply not_elem_of_nil in Hp|]. apply NoDup_cons in Hnd as [Hx Hnd].
  apply elem_of_cons in Hp as [->|Hp].
  - rewrite filter_cons_False by naive_solver. rewrite filter_absent by done. simpl. lia.
  - rewrite filter_cons_True by naive_solver. cbn [length]. rewrite !Nat2Z.inj_succ, IH by done. lia.
Qed.

(** ** Rules for the basic steps *)

Lemma wp_modify f (Q : unit -> state -> Prop) s : Q tt (f s) -> wp (modify f) Q s.
Proof. done. Qed.

Lemma wp_asks {A} (f : state -> A) Q s : Q (f s) s -> wp (asks f) Q s.
Proof. done. Qed.

Lemma wp_page_at p pg Q s : mem_map s !! p = Some pg -> Q pg s -> wp (page_at p) Q s.
Proof. unfold wp, page_at. by intros ->. Qed.

Lemma wp_page_update p pg f Q s : mem_map s !! p = Some pg ->
  Q tt (with_pages (insert p (f pg)) s) -> wp (page_update p f) Q s.
Proof. intros Hp HQ. apply wp_bind, (wp_page_at _ pg); [done|]. by apply wp_modify. Qed.

Lemma wp_list_at h l Q s : lists s !! h = Some l -> Q l s -> wp (list_at h) Q s.
Proof. unfold wp, list_at. by intros ->. Qed.

Lemma head_of_spec s p :
  match head_of s p with Some h => on (lists s) h p | None => forall h, ~ on (lists s) h p end.
Proof.
  unfold head_of. destruct (List.find _ _) as [[h l]|] eqn:E; simpl.
  - apply List.find_some in E as [Hin Hp]. apply list_elem_of_In, elem_of_map_to_list in Hin. exists l. split; [done|].
    by apply bool_decide_eq_true in Hp.
  - intros h (l & Hl & Hp). apply elem_of_map_to_list, list_elem_of_In in Hl.
    pose proof (List.find_none _ _ E _ Hl) as Hn. simpl in Hn. by apply bool_decide_eq_false in Hn.
Qed.

Lemma head_of_on s h p : lists_ok (lists s) -> on (lists s) h p -> head_of s p = Some h.
Proof.
  intros HL Hp. pose proof (head_of_spec s p) as E. destruct (head_of s p) as [k|]; [|by destruct (E h)].
  f_equal. by eapply (one_list _ HL).
Qed.

Lemma head_of_off s p : (forall h, ~ on (lists s) h p) -> head_of s p = None.
Proof. intros Hp. pose proof (head_of_spec s p) as E. destruct (head_of s p) as [k|]; [by destruct (Hp k)|done]. Qed.

Lemma wp_list_del h p (Q : unit -> state -> Prop) s :
  lists_ok (lists s) -> on (lists s) h p ->
  (forall L', lists_ok L' -> (forall k q, on L' k q <-> on (lists s) k q /\ q <> p) -> grew (lists s) h (-1) L' ->
     L' !! h = (filter (fun q => q <> p)) <$> lists s !! h -> Q tt (with_lists (fun _ => L') s)) ->
  wp (page_list_del p) Q s.
Proof.
  intros HL Hp HQ. apply wp_bind, wp_asks. rewrite (head_of_on s h p) by done. destruct Hp as (l & Hl & Hp).
  apply wp_bind, (wp_list_at _ l); [done|]. apply wp_modify.
  destruct (lists_ok_del _ _ _ _ HL Hl Hp) as [HL' Hon].
  apply HQ; [done|done| |].
  - split.
    + unfold len. rewrite lookup_insert_eq, Hl. simpl. rewrite length_del; [lia|by eapply (once _ HL)|done].
    + intros k Hk. by rewrite lookup_insert_ne.
  - by rewrite lookup_insert_eq, Hl.
Qed.

Lemma wp_list_add_head h p (Q : unit -> state -> Prop) s :
  lists_ok (lists s) -> is_Some (lists s !! h) -> (forall k, ~ on (lists s) k p) ->
  (forall L', lists_ok L' -> (forall k q, on L' k q <-> on (lists s) k q \/ (k = h /\ q = p)) -> grew (lists s) h 1 L' ->
     L' !! h = cons p <$> lists s !! h -> Q tt (with_lists (fun _ => L') s)) ->
  wp (page_list_add p (Head h)) Q s.
Proof.
  intros HL [l Hl] Hp HQ. apply wp_bind, wp_asks. rewrite head_of_off by done.
  apply wp_bind, (wp_list_at _ l); [done|]. apply wp_modify.
  destruct (lists_ok_add _ _ _ (p :: l) p HL Hl Hp) as [HL' Hon]; [done|].
  apply HQ; [done|done| |by rewrite lookup_insert_eq, Hl]. split; [|intros k Hk; by rewrite lookup_insert_ne].
  unfold len. rewrite lookup_insert_eq, Hl. simpl. lia.
Qed.

(** Pages that head no block and wait on no list of the processor are on no list. *)
Lemma on_none L p : (forall o, ~ fblock L p o) -> ~ on L Pcp p -> forall k, ~ on L k p.
Proof. intros Hf Hp [o t|] Hk; [|done]. apply (Hf o). by exists t. Qed.

(** ** The counters *)

Definition nr_ok (N : gmap Z Z) L : Prop := forall o, 0 <= o < MAX_ORDER -> N !! o = Some (u32 (cnt L o)).

Lemma nr_ok_step N L L' o d : nr_ok N L -> 0 <= o < MAX_ORDER ->
  (forall r, cnt L' r = cnt L r + (if r =? o then d else 0)) -> nr_ok (<[o := u32 (u32 (cnt L o) + d)]> N) L'.
Proof.
  intros HN Ho Hc r Hr. rewrite Hc. destruct (Z.eqb_spec r o) as [->|].
  - rewrite lookup_insert_eq. f_equal. apply wrap_add_l.
  - rewrite lookup_insert_ne by done. rewrite Z.add_0_r. by apply HN.
Qed.

Lemma wp_add_nr_free o d n (Q : unit -> state -> Prop) s : nr_free s !! o = Some n ->
  Q tt (with_nr_free (insert o (u32 (n + d))) s) -> wp (add_nr_free o d) Q s.
Proof. unfold wp, add_nr_free. by intros ->. Qed.

(** The number of free pages. *)
Fixpoint total_below (n : nat) L : Z :=
  match n with
  | O => 0
  | S n => total_below n L + cnt L (Z.of_nat n) * 2 ^ Z.of_nat n
  end.
Definition total L : Z := total_below (Z.to_nat MAX_ORDER) L.

Lemma total_below_step n L L' o d : 0 <= o -> (forall r, cnt L' r = cnt L r + (if r =? o then d else 0)) ->
  total_below n L' = total_below n L + (if o <? Z.of_nat n then d * 2 ^ o else 0).
Proof.
  intros Ho Hc. induction n as [|n IH]; [by replace (o <? Z.of_nat 0) with false by lia|].
  cbn [total_below]. rewrite IH, Hc. destruct (Z.eqb_spec (Z.of_nat n) o) as [E|E].
  - rewrite E. replace (o <? o) with false by lia. replace (o <? Z.of_nat (S n)) with true by lia. lia.
  - destruct (Z.ltb_spec o (Z.of_nat n)), (Z.ltb_spec o (Z.of_nat (S n))); lia.
Qed.

Lemma total_step L L' o d : 0 <= o < MAX_ORDER -> (forall r, cnt L' r = cnt L r + (if r =? o then d else 0)) ->
  total L' = total L + d * 2 ^ o.
Proof.
  intros Ho Hc. unfold total. rewrite (total_below_step _ L L' o d) by (done || lia). rewrite Z2Nat.id by done.
  by replace (o <? MAX_ORDER) with true by lia.
Qed.

Lemma s32_add a b : s32 (s32 a + s32 b) = s32 (a + b).
Proof.
  rewrite <- (swrap_wrap 32 (s32 a + s32 b)), <- (swrap_wrap 32 (a + b)) by lia. f_equal.
  rewrite <- wrap_add_l, wrap_swrap, <- wrap_add_r, wrap_swrap, wrap_add_l. apply wrap_add_r.
Qed.

(** ** Free pages in transit

    While a block is merged or cut, some pages are neither free nor handed out.
    [pending F T s0 s R n]: the pages of [F], [T] of them, are those of the free lists of
    [s] and the [n] pages of [R], which are in transit; nothing else has changed since
    [s0]. *)
Definition misc s : bool * Z * Z * bool := (all_unreclaimable s, pages_scanned s, pcp_count s, tainted s).

Record pending (F : Z -> Prop) (T : Z) s0 s (R : Z -> Prop) (n : Z) : Prop := {
  pn_core : core (lists s) (mem_map s);
  pn_held : forall x, R x -> ~ free_page (lists s) x /\ quiet (mem_map s) x /\ ~ on (lists s) Pcp x;
  pn_same : forall x, F x <-> free_page (lists s) x \/ R x;
  pn_total : T = total (lists s) + n;
  pn_pages : forall x, ~ F x -> mem_map s !! x = mem_map s0 !! x;
  pn_pcp : lists s !! Pcp = lists s0 !! Pcp;
  pn_misc : misc s = misc s0
}.

Lemma pending_equiv F T s0 s R R' n n' : pending F T s0 s R n -> (forall x, R x <-> R' x) -> n = n' -> pending F T s0 s R' n'.
Proof.
  intros [] HR ->. split; try done.
  - intros x Hx. apply pn_held0. by apply HR.
  - intros x. rewrite <- HR. done.
Qed.

Lemma free_zone L P x : core L P -> free_page L x -> in_zone x.
Proof. intros H (p & o & Hp & Hx). apply (c_block _ _ H) in Hp as (_ & _ & Hz). auto. Qed.

Lemma order_bounds p o : block p o -> 0 <= o < MAX_ORDER /\ 0 <= o /\ 0 < 2 ^ o.
Proof. intros [? _]. split; [done|]. split; [lia|]. apply pow2_pos. lia. Qed.

Lemma pending_take F T s0 s s' R n p o t pg L' :
  pending F T s0 s R n -> on (lists s) (Free o t) p -> mem_map s !! p = Some pg ->
  lists_ok L' -> (forall k q, on L' k q <-> on (lists s) k q /\ q <> p) -> grew (lists s) (Free o t) (-1) L' ->
  lists s' = L' -> mem_map s' = <[p := unmark pg]> (mem_map s) -> misc s' = misc s ->
  pending F T s0 s' (fun x => R x \/ range p o x) (n + 2 ^ o).
Proof.
  intros HP Hon Hpg HL' Hon' Hgrew EL EP EM. pose proof (pn_core _ _ _ _ _ _ HP) as H.
  assert (fblock (lists s) p o) as Hb by by exists t. pose proof (c_block _ _ H _ _ Hb) as Hblk.
  destruct (order_bounds p o Hblk) as (Ho & ? & ?).
  destruct (core_take _ L' _ p o t pg H Hon Hpg HL' Hon') as (H' & _ & Hfree).
  assert (0 <= t < MIGRATE_TYPES) as Ht.
  { destruct Hon as (l & Hl & _). eapply (has_free _ (c_lists _ _ H) o t). eauto. }
  subst L'. split.
  - by rewrite EP.
  - intros x. rewrite EP. intros [Hx|Hx].
    + destruct (pn_held _ _ _ _ _ _ HP x Hx) as (Hn & Hq & Hc). split; [intros Hf; by apply Hfree in Hf as [? _]|].
      split; [by apply quiet_unmark|]. intros Hc'. by apply Hon' in Hc' as [? _].
    + assert (free_page (lists s) x) as Hf by (by exists p, o). split; [intros Hf'; by apply Hfree in Hf' as [_ ?]|].
      split; [apply quiet_unmark; [done|by apply (c_quiet _ _ H)]|]. intros Hc. apply Hon' in Hc as [Hc _].
      by destruct (c_pcp _ _ H x Hc) as (_ & ? & _).
  - intros x. rewrite (pn_same _ _ _ _ _ _ HP), Hfree. split; [|intros [[? _]|[?|?]]; [by left|by right|left; by exists p, o]].
    intros [Hf|?]; [|auto]. destruct (decide (p <= x < p + 2 ^ o)); [right; right; done|left; done].
  - rewrite (pn_total _ _ _ _ _ _ HP). rewrite (total_step (lists s) (lists s') o (-1)); [lia|lia|].
    intros r. by apply (grew_cnt _ _ t).
  - intros x Hx. rewrite EP, lookup_insert_ne; [by apply (pn_pages _ _ _ _ _ _ HP)|]. intros <-. apply Hx, (pn_same _ _ _ _ _ _ HP).
    left. by eapply fblock_self.
  - destruct Hgrew as [_ Hk]. rewrite Hk by done. apply HP.
  - rewrite EM. apply HP.
Qed.

Lemma pending_put F T s0 s s' R n p o t pg L' :
  pending F T s0 s R n -> block p o -> (forall x, range p o x -> R x) -> 0 <= t < MIGRATE_TYPES -> mem_map s !! p = Some pg ->
  (o = MAX_ORDER - 1 \/ ~ fblock (lists s) (buddy_of p o) o) ->
  lists_ok L' -> (forall k q, on L' k q <-> on (lists s) k q \/ (k = Free o t /\ q = p)) -> grew (lists s) (Free o t) 1 L' ->
  lists s' = L' -> mem_map s' = <[p := mark o pg]> (mem_map s) -> misc s' = misc s ->
  pending F T s0 s' (fun x => R x /\ ~ range p o x) (n - 2 ^ o).
Proof.
  intros HP Hblk HR Ht Hpg Hbud HL' Hon' Hgrew EL EP EM. pose proof (pn_core _ _ _ _ _ _ HP) as H.
  destruct (order_bounds p o Hblk) as (Ho & ? & ?).
  destruct (core_put _ L' _ p o t pg H Hblk) as (H' & _ & Hfree); try done.
  { intros x Hx. by apply (pn_held _ _ _ _ _ _ HP), HR. }
  subst L'. split.
  - by rewrite EP.
  - intros x [Hx Hn]. rewrite EP. destruct (pn_held _ _ _ _ _ _ HP x Hx) as (Hf & Hq & Hc).
    split; [intros Hf'; by apply Hfree in Hf' as [?|?]|]. split; [by apply quiet_mark|].
    intros Hc'. by apply Hon' in Hc' as [?|[? _]].
  - intros x. rewrite (pn_same _ _ _ _ _ _ HP), Hfree. split; [|intros [[?|?]|[? _]]; [by left|right; auto|by right]].
    intros [Hf|Hx]; [by auto|]. destruct (decide (p <= x < p + 2 ^ o)); [left; right; done|right; done].
  - rewrite (pn_total _ _ _ _ _ _ HP). rewrite (total_step (lists s) (lists s') o 1); [lia|lia|].
    intros r. by apply (grew_cnt _ _ t).
  - intros x Hx. rewrite EP, lookup_insert_ne; [by apply (pn_pages _ _ _ _ _ _ HP)|]. intros <-. apply Hx, (pn_same _ _ _ _ _ _ HP).
    right. by apply HR, range_start.
  - destruct Hgrew as [_ Hk]. rewrite Hk by done. apply HP.
  - rewrite EM. apply HP.
Qed.

(** ** Marking *)

Lemma wp_rmv_page_order p pg (Q : unit -> state -> Prop) s : mem_map s !! p = Some pg ->
  Q tt (with_pages (insert p (unmark pg)) s) -> wp (rmv_page_order p) Q s.
Proof.
  intros Hp HQ. apply wp_bind, (wp_page_update _ pg); [done|]. eapply wp_page_update; [apply lookup_insert_eq|].
  unfold with_pages. cbn [mem_map lists nr_free vm_stat bits all_unreclaimable pages_scanned pcp_count tainted].
  rewrite insert_insert_eq. exact HQ.
Qed.

Lemma wp_set_page_order p pg o (Q : unit -> state -> Prop) s : mem_map s !! p = Some pg ->
  Q tt (with_pages (insert p (mark o pg)) s) -> wp (set_page_order p o) Q s.
Proof.
  intros Hp HQ. apply wp_bind, (wp_page_update _ pg); [done|]. eapply wp_page_update; [apply lookup_insert_eq|].
  unfold with_pages. cbn [mem_map lists nr_free vm_stat bits all_unreclaimable pages_scanned pcp_count tainted].
  rewrite insert_insert_eq. exact HQ.
Qed.

(** Vm_stat and the bitmap stay as they are. *)
Definition keeps s s' : Prop := vm_stat s' = vm_stat s /\ bits s' = bits s.

Lemma pending_off F T s0 s R n p : pending F T s0 s R n -> R p -> forall k, ~ on (lists s) k p.
Proof.
  intros HP HR. destruct (pn_held _ _ _ _ _ _ HP p HR) as (Hn & _ & Hc). apply on_none; [|done].
  intros o Ho. apply Hn. by eapply fblock_self; [apply HP|].
Qed.

Lemma pending_page F T s0 s R n p : pending F T s0 s R n -> R p -> exists pg, mem_map s !! p = Some pg.
Proof. intros HP HR. destruct (pn_held _ _ _ _ _ _ HP p HR) as (_ & (pg & ? & _) & _). eauto. Qed.

(** [expand] gives the upper halves of the block back. *)
Lemma wp_expand F T s0 s p low high t (Q : unit -> state -> Prop) :
  pending F T s0 s (range p high) (2 ^ high) -> nr_ok (nr_free s) (lists s) -> block p high -> 0 <= low <= high -> 0 <= t < MIGRATE_TYPES ->
  (forall s', pending F T s0 s' (range p low) (2 ^ low) -> nr_ok (nr_free s') (lists s') -> keeps s s' -> Q tt s') ->
  wp (expand p low high high t) Q s.
Proof.
  intros HP HN Hb Hlow Ht HQ. unfold expand.
  apply (wp_loop (fun '(a, h, z) s' => a = h /\ z = Z.shiftl 1 h /\ low <= h /\ block p h /\
      pending F T s0 s' (range p h) (2 ^ h) /\ nr_ok (nr_free s') (lists s') /\ keeps s s')
    (fun '(a, h, z) => Z.to_nat (h - low))); [by destruct Hlow|simpl; lia|].
  clear HP HN Hb. intros [[a h] z] s1 (-> & -> & Hh & Hb & HP & HN & Hk). destruct (Z.ltb_spec low h) as [Hlt|].
  2: { apply wp_ret. replace h with low in * by lia. by apply HQ. }
  cbv zeta. replace (Z.shiftr (Z.shiftl 1 h) 1) with (2 ^ (h - 1))
    by (rewrite Z.shiftl_1_l, Z.shiftr_div_pow2, <- Z.pow_sub_r by lia; done).
  replace h with (h - 1 + 1) in Hb, HP by lia. set (h' := h - 1) in *. set (q := p + 2 ^ h').
  destruct (half_block p h' Hb) as (Hb1 & Hb2 & Hbud); [lia|]. destruct (order_bounds _ _ Hb2) as (Hh' & Hh0 & Hpow).
  assert (forall x, range q h' x -> range p (h' + 1) x) as Hsub by (intros; apply range_halves; [lia|by right]).
  assert (range p (h' + 1) q) as Hq by (apply Hsub, range_start; lia).
  destruct (pending_page _ _ _ _ _ _ _ HP Hq) as [pg Hpg]. pose proof (pn_core _ _ _ _ _ _ HP) as H.
  apply wp_bind, wp_list_add_head; [apply H|by apply (has_free _ (c_lists _ _ H))|by eapply pending_off|]. intros L' HL' Hon' Hg _.
  apply wp_bind. eapply wp_add_nr_free; [by apply HN|]. apply wp_bind. apply (wp_set_page_order _ pg); [done|].
  apply wp_ret. split; [|lia]. split; [done|]. split; [by rewrite Z.shiftl_1_l|]. split; [lia|]. split; [done|]. split.
  - eapply pending_equiv; [eapply (pending_put F T s0 s1 _ _ _ q h' t pg L'); [exact HP|..]; try done|..].
    + right. unfold q. rewrite Hbud. intros Hf. destruct (pn_held _ _ _ _ _ _ HP p) as [[] _]; [apply range_start; lia|by eapply fblock_self].
    + intros x. cbv beta. rewrite range_halves by lia. unfold q, range. lia.
    + rewrite pow2_S by lia. lia.
  - split; [|done]. apply (nr_ok_step _ (lists s1)); [done|done|]. intros r. by apply (grew_cnt _ _ t).
Qed.

(** The loop of [__free_one_page] merges the block with all the buddies it can. *)
Lemma wp_merge F T s0 s p o (Q : Z * Z -> state -> Prop) :
  pending F T s0 s (range p o) (2 ^ o) -> nr_ok (nr_free s) (lists s) -> block p o ->
  (forall q r s', pending F T s0 s' (range q r) (2 ^ r) -> nr_ok (nr_free s') (lists s') -> keeps s s' -> block q r ->
     (r = MAX_ORDER - 1 \/ ~ fblock (lists s') (buddy_of q r) r) -> Q (q, r) s') ->
  wp (merge p o) Q s.
Proof.
  intros HP HN Hb HQ. unfold merge.
  apply (wp_loop (fun '(q, i, r) s' => cut_idx q i /\ block q r /\
      pending F T s0 s' (range q r) (2 ^ r) /\ nr_ok (nr_free s') (lists s') /\ keeps s s')
    (fun '(q, i, r) => Z.to_nat (MAX_ORDER - r))); [done|simpl; lia|].
  clear p o HP HN Hb. intros [[p i] o] s1 (Hi & Hb & HP & HN & Hk). destruct (Z.ltb_spec o (MAX_ORDER - 1)) as [Hlt|].
  2: { apply wp_ret. apply HQ; try done. left. destruct Hb as [? _]. lia. }
  cbv zeta. destruct (order_bounds _ _ Hb) as (Ho & Ho0 & Hpow). rewrite find_buddy by done. set (b := buddy_of p o).
  pose proof (pn_core _ _ _ _ _ _ HP) as H. assert (range p o p) as Hp by (apply range_start; lia).
  assert (in_zone p) as Hpz by (by apply Hb).
  destruct (map_zone _ (c_map _ _ H) p Hpz) as (pg & Hpg & Hid).
  destruct (map_whole _ (c_map _ _ H) p b Hpz) as [bg Hbg]; [by apply buddy_same_block|].
  apply wp_bind. unfold page_is_buddy. apply wp_bind, (wp_page_at _ bg); [done|]. apply wp_bind, (wp_page_at _ pg); [done|].
  assert (~ fblock (lists s1) b o -> wp (break (p, o)) (fun r m' =>
    match r with
    | inl (q, i, r) => (cut_idx q i /\ block q r /\ pending F T s0 m' (range q r) (2 ^ r) /\ nr_ok (nr_free m') (lists m') /\ keeps s m') /\
        (Z.to_nat (MAX_ORDER - r) < Z.to_nat (MAX_ORDER - o))%nat
    | inr x => Q x m' end) s1) as Hstop.
  { intros Hn. apply wp_ret. apply HQ; try done. by right. }
  destruct (Z.eqb_spec (pg_zone_id pg) (pg_zone_id bg)) as [Ez|Ez]; cbn [negb].
  2: { apply wp_ret. apply Hstop. intros Hf. apply Ez. rewrite Hid. apply (c_block _ _ H) in Hf as (_ & _ & Hz).
       destruct (map_zone _ (c_map _ _ H) b) as (? & ? & ?); [apply Hz, range_start; lia|]. by simplify_eq. }
  destruct (PageBuddy bg && (pg_private bg =? o)) eqn:Em.
  2: { apply wp_ret. apply Hstop. intros Hf. destruct (c_mark _ _ H b o Hf) as (? & ? & E1 & E2). simplify_eq.
       by rewrite E1, Z.eqb_refl in Em. }
  apply andb_true_iff in Em as [Em Eo]. apply Z.eqb_eq in Eo.
  assert (in_zone b) as Hbz by (apply (map_other _ (c_map _ _ H) b bg); [done|congruence]).
  destruct (c_marked _ _ H b bg Hbz Hbg Em) as [r Hfb]. assert (r = o) as ->.
  { destruct (c_mark _ _ H b r Hfb) as (? & ? & _ & ?). by simplify_eq. }
  destruct (c_quiet _ _ H b) as (? & Hbg' & Hcount & _ & _ & Hflags); [by eapply fblock_self|]. simplify_eq.
  assert (PageTail bg = false) as Htail by by apply quiet_flag.
  apply wp_bind. unfold page_count. apply wp_bind, (wp_page_at _ bg); [done|]. rewrite Htail. apply wp_ret.
  apply wp_bind, wp_BUG_ON; [by rewrite Hcount|]. apply wp_ret. cbn [negb].
  destruct Hfb as [t Hon]. apply wp_bind. apply (wp_list_del (Free (pg_private bg) t)); [apply H|done|]. intros L' HL' Hon' Hg _.
  apply wp_bind. eapply wp_add_nr_free; [by apply HN|]. apply wp_bind, (wp_rmv_page_order _ bg); [done|].
  apply wp_ret. set (o := pg_private bg) in *.
  destruct (find_combined p i o Ho Hi) as [-> Hi']. split; [|unfold MAX_ORDER in *; lia]. split; [done|].
  assert (fblock (lists s1) b o) as Hfb by by exists t.
  split; [apply combined_block; [done|by apply (c_block _ _ H)|lia]|]. split; [|split; [|done]].
  - eapply pending_equiv; [eapply (pending_take F T s0 s1 _ _ _ b o t bg L'); [exact HP|..]; done|..].
    + intros x. cbv beta. rewrite combined_range; [done|lia|apply Hb].
    + rewrite pow2_S by lia. lia.
  - apply (nr_ok_step _ (lists s1)); [done|done|]. intros r. apply (grew_cnt _ _ t); [done|].
    destruct Hon as (l & Hl & _). eapply (has_free _ (c_lists _ _ H) o t). eauto.
Qed.

(** ** The migrate types of the page blocks *)

(** The number whose bits below [n] are [f]. *)
Fixpoint gather (n : nat) (f : Z -> bool) : Z :=
  match n with
  | O => 0
  | S n => gather n f + Z.b2z (f (Z.of_nat n)) * 2 ^ Z.of_nat n
  end.

Lemma gather_fits n f : fits (Z.of_nat n) (gather n f).
Proof.
  unfold fits. induction n as [|n IH]; [simpl; lia|]. cbn [gather]. rewrite Nat2Z.inj_succ, Z.pow_succ_r by lia.
  destruct (f (Z.of_nat n)); simpl Z.b2z; lia.
Qed.

Lemma gather_ext n f g : (forall i, 0 <= i < Z.of_nat n -> f i = g i) -> gather n f = gather n g.
Proof.
  induction n as [|n IH]; intros E; [done|]. cbn [gather]. rewrite IH, E; [done|lia|]. intros i Hi. apply E. lia.
Qed.

Lemma gather_testbit n v : gather n (Z.testbit v) = wrap (Z.of_nat n) v.
Proof.
  induction n as [|n IH]; [unfold wrap; by rewrite Z.mod_1_r|]. cbn [gather]. rewrite IH. unfold wrap.
  rewrite Nat2Z.inj_succ. set (k := Z.of_nat n). assert (0 <= k) by lia. pose proof (pow2_pos k) as Hp.
  rewrite Z.pow_succ_r by lia. rewrite (Z.mul_comm 2 (2 ^ k)), Z.rem_mul_r by lia. f_equal.
  rewrite <- Z.shiftr_div_pow2 by lia. rewrite <- Z.bit0_mod, Z.shiftr_spec by lia. simpl. rewrite Z.mul_comm. f_equal.
Qed.

Lemma lor_next n f : Z.lor (gather n f) (2 ^ Z.of_nat n) = gather n f + 2 ^ Z.of_nat n.
Proof.
  assert (Z.land (gather n f) (2 ^ Z.of_nat n) = 0) as E.
  { bitwise i Hi. rewrite testbit_pow2 by lia. destruct (Z.eqb_spec i (Z.of_nat n)) as [->|]; [|apply andb_false_r].
    by rewrite (fits_testbit_high (Z.of_nat n)) by (lia || apply gather_fits). }
  rewrite Z.add_nocarry_lxor by done. symmetry. by apply Z.lxor_lor.
Qed.

Lemma wp_on_bits {A} (c : M A) (Q : A -> state -> Prop) s :
  wp c (fun a m => Q a (with_bits m s)) (bits s) -> wp (on_bits c) Q s.
Proof. unfold wp, on_bits. by destruct (c (bits s)) as [[a m]|]. Qed.

Lemma with_bits_id s : with_bits (bits s) s = s.
Proof. by destruct s. Qed.

(** The bit [i] of the group of page [p]. *)
Definition block_bit (m : mem) (p i : Z) : bool := bit m (pageblock_flags zn) (pfn_to_bitidx p + i).

(** The longs that hold the bits of the zone's blocks. *)
Definition bitmap_mapped (m : mem) : Prop := exists n, longs m (pageblock_flags zn) n /\
  forall x, in_zone x -> (pfn_to_bitidx x + PB_migrate_end) / 32 < n.

Lemma bitidx_nonneg p : 0 <= pfn_to_bitidx p.
Proof.
  unfold pfn_to_bitidx, NR_PAGEBLOCK_BITS. apply Z.mul_nonneg_nonneg; [|done]. apply Z.shiftr_nonneg. apply (wrap_fits 32). lia.
Qed.

Lemma wp_get_flags s p lo hi (Q : Z -> state -> Prop) :
  bitmap_mapped (bits s) -> in_zone p -> 0 <= lo -> hi <= PB_migrate_end -> lo <= hi + 1 ->
  Q (gather (Z.to_nat (hi + 1 - lo)) (fun i => block_bit (bits s) p (lo + i))) s ->
  wp (get_pageblock_flags_group p lo hi) Q s.
Proof.
  intros (n & Hl & Hn) Hp Hlo Hhi Hle HQ. unfold get_pageblock_flags_group. cbv zeta. pose proof (bitidx_nonneg p) as Hidx.
  specialize (Hn p Hp).
  apply (wp_loop (fun '(k, v, f) s' => s' = s /\ lo <= k <= hi + 1 /\ v = u32 (2 ^ (k - lo)) /\
      f = gather (Z.to_nat (k - lo)) (fun i => block_bit (bits s) p (lo + i)))
    (fun '(k, v, f) => Z.to_nat (hi + 1 - k))); [|simpl; lia|].
  { split; [done|]. split; [lia|]. rewrite Z.sub_diag. done. }
  intros [[k v] f] s' (-> & Hk & -> & ->). destruct (Z.leb_spec k hi).
  2: { apply wp_ret. replace k with (hi + 1) by lia. done. }
  assert ((pfn_to_bitidx p + k) / 32 < n) as Hw by (refine (Z.le_lt_trans _ _ _ _ Hn); apply Z.div_le_mono; lia).
  apply wp_bind, wp_on_bits. eapply wp_det; [apply (test_bit_ok _ _ n); [done|lia|done]|]. rewrite with_bits_id.
  apply wp_ret. split; [|lia]. split; [done|]. split; [lia|]. unfold PB_migrate_end, PB_migrate in Hhi.
  assert (2 ^ (k - lo) < 2 ^ 32) as H32 by (apply Z.pow_lt_mono_r; lia).
  assert (0 < 2 ^ (k - lo)) by (apply pow2_pos; lia).
  rewrite (wrap_id 32 (2 ^ (k - lo))) by (unfold fits; lia). split.
  - f_equal. rewrite Z.shiftl_mul_pow2, Z.mul_comm, <- Z.pow_add_r by lia. f_equal. lia.
  - replace (Z.to_nat (k + 1 - lo)) with (S (Z.to_nat (k - lo))) by lia. cbn [gather].
    rewrite Z2Nat.id by lia. replace (lo + (k - lo)) with k by lia. fold (block_bit (bits s) p k).
    destruct (block_bit (bits s) p k); cbn [Z.b2z Z.eqb]; [|rewrite Z.mul_0_l, Z.add_0_r; done].
    pose proof (lor_next (Z.to_nat (k - lo)) (fun i => block_bit (bits s) p (lo + i))) as E. rewrite Z2Nat.id in E by lia. rewrite E. lia.
Qed.

Lemma wp_set_flags s p flags lo hi (Q : unit -> state -> Prop) :
  bitmap_mapped (bits s) -> in_zone p -> 0 <= lo -> hi <= PB_migrate_end -> lo <= hi + 1 ->
  (forall m, bitmap_mapped m ->
     (forall i, 0 <= i -> bit m (pageblock_flags zn) i =
        if (pfn_to_bitidx p + lo <=? i) && (i <=? pfn_to_bitidx p + hi) then Z.testbit flags (i - (pfn_to_bitidx p + lo))
        else bit (bits s) (pageblock_flags zn) i) -> Q tt (with_bits m s)) ->
  wp (set_pageblock_flags_group p flags lo hi) Q s.
Proof.
  intros (n & Hl & Hz) Hp Hlo Hhi Hle HQ. unfold set_pageblock_flags_group. cbv zeta. pose proof (bitidx_nonneg p) as Hidx.
  pose proof (Hz p Hp) as Hn. set (b := pfn_to_bitidx p) in *.
  apply (wp_loop (fun '(k, v) s' => exists m, s' = with_bits m s /\ lo <= k <= hi + 1 /\ v = u32 (2 ^ (k - lo)) /\
      longs m (pageblock_flags zn) n /\
      forall i, 0 <= i -> bit m (pageblock_flags zn) i =
        if (b + lo <=? i) && (i <? b + k) then Z.testbit flags (i - (b + lo)) else bit (bits s) (pageblock_flags zn) i)
    (fun '(k, v) => Z.to_nat (hi + 1 - k))); [|simpl; lia|].
  { exists (bits s). rewrite with_bits_id. split; [done|]. split; [lia|]. split; [by rewrite Z.sub_diag|]. split; [done|].
    intros i Hi. by replace ((b + lo <=? i) && (i <? b + lo)) with false by lia. }
  intros [k v] s' (m & -> & Hk & -> & Hm & Hbits). destruct (Z.leb_spec k hi).
  2: { apply wp_ret. apply HQ; [by exists n|]. intros i Hi. rewrite Hbits by done. replace k with (hi + 1) by lia.
       by replace (i <? b + (hi + 1)) with (i <=? b + hi) by lia. }
  assert ((b + k) / 32 < n) as Hw by (refine (Z.le_lt_trans _ _ _ _ Hn); apply Z.div_le_mono; lia).
  unfold PB_migrate_end, PB_migrate in Hhi. assert (2 ^ (k - lo) < 2 ^ 32) as H32 by (apply Z.pow_lt_mono_r; lia).
  assert (0 < 2 ^ (k - lo)) by (apply pow2_pos; lia). rewrite (wrap_id 32 (2 ^ (k - lo))) by (unfold fits; lia).
  assert ((Z.land flags (2 ^ (k - lo)) =? 0) = negb (Z.testbit flags (k - lo))) as E by (apply land_pow2_test; lia).
  apply wp_bind, wp_on_bits. cbn [bits with_bits].
  assert (wp (if Z.land flags (2 ^ (k - lo)) =? 0 then __clear_bit (b + k) (pageblock_flags zn) else __set_bit (b + k) (pageblock_flags zn))
    (fun _ m' => longs m' (pageblock_flags zn) n /\ forall i, 0 <= i -> bit m' (pageblock_flags zn) i =
       if i =? b + k then Z.testbit flags (k - lo) else bit m (pageblock_flags zn) i) m) as Hstep.
  { rewrite E. destruct (Z.testbit flags (k - lo)); cbn [negb].
    - eapply wp_mono; [apply (wp_set_bit m _ n); [done|lia|done]|]. intros ? m' (Hb & _ & Hk'). split; [by apply Hk'|].
      intros i Hi. rewrite Hb by done. by destruct (i =? b + k).
    - eapply wp_mono; [apply (wp_clear_bit m _ n); [done|lia|done]|]. intros ? m' (Hb & _ & Hk'). split; [by apply Hk'|].
      intros i Hi. rewrite Hb by done. by destruct (i =? b + k). }
  eapply wp_mono; [exact Hstep|]. intros [] m' [Hm' Hb']. apply wp_ret. split; [|lia]. exists m'. split; [done|].
  split; [lia|]. split. { f_equal. rewrite Z.shiftl_mul_pow2, Z.mul_comm, <- Z.pow_add_r by lia. f_equal. lia. }
  split; [done|]. intros i Hi. rewrite Hb' by done. destruct (Z.eqb_spec i (b + k)) as [->|].
  - replace (b + lo <=? b + k) with true by lia. replace (b + k <? b + (k + 1)) with true by lia. simpl. f_equal. lia.
  - rewrite Hbits by done. by replace (i <? b + (k + 1)) with (i <? b + k) by lia.
Qed.

(** The migrate type of the block of page [p]. *)
Definition mtype (m : mem) (p : Z) : Z := gather 3 (block_bit m p).

Definition bitmap_ok (m : mem) : Prop := bitmap_mapped m /\ forall x, in_zone x -> mtype m x < MIGRATE_TYPES.

Definition ptype s (p : Z) : Z := if page_group_by_mobility_disabled zn then MIGRATE_UNMOVABLE else mtype (bits s) p.

Lemma ptype_range s p : bitmap_ok (bits s) -> in_zone p -> 0 <= ptype s p < MIGRATE_TYPES.
Proof.
  intros [_ H] Hp. unfold ptype. destruct (page_group_by_mobility_disabled zn); [done|]. split; [apply gather_fits|by apply H].
Qed.

Lemma wp_get_migratetype s p (Q : Z -> state -> Prop) :
  bitmap_ok (bits s) -> in_zone p -> Q (ptype s p) s -> wp (get_pageblock_migratetype p) Q s.
Proof.
  intros [Hm _] Hp HQ. unfold get_pageblock_migratetype, ptype in *. destruct (page_group_by_mobility_disabled zn); [by apply wp_ret|].
  by apply wp_get_flags.
Qed.

(** Two pages are in the same block of the bitmap or their groups are apart. *)
Lemma bitidx_apart p q i : pfn_to_bitidx p <> pfn_to_bitidx q -> 0 <= i <= PB_migrate_end ->
  ~ (pfn_to_bitidx q <= pfn_to_bitidx p + i <= pfn_to_bitidx q + PB_migrate_end).
Proof.
  unfold pfn_to_bitidx. change NR_PAGEBLOCK_BITS with 3. change PB_migrate_end with 2. intros H Hi.
  set (a := Z.shiftr (u32 (p - zone_start_pfn zn)) pageblock_order) in *.
  set (b := Z.shiftr (u32 (q - zone_start_pfn zn)) pageblock_order) in *. clearbody a b. lia.
Qed.

Lemma wp_set_migratetype s p t (Q : unit -> state -> Prop) :
  bitmap_ok (bits s) -> in_zone p -> 0 <= t < MIGRATE_TYPES ->
  (forall m, bitmap_ok m ->
     (forall x, mtype m x = if pfn_to_bitidx x =? pfn_to_bitidx p then t else mtype (bits s) x) -> Q tt (with_bits m s)) ->
  wp (set_pageblock_migratetype p t) Q s.
Proof.
  intros [Hm Hty] Hp Ht HQ. apply wp_set_flags; [done|done|done|done|done|]. intros m Hm' Hb.
  assert (forall x, mtype m x = if pfn_to_bitidx x =? pfn_to_bitidx p then t else mtype (bits s) x) as E.
  { intros x. unfold mtype. pose proof (bitidx_nonneg x) as H0. destruct (Z.eqb_spec (pfn_to_bitidx x) (pfn_to_bitidx p)) as [Ex|Ex].
    - transitivity (gather 3 (Z.testbit t)); [|rewrite gather_testbit; apply wrap_id; unfold fits, MIGRATE_TYPES in *; simpl; lia].
      apply gather_ext. intros i Hi. unfold block_bit. rewrite Hb by lia. rewrite Ex. change PB_migrate with 0. change PB_migrate_end with 2.
      replace (pfn_to_bitidx p + 0 <=? pfn_to_bitidx p + i) with true by lia.
      replace (pfn_to_bitidx p + i <=? pfn_to_bitidx p + 2) with true by lia. cbn [andb].
      rewrite wrap_id by (unfold fits, MIGRATE_TYPES in *; simpl; lia). f_equal. lia.
    - apply gather_ext. intros i Hi. unfold block_bit. rewrite Hb by lia.
      pose proof (bitidx_apart x p i Ex) as Ha. change PB_migrate with 0. change PB_migrate_end with 2 in *.
      destruct (Z.leb_spec (pfn_to_bitidx p + 0) (pfn_to_bitidx x + i)), (Z.leb_spec (pfn_to_bitidx x + i) (pfn_to_bitidx p + 2)); try done.
      exfalso. apply Ha; lia. }
  apply HQ; [|done]. split; [done|]. intros x Hx. rewrite E. destruct (_ =? _); [lia|by apply Hty].
Qed.

(** ** The invariant of a zone *)

Record inv s : Prop := {
  i_core : core (lists s) (mem_map s);
  i_nr : nr_ok (nr_free s) (lists s);
  i_vm : vm_stat s = s32 (total (lists s));
  i_bits : bitmap_ok (bits s)
}.

(** Only pages of [F] have been touched, and none on the processor's list. *)
Definition within (F : Z -> Prop) s s' : Prop :=
  (forall x, ~ F x -> mem_map s' !! x = mem_map s !! x) /\ lists s' !! Pcp = lists s !! Pcp /\ misc s' = misc s.

(** The block of order [o] at [p] can be given to the free lists. *)
Definition releasable s (p o : Z) : Prop :=
  block p o /\ forall x, range p o x -> ~ free_page (lists s) x /\ quiet (mem_map s) x /\ ~ on (lists s) Pcp x.

Record freed s (p o : Z) s' : Prop := {
  fr_inv : inv s';
  fr_free : forall x, free_page (lists s') x <-> free_page (lists s) x \/ range p o x;
  fr_total : total (lists s') = total (lists s) + 2 ^ o;
  fr_within : within (fun x => free_page (lists s) x \/ range p o x) s s';
  fr_bits : bits s' = bits s
}.

Record allocated s (p o : Z) s' : Prop := {
  al_inv : inv s';
  al_block : block p o;
  al_was : forall x, range p o x -> free_page (lists s) x;
  al_quiet : forall x, range p o x -> quiet (mem_map s') x;
  al_free : forall x, free_page (lists s') x <-> free_page (lists s) x /\ ~ range p o x;
  al_total : total (lists s') = total (lists s) - 2 ^ o;
  al_within : within (free_page (lists s)) s s'
}.

Lemma compound_none pg : Z.clearbit (pg_flags pg) PG_buddy = 0 -> PageCompound pg = false.
Proof.
  intros H. unfold PageCompound. apply negb_false_iff, Z.eqb_eq. rewrite !Z.shiftl_1_l, Z.land_lor_distr_r.
  assert (forall n, 0 <= n -> n <> PG_buddy -> Z.land (pg_flags pg) (2 ^ n) = 0) as E.
  { intros n Hn Hne. apply Z.eqb_eq. rewrite land_pow2_test, quiet_flag by done. done. }
  by rewrite !E.
Qed.

Lemma wp_free_one_page s p o : inv s -> releasable s p o -> wp (__free_one_page p o) (fun _ s' => freed s p o s') s.
Proof.
  intros [H HN Hvm Hbits] [Hb Hp]. destruct (order_bounds p o Hb) as (Ho & Ho0 & Hpow).
  assert (range p o p) as Hpp by by apply range_start. assert (in_zone p) as Hz by by apply Hb.
  unfold __free_one_page. apply wp_bind, wp_get_migratetype; [done|done|]. pose proof (ptype_range s p Hbits Hz) as Ht.
  set (t := ptype s p) in *. clearbody t.
  destruct (Hp p Hpp) as (_ & (pg & Hpg & _ & _ & _ & Hfl) & _). apply wp_bind, (wp_page_at _ pg); [done|].
  rewrite compound_none by done. apply wp_bind, wp_ret. cbn [negb Z.eqb]. apply wp_bind, wp_modify.
  set (s1 := with_vm_stat _ s). apply wp_bind.
  apply (wp_merge (fun x => free_page (lists s) x \/ range p o x) (total (lists s) + 2 ^ o) s); [|done|done|].
  { split; try done. }
  intros q r s2 HP HN2 [Hvm2 Hbits2] Hbq Hbud. destruct (order_bounds q r Hbq) as (Hr & Hr0 & Hpowr).
  assert (range q r q) as Hqq by by apply range_start. destruct (pending_page _ _ _ _ _ _ _ HP Hqq) as [qg Hqg].
  pose proof (pn_core _ _ _ _ _ _ HP) as H2.
  apply wp_bind, (wp_set_page_order _ qg); [done|]. apply wp_bind, wp_list_add_head;
    [apply H2|by apply (has_free _ (c_lists _ _ H2))|exact (pending_off _ _ _ _ _ _ _ HP Hqq)|]. intros L' HL' Hon' Hg _.
  eapply wp_add_nr_free; [by apply HN2|]. set (s3 := with_nr_free _ _).
  assert (pending (fun x => free_page (lists s) x \/ range p o x) (total (lists s) + 2 ^ o) s s3 (fun _ => False) 0) as HP3.
  { eapply pending_equiv; [eapply (pending_put _ _ _ s2 s3 _ _ q r t qg L'); [exact HP|..]; done|..]; [|lia]. intros x. tauto. }
  split; [split| | | |].
  - apply HP3.
  - apply (nr_ok_step _ (lists s2)); [done|done|]. intros r'. by apply (grew_cnt _ _ t).
  - change (vm_stat s2 = s32 (total L')). rewrite Hvm2. unfold s1. cbn [vm_stat with_vm_stat].
    rewrite Hvm, s32_add, Z.shiftl_1_l, (pn_total _ _ _ _ _ _ HP3). f_equal. apply Z.add_0_r.
  - change (bitmap_ok (bits s2)). by rewrite Hbits2.
  - intros x. pose proof (pn_same _ _ _ _ _ _ HP3 x). tauto.
  - pose proof (pn_total _ _ _ _ _ _ HP3). lia.
  - split; [apply HP3|]. split; [apply HP3|apply HP3].
  - change (bits s2 = bits s). by rewrite Hbits2.
Qed.

(** ** Allocation *)

Lemma pending_start s : core (lists s) (mem_map s) -> pending (free_page (lists s)) (total (lists s)) s s (fun _ => False) 0.
Proof. intros H. split; try done; [tauto|lia]. Qed.

(** A block in transit is allocated when the counters have caught up with it. *)
Lemma pending_allocated s s' p o :
  pending (free_page (lists s)) (total (lists s)) s s' (range p o) (2 ^ o) -> block p o -> nr_ok (nr_free s') (lists s') ->
  vm_stat s' = s32 (total (lists s) - 2 ^ o) -> bitmap_ok (bits s') -> allocated s p o s'.
Proof.
  intros HP Hb HN Hvm Hbits. pose proof (pn_total _ _ _ _ _ _ HP) as HT.
  assert (total (lists s') = total (lists s) - 2 ^ o) as ET by lia. split.
  - split; [apply HP|done|by rewrite ET|done].
  - done.
  - intros x Hx. apply (pn_same _ _ _ _ _ _ HP). by right.
  - intros x Hx. by apply (pn_held _ _ _ _ _ _ HP).
  - intros x. rewrite (pn_same _ _ _ _ _ _ HP x). split; [|tauto]. intros Hf. split; [by left|]. intros Hx.
    by destruct (pn_held _ _ _ _ _ _ HP x Hx) as (? & _).
  - done.
  - split; [apply HP|]. split; [apply HP|apply HP].
Qed.

Definition nothing s (o t : Z) : Prop := forall p, ~ on (lists s) (Free o t) p.

Lemma wp_page_list_empty h l (Q : bool -> state -> Prop) s : lists s !! h = Some l ->
  (l = [] -> Q true s) -> (forall p k, l = p :: k -> Q false s) -> wp (page_list_empty h) Q s.
Proof.
  intros Hl H1 H2. apply wp_bind, (wp_list_at _ l); [done|]. apply wp_ret. destruct l as [|p k].
  - rewrite bool_decide_true by done. auto.
  - rewrite bool_decide_false by done. by apply (H2 p k).
Qed.

Lemma wp_page_list_first h p k (Q : Z -> state -> Prop) s : lists s !! h = Some (p :: k) -> Q p s -> wp (page_list_first h) Q s.
Proof. intros Hl HQ. apply wp_bind, (wp_list_at _ (p :: k)); [done|]. by apply wp_ret. Qed.

Lemma nothing_nil s o t : lists s !! Free o t = Some [] -> nothing s o t.
Proof. intros H p (l & Hl & Hp). simplify_eq. by apply not_elem_of_nil in Hp. Qed.

(** The first block of the first list that is not empty, from the order asked for on. *)
Definition smallest s (o t p : Z) : Prop := exists c l, o <= c < MAX_ORDER /\ lists s !! Free c t = Some (p :: l) /\
  forall c', o <= c' < c -> nothing s c' t.

Lemma wp_rmqueue_smallest s o t : inv s -> 0 <= o < MAX_ORDER -> 0 <= t < MIGRATE_TYPES ->
  wp (__rmqueue_smallest o t) (fun r s' =>
    match r with
    | None => s' = s /\ forall c, o <= c < MAX_ORDER -> nothing s c t
    | Some p => allocated s p o s' /\ smallest s o t p /\ bits s' = bits s
    end) s.
Proof.
  intros Hi Ho Ht. pose proof (i_core _ Hi) as H. unfold __rmqueue_smallest.
  apply (wp_for (fun c s' => s' = s /\ forall c', o <= c' < c -> nothing s c' t)); [lia|split; [done|lia]| |done].
  intros c s' Hc [-> Hno]. destruct (has_free _ (c_lists _ _ H) c t) as [_ Hs]. destruct Hs as [l Hl]; [lia|].
  apply wp_bind, (wp_page_list_empty _ l); [done| |].
  { intros ->. apply wp_ret. split; [done|]. intros c' Hc'. destruct (decide (c' = c)) as [->|]; [by apply nothing_nil|apply Hno; lia]. }
  intros p k ->. cbn match. apply wp_bind, (wp_page_list_first _ p k); [done|].
  assert (on (lists s) (Free c t) p) as Hon by (eapply on_list; [done|by apply elem_of_cons; left]).
  assert (fblock (lists s) p c) as Hfb by by exists t. pose proof (c_block _ _ H _ _ Hfb) as Hb.
  destruct (c_mark _ _ H _ _ Hfb) as (pg & Hpg & _ & _). destruct (order_bounds _ _ Hb) as (Hc' & Hc0 & Hpow).
  apply wp_bind, (wp_list_del (Free c t)); [apply H|done|]. intros L' HL' Hon' Hg _.
  apply wp_bind, (wp_rmv_page_order _ pg); [done|]. apply wp_bind. eapply wp_add_nr_free; [by apply (i_nr _ Hi)|].
  apply wp_bind, wp_modify. set (s1 := with_vm_stat _ _). apply wp_bind.
  apply (wp_expand (free_page (lists s)) (total (lists s)) s); [| |done|lia|done|].
  - eapply pending_equiv; [eapply (pending_take _ _ s s s1 _ _ p c t pg L'); [by apply pending_start|..]; done|..]; [|done].
    intros x. tauto.
  - apply (nr_ok_step _ (lists s)); [apply Hi|done|]. intros r. by apply (grew_cnt _ _ t).
  - intros s2 HP HN [Hvm Hbits]. apply wp_ret. split; [|split; [|by rewrite Hbits]].
    + apply pending_allocated; [done| |done| |rewrite Hbits; apply Hi].
      * apply (block_shrink p c); [done|lia].
      * rewrite Hvm. unfold s1. cbn [vm_stat with_vm_stat with_nr_free with_pages with_lists]. rewrite (i_vm _ Hi), s32_add, Z.shiftl_1_l. by rewrite Z.add_opp_r.
    + exists c, k. split; [lia|]. done.
Qed.

(** ** Moving blocks between the lists of an order *)

(** The blocks that start in [lo, hi) have come to the lists of type [mt]. *)
Record regrouped L (lo hi mt : Z) L' : Prop := {
  rg_lists : lists_ok L';
  rg_on : forall o t q, on L' (Free o t) q <->
    if bool_decide (lo <= q < hi) then t = mt /\ fblock L q o else on L (Free o t) q;
  rg_cnt : forall r, cnt L' r = cnt L r;
  rg_pcp : L' !! Pcp = L !! Pcp
}.

Lemma regrouped_refl L lo mt : lists_ok L -> regrouped L lo lo mt L.
Proof. intros. split; try done. intros o t q. by rewrite bool_decide_false by lia. Qed.

Lemma regrouped_fblock L lo hi mt L' q o : regrouped L lo hi mt L' -> fblock L' q o <-> fblock L q o.
Proof.
  intros H. split.
  - intros [t Ht]. apply (rg_on _ _ _ _ _ H) in Ht. case_bool_decide; [by destruct Ht|by exists t].
  - intros Hf. destruct (decide (lo <= q < hi)) as [Hq|Hq].
    + exists mt. apply (rg_on _ _ _ _ _ H). by rewrite bool_decide_true.
    + destruct Hf as [t Ht]. exists t. apply (rg_on _ _ _ _ _ H). by rewrite bool_decide_false.
Qed.

Lemma regrouped_free L lo hi mt L' x : regrouped L lo hi mt L' -> free_page L' x <-> free_page L x.
Proof. intros H. unfold free_page. by setoid_rewrite (regrouped_fblock _ _ _ _ _ _ _ H). Qed.

Lemma regrouped_core L P lo hi mt L' : core L P -> regrouped L lo hi mt L' -> core L' P.
Proof.
  intros H HR. assert (forall q o, fblock L' q o <-> fblock L q o) as Hfb by (intros; by eapply regrouped_fblock).
  assert (forall x, free_page L' x <-> free_page L x) as Hfree by (intros; by eapply regrouped_free). split.
  - apply H.
  - apply HR.
  - intros p o Hp. by apply (c_block _ _ H), Hfb.
  - intros p o Hp. by apply (c_mark _ _ H), Hfb.
  - intros p pg Hz Hpg Hm. destruct (c_marked _ _ H p pg Hz Hpg Hm) as [o Ho]. exists o. by apply Hfb.
  - intros x Hx. by apply (c_quiet _ _ H), Hfree.
  - intros p o q r x Hp Hq. apply (c_apart _ _ H); by apply Hfb.
  - intros p o Hp Ho Hn. apply (c_merged _ _ H p o); [by apply Hfb|done|by apply Hfb].
  - intros p Hp. unfold on in Hp. rewrite (rg_pcp _ _ _ _ _ HR) in Hp. destruct (c_pcp _ _ H p Hp) as (? & Hn & ?).
    split; [done|]. split; [|done]. by rewrite Hfree.
Qed.

Lemma regrouped_total L lo hi mt L' : regrouped L lo hi mt L' -> total L' = total L.
Proof.
  intros H. rewrite (total_step L L' 0 0); [lia|done|]. intros r. rewrite (rg_cnt _ _ _ _ _ H). destruct (_ =? _); lia.
Qed.

(** A page that heads no block is passed over. *)
Lemma regrouped_skip L lo x mt L' : regrouped L lo x mt L' -> (forall o, ~ fblock L x o) -> regrouped L lo (x + 1) mt L'.
Proof.
  intros H Hx. split; try apply H. intros o t q. rewrite (rg_on _ _ _ _ _ H). destruct (decide (q = x)) as [->|].
  - rewrite bool_decide_false by lia. split; [intros Ht; destruct (Hx o); by exists t|]. case_bool_decide; [intros [_ Hf]; by destruct (Hx o)|done].
  - rewrite (bool_decide_ext (lo <= q < x + 1) (lo <= q < x)) by lia. done.
Qed.

(** A block is moved, and with it all its pages are passed. *)
Lemma regrouped_move L P lo x o t mt L1 L2 L3 :
  core L P -> regrouped L lo x mt L1 -> lo <= x -> on L1 (Free o t) x -> 0 <= mt < MIGRATE_TYPES ->
  (forall k q, on L2 k q <-> on L1 k q /\ q <> x) -> grew L1 (Free o t) (-1) L2 ->
  lists_ok L3 -> (forall k q, on L3 k q <-> on L2 k q \/ (k = Free o mt /\ q = x)) -> grew L2 (Free o mt) 1 L3 ->
  regrouped L lo (x + 2 ^ o) mt L3.
Proof.
  intros H H1 Hlo Hon Hmt Hon2 Hg2 HL3 Hon3 Hg3. assert (fblock L x o) as Hb by (apply (regrouped_fblock _ _ _ _ _ _ _ H1); by exists t).
  destruct (order_bounds x o (c_block _ _ H _ _ Hb)) as (Ho & Ho0 & Hpow). split.
  - done.
  - intros r u q. rewrite Hon3, Hon2, (rg_on _ _ _ _ _ H1). destruct (decide (q = x)) as [->|Hq].
    + rewrite (bool_decide_true (lo <= x < x + 2 ^ o)) by lia. split.
      * intros [[_ ?]|[E _]]; [done|]. by simplify_eq.
      * intros [-> Hr]. right. by rewrite (fblock_order _ _ _ _ _ H Hr Hb).
    + assert (fblock L q r -> ~ (x <= q < x + 2 ^ o)) as Hin.
      { intros Hr Hx. apply Hq. symmetry. eapply (c_apart _ _ H x o q r q); [done|done|done|]. apply range_start.
        apply (c_block _ _ H) in Hr as [? _]. lia. }
      destruct (decide (lo <= q < x)) as [Hlt|Hlt].
      * rewrite !bool_decide_true by lia. naive_solver.
      * rewrite (bool_decide_false (lo <= q < x)) by done. case_bool_decide as Hx.
        -- split; [intros [[Hu _]|[_ ?]]; [|done]|intros [_ Hu]]; exfalso; eapply Hin; try lia; [by exists u|done].
        -- naive_solver.
  - intros r. rewrite (grew_cnt _ _ _ _ _ r Hg3) by done. rewrite (grew_cnt _ _ _ _ _ r Hg2), (rg_cnt _ _ _ _ _ H1); [destruct (r =? o); lia|].
    destruct Hon as (l & Hl & _). eapply (has_free _ (rg_lists _ _ _ _ _ H1) o t). eauto.
  - destruct Hg2 as [_ E2], Hg3 as [_ E3]. rewrite E3, E2 by done. apply H1.
Qed.

Lemma wp_move_freepages s lo hi mt (Q : Z -> state -> Prop) :
  core (lists s) (mem_map s) -> 0 <= mt < MIGRATE_TYPES -> lo <= hi -> (forall x, lo <= x <= hi -> in_zone x) ->
  (forall L' n e, regrouped (lists s) lo e mt L' -> hi < e -> Q n (with_lists (fun _ => L') s)) ->
  wp (move_freepages lo hi mt) Q s.
Proof.
  intros H Hmt Hle Hz HQ. destruct (map_zone _ (c_map _ _ H) lo) as (lg & Hlg & El); [apply Hz; lia|].
  destruct (map_zone _ (c_map _ _ H) hi) as (hg & Hhg & Eh); [apply Hz; lia|]. unfold move_freepages.
  apply wp_bind, (wp_page_at _ lg); [done|]. apply wp_bind, (wp_page_at _ hg); [done|].
  apply wp_bind, wp_BUG_ON; [by rewrite El, Eh, Z.eqb_refl|].
  apply (wp_loop (fun '(x, n) s' => exists L', s' = with_lists (fun _ => L') s /\ lo <= x /\ regrouped (lists s) lo x mt L')
    (fun '(x, n) => Z.to_nat (hi + 1 - x))); [|simpl; lia|].
  { exists (lists s). split; [by destruct s|]. split; [lia|]. apply regrouped_refl, H. }
  intros [x n] s' (L1 & -> & Hlx & HR). destruct (Z.leb_spec x hi).
  2: { apply wp_ret. by apply (HQ L1 n x). }
  assert (in_zone x) as Hxz by (apply Hz; lia). destruct (map_zone _ (c_map _ _ H) x Hxz) as (pg & Hpg & _).
  apply wp_bind, (wp_page_at _ pg); [done|]. destruct (PageBuddy pg) eqn:Eb; cbn [negb].
  2: { apply wp_ret. split; [|lia]. exists L1. split; [done|]. split; [lia|]. apply regrouped_skip; [done|]. intros o Ho.
       destruct (c_mark _ _ H _ _ Ho) as (? & ? & ? & _). simplify_eq. congruence. }
  destruct (c_marked _ _ H x pg Hxz Hpg Eb) as [o Hb]. assert (pg_private pg = o) as ->.
  { destruct (c_mark _ _ H x o Hb) as (? & ? & _ & ?). by simplify_eq. }
  destruct (order_bounds x o (c_block _ _ H _ _ Hb)) as (Ho & Ho0 & Hpow).
  assert (fblock L1 x o) as [t Ht] by (by apply (regrouped_fblock _ _ _ _ _ _ _ HR)).
  apply wp_bind, (wp_list_del (Free o t)); [apply HR|done|]. intros L2 HL2 Hon2 Hg2 _.
  apply wp_bind, wp_list_add_head; [done|by apply (has_free _ HL2)|by intros k Hk; apply Hon2 in Hk as [_ ?]|].
  intros L3 HL3 Hon3 Hg3 _. apply wp_ret. rewrite Z.shiftl_1_l. split; [|lia]. exists L3. split; [done|]. split; [lia|].
  by eapply (regrouped_move _ (mem_map s) _ _ _ t _ L1 L2 L3).
Qed.

(** The limits of the block of pages that [move_freepages_block] takes. *)
Definition block_first (p : Z) : Z := p / pageblock_nr_pages * pageblock_nr_pages.
Definition block_last (p : Z) : Z := block_first p + pageblock_nr_pages - 1.

Lemma block_first_land p : Z.land p (Z.lnot (pageblock_nr_pages - 1)) = block_first p.
Proof.
  unfold block_first, pageblock_nr_pages, pageblock_order, MAX_ORDER. change (Z.shiftl 1 (11 - 1) - 1) with (Z.ones 10).
  change (Z.shiftl 1 (11 - 1)) with (2 ^ 10). rewrite <- Z.ldiff_land, Z.ldiff_ones_r by lia.
  by rewrite Z.shiftl_mul_pow2, Z.shiftr_div_pow2 by lia.
Qed.

Lemma block_first_bounds p : block_first p <= p <= block_last p.
Proof.
  unfold block_last, block_first. change pageblock_nr_pages with 1024. pose proof (Z.div_mod p 1024). pose proof (Z.mod_pos_bound p 1024). lia.
Qed.

Lemma wp_move_freepages_block s p mt (Q : Z -> state -> Prop) :
  core (lists s) (mem_map s) -> 0 <= mt < MIGRATE_TYPES -> in_zone p ->
  (zone_start_pfn zn + spanned_pages zn <= block_last p -> Q 0 s) ->
  (forall L' n e lo, block_last p < zone_start_pfn zn + spanned_pages zn -> lo = (if block_first p <? zone_start_pfn zn then p else block_first p) ->
     regrouped (lists s) lo e mt L' -> block_last p < e -> Q n (with_lists (fun _ => L') s)) ->
  wp (move_freepages_block p mt) Q s.
Proof.
  intros H Hmt Hz H0 H1. unfold move_freepages_block. cbv zeta. rewrite block_first_land. fold (block_last p).
  pose proof (block_first_bounds p) as Hb.
  destruct (Z.leb_spec (zone_start_pfn zn + spanned_pages zn) (block_last p)) as [Hlast|Hlast]; [by apply wp_ret, H0|].
  assert (forall x, (if block_first p <? zone_start_pfn zn then p else block_first p) <= x <= block_last p -> in_zone x) as Hin.
  { unfold in_zone in *. intros x. destruct (Z.ltb_spec (block_first p) (zone_start_pfn zn)); lia. }
  apply wp_move_freepages; [done|done|destruct (_ <? _); lia|done|]. intros L' n e HR He. by eapply H1.
Qed.

(** What [steal] may do before it takes the block off its list. *)
Definition reorganised s s' (start : Z) : Prop := exists L' m lo e,
  regrouped (lists s) lo e start L' /\ bitmap_ok m /\ s' = with_bits m (with_lists (fun _ => L') s).

Lemma wp_steal s o start c t p k : inv s -> 0 <= o <= c -> c < MAX_ORDER -> 0 <= start < MIGRATE_TYPES -> 0 <= t < MIGRATE_TYPES ->
  lists s !! Free c t = Some (p :: k) -> wp (steal o start c t) (fun q s' => q = p /\ allocated s p o s') s.
Proof.
  intros Hi Ho Hc Hst Ht Hl. pose proof (i_core _ Hi) as H. unfold steal.
  apply wp_bind, (wp_page_list_first _ p k); [done|].
  assert (fblock (lists s) p c) as Hfb by (exists t; eapply on_list; [done|by apply elem_of_cons; left]).
  pose proof (c_block _ _ H _ _ Hfb) as Hb. assert (in_zone p) as Hz by (apply Hb, range_start; lia).
  apply wp_bind. eapply wp_add_nr_free; [apply (i_nr _ Hi); lia|]. set (s1 := with_nr_free _ s).
  apply wp_bind. apply (wp_mono _ (fun t' s2 => 0 <= t' < MIGRATE_TYPES /\ reorganised s1 s2 start)).
  { destruct ((_ <=? _) || _).
    2: { apply wp_ret. split; [done|]. exists (lists s), (bits s), 0, 0. split; [apply regrouped_refl, H|]. split; [apply Hi|by destruct s]. }
    assert (forall n s2 lo e L', regrouped (lists s) lo e start L' -> s2 = with_lists (fun _ => L') s1 ->
      wp ((if Z.shiftl 1 (pageblock_order - 1) <=? n then set_pageblock_migratetype p start else mret tt) ;; mret start)
        (fun t' s2 => 0 <= t' < MIGRATE_TYPES /\ reorganised s1 s2 start) s2) as Hn.
    { intros n s2 lo e L' HR ->. apply wp_bind, wp_if; intros _.
      - apply wp_set_migratetype; [apply Hi|done|done|]. intros m Hm _. apply wp_ret. split; [done|]. by exists L', m, lo, e.
      - apply wp_ret, wp_ret. split; [done|]. exists L', (bits s), lo, e. split; [done|]. split; [apply Hi|done]. }
    apply wp_bind, wp_move_freepages_block; [done|done|done| |].
    - intros _. apply (Hn _ _ 0 0 (lists s)); [apply regrouped_refl, H|by destruct s].
    - intros L' n e lo _ _ HR _. by eapply Hn. }
  intros t' s2 [Ht' (L1 & m & lo & e & HR & Hm & ->)]. cbn [lists with_nr_free s1] in HR.
  pose proof (regrouped_core _ _ _ _ _ _ H HR) as H1.
  assert (fblock L1 p c) as [u Hon] by (by apply (regrouped_fblock _ _ _ _ _ _ _ HR)).
  destruct (c_mark _ _ H _ _ Hfb) as (pg & Hpg & _ & _).
  apply wp_bind, (wp_list_del (Free c u)); [apply H1|done|]. intros L2 HL2 Hon2 Hg2 _.
  apply wp_bind, (wp_rmv_page_order _ pg); [done|]. apply wp_bind, wp_modify. set (s3 := with_vm_stat _ _).
  assert (pending (free_page (lists s)) (total (lists s)) s s3 (range p c) (2 ^ c)) as HP3.
  { set (sm := with_lists (fun _ => L1) s).
    assert (pending (free_page (lists s)) (total (lists s)) s sm (fun _ => False) 0) as HP.
    { split; try done.
      - intros x. rewrite <- (regrouped_free _ _ _ _ _ x HR). tauto.
      - rewrite Z.add_0_r. symmetry. by apply (regrouped_total _ _ _ _ _ HR).
      - apply HR. }
    eapply pending_equiv; [eapply (pending_take _ _ s sm s3 _ _ p c u pg L2); [exact HP|..]; done|..]; [|done]. intros x. tauto. }
  assert (nr_ok (nr_free s3) (lists s3)) as HN3.
  { apply (nr_ok_step (nr_free s) (lists s) L2); [apply Hi|lia|]. intros r. rewrite (grew_cnt _ _ _ _ _ r Hg2), (rg_cnt _ _ _ _ _ HR); [done|].
    destruct Hon as (l & Hl' & _). eapply (has_free _ (c_lists _ _ H1) c u). eauto. }
  apply wp_bind. apply (wp_mono _ (fun _ s4 => exists m, bitmap_ok m /\ s4 = with_bits m s3)).
  { apply wp_if; intros _; [apply wp_set_migratetype; [done|done|done|]; intros m' Hm' _; by exists m'|].
    apply wp_ret. exists m. split; [done|]. done. }
  intros [] s4 (m' & Hm' & ->). apply wp_bind.
  apply (wp_expand (free_page (lists s)) (total (lists s)) s); [|done|done|lia|done|].
  { destruct HP3. by split. }
  intros s5 HP HN [Hvm Hbits]. apply wp_ret. split; [done|].
  apply pending_allocated; [done|by apply (block_shrink p c)|done| |by rewrite Hbits].
  rewrite Hvm. unfold s3, s1. cbn [vm_stat with_vm_stat with_nr_free with_pages with_lists with_bits].
  rewrite (i_vm _ Hi), s32_add, Z.shiftl_1_l. by rewrite Z.add_opp_r.
Qed.

Definition fallback_type (start i : Z) : Z := default 0 (fallbacks !! Z.to_nat start ≫= lookup (Z.to_nat i)).

Lemma wp_fallback s start i (Q : Z -> state -> Prop) : 0 <= start < MIGRATE_TYPES -> 0 <= i < MIGRATE_TYPES - 1 ->
  (0 <= fallback_type start i < MIGRATE_TYPES -> Q (fallback_type start i) s) -> wp (fallback start i) Q s.
Proof.
  unfold MIGRATE_TYPES. intros Hs Hi HQ.
  assert (exists t, fallbacks !! Z.to_nat start ≫= lookup (Z.to_nat i) = Some t /\ 0 <= t < 5) as (t & E & Ht).
  { assert (start = 0 \/ start = 1 \/ start = 2 \/ start = 3 \/ start = 4) as Cs by lia.
    assert (i = 0 \/ i = 1 \/ i = 2 \/ i = 3) as Ci by lia.
    destruct Cs as [->|[->|[->|[->| ->]]]], Ci as [->|[->|[->| ->]]]; eexists; (split; [reflexivity|done]). }
  unfold fallback, fallback_type in *. rewrite E in *. apply wp_ret. by apply HQ.
Qed.

(** No list that [__rmqueue_fallback] looks at holds a block of order [c]. *)
Definition exhausted s (start c : Z) : Prop :=
  forall i, 0 <= i < MIGRATE_TYPES - 1 -> fallback_type start i <> MIGRATE_RESERVE -> nothing s c (fallback_type start i).

Lemma wp_rmqueue_fallback s o start : inv s -> 0 <= o < MAX_ORDER -> 0 <= start < MIGRATE_TYPES ->
  wp (__rmqueue_fallback o start) (fun r s' =>
    match r with
    | None => s' = s /\ forall c, o <= c < MAX_ORDER -> exhausted s start c /\ nothing s c MIGRATE_RESERVE
    | Some p => allocated s p o s'
    end) s.
Proof.
  intros Hi Ho Hst. unfold __rmqueue_fallback. pose proof (i_core _ Hi) as H. apply wp_bind.
  apply (wp_mono _ (fun r s' => match r with
    | None => s' = s /\ forall c, o <= c < MAX_ORDER -> exhausted s start c
    | Some p => allocated s p o s' end)).
  2: { intros [p|] s' Hr; [by apply wp_ret|]. destruct Hr as [-> Hex].
       eapply wp_mono; [by apply wp_rmqueue_smallest|]. intros [p|] s'; [by intros [? _]|]. intros [-> Hno]. split; [done|]. auto. }
  apply (wp_loop (fun c s' => s' = s /\ o - 1 <= c < MAX_ORDER /\ forall c', c < c' < MAX_ORDER -> exhausted s start c')
    (fun c => Z.to_nat (c + 1 - o))); [|unfold MAX_ORDER in *; lia|].
  { split; [done|]. split; [unfold MAX_ORDER in *; lia|]. intros c' Hc'. lia. }
  intros c s' (-> & Hc & Hex). destruct (Z.leb_spec o c).
  2: { apply wp_ret. split; [done|]. intros c' Hc'. apply Hex. lia. }
  apply wp_bind.
  apply (wp_for (fun i s' => s' = s /\ forall j, 0 <= j < i -> fallback_type start j <> MIGRATE_RESERVE -> nothing s c (fallback_type start j)));
    [done|split; [done|lia]| |].
  2: { intros s' [-> Hex']. apply wp_ret. split; [|lia]. split; [done|]. split; [lia|].
       intros c' Hc'. destruct (decide (c' = c)) as [->|]; [done|apply Hex; lia]. }
  intros i s' Hir [-> Hex']. apply wp_bind, wp_fallback; [done|done|]. intros Ht.
  assert ((fallback_type start i <> MIGRATE_RESERVE -> nothing s c (fallback_type start i)) ->
    wp (mret None) (fun (r : option Z) s' => match r with
      | Some x => wp (break (Some x)) (fun (r : Z + option Z) m' => match r with
          | inl s' => (m' = s /\ o - 1 <= s' < MAX_ORDER /\ forall c', s' < c' < MAX_ORDER -> exhausted s start c') /\
              (Z.to_nat (s' + 1 - o) < Z.to_nat (c + 1 - o))%nat
          | inr x0 => match x0 with Some p => allocated s p o m' | None => m' = s /\ forall c, o <= c < MAX_ORDER -> exhausted s start c end
          end) s'
      | None => s' = s /\ forall j, 0 <= j < i + 1 -> fallback_type start j <> MIGRATE_RESERVE -> nothing s c (fallback_type start j)
      end) s) as Hnext.
  { intros Hno. apply wp_ret. split; [done|]. intros j Hj. destruct (decide (j = i)) as [->|]; [done|apply Hex'; lia]. }
  destruct (Z.eqb_spec (fallback_type start i) MIGRATE_RESERVE) as [Er|Er]; [by apply Hnext|].
  destruct (has_free _ (c_lists _ _ H) c (fallback_type start i)) as [_ Hs]. destruct Hs as [l Hl]; [lia|].
  apply wp_bind, (wp_page_list_empty _ l); [done| |].
  { intros ->. apply Hnext. intros _. by apply nothing_nil. }
  intros p k ->. cbn match. apply wp_bind. eapply wp_mono; [apply (wp_steal s o start c _ p k); (done || lia)|].
  intros q s' [-> Hal]. by apply wp_ret, wp_ret.
Qed.

(** Types that [__rmqueue] may allocate from on behalf of a request. *)
Definition usable (t : Z) : Prop := 0 <= t < MIGRATE_ISOLATE.

Lemma wp_rmqueue s o t : inv s -> 0 <= o < MAX_ORDER -> 0 <= t < MIGRATE_TYPES ->
  wp (__rmqueue o t) (fun r s' =>
    match r with
    | None => s' = s /\ (t < MIGRATE_RESERVE -> forall c u, o <= c < MAX_ORDER -> usable u -> nothing s c u)
    | Some p => allocated s p o s'
    end) s.
Proof.
  intros Hi Ho Ht. apply wp_bind. eapply wp_mono; [by apply wp_rmqueue_smallest|]. intros [p|] s'; [by intros [? _]|].
  intros [-> Hno]. eapply wp_mono; [by apply wp_rmqueue_fallback|]. intros [p|] s'; [done|]. intros [-> Hex]. split; [done|].
  intros Hlt c u Hc Hu. destruct (Hex c Hc) as [Hf Hr]. specialize (Hno c Hc). unfold usable, MIGRATE_RESERVE, MIGRATE_ISOLATE in *.
  assert (forall i, 0 <= i < 3 -> fallback_type t i <> 3 -> nothing s c (fallback_type t i)) as Hf' by (intros; apply Hf; [unfold MIGRATE_TYPES; lia|done]).
  assert (u = 3 \/ u = t \/ exists i, 0 <= i < 3 /\ fallback_type t i = u /\ u <> 3) as [->|[->|(i & Hir & <- & Hne)]]; [|done|done|by apply Hf'].
  assert (t = 0 \/ t = 1 \/ t = 2) as Ct by lia. assert (u = 0 \/ u = 1 \/ u = 2 \/ u = 3) as Cu by lia.
  destruct Ct as [->|[->| ->]], Cu as [->|[->|[->| ->]]]; (by left) || (by right; left) ||
    (right; right; first [by exists 0|by exists 1|by exists 2]).
Qed.

(** ** The free blocks are the largest ones *)

(** An aligned run of free pages lies in one free block. *)
Lemma canonical L P o p : core L P -> block p o -> (forall x, range p o x -> free_page L x) ->
  exists q r, fblock L q r /\ o <= r /\ forall x, range p o x -> range q r x.
Proof.
  intros H Hb. assert (0 <= o) as Ho by (destruct Hb as [? _]; lia). revert p Hb. pattern o. apply natlike_ind; [| |done]; clear o Ho.
  - intros p Hb Hf. destruct (Hf p) as (q & r & Hq & Hx); [by apply range_start|]. exists q, r. split; [done|].
    split; [apply (c_block _ _ H) in Hq as [? _]; lia|]. intros x [? ?]. by replace x with p by (simpl in *; lia).
  - intros o Ho IH p Hb Hf. rewrite <- Z.add_1_r in *. destruct (half_block p o Hb Ho) as (Hb1 & Hb2 & Hbud).
    pose proof (order_bounds _ _ Hb) as (Hlt & _ & _).
    destruct (IH p Hb1) as (q1 & r1 & Hq1 & Hr1 & Hx1); [intros x Hx; apply Hf, range_halves; auto|].
    destruct (IH (p + 2 ^ o) Hb2) as (q2 & r2 & Hq2 & Hr2 & Hx2); [intros x Hx; apply Hf, range_halves; auto|].
    assert (forall q r x, fblock L q r -> o + 1 <= r -> range p (o + 1) x -> range q r x -> exists q' r', fblock L q' r' /\ o + 1 <= r' /\
      forall y, range p (o + 1) y -> range q' r' y) as Hbig.
    { intros q r x Hq Hr Hx Hx'. exists q, r. split; [done|]. split; [done|].
      eapply (block_nested p (o + 1) q r x); [lia|apply Hb|by apply (c_block _ _ H) in Hq as (_ & ? & _)|done|done]. }
    assert (forall x, range p o x -> range p (o + 1) x) as Hin1 by (intros; apply range_halves; auto).
    assert (forall x, range (p + 2 ^ o) o x -> range p (o + 1) x) as Hin2 by (intros; apply range_halves; auto).
    pose proof (range_start p o Ho) as Hp1. pose proof (range_start (p + 2 ^ o) o Ho) as Hp2.
    destruct (decide (o + 1 <= r1)); [by apply (Hbig q1 r1 p); auto|].
    destruct (decide (o + 1 <= r2)); [by apply (Hbig q2 r2 (p + 2 ^ o)); auto|].
    assert (r1 = o) as -> by lia. assert (r2 = o) as -> by lia.
    assert (q1 = p) as -> by (apply (same_order p o q1 p); [lia|apply Hb1|by apply (c_block _ _ H) in Hq1 as (_ & ? & _)|done|auto]).
    assert (q2 = p + 2 ^ o) as -> by (apply (same_order (p + 2 ^ o) o q2 (p + 2 ^ o)); [lia|apply Hb2|by apply (c_block _ _ H) in Hq2 as (_ & ? & _)|done|auto]).
    exfalso. apply (c_merged _ _ H _ _ Hq2); [unfold MAX_ORDER in *; lia|]. by rewrite Hbud.
Qed.

(** ** Counting the free pages *)

Definition blocks_of L : list (Z * Z) :=
  seqZ 0 MAX_ORDER ≫= fun o => seqZ 0 MIGRATE_TYPES ≫= fun t => (fun p => (p, o)) <$> default [] (L !! Free o t).

Definition pages_of L : list Z := blocks_of L ≫= fun b => seqZ b.1 (2 ^ b.2).

Lemma elem_of_blocks L p o : lists_ok L -> (p, o) ∈ blocks_of L <-> fblock L p o.
Proof.
  intros HL. unfold blocks_of. rewrite list_elem_of_bind. split.
  - intros (o' & Hin & Ho). apply list_elem_of_bind in Hin as (t & Hin & Ht). apply list_elem_of_fmap in Hin as (q & [= -> ->] & Hq).
    exists t. unfold on. destruct (L !! Free o' t) as [l|]; [by exists l|by apply not_elem_of_nil in Hq].
  - intros (t & l & Hl & Hp). destruct (has_free _ HL o t) as [Hs _]. destruct Hs as [Ho Ht]; [eauto|].
    exists o. split; [|apply elem_of_seqZ; lia]. apply list_elem_of_bind. exists t. split; [|apply elem_of_seqZ; lia].
    rewrite Hl. apply list_elem_of_fmap. by exists p.
Qed.

Lemma NoDup_blocks L P : core L P -> NoDup (blocks_of L).
Proof.
  intros H. unfold blocks_of. apply NoDup_bind.
  - intros o1 o2 [p o] _ _ H1 H2. apply list_elem_of_bind in H1 as (t1 & H1 & _). apply list_elem_of_bind in H2 as (t2 & H2 & _).
    apply list_elem_of_fmap in H1 as (? & ? & _). apply list_elem_of_fmap in H2 as (? & ? & _). by simplify_eq.
  - intros o _. apply NoDup_bind; [| |apply NoDup_seqZ].
    + intros t1 t2 [p o'] _ _ H1 H2. apply list_elem_of_fmap in H1 as (q & E1 & H1). apply list_elem_of_fmap in H2 as (q' & E2 & H2). simplify_eq.
      destruct (L !! Free o t1) as [l1|] eqn:El1; [|by apply not_elem_of_nil in H1].
      destruct (L !! Free o t2) as [l2|] eqn:El2; [|by apply not_elem_of_nil in H2].
      assert (Free o t1 = Free o t2) as [=]; [|done]. eapply (one_list _ (c_lists _ _ H)); [by exists l1|by exists l2].
    + intros t _. apply NoDup_fmap; [intros ? ? [=]; done|]. destruct (L !! Free o t) as [l|] eqn:El; [|by apply NoDup_nil].
      by eapply (once _ (c_lists _ _ H)).
  - apply NoDup_seqZ.
Qed.

Lemma elem_of_pages L P x : core L P -> x ∈ pages_of L <-> free_page L x.
Proof.
  intros H. unfold pages_of. rewrite list_elem_of_bind. split.
  - intros ([p o] & Hx & Hb). apply elem_of_blocks in Hb; [|apply H]. apply elem_of_seqZ in Hx. by exists p, o.
  - intros (p & o & Hb & Hx). exists (p, o). split; [by apply elem_of_seqZ|]. by apply elem_of_blocks; [apply H|].
Qed.

Lemma NoDup_pages L P : core L P -> NoDup (pages_of L).
Proof.
  intros H. unfold pages_of. apply NoDup_bind; [| |by eapply NoDup_blocks].
  - intros [p o] [q r] x Hp Hq Hx Hx'. apply elem_of_blocks in Hp; [|apply H]. apply elem_of_blocks in Hq; [|apply H].
    apply elem_of_seqZ in Hx. apply elem_of_seqZ in Hx'. assert (p = q) as -> by (by eapply (c_apart _ _ H)).
    by rewrite (fblock_order _ _ _ _ _ H Hp Hq).
  - intros [p o] _. apply NoDup_seqZ.
Qed.

Lemma pages_of_list (o : Z) (l : list Z) : 0 <= o ->
  Z.of_nat (length (((fun p => (p, o)) <$> l) ≫= fun b : Z * Z => seqZ b.1 (2 ^ b.2))) = Z.of_nat (length l) * 2 ^ o.
Proof.
  intros Ho. pose proof (pow2_pos o Ho). induction l as [|p l IH]; [done|]. rewrite fmap_cons, bind_cons.
  rewrite length_app, Nat2Z.inj_add, IH. cbn [fst snd length]. rewrite length_seqZ, Z2Nat.id by lia. lia.
Qed.

Lemma pages_of_order L o : 0 <= o ->
  Z.of_nat (length ((seqZ 0 MIGRATE_TYPES ≫= fun t => (fun p => (p, o)) <$> default [] (L !! Free o t)) ≫= fun b : Z * Z => seqZ b.1 (2 ^ b.2))) =
  cnt L o * 2 ^ o.
Proof.
  intros Ho. change (seqZ 0 MIGRATE_TYPES) with [0; 1; 2; 3; 4]. rewrite !bind_cons, !bind_app, !length_app, !Nat2Z.inj_add.
  rewrite !pages_of_list by done. unfold cnt, len. simpl length. lia.
Qed.

Lemma length_pages L : Z.of_nat (length (pages_of L)) = total L.
Proof.
  unfold pages_of, blocks_of, total. change MAX_ORDER with (Z.of_nat (Z.to_nat MAX_ORDER)) at 1.
  induction (Z.to_nat MAX_ORDER) as [|n IH]; [done|]. rewrite seqZ_S, !bind_app, length_app, Nat2Z.inj_add, IH. cbn [total_below].
  rewrite bind_cons, app_nil_r, Z.add_0_l. f_equal. apply pages_of_order. lia.
Qed.

Lemma total_bound L P : core L P -> zone_ok -> 0 <= total L <= spanned_pages zn.
Proof.
  intros H (_ & Hs & _). rewrite <- length_pages. split; [lia|]. rewrite <- (Z2Nat.id (spanned_pages zn)) by done.
  rewrite <- (length_seqZ (zone_start_pfn zn) (spanned_pages zn)). apply Nat2Z.inj_le, submseteq_length, NoDup_submseteq.
  - by eapply NoDup_pages.
  - intros x Hx. eapply elem_of_pages in Hx; [|done]. eapply free_zone in Hx; [|done]. by apply elem_of_seqZ.
Qed.

Lemma len_nonneg L h : 0 <= len L h.
Proof. unfold len. lia. Qed.

Lemma cnt_nonneg L o : 0 <= cnt L o.
Proof. unfold cnt. pose proof (len_nonneg L). pose proof (H (Free o 0)). pose proof (H (Free o 1)). pose proof (H (Free o 2)). pose proof (H (Free o 3)). pose proof (H (Free o 4)). lia. Qed.

Lemma total_below_mono L n m : (n <= m)%nat -> total_below n L <= total_below m L.
Proof.
  induction 1 as [|m _ IH]; [done|]. cbn [total_below]. pose proof (cnt_nonneg L (Z.of_nat m)). pose proof (pow2_pos (Z.of_nat m)). nia.
Qed.

Lemma total_below_nonneg L n : 0 <= total_below n L.
Proof. apply (total_below_mono L 0 n). lia. Qed.

Lemma cnt_bound L o : 0 <= o < MAX_ORDER -> cnt L o * 2 ^ o <= total L.
Proof.
  intros Ho. pose proof (total_below_mono L (S (Z.to_nat o)) (Z.to_nat MAX_ORDER)) as Hm. cbn [total_below] in Hm. rewrite Z2Nat.id in Hm by lia.
  pose proof (total_below_nonneg L (Z.to_nat o)). unfold total. lia.
Qed.

(** The counters of the zone hold the exact numbers. *)
Lemma inv_vm_stat s : inv s -> zone_ok -> vm_stat s = total (lists s).
Proof.
  intros Hi Hz. rewrite (i_vm _ Hi). pose proof (total_bound _ _ (i_core _ Hi) Hz). destruct Hz as (? & ? & ?).
  apply swrap_id; [lia|]. change (2 ^ (32 - 1)) with 2147483648. change (2 ^ 20) with 1048576 in *. lia.
Qed.

Lemma inv_nr_free s o : inv s -> zone_ok -> 0 <= o < MAX_ORDER -> nr_free s !! o = Some (cnt (lists s) o).
Proof.
  intros Hi Hz Ho. rewrite (i_nr _ Hi) by done. f_equal. apply wrap_id. pose proof (total_bound _ _ (i_core _ Hi) Hz).
  pose proof (cnt_bound (lists s) o Ho). pose proof (cnt_nonneg (lists s) o). pose proof (pow2_pos o). destruct Hz as (? & ? & ?).
  unfold fits. change (2 ^ 32) with 4294967296. change (2 ^ 20) with 1048576 in *. nia.
Qed.

(** No block is set aside by page isolation. *)
Definition no_isolated s : Prop := forall o, nothing s o MIGRATE_ISOLATE.

(** When the lists that may be allocated from hold no block of the order or a larger one,
    no aligned run of free pages of the order exists. *)
Lemma no_run s o p : inv s -> (forall c u, o <= c < MAX_ORDER -> usable u -> nothing s c u) -> no_isolated s -> block p o ->
  exists x, range p o x /\ ~ free_page (lists s) x.
Proof.
  intros Hi Hno Hiso Hb. destruct (decide (Forall (fun x => x ∈ pages_of (lists s)) (seqZ p (2 ^ o)))) as [Hall|Hnot].
  - exfalso. pose proof (i_core _ Hi) as H. destruct (canonical _ _ o p H Hb) as (q & r & (u & Hq) & Hr & _).
    { intros x Hx. rewrite Forall_forall in Hall. eapply elem_of_pages; [done|]. by apply Hall, elem_of_seqZ. }
    assert (exists l, lists s !! Free r u = Some l) as [l Hl] by (destruct Hq as (l & ? & _); by exists l).
    destruct (has_free _ (c_lists _ _ H) r u) as [Hs _]. destruct Hs as [Hrr Hu]; [eauto|].
    destruct (decide (u = MIGRATE_ISOLATE)) as [->|]; [by apply (Hiso r q)|].
    apply (Hno r u) in Hq; [done|lia|unfold usable, MIGRATE_ISOLATE, MIGRATE_TYPES in *; lia].
  - apply not_Forall_Exists in Hnot; [|apply _]. apply Exists_exists in Hnot as (x & Hx & Hn). exists x. split; [by apply elem_of_seqZ in Hx|].
    intros Hf. apply Hn. by eapply elem_of_pages; [apply Hi|].
Qed.

(** [__rmqueue] fails for a type that may be asked for only when no aligned run of free
    pages of the order is left. *)
Lemma wp_rmqueue_complete s o t : inv s -> 0 <= o < MAX_ORDER -> 0 <= t < MIGRATE_RESERVE -> no_isolated s ->
  wp (__rmqueue o t) (fun r s' =>
    match r with
    | None => s' = s /\ forall p, block p o -> exists x, range p o x /\ ~ free_page (lists s) x
    | Some p => allocated s p o s'
    end) s.
Proof.
  intros Hi Ho Ht Hiso. eapply wp_mono; [apply wp_rmqueue; [done|done|unfold MIGRATE_TYPES, MIGRATE_RESERVE in *; lia]|].
  intros [p|] s'; [done|]. intros [-> Hno]. split; [done|]. intros p Hb. by apply no_run; [|apply Hno, Ht|..].
Qed.

(** ** Boot *)

(** The state of [zone_init_free_lists] after the lists of the orders below [k] and, of
    order [k], those of the types below [u]. *)
Definition wiped s0 (k u : Z) s : Prop := exists L N, s = with_lists (fun _ => L) (with_nr_free (fun _ => N) s0) /\
  (forall o t, L !! Free o t = if bool_decide ((0 <= o < k /\ 0 <= t < MIGRATE_TYPES) \/ (o = k /\ 0 <= t < u)) then Some [] else lists s0 !! Free o t) /\
  L !! Pcp = lists s0 !! Pcp /\ forall o, 0 <= o < k \/ (o = k /\ 0 < u) -> N !! o = Some 0.

Lemma wp_zone_init s : wp zone_init_free_lists (fun _ s' => wiped s MAX_ORDER 0 s') s.
Proof.
  unfold zone_init_free_lists.
  apply (wp_for_up (fun k s' => wiped s k 0 s')); [done| | |done].
  { exists (lists s), (nr_free s). split; [by destruct s|]. split; [|split; [done|lia]]. intros o t. by rewrite bool_decide_false by lia. }
  intros k s1 Hk H1. apply (wp_for_up (fun u s' => wiped s k u s')); [done|done| |].
  - intros u s2 Hu (L & N & -> & HL & Hp & HN). apply wp_bind, wp_modify, wp_modify.
    exists (<[Free k u := []]> L), (<[k := 0]> N). split; [done|]. split; [|split].
    + intros o t. destruct (decide (Free k u = Free o t)) as [[= <- <-]|Hne]; [rewrite lookup_insert_eq, bool_decide_true by lia; done|].
      rewrite lookup_insert_ne, HL by done. assert (~ (o = k /\ t = u)) by (intros [-> ->]; done). repeat case_bool_decide; (done || lia).
    + by rewrite lookup_insert_ne.
    + intros o Ho. destruct (decide (k = o)) as [->|]; [apply lookup_insert_eq|rewrite lookup_insert_ne by done; apply HN; lia].
  - intros s2 (L & N & -> & HL & Hp & HN). exists L, N. split; [done|]. split; [|split; [done|]].
    + intros o t. rewrite HL. repeat case_bool_decide; (done || lia).
    + intros o Ho. apply HN. unfold MIGRATE_TYPES. lia.
Qed.

(** A zone as the boot code finds it: no page is marked, nothing is counted. *)
Record fresh s : Prop := {
  fs_map : mem_map_ok (mem_map s);
  fs_mark : forall p pg, in_zone p -> mem_map s !! p = Some pg -> PageBuddy pg = false;
  fs_lists : forall o t, is_Some (lists s !! Free o t) -> 0 <= o < MAX_ORDER /\ 0 <= t < MIGRATE_TYPES;
  fs_pcp : lists s !! Pcp = Some [];
  fs_vm : vm_stat s = 0;
  fs_bits : bitmap_ok (bits s)
}.

Lemma wiped_inv s s' : fresh s -> wiped s MAX_ORDER 0 s' -> inv s' /\ mem_map s' = mem_map s /\ misc s' = misc s /\
  (forall h p, ~ on (lists s') h p).
Proof.
  intros [Hm Hk Hl Hp Hv Hb] (L & N & -> & HL & HLp & HN). cbn [lists mem_map with_lists with_nr_free].
  assert (forall h l, L !! h = Some l -> l = []) as Hnil.
  { intros [o t|] l; [|rewrite HLp, Hp; by intros [= <-]]. rewrite HL. case_bool_decide as Hd; [by intros [= <-]|].
    intros E. exfalso. apply Hd. left. apply (Hl o t). eauto. }
  assert (forall h p, ~ on L h p) as Hno by (intros h p (l & Hlp & Hin); rewrite (Hnil h l Hlp) in Hin; by apply not_elem_of_nil in Hin).
  assert (forall p o, ~ fblock L p o) as Hnf by (intros p o [t Ht]; by apply (Hno (Free o t) p)).
  assert (forall x, ~ free_page L x) as Hnp by (intros x (p & o & Hf & _); by apply (Hnf p o)).
  assert (forall h, len L h = 0) as Hlen by (intros h; unfold len; destruct (L !! h) as [l|] eqn:E; [by rewrite (Hnil h l)|done]).
  assert (forall o, cnt L o = 0) as Hcnt by (intros o; unfold cnt; by rewrite !Hlen).
  split; [|split; [done|split; [done|exact Hno]]]. split.
  - split; cbn [lists mem_map with_lists with_nr_free].
    + done.
    + split.
      * intros o t. rewrite HL. case_bool_decide as Hd; [split; [lia|eauto]|]. split; [apply Hl|lia].
      * rewrite HLp, Hp. eauto.
      * intros h l Hl'. rewrite (Hnil h l Hl'). apply NoDup_nil_2.
      * intros h k p Hh. by destruct (Hno h p).
    + intros p o Hf. by destruct (Hnf p o).
    + intros p o Hf. by destruct (Hnf p o).
    + intros p pg Hz Hpg Hm'. by rewrite (Hk p pg Hz Hpg) in Hm'.
    + intros x Hx. by destruct (Hnp x).
    + intros p o q r x Hf. by destruct (Hnf p o).
    + intros p o Hf. by destruct (Hnf p o).
    + intros p Hf. by destruct (Hno Pcp p).
  - intros o Ho. cbn [nr_free lists with_lists with_nr_free]. rewrite Hcnt. apply HN. lia.
  - change (vm_stat s = s32 (total L)). rewrite Hv. assert (forall n, total_below n L = 0) as Ht.
    { induction n as [|n IH]; [done|]. cbn [total_below]. rewrite IH, Hcnt. lia. }
    unfold total. by rewrite Ht.
  - done.
Qed.

(** ** Clients of the zone

    The blocks that clients hold: any of them may be given back, and they are apart. *)
Definition owns s (own : list (Z * Z)) : Prop :=
  (forall i p o, own !! i = Some (p, o) -> releasable s p o) /\
  (forall i j p o q r x, own !! i = Some (p, o) -> own !! j = Some (q, r) -> range p o x -> range q r x -> i = j).

Lemma within_quiet F s s' x : within F s s' -> ~ F x -> quiet (mem_map s) x -> quiet (mem_map s') x.
Proof. intros (Hp & _) Hx. unfold quiet. by rewrite Hp. Qed.

Lemma within_pcp F s s' x : within F s s' -> on (lists s') Pcp x <-> on (lists s) Pcp x.
Proof. intros (_ & Hp & _). unfold on. by rewrite Hp. Qed.

Lemma owns_alloc s own p o s' : inv s -> owns s own -> allocated s p o s' -> owns s' ((p, o) :: own).
Proof.
  intros Hi [Hr Hd] Hal. assert (forall i q r, own !! i = Some (q, r) -> forall x, range q r x -> ~ range p o x) as Hout.
  { intros i q r Hq x Hx Hx'. destruct (Hr _ _ _ Hq) as [_ Hq']. destruct (Hq' x Hx) as [Hn _]. by apply Hn, (al_was _ _ _ _ Hal). }
  split.
  - intros [|i] q r; cbn.
    + intros [= <- <-]. split; [exact (al_block _ _ _ _ Hal)|]. intros x Hx. split; [intros Hf; by apply (al_free _ _ _ _ Hal) in Hf as [_ ?]|].
      split; [by apply (al_quiet _ _ _ _ Hal)|]. rewrite (within_pcp _ _ _ _ (al_within _ _ _ _ Hal)). intros Hp.
      destruct (c_pcp _ _ (i_core _ Hi) x Hp) as (_ & Hn & _). by apply Hn, (al_was _ _ _ _ Hal).
    + intros Hq. destruct (Hr _ _ _ Hq) as [Hb Hx]. split; [done|]. intros x Hxr. destruct (Hx x Hxr) as (Hn & Hqu & Hp).
      split; [intros Hf; by apply (al_free _ _ _ _ Hal) in Hf as [? _]|]. split; [by apply (within_quiet _ s s' x (al_within _ _ _ _ Hal))|].
      by rewrite (within_pcp _ _ _ _ (al_within _ _ _ _ Hal)).
  - intros [|i] [|j] p1 o1 q r x; cbn; intros H1 H2 Hx Hx'; simplify_eq; try done.
    + by destruct (Hout _ _ _ H2 x Hx').
    + by destruct (Hout _ _ _ H1 x Hx).
    + f_equal. by eapply Hd.
Qed.

Lemma owns_free s own i p o s' : owns s own -> own !! i = Some (p, o) -> freed s p o s' -> owns s' (delete i own).
Proof.
  intros [Hr Hd] Hi Hfr. split.
  - intros j q r Hj. apply lookup_delete_other in Hj as (k & Hk & Hq & _). destruct (Hr _ _ _ Hq) as [Hb Hx]. split; [done|].
    intros x Hxr. destruct (Hx x Hxr) as (Hn & Hqu & Hp). assert (~ range p o x) as Hout by (intros Hx'; apply Hk; by eapply Hd).
    split; [intros Hf; by apply (fr_free _ _ _ _ Hfr) in Hf as [?|?]|].
    split; [apply (within_quiet _ s s' x (fr_within _ _ _ _ Hfr)); tauto|]. by rewrite (within_pcp _ _ _ _ (fr_within _ _ _ _ Hfr)).
  - intros j k p1 o1 q r x Hj Hk Hx Hx'. apply lookup_delete_other in Hj as (j' & _ & Hj & ->).
    apply lookup_delete_other in Hk as (k' & _ & Hk & ->). by rewrite (Hd j' k' p1 o1 q r x).
Qed.

(** A request to the zone: for a block, or to take back the [i]-th of those held. *)
Inductive zone_req := Alloc (order migratetype : Z) | Release (i : nat).

(** [served reqs own s]: run from [s], the requests are answered as by a set of free pages. *)
Fixpoint served (reqs : list zone_req) (own : list (Z * Z)) s : Prop :=
  match reqs with
  | [] => True
  | Alloc o t :: reqs =>
      0 <= o < MAX_ORDER -> 0 <= t < MIGRATE_RESERVE ->
      wp (__rmqueue o t) (fun r s' =>
        match r with
        | Some p =>
            p mod 2 ^ o = 0 /\ (forall x, range p o x -> in_zone x /\ free_page (lists s) x) /\
            (forall x, free_page (lists s') x <-> free_page (lists s) x /\ ~ range p o x) /\
            vm_stat s' = vm_stat s - 2 ^ o /\ served reqs ((p, o) :: own) s'
        | None =>
            s' = s /\ (no_isolated s -> forall p, block p o -> exists x, range p o x /\ ~ free_page (lists s) x) /\
            served reqs own s'
        end) s
  | Release i :: reqs =>
      match own !! i with
      | Some (p, o) =>
          wp (__free_one_page p o) (fun _ s' =>
            (forall x, free_page (lists s') x <-> free_page (lists s) x \/ range p o x) /\
            vm_stat s' = vm_stat s + 2 ^ o /\ served reqs (delete i own) s') s
      | None => served reqs own s
      end
  end.

Lemma zone_served reqs s own : zone_ok -> inv s -> owns s own -> served reqs own s.
Proof.
  intros Hz. revert s own. induction reqs as [|[o t|i] reqs IH]; intros s own Hi Hown; [done| |]; cbn [served].
  - intros Ho Ht. destruct (wp_run _ _ _ (wp_rmqueue s o t Hi Ho ltac:(unfold MIGRATE_TYPES, MIGRATE_RESERVE in *; lia))) as (r & s' & Er & Hr).
    apply (wp_det _ r s s'); [done|]. destruct r as [p|].
    + destruct (al_block _ _ _ _ Hr) as (_ & Hal & Hbz). split; [done|]. split; [intros x Hx; split; [auto|by apply (al_was _ _ _ _ Hr)]|].
      split; [apply Hr|]. split; [rewrite (inv_vm_stat s'), (inv_vm_stat s) by (done || apply Hr); apply Hr|].
      apply IH; [apply Hr|by eapply owns_alloc].
    + destruct Hr as [-> _]. split; [done|]. split; [|by apply IH]. intros Hiso.
      pose proof (wp_rmqueue_complete s o t Hi Ho Ht Hiso) as Hc. unfold wp in Hc. rewrite Er in Hc. by destruct Hc as [_ ?].
  - destruct (own !! i) as [[p o]|] eqn:E; [|by apply IH]. eapply wp_mono; [apply wp_free_one_page; [done|by eapply Hown]|].
    intros [] s' Hfr. split; [apply Hfr|]. split; [rewrite (inv_vm_stat s'), (inv_vm_stat s) by (done || apply Hfr); apply Hfr|].
    apply IH; [apply Hfr|by eapply owns_free].
Qed.

(** The requests as a program; it returns the blocks that are held in the end. *)
Fixpoint zone_run (reqs : list zone_req) (own : list (Z * Z)) : ZM (list (Z * Z)) :=
  match reqs with
  | [] => mret own
  | Alloc o t :: reqs =>
      r ← __rmqueue o t;
      zone_run reqs (match r with Some p => (p, o) :: own | None => own end)
  | Release i :: reqs =>
      match own !! i with
      | Some (p, o) => __free_one_page p o ;; zone_run reqs (delete i own)
      | None => zone_run reqs own
      end
  end.

Definition valid_req (r : zone_req) : Prop :=
  match r with Alloc o t => 0 <= o < MAX_ORDER /\ 0 <= t < MIGRATE_TYPES | Release _ => True end.

Lemma wp_zone_run reqs s own : inv s -> owns s own -> Forall valid_req reqs -> wp (zone_run reqs own) (fun own' s' => inv s' /\ owns s' own') s.
Proof.
  intros Hi Hown Hv. revert s own Hi Hown. induction Hv as [|[o t|i] reqs Hr _ IH]; intros s own Hi Hown; [by apply wp_ret| |]; cbn [zone_run].
  - destruct Hr as [Ho Ht]. apply wp_bind. eapply wp_mono; [by apply wp_rmqueue|]. intros [p|] s'.
    + intros Hal. apply IH; [apply Hal|by eapply owns_alloc].
    + intros [-> _]. by apply IH.
  - destruct (own !! i) as [[p o]|] eqn:E; [|by apply IH]. apply wp_bind. eapply wp_mono; [apply wp_free_one_page; [done|by eapply Hown]|].
    intros [] s' Hfr. apply IH; [apply Hfr|by eapply owns_free].
Qed.

(** The groups of two pages are the same when their blocks, counted from the start of the
    zone, are. *)
Lemma bitidx_block p : zone_ok -> in_zone p -> pfn_to_bitidx p = (p - zone_start_pfn zn) / pageblock_nr_pages * 3.
Proof.
  intros (? & ? & ?) Hp. unfold pfn_to_bitidx, in_zone in *. rewrite wrap_id.
  - rewrite Z.shiftr_div_pow2 by done. done.
  - unfold fits. change (2 ^ 32) with 4294967296. change (2 ^ 20) with 1048576 in *. lia.
Qed.

Lemma wp_set_get s p q t : zone_ok -> page_group_by_mobility_disabled zn = false ->
  bitmap_ok (bits s) -> in_zone p -> in_zone q -> 0 <= t < MIGRATE_TYPES ->
  wp (set_pageblock_migratetype p t ;; get_pageblock_migratetype q) (fun v s' =>
    v = (if (q - zone_start_pfn zn) / pageblock_nr_pages =? (p - zone_start_pfn zn) / pageblock_nr_pages then t else ptype s q) /\
    s' = with_bits (bits s') s) s.
Proof.
  intros Hz Hd Hb Hp Hq Ht. apply wp_bind, wp_set_migratetype; [done..|]. intros m Hm E. apply wp_get_migratetype; [done|done|].
  split; [|done]. unfold ptype. rewrite Hd. cbn [bits with_bits]. rewrite E, !bitidx_block by done.
  destruct (Z.eqb_spec ((q - zone_start_pfn zn) / pageblock_nr_pages) ((p - zone_start_pfn zn) / pageblock_nr_pages)) as [->|Hne].
  - by rewrite Z.eqb_refl.
  - replace (_ =? _) with false; [done|]. symmetry. apply Z.eqb_neq. lia.
Qed.

(** The free lists are determined by the set of free pages. *)
Lemma range_le p o q r : 0 <= o -> 0 <= r -> (forall x, range p o x -> range q r x) -> o <= r.
Proof.
  intros Ho Hr H. pose proof (pow2_pos o Ho). apply (Z.pow_le_mono_r_iff 2); [lia|lia|].
  pose proof (H p) as H1. pose proof (H (p + 2 ^ o - 1)) as H2. unfold range in *. lia.
Qed.

Lemma fblock_maximal s p o : core (lists s) (mem_map s) ->
  fblock (lists s) p o <->
  block p o /\ (forall x, range p o x -> free_page (lists s) x) /\
  forall q r, block q r -> (forall x, range q r x -> free_page (lists s) x) -> (forall x, range p o x -> range q r x) -> q = p /\ r = o.
Proof.
  intros H. split.
  - intros Hf. pose proof (c_block _ _ H _ _ Hf) as Hb. split; [done|]. split; [intros x Hx; by exists p, o|].
    intros q r Hq Hfree Hsub. destruct (order_bounds _ _ Hb) as (Ho & Ho0 & _). destruct (order_bounds _ _ Hq) as (Hr & Hr0 & _).
    destruct (canonical _ _ r q H Hq Hfree) as (q' & r' & Hq' & Hle & Hsub').
    assert (q' = p) as ->. { symmetry. apply (c_apart _ _ H p o q' r' p Hf Hq'); [by apply range_start|]. by apply Hsub', Hsub, range_start. }
    rewrite (fblock_order _ _ _ _ _ H Hq' Hf) in *. assert (o <= r) by (by apply (range_le p o q r)). assert (r = o) as -> by lia.
    split; [|done]. apply (same_order p o q p); [lia|apply Hb|apply Hq|by apply range_start|]. by apply Hsub, range_start.
  - intros (Hb & Hfree & Hmax). destruct (canonical _ _ o p H Hb Hfree) as (q & r & Hq & Hle & Hsub).
    destruct (Hmax q r) as [-> ->]; [by apply (c_block _ _ H)|intros x Hx; by exists q, r|done|done].
Qed.

(** What the counters count. *)
Lemma free_pages_counted s : zone_ok -> inv s ->
  exists l, NoDup l /\ (forall x, x ∈ l <-> free_page (lists s) x) /\ vm_stat s = Z.of_nat (length l).
Proof.
  intros Hz Hi. pose proof (i_core _ Hi) as H. exists (pages_of (lists s)). split; [by eapply NoDup_pages|].
  split; [intros x; by eapply elem_of_pages|]. rewrite length_pages. by apply inv_vm_stat.
Qed.

Lemma free_blocks_counted s : zone_ok -> inv s ->
  forall o, 0 <= o < MAX_ORDER -> exists l, NoDup l /\ (forall p, p ∈ l <-> fblock (lists s) p o) /\ nr_free s !! o = Some (Z.of_nat (length l)).
Proof.
  intros Hz Hi o Ho. pose proof (i_core _ Hi) as H. rewrite (inv_nr_free s o) by done.
  exists (seqZ 0 MIGRATE_TYPES ≫= fun t => default [] (lists s !! Free o t)). split; [|split].
  - apply NoDup_bind; [| |apply NoDup_seqZ].
    + intros t u p _ _ Ht Hu. assert (Free o t = Free o u) as [=]; [|done]. apply (one_list _ (c_lists _ _ H) _ _ p).
      * unfold on. destruct (lists s !! Free o t) as [l|]; [by exists l|by apply not_elem_of_nil in Ht].
      * unfold on. destruct (lists s !! Free o u) as [l|]; [by exists l|by apply not_elem_of_nil in Hu].
    + intros t _. destruct (lists s !! Free o t) as [l|] eqn:E; [|apply NoDup_nil_2]. by eapply (once _ (c_lists _ _ H)).
  - intros p. rewrite list_elem_of_bind. split.
    + intros (t & Hp & _). exists t. unfold on. destruct (lists s !! Free o t) as [l|]; [by exists l|by apply not_elem_of_nil in Hp].
    + intros (t & l & Hl & Hp). exists t. rewrite Hl. split; [done|]. apply elem_of_seqZ.
      destruct (has_free _ (c_lists _ _ H) o t) as [Ht _]. destruct Ht as [_ Ht]; [eauto|]. lia.
  - f_equal. change (seqZ 0 MIGRATE_TYPES) with [0; 1; 2; 3; 4]. rewrite !bind_cons, !length_app, !Nat2Z.inj_add. unfold cnt, len. simpl length. lia.
Qed.

End Zone.

(** ** Properties *)

(** C9: The zone behaves as a set of free pages: from a state that satisfies the invariant,
    every sequence of allocations and releases of blocks that are held runs without a
    fault; an allocation returns an aligned block of pages of the zone that were free and
    takes exactly these out of the set, a release puts exactly the pages of the block back,
    NR_FREE_PAGES follows; and an allocation is refused only when no aligned run of
    2^order free pages exists (blocks set aside by page isolation apart). *)
Theorem buddy_refines_pages zn reqs s own : zone_ok zn -> inv zn s -> owns zn s own -> served zn reqs own s.
Proof. apply zone_served. Qed.

(** C17: After any sequence of allocations and releases the free lists are a function of the
    set of free pages: a block is on a free list exactly when it is an aligned block of
    free pages of the zone that no larger such block contains, so whatever the order of
    the requests, everything that can be merged has been merged. *)
Theorem free_blocks_are_maximal zn reqs s own : inv zn s -> owns zn s own -> Forall valid_req reqs ->
  wp (zone_run zn reqs own) (fun _ s' => forall p o,
    fblock (lists s') p o <->
    block zn p o /\ (forall x, range p o x -> free_page (lists s') x) /\
    forall q r, block zn q r -> (forall x, range q r x -> free_page (lists s') x) -> (forall x, range p o x -> range q r x) -> q = p /\ r = o) s.
Proof. intros Hi Hown Hv. eapply wp_mono; [by apply wp_zone_run|]. intros own' s' [Hi' _] p o. apply fblock_maximal, Hi'. Qed.

(** C18: After any sequence of allocations and releases the counters are exact:
    NR_FREE_PAGES is the number of pages in free blocks and nr_free of every order is the
    number of free blocks of that order. *)
Theorem zone_counters_exact zn reqs s own : zone_ok zn -> inv zn s -> owns zn s own -> Forall valid_req reqs ->
  wp (zone_run zn reqs own) (fun _ s' =>
    (exists l, NoDup l /\ (forall x, x ∈ l <-> free_page (lists s') x) /\ vm_stat s' = Z.of_nat (length l)) /\
    (forall o, 0 <= o < MAX_ORDER -> exists l, NoDup l /\ (forall p, p ∈ l <-> fblock (lists s') p o) /\ nr_free s' !! o = Some (Z.of_nat (length l)))) s.
Proof.
  intros Hz Hi Hown Hv. eapply wp_mono; [by apply wp_zone_run|]. intros own' s' [Hi' _]. by split; [apply (free_pages_counted zn)|apply (free_blocks_counted zn)].
Qed.

(** What set_pageblock_migratetype stores in three bits of the bitmap
    get_pageblock_migratetype reads back, for every page of the block, and the types of
    all other blocks stay as they are. *)
Theorem pageblock_type_roundtrip zn s p q t : zone_ok zn -> page_group_by_mobility_disabled zn = false ->
  bitmap_ok zn (bits s) -> in_zone zn p -> in_zone zn q -> 0 <= t < MIGRATE_TYPES ->
  wp (set_pageblock_migratetype zn p t ;; get_pageblock_migratetype zn q) (fun v s' =>
    v = (if (q - zone_start_pfn zn) / pageblock_nr_pages =? (p - zone_start_pfn zn) / pageblock_nr_pages then t else ptype zn s q) /\
    s' = with_bits (bits s') s) s.
Proof. apply wp_set_get. Qed.

(** *** A zone of 2048 pages after boot *)

Definition example_zone : zone := Zone 1 1024 2048 0 [0; 0; 0] 6 2 false.

Definition example_page : page := Page 0 1 0 (-1) 0 0 0 0.

Definition example_fresh : state :=
  State (list_to_map ((fun p => (p, example_page)) <$> seqZ 1024 2048)) {[ Pcp := [] ]} ∅ 0 (list_to_map [(0, 0x12)]) false 0 0 false.

Definition example_boot : state :=
  match zone_init_free_lists example_fresh with Ok (_, s) => s | Fault _ => example_fresh end.

Lemma example_lookup x : mem_map example_fresh !! x = if bool_decide (1024 <= x < 3072) then Some example_page else None.
Proof.
  unfold example_fresh. cbn [mem_map]. case_bool_decide as Hx.
  - apply elem_of_list_to_map; [rewrite <- list_fmap_compose, NoDup_fmap by (intros ? ? ?; done); apply NoDup_seqZ|].
    apply list_elem_of_fmap. exists x. split; [done|]. apply elem_of_seqZ. lia.
  - apply not_elem_of_list_to_map. rewrite <- list_fmap_compose. intros (y & -> & Hy)%list_elem_of_fmap. apply elem_of_seqZ in Hy. simpl in Hx. lia.
Qed.

Lemma example_fresh_ok : fresh example_zone example_fresh.
Proof.
  split.
  - split.
    + intros x Hx. exists example_page. rewrite example_lookup, bool_decide_true by (unfold in_zone in Hx; simpl in Hx; lia). done.
    + intros x pg. rewrite example_lookup. case_bool_decide; [|done]. intros _ _. unfold in_zone. simpl. lia.
    + intros x y Hx Hy. rewrite example_lookup, bool_decide_true; [eauto|]. unfold in_zone in Hx. simpl in Hx.
      change pageblock_nr_pages with 1024 in Hy. Z.div_mod_to_equations. lia.
  - intros p pg _. rewrite example_lookup. case_bool_decide; [|done]. by intros [= <-].
  - intros o t. unfold example_fresh. cbn [lists]. rewrite lookup_singleton_ne by done. by intros [].
  - apply lookup_singleton_eq.
  - done.
  - assert (forall x, in_zone example_zone x -> pfn_to_bitidx example_zone x = 0 \/ pfn_to_bitidx example_zone x = 3) as Hidx.
    { intros x Hx. rewrite bitidx_block by (done || (unfold zone_ok; simpl; lia)). unfold in_zone in Hx. simpl in Hx.
      change pageblock_nr_pages with 1024. simpl zone_start_pfn. assert ((x - 1024) / 1024 = 0 \/ (x - 1024) / 1024 = 1) as [->| ->]; [|by left|by right].
      Z.div_mod_to_equations. lia. }
    split.
    + exists 1. split; [apply (longs_b_sound _ _ 1); vm_compute; reflexivity|]. intros x Hx. by destruct (Hidx x Hx) as [->| ->].
    + intros x Hx. unfold mtype, block_bit. by destruct (Hidx x Hx) as [->| ->].
Qed.

Lemma example_boot_ok : zone_ok example_zone /\ inv example_zone example_boot /\ mem_map example_boot = mem_map example_fresh /\
  (forall h p, ~ on (lists example_boot) h p).
Proof.
  split; [unfold zone_ok; simpl; lia|]. pose proof (wp_zone_init example_fresh) as H. unfold wp in H. unfold example_boot.
  destruct (zone_init_free_lists example_fresh) as [[[] s]|f]; [|done].
  destruct (wiped_inv example_zone example_fresh s example_fresh_ok H) as (? & ? & _ & ?). done.
Qed.

Lemma example_owns : owns example_zone example_boot [(1024, 10); (2048, 3)].
Proof.
  destruct example_boot_ok as (_ & _ & Em & Hno). split.
  - assert (forall p o, 0 <= o < 11 -> p mod 2 ^ o = 0 -> 1024 <= p -> p + 2 ^ o <= 3072 -> releasable example_zone example_boot p o) as Hr.
    { intros p o Ho Hp Hlo Hhi. split.
      - split; [done|]. split; [done|]. unfold range, in_zone. simpl. lia.
      - intros x Hx. unfold range in Hx. split; [intros (q & r & (t & Hq) & _); by apply (Hno (Free r t) q)|]. split; [|apply Hno].
        exists example_page. rewrite Em, example_lookup, bool_decide_true by lia. split_and!; reflexivity. }
    clear Em Hno. intros [|[|i]] p o; [intros [= <- <-]; apply Hr; (reflexivity || lia)|intros [= <- <-]; apply Hr; (reflexivity || lia)|done].
  - clear Em Hno. intros [|[|i]] [|[|j]] p o q r x; try done; intros [= <- <-] [= <- <-]; unfold range; simpl; lia.
Qed.

Lemma buddy_refines_pages_witness :
  zone_ok example_zone /\ inv example_zone example_boot /\ owns example_zone example_boot [(1024, 10); (2048, 3)] /\
  served example_zone [Release 0; Alloc 0 2; Alloc 3 1; Release 1; Release 0; Alloc 10 0] [(1024, 10); (2048, 3)] example_boot.
Proof.
  destruct example_boot_ok as (Hz & Hi & _). pose proof example_owns as Ho. split; [done|]. split; [done|]. split; [done|].
  by apply (buddy_refines_pages example_zone).
Defined.

Definition example_reqs : list zone_req := [Release 0; Alloc 0 2; Alloc 3 1; Release 1; Release 0; Alloc 4 0].

Lemma example_reqs_ok : Forall valid_req example_reqs.
Proof. repeat constructor; cbn; (lia || discriminate). Qed.

Lemma free_blocks_are_maximal_witness :
  wp (zone_run example_zone example_reqs [(1024, 10); (2048, 3)]) (fun _ s' => fblock (lists s') 1536 9 -> forall x, range 1536 9 x -> free_page (lists s') x) example_boot.
Proof.
  destruct example_boot_ok as (_ & Hi & _). pose proof example_owns as Ho.
  eapply wp_mono; [apply (free_blocks_are_maximal example_zone example_reqs _ _ Hi Ho example_reqs_ok)|]. clear Hi Ho.
  intros own s H Hf. apply H in Hf. apply Hf.
Defined.

Lemma zone_counters_exact_witness :
  wp (zone_run example_zone example_reqs [(1024, 10); (2048, 3)]) (fun _ s' =>
    exists l, (forall x, x ∈ l <-> free_page (lists s') x) /\ vm_stat s' = Z.of_nat (length l)) example_boot.
Proof.
  destruct example_boot_ok as (Hz & Hi & _). pose proof example_owns as Ho.
  eapply wp_mono; [apply (zone_counters_exact example_zone example_reqs _ _ Hz Hi Ho example_reqs_ok)|]. clear Hi Ho.
  intros own s [(l & _ & Hl & E) _]. exists l. split; [exact Hl|exact E].
Defined.

Lemma pageblock_type_roundtrip_witness :
  wp (set_pageblock_migratetype example_zone 1030 1 ;; get_pageblock_migratetype example_zone 2000) (fun v _ => v = 1) example_fresh /\
  wp (set_pageblock_migratetype example_zone 1030 1 ;; get_pageblock_migratetype example_zone 2100) (fun v _ => v = 2) example_fresh.
Proof.
  pose proof (fs_bits _ _ example_fresh_ok) as Hb.
  split; (eapply wp_mono; [apply (pageblock_type_roundtrip example_zone example_fresh 1030 _ 1);
    [unfold zone_ok; simpl; lia|done|done|unfold in_zone; simpl; lia|unfold in_zone; simpl; lia|done]|]); intros v s' [-> _]; vm_compute; reflexivity.
Defined.
