(* ===== verification/PageAlloc.v ===== *)
(** * The page allocator's front end: mm/page_alloc.c

    What stands between the buddy system of a zone and the rest of the kernel: the checks
    that a page passes before it becomes free and before it is handed out, compound pages,
    the processor's own list of single pages, the watermarks and the isolation of page
    blocks.  The zone, its state and the routines on its free lists are those of Buddy.v.

    Hooks that do nothing in the configurations of the tree (arch_alloc_page,
    arch_free_page, kernel_map_pages, the debug_check routines), the event counters of
    /proc/vmstat and the clearing of the pages' contents for __GFP_ZERO are left out.
    There is one zone and one processor, so for_each_zone and on_each_cpu have one turn. *)

From S2P Require Import Prelude Bitops Buddy.

#[local] Arguments loop : simpl never.

(** ** The code *)

Definition PAGE_FLAGS_CHECK_AT_FREE : Z :=
  2 ^ PG_lru + 2 ^ PG_private + 2 ^ PG_locked + 2 ^ PG_buddy + 2 ^ PG_writeback + 2 ^ PG_reserved +
  2 ^ PG_slab + 2 ^ PG_swapcache + 2 ^ PG_active + 2 ^ PG_unevictable + 2 ^ PG_mlocked.

Definition PAGE_FLAGS_CHECK_AT_PREP : Z := Z.shiftl 1 NR_PAGEFLAGS - 1.

Definition __GFP_COLD : Z := 0x100.
Definition __GFP_COMP : Z := 0x4000.
Definition __GFP_RECLAIMABLE : Z := 0x80000.
Definition __GFP_MOVABLE : Z := 0x100000.

Definition ALLOC_HARDER : Z := 0x10.
Definition ALLOC_HIGH : Z := 0x20.

Definition min_free_order_shift : Z := 1.

(** The address of the routine free_compound_page, which the model only stores. *)
Definition FREE_COMPOUND_PAGE : Z := 1.

Definition has (flags mask : Z) : bool := negb (Z.land flags mask =? 0).

Section PageAlloc.
Context (zn : zone).

Definition free_page_mlock (page : Z) : ZM unit :=
  pg ← page_at page;
  if Z.testbit (pg_flags pg) PG_mlocked then ClearPageFlag PG_mlocked page else mret tt.

Definition page_mapcount (pg : Buddy.page) : Z := pg_mapcount pg + 1.

(** true: the page was found bad. *)
Definition free_pages_check (page : Z) : ZM bool :=
  free_page_mlock page ;;
  pg ← page_at page;
  c ← page_count page;
  if negb (page_mapcount pg =? 0) || negb (pg_mapping pg =? 0) || negb (c =? 0) ||
     has (pg_flags pg) PAGE_FLAGS_CHECK_AT_FREE
  then bad_page page ;; mret true
  else
    (if has (pg_flags pg) PAGE_FLAGS_CHECK_AT_PREP
     then page_update page (with_flags (fun f => Z.land f (Z.lnot PAGE_FLAGS_CHECK_AT_PREP)))
     else mret tt) ;;
    mret false.

(** The loop of [__free_pages_ok]: the number of bad pages. *)
Definition check_loop (page order : Z) : ZM Z :=
  loop (S (Z.to_nat (Z.shiftl 1 order))) (fun '(i, bad) =>
    if i <? Z.shiftl 1 order then
      b ← free_pages_check (page + i);
      continue (i + 1, bad + Z.b2z b)
    else break bad) (0, 0).

Definition __free_pages_ok (page order : Z) : ZM unit :=
  bad ← check_loop page order;
  if negb (bad =? 0) then mret tt else free_one_page zn page order.

Definition prep_compound_page (page order : Z) : ZM unit :=
  page_update (page + 1) (with_lru FREE_COMPOUND_PAGE order) ;;
  SetPageFlag PG_head page ;;
  for_up 1 (Z.shiftl 1 order) (fun i =>
    SetPageFlag PG_tail (page + i) ;;
    page_update (page + i) (with_private page)).

Definition set_page_refcounted (page : Z) : ZM unit := page_update page (with_count 1).

(** true: the page was found bad. *)
Definition prep_new_page (page order gfp_flags : Z) : ZM bool :=
  pg ← page_at page;
  c ← page_count page;
  if negb (page_mapcount pg =? 0) || negb (pg_mapping pg =? 0) || negb (c =? 0) ||
     has (pg_flags pg) PAGE_FLAGS_CHECK_AT_PREP
  then bad_page page ;; mret true
  else
    set_page_private page 0 ;;
    set_page_refcounted page ;;
    (if negb (order =? 0) && has gfp_flags __GFP_COMP then prep_compound_page page order else mret tt) ;;
    mret false.

Definition split_page (page order : Z) : ZM unit :=
  for_up 1 (Z.shiftl 1 order) (fun i => set_page_refcounted (page + i)).

Definition PageAnon (pg : Buddy.page) : bool := has (pg_mapping pg) 1.

Definition free_hot_cold_page (page : Z) (cold : bool) : ZM unit :=
  pg ← page_at page;
  (if PageAnon pg then page_update page (with_mapping 0) else mret tt) ;;
  bad ← free_pages_check page;
  if (bad : bool) then mret tt
  else
    (if cold then page_list_add_tail page Pcp else page_list_add page (Head Pcp)) ;;
    migratetype ← get_pageblock_migratetype zn page;
    set_page_private page migratetype ;;
    count ← asks pcp_count;
    modify (with_pcp_count (count + 1)) ;;
    if pcp_high zn <=? count + 1 then
      free_pages_bulk zn (pcp_batch zn) Pcp 0 ;;
      count ← asks pcp_count;
      modify (with_pcp_count (count - pcp_batch zn))
    else mret tt.

(** atomic_dec_and_test(&page->_count). *)
Definition put_page_testzero (page : Z) : ZM bool :=
  pg ← page_at page;
  page_update page (with_count (pg_count pg - 1)) ;;
  mret (pg_count pg - 1 =? 0).

Definition __free_pages (page order : Z) : ZM unit :=
  z ← put_page_testzero page;
  if (z : bool) then
    if order =? 0 then free_hot_cold_page page false else __free_pages_ok page order
  else mret tt.

Definition drain_pages : ZM unit :=
  count ← asks pcp_count;
  free_pages_bulk zn count Pcp 0 ;;
  modify (with_pcp_count 0).

Definition allocflags_to_migratetype (gfp_flags : Z) : Z :=
  if page_group_by_mobility_disabled zn then MIGRATE_UNMOVABLE
  else Z.lor (Z.shiftl (Z.b2z (has gfp_flags __GFP_MOVABLE)) 1) (Z.b2z (has gfp_flags __GFP_RECLAIMABLE)).

(** The first page of [l] whose private field is [migratetype]. *)
Fixpoint pcp_find (migratetype : Z) (l : list Z) : ZM (option Z) :=
  match l with
  | [] => mret None
  | page :: l =>
      pg ← page_at page;
      if pg_private pg =? migratetype then mret (Some page) else pcp_find migratetype l
  end.

(** The branch of [buffered_rmqueue] for single pages. *)
Definition pcp_alloc (cold : bool) (migratetype : Z) : ZM (option Z) :=
  count ← asks pcp_count;
  count ← (if count =? 0 then
             n ← rmqueue_bulk zn 0 (pcp_batch zn) (Head Pcp) migratetype;
             modify (with_pcp_count n) ;; mret n
           else mret count);
  if count =? 0 then mret None
  else
    l ← list_at Pcp;
    f ← pcp_find migratetype (if cold then reverse l else l);
    page ← match f with
           | Some page => mret page
           | None =>
               n ← rmqueue_bulk zn 0 (pcp_batch zn) (Head Pcp) migratetype;
               count ← asks pcp_count;
               modify (with_pcp_count (count + n)) ;;
               page_list_first Pcp
           end;
    page_list_del page ;;
    count ← asks pcp_count;
    modify (with_pcp_count (count - 1)) ;;
    mret (Some page).

(** [fuel] bounds the turns of the label again. *)
Definition buffered_rmqueue (fuel : nat) (order gfp_flags : Z) : ZM (option Z) :=
  let cold := has gfp_flags __GFP_COLD in
  let migratetype := allocflags_to_migratetype gfp_flags in
  loop fuel (fun _ : unit =>
    page ← (if order =? 0 then pcp_alloc cold migratetype else __rmqueue zn order migratetype);
    match page with
    | None => break None
    | Some page =>
        bad ← prep_new_page page order gfp_flags;
        if (bad : bool) then continue tt else break (Some page)
    end) tt.

(** The comparison of free_pages with min + lowmem_reserve is one of unsigned longs, since
    lowmem_reserve is. *)
Definition zone_watermark_ok (order mark classzone_idx alloc_flags : Z) : ZM bool :=
  v ← asks vm_stat;
  let min := s32 mark in
  let free_pages := s32 (u32 v - Z.shiftl 1 order + 1) in
  let min := if has alloc_flags ALLOC_HIGH then min - Z.quot min 2 else min in
  let min := if has alloc_flags ALLOC_HARDER then min - Z.quot min 4 else min in
  match lowmem_reserve zn !! Z.to_nat classzone_idx with
  | None => stop BadAddress
  | Some reserve =>
      if u32 free_pages <=? u32 (min + reserve) then mret false
      else
        loop (S (Z.to_nat order)) (fun '(o, free_pages, min) =>
          if o <? order then
            s ← asks nr_free;
            match s !! o with
            | None => stop BadAddress
            | Some n =>
                let free_pages := s32 (free_pages - Z.shiftl n o) in
                let min := Z.shiftr min min_free_order_shift in
                if free_pages <=? min then break false else continue (o + 1, free_pages, min)
            end
          else break true) (0, free_pages, min)
  end.

Definition set_migratetype_isolate (page : Z) : ZM Z :=
  t ← get_pageblock_migratetype zn page;
  if negb (t =? MIGRATE_MOVABLE) then mret (- EBUSY)
  else
    set_pageblock_migratetype zn page MIGRATE_ISOLATE ;;
    move_freepages_block zn page MIGRATE_ISOLATE ;;
    drain_pages ;;
    mret 0.

Definition unset_migratetype_isolate (page : Z) : ZM unit :=
  t ← get_pageblock_migratetype zn page;
  if negb (t =? MIGRATE_ISOLATE) then mret tt
  else
    set_pageblock_migratetype zn page MIGRATE_MOVABLE ;;
    move_freepages_block zn page MIGRATE_MOVABLE ;;
    mret tt.

(** ** Pages outside the free lists *)

Implicit Types (L : gmap lhead (list Z)) (P : gmap Z Buddy.page) (s : state).

(** A page that is free or waits on the processor's list. *)
Definition idle L (x : Z) : Prop := free_page L x \/ on L Pcp x.

Lemma core_pcp_add L L' P p : core zn L P -> in_zone zn p -> ~ free_page L p -> quiet P p ->
  lists_ok L' -> (forall k q, on L' k q <-> on L k q \/ (k = Pcp /\ q = p)) ->
  core zn L' P /\ (forall x, free_page L' x <-> free_page L x) /\ (forall x, idle L' x <-> idle L x \/ x = p).
Proof.
  intros H Hz Hn Hq HL' Hon.
  assert (forall q o, fblock L' q o <-> fblock L q o) as Hfb.
  { intros q o. split; intros [t Ht]; exists t; [by apply Hon in Ht as [?|[? _]]|apply Hon; by left]. }
  assert (forall x, free_page L' x <-> free_page L x) as Hfree by (intros x; unfold free_page; by setoid_rewrite Hfb).
  split; [|split; [done|]].
  - split.
    + apply H.
    + done.
    + intros q o Hf. by apply (c_block _ _ _ H), Hfb.
    + intros q o Hf. by apply (c_mark _ _ _ H), Hfb.
    + intros q pg Hz' Hpg Hm. destruct (c_marked _ _ _ H q pg Hz' Hpg Hm) as [o Ho]. exists o. by apply Hfb.
    + intros x Hx. by apply (c_quiet _ _ _ H), Hfree.
    + intros q o q' o' x Hf Hf'. apply (c_apart _ _ _ H); by apply Hfb.
    + intros q o Hf Ho Hf'. apply (c_merged _ _ _ H q o); [by apply Hfb|done|by apply Hfb].
    + intros q Hon'. apply Hon in Hon' as [Hon'|[_ ->]]; [|by rewrite Hfree].
      destruct (c_pcp _ _ _ H q Hon') as (? & ? & ?). by rewrite Hfree.
  - intros x. unfold idle. rewrite Hfree, Hon. naive_solver.
Qed.

Lemma core_pcp_del L L' P p : core zn L P -> on L Pcp p ->
  lists_ok L' -> (forall k q, on L' k q <-> on L k q /\ q <> p) ->
  core zn L' P /\ (forall x, free_page L' x <-> free_page L x) /\ (forall x, idle L' x <-> idle L x /\ x <> p).
Proof.
  intros H Hp HL' Hon. destruct (c_pcp _ _ _ H p Hp) as (_ & Hnp & _).
  assert (forall q o, fblock L' q o <-> fblock L q o) as Hfb.
  { intros q o. split; intros [t Ht]; exists t; [by apply Hon in Ht as [? _]|apply Hon; split; [done|]]. intros ->.
    pose proof (one_list _ (c_lists _ _ _ H) _ _ _ Ht Hp). done. }
  assert (forall x, free_page L' x <-> free_page L x) as Hfree by (intros x; unfold free_page; by setoid_rewrite Hfb).
  split; [|split; [done|]].
  - split.
    + apply H.
    + done.
    + intros q o Hf. by apply (c_block _ _ _ H), Hfb.
    + intros q o Hf. by apply (c_mark _ _ _ H), Hfb.
    + intros q pg Hz' Hpg Hm. destruct (c_marked _ _ _ H q pg Hz' Hpg Hm) as [o Ho]. exists o. by apply Hfb.
    + intros x Hx. by apply (c_quiet _ _ _ H), Hfree.
    + intros q o q' o' x Hf Hf'. apply (c_apart _ _ _ H); by apply Hfb.
    + intros q o Hf Ho Hf'. apply (c_merged _ _ _ H q o); [by apply Hfb|done|by apply Hfb].
    + intros q Hon'. apply Hon in Hon' as [Hon' _]. destruct (c_pcp _ _ _ H q Hon') as (? & ? & ?). by rewrite Hfree.
  - intros x. unfold idle. rewrite Hfree, Hon. split; [|naive_solver]. intros [Hf|[? ?]]; [|auto]. split; [by left|]. by intros ->.
Qed.

(** The fields of a page that is not free may change, its zone and its mark apart; on the
    processor's list only private and lru may. *)
Definition idle_fields (pg pg' : Buddy.page) : Prop :=
  pg_count pg' = pg_count pg /\ pg_mapcount pg' = pg_mapcount pg /\ pg_mapping pg' = pg_mapping pg /\ pg_flags pg' = pg_flags pg.

Lemma core_page L P p pg pg' : core zn L P -> P !! p = Some pg -> ~ free_page L p -> pg_zone_id pg' = pg_zone_id pg ->
  (in_zone zn p -> PageBuddy pg' = false) -> (on L Pcp p -> idle_fields pg pg') -> core zn L (<[p := pg']> P).
Proof.
  intros H Hpg Hn Hz Hb Hi.
  assert (forall x, (x = p -> idle_fields pg pg') -> quiet P x -> quiet (<[p := pg']> P) x) as Hq.
  { intros x Hx (qg & Hqg & H1 & H2 & H3 & H4). unfold quiet. destruct (decide (x = p)) as [->|]; [|rewrite lookup_insert_ne by done; by exists qg].
    rewrite lookup_insert_eq. simplify_eq. destruct (Hx eq_refl) as (E1 & E2 & E3 & E4). exists pg'. rewrite E1, E2, E3, E4. done. }
  split.
  - by apply (map_ok_insert _ _ _ pg); [apply H|..].
  - apply H.
  - apply H.
  - intros q o Hf. rewrite lookup_insert_ne; [by apply (c_mark _ _ _ H)|]. intros ->. apply Hn. by eapply fblock_self.
  - intros q qg Hqz. destruct (decide (q = p)) as [->|]; [rewrite lookup_insert_eq|rewrite lookup_insert_ne by done; by apply (c_marked _ _ _ H)].
    intros [= <-]. by rewrite Hb.
  - intros x Hx. apply Hq; [by intros ->|by apply (c_quiet _ _ _ H)].
  - apply H.
  - apply H.
  - intros q Hon. destruct (c_pcp _ _ _ H q Hon) as (? & ? & ?). split; [done|]. split; [done|]. apply Hq; [|done]. intros ->. auto.
Qed.

(** A page of the zone that is not free is not marked. *)
Lemma core_unmarked L P p pg : core zn L P -> in_zone zn p -> P !! p = Some pg -> ~ free_page L p -> PageBuddy pg = false.
Proof.
  intros H Hz Hpg Hn. destruct (PageBuddy pg) eqn:E; [|done]. destruct (c_marked _ _ _ H p pg Hz Hpg E) as [o Ho].
  destruct Hn. by eapply fblock_self.
Qed.

(** An unused page that is not marked has no flag at all. *)
Lemma quiet_unmarked_flags (f : Z) : Z.clearbit f PG_buddy = 0 -> Z.testbit f PG_buddy = false -> f = 0.
Proof.
  intros Hf Hb. bitwise i Hi. destruct (decide (i = PG_buddy)) as [->|Hne]; [done|by apply quiet_flag].
Qed.

Lemma idle_zone L P x : core zn L P -> idle L x -> in_zone zn x /\ quiet P x.
Proof.
  intros H [Hf|Hp]; [split; [by eapply free_zone|by apply (c_quiet _ _ _ H)]|]. by destruct (c_pcp _ _ _ H x Hp) as (? & _ & ?).
Qed.

(** ** The processor's list *)

Definition keep_counts s s' : Prop := nr_free s' = nr_free s /\ vm_stat s' = vm_stat s /\ bits s' = bits s.

(** The invariant after a step that leaves the free blocks alone. *)
Lemma inv_recount s s' : inv zn s -> core zn (lists s') (mem_map s') -> (forall o, cnt (lists s') o = cnt (lists s) o) ->
  nr_free s' = nr_free s -> vm_stat s' = vm_stat s -> bits s' = bits s -> inv zn s'.
Proof.
  intros Hi Hc Hcnt En Ev Eb. split; [done| | |by rewrite Eb; apply Hi].
  - intros o Ho. rewrite En, Hcnt. by apply (i_nr _ _ Hi).
  - rewrite Ev, (i_vm _ _ Hi). f_equal. symmetry. rewrite (total_step (lists s) (lists s') 0 0); [lia|done|].
    intros r. rewrite Hcnt. destruct (_ =? _); lia.
Qed.

Lemma insert_behind_perm q p l : q ∈ l -> insert_behind q p l ≡ₚ p :: l.
Proof.
  induction l as [|x l IH]; intros Hq; [by apply not_elem_of_nil in Hq|]. cbn [insert_behind].
  destruct (Z.eqb_spec x q) as [->|Hne]; [apply Permutation_swap|]. apply elem_of_cons in Hq as [?|Hq]; [congruence|].
  rewrite IH by done. apply Permutation_swap.
Qed.

(** Positions on the processor's list. *)
Definition pcp_pos L (pos : lpos) : Prop := match pos with Head h => h = Pcp | Entry q => on L Pcp q end.

Lemma wp_pcp_add pos p (Q : unit -> state -> Prop) s :
  lists_ok (lists s) -> pcp_pos (lists s) pos -> (forall k, ~ on (lists s) k p) ->
  (forall L', lists_ok L' -> (forall k q, on L' k q <-> on (lists s) k q \/ (k = Pcp /\ q = p)) -> grew (lists s) Pcp 1 L' ->
     Q tt (with_lists (fun _ => L') s)) ->
  wp (page_list_add p pos) Q s.
Proof.
  intros HL Hpos Hp HQ. destruct pos as [h|q]; cbn [pcp_pos] in Hpos.
  - subst h. apply wp_list_add_head; [done|apply HL|done|]. auto.
  - apply wp_bind, wp_asks. rewrite head_of_off by done. apply wp_bind, wp_asks. rewrite (head_of_on s Pcp q) by done.
    destruct Hpos as (l & Hl & Hq). apply wp_bind, (wp_list_at _ l); [done|]. apply wp_modify.
    pose proof (insert_behind_perm q p l Hq) as Hperm.
    destruct (lists_ok_add _ _ _ _ p HL Hl Hp Hperm) as [HL' Hon]. apply HQ; [done|done|]. split; [|intros k Hk; by rewrite lookup_insert_ne].
    unfold len. rewrite lookup_insert_eq, Hl. simpl. rewrite (Permutation_length Hperm). simpl. lia.
Qed.

Lemma wp_pcp_add_tail p (Q : unit -> state -> Prop) s :
  lists_ok (lists s) -> (forall k, ~ on (lists s) k p) ->
  (forall L', lists_ok L' -> (forall k q, on L' k q <-> on (lists s) k q \/ (k = Pcp /\ q = p)) -> grew (lists s) Pcp 1 L' ->
     Q tt (with_lists (fun _ => L') s)) ->
  wp (page_list_add_tail p Pcp) Q s.
Proof.
  intros HL Hp HQ. apply wp_bind, wp_asks. rewrite head_of_off by done. destruct (has_pcp _ HL) as [l Hl].
  apply wp_bind, (wp_list_at _ l); [done|]. apply wp_modify.
  assert (l ++ [p] ≡ₚ p :: l) as Hperm by (symmetry; apply Permutation_cons_append).
  destruct (lists_ok_add _ _ _ _ p HL Hl Hp Hperm) as [HL' Hon]. apply HQ; [done|done|]. split; [|intros k Hk; by rewrite lookup_insert_ne].
  unfold len. rewrite lookup_insert_eq, Hl. simpl. rewrite (Permutation_length Hperm). simpl. lia.
Qed.

(** Pages have moved between the free blocks and the processor's list. *)
Record shuffled s s' : Prop := {
  sh_inv : inv zn s';
  sh_idle : forall x, idle (lists s') x <-> idle (lists s) x;
  sh_pages : forall x, ~ idle (lists s) x -> mem_map s' !! x = mem_map s !! x;
  sh_taint : tainted s' = tainted s;
  sh_count : pcp_count s' = pcp_count s
}.

Lemma shuffled_refl s : inv zn s -> shuffled s s.
Proof. by split. Qed.

Lemma range_0 p x : range p 0 x <-> x = p.
Proof. unfold range. simpl. lia. Qed.

Lemma block_0 p : in_zone zn p -> block zn p 0.
Proof. intros Hz. split; [done|]. split; [apply Z.mod_1_r|]. intros x Hx. by apply range_0 in Hx as ->. Qed.

Lemma misc_count s s' : misc s' = misc s -> pcp_count s' = pcp_count s /\ tainted s' = tainted s.
Proof. unfold misc. by intros [=]. Qed.

Lemma wp_rmqueue_bulk s count mt : inv zn s -> 0 <= count -> 0 <= mt < MIGRATE_TYPES ->
  wp (rmqueue_bulk zn 0 count (Head Pcp) mt) (fun n s' =>
    shuffled s s' /\ 0 <= n <= count /\ len (lists s') Pcp = len (lists s) Pcp + n /\
    (n = 0 -> 0 < count -> mt < MIGRATE_RESERVE -> forall c u, 0 <= c < MAX_ORDER -> usable u -> nothing s c u)) s.
Proof.
  intros Hi Hcount Hmt. unfold rmqueue_bulk.
  apply (wp_loop (fun '(i, pos) s' => 0 <= i <= count /\ shuffled s s' /\ pcp_pos (lists s') pos /\
      len (lists s') Pcp = len (lists s) Pcp + i /\ (i = 0 -> s' = s)) (fun '(i, pos) => Z.to_nat (count - i))); [|simpl; lia|].
  { split; [lia|]. split; [by apply shuffled_refl|]. split; [done|]. split; [lia|done]. }
  intros [i pos] s1 (Hir & Hsh & Hpos & Hlen & H0). destruct (Z.ltb_spec i count) as [Hlt|].
  2: { apply wp_ret. split; [done|]. split; [lia|]. split; [done|]. lia. }
  apply wp_bind. eapply wp_mono; [apply (wp_rmqueue zn s1 0 mt); [apply Hsh|done|done]|]. intros [p|] s2.
  2: { intros [-> Hno]. apply wp_ret. split; [done|]. split; [lia|]. split; [done|]. intros -> _ Hr. rewrite <- (H0 eq_refl). by apply Hno. }
  intros Hal. pose proof (i_core _ _ (sh_inv _ _ Hsh)) as H1. pose proof (i_core _ _ (al_inv _ _ _ _ _ Hal)) as H2.
  assert (free_page (lists s1) p) as Hwas by (by apply (al_was _ _ _ _ _ Hal), range_0).
  pose proof (free_zone _ _ _ _ H1 Hwas) as Hz.
  destruct (al_within _ _ _ _ _ Hal) as (Hpages & Hpcp & Hmisc). destruct (misc_count _ _ Hmisc) as [Hc2 Ht2].
  assert (forall x, free_page (lists s2) x <-> free_page (lists s1) x /\ x <> p) as Hfree2
    by (intros x; rewrite (al_free _ _ _ _ _ Hal), range_0; done).
  assert (forall x, on (lists s2) Pcp x <-> on (lists s1) Pcp x) as Hon2 by (intros x; unfold on; by rewrite Hpcp).
  assert (~ on (lists s1) Pcp p) as Hnp by (intros Hp; by destruct (c_pcp _ _ _ H1 p Hp) as (_ & [] & _)).
  assert (forall k, ~ on (lists s2) k p) as Hoff.
  { apply on_none; [|by rewrite Hon2]. intros o Ho. eapply fblock_self in Ho; [|done]. apply Hfree2 in Ho as [_ ?]. done. }
  apply wp_bind, wp_pcp_add; [apply H2| |done|].
  { destruct pos as [h|q]; cbn [pcp_pos] in *; [done|]. by apply Hon2. }
  intros L3 HL3 Hon3 Hg3. destruct (al_quiet _ _ _ _ _ Hal p) as (pg & Hpg & Hquiet); [by apply range_0|].
  apply wp_bind, (wp_page_update _ pg); [done|]. apply wp_ret.
  destruct (core_pcp_add (lists s2) L3 (mem_map s2) p) as (H3 & Hfree3 & Hidle3); try done.
  { intros Hf. by apply Hfree2 in Hf as [_ ?]. }
  { by exists pg. }
  split; [|lia]. split; [lia|]. split; [|split; [|split]].
  - split.
    + eapply (inv_recount s2); [apply Hal| |intros o; by eapply grew_pcp_cnt|done|done|done].
      cbn [lists mem_map with_pages with_lists]. apply (core_page _ _ _ pg); [done|done| |done| |done].
      * rewrite Hfree3. intros Hf. by apply Hfree2 in Hf as [_ ?].
      * intros _. change (PageBuddy pg = false). eapply (core_unmarked (lists s2)); [done|done|done|]. intros Hf. by apply Hfree2 in Hf as [_ ?].
    + intros x. rewrite <- (sh_idle _ _ Hsh). change (idle L3 x <-> idle (lists s1) x). rewrite Hidle3. unfold idle.
      rewrite Hfree2, Hon2. destruct (decide (x = p)) as [->|]; naive_solver.
    + intros x Hx. cbn [mem_map with_pages with_lists]. rewrite <- (sh_idle _ _ Hsh) in Hx.
      rewrite lookup_insert_ne by (intros <-; apply Hx; by left). rewrite Hpages by (intros Hf; apply Hx; by left).
      apply (sh_pages _ _ Hsh). by rewrite <- (sh_idle _ _ Hsh).
    + change (tainted s2 = tainted s). rewrite Ht2. apply Hsh.
    + change (pcp_count s2 = pcp_count s). rewrite Hc2. apply Hsh.
  - apply Hon3. by right.
  - change (len L3 Pcp = len (lists s) Pcp + (i + 1)). destruct Hg3 as [-> _]. unfold len in *. rewrite Hpcp. lia.
  - lia.
Qed.

Lemma wp_page_list_last s l p : lists s !! Pcp = Some l -> last l = Some p -> forall Q : Z -> state -> Prop, Q p s -> wp (page_list_last Pcp) Q s.
Proof. intros Hl Hp Q HQ. apply wp_bind, (wp_list_at _ l); [done|]. rewrite Hp. by apply wp_ret. Qed.

(** Taking a page off the processor's list. *)
Lemma inv_pcp_del s L' p : inv zn s -> on (lists s) Pcp p -> lists_ok L' -> (forall k q, on L' k q <-> on (lists s) k q /\ q <> p) ->
  grew (lists s) Pcp (-1) L' ->
  inv zn (with_lists (fun _ => L') s) /\ (forall x, free_page L' x <-> free_page (lists s) x) /\ (forall x, idle L' x <-> idle (lists s) x /\ x <> p).
Proof.
  intros Hi Hp HL' Hon Hg. destruct (core_pcp_del (lists s) L' (mem_map s) p (i_core _ _ Hi) Hp HL' Hon) as (Hc & Hf & Hid).
  split; [|done]. eapply (inv_recount s); [done|done|intros o; by eapply grew_pcp_cnt|done|done|done].
Qed.

Lemma wp_free_pages_bulk s count : inv zn s -> 0 <= count <= len (lists s) Pcp ->
  wp (free_pages_bulk zn count Pcp 0) (fun _ s' => shuffled s s' /\ len (lists s') Pcp = len (lists s) Pcp - count /\ bits s' = bits s) s.
Proof.
  intros Hi Hcount. unfold free_pages_bulk. apply wp_bind, wp_modify.
  apply (wp_loop (fun n s' => 0 <= n <= count /\ shuffled s s' /\ len (lists s') Pcp = len (lists s) Pcp - (count - n) /\ bits s' = bits s) (fun n => Z.to_nat n)); [|lia|].
  { split; [lia|]. split; [|split; [cbn [lists with_scanned]; lia|done]]. split; try done. by eapply (inv_recount s); [done|apply Hi|..]. }
  intros n s1 (Hn & Hsh & Hlen & Hbits). destruct (Z.eqb_spec n 0) as [->|Hn0]; [apply wp_ret; split; [done|split; [lia|done]]|].
  pose proof (i_core _ _ (sh_inv _ _ Hsh)) as H1. destruct (has_pcp _ (c_lists _ _ _ H1)) as [l Hl].
  destruct (last l) as [p|] eqn:Ep.
  2: { exfalso. apply last_None in Ep as ->. unfold len at 1 in Hlen. rewrite Hl in Hlen. simpl in Hlen. lia. }
  assert (on (lists s1) Pcp p) as Hp by (exists l; split; [done|]; apply last_Some in Ep as [? ->]; apply elem_of_app; right; by apply list_elem_of_singleton).
  apply wp_bind, (wp_page_list_last _ l p); [done|done|]. apply wp_bind, (wp_list_del Pcp); [apply H1|done|]. intros L2 HL2 Hon2 Hg2 _.
  destruct (inv_pcp_del s1 L2 p) as (Hi2 & Hfree2 & Hidle2); try done; [apply Hsh|].
  destruct (c_pcp _ _ _ H1 p Hp) as (Hz & Hnf & Hq). apply wp_bind.
  eapply wp_mono; [apply (wp_free_one_page zn _ p 0); [done|]|].
  { split; [by apply block_0|]. intros x Hx. apply range_0 in Hx as ->. cbn [lists mem_map with_lists]. rewrite Hfree2.
    split; [done|]. split; [done|]. intros Hc. by apply Hon2 in Hc as [_ ?]. }
  intros [] s3 Hfr. apply wp_ret. destruct (fr_within _ _ _ _ _ Hfr) as (Hpages & Hpcp & Hmisc). destruct (misc_count _ _ Hmisc) as [Hc3 Ht3].
  cbn [lists with_lists] in Hpcp. split; [|lia]. split; [lia|]. split.
  - split.
    + apply Hfr.
    + intros x. rewrite <- (sh_idle _ _ Hsh). unfold idle at 1. rewrite (fr_free _ _ _ _ _ Hfr). cbn [lists with_lists].
      assert (on (lists s3) Pcp x <-> on L2 Pcp x) as -> by (unfold on; by rewrite Hpcp). rewrite range_0.
      pose proof (Hidle2 x) as E. unfold idle in E at 1. destruct (decide (x = p)) as [->|]; [|tauto].
      split; [intros _; by right|auto].
    + intros x Hx. rewrite <- (sh_idle _ _ Hsh) in Hx. rewrite Hpages.
      * cbn [mem_map with_lists]. apply (sh_pages _ _ Hsh). by rewrite <- (sh_idle _ _ Hsh).
      * cbn [lists with_lists]. rewrite Hfree2, range_0. intros [Hf| ->]; apply Hx; [by left|by right].
    + rewrite Ht3. apply Hsh.
    + rewrite Hc3. apply Hsh.
  - split; [|rewrite (fr_bits _ _ _ _ _ Hfr); done]. unfold len in *. rewrite Hpcp. destruct Hg2 as [Hg2 _]. unfold len in Hg2. rewrite Hg2. lia.
Qed.

(** ** The checks at free *)

(** What page_count reads. *)
Definition count_of P (x : Z) : option Z :=
  match P !! x with
  | Some pg => if PageTail pg then pg_count <$> P !! pg_private pg else Some (pg_count pg)
  | None => None
  end.

Lemma wp_page_count p c (Q : Z -> state -> Prop) s : count_of (mem_map s) p = Some c -> Q c s -> wp (page_count p) Q s.
Proof.
  unfold count_of. intros Hc HQ. destruct (mem_map s !! p) as [pg|] eqn:E; [|done].
  apply wp_bind, (wp_page_at _ pg); [done|]. destruct (PageTail pg); [|simplify_eq; by apply wp_ret].
  destruct (mem_map s !! pg_private pg) as [h|] eqn:Eh; [|done]. simplify_eq/=.
  apply wp_bind, (wp_page_at _ h); [done|]. by apply wp_ret.
Qed.

(** Whether free_pages_check passes page [x]. *)
Definition passes P (x : Z) (pg : Buddy.page) : bool :=
  bool_decide (count_of P x = Some 0) && (page_mapcount pg =? 0) && (pg_mapping pg =? 0) &&
  negb (has (Z.clearbit (pg_flags pg) PG_mlocked) PAGE_FLAGS_CHECK_AT_FREE).

(** What it leaves of the page. *)
Definition scrub P (x : Z) (pg : Buddy.page) : Buddy.page :=
  with_flags (fun f => if passes P x pg then Z.land (Z.clearbit f PG_mlocked) (Z.lnot PAGE_FLAGS_CHECK_AT_PREP)
                       else Z.clearbit (Z.clearbit f PG_mlocked) PG_buddy) pg.

Lemma clearbit_id f n : Z.testbit f n = false -> Z.clearbit f n = f.
Proof. intros H. bitwise i Hi. rewrite Z.clearbit_eqb. destruct (Z.eqb_spec n i) as [->|]; [by rewrite H|apply andb_true_r]. Qed.

Lemma with_flags_id g pg : g (pg_flags pg) = pg_flags pg -> with_flags g pg = pg.
Proof. unfold with_flags. intros ->. by destruct pg. Qed.

Lemma with_pages_id p pg s : mem_map s !! p = Some pg -> with_pages (insert p pg) s = s.
Proof. intros H. unfold with_pages. rewrite insert_id by done. by destruct s. Qed.

Lemma with_pages_twice p pg pg' s : with_pages (insert p pg') (with_pages (insert p pg) s) = with_pages (insert p pg') s.
Proof. unfold with_pages. cbn [mem_map lists nr_free vm_stat bits all_unreclaimable pages_scanned pcp_count tainted]. by rewrite insert_insert_eq. Qed.

(** The flags that tell a tail page and the field that the checks do not change. *)
Lemma count_of_flags P x pg g y : P !! x = Some pg -> Z.testbit (g (pg_flags pg)) PG_tail = Z.testbit (pg_flags pg) PG_tail ->
  count_of (<[x := with_flags g pg]> P) y = count_of P y.
Proof.
  intros Hx Ht. assert (forall z, pg_count <$> (<[x := with_flags g pg]> P) !! z = pg_count <$> P !! z) as Hcount.
  { intros z. destruct (decide (z = x)) as [->|]; [by rewrite lookup_insert_eq, Hx|by rewrite lookup_insert_ne]. }
  unfold count_of. destruct (decide (y = x)) as [->|].
  - rewrite lookup_insert_eq, Hx. unfold PageTail. cbn [pg_flags with_flags]. rewrite Ht. destruct (Z.testbit (pg_flags pg) PG_tail); [|done].
    apply Hcount.
  - rewrite lookup_insert_ne by done. destruct (P !! y) as [yg|]; [|done]. destruct (PageTail yg); [|done].
    apply Hcount.
Qed.

Lemma wp_free_pages_check s p pg (Q : bool -> state -> Prop) :
  mem_map s !! p = Some pg -> is_Some (count_of (mem_map s) p) ->
  Q (negb (passes (mem_map s) p pg))
    (with_tainted (tainted s || negb (passes (mem_map s) p pg)) (with_pages (insert p (scrub (mem_map s) p pg)) s)) ->
  wp (free_pages_check p) Q s.
Proof.
  intros Hp [c Hc] HQ. unfold free_pages_check. apply wp_bind. set (m := with_flags (fun f => Z.clearbit f PG_mlocked) pg).
  apply (wp_mono _ (fun _ s' => s' = with_pages (insert p m) s)).
  { apply wp_bind, (wp_page_at _ pg); [done|]. apply wp_if; intros Ef.
    - by apply (wp_page_update _ pg).
    - apply wp_ret. unfold m. rewrite with_flags_id by by apply clearbit_id. by rewrite with_pages_id. }
  intros [] s1 ->. apply wp_bind, (wp_page_at _ m); [apply lookup_insert_eq|].
  assert (count_of (mem_map (with_pages (insert p m) s)) p = Some c) as Hc'.
  { cbn [mem_map with_pages]. unfold m. rewrite (count_of_flags _ _ pg); [done|done|]. rewrite Z.clearbit_eqb. apply andb_true_r. }
  apply wp_bind, (wp_page_count _ c); [done|].
  assert ((negb (page_mapcount m =? 0) || negb (pg_mapping m =? 0) || negb (c =? 0) || has (pg_flags m) PAGE_FLAGS_CHECK_AT_FREE) =
    negb (passes (mem_map s) p pg)) as ->.
  { unfold passes. rewrite Hc. replace (bool_decide (Some c = Some 0)) with (c =? 0)
      by (destruct (Z.eqb_spec c 0) as [->|]; case_bool_decide; congruence).
    change (page_mapcount m) with (page_mapcount pg). change (pg_mapping m) with (pg_mapping pg).
    change (pg_flags m) with (Z.clearbit (pg_flags pg) PG_mlocked).
    destruct (c =? 0), (page_mapcount pg =? 0), (pg_mapping pg =? 0), (has (Z.clearbit (pg_flags pg) PG_mlocked) PAGE_FLAGS_CHECK_AT_FREE); done. }
  unfold scrub in HQ. destruct (passes (mem_map s) p pg); cbn [negb] in *; rewrite ?orb_false_r, ?orb_true_r in HQ.
  - assert (with_tainted (tainted s) (with_pages (insert p
      (with_flags (fun f => Z.land (Z.clearbit f PG_mlocked) (Z.lnot PAGE_FLAGS_CHECK_AT_PREP)) pg)) s) =
      with_pages (insert p (with_flags (fun f => Z.land f (Z.lnot PAGE_FLAGS_CHECK_AT_PREP)) m)) (with_pages (insert p m) s)) as E.
    { rewrite with_pages_twice. by destruct s. }
    rewrite E in HQ. apply wp_bind, wp_if; intros Eh.
    + apply (wp_page_update _ m); [apply lookup_insert_eq|]. by apply wp_ret.
    + apply wp_ret, wp_ret. rewrite with_flags_id in HQ; [by rewrite with_pages_twice in HQ|].
      unfold has in Eh. apply negb_false_iff, Z.eqb_eq in Eh. bitwise i Hi.
      pose proof (Z.land_spec (pg_flags m) PAGE_FLAGS_CHECK_AT_PREP i) as El. rewrite Eh, Z.bits_0 in El.
      destruct (Z.testbit (pg_flags m) i); [cbn in *; by rewrite <- El|done].
  - apply wp_bind. unfold bad_page. apply wp_bind, (wp_page_update _ m); [apply lookup_insert_eq|]. apply wp_modify, wp_ret.
    rewrite with_pages_twice. done.
Qed.

(** The pages from [p] on, [n] of them, have been through the check. *)
Definition scrubbed P (p n : Z) P' : Prop :=
  forall x, P' !! x = if bool_decide (p <= x < p + n) then scrub P x <$> P !! x else P !! x.

Lemma count_of_scrubbed P p n P' x : scrubbed P p n P' -> ~ (p <= x < p + n) -> count_of P' x = count_of P x.
Proof.
  intros H Hx. unfold count_of. rewrite (H x), bool_decide_false by done. destruct (P !! x) as [pg|]; [|done].
  destruct (PageTail pg); [|done]. rewrite H. case_bool_decide; [|done]. by destruct (P !! pg_private pg).
Qed.

Lemma scrub_unmarked P x pg : PageBuddy (scrub P x pg) = false.
Proof.
  unfold PageBuddy, scrub. cbn [pg_flags with_flags]. destruct (passes P x pg); [|apply Z.clearbit_eq].
  rewrite Z.land_spec, Z.lnot_spec by done. change (Z.testbit PAGE_FLAGS_CHECK_AT_PREP PG_buddy) with true. apply andb_false_r.
Qed.

Definition checkable L P (p o : Z) : Prop :=
  block zn p o /\ forall x, range p o x -> ~ idle L x /\ is_Some (count_of P x).

(** The pages of the block that pass the check, as a whole. *)
Definition all_pass P (p n : Z) : Prop := forall x pg, p <= x < p + n -> P !! x = Some pg -> passes P x pg = true.

Lemma wp_check_loop s p o : core zn (lists s) (mem_map s) -> checkable (lists s) (mem_map s) p o ->
  wp (check_loop p o) (fun bad s' => exists P',
    s' = with_tainted (tainted s || negb (bad =? 0)) (with_pages (fun _ => P') s) /\ scrubbed (mem_map s) p (2 ^ o) P' /\
    core zn (lists s) P' /\ (bad = 0 <-> all_pass (mem_map s) p (2 ^ o))) s.
Proof.
  intros H [Hb Hx]. destruct (order_bounds _ _ _ Hb) as (Ho & Ho0 & Hpow). unfold check_loop. rewrite Z.shiftl_1_l.
  apply (wp_loop (fun '(i, bad) s' => 0 <= i <= 2 ^ o /\ 0 <= bad /\ exists P',
    s' = with_tainted (tainted s || negb (bad =? 0)) (with_pages (fun _ => P') s) /\ scrubbed (mem_map s) p i P' /\
    core zn (lists s) P' /\ (bad = 0 <-> all_pass (mem_map s) p i)) (fun '(i, bad) => Z.to_nat (2 ^ o - i))); [|simpl; lia|].
  { split; [lia|]. split; [lia|]. exists (mem_map s). split; [rewrite orb_false_r; by destruct s|].
    split; [intros x; by rewrite bool_decide_false by lia|]. split; [done|]. split; [|done]. intros _ x pg Hr. lia. }
  intros [i bad] s' (Hi & Hbad & P' & -> & Hs & Hc & Hp). destruct (Z.ltb_spec i (2 ^ o)).
  2: { apply wp_ret. replace i with (2 ^ o) in * by lia. by exists P'. }
  set (x := p + i). assert (range p o x) as Hxr by (unfold range, x; lia). destruct (Hx x Hxr) as [Hid Hcount].
  assert (P' !! x = mem_map s !! x) as Ex by (rewrite (Hs x), bool_decide_false by (unfold x; lia); done).
  assert (exists pg, mem_map s !! x = Some pg) as [pg Hpg] by (destruct Hcount as [c Hc']; unfold count_of in Hc'; destruct (mem_map s !! x); [eauto|done]).
  assert (count_of P' x = count_of (mem_map s) x) as Ec by (apply (count_of_scrubbed _ _ _ _ _ Hs); unfold x; lia).
  assert (passes P' x pg = passes (mem_map s) x pg) as Ep by (unfold passes; by rewrite Ec).
  assert (scrub P' x pg = scrub (mem_map s) x pg) as Esc by (unfold scrub; by rewrite Ep).
  apply wp_bind, (wp_free_pages_check _ x pg); [cbn [mem_map with_tainted with_pages]; congruence|cbn [mem_map with_tainted with_pages]; by rewrite Ec|].
  apply wp_ret. cbn [mem_map with_tainted with_pages tainted]. rewrite Ep, Esc. split; [|lia]. split; [lia|].
  split; [destruct (passes _ _ _); simpl; lia|]. exists (<[x := scrub (mem_map s) x pg]> P'). split; [|split; [|split]].
  - unfold with_tainted, with_pages. cbn [mem_map lists nr_free vm_stat bits all_unreclaimable pages_scanned pcp_count tainted].
    f_equal. destruct (tainted s), (Z.eqb_spec bad 0) as [->|], (passes (mem_map s) x pg); simpl; try done;
      symmetry; apply negb_true_iff, Z.eqb_neq; lia.
  - intros y. destruct (decide (y = x)) as [->|Hne].
    + rewrite lookup_insert_eq, bool_decide_true by (unfold x; lia). by rewrite Hpg.
    + rewrite lookup_insert_ne, Hs by done. repeat case_bool_decide; try done; unfold x in *; lia.
  - apply (core_page _ _ _ pg); [done|congruence|intros Hf; by apply Hid; left|done|intros _; apply scrub_unmarked|]. intros Hpcp. destruct Hid. by right.
  - unfold all_pass in *. split.
    + intros Hz y yg Hy Hyg. destruct (decide (y = x)) as [->|Hne].
      * assert (yg = pg) as -> by congruence. destruct (passes (mem_map s) x pg); [done|]. simpl in Hz. lia.
      * apply Hp; [destruct (passes _ _ _); simpl in Hz; lia|unfold x in *; lia|done].
    + intros Hall. rewrite (Hall x pg); [simpl|unfold x; lia|done]. rewrite Z.add_0_r. apply Hp. intros y yg Hy. apply Hall. lia.
Qed.

(** ** Freeing *)

(** The processor's list and its length. *)
Definition finv s : Prop := inv zn s /\ pcp_count s = len (lists s) Pcp.

(** The pages of [R] have become idle; only idle pages were touched. *)
Record returned s (R : Z -> Prop) s' : Prop := {
  rt_inv : finv s';
  rt_idle : forall x, idle (lists s') x <-> idle (lists s) x \/ R x;
  rt_pages : forall x, ~ (idle (lists s) x \/ R x) -> mem_map s' !! x = mem_map s !! x;
  rt_taint : tainted s' = tainted s
}.

Lemma inv_pages s P' b : inv zn s -> core zn (lists s) P' -> inv zn (with_tainted b (with_pages (fun _ => P') s)).
Proof. intros Hi Hc. by eapply (inv_recount s). Qed.

(** The flags of a page are the low bits of the word. *)
Definition flags_fit P (x : Z) : Prop := forall pg, P !! x = Some pg -> fits NR_PAGEFLAGS (pg_flags pg) /\ pg_count pg = 0.

Lemma scrub_quiet P x pg : P !! x = Some pg -> passes P x pg = true -> fits NR_PAGEFLAGS (pg_flags pg) -> pg_count pg = 0 ->
  pg_count (scrub P x pg) = 0 /\ pg_mapcount (scrub P x pg) = -1 /\ pg_mapping (scrub P x pg) = 0 /\ pg_flags (scrub P x pg) = 0.
Proof.
  intros Hx Hp Hf Hc. unfold scrub. cbn [pg_count pg_mapcount pg_mapping pg_flags with_flags]. rewrite Hp.
  unfold passes in Hp. apply andb_true_iff in Hp as [Hp _]. apply andb_true_iff in Hp as [Hp Hm]. apply andb_true_iff in Hp as [_ Hn].
  split; [done|]. split; [apply Z.eqb_eq in Hn; unfold page_mapcount in Hn; lia|]. split; [by apply Z.eqb_eq|].
  unfold PAGE_FLAGS_CHECK_AT_PREP. change (Z.shiftl 1 NR_PAGEFLAGS - 1) with (Z.ones 22). bitwise i Hi. rewrite Z.clearbit_eqb.
  destruct (Z.ltb_spec i 22).
  - replace (0 <=? i) with true by lia. apply andb_false_r.
  - by rewrite (fits_testbit_high 22 (pg_flags pg) i).
Qed.

(** A block whose pages pass the check goes to the free lists. *)
Lemma wp_free_pages_ok s p o : finv s -> checkable (lists s) (mem_map s) p o ->
  (forall x, range p o x -> flags_fit (mem_map s) x) -> all_pass (mem_map s) p (2 ^ o) ->
  wp (__free_pages_ok p o) (fun _ s' => returned s (range p o) s') s.
Proof.
  intros [Hi Hcnt] Hck Hfit Hall. unfold __free_pages_ok. apply wp_bind.
  eapply wp_mono; [apply (wp_check_loop s p o); [apply Hi|done]|]. intros bad s1 (P' & -> & Hs & Hc & Hbad).
  rewrite (proj2 Hbad Hall). cbn [negb Z.eqb]. rewrite orb_false_r. destruct Hck as [Hb Hx]. destruct (order_bounds _ _ _ Hb) as (Ho & Ho0 & Hpow).
  apply wp_bind, wp_modify. set (s2 := with_scanned _ _ _). assert (inv zn s2) as Hi2 by (by eapply (inv_recount s)).
  assert (releasable zn s2 p o) as Hrel.
  { split; [done|]. intros x Hxr. destruct (Hx x Hxr) as [Hid Hcount].
    split; [intros Hf; by apply Hid; left|]. split; [|intros Hf; by apply Hid; right].
    assert (exists pg, mem_map s !! x = Some pg) as [pg Hpg] by (destruct Hcount as [c Hc']; unfold count_of in Hc'; destruct (mem_map s !! x); [eauto|done]).
    destruct (Hfit x Hxr pg Hpg) as [Hff Hc0]. unfold range in Hxr.
    destruct (scrub_quiet (mem_map s) x pg Hpg (Hall x pg Hxr Hpg) Hff Hc0) as (E1 & E2 & E3 & E4).
    exists (scrub (mem_map s) x pg). split; [cbn [mem_map s2 with_scanned with_tainted with_pages]; rewrite Hs, bool_decide_true, Hpg by done; done|].
    split; [done|]. split; [done|]. split; [done|]. by rewrite E4. }
  eapply wp_mono; [apply (wp_free_one_page zn s2 p o Hi2 Hrel)|]. intros [] s3 Hfr.
  destruct (fr_within _ _ _ _ _ Hfr) as (Hpages & Hpcp & Hmisc). destruct (misc_count _ _ Hmisc) as [Hc3 Ht3].
  change (lists s2) with (lists s) in *. split.
  - split; [apply Hfr|]. rewrite Hc3. unfold len. rewrite Hpcp. exact Hcnt.
  - intros x. unfold idle. rewrite (fr_free _ _ _ _ _ Hfr). unfold on. rewrite Hpcp. change (lists s2) with (lists s). tauto.
  - intros x Hxn. rewrite Hpages by (unfold idle in Hxn; tauto). cbn [mem_map s2 with_scanned with_tainted with_pages].
    rewrite Hs, bool_decide_false; [done|]. intros Hr. apply Hxn. by right.
  - done.
Qed.

(** A block with a page that fails it is not freed, and the kernel is tainted. *)
Lemma wp_free_pages_bad s p o : finv s -> checkable (lists s) (mem_map s) p o -> ~ all_pass (mem_map s) p (2 ^ o) ->
  wp (__free_pages_ok p o) (fun _ s' => finv s' /\ tainted s' = true /\ lists s' = lists s /\ nr_free s' = nr_free s /\ vm_stat s' = vm_stat s /\
    forall x, ~ range p o x -> mem_map s' !! x = mem_map s !! x) s.
Proof.
  intros [Hi Hcnt] Hck Hno. unfold __free_pages_ok. apply wp_bind.
  eapply wp_mono; [apply (wp_check_loop s p o); [apply Hi|done]|]. intros bad s1 (P' & -> & Hs & Hc & Hbad).
  destruct (Z.eqb_spec bad 0) as [E|E]; [by apply Hbad in E|]. cbn [negb]. apply wp_ret. rewrite orb_true_r.
  split; [split; [by apply inv_pages|done]|]. split; [done|]. split; [done|]. split; [done|]. split; [done|].
  intros x Hx. cbn [mem_map with_tainted with_pages]. by rewrite Hs, bool_decide_false.
Qed.

(** A single page that may be freed: its count has come down to zero, nobody maps it, it
    belongs to no file, and no flag is set that may not be. *)
Definition single_ok (pg : Buddy.page) : Prop :=
  pg_count pg = 0 /\ pg_mapcount pg = -1 /\ (pg_mapping pg = 0 \/ PageAnon pg = true) /\ PageTail pg = false /\
  fits NR_PAGEFLAGS (pg_flags pg) /\ has (Z.clearbit (pg_flags pg) PG_mlocked) PAGE_FLAGS_CHECK_AT_FREE = false.

(** The limits of the processor's list, as setup_pageset sets them. *)
Definition pcp_ok : Prop := 0 < pcp_batch zn /\ (pcp_batch zn <= pcp_high zn \/ pcp_batch zn = 1).

Lemma shuffled_len s s' : shuffled s s' -> pcp_count s' = pcp_count s.
Proof. intros H. apply H. Qed.

(** What is left of free_hot_cold_page when the page is on the list. *)
Lemma wp_pcp_trim s : inv zn s -> pcp_ok -> 0 <= pcp_count s -> pcp_count s + 1 = len (lists s) Pcp ->
  wp (count ← asks pcp_count;
      modify (with_pcp_count (count + 1)) ;;
      if pcp_high zn <=? count + 1 then
        free_pages_bulk zn (pcp_batch zn) Pcp 0 ;;
        count ← asks pcp_count;
        modify (with_pcp_count (count - pcp_batch zn))
      else mret tt) (fun _ s' => returned s (fun _ => False) s' /\ (pcp_count s + 1 < pcp_high zn -> lists s' = lists s /\ bits s' = bits s)) s.
Proof.
  intros Hi [Hb Hh] Hnn Hcnt. apply wp_bind, wp_asks. apply wp_bind, wp_modify. set (s1 := with_pcp_count _ s).
  assert (inv zn s1) as Hi1 by (eapply (inv_recount s); [done|apply Hi|..]; done).
  destruct (Z.leb_spec (pcp_high zn) (pcp_count s + 1)).
  - apply wp_bind. assert (0 <= pcp_batch zn <= len (lists s1) Pcp) as Hle.
    { change (lists s1) with (lists s). split; [lia|]. rewrite <- Hcnt. lia. }
    eapply wp_mono; [apply (wp_free_pages_bulk s1 _ Hi1 Hle)|]. intros [] s2 (Hsh & Hlen & Hbits). apply wp_bind, wp_asks. apply wp_modify.
    set (s3 := with_pcp_count _ s2). split; [|lia]. split.
    + split; [eapply (inv_recount s2); [apply Hsh|apply Hsh|..]; done|]. cbn [pcp_count s3 with_pcp_count lists].
      rewrite (shuffled_len _ _ Hsh), Hlen. cbn [pcp_count s1 with_pcp_count lists]. lia.
    + intros x. change (idle (lists s2) x <-> idle (lists s) x \/ False). rewrite (sh_idle _ _ Hsh x). change (lists s1) with (lists s). tauto.
    + intros x Hx. change (mem_map s2 !! x = mem_map s !! x). rewrite (sh_pages _ _ Hsh); [done|]. change (lists s1) with (lists s). tauto.
    + apply Hsh.
  - apply wp_ret. split; [|done]. split; [split; [done|exact Hcnt]|intros x; cbn; tauto|done|done].
Qed.

Lemma wp_free_hot_cold_page s p pg cold : finv s -> pcp_ok -> in_zone zn p -> ~ idle (lists s) p -> mem_map s !! p = Some pg -> single_ok pg ->
  wp (free_hot_cold_page p cold) (fun _ s' => returned s (fun x => x = p) s' /\ (pcp_count s + 1 < pcp_high zn -> on (lists s') Pcp p /\ bits s' = bits s)) s.
Proof.
  intros [Hi Hcnt] Hpcp Hz Hid Hpg (Hc & Hm & Hmap & Htail & Hfit & Hchk). unfold free_hot_cold_page. apply wp_bind, (wp_page_at _ pg); [done|].
  set (pg1 := with_mapping 0 pg). apply wp_bind. apply (wp_mono _ (fun _ s' => s' = with_pages (insert p pg1) s)).
  { apply wp_if; intros Ha; [by apply (wp_page_update _ pg)|]. apply wp_ret. destruct Hmap as [Hmap|]; [|congruence].
    rewrite with_pages_id; [done|]. rewrite Hpg. f_equal. unfold pg1, with_mapping. rewrite <- Hmap. by destruct pg. }
  intros [] s1 ->. set (s1 := with_pages _ s).
  assert (mem_map s1 !! p = Some pg1) as Hpg1 by apply lookup_insert_eq.
  assert (count_of (mem_map s1) p = Some 0) as Hco.
  { unfold count_of. rewrite Hpg1. change (PageTail pg1) with (PageTail pg). rewrite Htail. change (pg_count pg1) with (pg_count pg). by rewrite Hc. }
  assert (passes (mem_map s1) p pg1 = true) as Hpass.
  { unfold passes. rewrite Hco, bool_decide_true by done. unfold page_mapcount. change (pg_mapcount pg1) with (pg_mapcount pg).
    change (pg_mapping pg1) with 0. change (pg_flags pg1) with (pg_flags pg). by rewrite Hm, Hchk. }
  apply wp_bind, (wp_free_pages_check _ p pg1); [done|eauto|]. rewrite Hpass. cbn [negb]. cbv iota. rewrite orb_false_r.
  destruct (scrub_quiet (mem_map s1) p pg1 Hpg1 Hpass Hfit Hc) as (E1 & E2 & E3 & E4).
  set (qg := scrub (mem_map s1) p pg1) in *. unfold s1 at 2. rewrite with_pages_twice. set (s2 := with_tainted _ _).
  assert (core zn (lists s) (<[p := qg]> (mem_map s))) as H2.
  { apply (core_page _ _ _ pg); [apply Hi|done|intros Hf; by apply Hid; left|done|intros _; apply scrub_unmarked|intros Hf; by destruct Hid; right]. }
  assert (inv zn s2) as Hi2 by (by eapply (inv_recount s)).
  assert (forall k, ~ on (lists s) k p) as Hoff.
  { apply on_none; [|intros Hf; by apply Hid; right]. intros o Ho. apply Hid. left. eapply fblock_self; [apply Hi|done]. }
  assert (quiet (<[p := qg]> (mem_map s)) p) as Hq by (exists qg; rewrite lookup_insert_eq; split_and!; try done; by rewrite E4).
  apply wp_bind. apply (wp_mono _ (fun _ s' => exists L3, s' = with_lists (fun _ => L3) s2 /\ lists_ok L3 /\ grew (lists s) Pcp 1 L3 /\
    forall k q, on L3 k q <-> on (lists s) k q \/ (k = Pcp /\ q = p))).
  { apply wp_if; intros _.
    - apply wp_pcp_add_tail; [apply H2|done|]. intros L3 HL3 Hon3 Hg3. by exists L3.
    - apply wp_pcp_add; [apply H2|done|done|]. intros L3 HL3 Hon3 Hg3. by exists L3. }
  intros [] s3 (L3 & -> & HL3 & Hg3 & Hon3).
  destruct (core_pcp_add (lists s) L3 _ p H2 Hz) as (H3 & Hfree3 & Hidle3); [intros Hf; by apply Hid; left|done|done|done|].
  apply wp_bind, wp_get_migratetype; [apply Hi2|done|]. apply wp_bind, (wp_page_update _ qg); [apply lookup_insert_eq|].
  set (t := ptype _ _ _). set (s4 := with_pages _ _).
  assert (inv zn s4) as Hi4.
  { eapply (inv_recount s2); [done| |intros o; by eapply grew_pcp_cnt|done|done|done]. cbn [lists mem_map s4 s2 with_pages with_lists with_tainted].
    apply (core_page _ _ _ qg); [done|apply lookup_insert_eq|rewrite Hfree3; intros Hf; by apply Hid; left|done|intros _; apply scrub_unmarked|done]. }
  eapply wp_mono; [apply (wp_pcp_trim s4); [done|done| |]|].
  - change (0 <= pcp_count s). rewrite Hcnt. apply len_nonneg.
  - change (pcp_count s + 1 = len L3 Pcp). destruct Hg3 as [-> _]. lia.
  - intros [] s5 [Hr Hstay]. split; [|intros Hlt; destruct (Hstay Hlt) as [-> ->]; split; [apply Hon3; by right|done]]. split.
    + apply Hr.
    + intros x. rewrite (rt_idle _ _ _ Hr). change (idle L3 x \/ False <-> idle (lists s) x \/ x = p). rewrite Hidle3. tauto.
    + intros x Hx. rewrite (rt_pages _ _ _ Hr).
      * cbn [mem_map s4 s2 with_pages with_lists with_tainted]. by rewrite !lookup_insert_ne by (intros <-; apply Hx; by right).
      * change (~ (idle L3 x \/ False)). rewrite Hidle3. tauto.
    + rewrite (rt_taint _ _ _ Hr). done.
Qed.

Lemma wp_drain_pages s : finv s -> wp drain_pages (fun _ s' => returned s (fun _ => False) s' /\ pcp_count s' = 0 /\ bits s' = bits s) s.
Proof.
  intros [Hi Hcnt]. apply wp_bind, wp_asks. apply wp_bind. rewrite Hcnt.
  eapply wp_mono; [apply (wp_free_pages_bulk s _ Hi); split; [apply len_nonneg|done]|]. intros [] s1 (Hsh & Hlen & Hbits). apply wp_modify.
  split; [|done]. split.
  - split; [eapply (inv_recount s1); [apply Hsh|apply Hsh|..]; done|]. cbn [pcp_count lists with_pcp_count]. lia.
  - intros x. change (idle (lists s1) x <-> idle (lists s) x \/ False). rewrite (sh_idle _ _ Hsh x). tauto.
  - intros x Hx. change (mem_map s1 !! x = mem_map s !! x). apply (sh_pages _ _ Hsh). tauto.
  - apply Hsh.
Qed.

(** ** Blocks that are in use *)

(** Nothing keeps the page from being freed but its count. *)
Definition settled_page (o : Z) (pg : Buddy.page) : Prop :=
  pg_mapcount pg = -1 /\ (pg_mapping pg = 0 \/ (o = 0 /\ PageAnon pg = true)) /\
  fits NR_PAGEFLAGS (pg_flags pg) /\ has (Z.clearbit (pg_flags pg) PG_mlocked) PAGE_FLAGS_CHECK_AT_FREE = false.

(** The block of order [o] at [p] is held by one user, as a plain or as a compound page. *)
Record held s (p o : Z) : Prop := {
  h_block : block zn p o;
  h_busy : forall x, range p o x -> ~ idle (lists s) x;
  h_head : exists pg, mem_map s !! p = Some pg /\ pg_count pg = 1 /\ settled_page o pg /\ PageTail pg = false;
  h_tail : forall x, range p o x -> x <> p -> exists pg, mem_map s !! x = Some pg /\ pg_count pg = 0 /\ settled_page o pg /\
    (PageTail pg = true -> pg_private pg = p)
}.

Lemma settled_passes P x pg o : o <> 0 -> settled_page o pg -> count_of P x = Some 0 -> passes P x pg = true.
Proof.
  intros Ho (Hm & Hmap & _ & Hchk) Hc. unfold passes, page_mapcount. rewrite Hc, bool_decide_true, Hm, Hchk by done.
  destruct Hmap as [-> |[? _]]; [done|lia].
Qed.

(** Dropping the last reference frees the block; a single page stays on the processor's
    list as long as that has room. *)
Lemma wp___free_pages s p o : finv s -> pcp_ok -> held s p o ->
  wp (__free_pages p o) (fun _ s' => returned s (range p o) s' /\ (o = 0 -> pcp_count s + 1 < pcp_high zn -> on (lists s') Pcp p /\ bits s' = bits s)) s.
Proof.
  intros [Hi Hcnt] Hpcp [Hb Hbusy (pg & Hpg & Hc & Hset & Htail) Htails]. destruct (order_bounds _ _ _ Hb) as (Ho & Ho0 & Hpow).
  assert (range p o p) as Hpp by by apply range_start. assert (in_zone zn p) as Hz by by apply Hb.
  unfold __free_pages. apply wp_bind. unfold put_page_testzero. apply wp_bind, (wp_page_at _ pg); [done|].
  apply wp_bind, (wp_page_update _ pg); [done|]. apply wp_ret. rewrite Hc. cbn [Z.sub Z.eqb]. change (1 - 1 =? 0) with true. cbv iota.
  change (1 - 1) with 0. set (pg1 := with_count 0 pg). set (s1 := with_pages _ s).
  assert (core zn (lists s) (<[p := pg1]> (mem_map s))) as H1.
  { apply (core_page _ _ _ pg); [apply Hi|done|intros Hf; apply (Hbusy p Hpp); by left|done| |intros Hf; destruct (Hbusy p Hpp); by right].
    intros _. change (PageBuddy pg = false). eapply core_unmarked; [apply Hi|done|done|]. intros Hf. apply (Hbusy p Hpp). by left. }
  assert (finv s1) as Hf1 by (split; [by eapply (inv_recount s)|done]).
  assert (forall s', returned s1 (range p o) s' -> returned s (range p o) s') as Hback.
  { intros s' [R1 R2 R3 R4]. split; [done|done| |done]. intros x Hx. rewrite R3 by done. cbn [mem_map s1 with_pages].
    apply lookup_insert_ne. intros <-. apply Hx. by right. }
  assert (mem_map s1 !! p = Some pg1) as Hpg1 by apply lookup_insert_eq.
  destruct (Z.eqb_spec o 0) as [->|Hne].
  - eapply wp_mono; [apply (wp_free_hot_cold_page s1 p pg1 false Hf1 Hpcp Hz); [by apply Hbusy|done|]|].
    + destruct Hset as (Hm & Hmap & Hfit & Hchk). split; [done|]. split; [done|]. split; [destruct Hmap as [?|[_ ?]]; [by left|by right]|done].
    + intros [] s' [Hr Hstay]. split; [|intros _; exact Hstay]. apply Hback. destruct Hr as [R1 R2 R3 R4]. split; [done| | |done]; intros x; rewrite range_0; auto.
  - assert (forall x yg, range p o x -> mem_map s1 !! x = Some yg -> settled_page o yg /\ pg_count yg = 0 /\ count_of (mem_map s1) x = Some 0) as Hall.
    { intros x yg Hx Hyg. destruct (decide (x = p)) as [->|Hxp].
      - assert (yg = pg1) as -> by congruence. split; [done|]. split; [done|]. unfold count_of. rewrite Hpg1. change (PageTail pg1) with (PageTail pg). by rewrite Htail.
      - destruct (Htails x Hx Hxp) as (xg & Hxg & Hxc & Hxs & Hxt). assert (mem_map s1 !! x = Some xg) as Hxg1 by (cbn; by rewrite lookup_insert_ne).
        assert (yg = xg) as -> by congruence. split; [done|]. split; [done|]. unfold count_of. rewrite Hxg1.
        destruct (PageTail xg); [|by rewrite Hxc]. rewrite Hxt by done. by rewrite Hpg1. }
    assert (forall x, range p o x -> exists yg, mem_map s1 !! x = Some yg) as Hex.
    { intros x Hx. destruct (decide (x = p)) as [->|Hxp]; [eauto|]. destruct (Htails x Hx Hxp) as (xg & Hxg & _). exists xg. cbn. by rewrite lookup_insert_ne. }
    eapply wp_mono; [apply (wp_free_pages_ok s1 p o Hf1)|].
    + split; [done|]. intros x Hx. split; [by apply Hbusy|]. destruct (Hex x Hx) as [yg Hyg]. destruct (Hall x yg Hx Hyg) as (_ & _ & ->). eauto.
    + intros x Hx yg Hyg. destruct (Hall x yg Hx Hyg) as ((_ & _ & ? & _) & ? & _). done.
    + intros x yg Hx Hyg. destruct (Hall x yg Hx Hyg) as (? & _ & ?). by eapply settled_passes.
    + intros [] s' Hr. split; [by apply Hback|done].
Qed.

(** ** The preparation of a new block *)

Definition page_is (c f : Z) (pg : Buddy.page) : Prop := pg_count pg = c /\ pg_mapcount pg = -1 /\ pg_mapping pg = 0 /\ pg_flags pg = f.

Lemma page_is_settled c f o pg : page_is c f pg -> f = 0 \/ f = 2 ^ PG_head \/ f = 2 ^ PG_tail -> settled_page o pg.
Proof.
  intros (_ & Hm & Hp & Hf) Hc. split; [done|]. split; [by left|]. rewrite Hf. by destruct Hc as [->|[->| ->]].
Qed.

Lemma page_is_buddy_free c f pg : page_is c f pg -> f = 0 \/ f = 2 ^ PG_head \/ f = 2 ^ PG_tail -> PageBuddy pg = false.
Proof. intros (_ & _ & _ & Hf) Hc. unfold PageBuddy. rewrite Hf. by destruct Hc as [->|[->| ->]]. Qed.

(** The pages of a block between prep_new_page's steps: the first one has the flags [f],
    those before the [n]-th are tails, the others have no flags. *)
Record preparing s (p o f n : Z) s' : Prop := {
  pr_state : exists P', s' = with_pages (fun _ => P') s;
  pr_core : core zn (lists s) (mem_map s');
  pr_out : forall x, ~ range p o x -> mem_map s' !! x = mem_map s !! x;
  pr_head : exists pg, mem_map s' !! p = Some pg /\ page_is 1 f pg;
  pr_tails : forall i, 1 <= i < n -> exists pg, mem_map s' !! (p + i) = Some pg /\ page_is 0 (2 ^ PG_tail) pg /\ pg_private pg = p;
  pr_rest : forall i, n <= i < 2 ^ o -> exists pg, mem_map s' !! (p + i) = Some pg /\ page_is 0 0 pg
}.

Lemma preparing_core s s' p o f n x pg pg' : (forall y, range p o y -> ~ idle (lists s) y) -> preparing s p o f n s' ->
  range p o x -> mem_map s' !! x = Some pg -> pg_zone_id pg' = pg_zone_id pg -> PageBuddy pg' = false ->
  core zn (lists s) (<[x := pg']> (mem_map s')).
Proof.
  intros Hbusy Hpr Hx Hpg Hz Hb. apply (core_page _ _ _ pg); [apply Hpr|done|intros Hf; apply (Hbusy x Hx); by left|done|done|].
  intros Hf. destruct (Hbusy x Hx). by right.
Qed.

Lemma preparing_held s s' p o f n : block zn p o -> (forall y, range p o y -> ~ idle (lists s) y) -> preparing s p o f n s' ->
  f = 0 \/ f = 2 ^ PG_head -> 1 <= n -> held s' p o.
Proof.
  intros Hb Hbusy Hpr Hf Hn. destruct (pr_state _ _ _ _ _ _ Hpr) as [P' ->]. split.
  - done.
  - exact Hbusy.
  - destruct (pr_head _ _ _ _ _ _ Hpr) as (pg & Hpg & His). exists pg. split; [done|]. split; [apply His|].
    split; [eapply page_is_settled; [done|tauto]|]. unfold PageTail. destruct His as (_ & _ & _ & ->). by destruct Hf as [->| ->].
  - intros x Hx Hne. unfold range in Hx. set (i := x - p). replace x with (p + i) in * by lia.
    destruct (decide (i < n)) as [Hlt|Hge].
    + destruct (pr_tails _ _ _ _ _ _ Hpr i) as (pg & Hpg & His & Hpriv); [lia|]. exists pg. split; [done|]. split; [apply His|].
      split; [eapply page_is_settled; [done|tauto]|done].
    + destruct (pr_rest _ _ _ _ _ _ Hpr i) as (pg & Hpg & His); [lia|]. exists pg. split; [done|]. split; [apply His|].
      split; [eapply page_is_settled; [done|tauto]|]. unfold PageTail. by destruct His as (_ & _ & _ & ->).
Qed.

Lemma wp_prep_compound s s1 p o : block zn p o -> 0 < o -> (forall x, range p o x -> ~ idle (lists s) x) -> preparing s p o 0 1 s1 ->
  wp (prep_compound_page p o) (fun _ s' => preparing s p o (2 ^ PG_head) (2 ^ o) s') s1.
Proof.
  intros Hb Ho Hbusy Hpr. destruct (order_bounds _ _ _ Hb) as (_ & Ho0 & Hpow). unfold prep_compound_page.
  assert (2 <= 2 ^ o) as H2 by (change 2 with (2 ^ 1) at 1; apply Z.pow_le_mono_r; lia).
  assert (forall i, 0 <= i < 2 ^ o -> range p o (p + i)) as Hin by (unfold range; lia).
  destruct (pr_rest _ _ _ _ _ _ Hpr 1) as (g1 & Hg1 & Hi1); [lia|]. destruct (pr_head _ _ _ _ _ _ Hpr) as (hg & Hhg & Hh).
  apply wp_bind, (wp_page_update _ g1); [done|]. set (l1 := with_lru _ _ g1). set (s2 := with_pages _ s1).
  assert (preparing s p o 0 1 s2) as Hpr2.
  { destruct (pr_state _ _ _ _ _ _ Hpr) as [P1 ->]. split.
    - by eexists.
    - eapply (preparing_core s _ p o 0 1 (p + 1) g1); [done|done|apply Hin; lia|done|done|].
      change (PageBuddy g1 = false). eapply page_is_buddy_free; [done|tauto].
    - intros x Hx. cbn [mem_map s2 with_pages]. rewrite lookup_insert_ne by (intros <-; apply Hx, Hin; lia). by apply (pr_out _ _ _ _ _ _ Hpr).
    - exists hg. cbn [mem_map s2 with_pages]. rewrite lookup_insert_ne by lia. done.
    - intros i Hi. lia.
    - intros i Hi. cbn [mem_map s2 with_pages]. destruct (decide (i = 1)) as [->|]; [rewrite lookup_insert_eq; by exists l1|].
      rewrite lookup_insert_ne by lia. by apply (pr_rest _ _ _ _ _ _ Hpr). }
  destruct (pr_head _ _ _ _ _ _ Hpr2) as (hg2 & Hhg2 & Hh2).
  apply wp_bind, (wp_page_update _ hg2); [done|]. set (l2 := with_flags _ hg2). set (s3 := with_pages _ s2).
  assert (page_is 1 (2 ^ PG_head) l2) as Hl2 by (destruct Hh2 as (? & ? & ? & E); split; [done|]; split; [done|]; split; [done|]; cbn [l2 pg_flags with_flags]; by rewrite E).
  assert (preparing s p o (2 ^ PG_head) 1 s3) as Hpr3.
  { destruct (pr_state _ _ _ _ _ _ Hpr2) as [P2 E2]. split.
    - exists (<[p := l2]> P2). unfold s3. by rewrite E2.
    - eapply (preparing_core s _ p o 0 1 p hg2); [done|done|apply range_start; lia|done|done|]. eapply page_is_buddy_free; [done|tauto].
    - intros x Hx. cbn [mem_map s3 with_pages]. rewrite lookup_insert_ne by (intros <-; apply Hx, range_start; lia). by apply (pr_out _ _ _ _ _ _ Hpr2).
    - exists l2. cbn [mem_map s3 with_pages]. rewrite lookup_insert_eq. done.
    - intros i Hi. lia.
    - intros i Hi. cbn [mem_map s3 with_pages]. rewrite lookup_insert_ne by lia. by apply (pr_rest _ _ _ _ _ _ Hpr2). }
  rewrite Z.shiftl_1_l. apply (wp_for_up (fun n s' => preparing s p o (2 ^ PG_head) n s')); [lia|done| |done].
  clear - Hbusy Hin. intros n s1 Hn Hpr. destruct (pr_rest _ _ _ _ _ _ Hpr n) as (g & Hg & Hi); [lia|].
  apply wp_bind, (wp_page_update _ g); [done|]. eapply wp_page_update; [apply lookup_insert_eq|]. rewrite with_pages_twice.
  set (l := with_private p _). set (s2 := with_pages _ s1).
  assert (page_is 0 (2 ^ PG_tail) l) as Hl by (destruct Hi as (? & ? & ? & E); split; [done|]; split; [done|]; split; [done|]; cbn [l pg_flags with_flags with_private]; by rewrite E).
  destruct (pr_state _ _ _ _ _ _ Hpr) as [P1 E1]. split.
  - exists (<[p + n := l]> P1). unfold s2. by rewrite E1.
  - eapply (preparing_core s _ p o _ n (p + n) g); [done|done|apply Hin; lia|done|done|]. eapply page_is_buddy_free; [done|tauto].
  - intros x Hx. cbn [mem_map s2 with_pages]. rewrite lookup_insert_ne by (intros <-; apply Hx, Hin; lia). by apply (pr_out _ _ _ _ _ _ Hpr).
  - cbn [mem_map s2 with_pages]. rewrite lookup_insert_ne by lia. apply (pr_head _ _ _ _ _ _ Hpr).
  - intros i Hi'. cbn [mem_map s2 with_pages]. destruct (decide (i = n)) as [->|]; [rewrite lookup_insert_eq; by exists l|].
    rewrite lookup_insert_ne by lia. apply (pr_tails _ _ _ _ _ _ Hpr). lia.
  - intros i Hi'. cbn [mem_map s2 with_pages]. rewrite lookup_insert_ne by lia. apply (pr_rest _ _ _ _ _ _ Hpr). lia.
Qed.

(** A block of unused pages passes the check and is held afterwards. *)
Lemma wp_prep_new_page s p o gfp : inv zn s -> block zn p o ->
  (forall x, range p o x -> ~ idle (lists s) x /\ quiet (mem_map s) x) ->
  wp (prep_new_page p o gfp) (fun r s' => r = false /\ held s' p o /\ (exists P', s' = with_pages (fun _ => P') s) /\
    core zn (lists s) (mem_map s') /\ forall x, ~ range p o x -> mem_map s' !! x = mem_map s !! x) s.
Proof.
  intros Hi Hb Hx. destruct (order_bounds _ _ _ Hb) as (Ho & Ho0 & Hpow).
  assert (forall i, 0 <= i < 2 ^ o -> range p o (p + i)) as Hin by (unfold range; lia).
  assert (forall x, range p o x -> exists pg, mem_map s !! x = Some pg /\ page_is 0 0 pg) as Hplain.
  { intros x Hxr. destruct (Hx x Hxr) as [Hid (pg & Hpg & Hc & Hm & Hmap & Hfl)]. exists pg. split; [done|]. split; [done|]. split; [done|]. split; [done|].
    apply quiet_unmarked_flags; [done|]. eapply core_unmarked; [apply Hi|by apply Hb|done|]. intros Hf. apply Hid. by left. }
  assert (forall x, range p o x -> ~ idle (lists s) x) as Hbusy by (intros x Hxr; by apply Hx).
  destruct (Hplain p) as (pg & Hpg & Hc & Hm & Hmap & Hfl); [by apply range_start|].
  unfold prep_new_page. apply wp_bind, (wp_page_at _ pg); [done|].
  assert (count_of (mem_map s) p = Some 0) as Hco by (unfold count_of, PageTail; rewrite Hpg, Hfl; cbn; by rewrite Hc).
  apply wp_bind, (wp_page_count _ 0); [done|]. unfold page_mapcount. rewrite Hm, Hmap, Hfl. cbn [negb orb].
  change (negb (-1 + 1 =? 0) || negb (0 =? 0) || negb (0 =? 0) || has 0 PAGE_FLAGS_CHECK_AT_PREP) with false. cbv iota.
  apply wp_bind, (wp_page_update _ pg); [done|]. apply wp_bind. eapply wp_page_update; [apply lookup_insert_eq|]. rewrite with_pages_twice.
  set (l := with_count 1 _). set (s1 := with_pages _ s).
  assert (preparing s p o 0 1 s1) as Hpr.
  { assert (page_is 1 0 l) as Hl by done. split.
    - by eexists.
    - cbn [mem_map s1 with_pages]. apply (core_page _ _ _ pg); [apply Hi|done|intros Hf; apply (Hbusy p); [by apply range_start|by left]|done| |].
      + intros _. eapply page_is_buddy_free; [done|tauto].
      + intros Hf. destruct (Hbusy p); [by apply range_start|by right].
    - intros x Hxn. cbn [mem_map s1 with_pages]. apply lookup_insert_ne. intros <-. apply Hxn. by apply range_start.
    - exists l. cbn [mem_map s1 with_pages]. by rewrite lookup_insert_eq.
    - intros i Hi'. lia.
    - intros i Hi'. cbn [mem_map s1 with_pages]. rewrite lookup_insert_ne by lia. apply Hplain, Hin. lia. }
  apply wp_bind. apply (wp_mono _ (fun _ s' => exists f n, (f = 0 \/ f = 2 ^ PG_head) /\ 1 <= n /\ preparing s p o f n s')).
  { apply wp_if; intros Ec.
    - apply andb_true_iff in Ec as [Ec _]. apply negb_true_iff, Z.eqb_neq in Ec.
      eapply wp_mono; [apply (wp_prep_compound s s1 p o Hb); [lia|done|done]|]. intros [] s2 Hpr2. exists (2 ^ PG_head), (2 ^ o).
      split; [by right|]. split; [lia|done].
    - apply wp_ret. exists 0, 1. split; [by left|]. split; [lia|done]. }
  intros [] s2 (f & n & Hf & Hn & Hpr2). apply wp_ret. split; [done|]. split; [by eapply preparing_held|]. split; [apply Hpr2|]. split; apply Hpr2.
Qed.

(** ** Allocation *)

Lemma wp_pcp_find s t l (Q : option Z -> state -> Prop) : (forall x, x ∈ l -> is_Some (mem_map s !! x)) ->
  (forall r, match r with Some p => p ∈ l | None => True end -> Q r s) -> wp (pcp_find t l) Q s.
Proof.
  revert Q. induction l as [|p l IH]; intros Q Hl HQ; cbn [pcp_find].
  - apply wp_ret. by apply HQ.
  - destruct (Hl p) as [pg Hpg]; [apply elem_of_cons; by left|]. apply wp_bind, (wp_page_at _ pg); [done|]. apply wp_if; intros _.
    + apply wp_ret. apply HQ. apply elem_of_cons. by left.
    + apply IH; [intros x Hx; apply Hl, elem_of_cons; by right|]. intros [q|] Hr; apply HQ; [apply elem_of_cons; by right|done].
Qed.

(** Idle pages have moved and the count of the processor's list has followed. *)
Record refilled s s' : Prop := {
  rf_inv : finv s';
  rf_idle : forall x, idle (lists s') x <-> idle (lists s) x;
  rf_pages : forall x, ~ idle (lists s) x -> mem_map s' !! x = mem_map s !! x;
  rf_taint : tainted s' = tainted s
}.

Lemma refilled_refl s : finv s -> refilled s s.
Proof. by split. Qed.

Lemma refilled_trans s s1 s2 : refilled s s1 -> refilled s1 s2 -> refilled s s2.
Proof.
  intros [A1 A2 A3 A4] [B1 B2 B3 B4]. split; [done| | |congruence].
  - intros x. by rewrite B2, A2.
  - intros x Hx. rewrite B3 by by rewrite A2. by apply A3.
Qed.

(** rmqueue_bulk onto the processor's list with its count brought up to date. *)
Lemma wp_refill {A} s t (k : Z -> ZM A) (Q : A -> state -> Prop) :
  finv s -> 0 < pcp_batch zn -> 0 <= t < MIGRATE_TYPES ->
  (forall n s', 0 <= n -> refilled s s' -> pcp_count s' = pcp_count s + n ->
     (n = 0 -> t < MIGRATE_RESERVE -> forall c u, 0 <= c < MAX_ORDER -> usable u -> nothing s c u) -> wp (k n) Q s') ->
  wp (n ← rmqueue_bulk zn 0 (pcp_batch zn) (Head Pcp) t;
      count ← asks pcp_count;
      modify (with_pcp_count (count + n)) ;; k n) Q s.
Proof.
  intros [Hi Hcnt] Hb Ht HQ. apply wp_bind. eapply wp_mono; [apply (wp_rmqueue_bulk s (pcp_batch zn) t Hi); [lia|done]|].
  intros n s1 (Hsh & Hn & Hlen & H0). apply wp_bind, wp_asks. apply wp_bind, wp_modify. apply HQ.
  - lia.
  - split.
    + split; [eapply (inv_recount s1); [apply Hsh|apply Hsh|..]; done|]. cbn [pcp_count lists with_pcp_count]. rewrite (sh_count _ _ Hsh), Hlen, Hcnt. done.
    + apply Hsh.
    + apply Hsh.
    + apply Hsh.
  - cbn [pcp_count with_pcp_count]. by rewrite (sh_count _ _ Hsh).
  - intros E Hr. apply H0; [done|lia|done].
Qed.

(** The page [p] has been taken out of the idle pages. *)
Record picked s (p : Z) s' : Prop := {
  pk_inv : finv s';
  pk_was : idle (lists s) p;
  pk_quiet : quiet (mem_map s') p;
  pk_idle : forall x, idle (lists s') x <-> idle (lists s) x /\ x <> p;
  pk_pages : forall x, ~ idle (lists s) x -> mem_map s' !! x = mem_map s !! x;
  pk_taint : tainted s' = tainted s
}.

Lemma wp_pick s0 s p : refilled s0 s -> on (lists s) Pcp p ->
  wp (page_list_del p ;; count ← asks pcp_count; modify (with_pcp_count (count - 1)) ;; mret (Some p))
    (fun r s' => r = Some p /\ picked s0 p s') s.
Proof.
  intros [[Hi Hcnt] R2 R3 R4] Hp. pose proof (i_core _ _ Hi) as H. apply wp_bind, (wp_list_del Pcp); [apply H|done|]. intros L1 HL1 Hon1 Hg1 _.
  destruct (inv_pcp_del s L1 p Hi Hp HL1 Hon1 Hg1) as (Hi1 & _ & Hid1). apply wp_bind, wp_asks. apply wp_bind, wp_modify. apply wp_ret.
  split; [done|]. split.
  - split; [eapply (inv_recount (with_lists (fun _ => L1) s)); [done|apply Hi1|..]; done|]. cbn [pcp_count lists with_pcp_count with_lists].
    destruct Hg1 as [-> _]. lia.
  - apply R2. by right.
  - cbn [mem_map with_pcp_count with_lists]. by destruct (c_pcp _ _ _ H p Hp) as (_ & _ & ?).
  - intros x. cbn [lists with_pcp_count with_lists]. by rewrite Hid1, R2.
  - intros x Hx. cbn [mem_map with_pcp_count with_lists]. by apply R3.
  - done.
Qed.

(** When a single page is refused: the processor's list is empty and no list that may be
    allocated from has a block. *)
Definition drained s (t : Z) : Prop := pcp_count s = 0 /\ (t < MIGRATE_RESERVE -> forall c u, 0 <= c < MAX_ORDER -> usable u -> nothing s c u).

Lemma wp_pcp_alloc s cold t : finv s -> 0 < pcp_batch zn -> 0 <= t < MIGRATE_TYPES ->
  wp (pcp_alloc cold t) (fun r s' => match r with Some p => picked s p s' | None => refilled s s' /\ drained s t end) s.
Proof.
  intros Hf Hb Ht. unfold pcp_alloc. apply wp_bind, wp_asks. apply wp_bind.
  apply (wp_mono _ (fun c s1 => refilled s s1 /\ c = pcp_count s1 /\ (c = 0 -> drained s t))).
  { destruct (Z.eqb_spec (pcp_count s) 0) as [E|E].
    - destruct Hf as [Hi Hcnt]. apply wp_bind. eapply wp_mono; [apply (wp_rmqueue_bulk s (pcp_batch zn) t Hi); [lia|done]|].
      intros n s1 (Hsh & Hn & Hlen & H0). apply wp_bind, wp_modify. apply wp_ret. split; [|split; [done|]].
      + split; [|apply Hsh|apply Hsh|apply Hsh]. split; [eapply (inv_recount s1); [apply Hsh|apply Hsh|..]; done|].
        cbn [pcp_count lists with_pcp_count]. lia.
      + intros ->. split; [done|]. apply H0; [done|lia].
    - apply wp_ret. split; [by apply refilled_refl|]. split; [done|]. intros E'. lia. }
  intros c s1 (Hr & -> & H0). destruct (Z.eqb_spec (pcp_count s1) 0) as [E|E]; [apply wp_ret; auto|].
  destruct (rf_inv _ _ Hr) as [Hi1 Hcnt1]. pose proof (i_core _ _ Hi1) as H1. destruct (has_pcp _ (c_lists _ _ _ H1)) as [l Hl].
  apply wp_bind, (wp_list_at _ l); [done|]. assert (forall x, x ∈ (if cold then reverse l else l) -> on (lists s1) Pcp x) as Hin.
  { intros x Hx. exists l. split; [done|]. revert Hx. destruct cold; [rewrite elem_of_reverse|]; done. }
  apply wp_bind, wp_pcp_find.
  { intros x Hx. destruct (c_pcp _ _ _ H1 x (Hin x Hx)) as (_ & _ & (pg & ? & _)). eauto. }
  assert (forall s2 p, refilled s s2 -> on (lists s2) Pcp p ->
    wp (page_list_del p ;; count ← asks pcp_count; modify (with_pcp_count (count - 1)) ;; mret (Some p))
      (fun r s' => match r with Some p => picked s p s' | None => refilled s s' /\ drained s t end) s2) as Hlast.
  { intros s2 p Hr2 Hp. eapply wp_mono; [by apply (wp_pick s s2 p)|]. by intros r s' [-> ?]. }
  intros [p|] Hp.
  - apply wp_bind, wp_ret. apply Hlast; [done|by apply Hin].
  - apply wp_bind.
    apply (wp_mono _ (fun q s2 => refilled s s2 /\ on (lists s2) Pcp q)); [|intros q s2 [? ?]; by apply Hlast].
    apply (wp_refill s1 t (fun _ => page_list_first Pcp)); [apply Hr|done|done|]. intros n s2 Hn Hr2 Hc2 _.
    destruct (rf_inv _ _ Hr2) as [Hi2 Hcnt2]. destruct (has_pcp _ (c_lists _ _ _ (i_core _ _ Hi2))) as [l2 Hl2].
    destruct l2 as [|q l2].
    { exfalso. unfold len in Hcnt2. rewrite Hl2 in Hcnt2. simpl in Hcnt2. pose proof (len_nonneg (lists s1) Pcp). lia. }
    apply (wp_page_list_first _ q l2); [done|]. split; [by eapply refilled_trans|]. exists (q :: l2). split; [done|]. apply elem_of_cons. by left.
Qed.

(** The block at [p] has been handed out. *)
Record taken s (p o : Z) s' : Prop := {
  tk_inv : finv s';
  tk_held : held s' p o;
  tk_was : forall x, range p o x -> idle (lists s) x;
  tk_idle : forall x, idle (lists s') x <-> idle (lists s) x /\ ~ range p o x;
  tk_pages : forall x, ~ idle (lists s) x -> mem_map s' !! x = mem_map s !! x;
  tk_taint : tainted s' = tainted s
}.

(** prep_new_page on a block that has left the idle pages. *)
Lemma wp_prep s s1 p o gfp : finv s1 -> block zn p o -> (forall x, range p o x -> idle (lists s) x) ->
  (forall x, range p o x -> quiet (mem_map s1) x) -> (forall x, idle (lists s1) x <-> idle (lists s) x /\ ~ range p o x) ->
  (forall x, ~ idle (lists s) x -> mem_map s1 !! x = mem_map s !! x) -> tainted s1 = tainted s ->
  wp (prep_new_page p o gfp) (fun r s' => r = false /\ taken s p o s') s1.
Proof.
  intros [Hi Hcnt] Hb Hwas Hq Hid Hpages Ht. eapply wp_mono; [apply (wp_prep_new_page s1 p o gfp Hi Hb)|].
  - intros x Hx. split; [rewrite Hid; tauto|by apply Hq].
  - intros r s' (-> & Hheld & (P' & ->) & Hc & Hout). split; [done|]. cbn [mem_map with_pages] in Hc, Hout. split.
    + split; [by eapply (inv_recount s1)|done].
    + done.
    + done.
    + exact Hid.
    + intros x Hx. cbn [mem_map with_pages]. rewrite Hout by (intros Hr; by apply Hx, Hwas). by apply Hpages.
    + done.
Qed.

Lemma allocated_idle s p o s' : inv zn s -> allocated zn s p o s' -> forall x, idle (lists s') x <-> idle (lists s) x /\ ~ range p o x.
Proof.
  intros Hi Hal x. unfold idle. rewrite (al_free _ _ _ _ _ Hal). destruct (al_within _ _ _ _ _ Hal) as (_ & Hp & _). unfold on. rewrite Hp.
  split; [|tauto]. intros [?|Hx]; [tauto|]. split; [by right|]. intros Hr. apply (al_was _ _ _ _ _ Hal) in Hr.
  destruct (c_pcp _ _ _ (i_core _ _ Hi) x Hx) as (_ & ? & _). done.
Qed.

Lemma wp_buffered_rmqueue s fuel o gfp : finv s -> 0 < pcp_batch zn -> 0 <= o < MAX_ORDER -> allocflags_to_migratetype gfp < MIGRATE_RESERVE ->
  (0 < fuel)%nat ->
  wp (buffered_rmqueue fuel o gfp) (fun r s' =>
    match r with
    | Some p => taken s p o s'
    | None => refilled s s' /\ (o = 0 -> pcp_count s = 0) /\ forall c u, o <= c < MAX_ORDER -> usable u -> nothing s c u
    end) s.
Proof.
  intros Hf Hb Ho Ht Hfuel. set (t := allocflags_to_migratetype gfp) in *.
  assert (0 <= t < MIGRATE_TYPES) as Ht'.
  { split; [|unfold MIGRATE_TYPES, MIGRATE_RESERVE in *; lia]. unfold t, allocflags_to_migratetype. destruct (page_group_by_mobility_disabled zn); [done|].
    destruct (has gfp __GFP_MOVABLE), (has gfp __GFP_RECLAIMABLE); done. }
  unfold buffered_rmqueue. fold t. destruct fuel as [|fuel]; [lia|]. cbn [loop]. apply wp_bind. apply wp_bind.
  apply (wp_mono _ (fun r s1 => match r with
    | Some p => finv s1 /\ block zn p o /\ (forall x, range p o x -> idle (lists s) x) /\ (forall x, range p o x -> quiet (mem_map s1) x) /\
        (forall x, idle (lists s1) x <-> idle (lists s) x /\ ~ range p o x) /\ (forall x, ~ idle (lists s) x -> mem_map s1 !! x = mem_map s !! x) /\
        tainted s1 = tainted s
    | None => refilled s s1 /\ (o = 0 -> pcp_count s = 0) /\ forall c u, o <= c < MAX_ORDER -> usable u -> nothing s c u end)).
  - destruct (Z.eqb_spec o 0) as [->|Hne].
    + eapply wp_mono; [by apply (wp_pcp_alloc s _ t)|]. intros [p|] s1.
      * intros [K1 K2 K3 K4 K5 K6]. split; [done|]. split; [apply block_0; by eapply idle_zone; [apply Hf|]|].
        split; [intros x Hx; by apply range_0 in Hx as ->|]. split; [intros x Hx; by apply range_0 in Hx as ->|].
        split; [intros x; by rewrite K4, range_0|]. done.
      * intros (Hr & Hc & Hno). split; [done|]. split; [done|]. intros c u Hcr. by apply Hno.
    + destruct Hf as [Hi Hcnt]. eapply wp_mono; [apply (wp_rmqueue zn s o t Hi Ho Ht')|]. intros [p|] s1.
      * intros Hal. destruct (al_within _ _ _ _ _ Hal) as (Hpg & Hpcp & Hmisc). destruct (misc_count _ _ Hmisc) as [Hc1 Ht1].
        split; [split; [apply Hal|rewrite Hc1; unfold len; by rewrite Hpcp]|]. split; [exact (al_block _ _ _ _ _ Hal)|].
        split; [intros x Hx; left; by apply (al_was _ _ _ _ _ Hal)|]. split; [by apply (al_quiet _ _ _ _ _ Hal)|].
        split; [by apply allocated_idle|]. split; [|done]. intros x Hx. apply Hpg. intros Hf. apply Hx. by left.
      * intros [-> Hno]. split; [apply refilled_refl; by split|]. split; [lia|]. by apply Hno.
  - intros [p|] s1.
    + intros (A1 & A2 & A3 & A4 & A5 & A6 & A7). apply wp_bind. eapply wp_mono; [apply (wp_prep s s1 p o gfp); done|].
      intros r s2 [-> Htk]. cbv iota. by apply wp_ret, wp_ret.
    + intros Hr. by apply wp_ret, wp_ret.
Qed.

(** ** Watermarks *)

Definition wmark_min (mark flags : Z) : Z :=
  let m := if has flags ALLOC_HIGH then mark - mark / 2 else mark in
  if has flags ALLOC_HARDER then m - m / 4 else m.

(** Above the mark: after the allocation more than [min] pages, and those held in reserve
    for other zones, are left, and for every order below, more than the fitting fraction
    of [min] is left in larger blocks. *)
Definition above_mark s (order mark reserve flags : Z) : Prop :=
  let rest := total (lists s) - 2 ^ order + 1 in
  wmark_min mark flags + reserve < rest /\
  forall k, 1 <= k <= order -> wmark_min mark flags / 2 ^ k < rest - total_below (Z.to_nat k) (lists s).

Lemma wmark_min_range mark flags : 0 <= mark -> 0 <= wmark_min mark flags <= mark.
Proof.
  intros Hm. unfold wmark_min. destruct (has flags ALLOC_HIGH), (has flags ALLOC_HARDER); cbv zeta; Z.div_mod_to_equations; lia.
Qed.

Lemma wmark_min_quot mark flags : 0 <= mark ->
  (let min := if has flags ALLOC_HIGH then mark - Z.quot mark 2 else mark in
   if has flags ALLOC_HARDER then min - Z.quot min 4 else min) = wmark_min mark flags.
Proof.
  intros Hm. unfold wmark_min. cbv zeta. destruct (has flags ALLOC_HIGH), (has flags ALLOC_HARDER);
    rewrite ?Z.quot_div_nonneg by (lia || (Z.div_mod_to_equations; lia)); done.
Qed.

Lemma total_below_S L k : 0 <= k -> total_below (Z.to_nat (k + 1)) L = total_below (Z.to_nat k) L + cnt L k * 2 ^ k.
Proof. intros Hk. replace (Z.to_nat (k + 1)) with (S (Z.to_nat k)) by lia. cbn [total_below]. by rewrite Z2Nat.id by lia. Qed.

Lemma total_below_le L k : 0 <= k <= MAX_ORDER -> 0 <= total_below (Z.to_nat k) L <= total L.
Proof. intros Hk. split; [apply total_below_nonneg|]. apply total_below_mono. lia. Qed.

Lemma s32_small z : - 2 ^ 31 <= z < 2 ^ 31 -> s32 z = z.
Proof. intros. by apply swrap_id. Qed.

(** The loop catches the case that the unsigned comparison lets through. *)
Lemma rest_nonneg L order m : 0 <= order -> 0 <= m -> 0 <= total L ->
  (forall k, 1 <= k <= order -> m / 2 ^ k < total L - 2 ^ order + 1 - total_below (Z.to_nat k) L) -> 0 <= total L - 2 ^ order + 1.
Proof.
  intros Ho Hm Ht H. destruct (decide (order = 0)) as [->|]; [simpl; lia|]. specialize (H 1 ltac:(lia)).
  pose proof (total_below_nonneg L (Z.to_nat 1)). assert (0 <= m / 2 ^ 1) by (apply Z.div_pos; lia). lia.
Qed.

Lemma wp_zone_watermark_ok s order mark idx flags reserve : zone_ok zn -> inv zn s -> 0 <= order < MAX_ORDER ->
  lowmem_reserve zn !! Z.to_nat idx = Some reserve -> 0 <= mark -> 0 <= reserve -> mark + reserve < 2 ^ 31 ->
  wp (zone_watermark_ok order mark idx flags) (fun r s' => s' = s /\ (r = true <-> above_mark s order mark reserve flags)) s.
Proof.
  intros Hz Hi Ho Hres Hmark Hr0 Hsum. pose proof (total_bound _ _ _ (i_core _ _ Hi) Hz) as [Ht0 Ht]. pose proof Hz as (Hz0 & _ & Hzs). change (2 ^ 20) with 1048576 in Hzs.
  assert (0 < 2 ^ order <= 1024) as Hpow.
  { split; [apply Z.pow_pos_nonneg; lia|]. change 1024 with (2 ^ 10). apply Z.pow_le_mono_r; unfold MAX_ORDER in *; lia. }
  change (2 ^ 31) with 2147483648 in *.
  pose proof (wmark_min_range mark flags Hmark) as Hmin. set (F := total (lists s) - 2 ^ order + 1).
  assert (total (lists s) <= 1048576) as Htot by lia.
  unfold zone_watermark_ok. apply wp_bind, wp_asks. pose proof (wmark_min_quot mark flags Hmark) as Em. cbv zeta in Em |- *. rewrite Z.shiftl_1_l, (inv_vm_stat zn s Hi Hz).
  rewrite (s32_small mark) by (change (2 ^ 31) with 2147483648; lia).
  rewrite (wrap_id 32 (total (lists s))) by (unfold fits; change (2 ^ 32) with 4294967296; lia).
  rewrite Em. fold F. set (m := wmark_min mark flags) in *.
  rewrite (s32_small F) by (change (2 ^ 31) with 2147483648; unfold F; lia). rewrite Hres.
  rewrite (wrap_id 32 (m + reserve)) by (unfold fits; change (2 ^ 32) with 4294967296; lia).
  destruct (Z.leb_spec (u32 F) (m + reserve)) as [Hle|Hgt].
  - apply wp_ret. split; [done|]. split; [done|]. intros [Habove _]. fold F m in Habove. rewrite (wrap_id 32 F) in Hle; [lia|].
    unfold fits. change (2 ^ 32) with 4294967296. unfold F in *. lia.
  - apply (wp_loop (fun '(o, f, n) s' => s' = s /\ 0 <= o <= order /\ f = F - total_below (Z.to_nat o) (lists s) /\ n = m / 2 ^ o /\
        forall k, 1 <= k <= o -> m / 2 ^ k < F - total_below (Z.to_nat k) (lists s)) (fun '(o, f, n) => Z.to_nat (order - o))); [|simpl; lia|].
    { split; [done|]. split; [lia|]. split; [simpl; lia|]. split; [by rewrite Z.div_1_r|]. intros k Hk. lia. }
    intros [[o f] n] s' (-> & Hor & -> & -> & Hall). destruct (Z.ltb_spec o order) as [Hlt|Hge].
    + apply wp_bind, wp_asks. rewrite (inv_nr_free zn s o Hi Hz) by lia. cbv zeta.
      pose proof (total_below_le (lists s) (o + 1)) as Hb1. pose proof (total_below_S (lists s) o) as HS.
      rewrite Z.shiftl_mul_pow2 by lia.
      assert (F - total_below (Z.to_nat o) (lists s) - cnt (lists s) o * 2 ^ o = F - total_below (Z.to_nat (o + 1)) (lists s)) as -> by lia.
      rewrite s32_small by (change (2 ^ 31) with 2147483648; unfold F; lia).
      assert (Z.shiftr (m / 2 ^ o) min_free_order_shift = m / 2 ^ (o + 1)) as ->.
      { unfold min_free_order_shift. rewrite Z.shiftr_div_pow2, Z.div_div, Z.pow_add_r by lia. done. }
      destruct (Z.leb_spec (F - total_below (Z.to_nat (o + 1)) (lists s)) (m / 2 ^ (o + 1))) as [Hstop|Hgo].
      * apply wp_ret. split; [done|]. split; [done|]. intros [_ Hk]. specialize (Hk (o + 1)). fold F m in Hk. lia.
      * apply wp_ret. split; [|lia]. split; [done|]. split; [lia|]. split; [done|]. split; [done|]. intros k Hk.
        destruct (decide (k = o + 1)) as [->|]; [done|apply Hall; lia].
    + apply wp_ret. split; [done|]. split; [|done]. intros _. replace o with order in Hall by lia. split; [|done]. fold F m.
      destruct (decide (0 <= F)) as [HF|HF]; [rewrite (wrap_id 32 F) in Hgt; [done|]; unfold fits; change (2 ^ 32) with 4294967296; unfold F in *; lia|].
      destruct HF. apply (rest_nonneg (lists s) order m); [lia|lia|done|done].
Qed.

Lemma total_def L : total L = total_below (Z.to_nat MAX_ORDER) L.
Proof. done. Qed.

(** Where the sum of the blocks grows there is a block. *)
Lemma total_gap L a n : total_below a L < total_below n L -> exists k, (a <= k < n)%nat /\ 0 < cnt L (Z.of_nat k).
Proof.
  induction n as [|n IH]; intros H; [pose proof (total_below_nonneg L a); simpl in H; lia|].
  destruct (decide (total_below a L < total_below n L)) as [Hd|Hd].
  - destruct (IH Hd) as (k & ? & ?). exists k. split; [lia|done].
  - exists n. cbn [total_below] in H. pose proof (cnt_nonneg L (Z.of_nat n)). pose proof (pow2_pos (Z.of_nat n)). split; [|nia].
    split; [|lia]. destruct (decide (a <= n)%nat); [done|]. pose proof (total_below_mono L (S n) a) as Hm. cbn [total_below] in Hm. lia.
Qed.

Lemma cnt_pos L k : 0 < cnt L k -> exists p, fblock L p k.
Proof.
  assert (forall t, 0 < len L (Free k t) -> exists p, fblock L p k) as Ht.
  { intros t. unfold len. destruct (L !! Free k t) as [[|p l]|] eqn:E; simpl; try lia. intros _. exists p, t, (p :: l). split; [done|]. apply elem_of_cons. by left. }
  unfold cnt. intros H. pose proof (len_nonneg L (Free k 0)). pose proof (len_nonneg L (Free k 1)). pose proof (len_nonneg L (Free k 2)).
  pose proof (len_nonneg L (Free k 3)).
  destruct (decide (0 < len L (Free k 0))); [eauto|]. destruct (decide (0 < len L (Free k 1))); [eauto|].
  destruct (decide (0 < len L (Free k 2))); [eauto|]. destruct (decide (0 < len L (Free k 3))); [eauto|]. apply (Ht 4). lia.
Qed.

(** Above the mark there is a free block of the order or a larger one. *)
Lemma above_mark_block s order mark reserve flags : inv zn s -> 0 <= order < MAX_ORDER -> 0 <= mark -> 0 <= reserve ->
  above_mark s order mark reserve flags -> exists p, block zn p order /\ forall x, range p order x -> free_page (lists s) x.
Proof.
  intros Hi Ho Hmark Hr [Hab Hk]. pose proof (wmark_min_range mark flags Hmark) as Hmin. pose proof (pow2_pos order) as Hpow.
  assert (total_below (Z.to_nat order) (lists s) < total (lists s)) as Hlt.
  { destruct (decide (order = 0)) as [->|]; [change (total_below (Z.to_nat 0) (lists s)) with 0; change (2 ^ 0) with 1 in Hab; lia|]. specialize (Hk order ltac:(lia)).
    assert (0 <= wmark_min mark flags / 2 ^ order) by (apply Z.div_pos; lia). lia. }
  rewrite total_def in Hlt. destruct (total_gap _ _ _ Hlt) as (k & Hk' & Hc). apply cnt_pos in Hc as [p Hp]. exists p. split.
  - apply (block_shrink zn p (Z.of_nat k)); [by apply (c_block _ _ _ (i_core _ _ Hi))|lia].
  - intros x Hx. exists p, (Z.of_nat k). split; [done|]. unfold range in *. assert (2 ^ order <= 2 ^ Z.of_nat k) by (apply Z.pow_le_mono_r; lia). lia.
Qed.

(** ** Users of the allocator *)

Definition holds s (own : list (Z * Z)) : Prop :=
  (forall i p o, own !! i = Some (p, o) -> held s p o) /\
  (forall i j p o q r x, own !! i = Some (p, o) -> own !! j = Some (q, r) -> range p o x -> range q r x -> i = j).

(** A block stays held while its pages are not touched. *)
Lemma held_frame s s' p o : held s p o -> (forall x, range p o x -> mem_map s' !! x = mem_map s !! x /\ ~ idle (lists s') x) -> held s' p o.
Proof.
  intros [H1 H2 H3 H4] Hs. assert (range p o p) as Hp by (apply range_start; destruct H1 as [? _]; lia). split; [done| | |].
  - intros x Hx. by apply Hs.
  - rewrite (proj1 (Hs p Hp)). done.
  - intros x Hx Hne. rewrite (proj1 (Hs x Hx)). by apply H4.
Qed.

Lemma holds_refilled s s' own : holds s own -> refilled s s' -> holds s' own.
Proof.
  intros [Hh Hd] [R1 R2 R3 R4]. split; [|done]. intros i p o Hi. apply (held_frame s); [by eapply Hh|].
  intros x Hx. pose proof (h_busy _ _ _ (Hh i p o Hi) x Hx) as Hb. rewrite R2. split; [by apply R3|done].
Qed.

Lemma holds_alloc s s' own p o : holds s own -> taken s p o s' -> holds s' ((p, o) :: own).
Proof.
  intros [Hh Hd] Htk. assert (forall i q r, own !! i = Some (q, r) -> forall x, range q r x -> ~ range p o x) as Hout.
  { intros i q r Hq x Hx Hx'. by apply (h_busy _ _ _ (Hh i q r Hq) x Hx), (tk_was _ _ _ _ Htk). }
  split.
  - intros [|i] q r; cbn; [intros [= <- <-]; apply Htk|]. intros Hq. apply (held_frame s); [by eapply Hh|].
    intros x Hx. pose proof (h_busy _ _ _ (Hh i q r Hq) x Hx) as Hb. split; [by apply (tk_pages _ _ _ _ Htk)|]. rewrite (tk_idle _ _ _ _ Htk). tauto.
  - intros [|i] [|j] p1 o1 q r x; cbn; intros H1 H2 Hx Hx'; simplify_eq; try done.
    + by destruct (Hout _ _ _ H2 x Hx').
    + by destruct (Hout _ _ _ H1 x Hx).
    + f_equal. by eapply Hd.
Qed.

Lemma holds_free s s' own i p o : holds s own -> own !! i = Some (p, o) -> returned s (range p o) s' -> holds s' (delete i own).
Proof.
  intros [Hh Hd] Hi Hr. split.
  - intros j q r Hj. apply lookup_delete_other in Hj as (k & Hk & Hq & _). apply (held_frame s); [by eapply Hh|].
    intros x Hx. pose proof (h_busy _ _ _ (Hh k q r Hq) x Hx) as Hb. assert (~ range p o x) as Hout by (intros Hx'; apply Hk; by eapply Hd).
    split; [apply (rt_pages _ _ _ Hr); tauto|]. rewrite (rt_idle _ _ _ Hr). tauto.
  - intros j k p1 o1 q r x Hj Hk Hx Hx'. apply lookup_delete_other in Hj as (j' & _ & Hj & ->).
    apply lookup_delete_other in Hk as (k' & _ & Hk & ->). by rewrite (Hd j' k' p1 o1 q r x).
Qed.

Lemma returned_refilled s s' : returned s (fun _ => False) s' -> refilled s s'.
Proof. intros [R1 R2 R3 R4]. split; [done| | |done]; intros x; [by rewrite R2; tauto|intros Hx; apply R3; tauto]. Qed.

(** A request: for a block, to give the [i]-th block back, to empty the processor's list. *)
Inductive page_req := AllocPages (order gfp_flags : Z) | FreePages (i : nat) | DrainPages.

Fixpoint pages_served (reqs : list page_req) (own : list (Z * Z)) s : Prop :=
  match reqs with
  | [] => True
  | AllocPages o gfp :: reqs =>
      0 <= o < MAX_ORDER -> allocflags_to_migratetype gfp < MIGRATE_RESERVE ->
      wp (buffered_rmqueue 1 o gfp) (fun r s' =>
        match r with
        | Some p =>
            p mod 2 ^ o = 0 /\ (forall x, range p o x -> in_zone zn x /\ idle (lists s) x) /\ held s' p o /\
            (forall x, idle (lists s') x <-> idle (lists s) x /\ ~ range p o x) /\
            pages_served reqs ((p, o) :: own) s'
        | None =>
            (forall x, idle (lists s') x <-> idle (lists s) x) /\
            (no_isolated s -> forall p, block zn p o -> exists x, range p o x /\ if o =? 0 then ~ idle (lists s) x else ~ free_page (lists s) x) /\
            pages_served reqs own s'
        end) s
  | FreePages i :: reqs =>
      match own !! i with
      | Some (p, o) =>
          wp (__free_pages p o) (fun _ s' =>
            (forall x, idle (lists s') x <-> idle (lists s) x \/ range p o x) /\ pages_served reqs (delete i own) s') s
      | None => pages_served reqs own s
      end
  | DrainPages :: reqs =>
      wp drain_pages (fun _ s' =>
        (forall x, free_page (lists s') x <-> idle (lists s) x) /\ pages_served reqs own s') s
  end.

Lemma pcp_empty s x : finv s -> pcp_count s = 0 -> ~ on (lists s) Pcp x.
Proof.
  intros [Hi Hcnt] H0 (l & Hl & Hx). rewrite H0 in Hcnt. unfold len in Hcnt. rewrite Hl in Hcnt. destruct l; [by apply not_elem_of_nil in Hx|simpl in Hcnt; lia].
Qed.

Lemma alloc_served reqs s own : pcp_ok -> finv s -> holds s own -> pages_served reqs own s.
Proof.
  intros Hpcp. revert s own. induction reqs as [|[o gfp|i|] reqs IH]; intros s own Hf Hown; [done| | |]; cbn [pages_served].
  - intros Ho Ht. eapply wp_mono; [apply (wp_buffered_rmqueue s 1 o gfp Hf); [apply Hpcp|done|done|lia]|]. intros [p|] s'.
    + intros Htk. pose proof (h_block _ _ _ (tk_held _ _ _ _ Htk)) as (_ & Hal & Hz). split; [done|].
      split; [intros x Hx; split; [auto|by apply (tk_was _ _ _ _ Htk)]|]. split; [apply Htk|]. split; [apply Htk|].
      apply IH; [apply Htk|by eapply holds_alloc].
    + intros (Hr & Hc & Hno). split; [apply Hr|]. split; [|apply IH; [apply Hr|by eapply holds_refilled]].
      intros Hiso p Hb. destruct (no_run zn s o p) as (x & Hx & Hnf); [apply Hf|done|done|done|]. exists x. split; [done|].
      destruct (Z.eqb_spec o 0) as [->|]; [|done]. intros [?|Hp]; [done|]. by apply (pcp_empty s x Hf (Hc eq_refl)).
  - destruct (own !! i) as [[p o]|] eqn:E; [|by apply IH]. eapply wp_mono; [apply (wp___free_pages s p o Hf Hpcp); by eapply Hown|].
    intros [] s' [Hr _]. split; [apply Hr|]. apply IH; [apply Hr|by eapply holds_free].
  - eapply wp_mono; [by apply (wp_drain_pages s)|]. intros [] s' (Hr & Hc & _). split.
    + intros x. rewrite <- (or_False (idle (lists s) x)), <- (rt_idle _ _ _ Hr x). unfold idle. split; [by left|]. intros [?|Hp]; [done|].
      by destruct (pcp_empty s' x (rt_inv _ _ _ Hr) Hc).
    + apply IH; [apply Hr|]. eapply holds_refilled; [done|by apply returned_refilled].
Qed.

End PageAlloc.

(** ** What destroy_compound_page would find *)

(** The marks of a compound page of order [o] as prep_compound_page sets them. *)
Definition compound_ok (P : gmap Z Buddy.page) (p o : Z) : Prop :=
  (exists h t, P !! p = Some h /\ PageHead h = true /\ P !! (p + 1) = Some t /\ pg_lru_prev t = o) /\
  forall i, 1 <= i < 2 ^ o -> exists t, P !! (p + i) = Some t /\ PageTail t = true /\ pg_private t = p.

Lemma wp_bad_page p pg (Q : unit -> state -> Prop) s : mem_map s !! p = Some pg ->
  Q tt (with_tainted true (with_pages (insert p (with_flags (fun f => Z.clearbit f PG_buddy) pg)) s)) -> wp (bad_page p) Q s.
Proof. intros Hp HQ. apply wp_bind, (wp_page_update _ pg); [done|]. by apply wp_modify. Qed.

(** The pages behind the first [i] of the block are as they were, and a fault was reported
    if one was found. *)
Record destroying s (p o i bad : Z) s' : Prop := {
  ds_bad : 0 <= bad /\ (bad <> 0 -> tainted s' = true);
  ds_head : is_Some (mem_map s' !! p);
  ds_rest : forall j, i <= j < 2 ^ o -> mem_map s' !! (p + j) = mem_map s !! (p + j);
  ds_ok : bad = 0 -> (exists h t, mem_map s !! p = Some h /\ PageHead h = true /\ mem_map s !! (p + 1) = Some t /\ pg_lru_prev t = o) /\
    forall j, 1 <= j < i -> exists t, mem_map s !! (p + j) = Some t /\ PageTail t = true /\ pg_private t = p
}.

Lemma wp_destroy_turn {A} s p o i bad s' (k : Z -> ST state A) Q : destroying s p o i bad s' -> 1 <= i < 2 ^ o -> is_Some (mem_map s !! (p + i)) ->
  (forall bad s'', destroying s p o (i + 1) bad s'' -> wp (k bad) Q s'') ->
  wp (q ← page_at (p + i);
      bad ← (if negb (PageTail q) || negb (pg_private q =? p) then bad_page p ;; mret (bad + 1) else mret bad);
      ClearPageFlag PG_tail (p + i) ;; k bad) Q s'.
Proof.
  intros [[D1 D1'] [h D2] D3 D4] Hi [q Hq] HQ. assert (mem_map s' !! (p + i) = Some q) as Hq' by (rewrite D3 by lia; done).
  apply wp_bind, (wp_page_at _ q); [done|]. apply wp_bind, wp_if; intros E.
  - apply wp_bind, (wp_bad_page p h); [done|]. apply wp_ret. apply wp_bind, (wp_page_update _ q); [cbn; by rewrite lookup_insert_ne by lia|]. apply HQ.
    split; cbn [mem_map tainted with_pages with_tainted].
    + split; [lia|done].
    + rewrite lookup_insert_ne, lookup_insert_eq by lia. by eexists.
    + intros j Hj. rewrite !lookup_insert_ne by lia. apply D3. lia.
    + lia.
  - apply orb_false_iff in E as [Et%negb_false_iff Ep%negb_false_iff%Z.eqb_eq]. apply wp_ret. apply wp_bind, (wp_page_update _ q); [done|]. apply HQ.
    split; cbn [mem_map tainted with_pages with_tainted].
    + done.
    + rewrite lookup_insert_ne by lia. by eexists.
    + intros j Hj. rewrite lookup_insert_ne by lia. apply D3. lia.
    + intros E0. destruct (D4 E0) as [H1 H2]. split; [done|]. intros j Hj. destruct (decide (j = i)) as [->|]; [by exists q|apply H2; lia].
Qed.

(** destroy_compound_page finds every damage and reports it. *)
Lemma wp_destroy_compound_page s p o : 0 < o -> (forall x, range p o x -> is_Some (mem_map s !! x)) -> ~ compound_ok (mem_map s) p o ->
  wp (destroy_compound_page p o) (fun bad s' => bad <> 0 /\ tainted s' = true) s.
Proof.
  intros Ho Hex Hbad. assert (2 <= 2 ^ o) as Hpow by (change 2 with (2 ^ 1) at 1; apply Z.pow_le_mono_r; lia).
  destruct (Hex p) as [h Hh]; [unfold range; lia|]. destruct (Hex (p + 1)) as [t Ht]; [unfold range; lia|].
  unfold destroy_compound_page. rewrite Z.shiftl_1_l. apply wp_bind, (wp_page_at _ h); [done|].
  apply wp_bind, (wp_mono _ (fun x s' => s' = s /\ x = if PageHead h then pg_lru_prev t else 0)).
  { destruct (PageHead h); [apply wp_bind, (wp_page_at _ t); [done|]|]; by apply wp_ret. }
  intros x s' [-> ->]. apply wp_bind, (wp_mono _ (fun bad s' => destroying s p o 1 bad s')).
  { apply wp_if; intros E.
    - apply wp_bind, (wp_bad_page p h); [done|]. apply wp_ret. split; cbn [mem_map tainted with_pages with_tainted]; [by split| | |lia].
      + rewrite lookup_insert_eq. by eexists.
      + intros j Hj. by rewrite lookup_insert_ne by lia.
    - apply orb_false_iff in E as [El%negb_false_iff%Z.eqb_eq Eh%negb_false_iff]. rewrite Eh in El. apply wp_ret. split; [done|by exists h|done|].
      intros _. split; [by exists h, t|]. intros; lia. }
  intros bad s1 [D1 [h1 D2] D3 D4]. apply wp_bind, (wp_page_update _ h1); [done|]. set (s2 := with_pages _ s1).
  assert (destroying s p o 1 bad s2) as D.
  { split; [done|cbn; rewrite lookup_insert_eq; by eexists| |done]. intros j Hj. cbn. rewrite lookup_insert_ne by lia. by apply D3. }
  clearbody s2. clear D1 D2 D3 D4 s1 h1. apply (wp_loop (fun '(i, bad) s' => 1 <= i <= 2 ^ o /\ destroying s p o i bad s') (fun '(i, _) => Z.to_nat (2 ^ o - i))).
  - split; [lia|done].
  - lia.
  - clear bad s2 D. intros [i bad] s' [Hi D]. destruct (Z.ltb_spec i (2 ^ o)) as [Hlt|Hge].
    + apply (wp_destroy_turn s p o i bad); [done|lia|apply Hex; unfold range; lia|]. intros bad' s'' D'. apply wp_ret. split; [|lia]. split; [lia|done].
    + apply wp_ret. replace i with (2 ^ o) in D by lia. assert (bad <> 0) as Hne by (intros E; apply Hbad; exact (ds_ok _ _ _ _ _ _ D E)).
      split; [done|]. by apply D.
Qed.

(** ** Properties *)

(** C10: The front end behaves as a set of idle pages, those in free blocks and on the
    processor's list: every sequence of allocations (of any order, plain or compound, hot
    or cold), releases of held blocks and drains runs without a fault; an allocation hands
    out an aligned block of idle pages with a count of one, which nobody else holds, a
    release makes exactly the pages of the block idle again, draining leaves no page on
    the processor's list, and an allocation is refused only when no aligned run of free
    pages exists, for a single page: when nothing is idle. *)
Theorem page_alloc_refines zn reqs s own : pcp_ok zn -> finv zn s -> holds zn s own -> pages_served zn reqs own s.
Proof. apply alloc_served. Qed.

(** C20: A block with a page that fails the checks at free (mapped, with a mapping, counted,
    or with a flag that a free page may not have) is never put on a free list: the lists
    and the counters stay as they are, pages outside the block are not touched, the kernel
    is marked as tainted, and the invariant holds on. *)
Theorem bad_pages_kept_out zn s p o : finv zn s -> checkable zn (lists s) (mem_map s) p o -> ~ all_pass (mem_map s) p (2 ^ o) ->
  wp (__free_pages_ok zn p o) (fun _ s' => finv zn s' /\ tainted s' = true /\ lists s' = lists s /\ nr_free s' = nr_free s /\ vm_stat s' = vm_stat s /\
    forall x, ~ range p o x -> mem_map s' !! x = mem_map s !! x) s.
Proof. apply wp_free_pages_bad. Qed.

(** C19: zone_watermark_ok decides exactly whether the zone is above the mark, in spite of
    the unsigned comparison that a negative number of free pages passes; and when it says
    yes, an allocation of that order from the zone succeeds, provided that no free page is
    in an isolated block: such pages are counted as free but never allocated. *)
Theorem watermark_guarantees zn s order mark idx flags reserve t : zone_ok zn -> inv zn s -> 0 <= order < MAX_ORDER ->
  lowmem_reserve zn !! Z.to_nat idx = Some reserve -> 0 <= mark -> 0 <= reserve -> mark + reserve < 2 ^ 31 ->
  0 <= t < MIGRATE_RESERVE ->
  wp (zone_watermark_ok zn order mark idx flags) (fun ok s' => s' = s /\ (ok = true <-> above_mark s order mark reserve flags) /\
    (ok = true -> no_isolated s -> wp (__rmqueue zn order t) (fun r s'' => exists p, r = Some p /\ allocated zn s p order s'') s)) s.
Proof.
  intros Hz Hi Ho Hres Hm Hr Hsum Ht. eapply wp_mono; [by apply (wp_zone_watermark_ok zn s order mark idx flags reserve)|].
  intros ok s' [-> Hok]. split; [done|]. split; [done|]. intros E Hiso. apply Hok in E.
  destruct (above_mark_block zn s order mark reserve flags Hi Ho Hm Hr E) as (p & Hb & Hfree).
  eapply wp_mono; [by apply (wp_rmqueue_complete zn s order t)|]. intros [q|] s''; [intros Hal; by exists q|].
  intros [_ Hno]. destruct (Hno p Hb) as (x & Hx & Hn). destruct Hn. by apply Hfree.
Qed.

(** C40: Damage to a compound page goes unnoticed when the page is freed.  __free_one_page
    means to verify the marks of the head and the tail pages with destroy_compound_page,
    and that would find the damage and taint the kernel; but the checks of __free_pages_ok
    come first and clear all flags, so that no page of the block is marked as compound any
    more and the routine is not called: the block is released as if nothing were wrong. *)
Theorem compound_check_unreachable zn s p o pg : finv zn s -> 0 < o -> checkable zn (lists s) (mem_map s) p o ->
  (forall x, range p o x -> flags_fit (mem_map s) x) -> all_pass (mem_map s) p (2 ^ o) ->
  mem_map s !! p = Some pg -> PageCompound pg = true -> ~ compound_ok (mem_map s) p o ->
  wp (destroy_compound_page p o) (fun bad s' => bad <> 0 /\ tainted s' = true) s /\
  wp (check_loop p o) (fun bad s' => bad = 0 /\ forall x xg, range p o x -> mem_map s' !! x = Some xg -> PageCompound xg = false) s /\
  wp (__free_pages_ok zn p o) (fun _ s' => tainted s' = tainted s /\ forall x, range p o x -> idle (lists s') x) s.
Proof.
  intros Hf Ho Hck Hfit Hall _ _ Hbad. split; [|split].
  - apply wp_destroy_compound_page; [done| |done]. intros x Hx. destruct (proj2 Hck x Hx) as [_ [c Hc]]. unfold count_of in Hc. destruct (mem_map s !! x); [by eexists|done].
  - eapply wp_mono; [apply (wp_check_loop zn); [apply Hf|done]|]. intros bad s' (P' & -> & Hs & _ & Hb). apply Hb in Hall as Hz. split; [done|]. intros x xg Hx.
    cbn [mem_map with_tainted with_pages]. rewrite Hs, bool_decide_true by done. destruct (mem_map s !! x) as [yg|] eqn:Eyg; [|done].
    intros [= <-]. unfold PageCompound, scrub. rewrite (Hall x yg Hx Eyg). cbn [pg_flags with_flags]. apply negb_false_iff, Z.eqb_eq.
    rewrite <- Z.land_assoc. change (Z.land (Z.lnot PAGE_FLAGS_CHECK_AT_PREP) _) with 0. apply Z.land_0_r.
  - eapply wp_mono; [by apply (wp_free_pages_ok zn s p o)|]. intros [] s' Hr. split; [apply Hr|]. intros x Hx. apply (rt_idle _ _ _ _ Hr). by right.
Qed.

(** *** The example zone with a block and a page in use *)

Definition put_in_use (b : state) : state := with_pages (insert 2048 (with_count 1 example_page)) (with_pages (insert 1024 (with_count 1 example_page)) b).

Definition example_used : state := put_in_use example_boot.

Lemma put_in_use_ok b : inv example_zone b -> mem_map b = mem_map example_fresh -> pcp_count b = 0 -> (forall h p, ~ on (lists b) h p) ->
  finv example_zone (put_in_use b) /\ holds example_zone (put_in_use b) [(1024, 10); (2048, 0)].
Proof.
  intros Hi Em Hcount Hno.
  assert (forall x, ~ idle (lists b) x) as Hni by (intros x [(p & o & (t & Ht) & _)|Hp]; [by apply (Hno (Free o t) p)|by apply (Hno Pcp x)]).
  assert (forall x, ~ free_page (lists b) x) as Hnf by (intros x Hx; apply (Hni x); by left).
  assert (mem_map b !! 1024 = Some example_page) as E1 by (rewrite Em, example_lookup; reflexivity).
  assert (mem_map b !! 2048 = Some example_page) as E2 by (rewrite Em, example_lookup; reflexivity).
  set (P1 := <[1024 := with_count 1 example_page]> (mem_map b)).
  assert (core example_zone (lists b) P1) as C1
    by (apply (core_page _ _ _ _ example_page); [apply Hi|exact E1|apply Hnf|reflexivity|reflexivity|intros Hp; destruct (Hno Pcp 1024 Hp)]).
  assert (core example_zone (lists b) (<[2048 := with_count 1 example_page]> P1)) as C2.
  { apply (core_page _ _ _ _ example_page); [exact C1|unfold P1; rewrite lookup_insert_ne by lia; exact E2|apply Hnf|reflexivity|reflexivity|intros Hp; destruct (Hno Pcp 2048 Hp)]. }
  assert (forall x, mem_map (put_in_use b) !! x = if bool_decide (x = 1024 \/ x = 2048) then Some (with_count 1 example_page) else mem_map example_fresh !! x) as Hl.
  { intros x. unfold put_in_use. cbn [mem_map with_pages]. rewrite Em. case_bool_decide as Hx.
    - destruct Hx as [->| ->]; [rewrite lookup_insert_ne by lia|]; apply lookup_insert_eq.
    - rewrite !lookup_insert_ne by lia. reflexivity. }
  assert (settled_page 10 example_page /\ settled_page 0 example_page) as [S10 S0] by (split; (split; [reflexivity|]; split; [left; reflexivity|]; split; [change (0 <= 0 < 2 ^ 22); lia|reflexivity])).
  assert (inv example_zone (put_in_use b)) as Hi'.
  { apply (inv_recount example_zone b (put_in_use b) Hi C2); [intros o|..]; reflexivity. }
  split; [split; [exact Hi'|]|].
  { change (pcp_count b = len (lists b) Pcp). destruct (has_pcp _ (c_lists _ _ _ (i_core _ _ Hi))) as [l El].
    unfold len. rewrite El. simpl. destruct l as [|x l]; [exact Hcount|]. destruct (Hno Pcp x). exists (x :: l). split; [done|]. apply elem_of_cons. by left. }
  clear C1 C2 E1 E2 P1 Hnf Em. split.
  - intros [|[|i]] p o; [intros [= <- <-]|intros [= <- <-]|discriminate].
    + split.
      * split; [unfold MAX_ORDER; lia|]. split; [reflexivity|]. unfold range, in_zone. simpl. lia.
      * intros x _. apply Hni.
      * exists (with_count 1 example_page). rewrite Hl, bool_decide_true by lia. split; [reflexivity|]. split; [reflexivity|]. split; [exact S10|reflexivity].
      * intros x Hx Hne. unfold range in Hx. change (2 ^ 10) with 1024 in Hx. exists example_page. rewrite Hl, bool_decide_false, example_lookup, bool_decide_true by lia.
        split; [reflexivity|]. split; [reflexivity|]. split; [exact S10|discriminate].
    + split.
      * split; [unfold MAX_ORDER; lia|]. split; [reflexivity|]. unfold range, in_zone. simpl. lia.
      * intros x _. apply Hni.
      * exists (with_count 1 example_page). rewrite Hl, bool_decide_true by lia. split; [reflexivity|]. split; [reflexivity|]. split; [exact S0|reflexivity].
      * intros x Hx Hne. unfold range in Hx. simpl in Hx. lia.
  - clear. intros [|[|i]] [|[|j]] p o q r x; try discriminate; try reflexivity; intros [= <- <-] [= <- <-]; unfold range; simpl; lia.
Qed.

Lemma example_used_ok : finv example_zone example_used /\ holds example_zone example_used [(1024, 10); (2048, 0)].
Proof.
  assert (pcp_count example_boot = 0) as Hc by (vm_compute; reflexivity).
  destruct example_boot_ok as (_ & Hi & Em & Hno). exact (put_in_use_ok example_boot Hi Em Hc Hno).
Qed.

Lemma example_used_lookup : mem_map example_used !! 1024 = Some (with_count 1 example_page).
Proof. unfold example_used. generalize example_boot. intros b. unfold put_in_use. cbn [mem_map with_pages]. rewrite lookup_insert_ne by lia. apply lookup_insert_eq. Qed.

#[local] Opaque example_used example_boot.

Lemma page_alloc_refines_witness :
  pcp_ok example_zone /\ finv example_zone example_used /\ holds example_zone example_used [(1024, 10); (2048, 0)] /\
  pages_served example_zone [FreePages 0; AllocPages 0 0; AllocPages 2 __GFP_COMP; FreePages 0; FreePages 1; DrainPages; AllocPages 10 0] [(1024, 10); (2048, 0)] example_used.
Proof.
  destruct example_used_ok as (Hf & Hh). split; [split; [reflexivity|left; discriminate]|]. split; [exact Hf|]. split; [exact Hh|].
  apply (page_alloc_refines example_zone); [split; [reflexivity|left; discriminate]|exact Hf|exact Hh].
Defined.

Lemma example_checkable : checkable example_zone (lists example_used) (mem_map example_used) 1024 1.
Proof.
  destruct example_used_ok as (_ & [Hh _]). destruct (Hh 0%nat 1024 10 eq_refl) as [Hb Hbusy (pg & Hpg & _ & _ & Ht) Htails].
  split; [apply (block_shrink _ 1024 10 1); [exact Hb|lia]|]. intros x Hx. assert (range 1024 10 x) as Hx' by (unfold range in *; simpl in *; lia).
  split; [by apply Hbusy|]. unfold count_of. destruct (decide (x = 1024)) as [->|Hne].
  - rewrite Hpg, Ht. by eexists.
  - destruct (Htails x Hx' Hne) as (xg & Hxg & _ & _ & Hxt). rewrite Hxg. destruct (PageTail xg); [|by eexists]. rewrite (Hxt eq_refl), Hpg. by eexists.
Qed.

Lemma bad_pages_kept_out_witness :
  wp (__free_pages_ok example_zone 1024 1) (fun _ s' => tainted s' = true /\ lists s' = lists example_used) example_used.
Proof.
  eapply wp_mono; [apply (bad_pages_kept_out example_zone example_used 1024 1)|].
  - apply example_used_ok.
  - apply example_checkable.
  - intros Hall. assert (mem_map example_used !! 1024 = Some (with_count 1 example_page)) as E
      by exact (example_used_lookup).
    specialize (Hall 1024 _ ltac:(lia) E). unfold passes, count_of in Hall. rewrite E in Hall. vm_compute in Hall. discriminate Hall.
  - intros [] s' (_ & ? & ? & _). split; assumption.
Defined.

(** The example zone with the first block free. *)
Definition example_free : state :=
  match __free_one_page example_zone 1024 10 example_boot with Ok (_, s) => s | Fault _ => example_boot end.

Lemma example_free_inv : inv example_zone example_free.
Proof.
  destruct example_boot_ok as (_ & Hi & _). destruct example_owns as [Hown _].
  pose proof (wp_free_one_page _ _ _ _ Hi (Hown 0%nat 1024 10 eq_refl)) as H. clear Hi Hown. unfold wp in H. unfold example_free.
  destruct (__free_one_page example_zone 1024 10 example_boot) as [[u s]|f]; [exact (fr_inv _ _ _ _ _ H)|destruct H].
Qed.

Definition isolated_list (hl : lhead * list Z) : bool :=
  match hl with (Free _ t, _ :: _) => t =? MIGRATE_ISOLATE | _ => false end.

Lemma no_isolated_b s : existsb isolated_list (map_to_list (lists s)) = false -> no_isolated s.
Proof.
  intros H o p (l & Hl & Hp). apply elem_of_map_to_list, list_elem_of_In in Hl. apply not_true_iff_false in H. apply H, existsb_exists.
  exists (Free o MIGRATE_ISOLATE, l). split; [exact Hl|]. destruct l; [by apply not_elem_of_nil in Hp|reflexivity].
Qed.

Lemma example_free_mark : no_isolated example_free /\ above_mark example_free 3 16 0 0.
Proof.
  split; [apply no_isolated_b; vm_compute; reflexivity|]. split; [vm_compute; reflexivity|].
  intros k Hk. assert (k = 1 \/ k = 2 \/ k = 3) as [->|[->| ->]] by lia; vm_compute; reflexivity.
Qed.

Lemma watermark_guarantees_witness :
  wp (zone_watermark_ok example_zone 3 16 0 0) (fun ok s' =>
    ok = true /\ wp (__rmqueue example_zone 3 0) (fun r _ => exists p, r = Some p) example_free) example_free.
Proof.
  destruct example_boot_ok as (Hz & _). pose proof example_free_inv as Hi. destruct example_free_mark as [Hiso Ha]. revert Hi Hiso Ha.
  generalize example_free. intros s Hi Hiso Ha.
  eapply wp_mono; [apply (watermark_guarantees example_zone s 3 16 0 0 0 0 Hz Hi); try reflexivity; try lia;
    [unfold MAX_ORDER; lia|unfold MIGRATE_RESERVE; lia]|]. intros ok s'' (-> & Hok & Hal). apply Hok in Ha as ->.
  split; [reflexivity|]. eapply wp_mono; [apply Hal; [reflexivity|exact Hiso]|]. intros r s2 (p & -> & _). exists p. reflexivity.
Defined.

(** *** A damaged compound page of two pages: the tail has a wrong order *)

Definition damaged_head : Buddy.page := with_flags (fun _ => 2 ^ PG_head) example_page.
Definition damaged_tail : Buddy.page := with_lru FREE_COMPOUND_PAGE 7 (with_private 1024 (with_flags (fun _ => 2 ^ PG_tail) example_page)).

Definition damage (b : state) : state := with_pages (insert 1025 damaged_tail) (with_pages (insert 1024 damaged_head) b).

Lemma damage_lookup b x : mem_map (damage b) !! x = if x =? 1025 then Some damaged_tail else if x =? 1024 then Some damaged_head else mem_map b !! x.
Proof.
  unfold damage. cbn [mem_map with_pages]. destruct (Z.eqb_spec x 1025) as [->|]; [apply lookup_insert_eq|]. rewrite lookup_insert_ne by lia.
  destruct (Z.eqb_spec x 1024) as [->|]; [apply lookup_insert_eq|by rewrite lookup_insert_ne by lia].
Qed.

Lemma damage_ok b : inv example_zone b -> mem_map b = mem_map example_fresh -> pcp_count b = 0 -> (forall h p, ~ on (lists b) h p) ->
  finv example_zone (damage b) /\ checkable example_zone (lists (damage b)) (mem_map (damage b)) 1024 1.
Proof.
  intros Hi Em Hcount Hno.
  assert (forall x, ~ idle (lists b) x) as Hni by (intros x [(p & o & (t & Ht) & _)|Hp]; [by apply (Hno (Free o t) p)|by apply (Hno Pcp x)]).
  assert (forall x, ~ free_page (lists b) x) as Hnf by (intros x Hx; apply (Hni x); by left).
  assert (forall x, 1024 <= x < 3072 -> mem_map b !! x = Some example_page) as E by (intros x Hx; rewrite Em, example_lookup, bool_decide_true by done; reflexivity).
  assert (core example_zone (lists b) (<[1024 := damaged_head]> (mem_map b))) as C1
    by (apply (core_page _ _ _ _ example_page); [apply Hi|apply E; lia|apply Hnf|reflexivity|reflexivity|intros Hp; destruct (Hno Pcp 1024 Hp)]).
  assert (core example_zone (lists b) (<[1025 := damaged_tail]> (<[1024 := damaged_head]> (mem_map b)))) as C2.
  { apply (core_page _ _ _ _ example_page); [exact C1|rewrite lookup_insert_ne by lia; apply E; lia|apply Hnf|reflexivity|reflexivity|intros Hp; destruct (Hno Pcp 1025 Hp)]. }
  split; [split|split].
  - apply (inv_recount example_zone b (damage b) Hi C2); [intros o|..]; reflexivity.
  - change (pcp_count b = len (lists b) Pcp). destruct (has_pcp _ (c_lists _ _ _ (i_core _ _ Hi))) as [l El].
    unfold len. rewrite El. simpl. destruct l as [|x l]; [exact Hcount|]. destruct (Hno Pcp x). exists (x :: l). split; [done|]. apply elem_of_cons. by left.
  - split; [unfold MAX_ORDER; lia|]. split; [reflexivity|]. unfold range, in_zone. simpl. lia.
  - intros x Hx. split; [apply Hni|]. assert (x = 1024 \/ x = 1025) as [->| ->] by (unfold range in Hx; simpl in Hx; lia); unfold count_of; rewrite damage_lookup; cbn [Z.eqb Pos.eqb].
    + by eexists.
    + change (PageTail damaged_tail) with true. cbv iota. change (pg_private damaged_tail) with 1024. rewrite damage_lookup. by eexists.
Qed.

Lemma compound_check_unreachable_witness :
  wp (destroy_compound_page 1024 1) (fun bad s' => bad <> 0 /\ tainted s' = true) (damage example_boot) /\
  wp (__free_pages_ok example_zone 1024 1) (fun _ s' => tainted s' = tainted example_boot /\ idle (lists s') 1024 /\ idle (lists s') 1025) (damage example_boot).
Proof.
  assert (pcp_count example_boot = 0) as Hc by (vm_compute; reflexivity).
  destruct example_boot_ok as (_ & Hi & Em & Hno). revert Hc Hi Em Hno. generalize example_boot. intros b Hc Hi Em Hno.
  destruct (damage_ok b Hi Em Hc Hno) as [Hf Hck]. clear Hc Hi Em Hno.
  assert (forall x, range 1024 1 x -> x = 1024 \/ x = 1025) as Hx by (intros x; unfold range; simpl; lia).
  destruct (compound_check_unreachable example_zone (damage b) 1024 1 damaged_head) as (H1 & _ & H3).
  - exact Hf.
  - lia.
  - exact Hck.
  - intros x [->| ->]%Hx pg; rewrite damage_lookup; intros [= <-]; (split; [|reflexivity]); (split; [discriminate|reflexivity]).
  - intros x pg Hr. destruct (Hx x Hr) as [->| ->]; rewrite damage_lookup; intros [= <-]; unfold passes, count_of; rewrite damage_lookup; cbn [Z.eqb Pos.eqb].
    + reflexivity.
    + change (PageTail damaged_tail) with true. cbv iota. change (pg_private damaged_tail) with 1024. rewrite damage_lookup. reflexivity.
  - rewrite damage_lookup. reflexivity.
  - reflexivity.
  - intros [(h & t & _ & _ & Ht & Eo) _]. change (1024 + 1) with 1025 in Ht. rewrite damage_lookup in Ht. injection Ht as <-. discriminate Eo.
  - split; [exact H1|]. eapply wp_mono; [exact H3|]. intros [] s' [Ht Hid]. split; [exact Ht|]. split; apply Hid; unfold range; simpl; lia.
Defined.
