(* ===== verification/Isolation.v ===== *)
(** * Page isolation: mm/page_isolation.c

    Before a range of memory is taken away, its page blocks are marked with the type
    ISOLATE, so that their free pages are not allocated any more; when all pages of the
    range have come back the range can be removed.  The routines are built on
    set_migratetype_isolate and unset_migratetype_isolate of PageAlloc.v.

    What the buddy system does to a block that is set aside is shown with a second,
    partial form of triples ([wlp]): that its routines return is known from Buddy.v. *)

From S2P Require Import Prelude Bitops Buddy PageAlloc.

#[local] Arguments loop : simpl never.

(** ** The code *)

(** There are no holes inside a block (no CONFIG_HOLES_IN_ZONE), so pfn_valid_within is
    always true and the first page that is looked at is valid. *)
Definition __first_valid_page (pfn nr_pages : Z) : option Z :=
  if 0 <? nr_pages then Some pfn else None.

Section Isolation.
Context (zn : zone).

Definition start_isolate_page_range (start_pfn end_pfn : Z) : ZM Z :=
  BUG_ON (negb (Z.land start_pfn (pageblock_nr_pages - 1) =? 0)) ;;
  BUG_ON (negb (Z.land end_pfn (pageblock_nr_pages - 1) =? 0)) ;;
  undo ← loop (S (Z.to_nat (end_pfn - start_pfn))) (fun pfn =>
    if pfn <? end_pfn then
      match __first_valid_page pfn pageblock_nr_pages with
      | None => continue (u32 (pfn + pageblock_nr_pages))
      | Some page =>
          r ← set_migratetype_isolate zn page;
          if negb (r =? 0) then break (Some pfn) else continue (u32 (pfn + pageblock_nr_pages))
      end
    else break None) start_pfn;
  match undo with
  | None => mret 0
  | Some undo_pfn =>
      loop (S (Z.to_nat (undo_pfn - start_pfn))) (fun pfn =>
        if pfn <? undo_pfn then unset_migratetype_isolate zn pfn ;; continue (u32 (pfn + pageblock_nr_pages))
        else break tt) start_pfn ;;
      mret (- EBUSY)
  end.

Definition undo_isolate_page_range (start_pfn end_pfn : Z) : ZM Z :=
  BUG_ON (negb (Z.land start_pfn (pageblock_nr_pages - 1) =? 0)) ;;
  BUG_ON (negb (Z.land end_pfn (pageblock_nr_pages - 1) =? 0)) ;;
  loop (S (Z.to_nat (end_pfn - start_pfn))) (fun pfn =>
    if pfn <? end_pfn then
      (match __first_valid_page pfn pageblock_nr_pages with
       | None => mret tt
       | Some page =>
           t ← get_pageblock_migratetype zn page;
           if negb (t =? MIGRATE_ISOLATE) then mret tt else unset_migratetype_isolate zn page
       end) ;;
      continue (u32 (pfn + pageblock_nr_pages))
    else break tt) start_pfn ;;
  mret 0.

Definition __test_page_isolated_in_pageblock (pfn end_pfn : Z) : ZM Z :=
  pfn ← loop (S (Z.to_nat (end_pfn - pfn))) (fun pfn =>
    if pfn <? end_pfn then
      pg ← page_at pfn;
      if PageBuddy pg then continue (u32 (pfn + Z.shiftl 1 (pg_private pg)))
      else
        c ← page_count pfn;
        if (c =? 0) && (pg_private pg =? MIGRATE_ISOLATE) then continue (u32 (pfn + 1)) else break pfn
    else break pfn) pfn;
  mret (if pfn <? end_pfn then 0 else 1).

Definition test_pages_isolated (start_pfn end_pfn : Z) : ZM Z :=
  pfn ← loop (S (Z.to_nat (end_pfn - start_pfn))) (fun pfn =>
    if pfn <? end_pfn then
      match __first_valid_page pfn pageblock_nr_pages with
      | None => continue (u32 (pfn + pageblock_nr_pages))
      | Some page =>
          t ← get_pageblock_migratetype zn page;
          if negb (t =? MIGRATE_ISOLATE) then break pfn else continue (u32 (pfn + pageblock_nr_pages))
      end
    else break pfn) start_pfn;
  match __first_valid_page start_pfn (u32 (end_pfn - start_pfn)) with
  | None => mret (- EBUSY)
  | Some _ =>
      if pfn <? end_pfn then mret (- EBUSY)
      else
        ret ← __test_page_isolated_in_pageblock start_pfn end_pfn;
        mret (if negb (ret =? 0) then 0 else - EBUSY)
  end.

(** ** Partial triples

    [wlp c Q s]: if [c] returns, its result and final state satisfy [Q]. *)
Definition wlp {A} (c : ZM A) (Q : A -> state -> Prop) (s : state) : Prop :=
  match c s with Ok (a, s') => Q a s' | Fault _ => True end.

Implicit Types (s : state).

Lemma wp_wlp {A} (c : ZM A) (Q R : A -> state -> Prop) s : wp c Q s -> wlp c R s -> wp c (fun a s' => Q a s' /\ R a s') s.
Proof. unfold wp, wlp. destruct (c s) as [[a s']|]; [by split|done]. Qed.

Lemma wlp_wp {A} (c : ZM A) (Q : A -> state -> Prop) s : wp c Q s -> wlp c Q s.
Proof. unfold wp, wlp. destruct (c s) as [[a s']|]; done. Qed.

Lemma wlp_mono {A} (c : ZM A) (Q R : A -> state -> Prop) s : wlp c Q s -> (forall a s', Q a s' -> R a s') -> wlp c R s.
Proof. unfold wlp. destruct (c s) as [[a s']|]; auto. Qed.

Lemma wlp_ret {A} (a : A) (Q : A -> state -> Prop) s : Q a s -> wlp (mret a) Q s.
Proof. done. Qed.

Lemma wlp_bind {A B} (c : ZM A) (k : A -> ZM B) (Q : B -> state -> Prop) s : wlp c (fun a s' => wlp (k a) Q s') s -> wlp (c ≫= k) Q s.
Proof. unfold wlp, mbind, M_bind. by destruct (c s) as [[a s']|]. Qed.

Lemma wlp_if {A} (b : bool) (c1 c2 : ZM A) (Q : A -> state -> Prop) s : (b = true -> wlp c1 Q s) -> (b = false -> wlp c2 Q s) -> wlp (if b then c1 else c2) Q s.
Proof. destruct b; auto. Qed.

Lemma wlp_loop {X R} (I : X -> state -> Prop) (body : X -> ZM (X + R)) (Q : R -> state -> Prop) fuel x s : I x s ->
  (forall x s, I x s -> wlp (body x) (fun r s' => match r with inl x' => I x' s' | inr y => Q y s' end) s) ->
  wlp (loop fuel body x) Q s.
Proof.
  intros HI Hb. revert x s HI. induction fuel as [|fuel IH]; intros x s HI; [done|].
  apply wlp_bind. eapply wlp_mono; [by apply Hb|]. intros [x'|y] s' H; [by apply IH|by apply wlp_ret].
Qed.

Lemma wlp_for {R} (I : state -> Prop) lo hi (body : Z -> ZM (option R)) (Q : option R -> state -> Prop) s : I s ->
  (forall k s, lo <= k < hi -> I s -> wlp (body k) (fun r s' => match r with Some y => Q (Some y) s' | None => I s' end) s) ->
  (forall s, I s -> Q None s) -> wlp (for_loop lo hi body) Q s.
Proof.
  intros HI Hb Hend. apply (wlp_loop (fun k s => lo <= k /\ I s)); [by split; [lia|]|]. intros k s' [Hk HI']. apply wlp_if; intros E.
  - apply wlp_bind. eapply wlp_mono; [apply Hb; [lia|done]|]. intros [y|] s'' H; apply wlp_ret; [done|]. split; [lia|done].
  - by apply wlp_ret, Hend.
Qed.

Lemma wlp_asks {A} (f : state -> A) (Q : A -> state -> Prop) s : Q (f s) s -> wlp (asks f) Q s.
Proof. done. Qed.

Lemma wlp_modify f (Q : unit -> state -> Prop) s : Q tt (f s) -> wlp (modify f) Q s.
Proof. done. Qed.

Lemma wlp_page_at p (Q : Buddy.page -> state -> Prop) s : (forall pg, mem_map s !! p = Some pg -> Q pg s) -> wlp (page_at p) Q s.
Proof. intros H. unfold wlp, page_at. destruct (mem_map s !! p); auto. Qed.

Lemma wlp_list_at h (Q : list Z -> state -> Prop) s : (forall l, lists s !! h = Some l -> Q l s) -> wlp (list_at h) Q s.
Proof. intros H. unfold wlp, list_at. destruct (lists s !! h); auto. Qed.

Lemma wlp_page_list_first h (Q : Z -> state -> Prop) s : (forall p, on (lists s) h p -> Q p s) -> wlp (page_list_first h) Q s.
Proof.
  intros H. apply wlp_bind, wlp_list_at. intros [|p l] El; [done|]. apply wlp_ret, H. exists (p :: l). split; [done|]. apply elem_of_cons. by left.
Qed.

Lemma wlp_page_list_empty h (Q : bool -> state -> Prop) s : (forall b, Q b s) -> wlp (page_list_empty h) Q s.
Proof. intros H. apply wlp_bind, wlp_list_at. intros l _. apply wlp_ret, H. Qed.

(** ** What a set aside block keeps

    [set_aside b s]: the block of pages at [b] has type ISOLATE, and its free blocks are on
    the lists of that type. *)
Record set_aside (b : Z) s : Prop := {
  sa_bits : bitmap_ok zn (bits s);
  sa_type : forall x, range b pageblock_order x -> ptype zn s x = MIGRATE_ISOLATE;
  sa_lists : forall q o t, on (lists s) (Free o t) q -> range b pageblock_order q -> t = MIGRATE_ISOLATE;
  sa_pcp : forall q, on (lists s) Pcp q -> in_zone zn q
}.

Lemma set_aside_frame b s s' : set_aside b s -> bits s' = bits s -> lists s' = lists s -> set_aside b s'.
Proof. intros [H1 H2 H3 H4] Eb El. split; unfold ptype in *; rewrite ?Eb, ?El; done. Qed.

(** [c] leaves the lists and the bitmap alone. *)
Definition untouched {A} (c : ZM A) : Prop := forall s, wlp c (fun _ s' => bits s' = bits s /\ lists s' = lists s) s.

Lemma wlp_untouched {A} b (c : ZM A) (Q : A -> state -> Prop) s : untouched c -> set_aside b s -> (forall a s', set_aside b s' -> Q a s') -> wlp c Q s.
Proof. intros Hc Hs HQ. eapply wlp_mono; [apply Hc|]. intros a s' [? ?]. apply HQ. by eapply set_aside_frame. Qed.

Lemma untouched_update p f : untouched (page_update p f).
Proof. intros s. apply wlp_bind, wlp_page_at. intros pg _. by apply wlp_modify. Qed.

Lemma untouched_bind {A B} (c : ZM A) (k : A -> ZM B) : untouched c -> (forall a, untouched (k a)) -> untouched (c ≫= k).
Proof. intros Hc Hk s. apply wlp_bind. eapply wlp_mono; [apply Hc|]. intros a s' [E1 E2]. eapply wlp_mono; [apply Hk|]. intros ? ? [E3 E4]. split; congruence. Qed.

Lemma untouched_add_nr_free o d : untouched (add_nr_free o d).
Proof. intros s. unfold wlp, add_nr_free. by destruct (nr_free s !! o). Qed.

Lemma untouched_set_order p o : untouched (set_page_order p o).
Proof. apply untouched_bind; intros; apply untouched_update. Qed.

Lemma untouched_rmv_order p : untouched (rmv_page_order p).
Proof. apply untouched_bind; intros; apply untouched_update. Qed.

Lemma untouched_mod_state d : untouched (__mod_zone_page_state d).
Proof. by intros s. Qed.

Lemma untouched_ret {A} (a : A) : untouched (mret a).
Proof. by intros s. Qed.

Lemma untouched_page_at p : untouched (page_at p).
Proof. intros s. by apply wlp_page_at. Qed.

Lemma untouched_tainted b : untouched (modify (with_tainted b)).
Proof. by intros s. Qed.

Lemma untouched_scanned u n : untouched (modify (with_scanned u n)).
Proof. by intros s. Qed.

Lemma untouched_if {A} (b : bool) (c1 c2 : ZM A) : untouched c1 -> untouched c2 -> untouched (if b then c1 else c2).
Proof. by destruct b. Qed.

Lemma untouched_loop {X R} n (body : X -> ZM (X + R)) x : (forall x, untouched (body x)) -> untouched (loop n body x).
Proof.
  intros Hb s. apply (wlp_loop (fun _ s' => bits s' = bits s /\ lists s' = lists s)); [done|]. intros x' s' [E1 E2].
  eapply wlp_mono; [apply Hb|]. intros [y|y] s'' [E3 E4]; split; congruence.
Qed.

#[local] Hint Resolve untouched_update untouched_add_nr_free untouched_set_order untouched_rmv_order untouched_mod_state
  untouched_ret untouched_page_at untouched_tainted untouched_scanned untouched_if untouched_bind : untouched.

Lemma untouched_page_count p : untouched (page_count p).
Proof. unfold page_count. auto with untouched. Qed.

Lemma untouched_destroy p o : untouched (destroy_compound_page p o).
Proof.
  unfold destroy_compound_page, bad_page, ClearPageFlag. do 4 (apply untouched_bind; [auto 7 with untouched|intros]).
  apply untouched_loop. intros [i bad]. auto 9 with untouched.
Qed.

Lemma on_filter_subset (L : gmap lhead (list Z)) h l p k q : L !! h = Some l -> on (<[h := filter (fun x => x <> p) l]> L) k q -> on L k q.
Proof.
  intros Hl Ho. apply on_insert in Ho as [[-> Hq]|[_ Hq]]; [|done]. apply list_elem_of_filter in Hq as [_ Hq]. by exists l.
Qed.

Lemma wlp_del b p (Q : unit -> state -> Prop) s : set_aside b s -> (forall s', set_aside b s' -> Q tt s') -> wlp (page_list_del p) Q s.
Proof.
  intros [H1 H2 H3 H4] HQ. apply wlp_bind, wlp_asks. destruct (head_of s p) as [h|]; [|done]. apply wlp_bind, wlp_list_at. intros l Hl.
  apply wlp_modify, HQ. split; [done|done| |].
  - intros q o t Hq. apply (H3 q o t). exact (on_filter_subset _ _ _ _ _ _ Hl Hq).
  - intros q Hq. apply H4. exact (on_filter_subset _ _ _ _ _ _ Hl Hq).
Qed.

Lemma wlp_add b p o t (Q : unit -> state -> Prop) s : set_aside b s -> (range b pageblock_order p -> t = MIGRATE_ISOLATE) ->
  (forall s', set_aside b s' -> Q tt s') -> wlp (page_list_add p (Head (Free o t))) Q s.
Proof.
  intros [H1 H2 H3 H4] Hp HQ. apply wlp_bind, wlp_asks. destruct (head_of s p) as [h|]; [done|]. apply wlp_bind, wlp_list_at. intros l Hl.
  apply wlp_modify, HQ. split; [done|done| |intros q Hq; apply on_insert in Hq as [[? _]|[_ Hq]]; [done|by apply H4]].
  intros q o' t' Hq. apply on_insert in Hq as [[E Hq]|[_ Hq]]; [|by apply (H3 q o' t')].
  injection E as -> ->. apply elem_of_cons in Hq as [->|Hq]; [done|]. intros Hr. apply (H3 q o t); [by exists l|done].
Qed.

(** The zone starts at the limit of a block, so that the blocks of the bitmap are those
    of the pages. *)
Definition aligned : Prop := zone_ok zn /\ zone_start_pfn zn mod pageblock_nr_pages = 0 /\ page_group_by_mobility_disabled zn = false.

Lemma range_block b x : b mod pageblock_nr_pages = 0 -> range b pageblock_order x <-> x / pageblock_nr_pages = b / pageblock_nr_pages.
Proof.
  unfold range. change (2 ^ pageblock_order) with 1024. change pageblock_nr_pages with 1024. intros Hb. Z.div_mod_to_equations. lia.
Qed.

Lemma bitidx_same p x : aligned -> in_zone zn p -> in_zone zn x ->
  pfn_to_bitidx zn x = pfn_to_bitidx zn p <-> x / pageblock_nr_pages = p / pageblock_nr_pages.
Proof.
  intros (Hz & Ha & _) Hp Hx. rewrite !bitidx_block by done. revert Ha. generalize (zone_start_pfn zn). change pageblock_nr_pages with 1024.
  intros a Ha. Z.div_mod_to_equations. lia.
Qed.

Lemma ptype_set m s p t x : aligned -> in_zone zn p -> in_zone zn x ->
  (forall x, mtype zn m x = if pfn_to_bitidx zn x =? pfn_to_bitidx zn p then t else mtype zn (bits s) x) ->
  ptype zn (with_bits m s) x = if x / pageblock_nr_pages =? p / pageblock_nr_pages then t else ptype zn s x.
Proof.
  intros Ha Hp Hx Hm. pose proof (bitidx_same p x Ha Hp Hx) as Hs. destruct Ha as (_ & _ & Hd). unfold ptype. rewrite Hd. cbn [bits with_bits]. rewrite Hm.
  destruct (Z.eqb_spec (pfn_to_bitidx zn x) (pfn_to_bitidx zn p)), (Z.eqb_spec (x / pageblock_nr_pages) (p / pageblock_nr_pages)); tauto.
Qed.

Section SetAside.
Context (b : Z) (Hal : aligned) (Hb : block zn b pageblock_order).

#[local] Lemma block_mod : b mod pageblock_nr_pages = 0.
Proof using All. apply Hb. Qed.

Lemma block_zone x : range b pageblock_order x -> in_zone zn x.
Proof using All. apply Hb. Qed.

(** An aligned block that does not start in the block at [b] has no page in it. *)
Lemma block_outside p o x : block zn p o -> range p o x -> range b pageblock_order x -> range b pageblock_order p.
Proof using All.
  intros Hp Hx Hxb. destruct (order_bounds zn _ _ Hp) as (Ho & Ho0 & _). destruct Hp as (_ & Hp & _).
  apply (block_nested p o b pageblock_order x); [unfold pageblock_order, MAX_ORDER in *; lia|done|apply Hb|done|done|by apply range_start].
Qed.

Lemma wlp_set_type p t (Q : unit -> state -> Prop) s : set_aside b s -> in_zone zn p -> ~ range b pageblock_order p -> 0 <= t < MIGRATE_TYPES ->
  (forall s', set_aside b s' -> Q tt s') -> wlp (set_pageblock_migratetype zn p t) Q s.
Proof using All.
  intros [H1 H2 H3 H4] Hz Hp Ht HQ. apply wlp_wp, wp_set_migratetype; [done..|]. intros m Hm Hty. apply HQ. split; [done| |done|done].
  intros x Hx. rewrite (ptype_set m s p t) by (done || by apply block_zone). rewrite <- (H2 x Hx).
  destruct (Z.eqb_spec (x / pageblock_nr_pages) (p / pageblock_nr_pages)) as [E|]; [|done]. exfalso.
  apply Hp, (range_block _ _ block_mod). rewrite <- E. by apply (range_block _ _ block_mod).
Qed.

Lemma wlp_expand p low high t (Q : unit -> state -> Prop) s : set_aside b s -> block zn p high -> 0 <= low -> ~ range b pageblock_order p ->
  (forall s', set_aside b s' -> Q tt s') -> wlp (expand p low high high t) Q s.
Proof using All.
  intros Hs Hp Hlow Hout HQ. apply (wlp_loop (fun '(a, h, size) s => set_aside b s /\ a = h /\ size = Z.shiftl 1 h /\ block zn p h)).
  { done. }
  clear s Hs Hp. intros [[a h] size] s (Hs & -> & -> & Hp). apply wlp_if; intros E; [|by apply wlp_ret, HQ].
  destruct (order_bounds zn _ _ Hp) as (_ & Hh & _). assert (h = (h - 1) + 1) as Eh by lia.
  destruct (half_block zn p (h - 1)) as (Hb1 & Hb2 & _); [by rewrite <- Eh|lia|].
  assert (Z.shiftr (Z.shiftl 1 h) 1 = Z.shiftl 1 (h - 1)) as Esz by (rewrite Z.shiftr_shiftl_l by lia; done). rewrite Esz.
  apply wlp_bind, (wlp_add b); [done| |].
  { rewrite Z.shiftl_1_l. intros Hx. destruct Hout. apply (block_outside p h (p + 2 ^ (h - 1))); [done| |done].
    unfold range. pose proof (pow2_S (h - 1)). rewrite <- Eh in *. pose proof (pow2_pos (h - 1)). lia. }
  intros s1 H1. apply wlp_bind, (wlp_untouched b); [auto with untouched|done|]. intros _ s2 H2. apply wlp_bind, (wlp_untouched b); [auto with untouched|done|].
  intros _ s3 H3. by apply wlp_ret.
Qed.

Lemma wlp_rmqueue_smallest o t s : inv zn s -> set_aside b s -> 0 <= o -> t <> MIGRATE_ISOLATE ->
  wlp (__rmqueue_smallest o t) (fun r s' => set_aside b s' /\ match r with Some p => ~ range b pageblock_order p | None => True end) s.
Proof using All.
  intros Hi Hs Ho Ht. apply (wlp_for (fun s' => inv zn s' /\ set_aside b s')); [done| |by intros ? []].
  clear s Hi Hs. intros c s Hc [Hi Hs]. apply wlp_bind, wlp_page_list_empty. intros [|]; [by apply wlp_ret|].
  apply wlp_bind, wlp_page_list_first. intros p Hp. assert (~ range b pageblock_order p) as Hout by (intros Hr; by apply Ht, (sa_lists _ _ Hs p c t)).
  assert (block zn p c) as Hpb by (apply (c_block _ _ _ (i_core _ _ Hi)); by exists t).
  apply wlp_bind, (wlp_del b); [done|]. intros s1 H1. apply wlp_bind, (wlp_untouched b); [auto with untouched|done|]. intros _ s2 H2.
  apply wlp_bind, (wlp_untouched b); [auto with untouched|done|]. intros _ s3 H3. apply wlp_bind, (wlp_untouched b); [auto with untouched|done|]. intros _ s4 H4.
  apply wlp_bind, wlp_expand; [done|done|done|done|]. intros s5 H5. by apply wlp_ret.
Qed.

Lemma wlp_move_block p t (Q : Z -> state -> Prop) s : set_aside b s -> (range b pageblock_order p -> t = MIGRATE_ISOLATE) ->
  (forall n s', set_aside b s' -> Q n s') -> wlp (move_freepages_block zn p t) Q s.
Proof using All.
  intros Hs Hp HQ. unfold move_freepages_block. cbv zeta. rewrite block_first_land. pose proof (block_first_bounds p) as Hbf. fold (block_last p).
  apply wlp_if; intros _; [by apply wlp_ret, HQ|]. set (lo := if _ <? _ then _ else _). assert (block_first p <= lo) as Hlo by (unfold lo; destruct (_ <? _); lia).
  clearbody lo. unfold move_freepages. apply wlp_bind, wlp_page_at. intros pg1 _. apply wlp_bind, wlp_page_at. intros pg2 _.
  apply wlp_bind. unfold BUG_ON. apply wlp_if; intros _; [done|]. apply wlp_ret.
  apply (wlp_loop (fun '(x, n) s => block_first p <= x /\ set_aside b s)); [done|]. clear s Hs. intros [x n] s [Hx Hs].
  apply wlp_if; intros E; [|by apply wlp_ret, HQ]. apply wlp_bind, wlp_page_at. intros pg _. apply wlp_if; intros _; [apply wlp_ret; split; [lia|done]|].
  apply wlp_bind, (wlp_del b); [done|]. intros s1 H1. apply wlp_bind, (wlp_add b); [done| |].
  - intros Hr. apply Hp. apply (range_block _ _ block_mod) in Hr. apply (range_block _ _ block_mod). rewrite <- Hr. apply Z.leb_le in E.
    unfold block_last, block_first in *. change pageblock_nr_pages with 1024 in *. clear - E Hx. Z.div_mod_to_equations. lia.
  - intros s2 H2. apply wlp_ret. split; [|done]. rewrite Z.shiftl_1_l. pose proof (Z.pow_nonneg 2 (pg_private pg)). lia.
Qed.

Lemma wlp_steal o start c t s : inv zn s -> set_aside b s -> 0 <= o -> t <> MIGRATE_ISOLATE -> 0 <= start < MIGRATE_ISOLATE ->
  wlp (steal zn o start c t) (fun p s' => set_aside b s' /\ ~ range b pageblock_order p) s.
Proof using All.
  intros Hi Hs Ho Ht Hst. unfold steal. apply wlp_bind, wlp_page_list_first. intros p Hp.
  assert (~ range b pageblock_order p) as Hout by (intros Hr; by apply Ht, (sa_lists _ _ Hs p c t)).
  assert (block zn p c) as Hpb by (apply (c_block _ _ _ (i_core _ _ Hi)); by exists t).
  assert (in_zone zn p) as Hz by (apply Hpb, range_start, Hpb). assert (0 <= start < MIGRATE_TYPES) as Hst' by (unfold MIGRATE_ISOLATE, MIGRATE_TYPES in *; lia).
  apply wlp_bind, (wlp_untouched b); [auto with untouched|done|]. clear s Hi Hs Hp. intros _ s1 H1. apply wlp_bind.
  apply (wlp_mono _ (fun _ s' => set_aside b s')).
  { apply wlp_if; intros _; [|by apply wlp_ret]. apply wlp_bind, wlp_move_block; [done|done|]. intros n s2 H2. apply wlp_bind, wlp_if; intros _.
    - apply wlp_set_type; [done..|]. intros s3 H3. by apply wlp_ret.
    - by apply wlp_ret, wlp_ret. }
  intros t' s2 H2. apply wlp_bind, (wlp_del b); [done|]. intros s3 H3. apply wlp_bind, (wlp_untouched b); [auto with untouched|done|]. intros _ s4 H4.
  apply wlp_bind, (wlp_untouched b); [auto with untouched|done|]. intros _ s5 H5. apply wlp_bind. apply (wlp_mono _ (fun _ s' => set_aside b s')).
  { apply wlp_if; intros _; [|by apply wlp_ret]. apply wlp_set_type; done. }
  intros _ s6 H6. apply wlp_bind, wlp_expand; [done..|]. intros s7 H7. by apply wlp_ret.
Qed.

Lemma fallback_usable start i t s s' : 0 <= start < MIGRATE_RESERVE -> 0 <= i < MIGRATE_TYPES - 1 -> fallback start i s = Ok (t, s') -> s' = s /\ t <> MIGRATE_ISOLATE.
Proof.
  unfold MIGRATE_RESERVE, MIGRATE_TYPES, MIGRATE_ISOLATE. intros Hs Hi. assert (start = 0 \/ start = 1 \/ start = 2) as Cs by lia. assert (i = 0 \/ i = 1 \/ i = 2 \/ i = 3) as Ci by lia.
  destruct Cs as [->|[->| ->]], Ci as [->|[->|[->| ->]]]; intros [= <- <-]; done.
Qed.

Lemma wlp_rmqueue_fallback o t s : inv zn s -> set_aside b s -> 0 <= o < MAX_ORDER -> 0 <= t < MIGRATE_RESERVE ->
  wlp (__rmqueue_fallback zn o t) (fun r s' => set_aside b s' /\ match r with Some p => ~ range b pageblock_order p | None => True end) s.
Proof using All.
  intros Hi Hs Ho Ht. assert (0 <= t < MIGRATE_ISOLATE) as Ht' by (unfold MIGRATE_RESERVE, MIGRATE_ISOLATE in *; lia). apply wlp_bind.
  apply (wlp_mono _ (fun r s' => set_aside b s' /\ match r with Some p => ~ range b pageblock_order p | None => inv zn s' end)).
  2: { intros [p|] s' [H1 H2]; [by apply wlp_ret|]. apply wlp_rmqueue_smallest; (done || lia). }
  apply (wlp_loop (fun c s => inv zn s /\ set_aside b s)); [done|]. clear s Hi Hs. intros c s [Hi Hs].
  apply wlp_if; intros _; [|by apply wlp_ret]. apply wlp_bind.
  apply (wlp_for (fun s => inv zn s /\ set_aside b s)); [done| |by intros s' [? ?]; apply wlp_ret].
  clear s Hi Hs. intros i s Hir [Hi Hs]. apply wlp_bind. unfold wlp at 1. destruct (fallback t i s) as [[u s']|] eqn:Ef; [|done].
  apply fallback_usable in Ef as [-> Hu]; [|done|done]. apply wlp_if; intros _; [by apply wlp_ret|].
  apply wlp_bind, wlp_page_list_empty. intros [|]; [by apply wlp_ret|]. apply wlp_bind. eapply wlp_mono; [apply wlp_steal; (done || lia)|].
  intros p s' [H1 H2]. by apply wlp_ret, wlp_ret.
Qed.

(** The buddy system allocates nothing from a block that is set aside, and the block stays
    as it is. *)
Lemma wlp_rmqueue o t s : inv zn s -> set_aside b s -> 0 <= o < MAX_ORDER -> 0 <= t < MIGRATE_RESERVE ->
  wlp (__rmqueue zn o t) (fun r s' => set_aside b s' /\ match r with Some p => ~ range b pageblock_order p | None => True end) s.
Proof using All.
  intros Hi Hs Ho Ht. assert (t <> MIGRATE_ISOLATE /\ 0 <= t < MIGRATE_TYPES) as [Ht1 Ht2]
    by (unfold MIGRATE_RESERVE, MIGRATE_ISOLATE, MIGRATE_TYPES in *; lia).
  apply wlp_bind. eapply wlp_mono; [apply wlp_wp, wp_wlp; [by apply (wp_rmqueue_smallest zn)|apply wlp_rmqueue_smallest; (done || lia)]|].
  intros [p|] s' [H1 [H2 H3]]; [by apply wlp_ret|]. destruct H1 as [-> _]. by apply wlp_rmqueue_fallback.
Qed.

Lemma clear_same_block p o : 0 <= o < MAX_ORDER - 1 -> Z.ldiff p (2 ^ o) / pageblock_nr_pages = p / pageblock_nr_pages.
Proof.
  intros Ho. unfold pageblock_nr_pages, pageblock_order, MAX_ORDER in *. rewrite Z.shiftl_1_l, <- !Z.shiftr_div_pow2 by lia.
  rewrite Z.shiftr_ldiff, (Z.shiftr_div_pow2 (2 ^ o)) by lia. rewrite (Z.div_small (2 ^ o)), Z.ldiff_0_r; [done|].
  split; [lia|]. apply Z.pow_lt_mono_r; lia.
Qed.

(** Merging stays in the block of the page. *)
Lemma wlp_merge p o (Q : Z * Z -> state -> Prop) s : set_aside b s -> 0 <= o ->
  (forall q r s', set_aside b s' -> q / pageblock_nr_pages = p / pageblock_nr_pages -> Q (q, r) s') -> wlp (merge p o) Q s.
Proof using All.
  intros Hs Ho HQ. apply (wlp_loop (fun '(q, i, r) s => set_aside b s /\ 0 <= r /\ cut_idx q i /\ q / pageblock_nr_pages = p / pageblock_nr_pages)); [done|].
  clear s Hs. intros [[q i] r] s (Hs & Hr & Hcut & Hq). apply wlp_if; intros E; [|by apply wlp_ret, HQ].
  assert (0 <= r < MAX_ORDER) as Hr' by lia. cbv zeta. rewrite find_buddy by done. apply wlp_bind.
  apply (wlp_mono _ (fun _ s' => set_aside b s')).
  { apply wlp_bind, wlp_page_at. intros pg1 _. apply wlp_bind, wlp_page_at. intros pg2 _. apply wlp_if; intros _; [by apply wlp_ret|].
    apply wlp_if; intros _; [|by apply wlp_ret]. apply wlp_bind. apply (wlp_untouched b); [apply untouched_page_count|done|].
    intros c s1 H1. apply wlp_bind. unfold BUG_ON. apply wlp_if; intros _; [done|]. by apply wlp_ret, wlp_ret. }
  intros yes s1 H1. apply wlp_if; intros _; [by apply wlp_ret, HQ|]. apply wlp_bind, (wlp_del b); [done|]. intros s2 H2.
  apply wlp_bind, (wlp_untouched b); [auto with untouched|done|]. intros _ s3 H3. apply wlp_bind, (wlp_untouched b); [auto with untouched|done|]. intros _ s4 H4.
  apply wlp_ret. destruct (find_combined q i r Hr' Hcut) as [-> Hcut']. split; [done|]. split; [lia|]. split; [done|].
  rewrite <- Hq. apply clear_same_block. lia.
Qed.

(** A block that comes back is put on the list of its type. *)
Lemma wlp_free_one_page p o s : set_aside b s -> in_zone zn p -> 0 <= o -> wlp (__free_one_page zn p o) (fun _ s' => set_aside b s') s.
Proof using All.
  intros Hs Hz Ho. assert (range b pageblock_order p -> ptype zn s p = MIGRATE_ISOLATE) as Ht by apply Hs.
  apply wlp_bind, wlp_wp, wp_get_migratetype; [apply Hs|done|]. revert Ht. generalize (ptype zn s p). intros t Ht.
  apply wlp_bind, wlp_page_at. intros pg _. apply wlp_bind, (wlp_untouched b); [|done|].
  { apply untouched_if; [apply untouched_destroy|auto with untouched]. }
  intros bad s1 H1. apply wlp_if; intros _; [by apply wlp_ret|]. apply wlp_bind, (wlp_untouched b); [auto with untouched|done|]. intros _ s2 H2.
  apply wlp_bind, wlp_merge; [done|done|]. intros q r s3 H3 Hq. apply wlp_bind, (wlp_untouched b); [auto with untouched|done|]. intros _ s4 H4.
  apply wlp_bind, (wlp_add b); [done| |].
  - intros Hr. apply Ht. apply (range_block _ _ block_mod) in Hr. apply (range_block _ _ block_mod). congruence.
  - intros s5 H5. by apply (wlp_untouched b); [auto with untouched|..].
Qed.

Lemma wlp_page_list_last h (Q : Z -> state -> Prop) s : (forall p, on (lists s) h p -> Q p s) -> wlp (page_list_last h) Q s.
Proof.
  intros H. apply wlp_bind, wlp_list_at. intros l El. destruct (last l) as [p|] eqn:E; [|done]. apply wlp_ret, H. exists l. split; [done|].
  apply last_Some in E as [l' ->]. apply elem_of_app. right. by apply list_elem_of_singleton.
Qed.

Lemma wlp_drain s : set_aside b s -> wlp (drain_pages zn) (fun _ s' => set_aside b s') s.
Proof using All.
  intros Hs. apply wlp_bind, wlp_asks. apply wlp_bind. apply (wlp_mono _ (fun _ s' => set_aside b s')).
  2: { intros _ s' H. apply wlp_modify. by eapply set_aside_frame. }
  apply wlp_bind, (wlp_untouched b); [auto with untouched|done|]. intros _ s1 H1.
  apply (wlp_loop (fun _ s => set_aside b s)); [done|]. intros n s' Hs'. apply wlp_if; intros _; [by apply wlp_ret|].
  apply wlp_bind, wlp_page_list_last. intros p Hp. pose proof (sa_pcp _ _ Hs' p Hp) as Hz. apply wlp_bind, (wlp_del b); [done|]. intros s3 H3.
  apply wlp_bind. eapply wlp_mono; [by apply wlp_free_one_page|]. intros [] s2 H2. by apply wlp_ret.
Qed.

End SetAside.

(** ** Isolating one block *)

Lemma regroup_refilled s lo e mt L' m : finv zn s -> regrouped (lists s) lo e mt L' -> bitmap_ok zn m ->
  refilled zn s (with_lists (fun _ => L') (with_bits m s)).
Proof.
  intros [Hi Hcnt] HR Hm. assert (forall x, idle L' x <-> idle (lists s) x) as Hid.
  { intros x. unfold idle. rewrite (regrouped_free _ _ _ _ _ x HR). unfold on. by rewrite (rg_pcp _ _ _ _ _ HR). }
  split; [|done|done|done]. split.
  - split; cbn [lists mem_map nr_free vm_stat bits with_lists with_bits].
    + by eapply regrouped_core; [apply Hi|].
    + intros o Ho. rewrite (rg_cnt _ _ _ _ _ HR). by apply Hi.
    + rewrite (regrouped_total _ _ _ _ _ HR). apply Hi.
    + done.
  - cbn [pcp_count lists with_lists with_bits]. rewrite Hcnt. unfold len. by rewrite (rg_pcp _ _ _ _ _ HR).
Qed.

Lemma drain_refilled s : finv zn s -> wp (drain_pages zn) (fun _ s' => refilled zn s s' /\ bits s' = bits s) s.
Proof.
  intros Hf. eapply wp_mono; [by apply (wp_drain_pages zn s)|]. intros [] s' (Hr & _ & Hb). split; [by apply returned_refilled|done].
Qed.

Lemma block_lo p : block zn p pageblock_order -> block_first p = p /\ (block_first p <? zone_start_pfn zn) = false /\ block_last p < zone_start_pfn zn + spanned_pages zn.
Proof.
  intros (_ & Hp & Hz). unfold block_last, block_first. change pageblock_nr_pages with 1024. change (2 ^ pageblock_order) with 1024 in Hp.
  assert (p / 1024 * 1024 = p) as -> by (Z.div_mod_to_equations; lia). pose proof (Hz p) as H1. pose proof (Hz (p + 1023)) as H2. unfold range, in_zone in *.
  change (2 ^ pageblock_order) with 1024 in *. split; [done|]. split; [apply Z.ltb_ge|]; lia.
Qed.

Lemma pcp_zone s : inv zn s -> forall q, on (lists s) Pcp q -> in_zone zn q.
Proof. intros Hi q Hq. by apply (c_pcp _ _ _ (i_core _ _ Hi)). Qed.

(** Set the type of a block and move its free blocks to the lists of that type. *)
Lemma wp_retype p t s : aligned -> finv zn s -> block zn p pageblock_order -> 0 <= t < MIGRATE_TYPES ->
  wp (set_pageblock_migratetype zn p t ;; move_freepages_block zn p t) (fun _ s' => refilled zn s s' /\
    (forall x, in_zone zn x -> ptype zn s' x = if x / pageblock_nr_pages =? p / pageblock_nr_pages then t else ptype zn s x) /\
    (forall q o u, on (lists s') (Free o u) q -> range p pageblock_order q -> u = t)) s.
Proof.
  intros Ha Hf Hp Ht. assert (in_zone zn p) as Hz by (apply Hp, range_start; done). destruct (block_lo p Hp) as (Ef & El & Hlast).
  apply wp_bind, wp_set_migratetype; [apply Hf|done|done|]. intros m Hm Hty.
  apply wp_move_freepages_block; [apply Hf|done|done|intros; lia|]. intros L' n e lo _ Elo HR He. rewrite El, Ef in Elo. subst lo.
  split; [by eapply regroup_refilled|]. split.
  - intros x Hx. by apply (ptype_set m s p t).
  - intros q o u Hq Hr. apply (rg_on _ _ _ _ _ HR) in Hq. rewrite bool_decide_true in Hq; [by destruct Hq|].
    unfold range, block_last in *. rewrite Ef in He. change (2 ^ pageblock_order) with 1024 in Hr. change pageblock_nr_pages with 1024 in He. lia.
Qed.

Lemma range_same p x : block zn p pageblock_order -> range p pageblock_order x <-> x / pageblock_nr_pages = p / pageblock_nr_pages.
Proof. intros Hp. apply range_block, Hp. Qed.

Definition retyped s (p t : Z) s' : Prop :=
  forall x, in_zone zn x -> ptype zn s' x = if x / pageblock_nr_pages =? p / pageblock_nr_pages then t else ptype zn s x.

Lemma wp_set_isolate p s : aligned -> finv zn s -> block zn p pageblock_order ->
  wp (set_migratetype_isolate zn p) (fun r s' => refilled zn s s' /\
    if ptype zn s p =? MIGRATE_MOVABLE then r = 0 /\ set_aside p s' /\ retyped s p MIGRATE_ISOLATE s' else r = - EBUSY /\ s' = s) s.
Proof.
  intros Ha Hf Hp. assert (in_zone zn p) as Hz by (apply Hp, range_start; done). unfold set_migratetype_isolate.
  apply wp_bind, wp_get_migratetype; [apply Hf|done|]. destruct (_ =? _) eqn:E; [cbn [negb]|by apply wp_ret; split; [apply refilled_refl|]].
  apply wp_assoc, wp_bind. eapply wp_mono; [by apply (wp_retype p MIGRATE_ISOLATE)|]. intros _ s1 (Hr1 & Ht1 & Hl1).
  assert (set_aside p s1) as Hs1.
  { split; [apply Hr1| |done|apply pcp_zone, Hr1]. intros x Hx. rewrite Ht1 by by apply Hp.
    apply (range_same p x Hp) in Hx. by rewrite Hx, Z.eqb_refl. }
  apply wp_bind. eapply wp_mono; [apply wp_wlp; [apply drain_refilled, Hr1|by apply (wlp_drain p)]|]. intros [] s2 [[Hr2 Hb2] Hs2].
  apply wp_ret. split; [by eapply refilled_trans|]. split; [done|]. split; [done|]. intros x Hx. rewrite <- Ht1 by done. unfold ptype. by rewrite Hb2.
Qed.

Lemma wp_unset_isolate p s : aligned -> finv zn s -> block zn p pageblock_order ->
  wp (unset_migratetype_isolate zn p) (fun _ s' => refilled zn s s' /\
    if ptype zn s p =? MIGRATE_ISOLATE then retyped s p MIGRATE_MOVABLE s' else s' = s) s.
Proof.
  intros Ha Hf Hp. assert (in_zone zn p) as Hz by (apply Hp, range_start; done). unfold unset_migratetype_isolate.
  apply wp_bind, wp_get_migratetype; [apply Hf|done|]. destruct (_ =? _) eqn:E; [cbn [negb]|by apply wp_ret; split; [apply refilled_refl|]].
  apply wp_assoc, wp_bind. eapply wp_mono; [by apply (wp_retype p MIGRATE_MOVABLE)|]. intros _ s1 (Hr1 & Ht1 & _). apply wp_ret. done.
Qed.

(** Another block that is set aside stays so. *)
Lemma wlp_set_isolate b p s : aligned -> block zn b pageblock_order -> block zn p pageblock_order -> b <> p -> set_aside b s ->
  wlp (set_migratetype_isolate zn p) (fun _ s' => set_aside b s') s.
Proof.
  intros Ha Hb Hp Hne Hs. assert (in_zone zn p) as Hz by (apply Hp, range_start; done).
  assert (~ range b pageblock_order p) as Hout.
  { intros Hr. apply Hne. symmetry. apply (same_order b pageblock_order p p); [done|apply Hb|apply Hp|done|by apply range_start]. }
  apply wlp_bind, wlp_wp, wp_get_migratetype; [apply Hs|done|]. apply wlp_if; intros _; [by apply wlp_ret|].
  apply wlp_bind, (wlp_set_type b); [done..|]. intros s1 H1. apply wlp_bind, (wlp_move_block b); [done..|]. intros n s2 H2.
  apply wlp_bind. eapply wlp_mono; [by apply (wlp_drain b)|]. intros [] s3 H3. by apply wlp_ret.
Qed.

(** ** Isolating a range *)

(** A range of whole blocks of the zone. *)
Definition whole_range (a e : Z) : Prop :=
  a mod pageblock_nr_pages = 0 /\ e mod pageblock_nr_pages = 0 /\ a <= e /\ zone_start_pfn zn <= a /\ e <= zone_start_pfn zn + spanned_pages zn.

Lemma range_block_at a e b : whole_range a e -> b mod pageblock_nr_pages = 0 -> a <= b < e -> block zn b pageblock_order /\ b + pageblock_nr_pages <= e.
Proof.
  unfold whole_range, block, in_zone, range. change (2 ^ pageblock_order) with 1024. change pageblock_nr_pages with 1024. intros (Ha & He & Hle & H1 & H2) Hb Hr.
  assert (b + 1024 <= e) by (Z.div_mod_to_equations; lia). split; [|done]. split; [done|]. split; [done|]. lia.
Qed.

Lemma following_block a e b : zone_ok zn -> whole_range a e -> b mod pageblock_nr_pages = 0 -> a <= b < e ->
  u32 (b + pageblock_nr_pages) = b + pageblock_nr_pages /\ (b + pageblock_nr_pages) mod pageblock_nr_pages = 0 /\ b + pageblock_nr_pages <= e.
Proof.
  intros (Hz1 & Hz2 & Hz3) Hw Hb Hr. destruct (range_block_at a e b Hw Hb Hr) as [_ Hle]. destruct Hw as (_ & _ & _ & H1 & H2). split; [|split; [|done]].
  - apply wrap_id. unfold fits. change pageblock_nr_pages with 1024 in *. change (2 ^ 20) with 1048576 in *. change (2 ^ 32) with 4294967296. lia.
  - change pageblock_nr_pages with 1024 in *. Z.div_mod_to_equations. lia.
Qed.

(** Whether [x] lies below the limit [e] of a block is a matter of its block. *)
Lemma below_block b e x : b mod pageblock_nr_pages = 0 -> e mod pageblock_nr_pages = 0 -> b <= x < e <-> b / pageblock_nr_pages <= x / pageblock_nr_pages < e / pageblock_nr_pages.
Proof. change pageblock_nr_pages with 1024. intros. Z.div_mod_to_equations. lia. Qed.

Lemma BUG_aligned a : a mod pageblock_nr_pages = 0 -> negb (Z.land a (pageblock_nr_pages - 1) =? 0) = false.
Proof.
  intros Ha. apply negb_false_iff, Z.eqb_eq. change (pageblock_nr_pages - 1) with (Z.ones 10). rewrite Z.land_ones by done. exact Ha.
Qed.

(** The blocks of [a, c) have type [t], all others the type they had in [s]. *)
Definition typed s (a c t : Z) s' : Prop :=
  forall x, in_zone zn x -> ptype zn s' x = if bool_decide (a <= x < c) then t else ptype zn s x.

Lemma typed_next s a e c t s1 s2 : whole_range a e -> c mod pageblock_nr_pages = 0 -> a <= c < e ->
  typed s a c t s1 -> retyped s1 c t s2 -> typed s a (c + pageblock_nr_pages) t s2.
Proof.
  intros Hw Hc Hr H1 H2 x Hx. rewrite H2 by done. assert ((x / pageblock_nr_pages =? c / pageblock_nr_pages) = bool_decide (c <= x < c + pageblock_nr_pages)) as ->.
  { apply eq_bool_prop_intro. rewrite Is_true_true, Z.eqb_eq, bool_decide_spec. change pageblock_nr_pages with 1024 in *. Z.div_mod_to_equations. lia. }
  change pageblock_nr_pages with 1024 in *. case_bool_decide; [by rewrite bool_decide_true by lia|]. rewrite H1 by done. by rewrite (bool_decide_ext (a <= x < c + 1024) (a <= x < c)) by lia.
Qed.

Lemma ptype_block s x b : aligned -> block zn b pageblock_order -> range b pageblock_order x -> ptype zn s x = ptype zn s b.
Proof.
  intros Ha Hb Hx. assert (in_zone zn b /\ in_zone zn x) as [Hz Hxz] by (split; apply Hb; [by apply range_start|done]).
  unfold ptype. destruct (page_group_by_mobility_disabled zn); [done|]. unfold mtype. apply gather_ext. intros i _. unfold block_bit.
  assert (pfn_to_bitidx zn x = pfn_to_bitidx zn b) as ->; [|done]. apply bitidx_same; [done..|]. by apply range_same.
Qed.

Record isolating s (a c : Z) s' : Prop := {
  ig_refilled : refilled zn s s';
  ig_types : typed s a c MIGRATE_ISOLATE s';
  ig_movable : forall b, b mod pageblock_nr_pages = 0 -> a <= b < c -> ptype zn s b = MIGRATE_MOVABLE;
  ig_aside : forall b, b mod pageblock_nr_pages = 0 -> a <= b < c -> set_aside b s'
}.

Lemma isolating_step s a e c s1 : aligned -> whole_range a e -> c mod pageblock_nr_pages = 0 -> a <= c < e -> isolating s a c s1 ->
  wp (set_migratetype_isolate zn c) (fun r s2 =>
    if ptype zn s c =? MIGRATE_MOVABLE then r = 0 /\ isolating s a (c + pageblock_nr_pages) s2 else r = - EBUSY /\ s2 = s1) s1.
Proof.
  intros Ha Hw Hc Hr Hig. destruct (range_block_at a e c Hw Hc Hr) as [Hb _]. assert (in_zone zn c) as Hz by (apply Hb, range_start; done).
  assert (ptype zn s1 c = ptype zn s c) as Et by (rewrite (ig_types _ _ _ _ Hig) by done; by rewrite bool_decide_false by lia).
  assert (forall b, b mod pageblock_nr_pages = 0 -> a <= b < c -> wlp (set_migratetype_isolate zn c) (fun _ s' => set_aside b s') s1) as Hkeep.
  { intros b Hbm Hbr. apply (wlp_set_isolate b c); [done|apply (range_block_at a e); [done|done|lia]|done|lia|by apply (ig_aside _ _ _ _ Hig)]. }
  destruct (wp_run _ _ _ (wp_set_isolate c s1 Ha (rf_inv _ _ _ (ig_refilled _ _ _ _ Hig)) Hb)) as (r & s2 & Er & Hr2 & Hres).
  apply (wp_det _ r _ s2 _ Er). rewrite Et in Hres. destruct (Z.eqb_spec (ptype zn s c) MIGRATE_MOVABLE) as [Em|]; [|done].
  destruct Hres as (-> & Hs & Hty). split; [done|]. split.
  - eapply refilled_trans; [apply Hig|done].
  - by eapply typed_next; [..|apply Hig|].
  - intros b Hbm Hbr. destruct (decide (b < c)) as [|Hge]; [apply (ig_movable _ _ _ _ Hig b Hbm); lia|].
    replace b with c; [done|]. change pageblock_nr_pages with 1024 in *. clear - Hbm Hc Hbr Hge. Z.div_mod_to_equations. lia.
  - intros b Hbm Hbr. destruct (decide (b < c)) as [Hlt|Hge].
    + specialize (Hkeep b Hbm ltac:(lia)). unfold wlp in Hkeep. by rewrite Er in Hkeep.
    + replace b with c; [done|]. change pageblock_nr_pages with 1024 in *. clear - Hbm Hc Hbr Hge. Z.div_mod_to_equations. lia.
Qed.

(** The undo loop. *)
Lemma wp_undo s a e c s1 : aligned -> whole_range a e -> c mod pageblock_nr_pages = 0 -> a <= c <= e -> isolating s a c s1 ->
  wp (loop (S (Z.to_nat (c - a))) (fun pfn =>
        if pfn <? c then unset_migratetype_isolate zn pfn ;; continue (u32 (pfn + pageblock_nr_pages)) else break tt) a)
    (fun _ s' => refilled zn s s' /\ forall x, in_zone zn x -> ptype zn s' x = ptype zn s x) s1.
Proof.
  intros Ha Hw Hc Hr Hig. assert (whole_range a c) as Hw' by (destruct Hw as (? & ? & ? & ? & ?); split; [done|]; split; [done|]; lia).
  apply (wp_loop (fun pfn s' => pfn mod pageblock_nr_pages = 0 /\ a <= pfn <= c /\ refilled zn s s' /\ typed s pfn c MIGRATE_ISOLATE s') (fun pfn => Z.to_nat (c - pfn))); [|lia|].
  { split; [apply Hw|]. split; [lia|]. split; apply Hig. }
  intros p s2 (Hp & Hpr & Hrf & Hty). destruct (Z.ltb_spec p c) as [Hlt|Hge].
  2: { apply wp_ret. split; [done|]. intros x Hx. rewrite Hty by done. by rewrite bool_decide_false by lia. }
  destruct (range_block_at a c p Hw' Hp) as [Hb _]; [lia|]. destruct (following_block a c p (proj1 Ha) Hw' Hp) as (-> & Hm & Hle); [lia|].
  assert (in_zone zn p) as Hz by (apply Hb, range_start; done).
  apply wp_bind. eapply wp_mono; [by apply (wp_unset_isolate p s2 Ha (rf_inv _ _ _ Hrf))|]. intros [] s3 [Hr3 Hty3]. apply wp_ret.
  rewrite (Hty p Hz), bool_decide_true, Z.eqb_refl in Hty3 by lia. change pageblock_nr_pages with 1024 in Hle. split; [|change pageblock_nr_pages with 1024; lia]. split; [done|].
  split; [change pageblock_nr_pages with 1024; lia|]. split; [by eapply refilled_trans|]. intros x Hx. rewrite Hty3, Hty by done.
  destruct (Z.eqb_spec (x / pageblock_nr_pages) (p / pageblock_nr_pages)) as [Ex|Ex].
  - apply (range_same p x Hb) in Ex. rewrite (ptype_block s x p) by done. rewrite (ig_movable _ _ _ _ Hig p) by (done || lia).
    rewrite bool_decide_false; [done|]. unfold range in Ex. change (2 ^ pageblock_order) with 1024 in Ex. change pageblock_nr_pages with 1024. lia.
  - rewrite (bool_decide_ext (p <= x < c) (p + pageblock_nr_pages <= x < c)); [done|]. assert (~ range p pageblock_order x) as Hn by by rewrite (range_same p x Hb).
    unfold range in Hn. change (2 ^ pageblock_order) with 1024 in Hn. change pageblock_nr_pages with 1024. lia.
Qed.

Lemma wp_start_isolate s a e : aligned -> finv zn s -> whole_range a e ->
  wp (start_isolate_page_range a e) (fun r s' => refilled zn s s' /\
    ((r = 0 /\ isolating s a e s') \/
     (r = - EBUSY /\ (exists b, b mod pageblock_nr_pages = 0 /\ a <= b < e /\ ptype zn s b <> MIGRATE_MOVABLE) /\
      forall x, in_zone zn x -> ptype zn s' x = ptype zn s x))) s.
Proof.
  intros Ha Hf Hw. unfold start_isolate_page_range. apply wp_bind, wp_BUG_ON; [apply BUG_aligned, Hw|]. apply wp_bind, wp_BUG_ON; [apply BUG_aligned, Hw|].
  apply wp_bind. apply (wp_loop (fun pfn s' => pfn mod pageblock_nr_pages = 0 /\ a <= pfn <= e /\ isolating s a pfn s') (fun pfn => Z.to_nat (e - pfn))); [|lia|].
  { destruct Hw as (Hm & _ & Hle & _). split; [done|]. split; [lia|]. split; [by apply refilled_refl| |intros; lia|intros; lia].
    intros x Hx. by rewrite bool_decide_false by lia. }
  intros p s1 (Hp & Hpr & Hig). destruct (Z.ltb_spec p e) as [Hlt|Hge].
  2: { apply wp_ret, wp_ret. split; [apply Hig|]. left. split; [done|]. by replace e with p by lia. }
  destruct (following_block a e p (proj1 Ha) Hw Hp) as (-> & Hm & Hle); [lia|]. unfold __first_valid_page. change (0 <? pageblock_nr_pages) with true. cbn match.
  apply wp_bind. eapply wp_mono; [apply (isolating_step s a e p s1 Ha Hw Hp); [lia|done]|]. intros r s2.
  destruct (Z.eqb_spec (ptype zn s p) MIGRATE_MOVABLE) as [Em|Em].
  - intros [-> Hig']. apply wp_ret. change pageblock_nr_pages with 1024 in Hle. split; [split; [done|split; [change pageblock_nr_pages with 1024; lia|done]]|]. change pageblock_nr_pages with 1024. lia.
  - intros [-> ->]. apply wp_ret. apply wp_bind. eapply wp_mono; [apply (wp_undo s a e p s1 Ha Hw Hp Hpr Hig)|]. intros [] s3 [Hr3 Ht3]. apply wp_ret.
    split; [done|]. right. split; [done|]. split; [|done]. exists p. split; [done|]. split; [lia|done].
Qed.

Lemma bool_decide_ext_if {A} (P Q : Prop) `{Decision P, Decision Q} (a c : A) : (P <-> Q) -> (if bool_decide P then a else c) = (if bool_decide Q then a else c).
Proof. intros E. by rewrite (bool_decide_ext P Q). Qed.

Lemma wp_undo_isolate s a e : aligned -> finv zn s -> whole_range a e ->
  wp (undo_isolate_page_range a e) (fun r s' => r = 0 /\ refilled zn s s' /\
    forall x, in_zone zn x -> ptype zn s' x = if bool_decide (a <= x < e /\ ptype zn s x = MIGRATE_ISOLATE) then MIGRATE_MOVABLE else ptype zn s x) s.
Proof.
  intros Ha Hf Hw. unfold undo_isolate_page_range. apply wp_bind, wp_BUG_ON; [apply BUG_aligned, Hw|]. apply wp_bind, wp_BUG_ON; [apply BUG_aligned, Hw|].
  apply wp_bind. apply (wp_loop (fun pfn s' => pfn mod pageblock_nr_pages = 0 /\ a <= pfn <= e /\ refilled zn s s' /\ forall x, in_zone zn x ->
    ptype zn s' x = if bool_decide (a <= x < pfn /\ ptype zn s x = MIGRATE_ISOLATE) then MIGRATE_MOVABLE else ptype zn s x) (fun pfn => Z.to_nat (e - pfn))); [|lia|].
  { destruct Hw as (Hm & _ & Hle & _). split; [done|]. split; [lia|]. split; [by apply refilled_refl|]. intros x Hx. rewrite bool_decide_false; [done|]. lia. }
  intros p s1 (Hp & Hpr & Hrf & Hty). destruct (Z.ltb_spec p e) as [Hlt|Hge].
  2: { apply wp_ret, wp_ret. split; [done|]. split; [done|]. by replace e with p by lia. }
  destruct (range_block_at a e p Hw Hp) as [Hb _]; [lia|]. destruct (following_block a e p (proj1 Ha) Hw Hp) as (-> & Hm & Hle); [lia|].
  assert (in_zone zn p) as Hz by (apply Hb, range_start; done). unfold __first_valid_page. change (0 <? pageblock_nr_pages) with true. cbn match.
  assert (ptype zn s1 p = ptype zn s p) as Et by (rewrite Hty by done; rewrite bool_decide_false; [done|lia]).
  assert (forall s', refilled zn s1 s' -> (if ptype zn s1 p =? MIGRATE_ISOLATE then retyped s1 p MIGRATE_MOVABLE s' else s' = s1) ->
    wp (continue (p + pageblock_nr_pages)) (fun (r : Z + unit) m' => match r with
      | inl pfn => (pfn mod pageblock_nr_pages = 0 /\ a <= pfn <= e /\ refilled zn s m' /\ forall x, in_zone zn x ->
          ptype zn m' x = if bool_decide (a <= x < pfn /\ ptype zn s x = MIGRATE_ISOLATE) then MIGRATE_MOVABLE else ptype zn s x) /\ (Z.to_nat (e - pfn) < Z.to_nat (e - p))%nat
      | inr _ => wp (mret 0) (fun r s' => r = 0 /\ refilled zn s s' /\
          forall x, in_zone zn x -> ptype zn s' x = if bool_decide (a <= x < e /\ ptype zn s x = MIGRATE_ISOLATE) then MIGRATE_MOVABLE else ptype zn s x) m'
      end) s') as Hnext.
  { intros s' Hr' Hre. apply wp_ret. change pageblock_nr_pages with 1024 in Hle, Hm |- *. split; [|lia]. split; [done|]. split; [lia|]. split; [by eapply refilled_trans|]. intros x Hx.
    assert (range p pageblock_order x <-> p <= x < p + 1024) as Hpx by done.
    assert (range p pageblock_order x -> ptype zn s x = ptype zn s p) as Hsame by by apply ptype_block.
    assert (ptype zn s' x = if bool_decide (range p pageblock_order x /\ ptype zn s p = MIGRATE_ISOLATE) then MIGRATE_MOVABLE else ptype zn s1 x) as ->.
    { rewrite <- Et. destruct (Z.eqb_spec (ptype zn s1 p) MIGRATE_ISOLATE) as [E|E]; [|subst s'; rewrite bool_decide_false; [done|tauto]].
      rewrite Hre by done. pose proof (range_same p x Hb). destruct (Z.eqb_spec (x / pageblock_nr_pages) (p / pageblock_nr_pages)).
      - rewrite bool_decide_true; [done|tauto].
      - rewrite bool_decide_false; [done|tauto]. }
    rewrite Hty by done. destruct (decide (range p pageblock_order x)) as [Hin|Hout].
    - pose proof (proj1 Hpx Hin) as Hin'. rewrite (Hsame Hin), (bool_decide_false (a <= x < p /\ _)) by lia. apply bool_decide_ext_if. rewrite Hpx in *. split; intros [? ?]; (split; [lia|done]).
    - rewrite (bool_decide_false (range _ _ _ /\ _)) by tauto. rewrite Hpx in Hout. apply bool_decide_ext_if. split; intros [? ?]; (split; [lia|done]). }
  apply wp_bind, wp_bind, wp_get_migratetype; [apply Hrf|done|]. destruct (ptype zn s1 p =? MIGRATE_ISOLATE) eqn:E; cbn [negb].
  - eapply wp_mono; [by apply (wp_unset_isolate p s1 Ha (rf_inv _ _ _ Hrf))|]. intros [] s2 [Hr2 Ht2]. apply Hnext; [done|by rewrite E in Ht2].
  - apply wp_ret, Hnext; [apply refilled_refl, Hrf|done].
Qed.

(** ** Testing a range *)

(** Every page of the range is idle or in a block that somebody holds. *)
Definition accounted s (own : list (Z * Z)) (a e : Z) : Prop :=
  forall x, a <= x < e -> idle (lists s) x \/ exists i p o, own !! i = Some (p, o) /\ range p o x.

Definition all_idle s (a e : Z) : Prop := forall x, a <= x < e -> idle (lists s) x.

Definition pcp_marked s (a e : Z) : Prop :=
  forall x pg, a <= x < e -> on (lists s) Pcp x -> mem_map s !! x = Some pg -> pg_private pg = MIGRATE_ISOLATE.

Lemma count_idle P x : quiet P x -> count_of P x = Some 0.
Proof. intros (pg & Hpg & Hc & _ & _ & Hfl). unfold count_of. rewrite Hpg. unfold PageTail. rewrite quiet_flag by done. by rewrite Hc. Qed.

Lemma count_held s p o x : held zn s p o -> range p o x -> exists c, count_of (mem_map s) x = Some c /\ (x = p -> c = 1).
Proof.
  intros [_ _ (hg & Hhg & Hc & _ & Ht) Htails] Hx. unfold count_of. destruct (decide (x = p)) as [->|Hne].
  - rewrite Hhg, Ht. eexists. split; [done|]. by rewrite Hc.
  - destruct (Htails x Hx Hne) as (xg & Hxg & _ & _ & Hxt). rewrite Hxg. destruct (PageTail xg); [rewrite (Hxt eq_refl), Hhg|]; by eexists.
Qed.

Lemma block_start_in a e p o x : whole_range a e -> block zn p o -> range p o x -> a <= x < e -> a <= p < e /\ p <= x.
Proof.
  intros Hw Hp Hx Hr. destruct (order_bounds zn _ _ Hp) as (Ho & Ho0 & Hpow). assert (p <= x) as Hle by (unfold range in Hx; lia). split; [|done].
  pose proof (block_nested p o (block_first x) pageblock_order x) as Hn. pose proof (block_first_bounds x) as Hbf.
  assert (range (block_first x) pageblock_order p) as Hin.
  { apply Hn; [unfold pageblock_order, MAX_ORDER in *; lia|apply Hp| |done| |by apply range_start].
    - unfold block_first. change (2 ^ pageblock_order) with 1024. change pageblock_nr_pages with 1024. apply Z.mod_mul. lia.
    - unfold range, block_last in *. change (2 ^ pageblock_order) with 1024. change pageblock_nr_pages with 1024 in Hbf. lia. }
  unfold range, block_first in Hin. destruct Hw as (Ha & _). change pageblock_nr_pages with 1024 in *. change (2 ^ pageblock_order) with 1024 in Hin.
  clear - Hin Ha Hr Hle. Z.div_mod_to_equations. lia.
Qed.

Lemma wp_test_block s own a e : zone_ok zn -> finv zn s -> holds zn s own -> whole_range a e -> accounted s own a e ->
  wp (__test_page_isolated_in_pageblock a e) (fun r s' => s' = s /\ ((r = 0 /\ ~ (all_idle s a e /\ pcp_marked s a e)) \/ (r = 1 /\ all_idle s a e /\ pcp_marked s a e))) s.
Proof.
  intros Hz [Hi Hcnt] [Hh _] Hw Hacc. pose proof (i_core _ _ Hi) as H. unfold __test_page_isolated_in_pageblock. apply wp_bind.
  apply (wp_loop (fun pfn s' => s' = s /\ a <= pfn /\ (forall x, a <= x < pfn -> x < e -> idle (lists s) x) /\
    (forall q r, fblock (lists s) q r -> q < pfn -> a <= q -> q + 2 ^ r <= pfn) /\ pcp_marked s a (Z.min pfn e)) (fun pfn => Z.to_nat (e - pfn))); [|lia|].
  { split; [done|]. split; [lia|]. split; [intros; lia|]. split; intros ? *; lia. }
  intros p s' (-> & Hap & Hidle & Hbound & Hmarked). destruct (Z.ltb_spec p e) as [Hlt|Hge].
  2: { apply wp_ret, wp_ret. split; [done|]. right. rewrite (proj2 (Z.ltb_ge p e)) by done. split; [done|]. rewrite Z.min_r in Hmarked by done. split; [|done]. intros x Hx. apply Hidle; lia. }
  assert (in_zone zn p) as Hpz by (unfold in_zone; destruct Hw as (_ & _ & _ & ? & ?); lia). destruct (map_zone _ _ (c_map _ _ _ H) p Hpz) as (pg & Hpg & _).
  assert (0 <= p < 2 ^ 20) as Hp20 by (unfold in_zone in Hpz; destruct Hz as (? & ? & ?); lia). change (2 ^ 20) with 1048576 in Hp20.
  apply wp_bind, (wp_page_at _ pg); [done|]. destruct (PageBuddy pg) eqn:Eb.
  - destruct (c_marked _ _ _ H p pg Hpz Hpg Eb) as [o Hfb]. destruct (c_mark _ _ _ H p o Hfb) as (pg' & Hpg' & _ & Eo). simplify_eq.
    destruct (order_bounds zn _ _ (c_block _ _ _ H _ _ Hfb)) as (Ho & Ho0 & Hpow).
    assert (2 ^ pg_private pg <= 2 ^ 10) as Hple by (apply Z.pow_le_mono_r; unfold MAX_ORDER in *; lia). change (2 ^ 10) with 1024 in Hple.
    apply wp_ret. rewrite Z.shiftl_1_l, (wrap_id 32) by (unfold fits; change (2 ^ 32) with 4294967296; lia). split; [|lia]. split; [done|]. split; [lia|]. split; [|split].
    + intros x Hx Hxe. destruct (decide (x < p)); [apply Hidle; lia|]. left. exists p, (pg_private pg). split; [done|]. unfold range. lia.
    + intros q r Hq Hqlt Hqa. destruct (decide (q < p)) as [Hqp|Hqp]; [specialize (Hbound q r Hq Hqp Hqa); lia|].
      assert (q = p) as ->. { symmetry. apply (c_apart _ _ _ H p _ q r q Hfb Hq); [unfold range; lia|]. apply range_start. apply (c_block _ _ _ H) in Hq as [? _]. lia. }
      by rewrite (fblock_order _ _ _ _ _ _ H Hq Hfb).
    + intros x xg Hx Hon. destruct (decide (x < p)); [apply Hmarked; [lia|done]|]. destruct (c_pcp _ _ _ H x Hon) as (_ & Hnf & _).
      destruct Hnf. exists p, (pg_private pg). split; [done|]. unfold range. lia.
  - assert (exists c, count_of (mem_map s) p = Some c /\ (c = 0 -> idle (lists s) p) /\ (idle (lists s) p -> c = 0)) as (c & Hc & Hc1 & Hc2).
    { destruct (Hacc p) as [Hid|(i & q & o & Hq & Hr)]; [lia| |].
      - exists 0. split; [by apply count_idle, (idle_zone zn _ _ p H)|done].
      - pose proof (Hh i q o Hq) as Hheld. destruct (count_held s q o p Hheld Hr) as (c & Hc & Hc1). exists c. split; [done|].
        pose proof (h_busy _ _ _ _ Hheld) as Hbusy. split; [|intros Hid; by destruct (Hbusy p Hr)]. intros ->.
        destruct (block_start_in a e q o p Hw (h_block _ _ _ _ Hheld) Hr) as [Hq1 Hq2]; [lia|].
        assert (q <> p) by (intros ->; by specialize (Hc1 eq_refl)). destruct (Hbusy q); [apply range_start; destruct (h_block _ _ _ _ Hheld) as [? _]; lia|].
        apply Hidle; lia. }
    assert (forall q r, fblock (lists s) q r -> q < p + 1 -> a <= q -> q + 2 ^ r <= p + 1) as Hb'.
    { intros q r Hq Hqlt Hqa. destruct (decide (q = p)) as [->|]; [|specialize (Hbound q r Hq); lia].
      destruct (c_mark _ _ _ H p r Hq) as (pg' & Hpg' & Hm & _). simplify_eq. congruence. }
    apply wp_bind, (wp_page_count p c); [done|]. destruct (Z.eqb_spec c 0) as [->|Hc0]; cbn [andb].
    2: { apply wp_ret, wp_ret. split; [done|]. left. rewrite (proj2 (Z.ltb_lt p e)) by done. split; [done|]. intros [Hall _]. apply Hc0, Hc2, Hall. lia. }
    destruct (Z.eqb_spec (pg_private pg) MIGRATE_ISOLATE) as [Ep|Ep].
    + apply wp_ret. rewrite (wrap_id 32) by (unfold fits; change (2 ^ 32) with 4294967296; lia). split; [|lia]. split; [done|]. split; [lia|]. split; [|split; [done|]].
      * intros x Hx Hxe. destruct (decide (x = p)) as [->|]; [by apply Hc1|apply Hidle; lia].
      * intros x xg Hx Hon Hxg. destruct (decide (x = p)) as [->|]; [congruence|]. by apply (Hmarked x xg); [lia|..].
    + apply wp_ret, wp_ret. split; [done|]. left. rewrite (proj2 (Z.ltb_lt p e)) by done. split; [done|]. intros [Hall Hmark].
      destruct (Hc1 eq_refl) as [(q & r & Hq & Hr)|Hpcp]; [|by apply Ep, (Hmark p pg); [lia|..]].
      pose proof (c_block _ _ _ H _ _ Hq) as Hqb. destruct (block_start_in a e q r p Hw Hqb Hr) as [Hq1 Hq2]; [lia|].
      specialize (Hb' q r Hq ltac:(lia) ltac:(lia)). destruct (decide (q = p)) as [->|].
      * destruct (c_mark _ _ _ H p r Hq) as (pg' & Hpg' & Hm & _). simplify_eq. congruence.
      * specialize (Hbound q r Hq ltac:(lia) ltac:(lia)). unfold range in Hr. lia.
Qed.

(** [test_pages_isolated] answers 0 exactly for a range of isolated blocks of which nobody
    holds a page, the pages on the processor's list having come there after the isolation. *)
Lemma wp_test_pages s own a e : zone_ok zn -> finv zn s -> holds zn s own -> whole_range a e -> a < e -> accounted s own a e ->
  wp (test_pages_isolated a e) (fun r s' => s' = s /\ (r = 0 \/ r = - EBUSY) /\
    let ty := forall b, b mod pageblock_nr_pages = 0 -> a <= b < e -> ptype zn s b = MIGRATE_ISOLATE in
    (r = 0 <-> ty /\ all_idle s a e /\ pcp_marked s a e)) s.
Proof.
  intros Hz Hf Hh Hw Hlt0 Hacc. unfold test_pages_isolated. apply wp_bind.
  apply (wp_mono _ (fun p s' => s' = s /\ ((e <= p /\ forall b, b mod pageblock_nr_pages = 0 -> a <= b < e -> ptype zn s b = MIGRATE_ISOLATE) \/
    (p mod pageblock_nr_pages = 0 /\ a <= p < e /\ ptype zn s p <> MIGRATE_ISOLATE)))).
  { apply (wp_loop (fun p s' => s' = s /\ p mod pageblock_nr_pages = 0 /\ a <= p <= e /\ forall b, b mod pageblock_nr_pages = 0 -> a <= b < p -> ptype zn s b = MIGRATE_ISOLATE)
      (fun p => Z.to_nat (e - p))); [|lia|].
    { split; [done|]. destruct Hw as (Hm & _ & Hle & _). split; [done|]. split; [lia|]. intros; lia. }
    intros p s' (-> & Hp & Hpr & Hty). destruct (Z.ltb_spec p e) as [Hlt|Hge].
    2: { apply wp_ret. split; [done|]. left. split; [lia|]. intros b Hb Hbr. apply Hty; [done|lia]. }
    destruct (range_block_at a e p Hw Hp) as [Hb _]; [lia|]. destruct (following_block a e p Hz Hw Hp) as (-> & Hm & Hle); [lia|].
    unfold __first_valid_page. change (0 <? pageblock_nr_pages) with true. cbn match.
    apply wp_bind, wp_get_migratetype; [apply Hf|apply Hb, range_start; done|]. destruct (Z.eqb_spec (ptype zn s p) MIGRATE_ISOLATE) as [E|E]; cbn [negb]; apply wp_ret.
    2: { split; [done|]. right. split; [done|]. split; [lia|done]. }
    change pageblock_nr_pages with 1024 in Hle |- *. split; [|lia]. split; [done|]. split; [done|]. split; [lia|]. intros c Hc Hcr. destruct (decide (c < p)); [apply Hty; [done|lia]|].
    replace c with p; [done|]. change pageblock_nr_pages with 1024 in *. clear - Hc Hp Hcr n. Z.div_mod_to_equations. lia. }
  intros p s' [-> Hp]. unfold __first_valid_page.
  assert (0 <? u32 (e - a) = true) as ->.
  { rewrite wrap_id; [apply Z.ltb_lt; lia|]. unfold fits. destruct Hz as (? & ? & ?), Hw as (_ & _ & _ & ? & ?). change (2 ^ 20) with 1048576 in *. change (2 ^ 32) with 4294967296. lia. }
  cbn match. destruct Hp as [[Hge Hty]|(Hpm & Hpr & Hne)].
  - rewrite (proj2 (Z.ltb_ge p e)) by done. apply wp_bind. eapply wp_mono; [by apply (wp_test_block s own)|]. intros r s' [-> [[-> Hn]|[-> Hall]]]; apply wp_ret.
    + split; [done|]. split; [by right|]. split; [done|]. intros (_ & Hall & Hm). by destruct Hn.
    + split; [done|]. split; [by left|]. done.
  - rewrite (proj2 (Z.ltb_lt p e)) by lia. apply wp_ret. split; [done|]. split; [by right|]. split; [done|]. intros [Hty _]. by destruct Hne, (Hty p).
Qed.

(** ** Clients of the zone beside an isolated block *)

Definition client_req (r : zone_req) : Prop :=
  match r with Alloc o t => 0 <= o < MAX_ORDER /\ 0 <= t < MIGRATE_RESERVE | Release _ => True end.

Lemma aside_run b reqs s own : aligned -> block zn b pageblock_order -> inv zn s -> owns zn s own -> set_aside b s -> Forall client_req reqs ->
  wp (zone_run zn reqs own) (fun own' s' => set_aside b s' /\ forall p o x, (p, o) ∈ own' -> range p o x -> range b pageblock_order x -> (p, o) ∈ own) s.
Proof.
  intros Ha Hb Hi Hown Hs Hv. revert s own Hi Hown Hs. induction Hv as [|[o t|i] reqs Hr _ IH]; intros s own Hi Hown Hs; [by apply wp_ret| |]; cbn [zone_run].
  - destruct Hr as [Ho Ht]. apply wp_bind. eapply wp_mono; [apply wp_wlp; [apply (wp_rmqueue zn s o t); [done|done|unfold MIGRATE_RESERVE, MIGRATE_TYPES in *; lia]|by apply (wlp_rmqueue b)]|].
    intros [p|] s' [Hal [Hs' Hout]].
    + eapply wp_mono; [apply IH; [apply Hal|by eapply owns_alloc|done]|]. intros own' s'' [Hs'' Hown']. split; [done|].
      intros q r x Hq Hx Hxb. specialize (Hown' q r x Hq Hx Hxb). apply elem_of_cons in Hown' as [[= -> ->]|?]; [|done].
      destruct Hout. apply (block_outside b Ha Hb p o x); [exact (al_block _ _ _ _ _ Hal)|done|done].
    + destruct Hal as [-> _]. by apply IH.
  - destruct (own !! i) as [[p o]|] eqn:E; [|by apply IH]. pose proof (proj1 Hown i p o E) as Hrel. destruct (order_bounds zn p o (proj1 Hrel)) as (_ & Ho & _).
    apply wp_bind. eapply wp_mono; [apply wp_wlp; [by apply (wp_free_one_page zn)|apply (wlp_free_one_page b); [done|done|done|apply (proj1 Hrel), range_start; done|done]]|].
    intros [] s' [Hfr Hs']. eapply wp_mono; [apply IH; [apply Hfr|by eapply owns_free|done]|]. intros own' s'' [Hs'' Hown']. split; [done|].
    intros q r x Hq Hx Hxb. specialize (Hown' q r x Hq Hx Hxb). apply list_elem_of_lookup in Hown' as [j Hj]. apply lookup_delete_other in Hj as (k & _ & Hk & _).
    by eapply list_elem_of_lookup_2.
Qed.

(** After a successful isolation, undoing it brings the types back. *)
Lemma wp_isolate_undo s a e s' : aligned -> finv zn s -> whole_range a e -> isolating s a e s' ->
  wp (undo_isolate_page_range a e) (fun r s'' => r = 0 /\ refilled zn s s'' /\ forall x, in_zone zn x -> ptype zn s'' x = ptype zn s x) s'.
Proof.
  intros Ha Hf Hw Hig. pose proof (ig_refilled _ _ _ _ Hig) as Hr. eapply wp_mono; [apply (wp_undo_isolate s' a e Ha (rf_inv _ _ _ Hr) Hw)|].
  intros r s'' (-> & Hr' & Hty). split; [done|]. split; [by eapply refilled_trans|]. intros x Hx. rewrite Hty, (ig_types _ _ _ _ Hig) by done.
  destruct (decide (a <= x < e)) as [Hin|Hout].
  - rewrite (bool_decide_true (a <= x < e)), bool_decide_true by done. set (b := block_first x).
    assert (b mod pageblock_nr_pages = 0) as Hbm by (unfold b, block_first; apply Z.mod_mul; done).
    assert (a <= b <= x) as Hbx by (unfold b, block_first; destruct Hw as (Hm & _); change pageblock_nr_pages with 1024 in *; clear - Hm Hin; Z.div_mod_to_equations; lia).
    destruct (range_block_at a e b Hw Hbm) as [Hb _]; [lia|]. rewrite (ptype_block s x b Ha Hb); [symmetry; apply (ig_movable _ _ _ _ Hig b Hbm); lia|].
    pose proof (block_first_bounds x) as Hbb. unfold range, block_last in *. fold b in Hbb. change (2 ^ pageblock_order) with 1024. change pageblock_nr_pages with 1024 in Hbb. lia.
  - rewrite (bool_decide_false (a <= x < e)) by done. rewrite bool_decide_false; [done|tauto].
Qed.

End Isolation.

(** ** Properties *)

(** C21: The buddy system never allocates from an isolated block: whatever blocks are
    requested and released, nobody comes to hold a page of the block who did not hold it
    before, and the block stays isolated: its type is ISOLATE, and what is released into
    it goes to the lists of that type. *)
Theorem isolation_holds zn b reqs s own : aligned zn -> block zn b pageblock_order -> inv zn s -> owns zn s own -> set_aside zn b s -> Forall client_req reqs ->
  wp (zone_run zn reqs own) (fun own' s' => set_aside zn b s' /\
    forall p o x, (p, o) ∈ own' -> range p o x -> range b pageblock_order x -> (p, o) ∈ own) s.
Proof. apply aside_run. Qed.

(** C22: start_isolate_page_range isolates all blocks of the range or none: it returns 0
    and every block is set aside, or it returns -EBUSY because a block is not of type
    MOVABLE and all types are as before.  In both cases the idle pages stay idle, the pages
    in use are not touched, and undo_isolate_page_range after a success brings the types
    back. *)
Theorem isolate_range_all_or_none zn s a e : aligned zn -> finv zn s -> whole_range zn a e ->
  wp (start_isolate_page_range zn a e) (fun r s' => refilled zn s s' /\
    ((r = 0 /\ (forall b, b mod pageblock_nr_pages = 0 -> a <= b < e -> set_aside zn b s') /\
      (forall x, in_zone zn x -> ~ (a <= x < e) -> ptype zn s' x = ptype zn s x) /\
      wp (undo_isolate_page_range zn a e) (fun r s'' => r = 0 /\ refilled zn s s'' /\ forall x, in_zone zn x -> ptype zn s'' x = ptype zn s x) s') \/
     (r = - EBUSY /\ (exists b, b mod pageblock_nr_pages = 0 /\ a <= b < e /\ ptype zn s b <> MIGRATE_MOVABLE) /\
      forall x, in_zone zn x -> ptype zn s' x = ptype zn s x))) s.
Proof.
  intros Ha Hf Hw. eapply wp_mono; [by apply wp_start_isolate|]. intros r s' [Hr [[-> Hig]|(-> & Hb & Hty)]]; (split; [done|]).
  - left. split; [done|]. split; [apply Hig|]. split; [|by apply wp_isolate_undo]. intros x Hx Hout. rewrite (ig_types _ _ _ _ _ Hig) by done. by rewrite bool_decide_false.
  - right. done.
Qed.

(** C23: test_pages_isolated, which looks at counts and marks only, returns 0 exactly when
    the blocks of the range are isolated, nobody holds a page of them, plain or compound,
    and the pages on the processor's list carry the type ISOLATE, that is, were put there
    after the isolation; otherwise it returns -EBUSY.  It changes nothing. *)
Theorem test_pages_isolated_decides zn s own a e : zone_ok zn -> finv zn s -> holds zn s own -> whole_range zn a e -> a < e -> accounted s own a e ->
  wp (test_pages_isolated zn a e) (fun r s' => s' = s /\ (r = 0 \/ r = - EBUSY) /\
    let isolated := forall b, b mod pageblock_nr_pages = 0 -> a <= b < e -> ptype zn s b = MIGRATE_ISOLATE in
    (r = 0 <-> isolated /\ all_idle s a e /\ pcp_marked s a e)) s.
Proof. apply wp_test_pages. Qed.

(** C39: A page of an isolated block can be handed out, against the comment on
    set_migratetype_isolate.  For every page that is in use when its block is isolated: its
    release puts it on the processor's list, as long as that has room, and while nothing
    else is idle the next allocation of a single page, for whatever type, takes it from
    there, although the block is still isolated. *)
Theorem isolated_page_handed_out zn s p gfp : pcp_ok zn -> finv zn s -> held zn s p 0 -> ptype zn s p = MIGRATE_ISOLATE ->
  pcp_count s + 1 < pcp_high zn -> (forall x, ~ idle (lists s) x) -> allocflags_to_migratetype zn gfp < MIGRATE_RESERVE ->
  wp (__free_pages zn p 0) (fun _ s1 => ptype zn s1 p = MIGRATE_ISOLATE /\ on (lists s1) Pcp p /\
    wp (buffered_rmqueue zn 1 0 gfp) (fun r s2 => r = Some p /\ held zn s2 p 0) s1) s.
Proof.
  intros Hpcp Hf Hheld Hty Hroom Hno Ht. eapply wp_mono; [by apply (wp___free_pages zn s p 0)|]. intros [] s1 [Hr Hstay].
  destruct (Hstay eq_refl Hroom) as [Hon Hbits]. split; [unfold ptype in *; by rewrite Hbits|]. split; [done|].
  eapply wp_mono; [apply (wp_buffered_rmqueue zn s1 1 0 gfp (rt_inv _ _ _ _ Hr)); [apply Hpcp|done|done|lia]|]. intros [q|] s2.
  - intros Htk. assert (q = p) as ->; [|by split; [|apply Htk]]. pose proof (tk_was _ _ _ _ _ Htk q (range_start q 0 (Z.le_refl 0))) as Hq.
    apply (rt_idle _ _ _ _ Hr) in Hq as [Hq|Hq]; [by destruct (Hno q)|by apply range_0 in Hq].
  - intros (_ & Hc & _). by destruct (pcp_empty zn s1 p (rt_inv _ _ _ _ Hr) (Hc eq_refl)).
Qed.

(** *** The example zone *)

Lemma example_aligned : aligned example_zone.
Proof. split; [|split; reflexivity]. unfold zone_ok. simpl. lia. Qed.

Lemma example_range a e : a mod 1024 = 0 -> e mod 1024 = 0 -> 1024 <= a <= e -> e <= 3072 -> whole_range example_zone a e.
Proof. intros. split; [done|]. split; [done|]. cbn [zone_start_pfn spanned_pages example_zone]. lia. Qed.

Lemma example_block : block example_zone 1024 pageblock_order.
Proof. apply (range_block_at example_zone 1024 3072); [by apply example_range|reflexivity|lia]. Qed.

Lemma isolate_range_all_or_none_witness :
  wp (start_isolate_page_range example_zone 1024 3072) (fun r s' => r = 0 /\ set_aside example_zone 2048 s') example_used.
Proof.
  destruct example_used_ok as [Hf _].
  assert (forall b, b mod pageblock_nr_pages = 0 -> 1024 <= b < 3072 -> ptype example_zone example_used b = MIGRATE_MOVABLE) as Hmov.
  { clear Hf. intros b Hb Hr. assert (b = 1024 \/ b = 2048) as [->| ->].
    - change pageblock_nr_pages with 1024 in Hb. Z.div_mod_to_equations. lia.
    - vm_compute. reflexivity.
    - vm_compute. reflexivity. }
  eapply wp_mono; [apply (isolate_range_all_or_none example_zone example_used 1024 3072 example_aligned Hf); apply example_range; lia || reflexivity|].
  intros r s' [_ [(-> & Hs & _)|(_ & (b & Hb & Hbr & Hne) & _)]]; [|destruct Hne; exact (Hmov b Hb Hbr)].
  split; [reflexivity|]. apply Hs; [reflexivity|lia].
Defined.

Lemma wp_both {St A} (c : ST St A) (Q R : A -> St -> Prop) m : wp c Q m -> wp c R m -> wp c (fun a m' => Q a m' /\ R a m') m.
Proof. unfold wp. by destruct (c m) as [[a m']|]. Qed.

(** The first block is released and isolated; then the test finds it isolated. *)
Lemma example_isolated :
  wp (__free_pages example_zone 1024 10 ;; start_isolate_page_range example_zone 1024 2048) (fun _ s =>
    finv example_zone s /\ holds example_zone s [(2048, 0)] /\ all_idle s 1024 2048) example_used.
Proof.
  destruct example_used_ok as [Hf Hh]. revert Hf Hh. generalize example_used. intros s Hf Hh. apply wp_bind.
  eapply wp_mono; [apply (wp___free_pages example_zone s 1024 10 Hf); [split; [reflexivity|left; discriminate]|apply (proj1 Hh 0%nat); reflexivity]|].
  intros [] s1 [Hr _]. pose proof (holds_free example_zone _ _ _ 0 1024 10 Hh eq_refl Hr) as Hh1.
  eapply wp_mono; [apply (wp_start_isolate example_zone s1 1024 2048 example_aligned (rt_inv _ _ _ _ Hr)); apply example_range; lia || reflexivity|].
  intros r s2 [Hr2 _]. split; [apply Hr2|]. split; [exact (holds_refilled example_zone _ _ _ Hh1 Hr2)|].
  intros x Hx. apply (rf_idle _ _ _ Hr2), (rt_idle _ _ _ _ Hr). right. unfold range. change (2 ^ 10) with 1024. lia.
Qed.

Lemma test_pages_isolated_decides_witness :
  wp (__free_pages example_zone 1024 10 ;; start_isolate_page_range example_zone 1024 2048) (fun _ s =>
    wp (test_pages_isolated example_zone 1024 2048) (fun r s' => r = 0 /\ all_idle s' 1024 2048 /\ pcp_marked s' 1024 2048) s /\
    wp (test_pages_isolated example_zone 2048 3072) (fun r s' => r = - EBUSY) s) example_used.
Proof.
  assert (wp (__free_pages example_zone 1024 10 ;; start_isolate_page_range example_zone 1024 2048) (fun _ s =>
    wp (test_pages_isolated example_zone 1024 2048) (fun r _ => r = 0) s /\ wp (test_pages_isolated example_zone 2048 3072) (fun r _ => r = - EBUSY) s) example_used) as Hrun
    by (vm_compute; split; reflexivity).
  eapply wp_mono; [exact (wp_both _ _ _ _ example_isolated Hrun)|]. clear Hrun. intros _ s [(Hf & Hh & Hid) [H0 H1]]. split; [|exact H1].
  eapply wp_mono; [apply (wp_both _ _ _ _ (test_pages_isolated_decides example_zone s [(2048, 0)] 1024 2048 (proj1 example_aligned) Hf Hh (example_range 1024 2048 eq_refl eq_refl ltac:(lia) ltac:(lia)) ltac:(lia)
    (fun x Hx => or_introl (Hid x Hx))) H0)|].
  intros r s' [(-> & _ & Hiff) ->]. split; [reflexivity|]. apply Hiff. reflexivity.
Defined.

Lemma finv_freed zn s p o s' : finv zn s -> freed zn s p o s' -> finv zn s'.
Proof.
  intros [_ Hc] Hfr. destruct (fr_within _ _ _ _ _ Hfr) as (_ & Hp & Hm). split; [apply Hfr|]. destruct (misc_count _ _ Hm) as [-> _]. rewrite Hc. unfold len. by rewrite Hp.
Qed.

Lemma isolation_holds_witness :
  wp (__free_one_page example_zone 1024 10 ;; __free_one_page example_zone 2048 3 ;; set_migratetype_isolate example_zone 1024 ;;
      zone_run example_zone [Alloc 0 2; Alloc 3 0; Alloc 1 1; Release 0] [])
    (fun own' s' => set_aside example_zone 1024 s' /\ forall p o x, (p, o) ∈ own' -> range p o x -> ~ range 1024 10 x) example_boot.
Proof.
  assert (pcp_count example_boot = len (lists example_boot) Pcp) as Hcnt by (vm_compute; reflexivity).
  assert (ptype example_zone example_boot 1024 = MIGRATE_MOVABLE) as Ht by (vm_compute; reflexivity).
  destruct example_boot_ok as (_ & Hi & _). pose proof example_owns as Hown. pose proof example_aligned as Ha. pose proof example_block as Hb.
  revert Hcnt Ht Hi Hown. generalize example_boot. intros s Hcnt Ht Hi Hown.
  apply wp_bind. eapply wp_mono; [apply (wp_free_one_page _ _ _ _ Hi (proj1 Hown 0%nat 1024 10 eq_refl))|]. intros [] s1 H1.
  pose proof (owns_free _ _ _ 0 _ _ _ Hown eq_refl H1) as Hown1. pose proof (finv_freed _ _ _ _ _ (conj Hi Hcnt) H1) as Hf1.
  apply wp_bind. eapply wp_mono; [apply (wp_free_one_page _ _ _ _ (proj1 Hf1) (proj1 Hown1 0%nat 2048 3 eq_refl))|]. intros [] s2 H2.
  pose proof (finv_freed _ _ _ _ _ Hf1 H2) as Hf2.
  assert (ptype example_zone s2 1024 = MIGRATE_MOVABLE) as Ht2 by (unfold ptype in *; rewrite (fr_bits _ _ _ _ _ H2), (fr_bits _ _ _ _ _ H1); exact Ht).
  apply wp_bind. eapply wp_mono; [apply (wp_set_isolate _ 1024 s2 Ha Hf2 Hb)|]. rewrite Ht2, Z.eqb_refl. intros r s3 (Hr3 & _ & Hs3 & _).
  eapply wp_mono; [apply (isolation_holds example_zone 1024 _ s3 [] Ha Hb (proj1 (rf_inv _ _ _ Hr3)))|].
  - split; [intros i p o Hn; discriminate Hn|intros i j p o q t x Hn; discriminate Hn].
  - exact Hs3.
  - repeat constructor; unfold MAX_ORDER, MIGRATE_RESERVE; lia.
  - intros own' s' [Hs' Hout]. split; [exact Hs'|]. intros p o x Hp Hx Hxb. exact (not_elem_of_nil _ (Hout p o x Hp Hx Hxb)).
Defined.

Lemma put_in_use_exhausted b : (forall h p, ~ on (lists b) h p) -> forall x, ~ idle (lists (put_in_use b)) x.
Proof. intros Hno x. change (~ idle (lists b) x). intros [(p & o & (t & Ht) & _)|Hp]; [by apply (Hno (Free o t) p)|by apply (Hno Pcp x)]. Qed.

Lemma example_used_exhausted : forall x, ~ idle (lists example_used) x.
Proof. exact (put_in_use_exhausted example_boot (proj2 (proj2 (proj2 example_boot_ok)))). Qed.

(** The page 2048 is in use while its block is isolated. *)
Lemma isolated_page_handed_out_witness :
  wp (start_isolate_page_range example_zone 2048 3072) (fun r s => r = 0 /\
    wp (__free_pages example_zone 2048 0) (fun _ s1 => ptype example_zone s1 2048 = MIGRATE_ISOLATE /\ on (lists s1) Pcp 2048 /\
      wp (buffered_rmqueue example_zone 1 0 __GFP_MOVABLE) (fun r s2 => r = Some 2048 /\ held example_zone s2 2048 0) s1) s) example_used.
Proof.
  assert (ptype example_zone example_used 2048 = MIGRATE_MOVABLE) as Ht by (vm_compute; reflexivity).
  assert (pcp_count example_used = 0) as Hc by (vm_compute; reflexivity).
  assert (wp (start_isolate_page_range example_zone 2048 3072) (fun r s => r = 0 /\ pcp_count s = 0 /\ ptype example_zone s 2048 = MIGRATE_ISOLATE) example_used) as Hrun
    by (vm_compute; split; [reflexivity|split; reflexivity]).
  pose proof example_used_exhausted as Hno. destruct example_used_ok as [Hf Hh]. revert Ht Hc Hrun Hno Hf Hh. generalize example_used. intros s Ht Hc Hrun Hno Hf Hh.
  eapply wp_mono; [apply (wp_both _ _ _ _ (wp_start_isolate example_zone s 2048 3072 example_aligned Hf (example_range 2048 3072 eq_refl eq_refl ltac:(lia) ltac:(lia))) Hrun)|].
  intros r s1 [[Hr _] (-> & Hc1 & Ht1)]. split; [reflexivity|].
  apply (isolated_page_handed_out example_zone s1 2048 __GFP_MOVABLE).
  - split; [reflexivity|left; discriminate].
  - exact (rf_inv _ _ _ Hr).
  - apply (proj1 (holds_refilled example_zone _ _ _ Hh Hr) 1%nat). reflexivity.
  - exact Ht1.
  - rewrite Hc1. reflexivity.
  - intros x. rewrite (rf_idle _ _ _ Hr). apply Hno.
  - reflexivity.
Defined.
