(* ===== verification/Bootmem.v ===== *)
(** * The boot-time allocator: mm/bootmem.c

    Until the page allocator runs, memory is handed out from a bitmap with one bit for
    each page: set when the page is reserved.  Allocations are in bytes: a small one is
    packed behind the last one, into the rest of its last page.

    The model has one node, as machines without CONFIG_DISCONTIGMEM have, so that the loops
    over bdata_list have one turn.  Addresses are physical (phys_to_virt only adds an
    offset), and the contents of what is handed out are not modelled.  The bitmap is in a
    memory of longs; atomic bit operations are those of Bitops.v, since only one processor
    runs at boot. *)

From S2P Require Import Prelude Bitops.

#[local] Arguments loop : simpl never.

(** ** Data *)

Definition PAGE_SHIFT : Z := 12.
Definition page_size : Z := Z.shiftl 1 PAGE_SHIFT.

Definition PFN_UP (x : Z) : Z := Z.shiftr (u32 (x + page_size - 1)) PAGE_SHIFT.
Definition PFN_DOWN (x : Z) : Z := Z.shiftr x PAGE_SHIFT.
Definition PFN_PHYS (x : Z) : Z := u32 (Z.shiftl x PAGE_SHIFT).

Definition ALIGN (x a : Z) : Z := Z.ldiff (u32 (x + u32 (a - 1))) (u32 (a - 1)).

Definition BOOTMEM_DEFAULT : Z := 0.
Definition BOOTMEM_EXCLUSIVE : Z := 1.

Definition ARCH_LOW_ADDRESS_LIMIT : Z := 0xffffffff.

Record bootmem_data := BootmemData {
  node_min_pfn : Z;
  node_low_pfn : Z;
  node_bootmem_map : Z;
  last_end_off : Z;
  hint_idx : Z
}.

(** The node and the memory its bitmap is in. *)
Record boot := Boot { bdata : bootmem_data; bmem : mem }.

Definition with_hint (h : Z) (d : bootmem_data) : bootmem_data :=
  BootmemData (node_min_pfn d) (node_low_pfn d) (node_bootmem_map d) (last_end_off d) h.
Definition with_last (e : Z) (d : bootmem_data) : bootmem_data :=
  BootmemData (node_min_pfn d) (node_low_pfn d) (node_bootmem_map d) e (hint_idx d).

Abbreviation BM := (ST boot).

Definition get_bdata : BM bootmem_data := fun s => Ok (bdata s, s).
Definition set_bdata (f : bootmem_data -> bootmem_data) : BM unit := fun s => Ok (tt, Boot (f (bdata s)) (bmem s)).

Definition on_map {A} (c : M A) : BM A := fun s =>
  match c (bmem s) with
  | Ok (a, m) => Ok (a, Boot (bdata s) m)
  | Fault f => Fault f
  end.

(** ** The code *)

Definition bootmap_bytes (pages : Z) : Z := ALIGN (u32 (pages + 7) / 8) 4.

Definition bootmem_bootmap_pages (pages : Z) : Z := Z.shiftr (ALIGN (bootmap_bytes pages) page_size) PAGE_SHIFT.

(** [mapstart] is the place of the bitmap in the memory of longs. *)
Definition init_bootmem_core (mapstart start end_ : Z) : BM Z :=
  set_bdata (fun d => BootmemData start end_ mapstart (last_end_off d) (hint_idx d)) ;;
  let mapsize := bootmap_bytes (u32 (end_ - start)) in
  for_up 0 (mapsize / 4) (fun i => on_map (store (mapstart + i) ALL_ONES)) ;;
  mret mapsize.

Definition init_bootmem_node (freepfn startpfn endpfn : Z) : BM Z := init_bootmem_core freepfn startpfn endpfn.

Definition __free (sidx eidx : Z) : BM unit :=
  d ← get_bdata;
  (if sidx <? hint_idx d then set_bdata (with_hint sidx) else mret tt) ;;
  for_up sidx eidx (fun idx =>
    t ← on_map (__test_and_clear_bit idx (node_bootmem_map d));
    BUG_ON (negb t)).

Definition __reserve (sidx eidx flags : Z) : BM Z :=
  d ← get_bdata;
  let exclusive := negb (Z.land flags BOOTMEM_EXCLUSIVE =? 0) in
  r ← for_loop sidx eidx (fun idx =>
    t ← on_map (__test_and_set_bit idx (node_bootmem_map d));
    if t && exclusive then __free sidx idx ;; mret (Some (- EBUSY)) else mret None);
  mret (match r with Some e => e | None => 0 end).

Definition mark_bootmem_node (start end_ : Z) (reserve : bool) (flags : Z) : BM Z :=
  d ← get_bdata;
  BUG_ON (start <? node_min_pfn d) ;;
  BUG_ON (node_low_pfn d <? end_) ;;
  let sidx := u32 (start - node_min_pfn d) in
  let eidx := u32 (end_ - node_min_pfn d) in
  if reserve then __reserve sidx eidx flags else __free sidx eidx ;; mret 0.

(** mark_bootmem calls itself to take back what it has reserved on other nodes; that call
    is for a range without pages when there is one node. *)
Definition mark_bootmem_with (back : Z -> BM unit) (start end_ : Z) (reserve : bool) (flags : Z) : BM Z :=
  d ← get_bdata;
  let pos := start in
  if (pos <? node_min_pfn d) || (node_low_pfn d <=? pos) then stop Bug
  else
    let max := Z.min (node_low_pfn d) end_ in
    err ← mark_bootmem_node pos max reserve flags;
    if reserve && negb (err =? 0) then back pos ;; mret err
    else if max =? end_ then mret 0
    else stop Bug.

Definition mark_bootmem (start end_ : Z) (reserve : bool) (flags : Z) : BM Z :=
  mark_bootmem_with (fun pos => mark_bootmem_with (fun _ => mret tt) start pos false 0 ;; mret tt) start end_ reserve flags.

Definition free_bootmem_node (physaddr size : Z) : BM unit :=
  mark_bootmem_node (PFN_UP physaddr) (PFN_DOWN (u32 (physaddr + size))) false 0 ;; mret tt.

Definition free_bootmem (addr size : Z) : BM unit :=
  mark_bootmem (PFN_UP addr) (PFN_DOWN (u32 (addr + size))) false 0 ;; mret tt.

Definition reserve_bootmem_node (physaddr size flags : Z) : BM Z :=
  mark_bootmem_node (PFN_DOWN physaddr) (PFN_UP (u32 (physaddr + size))) true flags.

Definition reserve_bootmem (addr size flags : Z) : BM Z :=
  mark_bootmem (PFN_DOWN addr) (PFN_UP (u32 (addr + size))) true flags.

Definition align_idx (d : bootmem_data) (idx step : Z) : Z :=
  u32 (ALIGN (u32 (node_min_pfn d + idx)) step - node_min_pfn d).

Definition align_off (d : bootmem_data) (off align : Z) : Z :=
  let base := PFN_PHYS (node_min_pfn d) in
  u32 (ALIGN (u32 (base + off)) align - base).

(** The first page of [sidx, eidx) that is reserved. *)
Definition first_reserved (map sidx eidx : Z) : BM (option Z) :=
  for_loop sidx eidx (fun i =>
    t ← on_map (test_bit i map);
    mret (if t =? 0 then None else Some i)).

(** Take the pages from [sidx] on for [size] bytes. *)
Definition take_region (sidx size align : Z) : BM Z :=
  d ← get_bdata;
  let start_off :=
    if negb (Z.land (last_end_off d) (page_size - 1) =? 0) && (PFN_DOWN (last_end_off d) + 1 =? sidx)
    then align_off d (last_end_off d) align
    else PFN_PHYS sidx in
  let merge := PFN_DOWN start_off <? sidx in
  let end_off := u32 (start_off + size) in
  set_bdata (with_last end_off) ;;
  set_bdata (with_hint (PFN_UP end_off)) ;;
  r ← __reserve (PFN_DOWN start_off + Z.b2z merge) (PFN_UP end_off) BOOTMEM_EXCLUSIVE;
  BUG_ON (negb (r =? 0)) ;;
  mret (u32 (PFN_PHYS (node_min_pfn d) + start_off)).

(** The loop of alloc_bootmem_core with the fall back to the start. *)
Definition find_region (midx size align step sidx fallback : Z) : BM (option Z) :=
  loop (S (Z.to_nat (2 * midx + 4))) (fun '(sidx, fallback) =>
    d ← get_bdata;
    sidx ← on_map (find_next_zero_bit (node_bootmem_map d) midx sidx);
    let sidx := align_idx d sidx step in
    let eidx := u32 (sidx + PFN_UP size) in
    if (midx <=? sidx) || (midx <? eidx) then
      if negb (fallback =? 0) then continue (align_idx d (fallback - 1) step, 0) else break None
    else
      b ← first_reserved (node_bootmem_map d) sidx eidx;
      match b with
      | Some i =>
          let sidx := align_idx d i step in
          continue (if sidx =? i then u32 (sidx + step) else sidx, fallback)
      | None => addr ← take_region sidx size align; break (Some addr)
      end) (sidx, fallback).

(** None stands for NULL. *)
Definition alloc_bootmem_core (size align goal limit : Z) : BM (option Z) :=
  BUG_ON (size =? 0) ;;
  BUG_ON (negb (Z.land align (u32 (align - 1)) =? 0)) ;;
  BUG_ON (negb (limit =? 0) && (limit <? u32 (goal + size))) ;;
  d ← get_bdata;
  if node_bootmem_map d =? NULL then mret None
  else
    let min := node_min_pfn d in
    let max := node_low_pfn d in
    let goal := Z.shiftr goal PAGE_SHIFT in
    let limit := Z.shiftr limit PAGE_SHIFT in
    let max := if negb (limit =? 0) && (limit <? max) then limit else max in
    if max <=? min then mret None
    else
      let step := Z.max (Z.shiftr align PAGE_SHIFT) 1 in
      let start := if negb (goal =? 0) && (min <? goal) && (goal <? max) then ALIGN goal step else ALIGN min step in
      let sidx := u32 (start - min) in
      let midx := u32 (max - min) in
      if sidx <? hint_idx d then find_region midx size align step (align_idx d (hint_idx d) step) (u32 (sidx + 1))
      else find_region midx size align step sidx 0.

Definition ___alloc_bootmem_nopanic (size align goal limit : Z) : BM (option Z) :=
  loop 2 (fun goal =>
    d ← get_bdata;
    r ← (if negb (goal =? 0) && (node_low_pfn d <=? PFN_DOWN goal) then mret None
         else if negb (limit =? 0) && (PFN_DOWN limit <=? node_min_pfn d) then mret None
         else alloc_bootmem_core size align goal limit);
    match r with
    | Some region => break (Some region)
    | None => if negb (goal =? 0) then continue 0 else break None
    end) goal.

Definition __alloc_bootmem_nopanic (size align goal : Z) : BM (option Z) := ___alloc_bootmem_nopanic size align goal 0.

(** panic stops the machine. *)
Definition ___alloc_bootmem (size align goal limit : Z) : BM Z :=
  r ← ___alloc_bootmem_nopanic size align goal limit;
  match r with Some region => mret region | None => stop Bug end.

Definition __alloc_bootmem (size align goal : Z) : BM Z := ___alloc_bootmem size align goal 0.
Definition __alloc_bootmem_low (size align goal : Z) : BM Z := ___alloc_bootmem size align goal ARCH_LOW_ADDRESS_LIMIT.

Definition ___alloc_bootmem_node (size align goal limit : Z) : BM Z :=
  r ← alloc_bootmem_core size align goal limit;
  match r with Some ptr => mret ptr | None => ___alloc_bootmem size align goal limit end.

Definition __alloc_bootmem_node (size align goal : Z) : BM Z := ___alloc_bootmem_node size align goal 0.
Definition __alloc_bootmem_low_node (size align goal : Z) : BM Z := ___alloc_bootmem_node size align goal ARCH_LOW_ADDRESS_LIMIT.

Definition __alloc_bootmem_node_nopanic (size align goal : Z) : BM (option Z) :=
  r ← alloc_bootmem_core size align goal 0;
  match r with Some ptr => mret (Some ptr) | None => __alloc_bootmem_nopanic size align goal end.

(** ** Pages and addresses *)

Implicit Types (s : boot) (d : bootmem_data) (m : mem).

Lemma PFN_DOWN_div x : PFN_DOWN x = x / 4096.
Proof. unfold PFN_DOWN, PAGE_SHIFT. by rewrite Z.shiftr_div_pow2. Qed.

Lemma PFN_UP_div x : 0 <= x -> x + 4095 < 2 ^ 32 -> PFN_UP x = (x + 4095) / 4096.
Proof.
  intros Hx Hb. unfold PFN_UP. change (page_size) with 4096. rewrite wrap_id by (unfold fits; lia). unfold PAGE_SHIFT. rewrite Z.shiftr_div_pow2 by done.
  change (2 ^ 12) with 4096. f_equal. lia.
Qed.

Lemma PFN_PHYS_mul x : 0 <= x < 2 ^ 20 -> PFN_PHYS x = x * 4096.
Proof.
  intros Hx. unfold PFN_PHYS, PAGE_SHIFT. rewrite Z.shiftl_mul_pow2 by done. change (2 ^ 12) with 4096. apply wrap_id. unfold fits.
  change (2 ^ 20) with 1048576 in Hx. change (2 ^ 32) with 4294967296. lia.
Qed.

Lemma ALIGN_ok x k : 0 <= k < 32 -> 0 <= x -> x + 2 ^ k <= 2 ^ 32 ->
  (2 ^ k | ALIGN x (2 ^ k)) /\ x <= ALIGN x (2 ^ k) < x + 2 ^ k.
Proof.
  intros Hk Hx Hb. assert (0 < 2 ^ k) by (apply Z.pow_pos_nonneg; lia). unfold ALIGN. rewrite (wrap_id 32 (2 ^ k - 1)) by (split; lia). rewrite wrap_id by (split; lia).
  rewrite ldiff_pow2 by lia. split; [by exists ((x + (2 ^ k - 1)) / 2 ^ k); rewrite Z.mul_comm|].
  pose proof (Z.div_mod (x + (2 ^ k - 1)) (2 ^ k) ltac:(lia)). pose proof (Z.mod_pos_bound (x + (2 ^ k - 1)) (2 ^ k) ltac:(lia)). lia.
Qed.

(** The least multiple from [x] on. *)
Lemma least_multiple a x y z : (a | y) -> (a | z) -> x <= y < x + a -> x <= z -> 0 < a -> y <= z.
Proof. intros [p ->] [q ->] Hy Hz Ha. destruct (Z.le_gt_cases p q); nia. Qed.

Definition pages d : Z := node_low_pfn d - node_min_pfn d.

Definition node_limits d : Prop := 0 <= node_min_pfn d /\ node_min_pfn d < node_low_pfn d < 2 ^ 20.

Lemma align_idx_ok d idx k : node_limits d -> 0 <= k <= 19 -> 0 <= idx < 2 ^ 21 ->
  (2 ^ k | node_min_pfn d + align_idx d idx (2 ^ k)) /\ idx <= align_idx d idx (2 ^ k) < idx + 2 ^ k.
Proof.
  intros (Hm & Hl) Hk Hi. assert (0 < 2 ^ k <= 2 ^ 19) as [? Hk2] by (split; [apply Z.pow_pos_nonneg; lia|apply Z.pow_le_mono_r; lia]).
  change (2 ^ 19) with 524288 in Hk2. change (2 ^ 20) with 1048576 in Hl. change (2 ^ 21) with 2097152 in Hi. unfold align_idx.
  rewrite (wrap_id 32 (node_min_pfn d + idx)) by (unfold fits; change (2 ^ 32) with 4294967296; lia).
  destruct (ALIGN_ok (node_min_pfn d + idx) k) as [Hd Hr]; [lia|lia|change (2 ^ 32) with 4294967296; lia|].
  rewrite wrap_id by (unfold fits; change (2 ^ 32) with 4294967296; lia). replace (node_min_pfn d + _) with (ALIGN (node_min_pfn d + idx) (2 ^ k)) by lia.
  split; [done|lia].
Qed.

Lemma align_off_ok d off k : node_limits d -> 0 <= k < 32 -> 0 <= off <= pages d * 4096 -> off + 2 ^ k + node_min_pfn d * 4096 <= 2 ^ 32 ->
  (2 ^ k | node_min_pfn d * 4096 + align_off d off (2 ^ k)) /\ off <= align_off d off (2 ^ k) < off + 2 ^ k.
Proof.
  intros (Hm & Hl) Hk Ho Hb. assert (0 < 2 ^ k) by (apply Z.pow_pos_nonneg; lia). unfold align_off, pages in *. rewrite PFN_PHYS_mul by lia.
  change (2 ^ 20) with 1048576 in Hl. change (2 ^ 32) with 4294967296 in Hb.
  rewrite (wrap_id 32 (node_min_pfn d * 4096 + off)) by (unfold fits; change (2 ^ 32) with 4294967296; lia).
  destruct (ALIGN_ok (node_min_pfn d * 4096 + off) k) as [Hd Hr]; [lia|lia|change (2 ^ 32) with 4294967296; lia|].
  rewrite wrap_id by (unfold fits; change (2 ^ 32) with 4294967296; lia). rewrite Zplus_minus. split; [done|lia].
Qed.

(** ** The bitmap *)

Definition rsv s (i : Z) : bool := bit (bmem s) (node_bootmem_map (bdata s)) i.

(** The bits of [lo, hi) have become [v], all others are as they were. *)
Record painted (map : Z) m (lo hi : Z) (v : bool) m' : Prop := {
  pt_bits : forall i, 0 <= i -> bit m' map i = if bool_decide (lo <= i < hi) then v else bit m map i;
  pt_longs : forall p n, longs m p n -> longs m' p n
}.

Lemma painted_refl map m lo v : painted map m lo lo v m.
Proof. split; [|done]. intros i Hi. by rewrite bool_decide_false by lia. Qed.

Lemma painted_next map m lo hi v m1 m2 : painted map m lo hi v m1 -> lo <= hi ->
  (forall i, 0 <= i -> bit m2 map i = if i =? hi then v else bit m1 map i) -> (forall p n, longs m1 p n -> longs m2 p n) ->
  painted map m lo (hi + 1) v m2.
Proof.
  intros [H1 H2] Hle Hb Hl. split; [|auto]. intros i Hi. rewrite Hb by done. destruct (Z.eqb_spec i hi) as [->|Hne].
  - by rewrite bool_decide_true by lia.
  - rewrite H1 by done. by rewrite (bool_decide_ext (lo <= i < hi + 1) (lo <= i < hi)) by lia.
Qed.

Lemma wp_on_map {A} (c : M A) (Q : A -> boot -> Prop) s : wp c (fun a m => Q a (Boot (bdata s) m)) (bmem s) -> wp (on_map c) Q s.
Proof. unfold wp, on_map. by destruct (c (bmem s)) as [[a m]|]. Qed.

Lemma wp_get_bdata (Q : bootmem_data -> boot -> Prop) s : Q (bdata s) s -> wp get_bdata Q s.
Proof. done. Qed.

Lemma wp_set_bdata f (Q : unit -> boot -> Prop) s : Q tt (Boot (f (bdata s)) (bmem s)) -> wp (set_bdata f) Q s.
Proof. done. Qed.

Lemma land_mask_test w nr : fits 32 w -> negb (Z.land w (BIT_MASK nr) =? 0) = Z.testbit w (nr mod 32).
Proof.
  intros Hw. pose proof (Z.mod_pos_bound nr 32 ltac:(lia)) as Hn. destruct (Z.testbit w (nr mod 32)) eqn:E.
  - apply negb_true_iff, Z.eqb_neq. intros H0. assert (Z.testbit (Z.land w (BIT_MASK nr)) (nr mod 32) = false) as Hf by by rewrite H0, Z.bits_0.
    rewrite Z.land_spec, E, testbit_BIT_MASK, Z.eqb_refl in Hf by lia. done.
  - apply negb_false_iff, Z.eqb_eq, word_zero; [apply fits_land; [lia|done|apply fits_BIT_MASK]|]. intros i Hi.
    rewrite Z.land_spec, testbit_BIT_MASK by lia. destruct (Z.eqb_spec i (nr mod 32)) as [->|]; [by rewrite E|apply andb_false_r].
Qed.

Lemma wp_test_and_set m map n nr (Q : bool -> mem -> Prop) : longs m map n -> 0 <= nr -> nr / 32 < n ->
  (forall m', (forall i, 0 <= i -> bit m' map i = if i =? nr then true else bit m map i) -> (forall p n, longs m p n -> longs m' p n) -> Q (bit m map nr) m') ->
  wp (__test_and_set_bit nr map) Q m.
Proof.
  intros Hl Hnr Hn HQ. destruct (longs_word m map n nr Hl Hnr Hn) as (w & Hw & Hf & Hb). unfold __test_and_set_bit.
  apply wp_bind, (wp_load _ w); [done|]. apply wp_bind, wp_store; [by exists w|]. apply wp_ret. rewrite land_mask_test, <- Hb by done.
  destruct (bit_update m map nr w (Z.lor w (BIT_MASK nr)) (fun _ => true)) as (H1 & H2 & H3);
    [done|done|apply fits_lor; [lia|done|apply fits_BIT_MASK]| |].
  - intros j Hj. rewrite Z.lor_spec, testbit_BIT_MASK by done. destruct (j =? nr mod 32); [apply orb_true_r|apply orb_false_r].
  - by apply HQ.
Qed.

Lemma wp_test_and_clear m map n nr (Q : bool -> mem -> Prop) : longs m map n -> 0 <= nr -> nr / 32 < n ->
  (forall m', (forall i, 0 <= i -> bit m' map i = if i =? nr then false else bit m map i) -> (forall p n, longs m p n -> longs m' p n) -> Q (bit m map nr) m') ->
  wp (__test_and_clear_bit nr map) Q m.
Proof.
  intros Hl Hnr Hn HQ. destruct (longs_word m map n nr Hl Hnr Hn) as (w & Hw & Hf & Hb). unfold __test_and_clear_bit.
  apply wp_bind, (wp_load _ w); [done|]. apply wp_bind, wp_store; [by exists w|]. apply wp_ret. rewrite land_mask_test, <- Hb by done.
  destruct (bit_update m map nr w (Z.land w (not32 (BIT_MASK nr))) (fun _ => false)) as (H1 & H2 & H3); [done|done| | |].
  - apply fits_land; [lia|done|]. apply fits_not32, fits_BIT_MASK.
  - intros j Hj. rewrite Z.land_spec, testbit_not32, testbit_BIT_MASK by lia. replace (j <? 32) with true by lia.
    destruct (j =? nr mod 32); [apply andb_false_r|apply andb_true_r].
  - by apply HQ.
Qed.

Record node_ok s : Prop := {
  nk_limits : node_limits (bdata s);
  nk_map : node_bootmem_map (bdata s) <> NULL;
  nk_longs : longs (bmem s) (node_bootmem_map (bdata s)) (BITS_TO_LONGS (pages (bdata s)));
  nk_rest : forall i, pages (bdata s) <= i < 32 * BITS_TO_LONGS (pages (bdata s)) -> rsv s i = true;
  nk_last : 0 <= last_end_off (bdata s) <= pages (bdata s) * 4096;
  nk_tail : last_end_off (bdata s) mod 4096 <> 0 -> rsv s (last_end_off (bdata s) / 4096) = true;
  nk_hint : 0 <= hint_idx (bdata s) <= pages (bdata s)
}.

Lemma painted_none map m lo hi v : hi <= lo -> painted map m lo hi v m.
Proof. intros H. split; [|done]. intros i Hi. by rewrite bool_decide_false by lia. Qed.

Lemma for_up_none {St} lo hi (body : Z -> ST St unit) (Q : unit -> St -> Prop) (st : St) : hi <= lo -> Q tt st -> wp (for_up lo hi body) Q st.
Proof. intros H HQ. unfold for_up. unfold wp. unfold loop, mbind, M_bind. by rewrite (proj2 (Z.ltb_ge lo hi)). Qed.

Lemma for_loop_none {St R} lo hi (body : Z -> ST St (option R)) (Q : option R -> St -> Prop) (st : St) : hi <= lo -> Q None st -> wp (for_loop lo hi body) Q st.
Proof. intros H HQ. unfold for_loop. unfold wp. unfold loop, mbind, M_bind. by rewrite (proj2 (Z.ltb_ge lo hi)). Qed.

Definition hinted (h : Z) d : bootmem_data := with_hint (if h <? hint_idx d then h else hint_idx d) d.

Lemma wp_free_range s n lo hi (Q : unit -> boot -> Prop) : longs (bmem s) (node_bootmem_map (bdata s)) (BITS_TO_LONGS n) -> 0 <= lo -> hi <= n ->
  (forall i, lo <= i < hi -> rsv s i = true) ->
  (forall m', painted (node_bootmem_map (bdata s)) (bmem s) lo hi false m' -> Q tt (Boot (hinted lo (bdata s)) m')) -> wp (__free lo hi) Q s.
Proof.
  intros Hl Hlo Hhi Hset HQ. destruct s as [d m]. cbn [bdata bmem] in *. unfold rsv in Hset. cbn [bdata bmem] in Hset. unfold __free. apply wp_bind, wp_get_bdata. cbn [bdata]. apply wp_bind.
  apply (wp_mono _ (fun _ s' => s' = Boot (hinted lo d) m)).
  { unfold hinted. destruct (lo <? hint_idx d); [by apply wp_set_bdata|]. apply wp_ret. by destruct d. }
  intros [] s' ->. destruct (Z.le_gt_cases hi lo) as [Hle|Hgt]; [apply for_up_none; [done|by apply HQ, painted_none]|].
  apply (wp_for_up (fun k s' => exists m', painted (node_bootmem_map d) m lo k false m' /\ s' = Boot (hinted lo d) m')); [lia|exists m; split; [apply painted_refl|done]| |].
  2: { intros s' (m' & Hp & ->). by apply HQ. }
  intros k s' Hk (m' & Hp & ->). apply wp_bind, wp_on_map. eapply (wp_test_and_clear _ _ (BITS_TO_LONGS n)).
  - cbn [bmem]. by apply Hp.
  - lia.
  - apply BITS_TO_LONGS_spec. lia.
  - cbn [bmem]. intros m2 Hb2 Hl2. apply wp_BUG_ON.
    + rewrite (pt_bits _ _ _ _ _ _ Hp) by lia. rewrite bool_decide_false by lia. by rewrite Hset by lia.
    + exists m2. split; [|done]. apply (painted_next _ _ _ _ _ m'); (done || lia).
Qed.

Lemma wp_reserve s n lo hi flags (Q : Z -> boot -> Prop) : longs (bmem s) (node_bootmem_map (bdata s)) (BITS_TO_LONGS n) -> 0 <= lo -> hi <= n ->
  (flags = BOOTMEM_DEFAULT \/ (forall i, lo <= i < hi -> rsv s i = false) ->
   forall m', painted (node_bootmem_map (bdata s)) (bmem s) lo hi true m' -> Q 0 (Boot (bdata s) m')) ->
  (flags = BOOTMEM_EXCLUSIVE -> (exists i, lo <= i < hi /\ rsv s i = true) ->
   forall m', (forall i, 0 <= i -> bit m' (node_bootmem_map (bdata s)) i = rsv s i) -> (forall p n, longs (bmem s) p n -> longs m' p n) ->
     Q (- EBUSY) (Boot (hinted lo (bdata s)) m')) ->
  flags = BOOTMEM_DEFAULT \/ flags = BOOTMEM_EXCLUSIVE -> wp (__reserve lo hi flags) Q s.
Proof.
  intros Hl Hlo Hhi HQ HB Hfl. destruct s as [d m]. unfold rsv in *. cbn [bdata bmem] in *. unfold __reserve. apply wp_bind, wp_get_bdata. cbn [bdata]. cbv zeta. apply wp_bind.
  destruct (Z.le_gt_cases hi lo) as [Hle|Hgt].
  { apply for_loop_none; [done|]. apply wp_ret. apply HQ; [right; intros; lia|by apply painted_none]. }
  apply (wp_for (fun k s' => exists m', painted (node_bootmem_map d) m lo k true m' /\ s' = Boot d m' /\
    (flags = BOOTMEM_DEFAULT \/ (forall i, lo <= i < k -> bit m (node_bootmem_map d) i = false)))); [lia| | |].
  { exists m. split; [apply painted_refl|]. split; [done|]. right. intros; lia. }
  2: { intros s' (m' & Hp & -> & Hz). apply wp_ret. by apply HQ. }
  intros k s' Hk (m1 & Hp & -> & Hz). apply wp_bind, wp_on_map. eapply (wp_test_and_set _ _ (BITS_TO_LONGS n)).
  - cbn [bmem]. by apply Hp.
  - lia.
  - apply BITS_TO_LONGS_spec. lia.
  - cbn [bmem bdata]. intros m2 Hb2 Hl2. rewrite (pt_bits _ _ _ _ _ _ Hp) by lia. rewrite bool_decide_false by lia.
    pose proof (painted_next _ _ _ _ _ m1 m2 Hp ltac:(lia) Hb2 Hl2) as Hp2.
    destruct (bit m (node_bootmem_map d) k) eqn:Ek; cbn [andb].
    2: { apply wp_ret. exists m2. split; [done|]. split; [done|]. destruct Hz as [?|Hz]; [by left|right]. intros i Hi. destruct (decide (i = k)) as [->|]; [done|apply Hz; lia]. }
    destruct Hfl as [->| ->]; cbn.
    { apply wp_ret. exists m2. split; [done|]. split; [done|]. by left. }
    destruct Hz as [?|Hz]; [done|]. apply wp_bind. eapply (wp_free_range _ n).
    + cbn [bmem bdata]. by apply Hl2, Hp.
    + done.
    + lia.
    + unfold rsv. cbn [bmem bdata]. intros i Hi. rewrite (pt_bits _ _ _ _ _ _ Hp2) by lia. by rewrite bool_decide_true by lia.
    + cbn [bmem bdata]. intros m3 Hp3. apply wp_ret, wp_ret. apply HB; [done|exists k; split; [lia|done]| |].
      * intros i Hi. rewrite (pt_bits _ _ _ _ _ _ Hp3), (pt_bits _ _ _ _ _ _ Hp2) by done.
        destruct (decide (lo <= i < k)); [rewrite bool_decide_true by lia; symmetry; by apply Hz|]. rewrite bool_decide_false by lia.
        destruct (decide (i = k)) as [->|]; [by rewrite bool_decide_true by lia|by rewrite bool_decide_false by lia].
      * intros p n' Hpn. by apply Hp3, Hp2.
Qed.

(** ** Bytes that may be handed out

    Those of the pages that are not reserved, and those behind the last allocation in
    its last page. *)
Definition avail s (b : Z) : Prop :=
  (0 <= b < pages (bdata s) * 4096 /\ rsv s (b / 4096) = false) \/
  (last_end_off (bdata s) mod 4096 <> 0 /\ last_end_off (bdata s) <= b < (last_end_off (bdata s) / 4096 + 1) * 4096).

(** The [size] bytes at [off] have been handed out. *)
Record handed s (off size : Z) s' : Prop := {
  hd_ok : node_ok s';
  hd_node : node_min_pfn (bdata s') = node_min_pfn (bdata s) /\ node_low_pfn (bdata s') = node_low_pfn (bdata s) /\ node_bootmem_map (bdata s') = node_bootmem_map (bdata s);
  hd_in : 0 <= off /\ off + size <= pages (bdata s) * 4096;
  hd_was : forall b, off <= b < off + size -> avail s b;
  hd_now : forall b, off <= b < off + size -> ~ avail s' b;
  hd_less : forall b, avail s' b -> avail s b;
  hd_pages : forall i, 0 <= i -> rsv s' i = rsv s i \/ (rsv s i = false /\ off < (i + 1) * 4096 /\ i * 4096 < off + size)
}.

(** Where the region starts: in the rest of the page below, or at the page itself. *)
Definition starts_at d (sidx off : Z) : Prop :=
  off = sidx * 4096 \/
  (last_end_off d mod 4096 <> 0 /\ last_end_off d / 4096 + 1 = sidx /\ last_end_off d <= off < sidx * 4096).

Lemma handed_region s m' sidx off size np : node_ok s -> 0 <= sidx -> 0 < size -> np = (size + 4095) / 4096 -> sidx + np <= pages (bdata s) ->
  (forall i, sidx <= i < sidx + np -> rsv s i = false) -> starts_at (bdata s) sidx off ->
  painted (node_bootmem_map (bdata s)) (bmem s) sidx ((off + size + 4095) / 4096) true m' ->
  handed s off size (Boot (with_hint ((off + size + 4095) / 4096) (with_last (off + size) (bdata s))) m').
Proof.
  intros [Hlim Hmap Hlongs Hrest Hlast Htail Hhint] Hs Hsz Hnp Hle Hz Hst Hp. set (e := off + size) in *. set (d' := with_hint _ _).
  assert ((sidx - 1) * 4096 < off <= sidx * 4096 /\ 0 <= off) as [Hoff Hoff0].
  { destruct Hst as [->|(Hm & Hq & Hr)]; [lia|]. assert (last_end_off (bdata s) mod 4096 > 0) by (pose proof (Z.mod_pos_bound (last_end_off (bdata s)) 4096); lia).
    pose proof (Z.div_mod (last_end_off (bdata s)) 4096). lia. }
  assert (e <= (sidx + np) * 4096) as He by (subst np e; clear - Hoff; Z.div_mod_to_equations; lia).
  assert (sidx <= (e + 4095) / 4096 <= sidx + np) as Hup by (unfold e in *; clear - He Hoff Hsz; Z.div_mod_to_equations; lia).
  assert (forall i, 0 <= i -> rsv (Boot d' m') i = if bool_decide (sidx <= i < (e + 4095) / 4096) then true else rsv s i) as Hr' by (intros i Hi; exact (pt_bits _ _ _ _ _ _ Hp i Hi)).
  assert (forall b, off <= b < e -> b / 4096 < sidx -> rsv s (b / 4096) = true /\ (last_end_off (bdata s) mod 4096 <> 0 /\ last_end_off (bdata s) <= b < (last_end_off (bdata s) / 4096 + 1) * 4096)) as Hlow.
  { intros b Hb Hbs. destruct Hst as [->|(Hm & Hq & Hr)]; [clear - Hb Hbs; Z.div_mod_to_equations; lia|].
    assert (b / 4096 = last_end_off (bdata s) / 4096) as -> by (clear - Hb Hbs Hr Hq Hoff; Z.div_mod_to_equations; lia). split; [by apply Htail|]. split; [done|].
    clear - Hb Hbs Hr Hq. Z.div_mod_to_equations. lia. }
  assert (forall b, off <= b < e -> sidx <= b / 4096 -> sidx <= b / 4096 < (e + 4095) / 4096 /\ 0 <= b < pages (bdata s) * 4096) as Hhigh.
  { intros b Hb Hbs. split; [clear - Hb Hbs; Z.div_mod_to_equations; lia|]. split; [lia|]. clear - Hb He Hle. nia. }
  split.
  - split; cbn [bdata bmem d' with_hint with_last node_min_pfn node_low_pfn node_bootmem_map last_end_off hint_idx] in *; try done.
    + by apply Hp.
    + intros i Hi. rewrite Hr' by (unfold pages, node_limits in *; cbn in *; lia). case_bool_decide; [done|]. by apply Hrest.
    + unfold pages in *. cbn. unfold e in *. lia.
    + intros Hm. rewrite Hr' by (apply Z.div_pos; unfold e in *; lia). case_bool_decide as Hc; [done|]. assert (e / 4096 = sidx - 1) as E.
      { clear - Hc Hm Hup Hoff Hsz. unfold e in *. Z.div_mod_to_equations. lia. }
      destruct (Hlow (e - 1)) as [Hl _]; [unfold e in *; lia|clear - E Hm; Z.div_mod_to_equations; lia|].
      assert ((e - 1) / 4096 = e / 4096) as <- by (clear - Hm; Z.div_mod_to_equations; lia). exact Hl.
    + unfold pages in *. cbn. lia.
  - done.
  - split; [done|]. unfold e in He. clear - He Hle. nia.
  - intros b Hb. destruct (Z.lt_ge_cases (b / 4096) sidx) as [Hlt|Hge]; [right; by apply Hlow|]. left. destruct (Hhigh b Hb Hge) as [H1 H2]. split; [done|]. apply Hz. lia.
  - intros b Hb [[Hb1 Hb2]|(_ & Hb2)]; cbn [bdata d' with_hint with_last last_end_off] in *; [|fold e in Hb2; lia]. rewrite Hr' in Hb2 by (apply Z.div_pos; lia).
    destruct (Z.lt_ge_cases (b / 4096) sidx) as [Hlt|Hge].
    + rewrite bool_decide_false in Hb2 by lia. destruct (Hlow b Hb Hlt) as [Hl _]. congruence.
    + by rewrite bool_decide_true in Hb2 by (apply Hhigh; lia).
  - intros b [[Hb1 Hb2]|(Hm & Hb2)]; cbn [bdata d' with_hint with_last last_end_off] in *.
    + left. split; [done|]. rewrite Hr' in Hb2 by (apply Z.div_pos; lia). by case_bool_decide.
    + destruct (Z.lt_ge_cases (e / 4096) sidx) as [Hlt|Hge].
      * destruct (Hlow (e - 1)) as [_ (Hl1 & Hl2)]; [unfold e in *; lia|clear - Hlt; Z.div_mod_to_equations; lia|]. right. split; [done|].
        assert (e / 4096 = last_end_off (bdata s) / 4096) as <-; [|lia]. clear - Hl2 Hm. Z.div_mod_to_equations. lia.
      * left. assert (b / 4096 = e / 4096) as E by (clear - Hb2; Z.div_mod_to_equations; lia). rewrite E.
        assert (e / 4096 < (e + 4095) / 4096) as Hlt by (clear - Hm; Z.div_mod_to_equations; lia). split; [|apply Hz; lia]. split; [unfold e in *; lia|]. clear - Hb2 Hlt Hup Hle. nia.
  - intros i Hi. rewrite Hr' by done. case_bool_decide as Hc; [|by left]. right. split; [apply Hz; lia|]. unfold e in *. clear - Hc Hoff. Z.div_mod_to_equations. lia.
Qed.

Definition step_of (k : Z) : Z := if 12 <=? k then 2 ^ (k - 12) else 1.

Lemma step_spec k : 0 <= k < 32 -> exists j, 0 <= j <= 19 /\ step_of k = 2 ^ j /\ Z.max (Z.shiftr (2 ^ k) PAGE_SHIFT) 1 = step_of k.
Proof.
  intros Hk. unfold step_of, PAGE_SHIFT. rewrite Z.shiftr_div_pow2 by done. destruct (Z.leb_spec 12 k) as [H|H].
  - exists (k - 12). split; [lia|]. split; [done|]. rewrite <- Z.pow_sub_r by lia. pose proof (Z.pow_pos_nonneg 2 (k - 12)). lia.
  - exists 0. split; [lia|]. split; [done|]. rewrite Z.div_small; [done|]. split; [lia|]. apply Z.pow_lt_mono_r; lia.
Qed.

(** A page at a multiple of the step starts at a multiple of the alignment. *)
Lemma step_aligned k x : 0 <= k < 32 -> (step_of k | x) -> (2 ^ k | x * 4096).
Proof.
  intros Hk [q ->]. unfold step_of. destruct (Z.leb_spec 12 k) as [H|H].
  - exists q. rewrite <- Z.mul_assoc. f_equal. change 4096 with (2 ^ 12). rewrite <- Z.pow_add_r by lia. f_equal. lia.
  - exists (q * 2 ^ (12 - k)). rewrite <- (Z.mul_assoc q (2 ^ (12 - k))), <- Z.pow_add_r by lia. replace (12 - k + k) with 12 by lia. change (2 ^ 12) with 4096. lia.
Qed.

(** A page where a region of [np] pages can start. *)
Definition fits_at s (k np midx c : Z) : Prop :=
  0 <= c /\ (step_of k | node_min_pfn (bdata s) + c) /\ c + np <= midx /\ forall i, c <= i < c + np -> rsv s i = false.

Lemma node_bound d : node_limits d -> 0 < pages d /\ node_min_pfn d * 4096 + pages d * 4096 < 2 ^ 32 - 4095.
Proof. unfold node_limits, pages. change (2 ^ 20) with 1048576. change (2 ^ 32) with 4294967296. lia. Qed.

Lemma PFN_UP_size size : 0 < size < 2 ^ 32 - 4095 -> PFN_UP size = (size + 4095) / 4096.
Proof. intros H. apply PFN_UP_div; lia. Qed.

Lemma start_off_ok s k sidx : node_ok s -> 0 <= k < 32 -> 0 <= sidx < pages (bdata s) -> (step_of k | node_min_pfn (bdata s) + sidx) ->
  let off := if negb (Z.land (last_end_off (bdata s)) (page_size - 1) =? 0) && (PFN_DOWN (last_end_off (bdata s)) + 1 =? sidx)
             then align_off (bdata s) (last_end_off (bdata s)) (2 ^ k) else PFN_PHYS sidx in
  starts_at (bdata s) sidx off /\ (2 ^ k | node_min_pfn (bdata s) * 4096 + off) /\ PFN_DOWN off + Z.b2z (PFN_DOWN off <? sidx) = sidx.
Proof.
  intros Hok Hk Hs Hstep off. pose proof (nk_limits _ Hok) as Hlim. pose proof (node_bound _ Hlim) as [Hpos Hbnd]. pose proof (nk_last _ Hok) as Hlast.
  assert (2 ^ k | node_min_pfn (bdata s) * 4096 + sidx * 4096) as Hsa by (rewrite <- Z.mul_add_distr_r; by apply step_aligned).
  assert (0 < 2 ^ k) as Hk0 by (apply Z.pow_pos_nonneg; lia).
  assert (Hpage : off = sidx * 4096 -> starts_at (bdata s) sidx off /\ (2 ^ k | node_min_pfn (bdata s) * 4096 + off) /\ PFN_DOWN off + Z.b2z (PFN_DOWN off <? sidx) = sidx).
  { intros ->. split; [by left|]. split; [done|]. rewrite PFN_DOWN_div, Z.div_mul by done. rewrite Z.ltb_irrefl. simpl. lia. }
  unfold off in *. clear off. change (page_size - 1) with (Z.ones 12) in *. rewrite Z.land_ones in * by done. change (2 ^ 12) with 4096 in *. rewrite PFN_DOWN_div in *.
  destruct (Z.eqb_spec (last_end_off (bdata s) mod 4096) 0) as [E0|E0]; cbn [negb andb] in *; [apply Hpage, PFN_PHYS_mul; unfold node_limits, pages in *; lia|].
  destruct (Z.eqb_spec (last_end_off (bdata s) / 4096 + 1) sidx) as [E1|E1]; [|apply Hpage, PFN_PHYS_mul; unfold node_limits, pages in *; lia].
  assert (last_end_off (bdata s) < sidx * 4096) as Hlt by (clear - E1; Z.div_mod_to_equations; lia).
  destruct (Z.le_gt_cases (last_end_off (bdata s) + 2 ^ k + node_min_pfn (bdata s) * 4096) (2 ^ 32)) as [Hfit|Hbig].
  - destruct (align_off_ok (bdata s) (last_end_off (bdata s)) k Hlim Hk Hlast Hfit) as [Hd Hr].
    assert (align_off (bdata s) (last_end_off (bdata s)) (2 ^ k) <= sidx * 4096) as Hle.
    { pose proof (least_multiple (2 ^ k) (node_min_pfn (bdata s) * 4096 + last_end_off (bdata s)) _ _ Hd Hsa). lia. }
    set (off := align_off _ _ _) in *. clearbody off. split; [|split; [done|]].
    + destruct (Z.eq_dec off (sidx * 4096)); [by left|right]. split; [done|]. split; [done|]. lia.
    + rewrite PFN_DOWN_div. destruct (Z.ltb_spec (off / 4096) sidx); simpl; clear - E1 Hle Hr H; Z.div_mod_to_equations; lia.
  - exfalso. destruct Hsa as [q Hq]. assert (2 ^ 32 = 2 ^ (32 - k) * 2 ^ k) as E32 by (rewrite <- Z.pow_add_r by lia; f_equal; lia).
    assert (q * 2 ^ k < 2 ^ (32 - k) * 2 ^ k) as Hq2 by (rewrite <- E32, <- Hq; unfold pages in *; lia). apply Z.mul_lt_mono_pos_r in Hq2; [|done].
    assert ((q + 1) * 2 ^ k <= 2 ^ (32 - k) * 2 ^ k) as Hq3 by (apply Z.mul_le_mono_pos_r; lia). lia.
Qed.

Lemma wp_take_region s k sidx size np : node_ok s -> 0 <= k < 32 -> 0 < size -> np = (size + 4095) / 4096 -> 0 <= sidx -> sidx + np <= pages (bdata s) ->
  (step_of k | node_min_pfn (bdata s) + sidx) -> (forall i, sidx <= i < sidx + np -> rsv s i = false) ->
  wp (take_region sidx size (2 ^ k)) (fun addr s' => exists off, addr = node_min_pfn (bdata s) * 4096 + off /\ (2 ^ k | addr) /\
    (sidx - 1) * 4096 < off <= sidx * 4096 /\ handed s off size s') s.
Proof.
  intros Hok Hk Hsz Hnp Hs Hle Hstep Hz. unfold take_region. apply wp_bind, wp_get_bdata. assert (0 < np) as Hnp0 by (subst np; clear - Hsz; Z.div_mod_to_equations; lia).
  destruct (start_off_ok s k sidx Hok Hk ltac:(lia) Hstep) as (Hst & Hd & Hfirst). cbv zeta. set (off := if _ && _ then _ else _) in *. clearbody off.
  pose proof (node_bound _ (nk_limits _ Hok)) as [Hpos Hbnd]. pose proof (nk_limits _ Hok) as Hlim. pose proof (nk_last _ Hok) as Hlast.
  assert ((sidx - 1) * 4096 < off <= sidx * 4096 /\ 0 <= off) as [Hoff Hoff0].
  { destruct Hst as [->|(Hm & Hq & Hr)]; [lia|]. clear - Hm Hq Hr Hlast. Z.div_mod_to_equations. lia. }
  assert (off + size <= pages (bdata s) * 4096) as Hend by (subst np; clear - Hle Hoff; Z.div_mod_to_equations; lia).
  rewrite Hfirst. assert (u32 (off + size) = off + size) as -> by (apply wrap_id; unfold fits, node_limits, pages in *; lia).
  rewrite PFN_UP_div by (unfold node_limits, pages in *; lia).
  apply wp_bind, wp_set_bdata, wp_bind, wp_set_bdata. apply wp_bind. cbn [bdata bmem]. eapply (wp_reserve _ (pages (bdata s))).
  - apply Hok.
  - done.
  - clear - Hend. Z.div_mod_to_equations. lia.
  - intros _ m' Hp. cbn [bdata bmem with_hint with_last node_bootmem_map] in Hp |- *. apply wp_bind, wp_BUG_ON; [done|]. apply wp_ret.
    exists off. rewrite PFN_PHYS_mul by (unfold node_limits in *; lia). rewrite wrap_id by (unfold fits, node_limits, pages in *; lia).
    split; [done|]. split; [done|]. split; [done|]. by eapply (handed_region s m' sidx off size np).
  - intros _ (i & Hi & Hset). exfalso. assert (rsv s i = false) as Hf; [|unfold rsv in *; cbn in Hset; congruence].
    apply Hz. clear - Hi Hoff Hnp Hsz. subst np. Z.div_mod_to_equations. lia.
  - by right.
Qed.

Lemma wp_find_zero m map size offset : longs m map (BITS_TO_LONGS size) -> 0 <= offset -> 0 <= size < 2 ^ 32 ->
  wp (find_next_zero_bit map size offset) (fun r m' => m' = m /\ 0 <= r <= size /\ (offset < size -> offset <= r) /\
    (forall i, offset <= i < r -> bit m map i = true) /\ (size <= offset -> r = size)) m.
Proof.
  intros Hl Ho Hs. destruct (Z.lt_ge_cases offset size) as [Hlt|Hge].
  - eapply wp_mono; [apply wp_find_next_zero_bit; (done || lia)|]. intros r m' (-> & Hr & Hno & _). split; [done|]. split; [lia|]. split; [lia|]. split; [|lia].
    intros i Hi. apply negb_false_iff. by apply Hno.
  - unfold find_next_zero_bit. rewrite (proj2 (Z.leb_le size offset)) by done. apply wp_ret. split; [done|]. split; [lia|]. split; [lia|]. split; [intros; lia|done].
Qed.

Lemma wp_first_reserved s n lo hi : longs (bmem s) (node_bootmem_map (bdata s)) (BITS_TO_LONGS n) -> 0 <= lo -> hi <= n -> lo <= hi ->
  wp (first_reserved (node_bootmem_map (bdata s)) lo hi) (fun r s' => s' = s /\
    match r with Some i => lo <= i < hi /\ rsv s i = true | None => forall i, lo <= i < hi -> rsv s i = false end) s.
Proof.
  intros Hl Hlo Hhi Hle. apply (wp_for (fun k s' => s' = s /\ forall i, lo <= i < k -> rsv s i = false)); [done|split; [done|intros; lia]| |done].
  intros k s' Hk [-> Hz]. apply wp_bind, wp_on_map. apply (wp_det _ (Z.b2z (rsv s k)) _ (bmem s)).
  { apply (test_bit_ok _ _ (BITS_TO_LONGS n)); [done|lia|]. apply BITS_TO_LONGS_spec. lia. }
  apply wp_ret. destruct s as [d m]. cbn [bdata bmem] in *. destruct (rsv _ k) eqn:E; cbn.
  - split; [done|]. split; [lia|done].
  - split; [done|]. intros i Hi. destruct (decide (i = k)) as [->|]; [done|apply Hz; lia].
Qed.

(** The result of an allocation: a region, or nothing when no region would fit from
    page [lo] on. *)
Definition found s (k size midx lo : Z) (r : option Z) s' : Prop :=
  match r with
  | Some addr => exists off, addr = node_min_pfn (bdata s) * 4096 + off /\ (2 ^ k | addr) /\ off + size <= midx * 4096 /\ handed s off size s'
  | None => s' = s /\ forall c, lo <= c -> ~ fits_at s k ((size + 4095) / 4096) midx c
  end.

Lemma wp_find_region s k size midx lo sidx fallback : node_ok s -> 0 <= k < 32 -> 0 < size < 2 ^ 32 - 4095 -> 0 < midx <= pages (bdata s) ->
  0 <= lo < 2 ^ 21 -> (step_of k | node_min_pfn (bdata s) + lo) -> 0 <= sidx < 2 ^ 21 ->
  (fallback = lo + 1 \/ (fallback = 0 /\ sidx = lo)) ->
  wp (find_region midx size (2 ^ k) (step_of k) sidx fallback) (found s k size midx lo) s.
Proof.
  intros Hok Hk Hsz Hm Hlo Hlostep Hs0 Hfb. pose proof (nk_limits _ Hok) as Hlim. destruct (step_spec k Hk) as (j & Hj & Ej & _).
  set (np := (size + 4095) / 4096). assert (PFN_UP size = np) as Enp by by apply PFN_UP_size.
  assert (0 < np <= 2 ^ 20) as Hnp by (unfold np; clear - Hsz; change (2 ^ 32) with 4294967296 in Hsz; change (2 ^ 20) with 1048576; Z.div_mod_to_equations; lia).
  assert (0 < 2 ^ j <= 2 ^ 19) as Hj2 by (split; [apply Z.pow_pos_nonneg; lia|apply Z.pow_le_mono_r; lia]). change (2 ^ 19) with 524288 in Hj2. change (2 ^ 20) with 1048576 in Hnp.
  assert (pages (bdata s) < 1048576) as Hpg by (unfold node_limits, pages in *; change (2 ^ 20) with 1048576 in *; lia). change (2 ^ 21) with 2097152 in *.
  unfold find_region.
  apply (wp_loop (fun '(x, fb) s' => s' = s /\ 0 <= x < 2097152 /\ (fb = lo + 1 \/ (fb = 0 /\ forall c, lo <= c -> fits_at s k np midx c -> x <= c)))
    (fun '(x, fb) => Z.to_nat ((if fb =? 0 then 0 else midx + 2) + Z.max 0 (midx + 1 - x)))).
  { split; [done|]. split; [done|]. destruct Hfb as [->|[-> ->]]; [by left|right; auto]. }
  { destruct (fallback =? 0); lia. }
  intros [x fb] s' (-> & Hx & Hinv). apply wp_bind, wp_get_bdata. apply wp_bind, wp_on_map.
  assert (longs (bmem s) (node_bootmem_map (bdata s)) (BITS_TO_LONGS midx)) as Hlm.
  { intros i Hi. apply (nk_longs _ Hok). split; [lia|]. unfold BITS_TO_LONGS, BITS_PER_LONG in *. pose proof (Z.div_le_mono (midx + 32 - 1) (pages (bdata s) + 32 - 1) 32). lia. }
  eapply wp_mono; [apply wp_find_zero; [exact Hlm|lia|lia]|].
  intros z m' (-> & Hz & Hxz & Hset & Hxm). assert (Boot (bdata s) (bmem s) = s) as -> by by destruct s. rewrite Ej.
  destruct (align_idx_ok (bdata s) z j Hlim Hj) as [Had Har]; [change (2 ^ 21) with 2097152; lia|]. set (y := align_idx (bdata s) z (2 ^ j)) in *.
  rewrite Enp. assert (u32 (y + np) = y + np) as -> by (apply wrap_id; unfold fits; change (2 ^ 32) with 4294967296; lia).
  assert (forall c, fits_at s k np midx c -> x <= c -> y <= c) as Hskip.
  { intros c (Hc0 & Hcd & Hcm & Hcz) Hxc. rewrite Ej in Hcd. destruct (Z.lt_ge_cases c z) as [Hlt|Hge].
    - exfalso. specialize (Hcz c ltac:(lia)). unfold rsv in Hcz. by rewrite (Hset c) in Hcz by lia.
    - pose proof (least_multiple (2 ^ j) (node_min_pfn (bdata s) + z) _ _ Had Hcd). lia. }
  destruct (Z.leb_spec midx y) as [Hmy|Hmy]; [|destruct (Z.ltb_spec midx (y + np)) as [Hme|Hme]]; cbn [orb].
  1, 2: destruct Hinv as [->|[-> Hinv]];
    [rewrite (proj2 (Z.eqb_neq (lo + 1) 0)) by lia; cbn [negb]; apply wp_ret; rewrite Z.add_simpl_r; rewrite Ej in Hlostep;
     destruct (align_idx_ok (bdata s) lo j Hlim Hj) as [Hld Hlr]; [change (2 ^ 21) with 2097152; lia|];
     pose proof (least_multiple (2 ^ j) (node_min_pfn (bdata s) + lo) _ _ Hld Hlostep);
     replace (align_idx (bdata s) lo (2 ^ j)) with lo by lia; split; [split; [done|]; split; [lia|]; right; auto|simpl; lia]
    |cbn; apply wp_ret; split; [done|]; intros c Hc Hfit; pose proof (Hskip c Hfit (Hinv c Hc Hfit)); destruct Hfit as (? & ? & ? & _); lia].
  apply wp_bind. eapply wp_mono; [apply (wp_first_reserved s (pages (bdata s))); [apply Hok|lia|lia|lia]|].
  intros [i|] s' [-> Hi].
  - destruct Hi as [Hi Hri]. apply wp_ret. destruct (align_idx_ok (bdata s) i j Hlim Hj) as [Hid Hir]; [change (2 ^ 21) with 2097152; lia|].
    set (w := align_idx (bdata s) i (2 ^ j)) in *. set (v := if w =? i then u32 (w + 2 ^ j) else w).
    assert (i < v < i + 2 * 2 ^ j /\ (2 ^ j | node_min_pfn (bdata s) + v) /\ (v = w \/ (v = w + 2 ^ j /\ w = i))) as (Hv & Hvd & Hvw).
    { unfold v. destruct (Z.eqb_spec w i) as [E|E]; [|split; [lia|auto]]. rewrite wrap_id by (unfold fits; change (2 ^ 32) with 4294967296; lia).
      split; [lia|]. split; [|auto]. rewrite Z.add_assoc. apply Z.divide_add_r; [done|apply Z.divide_refl]. }
    split; [|destruct (fb =? 0); lia]. split; [done|]. split; [lia|]. destruct Hinv as [->|[-> Hinv]]; [by left|right]. split; [done|]. intros c Hc Hfit.
    pose proof (Hskip c Hfit (Hinv c Hc Hfit)) as Hyc. destruct Hfit as (Hc0 & Hcd & Hcm & Hcz). rewrite Ej in Hcd. destruct (Z.le_gt_cases c i) as [Hle|Hgt].
    + specialize (Hcz i ltac:(lia)). congruence.
    + assert (w <= c) as Hwc by (pose proof (least_multiple (2 ^ j) (node_min_pfn (bdata s) + i) _ _ Hid Hcd); lia). destruct Hvw as [->|[-> Ewi]]; [done|].
      apply (least_multiple (2 ^ j) (node_min_pfn (bdata s) + i + 1) (node_min_pfn (bdata s) + (w + 2 ^ j)) (node_min_pfn (bdata s) + c)) in Hcd; [lia|..].
      * rewrite Z.add_assoc. apply Z.divide_add_r; [done|apply Z.divide_refl].
      * lia.
      * lia.
      * lia.
  - apply wp_bind. eapply wp_mono; [apply (wp_take_region s k y size np); [done|done|lia|done|lia|lia|by rewrite Ej|done]|].
    intros addr s' (off & -> & Hd & Hoff & Hh). apply wp_ret. exists off. split; [done|]. split; [done|]. split; [|done].
    unfold np in *. clear - Hoff Hme. Z.div_mod_to_equations. lia.
Qed.

Lemma pow2_test k : 0 <= k < 32 -> negb (Z.land (2 ^ k) (u32 (2 ^ k - 1)) =? 0) = false.
Proof.
  intros Hk. assert (0 < 2 ^ k <= 2 ^ 31) as H2 by (split; [apply Z.pow_pos_nonneg; lia|apply Z.pow_le_mono_r; lia]).
  rewrite wrap_id by (unfold fits; change (2 ^ 31) with 2147483648 in H2; change (2 ^ 32) with 4294967296; lia).
  rewrite Z.sub_1_r, <- Z.ones_equiv, Z.land_ones, Z.mod_same by lia. done.
Qed.

(** The end of the pages to look at and the first one, as indices. *)
Definition last_pfn d (limit : Z) : Z := if negb (limit / 4096 =? 0) && (limit / 4096 <? node_low_pfn d) then limit / 4096 else node_low_pfn d.
Definition first_idx d (goal limit : Z) : Z :=
  if (node_min_pfn d <? goal / 4096) && (goal / 4096 <? last_pfn d limit) then goal / 4096 - node_min_pfn d else 0.

Lemma last_pfn_bounds d limit : last_pfn d limit <= node_low_pfn d /\ (4096 <= limit -> last_pfn d limit * 4096 <= limit).
Proof.
  unfold last_pfn. destruct (Z.eqb_spec (limit / 4096) 0) as [E|E]; cbn [negb andb]; [split; [lia|]; intros Hl; exfalso; clear - E Hl; Z.div_mod_to_equations; lia|].
  destruct (Z.ltb_spec (limit / 4096) (node_low_pfn d)) as [H|H]; (split; [lia|]); intros Hl; clear - H Hl; Z.div_mod_to_equations; lia.
Qed.

Lemma found_weaken s k size midx lo lo' r s' : found s k size midx lo' r s' -> (forall c, lo <= c -> fits_at s k ((size + 4095) / 4096) midx c -> lo' <= c) -> found s k size midx lo r s'.
Proof.
  intros H Hw. destruct r as [addr|]; [done|]. destruct H as [-> Hno]. split; [done|]. intros c Hc Hf. by apply (Hno c); [apply Hw|].
Qed.

Lemma wp_alloc_core s k size goal limit : node_ok s -> 0 <= k < 32 -> 0 < size < 2 ^ 32 - 4095 -> 0 <= goal -> 0 <= limit < 2 ^ 32 ->
  goal + size < 2 ^ 32 -> (limit <> 0 -> goal + size <= limit) ->
  wp (alloc_bootmem_core size (2 ^ k) goal limit) (found s k size (last_pfn (bdata s) limit - node_min_pfn (bdata s)) (first_idx (bdata s) goal limit)) s.
Proof.
  intros Hok Hk Hsz Hg Hl Hgs Hgl. pose proof (nk_limits _ Hok) as Hlim. unfold alloc_bootmem_core.
  apply wp_bind, wp_BUG_ON; [lia|]. apply wp_bind, wp_BUG_ON; [by apply pow2_test|]. apply wp_bind, wp_BUG_ON.
  { rewrite wrap_id by (unfold fits; lia). destruct (Z.eqb_spec limit 0); [done|]. cbn. apply Z.ltb_ge. auto. }
  apply wp_bind, wp_get_bdata. rewrite (proj2 (Z.eqb_neq _ _) (nk_map _ Hok)). cbv zeta. unfold PAGE_SHIFT. rewrite !(Z.shiftr_div_pow2 goal), !(Z.shiftr_div_pow2 limit) by done.
  change (2 ^ 12) with 4096. fold (last_pfn (bdata s) limit). set (max := last_pfn (bdata s) limit). set (min := node_min_pfn (bdata s)).
  assert (max <= node_low_pfn (bdata s)) as Hmax by (unfold max, last_pfn; destruct (_ =? 0), (Z.ltb_spec (limit / 4096) (node_low_pfn (bdata s))); cbn; lia).
  assert (0 < (size + 4095) / 4096) as Hnp by (clear - Hsz; Z.div_mod_to_equations; lia).
  destruct (Z.leb_spec max min) as [Hmm|Hmm].
  { apply wp_ret. split; [done|]. intros c _ (Hc & _ & Hcm & _). lia. }
  destruct (step_spec k Hk) as (j & Hj & Ej & Estep). fold PAGE_SHIFT. rewrite Estep.
  assert (0 < 2 ^ j <= 2 ^ 19) as Hj2 by (split; [apply Z.pow_pos_nonneg; lia|apply Z.pow_le_mono_r; lia]). change (2 ^ 19) with 524288 in Hj2.
  assert (0 <= min /\ max < 1048576) as [Hmin Hmax'] by (unfold node_limits, min in *; change (2 ^ 20) with 1048576 in Hlim; lia).
  set (first := if negb (goal / 4096 =? 0) && (min <? goal / 4096) && (goal / 4096 <? max) then goal / 4096 else min).
  assert ((if negb (goal / 4096 =? 0) && (min <? goal / 4096) && (goal / 4096 <? max) then ALIGN (goal / 4096) (step_of k) else ALIGN min (step_of k)) = ALIGN first (step_of k)) as ->
    by (unfold first; by destruct (_ && _ && _)).
  assert (min <= first < max /\ first - min = first_idx (bdata s) goal limit) as [Hfirst Efirst].
  { unfold first, first_idx. fold min max. destruct (Z.eqb_spec (goal / 4096) 0), (Z.ltb_spec min (goal / 4096)), (Z.ltb_spec (goal / 4096) max); cbn; lia. }
  destruct (ALIGN_ok first j) as [Hd Hr]; [lia|lia|change (2 ^ 32) with 4294967296; lia|]. rewrite Ej. set (start := ALIGN first (2 ^ j)) in *.
  rewrite (wrap_id 32 (start - min)), (wrap_id 32 (max - min)) by (unfold fits; change (2 ^ 32) with 4294967296; lia).
  assert (pages (bdata s) < 1048576) as Hpg by (unfold node_limits, pages in *; change (2 ^ 20) with 1048576 in *; lia). pose proof (nk_hint _ Hok) as Hh.
  assert (forall r s', found s k size (max - min) (start - min) r s' -> found s k size (max - min) (first_idx (bdata s) goal limit) r s') as Hw.
  { intros r s' Hf. eapply found_weaken; [done|]. intros c Hc (_ & Hcd & _). fold min in Hcd. rewrite Ej in Hcd.
    pose proof (least_multiple (2 ^ j) first start (min + c) Hd Hcd). lia. }
  assert (step_of k | min + (start - min)) as Hlod by (rewrite Ej; by replace (min + (start - min)) with start by lia).
  rewrite <- Ej. destruct (Z.ltb_spec (start - min) (hint_idx (bdata s))) as [Hhint|Hhint].
  - destruct (align_idx_ok (bdata s) (hint_idx (bdata s)) j Hlim Hj) as [_ Hhr]; [change (2 ^ 21) with 2097152; lia|].
    rewrite (wrap_id 32 (start - min + 1)) by (unfold fits; change (2 ^ 32) with 4294967296; lia). eapply wp_mono; [|apply Hw].
    apply wp_find_region; [done|done|done|unfold pages, min in *; lia|change (2 ^ 21) with 2097152; lia|done|rewrite Ej; change (2 ^ 21) with 2097152; lia|by left].
  - eapply wp_mono; [|apply Hw].
    apply wp_find_region; [done|done|done|unfold pages, min in *; lia|change (2 ^ 21) with 2097152; lia|done|change (2 ^ 21) with 2097152; lia|by right].
Qed.

(** Without a limit the goal is dropped in the end: nothing is returned only when the
    region fits nowhere. *)
Lemma wp_alloc_nopanic s k size goal : node_ok s -> 0 <= k < 32 -> 0 < size < 2 ^ 32 - 4095 -> 0 <= goal -> goal + size < 2 ^ 32 ->
  wp (__alloc_bootmem_nopanic size (2 ^ k) goal) (found s k size (pages (bdata s)) 0) s.
Proof.
  intros Hok Hk Hsz Hg Hgs. unfold __alloc_bootmem_nopanic, ___alloc_bootmem_nopanic.
  assert (forall g, 0 <= g <= goal -> wp (alloc_bootmem_core size (2 ^ k) g 0) (found s k size (pages (bdata s)) (first_idx (bdata s) g 0)) s) as Hcore.
  { intros g Hgr. apply (wp_alloc_core s k size g 0); [done|done|done|lia|lia|lia|done]. }
  apply (wp_loop (fun g s' => s' = s /\ (g = goal \/ g = 0)) (fun g => if g =? 0 then 0%nat else 1%nat)); [by split; [|left]|destruct (goal =? 0); lia|].
  intros g s' [-> Hgg]. apply wp_bind, wp_get_bdata. apply wp_bind. cbn [negb andb].
  apply (wp_mono _ (fun r s' => match r with Some addr => found s k size (pages (bdata s)) 0 (Some addr) s' | None => s' = s /\ (g = 0 -> found s k size (pages (bdata s)) 0 None s) end)).
  - destruct (negb (g =? 0) && _) eqn:E; [apply wp_ret; split; [done|]; intros ->; done|].
    eapply wp_mono; [apply Hcore; destruct Hgg as [->| ->]; lia|]. intros [addr|] s'; [done|]. intros [-> Hno]. split; [done|]. intros ->. split; [done|].
    intros c Hc. apply Hno. unfold first_idx. change (0 / 4096) with 0. destruct (Z.ltb_spec (node_min_pfn (bdata s)) 0); [|cbn; lia].
    destruct (nk_limits _ Hok). lia.
  - intros [addr|] s'; [intros Hf; by apply wp_ret|]. intros [-> Hno]. destruct (Z.eqb_spec g 0) as [->|Hne]; cbn [negb]; apply wp_ret.
    + by apply Hno.
    + split; [split; [done|by right]|]. cbn. lia.
Qed.

(** ** Marking ranges *)

Lemma hinted_bounds d lo n : 0 <= lo -> 0 <= hint_idx d <= n -> 0 <= (if lo <? hint_idx d then lo else hint_idx d) <= n.
Proof. destruct (Z.ltb_spec lo (hint_idx d)); lia. Qed.

(** Pages given back: their bytes are available again. *)
Record released s (lo hi : Z) s' : Prop := {
  rl_ok : node_ok s';
  rl_node : node_min_pfn (bdata s') = node_min_pfn (bdata s) /\ node_low_pfn (bdata s') = node_low_pfn (bdata s);
  rl_avail : forall b, avail s' b <-> avail s b \/ lo * 4096 <= b < hi * 4096
}.

Lemma released_painted s lo hi m' : node_ok s -> 0 <= lo -> hi <= pages (bdata s) ->
  (forall b, lo * 4096 <= b < hi * 4096 -> ~ avail s b) -> painted (node_bootmem_map (bdata s)) (bmem s) lo hi false m' ->
  released s lo hi (Boot (hinted lo (bdata s)) m').
Proof.
  intros Hok Hlo Hhi Hno Hp. destruct Hok as [Hlim Hmap Hlongs Hrest Hlast Htail Hhint].
  assert (forall i, 0 <= i -> rsv (Boot (hinted lo (bdata s)) m') i = if bool_decide (lo <= i < hi) then false else rsv s i) as Hr' by (intros i Hi; exact (pt_bits _ _ _ _ _ _ Hp i Hi)).
  split.
  - split; cbn [bdata bmem hinted with_hint node_min_pfn node_low_pfn node_bootmem_map last_end_off hint_idx]; try done.
    + by apply Hp.
    + intros i Hi. change (pages _) with (pages (bdata s)) in Hi. rewrite Hr' by (unfold pages, node_limits in *; lia). rewrite bool_decide_false by lia. by apply Hrest.
    + intros Hm. rewrite Hr' by (apply Z.div_pos; lia). case_bool_decide as Hc; [|by apply Htail]. destruct (Hno (last_end_off (bdata s))).
      * clear - Hc. Z.div_mod_to_equations. lia.
      * right. split; [done|]. clear. Z.div_mod_to_equations. lia.
    + change (pages _) with (pages (bdata s)). by apply hinted_bounds.
  - done.
  - intros b. unfold avail. change (pages (bdata (Boot (hinted lo (bdata s)) m'))) with (pages (bdata s)). change (last_end_off (bdata (Boot (hinted lo (bdata s)) m'))) with (last_end_off (bdata s)). split.
    + intros [[Hb Hz]|H]; [|by left; right]. rewrite Hr' in Hz by (apply Z.div_pos; lia). case_bool_decide as Hc; [right; clear - Hc; Z.div_mod_to_equations; lia|by left; left].
    + intros [[[Hb Hz]|H]|Hb]; [left|by right|left].
      * split; [done|]. rewrite Hr' by (apply Z.div_pos; lia). by case_bool_decide.
      * split; [unfold pages in *; lia|]. rewrite Hr' by (apply Z.div_pos; lia). rewrite bool_decide_true; [done|]. clear - Hb. Z.div_mod_to_equations. lia.
Qed.

Lemma not_avail_rsv s i : 0 <= i < pages (bdata s) -> ~ avail s (i * 4096) -> rsv s i = true.
Proof.
  intros Hi Hn. destruct (rsv s i) eqn:E; [done|]. destruct Hn. left. split; [lia|]. by rewrite Z.div_mul.
Qed.

Lemma wp_mark_free s start end_ (Q : Z -> boot -> Prop) : node_ok s -> node_min_pfn (bdata s) <= start -> node_min_pfn (bdata s) <= end_ <= node_low_pfn (bdata s) -> start < 2 ^ 20 ->
  (forall b, (start - node_min_pfn (bdata s)) * 4096 <= b < (end_ - node_min_pfn (bdata s)) * 4096 -> ~ avail s b) ->
  (forall s', released s (start - node_min_pfn (bdata s)) (end_ - node_min_pfn (bdata s)) s' -> Q 0 s') -> wp (mark_bootmem_node start end_ false 0) Q s.
Proof.
  intros Hok Hs He Hs20 Hno HQ. pose proof (nk_limits _ Hok) as [Hl1 Hl2]. change (2 ^ 20) with 1048576 in *. unfold mark_bootmem_node. apply wp_bind, wp_get_bdata.
  apply wp_bind, wp_BUG_ON; [by apply Z.ltb_ge|]. apply wp_bind, wp_BUG_ON; [apply Z.ltb_ge; lia|]. cbv zeta.
  rewrite !wrap_id by (unfold fits; change (2 ^ 32) with 4294967296; lia).
  apply wp_bind. apply (wp_free_range s (pages (bdata s))); [apply Hok|lia|unfold pages; lia| |].
  - intros i Hi. apply not_avail_rsv; [unfold pages; lia|]. apply Hno. nia.
  - intros m' Hp. apply wp_ret, HQ. apply released_painted; [done|lia|unfold pages; lia|done|done].
Qed.

(** A range is taken for its caller. *)
Record claimed s (lo hi : Z) s' : Prop := {
  cl_ok : node_ok s';
  cl_node : node_min_pfn (bdata s') = node_min_pfn (bdata s) /\ node_low_pfn (bdata s') = node_low_pfn (bdata s);
  cl_was : forall b, lo * 4096 <= b < hi * 4096 -> avail s b;
  cl_avail : forall b, avail s' b <-> avail s b /\ ~ (lo * 4096 <= b < hi * 4096)
}.

Lemma claimed_painted s lo hi m' : node_ok s -> 0 <= lo -> hi <= pages (bdata s) -> (forall i, lo <= i < hi -> rsv s i = false) ->
  painted (node_bootmem_map (bdata s)) (bmem s) lo hi true m' -> claimed s lo hi (Boot (bdata s) m').
Proof.
  intros Hok Hlo Hhi Hz Hp. destruct Hok as [Hlim Hmap Hlongs Hrest Hlast Htail Hhint].
  assert (forall i, 0 <= i -> rsv (Boot (bdata s) m') i = if bool_decide (lo <= i < hi) then true else rsv s i) as Hr' by (intros i Hi; exact (pt_bits _ _ _ _ _ _ Hp i Hi)).
  split; cbn [bdata]; try done.
  - split; cbn [bdata bmem]; try done.
    + by apply Hp.
    + intros i Hi. rewrite Hr' by (unfold pages, node_limits in *; lia). case_bool_decide; [done|]. by apply Hrest.
    + intros Hm. rewrite Hr' by (apply Z.div_pos; lia). case_bool_decide; [done|by apply Htail].
  - intros b Hb. left. split; [unfold pages in *; lia|]. apply Hz. clear - Hb. Z.div_mod_to_equations. lia.
  - intros b. unfold avail. cbn [bdata]. split.
    + intros [[Hb Hf]|[Hm Hb]].
      * rewrite Hr' in Hf by (apply Z.div_pos; lia). case_bool_decide as Hc; [done|]. split; [by left|]. clear - Hc. Z.div_mod_to_equations. lia.
      * split; [by right|]. intros Hin. specialize (Htail Hm). rewrite Hz in Htail; [done|]. clear - Hin Hb. Z.div_mod_to_equations. lia.
    + intros [[[Hb Hf]|H] Hn]; [left|by right]. split; [done|]. rewrite Hr' by (apply Z.div_pos; lia). rewrite bool_decide_false; [done|]. clear - Hn. Z.div_mod_to_equations. lia.
Qed.

(** The state but for the hint and the names of the bits. *)
Record same_pages s s' : Prop := {
  sp_ok : node_ok s';
  sp_node : node_min_pfn (bdata s') = node_min_pfn (bdata s) /\ node_low_pfn (bdata s') = node_low_pfn (bdata s);
  sp_avail : forall b, avail s' b <-> avail s b
}.

Lemma same_painted s lo m' : node_ok s -> 0 <= lo -> (forall i, 0 <= i -> bit m' (node_bootmem_map (bdata s)) i = rsv s i) -> (forall p n, longs (bmem s) p n -> longs m' p n) ->
  same_pages s (Boot (hinted lo (bdata s)) m').
Proof.
  intros Hok Hlo Hb Hl. destruct Hok as [Hlim Hmap Hlongs Hrest Hlast Htail Hhint].
  assert (forall i, 0 <= i -> rsv (Boot (hinted lo (bdata s)) m') i = rsv s i) as Hr' by (intros i Hi; exact (Hb i Hi)).
  split; [|done|].
  - split; cbn [bdata bmem hinted with_hint node_min_pfn node_low_pfn node_bootmem_map last_end_off hint_idx]; try done.
    + by apply Hl.
    + intros i Hi. change (pages _) with (pages (bdata s)) in Hi. rewrite Hr' by (unfold pages, node_limits in *; lia). by apply Hrest.
    + intros Hm. rewrite Hr' by (apply Z.div_pos; lia). by apply Htail.
    + change (pages _) with (pages (bdata s)). by apply hinted_bounds.
  - intros b. unfold avail. change (pages (bdata (Boot (hinted lo (bdata s)) m'))) with (pages (bdata s)). change (last_end_off (bdata (Boot (hinted lo (bdata s)) m'))) with (last_end_off (bdata s)).
    split; (intros [[H1 H2]|H]; [left; split; [done|]|by right]); [rewrite Hr' in H2|rewrite Hr']; try done; apply Z.div_pos; lia.
Qed.

Lemma wp_reserve_bootmem s addr size : node_ok s -> 0 < size -> node_min_pfn (bdata s) * 4096 <= addr -> addr + size <= node_low_pfn (bdata s) * 4096 ->
  let lo := addr / 4096 - node_min_pfn (bdata s) in let hi := (addr + size + 4095) / 4096 - node_min_pfn (bdata s) in
  wp (reserve_bootmem addr size BOOTMEM_EXCLUSIVE) (fun r s' =>
    (r = 0 /\ claimed s lo hi s') \/ (r = - EBUSY /\ (exists b, lo * 4096 <= b < hi * 4096 /\ rsv s (b / 4096) = true) /\ same_pages s s')) s.
Proof.
  intros Hok Hsz Ha He lo hi. pose proof (nk_limits _ Hok) as [Hl1 Hl2]. change (2 ^ 20) with 1048576 in *. unfold reserve_bootmem. rewrite PFN_DOWN_div.
  rewrite (wrap_id 32 (addr + size)) by (unfold fits; change (2 ^ 32) with 4294967296; lia). rewrite PFN_UP_div by (change (2 ^ 32) with 4294967296; lia).
  set (min := node_min_pfn (bdata s)) in *. set (a := addr / 4096) in *. set (e := (addr + size + 4095) / 4096) in *.
  assert (min <= a < e /\ e <= node_low_pfn (bdata s)) as [Hr1 Hr2] by (unfold a, e; clear - Hsz Ha He; Z.div_mod_to_equations; lia).
  unfold mark_bootmem, mark_bootmem_with. apply wp_bind, wp_get_bdata. cbv zeta. fold min. rewrite (proj2 (Z.ltb_ge a min)), (proj2 (Z.leb_gt (node_low_pfn (bdata s)) a)) by lia. cbn [orb].
  rewrite Z.min_r by done. apply wp_bind. unfold mark_bootmem_node at 1. apply wp_bind, wp_get_bdata. fold min. apply wp_bind, wp_BUG_ON; [apply Z.ltb_ge; lia|]. apply wp_bind, wp_BUG_ON; [by apply Z.ltb_ge|].
  cbv zeta. rewrite !wrap_id by (unfold fits; change (2 ^ 32) with 4294967296; lia). cbn match.
  apply (wp_reserve s (pages (bdata s))); [apply Hok|lia|unfold pages; fold min; lia| | |by right].
  - intros [?|Hz] m' Hp; [done|]. cbn [andb negb Z.eqb]. rewrite Z.eqb_refl. apply wp_ret. left. split; [done|]. apply claimed_painted; [done|lia|unfold pages; fold min; lia|done|done].
  - intros _ (i & Hi & Hset) m' Hbits Hlongs. cbn [andb negb]. rewrite (proj2 (Z.eqb_neq (- EBUSY) 0)) by done. cbn [negb].
    pose proof (same_painted s (a - min) m' Hok ltac:(lia) Hbits Hlongs) as Hsame. set (s1 := Boot (hinted (a - min) (bdata s)) m') in *.
    destruct (sp_node _ _ Hsame) as [E1 E2]. fold min in E1. apply wp_bind, wp_bind, wp_bind, wp_get_bdata. rewrite E1, E2. rewrite (proj2 (Z.ltb_ge a min)), (proj2 (Z.leb_gt (node_low_pfn (bdata s)) a)) by lia. cbn [orb].
    rewrite Z.min_r by lia. apply wp_bind. apply (wp_mark_free s1 a a); [apply Hsame|lia|lia|change (2 ^ 20) with 1048576; lia|intros b Hb; lia|].
    intros s2 Hrel. cbn [andb]. rewrite Z.eqb_refl. apply wp_ret, wp_ret, wp_ret. right. split; [done|]. split.
    + exists (i * 4096). rewrite Z.div_mul by done. split; [lia|done].
    + destruct (rl_node _ _ _ _ Hrel) as [F1 F2]. split; [apply Hrel|split; [rewrite F1; exact E1|rewrite F2; exact E2]|]. intros b. rewrite (rl_avail _ _ _ _ Hrel), (sp_avail _ _ Hsame). split; [intros [?|?]; [done|lia]|by left].
Qed.

(** ** Clients

    The regions they hold, as address and size: none of their bytes is available and no
    two of them overlap. *)
Definition base s : Z := node_min_pfn (bdata s) * 4096.

Record region_ok s (r : Z * Z) : Prop := {
  ro_size : 0 < r.2;
  ro_in : base s <= r.1 /\ r.1 + r.2 <= node_low_pfn (bdata s) * 4096;
  ro_bytes : forall b, r.1 <= b < r.1 + r.2 -> ~ avail s (b - base s)
}.

Definition regions s (own : list (Z * Z)) : Prop :=
  (forall i r, own !! i = Some r -> region_ok s r) /\
  (forall i j q r b, own !! i = Some q -> own !! j = Some r -> q.1 <= b < q.1 + q.2 -> r.1 <= b < r.1 + r.2 -> i = j).

Definition same_node s s' : Prop := node_min_pfn (bdata s') = node_min_pfn (bdata s) /\ node_low_pfn (bdata s') = node_low_pfn (bdata s).

Lemma region_frame s s' r : same_node s s' -> (forall b, r.1 <= b < r.1 + r.2 -> avail s' (b - base s) -> avail s (b - base s)) -> region_ok s r -> region_ok s' r.
Proof.
  intros [E1 E2] Ha [H1 H2 H3]. unfold base in *. split; unfold base; rewrite ?E1, ?E2; [done|done|]. intros b Hb Hn. by apply (H3 b Hb), Ha.
Qed.

(** A new region of bytes that were available. *)
Lemma regions_add s s' own a z : regions s own -> same_node s s' -> 0 < z -> base s <= a -> a + z <= node_low_pfn (bdata s) * 4096 ->
  (forall b, a <= b < a + z -> avail s (b - base s) /\ ~ avail s' (b - base s)) -> (forall b, avail s' b -> avail s b) -> regions s' ((a, z) :: own).
Proof.
  intros [Hr Hd] Hn Hz Ha He Hb Hless. split.
  - intros [|i] r; cbn.
    + intros [= <-]. destruct Hn as [E1 E2]. unfold base in *. split; unfold base; cbn; rewrite ?E1, ?E2; [done|done|]. intros b Hbr. by apply Hb.
    + intros Hi. eapply region_frame; [done| |by eapply Hr]. intros b _. apply Hless.
  - intros [|i] [|j] q r b; cbn; intros Hi Hj Hq Hrr; [done| | |f_equal; by eapply Hd].
    + injection Hi as <-. exfalso. apply (ro_bytes _ _ (Hr j r Hj) b Hrr). by apply Hb.
    + injection Hj as <-. exfalso. apply (ro_bytes _ _ (Hr i q Hi) b Hq). by apply Hb.
Qed.

(** The pages that lie wholly in a region. *)
Definition inner_first (r : Z * Z) : Z := (r.1 + 4095) / 4096.
Definition inner_end (r : Z * Z) : Z := (r.1 + r.2) / 4096.

Lemma regions_release s s' own i r : regions s own -> own !! i = Some r ->
  released s (inner_first r - node_min_pfn (bdata s)) (inner_end r - node_min_pfn (bdata s)) s' -> regions s' (delete i own).
Proof.
  intros [Hr Hd] Hi Hrel. split.
  - intros j q Hj. apply lookup_delete_other in Hj as (k & Hk & Hq & _). eapply region_frame; [apply Hrel| |by eapply Hr].
    intros b Hb Hav. apply (rl_avail _ _ _ _ Hrel) in Hav as [?|Hin]; [done|]. exfalso. apply Hk. eapply (Hd k i q r b); [done|done|done|].
    unfold inner_first, inner_end, base in *. clear - Hin. Z.div_mod_to_equations. lia.
  - intros j k q t b Hj Hk Hq Ht. apply lookup_delete_other in Hj as (j' & _ & Hj & ->). apply lookup_delete_other in Hk as (k' & _ & Hk & ->). by rewrite (Hd j' k' q t b).
Qed.

Lemma wp_free_region s own i r : node_ok s -> regions s own -> own !! i = Some r ->
  wp (free_bootmem_node r.1 r.2) (fun _ s' => released s (inner_first r - node_min_pfn (bdata s)) (inner_end r - node_min_pfn (bdata s)) s') s.
Proof.
  intros Hok [Hr _] Hi. destruct (Hr i r Hi) as [Hsz [Ha He] Hb]. pose proof (nk_limits _ Hok) as [Hl1 Hl2]. change (2 ^ 20) with 1048576 in *. unfold base in *. unfold free_bootmem_node.
  rewrite (wrap_id 32 (r.1 + r.2)) by (unfold fits; change (2 ^ 32) with 4294967296; lia). rewrite PFN_UP_div by (change (2 ^ 32) with 4294967296; lia). rewrite PFN_DOWN_div.
  fold (inner_first r) (inner_end r). unfold inner_first, inner_end in *. apply wp_bind, wp_mark_free; [done| | | | |].
  - clear - Ha. Z.div_mod_to_equations. lia.
  - clear - Ha He Hsz. Z.div_mod_to_equations. lia.
  - change (2 ^ 20) with 1048576. clear - Ha He Hsz Hl1 Hl2. Z.div_mod_to_equations. lia.
  - intros b Hin. replace b with (b + node_min_pfn (bdata s) * 4096 - node_min_pfn (bdata s) * 4096) by lia. apply Hb. clear - Hin. Z.div_mod_to_equations. lia.
  - intros s' Hrel. by apply wp_ret.
Qed.

(** A request: for [size] bytes at a multiple of 2^k, near an address; to give the [i]-th
    region back; to take a range for oneself. *)
Inductive boot_req := BootAlloc (size k goal : Z) | BootFree (i : nat) | BootReserve (addr size : Z).

Fixpoint boot_served (reqs : list boot_req) (own : list (Z * Z)) s : Prop :=
  match reqs with
  | [] => True
  | BootAlloc size k goal :: reqs =>
      0 < size < 2 ^ 32 - 4095 -> 0 <= k < 32 -> 0 <= goal -> goal + size < 2 ^ 32 ->
      wp (__alloc_bootmem_nopanic size (2 ^ k) goal) (fun r s' =>
        match r with
        | Some addr =>
            (2 ^ k | addr) /\ base s <= addr /\ addr + size <= node_low_pfn (bdata s) * 4096 /\
            (forall b, addr <= b < addr + size -> avail s (b - base s) /\ ~ avail s' (b - base s)) /\
            (forall r b, r ∈ own -> addr <= b < addr + size -> ~ (r.1 <= b < r.1 + r.2)) /\
            boot_served reqs ((addr, size) :: own) s'
        | None => s' = s /\ (forall c, ~ fits_at s k ((size + 4095) / 4096) (pages (bdata s)) c) /\ boot_served reqs own s'
        end) s
  | BootFree i :: reqs =>
      match own !! i with
      | Some r =>
          wp (free_bootmem_node r.1 r.2) (fun _ s' =>
            (forall b, avail s' (b - base s) <-> avail s (b - base s) \/ inner_first r * 4096 <= b < inner_end r * 4096) /\
            boot_served reqs (delete i own) s') s
      | None => boot_served reqs own s
      end
  | BootReserve addr size :: reqs =>
      0 < size -> base s <= addr -> addr + size <= node_low_pfn (bdata s) * 4096 ->
      let lo := addr / 4096 in let hi := (addr + size + 4095) / 4096 in
      wp (reserve_bootmem addr size BOOTMEM_EXCLUSIVE) (fun r s' =>
        (r = 0 /\ (forall b, lo * 4096 <= b < hi * 4096 -> avail s (b - base s)) /\
         (forall b, avail s' (b - base s) <-> avail s (b - base s) /\ ~ (lo * 4096 <= b < hi * 4096)) /\
         boot_served reqs ((lo * 4096, (hi - lo) * 4096) :: own) s') \/
        (r = - EBUSY /\ (exists b, lo * 4096 <= b < hi * 4096 /\ rsv s ((b - base s) / 4096) = true) /\
         (forall b, avail s' b <-> avail s b) /\ boot_served reqs own s')) s
  end.

Lemma regions_served reqs s own : node_ok s -> regions s own -> boot_served reqs own s.
Proof.
  revert s own. induction reqs as [|[size k goal|i|addr size] reqs IH]; intros s own Hok Hown; [done| | |]; cbn [boot_served].
  - intros Hsz Hk Hg Hgs. eapply wp_mono; [by apply wp_alloc_nopanic|]. intros [addr|] s'.
    + intros (off & -> & Hd & _ & Hh). fold (base s). destruct (hd_in _ _ _ _ Hh) as [H0 H1]. assert (base s + off + size <= node_low_pfn (bdata s) * 4096) as He by (unfold base, pages in *; lia).
      assert (forall b, base s + off <= b < base s + off + size -> avail s (b - base s) /\ ~ avail s' (b - base s)) as Hb.
      { intros b Hb. split; [apply (hd_was _ _ _ _ Hh)|apply (hd_now _ _ _ _ Hh)]; lia. }
      split; [done|]. split; [lia|]. split; [done|]. split; [done|]. split.
      * intros r b Hr Hbr Hin. apply list_elem_of_lookup in Hr as [i Hi]. apply (ro_bytes _ _ (proj1 Hown i r Hi) b Hin). by apply Hb.
      * apply IH; [apply Hh|]. destruct (hd_node _ _ _ _ Hh) as (E1 & E2 & _). apply (regions_add s); [done|done|lia|lia|done|done|apply Hh].
    + intros [-> Hno]. split; [done|]. split; [|by apply IH]. intros c Hc. apply (Hno c); [|done]. destruct Hc as [? _]. done.
  - destruct (own !! i) as [r|] eqn:E; [|by apply IH]. eapply wp_mono; [by eapply wp_free_region|]. intros [] s' Hrel. split.
    + intros b. rewrite (rl_avail _ _ _ _ Hrel). unfold base. split; (intros [?|?]; [by left|right; lia]).
    + apply IH; [apply Hrel|by eapply regions_release].
  - intros Hsz Ha He. cbv zeta. eapply wp_mono; [by apply (wp_reserve_bootmem s addr size)|]. intros r s' [[-> Hc]|(-> & Hset & Hs)].
    + left. split; [done|]. split; [intros b Hb; apply (cl_was _ _ _ _ Hc); unfold base in *; lia|]. split.
      { intros b. rewrite (cl_avail _ _ _ _ Hc). unfold base. split; (intros [? ?]; split; [done|lia]). }
      apply IH; [apply Hc|]. destruct (cl_node _ _ _ _ Hc) as [E1 E2]. apply (regions_add s); [done|done| | | | |].
      * clear - Hsz. Z.div_mod_to_equations. lia.
      * unfold base in *. clear - Ha. Z.div_mod_to_equations. lia.
      * clear - He Hsz. Z.div_mod_to_equations. lia.
      * intros b Hb. split; [apply (cl_was _ _ _ _ Hc); unfold base; lia|]. intros Hav. apply (cl_avail _ _ _ _ Hc) in Hav as [_ Hn]. apply Hn. unfold base. lia.
      * intros b Hb. by apply (cl_avail _ _ _ _ Hc) in Hb as [? _].
    + right. split; [done|]. split.
      { destruct Hset as (b & Hb & Hr). exists (b + base s). replace (b + base s - base s) with b by lia. split; [unfold base; lia|done]. }
      split; [apply Hs|]. apply IH; [apply Hs|]. destruct Hown as [Hr Hd]. split; [|done]. intros i q Hi. eapply region_frame; [apply Hs| |by eapply Hr]. intros b _. by apply (sp_avail _ _ Hs).
Qed.

(** ** Starting up *)

Lemma bootmap_bytes_longs n : 0 <= n < 2 ^ 20 -> bootmap_bytes n = 4 * BITS_TO_LONGS n.
Proof.
  change (2 ^ 20) with 1048576. intros Hn. unfold bootmap_bytes. rewrite (wrap_id 32 (n + 7)) by (unfold fits; change (2 ^ 32) with 4294967296; lia).
  destruct (ALIGN_ok ((n + 7) / 8) 2) as [[q Hq] Hr]; [lia|clear - Hn; Z.div_mod_to_equations; lia|change (2 ^ 32) with 4294967296; clear - Hn; Z.div_mod_to_equations; lia|].
  change (2 ^ 2) with 4 in *. rewrite Hq in *. unfold BITS_TO_LONGS, BITS_PER_LONG. clear Hq. Z.div_mod_to_equations. lia.
Qed.

(** Nothing was allocated before, and the memory of the bitmap is there. *)
Record unused s (mapstart start end_ : Z) : Prop := {
  us_limits : 0 <= start < end_ /\ end_ < 2 ^ 20;
  us_data : last_end_off (bdata s) = 0 /\ hint_idx (bdata s) = 0;
  us_map : mapstart <> NULL /\ longs (bmem s) mapstart (BITS_TO_LONGS (end_ - start))
}.

Lemma wp_init s mapstart start end_ : unused s mapstart start end_ ->
  wp (init_bootmem_core mapstart start end_) (fun r s' => r = 4 * BITS_TO_LONGS (end_ - start) /\ node_ok s' /\ regions s' [(start * 4096, (end_ - start) * 4096)] /\
    node_min_pfn (bdata s') = start /\ node_low_pfn (bdata s') = end_) s.
Proof.
  intros [[Hlim Hend] [Hlast Hhint] [Hnull Hlongs]]. unfold init_bootmem_core. apply wp_bind, wp_set_bdata. cbv zeta. set (d := BootmemData _ _ _ _ _). change (2 ^ 20) with 1048576 in Hend.
  rewrite (wrap_id 32 (end_ - start)) by (unfold fits; change (2 ^ 32) with 4294967296; lia). rewrite bootmap_bytes_longs by (change (2 ^ 20) with 1048576; lia).
  rewrite Z.mul_comm, Z.div_mul by done. set (n := BITS_TO_LONGS (end_ - start)) in *. assert (0 <= n) as Hn by (unfold n, BITS_TO_LONGS, BITS_PER_LONG; clear - Hlim; Z.div_mod_to_equations; lia).
  apply wp_bind. apply (wp_for_up (fun k s' => exists m, s' = Boot d m /\ longs m mapstart n /\ forall j, 0 <= j < k -> m !! (mapstart + j) = Some ALL_ONES)); [done| | |].
  { exists (bmem s). split; [done|]. split; [done|]. intros; lia. }
  { intros k s' Hk (m & -> & Hl & Hm). apply wp_on_map. cbn [bmem bdata]. destruct (Hl k Hk) as (w & Hw & _). apply wp_store; [by exists w|].
    eexists. split; [done|]. split; [apply longs_insert; [done|apply fits_ALL_ONES]|]. intros j Hj. destruct (decide (j = k)) as [->|]; [apply lookup_insert_eq|]. rewrite lookup_insert_ne by lia. apply Hm. lia. }
  intros s' (m & -> & Hl & Hm). apply wp_ret. split; [done|].
  assert (forall i, 0 <= i < 32 * n -> rsv (Boot d m) i = true) as Hset.
  { intros i Hi. unfold rsv, bit. cbn [bdata bmem d node_bootmem_map]. rewrite Hm by (clear - Hi; Z.div_mod_to_equations; lia).
    pose proof (Z.mod_pos_bound i 32 ltac:(lia)). rewrite testbit_ALL_ONES by lia. apply Z.ltb_lt. lia. }
  assert (end_ - start <= 32 * n) as Hcover by (unfold n, BITS_TO_LONGS, BITS_PER_LONG; clear; Z.div_mod_to_equations; lia).
  assert (forall b, ~ avail (Boot d m) b) as Hno.
  { intros b [[Hb Hz]|[Hmis _]]; cbn [bdata d last_end_off] in *; [|by rewrite Hlast in Hmis]. rewrite Hset in Hz; [done|]. unfold pages in Hb. cbn in Hb. clear - Hb Hcover. Z.div_mod_to_equations. lia. }
  split.
  - split; cbn [bdata bmem d node_min_pfn node_low_pfn node_bootmem_map last_end_off hint_idx]; unfold pages, node_limits; cbn [bdata d node_min_pfn node_low_pfn].
    + change (2 ^ 20) with 1048576. lia.
    + done.
    + done.
    + intros i Hi. apply Hset. fold n in Hi. lia.
    + lia.
    + rewrite Hlast. done.
    + lia.
  - split; [split|done].
    + intros [|i] r; [intros [= <-]|done]. split; unfold base; cbn; [lia|lia|]. intros b _. apply Hno.
    + intros [|i] [|j] q r b; done.
Qed.

(** ** Properties *)

(** C25: From its initialisation on, when everything is reserved, the boot-time allocator
    serves any sequence of allocations, releases and exclusive reservations without a
    fault: an allocation gives an aligned region of the node that overlaps no region that
    is held, also where it is packed into the last page of another, and fails only when
    no aligned run of free pages is long enough; a release makes the pages that lie wholly
    in the region available; a reservation takes exactly its pages, or returns -EBUSY and
    changes no page. *)
Theorem bootmem_refines_regions s mapstart start end_ reqs : unused s mapstart start end_ ->
  wp (init_bootmem_core mapstart start end_) (fun r s' => r = 4 * BITS_TO_LONGS (end_ - start) /\
    boot_served reqs [(start * 4096, (end_ - start) * 4096)] s') s.
Proof. intros Hu. eapply wp_mono; [by apply wp_init|]. intros r s' (-> & Hok & Hown & _). split; [done|]. by apply regions_served. Qed.

(** C26: With a goal and a limit, alloc_bootmem_core gives an aligned region of the node; its
    bytes were available and are not any more, it takes no page that does not belong to it,
    and it ends at or below the limit, which is rounded down to a whole page; as the code
    has it, a limit of less than a page is none.  It gives NULL, and changes nothing, only
    when no aligned run of free pages fits below that limit from the goal on (from the start
    of the node, when the goal is outside), wherever the last allocation has left its
    hint. *)
Theorem bootmem_alloc_limits s k size goal limit : node_ok s -> 0 <= k < 32 -> 0 < size < 2 ^ 32 - 4095 -> 0 <= goal -> 0 <= limit < 2 ^ 32 ->
  goal + size < 2 ^ 32 -> (limit <> 0 -> goal + size <= limit) ->
  wp (alloc_bootmem_core size (2 ^ k) goal limit) (fun r s' =>
    match r with
    | Some addr => (2 ^ k | addr) /\ base s <= addr /\ addr + size <= node_low_pfn (bdata s) * 4096 /\ (4096 <= limit -> addr + size <= limit) /\ node_ok s' /\
        (forall b, addr <= b < addr + size -> avail s (b - base s) /\ ~ avail s' (b - base s)) /\
        forall i, 0 <= i -> rsv s' i <> rsv s i -> rsv s i = false /\ addr < base s + (i + 1) * 4096 /\ base s + i * 4096 < addr + size
    | None => s' = s /\ forall c, first_idx (bdata s) goal limit <= c ->
        ~ fits_at s k ((size + 4095) / 4096) (last_pfn (bdata s) limit - node_min_pfn (bdata s)) c
    end) s.
Proof.
  intros Hok Hk Hsz Hg Hl Hgs Hgl. eapply wp_mono; [by apply wp_alloc_core|]. intros [addr|] s'; [|done]. intros (off & -> & Hd & He & Hh). fold (base s).
  destruct (hd_in _ _ _ _ Hh) as [H0 _]. destruct (last_pfn_bounds (bdata s) limit) as [Hlow Hlim].
  split; [done|]. split; [lia|]. split; [unfold base; lia|]. split; [unfold base; lia|]. split; [apply Hh|]. split.
  - intros b Hb. split; [apply (hd_was _ _ _ _ Hh)|apply (hd_now _ _ _ _ Hh)]; lia.
  - intros i Hi Hne. destruct (hd_pages _ _ _ _ Hh i Hi) as [?|(Hz & H1 & H2)]; [done|]. split; [done|]. lia.
Qed.

(** C38: free_bootmem stops the machine for every region inside the last page of the node,
    although its comment says that partial pages are left as they are, as
    free_bootmem_node does: it rounds the start up to the end of the node and then finds no
    node for it. *)
Theorem free_bootmem_last_page s addr size : node_ok s -> (node_low_pfn (bdata s) - 1) * 4096 < addr -> 0 < size -> addr + size <= node_low_pfn (bdata s) * 4096 ->
  free_bootmem addr size s = Fault Bug /\ wp (free_bootmem_node addr size) (fun _ s' => forall b, avail s' b <-> avail s b) s.
Proof.
  intros Hok Ha Hsz He. pose proof (nk_limits _ Hok) as [Hl1 Hl2]. change (2 ^ 20) with 1048576 in *.
  assert ((addr + 4095) / 4096 = node_low_pfn (bdata s)) as Eup by (clear - Ha Hsz He; Z.div_mod_to_equations; lia).
  assert (node_low_pfn (bdata s) - 1 <= (addr + size) / 4096 <= node_low_pfn (bdata s)) as Hdn by (clear - Ha Hsz He; Z.div_mod_to_equations; lia).
  unfold free_bootmem, free_bootmem_node. rewrite (wrap_id 32 (addr + size)) by (unfold fits; change (2 ^ 32) with 4294967296; lia).
  rewrite PFN_UP_div by (change (2 ^ 32) with 4294967296; lia). rewrite PFN_DOWN_div, Eup. split.
  - unfold mark_bootmem, mark_bootmem_with, mbind, M_bind, get_bdata. cbv zeta. rewrite (proj2 (Z.leb_le _ _) (Z.le_refl (node_low_pfn (bdata s)))), orb_true_r. done.
  - apply wp_bind, wp_mark_free; [done|lia|lia|change (2 ^ 20) with 1048576; lia|intros b Hb; lia|]. intros s' Hrel. apply wp_ret. intros b. rewrite (rl_avail _ _ _ _ Hrel). split; [intros [?|?]; [done|lia]|by left].
Qed.

(** *** A node of 70 pages *)

Definition example_boot_node : boot := Boot (BootmemData 0 0 0 0 0) (list_to_map ((fun i => (100 + i, 0)) <$> seqZ 0 3)).

(** When the page that the last allocation ends in is given back as a whole, the
    allocator still packs the next region into it without reserving the page, if that
    region is asked for at the page behind; the page is then handed out again, so that two
    regions in use overlap. *)
Theorem bootmem_freed_page_shared :
  match
    (init_bootmem_core 100 5 75 ;;
     free_bootmem (5 * 4096) (2 * 4096) ;;
     a ← __alloc_bootmem 100 32 0;
     free_bootmem (5 * 4096) 4096 ;;
     b ← __alloc_bootmem 200 32 (6 * 4096);
     c ← __alloc_bootmem 4096 4096 0;
     d ← __alloc_bootmem 4096 4096 0;
     mret (a, b, c, d)) example_boot_node
  with
  | Ok ((a, b, c, d), _) => a = 5 * 4096 /\ c = 6 * 4096 /\ d < b /\ b + 200 <= d + 4096
  | Fault _ => False
  end.
Proof. vm_compute. split; [reflexivity|]. split; [reflexivity|]. split; [reflexivity|]. intros H. discriminate H. Qed.

Lemma example_unused : unused example_boot_node 100 5 75.
Proof.
  split; [|done|].
  - change (2 ^ 20) with 1048576. lia.
  - split; [done|]. change (BITS_TO_LONGS (75 - 5)) with (Z.of_nat 3). apply longs_b_sound. vm_compute. reflexivity.
Qed.

Lemma bootmem_refines_regions_witness :
  wp (init_bootmem_core 100 5 75) (fun r s' => r = 12 /\
    boot_served [BootFree 0; BootAlloc 100 5 0; BootReserve 0x8000 0x1000; BootAlloc 9000 13 0x20000; BootFree 0; BootAlloc 4096 3 0] [(20480, 286720)] s') example_boot_node.
Proof. apply (bootmem_refines_regions example_boot_node 100 5 75). apply example_unused. Defined.

(** Twenty pages of the example node are free; a region of 9000 bytes is asked for below
    the address 0x12000. *)
Lemma bootmem_alloc_limits_witness :
  wp (init_bootmem_core 100 5 75 ;; free_bootmem_node (8 * 4096) (20 * 4096) ;; alloc_bootmem_core 9000 32 0xb000 0x12000) (fun r _ =>
    exists addr, r = Some addr /\ (32 | addr) /\ addr + 9000 <= 0x12000) example_boot_node.
Proof.
  assert (wp (init_bootmem_core 100 5 75 ;; free_bootmem_node (8 * 4096) (20 * 4096)) (fun _ s => wp (alloc_bootmem_core 9000 32 0xb000 0x12000) (fun r _ => r = Some 0xb000) s) example_boot_node) as Hrun
    by (vm_compute; reflexivity).
  assert (wp (init_bootmem_core 100 5 75 ;; free_bootmem_node (8 * 4096) (20 * 4096)) (fun _ s => node_ok s) example_boot_node) as Hok.
  { apply wp_bind. eapply wp_mono; [apply (wp_init example_boot_node 100 5 75), example_unused|]. intros r s (_ & Hok & Hreg & _).
    eapply wp_mono; [apply (wp_free_region s [(8 * 4096, 20 * 4096)] 0 (8 * 4096, 20 * 4096) Hok)|]; [|reflexivity|intros [] s' Hrel; apply Hrel].
    destruct (proj1 Hreg 0%nat _ eq_refl) as [_ H1 H2]. cbn in H1, H2. split; [|intros [|i] [|j] q r' b; done].
    intros [|i] q; [intros [= <-]|done]. split; cbn; [lia|lia|]. intros b Hb. apply H2. lia. }
  apply wp_assoc, wp_bind. unfold wp in *. destruct ((init_bootmem_core 100 5 75 ;; free_bootmem_node (8 * 4096) (20 * 4096)) example_boot_node) as [[[] s]|]; [|exact Hok].
  pose proof (bootmem_alloc_limits s 5 9000 0xb000 0x12000 Hok ltac:(lia) ltac:(lia) ltac:(lia) ltac:(lia) ltac:(lia) ltac:(lia)) as H. unfold wp in H.
  change (2 ^ 5) with 32 in H. destruct (alloc_bootmem_core 9000 32 0xb000 0x12000 s) as [[r s']|]; [|exact Hrun]. subst r. destruct H as (Hd & _ & _ & Hl & _).
  exists 0xb000. split; [reflexivity|]. split; [exact Hd|]. apply Hl. lia.
Defined.

Lemma free_bootmem_last_page_witness :
  wp (init_bootmem_core 100 5 75) (fun _ s => node_low_pfn (bdata s) = 75 /\ free_bootmem (74 * 4096 + 8) 100 s = Fault Bug) example_boot_node.
Proof.
  eapply wp_mono; [apply (wp_init example_boot_node 100 5 75), example_unused|]. intros r s (_ & Hok & _ & _ & E). split; [exact E|].
  apply (free_bootmem_last_page s (74 * 4096 + 8) 100 Hok); rewrite ?E; lia.
Defined.
