(* ===== verification/FreeBootmem.v ===== *)
(** * The end of boot: memory goes from the boot-time allocator to the page allocator

    free_all_bootmem_core of mm/bootmem.c and __free_pages_bootmem of mm/page_alloc.c.  They
    read the bitmap of Bootmem.v and release the pages that are not reserved, word by word,
    to the zone of Buddy.v through the front end of PageAlloc.v; the pages of the bitmap
    itself go last.  A page is its number, so pfn_to_page is the identity. *)

From S2P Require Import Prelude Bitops Buddy PageAlloc Bootmem.

#[local] Arguments loop : simpl never.

(** ** The code *)

(** Both allocators at the end of boot. *)
Record machine := Machine { hboot : boot; hzone : state }.

Abbreviation HM := (ST machine).

Definition on_boot {A} (c : ST boot A) : HM A := fun m =>
  match c (hboot m) with
  | Ok (a, b) => Ok (a, Machine b (hzone m))
  | Fault f => Fault f
  end.

Definition on_zone {A} (c : ST state A) : HM A := fun m =>
  match c (hzone m) with
  | Ok (a, z) => Ok (a, Machine (hboot m) z)
  | Fault f => Fault f
  end.

Section FreeBootmem.
Context (zn : zone).

Definition __free_pages_bootmem (page order : Z) : ST state unit :=
  if order =? 0 then
    ClearPageFlag PG_reserved page ;;
    page_update page (with_count 0) ;;
    set_page_refcounted page ;;
    __free_pages zn page 0
  else
    for_up 0 BITS_PER_LONG (fun i =>
      ClearPageFlag PG_reserved (page + i) ;;
      page_update (page + i) (with_count 0)) ;;
    set_page_refcounted page ;;
    __free_pages zn page order.

(** The pages of one word of the bitmap, one by one: [vec] has a bit for each that is not
    reserved. *)
Definition free_word (start vec count : Z) : HM Z :=
  loop 33 (fun '(vec, off, count) =>
    if negb (vec =? 0) && (off <? BITS_PER_LONG) then
      count ← (if negb (Z.land vec 1 =? 0)
               then on_zone (__free_pages_bootmem (start + off) 0) ;; mret (u32 (count + 1))
               else mret count);
      continue (Z.shiftr vec 1, off + 1, count)
    else break count) (vec, 0, count).

(** [virt_to_page]: the page in which an address of the bitmap's memory lies. *)
Definition free_all_bootmem_core (virt_to_page : Z -> Z) : HM Z :=
  d ← on_boot get_bdata;
  if node_bootmem_map d =? NULL then mret 0
  else
    let end_ := node_low_pfn d in
    let aligned := Z.land (node_min_pfn d) (BITS_PER_LONG - 1) =? 0 in
    count ← loop (S (Z.to_nat (end_ - node_min_pfn d))) (fun '(start, count) =>
      if start <? end_ then
        let idx := u32 (start - node_min_pfn d) in
        w ← on_boot (on_map (load (node_bootmem_map d + idx / BITS_PER_LONG)));
        let vec := not32 w in
        count ← (if aligned && (vec =? ALL_ONES) && (u32 (start + BITS_PER_LONG) <? end_)
                 then on_zone (__free_pages_bootmem start 5) ;; mret (u32 (count + BITS_PER_LONG))
                 else free_word start vec count);
        continue (u32 (start + BITS_PER_LONG), count)
      else break count) (node_min_pfn d, 0);
    let page := virt_to_page (node_bootmem_map d) in
    let pages := bootmem_bootmap_pages (u32 (node_low_pfn d - node_min_pfn d)) in
    let count := u32 (count + pages) in
    for_up 0 pages (fun i => on_zone (__free_pages_bootmem (page + i) 0)) ;;
    mret count.

Definition free_all_bootmem (virt_to_page : Z -> Z) : HM Z := free_all_bootmem_core virt_to_page.

(** ** One page and one word of pages *)

Implicit Types (s : state) (b : boot).

Lemma wp_on_boot {A} (c : ST boot A) (Q : A -> machine -> Prop) m : wp c (fun a b => Q a (Machine b (hzone m))) (hboot m) -> wp (on_boot c) Q m.
Proof. unfold wp, on_boot. by destruct (c (hboot m)) as [[a b]|]. Qed.

Lemma wp_on_zone {A} (c : ST state A) (Q : A -> machine -> Prop) m : wp c (fun a z => Q a (Machine (hboot m) z)) (hzone m) -> wp (on_zone c) Q m.
Proof. unfold wp, on_zone. by destruct (c (hzone m)) as [[a z]|]. Qed.

(** A page as the initialisation of the memory map leaves it: reserved or not, but nothing
    else keeps it from being freed. *)
Definition boot_page (pg : Buddy.page) : Prop :=
  pg_mapcount pg = -1 /\ pg_mapping pg = 0 /\ PageTail pg = false /\ fits NR_PAGEFLAGS (pg_flags pg) /\
  has (Z.clearbit (Z.clearbit (pg_flags pg) PG_reserved) PG_mlocked) PAGE_FLAGS_CHECK_AT_FREE = false.

Definition unreserve (pg : Buddy.page) : Buddy.page := with_count 0 (with_flags (fun f => Z.clearbit f PG_reserved) pg).

Lemma fits_ldiff w f g : 0 <= w -> fits w f -> fits w (Z.ldiff f g).
Proof.
  intros Hw Hf. apply fits_of_bits; [done| |].
  - apply Z.ldiff_nonneg. left. apply Hf.
  - intros i Hi. by rewrite Z.ldiff_spec, (fits_testbit_high w f i).
Qed.

Lemma unreserve_settled o pg : boot_page pg -> settled_page o (unreserve pg) /\ PageTail (unreserve pg) = false.
Proof.
  intros (Hm & Hp & Ht & Hf & Hc). split.
  - split; [done|]. split; [by left|]. cbn [pg_flags unreserve with_count with_flags]. split; [by apply fits_ldiff|done].
  - unfold PageTail in *. cbn [pg_flags unreserve with_count with_flags]. rewrite Z.clearbit_neq by done. done.
Qed.

(** The page waits for release: it is in the zone, and neither allocator has it. *)
Definition waiting s (x : Z) : Prop := in_zone zn x /\ ~ idle (lists s) x /\ exists pg, mem_map s !! x = Some pg /\ boot_page pg.

Lemma wp_unreserve s x pg (Q : unit -> state -> Prop) : mem_map s !! x = Some pg -> Q tt (with_pages (insert x (unreserve pg)) s) ->
  wp (ClearPageFlag PG_reserved x ;; page_update x (with_count 0)) Q s.
Proof. intros Hx HQ. apply wp_bind, (wp_page_update _ pg); [done|]. eapply wp_page_update; [apply lookup_insert_eq|]. by rewrite with_pages_twice. Qed.

(** A page that is not idle may be changed, but for its zone and its mark. *)
Lemma finv_page s x pg pg' : finv zn s -> in_zone zn x -> ~ idle (lists s) x -> mem_map s !! x = Some pg -> pg_zone_id pg' = pg_zone_id pg ->
  PageBuddy pg' = PageBuddy pg -> finv zn (with_pages (insert x pg') s).
Proof.
  intros [Hi Hcnt] Hz Hid Hpg Hzid Hb. assert (~ free_page (lists s) x) as Hf by (intros Hf; apply Hid; by left). split; [|done].
  eapply (inv_recount zn s); [done| |done|done|done|done]. apply (core_page _ _ _ _ pg); [apply Hi|done|done|done| |intros Hp; destruct Hid; by right].
  intros _. rewrite Hb. by eapply core_unmarked; [apply Hi|..].
Qed.

Lemma unreserve_marks pg : pg_zone_id (unreserve pg) = pg_zone_id pg /\ PageBuddy (unreserve pg) = PageBuddy pg.
Proof. split; [done|]. unfold PageBuddy. cbn [pg_flags unreserve with_count with_flags]. by rewrite Z.clearbit_neq. Qed.

(** The first [k] pages of a block have been made ready. *)
Record readied s (p k : Z) s' : Prop := {
  rd_inv : finv zn s';
  rd_lists : lists s' = lists s;
  rd_taint : tainted s' = tainted s;
  rd_out : forall x, ~ p <= x < p + k -> mem_map s' !! x = mem_map s !! x;
  rd_in : forall x, p <= x < p + k -> exists pg, mem_map s' !! x = Some (unreserve pg) /\ boot_page pg
}.

Lemma readied_next s p k s' (Q : unit -> state -> Prop) : readied s p k s' -> 0 <= k -> waiting s (p + k) ->
  (forall s'', readied s p (k + 1) s'' -> Q tt s'') -> wp (ClearPageFlag PG_reserved (p + k) ;; page_update (p + k) (with_count 0)) Q s'.
Proof.
  intros [R1 R2 R3 R4 R5] Hk (Hz & Hid & pg & Hpg & Hb) HQ. assert (mem_map s' !! (p + k) = Some pg) as Hpg' by (rewrite R4 by lia; done).
  apply (wp_unreserve _ _ pg); [done|]. apply HQ. destruct (unreserve_marks pg) as [E1 E2]. split; [|done|done| |].
  - apply (finv_page _ _ pg); try done. by rewrite R2.
  - intros x Hx. cbn [mem_map with_pages]. rewrite lookup_insert_ne by lia. apply R4. lia.
  - intros x Hx. cbn [mem_map with_pages]. destruct (decide (x = p + k)) as [->|]; [exists pg; by rewrite lookup_insert_eq|]. rewrite lookup_insert_ne by lia. apply R5. lia.
Qed.

(** The last steps: the count of the first page is one, and the block is released. *)
Lemma wp_release_readied s p o s' : pcp_ok zn -> block zn p o -> readied s p (2 ^ o) s' -> (forall x, range p o x -> ~ idle (lists s) x) ->
  wp (set_page_refcounted p ;; __free_pages zn p o) (fun _ s'' => returned zn s (range p o) s'') s'.
Proof.
  intros Hpcp Hb [R1 R2 R3 R4 R5] Hbusy. destruct (order_bounds _ _ _ Hb) as (_ & _ & Hpow). assert (range p o p) as Hp by (apply range_start; destruct Hb as [? _]; lia).
  destruct (R5 p Hp) as (pg & Hpg & Hbp). destruct (unreserve_settled o pg Hbp) as [Hset Ht].
  apply wp_bind, (wp_page_update _ (unreserve pg)); [done|]. set (s2 := with_pages _ s').
  assert (finv zn s2) as Hf2 by (apply (finv_page _ _ (unreserve pg)); [done|by apply Hb|rewrite R2; auto|done|done|done]).
  eapply wp_mono; [apply (wp___free_pages zn s2 p o Hf2 Hpcp)|].
  - split; [done| | |].
    + intros x Hx. cbn [lists s2 with_pages]. rewrite R2. auto.
    + exists (with_count 1 (unreserve pg)). split; [apply lookup_insert_eq|]. split; [done|]. split; [done|done].
    + intros x Hx Hne. destruct (R5 x Hx) as (xg & Hxg & Hbx). destruct (unreserve_settled o xg Hbx) as [Hset' Ht']. exists (unreserve xg).
      cbn [mem_map s2 with_pages]. rewrite lookup_insert_ne by done. split; [done|]. split; [done|]. split; [done|]. by rewrite Ht'.
  - intros [] s3 [[T1 T2 T3 T4] _]. cbn [lists mem_map tainted s2 with_pages] in *. rewrite R2 in *. split; [done|done| |by rewrite T4].
    intros x Hx. rewrite T3 by done. rewrite lookup_insert_ne by (intros <-; apply Hx; by right). apply R4. intros Hr. apply Hx. by right.
Qed.

(** Both kinds of release: a single page, and as many pages as a word has bits. *)
Lemma wp_free_pages_bootmem s p o : finv zn s -> pcp_ok zn -> o = 0 \/ o = 5 -> block zn p o -> (forall x, range p o x -> waiting s x) ->
  wp (__free_pages_bootmem p o) (fun _ s' => returned zn s (range p o) s') s.
Proof.
  intros Hf Hpcp Ho Hb Hw. assert (readied s p 0 s) as H0 by (split; [done|done|done|done|intros; lia]).
  assert (forall x, range p o x -> ~ idle (lists s) x) as Hbusy by (intros x Hx; by apply Hw).
  unfold __free_pages_bootmem. destruct Ho as [->| ->]; cbn [Z.eqb]; cbv iota.
  - apply wp_assoc, wp_bind. pose proof (readied_next s p 0 s) as Hn. rewrite Z.add_0_r in Hn.
    apply Hn; [done|lia|apply Hw, range_start; lia|]. intros s1 Hr. by apply wp_release_readied.
  - apply wp_bind. apply (wp_for_up (fun k s' => readied s p k s')); [done|done| |].
    + intros k s' Hk Hr. apply (readied_next s p k s'); [done|lia|apply Hw; unfold range, BITS_PER_LONG in *; lia|done].
    + intros s1 Hr. by apply wp_release_readied.
Qed.

(** ** The pages of the bitmap's clear bits *)

Lemma returned_iff s (R R' : Z -> Prop) s' : (forall x, R x <-> R' x) -> returned zn s R s' -> returned zn s R' s'.
Proof. intros HR [T1 T2 T3 T4]. split; [done| | |done]; intros x; [rewrite T2, HR|rewrite <- HR; apply T3]; done. Qed.

(** A release on top of earlier ones. *)
Lemma wp_release_more s0 R s p o : returned zn s0 R s -> pcp_ok zn -> o = 0 \/ o = 5 -> block zn p o -> (forall x, range p o x -> waiting s0 x /\ ~ R x) ->
  wp (__free_pages_bootmem p o) (fun _ s' => returned zn s0 (fun x => R x \/ range p o x) s') s.
Proof.
  intros [T1 T2 T3 T4] Hpcp Ho Hb Hw. eapply wp_mono; [apply (wp_free_pages_bootmem s p o T1 Hpcp Ho Hb)|].
  - intros x Hx. destruct (Hw x Hx) as [(Hz & Hid & Hpg) HR]. split; [done|]. rewrite T2, T3 by tauto. split; [tauto|done].
  - intros [] s' [U1 U2 U3 U4]. split; [done| | |by rewrite U4].
    + intros x. rewrite U2, T2. tauto.
    + intros x Hx. rewrite U3 by (rewrite T2; tauto). apply T3. tauto.
Qed.

Lemma block_one x : in_zone zn x -> block zn x 0.
Proof. intros Hx. split; [done|]. split; [apply Z.mod_1_r|]. intros y. rewrite range_0. by intros ->. Qed.

(** The number of clear bits below [n], and their pages. *)
Definition spare b (n : Z) : Z := Z.of_nat (length (filter (fun i => rsv b i = false) (seqZ 0 n))).
Definition spared b (n x : Z) : Prop := exists i, 0 <= i < n /\ rsv b i = false /\ x = node_min_pfn (bdata b) + i.

Lemma spare_next b n : 0 <= n -> spare b (n + 1) = spare b n + (if rsv b n then 0 else 1).
Proof.
  intros Hn. unfold spare. rewrite (seqZ_app 0 n 1), filter_app, length_app, Nat2Z.inj_add by lia. f_equal.
  rewrite (seqZ_cons (0 + n) 1), (seqZ_nil _ (Z.pred 1)), filter_cons, Z.add_0_l by lia. by destruct (rsv b n).
Qed.

Lemma spare_run b v n k : 0 <= n -> 0 <= k -> (forall i, n <= i < n + k -> rsv b i = v) -> spare b (n + k) = spare b n + (if v then 0 else k).
Proof.
  intros Hn Hk. pattern k. apply natlike_ind; [intros _; rewrite Z.add_0_r; destruct v; lia| |done]. clear k Hk. intros k Hk IH Hv.
  replace (n + Z.succ k) with (n + k + 1) by lia. rewrite spare_next, IH, Hv by (intros; try apply Hv; lia). destruct v; lia.
Qed.

Lemma spare_bounds b n : 0 <= n -> 0 <= spare b n <= n.
Proof. intros Hn. unfold spare. split; [lia|]. transitivity (Z.of_nat (length (seqZ 0 n))); [apply Nat2Z.inj_le, length_filter|]. rewrite length_seqZ. lia. Qed.

Lemma spared_run b v n k x : 0 <= n -> 0 <= k -> (forall i, n <= i < n + k -> rsv b i = v) ->
  spared b (n + k) x <-> spared b n x \/ (v = false /\ node_min_pfn (bdata b) + n <= x < node_min_pfn (bdata b) + n + k).
Proof.
  intros Hn Hk Hv. split.
  - intros (i & Hi & Hz & ->). destruct (Z.lt_ge_cases i n); [left; by exists i; split; [lia|]|]. right. rewrite Hv in Hz by lia. split; [done|lia].
  - intros [(i & Hi & Hz & ->)|[-> Hx]]; [by exists i; split; [lia|]|]. exists (x - node_min_pfn (bdata b)). split; [lia|]. split; [apply Hv; lia|lia].
Qed.

(** The bits below [n] have been dealt with. *)
Definition progress b s0 (n count : Z) (m : machine) : Prop :=
  hboot m = b /\ returned zn s0 (spared b n) (hzone m) /\ count = spare b n.

Lemma progress_run b s0 n k count m : 0 <= n -> 0 <= k -> (forall i, n <= i < n + k -> rsv b i = true) -> progress b s0 n count m -> progress b s0 (n + k) count m.
Proof.
  intros Hn Hk Hv (H1 & H2 & H3). split; [done|]. split; [|rewrite (spare_run _ true) by done; lia].
  eapply returned_iff; [|done]. intros x. rewrite (spared_run _ true) by done. split; [by left|]. by intros [?|[? _]].
Qed.

(** The pages of clear bits are waiting. *)
Definition ready b s : Prop := forall i, 0 <= i < pages (bdata b) -> rsv b i = false -> waiting s (node_min_pfn (bdata b) + i).

Lemma wp_progress b s0 n o count m : node_ok b -> ready b s0 -> pcp_ok zn -> 0 <= n -> o = 0 \/ o = 5 -> n + 2 ^ o <= pages (bdata b) ->
  (node_min_pfn (bdata b) + n) mod 2 ^ o = 0 -> (forall i, n <= i < n + 2 ^ o -> rsv b i = false) -> progress b s0 n count m ->
  wp (on_zone (__free_pages_bootmem (node_min_pfn (bdata b) + n) o) ;; mret (u32 (count + 2 ^ o))) (fun c m' => progress b s0 (n + 2 ^ o) c m') m.
Proof.
  intros Hok Hrd Hpcp Hn Ho He Hal Hv (H1 & H2 & H3). assert (0 <= o) as Ho0 by lia. assert (0 < 2 ^ o) as Hp by (apply Z.pow_pos_nonneg; lia).
  assert (forall x, range (node_min_pfn (bdata b) + n) o x -> waiting s0 x /\ ~ spared b n x) as Hw.
  { intros x Hx. unfold range in Hx. split; [|intros (i & Hi & _ & ->); lia]. replace x with (node_min_pfn (bdata b) + (x - node_min_pfn (bdata b))) by lia. apply Hrd; [lia|apply Hv; lia]. }
  apply wp_bind, wp_on_zone. eapply wp_mono; [apply (wp_release_more s0 (spared b n) (hzone m) _ o H2 Hpcp Ho)|].
  - split; [destruct Ho as [->| ->]; done|]. split; [done|]. intros x Hx. by apply Hw.
  - done.
  - intros [] z Hr. apply wp_ret. split; [done|]. cbn [hzone]. split.
    + eapply returned_iff; [|done]. intros x. rewrite (spared_run b false) by (try done; lia). unfold range. naive_solver lia.
    + rewrite (spare_run b false) by (try done; lia). rewrite H3. pose proof (spare_bounds b n Hn). pose proof (nk_limits _ Hok) as [Hl1 Hl2]. unfold pages in He.
      change (2 ^ 20) with 1048576 in Hl2. apply wrap_id. unfold fits. change (2 ^ 32) with 4294967296. lia.
Qed.

(** ** The loops *)

Lemma land_1 v : negb (Z.land v 1 =? 0) = Z.testbit v 0.
Proof. change 1 with (Z.ones 1). rewrite Z.land_ones, Z.bit0_odd, Zmod_odd by lia. by destruct (Z.odd v). Qed.

Lemma shiftr_0_bits v k i : Z.shiftr v k = 0 -> 0 <= k <= i -> Z.testbit v i = false.
Proof. intros H Hi. replace i with (i - k + k) by lia. rewrite <- Z.shiftr_spec, H by lia. apply Z.bits_0. Qed.

(** What a word of the bitmap says. *)
Definition word_of b (n vec : Z) : Prop := forall k, 0 <= k < 32 -> Z.testbit vec k = negb (rsv b (n + k)).

Lemma wp_free_word b s0 n vec count m : node_ok b -> ready b s0 -> pcp_ok zn -> 0 <= n -> word_of b n vec ->
  (forall i, n <= i < n + 32 -> rsv b i = false -> i < pages (bdata b)) -> progress b s0 n count m ->
  wp (free_word (node_min_pfn (bdata b) + n) vec count) (fun c m' => progress b s0 (n + 32) c m') m.
Proof.
  intros Hok Hrd Hpcp Hn Hvec Hin Hpr. unfold free_word.
  apply (wp_loop (fun '(v, off, c) m => v = Z.shiftr vec off /\ 0 <= off <= 32 /\ progress b s0 (n + off) c m) (fun '(_, off, _) => Z.to_nat (32 - off))).
  { split; [done|]. split; [lia|]. by rewrite Z.add_0_r. }
  { lia. }
  intros [[v off] c] m1 (-> & Hoff & Hp). unfold BITS_PER_LONG. destruct (Z.eqb_spec (Z.shiftr vec off) 0) as [Hz|Hz]; cbn [negb andb].
  - apply wp_ret. replace (n + 32) with (n + off + (32 - off)) by lia. apply progress_run; [lia|lia| |done]. intros i Hi.
    pose proof (Hvec (i - n) ltac:(lia)) as Hb. rewrite (shiftr_0_bits vec off) in Hb by (done || lia). replace (n + (i - n)) with i in Hb by lia. by destruct (rsv b i).
  - destruct (Z.ltb_spec off 32) as [Hlt|Hge]; [|apply wp_ret; by replace off with 32 in Hp by lia].
    assert (Z.testbit (Z.shiftr vec off) 0 = negb (rsv b (n + off))) as Hb by (rewrite Z.shiftr_spec, Z.add_0_l by lia; apply Hvec; lia).
    apply wp_bind, (wp_mono _ (fun c' m' => progress b s0 (n + off + 1) c' m')).
    + rewrite land_1, Hb. destruct (rsv b (n + off)) eqn:E; cbn [negb].
      * apply wp_ret. apply progress_run; [lia|lia| |done]. intros i Hi. by replace i with (n + off) by lia.
      * rewrite <- Z.add_assoc. apply (wp_progress b s0 (n + off) 0); [done|done|done|lia|by left| |apply Z.mod_1_r| |done].
        -- change (2 ^ 0) with 1. specialize (Hin (n + off) ltac:(lia) E). lia.
        -- intros i Hi. change (2 ^ 0) with 1 in Hi. by replace i with (n + off) by lia.
    + intros c' m' Hp'. apply wp_ret. rewrite Z.shiftr_shiftr, Z.add_assoc by lia. split; [|lia]. split; [done|]. split; [lia|done].
Qed.

Lemma bitmap_word b n : node_ok b -> 0 <= n < pages (bdata b) -> n mod 32 = 0 -> exists w, bmem b !! (node_bootmem_map (bdata b) + n / 32) = Some w /\ fits 32 w /\ word_of b n (not32 w).
Proof.
  intros Hok Hn Hm. assert (n / 32 < BITS_TO_LONGS (pages (bdata b))) as Hlt by (unfold BITS_TO_LONGS, BITS_PER_LONG; clear - Hn Hm; Z.div_mod_to_equations; lia).
  destruct (nk_longs _ Hok (n / 32)) as (w & Hw & Hf); [split; [apply Z.div_pos; lia|done]|]. exists w. split; [done|]. split; [done|]. intros k Hk.
  assert ((n + k) / 32 = n / 32 /\ (n + k) mod 32 = k) as [E1 E2] by (clear - Hm Hk; Z.div_mod_to_equations; lia).
  rewrite testbit_not32 by lia. replace (k <? 32) with true by lia. rewrite xorb_true_r. unfold rsv, bit. by rewrite E1, E2, Hw.
Qed.

Lemma not32_ones b n vec : word_of b n vec -> vec = ALL_ONES -> forall i, n <= i < n + 32 -> rsv b i = false.
Proof.
  intros Hw -> i Hi. specialize (Hw (i - n) ltac:(lia)). rewrite testbit_ALL_ONES in Hw by lia. replace (n + (i - n)) with i in Hw by lia.
  replace (i - n <? 32) with true in Hw by lia. by destruct (rsv b i).
Qed.

(** One turn: a word of the bitmap. *)
Lemma wp_word_turn b s0 n w count m : node_ok b -> ready b s0 -> pcp_ok zn -> 0 <= n < pages (bdata b) -> n mod 32 = 0 -> fits 32 w -> word_of b n (not32 w) -> progress b s0 n count m ->
  wp (if (Z.land (node_min_pfn (bdata b)) (BITS_PER_LONG - 1) =? 0) && (not32 w =? ALL_ONES) && (u32 (node_min_pfn (bdata b) + n + BITS_PER_LONG) <? node_low_pfn (bdata b))
      then on_zone (__free_pages_bootmem (node_min_pfn (bdata b) + n) 5) ;; mret (u32 (count + BITS_PER_LONG))
      else free_word (node_min_pfn (bdata b) + n) (not32 w) count) (fun c m' => progress b s0 (n + 32) c m') m.
Proof.
  intros Hok Hrd Hpcp Hn Hm Hf Hw Hpr. pose proof (nk_limits _ Hok) as [Hl1 Hl2]. change (2 ^ 20) with 1048576 in Hl2. unfold pages in Hn. apply wp_if; intros Hc.
  - apply andb_prop in Hc as [[Hal Hones]%andb_prop Hlt]. apply Z.eqb_eq in Hal, Hones. apply Z.ltb_lt in Hlt. unfold BITS_PER_LONG in *.
    rewrite wrap_id in Hlt by (unfold fits; change (2 ^ 32) with 4294967296; lia). apply (wp_progress b s0 n 5); [done|done|done|lia|by right|unfold pages; lia| |by eapply not32_ones|done].
    change (32 - 1) with (Z.ones 5) in Hal. rewrite Z.land_ones in Hal by lia. change (2 ^ 5) with 32 in *. clear - Hm Hal. Z.div_mod_to_equations. lia.
  - apply wp_free_word; [done|done|done|lia|done| |done]. intros i Hi Hz. destruct (Z.lt_ge_cases i (pages (bdata b))) as [?|Hge]; [done|]. rewrite (nk_rest _ Hok) in Hz; [done|].
    split; [done|]. unfold BITS_TO_LONGS, BITS_PER_LONG. unfold pages in *. clear - Hn Hm Hi. Z.div_mod_to_equations. lia.
Qed.

(** What is left when all words are done: the pages of the bitmap. *)
Definition map_pages b : Z := bootmem_bootmap_pages (pages (bdata b)).

Lemma map_pages_bounds b : node_ok b -> 0 <= map_pages b < 2 ^ 20.
Proof.
  intros _. unfold map_pages, bootmem_bootmap_pages, ALIGN. generalize (u32 (page_size - 1)). intros mask. rewrite Z.shiftr_div_pow2 by done.
  set (x := u32 _). assert (fits 32 (Z.ldiff x mask)) as Hx by (apply fits_ldiff, wrap_fits; lia). unfold fits in Hx.
  change (2 ^ 32) with 4294967296 in Hx. change (2 ^ PAGE_SHIFT) with 4096. change (2 ^ 20) with 1048576. clear - Hx. Z.div_mod_to_equations. lia.
Qed.

Lemma wp_free_all b s v2p : node_ok b -> finv zn s -> pcp_ok zn -> ready b s ->
  (forall j, 0 <= j < map_pages b -> waiting s (v2p (node_bootmem_map (bdata b)) + j) /\ ~ spared b (pages (bdata b)) (v2p (node_bootmem_map (bdata b)) + j)) ->
  wp (free_all_bootmem_core v2p) (fun r m' => hboot m' = b /\ r = spare b (pages (bdata b)) + map_pages b /\
    returned zn s (fun x => spared b (pages (bdata b)) x \/ v2p (node_bootmem_map (bdata b)) <= x < v2p (node_bootmem_map (bdata b)) + map_pages b) (hzone m')) (Machine b s).
Proof.
  intros Hok Hf Hpcp Hrd Hmap. pose proof (nk_limits _ Hok) as [Hl1 Hl2]. set (min := node_min_pfn (bdata b)) in *. set (low := node_low_pfn (bdata b)) in *. set (N := pages (bdata b)) in *.
  assert (N = low - min) as EN by done. change (2 ^ 20) with 1048576 in Hl2. pose proof (map_pages_bounds b Hok) as Hnp. change (2 ^ 20) with 1048576 in Hnp. set (pg0 := v2p _) in *.
  unfold free_all_bootmem_core. apply wp_bind, wp_on_boot, wp_get_bdata. cbn [hboot hzone]. rewrite (proj2 (Z.eqb_neq _ _) (nk_map _ Hok)). cbv zeta. fold min low pg0.
  apply wp_bind. apply (wp_loop (fun '(start, c) m => exists n, 0 <= n < N + 32 /\ n mod 32 = 0 /\ start = min + n /\ progress b s n c m) (fun '(start, _) => Z.to_nat (low - start))).
  - exists 0. split; [lia|]. split; [done|]. split; [lia|]. split; [done|]. split; [|done]. split; [done| |done|done]. intros x. split; [by left|]. intros [?|(i & ? & _)]; [done|lia].
  - lia.
  - intros [start c] m (n & Hn & Hm & -> & Hpr). destruct (Z.ltb_spec (min + n) low) as [Hlt|Hge].
    + assert (hboot m = b) as Eb by apply Hpr. rewrite (wrap_id 32 (min + n - min)) by (unfold fits; change (2 ^ 32) with 4294967296; lia). rewrite Z.add_simpl_l.
      destruct (bitmap_word b n Hok) as (w & Hw & Hfw & Hwo); [fold N; lia|done|]. apply wp_bind, wp_on_boot. rewrite Eb. apply wp_on_map, (wp_load _ w); [done|].
      replace (Boot (bdata b) (bmem b)) with b by by destruct b. replace (Machine b (hzone m)) with m by (destruct m; cbn in *; by subst).
      apply wp_bind. eapply wp_mono; [apply (wp_word_turn b s n w c m); try done; fold N; lia|]. intros c' m' Hpr'. apply wp_ret. unfold BITS_PER_LONG.
      rewrite wrap_id by (unfold fits; change (2 ^ 32) with 4294967296; lia). split; [|lia]. exists (n + 32). split; [lia|]. split; [clear - Hm; Z.div_mod_to_equations; lia|]. split; [lia|done].
    + apply wp_ret. destruct Hpr as (Eb & Hret & ->).
      assert (spare b n = spare b N /\ forall x, spared b n x <-> spared b N x) as [Es Hs].
      { replace n with (N + (n - N)) by lia. assert (forall i, N <= i < N + (n - N) -> rsv b i = true) as Hr.
        { intros i Hi. apply (nk_rest _ Hok). fold N. unfold BITS_TO_LONGS, BITS_PER_LONG. clear - Hi Hn Hm. Z.div_mod_to_equations. lia. }
        split; [rewrite (spare_run b true) by (done || lia); lia|]. intros x. rewrite (spared_run b true) by (done || lia). split; [by intros [?|[? _]]|by left]. }
      rewrite Es. rewrite (wrap_id 32 (low - min)) by (unfold fits; change (2 ^ 32) with 4294967296; lia). rewrite <- EN. change (bootmem_bootmap_pages N) with (map_pages b).
      pose proof (spare_bounds b N ltac:(lia)) as Hsp. rewrite (wrap_id 32 (spare b N + map_pages b)) by (unfold fits; change (2 ^ 32) with 4294967296; lia).
      apply wp_bind. apply (wp_for_up (fun j m' => hboot m' = b /\ returned zn s (fun x => spared b N x \/ pg0 <= x < pg0 + j) (hzone m'))); [lia| | |].
      * split; [done|]. eapply returned_iff; [|done]. intros x. rewrite Hs. split; [by left|]. intros [?|?]; [done|lia].
      * intros j m' Hj [Eb' Hr]. apply wp_on_zone. destruct (Hmap j Hj) as [Hw Hns]. eapply wp_mono; [apply (wp_release_more s _ _ (pg0 + j) 0 Hr Hpcp); [by left|apply block_one, Hw|]|].
        -- intros x ->%range_0. split; [done|]. intros [?|?]; [done|lia].
        -- intros [] z Hr'. split; [done|]. eapply returned_iff; [|done]. intros x. cbn beta. rewrite range_0.
           split; [intros [[?|?]|?]; [by left|right; lia|right; lia]|]. intros [?|?]; [by left; left|]. destruct (decide (x = pg0 + j)); [by right|left; right; lia].
      * intros m' [Eb' Hr]. apply wp_ret. done.
Qed.

(** ** Together with the clients of the boot-time allocator *)

Lemma region_reserved b own i q x : node_ok b -> regions b own -> own !! i = Some q -> q.1 < (x + 1) * 4096 -> x * 4096 < q.1 + q.2 ->
  node_min_pfn (bdata b) <= x < node_low_pfn (bdata b) /\ ~ spared b (pages (bdata b)) x.
Proof.
  intros Hok [Hr _] Hi H1 H2. destruct (Hr i q Hi) as [Hsz [Ha He] Hb]. unfold base in *.
  assert (node_min_pfn (bdata b) <= x < node_low_pfn (bdata b)) as Hx by lia. split; [done|]. intros (k & Hk & Hz & ->).
  set (a := Z.max q.1 ((node_min_pfn (bdata b) + k) * 4096)). apply (Hb a); [lia|]. left.
  assert ((a - node_min_pfn (bdata b) * 4096) / 4096 = k) as -> by (subst a; clear - H1 H2 Ha Hsz; Z.div_mod_to_equations; lia). split; [|done]. subst a. lia.
Qed.

Lemma wp_handover b s v2p own i : node_ok b -> regions b own -> own !! i = Some (v2p (node_bootmem_map (bdata b)) * 4096, map_pages b * 4096) -> finv zn s -> pcp_ok zn ->
  (forall x, node_min_pfn (bdata b) <= x < node_low_pfn (bdata b) -> waiting s x) ->
  wp (free_all_bootmem_core v2p) (fun r m' => hboot m' = b /\ r = spare b (pages (bdata b)) + map_pages b /\
    returned zn s (fun x => spared b (pages (bdata b)) x \/ v2p (node_bootmem_map (bdata b)) <= x < v2p (node_bootmem_map (bdata b)) + map_pages b) (hzone m')) (Machine b s).
Proof.
  intros Hok Hown Hi Hf Hpcp Hw. apply wp_free_all; [done|done|done| |].
  - intros k Hk Hz. apply Hw. unfold pages in Hk. lia.
  - intros j Hj. destruct (region_reserved b own i _ (v2p (node_bootmem_map (bdata b)) + j) Hok Hown Hi) as [Hx Hns]; cbn [fst snd]; [lia|lia|]. split; [by apply Hw|done].
Qed.

End FreeBootmem.

(** ** Properties *)

(** C24: The end of boot: free_all_bootmem_core gives the page allocator exactly the pages that
    the boot-time allocator has not reserved and the pages of its bitmap, in whole words or
    one by one, and returns their number; its invariant holds then, so that it serves any
    requests, and no page that a region of a boot client reaches into is among its idle
    pages or has been touched. *)
Theorem bootmem_handover zn b s v2p own i reqs :
  node_ok b -> regions b own -> own !! i = Some (v2p (node_bootmem_map (bdata b)) * 4096, map_pages b * 4096) -> finv zn s -> pcp_ok zn ->
  (forall x, node_min_pfn (bdata b) <= x < node_low_pfn (bdata b) -> waiting zn s x) ->
  wp (free_all_bootmem_core zn v2p) (fun r m' => let s' := hzone m' in
    r = spare b (pages (bdata b)) + map_pages b /\ finv zn s' /\ pages_served zn reqs [] s' /\
    (forall x, idle (lists s') x <-> idle (lists s) x \/ spared b (pages (bdata b)) x \/ v2p (node_bootmem_map (bdata b)) <= x < v2p (node_bootmem_map (bdata b)) + map_pages b) /\
    (forall j q x, own !! j = Some q -> j <> i -> q.1 < (x + 1) * 4096 -> x * 4096 < q.1 + q.2 -> ~ idle (lists s') x /\ mem_map s' !! x = mem_map s !! x)) (Machine b s).
Proof.
  intros Hok Hown Hi Hf Hpcp Hw. eapply wp_mono; [by apply (wp_handover zn b s v2p own i)|]. cbv zeta. intros r m' (_ & -> & Hr). split; [done|]. split; [apply Hr|].
  split; [apply alloc_served; [done|apply Hr|split; intros [|?] **; done]|]. split; [apply Hr|]. intros j q x Hj Hne H1 H2.
  destruct (region_reserved b own j q x Hok Hown Hj H1 H2) as [Hx Hns]. destruct (Hw x Hx) as (_ & Hid & _).
  assert (~ (idle (lists s) x \/ spared b (pages (bdata b)) x \/ v2p (node_bootmem_map (bdata b)) <= x < v2p (node_bootmem_map (bdata b)) + map_pages b)) as Hno.
  { intros [?|[?|Hm]]; [done|done|]. apply Hne. apply (proj2 Hown j i q _ (Z.max q.1 (x * 4096)) Hj Hi); cbn [fst snd]; pose proof (ro_size _ _ (proj1 Hown j q Hj)); lia. }
  split; [by rewrite (rt_idle _ _ _ _ Hr)|by apply (rt_pages _ _ _ _ Hr)].
Qed.

(** *** The example zone at the end of boot

    The node has the pages of the example zone; its bitmap is in the first of them, and the
    pages from 1100 to 1999 are made available. *)

Definition example_low_node : boot := Boot (BootmemData 0 0 0 0 0) (list_to_map ((fun i => (100 + i, 0)) <$> seqZ 0 64)).

Lemma example_low_unused : unused example_low_node 100 1024 3072.
Proof.
  split; [|done|].
  - change (2 ^ 20) with 1048576. lia.
  - split; [done|]. change (BITS_TO_LONGS (3072 - 1024)) with (Z.of_nat 64). apply longs_b_sound. vm_compute. reflexivity.
Qed.

Lemma example_waiting z : mem_map z = mem_map example_fresh -> (forall h p, ~ on (lists z) h p) -> forall x, 1024 <= x < 3072 -> waiting example_zone z x.
Proof.
  intros Em Hno x Hx. split; [unfold in_zone; cbn [zone_start_pfn spanned_pages example_zone]; lia|]. split.
  - intros [(p & o & (t & Ht) & _)|Hp]; [by apply (Hno (Free o t) p)|by apply (Hno Pcp x)].
  - exists example_page. rewrite Em, example_lookup, bool_decide_true by lia. split; [reflexivity|]. split; [reflexivity|]. split; [reflexivity|]. split; [reflexivity|].
    split; [change (0 <= 0 < 2 ^ 22); lia|reflexivity].
Qed.

Lemma example_boot_finv : finv example_zone example_boot /\ forall x, 1024 <= x < 3072 -> waiting example_zone example_boot x.
Proof.
  assert (pcp_count example_boot = 0) as Hc by (vm_compute; reflexivity). destruct example_boot_ok as (_ & Hi & Em & Hno). revert Hc Hi Em Hno. generalize example_boot. intros z Hc Hi Em Hno.
  split; [|by apply example_waiting]. split; [done|]. destruct (has_pcp _ (c_lists _ _ _ (i_core _ _ Hi))) as [l El]. unfold len. rewrite El, Hc. cbn.
  destruct l as [|x l]; [done|]. destruct (Hno Pcp x). exists (x :: l). split; [done|]. apply elem_of_cons. by left.
Qed.

(** Parts of a region that do not overlap are regions. *)
Lemma regions_parts b r parts : regions b [r] -> (forall i q, parts !! i = Some q -> 0 < q.2 /\ r.1 <= q.1 /\ q.1 + q.2 <= r.1 + r.2) ->
  (forall i j p q x, parts !! i = Some p -> parts !! j = Some q -> p.1 <= x < p.1 + p.2 -> q.1 <= x < q.1 + q.2 -> i = j) -> regions b parts.
Proof.
  intros [Hr _] Hin Hd. destruct (Hr 0%nat r eq_refl) as [_ H1 H2]. split; [|done]. intros i q Hq. destruct (Hin i q Hq) as (? & ? & ?).
  split; [done|lia|]. intros a Ha. apply H2. lia.
Qed.

Lemma avail_page b i : avail b (i * 4096) -> rsv b i = false.
Proof. intros [[_ H]|[Hm H]]; [by rewrite Z.div_mul in H|]. exfalso. clear - Hm H. Z.div_mod_to_equations. lia. Qed.

Definition example_parts : list (Z * Z) := [(1100 * 4096, 900 * 4096); (1024 * 4096, 4096); (2000 * 4096 + 8, 100)].

Lemma example_node_ready :
  wp (init_bootmem_core 100 1024 3072 ;; free_bootmem_node (1100 * 4096) (900 * 4096)) (fun _ b =>
    node_ok b /\ regions b [(1024 * 4096, 4096); (2000 * 4096 + 8, 100)] /\ node_min_pfn (bdata b) = 1024 /\ node_low_pfn (bdata b) = 3072 /\
    spared b (pages (bdata b)) 1500) example_low_node.
Proof.
  apply wp_bind. eapply wp_mono; [apply (wp_init example_low_node 100 1024 3072), example_low_unused|]. intros r b (_ & Hok & Hreg & E1 & E2).
  assert (regions b example_parts) as Hparts.
  { apply (regions_parts b _ _ Hreg).
    - intros [|[|[|i]]] q; [intros [= <-]|intros [= <-]|intros [= <-]|done]; cbn; lia.
    - intros [|[|[|i]]] [|[|[|j]]] p q x; try done; intros [= <-] [= <-]; cbn; lia. }
  eapply wp_mono; [apply (wp_free_region b example_parts 0 (1100 * 4096, 900 * 4096) Hok Hparts eq_refl)|]. intros [] b' Hrel.
  pose proof (regions_release _ _ _ _ _ Hparts (eq_refl : example_parts !! 0%nat = Some (1100 * 4096, 900 * 4096)) Hrel) as Hreg'.
  destruct (rl_node _ _ _ _ Hrel) as [F1 F2]. rewrite E1 in F1. rewrite E2 in F2.
  split; [apply Hrel|]. split; [exact Hreg'|]. split; [exact F1|]. split; [exact F2|].
  exists 476. unfold pages. rewrite F1, F2. split; [lia|]. split; [|reflexivity].
  apply avail_page. apply (rl_avail _ _ _ _ Hrel). right. rewrite E1.
  change (inner_first _) with 1100. change (inner_end _) with 2000. lia.
Qed.

Lemma bootmem_handover_witness :
  wp (on_boot (init_bootmem_core 100 1024 3072 ;; free_bootmem_node (1100 * 4096) (900 * 4096)) ;; free_all_bootmem_core example_zone (fun _ => 1024)) (fun _ m' =>
    finv example_zone (hzone m') /\ pages_served example_zone [AllocPages 3 0; AllocPages 0 0; FreePages 1; DrainPages] [] (hzone m') /\
    idle (lists (hzone m')) 1500 /\ idle (lists (hzone m')) 1024 /\ ~ idle (lists (hzone m')) 2000) (Machine example_low_node example_boot).
Proof.
  destruct example_boot_finv as [Hf Hw]. revert Hf Hw. generalize example_boot. intros z Hf Hw.
  apply wp_bind, wp_on_boot. eapply wp_mono; [apply example_node_ready|]. cbn [hboot hzone]. intros [] b (Hok & Hreg & E1 & E2 & Hs).
  assert (map_pages b = 1) as Emap by (unfold map_pages, pages; rewrite E1, E2; reflexivity).
  eapply wp_mono; [apply (bootmem_handover example_zone b z (fun _ => 1024) [(1024 * 4096, 4096); (2000 * 4096 + 8, 100)] 0 [AllocPages 3 0; AllocPages 0 0; FreePages 1; DrainPages])|].
  - exact Hok.
  - exact Hreg.
  - rewrite Emap. reflexivity.
  - exact Hf.
  - split; [reflexivity|left; discriminate].
  - rewrite E1, E2. exact Hw.
  - cbv zeta. intros r m' (_ & Hfin & Hserved & Hidle & Hother). split; [exact Hfin|]. split; [exact Hserved|]. split; [|split].
    + apply Hidle. right. left. exact Hs.
    + apply Hidle. right. right. rewrite Emap. lia.
    + apply (Hother 1%nat (2000 * 4096 + 8, 100) 2000); [reflexivity|discriminate|cbn; lia|cbn; lia].
Defined.
