(* ===== verification/Cipher.v ===== *)
(** * The interface of a block cipher

    What crypto/algapi.c provides to the block chaining modes (xor and increment
    of buffers), and what a mode asks of the cipher it wraps: the fields
    cra_blocksize, cia_encrypt and cia_decrypt of struct crypto_alg, and the laws
    the modes rely on.  The memory holds one byte per cell. *)

From S2P Require Import Prelude Blocks.

#[local] Arguments loop : simpl never.

(** ** Buffers (crypto/algapi.c) *)

Definition crypto_xor_byte (a b size : Z) : M unit :=
  loop (S (Z.to_nat size)) (fun '(a, b, size) =>
    if size =? 0 then break tt else
    x ← load a;
    y ← load b;
    store a (Z.lxor x y) ;;
    continue (a + 1, b + 1, size - 1)) (a, b, size).

Definition crypto_xor (dst src size : Z) : M unit :=
  '(a, b, size) ← loop (S (Z.to_nat size)) (fun '(a, b, size) =>
    if 4 <=? size then
      x ← load_le32 a;
      y ← load_le32 b;
      store_le32 a (Z.lxor x y) ;;
      continue (a + 4, b + 4, size - 4)
    else break (a, b, size)) (dst, src, size);
  crypto_xor_byte a b size.

(** be32_to_cpu and cpu_to_be32 of a little-endian processor, as accesses. *)
Definition load_be32 (p : Z) : M Z :=
  b0 ← load p;
  b1 ← load (p + 1);
  b2 ← load (p + 2);
  b3 ← load (p + 3);
  mret (b3 + 256 * (b2 + 256 * (b1 + 256 * b0))).

Definition store_be32 (p w : Z) : M unit :=
  store p (byte 3 w) ;;
  store (p + 1) (byte 2 w) ;;
  store (p + 2) (byte 1 w) ;;
  store (p + 3) (byte 0 w).

Definition crypto_inc_byte (a size : Z) : M unit :=
  loop (S (Z.to_nat size)) (fun '(b, size) =>
    if size =? 0 then break tt else
    let b := b - 1 in
    x ← load b;
    let c := u8 (x + 1) in
    store b c ;;
    if negb (c =? 0) then break tt else continue (b, size - 1)) (a + size, size).

Definition crypto_inc (a size : Z) : M unit :=
  r ← loop (S (Z.to_nat size)) (fun '(b, size) =>
    if 4 <=? size then
      let b := b - 4 in
      x ← load_be32 b;
      let c := u32 (x + 1) in
      store_be32 b c ;;
      if negb (c =? 0) then break None else continue (b, size - 4)
    else break (Some size)) (a + size, size);
  match r with
  | None => mret tt
  | Some size => crypto_inc_byte a size
  end.

(** ** The cipher interface *)

(** struct crypto_alg, as a block chaining mode uses it; a context is part of
    the instance.  cia_encrypt and cia_decrypt take the destination first. *)
Class Cipher := {
  cra_blocksize : Z;
  cia_encrypt : Z -> Z -> M unit;
  cia_decrypt : Z -> Z -> M unit;
}.

(** The laws.  Both routines read the source block before they write the
    destination, so that they may work in place, and touch nothing else. *)
Class CipherLaws (C : Cipher) := {
  E : list Z -> list Z;
  D : list Z -> list Z;
  blocksize_range : 0 < cra_blocksize < 2 ^ 32;
  E_block x : block cra_blocksize x -> block cra_blocksize (E x);
  D_block x : block cra_blocksize x -> block cra_blocksize (D x);
  D_E x : block cra_blocksize x -> D (E x) = x;
  encrypt_ok m dst src x :
    arr m src x -> block cra_blocksize x -> mapped m dst cra_blocksize ->
    cia_encrypt dst src m = Ok (tt, write m dst (E x));
  decrypt_ok m dst src x :
    arr m src x -> block cra_blocksize x -> mapped m dst cra_blocksize ->
    cia_decrypt dst src m = Ok (tt, write m dst (D x));
}.

(** ** Xor of buffers *)

Definition xor_bytes (x y : list Z) : list Z := zip_with Z.lxor x y.

Lemma xor_bytes_length x y : length x = length y -> length (xor_bytes x y) = length x.
Proof. intros H. unfold xor_bytes. rewrite length_zip_with. lia. Qed.

Lemma xor_bytes_comm x y : xor_bytes x y = xor_bytes y x.
Proof.
  revert y. induction x as [|a x IH]; intros [|b y]; simpl; [done..|].
  f_equal; [apply Z.lxor_comm|apply IH].
Qed.

Lemma xor_bytes_cancel x y : length x = length y -> xor_bytes (xor_bytes x y) y = x.
Proof.
  revert y. induction x as [|a x IH]; intros [|b y] H; simpl in *; [done..|].
  f_equal; [|apply IH; lia]. by rewrite Z.lxor_assoc, Z.lxor_nilpotent, Z.lxor_0_r.
Qed.

Lemma xor_bytes_bytes x y :
  Forall (fits 8) x -> Forall (fits 8) y -> Forall (fits 8) (xor_bytes x y).
Proof.
  intros Hx. revert y. induction Hx as [|a x Ha Hx IH]; intros y Hy; simpl; [constructor|].
  destruct Hy as [|b y Hb Hy]; simpl; constructor; [by apply fits_lxor|by apply IH].
Qed.

Lemma xor_block n x y : block n x -> block n y -> block n (xor_bytes x y).
Proof.
  intros [Hx Bx] [Hy By]. split; [|by apply xor_bytes_bytes].
  rewrite xor_bytes_length by lia. done.
Qed.

(** A word of the xor holds the xor of the bytes. *)
Lemma xor_le32 x y :
  length x = 4%nat -> length y = 4%nat -> Forall (fits 8) x -> Forall (fits 8) y ->
  to_le32 (Z.lxor (of_le32 x) (of_le32 y)) = xor_bytes x y.
Proof.
  intros Lx Ly Hx Hy. rewrite <- (to_of_le32 x Lx Hx), <- (to_of_le32 y Ly Hy) at 2.
  unfold to_le32 at 1. rewrite !byte_lxor by lia. done.
Qed.

Lemma xor_byte_ok x y m a b :
  arr m a x -> arr m b y -> length x = length y -> apart a b (Z.of_nat (length x)) ->
  crypto_xor_byte a b (Z.of_nat (length x)) m = Ok (tt, write m a (xor_bytes x y)).
Proof.
  unfold crypto_xor_byte, apart. rewrite Nat2Z.id. intros Ha Hb Hl Hd.
  generalize (le_n (length x)). generalize (length x) at 2 3 as fuel. intros fuel Hf.
  revert y m a b fuel Ha Hb Hl Hd Hf. induction x as [|u x IH]; intros [|v y] m a b fuel Ha Hb Hl Hd Hf;
    simpl in *; try lia.
  - by rewrite loop_S.
  - destruct fuel as [|fuel]; [lia|]. apply arr_cons in Ha as [Hu Ha], Hb as [Hv Hb].
    rewrite loop_S. replace (Z.of_nat (S (length x)) =? 0) with false by lia.
    rewrite bind_bind, (bind_load _ u), bind_bind, (bind_load _ v), bind_bind by done.
    rewrite bind_store by (by exists u). rewrite bind_ret.
    replace (Z.of_nat (S (length x)) - 1) with (Z.of_nat (length x)) by lia.
    apply IH; [apply arr_insert_ne; [lia|done]|apply arr_insert_ne; [lia|done]|lia|lia|lia].
Qed.

Lemma split_4 {A} (l : list A) : (4 <= length l)%nat -> exists l1 l2, l = l1 ++ l2 /\ length l1 = 4%nat.
Proof. intros. exists (take 4 l), (drop 4 l). rewrite take_drop, length_take. split; [done|lia]. Qed.

Lemma crypto_xor_ok x y m a b :
  arr m a x -> arr m b y -> length x = length y -> apart a b (Z.of_nat (length x)) ->
  Forall (fits 8) x -> Forall (fits 8) y ->
  crypto_xor a b (Z.of_nat (length x)) m = Ok (tt, write m a (xor_bytes x y)).
Proof.
  unfold crypto_xor. rewrite Nat2Z.id. intros Ha Hb Hl Hd Bx By. unfold apart in Hd.
  generalize (le_n (length x)). generalize (length x) at 2 3 as fuel. intros fuel Hf.
  revert x y m a b Ha Hb Hl Hd Bx By Hf. induction fuel as [|fuel IH]; intros x y m a b Ha Hb Hl Hd Bx By Hf.
  - destruct x; [|simpl in Hf; lia]. destruct y; [|done]. done.
  - rewrite bind_loop_S. destruct (Z.leb_spec 4 (Z.of_nat (length x))) as [H4|H4].
    + destruct (split_4 x ltac:(lia)) as (x1 & x2 & -> & L1).
      destruct (split_4 y ltac:(lia)) as (y1 & y2 & -> & L2).
      rewrite !length_app, L1 in *. rewrite L2 in Hl. assert (length x2 = length y2) as L3 by lia.
      apply arr_app in Ha as [Ha1 Ha2], Hb as [Hb1 Hb2]. apply Forall_app in Bx as [Bx1 Bx2], By as [By1 By2].
      rewrite L1 in *. rewrite L2 in *.
      rewrite !bind_bind, (bind_Ok _ _ _ _ _ (load_le32_ok _ _ _ Ha1 L1)).
      rewrite !bind_bind, (bind_Ok _ _ _ _ _ (load_le32_ok _ _ _ Hb1 L2)).
      rewrite !bind_bind, (bind_Ok _ _ tt m (write m a (xor_bytes x1 y1))).
      2: { rewrite store_le32_ok, xor_le32; [done|done..|].
           intros c Hc. apply (arr_mapped m a x1); [done|lia]. }
      rewrite !bind_ret.
      replace (Z.of_nat (4 + length x2) - 4) with (Z.of_nat (length x2)) by lia.
      assert (length (xor_bytes x1 y1) = 4%nat) as L4 by (rewrite xor_bytes_length; lia).
      rewrite IH with (y := y2); [| | |done|lia|done|done|lia].
      * unfold xor_bytes at 3. rewrite zip_with_app by lia. fold (xor_bytes x1 y1) (xor_bytes x2 y2).
        by rewrite write_app, L4.
      * apply arr_write_disjoint; [rewrite L4; lia|done].
      * apply arr_write_disjoint; [rewrite L4; lia|done].
    + rewrite bind_bind, !bind_ret. apply xor_byte_ok; [done|done|done|]. unfold apart. lia.
Qed.

(** ** Increment *)

(** The number a buffer holds, most significant byte first. *)
Definition be_value (l : list Z) : Z := foldl (fun acc b => acc * 256 + b) 0 l.

Lemma be_value_snoc l b : be_value (l ++ [b]) = be_value l * 256 + b.
Proof. unfold be_value. by rewrite foldl_app. Qed.

Lemma be_value_app l k : be_value (l ++ k) = be_value l * 256 ^ Z.of_nat (length k) + be_value k.
Proof.
  induction k as [|b k IH] using rev_ind; [rewrite app_nil_r; cbn; lia|].
  rewrite app_assoc, !be_value_snoc, IH, length_app, Nat2Z.inj_add, Z.pow_add_r by lia.
  change (256 ^ Z.of_nat (length [b])) with 256. ring.
Qed.

Lemma be_value_range l : Forall (fits 8) l -> 0 <= be_value l < 256 ^ Z.of_nat (length l).
Proof.
  induction l as [|b l IH] using rev_ind; [cbn; lia|]. intros [Hl Hb]%Forall_app.
  specialize (IH Hl). apply Forall_cons in Hb as [Hb _]. unfold fits in Hb. change (2 ^ 8) with 256 in Hb.
  rewrite be_value_snoc, length_app, Nat2Z.inj_add, Z.pow_add_r by lia.
  change (256 ^ Z.of_nat (length [b])) with 256. lia.
Qed.

(** [y] is the buffer [x] incremented. *)
Definition incremented (x y : list Z) : Prop :=
  length y = length x /\ Forall (fits 8) y /\
  be_value y = (be_value x + 1) mod 256 ^ Z.of_nat (length x).

(** Incrementing the last digits without a carry, and with one. *)
Lemma incremented_tail x t t' :
  Forall (fits 8) x -> Forall (fits 8) t' -> length t' = length t -> be_value t' = be_value t + 1 ->
  incremented (x ++ t) (x ++ t').
Proof.
  intros Bx Bt Hl Ht. split; [rewrite !length_app; lia|]. split; [by apply Forall_app|].
  pose proof (be_value_range x Bx). pose proof (be_value_range t' Bt). rewrite Hl in *.
  rewrite !be_value_app, Hl, length_app, Nat2Z.inj_add, Z.pow_add_r by lia. rewrite Z.mod_small; nia.
Qed.

Lemma incremented_carry x y t t' :
  incremented x y -> length t' = length t -> Forall (fits 8) t' ->
  be_value t' = 0 -> be_value t + 1 = 256 ^ Z.of_nat (length t) ->
  incremented (x ++ t) (y ++ t').
Proof.
  intros (Hl & By & Hy) Hlt Bt Ht' Ht. split; [rewrite !length_app; lia|]. split; [by apply Forall_app|].
  rewrite !be_value_app, Hlt, Hy, Ht', length_app, Nat2Z.inj_add, Z.pow_add_r by lia.
  rewrite <- Z.add_assoc, Ht, Z.add_0_r.
  replace (be_value x * 256 ^ Z.of_nat (length t) + 256 ^ Z.of_nat (length t))
    with ((be_value x + 1) * 256 ^ Z.of_nat (length t)) by ring.
  rewrite Z.mul_mod_distr_r; lia.
Qed.

Lemma inc_byte_ok x m a fuel :
  arr m a x -> Forall (fits 8) x -> (length x < fuel)%nat ->
  exists y, incremented x y /\
  loop fuel (fun '(b, size) =>
    if size =? 0 then break tt else
    let b := b - 1 in
    x ← load b;
    let c := u8 (x + 1) in
    store b c ;;
    if negb (c =? 0) then break tt else continue (b, size - 1))
    (a + Z.of_nat (length x), Z.of_nat (length x)) m = Ok (tt, write m a y).
Proof.
  revert m fuel. induction x as [|v x IH] using rev_ind; intros m fuel Ha Bx Hf.
  - exists []. split; [by split; [|split; [constructor|]]|]. destruct fuel; [simpl in Hf; lia|]. done.
  - rewrite length_app in Hf |- *. simpl in Hf |- *. destruct fuel as [|fuel]; [lia|].
    apply Forall_app in Bx as [Bx Bv]. apply Forall_cons in Bv as [Bv _]. apply arr_app in Ha as [Ha Hv].
    apply arr_cons in Hv as [Hv _]. unfold fits in Bv. change (2 ^ 8) with 256 in Bv.
    rewrite loop_S. replace (Z.of_nat (length x + 1) =? 0) with false by lia. cbv zeta.
    replace (a + Z.of_nat (length x + 1) - 1) with (a + Z.of_nat (length x)) by lia.
    rewrite bind_bind, (bind_load _ v), bind_bind, bind_store by (done || by exists v).
    set (m' := <[_ := _]> m). assert (arr m' a x) as Ha' by (apply arr_insert_ne; [lia|done]).
    destruct (Z.eqb_spec (u8 (v + 1)) 0) as [E|E]; cbn [negb]; rewrite bind_ret.
    + replace (Z.of_nat (length x + 1) - 1) with (Z.of_nat (length x)) by lia.
      destruct (IH m' fuel Ha' Bx ltac:(lia)) as (y & Hy & Hrun). exists (y ++ [0]).
      assert (v = 255) as -> by (unfold wrap in E; destruct (Z.eq_dec v 255); [done|]; rewrite Z.mod_small in E; lia).
      split; [apply incremented_carry; try done; by repeat constructor|].
      etransitivity; [exact Hrun|]. destruct Hy as [Hl _]. rewrite write_app, Hl. simpl. unfold m'. rewrite E.
      f_equal. f_equal. apply write_insert_comm. lia.
    + exists (x ++ [u8 (v + 1)]). split.
      * assert (u8 (v + 1) = v + 1) as -> by (unfold wrap in *; apply Z.mod_small;
          destruct (Z.eq_dec v 255) as [->|]; [done|lia]).
        apply incremented_tail; [done| |done|cbn; lia]. repeat constructor; unfold wrap in E;
          destruct (Z.eq_dec v 255) as [->|]; try done; lia.
      * rewrite write_app, (write_id m a x) by done. done.
Qed.

(** Big-endian words. *)
Definition of_be32 (l : list Z) : Z := of_le32 (reverse l).
Definition to_be32 (w : Z) : list Z := reverse (to_le32 w).

Lemma load_be32_ok m p l :
  arr m p l -> length l = 4%nat -> load_be32 p m = Ok (of_be32 l, m).
Proof.
  intros Ha Hl. destruct l as [|b0 [|b1 [|b2 [|b3 [|]]]]]; try done.
  pose proof (load_le32_ok m p _ Ha Hl) as Hload. unfold load_le32, load_be32 in *.
  pose proof (arr_lookup m p _ 0 b0 Ha ltac:(lia) eq_refl) as H0. rewrite Z.add_0_r in H0.
  pose proof (arr_lookup m p _ 1 b1 Ha ltac:(lia) eq_refl) as H1.
  pose proof (arr_lookup m p _ 2 b2 Ha ltac:(lia) eq_refl) as H2.
  pose proof (arr_lookup m p _ 3 b3 Ha ltac:(lia) eq_refl) as H3.
  by rewrite (bind_load _ b0), (bind_load _ b1), (bind_load _ b2), (bind_load _ b3).
Qed.

Lemma store_be32_ok m p w :
  mapped m p 4 -> store_be32 p w m = Ok (tt, write m p (to_be32 w)).
Proof.
  intros Hm. unfold store_be32, to_be32, to_le32. cbn [reverse rev_append write].
  rewrite bind_store by (apply Hm; lia).
  rewrite bind_store by (apply (mapped_insert _ p 4 _ _ Hm); lia).
  rewrite bind_store by (apply (mapped_insert _ p 4 _ _ (mapped_insert _ p 4 _ _ Hm)); lia).
  unfold store. replace (p + 1 + 1) with (p + 2) by lia. replace (p + 2 + 1) with (p + 3) by lia.
  rewrite !lookup_insert_ne by lia. by destruct (Hm (p + 3)) as [? ->]; [lia|].
Qed.

Lemma of_be32_value l : length l = 4%nat -> of_be32 l = be_value l.
Proof.
  intros Hl. destruct l as [|b0 [|b1 [|b2 [|b3 [|]]]]]; try done. cbn. lia.
Qed.

Lemma to_be32_length w : length (to_be32 w) = 4%nat.
Proof. done. Qed.

Lemma to_be32_bytes w : Forall (fits 8) (to_be32 w).
Proof. apply Forall_reverse, bytes_to_le32. Qed.

Lemma to_be32_value w : fits 32 w -> be_value (to_be32 w) = w.
Proof. intros Hw. rewrite <- of_be32_value by done. by apply of_to_le32. Qed.

Lemma split_last_4 {A} (l : list A) : (4 <= length l)%nat -> exists l1 l2, l = l1 ++ l2 /\ length l2 = 4%nat.
Proof.
  intros. exists (take (length l - 4) l), (drop (length l - 4) l). rewrite take_drop, length_drop.
  split; [done|lia].
Qed.

Lemma crypto_inc_loop x m a fuel :
  arr m a x -> Forall (fits 8) x -> (length x < fuel)%nat ->
  exists y, incremented x y /\
  (r ← loop fuel (fun '(b, size) =>
    if 4 <=? size then
      let b := b - 4 in
      x ← load_be32 b;
      let c := u32 (x + 1) in
      store_be32 b c ;;
      if negb (c =? 0) then break None else continue (b, size - 4)
    else break (Some size)) (a + Z.of_nat (length x), Z.of_nat (length x));
  match r with
  | None => mret tt
  | Some size => crypto_inc_byte a size
  end) m = Ok (tt, write m a y).
Proof.
  revert x m. induction fuel as [|fuel IH]; intros x m Ha Bx Hf; [lia|].
  rewrite bind_loop_S. destruct (Z.leb_spec 4 (Z.of_nat (length x))) as [H4|H4].
  - destruct (split_last_4 x ltac:(lia)) as (x' & t & -> & Lt). rewrite length_app, Lt in *.
    apply Forall_app in Bx as [Bx Bt]. apply arr_app in Ha as [Ha Hat]. cbv zeta.
    replace (a + Z.of_nat (length x' + 4) - 4) with (a + Z.of_nat (length x')) by lia.
    replace (Z.of_nat (length x' + 4) - 4) with (Z.of_nat (length x')) by lia.
    rewrite !bind_bind, (bind_Ok _ _ _ _ _ (load_be32_ok _ _ _ Hat Lt)), !bind_bind.
    rewrite (bind_Ok _ _ _ _ _ (store_be32_ok _ _ _ (eq_ind _ (mapped m _) (arr_mapped _ _ _ Hat) 4 ltac:(by rewrite Lt)))).
    pose proof (be_value_range t Bt) as Ht. rewrite <- of_be32_value in Ht by done. rewrite Lt in Ht.
    change (256 ^ Z.of_nat 4) with (2 ^ 32) in Ht. set (w := of_be32 t) in *.
    pose proof (wrap_fits 32 (w + 1) ltac:(lia)) as Hc.
    destruct (Z.eqb_spec (u32 (w + 1)) 0) as [E|E]; cbn [negb]; rewrite !bind_ret.
    + assert (w + 1 = 2 ^ 32) as Ew.
      { unfold wrap in E. destruct (Z.eq_dec (w + 1) (2 ^ 32)); [done|]. rewrite Z.mod_small in E; lia. }
      set (m' := write m _ _). assert (arr m' a x') as Ha' by (apply arr_write_disjoint; [lia|done]).
      destruct (IH x' m' Ha' Bx ltac:(lia)) as (y & Hy & Hrun). exists (y ++ to_be32 0). split.
      * apply incremented_carry; [done|done|apply to_be32_bytes|done|]. rewrite Lt.
        rewrite <- of_be32_value by done. fold w. rewrite Ew. done.
      * etransitivity; [exact Hrun|]. destruct Hy as [Hl _]. rewrite write_app, Hl.
        unfold m'. rewrite E. f_equal. f_equal. apply write_comm. rewrite to_be32_length. lia.
    + exists (x' ++ to_be32 (u32 (w + 1))). split.
      * apply incremented_tail; [done|apply to_be32_bytes|by rewrite Lt|].
        rewrite to_be32_value by done. rewrite <- of_be32_value by done. fold w.
        apply Z.mod_small. split; [lia|]. destruct (Z.eq_dec (w + 1) (2 ^ 32)) as [E'|]; [|lia].
        rewrite E' in E. done.
      * rewrite write_app, (write_id m a x') by done. done.
  - rewrite bind_bind, !bind_ret. unfold crypto_inc_byte. rewrite Nat2Z.id.
    apply inc_byte_ok; [done|done|lia].
Qed.

(** Crypto_inc increments the big-endian number in a buffer of any length,
    modulo the size of the buffer, and touches nothing else; the word loop and the
    byte loop for the last bytes compose, carries included. *)
Theorem crypto_inc_increments x m a :
  arr m a x -> Forall (fits 8) x ->
  exists y, crypto_inc a (Z.of_nat (length x)) m = Ok (tt, write m a y) /\
    length y = length x /\ Forall (fits 8) y /\
    be_value y = (be_value x + 1) mod 256 ^ Z.of_nat (length x).
Proof.
  intros Ha Bx. destruct (crypto_inc_loop x m a (S (length x)) Ha Bx ltac:(lia)) as (y & (H1 & H2 & H3) & Hrun).
  exists y. split; [|done]. unfold crypto_inc. rewrite Nat2Z.id. exact Hrun.
Qed.

Lemma crypto_inc_increments_witness :
  let m := memory [(100, [0; 9; 255; 255; 255; 255])] in
  exists y, crypto_inc 100 6 m = Ok (tt, write m 100 y) /\ be_value y = 42949672960.
Proof.
  destruct (crypto_inc_increments [0; 9; 255; 255; 255; 255] (memory [(100, [0; 9; 255; 255; 255; 255])]) 100)
    as (y & H1 & _ & _ & H2); [mem_check|repeat constructor; lia|]. exists y. split; [exact H1|].
  rewrite H2. reflexivity.
Defined.
