(* ===== verification/Tea.v ===== *)
(** * TEA, XTEA and XETA

    crypto/tea.c: the three ciphers of the file, each a routine that reads a
    block of eight bytes, runs 32 double rounds on two 32-bit halves and writes
    the block back, and its inverse. *)

From S2P Require Import Prelude Blocks Cipher.

#[local] Arguments loop : simpl never.

Definition TEA_ROUNDS : nat := 32.
Definition TEA_DELTA : Z := 0x9e3779b9.
Definition XTEA_ROUNDS : Z := 32.
Definition XTEA_DELTA : Z := 0x9e3779b9.

(** u32 KEY[4], of struct tea_ctx and of struct xtea_ctx. *)
Record tea_ctx := TeaCtx { KEY0 : Z; KEY1 : Z; KEY2 : Z; KEY3 : Z }.

Definition KEY (ctx : tea_ctx) (i : Z) : Z :=
  if i =? 0 then KEY0 ctx else if i =? 1 then KEY1 ctx else if i =? 2 then KEY2 ctx else KEY3 ctx.

Definition tea_setkey (in_key : Z) : M tea_ctx :=
  k0 ← load_le32 in_key;
  k1 ← load_le32 (in_key + 4);
  k2 ← load_le32 (in_key + 8);
  k3 ← load_le32 (in_key + 12);
  mret (TeaCtx k0 k1 k2 k3).

Definition xtea_setkey (in_key : Z) : M tea_ctx :=
  k0 ← load_le32 in_key;
  k1 ← load_le32 (in_key + 4);
  k2 ← load_le32 (in_key + 8);
  k3 ← load_le32 (in_key + 12);
  mret (TeaCtx k0 k1 k2 k3).

(** ** TEA *)

(** [((v << 4) + ka) ^ (v + sum) ^ ((v >> 5) + kb)] *)
Definition tea_mix (v sum ka kb : Z) : Z :=
  Z.lxor (Z.lxor (u32 (u32 (Z.shiftl v 4) + ka)) (u32 (v + sum))) (u32 (Z.shiftr v 5 + kb)).

(** [while (n-- > 0)] of tea_encrypt. *)
Fixpoint tea_encrypt_rounds (n : nat) (ctx : tea_ctx) (y z sum : Z) : Z * Z :=
  match n with
  | O => (y, z)
  | S n =>
      let sum := u32 (sum + TEA_DELTA) in
      let y := u32 (y + tea_mix z sum (KEY0 ctx) (KEY1 ctx)) in
      let z := u32 (z + tea_mix y sum (KEY2 ctx) (KEY3 ctx)) in
      tea_encrypt_rounds n ctx y z sum
  end.

Definition tea_encrypt (ctx : tea_ctx) (dst src : Z) : M unit :=
  y ← load_le32 src;
  z ← load_le32 (src + 4);
  let '(y, z) := tea_encrypt_rounds TEA_ROUNDS ctx y z 0 in
  store_le32 dst y ;;
  store_le32 (dst + 4) z.

Fixpoint tea_decrypt_rounds (n : nat) (ctx : tea_ctx) (y z sum : Z) : Z * Z :=
  match n with
  | O => (y, z)
  | S n =>
      let z := u32 (z - tea_mix y sum (KEY2 ctx) (KEY3 ctx)) in
      let y := u32 (y - tea_mix z sum (KEY0 ctx) (KEY1 ctx)) in
      let sum := u32 (sum - TEA_DELTA) in
      tea_decrypt_rounds n ctx y z sum
  end.

Definition tea_decrypt (ctx : tea_ctx) (dst src : Z) : M unit :=
  y ← load_le32 src;
  z ← load_le32 (src + 4);
  let sum := u32 (Z.shiftl TEA_DELTA 5) in
  let '(y, z) := tea_decrypt_rounds TEA_ROUNDS ctx y z sum in
  store_le32 dst y ;;
  store_le32 (dst + 4) z.

(** ** XTEA and XETA

    The two differ in how a half is mixed in. *)

(** [((v << 4 ^ v >> 5) + v) ^ (sum + k)] *)
Definition xtea_mix (v sum k : Z) : Z :=
  Z.lxor (u32 (Z.lxor (u32 (Z.shiftl v 4)) (Z.shiftr v 5) + v)) (u32 (sum + k)).

(** [(v << 4 ^ v >> 5) + (v ^ sum) + k] *)
Definition xeta_mix (v sum k : Z) : Z :=
  u32 (u32 (Z.lxor (u32 (Z.shiftl v 4)) (Z.shiftr v 5) + Z.lxor v sum) + k).

(** The loop [while (sum != limit)] of xtea_encrypt and xeta_encrypt, with the
    mixing function of either. *)
Definition xtea_encrypt_with (mix : Z -> Z -> Z -> Z) (ctx : tea_ctx) (dst src : Z) : M unit :=
  let limit := u32 (XTEA_DELTA * XTEA_ROUNDS) in
  y ← load_le32 src;
  z ← load_le32 (src + 4);
  '(y, z) ← loop 33 (fun '(y, z, sum) =>
    if sum =? limit then break (y, z) else
    let y := u32 (y + mix z sum (KEY ctx (Z.land sum 3))) in
    let sum := u32 (sum + XTEA_DELTA) in
    let z := u32 (z + mix y sum (KEY ctx (Z.land (Z.shiftr sum 11) 3))) in
    continue (y, z, sum)) (y, z, 0);
  store_le32 dst y ;;
  store_le32 (dst + 4) z.

Definition xtea_decrypt_with (mix : Z -> Z -> Z -> Z) (ctx : tea_ctx) (dst src : Z) : M unit :=
  y ← load_le32 src;
  z ← load_le32 (src + 4);
  let sum := u32 (XTEA_DELTA * XTEA_ROUNDS) in
  '(y, z) ← loop 33 (fun '(y, z, sum) =>
    if sum =? 0 then break (y, z) else
    let z := u32 (z - mix y sum (KEY ctx (Z.land (Z.shiftr sum 11) 3))) in
    let sum := u32 (sum - XTEA_DELTA) in
    let y := u32 (y - mix z sum (KEY ctx (Z.land sum 3))) in
    continue (y, z, sum)) (y, z, sum);
  store_le32 dst y ;;
  store_le32 (dst + 4) z.

Definition xtea_encrypt (ctx : tea_ctx) (dst src : Z) : M unit := xtea_encrypt_with xtea_mix ctx dst src.
Definition xtea_decrypt (ctx : tea_ctx) (dst src : Z) : M unit := xtea_decrypt_with xtea_mix ctx dst src.
Definition xeta_encrypt (ctx : tea_ctx) (dst src : Z) : M unit := xtea_encrypt_with xeta_mix ctx dst src.
Definition xeta_decrypt (ctx : tea_ctx) (dst src : Z) : M unit := xtea_decrypt_with xeta_mix ctx dst src.

(** ** Blocks of two words *)

(** A cipher on two 32-bit halves as a cipher on blocks of eight bytes. *)
Definition on_block (f : Z * Z -> Z * Z) (x : list Z) : list Z :=
  let '(y, z) := f (of_le32 (take 4 x), of_le32 (drop 4 x)) in to_le32 y ++ to_le32 z.

Lemma block_halves x :
  block 8 x -> length (take 4 x) = 4%nat /\ length (drop 4 x) = 4%nat /\
    Forall (fits 8) (take 4 x) /\ Forall (fits 8) (drop 4 x).
Proof.
  intros [Hl Hf]. rewrite length_take, length_drop.
  rewrite <- (take_drop 4 x), Forall_app in Hf. split; [lia|]. split; [lia|]. done.
Qed.

Lemma block_of_words y z : block 8 (to_le32 y ++ to_le32 z).
Proof. split; [done|]. apply Forall_app. split; apply bytes_to_le32. Qed.

Lemma on_block_words f y z :
  fits 32 y -> fits 32 z -> on_block f (to_le32 y ++ to_le32 z) =
    let '(y', z') := f (y, z) in to_le32 y' ++ to_le32 z'.
Proof.
  intros Hy Hz. unfold on_block.
  change (take 4 (to_le32 y ++ to_le32 z)) with (to_le32 y).
  change (drop 4 (to_le32 y ++ to_le32 z)) with (to_le32 z). by rewrite !of_to_le32.
Qed.

Lemma on_block_block f x : block 8 (on_block f x).
Proof. unfold on_block. destruct (f _). apply block_of_words. Qed.

(** If [g] undoes [f] on words, it does on blocks. *)
Lemma on_block_inverse f g x :
  (forall y z, fits 32 y -> fits 32 z ->
     let '(y', z') := f (y, z) in fits 32 y' /\ fits 32 z' /\ g (y', z') = (y, z)) ->
  block 8 x -> on_block g (on_block f x) = x.
Proof.
  intros Hfg Hx. destruct (block_halves x Hx) as (L1 & L2 & B1 & B2).
  specialize (Hfg _ _ (fits_of_le32 _ L1 B1) (fits_of_le32 _ L2 B2)). unfold on_block at 2.
  destruct (f _) as [y' z']. destruct Hfg as (Hy & Hz & Hg).
  rewrite on_block_words, Hg by done. rewrite !to_of_le32 by done. apply take_drop.
Qed.

(** The shape of every routine: load two words, compute, store two words. *)
Lemma on_block_run (c : Z -> Z -> M unit) f m dst src x :
  (forall y z m, fits 32 y -> fits 32 z -> arr m src (to_le32 y ++ to_le32 z) ->
     c dst src m = (let '(y', z') := f (y, z) in store_le32 dst y' ;; store_le32 (dst + 4) z') m) ->
  arr m src x -> block 8 x -> mapped m dst 8 -> c dst src m = Ok (tt, write m dst (on_block f x)).
Proof.
  intros Hc Ha Hx Hm. destruct (block_halves x Hx) as (L1 & L2 & B1 & B2).
  assert (x = to_le32 (of_le32 (take 4 x)) ++ to_le32 (of_le32 (drop 4 x))) as E
    by (by rewrite !to_of_le32, take_drop).
  rewrite E in Ha. rewrite (Hc _ _ _ (fits_of_le32 _ L1 B1) (fits_of_le32 _ L2 B2) Ha).
  unfold on_block. destruct (f _) as [y' z'].
  rewrite (bind_Ok _ _ tt m (write m dst (to_le32 y')))
    by (apply store_le32_ok; by eapply mapped_sub; [done|lia|lia]).
  rewrite store_le32_ok, write_app; [done|]. apply mapped_write. eapply mapped_sub; [done|lia|lia].
Qed.

Lemma load_words m src y z :
  fits 32 y -> fits 32 z -> arr m src (to_le32 y ++ to_le32 z) ->
  load_le32 src m = Ok (y, m) /\ load_le32 (src + 4) m = Ok (z, m).
Proof.
  intros Hy Hz Ha. apply arr_app in Ha as [H1 H2]. change (Z.of_nat (length (to_le32 y))) with 4 in H2.
  rewrite (load_le32_ok _ _ _ H1), (load_le32_ok _ _ _ H2) by done. by rewrite !of_to_le32.
Qed.

(** ** Rounds and their inverses *)

Section Rounds.
Context {P : Type} (ok : P -> Prop) (round unround : nat -> P -> P).

(** Rounds [k], [k + 1], ..., [k + n - 1], and the inverses of [n - 1], ..., 0. *)
Fixpoint rounds_up (k n : nat) (p : P) {struct n} : P :=
  match n with
  | O => p
  | S n => rounds_up (S k) n (round k p)
  end.

Fixpoint rounds_down (n : nat) (p : P) : P :=
  match n with
  | O => p
  | S n => rounds_down n (unround n p)
  end.

Hypothesis inverse : forall k p, ok p -> ok (round k p) /\ unround k (round k p) = p.

Lemma up_snoc k n p : rounds_up k (S n) p = round (k + n) (rounds_up k n p).
Proof using Type.
  revert k p. induction n as [|n IH]; intros k p; [by rewrite Nat.add_0_r|].
  change (rounds_up k (S (S n)) p) with (rounds_up (S k) (S n) (round k p)).
  rewrite IH. by replace (S k + n)%nat with (k + S n)%nat by lia.
Qed.

Lemma down_up n p : ok p -> ok (rounds_up 0 n p) /\ rounds_down n (rounds_up 0 n p) = p.
Proof using inverse.
  intros Hp. induction n as [|n [IHok IH]]; [done|]. rewrite up_snoc.
  destruct (inverse (0 + n) (rounds_up 0 n p) IHok) as [Hok E]. split; [done|]. simpl in *. by rewrite E.
Qed.
End Rounds.
#[local] Arguments rounds_up : simpl never.
#[local] Arguments rounds_down : simpl never.

Definition words_ok (p : Z * Z) : Prop := fits 32 p.1 /\ fits 32 p.2.

(** Subtracting what was added. *)
Lemma add_sub w y f : fits w y -> wrap w (wrap w (y + f) - f) = y.
Proof. intros Hy. rewrite wrap_sub_l. replace (y + f - f) with y by lia. by apply wrap_id. Qed.

Lemma sum_next d k : u32 (u32 (d * Z.of_nat k) + d) = u32 (d * Z.of_nat (S k)).
Proof. rewrite wrap_add_l. f_equal. lia. Qed.

Lemma sum_prev d k : u32 (u32 (d * Z.of_nat (S k)) - d) = u32 (d * Z.of_nat k).
Proof. rewrite wrap_sub_l. f_equal. lia. Qed.

(** ** TEA *)

Definition tea_sum (k : nat) : Z := u32 (TEA_DELTA * Z.of_nat k).

Definition tea_round (ctx : tea_ctx) (k : nat) (p : Z * Z) : Z * Z :=
  let y := u32 (p.1 + tea_mix p.2 (tea_sum (S k)) (KEY0 ctx) (KEY1 ctx)) in
  (y, u32 (p.2 + tea_mix y (tea_sum (S k)) (KEY2 ctx) (KEY3 ctx))).

Definition tea_unround (ctx : tea_ctx) (k : nat) (p : Z * Z) : Z * Z :=
  let z := u32 (p.2 - tea_mix p.1 (tea_sum (S k)) (KEY2 ctx) (KEY3 ctx)) in
  (u32 (p.1 - tea_mix z (tea_sum (S k)) (KEY0 ctx) (KEY1 ctx)), z).

Lemma tea_round_inverse ctx k p :
  words_ok p -> words_ok (tea_round ctx k p) /\ tea_unround ctx k (tea_round ctx k p) = p.
Proof.
  intros [H1 H2]. split; [split; apply wrap_fits; lia|]. destruct p as [y z].
  unfold tea_unround, tea_round. simpl in *. by rewrite !add_sub.
Qed.

Lemma tea_encrypt_up ctx n k y z :
  tea_encrypt_rounds n ctx y z (tea_sum k) = rounds_up (tea_round ctx) k n (y, z).
Proof.
  revert k y z. induction n as [|n IH]; intros k y z; [done|]. simpl.
  rewrite (sum_next TEA_DELTA k : u32 (tea_sum k + TEA_DELTA) = tea_sum (S k)). apply IH.
Qed.

Lemma tea_decrypt_down ctx n y z :
  tea_decrypt_rounds n ctx y z (tea_sum n) = rounds_down (tea_unround ctx) n (y, z).
Proof.
  revert y z. induction n as [|n IH]; intros y z; [done|]. simpl.
  rewrite (sum_prev TEA_DELTA n : u32 (tea_sum (S n) - TEA_DELTA) = tea_sum n). apply IH.
Qed.

Definition tea_E (ctx : tea_ctx) : list Z -> list Z := on_block (rounds_up (tea_round ctx) 0 TEA_ROUNDS).
Definition tea_D (ctx : tea_ctx) : list Z -> list Z := on_block (rounds_down (tea_unround ctx) TEA_ROUNDS).

Lemma tea_encrypt_ok ctx m dst src x :
  arr m src x -> block 8 x -> mapped m dst 8 ->
  tea_encrypt ctx dst src m = Ok (tt, write m dst (tea_E ctx x)).
Proof.
  apply (on_block_run (tea_encrypt ctx)). clear m x. intros y z m Hy Hz Ha.
  destruct (load_words m src y z Hy Hz Ha) as [L1 L2]. unfold tea_encrypt.
  rewrite (bind_Ok _ _ _ _ _ L1), (bind_Ok _ _ _ _ _ L2).
  by rewrite (tea_encrypt_up ctx TEA_ROUNDS 0).
Qed.

Lemma tea_decrypt_ok ctx m dst src x :
  arr m src x -> block 8 x -> mapped m dst 8 ->
  tea_decrypt ctx dst src m = Ok (tt, write m dst (tea_D ctx x)).
Proof.
  apply (on_block_run (tea_decrypt ctx)). clear m x. intros y z m Hy Hz Ha.
  destruct (load_words m src y z Hy Hz Ha) as [L1 L2]. unfold tea_decrypt.
  rewrite (bind_Ok _ _ _ _ _ L1), (bind_Ok _ _ _ _ _ L2). cbv zeta.
  change (u32 (Z.shiftl TEA_DELTA 5)) with (tea_sum TEA_ROUNDS). by rewrite tea_decrypt_down.
Qed.

Lemma tea_D_E ctx x : block 8 x -> tea_D ctx (tea_E ctx x) = x.
Proof.
  apply on_block_inverse. intros y z Hy Hz.
  destruct (down_up words_ok _ _ (tea_round_inverse ctx) TEA_ROUNDS (y, z)) as [[H1 H2] E]; [done|].
  destruct (rounds_up _ _ _ _) as [y' z']. done.
Qed.

#[export] Instance tea_cipher (ctx : tea_ctx) : Cipher :=
  { cra_blocksize := 8; cia_encrypt := tea_encrypt ctx; cia_decrypt := tea_decrypt ctx }.

#[export] Instance tea_laws (ctx : tea_ctx) : CipherLaws (tea_cipher ctx).
Proof.
  refine (Build_CipherLaws (tea_cipher ctx) (tea_E ctx) (tea_D ctx) (conj eq_refl eq_refl) _ _
    (tea_D_E ctx) (tea_encrypt_ok ctx) (tea_decrypt_ok ctx)); intros x _; apply on_block_block.
Defined.

(** ** XTEA and XETA *)

Definition xtea_sum (k : nat) : Z := u32 (XTEA_DELTA * Z.of_nat k).

Section Xtea.
Context (mix : Z -> Z -> Z -> Z) (ctx : tea_ctx).

Definition xtea_round (k : nat) (p : Z * Z) : Z * Z :=
  let y := u32 (p.1 + mix p.2 (xtea_sum k) (KEY ctx (Z.land (xtea_sum k) 3))) in
  (y, u32 (p.2 + mix y (xtea_sum (S k)) (KEY ctx (Z.land (Z.shiftr (xtea_sum (S k)) 11) 3)))).

Definition xtea_unround (k : nat) (p : Z * Z) : Z * Z :=
  let z := u32 (p.2 - mix p.1 (xtea_sum (S k)) (KEY ctx (Z.land (Z.shiftr (xtea_sum (S k)) 11) 3))) in
  (u32 (p.1 - mix z (xtea_sum k) (KEY ctx (Z.land (xtea_sum k) 3))), z).

Lemma xtea_round_inverse k p :
  words_ok p -> words_ok (xtea_round k p) /\ xtea_unround k (xtea_round k p) = p.
Proof using Type.
  intros [H1 H2]. split; [split; apply wrap_fits; lia|]. destruct p as [y z].
  unfold xtea_unround, xtea_round. simpl in *. by rewrite !add_sub.
Qed.

(** The sums of the rounds before the last differ from the limit, and those after
    the first from zero: the loops end after exactly 32 rounds. *)
Lemma xtea_sum_limit k : (k < 32)%nat -> xtea_sum k <> u32 (XTEA_DELTA * XTEA_ROUNDS) /\ xtea_sum (S k) <> 0.
Proof using Type.
  intros Hk. assert (forallb (fun k => negb (xtea_sum k =? u32 (XTEA_DELTA * XTEA_ROUNDS)) &&
    negb (xtea_sum (S k) =? 0)) (seq 0 32) = true) as H by (by vm_compute).
  rewrite forallb_forall in H. specialize (H k ltac:(apply in_seq; lia)). lia.
Qed.

Lemma xtea_encrypt_loop n k y z (m : mem) :
  (k + n = 32)%nat ->
  loop (S n) (fun '(y, z, sum) =>
    if sum =? u32 (XTEA_DELTA * XTEA_ROUNDS) then break (y, z) else
    let y := u32 (y + mix z sum (KEY ctx (Z.land sum 3))) in
    let sum := u32 (sum + XTEA_DELTA) in
    let z := u32 (z + mix y sum (KEY ctx (Z.land (Z.shiftr sum 11) 3))) in
    continue (y, z, sum)) (y, z, xtea_sum k) m = Ok (rounds_up xtea_round k n (y, z), m).
Proof using Type.
  revert k y z. induction n as [|n IH]; intros k y z Hk; rewrite loop_S.
  - by replace k with 32%nat by lia.
  - rewrite (proj2 (Z.eqb_neq _ _)) by (apply xtea_sum_limit; lia). cbv zeta.
    rewrite (sum_next XTEA_DELTA k : u32 (xtea_sum k + XTEA_DELTA) = xtea_sum (S k)).
    rewrite bind_ret. apply IH. lia.
Qed.

Lemma xtea_decrypt_loop n y z (m : mem) :
  (n <= 32)%nat ->
  loop (S n) (fun '(y, z, sum) =>
    if sum =? 0 then break (y, z) else
    let z := u32 (z - mix y sum (KEY ctx (Z.land (Z.shiftr sum 11) 3))) in
    let sum := u32 (sum - XTEA_DELTA) in
    let y := u32 (y - mix z sum (KEY ctx (Z.land sum 3))) in
    continue (y, z, sum)) (y, z, xtea_sum n) m = Ok (rounds_down xtea_unround n (y, z), m).
Proof using Type.
  revert y z. induction n as [|n IH]; intros y z Hn; rewrite loop_S; [done|].
  rewrite (proj2 (Z.eqb_neq _ _)) by (apply xtea_sum_limit; lia). cbv zeta.
  rewrite (sum_prev XTEA_DELTA n : u32 (xtea_sum (S n) - XTEA_DELTA) = xtea_sum n).
  rewrite bind_ret. apply IH. lia.
Qed.

Definition xtea_E : list Z -> list Z := on_block (rounds_up xtea_round 0 32).
Definition xtea_D : list Z -> list Z := on_block (rounds_down xtea_unround 32).

Lemma xtea_encrypt_ok m dst src x :
  arr m src x -> block 8 x -> mapped m dst 8 ->
  xtea_encrypt_with mix ctx dst src m = Ok (tt, write m dst (xtea_E x)).
Proof using Type.
  apply (on_block_run (xtea_encrypt_with mix ctx)). clear m x. intros y z m Hy Hz Ha.
  destruct (load_words m src y z Hy Hz Ha) as [L1 L2]. unfold xtea_encrypt_with. cbv zeta.
  rewrite (bind_Ok _ _ _ _ _ L1), (bind_Ok _ _ _ _ _ L2).
  rewrite (bind_Ok _ _ _ _ _ (xtea_encrypt_loop 32 0 y z m eq_refl)).
  by destruct (rounds_up xtea_round 0 32 (y, z)).
Qed.

Lemma xtea_decrypt_ok m dst src x :
  arr m src x -> block 8 x -> mapped m dst 8 ->
  xtea_decrypt_with mix ctx dst src m = Ok (tt, write m dst (xtea_D x)).
Proof using Type.
  apply (on_block_run (xtea_decrypt_with mix ctx)). clear m x. intros y z m Hy Hz Ha.
  destruct (load_words m src y z Hy Hz Ha) as [L1 L2]. unfold xtea_decrypt_with. cbv zeta.
  rewrite (bind_Ok _ _ _ _ _ L1), (bind_Ok _ _ _ _ _ L2).
  change (u32 (XTEA_DELTA * XTEA_ROUNDS)) with (xtea_sum 32).
  rewrite (bind_Ok _ _ _ _ _ (xtea_decrypt_loop 32 y z m (le_n 32))).
  by destruct (rounds_down xtea_unround 32 (y, z)).
Qed.

Lemma xtea_D_E x : block 8 x -> xtea_D (xtea_E x) = x.
Proof using Type.
  apply on_block_inverse. intros y z Hy Hz.
  destruct (down_up words_ok _ _ xtea_round_inverse 32 (y, z)) as [[H1 H2] E]; [done|].
  destruct (rounds_up _ _ _ _) as [y' z']. done.
Qed.

Definition xtea_cipher_with : Cipher :=
  {| cra_blocksize := 8; cia_encrypt := xtea_encrypt_with mix ctx; cia_decrypt := xtea_decrypt_with mix ctx |}.

Definition xtea_laws_with : CipherLaws xtea_cipher_with.
Proof using Type.
  refine (Build_CipherLaws xtea_cipher_with xtea_E xtea_D (conj eq_refl eq_refl) _ _
    xtea_D_E xtea_encrypt_ok xtea_decrypt_ok); intros x _; apply on_block_block.
Defined.
End Xtea.

(** TEA, XTEA and XETA decrypt what they encrypt.  For every key and every
    block of eight bytes, encrypting into a buffer and decrypting that buffer, in
    place or not, writes the block back; the XTEA and XETA loops, which run until
    the sum reaches its limit, end. *)
Theorem tea_roundtrip m src dst x ctx encrypt decrypt :
  arr m src x -> block 8 x -> mapped m dst 8 ->
  (encrypt, decrypt) ∈ [(tea_encrypt, tea_decrypt); (xtea_encrypt, xtea_decrypt);
                        (xeta_encrypt, xeta_decrypt)] ->
  exists c, block 8 c /\
    encrypt ctx dst src m = Ok (tt, write m dst c) /\
    decrypt ctx dst dst (write m dst c) = Ok (tt, write (write m dst c) dst x).
Proof.
  intros Ha Hx Hm Hin.
  assert (forall C (L : CipherLaws C), @cra_blocksize C = 8 -> exists c, block 8 c /\
    @cia_encrypt C dst src m = Ok (tt, write m dst c) /\
    @cia_decrypt C dst dst (write m dst c) = Ok (tt, write (write m dst c) dst x)) as H.
  { intros C L HC. exists (E x). rewrite <- HC in *. split; [by apply E_block|].
    split; [by apply encrypt_ok|].
    rewrite (decrypt_ok _ _ _ (E x)); [by rewrite D_E|apply write_arr|by apply E_block|by apply mapped_write]. }
  rewrite !elem_of_cons in Hin. destruct Hin as [[= -> ->]|[[= -> ->]|[[= -> ->]|[]%elem_of_nil]]].
  - apply (H (tea_cipher ctx) (tea_laws ctx) eq_refl).
  - apply (H (xtea_cipher_with xtea_mix ctx) (xtea_laws_with xtea_mix ctx) eq_refl).
  - apply (H (xtea_cipher_with xeta_mix ctx) (xtea_laws_with xeta_mix ctx) eq_refl).
Qed.

Lemma tea_roundtrip_witness :
  let m := memory [(100, [1; 2; 3; 4; 5; 6; 7; 8]); (200, [0; 0; 0; 0; 0; 0; 0; 0])] in
  exists c, block 8 c /\
    xtea_encrypt (TeaCtx 1 2 3 4) 200 100 m = Ok (tt, write m 200 c) /\
    xtea_decrypt (TeaCtx 1 2 3 4) 200 200 (write m 200 c)
    = Ok (tt, write (write m 200 c) 200 [1; 2; 3; 4; 5; 6; 7; 8]).
Proof.
  intros m. apply (tea_roundtrip m 100 200 [1; 2; 3; 4; 5; 6; 7; 8] (TeaCtx 1 2 3 4) xtea_encrypt xtea_decrypt).
  - mem_check.
  - split; [reflexivity|]. repeat constructor; vm_compute; congruence.
  - apply (mapped_b_sound m 200 8). vm_compute. reflexivity.
  - right. left.
Defined.

(** The first test vectors of crypto/testmgr.h: key and block of zero bytes. *)
Example tea_vector : tea_E (TeaCtx 0 0 0 0) (replicate 8 0) = [0x0a; 0x3a; 0xea; 0x41; 0x40; 0xa9; 0xba; 0x94].
Proof. by vm_compute. Qed.

Example xtea_vector :
  xtea_E xtea_mix (TeaCtx 0 0 0 0) (replicate 8 0) = [0xd8; 0xd4; 0xe9; 0xde; 0xd9; 0x1e; 0x13; 0xf7].
Proof. by vm_compute. Qed.

Example xeta_vector :
  xtea_E xeta_mix (TeaCtx 0 0 0 0) (replicate 8 0) = [0xaa; 0x22; 0x96; 0xe5; 0x6c; 0x61; 0xf3; 0x45].
Proof. by vm_compute. Qed.
