(* ===== verification/Modes.v ===== *)
(** * Block chaining modes

    The loops of crypto/ecb.c, crypto/cbc.c and crypto/pcbc.c over the bytes that
    one step of a walk has mapped: the routines named _segment copy from one
    buffer to another, those named _inplace work inside one buffer.  They are
    written against the interface [Cipher] and proved against its laws, so the
    theorems hold of every cipher with an instance.  The memory holds bytes; the
    fields nbytes, src, dst and iv of struct blkcipher_walk are arguments. *)

From S2P Require Import Prelude Strings Blocks Cipher Tea.

#[local] Arguments loop : simpl never.

Section Modes.
Context {C : Cipher}.
Abbreviation bsize := cra_blocksize.

(** The [do ... while ((nbytes -= bsize) >= bsize)] loop around each body: the
    body gets the block number's offsets and the IV pointer, and returns the IV
    pointer for the next block; the loop returns that and the bytes left. *)
Definition do_blocks (body : Z -> Z -> M Z) (iv nbytes : Z) : M (Z * Z) :=
  loop (S (Z.to_nat nbytes)) (fun '(off, iv, nbytes) =>
    iv ← body off iv;
    let nbytes := nbytes - bsize in
    if bsize <=? nbytes then continue (off + bsize, iv, nbytes) else break (iv, nbytes))
    (0, iv, nbytes).

Definition crypto_ecb_crypt (fn : Z -> Z -> M unit) (wdst wsrc nbytes : Z) : M Z :=
  '(_, nbytes) ← do_blocks (fun off iv => fn (wdst + off) (wsrc + off) ;; mret iv) 0 nbytes;
  mret nbytes.

Definition crypto_cbc_encrypt_segment (dst src iv nbytes : Z) : M Z :=
  '(_, nbytes) ← do_blocks (fun off iv =>
    crypto_xor iv (src + off) bsize ;;
    cia_encrypt (dst + off) iv ;;
    memcpy iv (dst + off) bsize ;;
    mret iv) iv nbytes;
  mret nbytes.

Definition crypto_cbc_encrypt_inplace (src walk_iv nbytes : Z) : M Z :=
  '(iv, nbytes) ← do_blocks (fun off iv =>
    crypto_xor (src + off) iv bsize ;;
    cia_encrypt (src + off) (src + off) ;;
    mret (src + off)) walk_iv nbytes;
  memcpy walk_iv iv bsize ;;
  mret nbytes.

Definition crypto_cbc_decrypt_segment (dst src walk_iv nbytes : Z) : M Z :=
  '(iv, nbytes) ← do_blocks (fun off iv =>
    cia_decrypt (dst + off) (src + off) ;;
    crypto_xor (dst + off) iv bsize ;;
    mret (src + off)) walk_iv nbytes;
  memcpy walk_iv iv bsize ;;
  mret nbytes.

(** [last_iv] is the address of the local array u8 last_iv[bsize]. *)
Definition crypto_cbc_decrypt_inplace (last_iv src walk_iv nbytes : Z) : M Z :=
  let src := src + (nbytes - Z.land nbytes (bsize - 1) - bsize) in
  memcpy last_iv src bsize ;;
  '(src, nbytes) ← loop (S (Z.to_nat nbytes)) (fun '(src, nbytes) =>
    cia_decrypt src src ;;
    let nbytes := nbytes - bsize in
    if nbytes <? bsize then break (src, nbytes) else
    crypto_xor src (src - bsize) bsize ;;
    continue (src - bsize, nbytes)) (src, nbytes);
  crypto_xor src walk_iv bsize ;;
  memcpy walk_iv last_iv bsize ;;
  mret nbytes.

Definition crypto_pcbc_encrypt_segment (dst src iv nbytes : Z) : M Z :=
  '(_, nbytes) ← do_blocks (fun off iv =>
    crypto_xor iv (src + off) bsize ;;
    cia_encrypt (dst + off) iv ;;
    memcpy iv (dst + off) bsize ;;
    crypto_xor iv (src + off) bsize ;;
    mret iv) iv nbytes;
  mret nbytes.

(** [tmpbuf] is the address of the local array u8 tmpbuf[bsize]. *)
Definition crypto_pcbc_encrypt_inplace (tmpbuf src iv nbytes : Z) : M Z :=
  '(_, nbytes) ← do_blocks (fun off iv =>
    memcpy tmpbuf (src + off) bsize ;;
    crypto_xor iv (src + off) bsize ;;
    cia_encrypt (src + off) iv ;;
    memcpy iv tmpbuf bsize ;;
    crypto_xor iv (src + off) bsize ;;
    mret iv) iv nbytes;
  memcpy iv iv bsize ;;
  mret nbytes.

Definition crypto_pcbc_decrypt_segment (dst src iv nbytes : Z) : M Z :=
  '(_, nbytes) ← do_blocks (fun off iv =>
    cia_decrypt (dst + off) (src + off) ;;
    crypto_xor (dst + off) iv bsize ;;
    memcpy iv (src + off) bsize ;;
    crypto_xor iv (dst + off) bsize ;;
    mret iv) iv nbytes;
  memcpy iv iv bsize ;;
  mret nbytes.

Definition crypto_pcbc_decrypt_inplace (tmpbuf src iv nbytes : Z) : M Z :=
  '(_, nbytes) ← do_blocks (fun off iv =>
    memcpy tmpbuf (src + off) bsize ;;
    cia_decrypt (src + off) (src + off) ;;
    crypto_xor (src + off) iv bsize ;;
    memcpy iv tmpbuf bsize ;;
    crypto_xor iv (src + off) bsize ;;
    mret iv) iv nbytes;
  memcpy iv iv bsize ;;
  mret nbytes.
End Modes.

(** ** Sequences of blocks *)

(** Cipher block chaining on lists of blocks. *)
Fixpoint cbc_enc (E : list Z -> list Z) (iv : list Z) (xs : list (list Z)) : list (list Z) :=
  match xs with
  | [] => []
  | x :: xs => let c := E (xor_bytes x iv) in c :: cbc_enc E c xs
  end.

Fixpoint cbc_dec (D : list Z -> list Z) (iv : list Z) (cs : list (list Z)) : list (list Z) :=
  match cs with
  | [] => []
  | c :: cs => xor_bytes (D c) iv :: cbc_dec D c cs
  end.

(** The vector that enters block [k] of a chain whose blocks are [cs]. *)
Definition iv_at (iv : list Z) (cs : list (list Z)) (k : nat) : list Z :=
  default iv ((iv :: cs) !! k).

Lemma cbc_enc_length E iv xs : length (cbc_enc E iv xs) = length xs.
Proof. revert iv. induction xs as [|y xs IH]; intros iv; simpl; [done|]. by rewrite IH. Qed.

Lemma cbc_enc_lookup E iv xs k x :
  xs !! k = Some x ->
  cbc_enc E iv xs !! k = Some (E (xor_bytes x (iv_at iv (cbc_enc E iv xs) k))).
Proof.
  revert iv k. induction xs as [|y xs IH]; intros iv [|k] Hx; simpl in *; [done|done|by simplify_eq|].
  rewrite (IH _ _ Hx). do 3 f_equal. unfold iv_at. destruct k as [|k]; [done|]. simpl.
  destruct (cbc_enc E (E (xor_bytes y iv)) xs !! k) eqn:Ek; [done|].
  apply lookup_ge_None in Ek. apply lookup_lt_Some in Hx. rewrite cbc_enc_length in Ek. lia.
Qed.

Lemma cbc_dec_length D iv cs : length (cbc_dec D iv cs) = length cs.
Proof. revert iv. induction cs as [|c cs IH]; intros iv; simpl; [done|]. by rewrite IH. Qed.

Lemma cbc_dec_lookup D iv cs k c :
  cs !! k = Some c -> cbc_dec D iv cs !! k = Some (xor_bytes (D c) (iv_at iv cs k)).
Proof.
  revert iv k. induction cs as [|d cs IH]; intros iv [|k] Hc; simpl in *; [done|done|by simplify_eq|].
  rewrite (IH _ _ Hc). do 2 f_equal. unfold iv_at. simpl. destruct k as [|k]; [done|]. simpl.
  apply lookup_lt_Some in Hc. destruct (lookup_lt_is_Some_2 cs k) as [e ->]; [lia|done].
Qed.

Section Laws.
Context {C : Cipher} {L : CipherLaws C}.
Abbreviation bsize := cra_blocksize.
Abbreviation blocks := (Forall (block bsize)).

Lemma bsize_pos : 0 < bsize < 2 ^ 32.
Proof using L. exact blocksize_range. Qed.

(** Decryption undoes encryption, for every vector. *)
Lemma cbc_dec_enc iv xs :
  block bsize iv -> blocks xs -> cbc_dec D iv (cbc_enc E iv xs) = xs.
Proof using Type.
  intros Hiv Hxs. revert iv Hiv. induction Hxs as [|x xs Hx Hxs IH]; intros iv Hiv; simpl; [done|].
  rewrite D_E by (by apply xor_block). rewrite xor_bytes_cancel by (destruct Hx, Hiv; lia).
  f_equal. apply IH. by apply E_block, xor_block.
Qed.

Lemma cbc_enc_blocks iv xs : block bsize iv -> blocks xs -> blocks (cbc_enc E iv xs).
Proof using Type.
  intros Hiv Hxs. revert iv Hiv. induction Hxs as [|x xs Hx Hxs IH]; intros iv Hiv; simpl; [constructor|].
  assert (block bsize (E (xor_bytes x iv))) by (by apply E_block, xor_block).
  constructor; [done|by apply IH].
Qed.

Lemma cbc_dec_blocks iv cs : block bsize iv -> blocks cs -> blocks (cbc_dec D iv cs).
Proof using Type.
  intros Hiv Hcs. revert iv Hiv. induction Hcs as [|c cs Hc Hcs IH]; intros iv Hiv; simpl; constructor.
  - apply xor_block; [by apply D_block|done].
  - by apply IH.
Qed.

Lemma iv_at_block iv cs k : block bsize iv -> blocks cs -> block bsize (iv_at iv cs k).
Proof using Type.
  intros Hiv Hcs. unfold iv_at. destruct ((iv :: cs) !! k) as [c|] eqn:E; [|done]. simpl.
  apply (Forall_lookup_1 (block bsize) (iv :: cs) k); [by constructor|done].
Qed.

(** ** The loop *)

Lemma wp_do_blocks (P : nat -> Z -> mem -> Prop) body iv N r m :
  (0 < N)%nat -> 0 <= r < bsize -> P 0%nat iv m ->
  (forall k iv m, (k < N)%nat -> P k iv m -> wp (body (bsize * Z.of_nat k) iv) (P (S k)) m) ->
  wp (do_blocks body iv (bsize * Z.of_nat N + r)) (fun '(iv, nbytes) m' => P N iv m' /\ nbytes = r) m.
Proof using L.
  intros HN Hr HP Hbody. pose proof bsize_pos. unfold do_blocks.
  apply (wp_loop (fun '(off, iv, nbytes) m' => exists k, (k < N)%nat /\ off = bsize * Z.of_nat k /\
      nbytes = bsize * Z.of_nat (N - k) + r /\ P k iv m') (fun '(_, _, nbytes) => Z.to_nat nbytes)).
  - exists 0%nat. rewrite Nat.sub_0_r. split; [done|]. split; [lia|done].
  - nia.
  - intros [[off iv'] nbytes] m' (k & Hk & -> & -> & HP'). apply wp_bind.
    eapply wp_mono; [by apply Hbody|]. intros iv'' m'' HP''. cbv zeta.
    replace (bsize * Z.of_nat (N - k) + r - bsize) with (bsize * Z.of_nat (N - S k) + r) by nia.
    destruct (Z.leb_spec bsize (bsize * Z.of_nat (N - S k) + r)) as [Hle|Hlt].
    + apply wp_ret. assert (N - S k <> 0)%nat by (intros E; rewrite E in Hle; lia). split.
      * exists (S k). split; [lia|]. split; [lia|done].
      * nia.
    + apply wp_ret. assert (N = S k) as -> by (assert (N - S k < 1)%nat by nia; lia).
      rewrite Nat.sub_diag. split; [done|lia].
Qed.

(** ** Cipher block chaining *)

(** The areas of the source and of the vector do not overlap. *)
Definition areas_apart (p : Z) (n : Z) (q : Z) (k : Z) : Prop := p + n <= q \/ q + k <= p.

(** A block is left alone by writes to the blocks before it. *)
Lemma block_after m0 p cs k x :
  blocks cs -> (k <= length cs)%nat -> arr m0 (p + bsize * Z.of_nat k) x ->
  arr (write m0 p (concat (take k cs))) (p + bsize * Z.of_nat k) x.
Proof using L.
  intros Hcs Hk Ha. apply arr_write_disjoint; [|done].
  rewrite take_blocks_length by (done || lia). lia.
Qed.

Lemma memcpy_block m0 dst p x :
  arr m0 p x -> block bsize x -> mapped m0 dst bsize -> dst <= p \/ p + bsize <= dst ->
  memcpy dst p bsize m0 = Ok (dst, write m0 dst x).
Proof using L.
  intros Ha [Hx _] Hm Hd. rewrite <- Hx in *. apply memcpy_ok; [done|done|done|].
  rewrite Hx. apply bsize_pos.
Qed.

Lemma xor_blocks m0 a b x y :
  arr m0 a x -> arr m0 b y -> block bsize x -> block bsize y -> apart a b bsize ->
  crypto_xor a b bsize m0 = Ok (tt, write m0 a (xor_bytes x y)).
Proof using L.
  intros Ha Hb [Hx Bx] [Hy By] Hd. rewrite <- Hx in *. apply crypto_xor_ok; try done. lia.
Qed.

(** Writing one more block before those already written. *)
Lemma write_block_down m0 p cs k c :
  blocks cs -> cs !! k = Some c ->
  write (write m0 (p + bsize * Z.of_nat (S k)) (concat (drop (S k) cs))) (p + bsize * Z.of_nat k) c =
  write m0 (p + bsize * Z.of_nat k) (concat (drop k cs)).
Proof using Type.
  intros Hcs Hc. rewrite (drop_S _ _ _ Hc). simpl. rewrite write_app.
  apply (Forall_lookup_1 _ _ _ _ Hcs) in Hc as [Hl _].
  replace (p + bsize * Z.of_nat (S k)) with (p + bsize * Z.of_nat k + Z.of_nat (length c)) by lia.
  apply write_comm. lia.
Qed.

Lemma block_before m0 p ds k q x :
  blocks ds -> (q < k)%nat -> block bsize x -> arr m0 (p + bsize * Z.of_nat q) x ->
  arr (write m0 (p + bsize * Z.of_nat k) (concat (drop k ds))) (p + bsize * Z.of_nat q) x.
Proof using L.
  intros Hds Hk [Hx _] Ha. pose proof bsize_pos. apply arr_write_disjoint; [|done]. nia.
Qed.

(** Offset of the last whole block. *)
Lemma last_block_offset b n r :
  0 <= r < bsize -> 0 <= b -> bsize = 2 ^ b -> 0 < n ->
  bsize * n + r - Z.land (bsize * n + r) (bsize - 1) - bsize = bsize * (n - 1).
Proof using Type.
  intros Hr Hb E Hn. replace (bsize - 1) with (Z.ones b) by (rewrite Z.ones_equiv; lia).
  rewrite Z.land_ones by done. rewrite <- E.
  rewrite Z.add_comm, Z.mul_comm, Z.mod_add, Z.mod_small by lia. lia.
Qed.

Section Cbc.
Context (m : mem) (src walk_iv r : Z) (iv : list Z) (xs : list (list Z)).
Abbreviation N := (length xs).
Abbreviation nbytes := (bsize * Z.of_nat N + r).
Hypotheses (Hxs : blocks xs) (Hne : (0 < N)%nat) (Hr : 0 <= r < bsize) (Hiv : block bsize iv)
  (Hsrc : arr m src (concat xs)) (Hwiv : arr m walk_iv iv)
  (Hapart : areas_apart src (bsize * Z.of_nat N) walk_iv bsize).

Lemma block_mapped k : (k < N)%nat -> mapped m (src + bsize * Z.of_nat k) bsize.
Proof using Hxs Hsrc.
  intros Hk. destruct (lookup_lt_is_Some_2 xs k Hk) as [x Hx].
  pose proof (arr_mapped _ _ _ (arr_block _ _ _ _ _ Hxs Hsrc Hx)) as Hm.
  apply (Forall_lookup_1 _ _ _ _ Hxs) in Hx as [E _]. by rewrite E in Hm.
Qed.

Lemma iv_mapped : mapped m walk_iv bsize.
Proof using Hiv Hwiv. pose proof (arr_mapped _ _ _ Hwiv) as Hm. destruct Hiv as [E _]. by rewrite E in Hm. Qed.

Lemma cbc_encrypt_inplace_ok :
  let cs := cbc_enc E iv xs in
  crypto_cbc_encrypt_inplace src walk_iv nbytes m =
    Ok (r, write (write m src (concat cs)) walk_iv (iv_at iv cs N)).
Proof using L Hxs Hne Hr Hiv Hsrc Hwiv Hapart.
  intros cs. pose proof bsize_pos as Hbs.
  assert (blocks cs) as Hcs by (by apply cbc_enc_blocks).
  assert (length cs = N) as Hlen by apply cbc_enc_length.
  set (mk := fun k => write m src (concat (take k cs))).
  set (ip := fun k => if (k =? 0)%nat then walk_iv else src + bsize * (Z.of_nat k - 1)).
  assert (forall k, (k <= N)%nat -> arr (mk k) (ip k) (iv_at iv cs k)) as Hiv_at.
  { intros [|k] Hk; unfold ip, iv_at; simpl; [done|].
    destruct (lookup_lt_is_Some_2 cs k) as [c Hc]; [lia|]. rewrite Hc. simpl.
    unfold mk. rewrite <- (write_block m src cs k c Hcs Hc).
    replace (Z.of_nat (S k) - 1) with (Z.of_nat k) by lia. apply write_arr. }
  assert (forall k, (k < N)%nat -> apart (src + bsize * Z.of_nat k) (ip k) bsize) as Hap.
  { intros [|k] Hk; unfold ip, apart; simpl; unfold areas_apart in Hapart; [nia|right; nia]. }
  apply wp_eq. unfold crypto_cbc_encrypt_inplace. apply wp_bind.
  eapply wp_mono; [apply (wp_do_blocks (fun k p m' => m' = mk k /\ p = ip k)); [done|done|done|]|].
  - intros k p m' Hk [-> ->]. destruct (lookup_lt_is_Some_2 xs k Hk) as [x Hx].
    pose proof (Forall_lookup_1 _ _ _ _ Hxs Hx) as Bx.
    pose proof (iv_at_block iv cs k Hiv Hcs) as Biv.
    pose proof (block_after m src cs k x Hcs ltac:(lia) (arr_block _ _ _ _ _ Hxs Hsrc Hx)) as Hax.
    apply wp_bind. eapply wp_det; [apply (xor_blocks _ _ _ x (iv_at iv cs k)); auto with lia|].
    apply wp_bind. eapply wp_det.
    { apply (encrypt_ok _ _ _ (xor_bytes x (iv_at iv cs k))); [apply write_arr|by apply xor_block|].
      do 2 apply mapped_write. by apply block_mapped. }
    apply wp_ret. split; [|unfold ip; simpl; lia].
    assert (block bsize (E (xor_bytes x (iv_at iv cs k)))) as Bc by (by apply E_block, xor_block).
    rewrite write_write by (destruct Bc, (xor_block _ _ _ Bx Biv); lia).
    apply write_block; [done|]. by apply cbc_enc_lookup.
  - intros [p nb] m' [[-> ->] ->]. apply wp_bind. eapply wp_det.
    { apply (memcpy_block _ _ _ (iv_at iv cs N)); [by apply Hiv_at|by apply iv_at_block|
        apply mapped_write, iv_mapped|]. unfold ip. destruct N as [|n]; [lia|]. simpl.
      unfold areas_apart in Hapart. nia. }
    apply wp_ret. split; [done|]. unfold mk. by rewrite take_ge by lia.
Qed.

(** ** Decryption in place, from the last block to the first *)

Section DecryptInplace.
Context (last_iv b : Z).
Hypotheses (Hb : 0 <= b) (Hpow : bsize = 2 ^ b) (Hlast : mapped m last_iv bsize)
  (Hl1 : areas_apart src (bsize * Z.of_nat N) last_iv bsize) (Hl2 : apart last_iv walk_iv bsize).

Abbreviation ds := (cbc_dec D iv xs).
Abbreviation m1 := (write m last_iv (iv_at iv xs N)).
Abbreviation mk k := (write m1 (src + bsize * Z.of_nat k) (concat (drop k ds))).

Lemma arr_m1 p x : arr m p x -> block bsize x -> apart last_iv p bsize -> arr m1 p x.
Proof using All.
  intros Ha [Hx _] Hd. destruct (iv_at_block iv xs N Hiv Hxs) as [Hl _].
  apply arr_write_disjoint; [|done]. unfold apart in Hd. lia.
Qed.

Lemma block_m1 k x : xs !! k = Some x -> arr m1 (src + bsize * Z.of_nat k) x.
Proof using All.
  intros Hx. pose proof bsize_pos. pose proof (lookup_lt_Some _ _ _ Hx).
  apply arr_m1; [by apply (arr_block _ _ xs)|by apply (Forall_lookup_1 _ _ _ _ Hxs Hx)|].
  unfold areas_apart, apart in *. nia.
Qed.

(** The loop, entered with block [k] still to be decrypted and those after it done. *)
Lemma decrypt_down fuel k :
  (k < N)%nat -> (k < fuel)%nat ->
  exists d, ds !! 0%nat = Some (xor_bytes d iv) /\ block bsize d /\
  loop fuel (fun '(src, nbytes) =>
    cia_decrypt src src ;;
    let nbytes := nbytes - bsize in
    if nbytes <? bsize then break (src, nbytes) else
    crypto_xor src (src - bsize) bsize ;;
    continue (src - bsize, nbytes)) (src + bsize * Z.of_nat k, bsize * Z.of_nat (S k) + r) (mk (S k)) =
  Ok ((src, r), write (mk 1%nat) src d).
Proof using All.
  pose proof bsize_pos as Hbs. assert (blocks ds) as Hds by (by apply cbc_dec_blocks).
  revert k. induction fuel as [|fuel IH]; intros k Hk Hf; [lia|].
  destruct (lookup_lt_is_Some_2 xs k Hk) as [x Hx].
  pose proof (Forall_lookup_1 _ _ _ _ Hxs Hx) as Bx. pose proof (D_block _ Bx) as Bd.
  pose proof (block_before m1 src ds (S k) k x Hds ltac:(lia) Bx (block_m1 k x Hx)) as Hax.
  assert (cia_decrypt (src + bsize * Z.of_nat k) (src + bsize * Z.of_nat k) (mk (S k)) =
    Ok (tt, write (mk (S k)) (src + bsize * Z.of_nat k) (D x))) as Hdec.
  { apply decrypt_ok; [done|done|]. do 2 apply mapped_write. by apply block_mapped. }
  destruct k as [|k].
  - exists (D x). split; [by rewrite (cbc_dec_lookup D iv xs 0 x Hx)|]. split; [done|].
    rewrite loop_S, bind_bind, (bind_Ok _ _ _ _ _ Hdec). cbv zeta.
    replace (bsize * Z.of_nat 1 + r - bsize) with r by lia.
    replace (r <? bsize) with true by lia. rewrite bind_ret.
    by replace (src + bsize * Z.of_nat 0) with src by lia.
  - destruct (lookup_lt_is_Some_2 xs k ltac:(lia)) as [y Hy].
    pose proof (Forall_lookup_1 _ _ _ _ Hxs Hy) as By.
    destruct (IH k ltac:(lia) ltac:(lia)) as (d & Hd & Bd' & Hloop). exists d. split; [done|]. split; [done|].
    rewrite loop_S, bind_bind, (bind_Ok _ _ _ _ _ Hdec). cbv zeta.
    replace (bsize * Z.of_nat (S (S k)) + r - bsize) with (bsize * Z.of_nat (S k) + r) by lia.
    replace (bsize * Z.of_nat (S k) + r <? bsize) with false by nia.
    replace (src + bsize * Z.of_nat (S k) - bsize) with (src + bsize * Z.of_nat k) by lia.
    rewrite bind_bind. erewrite bind_Ok.
    2: { apply (xor_blocks _ _ _ (D x) y); [apply write_arr| |done|done|right; lia].
         apply arr_write_disjoint; [destruct By; lia|]. apply block_before; [done|lia|done|].
         by apply block_m1. }
    rewrite bind_ret, <- Hloop. f_equal.
    rewrite write_write by (rewrite xor_bytes_length; destruct Bd, By; lia).
    apply write_block_down; [done|]. rewrite (cbc_dec_lookup D iv xs _ x Hx).
    do 2 f_equal. unfold iv_at. simpl. by rewrite Hy.
Qed.

Lemma cbc_decrypt_inplace_ok :
  crypto_cbc_decrypt_inplace last_iv src walk_iv nbytes m =
    Ok (r, write (write m1 src (concat ds)) walk_iv (iv_at iv xs N)).
Proof using All.
  pose proof bsize_pos as Hbs. assert (blocks ds) as Hds by (by apply cbc_dec_blocks).
  assert (exists n, N = S n) as [n EN] by (exists (N - 1)%nat; lia).
  assert (bsize * Z.of_nat N = bsize + bsize * Z.of_nat n) as Hsum by (rewrite EN; lia).
  assert (0 <= bsize * Z.of_nat n) by lia.
  destruct (lookup_lt_is_Some_2 xs n) as [x Hx]; [lia|].
  pose proof (Forall_lookup_1 _ _ _ _ Hxs Hx) as Bx.
  assert (iv_at iv xs N = x) as Ex by (rewrite EN; unfold iv_at; simpl; by rewrite Hx).
  unfold crypto_cbc_decrypt_inplace. cbv zeta.
  rewrite (last_block_offset b) by lia. replace (Z.of_nat N - 1) with (Z.of_nat n) by lia.
  erewrite bind_Ok.
  2: { apply memcpy_block; [by apply (arr_block _ _ xs)|done|done|].
       unfold areas_apart in Hl1. lia. }
  destruct (decrypt_down (S (Z.to_nat nbytes)) n) as (d & Hd & Bd & Hloop); [lia|nia|].
  rewrite Ex in Hloop |- *. rewrite <- EN in Hloop.
  rewrite (drop_ge ds N) in Hloop by (rewrite cbc_dec_length; lia). simpl in Hloop.
  rewrite (bind_Ok _ _ _ _ _ Hloop). clear Hloop.
  assert (arr (write m last_iv x) walk_iv iv) as Hiv1 by (rewrite <- Ex; by apply arr_m1).
  assert (length (concat (drop 1 ds)) <= Z.to_nat (bsize * Z.of_nat n))%nat as Hdl.
  { enough (Z.of_nat (length (concat (drop 1 ds))) = bsize * Z.of_nat n) by lia.
    rewrite concat_length by (by apply Forall_drop). rewrite length_drop, cbc_dec_length.
    by replace (N - 1)%nat with n by lia. }
  erewrite bind_Ok.
  2: { apply (xor_blocks _ _ _ d iv); [apply write_arr| |done|done|unfold areas_apart, apart in *; lia].
       apply arr_write_disjoint; [destruct Bd, Hiv; unfold areas_apart in *; lia|].
       apply arr_write_disjoint; [destruct Hiv; unfold areas_apart in *; lia|done]. }
  rewrite write_write by (rewrite xor_bytes_length; destruct Bd, Hiv; lia).
  pose proof (write_block_down (write m last_iv x) src ds 0 _ Hds Hd) as Hw.
  rewrite Z.mul_0_r, Z.add_0_r in Hw. rewrite Hw, drop_0.
  erewrite bind_Ok; [done|]. apply memcpy_block; [|done|do 2 apply mapped_write; by apply iv_mapped|].
  - apply arr_write_disjoint; [|apply write_arr]. rewrite concat_length, cbc_dec_length by done.
    destruct Bx. unfold areas_apart in *. lia.
  - unfold apart in Hl2. lia.
Qed.
End DecryptInplace.
End Cbc.

(** ** Propagating cipher block chaining, on lists of blocks *)

Fixpoint pcbc_enc (E : list Z -> list Z) (iv : list Z) (xs : list (list Z)) : list (list Z) :=
  match xs with
  | [] => []
  | x :: xs => let c := E (xor_bytes x iv) in c :: pcbc_enc E (xor_bytes c x) xs
  end.

Fixpoint pcbc_dec (D : list Z -> list Z) (iv : list Z) (cs : list (list Z)) : list (list Z) :=
  match cs with
  | [] => []
  | c :: cs => let x := xor_bytes (D c) iv in x :: pcbc_dec D (xor_bytes c x) cs
  end.

(** The vector that enters block [k]. *)
Abbreviation pcbc_iv iv xs cs k := (iv_at iv (zip_with xor_bytes cs xs) k).

Lemma pcbc_enc_length F iv xs : length (pcbc_enc F iv xs) = length xs.
Proof using Type. revert iv. induction xs as [|y xs IH]; intros iv; simpl; [done|]. by rewrite IH. Qed.

Lemma pcbc_dec_length F iv cs : length (pcbc_dec F iv cs) = length cs.
Proof using Type. revert iv. induction cs as [|y cs IH]; intros iv; simpl; [done|]. by rewrite IH. Qed.

Lemma iv_at_S iv w vs k : (k <= length vs)%nat -> iv_at iv (w :: vs) (S k) = iv_at w vs k.
Proof using Type.
  intros Hk. unfold iv_at. simpl. destruct k as [|k]; simpl; [done|].
  destruct (lookup_lt_is_Some_2 vs k) as [v ->]; [lia|done].
Qed.

Lemma pcbc_enc_lookup F iv xs k x :
  xs !! k = Some x ->
  pcbc_enc F iv xs !! k = Some (F (xor_bytes x (pcbc_iv iv xs (pcbc_enc F iv xs) k))).
Proof using Type.
  revert iv k. induction xs as [|y xs IH]; intros iv [|k] Hx; simpl in *; [done|done|by simplify_eq|].
  rewrite iv_at_S; [by apply IH|].
  apply lookup_lt_Some in Hx. rewrite length_zip_with, pcbc_enc_length. lia.
Qed.

Lemma pcbc_dec_lookup F iv cs k c :
  cs !! k = Some c ->
  pcbc_dec F iv cs !! k = Some (xor_bytes (F c) (pcbc_iv iv (pcbc_dec F iv cs) cs k)).
Proof using Type.
  revert iv k. induction cs as [|y cs IH]; intros iv [|k] Hx; simpl in *; [done|done|by simplify_eq|].
  rewrite iv_at_S; [by apply IH|].
  apply lookup_lt_Some in Hx. rewrite length_zip_with, pcbc_dec_length. lia.
Qed.

Lemma pcbc_dec_enc iv xs :
  block bsize iv -> blocks xs -> pcbc_dec D iv (pcbc_enc E iv xs) = xs.
Proof using Type.
  intros Hiv Hxs. revert iv Hiv. induction Hxs as [|x xs Hx Hxs IH]; intros iv Hiv; simpl; [done|].
  rewrite D_E by (by apply xor_block). rewrite xor_bytes_cancel by (destruct Hx, Hiv; lia).
  f_equal. apply IH. apply xor_block; [|done]. by apply E_block, xor_block.
Qed.

Lemma pcbc_enc_blocks iv xs : block bsize iv -> blocks xs -> blocks (pcbc_enc E iv xs).
Proof using Type.
  intros Hiv Hxs. revert iv Hiv. induction Hxs as [|x xs Hx Hxs IH]; intros iv Hiv; simpl; [constructor|].
  assert (block bsize (E (xor_bytes x iv))) by (by apply E_block, xor_block).
  constructor; [done|]. by apply IH, xor_block.
Qed.

Lemma pcbc_dec_blocks iv cs : block bsize iv -> blocks cs -> blocks (pcbc_dec D iv cs).
Proof using Type.
  intros Hiv Hcs. revert iv Hiv. induction Hcs as [|c cs Hc Hcs IH]; intros iv Hiv; simpl; [constructor|].
  assert (block bsize (xor_bytes (D c) iv)) by (by apply xor_block; [apply D_block|]).
  constructor; [done|]. by apply IH, xor_block.
Qed.

Lemma zip_blocks xs ys : blocks xs -> blocks ys -> blocks (zip_with xor_bytes xs ys).
Proof using Type.
  intros Hxs. revert ys. induction Hxs as [|x xs Hx Hxs IH]; intros [|y ys] Hys; simpl; try constructor.
  - apply xor_block; [done|]. by inversion Hys.
  - apply IH. by inversion Hys.
Qed.

Lemma iv_at_next iv xs cs k x c :
  xs !! k = Some x -> cs !! k = Some c -> pcbc_iv iv xs cs (S k) = xor_bytes c x.
Proof using Type. intros Hx Hc. unfold iv_at. simpl. by rewrite lookup_zip_with, Hc, Hx. Qed.

(** ** The loops that keep the vector in the walk's buffer *)

Section Layout.
Context (dst ivp : Z) (outs : list (list Z)).
Hypotheses (Houts : blocks outs) (Hdi : areas_apart dst (bsize * Z.of_nat (length outs)) ivp bsize).

(** The memory after [k] blocks have been written, with the vector [v]. *)
Definition layout (m : mem) (k : nat) (v : list Z) : mem :=
  write (write m dst (concat (take k outs))) ivp v.

Lemma layout_mapped m k v p n : mapped m p n -> mapped (layout m k v) p n.
Proof using Type. intros. by do 2 apply mapped_write. Qed.

Lemma layout_iv m k v : arr (layout m k v) ivp v.
Proof using Type. apply write_arr. Qed.

Lemma layout_set_iv m k v v' :
  block bsize v -> block bsize v' -> write (layout m k v) ivp v' = layout m k v'.
Proof using Type. intros [] []. unfold layout. rewrite write_write by lia. done. Qed.

Lemma layout_out m k v c :
  outs !! k = Some c -> block bsize v -> write (layout m k v) (dst + bsize * Z.of_nat k) c = layout m (S k) v.
Proof using L Houts Hdi.
  intros Hc [Hv _]. pose proof bsize_pos. pose proof (lookup_lt_Some _ _ _ Hc).
  pose proof (Forall_lookup_1 _ _ _ _ Houts Hc) as [Hcl _]. unfold layout, areas_apart in *.
  rewrite write_comm by nia. f_equal. by apply write_block.
Qed.

(** A block outside of both areas. *)
Lemma layout_read m k v p x :
  (k <= length outs)%nat -> block bsize v -> block bsize x -> apart ivp p bsize ->
  areas_apart dst (bsize * Z.of_nat (length outs)) p bsize -> arr m p x -> arr (layout m k v) p x.
Proof using L Houts Hdi.
  intros Hk [Hv _] [Hx _] H1 H2 Ha. pose proof bsize_pos. unfold areas_apart, apart in *.
  apply arr_write_disjoint; [lia|]. apply arr_write_disjoint; [|done].
  rewrite take_blocks_length by (done || lia). nia.
Qed.

(** The next block of a buffer that is rewritten in place. *)
Lemma layout_next m k v x :
  (k < length outs)%nat -> block bsize v -> block bsize x ->
  arr m (dst + bsize * Z.of_nat k) x -> arr (layout m k v) (dst + bsize * Z.of_nat k) x.
Proof using L Houts Hdi.
  intros Hk [Hv _] [Hx _] Ha. pose proof bsize_pos. unfold areas_apart, apart in *.
  apply arr_write_disjoint; [nia|]. apply arr_write_disjoint; [|done].
  rewrite take_blocks_length by (done || lia). lia.
Qed.

(** A temporary buffer outside of both areas. *)
Lemma layout_tmp m k v p t :
  (k <= length outs)%nat -> block bsize v -> block bsize t -> apart ivp p bsize ->
  areas_apart dst (bsize * Z.of_nat (length outs)) p bsize ->
  write (layout m k v) p t = layout (write m p t) k v.
Proof using L Houts Hdi.
  intros Hk [Hv _] [Ht _] H1 H2. pose proof bsize_pos. unfold areas_apart, apart, layout in *.
  rewrite write_comm by lia. f_equal. apply write_comm.
  rewrite take_blocks_length by (done || lia). nia.
Qed.

(** A block of the output lies apart from the vector. *)
Lemma out_apart k : (k < length outs)%nat -> apart (dst + bsize * Z.of_nat k) ivp bsize.
Proof using L Hdi. intros Hk. pose proof bsize_pos. unfold areas_apart, apart in *. nia. Qed.
End Layout.

(** From one buffer to another. *)
Section Segment.
Context (m : mem) (dst src ivp r : Z) (iv : list Z) (xs : list (list Z)).
Abbreviation N := (length xs).
Abbreviation size := (bsize * Z.of_nat N).
Hypotheses (Hxs : blocks xs) (Hne : (0 < N)%nat) (Hr : 0 <= r < bsize) (Hiv : block bsize iv)
  (Hsrc : arr m src (concat xs)) (Hivp : arr m ivp iv) (Hdst : mapped m dst size)
  (Hds : areas_apart dst size src size) (Hdi : areas_apart dst size ivp bsize)
  (Hsi : areas_apart src size ivp bsize).

Section Body.
Context (outs : list (list Z)) (k : nat) (x v : list Z).
Hypotheses (Houts : blocks outs) (Hlen : length outs = N) (Hx : xs !! k = Some x) (Hv : block bsize v).
Abbreviation mk := (layout dst ivp outs m k v).
Abbreviation p := (src + bsize * Z.of_nat k).
Abbreviation q := (dst + bsize * Z.of_nat k).

Lemma seg_k : (k < N)%nat.
Proof using Hx. by apply lookup_lt_Some in Hx. Qed.

Lemma seg_x : block bsize x.
Proof using Hxs Hx. by apply (Forall_lookup_1 _ _ _ _ Hxs Hx). Qed.

Lemma seg_src_apart : apart ivp p bsize /\ areas_apart dst (bsize * Z.of_nat (length outs)) p bsize /\
  apart p ivp bsize /\ apart q p bsize /\ apart q ivp bsize.
Proof using All.
  pose proof bsize_pos. pose proof seg_k. rewrite Hlen. unfold areas_apart, apart in *. nia.
Qed.

Lemma seg_src : arr mk p x.
Proof using All.
  destruct seg_src_apart as (H1 & H2 & _). pose proof seg_k. pose proof seg_x.
  apply layout_read; try done; [rewrite Hlen; done|lia|]. by apply (arr_block _ _ xs).
Qed.

Lemma seg_dst_mapped : mapped mk q bsize.
Proof using All.
  pose proof bsize_pos. pose proof seg_k. apply layout_mapped.
  apply (mapped_sub m dst size); [done|nia|nia].
Qed.
End Body.

Lemma cbc_encrypt_segment_ok :
  let cs := cbc_enc E iv xs in
  crypto_cbc_encrypt_segment dst src ivp (size + r) m = Ok (r, layout dst ivp cs m N (iv_at iv cs N)).
Proof using All.
  intros cs. assert (blocks cs) as Hcs by (by apply cbc_enc_blocks).
  assert (length cs = N) as Hlen by apply cbc_enc_length.
  apply wp_eq. unfold crypto_cbc_encrypt_segment. apply wp_bind.
  eapply wp_mono; [apply (wp_do_blocks (fun k p m' => p = ivp /\ m' = layout dst ivp cs m k (iv_at iv cs k)));
    [done|done| |]|].
  - split; [done|]. unfold layout, iv_at. simpl. by rewrite write_id.
  - intros k p m' Hk [-> ->]. destruct (lookup_lt_is_Some_2 xs k Hk) as [x Hx].
    pose proof (cbc_enc_lookup E iv xs k x Hx) as Hc. fold cs in Hc.
    set (v := iv_at iv cs k) in *. assert (block bsize v) as Bv by (by apply iv_at_block).
    pose proof (seg_x k x Hx) as Bx. pose proof (xor_block _ _ _ Bx Bv) as Bxv.
    destruct (seg_src_apart cs k x v Hcs Hlen Hx Bv) as (H1 & H2 & H3 & H4 & H5).
    apply wp_bind. eapply wp_det; [apply (xor_blocks _ _ _ v x); [apply layout_iv|by apply seg_src|done..]|].
    rewrite (xor_bytes_comm v x), layout_set_iv by done. apply wp_bind. eapply wp_det.
    { apply (encrypt_ok _ _ _ (xor_bytes x v)); [apply layout_iv|done|]. by apply (seg_dst_mapped cs k x). }
    apply wp_bind. eapply wp_det.
    { apply (memcpy_block _ _ _ (E (xor_bytes x v))); [apply write_arr|by apply E_block| |unfold apart in *; lia].
      apply mapped_write, layout_mapped. by apply (arr_block_mapped _ _ iv). }
    apply wp_ret. split; [done|]. rewrite (layout_out dst ivp cs) by (done || by rewrite Hlen).
    rewrite layout_set_iv by (done || by apply E_block).
    f_equal. unfold iv_at. simpl. by rewrite Hc.
  - intros [p nb] m' [[-> ->] ->]. by apply wp_ret.
Qed.

Lemma cbc_decrypt_segment_ok :
  let ds := cbc_dec D iv xs in
  crypto_cbc_decrypt_segment dst src ivp (size + r) m = Ok (r, layout dst ivp ds m N (iv_at iv xs N)).
Proof using All.
  intros ds. pose proof bsize_pos as Hbs. assert (blocks ds) as Hbl by (by apply cbc_dec_blocks).
  assert (length ds = N) as Hlen by apply cbc_dec_length.
  set (ip := fun k => if (k =? 0)%nat then ivp else src + bsize * (Z.of_nat k - 1)).
  assert (forall k, (k <= N)%nat -> arr (layout dst ivp ds m k iv) (ip k) (iv_at iv xs k)) as Hiv_at.
  { intros [|k] Hk; unfold ip, iv_at; simpl; [apply layout_iv|].
    destruct (lookup_lt_is_Some_2 xs k Hk) as [x Hx]. rewrite Hx. simpl.
    replace (Z.of_nat (S k) - 1) with (Z.of_nat k) by lia.
    destruct (seg_src_apart ds k x iv Hbl Hlen Hx Hiv) as (H1 & H2 & _).
    apply layout_read; try done; [by rewrite Hlen|lia|by apply (seg_x k)|by apply (arr_block _ _ xs)]. }
  assert (forall k, (k < N)%nat -> apart (dst + bsize * Z.of_nat k) (ip k) bsize) as Hap.
  { intros [|k] Hk; unfold ip, areas_apart, apart in *; simpl; nia. }
  apply wp_eq. unfold crypto_cbc_decrypt_segment. apply wp_bind.
  eapply wp_mono; [apply (wp_do_blocks (fun k p m' => p = ip k /\ m' = layout dst ivp ds m k iv));
    [done|done| |]|].
  - split; [done|]. unfold layout. simpl. by rewrite write_id.
  - intros k p m' Hk [-> ->]. destruct (lookup_lt_is_Some_2 xs k Hk) as [x Hx].
    pose proof (seg_x k x Hx) as Bx. pose proof (D_block _ Bx) as BD.
    assert (block bsize (iv_at iv xs k)) as Bv by (by apply iv_at_block).
    apply wp_bind. eapply wp_det.
    { apply (decrypt_ok _ _ _ x); [by apply seg_src|done|]. by apply (seg_dst_mapped ds k x). }
    apply wp_bind. eapply wp_det.
    { apply (xor_blocks _ _ _ (D x) (iv_at iv xs k)); [apply write_arr| |done|done|by apply Hap].
      apply arr_write_disjoint; [|apply Hiv_at; lia].
      specialize (Hap k Hk). destruct Bv, BD. unfold apart in Hap. lia. }
    apply wp_ret. split; [unfold ip; simpl; lia|].
    rewrite write_write by (rewrite xor_bytes_length; destruct BD, Bv; lia).
    apply layout_out; [done|by rewrite Hlen| |done]. by apply cbc_dec_lookup.
  - intros [p nb] m' [[-> ->] ->]. apply wp_bind. eapply wp_det.
    { apply (memcpy_block _ _ _ (iv_at iv xs N)); [by apply Hiv_at|by apply iv_at_block| |].
      - by apply layout_mapped, (arr_block_mapped _ _ iv).
      - unfold ip, areas_apart in *. destruct (N =? 0)%nat; [lia|nia]. }
    apply wp_ret. split; [done|]. apply layout_set_iv; [done|by apply iv_at_block].
Qed.

Lemma pcbc_encrypt_segment_ok :
  let cs := pcbc_enc E iv xs in
  crypto_pcbc_encrypt_segment dst src ivp (size + r) m = Ok (r, layout dst ivp cs m N (pcbc_iv iv xs cs N)).
Proof using All.
  intros cs. assert (blocks cs) as Hcs by (by apply pcbc_enc_blocks).
  assert (length cs = N) as Hlen by apply pcbc_enc_length.
  apply wp_eq. unfold crypto_pcbc_encrypt_segment. apply wp_bind.
  eapply wp_mono; [apply (wp_do_blocks (fun k p m' => p = ivp /\ m' = layout dst ivp cs m k (pcbc_iv iv xs cs k)));
    [done|done| |]|].
  - split; [done|]. unfold layout, iv_at. simpl. by rewrite write_id.
  - intros k p m' Hk [-> ->]. destruct (lookup_lt_is_Some_2 xs k Hk) as [x Hx].
    pose proof (pcbc_enc_lookup E iv xs k x Hx) as Hc. fold cs in Hc.
    rewrite (iv_at_next _ _ _ _ _ _ Hx Hc). set (v := iv_at _ _ _) in *.
    assert (block bsize v) as Bv by (by apply iv_at_block, zip_blocks).
    pose proof (seg_x k x Hx) as Bx. pose proof (xor_block _ _ _ Bx Bv) as Bxv.
    pose proof (E_block _ Bxv) as Bc. set (c := E (xor_bytes x v)) in *.
    destruct (seg_src_apart cs k x v Hcs Hlen Hx Bv) as (H1 & H2 & H3 & H4 & H5).
    apply wp_bind. eapply wp_det; [apply (xor_blocks _ _ _ v x); [apply layout_iv|by apply seg_src|done..]|].
    rewrite (xor_bytes_comm v x), layout_set_iv by done. apply wp_bind. eapply wp_det.
    { apply (encrypt_ok _ _ _ (xor_bytes x v)); [apply layout_iv|done|]. by apply (seg_dst_mapped cs k x). }
    apply wp_bind. eapply wp_det.
    { apply (memcpy_block _ _ _ c); [apply write_arr|done| |unfold apart in *; lia].
      by apply mapped_write, layout_mapped, (arr_block_mapped _ _ iv). }
    fold c. rewrite (layout_out dst ivp cs) by (done || by rewrite Hlen). rewrite layout_set_iv by done.
    apply wp_bind. eapply wp_det.
    { apply (xor_blocks _ _ _ c x); [apply layout_iv| |done..].
      apply layout_read; try done; [by rewrite Hlen|lia|by apply (arr_block _ _ xs)]. }
    apply wp_ret. split; [done|]. apply layout_set_iv; [done|by apply xor_block].
  - intros [p nb] m' [[-> ->] ->]. by apply wp_ret.
Qed.

Lemma pcbc_decrypt_segment_ok :
  let ds := pcbc_dec D iv xs in
  crypto_pcbc_decrypt_segment dst src ivp (size + r) m = Ok (r, layout dst ivp ds m N (pcbc_iv iv ds xs N)).
Proof using All.
  intros ds. assert (blocks ds) as Hbl by (by apply pcbc_dec_blocks).
  assert (length ds = N) as Hlen by apply pcbc_dec_length.
  apply wp_eq. unfold crypto_pcbc_decrypt_segment. apply wp_bind.
  eapply wp_mono; [apply (wp_do_blocks (fun k p m' => p = ivp /\ m' = layout dst ivp ds m k (pcbc_iv iv ds xs k)));
    [done|done| |]|].
  - split; [done|]. unfold layout, iv_at. simpl. by rewrite write_id.
  - intros k p m' Hk [-> ->]. destruct (lookup_lt_is_Some_2 xs k Hk) as [x Hx].
    pose proof (pcbc_dec_lookup D iv xs k x Hx) as Hd. fold ds in Hd.
    rewrite (iv_at_next _ _ _ _ _ _ Hd Hx). set (v := iv_at _ _ _) in *.
    assert (block bsize v) as Bv by (by apply iv_at_block, zip_blocks).
    pose proof (seg_x k x Hx) as Bx. pose proof (D_block _ Bx) as BD.
    pose proof (xor_block _ _ _ BD Bv) as Bd. set (d := xor_bytes (D x) v) in *.
    destruct (seg_src_apart ds k x v Hbl Hlen Hx Bv) as (H1 & H2 & H3 & H4 & H5).
    apply wp_bind. eapply wp_det.
    { apply (decrypt_ok _ _ _ x); [by apply seg_src|done|]. by apply (seg_dst_mapped ds k x). }
    apply wp_bind. eapply wp_det.
    { apply (xor_blocks _ _ _ (D x) v); [apply write_arr| |done..].
      apply arr_write_disjoint; [|apply layout_iv]. destruct Bv, BD. unfold apart in *. lia. }
    rewrite write_write by (rewrite xor_bytes_length; destruct BD, Bv; lia).
    rewrite (layout_out dst ivp ds) by (done || by rewrite Hlen).
    apply wp_bind. eapply wp_det.
    { apply (memcpy_block _ _ _ x); [|done| |unfold apart in *; lia].
      - apply layout_read; try done; [by rewrite Hlen|lia|by apply (arr_block _ _ xs)].
      - by apply layout_mapped, (arr_block_mapped _ _ iv). }
    rewrite layout_set_iv by done. apply wp_bind. eapply wp_det.
    { apply (xor_blocks _ _ _ x d); [apply layout_iv| |done|done|unfold apart in *; lia].
      rewrite <- (layout_out dst ivp ds) with (c := d) by (done || by rewrite Hlen). apply write_arr. }
    apply wp_ret. split; [done|]. apply layout_set_iv; [done|by apply xor_block].
  - intros [p nb] m' [[-> ->] ->].
    assert (block bsize (pcbc_iv iv ds xs N)) as Bv by (by apply iv_at_block, zip_blocks).
    apply wp_bind. eapply wp_det.
    { apply (memcpy_block _ _ _ _ (layout_iv _ _ _ _ _ _) Bv); [|lia].
      by apply layout_mapped, (arr_block_mapped _ _ iv). }
    apply wp_ret. split; [done|]. by apply layout_set_iv.
Qed.
End Segment.

(** Inside one buffer, with a temporary block. *)
Section Inplace.
Context (m : mem) (tmpbuf src ivp r : Z) (iv t0 : list Z) (xs : list (list Z)).
Abbreviation N := (length xs).
Abbreviation size := (bsize * Z.of_nat N).
Hypotheses (Hxs : blocks xs) (Hne : (0 < N)%nat) (Hr : 0 <= r < bsize) (Hiv : block bsize iv)
  (Ht0 : block bsize t0) (Hsrc : arr m src (concat xs)) (Hivp : arr m ivp iv) (Htmp : arr m tmpbuf t0)
  (Hsi : areas_apart src size ivp bsize) (Hst : areas_apart src size tmpbuf bsize)
  (Hit : apart ivp tmpbuf bsize).

Section Body.
Context (outs : list (list Z)) (k : nat) (x v t : list Z).
Hypotheses (Houts : blocks outs) (Hlen : length outs = N) (Hx : xs !! k = Some x) (Hv : block bsize v)
  (Ht : block bsize t).
Abbreviation mk := (layout src ivp outs (write m tmpbuf t) k v).
Abbreviation p := (src + bsize * Z.of_nat k).

Lemma inp_k : (k < N)%nat.
Proof using Hx. by apply lookup_lt_Some in Hx. Qed.

Lemma inp_x : block bsize x.
Proof using Hxs Hx. by apply (Forall_lookup_1 _ _ _ _ Hxs Hx). Qed.

Lemma inp_apart : areas_apart src (bsize * Z.of_nat (length outs)) ivp bsize /\
  areas_apart src (bsize * Z.of_nat (length outs)) tmpbuf bsize /\
  apart p ivp bsize /\ apart p tmpbuf bsize.
Proof using All.
  pose proof bsize_pos. pose proof inp_k. rewrite Hlen. unfold areas_apart, apart in *. nia.
Qed.

Lemma inp_src : arr mk p x.
Proof using All.
  pose proof bsize_pos. pose proof inp_k. pose proof inp_x as Bx.
  apply layout_next; try done; [by rewrite Hlen|lia|].
  apply arr_write_disjoint; [|by apply (arr_block _ _ xs)].
  destruct Ht, Bx. unfold areas_apart in *. nia.
Qed.

Lemma inp_mapped q y : arr m q y -> block bsize y -> mapped mk q bsize.
Proof using Type. intros. by apply layout_mapped, mapped_write, (arr_block_mapped _ _ y). Qed.

Lemma inp_src_mapped : mapped mk p bsize.
Proof using All. by apply (inp_mapped _ x); [apply (arr_block _ _ xs)|apply inp_x]. Qed.

(** memcpy(tmpbuf, src, bsize). *)
Lemma inp_save : memcpy tmpbuf p bsize mk = Ok (tmpbuf, layout src ivp outs (write m tmpbuf x) k v).
Proof using All.
  pose proof inp_k. pose proof inp_x as Bx. destruct inp_apart as (H1 & H2 & H3 & H4).
  rewrite (memcpy_block _ _ _ x); [|by apply inp_src|done|by apply (inp_mapped _ t0)|unfold apart in *; lia].
  rewrite layout_tmp by (done || by rewrite Hlen || rewrite Hlen; lia).
  rewrite write_write by (destruct Ht, Bx; lia). done.
Qed.
End Body.

Lemma pcbc_encrypt_inplace_ok :
  let cs := pcbc_enc E iv xs in
  exists t, block bsize t /\
  crypto_pcbc_encrypt_inplace tmpbuf src ivp (size + r) m =
    Ok (r, layout src ivp cs (write m tmpbuf t) N (pcbc_iv iv xs cs N)).
Proof using All.
  intros cs. assert (blocks cs) as Hcs by (by apply pcbc_enc_blocks).
  assert (length cs = N) as Hlen by apply pcbc_enc_length.
  enough (wp (crypto_pcbc_encrypt_inplace tmpbuf src ivp (size + r)) (fun n m' => n = r /\
    exists t, block bsize t /\ m' = layout src ivp cs (write m tmpbuf t) N (pcbc_iv iv xs cs N)) m) as Hwp.
  { apply wp_run in Hwp as (n & m' & -> & -> & t & Bt & ->). by exists t. }
  unfold crypto_pcbc_encrypt_inplace. apply wp_bind.
  eapply wp_mono; [apply (wp_do_blocks (fun k p m' => p = ivp /\
    exists t, block bsize t /\ m' = layout src ivp cs (write m tmpbuf t) k (pcbc_iv iv xs cs k)));
    [done|done| |]|].
  - split; [done|]. exists t0. split; [done|]. unfold layout, iv_at. simpl. by rewrite (write_id m), write_id.
  - intros k p m' Hk [-> (t & Bt & ->)]. destruct (lookup_lt_is_Some_2 xs k Hk) as [x Hx].
    pose proof (pcbc_enc_lookup E iv xs k x Hx) as Hc. fold cs in Hc.
    rewrite (iv_at_next _ _ _ _ _ _ Hx Hc). set (v := iv_at _ _ _) in *.
    assert (block bsize v) as Bv by (by apply iv_at_block, zip_blocks).
    pose proof (inp_x k x Hx) as Bx. pose proof (xor_block _ _ _ Bx Bv) as Bxv.
    pose proof (E_block _ Bxv) as Bc. set (c := E (xor_bytes x v)) in *.
    destruct (inp_apart cs k x v t Hcs Hlen Hx Bv Bt) as (H1 & H2 & H3 & H4).
    apply wp_bind. eapply wp_det; [by apply (inp_save cs k x v t)|].
    apply wp_bind. eapply wp_det.
    { apply (xor_blocks _ _ _ v x); [apply layout_iv|by apply inp_src|done|done|unfold apart in *; lia]. }
    rewrite (xor_bytes_comm v x), layout_set_iv by done. apply wp_bind. eapply wp_det.
    { apply (encrypt_ok _ _ _ (xor_bytes x v)); [apply layout_iv|done|]. by apply (inp_src_mapped cs k x). }
    fold c. rewrite (layout_out src ivp cs) by done. apply wp_bind. eapply wp_det.
    { apply (memcpy_block _ _ _ x); [|done| |unfold apart in *; lia].
      - apply layout_read; try done; [rewrite Hlen; lia|apply write_arr].
      - by apply layout_mapped, mapped_write, (arr_block_mapped _ _ iv). }
    rewrite layout_set_iv by done. apply wp_bind. eapply wp_det.
    { apply (xor_blocks _ _ _ x c); [apply layout_iv| |done|done|unfold apart in *; lia].
      rewrite <- (layout_out src ivp cs) with (c := c) by done. apply write_arr. }
    apply wp_ret. split; [done|]. exists x. split; [done|]. rewrite (xor_bytes_comm x c).
    apply layout_set_iv; [done|by apply xor_block].
  - intros [p nb] m' [[-> (t & Bt & ->)] ->].
    assert (block bsize (pcbc_iv iv xs cs N)) as Bv by (by apply iv_at_block, zip_blocks).
    apply wp_bind. eapply wp_det.
    { apply (memcpy_block _ _ _ _ (layout_iv _ _ _ _ _ _) Bv); [|lia].
      by apply layout_mapped, mapped_write, (arr_block_mapped _ _ iv). }
    apply wp_ret. split; [done|]. exists t. split; [done|]. by apply layout_set_iv.
Qed.

Lemma pcbc_decrypt_inplace_ok :
  let ds := pcbc_dec D iv xs in
  exists t, block bsize t /\
  crypto_pcbc_decrypt_inplace tmpbuf src ivp (size + r) m =
    Ok (r, layout src ivp ds (write m tmpbuf t) N (pcbc_iv iv ds xs N)).
Proof using All.
  intros ds. assert (blocks ds) as Hbl by (by apply pcbc_dec_blocks).
  assert (length ds = N) as Hlen by apply pcbc_dec_length.
  enough (wp (crypto_pcbc_decrypt_inplace tmpbuf src ivp (size + r)) (fun n m' => n = r /\
    exists t, block bsize t /\ m' = layout src ivp ds (write m tmpbuf t) N (pcbc_iv iv ds xs N)) m) as Hwp.
  { apply wp_run in Hwp as (n & m' & -> & -> & t & Bt & ->). by exists t. }
  unfold crypto_pcbc_decrypt_inplace. apply wp_bind.
  eapply wp_mono; [apply (wp_do_blocks (fun k p m' => p = ivp /\
    exists t, block bsize t /\ m' = layout src ivp ds (write m tmpbuf t) k (pcbc_iv iv ds xs k)));
    [done|done| |]|].
  - split; [done|]. exists t0. split; [done|]. unfold layout, iv_at. simpl. by rewrite (write_id m), write_id.
  - intros k p m' Hk [-> (t & Bt & ->)]. destruct (lookup_lt_is_Some_2 xs k Hk) as [x Hx].
    pose proof (pcbc_dec_lookup D iv xs k x Hx) as Hd. fold ds in Hd.
    rewrite (iv_at_next _ _ _ _ _ _ Hd Hx). set (v := iv_at _ _ _) in *.
    assert (block bsize v) as Bv by (by apply iv_at_block, zip_blocks).
    pose proof (inp_x k x Hx) as Bx. pose proof (D_block _ Bx) as BD.
    pose proof (xor_block _ _ _ BD Bv) as Bd. set (d := xor_bytes (D x) v) in *.
    destruct (inp_apart ds k x v t Hbl Hlen Hx Bv Bt) as (H1 & H2 & H3 & H4).
    apply wp_bind. eapply wp_det; [by apply (inp_save ds k x v t)|].
    apply wp_bind. eapply wp_det.
    { apply (decrypt_ok _ _ _ x); [by apply inp_src|done|]. by apply (inp_src_mapped ds k x). }
    apply wp_bind. eapply wp_det.
    { apply (xor_blocks _ _ _ (D x) v); [apply write_arr| |done..].
      apply arr_write_disjoint; [|apply layout_iv]. destruct Bv, BD. unfold apart in *. lia. }
    rewrite write_write by (rewrite xor_bytes_length; destruct BD, Bv; lia).
    rewrite (layout_out src ivp ds) by done. apply wp_bind. eapply wp_det.
    { apply (memcpy_block _ _ _ x); [|done| |unfold apart in *; lia].
      - apply layout_read; try done; [rewrite Hlen; lia|apply write_arr].
      - by apply layout_mapped, mapped_write, (arr_block_mapped _ _ iv). }
    rewrite layout_set_iv by done. apply wp_bind. eapply wp_det.
    { apply (xor_blocks _ _ _ x d); [apply layout_iv| |done|done|unfold apart in *; lia].
      rewrite <- (layout_out src ivp ds) with (c := d) by done. apply write_arr. }
    apply wp_ret. split; [done|]. exists x. split; [done|]. apply layout_set_iv; [done|by apply xor_block].
  - intros [p nb] m' [[-> (t & Bt & ->)] ->].
    assert (block bsize (pcbc_iv iv ds xs N)) as Bv by (by apply iv_at_block, zip_blocks).
    apply wp_bind. eapply wp_det.
    { apply (memcpy_block _ _ _ _ (layout_iv _ _ _ _ _ _) Bv); [|lia].
      by apply layout_mapped, mapped_write, (arr_block_mapped _ _ iv). }
    apply wp_ret. split; [done|]. exists t. split; [done|]. by apply layout_set_iv.
Qed.
End Inplace.

(** ** Electronic code book *)

(** Input and output are the same buffer or do not overlap. *)
Lemma ecb_ok (F : list Z -> list Z) (fn : Z -> Z -> M unit) m dst src r xs :
  (forall x, block bsize x -> block bsize (F x)) ->
  (forall m dst src x, arr m src x -> block bsize x -> mapped m dst bsize ->
     fn dst src m = Ok (tt, write m dst (F x))) ->
  blocks xs -> (0 < length xs)%nat -> 0 <= r < bsize -> arr m src (concat xs) ->
  mapped m dst (bsize * Z.of_nat (length xs)) ->
  dst = src \/ areas_apart dst (bsize * Z.of_nat (length xs)) src (bsize * Z.of_nat (length xs)) ->
  crypto_ecb_crypt fn dst src (bsize * Z.of_nat (length xs) + r) m = Ok (r, write m dst (concat (map F xs))).
Proof using L.
  intros HF Hfn Hxs Hne Hr Hsrc Hdst Hd. pose proof bsize_pos as Hbs.
  assert (blocks (map F xs)) as Hout by (apply Forall_fmap; eapply Forall_impl; [done|]; intros; by apply HF).
  apply wp_eq. unfold crypto_ecb_crypt. apply wp_bind.
  eapply wp_mono; [apply (wp_do_blocks (fun k _ m' => m' = write m dst (concat (take k (map F xs)))));
    [done|done|done|]|].
  - intros k p m' Hk ->. destruct (lookup_lt_is_Some_2 xs k Hk) as [x Hx].
    pose proof (Forall_lookup_1 _ _ _ _ Hxs Hx) as Bx. apply wp_bind. eapply wp_det.
    { apply Hfn; [|done|].
      - apply arr_write_disjoint; [|by apply (arr_block _ _ xs)]. destruct Bx as [E _].
        rewrite take_blocks_length by (done || rewrite length_fmap; lia).
        destruct Hd as [->|Hd]; [lia|]. unfold areas_apart in Hd. nia.
      - apply mapped_write. apply (mapped_sub m dst (bsize * Z.of_nat (length xs))); [done|nia|nia]. }
    apply wp_ret. apply write_block; [done|]. by rewrite list_lookup_fmap, Hx.
  - intros [p nb] m' [-> ->]. apply wp_ret. split; [done|]. rewrite take_ge; [done|]. by rewrite length_fmap.
Qed.

Lemma map_D_E xs : blocks xs -> map D (map E xs) = xs.
Proof using Type. induction 1 as [|x xs Hx Hxs IH]; simpl; [done|]. by rewrite D_E, IH. Qed.

Lemma map_E_blocks xs : blocks xs -> blocks (map E xs).
Proof using Type. induction 1; simpl; constructor; [by apply E_block|done]. Qed.

Lemma layout_done dst ivp outs m v :
  blocks outs -> block bsize v -> areas_apart dst (bsize * Z.of_nat (length outs)) ivp bsize ->
  arr (layout dst ivp outs m (length outs) v) dst (concat outs).
Proof using Type.
  intros Ho [Hv _] Hd. unfold layout. rewrite take_ge by done.
  apply arr_write_disjoint; [|apply write_arr]. rewrite concat_length by done. unfold areas_apart in Hd. lia.
Qed.

(** What a step of a walk provides: [xs] at [src], the vector [iv] at [ivp], and
    [r] bytes after the last whole block. *)
Record walk_step (m : mem) (src ivp r : Z) (iv : list Z) (xs : list (list Z)) : Prop := {
  ws_blocks : blocks xs;
  ws_some : (0 < length xs)%nat;
  ws_rest : 0 <= r < bsize;
  ws_iv : block bsize iv;
  ws_src : arr m src (concat xs);
  ws_ivp : arr m ivp iv;
  ws_apart : areas_apart src (bsize * Z.of_nat (length xs)) ivp bsize;
}.
Abbreviation size xs := (bsize * Z.of_nat (length xs)).

(** The step after the vector has been put back: the same walk on the output. *)
Lemma walk_step_back m m1 src ivp r iv xs dst outs :
  walk_step m src ivp r iv xs -> blocks outs -> length outs = length xs ->
  areas_apart dst (size xs) ivp bsize -> arr m1 dst (concat outs) ->
  walk_step (write m1 ivp iv) dst ivp r iv outs.
Proof using L.
  intros [] Hb Hl Hd Ha. split; try done; [by rewrite Hl| |apply write_arr|by rewrite Hl].
  apply arr_write_disjoint; [|done]. destruct ws_iv0. rewrite concat_length by done.
  unfold areas_apart in Hd. rewrite Hl. lia.
Qed.

(** C28: for every cipher, encrypting a buffer in place in CBC mode and decrypting
    it in place with the same vector gives the buffer back; both passes return
    the bytes after the last whole block and leave the last block of the
    ciphertext as the vector of the next step. *)
Theorem cbc_inplace_roundtrip m src walk_iv last_iv r b iv xs :
  walk_step m src walk_iv r iv xs -> 0 <= b -> bsize = 2 ^ b ->
  mapped m last_iv bsize -> areas_apart src (size xs) last_iv bsize -> apart last_iv walk_iv bsize ->
  exists m1 c, crypto_cbc_encrypt_inplace src walk_iv (size xs + r) m = Ok (r, m1) /\
    arr m1 src (concat (cbc_enc E iv xs)) /\ last (cbc_enc E iv xs) = Some c /\ arr m1 walk_iv c /\
    exists m2, crypto_cbc_decrypt_inplace last_iv src walk_iv (size xs + r) (write m1 walk_iv iv) = Ok (r, m2) /\
      arr m2 src (concat xs) /\ arr m2 walk_iv c.
Proof using L.
  intros Hw Hb Hpow Hlm Hla Hli. pose proof Hw as [? ? ? Biv ? ? Hap].
  set (cs := cbc_enc E iv xs). assert (blocks cs) as Hcs by (by apply cbc_enc_blocks).
  assert (length cs = length xs) as Hlen by apply cbc_enc_length.
  destruct (last cs) as [c|] eqn:Hlast; [|by apply last_None in Hlast; rewrite Hlast in Hlen; simpl in Hlen; lia].
  assert (iv_at iv cs (length cs) = c) as Hc.
  { rewrite last_lookup in Hlast. unfold iv_at. destruct (length cs) as [|n] eqn:El; [lia|].
    simpl in Hlast |- *. by rewrite Hlast. }
  assert (block bsize c) as Bc by (rewrite <- Hc; by apply iv_at_block).
  set (m1 := layout src walk_iv cs m (length cs) c).
  assert (arr m1 src (concat cs)) as Ha by (apply layout_done; [done|done|by rewrite Hlen]).
  exists m1, c. split; [|split; [done|split; [done|split; [apply layout_iv|]]]].
  { rewrite (cbc_encrypt_inplace_ok _ _ _ _ iv) by done. fold cs. rewrite <- Hlen, Hc. unfold m1, layout.
    by rewrite take_ge by done. }
  destruct (walk_step_back m m1 src walk_iv r iv xs src cs Hw Hcs Hlen Hap Ha).
  rewrite <- Hlen in Hap, Hla |- *.
  rewrite (cbc_decrypt_inplace_ok _ _ _ _ iv cs) with (b := b); try done.
  2: { apply mapped_write. by do 2 apply mapped_write. }
  eexists. split; [done|]. replace (cbc_dec D iv cs) with xs by (symmetry; by apply cbc_dec_enc). rewrite Hc.
  split; [|apply write_arr]. apply arr_write_disjoint; [|apply write_arr].
  rewrite concat_length by done. destruct Bc. unfold areas_apart in Hap. rewrite Hlen in Hap. lia.
Qed.

(** The routines that work from one buffer to another agree with those that
    work in place: the same bytes, the same rest and the same next vector, for
    encryption and for decryption. *)
Theorem cbc_segment_inplace m dst src ivp last_iv r b iv xs :
  walk_step m src ivp r iv xs -> mapped m dst (size xs) ->
  areas_apart dst (size xs) src (size xs) -> areas_apart dst (size xs) ivp bsize ->
  0 <= b -> bsize = 2 ^ b ->
  mapped m last_iv bsize -> areas_apart src (size xs) last_iv bsize -> apart last_iv ivp bsize ->
  (exists m1 m2 out v,
    crypto_cbc_encrypt_segment dst src ivp (size xs + r) m = Ok (r, m1) /\
    crypto_cbc_encrypt_inplace src ivp (size xs + r) m = Ok (r, m2) /\
    length out = length (concat xs) /\ arr m1 dst out /\ arr m2 src out /\ arr m1 ivp v /\ arr m2 ivp v /\
    block bsize v) /\
  (exists m1 m2 out v,
    crypto_cbc_decrypt_segment dst src ivp (size xs + r) m = Ok (r, m1) /\
    crypto_cbc_decrypt_inplace last_iv src ivp (size xs + r) m = Ok (r, m2) /\
    length out = length (concat xs) /\ arr m1 dst out /\ arr m2 src out /\ arr m1 ivp v /\ arr m2 ivp v /\
    block bsize v).
Proof using L.
  intros [? ? ? Biv ? ? Hap] Hdm Hds Hdi Hb Hpow Hlm Hla Hli. split.
  - pose proof (cbc_enc_blocks iv xs Biv ws_blocks0) as Hcs. pose proof (cbc_enc_length E iv xs) as Hlen.
    pose proof (iv_at_block iv _ (length xs) Biv Hcs) as Bv.
    rewrite (cbc_encrypt_segment_ok _ _ _ _ _ iv), (cbc_encrypt_inplace_ok _ _ _ _ iv) by done.
    eexists _, _, (concat (cbc_enc E iv xs)), (iv_at iv (cbc_enc E iv xs) (length xs)).
    split; [done|]. split; [done|]. split; [apply Nat2Z.inj; rewrite !concat_length by done; by rewrite Hlen|].
    split; [rewrite <- Hlen at 1; apply layout_done; [done|done|by rewrite Hlen]|].
    split; [|split; [apply layout_iv|split; [apply write_arr|done]]].
    apply arr_write_disjoint; [|apply write_arr]. rewrite concat_length, Hlen by done.
    destruct Bv. unfold areas_apart in Hap. lia.
  - pose proof (cbc_dec_blocks iv xs Biv ws_blocks0) as Hcs. pose proof (cbc_dec_length D iv xs) as Hlen.
    pose proof (iv_at_block iv _ (length xs) Biv ws_blocks0) as Bv.
    rewrite (cbc_decrypt_segment_ok _ _ _ _ _ iv) by done. rewrite (cbc_decrypt_inplace_ok _ _ _ _ iv xs) with (b := b) by done.
    eexists _, _, (concat (cbc_dec D iv xs)), (iv_at iv xs (length xs)).
    split; [done|]. split; [done|]. split; [apply Nat2Z.inj; rewrite !concat_length by done; by rewrite Hlen|].
    split; [rewrite <- Hlen at 1; apply layout_done; [done|done|by rewrite Hlen]|].
    split; [|split; [apply layout_iv|split; [apply write_arr|done]]].
    apply arr_write_disjoint; [|apply write_arr]. rewrite concat_length, Hlen by done.
    destruct Bv. unfold areas_apart in Hap. lia.
Qed.

(** PCBC decryption undoes encryption, whichever of the two variants is used
    on either side: encrypting into another buffer and decrypting there in place,
    and encrypting in place and decrypting into another buffer, both give the
    plaintext back and end with the same vector on both sides. *)
Theorem pcbc_roundtrip m dst src ivp tmpbuf r iv t0 xs :
  walk_step m src ivp r iv xs -> mapped m dst (size xs) -> arr m tmpbuf t0 -> block bsize t0 ->
  areas_apart dst (size xs) src (size xs) -> areas_apart dst (size xs) ivp bsize ->
  areas_apart src (size xs) tmpbuf bsize -> areas_apart dst (size xs) tmpbuf bsize ->
  apart ivp tmpbuf bsize ->
  (exists m1 m2 v, crypto_pcbc_encrypt_segment dst src ivp (size xs + r) m = Ok (r, m1) /\
    arr m1 ivp v /\ block bsize v /\
    crypto_pcbc_decrypt_inplace tmpbuf dst ivp (size xs + r) (write m1 ivp iv) = Ok (r, m2) /\
    arr m2 dst (concat xs) /\ arr m2 ivp v) /\
  (exists m1 m2 v, crypto_pcbc_encrypt_inplace tmpbuf src ivp (size xs + r) m = Ok (r, m1) /\
    arr m1 ivp v /\ block bsize v /\
    crypto_pcbc_decrypt_segment dst src ivp (size xs + r) (write m1 ivp iv) = Ok (r, m2) /\
    arr m2 dst (concat xs) /\ arr m2 ivp v).
Proof using L.
  intros Hw Hdm Htmp Ht0 Hds Hdi Hst Hdt Hit. pose proof Hw as [Hxs ? ? Biv ? ? Hap].
  set (cs := pcbc_enc E iv xs). assert (blocks cs) as Hcs by (by apply pcbc_enc_blocks).
  assert (length cs = length xs) as Hlen by apply pcbc_enc_length.
  assert (pcbc_dec D iv cs = xs) as Hdec by (by apply pcbc_dec_enc).
  set (v := pcbc_iv iv xs cs (length xs)).
  assert (block bsize v) as Bv by (by apply iv_at_block, zip_blocks). split.
  - set (m1 := layout dst ivp cs m (length xs) v).
    assert (arr m1 dst (concat cs)) as Ha
      by (unfold m1; rewrite <- Hlen; apply layout_done; [done|done|by rewrite Hlen]).
    destruct (walk_step_back m m1 src ivp r iv xs dst cs Hw Hcs Hlen Hdi Ha).
    assert (arr (write m1 ivp iv) tmpbuf t0) as Htmp1.
    { unfold m1. rewrite layout_set_iv by done. apply layout_read; try done; rewrite Hlen; done || lia. }
    destruct (pcbc_decrypt_inplace_ok (write m1 ivp iv) tmpbuf dst ivp r iv t0 cs) as (t & Bt & Hrun);
      try done; try (by rewrite Hlen).
    rewrite Hdec, Hlen in Hrun. eexists m1, _, v.
    split; [by apply (pcbc_encrypt_segment_ok _ _ _ _ _ iv)|]. split; [apply layout_iv|]. split; [done|].
    split; [exact Hrun|]. split; [by apply layout_done|apply layout_iv].
  - destruct (pcbc_encrypt_inplace_ok m tmpbuf src ivp r iv t0 xs) as (t & Bt & Hrun); try done.
    fold cs v in Hrun. set (m1 := layout src ivp cs _ _ v) in Hrun.
    assert (arr m1 src (concat cs)) as Ha
      by (unfold m1; rewrite <- Hlen; apply layout_done; [done|done|by rewrite Hlen]).
    destruct (walk_step_back m m1 src ivp r iv xs src cs Hw Hcs Hlen Hap Ha).
    eexists m1, _, v. split; [done|]. split; [apply layout_iv|]. split; [done|].
    split.
    { rewrite <- Hlen. apply (pcbc_decrypt_segment_ok _ _ _ _ _ iv); try done; try (by rewrite Hlen).
      rewrite Hlen. by do 4 apply mapped_write. }
    rewrite Hdec, Hlen. split; [by apply layout_done|apply layout_iv].
Qed.

(** In ECB mode every block is encrypted on its own, into another buffer or in
    place, and decrypting the output in place gives the input back. *)
Theorem ecb_roundtrip m dst src r xs :
  blocks xs -> (0 < length xs)%nat -> 0 <= r < bsize -> arr m src (concat xs) -> mapped m dst (size xs) ->
  dst = src \/ areas_apart dst (size xs) src (size xs) ->
  exists m1, crypto_ecb_crypt cia_encrypt dst src (size xs + r) m = Ok (r, m1) /\
    arr m1 dst (concat (map E xs)) /\
    exists m2, crypto_ecb_crypt cia_decrypt dst dst (size xs + r) m1 = Ok (r, m2) /\ arr m2 dst (concat xs).
Proof using L.
  intros Hxs Hne Hr Hsrc Hdst Hd.
  rewrite (ecb_ok E _ m dst src r xs) by (done || apply E_block || apply encrypt_ok).
  eexists. split; [done|]. split; [apply write_arr|].
  assert (length (map E xs) = length xs) as Hlen by apply length_fmap. rewrite <- Hlen.
  rewrite (ecb_ok D _ _ dst dst r (map E xs)); [| apply D_block|apply decrypt_ok|by apply map_E_blocks|
    by rewrite Hlen|done|apply write_arr| |by left].
  - eexists. split; [done|]. rewrite map_D_E by done. apply write_arr.
  - rewrite Hlen. by apply mapped_write.
Qed.
End Laws.

(** ** Concrete runs, with TEA *)

Definition tea_key : tea_ctx := TeaCtx 1 2 3 4.

Definition demo_mem : mem :=
  memory [(100, [1; 2; 3; 4; 5; 6; 7; 8; 9; 10; 11; 12; 13; 14; 15; 16]);
          (200, [8; 7; 6; 5; 4; 3; 2; 1]); (300, [0; 0; 0; 0; 0; 0; 0; 0]);
          (400, [0; 0; 0; 0; 0; 0; 0; 0; 0; 0; 0; 0; 0; 0; 0; 0])].
Definition demo_blocks : list (list Z) := [[1; 2; 3; 4; 5; 6; 7; 8]; [9; 10; 11; 12; 13; 14; 15; 16]].
Definition demo_iv : list Z := [8; 7; 6; 5; 4; 3; 2; 1].

Ltac block_check := split; [reflexivity|repeat constructor; lia].

Lemma demo_step : @walk_step (tea_cipher tea_key) demo_mem 100 200 3 demo_iv demo_blocks.
Proof.
  split; [repeat constructor; try lia|simpl; lia|simpl; lia|block_check|mem_check|mem_check|].
  unfold areas_apart. simpl. lia.
Qed.

Lemma cbc_inplace_roundtrip_witness :
  exists m1 c, @crypto_cbc_encrypt_inplace (tea_cipher tea_key) 100 200 19 demo_mem = Ok (3, m1) /\
    arr m1 200 c /\
    exists m2, @crypto_cbc_decrypt_inplace (tea_cipher tea_key) 300 100 200 19 (write m1 200 demo_iv) = Ok (3, m2) /\
      arr m2 100 (concat demo_blocks) /\ arr m2 200 c.
Proof.
  destruct (@cbc_inplace_roundtrip (tea_cipher tea_key) (tea_laws tea_key) demo_mem 100 200 300 3 3 demo_iv
    demo_blocks demo_step) as (m1 & c & H1 & _ & _ & H2 & H3).
  - lia.
  - reflexivity.
  - change cra_blocksize with (Z.of_nat 8). mem_check.
  - unfold areas_apart. simpl. lia.
  - unfold apart. simpl. lia.
  - exists m1, c. auto.
Defined.

Lemma cbc_segment_inplace_witness :
  exists m1 m2 out, @crypto_cbc_encrypt_segment (tea_cipher tea_key) 400 100 200 19 demo_mem = Ok (3, m1) /\
    @crypto_cbc_encrypt_inplace (tea_cipher tea_key) 100 200 19 demo_mem = Ok (3, m2) /\
    arr m1 400 out /\ arr m2 100 out.
Proof.
  destruct (@cbc_segment_inplace (tea_cipher tea_key) (tea_laws tea_key) demo_mem 400 100 200 300 3 3 demo_iv
    demo_blocks demo_step) as [(m1 & m2 & out & v & H1 & H2 & _ & H3 & H4 & _) _].
  - change (cra_blocksize * Z.of_nat (length demo_blocks)) with (Z.of_nat 16). mem_check.
  - unfold areas_apart. simpl. lia.
  - unfold areas_apart. simpl. lia.
  - lia.
  - reflexivity.
  - change cra_blocksize with (Z.of_nat 8). mem_check.
  - unfold areas_apart. simpl. lia.
  - unfold apart. simpl. lia.
  - exists m1, m2, out. auto.
Defined.

Lemma pcbc_roundtrip_witness :
  exists m1 m2, @crypto_pcbc_encrypt_segment (tea_cipher tea_key) 400 100 200 19 demo_mem = Ok (3, m1) /\
    @crypto_pcbc_decrypt_inplace (tea_cipher tea_key) 300 400 200 19 (write m1 200 demo_iv) = Ok (3, m2) /\
    arr m2 400 (concat demo_blocks).
Proof.
  destruct (@pcbc_roundtrip (tea_cipher tea_key) (tea_laws tea_key) demo_mem 400 100 200 300 3 demo_iv
    [0; 0; 0; 0; 0; 0; 0; 0] demo_blocks demo_step) as [(m1 & m2 & v & H1 & _ & _ & H2 & H3 & _) _].
  - change (cra_blocksize * Z.of_nat (length demo_blocks)) with (Z.of_nat 16). mem_check.
  - mem_check.
  - block_check.
  - unfold areas_apart. simpl. lia.
  - unfold areas_apart. simpl. lia.
  - unfold areas_apart. simpl. lia.
  - unfold areas_apart. simpl. lia.
  - unfold apart. simpl. lia.
  - exists m1, m2. auto.
Defined.

Lemma ecb_roundtrip_witness :
  exists m1 m2, @crypto_ecb_crypt (tea_cipher tea_key) (tea_encrypt tea_key) 400 100 19 demo_mem = Ok (3, m1) /\
    @crypto_ecb_crypt (tea_cipher tea_key) (tea_decrypt tea_key) 400 400 19 m1 = Ok (3, m2) /\
    arr m2 400 (concat demo_blocks).
Proof.
  destruct (@ecb_roundtrip (tea_cipher tea_key) (tea_laws tea_key) demo_mem 400 100 3 demo_blocks)
    as (m1 & H1 & _ & m2 & H2 & H3).
  - repeat constructor; lia.
  - simpl. lia.
  - simpl. lia.
  - mem_check.
  - change (cra_blocksize * Z.of_nat (length demo_blocks)) with (Z.of_nat 16). mem_check.
  - right. unfold areas_apart. simpl. lia.
  - exists m1, m2. auto.
Defined.
